(* ===== verification/_CoqProject ===== *)
-Q . S2P
Prelude.v
Varint.v
OffsetTables.v
SectionFile.v
Gmap.v
PosMap.v
WordPosMap.v
Ordering.v
SiblingTable.v
TermTexts.v
TermMerge.v
DocFilter.v
Runs.v
SfxPost.v
SfxPostBlock.v
SfxPostRead.v
SfxPostFile.v
SfxPostTotal.v
WordSfxPost.v
WordSfxPostBlock.v
WordSfxPostFile.v
Text.v
EqualChunk.v
FuzzyDistance.v
FuzzySpans.v
FuzzyMatrix.v
FuzzyBits.v
FuzzyRuns.v
ParentRecord.v
ParentCodec.v
ParentRecordProofs.v
OldParents.v
ParentTable.v
GroupIndex.v
SuffixBuilder.v
SuffixBuild.v
SuffixBuildProofs.v
DocSet.v
Intersection.v
Exclude.v
BufferedUnion.v
QueryTrees.v
Dag.v
DagLevels.v
DagRun.v
DagFlow.v
DagNodes.v
DagExecute.v
Resolve.v
PostingSource.v
ResolveProofs.v
FstWalk.v
SegmentCut.v
WalkProofs.v
Utf8.v
Chains.v
FindLiteral.v
ChainProofs.v
Occurrences.v
SiblingChains.v
LiteralSearch.v
BuiltIndex.v
Literal.v
LiteralLimits.v
Contains.v
ContainsSearch.v
ContainsFiles.v
Collector.v
CollectorProofs.v
CollectorData.v
CollectorCalls.v
CollectorIndex.v
CollectorSearch.v
CollectorFiles.v
Binary.v
Snapshot.v
Delta.v
Sync.v
BlobCache.v
ShardRouter.v
