(* ===== verification/Prelude.v ===== *)
(** * Verification of the core of lucivy

    lucivy is a full-text search engine in Rust, a fork of tantivy with a
    substring engine of its own.  That engine, "SFX v3", cuts every value into
    chunks, gives each distinct chunk and each distinct word an ordinal, and
    keeps what is known of the ordinals in files beside a dictionary of their
    suffixes, one set per segment and per field.  Queries read those files
    byte by byte, without loading them.  Searches and commits run as graphs of
    nodes (luciole), combine document sets inherited from tantivy, and an
    index is sharded, exported and synchronised by lucistore.

    This library models these parts as they are written and proves, among
    others, that what is indexed is found: documents given to the collector,
    written to files by the writers and searched by [contains_v3] give matches
    that start where the query occurs in them, and for every occurrence within
    nine chunks a match with its byte span ([indexed_then_found]).

    ** The parts and how they interact

    Shared by all:
    - [Prelude.v] (this file): the outcomes of a Rust call, machine integers
      and their wrapping arithmetic, little-endian bytes, slices, cursors,
      bounded loops and binary search, the tactics and hint databases, and the
      lemmas the components share.  [Ordering.v]: keys, sorting, removal of
      duplicates.  [Text.v], [Utf8.v]: strings as characters and as bytes.

    The files of a segment ([src/src/suffix_fst/]):
    - [Varint.v] ([varint.rs]), [OffsetTables.v] ([block_offsets.rs]),
      [SectionFile.v] ([section_file.rs]): integers, offset tables and the
      section container, the units the other files are made of.
    - [Gmap.v] ([gmap.rs]): a segment's ordinals to the ids of the shard's
      dictionary and back.  [gmap_over] is what other readers rely on.
    - [PosMap.v] ([posmap.rs]), [WordPosMap.v] ([word_pos_map.rs]): document
      and position to ordinal, byte offset, or word.
    - [SiblingTable.v] ([sibling_table.rs]): which ordinals follow which.
    - [TermTexts.v], [TermMerge.v] ([termtexts_v3.rs]): the text and metadata
      of every ordinal, over one file or several generations, and their merge.
    - [DocFilter.v] ([query/posting_resolver.rs]): the document filter as a
      class with its laws.  [Runs.v], [SfxPost.v] with [SfxPostBlock.v],
      [SfxPostRead.v], [SfxPostFile.v], [SfxPostTotal.v] ([sfxpost_v2.rs]) and
      [WordSfxPost.v] with [WordSfxPostBlock.v], [WordSfxPostFile.v]
      ([word_sfxpost.rs]): the posting files of chunks and of words.
    - [ParentRecord.v] with [ParentCodec.v], [ParentRecordProofs.v] and
      [OldParents.v] ([builder_v3.rs]): the records that list the tokens a key
      is a suffix of.  [ParentTable.v] ([lucivy-fst/src/output_table.rs]) holds
      them, [GroupIndex.v] ([dictionary_pidx.rs]) finds the groups of large
      ones.
    - [SuffixBuilder.v] with [SuffixBuild.v], [SuffixBuildProofs.v]
      ([builder_v3.rs]): the dictionary's builder.

    From documents to files:
    - [EqualChunk.v] ([tokenizer/equal_chunk.rs]): the chunk tokenizer.
    - [Collector.v] with [CollectorProofs.v], [CollectorData.v],
      [CollectorCalls.v] ([collector_v3.rs], [indexer/sfx_dag_v3.rs]): interns
      the chunks and words of the documents, gives the final ordinals and
      feeds the builder and the writers.

    From a query to matches ([src/src/suffix_fst/briques/]):
    - [FstWalk.v], [SegmentCut.v], [WalkProofs.v] ([fst_walk.rs]): the walks
      over the dictionary and the cut of a shard's list to a segment.
    - [Chains.v], [ChainProofs.v], [SiblingChains.v] ([fst_walk.rs]): the
      tokens a query runs through.
    - [Resolve.v], [PostingSource.v], [ResolveProofs.v], [Occurrences.v]
      ([resolve.rs]): from chains to matches, by postings or position map.
    - [FindLiteral.v], [LiteralSearch.v], [BuiltIndex.v], [Literal.v],
      [LiteralLimits.v] ([composite.rs]): [find_literal_v3].
    - [Contains.v], [ContainsSearch.v], [ContainsFiles.v]
      ([orchestrator.rs], [composite.rs]): [contains_v3].
    - [CollectorIndex.v], [CollectorSearch.v], [CollectorFiles.v]: collector,
      builder, files and search composed.
    - [FuzzyDistance.v], [FuzzySpans.v], [FuzzyMatrix.v], [FuzzyBits.v],
      [FuzzyRuns.v] ([fuzzy_spans.rs]): fuzzy occurrences, by the full matrix,
      Myers' bit vectors and the windows of the long path.

    Document sets ([src/src/docset.rs], [src/src/query/]): [DocSet.v] (the
    trait as a class, its contract [DocSetLaws] with the danger zone),
    [Intersection.v], [Exclude.v] (exclusion and simple union),
    [BufferedUnion.v], [QueryTrees.v] (one inside the other).

    Graphs of nodes ([src/luciole/src/]): [Dag.v], [DagLevels.v] ([dag.rs]),
    [DagRun.v], [DagFlow.v], [DagExecute.v] ([runtime.rs]),
    [DagNodes.v] ([node.rs], [branch.rs], [gate.rs]).

    Storage and synchronisation ([src/lucistore/src/]): [Binary.v]
    ([binary.rs]) with the judgements on decoders, [Snapshot.v]
    ([snapshot.rs]), [Delta.v] ([delta.rs], [delta_sharded.rs]), [Sync.v]
    ([delta.rs], [sync_server.rs], [version.rs], [fs_utils.rs],
    [lucivy_core/src/sync.rs]), [BlobCache.v] ([blob_store.rs],
    [blob_cache.rs]), [ShardRouter.v] ([shard_router.rs]).

    A module holds the definitions, one per function of the source and under
    its name; the lemmas and theorems follow it, in the same file or in the
    files listed after it.  A struct is a [Record] with the fields the code
    uses, an enum an [Inductive].  A method that mutates its receiver returns
    the new one; a closure called for each item is replaced by the list of the
    items in the order of the calls.

    ** Conventions

    An integer of [w] bits is a [Z] with [fits w]; a byte string is a
    [list Z], [bytes_ok] when every element is a byte.  Additions and
    subtractions that can wrap are written with [add32] and [sub32]: the
    release profile has no overflow checks, and the delta codings rely on the
    wrapping.  A call is an [out]: a value, [None], a panic (a slice out of
    range, a failed assertion) or a loop out of fuel, so that a theorem that
    gives [Ret] shows there is no panic and that the loop ends, and [returns]
    says just that on arbitrary bytes.  Errors with a message are the right
    side of a sum, with the messages as constructors.  Scores of the router
    are binary64 numbers, computed by the standard library's specification.

    Loops take as fuel a bound the code has itself: ten bytes for a varint,
    the remaining bytes for a scan, the count read from a header for a walk,
    the length of the interval for a binary search, the number of nodes for
    the levels of a graph, 2^32 turns for a docset loop over 32-bit ids.  The
    stack loops of the chain search are proved to end with enough fuel, since
    a branch is given up at depth eight; theorems about them say so.

    What the code takes from elsewhere is a parameter with named hypotheses:
    the lower case of strings and characters ([lower_ok], [folds_to],
    [char_wise]), the order in which a hash map or set is visited (any
    permutation), a file system, any operation of which may fail and then
    touches its own file at most ([fs_laws]; [reliable] where success is
    concluded), a docset's components ([DocSetLaws]), a blob store, any call
    of which may fail ([StoreLaws], which the in-memory store with its lock
    meets).  The transducer of [lucivy-fst] is represented by the pairs
    inserted in it.

    ** What the theorems show

    - End to end: [indexed_then_found], over any files that answer for the
      collected data ([serves]), the sibling table included when it is loaded,
      discharged for the posting, position-map and sibling-table files in
      [CollectorFiles.v]; [contains_spans], [literal_found],
      [built_candidates] for the stages.  A query is at most 2048 bytes (2^31
      for [find_literal_v3]); occurrences within nine tokens are found once
      the cap on matches is large enough, and [long_literal_lost] shows that
      a limit near it is one of the code: nothing longer than ten tokens and
      what the texts hold behind the last is ever found.  Lower case is taken
      to keep the byte length of the tokens, and for [contains_v3] to be that
      of the characters one by one; [folded_in_two_ways] shows what happens to
      a query for which it is not.  With a sibling table a match may be
      reported again with another end ([sibling_match_too_long]); without one
      every match has the end of the occurrence.
      Documents are one value each, of less than 2^32 - 1 bytes, their total
      weight below 2^28, ordinals of 32 bits; two assertions on file sizes in
      [into_data] are the hypothesis [files_fit].
    - Round trips: each file opens, and each accessor answers for every
      argument, absent keys included, what an abstract description of the
      writes says: [postings_roundtrip], [postings_lookup],
      [word_postings_roundtrip], [word_postings_entry_at],
      [termtexts_roundtrip], [posmap_roundtrip], [posmap_byte_at],
      [posmap_index_replay], [word_pos_map_replay], [sibling_roundtrip],
      [gmap_roundtrip], [section_file_roundtrip], [block_offsets_roundtrip],
      [varint_roundtrip], [parent_record_roundtrip] (fewer than 2^57 parents),
      [suffix_build_correct] and [suffix_found] (fewer than 2^32 key bytes),
      [snapshot_roundtrip], [sharded_delta_roundtrip], [router_roundtrip].
    - Equivalences of an optimised routine with a plain one:
      [postings_filtered], [chains_resolved_alike], [cut_is_filter],
      [write_merged_same_bytes], [write_merged_preserves_lookups],
      [parent_record_selective], [group_index_lookup],
      [lower_bound_from_correct], [fuzzy_spans_correct],
      [fuzzy_spans_long_same], [last_row_correct], [within_distance_exact],
      [manifest_agrees_with_import], [execute_dag_same].
    - Refinements and invariants: the docsets answer every allowed sequence
      of calls as the list of their documents ([intersection_refines],
      [exclude_refines], [simple_union_refines], [buffered_union_refines]); a
      run computes the data flow of its graph
      ([execute_sequential_dataflow]), [topological_levels_correct],
      [dag_wiring], [rollback_restores]; chunking loses nothing
      ([chunking_lossless]); a client whose apply returned has what the delta
      says, whatever operations of its file system failed, but for the
      bundles whose names start with a retired id ([synchronised_shards]),
      the server answers from its recent history ([server_history]), the
      manifest is switched at once ([failed_apply_manifest]), the cache and
      the store agree on every file whose last call returned
      ([cache_consistent]), the router's counters add up
      ([router_counters]).
    - Arbitrary bytes: [postings_total], [termtexts_total],
      [sibling_flat_total], [section_file_total], [read_varint_total],
      [manifest_agrees_with_import], [sharded_delta_total].  The block-coded
      offset table trusts its own header, so the first three speak of the
      layouts, or of the accessors, that do not read one.
    - Limits and faults, proved as what the code does:
      [varint_u32_wide_values], [word_pos_map_marker_collision],
      [word_postings_wsp5_backwards], [long_literal_lost],
      [folded_in_two_ways], [intersection_advance_hangs],
      [failed_apply_loses_segment], [retired_prefix_loses_current],
      [resync_hash_differs]; and runs of examples that show one:
      [long_literal_not_found], [sibling_match_too_long],
      [union_returns_a_non_match], [branch_not_taken_runs_inline],
      [parallel_siblings_not_undone].

    The hypotheses of the round trips ([posts_ok], [words_ok], [writer_ok],
    [docs_ok], [ids_ok], [table_fits], [snapshot_ok], [sharded_ok],
    [router_ok]) say that each field fits the width the source gives it and
    that a file stays below the four gigabytes its offsets can address.
    [encode_parent_record_v8] of no parents gives a byte on which the decoder
    panics; the builder never asks for it.

    ** What is not modelled

    - Of the substring engine: the relaxed mode, the word pipeline, the regex
      and trigram searches and the plans over the briques; the collector in a
      shard with its own dictionary, the shard dictionary, its Bloom filter
      and compaction ([dictionary*.rs]); the merge of sibling tables; the
      container of the transducer ([file_v3.rs]) and the transducer itself,
      whose queries are those of the pairs it holds; the superseded formats.
    - Of the query layer: costs, size hints, scores and the choice of
      specialised scorers, which change no document; weights and the parser.
    - Of luciole: events, taps, timings, the scheduler, the actors and the
      streams, which are threads and channels; a node's task is a function of
      the node and its inputs, so the panic of [PortValue::take] on a value
      that is still shared is not modelled.
    - Of lucistore: JSON manifests, paths, local reads that fail,
      shard storage, the exporter over a lucivy index.
    - The indexer, the inherited index structures (postings, positions, term
      dictionary, store, fast fields, aggregations), sparse vectors, the
      handles of lucivy_core and the bindings: file and thread management, or
      code of tantivy that the fork leaves as it was.
    - Memory mapping, reference counting, traces and counters: a reader holds
      the bytes.  Reserved capacities are modelled where a posting file
      decides them ([with_capacity]: the panic on more than [isize::MAX]
      bytes), and nowhere whether the memory can be had. *)
From stdpp Require Export prelude list list_numbers sorting.
From Stdlib Require Export ZArith Lia.

#[export] Set Default Goal Selector "!".
#[export] Set Warnings "-clear-no-such-hyp".
Open Scope Z_scope.

(** ** Outcomes *)

(** What a call of a Rust function can come to.  [Ret a] is a normal return;
    [Nothing] is the return of [None] from a function whose result is an
    [Option] (so the [?] operator is the monadic bind); [Panic] is an
    out-of-range index or slice, or a failed [assert!]; [OutOfFuel] marks a
    loop whose bound on the number of iterations was not enough, and never
    occurs in a correct statement: every functional theorem gives [Ret] or
    [Nothing]. *)
Inductive out (A : Type) : Type :=
| Ret (a : A)
| Nothing
| Panic
| OutOfFuel.
Arguments Ret {A} a.
Arguments Nothing {A}.
Arguments Panic {A}.
Arguments OutOfFuel {A}.

#[export] Instance out_mret : MRet out := @Ret.
#[export] Instance out_mbind : MBind out := λ A B f m,
  match m with
  | Ret a => f a
  | Nothing => Nothing
  | Panic => Panic
  | OutOfFuel => OutOfFuel
  end.
#[export] Instance out_fmap : FMap out := λ A B f m,
  match m with
  | Ret a => Ret (f a)
  | Nothing => Nothing
  | Panic => Panic
  | OutOfFuel => OutOfFuel
  end.

(** [let Some(x) = m else { d }], [m.unwrap_or(d)]: the [None] case handled
    by the caller, a panic still a panic. *)
Definition or_else {A} (m : out A) (d : out A) : out A :=
  match m with
  | Nothing => d
  | _ => m
  end.

(** The [Option] a call returns, as a value the caller inspects. *)
Definition catch {A} (m : out A) : out (option A) :=
  match m with
  | Ret a => Ret (Some a)
  | Nothing => Ret None
  | Panic => Panic
  | OutOfFuel => OutOfFuel
  end.

(** An [Option] held in a value, used with [?]. *)
Definition of_option {A} (o : option A) : out A :=
  match o with
  | Some a => Ret a
  | None => Nothing
  end.

(** [assert!(b)]. *)
Definition assert_ {A} (b : bool) (k : out A) : out A :=
  if b then k else Panic.

(** The call returned, to a value or to [None]: it neither panicked nor ran
    out of fuel. *)
Definition returns {A} (m : out A) : Prop :=
  match m with
  | Ret _ | Nothing => True
  | Panic | OutOfFuel => False
  end.

(** The call returned [None], or a value with the property. *)
Definition opens {A} (P : A → Prop) (m : out A) : Prop :=
  match m with
  | Ret a => P a
  | Nothing => True
  | Panic | OutOfFuel => False
  end.

(** ** Machine integers *)

(** An unsigned [w]-bit integer is a [Z] in range. *)
Definition fits (w v : Z) : Prop := 0 ≤ v < 2 ^ w.

#[export] Instance fits_dec w v : Decision (fits w v).
Proof. unfold fits. apply _. Defined.

(** [v as u8], [v as u16], [v as u32], [v as u64]. *)
Definition as_u8 (v : Z) : Z := v mod 2 ^ 8.
Definition as_u16 (v : Z) : Z := v mod 2 ^ 16.
Definition as_u32 (v : Z) : Z := v mod 2 ^ 32.
Definition as_u64 (v : Z) : Z := v mod 2 ^ 64.

(** [wrapping_add] / [wrapping_sub] on [u32]; also what [+] and [-] compute
    in a release build ([overflow-checks] is off outside the test profile). *)
Definition add32 (a b : Z) : Z := as_u32 (a + b).
Definition sub32 (a b : Z) : Z := as_u32 (a - b).
(** [saturating_sub] on any unsigned width. *)
Definition saturating_sub (a b : Z) : Z := Z.max 0 (a - b).
Definition u32_max : Z := 2 ^ 32 - 1.
Definition u16_max : Z := 2 ^ 16 - 1.
(** [a.div_ceil(b)]. *)
Definition div_ceil (a b : Z) : Z := (a + b - 1) / b.

(** ** Byte buffers and slices *)

(** [l.len()]. *)
Definition len {A} (l : list A) : Z := Z.of_nat (length l).

(** [&l[a..b]]: panics out of range. *)
Definition slice {A} (l : list A) (a b : Z) : out (list A) :=
  if (0 <=? a) && (a <=? b) && (b <=? len l)
  then Ret (take (Z.to_nat (b - a)) (drop (Z.to_nat a) l))
  else Panic.

(** [&l[a..]]. *)
Definition slice_from {A} (l : list A) (a : Z) : out (list A) :=
  slice l a (len l).

(** [l.get(i)] and [l.get(a..b)]: [None] out of range. *)
Definition get {A} (l : list A) (i : Z) : out A :=
  if 0 <=? i then of_option (l !! Z.to_nat i) else Nothing.
Definition get_range {A} (l : list A) (a b : Z) : out (list A) :=
  match slice l a b with Panic => Nothing | m => m end.

(** [l[i]]: panics out of range. *)
Definition index {A} (l : list A) (i : Z) : out A :=
  match get l i with Nothing => Panic | m => m end.

(** [v.to_le_bytes()] on an [n]-byte integer. *)
Fixpoint to_le_bytes (n : nat) (v : Z) : list Z :=
  match n with
  | O => []
  | S n => v mod 256 :: to_le_bytes n (v / 256)
  end.

(** [uN::from_le_bytes(l)]. *)
Fixpoint from_le_bytes (l : list Z) : Z :=
  match l with
  | [] => 0
  | b :: l => b + 256 * from_le_bytes l
  end.

(** [uN::from_le_bytes(l[i..i + N / 8].try_into().unwrap())]. *)
Definition le_at (n : nat) (l : list Z) (i : Z) : out Z :=
  from_le_bytes <$> slice l i (i + Z.of_nat n).
Definition u16_at := le_at 2.
Definition u32_at := le_at 4.
Definition u64_at := le_at 8.

(** Every element of the buffer is a [u8]. *)
Definition bytes_ok (l : list Z) : Prop := Forall (fits 8) l.

(** [&bytes[a..b] == magic], once the length is known to be enough. *)
Definition bytes_eqb (a b : list Z) : bool := bool_decide (a = b).

(** [for i in a..b], as the list of the indices visited. *)
Definition range (a b : Z) : list Z := seqZ a (b - a).

(** [v.resize(n, d)]: truncated or extended with [d]. *)
Definition resize {A} (n : Z) (d : A) (l : list A) : list A :=
  take (Z.to_nat n) (l ++ replicate (Z.to_nat (n - len l)) d).

(** [l[i] = x], after the bound was checked. *)
Definition set_at {A} (i : Z) (x : A) (l : list A) : list A :=
  <[Z.to_nat i := x]> l.

(** ** Loops *)

(** [while lo < hi { let mid = lo + (hi - lo) / 2; if p(mid) { lo = mid + 1 }
    else { hi = mid } }], the value of [lo] at the end. *)
Fixpoint bisect_loop (fuel : nat) (p : Z → out bool) (lo hi : Z) : out Z :=
  if lo <? hi then
    match fuel with
    | O => OutOfFuel
    | S fuel =>
        let mid := lo + (hi - lo) / 2 in
        b ← p mid;
        if (b : bool) then bisect_loop fuel p (mid + 1) hi
        else bisect_loop fuel p lo mid
    end
  else Ret lo.

(** The loop shrinks [hi - lo] at every step: that many steps are enough. *)
Definition bisect (p : Z → out bool) (lo hi : Z) : out Z :=
  bisect_loop (Z.to_nat (hi - lo)) p lo hi.

(** The same search for the last index that satisfies [p], 0 when none:
    [while lo < hi { let mid = lo + (hi - lo) / 2 + 1; if p(mid) { lo = mid }
    else { hi = mid - 1 } }]. *)
Fixpoint bisect_last_loop (fuel : nat) (p : Z → out bool) (lo hi : Z) : out Z :=
  if lo <? hi then
    match fuel with
    | O => OutOfFuel
    | S fuel =>
        let mid := lo + (hi - lo) / 2 + 1 in
        b ← p mid;
        if (b : bool) then bisect_last_loop fuel p mid hi
        else bisect_last_loop fuel p lo (mid - 1)
    end
  else Ret lo.

Definition bisect_last (p : Z → out bool) (lo hi : Z) : out Z :=
  bisect_last_loop (Z.to_nat (hi - lo)) p lo hi.

(** [for x in l { ... }] over a state, with early exit on [None] or a panic. *)
Fixpoint foldM {A B} (f : B → A → out B) (b : B) (l : list A) : out B :=
  match l with
  | [] => Ret b
  | a :: l => b ← f b a; foldM f b l
  end.

(** [.map(f).collect()] when [f] can fail. *)
Fixpoint mapM_out {A B} (f : A → out B) (l : list A) : out (list B) :=
  match l with
  | [] => Ret []
  | a :: l => b ← f a; bs ← mapM_out f l; Ret (b :: bs)
  end.

(** [l.chunks(n)]: runs of [n] elements, the last one shorter. *)
Fixpoint chunks_loop {A} (fuel : nat) (n : nat) (l : list A) : list (list A) :=
  match fuel, l with
  | S fuel, _ :: _ => take n l :: chunks_loop fuel n (drop n l)
  | _, _ => []
  end.
Definition chunks {A} (n : nat) (l : list A) : list (list A) :=
  chunks_loop (length l) n l.

(** ** Cursors *)

(** [At data pos rest]: [rest] is what remains of [data] at [pos].  Sequential
    decoders are specified against it: each read consumes a prefix of [rest]
    and moves [pos]. *)
Definition At {A} (data : list A) (pos : Z) (rest : list A) : Prop :=
  0 ≤ pos ≤ len data ∧ drop (Z.to_nat pos) data = rest.

(** ** Notation and automation *)

Declare Scope bytes_scope.
(** [#l] is the length of a buffer. *)
Notation "# l" := (len l) (at level 8, format "# l") : bytes_scope.
Open Scope bytes_scope.

Arguments len : simpl never.
Arguments slice : simpl never.
Arguments to_le_bytes : simpl never.
Arguments from_le_bytes : simpl never.
Arguments Z.mul : simpl never.
Arguments Z.pow : simpl never.
Arguments Z.modulo : simpl never.
Arguments Z.div : simpl never.
Arguments Z.lor : simpl never.
Arguments Z.land : simpl never.
Arguments Z.shiftl : simpl never.
Arguments Z.shiftr : simpl never.

Create HintDb bytes.
Create Rewrite HintDb len.

(** Unfolds the machine-integer predicates so that [lia] sees the bounds. *)
Ltac widths :=
  unfold fits, u32_max, u16_max in *;
  change (2 ^ 8) with 256 in *; change (2 ^ 16) with 65536 in *;
  change (2 ^ 32) with 4294967296 in *;
  change (2 ^ 64) with 18446744073709551616 in *.

(** Decides the boolean test of the next [if] with [lia]. *)
Ltac case_lia :=
  match goal with
  | |- context [if ?b then _ else _] =>
      first
        [ replace b with true by lia
        | replace b with false by lia
        | destruct b eqn:? ]
  end.

(** ** Outcome lemmas *)

Lemma bind_ret {A B} (a : A) (f : A → out B) : (Ret a ≫= f) = f a.
Proof. reflexivity. Qed.

Lemma fmap_ret {A B} (a : A) (f : A → B) : f <$> Ret a = Ret (f a).
Proof. reflexivity. Qed.

Lemma bind_ret_inv {A B} (m : out A) (f : A → out B) b :
  m ≫= f = Ret b → ∃ a, m = Ret a ∧ f a = Ret b.
Proof. destruct m; simpl; intros; try discriminate; eauto. Qed.

Lemma returns_bind {A B} (m : out A) (f : A → out B) :
  returns m → (∀ a, m = Ret a → returns (f a)) → returns (m ≫= f).
Proof. destruct m; naive_solver. Qed.

Lemma opens_inv {A} (P : A → Prop) (m : out A) :
  opens P m → m = Nothing ∨ ∃ a, m = Ret a ∧ P a.
Proof. destruct m; simpl; [eauto|auto|done|done]. Qed.

Lemma foldM_app {A B} (f : B → A → out B) b l1 l2 :
  foldM f b (l1 ++ l2) = (foldM f b l1 ≫= λ b', foldM f b' l2).
Proof.
  revert b. induction l1 as [|a l1 IH]; intros b; [done|]. simpl.
  by destruct (f b a); simpl.
Qed.

Lemma mapM_out_pure {A B} (f : A → out B) (g : A → B) l :
  (∀ a, a ∈ l → f a = Ret (g a)) → mapM_out f l = Ret (map g l).
Proof.
  induction l as [|a l IH]; intros H; [done|]. simpl.
  rewrite H by set_solver. rewrite bind_ret, IH; [done|]. set_solver.
Qed.

Lemma mapM_out_length {A B} (f : A → out B) l bs :
  mapM_out f l = Ret bs → length bs = length l.
Proof.
  revert bs. induction l as [|a l IH]; simpl; intros bs H.
  - by simplify_eq.
  - apply bind_ret_inv in H as (b & _ & H).
    apply bind_ret_inv in H as (bs' & Hb & H). simplify_eq. simpl.
    by rewrite (IH bs').
Qed.

(** ** Length lemmas *)

Section Lengths.
Context {A : Type}.
Implicit Types l : list A.

Lemma len_nonneg l : 0 ≤ #l.
Proof. unfold len. lia. Qed.

Lemma len_nil : #([] : list A) = 0.
Proof. reflexivity. Qed.

Lemma len_cons a l : #(a :: l) = 1 + #l.
Proof. unfold len. simpl. lia. Qed.

Lemma len_app l1 l2 : #(l1 ++ l2) = #l1 + #l2.
Proof. unfold len. rewrite length_app. lia. Qed.

Lemma len_take n l : #(take n l) = Z.min (Z.of_nat n) #l.
Proof. unfold len. rewrite length_take. lia. Qed.

Lemma len_drop n l : #(drop n l) = Z.max 0 (#l - Z.of_nat n).
Proof. unfold len. rewrite length_drop. lia. Qed.

Lemma len_replicate n (a : A) : #(replicate n a) = Z.of_nat n.
Proof. unfold len. by rewrite length_replicate. Qed.

Lemma len_insert i a l : #(<[i := a]> l) = #l.
Proof. unfold len. by rewrite length_insert. Qed.

Lemma len_map {B} (f : A → B) l : #(map f l) = #l.
Proof. unfold len. by rewrite length_map. Qed.

Lemma len_fmap {B} (f : A → B) l : #(f <$> l) = #l.
Proof. unfold len. by rewrite length_fmap. Qed.

Lemma len_to_nat l : Z.to_nat #l = length l.
Proof. unfold len. lia. Qed.
End Lengths.

Lemma len_to_le_bytes n v : #(to_le_bytes n v) = Z.of_nat n.
Proof.
  revert v. induction n as [|n IH]; intros v; [done|].
  simpl. unfold to_le_bytes; fold to_le_bytes. rewrite len_cons, IH. lia.
Qed.

Lemma length_to_le_bytes n v : length (to_le_bytes n v) = n.
Proof. pose proof (len_to_le_bytes n v). unfold len in *. lia. Qed.

#[export] Hint Rewrite @len_nil @len_cons @len_app @len_replicate @len_insert
  @len_map @len_fmap len_to_le_bytes @len_take @len_drop : len.

(** Computes lengths, then arithmetic. *)
Ltac lens := autorewrite with len in *.
Ltac llia := repeat match goal with
  | l : list _ |- _ =>
      lazymatch goal with
      | _ : 0 ≤ #l |- _ => fail
      | _ => pose proof (len_nonneg l)
      end
  end; lens; try lia.

(** Decides the next [if] by computing lengths. *)
Ltac case_len :=
  match goal with
  | |- context [if ?b then _ else _] =>
      let E := fresh in destruct b eqn:E; try (exfalso; lens; lia); clear E
  end.

(** ** Little-endian integers *)

Lemma from_le_bytes_cons b l : from_le_bytes (b :: l) = b + 256 * from_le_bytes l.
Proof. reflexivity. Qed.

Lemma to_le_bytes_S n v : to_le_bytes (S n) v = v mod 256 :: to_le_bytes n (v / 256).
Proof. reflexivity. Qed.

Lemma pow256_S (n : nat) : 2 ^ (8 * Z.of_nat (S n)) = 256 * 2 ^ (8 * Z.of_nat n).
Proof.
  replace (8 * Z.of_nat (S n)) with (8 + 8 * Z.of_nat n) by lia.
  rewrite Z.pow_add_r by lia. reflexivity.
Qed.

Lemma from_to_le_bytes_mod n v :
  from_le_bytes (to_le_bytes n v) = v mod 2 ^ (8 * Z.of_nat n).
Proof.
  revert v. induction n as [|n IH]; intros v.
  - change (2 ^ (8 * Z.of_nat 0)) with 1. by rewrite Z.mod_1_r.
  - rewrite to_le_bytes_S, from_le_bytes_cons, IH, pow256_S.
    rewrite Z.rem_mul_r by lia. lia.
Qed.

Lemma from_to_le_bytes n v :
  fits (8 * Z.of_nat n) v → from_le_bytes (to_le_bytes n v) = v.
Proof. intros H. rewrite from_to_le_bytes_mod. by apply Z.mod_small. Qed.

Lemma to_le_bytes_ok n v : bytes_ok (to_le_bytes n v).
Proof.
  revert v. induction n as [|n IH]; intros v; [constructor|].
  rewrite to_le_bytes_S. constructor; [|apply IH].
  apply Z.mod_pos_bound. lia.
Qed.

Lemma take_to_le_bytes (k n : nat) v :
  (k ≤ n)%nat → take k (to_le_bytes n v) = to_le_bytes k v.
Proof.
  revert n v. induction k as [|k IH]; intros [|n] v H; try done; [lia|].
  rewrite !to_le_bytes_S. simpl. by rewrite IH by lia.
Qed.

Lemma from_le_bytes_zeros l n :
  from_le_bytes (l ++ replicate n 0) = from_le_bytes l.
Proof.
  induction l as [|b l IH]; simpl.
  - induction n as [|n IH]; [done|]. simpl. rewrite from_le_bytes_cons, IH. done.
  - by rewrite !from_le_bytes_cons, IH.
Qed.

Lemma from_le_bytes_bound l :
  bytes_ok l → 0 ≤ from_le_bytes l < 2 ^ (8 * #l).
Proof.
  induction 1 as [|b l Hb _ IH]; [done|].
  rewrite from_le_bytes_cons, len_cons.
  replace (8 * (1 + #l)) with (8 + 8 * #l) by lia.
  rewrite Z.pow_add_r by (pose proof (len_nonneg l); lia).
  widths. lia.
Qed.

#[global] Opaque to_le_bytes from_le_bytes.

(** A field stored above [s] bits. *)
Lemma lor_shiftl_add a b s :
  0 ≤ s → 0 ≤ a < 2 ^ s → Z.lor a (Z.shiftl b s) = a + b * 2 ^ s.
Proof.
  intros Hs Ha. rewrite <- Z.shiftl_mul_pow2 by lia.
  symmetry. rewrite Z.add_nocarry_lxor, Z.lxor_lor; [done| |].
  all: apply Z.bits_inj'; intros n Hn; rewrite Z.land_spec, Z.bits_0.
  all: destruct (decide (n < s)); [rewrite Z.shiftl_spec_low by lia; apply andb_false_r|].
  all: rewrite <- (Z.mod_small a (2 ^ s)), Z.mod_pow2_bits_high by lia; done.
Qed.

(** ** Wrapping arithmetic *)

Lemma sub32_fits a b : fits 32 (sub32 a b).
Proof. apply Z.mod_pos_bound. lia. Qed.

Lemma add_sub32 a b : fits 32 b → add32 a (sub32 b a) = b.
Proof.
  intros Hb. unfold add32, sub32, as_u32. rewrite Zplus_mod_idemp_r.
  replace (a + (b - a)) with b by lia. by apply Z.mod_small.
Qed.

Lemma sub32_id a : fits 32 a → sub32 a 0 = a.
Proof. intros H. unfold sub32, as_u32. rewrite Z.sub_0_r. by apply Z.mod_small. Qed.

Lemma add32_fits a b : fits 32 (add32 a b).
Proof. apply Z.mod_pos_bound. lia. Qed.

Lemma fits_32_64 v : fits 32 v → fits 64 v.
Proof. widths. lia. Qed.
#[export] Hint Resolve sub32_fits add32_fits fits_32_64 : bytes.

Lemma map_as_u32 l : Forall (fits 32) l → map as_u32 l = l.
Proof.
  induction 1 as [|v l Hv _ IH]; [done|]. simpl. rewrite IH. f_equal. by apply Z.mod_small.
Qed.

(** ** Slices *)

Section Slices.
Context {A : Type}.
Implicit Types l pre post x : list A.

Lemma slice_ret l a b :
  0 ≤ a → a ≤ b → b ≤ #l →
  slice l a b = Ret (take (Z.to_nat (b - a)) (drop (Z.to_nat a) l)).
Proof. intros. unfold slice. by case_lia. Qed.

Lemma slice_inv l a b x :
  slice l a b = Ret x →
  0 ≤ a ∧ a ≤ b ∧ b ≤ #l ∧ x = take (Z.to_nat (b - a)) (drop (Z.to_nat a) l).
Proof.
  unfold slice. destruct (_ && _) eqn:E; [|done]. intros H. simplify_eq.
  repeat split; lia.
Qed.

Lemma slice_len l a b x : slice l a b = Ret x → #x = b - a.
Proof.
  intros (? & ? & ? & ->)%slice_inv. rewrite len_take, len_drop. lia.
Qed.

Lemma slice_mid pre x post a b :
  a = #pre → b = a + #x → slice (pre ++ x ++ post) a b = Ret x.
Proof.
  intros -> ->. rewrite slice_ret by llia.
  replace (#pre + #x - #pre) with #x by lia.
  by rewrite !len_to_nat, drop_app_length, take_app_length.
Qed.

Lemma slice_prefix x post b : b = #x → slice (x ++ post) 0 b = Ret x.
Proof. intros ->. apply (slice_mid [] x post); llia. Qed.

Lemma slice_all l b : b = #l → slice l 0 b = Ret l.
Proof. intros ->. pose proof (slice_prefix l [] #l) as H. rewrite app_nil_r in H. auto. Qed.

Lemma slice_app_l l l' a b :
  b ≤ #l → slice (l ++ l') a b = slice l a b.
Proof.
  intros Hb. unfold slice. rewrite len_app.
  destruct (decide (0 ≤ a ∧ a ≤ b)) as [[Ha Hab]|Hn].
  - pose proof (len_nonneg l').
    replace ((0 <=? a) && (a <=? b) && (b <=? #l + #l')) with true by lia.
    replace ((0 <=? a) && (a <=? b) && (b <=? #l)) with true by lia.
    rewrite drop_app_le by (unfold len in *; lia).
    rewrite take_app_le; [done|]. rewrite length_drop. unfold len in *. lia.
  - replace ((0 <=? a) && (a <=? b) && (b <=? #l + #l')) with false by lia.
    by replace ((0 <=? a) && (a <=? b) && (b <=? #l)) with false by lia.
Qed.

Lemma slice_app_r l l' a b :
  #l ≤ a → slice (l ++ l') a b = slice l' (a - #l) (b - #l).
Proof.
  intros Ha. unfold slice. rewrite len_app.
  pose proof (len_nonneg l).
  replace ((0 <=? a) && (a <=? b) && (b <=? #l + #l'))
    with ((0 <=? a - #l) && (a - #l <=? b - #l) && (b - #l <=? #l')) by lia.
  replace (b - #l - (a - #l)) with (b - a) by lia.
  rewrite drop_app_ge by (unfold len in *; lia).
  by replace (Z.to_nat a - length l)%nat with (Z.to_nat (a - #l))
    by (unfold len in *; lia).
Qed.

Lemma slice_returns l a b :
  0 ≤ a → a ≤ b → b ≤ #l → ∃ x, slice l a b = Ret x.
Proof. intros. rewrite slice_ret by done. eauto. Qed.

Lemma slice_from_app pre post a : a = #pre → slice_from (pre ++ post) a = Ret post.
Proof.
  intros ->. unfold slice_from. rewrite <- (app_nil_r post) at 1.
  apply slice_mid; llia.
Qed.

Lemma get_lookup l (i : Z) (x : A) : 0 ≤ i → l !! Z.to_nat i = Some x → get l i = Ret x.
Proof. intros Hi Hx. unfold get. case_lia. by rewrite Hx. Qed.

Lemma get_ret_inv l (i : Z) (x : A) :
  get l i = Ret x → 0 ≤ i < #l ∧ l !! Z.to_nat i = Some x.
Proof.
  unfold get. destruct (0 <=? i) eqn:E; [|done].
  destruct (l !! Z.to_nat i) eqn:E'; simpl; [|done]. intros. simplify_eq.
  apply lookup_lt_Some in E' as ?. unfold len. split; [lia|done].
Qed.

Lemma get_nothing l i : #l ≤ i → get l i = Nothing.
Proof.
  intros H. unfold get. destruct (0 <=? i) eqn:E; [|done].
  rewrite lookup_ge_None_2; [done|]. unfold len in *. lia.
Qed.

Lemma get_returns l i : returns (get l i).
Proof. unfold get. destruct (0 <=? i); [|done]. by destruct (l !! _). Qed.

Lemma index_lookup l (i : Z) (x : A) : 0 ≤ i → l !! Z.to_nat i = Some x → index l i = Ret x.
Proof. intros Hi Hx. unfold index. by rewrite (get_lookup l i x). Qed.
End Slices.

Lemma le_at_mid n pre v post a :
  a = #pre → fits (8 * Z.of_nat n) v →
  le_at n (pre ++ to_le_bytes n v ++ post) a = Ret v.
Proof.
  intros -> Hv. unfold le_at.
  rewrite slice_mid; [|done|by lens]. simpl. f_equal. by apply from_to_le_bytes.
Qed.

Lemma le_at_app_r n l l' a : #l ≤ a → le_at n (l ++ l') a = le_at n l' (a - #l).
Proof.
  intros. unfold le_at. rewrite slice_app_r by done.
  by replace (a + Z.of_nat n - #l) with (a - #l + Z.of_nat n) by lia.
Qed.

Lemma le_at_app_l n l l' a : a + Z.of_nat n ≤ #l → le_at n (l ++ l') a = le_at n l a.
Proof. intros. unfold le_at. by rewrite slice_app_l. Qed.

Lemma le_at_returns n l a :
  0 ≤ a → a + Z.of_nat n ≤ #l → ∃ v, le_at n l a = Ret v.
Proof.
  intros. unfold le_at. destruct (slice_returns l a (a + Z.of_nat n)) as [x ->]; [lia..|].
  simpl. eauto.
Qed.

Lemma le_at_bound n l a v : bytes_ok l → le_at n l a = Ret v → fits (8 * Z.of_nat n) v.
Proof.
  unfold le_at. intros Hl H. destruct (slice l a _) as [x| | |] eqn:E; try done.
  simpl in H. simplify_eq. apply slice_len in E as Hx.
  apply slice_inv in E as (_ & _ & _ & Ex).
  unfold fits. replace (Z.of_nat n) with #x by lia.
  apply from_le_bytes_bound. subst x. by apply Forall_take, Forall_drop.
Qed.

Lemma le_at_ok n l a :
  bytes_ok l → 0 ≤ a → a + Z.of_nat n ≤ #l →
  ∃ v, le_at n l a = Ret v ∧ fits (8 * Z.of_nat n) v.
Proof.
  intros Hl Ha Hb. destruct (le_at_returns n l a Ha Hb) as [v Hv].
  exists v. split; [done|]. by eapply le_at_bound.
Qed.

Lemma u32_at_ok l a : bytes_ok l → 0 ≤ a → a + 4 ≤ #l → ∃ v, u32_at l a = Ret v ∧ fits 32 v.
Proof. apply (le_at_ok 4). Qed.

Lemma u16_at_ok l a : bytes_ok l → 0 ≤ a → a + 2 ≤ #l → ∃ v, u16_at l a = Ret v ∧ fits 16 v.
Proof. apply (le_at_ok 2). Qed.

Lemma u64_at_ok l a : bytes_ok l → 0 ≤ a → a + 8 ≤ #l → ∃ v, u64_at l a = Ret v ∧ fits 64 v.
Proof. apply (le_at_ok 8). Qed.

Lemma slice_ok (l x : list Z) a b : bytes_ok l → slice l a b = Ret x → bytes_ok x.
Proof. intros Hl (_ & _ & _ & ->)%slice_inv. by apply Forall_take, Forall_drop. Qed.

Lemma index_in {A} (l : list A) i : 0 ≤ i < #l → ∃ x, index l i = Ret x ∧ x ∈ l.
Proof.
  intros Hi. destruct (lookup_lt_is_Some_2 l (Z.to_nat i)) as [x Hx]; [unfold len in *; lia|].
  exists x. split; [by apply index_lookup; [lia|]|]. by eapply list_elem_of_lookup_2.
Qed.

(** ** Cursors *)

Section Cursors.
Context {A : Type}.
Implicit Types data rest x : list A.

Lemma At_start data : At data 0 data.
Proof. split; [llia|done]. Qed.

Lemma cursor_open data : ∃ buf, buf = data ∧ At buf 0 data.
Proof. exists data. split; [done|apply At_start]. Qed.

Lemma At_app pre rest : At (pre ++ rest) #pre rest.
Proof. split; [llia|]. by rewrite len_to_nat, drop_app_length. Qed.

Lemma At_mid pre x post pos : pos = #pre → At (pre ++ x ++ post) pos (x ++ post).
Proof. intros ->. apply At_app. Qed.

Lemma At_skip data pos x rest :
  At data pos (x ++ rest) → At data (pos + #x) rest.
Proof.
  intros [Hp Hd]. assert (H := f_equal len Hd). rewrite len_drop in H.
  split; [llia|].
  replace (Z.to_nat (pos + #x)) with (Z.to_nat pos + length x)%nat by (unfold len; lia).
  by rewrite <- drop_drop, Hd, drop_app_length.
Qed.

Lemma At_get data pos a rest : At data pos (a :: rest) → get data pos = Ret a.
Proof.
  intros [Hp Hd]. apply get_lookup; [lia|].
  rewrite <- (Nat.add_0_r (Z.to_nat pos)), <- lookup_drop, Hd. done.
Qed.

Lemma At_tail data pos a rest : At data pos (a :: rest) → At data (pos + 1) rest.
Proof. apply (At_skip data pos [a] rest). Qed.

Lemma At_end data pos : At data pos [] → pos = #data.
Proof.
  intros [Hp Hd]. assert (H := f_equal len Hd). rewrite len_drop in H. llia.
Qed.

Lemma At_len data pos rest : At data pos rest → pos + #rest = #data.
Proof. intros [Hp Hd]. assert (H := f_equal len Hd). rewrite len_drop in H. lia. Qed.

Lemma At_slice data pos x rest e :
  At data pos (x ++ rest) → e = pos + #x → slice data pos e = Ret x.
Proof.
  intros Hat ->. pose proof (At_len _ _ _ Hat) as Hlen. destruct Hat as [Hp Hd].
  rewrite slice_ret by llia. rewrite Hd.
  replace (Z.to_nat (pos + #x - pos)) with (length x) by (unfold len; lia).
  by rewrite take_app_length.
Qed.

Lemma At_slice_from data pos rest : At data pos rest → slice_from data pos = Ret rest.
Proof.
  intros Hat. pose proof (At_len _ _ _ Hat). rewrite <- (app_nil_r rest) in Hat.
  unfold slice_from. eapply At_slice; [done|]. lia.
Qed.
End Cursors.

Lemma At_le n data pos v rest :
  At data pos (to_le_bytes n v ++ rest) → fits (8 * Z.of_nat n) v →
  le_at n data pos = Ret v.
Proof.
  intros Hat Hv. unfold le_at. rewrite (At_slice _ _ _ _ _ Hat) by (by lens).
  simpl. f_equal. by apply from_to_le_bytes.
Qed.

Lemma At_u32 data pos v rest :
  At data pos (to_le_bytes 4 v ++ rest) → fits 32 v →
  u32_at data pos = Ret v ∧ At data (pos + 4) rest.
Proof.
  intros Hat Hv. split; [by apply (At_le 4 _ _ _ _ Hat)|].
  apply At_skip in Hat. by rewrite len_to_le_bytes in Hat.
Qed.

Lemma At_u16 data pos v rest :
  At data pos (to_le_bytes 2 v ++ rest) → fits 16 v →
  u16_at data pos = Ret v ∧ At data (pos + 2) rest.
Proof.
  intros Hat Hv. split; [by apply (At_le 2 _ _ _ _ Hat)|].
  apply At_skip in Hat. by rewrite len_to_le_bytes in Hat.
Qed.

Lemma At_u64 data pos v rest :
  At data pos (to_le_bytes 8 v ++ rest) → fits 64 v →
  u64_at data pos = Ret v ∧ At data (pos + 8) rest.
Proof.
  intros Hat Hv. split; [by apply (At_le 8 _ _ _ _ Hat)|].
  apply At_skip in Hat. by rewrite len_to_le_bytes in Hat.
Qed.

(** Reads the next integer, or the next run of bytes, off the cursor [Hat]
    and moves the cursor past it; constant positions are computed. *)
Ltac cursor_norm Hat :=
  repeat match type of Hat with
  | At _ (Z.pos ?a + Z.pos ?b) _ =>
      let r := eval vm_compute in (Z.pos a + Z.pos b) in
      change (Z.pos a + Z.pos b) with r in Hat
  | At _ (0 + Z.pos ?b) _ => change (0 + Z.pos b) with (Z.pos b) in Hat
  end.
Tactic Notation "read_u32" hyp(Hat) :=
  let H := fresh in let H' := fresh in
  match type of Hat with
  | At _ _ (to_le_bytes _ ?v ++ _) =>
      assert (fits 32 v) as H by (first [done | unfold fits; lia]);
      destruct (At_u32 _ _ _ _ Hat H) as [? H']; clear H
  end;
  match goal with H : u32_at _ _ = Ret _ |- _ => rewrite H, bind_ret; clear H end; clear Hat; rename H' into Hat; cursor_norm Hat.
Tactic Notation "read_u16" hyp(Hat) :=
  let H := fresh in let H' := fresh in
  match type of Hat with
  | At _ _ (to_le_bytes _ ?v ++ _) =>
      assert (fits 16 v) as H by (first [done | unfold fits; lia]);
      destruct (At_u16 _ _ _ _ Hat H) as [? H']; clear H
  end;
  match goal with H : u16_at _ _ = Ret _ |- _ => rewrite H, bind_ret; clear H end; clear Hat; rename H' into Hat; cursor_norm Hat.
Tactic Notation "read_slice" hyp(Hat) :=
  rewrite (At_slice _ _ _ _ _ Hat) by (lens; lia); rewrite bind_ret;
  apply At_skip in Hat.

(** ** Bisection *)

(** [p] is decided on [lo..hi) by a predicate true up to a point and false
    from there on. *)
Record splits (p : Z → out bool) (q : Z → bool) (lo hi : Z) : Prop := {
  splits_eval : ∀ i, lo ≤ i < hi → p i = Ret (q i);
  splits_mono : ∀ i j, lo ≤ i → i ≤ j → j < hi → q j = true → q i = true;
}.

Lemma bisect_loop_spec fuel p q lo hi :
  splits p q lo hi → lo ≤ hi → (Z.to_nat (hi - lo) ≤ fuel)%nat →
  ∃ r, bisect_loop fuel p lo hi = Ret r ∧ lo ≤ r ≤ hi ∧
    (∀ i, lo ≤ i < r → q i = true) ∧ (∀ i, r ≤ i < hi → q i = false).
Proof.
  revert lo hi. induction fuel as [|fuel IH]; intros lo hi [He Hm] Hle Hf.
  - exists lo. simpl. replace (lo <? hi) with false by lia.
    repeat split; try lia; intros; lia.
  - simpl. destruct (lo <? hi) eqn:Hlt.
    2: { exists lo. repeat split; try lia; intros; lia. }
    set (mid := lo + (hi - lo) / 2).
    assert (lo ≤ mid < hi) as Hmid.
    { subst mid. pose proof (Z.div_pos (hi - lo) 2). pose proof (Z.div_lt (hi - lo) 2). lia. }
    rewrite He by lia. simpl. destruct (q mid) eqn:Hq.
    + destruct (IH (mid + 1) hi) as (r & Hr & Hb & Ht & Hff); [|lia..|].
      { split; intros; [apply He|eapply Hm]; eauto; lia. }
      exists r. split; [done|]. split; [lia|]. split; [|done].
      intros i Hi. destruct (decide (i ≤ mid)); [|apply Ht; lia].
      apply (Hm i mid); auto; lia.
    + destruct (IH lo mid) as (r & Hr & Hb & Ht & Hff); [|lia..|].
      { split; intros; [apply He|eapply Hm]; eauto; lia. }
      exists r. split; [done|]. split; [lia|]. split; [done|].
      intros i Hi. destruct (decide (i < mid)); [apply Hff; lia|].
      destruct (q i) eqn:Hqi; [|done]. rewrite (Hm mid i) in Hq; auto; lia.
Qed.

Lemma bisect_spec p q lo hi :
  splits p q lo hi → lo ≤ hi →
  ∃ r, bisect p lo hi = Ret r ∧ lo ≤ r ≤ hi ∧
    (∀ i, lo ≤ i < r → q i = true) ∧ (∀ i, r ≤ i < hi → q i = false).
Proof. intros. by apply bisect_loop_spec. Qed.

Lemma bisect_last_loop_spec fuel p q lo hi :
  splits p q (lo + 1) (hi + 1) → lo ≤ hi → (Z.to_nat (hi - lo) ≤ fuel)%nat →
  ∃ r, bisect_last_loop fuel p lo hi = Ret r ∧ lo ≤ r ≤ hi ∧
    (∀ i, lo < i ≤ r → q i = true) ∧ (∀ i, r < i ≤ hi → q i = false).
Proof.
  revert lo hi. induction fuel as [|fuel IH]; intros lo hi [He Hm] Hle Hf.
  - exists lo. simpl. replace (lo <? hi) with false by lia.
    repeat split; try lia; intros; lia.
  - simpl. destruct (lo <? hi) eqn:Hlt.
    2: { exists lo. repeat split; try lia; intros; lia. }
    set (mid := lo + (hi - lo) / 2 + 1).
    assert (lo < mid ≤ hi) as Hmid.
    { subst mid. pose proof (Z.div_pos (hi - lo) 2). pose proof (Z.div_lt (hi - lo) 2). lia. }
    rewrite He by lia. simpl. destruct (q mid) eqn:Hq.
    + destruct (IH mid hi) as (r & Hr & Hb & Ht & Hff); [|lia..|].
      { split; intros; [apply He|eapply Hm]; eauto; lia. }
      exists r. split; [done|]. split; [lia|]. split; [|done].
      intros i Hi. destruct (decide (i ≤ mid)); [|apply Ht; lia].
      apply (Hm i mid); auto; lia.
    + destruct (IH lo (mid - 1)) as (r & Hr & Hb & Ht & Hff); [|lia..|].
      { split; intros; [apply He|eapply Hm]; eauto; lia. }
      exists r. split; [done|]. split; [lia|]. split; [done|].
      intros i Hi. destruct (decide (i < mid)); [apply Hff; lia|].
      destruct (q i) eqn:Hqi; [|done]. rewrite (Hm mid i) in Hq; auto; lia.
Qed.

Lemma bisect_last_spec p q lo hi :
  splits p q (lo + 1) (hi + 1) → lo ≤ hi →
  ∃ r, bisect_last p lo hi = Ret r ∧ lo ≤ r ≤ hi ∧
    (∀ i, lo < i ≤ r → q i = true) ∧ (∀ i, r < i ≤ hi → q i = false).
Proof. intros. by apply bisect_last_loop_spec. Qed.

(** Whatever the predicate answers, the searches stay in range. *)
Lemma bisect_total p lo hi :
  (∀ i, lo ≤ i < hi → ∃ b, p i = Ret b) → lo ≤ hi →
  ∃ r, bisect p lo hi = Ret r ∧ lo ≤ r ≤ hi.
Proof.
  unfold bisect. remember (Z.to_nat (hi - lo)) as fuel eqn:Hf.
  assert (Z.to_nat (hi - lo) ≤ fuel)%nat as Hle by lia. clear Hf. revert lo hi Hle.
  induction fuel as [|fuel IH]; intros lo hi Hf Hp Hle; simpl.
  - replace (lo <? hi) with false by lia. exists lo. split; [done|lia].
  - destruct (lo <? hi) eqn:Hlt; [|exists lo; split; [done|lia]].
    set (mid := lo + (hi - lo) / 2).
    assert (lo ≤ mid < hi) as Hmid.
    { subst mid. pose proof (Z.div_pos (hi - lo) 2). pose proof (Z.div_lt (hi - lo) 2). lia. }
    destruct (Hp mid ltac:(lia)) as [b ->]. simpl. destruct b.
    + destruct (IH (mid + 1) hi) as (r & -> & Hr); [lia|intros; apply Hp; lia|lia|].
      exists r. split; [done|lia].
    + destruct (IH lo mid) as (r & -> & Hr); [lia|intros; apply Hp; lia|lia|].
      exists r. split; [done|lia].
Qed.

Lemma bisect_last_total p lo hi :
  (∀ i, lo < i ≤ hi → ∃ b, p i = Ret b) → lo ≤ hi →
  ∃ r, bisect_last p lo hi = Ret r ∧ lo ≤ r ≤ hi.
Proof.
  unfold bisect_last. remember (Z.to_nat (hi - lo)) as fuel eqn:Hf.
  assert (Z.to_nat (hi - lo) ≤ fuel)%nat as Hle by lia. clear Hf. revert lo hi Hle.
  induction fuel as [|fuel IH]; intros lo hi Hf Hp Hle; simpl.
  - replace (lo <? hi) with false by lia. exists lo. split; [done|lia].
  - destruct (lo <? hi) eqn:Hlt; [|exists lo; split; [done|lia]].
    set (mid := lo + (hi - lo) / 2 + 1).
    assert (lo < mid ≤ hi) as Hmid.
    { subst mid. pose proof (Z.div_pos (hi - lo) 2). pose proof (Z.div_lt (hi - lo) 2). lia. }
    destruct (Hp mid ltac:(lia)) as [b ->]. simpl. destruct b.
    + destruct (IH mid hi) as (r & -> & Hr); [lia|intros; apply Hp; lia|lia|].
      exists r. split; [done|lia].
    + destruct (IH lo (mid - 1)) as (r & -> & Hr); [lia|intros; apply Hp; lia|lia|].
      exists r. split; [done|lia].
Qed.

(** ** Fixed-width record tables *)

Section Records.
Context {A : Type} (enc : A → list Z) (k : Z).
Hypothesis enc_len : ∀ a, #(enc a) = k.

Lemma len_records l : #(flat_map enc l) = k * #l.
Proof using enc_len.
  induction l as [|a l IH]; [by rewrite Z.mul_0_r|].
  cbn [flat_map]. rewrite len_app, IH, enc_len, len_cons. lia.
Qed.

Lemma At_record l i a post :
  l !! i = Some a →
  ∃ rest, At (flat_map enc l ++ post) (k * Z.of_nat i) (enc a ++ rest).
Proof using enc_len.
  intros Hi. exists (flat_map enc (drop (S i) l) ++ post).
  assert (flat_map enc l ++ post = flat_map enc (take i l) ++ enc a ++
    flat_map enc (drop (S i) l) ++ post) as ->.
  { rewrite <- (take_drop_middle l i a Hi) at 1.
    rewrite flat_map_app. simpl. by rewrite <- !app_assoc. }
  apply At_mid. rewrite len_records, len_take.
  apply lookup_lt_Some in Hi. unfold len. lia.
Qed.

Lemma At_record_at data pos l i a post :
  At data pos (flat_map enc l ++ post) → l !! i = Some a →
  ∃ rest, At data (pos + k * Z.of_nat i) (enc a ++ rest).
Proof using enc_len.
  intros Hat Hi. exists (flat_map enc (drop (S i) l) ++ post).
  rewrite <- (take_drop_middle l i a Hi) in Hat. rewrite flat_map_app in Hat.
  simpl in Hat. rewrite <- !app_assoc in Hat. apply At_skip in Hat.
  rewrite len_records, len_take in Hat. apply lookup_lt_Some in Hi.
  replace (Z.min (Z.of_nat i) #l) with (Z.of_nat i) in Hat by (unfold len; lia). done.
Qed.

Lemma slice_record l i a post e :
  l !! i = Some a → e = k * Z.of_nat i + k →
  slice (flat_map enc l ++ post) (k * Z.of_nat i) e = Ret (enc a).
Proof using enc_len.
  intros Hi ->. destruct (At_record l i a post Hi) as [rest Hat].
  eapply At_slice; [done|]. by rewrite enc_len.
Qed.
End Records.

(** A table of [n]-byte integers. *)
Lemma le_at_table n l i v post :
  l !! i = Some v → fits (8 * Z.of_nat n) v →
  le_at n (flat_map (to_le_bytes n) l ++ post) (Z.of_nat n * Z.of_nat i) = Ret v.
Proof.
  intros Hi Hv. unfold le_at.
  rewrite (slice_record (to_le_bytes n) (Z.of_nat n) (len_to_le_bytes n) l i v) by (done || lia).
  simpl. f_equal. by apply from_to_le_bytes.
Qed.

Lemma len_table n l : #(flat_map (to_le_bytes n) l) = Z.of_nat n * #l.
Proof. apply len_records. apply len_to_le_bytes. Qed.
#[export] Hint Rewrite len_table : len.

Lemma fold_le_bytes {A} (n : nat) (f : A → Z) l buf :
  fold_left (λ buf a, buf ++ to_le_bytes n (f a)) l buf =
    buf ++ flat_map (to_le_bytes n) (f <$> l).
Proof.
  revert buf. induction l as [|a l IH]; intros buf; simpl; [by rewrite app_nil_r|].
  rewrite IH. by rewrite <- app_assoc.
Qed.

(** ** Sorted sequences *)

Definition nondecreasing (l : list Z) : Prop :=
  ∀ i j a b, (i ≤ j)%nat → l !! i = Some a → l !! j = Some b → a ≤ b.
Definition increasing (l : list Z) : Prop :=
  ∀ i j a b, (i < j)%nat → l !! i = Some a → l !! j = Some b → a < b.

Lemma increasing_nondecreasing l : increasing l → nondecreasing l.
Proof.
  intros H i j a b Hij Ha Hb. destruct (decide (i = j)) as [->|].
  - simplify_eq. lia.
  - assert (a < b) by (eapply (H i j); eauto; lia). lia.
Qed.

Lemma nondecreasing_sub n m l : nondecreasing l → nondecreasing (take n (drop m l)).
Proof.
  intros H i j a b Hij Ha Hb.
  rewrite lookup_take_Some, lookup_drop in Ha, Hb. destruct Ha, Hb.
  eapply (H (m + i)%nat (m + j)%nat); eauto. lia.
Qed.

Lemma increasing_inj l i j a :
  increasing l → l !! i = Some a → l !! j = Some a → i = j.
Proof.
  intros H Hi Hj. destruct (lt_eq_lt_dec i j) as [[Hl| ->]|Hl]; [|done|].
  - assert (a < a) by (eapply H; eauto). lia.
  - assert (a < a) by (eapply H; eauto). lia.
Qed.

(** ** Concatenated regions and their offsets *)

(** The offsets a writer records before each region, and the sentinel. *)
Fixpoint prefix_sums {A} (a : Z) (ls : list (list A)) : list Z :=
  match ls with
  | [] => [a]
  | l :: ls => a :: prefix_sums (a + #l) ls
  end.

Section Regions.
Context {A : Type}.
Implicit Types (ls : list (list A)) (l : list A).

Lemma len_prefix_sums a ls : #(prefix_sums a ls) = #ls + 1.
Proof. revert a. induction ls as [|l ls IH]; intros a; [done|]. simpl. rewrite !len_cons, IH. lia. Qed.

Lemma prefix_sums_lookup a ls k :
  (k ≤ length ls)%nat →
  prefix_sums a ls !! k = Some (a + #(concat (take k ls))).
Proof.
  revert a k. induction ls as [|l ls IH]; intros a [|k] Hk; simpl in *; try lia.
  - by rewrite len_nil, Z.add_0_r.
  - by rewrite len_nil, Z.add_0_r.
  - rewrite IH, len_app by lia. f_equal. lia.
Qed.

Lemma concat_take_S ls k l :
  ls !! k = Some l → concat (take (S k) ls) = concat (take k ls) ++ l.
Proof.
  intros Hk. rewrite (take_S_r _ _ _ Hk), concat_app. simpl. by rewrite app_nil_r.
Qed.

Lemma concat_split ls k l :
  ls !! k = Some l → concat ls = concat (take k ls) ++ l ++ concat (drop (S k) ls).
Proof.
  intros Hk. rewrite <- (take_drop_middle ls k l Hk) at 1. by rewrite concat_app.
Qed.

Lemma len_concat_take_le ls k : #(concat (take k ls)) ≤ #(concat ls).
Proof.
  rewrite <- (take_drop k ls) at 2. rewrite concat_app, len_app.
  pose proof (len_nonneg (concat (drop k ls))). lia.
Qed.

Lemma len_concat_take_mono ls i j :
  (i ≤ j)%nat → #(concat (take i ls)) ≤ #(concat (take j ls)).
Proof.
  intros Hij. replace i with (i `min` j)%nat by lia. rewrite <- take_take.
  apply len_concat_take_le.
Qed.

Lemma prefix_sums_inv a ls k v :
  prefix_sums a ls !! k = Some v → (k ≤ length ls)%nat ∧ v = a + #(concat (take k ls)).
Proof.
  intros Hk. assert (k ≤ length ls)%nat.
  { apply lookup_lt_Some in Hk. pose proof (len_prefix_sums a ls). unfold len in *. lia. }
  rewrite prefix_sums_lookup in Hk by done. by simplify_eq.
Qed.

Lemma prefix_sums_nondecreasing a ls : nondecreasing (prefix_sums a ls).
Proof.
  intros i j x y Hij [_ ->]%prefix_sums_inv [_ ->]%prefix_sums_inv.
  pose proof (len_concat_take_mono ls i j Hij). lia.
Qed.

Lemma prefix_sums_bound a ls w :
  0 ≤ a → a + #(concat ls) < 2 ^ w → Forall (fits w) (prefix_sums a ls).
Proof.
  intros Ha Hb. apply Forall_lookup. intros k v [_ ->]%prefix_sums_inv.
  pose proof (len_nonneg (concat (take k ls))). pose proof (len_concat_take_le ls k).
  unfold fits. lia.
Qed.

Lemma slice_region ls k l post a b :
  ls !! k = Some l → a = #(concat (take k ls)) → b = #(concat (take (S k) ls)) →
  slice (concat ls ++ post) a b = Ret l.
Proof.
  intros Hk -> ->. rewrite (concat_take_S _ _ _ Hk), (concat_split _ _ _ Hk), <- !app_assoc.
  apply slice_mid; llia.
Qed.
End Regions.

Lemma lookup_map {A B} (f : A → B) (l : list A) i a :
  l !! i = Some a → map f l !! i = Some (f a).
Proof. intros H. by rewrite list_lookup_fmap, H. Qed.

(** The loop of the writers: the offset of each region, then the sentinel. *)
Lemma fold_offsets {A} (n : nat) (f : A → Z) (enc : A → list Z) l buf off :
  (∀ a, a ∈ l → f a = #(enc a)) →
  (let '(buf, off) := fold_left (λ st a,
      let '(buf, off) := st in (buf ++ to_le_bytes n off, off + f a)) l (buf, off) in
   buf ++ to_le_bytes n off) =
    buf ++ flat_map (to_le_bytes n) (prefix_sums off (map enc l)).
Proof.
  revert buf off. induction l as [|a l IH]; intros buf off Hf; simpl.
  - by rewrite app_nil_r.
  - rewrite IH by set_solver. rewrite (Hf a) by set_solver. by rewrite <- app_assoc.
Qed.

Lemma fold_regions {A} (enc : A → list Z) l buf :
  fold_left (λ buf a, buf ++ enc a) l buf = buf ++ concat (map enc l).
Proof.
  revert buf. induction l as [|a l IH]; intros buf; simpl; [by rewrite app_nil_r|].
  rewrite IH. by rewrite <- app_assoc.
Qed.

(** A record read one byte at a time. *)
Lemma index_slice {A} (l x : list A) a b j :
  slice l a b = Ret x → 0 ≤ j < b - a → index l (a + j) = index x j.
Proof.
  intros (Ha & Hab & Hb & ->)%slice_inv Hj. unfold index, get.
  replace (0 <=? a + j) with true by lia. replace (0 <=? j) with true by lia.
  rewrite lookup_take_lt, lookup_drop by lia.
  by replace (Z.to_nat (a + j)) with (Z.to_nat a + Z.to_nat j)%nat by lia.
Qed.

(** ** Growing vectors *)

Section Resize.
Context {A : Type}.
Implicit Types l : list A.

Lemma resize_grow n d l : #l ≤ n → resize n d l = l ++ replicate (Z.to_nat (n - #l)) d.
Proof.
  intros H. unfold resize. apply take_ge. rewrite length_app, length_replicate.
  unfold len in *. lia.
Qed.

Lemma len_resize n d l : 0 ≤ n → #(resize n d l) = n.
Proof. intros H. unfold resize. llia. Qed.

Lemma resize_lookup n d l i :
  #l ≤ n → (i < Z.to_nat n)%nat → resize n d l !! i = Some (default d (l !! i)).
Proof.
  intros Hl Hi. rewrite resize_grow by done. destruct (l !! i) as [a|] eqn:E; simpl.
  - by apply lookup_app_l_Some.
  - apply lookup_ge_None in E as Hge. rewrite lookup_app_r by done.
    apply lookup_replicate. split; [done|]. unfold len in *. lia.
Qed.
End Resize.

(** ** Index ranges *)

Lemma range_nil a b : b ≤ a → range a b = [].
Proof. intros. apply seqZ_nil. lia. Qed.

Lemma range_cons a b : a < b → range a b = a :: range (a + 1) b.
Proof. intros. unfold range. rewrite seqZ_cons by lia. f_equal. f_equal; lia. Qed.

Lemma range_app a b c : a ≤ b → b ≤ c → range a c = range a b ++ range b c.
Proof.
  intros. unfold range. replace (c - a) with ((b - a) + (c - b)) by lia.
  rewrite seqZ_app by lia. do 2 f_equal. lia.
Qed.

Lemma elem_of_range a b i : i ∈ range a b ↔ a ≤ i < b.
Proof. unfold range. rewrite elem_of_seqZ. lia. Qed.

Lemma length_range a b : length (range a b) = Z.to_nat (b - a).
Proof. apply length_seqZ. Qed.

Lemma range_lookup a b i v :
  range a b !! i = Some v ↔ v = a + Z.of_nat i ∧ Z.of_nat i < b - a.
Proof. unfold range. by rewrite lookup_seqZ. Qed.

Lemma len_range a b : a ≤ b → #(range a b) = b - a.
Proof. intros. unfold len, range. rewrite length_seqZ. lia. Qed.

(** ** Chunks *)

Section Chunks.
Context {A : Type} (n : nat).
Hypothesis n_pos : (0 < n)%nat.

Lemma chunks_loop_fuel f1 f2 (l : list A) :
  (length l ≤ f1)%nat → (length l ≤ f2)%nat →
  chunks_loop f1 n l = chunks_loop f2 n l.
Proof using n_pos.
  revert f2 l. induction f1 as [|f1 IH]; intros [|f2] [|a l]; simpl; intros; try done; try lia.
  f_equal. apply IH; rewrite length_drop; simpl; lia.
Qed.

Lemma chunks_cons (l : list A) :
  l ≠ [] → chunks n l = take n l :: chunks n (drop n l).
Proof using n_pos.
  intros Hl. unfold chunks at 1. destruct l as [|a l]; [done|]. simpl length.
  cbn [chunks_loop]. f_equal. apply chunks_loop_fuel; [|done].
  rewrite length_drop. simpl. lia.
Qed.

Lemma chunks_lookup (l : list A) b :
  (n * b < length l)%nat → chunks n l !! b = Some (take n (drop (n * b) l)).
Proof using n_pos.
  revert l. induction b as [|b IH]; intros l Hb.
  - rewrite chunks_cons by (intros ->; simpl in *; lia). by rewrite Nat.mul_0_r, drop_0.
  - rewrite chunks_cons by (intros ->; simpl in *; lia). simpl.
    rewrite IH by (rewrite length_drop; lia).
    rewrite drop_drop. do 3 f_equal. lia.
Qed.

Lemma chunks_length (l : list A) : #(chunks n l) = div_ceil #l (Z.of_nat n).
Proof using n_pos.
  remember (length l) as m eqn:Hm. revert l Hm.
  induction (lt_wf m) as [m _ IH]. intros l ->.
  destruct l as [|a l].
  { unfold div_ceil, chunks. simpl. lens.
    symmetry. apply Z.div_small. lia. }
  rewrite chunks_cons by done. rewrite len_cons.
  rewrite (IH (length (drop n (a :: l)))); [|rewrite length_drop; simpl; lia|done].
  rewrite len_drop. unfold div_ceil.
  destruct (decide (Z.of_nat n ≤ #(a :: l))) as [Hge|Hlt].
  - replace (#(a :: l) + Z.of_nat n - 1)
      with (Z.max 0 (#(a :: l) - Z.of_nat n) + Z.of_nat n - 1 + 1 * Z.of_nat n) by lia.
    rewrite Z.div_add by lia. lia.
  - replace (Z.max 0 (#(a :: l) - Z.of_nat n)) with 0 by lia.
    rewrite Z.div_small by lia. symmetry.
    replace (#(a :: l) + Z.of_nat n - 1) with (#(a :: l) - 1 + 1 * Z.of_nat n) by lia.
    rewrite Z.div_add by lia. rewrite len_cons in *. pose proof (len_nonneg l).
    rewrite Z.div_small by lia. done.
Qed.
End Chunks.

(** ** Facts decided on the 256 bytes *)

Definition all_bytes (f : Z → bool) : bool := forallb f (seqZ 0 256).

Lemma all_bytes_spec f b : all_bytes f = true → fits 8 b → f b = true.
Proof.
  unfold all_bytes. rewrite forallb_forall. intros H Hb. apply H.
  apply list_elem_of_In, elem_of_seqZ. widths. lia.
Qed.
