(* ===== verification/Varint.v ===== *)
(** * LEB128 varints ([src/suffix_fst/varint.rs])

    The encoding every sidecar writer uses for its deltas.  Writers append to
    a buffer; readers take the buffer and a position and hand back the value
    with the new position, [Nothing] standing for [None]. *)
From S2P Require Import Prelude.

Module varint.

(** [write_varint]: [while v >= 0x80 { push(v | 0x80); v >>= 7 } push(v)].
    The argument is a [u64], so at most nine continuation bytes are written;
    [write_varint_unfold] below shows the bound is never the reason to stop. *)
Fixpoint write_varint_loop (fuel : nat) (buf : list Z) (v : Z) : list Z :=
  match fuel with
  | O => buf ++ [as_u8 v]
  | S fuel =>
      if 0x80 <=? v
      then write_varint_loop fuel (buf ++ [Z.lor (as_u8 v) 0x80]) (Z.shiftr v 7)
      else buf ++ [as_u8 v]
  end.

Definition write_varint (buf : list Z) (v : Z) : list Z :=
  write_varint_loop 9 buf v.

(** [u64::checked_shl]: [None] from 64 on, the bits shifted out are lost. *)
Definition checked_shl (v shift : Z) : out Z :=
  if shift <? 64 then Ret (as_u64 (Z.shiftl v shift)) else Nothing.

Fixpoint read_varint_loop (shifts : list Z) (data : list Z) (pos v : Z)
    : out (Z * Z) :=
  match shifts with
  | [] => Nothing
  | shift :: shifts =>
      b ← get data pos;
      let pos := pos + 1 in
      s ← checked_shl (Z.land b 0x7f) shift;
      let v := Z.lor v s in
      if Z.land b 0x80 =? 0 then Ret (v, pos)
      else read_varint_loop shifts data pos v
  end.

Definition read_varint (data : list Z) (pos : Z) : out (Z * Z) :=
  read_varint_loop [0; 7; 14; 21; 28; 35; 42; 49; 56; 63] data pos 0.

(** [u32::try_from(read_varint(data, pos)?).ok()]. *)
Definition read_varint_u32 (data : list Z) (pos : Z) : out (Z * Z) :=
  '(v, pos) ← read_varint data pos;
  if v <=? u32_max then Ret (v, pos) else Nothing.

(** [varint_len]: the number of shifts by 7 before the value is zero. *)
Fixpoint varint_len_loop (fuel : nat) (n v : Z) : Z :=
  match fuel with
  | O => n
  | S fuel => if 0 <? v then varint_len_loop fuel (n + 1) (Z.shiftr v 7) else n
  end.

Definition varint_len (v : Z) : Z := varint_len_loop 9 1 (Z.shiftr v 7).

End varint.
Import varint.

(** The bytes [write_varint] appends. *)
Definition varint_bytes (v : Z) : list Z := write_varint [] v.

(** ** Bit arithmetic *)

Lemma land_7f b : Z.land b 0x7f = b mod 128.
Proof. change 0x7f with (Z.ones 7). by rewrite Z.land_ones by lia. Qed.

Lemma lor_80 b : fits 8 b → Z.lor b 0x80 = b mod 128 + 128.
Proof.
  intros Hb. apply Z.eqb_eq.
  by apply (all_bytes_spec (λ b, Z.lor b 0x80 =? b mod 128 + 128)).
Qed.

Lemma land_80 b : fits 8 b → (Z.land b 0x80 =? 0) = (b <? 128).
Proof.
  intros Hb. apply Bool.eqb_prop.
  by apply (all_bytes_spec (λ b, Bool.eqb (Z.land b 0x80 =? 0) (b <? 128))).
Qed.

Lemma as_u8_fits v : fits 8 (as_u8 v).
Proof. apply Z.mod_pos_bound. lia. Qed.

(** The low seven bits pushed with the continuation bit. *)
Lemma cont_byte v : Z.lor (as_u8 v) 0x80 = v mod 128 + 128.
Proof.
  rewrite lor_80 by apply as_u8_fits. unfold as_u8. f_equal.
  rewrite <- (Z.mod_mod_divide v 256 128); [done|]. by exists 2.
Qed.

(** ** The writer *)

Lemma write_varint_loop_app fuel buf v :
  write_varint_loop fuel buf v = buf ++ write_varint_loop fuel [] v.
Proof.
  revert buf v. induction fuel as [|fuel IH]; intros buf v; simpl; [done|].
  destruct (_ <=? _); [|done].
  rewrite IH, (IH [Z.lor (as_u8 v) 128]). by rewrite app_assoc.
Qed.

Lemma write_varint_loop_S fuel buf v :
  write_varint_loop (S fuel) buf v =
    if 0x80 <=? v
    then write_varint_loop fuel (buf ++ [Z.lor (as_u8 v) 0x80]) (Z.shiftr v 7)
    else buf ++ [as_u8 v].
Proof. reflexivity. Qed.

Lemma write_varint_app buf v : write_varint buf v = buf ++ varint_bytes v.
Proof. apply write_varint_loop_app. Qed.

(** With [k] sevenths left, the loop's fuel does not matter. *)
Lemma write_varint_loop_fuel (k f : nat) v :
  0 ≤ v < 2 ^ (7 * (Z.of_nat k + 1)) → (k ≤ f)%nat →
  write_varint_loop f [] v = write_varint_loop k [] v.
Proof.
  revert f v. induction k as [|k IH]; intros f v Hv Hf.
  - destruct f; [done|]. simpl. replace (128 <=? v) with false; [done|].
    change (2 ^ _) with 128 in Hv. lia.
  - destruct f as [|f]; [lia|]. simpl. destruct (128 <=? v) eqn:E; [|done].
    rewrite (write_varint_loop_app f), (write_varint_loop_app k). f_equal.
    apply IH; [|lia]. rewrite Z.shiftr_div_pow2 by lia.
    split; [apply Z.div_pos; lia|]. apply Z.div_lt_upper_bound; [lia|].
    rewrite <- Z.pow_add_r by lia. replace (7 + _) with (7 * (Z.of_nat (S k) + 1)) by lia. lia.
Qed.

(** The loop equation: the bound of nine is enough for every [u64]. *)
Lemma varint_bytes_unfold v :
  fits 64 v →
  varint_bytes v =
    if 128 <=? v then (v mod 128 + 128) :: varint_bytes (v / 128) else [v].
Proof.
  intros Hv. unfold varint_bytes, write_varint. rewrite write_varint_loop_S.
  destruct (128 <=? v) eqn:E.
  - rewrite write_varint_loop_app, cont_byte, app_nil_l. cbn [app]. f_equal.
    rewrite Z.shiftr_div_pow2 by lia. change (2 ^ 7) with 128.
    symmetry. apply (write_varint_loop_fuel 8); [|lia].
    split; [apply Z.div_pos; widths; lia|]. apply Z.div_lt_upper_bound; [lia|].
    change (7 * (Z.of_nat 8 + 1)) with 63. widths. change (2 ^ 63) with 9223372036854775808. lia.
  - simpl. unfold as_u8. rewrite Z.mod_small; [done|]. widths. lia.
Qed.

Lemma varint_bytes_small v : 0 ≤ v < 128 → varint_bytes v = [v].
Proof. intros. rewrite varint_bytes_unfold by (widths; lia). by case_lia. Qed.

Lemma varint_bytes_cont v :
  fits 64 v → 128 ≤ v → varint_bytes v = (v mod 128 + 128) :: varint_bytes (v / 128).
Proof. intros. rewrite varint_bytes_unfold by done. by case_lia. Qed.

(** Induction along the bytes written. *)
Lemma varint_ind (P : Z → Prop) :
  (∀ v, 0 ≤ v < 128 → P v) →
  (∀ v, fits 64 v → 128 ≤ v → P (v / 128) → P v) →
  ∀ v, fits 64 v → P v.
Proof.
  intros Hs Hl v Hv. assert (0 ≤ v) as H0 by (widths; lia).
  revert Hv. apply (Zlt_0_ind (λ v, fits 64 v → P v)); [|done].
  intros x IH Hx0 Hx. destruct (decide (x < 128)); [apply Hs; lia|].
  apply Hl; [done|lia|]. apply IH.
  - split; [apply Z.div_pos; lia|]. apply Z.div_lt; lia.
  - split; [apply Z.div_pos; lia|]. widths.
    pose proof (Z.div_lt x 128). lia.
Qed.

Lemma varint_bytes_ok v : fits 64 v → bytes_ok (varint_bytes v).
Proof.
  revert v. apply varint_ind; intros v Hv.
  - rewrite varint_bytes_small by done. repeat constructor; widths; lia.
  - intros H IH. rewrite varint_bytes_unfold by done. case_lia. constructor; [|done].
    pose proof (Z.mod_pos_bound v 128). widths. lia.
Qed.

(** ** The reader *)

Definition shifts_from (i : nat) : list Z := drop i [0; 7; 14; 21; 28; 35; 42; 49; 56; 63].

Lemma shifts_from_cons i :
  (i < 10)%nat → shifts_from i = 7 * Z.of_nat i :: shifts_from (S i).
Proof. intros Hi. do 10 (destruct i as [|i]; [done|]). lia. Qed.

(** One byte of the encoding of [v], decoded with the accumulator [acc] of
    the [i] bytes before it. *)
Lemma read_varint_loop_spec i data pos acc v rest :
  fits 64 v → (i < 10)%nat → fits (7 * Z.of_nat i) acc →
  acc + v * 2 ^ (7 * Z.of_nat i) < 2 ^ 64 →
  At data pos (varint_bytes v ++ rest) →
  read_varint_loop (shifts_from i) data pos acc =
    Ret (acc + v * 2 ^ (7 * Z.of_nat i), pos + #(varint_bytes v)).
Proof.
  intros Hv. revert i pos acc. pattern v. apply varint_ind; [| |done]; clear v Hv.
  - intros v Hv i pos acc Hi Hacc Hb Hat. rewrite varint_bytes_small in * by lia.
    rewrite shifts_from_cons by lia. cbn [read_varint_loop].
    rewrite (At_get _ _ _ _ Hat), bind_ret. unfold checked_shl.
    replace (7 * Z.of_nat i <? 64) with true by lia. rewrite bind_ret.
    rewrite land_7f, land_80 by (widths; lia). case_lia.
    rewrite (Z.mod_small v 128) by lia. unfold as_u64. rewrite Z.shiftl_mul_pow2 by lia.
    assert (0 ≤ v * 2 ^ (7 * Z.of_nat i)) by (apply Z.mul_nonneg_nonneg; lia).
    rewrite (Z.mod_small (v * _)) by (unfold fits in *; lia).
    rewrite <- Z.shiftl_mul_pow2, lor_shiftl_add, Z.shiftl_mul_pow2 by (unfold fits in *; lia).
    by lens.
  - intros v Hv Hge IH i pos acc Hi Hacc Hb Hat.
    assert (varint_bytes v = (v mod 128 + 128) :: varint_bytes (v / 128)) as Hbytes.
    { by apply varint_bytes_cont. }
    rewrite Hbytes in *. rewrite shifts_from_cons by lia. cbn [read_varint_loop].
    rewrite (At_get _ _ _ _ Hat), bind_ret. unfold checked_shl.
    replace (7 * Z.of_nat i <? 64) with true by lia. rewrite bind_ret.
    pose proof (Z.mod_pos_bound v 128 ltac:(lia)) as Hm.
    rewrite land_7f, land_80 by (widths; lia). case_lia.
    assert ((v mod 128 + 128) mod 128 = v mod 128) as ->.
    { rewrite <- (Z.mul_1_l 128) at 2. by rewrite Z.mod_add, Z.mod_mod by lia. }
    assert (0 < 2 ^ (7 * Z.of_nat i)) as Hp by lia.
    assert (2 ^ (7 * Z.of_nat (S i)) = 128 * 2 ^ (7 * Z.of_nat i)) as HS.
    { replace (7 * Z.of_nat (S i)) with (7 + 7 * Z.of_nat i) by lia. by rewrite Z.pow_add_r by lia. }
    assert (v = 128 * (v / 128) + v mod 128) as Hdm by (apply Z.div_mod; lia).
    unfold as_u64. rewrite Z.shiftl_mul_pow2 by lia.
    rewrite (Z.mod_small (_ * _)) by (unfold fits in *; nia).
    rewrite <- Z.shiftl_mul_pow2, lor_shiftl_add by (unfold fits in *; lia).
    assert (i < 9)%nat as Hi9.
    { destruct (decide (i = 9%nat)) as [->|]; [|lia]. unfold fits in *.
      change (2 ^ (7 * Z.of_nat 9)) with (2 ^ 63) in *.
      change (2 ^ 64) with (2 * 2 ^ 63) in *. lia. }
    rewrite IH; [|lia| | |].
    + f_equal. f_equal; [rewrite HS; nia|]. lens. lia.
    + unfold fits in *. rewrite HS. nia.
    + rewrite HS. nia.
    + simpl in Hat. by apply At_tail in Hat.
Qed.

Lemma read_varint_at data pos v rest :
  fits 64 v → At data pos (varint_bytes v ++ rest) →
  read_varint data pos = Ret (v, pos + #(varint_bytes v)).
Proof.
  intros Hv Hat. change (read_varint data pos)
    with (read_varint_loop (shifts_from 0) data pos 0).
  rewrite (read_varint_loop_spec 0 data pos 0 v rest); try done.
  all: change (2 ^ (7 * Z.of_nat 0)) with 1; unfold fits in *; rewrite ?Z.mul_1_r; try lia.
  by rewrite Z.add_0_l.
Qed.

Lemma read_varint_u32_at data pos v rest :
  fits 32 v → At data pos (varint_bytes v ++ rest) →
  read_varint_u32 data pos = Ret (v, pos + #(varint_bytes v)).
Proof.
  intros Hv Hat. assert (fits 64 v) as Hv' by (widths; lia). unfold read_varint_u32.
  rewrite (read_varint_at _ _ _ _ Hv' Hat). simpl. case_lia; [done|]. widths. lia.
Qed.

(** The next varint off the cursor [Hat]; [F] says it fits a [u32]. *)
Tactic Notation "next_varint" uconstr(F) hyp(Hat) :=
  rewrite (read_varint_u32_at _ _ _ _ F Hat), bind_ret; apply At_skip in Hat.

Lemma len_varint_pos v : fits 64 v → 1 ≤ #(varint_bytes v).
Proof.
  intros Hv. rewrite varint_bytes_unfold by done. destruct (128 <=? v); llia.
  pose proof (len_nonneg (varint_bytes (v / 128))). lia.
Qed.

Lemma varint_len_loop_add fuel n v :
  varint_len_loop fuel n v = n - 1 + varint_len_loop fuel 1 v.
Proof.
  revert n v. induction fuel as [|fuel IH]; intros n v; simpl; [lia|].
  destruct (0 <? v); [|lia]. rewrite IH, (IH (1 + 1)). lia.
Qed.

Lemma varint_len_loop_spec (k : nat) v :
  fits 64 v → v < 2 ^ (7 * (Z.of_nat k + 1)) →
  varint_len_loop k 1 (v / 128) = #(varint_bytes v).
Proof.
  revert v. induction k as [|k IH]; intros v Hv Hk.
  - change (2 ^ _) with 128 in Hk. rewrite varint_bytes_small by (widths; lia). done.
  - rewrite varint_bytes_unfold by done. cbn [varint_len_loop].
    destruct (128 <=? v) eqn:E.
    + assert (1 ≤ v / 128) by (apply Z.div_le_lower_bound; lia).
      assert (v / 128 < v) by (apply Z.div_lt; lia).
      case_lia. rewrite varint_len_loop_add, Z.shiftr_div_pow2 by lia.
      change (2 ^ 7) with 128. rewrite IH; [llia|widths; lia|].
      apply Z.div_lt_upper_bound; [lia|].
      replace (7 * (Z.of_nat (S k) + 1)) with (7 + 7 * (Z.of_nat k + 1)) in Hk by lia.
      by rewrite Z.pow_add_r in Hk by lia.
    + rewrite Z.div_small by (widths; lia). done.
Qed.

Lemma varint_len_bytes v : fits 64 v → #(varint_bytes v) = varint_len v.
Proof.
  intros Hv. unfold varint_len. rewrite Z.shiftr_div_pow2 by lia.
  symmetry. apply (varint_len_loop_spec 9); [done|].
  change (7 * (Z.of_nat 9 + 1)) with 70. widths. change (2 ^ 70) with 1180591620717411303424. lia.
Qed.

Lemma varint_len_le v : fits 64 v → varint_len v ≤ 10.
Proof.
  intros _. unfold varint_len. generalize (Z.shiftr v 7) as w.
  assert (∀ f n w, varint_len_loop f n w ≤ n + Z.of_nat f) as H.
  { induction f as [|f IH]; intros n w; cbn [varint_len_loop]; [lia|].
    destruct (0 <? w); [|lia]. specialize (IH (n + 1) (Z.shiftr w 7)). lia. }
  intros w. specialize (H 9%nat 1 w). lia.
Qed.

Lemma read_varint_loop_total shifts data pos acc :
  returns (read_varint_loop shifts data pos acc) ∧
  ∀ v p, read_varint_loop shifts data pos acc = Ret (v, p) →
    pos < p ≤ pos + #shifts ∧ p ≤ #data.
Proof.
  revert pos acc. induction shifts as [|s shifts IH]; intros pos acc; [done|].
  cbn [read_varint_loop]. pose proof (get_returns data pos).
  destruct (get data pos) as [b| | |] eqn:Eb; try done. rewrite bind_ret.
  apply get_ret_inv in Eb as [? _].
  unfold checked_shl. destruct (s <? 64); [|done]. rewrite bind_ret.
  destruct (_ =? 0).
  - split; [done|]. intros. simplify_eq. llia.
  - destruct (IH (pos + 1) (Z.lor acc (as_u64 (Z.shiftl (Z.land b 127) s)))) as [Hr Hp].
    split; [done|]. intros v p Hv. specialize (Hp v p Hv). llia.
Qed.

(** Every read stops, or moves the cursor inside the buffer. *)
Lemma read_varint_step data pos :
  read_varint data pos = Nothing ∨
  ∃ v p, read_varint data pos = Ret (v, p) ∧ pos < p ≤ #data.
Proof.
  destruct (read_varint_loop_total [0; 7; 14; 21; 28; 35; 42; 49; 56; 63] data pos 0) as [Hr Hp].
  unfold read_varint. destruct (read_varint_loop _ _ _ _) as [[v p]| | |]; try done; [|by left].
  right. exists v, p. split; [done|]. specialize (Hp v p eq_refl). lia.
Qed.

Lemma read_varint_u32_step data pos :
  read_varint_u32 data pos = Nothing ∨
  ∃ v p, read_varint_u32 data pos = Ret (v, p) ∧ pos < p ≤ #data ∧ v ≤ u32_max.
Proof.
  unfold read_varint_u32. destruct (read_varint_step data pos) as [->|(v & p & -> & Hp)]; [by left|].
  simpl. destruct (v <=? u32_max) eqn:E; [|by left]. right. exists v, p. split; [done|]. lia.
Qed.

Lemma read_varint_loop_nonneg shifts data pos acc v p :
  0 ≤ acc → read_varint_loop shifts data pos acc = Ret (v, p) → 0 ≤ v.
Proof.
  revert pos acc. induction shifts as [|s shifts IH]; intros pos acc Ha; [done|].
  cbn [read_varint_loop]. destruct (get data pos) as [b| | |]; try done. rewrite bind_ret.
  unfold checked_shl. destruct (s <? 64); [|done]. rewrite bind_ret.
  assert (0 ≤ Z.lor acc (as_u64 (Z.shiftl (Z.land b 127) s))).
  { apply Z.lor_nonneg. split; [done|]. apply Z.mod_pos_bound. lia. }
  destruct (_ =? 0); [by intros; simplify_eq|]. by apply IH.
Qed.

Lemma read_varint_u32_nonneg data pos v p : read_varint_u32 data pos = Ret (v, p) → 0 ≤ v.
Proof.
  unfold read_varint_u32, read_varint. intros H. apply bind_ret_inv in H as ([v' p'] & Hv & H).
  destruct (v' <=? u32_max); [|done]. simplify_eq. by eapply read_varint_loop_nonneg in Hv.
Qed.

(** The value a LEB128 byte string denotes: seven bits per byte, least
    significant first. *)
Fixpoint leb128_value (l : list Z) : Z :=
  match l with
  | [] => 0
  | b :: l => b mod 128 + 128 * leb128_value l
  end.

#[global] Opaque varint_bytes.

(** ** Properties *)

(** Round trip and exact size: whatever precedes and follows it, a value
    written by [write_varint] reads back from its own position, the reader
    stops right after it, and it took [varint_len] bytes (at most ten). *)
Theorem varint_roundtrip (buf post : list Z) (v : Z) :
  fits 64 v →
  read_varint (write_varint buf v ++ post) #buf = Ret (v, #(write_varint buf v)) ∧
  #(write_varint buf v) = #buf + varint_len v ∧ varint_len v ≤ 10.
Proof.
  intros Hv. rewrite write_varint_app, <- app_assoc, len_app.
  split; [|split; [by rewrite varint_len_bytes|by apply varint_len_le]].
  by apply (read_varint_at _ _ _ post), At_app.
Qed.

Lemma varint_roundtrip_witness :
  read_varint (write_varint [7; 7] 300 ++ [1]) 2 = Ret (300, 4) ∧
  #(write_varint [7; 7] 300) = 2 + varint_len 300 ∧ varint_len 300 ≤ 10.
Proof. exact (varint_roundtrip [7; 7] [1] 300 ltac:(by vm_compute)). Defined.

(** Reading never panics and never loops, on any bytes at any position:
    it returns [None], or a value after consuming between one and ten bytes,
    all of them inside the buffer. *)
Theorem read_varint_total (data : list Z) (pos : Z) :
  returns (read_varint data pos) ∧ returns (read_varint_u32 data pos) ∧
  ∀ v p, read_varint data pos = Ret (v, p) → pos < p ≤ pos + 10 ∧ p ≤ #data.
Proof.
  destruct (read_varint_loop_total [0; 7; 14; 21; 28; 35; 42; 49; 56; 63] data pos 0) as [Hr Hp].
  split; [done|]. split; [|exact Hp]. unfold read_varint_u32.
  unfold read_varint in *. destruct (read_varint_loop _ _ _ _) as [[v p]| | |]; try done.
  simpl. by destruct (v <=? u32_max).
Qed.

Lemma read_varint_loop_cut shifts data pos acc v :
  fits 64 v → 0 ≤ pos →
  (∃ n, (n < length (varint_bytes v))%nat ∧ drop (Z.to_nat pos) data = take n (varint_bytes v)) →
  read_varint_loop shifts data pos acc = Nothing.
Proof.
  intros Hv. revert shifts pos acc. pattern v. apply varint_ind; [| |done]; clear v Hv.
  - intros v Hv [|s shifts] pos acc Hpos (n & Hn & Hd); [done|].
    rewrite varint_bytes_small in * by done. simpl in Hn. assert (n = 0%nat) as -> by lia.
    cbn [read_varint_loop]. rewrite get_nothing; [done|].
    assert (H := f_equal len Hd). rewrite len_drop in H. simpl in H. lens. lia.
  - intros v Hv Hge IH [|s shifts] pos acc Hpos (n & Hn & Hd); [done|].
    cbn [read_varint_loop].
    rewrite varint_bytes_cont in Hn, Hd by done.
    destruct n as [|n].
    { rewrite get_nothing; [done|]. assert (H := f_equal len Hd).
      rewrite len_drop in H. simpl in H. lens. lia. }
    simpl in Hd, Hn.
    assert (At data pos ((v mod 128 + 128) :: take n (varint_bytes (v / 128)))) as Hat.
    { split; [|done]. split; [done|]. assert (H := f_equal len Hd).
      rewrite len_drop, len_cons in H. pose proof (len_nonneg (take n (varint_bytes (v / 128)))). lia. }
    rewrite (At_get _ _ _ _ Hat), bind_ret. unfold checked_shl.
    destruct (s <? 64); [|done]. rewrite bind_ret.
    pose proof (Z.mod_pos_bound v 128 ltac:(lia)).
    rewrite land_80 by (widths; lia). case_lia.
    apply IH; [lia|]. exists n. split; [lia|]. by apply At_tail in Hat as [_ ?].
Qed.

(** Truncation is detected: cut anywhere before its last byte, an encoded
    value reads back as [None], through the [u64] and the [u32] reader. *)
Theorem varint_truncated (v : Z) (n : nat) :
  fits 64 v → (n < length (varint_bytes v))%nat →
  read_varint (take n (varint_bytes v)) 0 = Nothing ∧
  read_varint_u32 (take n (varint_bytes v)) 0 = Nothing.
Proof.
  intros Hv Hn. assert (read_varint (take n (varint_bytes v)) 0 = Nothing) as H.
  { apply (read_varint_loop_cut _ _ 0 _ v); [done|lia|eauto]. }
  split; [done|]. unfold read_varint_u32. by rewrite H.
Qed.

Lemma varint_truncated_witness :
  read_varint (take 1 (varint_bytes 300)) 0 = Nothing ∧
  read_varint_u32 (take 1 (varint_bytes 300)) 0 = Nothing.
Proof. apply (varint_truncated 300 1); [by vm_compute|vm_compute; lia]. Defined.

(** The [u32] reader refuses what [write_varint] encodes above [u32::MAX],
    but not every encoding of a wider value: the tenth byte of an encoding is
    shifted by 63 and only its lowest bit survives, so ten bytes that denote
    2^64 are read as 0 by both readers, where the comment on
    [read_varint_u32] promises [None] rather than a silent truncation. *)
Theorem varint_u32_wide_values :
  (∀ (buf post : list Z) v, fits 64 v → u32_max < v →
     read_varint_u32 (write_varint buf v ++ post) #buf = Nothing) ∧
  (let wide := replicate 9 0x80 ++ [2] in
   leb128_value wide = 2 ^ 64 ∧ read_varint wide 0 = Ret (0, 10) ∧
   read_varint_u32 wide 0 = Ret (0, 10)).
Proof.
  split; [|done]. intros buf post v Hv Hw. unfold read_varint_u32.
  rewrite write_varint_app, <- app_assoc.
  rewrite (read_varint_at _ _ v post Hv (At_app _ _)). simpl. by case_lia.
Qed.
