(* ===== verification/OffsetTables.v ===== *)
(** * Block-coded offset tables ([src/suffix_fst/block_offsets.rs])

    The offset table in front of every per-ordinal sidecar: [encode] writes
    it, [BlockOffsets] reads it back, [OffsetTable] reads it or the flat
    table of the older layouts behind one [get].  The class [OffsetSource]
    is what the sidecar readers rely on. *)
From S2P Require Import Prelude.

Module block_offsets.

Definition BLOCK : Z := 64.

(** The byte width of a block whose offsets span [span]. *)
Definition block_width (span : Z) : Z :=
  if span =? 0 then 0
  else if span <? 2 ^ 8 then 1
  else if span <? 2 ^ 16 then 2
  else if span <? 2 ^ 24 then 3
  else 4.

(** One iteration of [encode]'s loop over [offsets.chunks(BLOCK)]: the
    directory and the blocks region, each extended. *)
Definition encode_chunk (st : list Z * list Z) (chunk : list Z) : list Z * list Z :=
  let '(dir, blocks) := st in
  let dir := dir ++ [as_u32 #blocks] in
  let base := default 0 (head chunk) in
  let span := sub32 (default 0 (last chunk)) base in
  let width := block_width span in
  let blocks := blocks ++ to_le_bytes 4 base ++ [width] in
  let blocks := fold_left (λ blocks o,
      blocks ++ take (Z.to_nat width) (to_le_bytes 4 (sub32 o base))) chunk blocks in
  (dir, blocks).

Definition encode (offsets : list Z) : list Z :=
  let num := #offsets in
  let num_blocks := div_ceil num BLOCK in
  let '(dir, blocks) :=
    fold_left encode_chunk (chunks (Z.to_nat BLOCK) offsets) ([], []) in
  to_le_bytes 4 (as_u32 num) ++ to_le_bytes 4 (as_u32 num_blocks)
    ++ to_le_bytes 4 (as_u32 #blocks)
    ++ flat_map (to_le_bytes 4) dir ++ blocks.

(** [struct BlockOffsets]: a view of a table inside a file. *)
Record BlockOffsets := {
  bo_num : Z;
  bo_dir : list Z;
  bo_blocks : list Z;
}.

(** [BlockOffsets::parse]: the table at the start of [bytes], with the number
    of bytes it occupies. *)
Definition parse (bytes : list Z) : out (BlockOffsets * Z) :=
  if #bytes <? 12 then Nothing else
  num ← u32_at bytes 0;
  num_blocks ← u32_at bytes 4;
  blocks_bytes ← u32_at bytes 8;
  let dir_end := 12 + num_blocks * 4 in
  let end_ := dir_end + blocks_bytes in
  if (#bytes <? end_) || negb (num_blocks =? div_ceil num BLOCK) then Nothing else
  dir ← slice bytes 12 dir_end;
  blocks ← slice bytes dir_end end_;
  Ret ({| bo_num := num; bo_dir := dir; bo_blocks := blocks |}, end_).

(** [BlockOffsets::from_parts]. *)
Definition from_parts (num : Z) (dir blocks : list Z) : BlockOffsets :=
  {| bo_num := num; bo_dir := dir; bo_blocks := blocks |}.

(** [BlockOffsets::get]: two reads, the block's position in the directory,
    then the offset in the block's own width. *)
Definition get_ (t : BlockOffsets) (i : Z) : out Z :=
  let b := i / BLOCK in
  let r := i mod BLOCK in
  p ← u32_at (bo_dir t) (b * 4);
  base ← u32_at (bo_blocks t) p;
  width ← index (bo_blocks t) (p + 4);
  if width =? 0 then Ret base else
  let q := p + 5 + r * width in
  src ← slice (bo_blocks t) q (q + width);
  (* [d[..width].copy_from_slice(src)] into four zero bytes *)
  if 4 <? width then Panic else
  let d := src ++ replicate (Z.to_nat (4 - width)) 0 in
  Ret (add32 base (from_le_bytes d)).

(** [enum OffsetTable]. *)
Inductive OffsetTable :=
| Flat (bytes : list Z)
| Block (t : BlockOffsets).

(** [OffsetTable::get]. *)
Definition OffsetTable_get (t : OffsetTable) (i : Z) : out Z :=
  match t with
  | Flat bytes => u32_at bytes (i * 4)
  | Block t => get_ t i
  end.

End block_offsets.
Import block_offsets.

(** What a sidecar reader asks of an offset table, flat or block-coded. *)
Class OffsetSource (T : Type) := src_get : T → Z → out Z.
#[export] Instance block_source : OffsetSource BlockOffsets := get_.
#[export] Instance table_source : OffsetSource OffsetTable := OffsetTable_get.

(** The promise: the table answers every index of [offs] with its offset. *)
Definition represents {T} `{OffsetSource T} (t : T) (offs : list Z) : Prop :=
  ∀ i v, 0 ≤ i → offs !! Z.to_nat i = Some v → src_get t i = Ret v.

(** The bytes of one block. *)
Definition block_bytes (chunk : list Z) : list Z :=
  let base := default 0 (head chunk) in
  let width := block_width (sub32 (default 0 (last chunk)) base) in
  to_le_bytes 4 base ++ [width]
    ++ flat_map (λ o, to_le_bytes (Z.to_nat width) (sub32 o base)) chunk.


(** Where each block starts. *)
Fixpoint block_starts (at_ : Z) (l : list (list Z)) : list Z :=
  match l with
  | [] => []
  | c :: l => at_ :: block_starts (at_ + #(block_bytes c)) l
  end.

Lemma block_width_range span : 0 ≤ block_width span ≤ 4.
Proof. unfold block_width. repeat case_match; lia. Qed.

Lemma block_width_fits span v :
  fits 32 span → 0 ≤ v ≤ span → fits (8 * block_width span) v.
Proof.
  intros Hs Hv. unfold block_width, fits.
  repeat case_match; try (change (2 ^ (8 * _)) with 256 || idtac); widths;
    try lia; simpl; lia.
Qed.

Lemma encode_chunk_spec dir blocks chunk :
  encode_chunk (dir, blocks) chunk =
    (dir ++ [as_u32 #blocks], blocks ++ block_bytes chunk).
Proof.
  unfold encode_chunk, block_bytes. f_equal.
  set (base := default 0 (head chunk)). set (w := block_width _).
  assert (0 ≤ w ≤ 4) as Hw by apply block_width_range. clearbody w base.
  assert (∀ c b, fold_left (λ blocks o,
      blocks ++ take (Z.to_nat w) (to_le_bytes 4 (sub32 o base))) c b
    = b ++ flat_map (λ o, to_le_bytes (Z.to_nat w) (sub32 o base)) c) as H.
  { induction c as [|o c IH]; intros b; simpl; [by rewrite app_nil_r|].
    rewrite IH, take_to_le_bytes by lia. by rewrite app_assoc. }
  rewrite H. by rewrite !app_assoc.
Qed.

Lemma encode_fold l dir blocks :
  #blocks + #(flat_map block_bytes l) < 2 ^ 32 →
  fold_left encode_chunk l (dir, blocks) =
    (dir ++ block_starts #blocks l, blocks ++ flat_map block_bytes l).
Proof.
  revert dir blocks. induction l as [|c l IH]; intros dir blocks Hb.
  - simpl. by rewrite !app_nil_r.
  - cbn [fold_left flat_map] in *. rewrite encode_chunk_spec.
    pose proof (len_nonneg (flat_map block_bytes l)).
    pose proof (len_nonneg (block_bytes c)). pose proof (len_nonneg blocks).
    rewrite len_app in Hb.
    rewrite IH by (rewrite len_app; lia). cbn [block_starts].
    rewrite len_app. unfold as_u32. rewrite Z.mod_small by lia.
    by rewrite <- !app_assoc.
Qed.

#[global] Opaque block_bytes.

Lemma block_starts_lookup l at_ b c :
  l !! b = Some c →
  block_starts at_ l !! b = Some (at_ + #(flat_map block_bytes (take b l))).
Proof.
  revert at_ b. induction l as [|c' l IH]; intros at_ [|b] Hb; try done.
  - simpl. by rewrite Z.add_0_r.
  - simpl in *. rewrite (IH _ _ Hb), len_app. f_equal. lia.
Qed.

Lemma block_starts_length l at_ : length (block_starts at_ l) = length l.
Proof. revert at_. induction l as [|c l IH]; intros; simpl; auto. Qed.

(** Block [b] of a table sits where the directory says. *)
Lemma block_at l b c :
  l !! b = Some c →
  ∃ rest, At (flat_map block_bytes l) #(flat_map block_bytes (take b l)) (block_bytes c ++ rest).
Proof.
  intros Hb. exists (flat_map block_bytes (drop (S b) l)).
  rewrite <- (take_drop_middle l b c Hb) at 1. rewrite flat_map_app. simpl. apply At_app.
Qed.

(** A block whose offsets start at its first and grow answers every index. *)
Lemma block_bytes_read data p chunk rest r v :
  Forall (fits 32) chunk → nondecreasing chunk →
  At data p (block_bytes chunk ++ rest) → chunk !! r = Some v →
  ∃ base width, u32_at data p = Ret base ∧ index data (p + 4) = Ret width ∧
    0 ≤ width ≤ 4 ∧ (width = 0 → base = v) ∧
    (width ≠ 0 → ∃ src,
      let q := p + 5 + Z.of_nat r * width in
      slice data q (q + width) = Ret src ∧
      add32 base (from_le_bytes (src ++ replicate (Z.to_nat (4 - width)) 0)) = v).
Proof.
  intros Hf Hs Hat Hr.
  destruct chunk as [|base chunk'] eqn:Hc; [done|]. rewrite <- Hc in *.
  assert (chunk !! 0%nat = Some base) as H0 by (by subst).
  destruct (last chunk) as [top|] eqn:Htop; [|by subst; apply last_None in Htop].
  assert (fits 32 base) as Hbase by (rewrite Forall_lookup in Hf; eauto).
  assert (fits 32 v) as Hv by (rewrite Forall_lookup in Hf; eauto).
  assert (fits 32 top) as Htop32.
  { rewrite Forall_lookup in Hf. rewrite last_lookup in Htop. eauto. }
  assert (base ≤ v ≤ top) as Hord.
  { rewrite last_lookup in Htop. apply lookup_lt_Some in Hr as Hlt.
    split; [by apply (Hs 0%nat r); [lia|..]|].
    by apply (Hs r (Init.Nat.pred (length chunk))); [lia|..]. }
  Transparent block_bytes. unfold block_bytes in Hat. Opaque block_bytes.
  rewrite Htop in Hat.
  replace (default 0 (head chunk)) with base in Hat by (by subst). simpl in Hat.
  assert (sub32 top base = top - base) as Hspan.
  { unfold sub32, as_u32. apply Z.mod_small. widths. lia. }
  rewrite Hspan in Hat. set (w := block_width (top - base)) in *.
  pose proof (block_width_range (top - base) : 0 ≤ w ≤ 4) as Hw.
  exists base, w. rewrite <- !app_assoc in Hat.
  split; [by apply (At_le 4 _ _ _ _ Hat)|].
  apply At_skip in Hat. lens. change (Z.of_nat 4) with 4 in Hat. simpl in Hat.
  split; [unfold index; by rewrite (At_get _ _ _ _ Hat)|].
  split; [done|]. apply At_tail in Hat. rewrite <- Z.add_assoc in Hat. change (4 + 1) with 5 in Hat.
  split.
  - subst w. unfold block_width. repeat case_match; intros; lia.
  - intros Hw0.
    assert (∀ a, #(to_le_bytes (Z.to_nat w) (sub32 a base)) = w) as Hlen.
    { intros a. rewrite len_to_le_bytes. lia. }
    destruct (At_record_at _ _ Hlen _ _ _ _ _ _ Hat Hr) as [rest' Hat'].
    exists (to_le_bytes (Z.to_nat w) (v - base)).
    assert (sub32 v base = v - base) as Hd.
    { unfold sub32, as_u32. apply Z.mod_small. widths. lia. }
    rewrite Hd in Hat'. rewrite Z.mul_comm in Hat'. split.
    + eapply At_slice; [done|]. rewrite len_to_le_bytes. lia.
    + rewrite from_le_bytes_zeros, from_to_le_bytes.
      * unfold add32, as_u32. replace (base + (v - base)) with v by lia. by apply Z.mod_small.
      * rewrite Z2Nat.id by lia. apply block_width_fits; widths; lia.
Qed.

(** What [encode] needs of its offsets: [u32]s that do not decrease, and a
    table that a [u32] addresses. *)
Record encodable (offs : list Z) : Prop := {
  enc_u32 : Forall (fits 32) offs;
  enc_sorted : nondecreasing offs;
  enc_bytes : #(encode offs) < 2 ^ 32;
  enc_num : #offs < 2 ^ 32;
}.

Lemma encode_fold_blocks l st :
  (fold_left encode_chunk l st).2 = st.2 ++ flat_map block_bytes l.
Proof.
  revert st. induction l as [|c l IH]; intros [dir blocks].
  - simpl. by rewrite app_nil_r.
  - cbn [fold_left flat_map]. rewrite encode_chunk_spec, IH. simpl. by rewrite <- app_assoc.
Qed.

Lemma enc_size offs :
  encodable offs → #(flat_map block_bytes (chunks (Z.to_nat BLOCK) offs)) < 2 ^ 32.
Proof.
  intros [_ _ Hsz _]. unfold encode in Hsz.
  pose proof (encode_fold_blocks (chunks (Z.to_nat BLOCK) offs) ([], [])) as Hb.
  destruct (fold_left _ _ _) as [dir blocks]. simpl in Hb. subst blocks.
  pose proof (len_nonneg dir). lens. lia.
Qed.

(** The view [parse] finds at the head of an encoded table. *)
Definition table_of (offs : list Z) : BlockOffsets :=
  let cs := chunks (Z.to_nat BLOCK) offs in
  {| bo_num := #offs;
     bo_dir := flat_map (to_le_bytes 4) (block_starts 0 cs);
     bo_blocks := flat_map block_bytes cs |}.

Lemma len_block_starts a l : #(block_starts a l) = #l.
Proof. unfold len. by rewrite block_starts_length. Qed.

Lemma encode_eq offs :
  encodable offs →
  encode offs = to_le_bytes 4 #offs ++ to_le_bytes 4 (div_ceil #offs BLOCK)
    ++ to_le_bytes 4 #(bo_blocks (table_of offs))
    ++ bo_dir (table_of offs) ++ bo_blocks (table_of offs).
Proof.
  intros He. pose proof (enc_size _ He) as Hsz. destruct He as [_ _ _ Hn]. unfold encode, table_of. cbn [bo_dir bo_blocks].
  rewrite encode_fold by (lens; lia). rewrite !app_nil_l.
  pose proof (len_nonneg offs). unfold as_u32.
  pose proof (len_nonneg (flat_map block_bytes (chunks (Z.to_nat BLOCK) offs))).
  rewrite !Z.mod_small; [by rewrite len_nil|lia| |lia].
  unfold div_ceil, BLOCK. split; [apply Z.div_pos; lia|]. apply Z.div_lt_upper_bound; lia.
Qed.

Lemma parse_encode offs post :
  encodable offs → parse (encode offs ++ post) = Ret (table_of offs, #(encode offs)).
Proof.
  intros He. rewrite (encode_eq _ He). pose proof (enc_size _ He) as Hsz.
  destruct He as [_ _ _ Hn].
  set (t := table_of offs) in *.
  assert (#(bo_dir t) = div_ceil #offs BLOCK * 4) as Hdir.
  { unfold t, table_of. simpl. rewrite len_table, len_block_starts, chunks_length by (vm_compute; lia).
    change (Z.of_nat (Z.to_nat BLOCK)) with BLOCK. lia. }
  assert (0 ≤ div_ceil #offs BLOCK < 2 ^ 32) as Hnb.
  { unfold div_ceil, BLOCK. pose proof (len_nonneg offs). split; [apply Z.div_pos; lia|].
    apply Z.div_lt_upper_bound; lia. }
  assert (#(bo_blocks t) < 2 ^ 32) as Hbs by apply Hsz.
  pose proof (len_nonneg (bo_blocks t)). pose proof (len_nonneg post). pose proof (len_nonneg offs).
  rewrite <- !app_assoc. unfold parse.
  match goal with |- context [len ?x <? 12] =>
    destruct (cursor_open x) as (data & Hdata & Hat); rewrite <- Hdata end.
  assert (#data = 12 + #(bo_dir t) + #(bo_blocks t) + #post) as Hlen
    by (subst data; lens; lia).
  case_len. rewrite Hlen.
  read_u32 Hat. read_u32 Hat. read_u32 Hat.
  rewrite <- Hdir, Z.eqb_refl, orb_false_r. replace (_ <? _) with false by lia.
  read_slice Hat. read_slice Hat.
  change {| bo_num := _ |} with t. do 2 f_equal. lens. lia.
Qed.

(** A reader that keeps the places of the directory and of the blocks. *)
Lemma encode_regions offs data pos post :
  encodable offs → At data pos (encode offs ++ post) →
  u32_at data (pos + 4) = Ret (div_ceil #offs BLOCK) ∧
  slice data (pos + 12) (pos + 12 + div_ceil #offs BLOCK * 4) = Ret (bo_dir (table_of offs)) ∧
  slice data (pos + 12 + div_ceil #offs BLOCK * 4) (pos + #(encode offs)) =
    Ret (bo_blocks (table_of offs)) ∧
  At data (pos + #(encode offs)) post.
Proof.
  intros He Hat. pose proof (At_skip _ _ _ _ Hat) as Hpost. rewrite (encode_eq _ He) in Hat.
  assert (#(bo_dir (table_of offs)) = div_ceil #offs BLOCK * 4) as Hdir.
  { unfold table_of. simpl. rewrite len_table, len_block_starts, chunks_length by (vm_compute; lia).
    change (Z.of_nat (Z.to_nat BLOCK)) with BLOCK. lia. }
  assert (0 ≤ div_ceil #offs BLOCK < 2 ^ 32) as Hnb.
  { destruct He as [_ _ _ Hn]. unfold div_ceil, BLOCK. pose proof (len_nonneg offs).
    split; [apply Z.div_pos; lia|]. apply Z.div_lt_upper_bound; lia. }
  assert (#(encode offs) = 12 + #(bo_dir (table_of offs)) + #(bo_blocks (table_of offs))) as Hlen.
  { rewrite (encode_eq _ He). lens. lia. }
  rewrite <- !app_assoc in Hat. apply At_skip in Hat. rewrite len_to_le_bytes in Hat.
  change (Z.of_nat 4) with 4 in Hat.
  apply At_u32 in Hat as [Hn Hat]; [|done]. apply At_skip in Hat. rewrite len_to_le_bytes in Hat.
  replace (pos + 4 + 4 + Z.of_nat 4) with (pos + 12) in Hat by lia.
  split; [done|]. split; [by eapply At_slice; [done|lia]|]. apply At_skip in Hat. rewrite Hdir in Hat.
  split; [|done]. eapply At_slice; [done|lia].
Qed.

Lemma get_table_of offs : encodable offs → represents (table_of offs) offs.
Proof.
  intros He i v Hi Hv. pose proof (enc_size _ He) as Hsz. destruct He as [Hu Hs _ _].
  unfold src_get, block_source, get_, BLOCK.
  set (b := i / 64). set (r := i mod 64).
  assert (i = 64 * b + r ∧ 0 ≤ r < 64 ∧ 0 ≤ b) as (Hir & Hr & Hb).
  { subst b r. repeat split; [apply Z.div_mod; lia|apply Z.mod_pos_bound; lia..|apply Z.div_pos; lia]. }
  apply lookup_lt_Some in Hv as Hlt.
  set (cs := chunks (Z.to_nat 64) offs).
  assert (cs !! Z.to_nat b = Some (take 64 (drop (64 * Z.to_nat b) offs))) as Hc.
  { apply chunks_lookup; lia. }
  set (chunk := take 64 (drop (64 * Z.to_nat b) offs)) in *.
  assert (chunk !! Z.to_nat r = Some v) as Hcv.
  { unfold chunk. rewrite lookup_take_lt, lookup_drop by lia. rewrite <- Hv. f_equal. lia. }
  destruct (block_at cs (Z.to_nat b) chunk Hc) as [rest Hat].
  set (p := #(flat_map block_bytes (take (Z.to_nat b) cs))) in *.
  assert (u32_at (bo_dir (table_of offs)) (b * 4) = Ret p) as ->.
  { unfold table_of. simpl. pose proof (block_starts_lookup cs 0 (Z.to_nat b) chunk Hc) as Hst.
    destruct (At_record (to_le_bytes 4) 4 (len_to_le_bytes 4) _ _ _ [] Hst) as [rest' Hat'].
    rewrite app_nil_r, Z2Nat.id in Hat' by lia. apply At_u32 in Hat' as [Hat' _].
    - by rewrite Z.mul_comm.
    - apply At_len in Hat. fold p. change (flat_map block_bytes cs) with (bo_blocks (table_of offs)) in Hat.
      pose proof (len_nonneg (block_bytes chunk ++ rest)).
      pose proof (len_nonneg (flat_map block_bytes (take (Z.to_nat b) cs))).
      fold p in H0. unfold fits. cbn [table_of bo_blocks] in Hat. unfold BLOCK in *. lia. }
  rewrite bind_ret. change (bo_blocks (table_of offs)) with (flat_map block_bytes cs).
  destruct (block_bytes_read _ _ _ _ _ _ ltac:(by apply Forall_take, Forall_drop)
    (nondecreasing_sub _ _ _ Hs) Hat Hcv) as (base & w & -> & -> & Hw & Hw0 & Hw1).
  rewrite !bind_ret. destruct (w =? 0) eqn:E; [rewrite Hw0 by lia; done|].
  destruct Hw1 as (src & Hsrc & Hres); [lia|]. rewrite Z2Nat.id in Hsrc by lia.
  rewrite Hsrc, bind_ret. case_lia. by rewrite Hres.
Qed.

(** A flat table of [u32]s represents its offsets. *)
Lemma flat_represents offs post :
  Forall (fits 32) offs → represents (Flat (flat_map (to_le_bytes 4) offs ++ post)) offs.
Proof.
  intros Hu i v Hi Hv. cbn. rewrite Z.mul_comm.
  rewrite <- (Z2Nat.id i) by lia. apply (le_at_table 4); [done|].
  rewrite Forall_lookup in Hu. eauto.
Qed.

(** ** Properties *)

(** Round trip of the block-coded table: [parse] finds the table [encode]
    wrote at the head of any file, reports exactly the bytes it occupies, and
    the view answers every index with the offset that was encoded. *)
Theorem block_offsets_roundtrip (offs post : list Z) :
  encodable offs →
  ∃ t, parse (encode offs ++ post) = Ret (t, #(encode offs)) ∧ bo_num t = #offs ∧
    ∀ i v, 0 ≤ i → offs !! Z.to_nat i = Some v → get_ t i = Ret v.
Proof.
  intros He. exists (table_of offs). split; [by apply parse_encode|].
  split; [done|]. by apply get_table_of.
Qed.

Definition sample_offsets : list Z := [3; 3; 300; 70000; 20000000].

Lemma sample_encodable : encodable sample_offsets.
Proof.
  split; [by repeat constructor; vm_compute| |by vm_compute|by vm_compute].
  intros i j a b Hij Ha Hb. unfold sample_offsets in *.
  do 5 (destruct i as [|i]; [do 5 (destruct j as [|j]; [simpl in *; simplify_eq; lia|]); done|]).
  done.
Qed.

Lemma block_offsets_roundtrip_witness :
  ∃ t, parse (encode sample_offsets ++ [9]) = Ret (t, #(encode sample_offsets)) ∧
    bo_num t = 5 ∧
    ∀ i v, 0 ≤ i → sample_offsets !! Z.to_nat i = Some v → get_ t i = Ret v.
Proof. exact (block_offsets_roundtrip sample_offsets [9] sample_encodable). Defined.

(** The two layouts behind [OffsetTable::get] are equivalent: the flat
    table of an older file and the block-coded one give the same offset at
    every index. *)
Theorem offset_table_layouts_agree (offs post : list Z) (i : Z) :
  encodable offs → 0 ≤ i < #offs →
  OffsetTable_get (Flat (flat_map (to_le_bytes 4) offs ++ post)) i =
    OffsetTable_get (Block (table_of offs)) i.
Proof.
  intros He Hi. destruct (lookup_lt_is_Some_2 offs (Z.to_nat i)) as [v Hv].
  { unfold len in Hi. lia. }
  transitivity (Ret v : out Z).
  - apply (flat_represents offs post (enc_u32 _ He)); [lia|done].
  - symmetry. apply (get_table_of offs He); [lia|done].
Qed.

Lemma offset_table_layouts_agree_witness :
  OffsetTable_get (Flat (flat_map (to_le_bytes 4) sample_offsets ++ [])) 3 =
    OffsetTable_get (Block (table_of sample_offsets)) 3.
Proof.
  apply (offset_table_layouts_agree sample_offsets [] 3 sample_encodable). by vm_compute.
Defined.
