(* ===== verification/SectionFile.v ===== *)
(** * Section files ([src/suffix_fst/section_file.rs])

    The container of [.sfx] and [.termtexts]: a magic, a version, a table of
    [(id, offset, length)] and the payloads.  [SectionFileWriter] assembles a
    file in memory, [section_file_header] writes the same head for payloads
    streamed after it, [SectionFileReader] opens either. *)
From S2P Require Import Prelude.

Module section_file.

Definition ENTRY_SIZE : Z := 12.
Definition FIXED_HEADER : Z := 7.

Record SectionEntry := { se_id : Z; se_offset : Z; se_length : Z }.

Record SectionFileWriter := {
  sw_magic : list Z;
  sw_version : Z;
  sw_sections : list SectionEntry;
  sw_data : list Z;
}.

Definition new (magic : list Z) (version : Z) : SectionFileWriter :=
  {| sw_magic := magic; sw_version := version; sw_sections := []; sw_data := [] |}.

(** [add_section]: the writer after the call, and the offset returned. *)
Definition add_section (w : SectionFileWriter) (section_id : Z) (payload : list Z)
    : SectionFileWriter * Z :=
  let offset := as_u32 #(sw_data w) in
  let length := as_u32 #payload in
  ({| sw_magic := sw_magic w;
      sw_version := sw_version w;
      sw_sections := sw_sections w ++
        [{| se_id := section_id; se_offset := offset; se_length := length |}];
      sw_data := sw_data w ++ payload |}, offset).

(** One record of the section table. *)
Definition entry_bytes (e : SectionEntry) : list Z :=
  to_le_bytes 2 (se_id e) ++ to_le_bytes 2 0
    ++ to_le_bytes 4 (se_offset e) ++ to_le_bytes 4 (se_length e).

Definition serialize (w : SectionFileWriter) : list Z :=
  let num_sections := #(sw_sections w) in
  let buf := sw_magic w ++ [sw_version w] in
  let buf := buf ++ to_le_bytes 2 (as_u16 num_sections) in
  let buf := fold_left (λ buf e, buf ++ entry_bytes e) (sw_sections w) buf in
  buf ++ sw_data w.

Definition num_sections (w : SectionFileWriter) : Z := #(sw_sections w).

(** [section_file_header]: the head alone, for [(section_id, length)] pairs
    whose payloads the caller writes after it. *)
Definition section_file_header (magic : list Z) (version : Z)
    (sections : list (Z * Z)) : list Z :=
  let buf := magic ++ [version] in
  let buf := buf ++ to_le_bytes 2 (as_u16 #sections) in
  fst (fold_left (λ st s,
    let '(buf, offset) := st in
    let '(id, length) := s in
    (buf ++ to_le_bytes 2 id ++ to_le_bytes 2 0
       ++ to_le_bytes 4 offset ++ to_le_bytes 4 length,
     add32 offset length)) sections (buf, 0)).

Record SectionFileReader := {
  sr_magic : list Z;
  sr_version : Z;
  sr_num_sections : Z;
  sr_section_table : list Z;
  sr_data : list Z;
}.

Record SectionDesc := { sd_id : Z; sd_offset : Z; sd_length : Z }.

(** [SectionFileReader::open]. *)
Definition open (bytes expected_magic : list Z) : out SectionFileReader :=
  if #bytes <? FIXED_HEADER then Nothing else
  magic ← slice bytes 0 4;
  if negb (bytes_eqb magic expected_magic) then Nothing else
  version ← index bytes 4;
  num_sections ← u16_at bytes 5;
  let table_size := num_sections * ENTRY_SIZE in
  if #bytes <? FIXED_HEADER + table_size then Nothing else
  section_table ← slice bytes FIXED_HEADER (FIXED_HEADER + table_size);
  data ← slice_from bytes (FIXED_HEADER + table_size);
  Ret {| sr_magic := magic; sr_version := version; sr_num_sections := num_sections;
         sr_section_table := section_table; sr_data := data |}.

Definition section_at (r : SectionFileReader) (index : Z) : out SectionDesc :=
  if sr_num_sections r <=? index then Nothing else
  let pos := index * ENTRY_SIZE in
  id ← u16_at (sr_section_table r) pos;
  offset ← u32_at (sr_section_table r) (pos + 4);
  length ← u32_at (sr_section_table r) (pos + 8);
  Ret {| sd_id := id; sd_offset := offset; sd_length := length |}.

(** [find_section]: the first descriptor with the id. *)
Fixpoint find_section_loop (r : SectionFileReader) (section_id : Z) (is_ : list Z)
    : out SectionDesc :=
  match is_ with
  | [] => Nothing
  | i :: is_ =>
      d ← catch (section_at r i);
      match d with
      | Some desc => if sd_id desc =? section_id then Ret desc
                     else find_section_loop r section_id is_
      | None => find_section_loop r section_id is_
      end
  end.

Definition find_section (r : SectionFileReader) (section_id : Z) : out SectionDesc :=
  find_section_loop r section_id (range 0 (sr_num_sections r)).

Definition section_data (r : SectionFileReader) (desc : SectionDesc) : out (list Z) :=
  let start := sd_offset desc in
  let end_ := start + sd_length desc in
  if #(sr_data r) <? end_ then Nothing else slice (sr_data r) start end_.

Definition get_section (r : SectionFileReader) (section_id : Z) : out (list Z) :=
  desc ← find_section r section_id;
  section_data r desc.

Definition has_section (r : SectionFileReader) (section_id : Z) : out bool :=
  d ← catch (find_section r section_id);
  Ret (bool_decide (is_Some d)).

(** [sections()]: every descriptor, in table order. *)
Definition sections (r : SectionFileReader) : out (list SectionDesc) :=
  ds ← mapM_out (λ i, catch (section_at r i)) (range 0 (sr_num_sections r));
  Ret (omap id (ds : list (option SectionDesc))).

Definition magic_SFX1 : list Z := [0x53; 0x46; 0x58; 0x31].
Definition magic_SFX2 : list Z := [0x53; 0x46; 0x58; 0x32].
Definition magic_SFX3 : list Z := [0x53; 0x46; 0x58; 0x33].
Definition magic_TTXT : list Z := [0x54; 0x54; 0x58; 0x54].
Definition magic_TTX3 : list Z := [0x54; 0x54; 0x58; 0x33].

Definition detect_sfx_version (bytes : list Z) : out Z :=
  if #bytes <? 4 then Nothing else
  m ← slice bytes 0 4;
  if bytes_eqb m magic_SFX1 then Ret 1
  else if bytes_eqb m magic_SFX2 then Ret 2
  else if bytes_eqb m magic_SFX3 then Ret 3
  else Nothing.

Definition detect_termtexts_version (bytes : list Z) : out Z :=
  if #bytes <? 4 then Nothing else
  m ← slice bytes 0 4;
  if bytes_eqb m magic_TTXT then Ret 1
  else if bytes_eqb m magic_TTX3 then Ret 3
  else Nothing.

End section_file.
Import section_file.

(** A file described by its sections: [(id, payload)], in order. *)
Definition build (magic : list Z) (version : Z) (ps : list (Z * list Z)) : SectionFileWriter :=
  foldl (λ w p, fst (add_section w p.1 p.2)) (new magic version) ps.

(** The payload the reader is expected to hand back: the first with the id. *)
Fixpoint first_payload (id : Z) (ps : list (Z * list Z)) : option (list Z) :=
  match ps with
  | [] => None
  | (id', p) :: ps => if id' =? id then Some p else first_payload id ps
  end.

(** What fits the format: a 4-byte magic, [u16] ids and count, data that a
    [u32] addresses. *)
Record file_ok (magic : list Z) (version : Z) (ps : list (Z * list Z)) : Prop := {
  fo_magic : #magic = 4;
  fo_ids : Forall (λ p, fits 16 p.1) ps;
  fo_count : #ps < 2 ^ 16;
  fo_size : #(flat_map snd ps) < 2 ^ 32;
}.

Fixpoint entries_of (at_ : Z) (ps : list (Z * list Z)) : list SectionEntry :=
  match ps with
  | [] => []
  | (id, p) :: ps =>
      {| se_id := id; se_offset := at_; se_length := #p |} :: entries_of (at_ + #p) ps
  end.

Lemma len_entry_bytes e : #(entry_bytes e) = 12.
Proof. unfold entry_bytes. by lens. Qed.

Lemma len_entries_of a ps : #(entries_of a ps) = #ps.
Proof. revert a. induction ps as [|[id p] ps IH]; intros a; [done|]. simpl. lens. by rewrite IH. Qed.

Lemma build_from w ps :
  #(sw_data w) + #(flat_map snd ps) < 2 ^ 32 →
  foldl (λ w p, fst (add_section w p.1 p.2)) w ps =
    {| sw_magic := sw_magic w; sw_version := sw_version w;
       sw_sections := sw_sections w ++ entries_of #(sw_data w) ps;
       sw_data := sw_data w ++ flat_map snd ps |}.
Proof.
  revert w. induction ps as [|[id p] ps IH]; intros w Hb.
  - destruct w. simpl. by rewrite !app_nil_r.
  - cbn [foldl flat_map fst snd] in *. rewrite len_app in Hb.
    pose proof (len_nonneg p). pose proof (len_nonneg (sw_data w)).
    pose proof (len_nonneg (flat_map snd ps)).
    unfold add_section at 2. cbn [fst]. rewrite IH by (simpl; lens; lia). simpl.
    unfold as_u32. rewrite !Z.mod_small by lia. rewrite len_app. by rewrite <- !app_assoc.
Qed.

Lemma build_eq magic version ps :
  file_ok magic version ps →
  build magic version ps =
    {| sw_magic := magic; sw_version := version;
       sw_sections := entries_of 0 ps; sw_data := flat_map snd ps |}.
Proof. intros [_ _ _ Hs]. unfold build. rewrite build_from; [done|]. simpl. lens. lia. Qed.

Lemma fold_entry_bytes es buf :
  fold_left (λ buf e, buf ++ entry_bytes e) es buf = buf ++ flat_map entry_bytes es.
Proof.
  revert buf. induction es as [|e es IH]; intros buf; simpl; [by rewrite app_nil_r|].
  rewrite IH. by rewrite <- app_assoc.
Qed.

Lemma serialize_build magic version ps :
  file_ok magic version ps →
  serialize (build magic version ps) =
    magic ++ [version] ++ to_le_bytes 2 #ps
      ++ flat_map entry_bytes (entries_of 0 ps) ++ flat_map snd ps.
Proof.
  intros Hf. rewrite (build_eq _ _ _ Hf). unfold serialize. cbn [sw_magic sw_version sw_sections sw_data].
  rewrite fold_entry_bytes, len_entries_of. unfold as_u16.
  pose proof (len_nonneg ps). rewrite Z.mod_small by (destruct Hf; lia).
  by rewrite <- !app_assoc.
Qed.

(** The reader over such a file. *)
Definition reader_of (magic : list Z) (version : Z) (ps : list (Z * list Z)) : SectionFileReader :=
  {| sr_magic := magic; sr_version := version; sr_num_sections := #ps;
     sr_section_table := flat_map entry_bytes (entries_of 0 ps);
     sr_data := flat_map snd ps |}.

Lemma open_build magic version ps :
  file_ok magic version ps →
  open (serialize (build magic version ps)) magic = Ret (reader_of magic version ps).
Proof.
  intros Hf. rewrite (serialize_build _ _ _ Hf). destruct Hf as [Hm Hi Hc Hs].
  pose proof (len_nonneg ps). pose proof (len_nonneg (flat_map snd ps)).
  assert (#(flat_map entry_bytes (entries_of 0 ps)) = #ps * 12) as Htab.
  { rewrite (len_records _ 12 len_entry_bytes), len_entries_of. lia. }
  unfold open.
  match goal with |- context [len ?x <? FIXED_HEADER] =>
    destruct (cursor_open x) as (data & Hd & Hat); rewrite <- Hd end.
  assert (#data = 7 + #ps * 12 + #(flat_map snd ps)) as Hlen by (subst data; lens; lia).
  unfold FIXED_HEADER, ENTRY_SIZE. rewrite Hlen. case_lia.
  rewrite (At_slice _ _ _ _ _ Hat) by lia. rewrite bind_ret.
  apply At_skip in Hat. rewrite Hm in Hat. change (0 + 4) with 4 in Hat. simpl app in Hat.
  unfold bytes_eqb. rewrite bool_decide_true by done. simpl negb. cbv iota.
  unfold index at 1. rewrite (At_get _ _ _ _ Hat), bind_ret. apply At_tail in Hat.
  cursor_norm Hat. read_u16 Hat.
  replace (7 + #ps * 12 + _ <? 7 + #ps * 12) with false by lia.
  read_slice Hat. unfold slice_from. rewrite <- (app_nil_r (flat_map snd ps)) in Hat.
  rewrite Htab in Hat. rewrite (At_slice _ _ _ _ _ Hat) by (rewrite Hlen; lia). done.
Qed.

Section Lookup.
Context (magic : list Z) (version : Z) (ps : list (Z * list Z)).
Hypothesis ok : file_ok magic version ps.
Let r := reader_of magic version ps.

Lemma entries_of_lookup a l k id p :
  l !! k = Some (id, p) →
  entries_of a l !! k =
    Some {| se_id := id; se_offset := a + #(flat_map snd (take k l)); se_length := #p |}.
Proof.
  revert a k. induction l as [|[id' p'] l IH]; intros a [|k] Hk; try done.
  - simpl in *. simplify_eq. by rewrite len_nil, Z.add_0_r.
  - simpl in *. rewrite (IH _ _ Hk), len_app. do 2 f_equal. lia.
Qed.

Lemma flat_map_split k (p : Z * list Z) :
  ps !! k = Some p →
  flat_map snd ps = flat_map snd (take k ps) ++ p.2 ++ flat_map snd (drop (S k) ps).
Proof.
  intros Hk. rewrite <- (take_drop_middle ps k p Hk) at 1. by rewrite flat_map_app.
Qed.

Lemma section_at_lookup k id p :
  ps !! k = Some (id, p) →
  section_at r (Z.of_nat k) =
    Ret {| sd_id := id; sd_offset := #(flat_map snd (take k ps)); sd_length := #p |}.
Proof using ok.
  intros Hk. pose proof (entries_of_lookup 0 ps k id p Hk) as He. rewrite Z.add_0_l in He.
  unfold section_at, r, ENTRY_SIZE. cbn [sr_num_sections sr_section_table reader_of].
  apply lookup_lt_Some in Hk as Hlt. replace (#ps <=? Z.of_nat k) with false by (unfold len; lia).
  destruct (At_record _ 12 len_entry_bytes _ _ _ [] He) as [rest Hat].
  rewrite app_nil_r, Z.mul_comm in Hat.
  set (data := flat_map entry_bytes (entries_of 0 ps)) in *. clearbody data.
  unfold entry_bytes in Hat. cbn [se_id se_offset se_length] in Hat.
  rewrite <- !app_assoc in Hat.
  destruct ok as [_ Hi _ Hs]. rewrite Forall_lookup in Hi. specialize (Hi _ _ Hk). simpl in Hi.
  rewrite (flat_map_split _ _ Hk) in Hs. cbn [snd] in Hs. rewrite !len_app in Hs.
  pose proof (len_nonneg (flat_map snd (take k ps))). pose proof (len_nonneg p).
  pose proof (len_nonneg (flat_map snd (drop (S k) ps))).
  destruct (At_u16 _ _ _ _ Hat Hi) as [-> Hat1]. rewrite bind_ret.
  apply At_skip in Hat1. rewrite len_to_le_bytes, <- Z.add_assoc in Hat1. change (2 + Z.of_nat 2) with 4 in Hat1.
  read_u32 Hat1. rewrite <- Z.add_assoc in Hat1. change (4 + 4) with 8 in Hat1. by read_u32 Hat1.
Qed.

Lemma section_data_lookup k id p :
  ps !! k = Some (id, p) →
  section_data r {| sd_id := id; sd_offset := #(flat_map snd (take k ps)); sd_length := #p |} = Ret p.
Proof.
  intros Hk. unfold section_data, r. cbn [sr_data reader_of sd_offset sd_length].
  rewrite (flat_map_split _ _ Hk). cbn [snd].
  pose proof (len_nonneg (flat_map snd (drop (S k) ps))). case_len. by apply slice_mid.
Qed.

Lemma find_section_from id k :
  (k ≤ length ps)%nat →
  (find_section_loop r id (range (Z.of_nat k) #ps) ≫= section_data r) =
    of_option (first_payload id (drop k ps)).
Proof using ok.
  intros Hk. remember (length ps - k)%nat as m eqn:Hm. revert k Hk Hm.
  induction m as [|m IH]; intros k Hk Hm.
  - rewrite range_nil by (unfold len; lia). by rewrite drop_ge by lia.
  - destruct (lookup_lt_is_Some_2 ps k) as [[id' p] Hp]; [lia|].
    rewrite range_cons by (unfold len; lia).
    cbn [find_section_loop]. rewrite (section_at_lookup _ _ _ Hp). simpl.
    rewrite (drop_S _ _ _ Hp). simpl. destruct (id' =? id) eqn:E.
    + simpl. by rewrite (section_data_lookup _ _ _ Hp).
    + replace (Z.of_nat k + 1) with (Z.of_nat (S k)) by lia. apply IH; lia.
Qed.

Lemma get_section_first id : get_section r id = of_option (first_payload id ps).
Proof using ok. apply (find_section_from id 0). lia. Qed.
End Lookup.

(** The head written for streamed payloads is the head of the assembled file. *)
Lemma header_fold (ps : list (Z * list Z)) buf off :
  off + #(flat_map snd ps) < 2 ^ 32 → 0 ≤ off →
  fst (fold_left (λ st s,
    let '(buf, offset) := st in
    let '(id, length) := s in
    (buf ++ to_le_bytes 2 id ++ to_le_bytes 2 0
       ++ to_le_bytes 4 offset ++ to_le_bytes 4 length,
     add32 offset length)) (prod_map id len <$> ps) (buf, off)) =
  buf ++ flat_map entry_bytes (entries_of off ps).
Proof.
  revert buf off. induction ps as [|[i p] ps IH]; intros buf off Hb Ho.
  - simpl. by rewrite app_nil_r.
  - cbn [flat_map snd] in Hb. rewrite len_app in Hb.
    pose proof (len_nonneg p). pose proof (len_nonneg (flat_map snd ps)).
    rewrite fmap_cons. cbn [fold_left prod_map fst snd id entries_of flat_map].
    assert (add32 off #p = off + #p) as ->.
    { unfold add32, as_u32. apply Z.mod_small. lia. }
    rewrite IH by lia. unfold entry_bytes at 2. cbn [se_id se_offset se_length].
    by rewrite <- !app_assoc.
Qed.

Lemma header_build magic version (ps : list (Z * list Z)) :
  file_ok magic version ps →
  section_file_header magic version (prod_map id len <$> ps) ++ flat_map snd ps =
    serialize (build magic version ps).
Proof.
  intros Hf. rewrite (serialize_build _ _ _ Hf). destruct Hf as [_ _ Hc Hs].
  unfold section_file_header. rewrite header_fold by lia.
  rewrite len_fmap. unfold as_u16. pose proof (len_nonneg ps).
  rewrite Z.mod_small by lia. by rewrite <- !app_assoc.
Qed.

(** ** Properties *)

(** Round trip of a section file: the file a [SectionFileWriter]
    serializes after any sequence of [add_section] opens with the same magic
    and version, and [get_section] hands back, for every id, the payload of
    the first section added under it, [None] when there is none. *)
Theorem section_file_roundtrip (magic : list Z) (version : Z) (ps : list (Z * list Z)) :
  file_ok magic version ps →
  ∃ r, open (serialize (build magic version ps)) magic = Ret r ∧
    sr_version r = version ∧ sr_num_sections r = #ps ∧
    ∀ id, get_section r id = of_option (first_payload id ps).
Proof.
  intros Hf. exists (reader_of magic version ps). split; [by apply open_build|].
  do 2 (split; [done|]). intros id. by apply get_section_first.
Qed.

Definition sample_sections : list (Z * list Z) := [(5, [1; 2; 3]); (3, [0; 1; 1; 0]); (5, [9])].

Lemma sample_file_ok : file_ok magic_TTX3 3 sample_sections.
Proof. split; [done| |done|done]. by repeat constructor; vm_compute. Qed.

Lemma section_file_roundtrip_witness :
  ∃ r, open (serialize (build magic_TTX3 3 sample_sections)) magic_TTX3 = Ret r ∧
    sr_version r = 3 ∧ sr_num_sections r = 3 ∧
    ∀ id, get_section r id = of_option (first_payload id sample_sections).
Proof. exact (section_file_roundtrip magic_TTX3 3 sample_sections sample_file_ok). Defined.

(** The streamed file is the assembled file, byte for byte:
    [section_file_header] over the ids and lengths, followed by the payloads,
    is what [SectionFileWriter::serialize] produces. *)
Theorem section_header_streamed (magic : list Z) (version : Z) (ps : list (Z * list Z)) :
  file_ok magic version ps →
  section_file_header magic version (prod_map id len <$> ps) ++ flat_map snd ps =
    serialize (build magic version ps).
Proof. apply header_build. Qed.

Lemma section_header_streamed_witness :
  section_file_header magic_TTX3 3 (prod_map id len <$> sample_sections)
    ++ flat_map snd sample_sections =
    serialize (build magic_TTX3 3 sample_sections).
Proof. exact (section_header_streamed magic_TTX3 3 sample_sections sample_file_ok). Defined.

(** What [open] establishes of the view it returns. *)
Record reader_ok (r : SectionFileReader) : Prop := {
  ro_table : bytes_ok (sr_section_table r);
  ro_len : #(sr_section_table r) = sr_num_sections r * 12;
  ro_num : 0 ≤ sr_num_sections r;
  ro_data : bytes_ok (sr_data r);
}.

Lemma open_total bytes magic :
  bytes_ok bytes →
  open bytes magic = Nothing ∨ ∃ r, open bytes magic = Ret r ∧ reader_ok r.
Proof.
  intros Hb. unfold open, FIXED_HEADER, ENTRY_SIZE.
  destruct (#bytes <? 7) eqn:E; [by left|].
  destruct (slice_returns bytes 0 4) as [m ->]; [lia..|]. rewrite bind_ret.
  destruct (negb _); [by left|].
  destruct (index_in bytes 4) as (v & -> & _); [lia|]. rewrite bind_ret.
  destruct (u16_at_ok bytes 5) as (n & -> & Hn); [done|lia..|]. rewrite bind_ret. widths.
  destruct (#bytes <? 7 + n * 12) eqn:E'; [by left|].
  destruct (slice_returns bytes 7 (7 + n * 12)) as [t Ht]; [lia..|]. rewrite Ht, bind_ret.
  unfold slice_from.
  destruct (slice_returns bytes (7 + n * 12) #bytes) as [d Hd]; [lia..|]. rewrite Hd, bind_ret.
  right. eexists. split; [done|].
  split; simpl; [by eapply slice_ok|apply slice_len in Ht; lia|lia|by eapply slice_ok].
Qed.

Lemma section_at_total r i :
  reader_ok r → 0 ≤ i →
  section_at r i = Nothing ∨
  ∃ d, section_at r i = Ret d ∧ 0 ≤ sd_offset d ∧ 0 ≤ sd_length d.
Proof.
  intros [Ht Hl Hn _] Hi. unfold section_at, ENTRY_SIZE.
  destruct (sr_num_sections r <=? i) eqn:E; [by left|]. right.
  destruct (u16_at_ok (sr_section_table r) (i * 12)) as (a & -> & _); [done|lia..|].
  destruct (u32_at_ok (sr_section_table r) (i * 12 + 4)) as (b & -> & Hb); [done|lia..|].
  destruct (u32_at_ok (sr_section_table r) (i * 12 + 8)) as (c & -> & Hc); [done|lia..|].
  rewrite !bind_ret. eexists. split; [done|]. simpl. widths. lia.
Qed.

Lemma find_section_total r id is_ :
  reader_ok r → Forall (λ i, 0 ≤ i) is_ →
  find_section_loop r id is_ = Nothing ∨
  ∃ d, find_section_loop r id is_ = Ret d ∧ 0 ≤ sd_offset d ∧ 0 ≤ sd_length d.
Proof.
  intros Hr. induction 1 as [|i is_ Hi _ IH]; [by left|]. cbn [find_section_loop].
  destruct (section_at_total r i Hr Hi) as [->|(d & -> & Hd)]; simpl; [done|].
  destruct (sd_id d =? id); [|done]. right. eauto.
Qed.

Lemma get_section_total r id :
  reader_ok r →
  returns (has_section r id) ∧
  (get_section r id = Nothing ∨ ∃ x, get_section r id = Ret x ∧ bytes_ok x).
Proof.
  intros Hr. unfold has_section, get_section, find_section.
  destruct (find_section_total r id (range 0 (sr_num_sections r)) Hr) as [->|(d & -> & Hd1 & Hd2)].
  { apply Forall_forall. intros i Hi%elem_of_range. lia. }
  - split; [done|by left].
  - split; [done|]. simpl. unfold section_data. destruct (_ <? _) eqn:E; [by left|]. right.
    destruct (slice_returns (sr_data r) (sd_offset d) (sd_offset d + sd_length d)) as [x Hx]; [lia..|].
    exists x. split; [done|]. eapply slice_ok; [|done]. apply Hr.
Qed.

(** Opening and reading a section never panics, on any bytes whatever:
    a short file, a bad magic, a table or a section that runs past the end
    are all [None]. *)
Theorem section_file_total (bytes magic : list Z) (id : Z) :
  bytes_ok bytes →
  returns (open bytes magic) ∧
  ∀ r, open bytes magic = Ret r → returns (get_section r id) ∧ returns (has_section r id).
Proof.
  intros Hb. destruct (open_total bytes magic Hb) as [Ho|(r & Ho & Hr)]; rewrite Ho; [done|].
  split; [done|]. intros r' [= <-].
  destruct (get_section_total r id Hr) as [? [->|(x & -> & _)]]; done.
Qed.

Lemma section_file_total_witness :
  returns (open [0x54; 0x54; 0x58; 0x33; 3; 1; 0; 5; 0; 0; 0; 9; 9; 9; 9; 1; 1; 1; 1] magic_TTX3) ∧
  ∀ r, open [0x54; 0x54; 0x58; 0x33; 3; 1; 0; 5; 0; 0; 0; 9; 9; 9; 9; 1; 1; 1; 1] magic_TTX3 = Ret r →
    returns (get_section r 5) ∧ returns (has_section r 5).
Proof. apply section_file_total. by repeat constructor; vm_compute. Defined.
