(* ===== verification/Gmap.v ===== *)
(** * The segment's ordinal map ([src/suffix_fst/gmap.rs])

    [.gmap]: the global id of every local ordinal of a segment, sorted, with
    the first id of every block of 64 since layout 2.  [global] is an index,
    [local] and [lower_bound_from] are searches; layout 1 ([GMAP], no block
    heads) is still read and takes the other branch of both. *)
From S2P Require Import Prelude.

Module gmap.

Definition MAGIC : list Z := [0x47; 0x4D; 0x41; 0x50].
Definition MAGIC2 : list Z := [0x47; 0x4D; 0x50; 0x32].
Definition BLOCK : Z := 64.
Definition UNKNOWN_WORD : Z := 0xFFFF.

(** [encode].  The index [globals[b * BLOCK]] is in range for every block. *)
Definition encode (globals : list Z) (max_word_content_len : option Z) : list Z :=
  let n := #globals in
  let blocks := div_ceil n BLOCK in
  let buf := MAGIC2 ++ to_le_bytes 4 (as_u32 n) in
  let buf := buf ++ to_le_bytes 2
    (match max_word_content_len with
     | Some m => Z.min m (UNKNOWN_WORD - 1)
     | None => UNKNOWN_WORD
     end) in
  let buf := buf ++ to_le_bytes 2 0 in
  let buf := fold_left (λ buf g, buf ++ to_le_bytes 4 g) globals buf in
  fold_left (λ buf b,
    buf ++ to_le_bytes 4 (default 0 (globals !! Z.to_nat (b * BLOCK)))) (range 0 blocks) buf.

(** [struct GmapReader]. *)
Record GmapReader := {
  gm_data : list Z;
  gm_n : Z;
  gm_heads : list Z;
  gm_max_word : option Z;
}.

Definition open (bytes : list Z) : out GmapReader :=
  if #bytes <? 8 then Nothing else
  n ← u32_at bytes 4;
  let ids_len := n * 4 in
  magic ← slice bytes 0 4;
  if bytes_eqb magic MAGIC then
    if #bytes <? 8 + ids_len then Nothing else
    data ← slice bytes 8 (8 + ids_len);
    Ret {| gm_data := data; gm_n := n; gm_heads := []; gm_max_word := None |}
  else
  if negb (bytes_eqb magic MAGIC2) || (#bytes <? 12) then Nothing else
  let blocks := div_ceil n BLOCK in
  if #bytes <? 12 + ids_len + blocks * 4 then Nothing else
  mw ← u16_at bytes 8;
  data ← slice bytes 12 (12 + ids_len);
  heads ← slice bytes (12 + ids_len) (12 + ids_len + blocks * 4);
  Ret {| gm_data := data; gm_n := n; gm_heads := heads;
         gm_max_word := if negb (mw =? UNKNOWN_WORD) then Some mw else None |}.

Definition head_ (g : GmapReader) (block : Z) : out Z := u32_at (gm_heads g) (block * 4).

(** [global]: the global id of a local ordinal. *)
Definition global (g : GmapReader) (local : Z) : out Z := u32_at (gm_data g) (local * 4).

(** [block_of]: the last block, from [first_block] on, whose head is at most
    [target]. *)
Definition block_of (g : GmapReader) (first_block target : Z) : out Z :=
  let blocks := #(gm_heads g) / 4 in
  lo ← bisect (λ mid, h ← head_ g mid; Ret (h <=? target)) first_block blocks;
  Ret (saturating_sub lo 1).

(** The search of one block, or of the whole map: the first local ordinal of
    [lo..hi] whose global id is at least [target]. *)
Definition lower_bound_in (g : GmapReader) (target lo hi : Z) : out Z :=
  bisect (λ mid, v ← global g mid; Ret (v <? target)) lo hi.

(** The galloping of layout 1: [lo] and [hi] around the first id at least
    [target]; [hi] grows at every turn, up to [n]. *)
Fixpoint gallop (fuel : nat) (g : GmapReader) (target lo hi step : Z) : out (Z * Z) :=
  if gm_n g <=? hi then Ret (lo, gm_n g) else
  v ← global g hi;
  if target <=? v then Ret (lo, hi) else
  match fuel with
  | O => OutOfFuel
  | S fuel =>
      gallop fuel g target (hi + 1) (Z.min u32_max (hi + step)) (Z.min u32_max (step * 2))
  end.

Definition lower_bound_from (g : GmapReader) (from target : Z) : out Z :=
  let n := gm_n g in
  if n <=? from then Ret n else
  if negb (bool_decide (gm_heads g = [])) then
    let fb := from / BLOCK in
    let blocks := #(gm_heads g) / 4 in
    b ← (if blocks <=? fb + 1 then Ret fb else
         h ← head_ g (fb + 1);
         if target <? h then Ret fb else block_of g (fb + 1) target);
    let lo0 := Z.max (as_u32 (as_u32 b * BLOCK)) from in
    let hi0 := Z.min (as_u32 (add32 b 1 * BLOCK)) n in
    lower_bound_in g target lo0 hi0
  else
    '(lo, hi) ← gallop (Z.to_nat (n - from)) g target from from 1;
    lower_bound_in g target lo hi.

(** [local]'s search: [while lo < hi] with an early return on equality. *)
Fixpoint local_loop (fuel : nat) (g : GmapReader) (global_id lo hi : Z) : out Z :=
  if lo <? hi then
    match fuel with
    | O => OutOfFuel
    | S fuel =>
        let mid := lo + (hi - lo) / 2 in
        v ← global g mid;
        if v =? global_id then Ret mid
        else if v <? global_id then local_loop fuel g global_id (mid + 1) hi
        else local_loop fuel g global_id lo mid
    end
  else Nothing.

(** [local]: the local ordinal of a global id, if the segment has it. *)
Definition local (g : GmapReader) (global_id : Z) : out Z :=
  if gm_n g =? 0 then Nothing else
  '(lo, hi) ← (if bool_decide (gm_heads g = []) then Ret (0, gm_n g)
               else b ← block_of g 0 global_id;
                    Ret (as_u32 (b * BLOCK), Z.min (as_u32 ((b + 1) * BLOCK)) (gm_n g)));
  local_loop (Z.to_nat (hi - lo)) g global_id lo hi.

(** [iter]: every global id, in local order. *)
Definition iter (g : GmapReader) : out (list Z) :=
  mapM_out (global g) (range 0 (gm_n g)).

End gmap.
Import gmap.

(** The ids a map may hold: strictly increasing [u32]s, few enough that the
    bound of the last block is a [u32] (an ordinal has 28 bits). *)
Record ids_ok (ids : list Z) : Prop := {
  ids_u32 : Forall (fits 32) ids;
  ids_sorted : increasing ids;
  ids_num : #ids ≤ 2 ^ 32 - BLOCK;
}.

(** The heads of layout 2. *)
Definition heads_of (ids : list Z) : list Z :=
  (λ b, default 0 (ids !! Z.to_nat (b * BLOCK))) <$> range 0 (div_ceil #ids BLOCK).

(** A reader over a map of [ids], in either layout. *)
Record gmap_over (g : GmapReader) (ids : list Z) : Prop := {
  go_data : gm_data g = flat_map (to_le_bytes 4) ids;
  go_n : gm_n g = #ids;
  go_heads : gm_heads g = [] ∨ gm_heads g = flat_map (to_le_bytes 4) (heads_of ids);
}.

(** The id at a local ordinal; meaningful below [#ids]. *)
Definition id_at (ids : list Z) (i : Z) : Z := default 0 (ids !! Z.to_nat i).

(** The specification of both searches: the first ordinal at or after [from]
    whose id is at least [target], the number of ordinals when none. *)
Record is_lower_bound (ids : list Z) (from target r : Z) : Prop := {
  lb_range : from ≤ r ≤ #ids;
  lb_below : ∀ i, from ≤ i < r → id_at ids i < target;
  lb_at : r < #ids → target ≤ id_at ids r;
}.

Lemma id_at_lookup ids i : 0 ≤ i < #ids → ids !! Z.to_nat i = Some (id_at ids i).
Proof.
  intros Hi. unfold id_at. destruct (lookup_lt_is_Some_2 ids (Z.to_nat i)) as [x Hx].
  - unfold len in Hi. lia.
  - by rewrite Hx.
Qed.

Lemma id_at_mono ids i j : increasing ids → 0 ≤ i → i < j → j < #ids → id_at ids i < id_at ids j.
Proof.
  intros Hs Hi Hij Hj. apply (Hs (Z.to_nat i) (Z.to_nat j)); [lia|apply id_at_lookup; lia..].
Qed.

Lemma id_at_mono_le ids i j : increasing ids → 0 ≤ i → i ≤ j → j < #ids → id_at ids i ≤ id_at ids j.
Proof.
  intros Hs Hi Hij Hj. destruct (decide (i = j)) as [->|]; [lia|].
  pose proof (id_at_mono ids i j Hs). lia.
Qed.

Lemma lower_bound_unique ids from target r1 r2 :
  is_lower_bound ids from target r1 → is_lower_bound ids from target r2 → r1 = r2.
Proof.
  intros [R1 B1 A1] [R2 B2 A2]. destruct (Z.lt_trichotomy r1 r2) as [H|[H|H]]; [|done|].
  - assert (id_at ids r1 < target) by (apply B2; lia).
    assert (target ≤ id_at ids r1) by (apply A1; lia). lia.
  - assert (id_at ids r2 < target) by (apply B1; lia).
    assert (target ≤ id_at ids r2) by (apply A2; lia). lia.
Qed.

Section Search.
Context (g : GmapReader) (ids : list Z).
Hypothesis (over : gmap_over g ids) (ok : ids_ok ids).

Lemma global_id_at i : 0 ≤ i < #ids → global g i = Ret (id_at ids i).
Proof using over ok.
  intros Hi. unfold global. rewrite (go_data _ _ over), <- (app_nil_r (flat_map _ _)).
  apply id_at_lookup in Hi as Hl.
  replace (i * 4) with (Z.of_nat 4 * Z.of_nat (Z.to_nat i)) by lia.
  apply le_at_table; [done|].
  destruct ok as [Hu _ _]. rewrite Forall_lookup in Hu. eauto.
Qed.

Lemma num_blocks_spec b : 0 ≤ b → b < div_ceil #ids BLOCK ↔ b * BLOCK < #ids.
Proof.
  intros Hb. unfold div_ceil, BLOCK. split; intros H.
  - pose proof (Z.mul_div_le (#ids + 64 - 1) 64). lia.
  - apply Z.le_succ_l, Z.div_le_lower_bound; lia.
Qed.

Hypothesis heads : gm_heads g = flat_map (to_le_bytes 4) (heads_of ids).

Lemma len_heads : #(gm_heads g) / 4 = div_ceil #ids BLOCK.
Proof using heads.
  rewrite heads, len_table. unfold heads_of. rewrite len_fmap, len_range.
  - change (Z.of_nat 4) with 4. rewrite Z.mul_comm, Z.div_mul, Z.sub_0_r by lia. done.
  - unfold div_ceil. apply Z.div_pos; pose proof (len_nonneg ids); unfold BLOCK; lia.
Qed.

Lemma head_id_at b : 0 ≤ b < div_ceil #ids BLOCK → head_ g b = Ret (id_at ids (b * BLOCK)).
Proof using heads ok.
  intros Hb. unfold head_. rewrite heads, <- (app_nil_r (flat_map _ _)).
  replace (b * 4) with (Z.of_nat 4 * Z.of_nat (Z.to_nat b)) by lia.
  apply le_at_table.
  - unfold heads_of. rewrite list_lookup_fmap. unfold range. rewrite lookup_seqZ_lt by lia.
    simpl. by rewrite Z2Nat.id by lia.
  - destruct ok as [Hu _ _]. rewrite Forall_lookup in Hu.
    eapply Hu, id_at_lookup. pose proof (num_blocks_spec b). unfold BLOCK in *. lia.
Qed.

Lemma block_of_spec fb target :
  0 ≤ fb ≤ div_ceil #ids BLOCK →
  ∃ lo, block_of g fb target = Ret (saturating_sub lo 1) ∧ fb ≤ lo ≤ div_ceil #ids BLOCK ∧
    (∀ b, fb ≤ b < lo → id_at ids (b * BLOCK) ≤ target) ∧
    (∀ b, lo ≤ b < div_ceil #ids BLOCK → target < id_at ids (b * BLOCK)).
Proof using heads ok.
  intros Hfb. unfold block_of. rewrite len_heads.
  destruct (bisect_spec (λ mid, h ← head_ g mid; Ret (h <=? target))
    (λ b, id_at ids (b * BLOCK) <=? target) fb (div_ceil #ids BLOCK)) as (lo & -> & Hlo & Ht & Hf).
  - split.
    + intros i Hi. by rewrite head_id_at by lia.
    + intros i j Hi Hij Hj Hq. pose proof (num_blocks_spec j).
      pose proof (id_at_mono_le ids (i * BLOCK) (j * BLOCK) (ids_sorted _ ok)). unfold BLOCK in *. lia.
  - lia.
  - exists lo. split; [done|]. split; [done|]. split; intros b Hb.
    + specialize (Ht b Hb). lia.
    + specialize (Hf b Hb). lia.
Qed.
End Search.

Section LowerBound.
Context (g : GmapReader) (ids : list Z).
Hypothesis (over : gmap_over g ids) (ok : ids_ok ids).

Lemma lower_bound_in_spec from target lo hi :
  0 ≤ from ≤ lo → lo ≤ hi → hi ≤ #ids →
  (∀ i, from ≤ i < lo → id_at ids i < target) →
  (hi < #ids → target ≤ id_at ids hi) →
  ∃ r, lower_bound_in g target lo hi = Ret r ∧ is_lower_bound ids from target r.
Proof using over ok.
  intros Hf Hlh Hh Hlo Hhi. unfold lower_bound_in.
  destruct (bisect_spec (λ mid, v ← global g mid; Ret (v <? target))
    (λ i, id_at ids i <? target) lo hi) as (r & -> & Hr & Ht & Hff).
  - split.
    + intros i Hi. by rewrite (global_id_at g ids) by (done || lia).
    + intros i j Hi Hij Hj Hq.
      pose proof (id_at_mono_le ids i j (ids_sorted _ ok)). lia.
  - done.
  - exists r. split; [done|]. split; [lia| |].
    + intros i Hi. destruct (decide (i < lo)); [apply Hlo; lia|]. specialize (Ht i). lia.
    + intros Hrn. destruct (decide (r = hi)) as [->|]; [by apply Hhi|]. specialize (Hff r). lia.
Qed.

Lemma gallop_spec fuel from target lo hi step :
  0 ≤ from ≤ lo → lo ≤ hi → 1 ≤ step → (Z.to_nat (#ids - hi) ≤ fuel)%nat →
  (lo ≤ #ids) →
  (∀ i, from ≤ i < lo → id_at ids i < target) →
  ∃ lo' hi', gallop fuel g target lo hi step = Ret (lo', hi') ∧
    from ≤ lo' ≤ hi' ∧ hi' ≤ #ids ∧
    (∀ i, from ≤ i < lo' → id_at ids i < target) ∧
    (hi' < #ids → target ≤ id_at ids hi').
Proof using over ok.
  revert lo hi step. induction fuel as [|fuel IH]; intros lo hi step Hf Hlh Hs Hfuel Hl Hlo.
  all: cbn [gallop]; rewrite (go_n _ _ over); destruct (#ids <=? hi) eqn:E;
    [exists lo, #ids; repeat split; try done; lia|].
  { lia. }
  rewrite (global_id_at g ids) by (done || lia). rewrite bind_ret.
  destruct (target <=? id_at ids hi) eqn:Et.
  { exists lo, hi. repeat split; try done; lia. }
  pose proof (ids_num _ ok) as Hn. unfold BLOCK in Hn.
  apply IH; unfold u32_max in *; try lia.
  intros i Hi. pose proof (id_at_mono_le ids i hi (ids_sorted _ ok)). lia.
Qed.

(** The block [lower_bound_from] searches: not before [from]'s, its head at
    most the target unless it is [from]'s own, the next head above it. *)
Lemma start_block_spec from target :
  gm_heads g = flat_map (to_le_bytes 4) (heads_of ids) → 0 ≤ from < #ids →
  let fb := from / BLOCK in
  ∃ b, (if #(gm_heads g) / 4 <=? fb + 1 then Ret fb else
        h ← head_ g (fb + 1);
        if target <? h then Ret fb else block_of g (fb + 1) target) = Ret b ∧
    fb ≤ b ∧ b * BLOCK < #ids ∧
    (b = fb ∨ id_at ids (b * BLOCK) ≤ target) ∧
    ((b + 1) * BLOCK < #ids → target < id_at ids ((b + 1) * BLOCK)).
Proof using ok.
  intros Hheads Hf fb.
  assert (fb * BLOCK ≤ from ∧ 0 ≤ fb) as Hfb.
  { unfold fb, BLOCK. pose proof (Z.div_mod from 64). pose proof (Z.mod_pos_bound from 64).
    pose proof (Z.div_pos from 64). lia. }
  clearbody fb. rewrite (len_heads g ids Hheads).
  pose proof (num_blocks_spec ids (fb + 1)) as Hnb1.
  destruct (_ <=? fb + 1) eqn:E1; [exists fb; unfold BLOCK in *; repeat split; auto; lia|].
  rewrite (head_id_at g ids ok Hheads) by lia. rewrite bind_ret.
  destruct (target <? _) eqn:E2.
  { exists fb. unfold BLOCK in *. repeat split; auto; lia. }
  destruct (block_of_spec g ids ok Hheads (fb + 1) target) as (lo & -> & Hlo & Hbelow & Habove); [lia|].
  assert (lo ≠ fb + 1) by (intros ->; specialize (Habove (fb + 1)); lia).
  exists (lo - 1). unfold saturating_sub. rewrite Z.max_r by lia.
  pose proof (num_blocks_spec ids (lo - 1)).
  split; [done|]. split; [lia|]. split; [lia|]. split; [right; apply Hbelow; lia|].
  intros Hn. replace (lo - 1 + 1) with lo in * by lia. apply Habove.
  pose proof (num_blocks_spec ids lo). lia.
Qed.

Lemma lower_bound_from_spec from target :
  0 ≤ from →
  ∃ r, lower_bound_from g from target = Ret r ∧
    (from ≤ #ids → is_lower_bound ids from target r) ∧ (#ids ≤ from → r = #ids).
Proof using over ok.
  intros Hfrom. unfold lower_bound_from. rewrite (go_n _ _ over).
  destruct (#ids <=? from) eqn:E.
  { exists #ids. split; [done|]. split; [|done]. intros. split; [lia| |lia].
    intros; lia. }
  assert (∀ m, (∃ r, m = Ret r ∧ is_lower_bound ids from target r) →
    ∃ r, m = Ret r ∧ (from ≤ #ids → is_lower_bound ids from target r) ∧ (#ids ≤ from → r = #ids))
    as Hfin.
  { intros m (r & -> & Hr). exists r. repeat split; try done; [apply Hr..|lia]. }
  apply Hfin. clear Hfin. case_bool_decide as Hh; simpl negb; cbv iota.
  - destruct (gallop_spec (Z.to_nat (#ids - from)) from target from from 1)
      as (lo & hi & -> & H1 & H2 & H3 & H4); [lia..|intros; lia|].
    rewrite bind_ret. apply lower_bound_in_spec; auto; lia.
  - destruct (go_heads _ _ over) as [?|Hheads]; [done|].
    pose proof (ids_num _ ok) as Hn.
    destruct (start_block_spec from target Hheads) as (b & -> & Hb & Hbn & Hb1 & Hb2); [lia|].
    assert (from < (from / BLOCK + 1) * BLOCK ∧ from / BLOCK * BLOCK ≤ from ∧ 0 ≤ from / BLOCK) as Hfb.
    { unfold BLOCK. pose proof (Z.div_mod from 64). pose proof (Z.mod_pos_bound from 64).
      pose proof (Z.div_pos from 64). lia. }
    rewrite bind_ret. unfold BLOCK in *.
    assert (as_u32 b = b ∧ as_u32 (b * 64) = b * 64 ∧ add32 b 1 = b + 1 ∧
      as_u32 ((b + 1) * 64) = (b + 1) * 64) as (-> & -> & -> & ->).
    { unfold add32, as_u32. rewrite !Z.mod_small by lia. lia. }
    apply lower_bound_in_spec; try lia.
    + intros i Hi. destruct Hb1 as [->|Hb1]; [lia|].
      pose proof (id_at_mono ids i (b * 64) (ids_sorted _ ok)). lia.
    + intros Hm. rewrite Z.min_l in * by lia. lia.
Qed.

Lemma local_loop_spec fuel v lo hi :
  0 ≤ lo → lo ≤ hi → hi ≤ #ids → (Z.to_nat (hi - lo) ≤ fuel)%nat →
  (∃ i, local_loop fuel g v lo hi = Ret i ∧ lo ≤ i < hi ∧ id_at ids i = v) ∨
  (local_loop fuel g v lo hi = Nothing ∧ ∀ i, lo ≤ i < hi → id_at ids i ≠ v).
Proof using over ok.
  revert lo hi. induction fuel as [|fuel IH]; intros lo hi Hlo Hlh Hh Hf; cbn [local_loop].
  - replace (lo <? hi) with false by lia. right. split; [done|]. intros; lia.
  - destruct (lo <? hi) eqn:Hlt; [|right; split; [done|intros; lia]].
    set (mid := lo + (hi - lo) / 2).
    assert (lo ≤ mid < hi) as Hmid.
    { subst mid. pose proof (Z.div_pos (hi - lo) 2). pose proof (Z.div_lt (hi - lo) 2). lia. }
    rewrite (global_id_at g ids) by (done || lia). rewrite bind_ret.
    destruct (id_at ids mid =? v) eqn:Ev; [left; exists mid; repeat split; lia|].
    destruct (id_at ids mid <? v) eqn:Ev'.
    + destruct (IH (mid + 1) hi) as [(i & -> & Hi & Hv)|[-> Hnone]]; [lia..| |].
      * left. exists i. repeat split; lia.
      * right. split; [done|]. intros i Hi. destruct (decide (i ≤ mid)); [|apply Hnone; lia].
        pose proof (id_at_mono_le ids i mid (ids_sorted _ ok)). lia.
    + destruct (IH lo mid) as [(i & -> & Hi & Hv)|[-> Hnone]]; [lia..| |].
      * left. exists i. repeat split; lia.
      * right. split; [done|]. intros i Hi. destruct (decide (i < mid)); [apply Hnone; lia|].
        pose proof (id_at_mono_le ids mid i (ids_sorted _ ok)). lia.
Qed.

Lemma local_spec v :
  (∃ i, local g v = Ret i ∧ 0 ≤ i < #ids ∧ id_at ids i = v) ∨
  (local g v = Nothing ∧ ∀ i, 0 ≤ i < #ids → id_at ids i ≠ v).
Proof using over ok.
  unfold local. rewrite (go_n _ _ over). pose proof (len_nonneg ids).
  destruct (#ids =? 0) eqn:E0; [right; split; [done|intros; lia]|].
  case_bool_decide as Hh.
  - rewrite bind_ret. apply local_loop_spec; lia.
  - destruct (go_heads _ _ over) as [?|Hheads]; [done|].
    pose proof (ids_num _ ok) as Hn. pose proof (num_blocks_spec ids) as Hnb.
    assert (0 ≤ div_ceil #ids BLOCK) by (specialize (Hnb 0); unfold BLOCK in *; lia).
    destruct (block_of_spec g ids ok Hheads 0 v) as (lo & -> & Hlo & Hbelow & Habove); [lia|].
    set (b := saturating_sub lo 1).
    assert (0 ≤ b ∧ b * BLOCK < #ids ∧ lo - 1 ≤ b ∧ b ≤ lo ∧ (0 < lo → b = lo - 1)) as (Hb0 & Hbn & Hbl & Hbu & Hbe).
    { unfold b, saturating_sub. pose proof (Hnb (Z.max 0 (lo - 1))). pose proof (Hnb 0).
      unfold BLOCK in *. lia. }
    clearbody b. rewrite !bind_ret. unfold BLOCK in *.
    assert (as_u32 (b * 64) = b * 64 ∧ as_u32 ((b + 1) * 64) = (b + 1) * 64) as [-> ->].
    { unfold as_u32. rewrite !Z.mod_small by lia. lia. }
    destruct (local_loop_spec (Z.to_nat (Z.min ((b + 1) * 64) #ids - b * 64)) v
      (b * 64) (Z.min ((b + 1) * 64) #ids)) as [(i & -> & Hi & Hv)|[-> Hnone]]; [lia..| |].
    + left. exists i. repeat split; lia.
    + right. split; [done|]. intros i Hi. destruct (decide (b * 64 ≤ i < (b + 1) * 64)); [apply Hnone; lia|].
      destruct (decide (i < b * 64)) as [Hlt|Hge].
      * assert (id_at ids (b * 64) ≤ v) by (apply Hbelow; lia).
        pose proof (id_at_mono ids i (b * 64) (ids_sorted _ ok)). lia.
      * assert (v < id_at ids ((b + 1) * 64)).
        { apply Habove. pose proof (Hnb (b + 1)). unfold BLOCK in *. lia. }
        pose proof (id_at_mono_le ids ((b + 1) * 64) i (ids_sorted _ ok)). lia.
Qed.
End LowerBound.

(** ** Opening *)

Lemma len_range0 b : 0 ≤ b → #(range 0 b) = b.
Proof. intros. rewrite len_range by lia. lia. Qed.

Lemma open_encode ids mw post :
  ids_ok ids → (∀ m, mw = Some m → fits 16 m) →
  ∃ g, open (encode ids mw ++ post) = Ret g ∧ gmap_over g ids ∧
    gm_max_word g = (λ m, Z.min m (UNKNOWN_WORD - 1)) <$> mw.
Proof.
  intros Hok Hmw. pose proof (ids_num _ Hok) as Hn. unfold BLOCK in Hn.
  pose proof (len_nonneg ids). unfold encode. rewrite (fold_le_bytes 4 id), list_fmap_id.
  rewrite (fold_le_bytes 4 (λ b, default 0 (ids !! Z.to_nat (b * BLOCK)))).
  change ((λ b, default 0 (ids !! Z.to_nat (b * BLOCK))) <$> range 0 (div_ceil #ids BLOCK))
    with (heads_of ids).
  assert (0 ≤ div_ceil #ids BLOCK) as Hb.
  { unfold div_ceil, BLOCK. apply Z.div_pos; lia. }
  assert (#(heads_of ids) = div_ceil #ids BLOCK) as Hh.
  { unfold heads_of. by rewrite len_fmap, len_range0. }
  unfold as_u32. rewrite Z.mod_small by lia. rewrite <- !app_assoc. unfold open.
  match goal with |- context [len ?x <? 8] =>
    destruct (cursor_open x) as (data & Hd & Hat); rewrite <- Hd end.
  assert (#data = 12 + #ids * 4 + div_ceil #ids BLOCK * 4 + #post) as Hlen.
  { subst data. lens. rewrite Hh. change (#MAGIC2) with 4. lia. }
  pose proof (len_nonneg post). rewrite Hlen.
  replace (_ <? 8) with false by lia.
  assert (slice data 0 4 = Ret MAGIC2) as Hmag by (by apply (At_slice _ _ _ _ _ Hat)).
  apply At_skip in Hat. change (0 + #MAGIC2) with 4 in Hat.
  read_u32 Hat. rewrite Hmag, bind_ret.
  replace (bytes_eqb MAGIC2 MAGIC) with false by done.
  replace (bytes_eqb MAGIC2 MAGIC2) with true by done. simpl negb. rewrite orb_false_l.
  replace (_ <? 12) with false by lia.
  replace (_ <? 12 + #ids * 4 + _) with false by lia.
  set (w := match mw with Some _ => _ | None => _ end) in *.
  assert (fits 16 w) as Hw.
  { unfold w, UNKNOWN_WORD. destruct mw as [m|]; [specialize (Hmw m eq_refl)|]; widths; lia. }
  read_u16 Hat. apply At_skip in Hat. rewrite len_to_le_bytes in Hat. cursor_norm Hat.
  change (10 + Z.of_nat 2) with 12 in Hat. read_slice Hat. rewrite len_table in Hat.
  change (Z.of_nat 4) with 4 in Hat. rewrite (Z.mul_comm 4) in Hat. read_slice Hat. eexists. split; [done|]. split.
  - split; simpl; auto.
  - simpl. unfold w. destruct mw as [m|]; simpl; [|done].
    unfold UNKNOWN_WORD. by replace (_ =? _) with false by lia.
Qed.

(** ** Properties *)

(** [.gmap] round trip: opening what [encode] wrote gives a map whose
    [global] returns the id of every local ordinal, whose [local] is its exact
    inverse (the ordinal of every id the segment has, [None] for every other),
    and which remembers the longest word content, capped below the unknown
    marker. *)
Theorem gmap_roundtrip (ids post : list Z) (mw : option Z) :
  ids_ok ids → (∀ m, mw = Some m → fits 16 m) →
  ∃ g, open (encode ids mw ++ post) = Ret g ∧ gm_n g = #ids ∧
    gm_max_word g = (λ m, Z.min m (UNKNOWN_WORD - 1)) <$> mw ∧
    (∀ i v, 0 ≤ i → ids !! Z.to_nat i = Some v → global g i = Ret v ∧ local g v = Ret i) ∧
    (∀ v, v ∉ ids → local g v = Nothing).
Proof.
  intros Hok Hmw. destruct (open_encode ids mw post Hok Hmw) as (g & Hg & Hover & Hm).
  exists g. split; [done|]. split; [apply Hover|]. split; [done|].
  split.
  - intros i v Hi Hv. apply lookup_lt_Some in Hv as Hlt.
    assert (0 ≤ i < #ids) as Hir by (unfold len; lia).
    assert (id_at ids i = v) as Hid by (unfold id_at; by rewrite Hv).
    split; [by rewrite (global_id_at g ids), Hid|].
    destruct (local_spec g ids Hover Hok v) as [(j & -> & Hj & Hjv)|[_ Hnone]].
    + f_equal. apply id_at_lookup in Hj as Hjl. rewrite Hjv in Hjl.
      pose proof (increasing_inj ids _ _ _ (ids_sorted _ Hok) Hjl Hv). lia.
    + by specialize (Hnone i Hir).
  - intros v Hv. destruct (local_spec g ids Hover Hok v) as [(j & -> & Hj & Hjv)|[-> _]]; [|done].
    destruct Hv. apply id_at_lookup in Hj. rewrite Hjv in Hj. by eapply list_elem_of_lookup_2.
Qed.

Definition sample_ids : list Z := (λ i, 3 * i + 1) <$> range 0 70.

Lemma sample_ids_ok : ids_ok sample_ids.
Proof.
  split; [|  |by vm_compute].
  - apply Forall_fmap, Forall_forall. intros i Hi%elem_of_range. simpl. widths. lia.
  - intros i j a b Hij Ha Hb. unfold sample_ids in *. rewrite list_lookup_fmap in Ha, Hb.
    apply fmap_Some in Ha as (x & Hx & ->). apply fmap_Some in Hb as (y & Hy & ->).
    unfold range in *. apply lookup_seqZ in Hx, Hy. lia.
Qed.

Lemma gmap_roundtrip_witness :
  ∃ g, open (encode sample_ids (Some 40) ++ [1]) = Ret g ∧ gm_n g = #sample_ids ∧
    gm_max_word g = (λ m, Z.min m (UNKNOWN_WORD - 1)) <$> Some 40 ∧
    (∀ i v, 0 ≤ i → sample_ids !! Z.to_nat i = Some v → global g i = Ret v ∧ local g v = Ret i) ∧
    (∀ v, v ∉ sample_ids → local g v = Nothing).
Proof.
  apply (gmap_roundtrip sample_ids [1] (Some 40) sample_ids_ok).
  intros m [= <-]. by vm_compute.
Defined.

(** [lower_bound_from] is the lower bound, in both layouts: with the block
    heads or galloping without them, from any start, it returns the first
    local ordinal at or after [from] whose global id is at least the target
    ([len()] when there is none), so the two layouts always agree. *)
Theorem lower_bound_from_correct (g1 g2 : GmapReader) (ids : list Z) (from target : Z) :
  gmap_over g1 ids → gmap_over g2 ids → ids_ok ids → 0 ≤ from ≤ #ids →
  lower_bound_from g1 from target = lower_bound_from g2 from target ∧
  ∃ r, lower_bound_from g1 from target = Ret r ∧ is_lower_bound ids from target r.
Proof.
  intros H1 H2 Hok Hf.
  destruct (lower_bound_from_spec g1 ids H1 Hok from target) as (r1 & -> & Hr1 & _); [lia|].
  destruct (lower_bound_from_spec g2 ids H2 Hok from target) as (r2 & -> & Hr2 & _); [lia|].
  split; [f_equal; eapply lower_bound_unique; [apply Hr1|apply Hr2]; lia|].
  exists r1. split; [done|]. apply Hr1. lia.
Qed.

Definition sample_gmap (with_heads : bool) : GmapReader :=
  {| gm_data := flat_map (to_le_bytes 4) sample_ids; gm_n := #sample_ids;
     gm_heads := if with_heads then flat_map (to_le_bytes 4) (heads_of sample_ids) else [];
     gm_max_word := None |}.

Lemma lower_bound_from_correct_witness :
  lower_bound_from (sample_gmap true) 5 200 = lower_bound_from (sample_gmap false) 5 200 ∧
  ∃ r, lower_bound_from (sample_gmap true) 5 200 = Ret r ∧ is_lower_bound sample_ids 5 200 r.
Proof.
  apply (lower_bound_from_correct (sample_gmap true) (sample_gmap false) sample_ids 5 200);
    [by split; auto..|apply sample_ids_ok|by vm_compute].
Defined.
