(* ===== verification/PosMap.v ===== *)
(** * The position map ([src/suffix_fst/posmap.rs])

    [.posmap]: the ordinal at every position of every document, with one byte
    offset every 16 positions in layout [PMP4], from which the byte offset of
    any position is derived.  The three layouts ([PMAP], [PMP3], [PMP4]) are
    written by one function and read by one reader, which translates to
    global ids when it carries a [.gmap]. *)
From S2P Require Import Prelude Gmap.

Module posmap.

Definition EMPTY : Z := u32_max.
Definition MAX_ORDINAL_3 : Z := 0xFFFFFF.
Definition CHECKPOINT_EVERY : Z := 16.

(** The loop of [byte_checkpoints]: [out], [acc], over the slots numbered
    from [p]. *)
Fixpoint byte_checkpoints_loop (own_len : Z → option Z) (p acc : Z) (slots : list Z)
    : list Z :=
  match slots with
  | [] => []
  | ord :: slots =>
      let acc' := if ord =? EMPTY then 0 else add32 acc (default 0 (own_len ord)) in
      let rest := byte_checkpoints_loop own_len (p + 1) acc' slots in
      if p mod CHECKPOINT_EVERY =? 0 then acc :: rest else rest
  end.

Definition byte_checkpoints (slots : list Z) (own_len : Z → option Z) : list Z :=
  byte_checkpoints_loop own_len 0 0 slots.

(** [struct PosMapWriter]: per document, the ordinals in position order. *)
Definition PosMapWriter := list (list Z).

(** [PosMapWriter::add]; the collision counter is a profile probe. *)
Definition add (docs : PosMapWriter) (doc_id position ordinal : Z) : PosMapWriter :=
  let docs := if #docs <=? doc_id then resize (doc_id + 1) [] docs else docs in
  let doc := default [] (docs !! Z.to_nat doc_id) in
  let doc := if #doc <=? position then resize (position + 1) EMPTY doc else doc in
  set_at doc_id (set_at position ordinal doc) docs.

Definition add_empty_doc (docs : PosMapWriter) : PosMapWriter := docs ++ [[]].

Definition magic_PMAP : list Z := [0x50; 0x4D; 0x41; 0x50].
Definition magic_PMP3 : list Z := [0x50; 0x4D; 0x50; 0x33].
Definition magic_PMP4 : list Z := [0x50; 0x4D; 0x50; 0x34].

(** Every ordinal fits in three bytes. *)
Definition narrow (docs : PosMapWriter) : bool :=
  forallb (λ o, (o =? EMPTY) || (o <? MAX_ORDINAL_3)) (concat docs).

(** The bytes of one document in the data section. *)
Definition doc_bytes (width : Z) (own_len : option (Z → option Z)) (doc : list Z) : list Z :=
  let head := match own_len with
    | Some own_len =>
        to_le_bytes 4 (as_u32 #doc) ++ flat_map (to_le_bytes 4) (byte_checkpoints doc own_len)
    | None => []
    end in
  head ++ flat_map (λ ord, take (Z.to_nat width) (to_le_bytes 4 ord)) doc.

(** [serialize_with_lens]. *)
Definition serialize_with_lens (docs : PosMapWriter) (own_len : option (Z → option Z)) : list Z :=
  let num_docs := as_u32 #docs in
  let narrow := narrow docs in
  let width := if narrow then 3 else 4 in
  let checkpoints := narrow && bool_decide (is_Some own_len) in
  let doc_size n := n * width +
    (if checkpoints then 4 + 4 * div_ceil n CHECKPOINT_EVERY else 0) in
  let buf := if checkpoints then magic_PMP4 else if narrow then magic_PMP3 else magic_PMAP in
  let buf := buf ++ to_le_bytes 4 num_docs in
  (* offset table *)
  let '(buf, offset) := fold_left (λ st doc,
      let '(buf, offset) := st in
      (buf ++ to_le_bytes 8 offset, offset + doc_size #doc)) docs (buf, 0) in
  let buf := buf ++ to_le_bytes 8 offset in
  (* data: [own_len.filter(|_| checkpoints)] decides the document head *)
  fold_left (λ buf doc,
    buf ++ doc_bytes width (if checkpoints then own_len else None) doc) docs buf.

Definition serialize (docs : PosMapWriter) : list Z := serialize_with_lens docs None.

(** [struct PosMapReader]. *)
Record PosMapReader := {
  pm_num_docs : Z;
  pm_offsets : list Z;
  pm_data : list Z;
  pm_width : Z;
  pm_empty : Z;
  pm_checkpoints : bool;
  pm_gmap : option gmap.GmapReader;
}.

Definition open (bytes : list Z) : out PosMapReader :=
  if #bytes <? 8 then Nothing else
  m ← slice bytes 0 4;
  '(width, empty, checkpoints) ←
    (if bytes_eqb m magic_PMAP then Ret (4, EMPTY, false)
     else if bytes_eqb m magic_PMP3 then Ret (3, MAX_ORDINAL_3, false)
     else if bytes_eqb m magic_PMP4 then Ret (3, MAX_ORDINAL_3, true)
     else Nothing);
  num_docs ← u32_at bytes 4;
  let offsets_size := (num_docs + 1) * 8 in
  if #bytes <? 8 + offsets_size then Nothing else
  offsets ← slice bytes 8 (8 + offsets_size);
  data ← slice_from bytes (8 + offsets_size);
  Ret {| pm_num_docs := num_docs; pm_offsets := offsets; pm_data := data;
         pm_width := width; pm_empty := empty; pm_checkpoints := checkpoints;
         pm_gmap := None |}.

Definition has_byte_checkpoints (r : PosMapReader) : bool := pm_checkpoints r.

Definition with_gmap (r : PosMapReader) (g : gmap.GmapReader) : PosMapReader :=
  {| pm_num_docs := pm_num_docs r; pm_offsets := pm_offsets r; pm_data := pm_data r;
     pm_width := pm_width r; pm_empty := pm_empty r; pm_checkpoints := pm_checkpoints r;
     pm_gmap := Some g |}.

(** [out]: the local ordinal as the caller names it. *)
Definition out_ (r : PosMapReader) (local : Z) : out Z :=
  match pm_gmap r with Some g => gmap.global g local | None => Ret local end.

Definition read_offset (r : PosMapReader) (idx : Z) : out Z := u64_at (pm_offsets r) (idx * 8).

(** [doc_raw]: the document's whole region. *)
Definition doc_raw (r : PosMapReader) (doc_id : Z) : out (list Z) :=
  start ← read_offset r doc_id;
  let start := Z.min start #(pm_data r) in
  end_ ← read_offset r (doc_id + 1);
  let end_ := Z.min end_ #(pm_data r) in
  slice (pm_data r) start (Z.max end_ start).

(** [checkpoint_bytes]: the token count and the checkpoints at its head. *)
Definition checkpoint_bytes (raw : list Z) : out Z :=
  if #raw <? 4 then Ret #raw else
  n ← u32_at raw 0;
  Ret (4 + 4 * div_ceil n CHECKPOINT_EVERY).

(** [doc_data]: the slots. *)
Definition doc_data (r : PosMapReader) (doc_id : Z) : out (list Z) :=
  raw ← doc_raw r doc_id;
  if negb (pm_checkpoints r) then Ret raw else
  skip ← checkpoint_bytes raw;
  slice_from raw (Z.min skip #raw).

(** [slot]: the slot at byte offset [off], [None] on the empty marker. *)
Definition slot (r : PosMapReader) (doc_data : list Z) (off : Z) : out (option Z) :=
  b0 ← index doc_data off;
  b1 ← index doc_data (off + 1);
  b2 ← index doc_data (off + 2);
  b3 ← (if pm_width r =? 4 then index doc_data (off + 3) else Ret 0);
  let ord := from_le_bytes [b0; b1; b2; b3] in
  Ret (if ord =? pm_empty r then None else Some ord).

(** [byte_at]. *)
Definition byte_at (r : PosMapReader) (doc_id position : Z) (own_len : Z → option Z) : out Z :=
  if negb (pm_checkpoints r) || (pm_num_docs r <=? doc_id) then Nothing else
  raw ← doc_raw r doc_id;
  if #raw <? 4 then Nothing else
  n ← u32_at raw 0;
  if n <=? position then Nothing else
  let ck := position / CHECKPOINT_EVERY in
  let at_ := 4 + 4 * ck in
  acc ← u32_at raw at_;
  skip ← checkpoint_bytes raw;
  slots ← slice_from raw skip;
  acc ← foldM (λ acc p,
    s ← slot r slots (p * pm_width r);
    match s with
    | None => Ret 0
    | Some local => o ← out_ r local; l ← of_option (own_len o); Ret (add32 acc l)
    end) acc (range (ck * CHECKPOINT_EVERY) position);
  s ← slot r slots (position * pm_width r);
  match s with None => Nothing | Some _ => Ret acc end.

(** [ordinal_at]. *)
Definition ordinal_at (r : PosMapReader) (doc_id position : Z) : out Z :=
  if pm_num_docs r <=? doc_id then Nothing else
  doc_data ← doc_data r doc_id;
  let num_tokens := #doc_data / pm_width r in
  if num_tokens <=? position then Nothing else
  s ← slot r doc_data (position * pm_width r);
  match s with None => Nothing | Some o => out_ r o end.

(** [ordinals_range]: the [(position, ordinal)] pairs of [pos_from..pos_to]. *)
Definition ordinals_range (r : PosMapReader) (doc_id pos_from pos_to : Z) : out (list (Z * Z)) :=
  if pm_num_docs r <=? doc_id then Ret [] else
  doc_data ← doc_data r doc_id;
  let num_tokens := #doc_data / pm_width r in
  foldM (λ result pos,
    s ← slot r doc_data (pos * pm_width r);
    match s with
    | Some ord => o ← out_ r ord; Ret (result ++ [(pos, o)])
    | None => Ret result
    end) [] (range pos_from (Z.min pos_to (as_u32 num_tokens))).

(** [num_tokens]. *)
Definition num_tokens (r : PosMapReader) (doc_id : Z) : out Z :=
  if pm_num_docs r <=? doc_id then Ret 0 else
  doc_data ← doc_data r doc_id;
  Ret (as_u32 (#doc_data / pm_width r)).

(** [PosMapIndex]: the writer with the lengths its events gave. *)
Record PosMapIndex := { pi_writer : PosMapWriter; pi_own_lens : list Z }.

Definition on_own_len (ix : PosMapIndex) (ord own_len : Z) : PosMapIndex :=
  let lens := if #(pi_own_lens ix) <=? ord
              then resize (ord + 1) 0 (pi_own_lens ix) else pi_own_lens ix in
  {| pi_writer := pi_writer ix; pi_own_lens := set_at ord own_len lens |}.

Definition on_posting (ix : PosMapIndex) (ord doc_id position : Z) : PosMapIndex :=
  {| pi_writer := add (pi_writer ix) doc_id position ord; pi_own_lens := pi_own_lens ix |}.

Definition index_serialize (ix : PosMapIndex) : list Z :=
  if bool_decide (pi_own_lens ix = []) then serialize (pi_writer ix)
  else serialize_with_lens (pi_writer ix)
    (Some (λ ord, pi_own_lens ix !! Z.to_nat ord)).

End posmap.
Import posmap.

(** ** Specification *)

(** The byte offset of a position: the lengths of the tokens before it, from
    the last value boundary (an empty slot) on. *)
Definition byte_step (own_len : Z → option Z) (acc ord : Z) : Z :=
  if ord =? EMPTY then 0 else add32 acc (default 0 (own_len ord)).
Definition byte_offset (own_len : Z → option Z) (slots : list Z) (p : nat) : Z :=
  foldl (byte_step own_len) 0 (take p slots).

(** What fits the file: [u32] slots and counts, [u64] offsets. *)
Record docs_ok (docs : list (list Z)) : Prop := {
  dk_slots : Forall (Forall (fits 32)) docs;
  dk_docs : #docs < 2 ^ 32;
  dk_doc : Forall (λ doc, #doc < 2 ^ 32) docs;
  dk_size : 8 * #(concat docs) + 8 * #docs < 2 ^ 64;
}.

(** The ordinal a slot holds. *)
Definition slot_value (ord : Z) : option Z := if ord =? EMPTY then None else Some ord.

(** ** Checkpoints *)

Lemma div_ceil_succ p :
  div_ceil (p + 1) 16 = if p mod 16 =? 0 then div_ceil p 16 + 1 else div_ceil p 16.
Proof.
  unfold div_ceil. pose proof (Z.div_mod p 16). pose proof (Z.mod_pos_bound p 16).
  set (q := p / 16) in *. set (m := p mod 16) in *.
  replace (p + 1 + 16 - 1) with (m + (q + 1) * 16) by lia.
  replace (p + 16 - 1) with (m + 15 + q * 16) by lia.
  rewrite !Z.div_add by lia. rewrite (Z.div_small m) by lia.
  destruct (m =? 0) eqn:E.
  - replace (m + 15) with 15 by lia. rewrite Z.div_small by lia. lia.
  - replace (m + 15) with (m - 1 + 1 * 16) by lia. rewrite Z.div_add, Z.div_small by lia. lia.
Qed.

Lemma div_ceil_mult p : p mod 16 = 0 → 16 * div_ceil p 16 = p.
Proof.
  intros H. unfold div_ceil. pose proof (Z.div_mod p 16).
  replace (p + 16 - 1) with (15 + p / 16 * 16) by lia.
  rewrite Z.div_add, Z.div_small by lia. lia.
Qed.

Lemma div_ceil_bounds p : p ≤ 16 * div_ceil p 16 < p + 16.
Proof.
  unfold div_ceil. pose proof (Z.div_mod (p + 16 - 1) 16).
  pose proof (Z.mod_pos_bound (p + 16 - 1) 16). lia.
Qed.

Lemma len_checkpoints_loop own_len p acc slots :
  #(byte_checkpoints_loop own_len p acc slots) = div_ceil (p + #slots) 16 - div_ceil p 16.
Proof.
  revert p acc. induction slots as [|ord slots IH]; intros p acc.
  - simpl. rewrite !len_nil, Z.add_0_r. lia.
  - cbn [byte_checkpoints_loop]. unfold CHECKPOINT_EVERY.
    pose proof (div_ceil_succ p) as Hs. replace (p + #(ord :: slots)) with (p + 1 + #slots) by llia.
    destruct (p mod 16 =? 0); [rewrite len_cons|]; rewrite IH; lia.
Qed.

Lemma len_byte_checkpoints own_len slots :
  #(byte_checkpoints slots own_len) = div_ceil #slots 16.
Proof.
  unfold byte_checkpoints. rewrite len_checkpoints_loop.
  change (div_ceil 0 16) with 0. rewrite Z.add_0_l. lia.
Qed.

Lemma checkpoints_loop_lookup own_len p acc slots (k : nat) :
  16 * (div_ceil p 16 + Z.of_nat k) < p + #slots →
  byte_checkpoints_loop own_len p acc slots !! k =
    Some (foldl (byte_step own_len) acc
      (take (Z.to_nat (16 * (div_ceil p 16 + Z.of_nat k) - p)) slots)).
Proof.
  revert p acc k. induction slots as [|ord slots IH]; intros p acc k Hk.
  - pose proof (div_ceil_bounds p). rewrite len_nil in Hk. lia.
  - cbn [byte_checkpoints_loop]. unfold CHECKPOINT_EVERY.
    pose proof (div_ceil_bounds p). pose proof (div_ceil_succ p) as Hs.
    fold (byte_step own_len acc ord). rewrite len_cons in Hk.
    destruct (p mod 16 =? 0) eqn:E.
    + pose proof (div_ceil_mult p ltac:(lia)) as Hm. destruct k as [|k].
      * replace (Z.to_nat _) with 0%nat by lia. done.
      * simpl. rewrite IH by lia. rewrite Hs.
        replace (Z.to_nat (16 * (div_ceil p 16 + Z.of_nat (S k)) - p))
          with (S (Z.to_nat (16 * (div_ceil p 16 + 1 + Z.of_nat k) - (p + 1)))) by lia.
        done.
    + assert (p < 16 * div_ceil p 16).
      { destruct (decide (p = 16 * div_ceil p 16)) as [Heq|]; [|lia].
        rewrite Heq in E. rewrite Z.mul_comm, Z.mod_mul in E by lia. done. }
      rewrite IH by lia. rewrite Hs.
      replace (Z.to_nat (16 * (div_ceil p 16 + Z.of_nat k) - p))
        with (S (Z.to_nat (16 * (div_ceil p 16 + Z.of_nat k) - (p + 1)))) by lia.
      done.
Qed.

Lemma byte_checkpoints_lookup own_len slots (k : nat) :
  16 * Z.of_nat k < #slots →
  byte_checkpoints slots own_len !! k = Some (byte_offset own_len slots (16 * k)).
Proof.
  intros Hk. unfold byte_checkpoints. rewrite checkpoints_loop_lookup;
    change (div_ceil 0 16) with 0.
  - unfold byte_offset. do 3 f_equal. lia.
  - lia.
Qed.

Lemma byte_offset_ext ol ol' slots p :
  (∀ o, o ∈ slots → o ≠ EMPTY → ol o = ol' o) →
  byte_offset ol slots p = byte_offset ol' slots p.
Proof.
  intros H. unfold byte_offset.
  assert (∀ o, o ∈ take p slots → o ≠ EMPTY → ol o = ol' o) as Ht.
  { intros o Ho. apply H. rewrite <- (take_drop p slots). set_solver. }
  clear H. induction (take p slots) as [|o l IH] using rev_ind; [done|].
  rewrite !foldl_app. simpl. rewrite IH by set_solver. unfold byte_step.
  destruct (o =? EMPTY) eqn:E; [done|]. rewrite Ht; [done|set_solver|]. lia.
Qed.

Lemma byte_step_fits own_len acc ord : fits 32 (byte_step own_len acc ord).
Proof.
  unfold byte_step. destruct (_ =? _); [by vm_compute|]. apply Z.mod_pos_bound. lia.
Qed.

Lemma byte_offset_fits own_len slots p : fits 32 (byte_offset own_len slots p).
Proof.
  unfold byte_offset. induction (take p slots) as [|x l IH] using rev_ind; [by vm_compute|].
  rewrite foldl_app. apply byte_step_fits.
Qed.

(** ** Layout *)

Section Layout.
Context (docs : list (list Z)) (own_len : option (Z → option Z)).
Hypothesis ok : docs_ok docs.

(** The choices [serialize_with_lens] makes. *)
Definition slot_bytes : Z := if narrow docs then 3 else 4.
Definition with_checkpoints : bool := narrow docs && bool_decide (is_Some own_len).
Definition doc_lens : option (Z → option Z) := if with_checkpoints then own_len else None.
Definition doc_regions : list (list Z) := map (doc_bytes slot_bytes doc_lens) docs.
Definition doc_head (doc : list Z) : list Z :=
  match doc_lens with
  | Some ol => to_le_bytes 4 (as_u32 #doc) ++ flat_map (to_le_bytes 4) (byte_checkpoints doc ol)
  | None => []
  end.
Definition doc_slots (doc : list Z) : list Z := flat_map (to_le_bytes (Z.to_nat slot_bytes)) doc.

(** The reader the written file opens to. *)
Definition reader_of (gm : option gmap.GmapReader) : PosMapReader :=
  {| pm_num_docs := #docs;
     pm_offsets := flat_map (to_le_bytes 8) (prefix_sums 0 doc_regions);
     pm_data := concat doc_regions;
     pm_width := slot_bytes;
     pm_empty := if narrow docs then MAX_ORDINAL_3 else EMPTY;
     pm_checkpoints := with_checkpoints;
     pm_gmap := gm |}.

Lemma slot_bytes_range : 3 ≤ slot_bytes ≤ 4.
Proof using. unfold slot_bytes. destruct (narrow docs); lia. Qed.

Lemma doc_bytes_split doc : doc_bytes slot_bytes doc_lens doc = doc_head doc ++ doc_slots doc.
Proof using.
  unfold doc_bytes, doc_head, doc_slots. f_equal. apply flat_map_ext. intros o.
  apply take_to_le_bytes. pose proof slot_bytes_range. lia.
Qed.

Lemma len_doc_slots doc : #(doc_slots doc) = slot_bytes * #doc.
Proof using. unfold doc_slots. rewrite len_table. pose proof slot_bytes_range. lia. Qed.

Lemma doc_lens_checkpoints : with_checkpoints = true ↔ is_Some doc_lens.
Proof using.
  unfold doc_lens, with_checkpoints. destruct (narrow docs); simpl; [|split; [done|by intros []]].
  case_bool_decide; split; try done; by intros [].
Qed.

Lemma len_doc_head doc :
  #(doc_head doc) = if with_checkpoints then 4 + 4 * div_ceil #doc CHECKPOINT_EVERY else 0.
Proof using.
  unfold doc_head. pose proof doc_lens_checkpoints as H.
  destruct doc_lens as [ol|], with_checkpoints; try (destruct H as [H1 H2]; destruct (H1 eq_refl); done);
    try (destruct H as [_ H2]; specialize (H2 (mk_is_Some _ _ eq_refl)); done).
  - rewrite len_app, len_to_le_bytes, len_table, len_byte_checkpoints. done.
  - done.
Qed.

Lemma len_doc_bytes doc :
  #doc * slot_bytes + (if with_checkpoints then 4 + 4 * div_ceil #doc CHECKPOINT_EVERY else 0) =
    #(doc_bytes slot_bytes doc_lens doc).
Proof using. rewrite doc_bytes_split, len_app, len_doc_slots, len_doc_head. lia. Qed.

Lemma len_regions_bound ds :
  #(concat (map (doc_bytes slot_bytes doc_lens) ds)) ≤ 8 * #(concat ds) + 8 * #ds.
Proof using.
  induction ds as [|doc ds IH]; simpl; [by vm_compute|].
  rewrite !len_app, len_cons, <- len_doc_bytes. pose proof slot_bytes_range.
  pose proof (div_ceil_bounds #doc). pose proof (len_nonneg doc). unfold CHECKPOINT_EVERY.
  destruct with_checkpoints; nia.
Qed.

Lemma serialize_layout :
  serialize_with_lens docs own_len =
    (if with_checkpoints then magic_PMP4 else if narrow docs then magic_PMP3 else magic_PMAP) ++
    to_le_bytes 4 #docs ++ flat_map (to_le_bytes 8) (prefix_sums 0 doc_regions) ++
    concat doc_regions.
Proof using ok.
  unfold serialize_with_lens. fold with_checkpoints. fold slot_bytes. fold doc_lens.
  pose proof (len_nonneg docs). pose proof (dk_docs _ ok).
  unfold as_u32 at 1. rewrite (Z.mod_small #docs) by lia.
  set (buf0 := _ ++ to_le_bytes 4 #docs).
  pose proof (fold_offsets 8 _ _ docs buf0 0 (λ doc _, len_doc_bytes doc)) as Hoff.
  cbv beta in Hoff. destruct (fold_left _ docs (buf0, 0)) as [buf off]. simpl in Hoff.
  rewrite Hoff, (fold_regions (doc_bytes slot_bytes doc_lens)).
  unfold buf0. by rewrite <- !app_assoc.
Qed.

Lemma open_serialize : open (serialize_with_lens docs own_len) = Ret (reader_of None).
Proof using ok.
  rewrite serialize_layout. unfold open. pose proof (dk_docs _ ok). pose proof (len_nonneg docs).
  set (magic := if with_checkpoints then _ else _).
  assert (#magic = 4) as Hm by (unfold magic; destruct with_checkpoints, (narrow docs); done).
  match goal with |- context [len ?x <? 8] =>
    destruct (cursor_open x) as (data & Hd & Hat); rewrite <- Hd end.
  assert (#data = 8 + (#docs + 1) * 8 + #(concat doc_regions)) as Hlen.
  { subst data. rewrite !len_app, len_table, len_prefix_sums, len_to_le_bytes.
    unfold doc_regions at 1. rewrite len_map. lia. }
  pose proof (len_nonneg (concat doc_regions)). rewrite Hlen.
  replace (_ <? 8) with false by lia. read_slice Hat.
  rewrite Hm in Hat. change (0 + 4) with 4 in Hat.
  match goal with |- (_ ← ?m; _) = _ =>
    assert (m = Ret (slot_bytes, if narrow docs then MAX_ORDINAL_3 else EMPTY, with_checkpoints))
      as -> end.
  { unfold magic, slot_bytes, with_checkpoints. destruct (narrow docs); simpl; [|done].
    by case_bool_decide. }
  rewrite bind_ret. cbv beta iota. read_u32 Hat.
  replace (_ <? 8 + _) with false by lia.
  assert (#(flat_map (to_le_bytes 8) (prefix_sums 0 doc_regions)) = (#docs + 1) * 8) as Ho.
  { rewrite len_table, len_prefix_sums. unfold doc_regions. rewrite len_map. lia. }
  rewrite (At_slice _ _ _ _ _ Hat) by lia. rewrite bind_ret. apply At_skip in Hat.
  rewrite Ho in Hat. by rewrite (At_slice_from _ _ _ Hat).
Qed.

Lemma doc_raw_reader gm d doc :
  docs !! d = Some doc →
  doc_raw (reader_of gm) (Z.of_nat d) = Ret (doc_head doc ++ doc_slots doc).
Proof using ok.
  intros Hd. assert (doc_regions !! d = Some (doc_head doc ++ doc_slots doc)) as Hr.
  { rewrite <- doc_bytes_split. by apply lookup_map. }
  assert (∀ k : nat, (k ≤ length doc_regions)%nat →
    read_offset (reader_of gm) (Z.of_nat k) = Ret #(concat (take k doc_regions))) as Hoff.
  { intros k Hk. unfold read_offset, u64_at. rewrite Z.mul_comm. simpl pm_offsets.
    rewrite <- (app_nil_r (flat_map _ _)). apply (le_at_table 8); [by rewrite prefix_sums_lookup|].
    pose proof (len_nonneg (concat (take k doc_regions))).
    pose proof (len_concat_take_le doc_regions k). pose proof (len_regions_bound docs).
    fold doc_regions in *. pose proof (dk_size _ ok). unfold fits. lia. }
  apply lookup_lt_Some in Hr as Hlt. unfold doc_raw.
  rewrite Hoff by lia. rewrite bind_ret.
  replace (Z.of_nat d + 1) with (Z.of_nat (S d)) by lia. rewrite Hoff by lia. rewrite bind_ret.
  simpl pm_data. pose proof (len_concat_take_le doc_regions d).
  pose proof (len_concat_take_le doc_regions (S d)).
  pose proof (len_concat_take_mono doc_regions d (S d) ltac:(lia)).
  rewrite !Z.min_l by lia. rewrite Z.max_l by lia.
  rewrite <- (app_nil_r (concat doc_regions)). by eapply slice_region.
Qed.

Lemma head_count doc :
  with_checkpoints = true → doc ∈ docs →
  ∃ ol, own_len = Some ol ∧
    doc_head doc = to_le_bytes 4 #doc ++ flat_map (to_le_bytes 4) (byte_checkpoints doc ol).
Proof using ok.
  intros Hc Hin. unfold doc_head, doc_lens. rewrite Hc. unfold with_checkpoints in Hc.
  destruct own_len as [ol|]; [|rewrite andb_false_r in Hc; done].
  exists ol. split; [done|]. do 2 f_equal. apply Z.mod_small.
  pose proof (len_nonneg doc). pose proof (dk_doc _ ok) as Hdoc.
  rewrite Forall_forall in Hdoc. specialize (Hdoc doc Hin). lia.
Qed.

Lemma checkpoint_bytes_reader doc :
  with_checkpoints = true → doc ∈ docs →
  u32_at (doc_head doc ++ doc_slots doc) 0 = Ret #doc ∧
  checkpoint_bytes (doc_head doc ++ doc_slots doc) = Ret #(doc_head doc).
Proof using ok.
  intros Hc Hin. pose proof (len_doc_head doc) as Hl. rewrite Hc in Hl.
  destruct (head_count doc Hc Hin) as (ol & _ & Hh).
  pose proof (dk_doc _ ok) as Hdoc. rewrite Forall_forall in Hdoc. specialize (Hdoc doc Hin).
  pose proof (len_nonneg doc).
  assert (u32_at (doc_head doc ++ doc_slots doc) 0 = Ret #doc) as Hu.
  { rewrite Hh, <- app_assoc. apply (le_at_mid 4 []); [done|]. unfold fits. simpl. lia. }
  split; [done|]. unfold checkpoint_bytes. rewrite Hu, len_app, Hl.
  pose proof (div_ceil_bounds #doc). pose proof (len_nonneg (doc_slots doc)). unfold CHECKPOINT_EVERY in *.
  replace (_ <? 4) with false by lia. done.
Qed.

Lemma doc_data_reader gm d doc :
  docs !! d = Some doc → doc_data (reader_of gm) (Z.of_nat d) = Ret (doc_slots doc).
Proof using ok.
  intros Hd. unfold doc_data. rewrite (doc_raw_reader gm d doc Hd), bind_ret. simpl pm_checkpoints.
  destruct with_checkpoints eqn:Hc; simpl negb; cbv iota.
  - destruct (checkpoint_bytes_reader doc Hc) as [_ ->]; [by eapply list_elem_of_lookup_2|].
    rewrite bind_ret. apply slice_from_app. pose proof (len_nonneg (doc_slots doc)). llia.
  - pose proof (len_doc_head doc) as Hl. rewrite Hc in Hl.
    by destruct (doc_head doc); [|pose proof (len_nonneg l); rewrite len_cons in Hl; lia].
Qed.

Lemma slot_reader gm d doc (p : nat) o :
  docs !! d = Some doc → doc !! p = Some o →
  slot (reader_of gm) (doc_slots doc) (Z.of_nat p * slot_bytes) = Ret (slot_value o).
Proof using ok.
  intros Hd Hp.
  assert (fits 32 o) as Ho.
  { pose proof (dk_slots _ ok) as Hs. rewrite Forall_lookup in Hs. specialize (Hs _ _ Hd).
    rewrite Forall_lookup in Hs. by eapply Hs. }
  assert (narrow docs = true → o = EMPTY ∨ o < MAX_ORDINAL_3) as Hn.
  { unfold narrow. rewrite forallb_forall. intros Hall. specialize (Hall o).
    assert (In o (concat docs)) as Hin; [|apply Hall in Hin; lia].
    apply in_concat. exists doc. split; apply list_elem_of_In; by eapply list_elem_of_lookup_2. }
  pose proof slot_bytes_range as Hw.
  assert (slice (doc_slots doc) (Z.of_nat p * slot_bytes) (Z.of_nat p * slot_bytes + slot_bytes) =
    Ret (to_le_bytes (Z.to_nat slot_bytes) o)) as Hsl.
  { unfold doc_slots. rewrite Z.mul_comm, <- (app_nil_r (flat_map _ _)).
    apply slice_record; [|done|lia]. intros a. rewrite len_to_le_bytes. lia. }
  unfold slot. rewrite <- (Z.add_0_r (Z.of_nat p * slot_bytes)) at 1.
  rewrite (index_slice _ _ _ _ 0 Hsl), (index_slice _ _ _ _ 1 Hsl), (index_slice _ _ _ _ 2 Hsl) by lia.
  simpl pm_width. simpl pm_empty.
  unfold slot_bytes in *. destruct (narrow docs).
  - change (Z.to_nat 3) with 3%nat. change (3 =? 4) with false. cbv iota.
    pose proof (from_to_le_bytes_mod 3 o) as Hf. pose proof (length_to_le_bytes 3 o) as Hl.
    destruct (to_le_bytes 3 o) as [|b0 [|b1 [|b2 [|]]]]; try discriminate Hl.
    change (index [b0; b1; b2] 0) with (Ret b0). change (index [b0; b1; b2] 1) with (Ret b1).
    change (index [b0; b1; b2] 2) with (Ret b2). rewrite !bind_ret.
    pose proof (from_le_bytes_zeros [b0; b1; b2] 1) as Hz. cbn -[from_le_bytes] in Hz.
    rewrite Hz, Hf. f_equal. unfold slot_value.
    destruct (Hn eq_refl) as [-> |Hlt]; [done|]. unfold MAX_ORDINAL_3, EMPTY in *.
    change (8 * Z.of_nat 3) with 24. widths. rewrite Z.mod_small by lia.
    replace (o =? 16777215) with false by lia. by replace (o =? _) with false by lia.
  - change (Z.to_nat 4) with 4%nat. rewrite Z.eqb_refl, (index_slice _ _ _ _ _ Hsl) by lia.
    pose proof (from_to_le_bytes 4 o Ho) as Hf. pose proof (length_to_le_bytes 4 o) as Hl.
    change (Z.to_nat 4) with 4%nat.
    destruct (to_le_bytes 4 o) as [|b0 [|b1 [|b2 [|b3 [|]]]]]; try discriminate Hl.
    change (index [b0; b1; b2; b3] 0) with (Ret b0). change (index [b0; b1; b2; b3] 1) with (Ret b1).
    change (index [b0; b1; b2; b3] 2) with (Ret b2). change (index [b0; b1; b2; b3] 3) with (Ret b3).
    rewrite !bind_ret, Hf. done.
Qed.

Lemma num_tokens_reader doc : #(doc_slots doc) / slot_bytes = #doc.
Proof using.
  rewrite len_doc_slots. pose proof slot_bytes_range. rewrite Z.mul_comm. apply Z.div_mul. lia.
Qed.

End Layout.

(** ** Reading *)

(** The name a reader gives a local ordinal. *)
Definition named (gm : option gmap.GmapReader) (local : Z) : out Z :=
  match gm with Some g => gmap.global g local | None => Ret local end.

(** The ordinal at a position of the documents, empty slots being none. *)
Definition ordinal_in (docs : list (list Z)) (d p : nat) : option Z :=
  doc ← docs !! d; o ← doc !! p; slot_value o.

Lemma byte_offset_S ol slots p o :
  slots !! p = Some o → byte_offset ol slots (S p) = byte_step ol (byte_offset ol slots p) o.
Proof. intros Hp. unfold byte_offset. by rewrite (take_S_r _ _ _ Hp), foldl_app. Qed.

Section Reading.
Context (docs : list (list Z)) (own_len : option (Z → option Z)) (gm : option gmap.GmapReader).
Hypothesis ok : docs_ok docs.
Context (name : Z → Z).
Hypothesis names : ∀ d p o, ordinal_in docs d p = Some o → named gm o = Ret (name o).
Let r := reader_of docs own_len gm.

Lemma ordinal_at_reader (d p : nat) :
  ordinal_at r (Z.of_nat d) (Z.of_nat p) = of_option (name <$> ordinal_in docs d p).
Proof using ok names.
  unfold ordinal_at. simpl pm_num_docs. specialize (names d p).
  unfold ordinal_in in *. destruct (docs !! d) as [doc|] eqn:Hd.
  2: { apply lookup_ge_None in Hd. replace (_ <=? _) with true by (unfold len; lia). done. }
  apply lookup_lt_Some in Hd as Hlt. replace (_ <=? Z.of_nat d) with false by (unfold len; lia).
  unfold r. rewrite (doc_data_reader _ _ ok _ _ _ Hd), bind_ret. simpl pm_width.
  rewrite num_tokens_reader. simpl in *. destruct (doc !! p) as [o|] eqn:Hp.
  2: { apply lookup_ge_None in Hp. replace (_ <=? _) with true by (unfold len; lia). done. }
  apply lookup_lt_Some in Hp as Hlt'. replace (_ <=? Z.of_nat p) with false by (unfold len; lia).
  rewrite (slot_reader _ _ ok gm _ _ _ _ Hd Hp), bind_ret. simpl in names |- *.
  destruct (slot_value o) as [o'|]; [|done]. simpl. by apply names.
Qed.

Lemma num_tokens_at (d : nat) :
  num_tokens r (Z.of_nat d) = Ret (default 0 (len <$> docs !! d)).
Proof using ok.
  unfold num_tokens. simpl pm_num_docs. destruct (docs !! d) as [doc|] eqn:Hd.
  2: { apply lookup_ge_None in Hd. replace (_ <=? _) with true by (unfold len; lia). done. }
  apply lookup_lt_Some in Hd as Hlt. replace (_ <=? Z.of_nat d) with false by (unfold len; lia).
  unfold r. rewrite (doc_data_reader _ _ ok _ _ _ Hd), bind_ret. simpl pm_width.
  rewrite num_tokens_reader. simpl. unfold as_u32. rewrite Z.mod_small; [done|].
  pose proof (len_nonneg doc). pose proof (dk_doc _ ok) as Hdoc.
  rewrite Forall_lookup in Hdoc. specialize (Hdoc _ _ Hd). simpl in Hdoc. lia.
Qed.

(** The pairs of a range of positions. *)
Definition pairs_in (d : nat) (a b : Z) : list (Z * Z) :=
  omap (λ p, o ← ordinal_in docs d (Z.to_nat p); Some (p, name o)) (range a b).

Lemma range_loop d doc res a b :
  docs !! d = Some doc → 0 ≤ a → b ≤ #doc →
  foldM (λ result pos,
    s ← slot r (doc_slots docs doc) (pos * slot_bytes docs);
    match s with
    | Some ord => o ← out_ r ord; Ret (result ++ [(pos, o)])
    | None => Ret result
    end) res (range a b) = Ret (res ++ pairs_in d a b).
Proof using ok names.
  intros Hd Ha Hb. unfold pairs_in. remember (Z.to_nat (b - a)) as n eqn:Hn.
  revert a res Ha Hn. induction n as [|n IH]; intros a res Ha Hn.
  { rewrite range_nil by lia. simpl. by rewrite app_nil_r. }
  rewrite range_cons by lia. cbn [foldM omap list_omap].
  destruct (lookup_lt_is_Some_2 doc (Z.to_nat a)) as [o Ho]; [unfold len in *; lia|].
  replace (a * slot_bytes docs) with (Z.of_nat (Z.to_nat a) * slot_bytes docs)
    by (by rewrite Z2Nat.id by lia).
  unfold r. rewrite (slot_reader _ _ ok gm _ _ _ _ Hd Ho), bind_ret.
  specialize (names d (Z.to_nat a)). unfold ordinal_in in *. rewrite Hd in *. simpl in *. rewrite Ho in *.
  simpl in *. destruct (slot_value o) as [o'|].
  - change (out_ _ o') with (named gm o'). rewrite (names o' eq_refl), !bind_ret. simpl.
    rewrite IH by lia. by rewrite <- app_assoc.
  - rewrite bind_ret. apply IH; lia.
Qed.

Lemma ordinals_range_at (d : nat) a b :
  0 ≤ a → ordinals_range r (Z.of_nat d) a b =
    Ret (pairs_in d a (Z.min b (default 0 (len <$> docs !! d)))).
Proof using ok names.
  intros Ha. unfold ordinals_range. simpl pm_num_docs. destruct (docs !! d) as [doc|] eqn:Hd; simpl.
  2: { apply lookup_ge_None in Hd. replace (_ <=? _) with true by (unfold len; lia).
       unfold pairs_in. rewrite range_nil by lia. done. }
  apply lookup_lt_Some in Hd as Hlt. replace (_ <=? Z.of_nat d) with false by (unfold len; lia).
  unfold r. rewrite (doc_data_reader _ _ ok _ _ _ Hd), bind_ret. simpl pm_width.
  rewrite num_tokens_reader. unfold as_u32. pose proof (dk_doc _ ok) as Hdoc.
  rewrite Forall_lookup in Hdoc. specialize (Hdoc _ _ Hd). simpl in Hdoc.
  pose proof (len_nonneg doc). rewrite Z.mod_small by lia.
  by rewrite (range_loop d doc [] a) by (done || lia).
Qed.
End Reading.

Section ByteAt.
Context (docs : list (list Z)) (gm : option gmap.GmapReader) (ol own_len : Z → option Z).
Hypothesis ok : docs_ok docs.
Hypothesis Hnarrow : narrow docs = true.
Context (name : Z → Z).
Hypothesis names : ∀ d p o, ordinal_in docs d p = Some o →
  named gm o = Ret (name o) ∧ own_len (name o) = ol o ∧ is_Some (ol o).
Let r := reader_of docs (Some ol) gm.

(** The walk from a checkpoint adds the lengths one position at a time. *)
Lemma walk_bytes d doc (a b : Z) :
  docs !! d = Some doc → 0 ≤ a ≤ b → b ≤ #doc →
  foldM (λ acc p,
    s ← slot r (doc_slots docs doc) (p * pm_width r);
    match s with
    | None => Ret 0
    | Some local => o ← out_ r local; l ← of_option (own_len o); Ret (add32 acc l)
    end) (byte_offset ol doc (Z.to_nat a)) (range a b) = Ret (byte_offset ol doc (Z.to_nat b)).
Proof using ok names.
  intros Hd. remember (Z.to_nat (b - a)) as n eqn:Hn.
  revert a Hn. induction n as [|n IH]; intros a Hn Ha Hb.
  { rewrite range_nil by lia. by replace b with a by lia. }
  rewrite range_cons by lia. cbn [foldM].
  destruct (lookup_lt_is_Some_2 doc (Z.to_nat a)) as [o Ho]; [unfold len in *; lia|].
  rewrite <- (IH (a + 1)) by lia. replace (Z.to_nat (a + 1)) with (S (Z.to_nat a)) by lia.
  rewrite (byte_offset_S _ _ _ _ Ho). simpl pm_width.
  replace (a * slot_bytes docs) with (Z.of_nat (Z.to_nat a) * slot_bytes docs)
    by (by rewrite Z2Nat.id by lia).
  unfold r. rewrite (slot_reader _ _ ok gm _ _ _ _ Hd Ho), bind_ret.
  specialize (names d (Z.to_nat a)). unfold ordinal_in in names. rewrite Hd in names. simpl in names.
  rewrite Ho in names. unfold byte_step, slot_value in *. simpl in names.
  destruct (o =? EMPTY); [done|]. destruct (names o eq_refl) as (Hn' & He & [l Hl]).
  change (out_ _ o) with (named gm o). rewrite Hn', bind_ret, He, Hl. done.
Qed.

Lemma byte_at_reader (d p : nat) doc o :
  docs !! d = Some doc → doc !! p = Some o →
  byte_at r (Z.of_nat d) (Z.of_nat p) own_len =
    if o =? EMPTY then Nothing else Ret (byte_offset ol doc p).
Proof using ok names Hnarrow.
  intros Hd Hp. unfold byte_at. simpl pm_checkpoints. simpl pm_num_docs.
  assert (with_checkpoints docs (Some ol) = true) as Hc.
  { unfold with_checkpoints. rewrite Hnarrow. by apply bool_decide_eq_true. }
  assert (doc ∈ docs) as Hin by (by eapply list_elem_of_lookup_2).
  rewrite Hc. apply lookup_lt_Some in Hd as Hlt. apply lookup_lt_Some in Hp as Hlt'.
  replace (_ || _) with false by (unfold len; lia).
  unfold r. rewrite (doc_raw_reader _ _ ok gm _ _ Hd), bind_ret.
  destruct (checkpoint_bytes_reader docs (Some ol) ok doc Hc Hin) as [Hn Hck].
  pose proof (len_doc_head docs (Some ol) doc) as Hl. rewrite Hc in Hl. pose proof (div_ceil_bounds #doc) as Hdc.
  pose proof (len_nonneg (doc_slots docs doc)). pose proof (len_nonneg doc). unfold CHECKPOINT_EVERY in *.
  rewrite len_app. replace (_ <? 4) with false by lia.
  rewrite Hn, bind_ret. replace (#doc <=? _) with false by (unfold len; lia).
  pose proof (Z.div_mod (Z.of_nat p) 16). pose proof (Z.mod_pos_bound (Z.of_nat p) 16).
  pose proof (Z.div_pos (Z.of_nat p) 16). set (ck := Z.of_nat p / 16) in *.
  assert (u32_at (doc_head docs (Some ol) doc ++ doc_slots docs doc) (4 + 4 * ck) =
    Ret (byte_offset ol doc (Z.to_nat (ck * 16)))) as ->.
  { destruct (head_count docs (Some ol) ok doc Hc Hin) as (ol' & [= <-] & ->).
    rewrite <- !app_assoc. unfold u32_at. rewrite le_at_app_r by llia.
    rewrite len_to_le_bytes. replace (4 + 4 * ck - Z.of_nat 4) with (4 * Z.of_nat (Z.to_nat ck)) by lia.
    apply (le_at_table 4); [|apply byte_offset_fits].
    rewrite byte_checkpoints_lookup by (unfold len; lia). do 2 f_equal. lia. }
  rewrite bind_ret, Hck, bind_ret, slice_from_app, bind_ret by done.
  pose proof (walk_bytes d doc (ck * 16) (Z.of_nat p) Hd ltac:(lia) ltac:(unfold len; lia)) as Hw.
  unfold r in Hw. rewrite Hw, Nat2Z.id, bind_ret. simpl pm_width.
  rewrite (slot_reader _ _ ok gm _ _ _ _ Hd Hp), bind_ret. unfold slot_value.
  by destruct (o =? EMPTY).
Qed.
End ByteAt.

Lemma ordinal_in_bound docs d p o :
  docs_ok docs → ordinal_in docs d p = Some o → fits 32 o.
Proof.
  intros Hok. unfold ordinal_in. destruct (docs !! d) as [doc|] eqn:Hd; [|done]. simpl.
  destruct (doc !! p) as [v|] eqn:Hp; [|done]. simpl.
  pose proof (dk_slots _ Hok) as Hs. rewrite Forall_lookup in Hs. specialize (Hs _ _ Hd).
  rewrite Forall_lookup in Hs. specialize (Hs _ _ Hp).
  unfold slot_value. destruct (v =? EMPTY); [done|]. intros. by simplify_eq.
Qed.

(** ** Writing *)

Lemma grow_docs n docs d p :
  #docs ≤ n → ordinal_in (resize n [] docs) d p = ordinal_in docs d p.
Proof.
  intros Hn. unfold ordinal_in. rewrite resize_grow by done.
  destruct (decide (d < length docs)%nat).
  - by rewrite lookup_app_l.
  - rewrite lookup_app_r, (lookup_ge_None_2 docs) by lia. simpl.
    destruct (replicate _ _ !! _) as [doc|] eqn:E; [|done].
    by apply lookup_replicate in E as [-> _].
Qed.

Lemma grow_doc n (doc : list Z) p :
  #doc ≤ n → (resize n EMPTY doc !! p ≫= slot_value) = (doc !! p ≫= slot_value).
Proof.
  intros Hn. rewrite resize_grow by done. destruct (decide (p < length doc)%nat).
  - by rewrite lookup_app_l.
  - rewrite lookup_app_r, (lookup_ge_None_2 doc) by lia. simpl.
    destruct (replicate _ _ !! _) as [o|] eqn:E; [|done].
    by apply lookup_replicate in E as [-> _].
Qed.

(** One [add] is one assignment of the abstract map. *)
Lemma ordinal_in_add docs (d p : Z) o (d' p' : nat) :
  0 ≤ d → 0 ≤ p →
  ordinal_in (add docs d p o) d' p' =
    if decide (d' = Z.to_nat d ∧ p' = Z.to_nat p) then slot_value o else ordinal_in docs d' p'.
Proof.
  intros Hd Hp. unfold add.
  set (docs1 := if #docs <=? d then resize (d + 1) [] docs else docs).
  assert (ordinal_in docs d' p' = ordinal_in docs1 d' p') as ->.
  { unfold docs1. destruct (#docs <=? d) eqn:E; [|done]. by rewrite grow_docs by lia. }
  assert (Z.to_nat d < length docs1)%nat as Hlt.
  { unfold docs1. destruct (#docs <=? d) eqn:E; [|unfold len in *; lia].
    pose proof (len_resize (d + 1) [] docs). unfold len in *. lia. }
  clearbody docs1. destruct (lookup_lt_is_Some_2 docs1 (Z.to_nat d) Hlt) as [doc Hdoc].
  rewrite Hdoc. simpl. set (doc1 := if #doc <=? p then resize (p + 1) EMPTY doc else doc).
  assert (∀ q, (doc1 !! q ≫= slot_value) = (doc !! q ≫= slot_value)) as Hdoc1.
  { intros q. unfold doc1. destruct (#doc <=? p) eqn:E; [|done]. by rewrite grow_doc by lia. }
  assert (Z.to_nat p < length doc1)%nat as Hlt1.
  { unfold doc1. destruct (#doc <=? p) eqn:E; [|unfold len in *; lia].
    pose proof (len_resize (p + 1) EMPTY doc). unfold len in *. lia. }
  clearbody doc1. unfold set_at, ordinal_in. destruct (decide (d' = Z.to_nat d)) as [->|Hne].
  - rewrite list_lookup_insert_eq by done. rewrite Hdoc. simpl.
    destruct (decide (p' = Z.to_nat p)) as [->|Hne'].
    + rewrite list_lookup_insert_eq by done. by rewrite decide_True.
    + rewrite list_lookup_insert_ne by done. rewrite decide_False by naive_solver. apply Hdoc1.
  - rewrite list_lookup_insert_ne by done. by rewrite decide_False by naive_solver.
Qed.

(** The events the build sends to a [PosMapIndex]. *)
Inductive event := OwnLen (ord own_len : Z) | Posting (ord doc_id position : Z).

Definition event_ok (e : event) : Prop :=
  match e with
  | OwnLen ord own_len => fits 32 ord ∧ fits 16 own_len
  | Posting ord doc_id position => fits 32 ord ∧ fits 32 doc_id ∧ fits 32 position
  end.

Definition on_event (ix : PosMapIndex) (e : event) : PosMapIndex :=
  match e with
  | OwnLen ord own_len => on_own_len ix ord own_len
  | Posting ord doc_id position => on_posting ix ord doc_id position
  end.

Definition build (es : list event) : PosMapIndex :=
  foldl on_event {| pi_writer := []; pi_own_lens := [] |} es.

(** The last posting at a position, and the last length of an ordinal. *)
Definition last_posting (es : list event) (d p : nat) : option Z :=
  foldl (λ acc e, match e with
    | Posting ord doc_id position =>
        if decide (d = Z.to_nat doc_id ∧ p = Z.to_nat position) then slot_value ord else acc
    | OwnLen _ _ => acc
    end) None es.

Definition last_len (es : list event) (ord : Z) : option Z :=
  foldl (λ acc e, match e with
    | OwnLen o l => if o =? ord then Some l else acc
    | Posting _ _ _ => acc
    end) None es.

Lemma build_postings es d p :
  Forall event_ok es → ordinal_in (pi_writer (build es)) d p = last_posting es d p.
Proof.
  unfold build, last_posting. induction es as [|e es IH] using rev_ind; intros Hok; [done|].
  apply Forall_app in Hok as [Hes He]. rewrite Forall_singleton in He. specialize (IH Hes).
  rewrite !foldl_app. simpl. destruct e as [ord l|ord d' p']; simpl; [done|].
  destruct He as (_ & [Hd _] & [Hp _]). by rewrite ordinal_in_add, IH by done.
Qed.

Lemma build_lens es ord l :
  Forall event_ok es → 0 ≤ ord → last_len es ord = Some l →
  pi_own_lens (build es) !! Z.to_nat ord = Some l.
Proof.
  unfold build, last_len. intros Hok Hord. revert l.
  induction es as [|e es IH] using rev_ind; intros l Hl; [done|].
  apply Forall_app in Hok as [Hes He]. rewrite Forall_singleton in He. specialize (IH Hes).
  rewrite foldl_app in Hl. rewrite foldl_app. simpl in *. destruct e as [o l'|]; simpl in *; [|by apply IH].
  set (ix := foldl on_event _ es) in *. destruct He as [[Ho _] _]. unfold set_at.
  set (grown := if #(pi_own_lens ix) <=? o then resize (o + 1) 0 (pi_own_lens ix) else pi_own_lens ix).
  assert (∀ k v, pi_own_lens ix !! k = Some v → grown !! k = Some v) as Hkeep.
  { intros k v Hk. unfold grown. destruct (_ <=? _) eqn:E; [|done].
    rewrite resize_grow by lia. by apply lookup_app_l_Some. }
  assert (Z.to_nat o < length grown)%nat as Hlt.
  { unfold grown. destruct (_ <=? _) eqn:E; [|unfold len in *; lia].
    pose proof (len_resize (o + 1) 0 (pi_own_lens ix)). unfold len in *. lia. }
  destruct (o =? ord) eqn:E.
  - simplify_eq. replace ord with o by lia. by apply list_lookup_insert_eq.
  - rewrite list_lookup_insert_ne by lia. by apply Hkeep, IH.
Qed.

(** ** Properties *)

(** C36. [.posmap] round trip, in every layout (three- or four-byte slots, with
    or without byte checkpoints) and through any [.gmap]: the file opens, and
    [ordinal_at], [num_tokens] and [ordinals_range] answer for every document
    and position what the writer was given, under the names of the map: the
    ordinal where there is one, nothing on an empty slot, past the document
    and past the last document. *)
Theorem posmap_roundtrip (docs : list (list Z)) (own_len : option (Z → option Z))
    (gm : option gmap.GmapReader) (name : Z → Z) :
  docs_ok docs →
  (∀ d p o, ordinal_in docs d p = Some o → named gm o = Ret (name o)) →
  ∃ r0, open (serialize_with_lens docs own_len) = Ret r0 ∧
    has_byte_checkpoints r0 = narrow docs && bool_decide (is_Some own_len) ∧
    let r := match gm with Some g => with_gmap r0 g | None => r0 end in
    ∀ d p : nat,
      ordinal_at r (Z.of_nat d) (Z.of_nat p) = of_option (name <$> ordinal_in docs d p) ∧
      num_tokens r (Z.of_nat d) = Ret (default 0 (len <$> docs !! d)) ∧
      ∀ b, ordinals_range r (Z.of_nat d) (Z.of_nat p) b =
        Ret (pairs_in docs name d (Z.of_nat p) (Z.min b (default 0 (len <$> docs !! d)))).
Proof.
  intros Hok Hn. exists (reader_of docs own_len None). split; [by apply open_serialize|].
  split; [done|]. cbv zeta. intros d p.
  assert (match gm with Some g => with_gmap (reader_of docs own_len None) g
          | None => reader_of docs own_len None end = reader_of docs own_len gm) as ->
    by (by destruct gm).
  split; [by apply ordinal_at_reader|]. split; [by apply num_tokens_at|].
  intros b. apply ordinals_range_at; auto; lia.
Qed.

Definition sample_docs : list (list Z) :=
  [(λ i, if i mod 7 =? 5 then EMPTY else i mod 4) <$> range 0 40; []; [3; 2]].

Lemma sample_docs_ok : docs_ok sample_docs.
Proof.
  split.
  - by apply (bool_decide_unpack _); vm_compute.
  - by vm_compute.
  - by apply (bool_decide_unpack _); vm_compute.
  - by vm_compute.
Qed.

Lemma sample_ordinals d p o :
  ordinal_in sample_docs d p = Some o → 0 ≤ o < 4.
Proof.
  unfold ordinal_in. destruct (_ !! d) as [doc|] eqn:Hd; [|done]. simpl.
  destruct (doc !! p) as [v|] eqn:Hp; [|done]. simpl.
  assert (Forall (Forall (λ v, v = EMPTY ∨ 0 ≤ v < 4)) sample_docs) as Hall.
  { by apply (bool_decide_unpack _); vm_compute. }
  rewrite Forall_lookup in Hall. specialize (Hall _ _ Hd). rewrite Forall_lookup in Hall.
  specialize (Hall _ _ Hp) as [-> |Hv]; [done|]. unfold slot_value.
  destruct (v =? EMPTY); [done|]. intros. by simplify_eq.
Qed.

Lemma posmap_roundtrip_witness :
  ∃ r0, open (serialize_with_lens sample_docs (Some (λ o, Some (o + 1)))) = Ret r0 ∧
    has_byte_checkpoints r0 =
      narrow sample_docs && bool_decide (is_Some (Some (λ o : Z, Some (o + 1)))) ∧
    let r := with_gmap r0 (sample_gmap true) in
    ∀ d p : nat,
      ordinal_at r (Z.of_nat d) (Z.of_nat p) =
        of_option (id_at sample_ids <$> ordinal_in sample_docs d p) ∧
      num_tokens r (Z.of_nat d) = Ret (default 0 (len <$> sample_docs !! d)) ∧
      ∀ b, ordinals_range r (Z.of_nat d) (Z.of_nat p) b =
        Ret (pairs_in sample_docs (id_at sample_ids) d (Z.of_nat p)
          (Z.min b (default 0 (len <$> sample_docs !! d)))).
Proof.
  apply (posmap_roundtrip sample_docs (Some (λ o, Some (o + 1))) (Some (sample_gmap true))
    (id_at sample_ids) sample_docs_ok).
  intros d p o Ho%sample_ordinals.
  apply (global_id_at (sample_gmap true) sample_ids); [by split; auto|apply sample_ids_ok|].
  change (#sample_ids) with 70. lia.
Defined.

(** Byte offsets are derived exactly: on a [PMP4] file, [byte_at] of any
    position that holds a token is the sum (wrapping at 32 bits) of the
    lengths of the tokens before it since the last value boundary, although
    the file keeps one offset in sixteen; on an empty slot it answers [None].
    The lengths are asked under the names the reader gives, so the derivation
    is the same on a dictionary segment. *)
Theorem posmap_byte_at (docs : list (list Z)) (ol own_len : Z → option Z)
    (gm : option gmap.GmapReader) (name : Z → Z) :
  docs_ok docs → narrow docs = true →
  (∀ d p o, ordinal_in docs d p = Some o →
     named gm o = Ret (name o) ∧ own_len (name o) = ol o ∧ is_Some (ol o)) →
  ∃ r0, open (serialize_with_lens docs (Some ol)) = Ret r0 ∧
    let r := match gm with Some g => with_gmap r0 g | None => r0 end in
    ∀ (d p : nat) doc o, docs !! d = Some doc → doc !! p = Some o →
      byte_at r (Z.of_nat d) (Z.of_nat p) own_len =
        if o =? EMPTY then Nothing else Ret (byte_offset ol doc p).
Proof.
  intros Hok Hnarrow Hn. exists (reader_of docs (Some ol) None). split; [by apply open_serialize|].
  intros r d p doc o Hd Hp.
  assert (r = reader_of docs (Some ol) gm) as -> by (by destruct gm).
  by apply byte_at_reader with name.
Qed.

Lemma posmap_byte_at_witness :
  ∃ r0, open (serialize_with_lens sample_docs (Some (λ o, Some (o + 1)))) = Ret r0 ∧
    let r := with_gmap r0 (sample_gmap true) in
    ∀ (d p : nat) doc o, sample_docs !! d = Some doc → doc !! p = Some o →
      byte_at r (Z.of_nat d) (Z.of_nat p) (λ g, Some ((g - 1) / 3 + 1)) =
        if o =? EMPTY then Nothing else Ret (byte_offset (λ o, Some (o + 1)) doc p).
Proof.
  apply (posmap_byte_at sample_docs (λ o, Some (o + 1)) (λ g, Some ((g - 1) / 3 + 1))
    (Some (sample_gmap true)) (id_at sample_ids) sample_docs_ok); [by vm_compute|].
  intros d p o Ho%sample_ordinals. split.
  - apply (global_id_at (sample_gmap true) sample_ids); [by split; auto|apply sample_ids_ok|].
    change (#sample_ids) with 70. lia.
  - assert (o ∈ [0; 1; 2; 3]) as Hin by set_solver by lia.
    split; [|eauto]. repeat (apply elem_of_cons in Hin as [-> |Hin]; [by vm_compute|]).
    by apply not_elem_of_nil in Hin.
Defined.

(** The position map is the last posting at each position: whatever
    events the build sent (postings in any order, positions and documents out
    of order, lengths before or after), the map written by the index reads
    back, at every document and position, the ordinal of the last posting
    there, and none where there was none; and once every posted ordinal was
    given a length, [byte_at] derives the byte offset from the last length of
    each. *)
Theorem posmap_index_replay (es : list event) :
  Forall event_ok es → docs_ok (pi_writer (build es)) →
  ∃ r, open (index_serialize (build es)) = Ret r ∧
    (∀ d p : nat, ordinal_at r (Z.of_nat d) (Z.of_nat p) = of_option (last_posting es d p)) ∧
    (narrow (pi_writer (build es)) = true →
     (∀ d p o, last_posting es d p = Some o → is_Some (last_len es o)) →
     ∀ (d p : nat) doc o, (pi_writer (build es) : list (list Z)) !! d = Some doc → last_posting es d p = Some o →
       byte_at r (Z.of_nat d) (Z.of_nat p) (last_len es) = Ret (byte_offset (last_len es) doc p)).
Proof.
  intros Hes Hok. set (lens := pi_own_lens (build es)).
  set (ol := if bool_decide (lens = []) then None else Some (λ ord, lens !! Z.to_nat ord)).
  exists (reader_of (pi_writer (build es)) ol None). split; [|split].
  - unfold index_serialize, serialize. fold lens. unfold ol.
    case_bool_decide; by apply open_serialize.
  - intros d p. rewrite (ordinal_at_reader _ _ None Hok id) by done.
    rewrite option_fmap_id. by rewrite build_postings.
  - intros Hnarrow Hlens d p doc o Hdoc Ho.
    assert (∀ d p o, ordinal_in (pi_writer (build es)) d p = Some o →
      ∃ l, last_len es o = Some l ∧ lens !! Z.to_nat o = Some l) as Hsame.
    { intros d' p' o' Ho'. destruct (ordinal_in_bound _ _ _ _ Hok Ho') as [? _].
      rewrite build_postings in Ho' by done. destruct (Hlens _ _ _ Ho') as [l Hl].
      exists l. split; [done|]. by apply build_lens. }
    assert (ol = Some (λ ord, lens !! Z.to_nat ord)) as ->.
    { unfold ol. rewrite bool_decide_false; [done|]. intros Hnil.
      rewrite <- build_postings in Ho by done.
      destruct (Hsame _ _ _ Ho) as (l & _ & Hl). by rewrite Hnil in Hl. }
    rewrite <- build_postings in Ho by done. unfold ordinal_in in Ho. rewrite Hdoc in Ho.
    simpl in Ho. destruct (doc !! p) as [v|] eqn:Hv; [|done]. simpl in Ho.
    rewrite (byte_at_reader _ None _ _ Hok Hnarrow id) with (doc := doc) (o := v); [|shelve|done..].
    unfold slot_value in Ho. destruct (v =? EMPTY); [done|]. f_equal.
    apply byte_offset_ext. intros q Hq Hne. apply list_elem_of_lookup in Hq as [k Hk].
    destruct (Hsame d k q) as (l & -> & ->); [|done].
    unfold ordinal_in. rewrite Hdoc. simpl. rewrite Hk. simpl. unfold slot_value.
    by replace (q =? EMPTY) with false by lia.
    Unshelve. intros d' p' o' Ho'. destruct (Hsame _ _ _ Ho') as (l & Hl & Hl').
    simpl. rewrite Hl, Hl'. eauto.
Qed.

Lemma posmap_index_replay_witness :
  let es := [OwnLen 2 5; Posting 2 1 3; Posting 7 0 0; Posting 9 1 3] in
  ∃ r, open (index_serialize (build es)) = Ret r ∧
    (∀ d p : nat, ordinal_at r (Z.of_nat d) (Z.of_nat p) = of_option (last_posting es d p)) ∧
    (narrow (pi_writer (build es)) = true →
     (∀ d p o, last_posting es d p = Some o → is_Some (last_len es o)) →
     ∀ (d p : nat) doc o, (pi_writer (build es) : list (list Z)) !! d = Some doc → last_posting es d p = Some o →
       byte_at r (Z.of_nat d) (Z.of_nat p) (last_len es) = Ret (byte_offset (last_len es) doc p)).
Proof.
  apply (posmap_index_replay [OwnLen 2 5; Posting 2 1 3; Posting 7 0 0; Posting 9 1 3]).
  - repeat constructor; by vm_compute.
  - split; [by apply (bool_decide_unpack _); vm_compute|by vm_compute| |by vm_compute].
    by apply (bool_decide_unpack _); vm_compute.
Defined.
