(* ===== verification/WordPosMap.v ===== *)
(** * The word-position map ([src/suffix_fst/word_pos_map.rs])

    [.word_pos_map]: the word that starts at every position of every
    document, as one 32-bit slot, [ordinal | span << 28].  The container has
    the shape of [.posmap] without its checkpoints; a span too long for its
    four bits is reported as an overflow, an ordinal too wide for its
    twenty-eight makes the whole map empty. *)
From S2P Require Import Prelude Gmap PosMap.

Module word_pos_map.

Definition SLOT_ORDINAL_BITS : Z := 28.
Definition SLOT_ORDINAL_MASK : Z := Z.shiftl 1 SLOT_ORDINAL_BITS - 1.
Definition SLOT_ORDINAL_BITS_V2 : Z := 24.
Definition SLOT_ORDINAL_MASK_V2 : Z := Z.shiftl 1 SLOT_ORDINAL_BITS_V2 - 1.
Definition SPAN_OVERFLOW : Z := 255.
Definition SLOT_SPAN_MAX : Z := Z.shiftl 1 (32 - SLOT_ORDINAL_BITS) - 1.

(** [struct WordPosMapWriter]. *)
Record WordPosMapWriter := { wm_docs : list (list Z); wm_overflow : bool }.

Definition new : WordPosMapWriter := {| wm_docs := []; wm_overflow := false |}.

(** [add]: the raw slot write, which [add_word] repeats. *)
Definition add (w : WordPosMapWriter) (doc_id position slot : Z) : WordPosMapWriter :=
  let docs := wm_docs w in
  let docs := if #docs <=? doc_id then resize (doc_id + 1) [] docs else docs in
  let doc := default [] (docs !! Z.to_nat doc_id) in
  let doc := if #doc <=? position then resize (position + 1) u32_max doc else doc in
  {| wm_docs := set_at doc_id (set_at position slot doc) docs; wm_overflow := wm_overflow w |}.

(** [add_word]; the collision counter is a profile probe. *)
Definition add_word (w : WordPosMapWriter) (doc_id first last ordinal : Z) : WordPosMapWriter :=
  if SLOT_ORDINAL_MASK <? ordinal
  then {| wm_docs := wm_docs w; wm_overflow := true |}
  else
    let span := Z.min (saturating_sub last first) SLOT_SPAN_MAX in
    let slot := Z.lor ordinal (as_u32 (Z.shiftl span SLOT_ORDINAL_BITS)) in
    add w doc_id first slot.

Definition magic_WMP3 : list Z := [0x57; 0x4D; 0x50; 0x33].
Definition magic_WMP2 : list Z := [0x57; 0x4D; 0x50; 0x32].

(** [serialize]: empty on ordinal overflow. *)
Definition serialize (w : WordPosMapWriter) : list Z :=
  if wm_overflow w then [] else
  let num_docs := as_u32 #(wm_docs w) in
  let buf := magic_WMP3 ++ to_le_bytes 4 num_docs in
  let '(buf, offset) := fold_left (λ st doc,
      let '(buf, offset) := st in
      (buf ++ to_le_bytes 8 offset, offset + #doc * 4)) (wm_docs w) (buf, 0) in
  let buf := buf ++ to_le_bytes 8 offset in
  fold_left (λ buf doc, buf ++ flat_map (to_le_bytes 4) doc) (wm_docs w) buf.

(** [struct WordPosMapReader]. *)
Record WordPosMapReader := {
  wr_num_docs : Z;
  wr_offsets : list Z;
  wr_data : list Z;
  wr_ordinal_bits : Z;
  wr_gmap : option gmap.GmapReader;
}.

Definition open (bytes : list Z) : out WordPosMapReader :=
  if #bytes <? 8 then Nothing else
  m ← slice bytes 0 4;
  ordinal_bits ←
    (if bytes_eqb m magic_WMP3 then Ret SLOT_ORDINAL_BITS
     else if bytes_eqb m magic_WMP2 then Ret SLOT_ORDINAL_BITS_V2
     else Nothing);
  num_docs ← u32_at bytes 4;
  let offsets_size := (num_docs + 1) * 8 in
  if #bytes <? 8 + offsets_size then Nothing else
  offsets ← slice bytes 8 (8 + offsets_size);
  data ← slice_from bytes (8 + offsets_size);
  Ret {| wr_num_docs := num_docs; wr_offsets := offsets; wr_data := data;
         wr_ordinal_bits := ordinal_bits; wr_gmap := None |}.

Definition with_gmap (r : WordPosMapReader) (g : gmap.GmapReader) : WordPosMapReader :=
  {| wr_num_docs := wr_num_docs r; wr_offsets := wr_offsets r; wr_data := wr_data r;
     wr_ordinal_bits := wr_ordinal_bits r; wr_gmap := Some g |}.

Definition read_offset (r : WordPosMapReader) (idx : Z) : out Z := u64_at (wr_offsets r) (idx * 8).

(** [num_positions]. *)
Definition num_positions (r : WordPosMapReader) (doc_id : Z) : out Z :=
  if wr_num_docs r <=? doc_id then Ret 0 else
  let i := doc_id * 8 in
  start ← u64_at (wr_offsets r) i;
  end_ ← u64_at (wr_offsets r) (i + 8);
  Ret (as_u32 (as_u64 (end_ - start) / 4)).

(** [word_at]: the raw slot. *)
Definition word_at (r : WordPosMapReader) (doc_id position : Z) : out Z :=
  if wr_num_docs r <=? doc_id then Nothing else
  start ← read_offset r doc_id;
  end_ ← read_offset r (doc_id + 1);
  let num_positions := as_u64 (end_ - start) / 4 in
  if num_positions <=? position then Nothing else
  let pos := as_u64 (start + position * 4) in
  if #(wr_data r) <? as_u64 (pos + 4) then Nothing else
  wid ← u32_at (wr_data r) pos;
  if wid =? u32_max then Nothing else Ret wid.

(** [word_start_at]: the decoded slot, under the name of the map. *)
Definition word_start_at (r : WordPosMapReader) (doc_id position : Z) : out (Z * Z) :=
  slot ← word_at r doc_id position;
  let '(local, span) :=
    if wr_ordinal_bits r =? SLOT_ORDINAL_BITS_V2
    then (Z.land slot SLOT_ORDINAL_MASK_V2, Z.shiftr slot SLOT_ORDINAL_BITS_V2)
    else
      let span := Z.shiftr slot SLOT_ORDINAL_BITS in
      (Z.land slot SLOT_ORDINAL_MASK, if SLOT_SPAN_MAX <=? span then SPAN_OVERFLOW else span) in
  ordinal ← match wr_gmap r with Some g => gmap.global g local | None => Ret local end;
  Ret (ordinal, span).

End word_pos_map.
Import word_pos_map.

(** ** Specification *)

(** A word of the build: the call [add_word doc_id first last ordinal]. *)
Record word := { w_doc : Z; w_first : Z; w_last : Z; w_ordinal : Z }.

Definition word_ok (w : word) : Prop :=
  fits 32 (w_doc w) ∧ fits 32 (w_first w) ∧ fits 32 (w_last w) ∧ fits 32 (w_ordinal w).

Definition build (ws : list word) : WordPosMapWriter :=
  foldl (λ m w, add_word m (w_doc w) (w_first w) (w_last w) (w_ordinal w)) new ws.

(** The span as the reader reports it. *)
Definition reported_span (first last : Z) : Z :=
  if saturating_sub last first <? 15 then saturating_sub last first else SPAN_OVERFLOW.

(** The last word written at a position, with the span the reader reports. *)
Definition last_word (ws : list word) (d p : nat) : option (Z * Z) :=
  foldl (λ acc w,
    if decide (d = Z.to_nat (w_doc w) ∧ p = Z.to_nat (w_first w))
    then Some (w_ordinal w, reported_span (w_first w) (w_last w)) else acc) None ws.

(** The one slot that cannot be told from "no word": the largest ordinal with
    an overflowing span. *)
Definition ambiguous (w : word) : bool :=
  (w_ordinal w =? SLOT_ORDINAL_MASK) && (15 <=? saturating_sub (w_last w) (w_first w)).

(** ** Slots *)

(** The slot of a word, by arithmetic. *)
Definition slot_of (ordinal span : Z) : Z := ordinal + span * 2 ^ 28.

(** The word a slot says. *)
Definition decode_slot (slot : Z) : Z * Z :=
  (slot mod 2 ^ 28, if slot / 2 ^ 28 <? 15 then slot / 2 ^ 28 else SPAN_OVERFLOW).

Lemma slot_of_lor ordinal span :
  0 ≤ ordinal < 2 ^ 28 → 0 ≤ span < 16 →
  Z.lor ordinal (as_u32 (Z.shiftl span SLOT_ORDINAL_BITS)) = slot_of ordinal span.
Proof.
  intros Ho Hs. unfold as_u32, slot_of, SLOT_ORDINAL_BITS.
  rewrite Z.mod_small by (rewrite Z.shiftl_mul_pow2 by lia; lia).
  by apply lor_shiftl_add.
Qed.

Lemma decode_slot_of ordinal span :
  0 ≤ ordinal < 2 ^ 28 → 0 ≤ span →
  decode_slot (slot_of ordinal span) = (ordinal, if span <? 15 then span else SPAN_OVERFLOW).
Proof.
  intros Ho Hs. unfold decode_slot, slot_of. rewrite Z.mod_add, Z.div_add by lia.
  by rewrite Z.mod_small, Z.div_small, Z.add_0_l by lia.
Qed.

Lemma decode_slot_bits slot :
  (Z.land slot SLOT_ORDINAL_MASK,
   if SLOT_SPAN_MAX <=? Z.shiftr slot SLOT_ORDINAL_BITS
   then SPAN_OVERFLOW else Z.shiftr slot SLOT_ORDINAL_BITS) = decode_slot slot.
Proof.
  unfold decode_slot. change SLOT_ORDINAL_MASK with (Z.ones 28). rewrite Z.land_ones by lia.
  unfold SLOT_ORDINAL_BITS. rewrite Z.shiftr_div_pow2 by lia. change SLOT_SPAN_MAX with 15.
  f_equal. destruct (_ <=? _) eqn:E1, (_ <? _) eqn:E2; lia || done.
Qed.

(** ** Writing *)

Lemma add_posmap w d p slot : wm_docs (add w d p slot) = posmap.add (wm_docs w) d p slot.
Proof. reflexivity. Qed.

Lemma build_overflow ws :
  wm_overflow (build ws) = existsb (λ w, SLOT_ORDINAL_MASK <? w_ordinal w) ws.
Proof.
  unfold build. induction ws as [|w ws IH] using rev_ind; [done|].
  rewrite foldl_app, existsb_app, <- IH. cbn [foldl existsb].
  set (m := foldl _ new ws). clearbody m. unfold add_word.
  destruct (_ <? w_ordinal w); [by rewrite orb_true_r|]. by rewrite !orb_false_r.
Qed.

(** The slots the build wrote say the last word at each position. *)
Lemma build_words ws d p :
  Forall word_ok ws → wm_overflow (build ws) = false → existsb ambiguous ws = false →
  decode_slot <$> ordinal_in (wm_docs (build ws)) d p = last_word ws d p.
Proof.
  unfold build, last_word. induction ws as [|w ws IH] using rev_ind; [done|].
  rewrite Forall_app, Forall_singleton, foldl_app, foldl_app, existsb_app.
  simpl. rewrite orb_false_r. intros [Hws Hw] Hov [Ha Hamb]%orb_false_iff.
  set (m := foldl _ new ws) in *. unfold add_word in *.
  destruct (_ <? w_ordinal w) eqn:E; [done|]. simpl in Hov. specialize (IH Hws Hov Ha).
  destruct Hw as ([Hd _] & [Hf _] & Hl & [Ho _]). change SLOT_ORDINAL_MASK with (2 ^ 28 - 1) in *.
  unfold saturating_sub in *. change SLOT_SPAN_MAX with 15.
  rewrite slot_of_lor, add_posmap, ordinal_in_add by lia.
  destruct (decide _) as [Heq|Hne]; [|done]. unfold slot_value.
  replace (_ =? posmap.EMPTY) with false.
  - simpl. rewrite decode_slot_of by lia. f_equal. unfold reported_span, saturating_sub.
    f_equal. destruct (_ <? 15) eqn:E1, (Z.max 0 _ <? 15) eqn:E2; lia || done.
  - symmetry. unfold ambiguous, saturating_sub in Hamb.
    change SLOT_ORDINAL_MASK with (2 ^ 28 - 1) in *.
    apply Z.eqb_neq. unfold slot_of, posmap.EMPTY. widths. lia.
Qed.

(** ** Reading *)

Definition doc_regions (docs : list (list Z)) : list (list Z) := map (flat_map (to_le_bytes 4)) docs.

Definition reader_of (docs : list (list Z)) (gm : option gmap.GmapReader) : WordPosMapReader :=
  {| wr_num_docs := #docs;
     wr_offsets := flat_map (to_le_bytes 8) (prefix_sums 0 (doc_regions docs));
     wr_data := concat (doc_regions docs);
     wr_ordinal_bits := SLOT_ORDINAL_BITS;
     wr_gmap := gm |}.

Section Reading.
Context (docs : list (list Z)) (gm : option gmap.GmapReader).
Hypothesis ok : docs_ok docs.

Lemma len_regions ds : #(concat (doc_regions ds)) = 4 * #(concat ds).
Proof using.
  unfold doc_regions. induction ds as [|doc ds IH]; [done|]. simpl.
  rewrite !len_app, len_table, IH. lia.
Qed.

Lemma open_word_map w :
  wm_docs w = docs → wm_overflow w = false → open (serialize w) = Ret (reader_of docs None).
Proof using ok.
  intros <- Hov. set (ds := wm_docs w) in *. unfold serialize. rewrite Hov.
  pose proof (dk_docs _ ok). pose proof (len_nonneg ds). fold ds.
  unfold as_u32. rewrite Z.mod_small by lia.
  pose proof (fold_offsets 8 (λ doc, #doc * 4) (flat_map (to_le_bytes 4)) ds
    (magic_WMP3 ++ to_le_bytes 4 #ds) 0 ltac:(intros; rewrite len_table; lia)) as Hoff.
  cbv beta in Hoff. destruct (fold_left _ ds (_, 0)) as [buf off]. cbv beta iota in Hoff.
  rewrite Hoff, (fold_regions (flat_map (to_le_bytes 4))), <- !app_assoc.
  fold (doc_regions ds). unfold open.
  match goal with |- context [len ?x <? 8] =>
    destruct (cursor_open x) as (data & Hd & Hat); rewrite <- Hd end.
  assert (#(flat_map (to_le_bytes 8) (prefix_sums 0 (doc_regions ds))) = (#ds + 1) * 8) as Ho.
  { rewrite len_table, len_prefix_sums. unfold doc_regions. rewrite len_map. lia. }
  assert (#data = 8 + (#ds + 1) * 8 + #(concat (doc_regions ds))) as Hlen.
  { subst data. rewrite !len_app, Ho, len_to_le_bytes. change (#magic_WMP3) with 4. lia. }
  pose proof (len_nonneg (concat (doc_regions ds))). rewrite Hlen.
  replace (_ <? 8) with false by lia.
  rewrite (At_slice _ _ _ _ _ Hat), bind_ret by done. apply At_skip in Hat.
  change (0 + #magic_WMP3) with 4 in Hat. change (bytes_eqb magic_WMP3 magic_WMP3) with true.
  cbv iota. rewrite bind_ret. read_u32 Hat. replace (_ <? 8 + _) with false by lia.
  rewrite (At_slice _ _ _ _ _ Hat) by lia. rewrite bind_ret. apply At_skip in Hat.
  rewrite Ho in Hat. by rewrite (At_slice_from _ _ _ Hat).
Qed.

Lemma read_word_map_offset (k : nat) :
  (k ≤ length docs)%nat →
  read_offset (reader_of docs gm) (Z.of_nat k) = Ret (4 * #(concat (take k docs))) ∧
  4 * #(concat (take k docs)) < 2 ^ 64.
Proof using ok.
  intros Hk. assert (#(concat (take k (doc_regions docs))) = 4 * #(concat (take k docs))) as Ht.
  { unfold doc_regions. rewrite <- len_regions. unfold doc_regions.
    by rewrite firstn_map. }
  pose proof (len_concat_take_le docs k). pose proof (len_nonneg docs). pose proof (dk_size _ ok).
  pose proof (len_nonneg (concat (take k docs))). split; [|lia].
  unfold read_offset, u64_at. rewrite Z.mul_comm. simpl wr_offsets.
  rewrite <- (app_nil_r (flat_map _ _)). apply (le_at_table 8); [|unfold fits; lia].
  rewrite prefix_sums_lookup, Ht; [done|]. unfold doc_regions. by rewrite length_map.
Qed.

Lemma offset_step d doc :
  docs !! d = Some doc → #(concat (take (S d) docs)) = #(concat (take d docs)) + #doc.
Proof using. intros Hd. by rewrite (concat_take_S _ _ _ Hd), len_app. Qed.

Lemma word_at_reader (d p : nat) :
  word_at (reader_of docs gm) (Z.of_nat d) (Z.of_nat p) = of_option (ordinal_in docs d p).
Proof using ok.
  unfold word_at, ordinal_in. simpl wr_num_docs. destruct (docs !! d) as [doc|] eqn:Hd.
  2: { apply lookup_ge_None in Hd. replace (_ <=? _) with true by (unfold len; lia). done. }
  apply lookup_lt_Some in Hd as Hlt. replace (_ <=? Z.of_nat d) with false by (unfold len; lia).
  destruct (read_word_map_offset d) as [-> Hb1]; [lia|]. rewrite bind_ret.
  replace (Z.of_nat d + 1) with (Z.of_nat (S d)) by lia.
  destruct (read_word_map_offset (S d)) as [-> Hb2]; [lia|]. rewrite bind_ret.
  rewrite (offset_step d doc Hd) in *. pose proof (len_nonneg (concat (take d docs))).
  pose proof (len_nonneg doc). unfold as_u64.
  replace (4 * (#(concat (take d docs)) + #doc) - 4 * #(concat (take d docs))) with (#doc * 4) by lia.
  rewrite (Z.mod_small (#doc * 4)) by lia. rewrite Z.div_mul by lia. simpl.
  destruct (doc !! p) as [o|] eqn:Hp.
  2: { apply lookup_ge_None in Hp. replace (_ <=? _) with true by (unfold len; lia). done. }
  apply lookup_lt_Some in Hp as Hlt'. replace (_ <=? Z.of_nat p) with false by (unfold len; lia).
  assert (#(concat (take (S d) docs)) ≤ #(concat docs)) as Hle by apply len_concat_take_le.
  rewrite (offset_step d doc Hd) in Hle.
  assert (Z.of_nat p < #doc) by (unfold len; lia).
  pose proof (dk_size _ ok). pose proof (len_nonneg docs).
  rewrite !Z.mod_small by (rewrite ?Z.mod_small by lia; lia).
  pose proof (len_regions docs) as Hr. replace (_ <? _) with false by lia.
  assert (u32_at (concat (doc_regions docs)) (4 * #(concat (take d docs)) + Z.of_nat p * 4) = Ret o) as ->.
  { unfold doc_regions. rewrite (concat_split (map _ docs) d (flat_map (to_le_bytes 4) doc))
      by (by apply lookup_map).
    assert (#(concat (take d (map (flat_map (to_le_bytes 4)) docs))) = 4 * #(concat (take d docs))) as Ht.
    { rewrite <- len_regions. unfold doc_regions. by rewrite firstn_map. }
    unfold u32_at. rewrite le_at_app_r by lia. rewrite Ht.
    replace (_ - _) with (4 * Z.of_nat p) by lia. apply (le_at_table 4); [done|].
    pose proof (dk_slots _ ok) as Hs. rewrite Forall_lookup in Hs. specialize (Hs _ _ Hd).
    rewrite Forall_lookup in Hs. by specialize (Hs _ _ Hp). }
  rewrite bind_ret. simpl. unfold slot_value, posmap.EMPTY. by destruct (o =? u32_max).
Qed.

Lemma num_positions_reader (d : nat) :
  num_positions (reader_of docs gm) (Z.of_nat d) = Ret (default 0 (len <$> docs !! d)).
Proof using ok.
  unfold num_positions. simpl wr_num_docs. destruct (docs !! d) as [doc|] eqn:Hd.
  2: { apply lookup_ge_None in Hd. replace (_ <=? _) with true by (unfold len; lia). done. }
  apply lookup_lt_Some in Hd as Hlt. replace (_ <=? Z.of_nat d) with false by (unfold len; lia).
  change (u64_at (wr_offsets ?r) (Z.of_nat d * 8)) with (read_offset r (Z.of_nat d)).
  destruct (read_word_map_offset d) as [-> Hb1]; [lia|]. rewrite bind_ret.
  replace (Z.of_nat d * 8 + 8) with (Z.of_nat (S d) * 8) by lia.
  change (u64_at (wr_offsets ?r) (Z.of_nat (S d) * 8)) with (read_offset r (Z.of_nat (S d))).
  destruct (read_word_map_offset (S d)) as [-> Hb2]; [lia|]. rewrite bind_ret.
  rewrite (offset_step d doc Hd) in *. pose proof (len_nonneg (concat (take d docs))).
  pose proof (len_nonneg doc). unfold as_u64, as_u32.
  replace (4 * (#(concat (take d docs)) + #doc) - 4 * #(concat (take d docs))) with (#doc * 4) by lia.
  rewrite (Z.mod_small (#doc * 4)) by lia. rewrite Z.div_mul by lia. simpl.
  rewrite Z.mod_small; [done|]. pose proof (dk_doc _ ok) as Hdoc.
  rewrite Forall_lookup in Hdoc. specialize (Hdoc _ _ Hd). simpl in Hdoc. lia.
Qed.

Lemma word_start_at_reader (name : Z → Z) (d p : nat) :
  (∀ d p slot, ordinal_in docs d p = Some slot →
     named gm (fst (decode_slot slot)) = Ret (name (fst (decode_slot slot)))) →
  word_start_at (reader_of docs gm) (Z.of_nat d) (Z.of_nat p) =
    of_option ((λ w, (name (fst w), snd w)) <$> (decode_slot <$> ordinal_in docs d p)).
Proof using ok.
  intros names. unfold word_start_at. rewrite word_at_reader. specialize (names d p).
  destruct (ordinal_in docs d p) as [slot|]; [|done]. simpl of_option. rewrite bind_ret.
  cbn [reader_of wr_ordinal_bits wr_gmap]. change (SLOT_ORDINAL_BITS =? SLOT_ORDINAL_BITS_V2) with false.
  pose proof (decode_slot_bits slot) as Hbits. specialize (names slot eq_refl).
  unfold decode_slot in *. apply pair_eq in Hbits as [-> ->]. simpl fst in *. fold (named gm (slot mod 2 ^ 28)).
  by rewrite names.
Qed.
End Reading.

(** ** Properties *)

(** The word-position map is the inverse of the words written: whatever
    words the collector added, in any order, [word_start_at] returns at every
    document and position the last word that starts there, under the name of
    the map, with its span, or the overflow marker for a span of fifteen or
    more; nothing where no word starts.  If one ordinal needs more than
    twenty-eight bits the file is empty and does not open, so no answer is
    ever wrong by omission.  The one excluded word is the largest ordinal with
    an overflowing span (see the next property). *)
Theorem word_pos_map_replay (ws : list word) (gm : option gmap.GmapReader) (name : Z → Z) :
  Forall word_ok ws → docs_ok (wm_docs (build ws)) → existsb ambiguous ws = false →
  (∀ i, 0 ≤ i < 2 ^ 28 → named gm i = Ret (name i)) →
  if existsb (λ w, SLOT_ORDINAL_MASK <? w_ordinal w) ws
  then serialize (build ws) = [] ∧ open (serialize (build ws)) = Nothing
  else ∃ r0, open (serialize (build ws)) = Ret r0 ∧
    let r := match gm with Some g => with_gmap r0 g | None => r0 end in
    ∀ d p : nat,
      word_start_at r (Z.of_nat d) (Z.of_nat p) =
        of_option ((λ w, (name (fst w), snd w)) <$> last_word ws d p) ∧
      num_positions r (Z.of_nat d) = Ret (default 0 (len <$> wm_docs (build ws) !! d)).
Proof.
  intros Hws Hok Hamb Hname. rewrite <- build_overflow.
  destruct (wm_overflow (build ws)) eqn:Hov.
  { unfold serialize. rewrite Hov. done. }
  exists (reader_of (wm_docs (build ws)) None). split; [by apply open_word_map|].
  intros r d p. assert (r = reader_of (wm_docs (build ws)) gm) as -> by (by destruct gm).
  split; [|by apply num_positions_reader].
  rewrite (word_start_at_reader _ gm Hok name); [by rewrite build_words|].
  intros d' p' slot _. apply Hname. apply Z.mod_pos_bound. lia.
Qed.

Definition sample_words : list word :=
  [ {| w_doc := 0; w_first := 0; w_last := 2; w_ordinal := 7 |};
    {| w_doc := 2; w_first := 3; w_last := 40; w_ordinal := 11 |};
    {| w_doc := 0; w_first := 3; w_last := 3; w_ordinal := 2 ^ 28 - 1 |} ].

Lemma word_pos_map_replay_witness :
  ∃ r0, open (serialize (build sample_words)) = Ret r0 ∧
    ∀ d p : nat,
      word_start_at r0 (Z.of_nat d) (Z.of_nat p) =
        of_option ((λ w, (id (fst w), snd w)) <$> last_word sample_words d p) ∧
      num_positions r0 (Z.of_nat d) = Ret (default 0 (len <$> wm_docs (build sample_words) !! d)).
Proof.
  apply (word_pos_map_replay sample_words None id).
  - repeat constructor; by vm_compute.
  - split; [by apply (bool_decide_unpack _); vm_compute|by vm_compute| |by vm_compute].
    by apply (bool_decide_unpack _); vm_compute.
  - by vm_compute.
  - done.
Defined.

(** The largest ordinal is lost with a long span: [add_word] accepts the
    ordinal [2^28 - 1], but with a span of fifteen chunks or more its slot is
    the "no word" marker, so the reader answers [None] at a position where a
    word was written, without the overflow guard being raised. *)
Theorem word_pos_map_marker_collision (w : WordPosMapWriter) (d f l : Z) :
  0 ≤ d → 0 ≤ f → 15 ≤ l - f → docs_ok (wm_docs (add_word w d f l SLOT_ORDINAL_MASK)) →
  wm_overflow w = false →
  wm_overflow (add_word w d f l SLOT_ORDINAL_MASK) = false ∧
  ∃ r, open (serialize (add_word w d f l SLOT_ORDINAL_MASK)) = Ret r ∧
    word_start_at r d f = Nothing.
Proof.
  intros Hd Hf Hspan Hok Hov. split; [done|].
  exists (reader_of (wm_docs (add_word w d f l SLOT_ORDINAL_MASK)) None).
  split; [by apply open_word_map|].
  rewrite <- (Z2Nat.id d), <- (Z2Nat.id f) by done.
  rewrite (word_start_at_reader _ None) with (name := id); [|by rewrite ?Z2Nat.id|done].
  rewrite !Z2Nat.id by done.
  assert (wm_docs (add_word w d f l SLOT_ORDINAL_MASK) = posmap.add (wm_docs w) d f u32_max) as ->.
  { unfold add_word. change (SLOT_ORDINAL_MASK <? SLOT_ORDINAL_MASK) with false. cbv iota.
    rewrite add_posmap. f_equal. unfold saturating_sub. change SLOT_SPAN_MAX with 15.
    by replace (Z.min _ 15) with 15 by lia. }
  rewrite ordinal_in_add by done. rewrite decide_True; done.
Qed.

Lemma word_pos_map_marker_collision_witness :
  wm_overflow (add_word new 0 0 20 SLOT_ORDINAL_MASK) = false ∧
  ∃ r, open (serialize (add_word new 0 0 20 SLOT_ORDINAL_MASK)) = Ret r ∧
    word_start_at r 0 0 = Nothing.
Proof.
  apply (word_pos_map_marker_collision new 0 0 20); [lia..| |done].
  split; [by apply (bool_decide_unpack _); vm_compute|by vm_compute| |by vm_compute].
  by apply (bool_decide_unpack _); vm_compute.
Defined.
