(* ===== verification/Ordering.v ===== *)
(** * Sorting and deduplication

    The derived [Ord] of Rust tuples and structs, which is lexicographic,
    [sort]/[sort_unstable] under it and [Vec::dedup].  The order is total and
    antisymmetric on the fields, so stable and unstable sorting give the same
    vector and one definition serves both. *)
From S2P Require Import Prelude.

(** The derived comparison of two values, on the lists of their fields. *)
Fixpoint lex_leb (a b : list Z) : bool :=
  match a, b with
  | [], _ => true
  | _ :: _, [] => false
  | x :: a, y :: b => (x <? y) || ((x =? y) && lex_leb a b)
  end.

Lemma lex_leb_refl a : lex_leb a a = true.
Proof. induction a as [|x a IH]; [done|]. simpl. rewrite Z.eqb_refl, IH. lia. Qed.

Lemma lex_leb_trans a b c : lex_leb a b = true → lex_leb b c = true → lex_leb a c = true.
Proof.
  revert b c. induction a as [|x a IH]; intros [|y b] [|z c]; simpl; try done.
  rewrite !orb_true_iff, !andb_true_iff, !Z.ltb_lt, !Z.eqb_eq.
  intros [Hxy|[-> Hab]] [Hyz|[-> Hbc]]; [left; lia..|]. right. eauto.
Qed.

Lemma lex_leb_total a b : lex_leb a b = true ∨ lex_leb b a = true.
Proof.
  revert b. induction a as [|x a IH]; intros [|y b]; simpl; auto.
  rewrite !orb_true_iff, !andb_true_iff, !Z.ltb_lt, !Z.eqb_eq.
  destruct (Z.lt_trichotomy x y) as [?|[->|?]]; auto. destruct (IH b); auto.
Qed.

Lemma lex_leb_antisym a b : lex_leb a b = true → lex_leb b a = true → a = b.
Proof.
  revert b. induction a as [|x a IH]; intros [|y b]; simpl; try done.
  rewrite !orb_true_iff, !andb_true_iff, !Z.ltb_lt, !Z.eqb_eq.
  intros [?|[-> ?]] [?|[? ?]]; try lia. f_equal. auto.
Qed.

(** [v.dedup()]: of equal neighbours, one stays. *)
Fixpoint dedup {A} `{EqDecision A} (l : list A) : list A :=
  match l with
  | [] => []
  | x :: l =>
      match l with
      | [] => [x]
      | y :: _ => if decide (x = y) then dedup l else x :: dedup l
      end
  end.

Lemma dedup_cons_eq {A} `{EqDecision A} (x : A) l : dedup (x :: x :: l) = dedup (x :: l).
Proof. cbn [dedup]. by rewrite decide_True. Qed.

Lemma dedup_cons_ne {A} `{EqDecision A} (x y : A) l :
  x ≠ y → dedup (x :: y :: l) = x :: dedup (y :: l).
Proof. intros. cbn [dedup]. by rewrite decide_False. Qed.

Lemma elem_of_dedup {A} `{EqDecision A} (x : A) l : x ∈ dedup l ↔ x ∈ l.
Proof.
  induction l as [|y l IH]; [done|]. destruct l as [|z l]; [done|].
  destruct (decide (y = z)) as [->|Hne].
  - rewrite dedup_cons_eq, IH. set_solver.
  - rewrite dedup_cons_ne by done. set_solver.
Qed.

Section Sort.
Context {A : Type} `{EqDecision A} (key : A → list Z) `{!Inj (=) (=) key}.

(** The order of the fields, and its strict part. *)
Definition key_le (a b : A) : Prop := lex_leb (key a) (key b) = true.
Definition key_lt (a b : A) : Prop := key_le a b ∧ a ≠ b.

#[export] Instance key_le_dec a b : Decision (key_le a b).
Proof. unfold key_le. apply _. Defined.
#[export] Instance key_le_trans : Transitive key_le.
Proof. intros a b c. apply lex_leb_trans. Qed.
#[export] Instance key_le_total : Total key_le.
Proof. intros a b. apply lex_leb_total. Qed.

(** [v.sort_unstable()]. *)
Definition sort_by (l : list A) : list A := merge_sort key_le l.

Lemma elem_of_sort_by x l : x ∈ sort_by l ↔ x ∈ l.
Proof using. unfold sort_by. by rewrite merge_sort_Permutation. Qed.

Lemma sort_by_sorted l : StronglySorted key_le (sort_by l).
Proof using. apply StronglySorted_merge_sort; apply _. Qed.

(** Sorting a sorted vector changes nothing. *)
Lemma sort_by_id l : StronglySorted key_le l → sort_by l = l.
Proof using Inj0.
  intros Hl. apply (StronglySorted_unique_strong key_le).
  - intros x y _ _ Hxy Hyx. apply (inj key). by apply lex_leb_antisym.
  - apply sort_by_sorted.
  - done.
  - apply merge_sort_Permutation.
Qed.

(** Whatever order the elements came in. *)
Lemma sort_by_perm l1 l2 : l1 ≡ₚ l2 → StronglySorted key_le l2 → sort_by l1 = l2.
Proof using Inj0.
  intros Hp Hl. apply (StronglySorted_unique_strong key_le).
  - intros x y _ _ Hxy Hyx. apply (inj key). by apply lex_leb_antisym.
  - apply sort_by_sorted.
  - done.
  - unfold sort_by. by rewrite merge_sort_Permutation.
Qed.

Lemma dedup_sorted l : StronglySorted key_le l → StronglySorted key_lt (dedup l).
Proof using Inj0.
  induction l as [|x l IH]; [constructor|]. intros [Hx Hl]%StronglySorted_cons.
  destruct l as [|y l]; [by repeat constructor|].
  destruct (decide (x = y)) as [->|Hne]; [rewrite dedup_cons_eq; auto|].
  rewrite dedup_cons_ne by done. apply StronglySorted_cons. split; [|by apply IH].
  apply Forall_forall. intros z Hz. rewrite elem_of_dedup in Hz. rewrite Forall_forall in Hx.
  split; [by apply Hx|]. intros ->. apply Hne. apply (inj key).
  apply lex_leb_antisym; [apply Hx; set_solver|].
  apply StronglySorted_cons in Hl as [Hy _]. apply elem_of_cons in Hz as [->|Hz].
  - apply lex_leb_refl.
  - rewrite Forall_forall in Hy. by apply Hy.
Qed.

(** The strictly sorted list of a set of elements is unique. *)
Lemma key_lt_unique l1 l2 :
  StronglySorted key_lt l1 → StronglySorted key_lt l2 → (∀ x, x ∈ l1 ↔ x ∈ l2) → l1 = l2.
Proof using Inj0.
  assert (∀ l, StronglySorted key_lt l → NoDup l) as Hnd.
  { induction 1 as [|x l Hl IH Hx]; constructor; auto. intros Hin.
    rewrite Forall_forall in Hx. by destruct (Hx x Hin). }
  intros H1 H2 Heq. apply (StronglySorted_unique_strong key_lt); auto.
  - intros x y _ _ [Hxy _] [Hyx _]. apply (inj key). by apply lex_leb_antisym.
  - apply NoDup_Permutation; auto.
Qed.
End Sort.

Lemma StronglySorted_filter {A} (R : relation A) (p : A → bool) l :
  StronglySorted R l → StronglySorted R (List.filter p l).
Proof.
  induction 1 as [|x l _ IH Hx]; [constructor|]. simpl. destruct (p x); [|done].
  constructor; [done|]. rewrite Forall_forall in *. intros y Hy. apply Hx.
  apply list_elem_of_In, filter_In in Hy as [Hy _]. by apply list_elem_of_In.
Qed.

Lemma StronglySorted_lookup {A} (R : relation A) l i j a b :
  StronglySorted R l → l !! i = Some a → l !! j = Some b → (i < j)%nat → R a b.
Proof.
  intros Hl. revert i j. induction Hl as [|x l _ IH Hall]; intros i j Ha Hb Hij; [done|].
  destruct i as [|i], j as [|j]; simpl in *; simplify_eq; [lia| |lia|].
  - rewrite Forall_lookup in Hall. by apply (Hall j).
  - eapply (IH i j); [done..|lia].
Qed.
