(* ===== verification/SiblingTable.v ===== *)
(** * The sibling table ([src/suffix_fst/sibling_table.rs])

    For each token ordinal, the tokens that follow it.  The writer sorts and
    deduplicates the pairs it was given and writes them as deltas, with the
    gaps ([SIB2], flat offset table) or without ([SIB4], block-coded table);
    the reader also takes the fixed records of the first layout and [SIB3]. *)
From S2P Require Import Prelude Varint OffsetTables Gmap Ordering.
Import varint block_offsets.

Module sibling_table.

Definition V2_SENTINEL : Z := u32_max.
Definition MAGIC_V2 : list Z := [0x53; 0x49; 0x42; 0x32].
Definition MAGIC_V3 : list Z := [0x53; 0x49; 0x42; 0x33].
Definition MAGIC_V4 : list Z := [0x53; 0x49; 0x42; 0x34].
Definition V1_ENTRY_SIZE : Z := 6.

(** [struct SiblingEntry]. *)
Record SiblingEntry := { next_ordinal : Z; gap_len : Z }.

(** One element of [pairs]: [(ordinal, next_ordinal, gap_len)]. *)
Definition pair : Type := Z * Z * Z.

(** [struct SiblingTableWriter]. *)
Record SiblingTableWriter := { sw_pairs : list pair; sw_num_ordinals : Z }.

Definition new (num_ordinals : Z) : SiblingTableWriter :=
  {| sw_pairs := []; sw_num_ordinals := num_ordinals |}.

Definition add (w : SiblingTableWriter) (ordinal next gap : Z) : SiblingTableWriter :=
  {| sw_pairs := sw_pairs w ++ [(ordinal, next, gap)]; sw_num_ordinals := sw_num_ordinals w |}.

(** The fields in the order the derived comparison takes them. *)
Definition pair_key (p : pair) : list Z := let '(o, n, g) := p in [o; n; g].

(** One entry, in the layout with gaps or without. *)
Definition write_entry (with_gaps : bool) (entries_data : list Z) (prev_next next gap : Z) : list Z :=
  let delta := sub32 next prev_next in
  if with_gaps then
    let entries_data := write_varint entries_data
      (Z.lor (Z.shiftl delta 1) (if gap =? 0 then 0 else 1)) in
    if gap =? 0 then entries_data else write_varint entries_data gap
  else write_varint entries_data delta.

(** [while cursor < pairs.len() && pairs[cursor].0 == ord]: the pairs from
    [cursor] on, and what is left of them. *)
Fixpoint write_run (with_gaps : bool) (ord prev_next : Z) (pairs : list pair) (entries_data : list Z)
    : list Z * list pair :=
  match pairs with
  | (o, n, g) :: rest =>
      if o =? ord
      then write_run with_gaps ord n rest (write_entry with_gaps entries_data prev_next n g)
      else (entries_data, pairs)
  | [] => (entries_data, [])
  end.

(** [for ord in 0..num]: offsets, data and the pairs left. *)
Definition write_ordinal (with_gaps : bool) (st : list Z * list Z * list pair) (ord : Z)
    : list Z * list Z * list pair :=
  let '(offsets, entries_data, pairs) := st in
  let offsets := offsets ++ [as_u32 #entries_data] in
  let '(entries_data, pairs) := write_run with_gaps ord 0 pairs entries_data in
  (offsets, entries_data, pairs).

(** [serialize]: sorts and deduplicates the writer's pairs in place. *)
Definition serialize (w : SiblingTableWriter) : out (list Z * SiblingTableWriter) :=
  let pairs := dedup (sort_by pair_key (sw_pairs w)) in
  let with_gaps := existsb (λ p, negb (snd p =? 0)) pairs in
  let num := sw_num_ordinals w in
  let '(offsets, entries_data, _) :=
    fold_left (write_ordinal with_gaps) (range 0 num) ([], [], pairs) in
  assert_ (#entries_data <=? u32_max) (
    let offsets := offsets ++ [as_u32 #entries_data] in
    let buf := to_le_bytes 4 V2_SENTINEL in
    let buf :=
      if with_gaps
      then buf ++ MAGIC_V2 ++ to_le_bytes 4 num ++ flat_map (to_le_bytes 4) offsets
      else buf ++ MAGIC_V4 ++ to_le_bytes 4 num ++ encode offsets in
    Ret (buf ++ entries_data, {| sw_pairs := pairs; sw_num_ordinals := num |})).

(** [struct SiblingTableReader]. *)
Record SiblingTableReader := {
  sr_num_ordinals : Z;
  sr_offsets : OffsetTable;
  sr_entries_data : list Z;
  sr_v2 : bool;
  sr_no_gaps : bool;
  sr_gmap : option gmap.GmapReader;
}.

Definition open (data : list Z) : out SiblingTableReader :=
  if #data <? 4 then Nothing else
  first ← u32_at data 0;
  let v2 := first =? V2_SENTINEL in
  '(head, no_gaps, block) ←
    (if v2 then
       if #data <? 12 then Nothing else
       m ← slice data 4 8;
       if bytes_eqb m MAGIC_V2 then Ret (12, false, false)
       else if bytes_eqb m MAGIC_V3 then Ret (12, true, false)
       else if bytes_eqb m MAGIC_V4 then Ret (12, true, true)
       else Nothing
     else Ret (4, false, false));
  num_ordinals ← u32_at data (head - 4);
  '(offsets, entries_data) ←
    (if (block : bool) then
       tail ← slice_from data head;
       '(table, used) ← parse tail;
       if negb (bo_num table =? add32 num_ordinals 1) then Nothing else
       entries ← slice_from data (head + used);
       Ret (Block table, entries)
     else
       let offsets_size := (num_ordinals + 1) * 4 in
       if #data <? head + offsets_size then Nothing else
       flat ← slice data head (head + offsets_size);
       entries ← slice_from data (head + offsets_size);
       Ret (Flat flat, entries));
  Ret {| sr_num_ordinals := num_ordinals; sr_offsets := offsets; sr_entries_data := entries_data;
         sr_v2 := v2; sr_no_gaps := no_gaps; sr_gmap := None |}.

Definition with_gmap (r : SiblingTableReader) (g : gmap.GmapReader) : SiblingTableReader :=
  {| sr_num_ordinals := sr_num_ordinals r; sr_offsets := sr_offsets r;
     sr_entries_data := sr_entries_data r; sr_v2 := sr_v2 r; sr_no_gaps := sr_no_gaps r;
     sr_gmap := Some g |}.

Definition read_offset (r : SiblingTableReader) (idx : Z) : out Z :=
  OffsetTable_get (sr_offsets r) idx.

(** The three decoding loops of [siblings_local], each over [slice] from
    [pos] with the entries read so far.  Every iteration reads at least one
    byte, so the length of the slice bounds their number. *)
Fixpoint decode_no_gaps (fuel : nat) (slice : list Z) (pos next : Z) (entries : list SiblingEntry)
    : out (list SiblingEntry) :=
  if pos <? #slice then
    match fuel with
    | O => OutOfFuel
    | S fuel =>
        v ← catch (read_varint slice pos);
        match v with
        | None => Ret entries
        | Some (delta, pos) =>
            if u32_max <? delta then Ret entries else
            let next := add32 next delta in
            decode_no_gaps fuel slice pos next
              (entries ++ [{| next_ordinal := next; gap_len := 0 |}])
        end
    end
  else Ret entries.

Fixpoint decode_gaps (fuel : nat) (slice : list Z) (pos next : Z) (entries : list SiblingEntry)
    : out (list SiblingEntry) :=
  if pos <? #slice then
    match fuel with
    | O => OutOfFuel
    | S fuel =>
        v ← catch (read_varint slice pos);
        match v with
        | None => Ret entries
        | Some (token, pos) =>
            if u32_max <? Z.shiftr token 1 then Ret entries else
            let next := add32 next (Z.shiftr token 1) in
            g ← (if Z.land token 1 =? 1 then
                   g ← catch (read_varint slice pos);
                   Ret (match g with
                        | Some (g, pos) => if g <=? u16_max then Some (g, pos) else None
                        | None => None
                        end)
                 else Ret (Some (0, pos)));
            match g with
            | None => Ret entries
            | Some (gap, pos) =>
                decode_gaps fuel slice pos next
                  (entries ++ [{| next_ordinal := next; gap_len := gap |}])
            end
        end
    end
  else Ret entries.

Fixpoint decode_v1 (fuel : nat) (slice : list Z) (pos : Z) (entries : list SiblingEntry)
    : out (list SiblingEntry) :=
  if pos + V1_ENTRY_SIZE <=? #slice then
    match fuel with
    | O => OutOfFuel
    | S fuel =>
        next ← u32_at slice pos;
        gap ← u16_at slice (pos + 4);
        decode_v1 fuel slice (pos + V1_ENTRY_SIZE)
          (entries ++ [{| next_ordinal := next; gap_len := gap |}])
    end
  else Ret entries.

(** [siblings_local]. *)
Definition siblings_local (r : SiblingTableReader) (ordinal : Z) : out (list SiblingEntry) :=
  if sr_num_ordinals r <=? ordinal then Ret [] else
  start ← read_offset r ordinal;
  end_ ← read_offset r (ordinal + 1);
  if (end_ <=? start) || (#(sr_entries_data r) <=? start) then Ret [] else
  sl ← slice (sr_entries_data r) start (Z.min end_ #(sr_entries_data r));
  if sr_no_gaps r then decode_no_gaps (length sl) sl 0 0 []
  else if sr_v2 r then decode_gaps (length sl) sl 0 0 []
  else decode_v1 (length sl) sl 0 [].

(** [siblings]: global ids in and out on a dictionary segment. *)
Definition siblings (r : SiblingTableReader) (ordinal : Z) : out (list SiblingEntry) :=
  match sr_gmap r with
  | None => siblings_local r ordinal
  | Some g =>
      o ← catch (gmap.local g ordinal);
      match o with
      | None => Ret []
      | Some ordinal =>
          entries ← siblings_local r ordinal;
          mapM_out (λ e, n ← gmap.global g (next_ordinal e);
                         Ret {| next_ordinal := n; gap_len := gap_len e |}) entries
      end
  end.

(** [contiguous_siblings]. *)
Definition contiguous_siblings (r : SiblingTableReader) (ordinal : Z) : out (list Z) :=
  entries ← siblings r ordinal;
  Ret (map next_ordinal (List.filter (λ e, gap_len e =? 0) entries)).

Definition has_no_gaps (r : SiblingTableReader) : bool := sr_no_gaps r.

End sibling_table.
Import sibling_table.

#[export] Instance SiblingEntry_eq_dec : EqDecision SiblingEntry.
Proof. solve_decision. Defined.
#[export] Instance pair_key_inj : Inj (=) (=) pair_key.
Proof. intros [[o n] g] [[o' n'] g'] H. simpl in H. by simplify_eq. Qed.

(** ** Specification *)

Definition pair_ok (p : pair) : Prop :=
  let '(o, n, g) := p in fits 32 o ∧ fits 32 n ∧ fits 16 g.

(** The successors of an ordinal, in the order of the pairs. *)
Definition entry_of (p : pair) : SiblingEntry :=
  let '(_, n, g) := p in {| next_ordinal := n; gap_len := g |}.
Definition of_ordinal (ord : Z) (p : pair) : bool := fst (fst p) =? ord.
Definition links (pairs : list pair) (ord : Z) : list SiblingEntry :=
  map entry_of (List.filter (of_ordinal ord) pairs).

Definition entry_key (e : SiblingEntry) : list Z := [next_ordinal e; gap_len e].

(** The bytes of a list of entries, from the successor before them. *)
Fixpoint run_bytes (with_gaps : bool) (prev : Z) (es : list SiblingEntry) : list Z :=
  match es with
  | [] => []
  | e :: es =>
      write_entry with_gaps [] prev (next_ordinal e) (gap_len e)
        ++ run_bytes with_gaps (next_ordinal e) es
  end.

(** ** Entries *)

Lemma write_entry_app wg data prev n g :
  write_entry wg data prev n g = data ++ write_entry wg [] prev n g.
Proof.
  unfold write_entry. destruct wg, (g =? 0); rewrite !write_varint_app, ?app_nil_l; try done.
  by rewrite <- app_assoc.
Qed.

Definition entry_ok (e : SiblingEntry) : Prop := fits 32 (next_ordinal e) ∧ fits 16 (gap_len e).

(** The token of an entry with a gap bit. *)
Lemma gap_token delta (b : bool) :
  let token := Z.lor (Z.shiftl delta 1) (if b then 0 else 1) in
  fits 32 delta →
  fits 64 token ∧ Z.shiftr token 1 = delta ∧ Z.land token 1 = if b then 0 else 1.
Proof.
  intros token Hd.
  assert (token = 2 * delta + if b then 0 else 1) as ->.
  { unfold token. rewrite Z.lor_comm, lor_shiftl_add; destruct b; lia. }
  rewrite Z.shiftr_div_pow2 by lia. change (2 ^ 1) with 2.
  set (t := 2 * delta + _). assert (Z.land t 1 = t mod 2) as -> by (by apply (Z.land_ones t 1)).
  unfold t.
  split; [widths; destruct b; lia|].
  split; [symmetry; apply Z.div_unique with (if b then 0 else 1); destruct b; lia|].
  symmetry; apply Z.mod_unique with delta; destruct b; lia.
Qed.

Lemma decode_no_gaps_run es sl pos prev acc fuel :
  Forall entry_ok es → Forall (λ e, gap_len e = 0) es →
  At sl pos (run_bytes false prev es) → (length (run_bytes false prev es) ≤ fuel)%nat →
  decode_no_gaps fuel sl pos prev acc = Ret (acc ++ es).
Proof.
  revert pos prev acc fuel. induction es as [|e es IH]; intros pos prev acc fuel Hok Hg Hat Hf.
  - pose proof (At_end _ _ Hat). destruct fuel; simpl; replace (_ <? _) with false by lia;
      by rewrite app_nil_r.
  - inversion Hok as [|? ? [Hn Hgap] Hok']; subst. inversion Hg as [|? ? Hg0 Hg']; subst.
    cbn [run_bytes] in Hat, Hf. unfold write_entry in Hat, Hf.
    rewrite write_varint_app, app_nil_l in Hat, Hf.
    pose proof (sub32_fits (next_ordinal e) prev) as Hd.
    assert (fits 64 (sub32 (next_ordinal e) prev)) as Hd64 by (widths; lia).
    pose proof (len_varint_pos _ Hd64) as Hpos. pose proof (At_len _ _ _ Hat) as Hlen.
    rewrite len_app in Hlen. rewrite length_app in Hf.
    pose proof (len_nonneg (run_bytes false (next_ordinal e) es)).
    destruct fuel as [|fuel]; [unfold len in *; lia|]. cbn [decode_no_gaps].
    replace (_ <? _) with true by lia. rewrite (read_varint_at _ _ _ _ Hd64 Hat).
    cbn [catch]. rewrite bind_ret. replace (_ <? _) with false by (widths; lia).
    rewrite add_sub32 by done. apply At_skip in Hat.
    rewrite IH; [|done..|unfold len in *; lia].
    rewrite <- app_assoc. destruct e as [n g]. simpl in *. by subst.
Qed.

Lemma decode_gaps_run es sl pos prev acc fuel :
  Forall entry_ok es →
  At sl pos (run_bytes true prev es) → (length (run_bytes true prev es) ≤ fuel)%nat →
  decode_gaps fuel sl pos prev acc = Ret (acc ++ es).
Proof.
  revert pos prev acc fuel. induction es as [|e es IH]; intros pos prev acc fuel Hok Hat Hf.
  - pose proof (At_end _ _ Hat). destruct fuel; simpl; replace (_ <? _) with false by lia;
      by rewrite app_nil_r.
  - inversion Hok as [|? ? [Hn Hgap] Hok']; subst.
    cbn [run_bytes] in Hat, Hf. unfold write_entry in Hat, Hf.
    rewrite !write_varint_app, !app_nil_l in Hat, Hf.
    pose proof (sub32_fits (next_ordinal e) prev) as Hd.
    destruct (gap_token (sub32 (next_ordinal e) prev) (gap_len e =? 0) Hd) as (Ht64 & Hsh & Hld).
    set (token := Z.lor _ _) in *. pose proof (len_varint_pos _ Ht64) as Hpos.
    assert (∃ tail, At sl pos (varint_bytes token ++ tail) ∧
      (if gap_len e =? 0 then tail = run_bytes true (next_ordinal e) es
       else tail = varint_bytes (gap_len e) ++ run_bytes true (next_ordinal e) es) ∧
      (S (length (run_bytes true (next_ordinal e) es)) ≤ fuel)%nat) as (tail & Hat' & Htail & Hf').
    { destruct (gap_len e =? 0); rewrite <- ?app_assoc in Hat; eexists; split_and!;
        [exact Hat|done| |exact Hat|done|]; rewrite !length_app in Hf; unfold len in *; lia. }
    pose proof (At_len _ _ _ Hat') as Hlen. rewrite len_app in Hlen. pose proof (len_nonneg tail).
    destruct fuel as [|fuel]; [lia|]. cbn [decode_gaps].
    replace (_ <? _) with true by lia. rewrite (read_varint_at _ _ _ _ Ht64 Hat').
    cbn [catch]. rewrite bind_ret. rewrite Hsh, Hld, add_sub32 by done.
    replace (_ <? _) with false by (widths; lia). apply At_skip in Hat'.
    assert (acc ++ e :: es = (acc ++ [{| next_ordinal := next_ordinal e; gap_len := gap_len e |}]) ++ es)
      as -> by (rewrite <- app_assoc; by destruct e).
    destruct (gap_len e =? 0) eqn:E; subst tail.
    + cbn. rewrite IH; [|done..|lia]. by replace (gap_len e) with 0 by lia.
    + assert (fits 64 (gap_len e)) as Hg64 by (widths; lia).
      cbn [Z.eqb Pos.eqb]. rewrite (read_varint_at _ _ _ _ Hg64 Hat'). cbn [catch].
      rewrite !bind_ret. replace (_ <=? _) with true by (widths; lia).
      apply At_skip in Hat'. by rewrite IH; [|done..|lia].
Qed.

(** ** Writing *)

Definition sorted_pairs (ps : list pair) : Prop := StronglySorted (key_le pair_key) ps.

Lemma key_le_ordinal p q : key_le pair_key p q → fst (fst p) ≤ fst (fst q).
Proof. destruct p as [[o n] g], q as [[o' n'] g']. unfold key_le. simpl. lia. Qed.

Lemma sorted_filter f ps : sorted_pairs ps → sorted_pairs (List.filter f ps).
Proof.
  induction 1 as [|p ps Hps IH Hp]; [constructor|]. simpl. destruct (f p); [|done].
  constructor; [done|]. rewrite Forall_forall in *. intros q Hq. apply Hp.
  rewrite list_elem_of_In in *. by apply filter_In in Hq as [Hq _].
Qed.

(** The run of an ordinal is the pairs of that ordinal, all of them. *)
Lemma write_run_spec wg ord ps prev data :
  sorted_pairs ps → Forall (λ p, ord ≤ fst (fst p)) ps →
  write_run wg ord prev ps data =
    (data ++ run_bytes wg prev (links ps ord), List.filter (λ p, negb (of_ordinal ord p)) ps).
Proof.
  revert prev data. induction ps as [|[[o n] g] ps IH]; intros prev data Hs Hge.
  { simpl. by rewrite app_nil_r. }
  apply StronglySorted_cons in Hs as [Hp Hs]. apply Forall_cons in Hge as [Hge Hges]. simpl in Hge.
  unfold links, of_ordinal. cbn [write_run List.filter map fst]. destruct (o =? ord) eqn:E; simpl.
  - rewrite IH by done. rewrite write_entry_app, <- app_assoc. by destruct ps.
  - assert (List.filter (of_ordinal ord) ps = [] ∧
      List.filter (λ p, negb (of_ordinal ord p)) ps = ps) as [Hnil Hall].
    { clear IH Hs. induction ps as [|q ps IHps]; [done|].
      apply Forall_cons in Hp as [Hq Hp]. apply Forall_cons in Hges as [Hge' Hges].
      apply key_le_ordinal in Hq. simpl in *. destruct (IHps Hp Hges) as [-> ->].
      unfold of_ordinal. by replace (_ =? ord) with false by lia. }
    unfold of_ordinal in *. rewrite Hnil, Hall. simpl. by rewrite app_nil_r.
Qed.

(** The regions of the ordinals [a..b). *)
Definition regions (wg : bool) (ps : list pair) (a b : Z) : list (list Z) :=
  map (λ ord, run_bytes wg 0 (links ps ord)) (range a b).

Lemma write_ordinals_spec wg (n : nat) a ps offs data :
  sorted_pairs ps → Forall (λ p, a ≤ fst (fst p)) ps →
  ∃ offs' data' ps',
    fold_left (write_ordinal wg) (range a (a + Z.of_nat n)) (offs, data, ps) = (offs', data', ps') ∧
    offs' ++ [as_u32 #data'] =
      offs ++ map as_u32 (prefix_sums #data (regions wg ps a (a + Z.of_nat n))) ∧
    data' = data ++ concat (regions wg ps a (a + Z.of_nat n)).
Proof.
  unfold regions. revert a ps offs data. induction n as [|n IH]; intros a ps offs data Hs Hge.
  { rewrite range_nil by lia. exists offs, data, ps. simpl. by rewrite app_nil_r. }
  rewrite range_cons by lia. cbn [fold_left write_ordinal]. rewrite write_run_spec by done.
  set (ps1 := List.filter (λ p, negb (of_ordinal a p)) ps).
  replace (a + Z.of_nat (S n)) with (a + 1 + Z.of_nat n) by lia.
  destruct (IH (a + 1) ps1 (offs ++ [as_u32 #data]) (data ++ run_bytes wg 0 (links ps a)))
    as (offs' & data' & ps' & -> & Ho & ->).
  - by apply sorted_filter.
  - rewrite Forall_forall in *. intros p Hp. unfold ps1 in Hp. rewrite list_elem_of_In in Hp.
    apply filter_In in Hp as [Hin Hne]. apply list_elem_of_In, Hge in Hin.
    unfold of_ordinal in Hne. lia.
  - assert (map (λ ord, run_bytes wg 0 (links ps1 ord)) (range (a + 1) (a + 1 + Z.of_nat n)) =
      map (λ ord, run_bytes wg 0 (links ps ord)) (range (a + 1) (a + 1 + Z.of_nat n))) as Heq.
    { apply map_ext_in. intros ord Hord%list_elem_of_In%elem_of_range. f_equal. unfold links, ps1.
      f_equal. clear -Hord. induction ps as [|p ps IH]; [done|]. simpl. unfold of_ordinal in *.
      destruct (_ =? a) eqn:E1; simpl; destruct (_ =? ord) eqn:E2; simpl; rewrite ?IH; try done; lia. }
    rewrite Heq in *. eexists _, _, _. split; [done|]. cbn [map prefix_sums concat].
    rewrite Ho. rewrite len_app, <- !app_assoc. done.
Qed.

(** ** Opening *)

(** The pairs [serialize] writes, their layout and their regions. *)
Definition sorted_unique (w : SiblingTableWriter) : list pair :=
  dedup (sort_by pair_key (sw_pairs w)).
Definition has_gaps (w : SiblingTableWriter) : bool :=
  existsb (λ p, negb (snd p =? 0)) (sorted_unique w).
Definition all_regions (w : SiblingTableWriter) : list (list Z) :=
  regions (has_gaps w) (sorted_unique w) 0 (sw_num_ordinals w).

(** What the 32-bit fields of the file can hold. *)
Record table_fits (w : SiblingTableWriter) : Prop := {
  tf_pairs : Forall pair_ok (sw_pairs w);
  tf_num : 0 ≤ sw_num_ordinals w < u32_max;
  tf_data : #(concat (all_regions w)) ≤ u32_max;
  tf_table : #(encode (prefix_sums 0 (all_regions w))) < 2 ^ 32;
}.

Lemma elem_of_sorted_unique w p : p ∈ sorted_unique w ↔ p ∈ sw_pairs w.
Proof. unfold sorted_unique. by rewrite elem_of_dedup, elem_of_sort_by. Qed.

Lemma sorted_unique_sorted w : StronglySorted (key_lt pair_key) (sorted_unique w).
Proof. apply dedup_sorted; [apply _|]. apply sort_by_sorted. Qed.

Lemma sorted_lt_le ps : StronglySorted (key_lt pair_key) ps → sorted_pairs ps.
Proof.
  induction 1 as [|p ps H IH Hp]; constructor; auto.
  rewrite Forall_forall in *. intros q Hq. by apply Hp.
Qed.

Lemma run_bytes_nil wg prev es : Forall entry_ok es → run_bytes wg prev es = [] → es = [].
Proof.
  destruct es as [|e es]; [done|]. intros Hok H. exfalso. cbn [run_bytes] in H.
  apply app_eq_nil in H as [H _]. apply (f_equal len) in H. unfold write_entry in H.
  pose proof (sub32_fits (next_ordinal e) prev) as Hd.
  destruct (gap_token (sub32 (next_ordinal e) prev) (gap_len e =? 0) Hd) as (Ht & _ & _).
  assert (fits 64 (sub32 (next_ordinal e) prev)) as Hd64 by (widths; lia).
  pose proof (len_varint_pos _ Ht). pose proof (len_varint_pos _ Hd64).
  destruct wg, (gap_len e =? 0); rewrite !write_varint_app in H; lens;
    try pose proof (len_nonneg (varint_bytes (gap_len e))); lia.
Qed.

Section Open.
Context (w : SiblingTableWriter).
Hypothesis ok : table_fits w.
Let num := sw_num_ordinals w.
Let rs := all_regions w.

Lemma len_rs : #rs = num.
Proof using ok.
  unfold rs, all_regions, regions. pose proof (tf_num _ ok). rewrite len_map, len_range; lia.
Qed.

Lemma offsets_encodable : encodable (prefix_sums 0 rs).
Proof using ok.
  pose proof (tf_num _ ok). pose proof (tf_data _ ok : #(concat rs) ≤ u32_max). split.
  - apply prefix_sums_bound; [lia|]. widths. lia.
  - apply prefix_sums_nondecreasing.
  - apply (tf_table _ ok).
  - rewrite len_prefix_sums, len_rs. widths. unfold num. lia.
Qed.

Lemma serialize_spec :
  serialize w = Ret (to_le_bytes 4 V2_SENTINEL
      ++ (if has_gaps w
          then MAGIC_V2 ++ to_le_bytes 4 num ++ flat_map (to_le_bytes 4) (prefix_sums 0 rs)
          else MAGIC_V4 ++ to_le_bytes 4 num ++ encode (prefix_sums 0 rs))
      ++ concat rs,
    {| sw_pairs := sorted_unique w; sw_num_ordinals := num |}).
Proof using ok.
  unfold serialize. fold (sorted_unique w). fold (has_gaps w).
  pose proof (tf_num _ ok) as Hn. pose proof (tf_data _ ok) as Hd.
  destruct (write_ordinals_spec (has_gaps w) (Z.to_nat num) 0 (sorted_unique w) [] [])
    as (offs & data & ps & Hfold & Ho & Hdata).
  - apply sorted_lt_le, sorted_unique_sorted.
  - rewrite Forall_forall. intros p Hp%elem_of_sorted_unique.
    pose proof (tf_pairs _ ok) as Hok. rewrite Forall_forall in Hok. apply Hok in Hp.
    destruct p as [[o n] g]. destruct Hp as [[Hp _] _]. done.
  - replace (0 + Z.of_nat (Z.to_nat num)) with num in Hfold, Ho, Hdata by (unfold num; lia).
    fold num. rewrite Hfold. rewrite app_nil_l in Hdata.
    change (regions _ _ 0 num) with rs in Hdata, Ho.
    subst data. fold rs in Hd. unfold assert_. replace (_ <=? _) with true by lia.
    rewrite Ho, app_nil_l. change (#([] : list Z)) with 0.
    assert (map as_u32 (prefix_sums 0 rs) = prefix_sums 0 rs) as ->.
    { rewrite <- map_id. apply map_ext_in. intros v Hv%list_elem_of_In. apply Z.mod_small.
      pose proof (enc_u32 _ offsets_encodable) as Hu. rewrite Forall_forall in Hu. by apply Hu. }
    destruct (has_gaps w); by rewrite <- !app_assoc.
Qed.

(** The reader the written file opens to. *)
Definition reader_of (gm : option gmap.GmapReader) : SiblingTableReader :=
  {| sr_num_ordinals := num;
     sr_offsets := if has_gaps w then Flat (flat_map (to_le_bytes 4) (prefix_sums 0 rs))
                   else Block (table_of (prefix_sums 0 rs));
     sr_entries_data := concat rs;
     sr_v2 := true;
     sr_no_gaps := negb (has_gaps w);
     sr_gmap := gm |}.

Lemma open_sibling_file :
  ∃ buf, serialize w = Ret (buf, {| sw_pairs := sorted_unique w; sw_num_ordinals := num |}) ∧
    open buf = Ret (reader_of None).
Proof using ok.
  eexists. split; [apply serialize_spec|]. pose proof (tf_num _ ok) as Hn. fold num in Hn.
  unfold open, reader_of. destruct (has_gaps w).
  - rewrite <- !app_assoc.
    match goal with |- context [len ?x <? 4] =>
      destruct (cursor_open x) as (data & Hd & Hat); rewrite <- Hd end.
    assert (#(flat_map (to_le_bytes 4) (prefix_sums 0 rs)) = (num + 1) * 4) as Ho
      by (rewrite len_table, len_prefix_sums, len_rs; lia).
    assert (#data = 12 + (num + 1) * 4 + #(concat rs)) as Hlen.
    { subst data. rewrite !len_app, Ho, !len_to_le_bytes. change (#MAGIC_V2) with 4. lia. }
    pose proof (len_nonneg (concat rs)). rewrite Hlen. replace (_ <? 4) with false by lia.
    read_u32 Hat. rewrite Z.eqb_refl. replace (_ <? 12) with false by lia.
    rewrite (At_slice _ _ _ _ _ Hat), bind_ret by done. apply At_skip in Hat.
    change (4 + #MAGIC_V2) with 8 in Hat. change (bytes_eqb MAGIC_V2 MAGIC_V2) with true.
    cbv iota. rewrite bind_ret. cbv beta iota. change (12 - 4) with 8. widths. read_u32 Hat.
    change (8 + 4) with 12 in Hat. replace (_ <? 12 + _) with false by lia.
    rewrite (At_slice _ _ _ _ _ Hat), bind_ret by lia. apply At_skip in Hat. rewrite Ho in Hat.
    by rewrite (At_slice_from _ _ _ Hat).
  - pose proof offsets_encodable as He. set (tab := encode (prefix_sums 0 rs)) in *.
    rewrite <- !app_assoc.
    match goal with |- context [len ?x <? 4] =>
      destruct (cursor_open x) as (data & Hd & Hat); rewrite <- Hd end.
    assert (#data = 12 + #tab + #(concat rs)) as Hlen.
    { subst data. rewrite !len_app, !len_to_le_bytes. change (#MAGIC_V4) with 4. lia. }
    pose proof (len_nonneg (concat rs)). pose proof (len_nonneg tab).
    rewrite Hlen. replace (_ <? 4) with false by lia.
    read_u32 Hat. rewrite Z.eqb_refl. replace (_ <? 12) with false by lia.
    rewrite (At_slice _ _ _ _ _ Hat), bind_ret by done. apply At_skip in Hat.
    change (4 + #MAGIC_V4) with 8 in Hat. change (bytes_eqb MAGIC_V4 MAGIC_V4) with true.
    change (bytes_eqb MAGIC_V4 MAGIC_V2) with false. change (bytes_eqb MAGIC_V4 MAGIC_V3) with false.
    cbv iota. rewrite bind_ret. cbv beta iota. change (12 - 4) with 8. widths. read_u32 Hat.
    change (8 + 4) with 12 in Hat. rewrite (At_slice_from _ _ _ Hat), bind_ret.
    unfold tab. rewrite (parse_encode _ _ He), bind_ret. cbv beta iota. fold tab.
    change (bo_num (table_of _)) with #(prefix_sums 0 rs). rewrite len_prefix_sums, len_rs.
    unfold add32, as_u32. rewrite Z.mod_small by lia. rewrite Z.eqb_refl. simpl negb. cbv iota.
    apply At_skip in Hat. by rewrite (At_slice_from _ _ _ Hat).
Qed.

Lemma read_sibling_offset gm (k : nat) :
  (k ≤ length rs)%nat → read_offset (reader_of gm) (Z.of_nat k) = Ret #(concat (take k rs)).
Proof using ok.
  intros Hk. pose proof offsets_encodable as He.
  assert (prefix_sums 0 rs !! Z.to_nat (Z.of_nat k) = Some #(concat (take k rs))) as Hl.
  { rewrite Nat2Z.id. by rewrite prefix_sums_lookup by done. }
  unfold read_offset, reader_of. cbn [sr_offsets]. destruct (has_gaps w).
  - pose proof (flat_represents (prefix_sums 0 rs) [] (enc_u32 _ He)) as Hr.
    rewrite app_nil_r in Hr. apply Hr; [lia|done].
  - apply (get_table_of _ He); [lia|done].
Qed.

Lemma links_ok ord : Forall entry_ok (links (sorted_unique w) ord).
Proof using ok.
  unfold links. rewrite Forall_forall. intros e He. apply list_elem_of_In, in_map_iff in He as (p & <- & Hp).
  apply filter_In in Hp as [Hp _]. apply list_elem_of_In, elem_of_sorted_unique in Hp.
  pose proof (tf_pairs _ ok) as Hok. rewrite Forall_forall in Hok. apply Hok in Hp.
  destruct p as [[o n] g]. by destruct Hp as (_ & Hn & Hg).
Qed.

Lemma links_no_gaps ord :
  has_gaps w = false → Forall (λ e, gap_len e = 0) (links (sorted_unique w) ord).
Proof using.
  intros Hg. unfold links. rewrite Forall_forall. intros e He.
  apply list_elem_of_In, in_map_iff in He as (p & <- & Hp). apply filter_In in Hp as [Hp _].
  destruct p as [[o n] g]. simpl. destruct (decide (g = 0)); [done|]. exfalso.
  assert (has_gaps w = true); [|congruence]. unfold has_gaps. apply existsb_exists.
  exists (o, n, g). split; [done|]. simpl. lia.
Qed.

Lemma siblings_local_reader gm (ord : Z) :
  0 ≤ ord → siblings_local (reader_of gm) ord =
    Ret (if ord <? num then links (sorted_unique w) ord else []).
Proof using ok.
  intros Hord. unfold siblings_local. change (sr_num_ordinals _) with num.
  destruct (num <=? ord) eqn:E; [by replace (ord <? num) with false by lia|].
  replace (ord <? num) with true by lia. pose proof len_rs as Hlen.
  rewrite <- (Z2Nat.id ord) by lia. set (k := Z.to_nat ord) in *.
  assert (rs !! k = Some (run_bytes (has_gaps w) 0 (links (sorted_unique w) ord))) as Hk.
  { unfold rs, all_regions, regions. apply lookup_map with (a := ord).
    unfold range. apply lookup_seqZ. fold num. unfold k. lia. }
  assert (Z.of_nat k = ord) as Hko by (unfold k; lia).
  rewrite (read_sibling_offset gm k), bind_ret by (unfold len in *; lia).
  replace (Z.of_nat k + 1) with (Z.of_nat (S k)) by lia.
  rewrite (read_sibling_offset gm (S k)), bind_ret by (unfold len in *; lia).
  pose proof (len_concat_take_le rs (S k)) as Hle.
  assert (#(concat (take (S k) rs)) =
    #(concat (take k rs)) + #(run_bytes (has_gaps w) 0 (links (sorted_unique w) ord))) as HS
    by (by rewrite (concat_take_S _ _ _ Hk), len_app).
  change (sr_entries_data _) with (concat rs). rewrite Hko.
  pose proof (len_nonneg (run_bytes (has_gaps w) 0 (links (sorted_unique w) ord))).
  destruct (_ || _) eqn:Eempty.
  { f_equal. symmetry. apply run_bytes_nil with (has_gaps w) 0; [apply links_ok|].
    apply length_zero_iff_nil. unfold len in *. lia. }
  rewrite Z.min_l by lia.
  rewrite <- (app_nil_r (concat rs)), (slice_region rs k _ [] _ _ Hk eq_refl eq_refl), bind_ret.
  cbn [reader_of sr_no_gaps sr_v2]. destruct (has_gaps w) eqn:Hg; simpl negb; cbv iota.
  - rewrite (decode_gaps_run (links (sorted_unique w) ord)); [done|apply links_ok|apply At_start|lia].
  - rewrite (decode_no_gaps_run (links (sorted_unique w) ord)); [done|apply links_ok| |apply At_start|lia].
    by apply links_no_gaps.
Qed.

(** What the successors of an ordinal are. *)
Lemma links_spec ord :
  StronglySorted (key_lt entry_key) (links (sorted_unique w) ord) ∧
  ∀ e, e ∈ links (sorted_unique w) ord ↔ (ord, next_ordinal e, gap_len e) ∈ sw_pairs w.
Proof using.
  split.
  - unfold links. pose proof (sorted_unique_sorted w) as Hs.
    induction Hs as [|p ps Hps IH Hp]; [constructor|]. simpl. destruct (of_ordinal ord p) eqn:E; [|done].
    simpl. constructor; [done|]. rewrite Forall_forall. intros e He. rewrite Forall_forall in Hp.
    apply list_elem_of_In, in_map_iff in He as (q & <- & Hq). apply filter_In in Hq as [Hq Eq].
    apply list_elem_of_In, Hp in Hq as [Hle Hne]. destruct p as [[o n] g], q as [[o' n'] g'].
    unfold of_ordinal in *. simpl in E, Eq. assert (o = ord) by lia. assert (o' = ord) by lia. subst.
    unfold key_le in *. simpl in *. split.
    + unfold key_le. simpl. lia.
    + intros Heq. apply Hne. by simplify_eq.
  - intros [n g]. simpl. rewrite <- elem_of_sorted_unique. unfold links.
    rewrite !list_elem_of_In, in_map_iff. setoid_rewrite filter_In. split.
    + intros ([[o' n'] g'] & Heq & Hin & Ho). simpl in Heq. simplify_eq.
      unfold of_ordinal in Ho. simpl in Ho. by assert (o' = ord) as -> by lia.
    + intros Hin. exists (ord, n, g). split_and!; [done|done|]. unfold of_ordinal. simpl. lia.
Qed.
End Open.

(** ** Totality *)

Lemma decode_no_gaps_total fuel sl pos next acc :
  (Z.to_nat (#sl - pos) ≤ fuel)%nat → returns (decode_no_gaps fuel sl pos next acc).
Proof.
  revert pos next acc. induction fuel as [|fuel IH]; intros pos next acc Hf; cbn [decode_no_gaps].
  - by replace (_ <? _) with false by lia.
  - destruct (pos <? #sl) eqn:E; [|done].
    destruct (read_varint_step sl pos) as [->|(v & p & -> & Hp)]; [exact I|].
    cbn [catch]. rewrite bind_ret. destruct (u32_max <? _); [exact I|]. apply IH. lia.
Qed.

Lemma decode_gaps_total fuel sl pos next acc :
  (Z.to_nat (#sl - pos) ≤ fuel)%nat → returns (decode_gaps fuel sl pos next acc).
Proof.
  revert pos next acc. induction fuel as [|fuel IH]; intros pos next acc Hf; cbn [decode_gaps].
  - by replace (_ <? _) with false by lia.
  - destruct (pos <? #sl) eqn:E; [|done].
    destruct (read_varint_step sl pos) as [->|(v & p & -> & Hp)]; [exact I|].
    cbn [catch]. rewrite bind_ret. destruct (u32_max <? _); [exact I|].
    destruct (Z.land v 1 =? 1); [|rewrite bind_ret; apply IH; lia].
    destruct (read_varint_step sl p) as [->|(g & q & -> & Hq)]; [exact I|].
    cbn [catch]. rewrite !bind_ret. destruct (g <=? _); [|exact I]. apply IH. lia.
Qed.

Lemma decode_v1_total fuel sl pos acc :
  0 ≤ pos → (Z.to_nat (#sl - pos) ≤ fuel)%nat → returns (decode_v1 fuel sl pos acc).
Proof.
  unfold V1_ENTRY_SIZE. revert pos acc.
  induction fuel as [|fuel IH]; intros pos acc Hp Hf; cbn [decode_v1]; unfold V1_ENTRY_SIZE.
  - by replace (_ <=? _) with false by lia.
  - destruct (pos + 6 <=? #sl) eqn:E; [|done].
    destruct (le_at_returns 4 sl pos) as [v Hv]; [lia..|].
    destruct (le_at_returns 2 sl (pos + 4)) as [g Hg]; [lia..|].
    change (u32_at sl pos) with (le_at 4 sl pos). change (u16_at sl (pos + 4)) with (le_at 2 sl (pos + 4)).
    rewrite Hv, Hg, !bind_ret. apply IH; lia.
Qed.

Lemma siblings_local_total r ord :
  (∀ i, 0 ≤ i ≤ sr_num_ordinals r → ∃ v, read_offset r i = Ret v ∧ 0 ≤ v) → 0 ≤ ord →
  returns (siblings_local r ord).
Proof.
  intros Hoff Hord. unfold siblings_local. destruct (_ <=? ord) eqn:E; [done|].
  destruct (Hoff ord) as (s & -> & Hs); [lia|]. destruct (Hoff (ord + 1)) as (e & -> & He); [lia|].
  rewrite !bind_ret. destruct (_ || _) eqn:E'; [done|]. pose proof (len_nonneg (sr_entries_data r)).
  destruct (slice_returns (sr_entries_data r) s (Z.min e #(sr_entries_data r))) as [sl ->]; [lia..|].
  rewrite bind_ret. destruct (sr_no_gaps r); [|destruct (sr_v2 r)].
  - apply decode_no_gaps_total. unfold len. lia.
  - apply decode_gaps_total. unfold len. lia.
  - apply decode_v1_total; [lia|]. unfold len. lia.
Qed.

(** A file that opens with a flat table has all of it. *)
Lemma open_flat data r flat :
  bytes_ok data → open data = Ret r → sr_offsets r = Flat flat →
  bytes_ok flat ∧ #flat = (sr_num_ordinals r + 1) * 4 ∧ 0 ≤ sr_num_ordinals r.
Proof.
  intros Hb Ho Hfl. unfold open in Ho. destruct (#data <? 4) eqn:E; [done|].
  apply bind_ret_inv in Ho as (first & _ & Ho). apply bind_ret_inv in Ho as ([[h ng] blk] & _ & Ho).
  apply bind_ret_inv in Ho as (num & Hnum & Ho). apply bind_ret_inv in Ho as ([offs ents] & Hoe & Ho).
  simplify_eq. simpl in *. subst offs. apply (le_at_bound 4) in Hnum as [Hnum _]; [|done].
  destruct blk.
  - apply bind_ret_inv in Hoe as (tail & _ & Hoe). apply bind_ret_inv in Hoe as ([t u] & _ & Hoe).
    destruct (negb _); [done|]. apply bind_ret_inv in Hoe as (en & _ & Hoe). simplify_eq.
  - destruct (#data <? h + _); [done|]. apply bind_ret_inv in Hoe as (fl & Hslice & Hoe).
    apply bind_ret_inv in Hoe as (en & _ & Hoe). simplify_eq.
    split; [by eapply slice_ok|]. apply slice_len in Hslice. lia.
Qed.

(** A written file says its layout in its first bytes, so its entries are
    sums modulo 2^32, whatever the rest of it holds. *)
Lemma open_serialized w buf w' r : serialize w = Ret (buf, w') → open buf = Ret r → sr_v2 r = true ∧ sr_gmap r = None.
Proof.
  intros Hs Ho. assert (∃ tail, buf = to_le_bytes 4 V2_SENTINEL ++ tail) as [tail ->].
  { unfold serialize in Hs. destruct (fold_left _ _ _) as [[offs data] rest]. unfold assert_ in Hs. destruct (_ <=? _); [|done]. injection Hs as <- _. destruct (existsb _ _); rewrite <- app_assoc; eauto. }
  unfold open in Ho. destruct (_ <? 4); [done|]. change u32_at with (le_at 4) in Ho. rewrite (le_at_app_l 4 (to_le_bytes 4 V2_SENTINEL)) in Ho by done.
  change (le_at 4 (to_le_bytes 4 V2_SENTINEL) 0) with (Ret V2_SENTINEL) in Ho. rewrite bind_ret in Ho.
  apply bind_ret_inv in Ho as ([[h ng] blk] & _ & Ho). apply bind_ret_inv in Ho as (num & _ & Ho). apply bind_ret_inv in Ho as ([offs ents] & _ & Ho). by injection Ho as <-.
Qed.

Lemma decode_no_gaps_fits fuel sl : ∀ pos next acc es, Forall (λ e, fits 32 (next_ordinal e)) acc → decode_no_gaps fuel sl pos next acc = Ret es → Forall (λ e, fits 32 (next_ordinal e)) es.
Proof.
  induction fuel as [|fuel IH]; intros pos next acc es Ha; cbn [decode_no_gaps]; destruct (pos <? #sl); try done; try (by intros [= <-]).
  destruct (catch (read_varint sl pos)) as [[[v p]|]| | |]; try done; rewrite bind_ret; [|by intros [= <-]]. destruct (u32_max <? v); [by intros [= <-]|].
  apply IH, Forall_app. split; [done|]. apply Forall_singleton, add32_fits.
Qed.

Lemma decode_gaps_fits fuel sl : ∀ pos next acc es, Forall (λ e, fits 32 (next_ordinal e)) acc → decode_gaps fuel sl pos next acc = Ret es → Forall (λ e, fits 32 (next_ordinal e)) es.
Proof.
  induction fuel as [|fuel IH]; intros pos next acc es Ha; cbn [decode_gaps]; destruct (pos <? #sl); try done; try (by intros [= <-]).
  destruct (catch (read_varint sl pos)) as [[[v p]|]| | |]; try done; rewrite bind_ret; [|by intros [= <-]]. destruct (u32_max <? Z.shiftr v 1); [by intros [= <-]|].
  intros ([[g q]|] & _ & H)%bind_ret_inv; [|by injection H as <-]. eapply IH, H. apply Forall_app. split; [done|]. apply Forall_singleton, add32_fits.
Qed.

Lemma written_siblings_fit w buf w' r ord es : serialize w = Ret (buf, w') → open buf = Ret r → siblings r ord = Ret es → Forall (λ e, fits 32 (next_ordinal e)) es.
Proof.
  intros Hs Ho. destruct (open_serialized _ _ _ _ Hs Ho) as [Hv Hg]. unfold siblings. rewrite Hg. unfold siblings_local. destruct (_ <=? ord); [by intros [= <-]|].
  intros (a & _ & H)%bind_ret_inv. apply bind_ret_inv in H as (b & _ & H). destruct (_ || _); [by injection H as <-|]. apply bind_ret_inv in H as (sl & _ & H). rewrite Hv in H.
  destruct (sr_no_gaps r); [by eapply decode_no_gaps_fits|by eapply decode_gaps_fits].
Qed.

(** ** Properties *)

(** Sibling tables round trip: whatever pairs were added, in any order
    and with repeats, [serialize] returns a file that opens, and [siblings]
    of every ordinal is the strictly increasing list of exactly the
    [(next_ordinal, gap_len)] pairs recorded for it, in the layout with gaps
    and in the one without (chosen by whether any gap is non-zero);
    [contiguous_siblings] is its gapless part. *)
Theorem sibling_roundtrip (w : SiblingTableWriter) :
  table_fits w →
  ∃ buf w' r, serialize w = Ret (buf, w') ∧ open buf = Ret r ∧
    has_no_gaps r = negb (existsb (λ p, negb (snd p =? 0)) (sorted_unique w)) ∧
    ∀ ord, 0 ≤ ord →
      ∃ es, siblings r ord = Ret es ∧ StronglySorted (key_lt entry_key) es ∧
        (∀ e, e ∈ es ↔
           ord < sw_num_ordinals w ∧ (ord, next_ordinal e, gap_len e) ∈ sw_pairs w) ∧
        contiguous_siblings r ord = Ret (map next_ordinal (List.filter (λ e, gap_len e =? 0) es)).
Proof.
  intros Hok. destruct (open_sibling_file w Hok) as (buf & Hser & Hopen).
  eexists buf, _, (reader_of w None). split; [done|]. split; [done|]. split; [done|].
  intros ord Hord. eexists.
  assert (siblings (reader_of w None) ord = Ret _) as Hs by (by apply siblings_local_reader).
  split; [done|]. destruct (links_spec w ord) as [Hsort Hin].
  unfold contiguous_siblings. rewrite Hs, bind_ret. destruct (ord <? _) eqn:E.
  - split_and!; [done| |done]. intros e. rewrite Hin. split; [intros; split; [lia|done]|by intros []].
  - split_and!; [constructor| |done]. intros e. split; [set_solver|]. intros []. lia.
Qed.

Definition sample_writer : SiblingTableWriter :=
  add (add (add (add (new 3) 2 9 0) 0 5 4) 2 9 0) 2 7 0.

Lemma sample_writer_fits : table_fits sample_writer.
Proof.
  split; [by repeat constructor; vm_compute|by vm_compute..].
Qed.

Lemma sibling_roundtrip_witness :
  ∃ buf w' r, serialize sample_writer = Ret (buf, w') ∧ open buf = Ret r ∧
    has_no_gaps r = negb (existsb (λ p, negb (snd p =? 0)) (sorted_unique sample_writer)) ∧
    ∀ ord, 0 ≤ ord →
      ∃ es, siblings r ord = Ret es ∧ StronglySorted (key_lt entry_key) es ∧
        (∀ e, e ∈ es ↔
           ord < sw_num_ordinals sample_writer ∧
           (ord, next_ordinal e, gap_len e) ∈ sw_pairs sample_writer) ∧
        contiguous_siblings r ord = Ret (map next_ordinal (List.filter (λ e, gap_len e =? 0) es)).
Proof. exact (sibling_roundtrip sample_writer sample_writer_fits). Defined.

(** On a dictionary segment the links speak global ids: asked for the
    global id of a local ordinal, [siblings] returns the links of that
    ordinal with each successor renamed to its global id; asked for an id the
    segment does not have, it returns no link. *)
Theorem sibling_global_ids (w : SiblingTableWriter) (g : gmap.GmapReader) (ids : list Z) :
  table_fits w → gmap_over g ids → ids_ok ids →
  Forall (λ p, snd (fst p) < #ids) (sw_pairs w) →
  ∃ buf w' r, serialize w = Ret (buf, w') ∧ open buf = Ret r ∧
    (∀ ord es, 0 ≤ ord < #ids → siblings r ord = Ret es →
       siblings (with_gmap r g) (id_at ids ord) =
         Ret (map (λ e, {| next_ordinal := id_at ids (next_ordinal e); gap_len := gap_len e |}) es)) ∧
    ∀ v, v ∉ ids → siblings (with_gmap r g) v = Ret [].
Proof.
  intros Hok Hg Hids Hnext. destruct (open_sibling_file w Hok) as (buf & Hser & Hopen).
  eexists buf, _, (reader_of w None). split; [done|]. split; [done|].
  change (with_gmap (reader_of w None) g) with (reader_of w (Some g)). split.
  - intros ord es Hord Hes. unfold siblings. cbn [reader_of sr_gmap].
    destruct (local_spec g ids Hg Hids (id_at ids ord)) as [(i & -> & Hi & Hv)|[_ Hno]].
    2: { by specialize (Hno ord Hord). }
    assert (i = ord) as ->.
    { apply id_at_lookup in Hi as Hi'. apply id_at_lookup in Hord as Ho'. rewrite Hv in Hi'.
      pose proof (increasing_inj ids _ _ _ (ids_sorted _ Hids) Hi' Ho'). lia. }
    cbn [catch]. rewrite bind_ret. unfold siblings in Hes. cbn [reader_of sr_gmap] in Hes.
    rewrite siblings_local_reader in Hes |- * by (done || lia). injection Hes as <-.
    rewrite bind_ret. apply mapM_out_pure. intros e He.
    rewrite (global_id_at g ids); [done|done|done|].
    destruct (ord <? _); [|set_solver]. pose proof (links_ok w Hok ord) as Hlo.
    rewrite Forall_forall in Hlo. destruct (Hlo e He) as [[Hlo' _] _].
    apply links_spec in He. rewrite Forall_forall in Hnext. by specialize (Hnext _ He).
  - intros v Hv. unfold siblings. cbn [reader_of sr_gmap].
    destruct (local_spec g ids Hg Hids v) as [(i & -> & Hi & Hiv)|[-> _]]; [|done].
    destruct Hv. apply id_at_lookup in Hi. rewrite Hiv in Hi. by eapply list_elem_of_lookup_2.
Qed.

Lemma sibling_global_ids_witness :
  ∃ buf w' r, serialize sample_writer = Ret (buf, w') ∧ open buf = Ret r ∧
    (∀ ord es, 0 ≤ ord < #sample_ids → siblings r ord = Ret es →
       siblings (with_gmap r (sample_gmap true)) (id_at sample_ids ord) =
         Ret (map (λ e, {| next_ordinal := id_at sample_ids (next_ordinal e);
                           gap_len := gap_len e |}) es)) ∧
    ∀ v, v ∉ sample_ids → siblings (with_gmap r (sample_gmap true)) v = Ret [].
Proof.
  apply (sibling_global_ids sample_writer (sample_gmap true) sample_ids sample_writer_fits).
  - by split; auto.
  - apply sample_ids_ok.
  - by repeat constructor; vm_compute.
Defined.

(** Corrupt data cannot take the reader down: on any bytes that open with
    a flat offset table (the first layout, [SIB2] and [SIB3]), [siblings] of
    every ordinal returns, whatever the offsets and the entries say: it never
    indexes out of range and its loops stop. *)
Theorem sibling_flat_total (data flat : list Z) (r : SiblingTableReader) (ord : Z) :
  bytes_ok data → open data = Ret r → sr_offsets r = Flat flat → 0 ≤ ord →
  returns (siblings r ord).
Proof.
  intros Hb Ho Hfl Hord. destruct (open_flat _ _ _ Hb Ho Hfl) as (Hok & Hlen & Hn).
  assert (sr_gmap r = None) as Hgm.
  { unfold open in Ho. destruct (#data <? 4); [done|].
    apply bind_ret_inv in Ho as (? & _ & Ho). apply bind_ret_inv in Ho as ([[? ?] ?] & _ & Ho).
    apply bind_ret_inv in Ho as (? & _ & Ho). apply bind_ret_inv in Ho as ([? ?] & _ & Ho).
    by simplify_eq. }
  unfold siblings. rewrite Hgm. apply siblings_local_total; [|done].
  intros i Hi. unfold read_offset. rewrite Hfl. cbn [OffsetTable_get].
  destruct (u32_at_ok flat (i * 4)) as (v & Hv & [Hv0 _]); [done|lia..|]. eauto.
Qed.

Lemma sibling_flat_total_witness :
  let data := [2; 0; 0; 0; 0; 0; 0; 0; 200; 0; 0; 0; 6; 0; 0; 0; 1; 2; 3] in
  match open data with
  | Ret r => returns (siblings r 0)
  | _ => False
  end.
Proof.
  apply (sibling_flat_total [2; 0; 0; 0; 0; 0; 0; 0; 200; 0; 0; 0; 6; 0; 0; 0; 1; 2; 3]
    [0; 0; 0; 0; 200; 0; 0; 0; 6; 0; 0; 0]
    {| sr_num_ordinals := 2; sr_offsets := Flat [0; 0; 0; 0; 200; 0; 0; 0; 6; 0; 0; 0];
       sr_entries_data := [1; 2; 3]; sr_v2 := false; sr_no_gaps := false; sr_gmap := None |});
    [by repeat constructor; vm_compute|by vm_compute|by vm_compute|lia].
Defined.
