(* ===== verification/TermTexts.v ===== *)
(** * Term texts ([src/suffix_fst/termtexts_v3.rs], writer and reader)

    [.termtexts]: the text and the metadata of every ordinal.  The writer
    produces layout 3 (block-coded text offsets, four bytes of metadata per
    ordinal, a STATS section, and the ids as runs when the file is one
    generation of a shard dictionary); the reader opens layouts 1, 2 and 3,
    one file or several answered for as one. *)
From S2P Require Import Prelude OffsetTables SectionFile.
Import block_offsets.

(** ** UTF-8 *)

(** [std::str::from_utf8]: the well-formed byte sequences of the Unicode
    standard (no overlong form, no surrogate, nothing above U+10FFFF). *)
Definition cont (b : Z) : bool := (0x80 <=? b) && (b <=? 0xBF).
Definition utf8_2 (a b : Z) : bool := (0xC2 <=? a) && (a <=? 0xDF) && cont b.
Definition utf8_3 (a b c : Z) : bool :=
  (((a =? 0xE0) && (0xA0 <=? b) && (b <=? 0xBF))
   || ((0xE1 <=? a) && (a <=? 0xEC) && cont b)
   || ((a =? 0xED) && (0x80 <=? b) && (b <=? 0x9F))
   || ((0xEE <=? a) && (a <=? 0xEF) && cont b)) && cont c.
Definition utf8_4 (a b c d : Z) : bool :=
  (((a =? 0xF0) && (0x90 <=? b) && (b <=? 0xBF))
   || ((0xF1 <=? a) && (a <=? 0xF3) && cont b)
   || ((a =? 0xF4) && (0x80 <=? b) && (b <=? 0x8F))) && cont c && cont d.

Fixpoint utf8_valid (l : list Z) : bool :=
  match l with
  | [] => true
  | a :: l1 =>
      if a <? 0x80 then utf8_valid l1 else
      match l1 with
      | [] => false
      | b :: l2 =>
          if utf8_2 a b then utf8_valid l2 else
          match l2 with
          | [] => false
          | c :: l3 =>
              if utf8_3 a b c then utf8_valid l3 else
              match l3 with
              | [] => false
              | d :: l4 => if utf8_4 a b c d then utf8_valid l4 else false
              end
          end
      end
  end.

Definition from_utf8 (l : list Z) : out (list Z) :=
  if utf8_valid l then Ret l else Nothing.

(** [slice.partition_point(p)] on a slice where [p] holds of a prefix. *)
Fixpoint partition_point {A} (p : A → bool) (l : list A) : Z :=
  match l with
  | [] => 0
  | a :: l => if p a then 1 + partition_point p l else 0
  end.

Module termtexts.

Definition MAGIC : list Z := [0x54; 0x54; 0x58; 0x33].
Definition VERSION : Z := 3.
Definition SECTION_TEXTS : Z := 1.
Definition SECTION_META : Z := 2.
Definition SECTION_STATS : Z := 3.
Definition SECTION_ENTRIES : Z := 4.
Definition SECTION_ENTRIES3 : Z := 5.
Definition SECTION_IDS : Z := 6.
Definition META_SIZE : Z := 4.
Definition ENTRY_SIZE : Z := 8.
Definition OVERLAP_MASK : Z := 0x0F.
Definition WORD_START_FLAG : Z := 0x10.
Definition WORD_STRIPPED_FLAG : Z := 0x20.
Definition STATS_VERSION : Z := 1.
Definition WORD_SUFFIX_CAP : Z := 256.

(** [struct TermMetaV3]. *)
Record TermMetaV3 := {
  own_len : Z;
  sep_len : Z;
  overlap_len : Z;
  is_word_start : bool;
  is_word_stripped : bool;
}.

(** [struct TermTextsWriterV3]. *)
Record TermTextsWriterV3 := {
  tw_texts : list (list Z);
  tw_metas : list TermMetaV3;
  tw_ids : option (list Z);
}.

Definition new : TermTextsWriterV3 := {| tw_texts := []; tw_metas := []; tw_ids := None |}.

Definition with_ids (w : TermTextsWriterV3) (ids : list Z) : TermTextsWriterV3 :=
  {| tw_texts := tw_texts w; tw_metas := tw_metas w; tw_ids := Some ids |}.

Definition empty_meta : TermMetaV3 :=
  {| own_len := 0; sep_len := 0; overlap_len := 0; is_word_start := false;
     is_word_stripped := false |}.

Definition add (w : TermTextsWriterV3) (ordinal : Z) (text : list Z) (meta : TermMetaV3)
    : TermTextsWriterV3 :=
  let '(texts, metas) :=
    if #(tw_texts w) <=? ordinal
    then (resize (ordinal + 1) [] (tw_texts w), resize (ordinal + 1) empty_meta (tw_metas w))
    else (tw_texts w, tw_metas w) in
  {| tw_texts := set_at ordinal text texts; tw_metas := set_at ordinal meta metas;
     tw_ids := tw_ids w |}.

(** [pack_meta]. *)
Definition pack_meta (m : TermMetaV3) : out (list Z) :=
  assert_ (overlap_len m <=? OVERLAP_MASK) (
    Ret (to_le_bytes 2 (own_len m) ++
         [sep_len m;
          Z.lor (Z.lor (overlap_len m) (if is_word_start m then WORD_START_FLAG else 0))
                (if is_word_stripped m then WORD_STRIPPED_FLAG else 0)])).

Definition stats_section (max_word : Z) : list Z :=
  to_le_bytes 2 max_word ++ to_le_bytes 2 STATS_VERSION.

Definition ids_section (runs : list (Z * Z)) : list Z :=
  fold_left (λ buf r, buf ++ to_le_bytes 4 (fst r) ++ to_le_bytes 4 (snd r)) runs
    (to_le_bytes 4 (as_u32 #runs)).

(** [match runs.last_mut() { Some((start, len)) if *start + *len == id =>
    *len += 1, _ => runs.push((id, 1)) }]. *)
Definition push_run (runs : list (Z * Z)) (id : Z) : list (Z * Z) :=
  match last runs with
  | Some (start, len) =>
      if add32 start len =? id
      then set_at (#runs - 1) (start, add32 len 1) runs
      else runs ++ [(id, 1)]
  | None => runs ++ [(id, 1)]
  end.

(** [own_len.saturating_sub(sep_len)]: the content of a word. *)
Definition content_len (m : TermMetaV3) : Z := saturating_sub (own_len m) (sep_len m).

(** [.filter(is_word_stripped).map(content).max().unwrap_or(0)]. *)
Definition max_word (metas : list TermMetaV3) : Z :=
  fold_left Z.max (map content_len (List.filter is_word_stripped metas)) 0.

(** [serialize_entries]. *)
Definition serialize_entries (w : TermTextsWriterV3) : out (list Z) :=
  let num := as_u32 #(tw_texts w) in
  let '(offsets, offset) := fold_left (λ st text,
      let '(offsets, offset) := st in
      (offsets ++ [offset], add32 offset (as_u32 #text))) (tw_texts w) ([], 0) in
  let offsets := offsets ++ [offset] in
  let table := encode offsets in
  let buf := to_le_bytes 4 num ++ table in
  buf ← foldM (λ buf m, p ← pack_meta m; Ret (buf ++ p)) buf (tw_metas w);
  Ret (fold_left (λ buf text, buf ++ text) (tw_texts w) buf).

(** [serialize]. *)
Definition serialize (w : TermTextsWriterV3) : out (list Z) :=
  let file := section_file.new MAGIC VERSION in
  entries ← serialize_entries w;
  let '(file, _) := section_file.add_section file SECTION_ENTRIES3 entries in
  let '(file, _) :=
    section_file.add_section file SECTION_STATS (stats_section (max_word (tw_metas w))) in
  let file := match tw_ids w with
    | Some ids =>
        let runs := fold_left push_run ids [] in
        fst (section_file.add_section file SECTION_IDS (ids_section runs))
    | None => file
    end in
  Ret (section_file.serialize file).

(** [struct TermTextsReaderV3]: one file, and the further files answered for
    as one ([more], which hold no [more] of their own). *)
Record Part := {
  tp_num_terms : Z;
  tp_id_runs : option (list (Z * Z * Z));
  tp_text_offsets : option BlockOffsets;
  tp_entries : list Z;
  tp_stride : Z;
  tp_text_data : list Z;
  tp_legacy_meta : option (list Z * Z);
  tp_max_word_content_len : option Z;
}.
Record TermTextsReaderV3 := { tr_first : Part; tr_more : list Part }.

(** The three layouts [open] tries in turn: term count, entries, stride,
    texts, the META section of layout 1, the block table of layout 3. *)
Definition open_entries (file : section_file.SectionFileReader)
    : out (Z * list Z * Z * list Z * option (list Z * Z) * option BlockOffsets) :=
  raw3 ← catch (section_file.get_section file SECTION_ENTRIES3);
  match raw3 with
  | Some raw =>
      if #raw <? 4 then Nothing else
      num_terms ← u32_at raw 0;
      tail ← slice_from raw 4;
      '(table, used) ← parse tail;
      if negb (bo_num table =? add32 num_terms 1) then Nothing else
      let meta_start := 4 + used in
      let meta_end := meta_start + num_terms * META_SIZE in
      if #raw <? meta_end then Nothing else
      entries ← slice raw meta_start meta_end;
      texts ← slice_from raw meta_end;
      Ret (num_terms, entries, META_SIZE, texts, None, Some table)
  | None =>
  raw2 ← catch (section_file.get_section file SECTION_ENTRIES);
  match raw2 with
  | Some raw =>
      if #raw <? 4 then Nothing else
      num_terms ← u32_at raw 0;
      let table := (num_terms + 1) * ENTRY_SIZE in
      if #raw <? 4 + table then Nothing else
      entries ← slice raw 4 (4 + table);
      texts ← slice_from raw (4 + table);
      Ret (num_terms, entries, ENTRY_SIZE, texts, None, None)
  | None =>
      texts_raw ← section_file.get_section file SECTION_TEXTS;
      if #texts_raw <? 4 then Nothing else
      num_terms ← u32_at texts_raw 0;
      let offsets_size := (num_terms + 1) * 4 in
      if #texts_raw <? 4 + offsets_size then Nothing else
      m ← catch (section_file.get_section file SECTION_META);
      legacy_meta ← match m with
        | Some m =>
            if #m <? 4 then Ret None else
            body ← slice_from m 4;
            count ← u32_at m 0;
            Ret (Some (body, count))
        | None => Ret None
        end;
      entries ← slice texts_raw 4 (4 + offsets_size);
      texts ← slice_from texts_raw (4 + offsets_size);
      Ret (num_terms, entries, 4, texts, legacy_meta, None)
  end
  end.

(** [STATS], trusted only in its current layout. *)
Definition open_stats (file : section_file.SectionFileReader) : out (option Z) :=
  s ← catch (section_file.get_section file SECTION_STATS);
  match s with
  | Some s =>
      if #s <? 4 then Ret None else
      v ← u16_at s 2;
      if v =? STATS_VERSION then m ← u16_at s 0; Ret (Some m) else Ret None
  | None => Ret None
  end.

(** [IDS]: [(start, len, first entry index)] per run. *)
Definition open_id_runs (file : section_file.SectionFileReader) : out (option (list (Z * Z * Z))) :=
  s ← catch (section_file.get_section file SECTION_IDS);
  match s with
  | Some raw =>
      if #raw <? 4 then Ret None else
      n ← u32_at raw 0;
      if #raw <? 4 + n * 8 then Ret None else
      '(runs, _) ← foldM (λ st i,
        let '(runs, first) := st in
        let o := 4 + i * 8 in
        start ← u32_at raw o;
        len ← u32_at raw (o + 4);
        Ret (runs ++ [(start, len, first)], add32 first len)) ([], 0) (range 0 n);
      Ret (Some runs)
  | None => Ret None
  end.

(** [open]. *)
Definition open_part (bytes : list Z) : out Part :=
  file ← section_file.open bytes MAGIC;
  '(num_terms, entries, stride, text_data, legacy_meta, text_offsets) ← open_entries file;
  max_word_content_len ← open_stats file;
  id_runs ← open_id_runs file;
  Ret {| tp_num_terms := num_terms; tp_id_runs := id_runs; tp_text_offsets := text_offsets;
         tp_entries := entries; tp_stride := stride; tp_text_data := text_data;
         tp_legacy_meta := legacy_meta; tp_max_word_content_len := max_word_content_len |}.

Definition open (bytes : list Z) : out TermTextsReaderV3 :=
  p ← open_part bytes; Ret {| tr_first := p; tr_more := [] |}.

(** [open_parts]. *)
Definition open_parts (parts : list (list Z)) : out TermTextsReaderV3 :=
  match parts with
  | [] => Nothing
  | bytes :: parts =>
      first ← open_part bytes;
      more ← mapM_out open_part parts;
      Ret {| tr_first := first; tr_more := more |}
  end.

Definition has_id_map (r : TermTextsReaderV3) : bool :=
  bool_decide (is_Some (tp_id_runs (tr_first r))) || negb (bool_decide (tr_more r = [])).

(** [local_index]: the entry index of an id in one file. *)
Definition local_index (p : Part) (id : Z) : out (option Z) :=
  match tp_id_runs p with
  | None => Ret (if id <? tp_num_terms p then Some id else None)
  | Some runs =>
      let i := partition_point (λ r, fst (fst r) <=? id) runs in
      if i =? 0 then Ret None else
      '(start, len, first) ← index runs (i - 1);
      Ret (if id <? add32 start len then Some (add32 first (sub32 id start)) else None)
  end.

(** [locate]: this file, then the others in turn. *)
Fixpoint locate_in (parts : list Part) (id : Z) : out (Part * Z) :=
  match parts with
  | [] => Nothing
  | p :: parts =>
      i ← local_index p id;
      match i with
      | Some i => Ret (p, i)
      | None => locate_in parts id
      end
  end.
Definition locate (r : TermTextsReaderV3) (id : Z) : out (Part * Z) :=
  locate_in (tr_first r :: tr_more r) id.

(** [id_of_entry]. *)
Definition id_of_entry (p : Part) (i : Z) : out Z :=
  match tp_id_runs p with
  | None => Ret i
  | Some runs =>
      let k := partition_point (λ r, snd r <=? i) runs in
      '(start, _, first) ← index runs (Z.max k 1 - 1);
      Ret (add32 start (sub32 i first))
  end.

Definition has_inline_meta (p : Part) : bool :=
  negb (tp_stride p =? 4) || bool_decide (is_Some (tp_text_offsets p)).

(** [inline_meta]: the four metadata bytes in layouts 2 and 3. *)
Definition inline_meta (p : Part) (ordinal : Z) : out (list Z) :=
  if tp_num_terms p <=? ordinal then Nothing else
  match tp_text_offsets p with
  | Some _ =>
      t ← slice_from (tp_entries p) (ordinal * META_SIZE);
      slice t 0 META_SIZE
  | None =>
      if tp_stride p =? ENTRY_SIZE then
        t ← slice_from (tp_entries p) (ordinal * ENTRY_SIZE + 4);
        slice t 0 META_SIZE
      else Nothing
  end.

Definition read_text_offset (p : Part) (idx : Z) : out Z :=
  match tp_text_offsets p with
  | Some t => get_ t idx
  | None => u32_at (tp_entries p) (idx * tp_stride p)
  end.

(** [text_at]. *)
Definition text_at (p : Part) (ordinal : Z) : out (list Z) :=
  if tp_num_terms p <=? ordinal then Nothing else
  start ← read_text_offset p ordinal;
  end_ ← read_text_offset p (ordinal + 1);
  if (#(tp_text_data p) <? end_) || (end_ <? start) then Nothing else
  t ← slice (tp_text_data p) start end_;
  from_utf8 t.

(** [meta_at]. *)
Definition meta_at (p : Part) (ordinal : Z) : out TermMetaV3 :=
  if has_inline_meta p then
    e ← inline_meta p ordinal;
    own ← u16_at e 0;
    sep ← index e 2;
    flags ← index e 3;
    Ret {| own_len := own; sep_len := sep; overlap_len := Z.land flags OVERLAP_MASK;
           is_word_start := negb (Z.land flags WORD_START_FLAG =? 0);
           is_word_stripped := negb (Z.land flags WORD_STRIPPED_FLAG =? 0) |}
  else
    '(data, count) ← of_option (tp_legacy_meta p);
    if count <=? ordinal then Nothing else
    let pos := ordinal * 6 in
    if #data <? pos + 6 then Nothing else
    own ← u16_at data pos;
    sep ← index data (pos + 2);
    overlap ← index data (pos + 3);
    ws ← index data (pos + 4);
    wst ← index data (pos + 5);
    Ret {| own_len := own; sep_len := sep; overlap_len := overlap;
           is_word_start := negb (ws =? 0); is_word_stripped := negb (wst =? 0) |}.

Definition text (r : TermTextsReaderV3) (id : Z) : out (list Z) :=
  '(part, i) ← locate r id; text_at part i.

Definition meta (r : TermTextsReaderV3) (id : Z) : out TermMetaV3 :=
  '(part, i) ← locate r id; meta_at part i.

(** [has_content]: unknown counts as content. *)
Definition has_content (r : TermTextsReaderV3) (id : Z) : out bool :=
  l ← catch (locate r id);
  match l with
  | None => Ret true
  | Some (part, i) =>
      if has_inline_meta part then
        e ← catch (inline_meta part i);
        match e with
        | Some e => own ← u16_at e 0; sep ← index e 2; Ret (sep <? own)
        | None => Ret true
        end
      else
        m ← catch (meta_at part i);
        Ret (match m with Some m => sep_len m <? own_len m | None => true end)
  end.

Definition entry (r : TermTextsReaderV3) (id : Z) : out (list Z * TermMetaV3) :=
  t ← text r id; m ← meta r id; Ret (t, m).

(** [max_word_content_len]: unknown in one file is unknown. *)
Definition max_word_content_len (r : TermTextsReaderV3) : option Z :=
  fold_left (λ m p, m ← m; n ← tp_max_word_content_len p; Some (Z.max m n))
    (tr_more r) (tp_max_word_content_len (tr_first r)).

Definition may_have_long_words (r : TermTextsReaderV3) : bool :=
  match max_word_content_len r with
  | None => true
  | Some m => WORD_SUFFIX_CAP <? m
  end.

Definition num_terms (r : TermTextsReaderV3) : Z :=
  add32 (tp_num_terms (tr_first r)) (fold_left (λ n p, add32 n (tp_num_terms p)) (tr_more r) 0).

(** [ids]. *)
Definition part_ids (p : Part) : list Z :=
  match tp_id_runs p with
  | None => range 0 (tp_num_terms p)
  | Some runs => flat_map (λ r, range (fst (fst r)) (add32 (fst (fst r)) (snd (fst r)))) runs
  end.
Definition ids (r : TermTextsReaderV3) : list Z := flat_map part_ids (tr_first r :: tr_more r).

(** [iter]: the entries of one file, then of the others; an entry whose text
    or metadata does not read is skipped. *)
Definition part_iter (p : Part) : out (list (Z * list Z * TermMetaV3)) :=
  es ← mapM_out (λ i, catch (
    t ← text_at p i; m ← meta_at p i; id ← id_of_entry p i; Ret (id, t, m)))
    (range 0 (tp_num_terms p));
  Ret (omap id (es : list (option (Z * list Z * TermMetaV3)))).
Definition iter (r : TermTextsReaderV3) : out (list (Z * list Z * TermMetaV3)) :=
  ls ← mapM_out part_iter (tr_first r :: tr_more r);
  Ret (concat ls).

End termtexts.
Import termtexts.

(** ** Runs of ids *)

(** The ids a list of runs stands for. *)
Definition expand (runs : list (Z * Z)) : list Z :=
  flat_map (λ r, range (fst r) (fst r + snd r)) runs.

(** Runs ascending from [lo], none empty. *)
Fixpoint runs_ok (lo : Z) (runs : list (Z * Z)) : Prop :=
  match runs with
  | [] => True
  | (s, l) :: runs => lo ≤ s ∧ 1 ≤ l ∧ runs_ok (s + l) runs
  end.

(** The runs with the index of their first entry, as the reader keeps them. *)
Fixpoint annotate (first : Z) (runs : list (Z * Z)) : list (Z * Z * Z) :=
  match runs with
  | [] => []
  | (s, l) :: runs => (s, l, first) :: annotate (first + l) runs
  end.

Lemma partition_point_nonneg {A} (p : A → bool) l : 0 ≤ partition_point p l.
Proof. induction l as [|a l IH]; simpl; [lia|]. destruct (p a); lia. Qed.

Lemma runs_ok_lower lo lo' runs : runs_ok lo runs → lo' ≤ lo → runs_ok lo' runs.
Proof. destruct runs as [|[s l] runs]; simpl; [done|]. intros (? & ? & ?) ?. split_and!; [lia|lia|done]. Qed.

Lemma expand_bounds lo runs id : runs_ok lo runs → id ∈ expand runs → lo ≤ id.
Proof.
  revert lo. induction runs as [|[s l] runs IH]; intros lo Hok Hin; [set_solver|].
  destruct Hok as (Hs & Hl & Hok). simpl in Hin. apply elem_of_app in Hin as [Hin|Hin].
  - apply elem_of_range in Hin. lia.
  - apply (IH (s + l)) in Hin; [lia|done].
Qed.

Lemma len_expand_cons s l runs : 0 ≤ l → #(expand ((s, l) :: runs)) = l + #(expand runs).
Proof. intros Hl. simpl. rewrite len_app, len_range by lia. lia. Qed.

Lemma index_cons_succ {A} (a : A) l i : 1 ≤ i → index (a :: l) i = index l (i - 1).
Proof.
  intros Hi. unfold index, get. replace (0 <=? i) with true by lia.
  replace (0 <=? i - 1) with true by lia.
  by replace (Z.to_nat i) with (S (Z.to_nat (i - 1))) by lia.
Qed.

(** The run holding an id, found by its start: its place among the ids. *)
Lemma find_run lo first runs id :
  runs_ok lo runs →
  let rs := annotate first runs in
  let i := partition_point (λ r, fst (fst r) <=? id) rs in
  (∃ j s l f, (expand runs !! j = Some id) ∧ i ≠ 0 ∧ index rs (i - 1) = Ret (s, l, f) ∧
     s ≤ id < s + l ∧ (s, l) ∈ runs ∧ f + (id - s) = first + Z.of_nat j ∧ first ≤ f) ∨
  ((id ∉ expand runs) ∧ (i = 0 ∨
     ∃ s l f, index rs (i - 1) = Ret (s, l, f) ∧ s + l ≤ id ∧ (s, l) ∈ runs)).
Proof.
  revert lo first. induction runs as [|[s l] runs IH]; intros lo first Hok; cbn zeta.
  { right. split; [set_solver|by left]. }
  destruct Hok as (Hs & Hl & Hok). cbn [annotate partition_point fst].
  destruct (s <=? id) eqn:Hsid.
  2: { right. split; [|by left]. simpl. intros [Hin|Hin]%elem_of_app.
       - apply elem_of_range in Hin. lia.
       - apply (expand_bounds (s + l)) in Hin; [lia|done]. }
  pose proof (partition_point_nonneg
    (λ r : Z * Z * Z, fst (fst r) <=? id) (annotate (first + l) runs)) as Hi.
  specialize (IH (s + l) (first + l) Hok). cbn zeta in IH.
  set (i := partition_point _ (annotate (first + l) runs)) in *. clearbody i.
  destruct IH as [(j & s' & l' & f & Hj & Hi0 & Hidx & Hid & Hin & Hf & Hff)|(Hnot & Hrest)].
  - left. exists (Z.to_nat l + j)%nat, s', l', f. split_and!; try done; try lia.
    + simpl. rewrite lookup_app_r; [|rewrite length_range; lia].
      rewrite length_range. rewrite <- Hj. f_equal. lia.
    + rewrite index_cons_succ by lia. by replace (1 + i - 1 - 1) with (i - 1) by lia.
    + set_solver.
  - destruct Hrest as [Hi0|(s' & l' & f & Hidx & Hid & Hin)].
    + replace (1 + i - 1) with 0 by lia. destruct (decide (id < s + l)).
      * left. exists (Z.to_nat (id - s)), s, l, first. split_and!; try lia; try done; [|set_solver].
        simpl. apply lookup_app_l_Some, range_lookup. lia.
      * right. split; [|right; exists s, l, first; split_and!; [done|lia|set_solver]].
        simpl. intros [Hin|Hin]%elem_of_app; [apply elem_of_range in Hin; lia|done].
    + destruct (decide (i = 0)) as [Hz|Hnz].
      { rewrite Hz in Hidx. done. }
      right. split.
      * simpl. intros [Hin'|Hin']%elem_of_app; [|done]. apply elem_of_range in Hin'.
        assert (s + l ≤ s') as Hs'.
        { clear -Hok Hin. revert Hok. generalize (s + l). induction runs as [|[a b] runs IH]; [set_solver|].
          intros lo (Ha & Hb & Hok). apply elem_of_cons in Hin as [Heq|Hin]; [simplify_eq; lia|].
          specialize (IH Hin _ Hok). lia. }
        assert (1 ≤ l') as Hl'.
        { clear -Hok Hin. revert Hok. generalize (s + l). induction runs as [|[a b] runs IH]; [set_solver|].
          intros lo (Ha & Hb & Hok). apply elem_of_cons in Hin as [Heq|Hin]; [simplify_eq; lia|].
          by apply (IH Hin (a + b)). }
        lia.
      * right. exists s', l', f. split_and!; [|done|set_solver].
        rewrite index_cons_succ by lia. by replace (1 + i - 1 - 1) with (i - 1) by lia.
Qed.

(** The run holding an entry index, found by its first index. *)
Lemma find_entry lo first runs j id :
  runs_ok lo runs → expand runs !! j = Some id →
  let rs := annotate first runs in
  let k := partition_point (λ r, snd r <=? first + Z.of_nat j) rs in
  ∃ s l f, index rs (Z.max k 1 - 1) = Ret (s, l, f) ∧ first ≤ f ≤ first + Z.of_nat j ∧
    id = s + (first + Z.of_nat j - f).
Proof.
  revert lo first j. induction runs as [|[s l] runs IH]; intros lo first j Hok Hj; [done|]. cbn zeta.
  destruct Hok as (Hs & Hl & Hok). cbn [annotate partition_point snd].
  replace (first <=? first + Z.of_nat j) with true by (symmetry; apply Z.leb_le; lia).
  pose proof (partition_point_nonneg
    (λ r : Z * Z * Z, snd r <=? first + Z.of_nat j) (annotate (first + l) runs)) as Hk.
  simpl in Hj. destruct (decide (Z.of_nat j < l)) as [Hlt|Hge].
  - assert (partition_point (λ r : Z * Z * Z, snd r <=? first + Z.of_nat j)
      (annotate (first + l) runs) = 0) as Hk0.
    { destruct runs as [|[s' l'] runs]; [done|]. cbn [annotate partition_point snd].
      by replace (_ <=? _) with false by lia. }
    rewrite Hk0. exists s, l, first. split_and!; [done|lia|lia|].
    rewrite lookup_app_l in Hj by (rewrite length_range; lia). apply range_lookup in Hj. lia.
  - rewrite lookup_app_r in Hj by (rewrite length_range; lia). rewrite length_range in Hj.
    destruct (IH (s + l) (first + l) (j - Z.to_nat (s + l - s))%nat Hok Hj)
      as (s' & l' & f & Hidx & Hf & Hid).
    replace (first + l + Z.of_nat (j - Z.to_nat (s + l - s))) with (first + Z.of_nat j) in * by lia.
    assert (1 ≤ partition_point (λ r : Z * Z * Z, snd r <=? first + Z.of_nat j)
      (annotate (first + l) runs)) as Hk1.
    { destruct runs as [|[s1 l1] runs]; [done|]. cbn [annotate partition_point snd].
      replace (_ <=? _) with true by lia.
      pose proof (partition_point_nonneg (λ r : Z * Z * Z, snd r <=? first + Z.of_nat j)
        (annotate (first + l + l1) runs)). lia. }
    exists s', l', f. split_and!; [|lia|lia|lia].
    rewrite index_cons_succ by lia. rewrite <- Hidx. f_equal. lia.
Qed.

Fixpoint run_end (lo : Z) (runs : list (Z * Z)) : Z :=
  match runs with
  | [] => lo
  | (s, l) :: runs => run_end (s + l) runs
  end.

Lemma runs_ok_snoc lo runs s l :
  runs_ok lo (runs ++ [(s, l)]) ↔ runs_ok lo runs ∧ run_end lo runs ≤ s ∧ 1 ≤ l.
Proof.
  revert lo. induction runs as [|[s' l'] runs IH]; intros lo; simpl; [naive_solver|].
  rewrite IH. naive_solver.
Qed.

Lemma run_end_snoc lo runs s l : run_end lo (runs ++ [(s, l)]) = s + l.
Proof. revert lo. induction runs as [|[s' l'] runs IH]; intros lo; simpl; auto. Qed.

Lemma expand_snoc runs s l : expand (runs ++ [(s, l)]) = expand runs ++ range s (s + l).
Proof. unfold expand. rewrite flat_map_app. simpl. by rewrite app_nil_r. Qed.

Lemma increasing_app_inv l i :
  increasing (l ++ [i]) → increasing l ∧ ∀ j, j ∈ l → j < i.
Proof.
  intros H. split.
  - intros a b x y Hab Hx Hy. eapply (H a b); [done|by apply lookup_app_l_Some..].
  - intros j [k Hk]%list_elem_of_lookup. apply lookup_lt_Some in Hk as Hlt.
    eapply (H k (length l)); [done|by apply lookup_app_l_Some|].
    by rewrite lookup_app_r, Nat.sub_diag by done.
Qed.

(** The ids that fit the file. *)
Record ids_fit (ids : list Z) : Prop := {
  if_sorted : increasing ids;
  if_range : Forall (λ i, 0 ≤ i < u32_max) ids;
  if_num : #ids < 2 ^ 32;
}.

(** The runs the writer pushes stand for the ids, in order. *)
Lemma push_runs_spec ids :
  increasing ids → Forall (λ i, 0 ≤ i < u32_max) ids →
  let runs := fold_left push_run ids [] in
  expand runs = ids ∧ runs_ok 0 runs ∧ run_end 0 runs ≤ u32_max ∧
  Forall (λ r, fst r + snd r ≤ u32_max) runs.
Proof.
  induction ids as [|i ids IH] using rev_ind; [by intros; split_and!|].
  intros [Hinc Hlt]%increasing_app_inv [Hr Hi]%Forall_app. rewrite Forall_singleton in Hi.
  cbn zeta. rewrite fold_left_app. simpl. destruct (IH Hinc Hr) as (He & Hok & Hend & Hall).
  set (runs := fold_left push_run ids []) in *. clearbody runs. clear IH. unfold push_run.
  assert (∀ runs', runs' = runs ++ [(i, 1)] → run_end 0 runs ≤ i →
    expand runs' = ids ++ [i] ∧ runs_ok 0 runs' ∧ run_end 0 runs' ≤ u32_max ∧
    Forall (λ r, fst r + snd r ≤ u32_max) runs') as Hnew.
  { intros ? -> Hle. rewrite expand_snoc, He, runs_ok_snoc, run_end_snoc, range_cons, range_nil by lia.
    split_and!; [done|done|done|lia|lia|]. apply Forall_app. split; [done|]. constructor; [simpl; lia|done]. }
  destruct (last runs) as [[s l]|] eqn:Hlast.
  - apply last_Some in Hlast as [runs0 ->]. rewrite expand_snoc in He. rewrite runs_ok_snoc in Hok.
    rewrite run_end_snoc in *. destruct Hok as (Hok0 & Hs & Hl).
    rewrite Forall_app, Forall_singleton in Hall. destruct Hall as [Hall0 Hsl]. simpl in Hsl.
    assert (s + l ≤ i) as Hle.
    { assert (s + l - 1 ∈ ids) as Hin; [|apply Hlt in Hin; lia].
      rewrite <- He. apply elem_of_app. right. apply elem_of_range. lia. }
    assert (0 ≤ s) as Hs0.
    { assert (s ∈ ids) as Hin; [|rewrite Forall_forall in Hr; apply Hr in Hin; lia].
      rewrite <- He. apply elem_of_app. right. apply elem_of_range. lia. }
    unfold add32, as_u32. widths. rewrite !Z.mod_small by lia.
    destruct (s + l =? i) eqn:E; [|by apply Hnew].
    unfold set_at. replace (Z.to_nat (_ - 1)) with (length runs0 + 0)%nat by (lens; unfold len; lia).
    + rewrite insert_app_r. simpl. rewrite expand_snoc, runs_ok_snoc, run_end_snoc.
      replace (s + (l + 1)) with (i + 1) by lia. rewrite (range_app s i) by lia.
      replace (range i (i + 1)) with [i] by (rewrite range_cons, range_nil by lia; done).
      replace i with (s + l) at 1 by lia. rewrite app_assoc, He.
      split_and!; [done|done|done|lia|lia|]. apply Forall_app. split; [done|].
      constructor; [simpl; lia|done].
  - apply Hnew; [done|]. apply last_None in Hlast as ->. simpl. lia.
Qed.

(** ** Metadata records *)

Definition meta_ok (m : TermMetaV3) : Prop :=
  fits 16 (own_len m) ∧ fits 8 (sep_len m) ∧ 0 ≤ overlap_len m ≤ 15.

Definition flags_of (m : TermMetaV3) : Z :=
  Z.lor (Z.lor (overlap_len m) (if is_word_start m then WORD_START_FLAG else 0))
        (if is_word_stripped m then WORD_STRIPPED_FLAG else 0).
Definition meta_bytes (m : TermMetaV3) : list Z :=
  to_le_bytes 2 (own_len m) ++ [sep_len m; flags_of m].

Lemma len_meta_bytes m : #(meta_bytes m) = 4.
Proof. unfold meta_bytes. by lens. Qed.

Lemma pack_meta_ok m : meta_ok m → pack_meta m = Ret (meta_bytes m).
Proof.
  intros (_ & _ & Ho). unfold pack_meta, assert_, OVERLAP_MASK. by replace (_ <=? _) with true by lia.
Qed.

(** The flag byte gives its three fields back. *)
Lemma flags_decode m :
  meta_ok m →
  Z.land (flags_of m) OVERLAP_MASK = overlap_len m ∧
  negb (Z.land (flags_of m) WORD_START_FLAG =? 0) = is_word_start m ∧
  negb (Z.land (flags_of m) WORD_STRIPPED_FLAG =? 0) = is_word_stripped m.
Proof.
  destruct m as [own sep o ws st]. intros (_ & _ & Ho). unfold flags_of. simpl in *.
  assert (o ∈ range 0 16) as Hin by (apply elem_of_range; lia).
  assert (Forall (λ o, ∀ ws st : bool,
    let f := Z.lor (Z.lor o (if ws then WORD_START_FLAG else 0))
                   (if st then WORD_STRIPPED_FLAG else 0) in
    Z.land f OVERLAP_MASK = o ∧ negb (Z.land f WORD_START_FLAG =? 0) = ws ∧
    negb (Z.land f WORD_STRIPPED_FLAG =? 0) = st) (range 0 16)) as Hall.
  { repeat (constructor; [intros [] []; by vm_compute|]). constructor. }
  rewrite Forall_forall in Hall. by apply Hall.
Qed.

Lemma read_meta_bytes m :
  meta_ok m →
  u16_at (meta_bytes m) 0 = Ret (own_len m) ∧ index (meta_bytes m) 2 = Ret (sep_len m) ∧
  index (meta_bytes m) 3 = Ret (flags_of m).
Proof.
  intros (Hown & _ & _). unfold meta_bytes. split.
  - apply (le_at_mid 2 []); [done|]. exact Hown.
  - pose proof (length_to_le_bytes 2 (own_len m)) as Hl.
    destruct (to_le_bytes 2 (own_len m)) as [|a [|b [|]]]; try discriminate Hl. done.
Qed.

(** ** The written file *)

(** The entries section. *)
Definition entries_bytes (texts : list (list Z)) (metas : list TermMetaV3) : list Z :=
  to_le_bytes 4 #texts ++ encode (prefix_sums 0 texts) ++ flat_map meta_bytes metas ++ concat texts.

(** The sections of the file, in order. *)
Definition file_sections (w : TermTextsWriterV3) : list (Z * list Z) :=
  [(SECTION_ENTRIES3, entries_bytes (tw_texts w) (tw_metas w));
   (SECTION_STATS, stats_section (max_word (tw_metas w)))] ++
  match tw_ids w with
  | Some ids => [(SECTION_IDS, ids_section (fold_left push_run ids []))]
  | None => []
  end.

(** A writer [add] built, whose texts are strings and whose sizes fit the
    32-bit fields of the file. *)
Record writer_ok (w : TermTextsWriterV3) : Prop := {
  wo_lens : length (tw_metas w) = length (tw_texts w);
  wo_texts : Forall (λ t, utf8_valid t = true) (tw_texts w);
  wo_metas : Forall meta_ok (tw_metas w);
  wo_num : #(tw_texts w) < u32_max;
  wo_size : #(flat_map snd (file_sections w)) < 2 ^ 32;
  wo_ids : ∀ ids, tw_ids w = Some ids → ids_fit ids ∧ length ids = length (tw_texts w);
}.

Lemma fold_text_offsets (texts : list (list Z)) offs off :
  0 ≤ off → off + #(concat texts) < 2 ^ 32 →
  (let '(offs, off) := fold_left (λ st text,
      let '(offs, off) := st in
      (offs ++ [off], add32 off (as_u32 #text))) texts (offs, off) in
   offs ++ [off]) = offs ++ prefix_sums off texts.
Proof.
  revert offs off. induction texts as [|t texts IH]; intros offs off Ho Hb; [done|].
  simpl in *. rewrite len_app in Hb. pose proof (len_nonneg t). pose proof (len_nonneg (concat texts)).
  assert (add32 off (as_u32 #t) = off + #t) as ->.
  { unfold add32, as_u32. rewrite (Z.mod_small #t) by lia. apply Z.mod_small. lia. }
  rewrite IH by lia. by rewrite <- app_assoc.
Qed.

Lemma pack_metas buf metas :
  Forall meta_ok metas →
  foldM (λ buf m, p ← pack_meta m; Ret (buf ++ p)) buf metas = Ret (buf ++ flat_map meta_bytes metas).
Proof.
  intros Hok. revert buf. induction Hok as [|m metas Hm _ IH]; intros buf; simpl; [by rewrite app_nil_r|].
  rewrite (pack_meta_ok m Hm), !bind_ret. simpl. rewrite IH. by rewrite <- app_assoc.
Qed.

Section Written.
Context (w : TermTextsWriterV3).
Hypothesis ok : writer_ok w.
Let texts := tw_texts w.
Let metas := tw_metas w.

Lemma entries_size : #(entries_bytes texts metas) < 2 ^ 32.
Proof using ok.
  pose proof (wo_size _ ok) as H. unfold file_sections in H. cbn [app flat_map snd] in H.
  rewrite len_app in H. fold texts metas in H.
  match type of H with _ + ?b < _ => assert (0 ≤ b) by apply len_nonneg end. lia.
Qed.

Lemma texts_size : #(concat texts) < 2 ^ 32 ∧ #(encode (prefix_sums 0 texts)) < 2 ^ 32.
Proof using ok.
  pose proof entries_size as H. unfold entries_bytes in H. rewrite !len_app in H.
  pose proof (len_nonneg (concat texts)). pose proof (len_nonneg (flat_map meta_bytes metas)).
  pose proof (len_nonneg (encode (prefix_sums 0 texts))). lens. lia.
Qed.

Lemma text_offsets_encodable : encodable (prefix_sums 0 texts).
Proof using ok.
  destruct texts_size as [Ht He]. split; [|apply prefix_sums_nondecreasing|done|].
  - apply prefix_sums_bound; lia.
  - rewrite len_prefix_sums. pose proof (wo_num _ ok : #texts < u32_max). widths. lia.
Qed.

Lemma serialize_entries_eq : serialize_entries w = Ret (entries_bytes texts metas).
Proof using ok.
  unfold serialize_entries. fold texts metas. destruct texts_size as [Ht _].
  pose proof (fold_text_offsets texts [] 0 ltac:(lia) ltac:(lia)) as Hoff.
  destruct (fold_left _ texts ([], 0)) as [offs off]. cbv beta iota in Hoff. rewrite app_nil_l in Hoff.
  rewrite Hoff, (pack_metas _ _ (wo_metas _ ok)), bind_ret.
  rewrite (fold_regions (λ t : list Z, t)), map_id. unfold entries_bytes.
  assert (as_u32 #texts = #texts) as ->.
  { apply Z.mod_small. pose proof (len_nonneg texts). pose proof (wo_num _ ok : #texts < u32_max). widths. lia. }
  by rewrite <- !app_assoc.
Qed.

Lemma serialize_eq :
  serialize w = Ret (section_file.serialize (SectionFile.build MAGIC VERSION (file_sections w))).
Proof using ok.
  unfold serialize. rewrite serialize_entries_eq, bind_ret. fold texts metas.
  unfold file_sections, SectionFile.build. fold texts metas. by destruct (tw_ids w).
Qed.

Lemma sections_ok : file_ok MAGIC VERSION (file_sections w).
Proof using ok.
  split; [done| | |apply (wo_size _ ok)].
  - unfold file_sections. destruct (tw_ids w); by repeat constructor; vm_compute.
  - unfold file_sections. destruct (tw_ids w); by vm_compute.
Qed.

Lemma payload_entries : first_payload SECTION_ENTRIES3 (file_sections w) = Some (entries_bytes texts metas).
Proof using. done. Qed.

(** The part the written file opens to. *)
Definition part_of : Part :=
  {| tp_num_terms := #texts;
     tp_id_runs := (λ ids, annotate 0 (fold_left push_run ids [])) <$> tw_ids w;
     tp_text_offsets := Some (table_of (prefix_sums 0 texts));
     tp_entries := flat_map meta_bytes metas;
     tp_stride := META_SIZE;
     tp_text_data := concat texts;
     tp_legacy_meta := None;
     tp_max_word_content_len := Some (max_word metas) |}.
Let file := SectionFile.reader_of MAGIC VERSION (file_sections w).

Lemma open_entries_written :
  open_entries file = Ret (#texts, flat_map meta_bytes metas, META_SIZE, concat texts, None,
    Some (table_of (prefix_sums 0 texts))).
Proof using ok.
  unfold open_entries. unfold file.
  rewrite (get_section_first MAGIC VERSION _ sections_ok SECTION_ENTRIES3), payload_entries.
  cbn [of_option catch]. rewrite bind_ret. cbv iota. unfold entries_bytes.
  match goal with |- context [len ?x <? 4] =>
    destruct (cursor_open x) as (data & Hd & Hat); rewrite <- Hd end.
  pose proof (wo_num _ ok : #texts < u32_max) as Hn. pose proof (len_nonneg texts). widths.
  set (tab := encode (prefix_sums 0 texts)) in *.
  assert (#(flat_map meta_bytes metas) = #texts * 4) as Hm.
  { rewrite (len_records meta_bytes 4 len_meta_bytes). pose proof (wo_lens _ ok).
    unfold metas, texts, len in *. lia. }
  assert (#data = 4 + #tab + #texts * 4 + #(concat texts)) as Hlen
    by (subst data; rewrite !len_app, len_to_le_bytes; lia).
  pose proof (len_nonneg (concat texts)). pose proof (len_nonneg tab).
  replace (_ <? 4) with false by lia. read_u32 Hat. change (0 + 4) with 4 in Hat.
  rewrite (At_slice_from _ _ _ Hat), bind_ret. unfold tab.
  rewrite (parse_encode _ _ text_offsets_encodable), bind_ret. cbv beta iota. fold tab.
  change (bo_num (table_of _)) with #(prefix_sums 0 texts). rewrite len_prefix_sums.
  unfold add32, as_u32. rewrite Z.mod_small by lia. rewrite Z.eqb_refl. simpl negb. cbv iota.
  unfold META_SIZE. replace (_ <? _) with false by lia. apply At_skip in Hat. fold tab in Hat.
  rewrite (At_slice _ _ _ _ _ Hat), bind_ret by lia. apply At_skip in Hat. rewrite Hm in Hat.
  by rewrite (At_slice_from _ _ _ Hat).
Qed.

Lemma max_word_fits : fits 16 (max_word metas).
Proof using ok.
  unfold max_word. assert (∀ l a, fits 16 a → Forall (fits 16) l → fits 16 (fold_left Z.max l a)) as H.
  { induction l as [|x l IH]; intros a Ha Hl; [done|]. apply Forall_cons in Hl as [Hx Hl].
    simpl. apply IH; [unfold fits in *; lia|done]. }
  apply H; [by vm_compute|]. apply Forall_fmap, Forall_forall. intros m Hm.
  assert (meta_ok m) as (Hown & [Hsep _] & _).
  { pose proof (wo_metas _ ok : Forall meta_ok metas) as Hall. rewrite Forall_forall in Hall. apply Hall.
    rewrite list_elem_of_In in *. by apply filter_In in Hm as [Hm _]. }
  simpl. unfold content_len, saturating_sub, fits in *. lia.
Qed.

Lemma open_stats_written : open_stats file = Ret (Some (max_word metas)).
Proof using ok.
  unfold open_stats, file. rewrite (get_section_first MAGIC VERSION _ sections_ok SECTION_STATS).
  change (first_payload SECTION_STATS (file_sections w)) with (Some (stats_section (max_word metas))).
  cbn [of_option catch]. rewrite bind_ret. cbv iota. unfold stats_section.
  rewrite len_app, !len_to_le_bytes. change (_ <? 4) with false. cbv iota.
  assert (u16_at (to_le_bytes 2 (max_word metas) ++ to_le_bytes 2 STATS_VERSION) 2 = Ret STATS_VERSION) as ->.
  { rewrite <- (app_nil_r (to_le_bytes 2 STATS_VERSION)). by apply (le_at_mid 2); [lens|]. }
  rewrite bind_ret, Z.eqb_refl.
  assert (u16_at (to_le_bytes 2 (max_word metas) ++ to_le_bytes 2 STATS_VERSION) 0 = Ret (max_word metas)) as ->.
  { apply (le_at_mid 2 []); [done|]. apply max_word_fits. }
  done.
Qed.

Definition run_bytes (r : Z * Z) : list Z := to_le_bytes 4 (fst r) ++ to_le_bytes 4 (snd r).

Lemma annotate_snoc first runs s l :
  Forall (λ r, 0 ≤ snd r) runs →
  annotate first (runs ++ [(s, l)]) = annotate first runs ++ [(s, l, first + #(expand runs))].
Proof using.
  intros H. revert first. induction H as [|[s' l'] runs Hl _ IH]; intros first.
  - simpl. by rewrite Z.add_0_r.
  - cbn [app annotate]. rewrite IH, (len_expand_cons s') by done. do 4 f_equal. lia.
Qed.

Lemma len_expand_snoc runs s l : 0 ≤ l → #(expand (runs ++ [(s, l)])) = #(expand runs) + l.
Proof using. intros. rewrite expand_snoc, len_app, len_range by lia. lia. Qed.

Lemma runs_nonneg lo runs : runs_ok lo runs → Forall (λ r, 1 ≤ snd r) runs.
Proof using.
  revert lo. induction runs as [|[s l] runs IH]; intros lo Hok; [done|].
  destruct Hok as (_ & Hl & Hok). constructor; [done|]. by apply (IH (s + l)).
Qed.

(** The loop that reads the runs back. *)
Lemma read_runs raw runs :
  At raw 4 (flat_map run_bytes runs) → Forall (λ r, fits 32 (fst r) ∧ fits 32 (snd r)) runs →
  #(expand runs) < 2 ^ 32 →
  ∀ k : nat, (k ≤ length runs)%nat →
  foldM (λ st i,
    let '(rs, first) := st in
    let o := 4 + i * 8 in
    start ← u32_at raw o;
    len ← u32_at raw (o + 4);
    Ret (rs ++ [(start, len, first)], add32 first len)) ([], 0) (range 0 (Z.of_nat k)) =
  Ret (annotate 0 (take k runs), #(expand (take k runs))).
Proof using.
  intros Hat Hfit Hsz k. induction k as [|k IH]; intros Hk; [done|].
  destruct (lookup_lt_is_Some_2 runs k) as [[s l] Hr]; [lia|].
  assert (Forall (λ r, 0 ≤ snd r) runs) as Hnn.
  { eapply Forall_impl; [exact Hfit|]. intros r [_ [? _]]. done. }
  pose proof Hfit as Hf. rewrite Forall_lookup in Hf. destruct (Hf _ _ Hr) as [Hs Hl]. simpl in Hs, Hl.
  rewrite (range_app 0 (Z.of_nat k)) by lia. rewrite foldM_app, IH, bind_ret by lia.
  replace (Z.of_nat (S k)) with (Z.of_nat k + 1) by lia.
  rewrite range_cons, range_nil by lia. cbn [foldM].
  rewrite <- (app_nil_r (flat_map _ _)) in Hat.
  assert (∀ r, #(run_bytes r) = 8) as H8 by (intros r; unfold run_bytes; by lens).
  destruct (At_record_at run_bytes 8 H8 _ _ _ _ _ _ Hat Hr) as [rest Hat'].
  unfold run_bytes in Hat'. cbn [fst snd] in Hat'. rewrite <- app_assoc in Hat'.
  rewrite (Z.mul_comm (Z.of_nat k) 8).
  destruct (At_u32 _ _ _ _ Hat' Hs) as [-> Hat2]. rewrite bind_ret.
  destruct (At_u32 _ _ _ _ Hat2 Hl) as [-> _]. rewrite bind_ret.
  rewrite (take_S_r _ _ _ Hr), annotate_snoc, len_expand_snoc by (apply Forall_take, Hnn || apply Hl).
  rewrite bind_ret, Z.add_0_l. do 2 f_equal. unfold add32, as_u32. apply Z.mod_small.
  assert (#(expand (take (S k) runs)) ≤ #(expand runs)) as Hle.
  { rewrite <- (take_drop (S k) runs) at 2. unfold expand. rewrite flat_map_app, len_app.
    pose proof (len_nonneg (flat_map (λ r : Z * Z, range (fst r) (fst r + snd r)) (drop (S k) runs))). lia. }
  rewrite (take_S_r _ _ _ Hr), len_expand_snoc in Hle by apply Hl.
  pose proof (len_nonneg (expand (take k runs))). destruct Hl. lia.
Qed.

Lemma ids_section_eq runs : #runs < 2 ^ 32 →
  ids_section runs = to_le_bytes 4 #runs ++ flat_map run_bytes runs.
Proof using.
  intros H. unfold ids_section. pose proof (len_nonneg runs).
  unfold as_u32. rewrite Z.mod_small by lia. rewrite (fold_regions run_bytes).
  by rewrite flat_map_concat_map.
Qed.

Lemma runs_count lo runs : runs_ok lo runs → #runs ≤ #(expand runs).
Proof using.
  revert lo. induction runs as [|[s l] runs IH]; intros lo Hok; [done|].
  destruct Hok as (_ & Hl & Hok). rewrite len_expand_cons, len_cons by lia. specialize (IH _ Hok). lia.
Qed.

Lemma runs_start lo runs : runs_ok lo runs → Forall (λ r, lo ≤ fst r) runs.
Proof using.
  revert lo. induction runs as [|[s l] runs IH]; intros lo Hok; [done|].
  destruct Hok as (Hs & Hl & Hok). constructor; [done|].
  eapply Forall_impl; [by apply (IH _ Hok)|]. intros r Hr. simpl in Hr. lia.
Qed.

Lemma open_id_runs_written : open_id_runs file = Ret (tp_id_runs part_of).
Proof using ok.
  unfold open_id_runs, file. rewrite (get_section_first MAGIC VERSION _ sections_ok SECTION_IDS).
  unfold file_sections, part_of. cbn [tp_id_runs]. pose proof (wo_ids _ ok) as Hids.
  destruct (tw_ids w) as [ids|]; [|done].
  change (first_payload SECTION_IDS _) with (Some (ids_section (fold_left push_run ids []))).
  destruct (Hids ids eq_refl) as [[Hinc Hrng Hnum] _].
  destruct (push_runs_spec ids Hinc Hrng) as (He & Hok & _ & Hall).
  set (runs := fold_left push_run ids []) in *. cbn [of_option catch]. rewrite bind_ret. cbv iota.
  pose proof (runs_count _ _ Hok). rewrite He in *. pose proof (len_nonneg runs).
  rewrite ids_section_eq by lia.
  match goal with |- context [len ?x <? 4] =>
    destruct (cursor_open x) as (data & Hd & Hat); rewrite <- Hd end.
  assert (#data = 4 + 8 * #runs) as Hlen.
  { subst data. rewrite len_app, len_to_le_bytes, (len_records run_bytes 8); [lia|].
    intros r. unfold run_bytes. by lens. }
  rewrite Hlen. replace (_ <? 4) with false by lia. read_u32 Hat. change (0 + 4) with 4 in Hat.
  replace (_ <? _) with false by lia.
  pose proof (read_runs data runs Hat) as Hread. rewrite He in Hread.
  assert (Forall (λ r, fits 32 (fst r) ∧ fits 32 (snd r)) runs) as Hfit.
  { rewrite Forall_forall. intros r Hr.
    pose proof (runs_nonneg _ _ Hok) as Hnn. pose proof (runs_start _ _ Hok) as Hst.
    rewrite Forall_forall in Hnn, Hst, Hall. specialize (Hnn r Hr). specialize (Hst r Hr).
    specialize (Hall r Hr). simpl in *. widths. lia. }
  specialize (Hread Hfit ltac:(lia) (length runs) ltac:(lia)).
  change (Z.of_nat (length runs)) with #runs in Hread.
  cbv zeta in Hread |- *. rewrite Hread, take_ge by lia. done.
Qed.

Lemma open_part_written : open_part (section_file.serialize (SectionFile.build MAGIC VERSION (file_sections w)))
  = Ret part_of.
Proof using ok.
  unfold open_part. rewrite (open_build _ _ _ sections_ok), bind_ret. fold file.
  rewrite open_entries_written, bind_ret. cbv beta iota.
  by rewrite open_stats_written, bind_ret, open_id_runs_written, bind_ret.
Qed.

(** ** Lookups in the written file *)

(** Entry [k] of the writer. *)
Definition entry_at (k : nat) : option (list Z * TermMetaV3) :=
  t ← texts !! k; m ← metas !! k; Some (t, m).

(** The entry index of an id: itself, or its place among the ids. *)
Definition entry_index (id : Z) : option nat :=
  match tw_ids w with
  | None => if (0 <=? id) && (id <? #texts) then Some (Z.to_nat id) else None
  | Some ids => fst <$> list_find (λ i, i = id) ids
  end.

Lemma entry_at_some k : (k < length texts)%nat → ∃ t m, texts !! k = Some t ∧ metas !! k = Some m.
Proof using ok.
  intros Hk. destruct (lookup_lt_is_Some_2 texts k Hk) as [t Ht].
  destruct (lookup_lt_is_Some_2 metas k) as [m Hm]; [|eauto].
  pose proof (wo_lens _ ok). unfold metas, texts in *. lia.
Qed.

Lemma list_find_index (ids : list Z) j id :
  increasing ids → ids !! j = Some id → list_find (λ i, i = id) ids = Some (j, id).
Proof using.
  intros Hinc Hj. apply list_find_Some. split_and!; [done|done|].
  intros k y Hk Hlt ->. pose proof (increasing_inj _ _ _ _ Hinc Hj Hk). lia.
Qed.

Lemma local_index_written id :
  fits 32 id → local_index part_of id = Ret (Z.of_nat <$> entry_index id) ∧
  ∀ k, entry_index id = Some k → (k < length texts)%nat.
Proof using ok.
  intros Hid. unfold local_index, entry_index, part_of. cbn [tp_id_runs tp_num_terms].
  pose proof (wo_ids _ ok) as Hids. destruct (tw_ids w) as [ids|]; cbn [fmap option_fmap option_map].
  2: { replace (0 <=? id) with true by (widths; lia). destruct (id <? #texts) eqn:E; simpl.
       - split; [do 2 f_equal; widths; lia|]. intros k [= <-]. unfold len in *. widths. lia.
       - split; [done|]. done. }
  destruct (Hids ids eq_refl) as [[Hinc Hrng Hnum] Hlen]. fold texts in Hlen.
  destruct (push_runs_spec ids Hinc Hrng) as (He & Hok & _ & Hall).
  set (runs := fold_left push_run ids []) in *. clearbody runs.
  rewrite Forall_forall in Hall. pose proof (runs_start _ _ Hok) as Hst. rewrite Forall_forall in Hst.
  destruct (find_run 0 0 runs id Hok) as
    [(j & s & l & f & Hj & Hi & Hidx & Hsl & Hin & Hf & Hff)|(Hnot & Hrest)]; rewrite He in *.
  - set (i := partition_point _ _) in *. replace (i =? 0) with false by lia.
    rewrite Hidx, bind_ret. specialize (Hall _ Hin). specialize (Hst _ Hin). simpl in Hall, Hst.
    rewrite (list_find_index ids j id Hinc Hj). simpl. apply lookup_lt_Some in Hj as Hlt.
    split; [|intros k [= <-]; lia]. widths.
    unfold add32, sub32, as_u32. rewrite (Z.mod_small (s + l)), (Z.mod_small (id - s)) by lia.
    replace (id <? s + l) with true by lia. do 2 f_equal. rewrite Z.mod_small; unfold len in *; lia.
  - assert (list_find (λ i, i = id) ids = None) as ->.
    { apply list_find_None, Forall_forall. intros x Hx ->. done. }
    simpl. split; [|done]. destruct Hrest as [-> |(s & l & f & Hidx & Hsl & Hin)]; [done|].
    set (i := partition_point _ _) in *. destruct (i =? 0); [done|].
    rewrite Hidx, bind_ret. specialize (Hall _ Hin). specialize (Hst _ Hin). simpl in Hall, Hst.
    pose proof (runs_nonneg _ _ Hok) as Hnn. rewrite Forall_forall in Hnn. specialize (Hnn _ Hin).
    simpl in Hnn. widths. unfold add32, as_u32. rewrite (Z.mod_small (s + l)) by lia.
    by replace (id <? s + l) with false by lia.
Qed.

Lemma text_at_written k t :
  texts !! k = Some t → text_at part_of (Z.of_nat k) = Ret t.
Proof using ok.
  intros Hk. apply lookup_lt_Some in Hk as Hlt. unfold text_at.
  change (tp_num_terms part_of) with #texts. replace (_ <=? _) with false by (unfold len; lia).
  assert (∀ j : nat, (j ≤ length texts)%nat →
    read_text_offset part_of (Z.of_nat j) = Ret #(concat (take j texts))) as Hoff.
  { intros j Hj. apply (get_table_of _ text_offsets_encodable); [lia|].
    rewrite Nat2Z.id. by rewrite prefix_sums_lookup by done. }
  rewrite Hoff, bind_ret by lia. replace (Z.of_nat k + 1) with (Z.of_nat (S k)) by lia.
  rewrite Hoff, bind_ret by lia. change (tp_text_data part_of) with (concat texts).
  pose proof (len_concat_take_le texts (S k)). pose proof (len_concat_take_mono texts k (S k) ltac:(lia)).
  replace (_ || _) with false by lia.
  rewrite <- (app_nil_r (concat texts)), (slice_region texts k t [] _ _ Hk eq_refl eq_refl), bind_ret.
  unfold from_utf8. pose proof (wo_texts _ ok) as Hu. rewrite Forall_lookup in Hu.
  by rewrite (Hu _ _ Hk).
Qed.

Lemma inline_meta_written k m :
  metas !! k = Some m → inline_meta part_of (Z.of_nat k) = Ret (meta_bytes m).
Proof using ok.
  intros Hk. apply lookup_lt_Some in Hk as Hlt. unfold inline_meta.
  change (tp_num_terms part_of) with #texts. pose proof (wo_lens _ ok).
  replace (_ <=? _) with false by (unfold texts, metas, len in *; lia).
  cbn [part_of tp_text_offsets tp_entries]. unfold META_SIZE. rewrite Z.mul_comm.
  destruct (At_record meta_bytes 4 len_meta_bytes metas k m [] Hk) as [rest Hat].
  rewrite app_nil_r in Hat. rewrite (At_slice_from _ _ _ Hat), bind_ret. by apply slice_prefix.
Qed.

Lemma meta_at_written k m : metas !! k = Some m → meta_at part_of (Z.of_nat k) = Ret m.
Proof using ok.
  intros Hk. unfold meta_at. change (has_inline_meta part_of) with true. cbv iota.
  rewrite (inline_meta_written k m Hk), bind_ret.
  assert (meta_ok m) as Hm.
  { pose proof (wo_metas _ ok : Forall meta_ok metas) as Hall. rewrite Forall_lookup in Hall. eauto. }
  destruct (read_meta_bytes m Hm) as (-> & -> & ->). rewrite !bind_ret.
  destruct (flags_decode m Hm) as (-> & -> & ->). by destruct m.
Qed.

Lemma id_of_entry_written k :
  (k < length texts)%nat →
  ∃ id, id_of_entry part_of (Z.of_nat k) = Ret id ∧
    match tw_ids w with None => id = Z.of_nat k | Some ids => ids !! k = Some id end.
Proof using ok.
  intros Hk. unfold id_of_entry, part_of. cbn [tp_id_runs]. pose proof (wo_ids _ ok) as Hids.
  destruct (tw_ids w) as [ids|]; cbn [fmap option_fmap option_map]; [|eauto].
  destruct (Hids ids eq_refl) as [[Hinc Hrng Hnum] Hlen]. fold texts in Hlen.
  destruct (push_runs_spec ids Hinc Hrng) as (He & Hok & _ & Hall).
  set (runs := fold_left push_run ids []) in *. clearbody runs.
  destruct (lookup_lt_is_Some_2 ids k ltac:(lia)) as [id Hid]. exists id. split; [|done].
  pose proof (find_entry 0 0 runs k id Hok) as Hfind. rewrite He in Hfind.
  specialize (Hfind Hid). cbn zeta in Hfind. rewrite Z.add_0_l in Hfind.
  destruct Hfind as (s & l & f & -> & Hf & Heq). rewrite bind_ret.
  rewrite Forall_lookup in Hrng. specialize (Hrng _ _ Hid). simpl in Hrng. widths.
  unfold add32, sub32, as_u32. rewrite (Z.mod_small (Z.of_nat k - f)) by (unfold len in *; lia).
  rewrite Z.mod_small by lia. f_equal. lia.
Qed.

(** The entries in order, with their ids. *)
Definition entry_ids : list Z :=
  match tw_ids w with Some ids => ids | None => range 0 #texts end.
Definition all_entries : list (Z * list Z * TermMetaV3) := zip (zip entry_ids texts) metas.

Lemma part_iter_written : part_iter part_of = Ret all_entries.
Proof using ok.
  unfold part_iter. change (tp_num_terms part_of) with #texts.
  rewrite (mapM_out_pure _ (λ i, all_entries !! Z.to_nat i)).
  - rewrite bind_ret. f_equal.
    assert (length all_entries = length texts) as Hlen.
    { unfold all_entries, entry_ids. pose proof (wo_lens _ ok). pose proof (wo_ids _ ok) as Hids.
      rewrite !length_zip_with. unfold texts, metas in *. destruct (tw_ids w) as [ids|].
      - destruct (Hids ids eq_refl) as [_ ?]. lia.
      - rewrite length_range. unfold len. lia. }
    unfold len. rewrite <- Hlen. clear Hlen. generalize all_entries. intros l.
    induction l as [|x l IH] using rev_ind; [done|].
    rewrite length_app. cbn [length]. rewrite (range_app 0 (Z.of_nat (length l))) by lia.
    rewrite map_app, omap_app.
    rewrite (range_cons (Z.of_nat (length l))), (range_nil (Z.of_nat (length l) + 1)) by lia. cbn [map omap list_omap].
    rewrite Nat2Z.id, lookup_app_r, Nat.sub_diag by lia. simpl. f_equal.
    rewrite <- IH at 2. f_equal. apply map_ext_in. intros i Hi%list_elem_of_In%elem_of_range.
    apply lookup_app_l. lia.
  - intros i Hi%elem_of_range. destruct (Z_of_nat_complete i ltac:(lia)) as [k ->]. rewrite Nat2Z.id.
    assert (k < length texts)%nat as Hk by (unfold len in *; lia).
    destruct (entry_at_some k Hk) as (t & m & Ht & Hm).
    destruct (id_of_entry_written k Hk) as (id & Hid & Hids).
    rewrite (text_at_written k t Ht), (meta_at_written k m Hm), Hid, !bind_ret. cbn [catch].
    f_equal. symmetry. unfold all_entries, entry_ids. apply lookup_zip_Some. split; [|done].
    apply lookup_zip_Some. split; [|done]. simpl. destruct (tw_ids w); [done|].
    subst id. apply range_lookup. unfold len. lia.
Qed.
End Written.

(** What a writer holds for an id. *)
Definition writer_lookup (w : TermTextsWriterV3) (id : Z) : option (list Z * TermMetaV3) :=
  k ← entry_index w id; entry_at w k.

(** What several files hold for an id: the first file's answer. *)
Fixpoint lookup_first (ws : list TermTextsWriterV3) (id : Z) : option (list Z * TermMetaV3) :=
  match ws with
  | [] => None
  | w :: ws =>
      match writer_lookup w id with
      | Some e => Some e
      | None => lookup_first ws id
      end
  end.

Lemma locate_written ws id :
  Forall writer_ok ws → fits 32 id →
  match lookup_first ws id with
  | Some (t, m) =>
      ∃ p i e, locate_in (part_of <$> ws) id = Ret (p, i) ∧ text_at p i = Ret t ∧ meta_at p i = Ret m ∧
        has_inline_meta p = true ∧ inline_meta p i = Ret e ∧
        u16_at e 0 = Ret (own_len m) ∧ index e 2 = Ret (sep_len m)
  | None => locate_in (part_of <$> ws) id = Nothing
  end.
Proof.
  intros Hws Hid. induction Hws as [|w ws Hw Hws IH]; [done|]. cbn [lookup_first fmap list_fmap locate_in].
  destruct (local_index_written w Hw id Hid) as [-> Hlt]. rewrite bind_ret.
  unfold writer_lookup. destruct (entry_index w id) as [k|] eqn:E; cbn; [|exact IH].
  destruct (entry_at_some w Hw k (Hlt k eq_refl)) as (t & m & Ht & Hm).
  unfold entry_at. rewrite Ht. cbn. rewrite Hm. cbn.
  assert (meta_ok m) as Hmok.
  { pose proof (wo_metas _ Hw) as Hall. rewrite Forall_lookup in Hall. eauto. }
  destruct (read_meta_bytes m Hmok) as (H1 & H2 & _).
  exists (part_of w), (Z.of_nat k), (meta_bytes m). split_and!; try done.
  - by apply text_at_written.
  - by apply meta_at_written.
  - by apply inline_meta_written.
Qed.

Lemma reads_written p ps w ws id :
  part_of <$> (w :: ws) = p :: ps → Forall writer_ok (w :: ws) → fits 32 id →
  let r := {| tr_first := p; tr_more := ps |} in
  text r id = of_option (fst <$> lookup_first (w :: ws) id) ∧
  meta r id = of_option (snd <$> lookup_first (w :: ws) id) ∧
  entry r id = of_option (lookup_first (w :: ws) id) ∧
  has_content r id = Ret (match lookup_first (w :: ws) id with
                          | Some (_, m) => sep_len m <? own_len m | None => true end).
Proof.
  intros Hps Hws Hid r. pose proof (locate_written (w :: ws) id Hws Hid) as Hloc.
  rewrite Hps in Hloc. change (locate_in (p :: ps) id) with (locate r id) in Hloc.
  unfold entry, text, meta, has_content. destruct (lookup_first (w :: ws) id) as [[t m]|].
  - destruct Hloc as (q & i & e & -> & Ht & Hm & Hin & He & H1 & H2).
    rewrite !bind_ret. cbn [catch]. rewrite bind_ret, Ht, Hm, Hin, He. cbn [catch].
    rewrite !bind_ret, H1, H2, !bind_ret. done.
  - by rewrite Hloc.
Qed.

(** The files of several writers open as one reader. *)
Lemma open_written w ws :
  Forall writer_ok (w :: ws) →
  ∃ files, mapM_out serialize (w :: ws) = Ret files ∧
    open_parts files = Ret {| tr_first := part_of w; tr_more := part_of <$> ws |}.
Proof.
  intros Hws. set (bytes w := section_file.serialize (SectionFile.build MAGIC VERSION (file_sections w))).
  assert (∀ w, writer_ok w → serialize w = Ret (bytes w)) as Hs by apply serialize_eq.
  assert (∀ w, writer_ok w → open_part (bytes w) = Ret (part_of w)) as Ho by apply open_part_written.
  clearbody bytes.
  assert (∀ ws, Forall writer_ok ws → mapM_out serialize ws = Ret (map bytes ws) ∧
    mapM_out open_part (map bytes ws) = Ret (part_of <$> ws)) as Hall.
  { induction 1 as [|w' ws' Hw' _ [IH1 IH2]]; [done|]. cbn [mapM_out map].
    rewrite (Hs w' Hw'), IH1, !bind_ret. split; [done|]. by rewrite (Ho w' Hw'), IH2, !bind_ret. }
  exists (map bytes (w :: ws)). destruct (Hall _ Hws) as [Hser _]. split; [done|].
  apply Forall_cons in Hws as [Hw Hrest]. cbn [map open_parts].
  rewrite (Ho w Hw), bind_ret. by destruct (Hall _ Hrest) as [_ ->].
Qed.

(** ** The longest word *)

Lemma fold_max_le l a b : fold_left Z.max l a ≤ b ↔ a ≤ b ∧ Forall (λ x, x ≤ b) l.
Proof.
  revert a. induction l as [|x l IH]; intros a; simpl.
  - naive_solver.
  - rewrite IH, Forall_cons. intuition lia.
Qed.

Lemma max_word_le metas b :
  0 ≤ b → max_word metas ≤ b ↔ ∀ m, m ∈ metas → is_word_stripped m = true → content_len m ≤ b.
Proof.
  intros Hb. unfold max_word. rewrite fold_max_le, Forall_forall. split.
  - intros [_ H] m Hm Hst. apply H. rewrite list_elem_of_In, in_map_iff. exists m. split; [done|].
    apply filter_In. by rewrite <- list_elem_of_In.
  - intros H. split; [done|]. intros x Hx. rewrite list_elem_of_In, in_map_iff in Hx.
    destruct Hx as (m & <- & Hm). apply filter_In in Hm as [Hm Hst]. apply H; [|done].
    by rewrite list_elem_of_In.
Qed.

(** ** Building *)

(** [add] keeps one metadata record per text. *)
Lemma add_lens w ord t m :
  0 ≤ ord → length (tw_metas w) = length (tw_texts w) →
  length (tw_metas (add w ord t m)) = length (tw_texts (add w ord t m)).
Proof.
  intros Ho Hl. unfold add. destruct (_ <=? _); simpl; unfold set_at; rewrite !length_insert; [|done].
  pose proof (len_resize (ord + 1) empty_meta (tw_metas w) ltac:(lia)).
  pose proof (len_resize (ord + 1) [] (tw_texts w) ltac:(lia)). unfold len in *. lia.
Qed.

Lemma add_lookup w ord t m (k : nat) :
  0 ≤ ord → length (tw_metas w) = length (tw_texts w) →
  tw_texts (add w ord t m) !! k =
    (if decide (k = Z.to_nat ord) then Some t
     else if decide ((k < Z.to_nat ord)%nat) then Some (default [] (tw_texts w !! k))
     else tw_texts w !! k) ∧
  tw_metas (add w ord t m) !! k =
    (if decide (k = Z.to_nat ord) then Some m
     else if decide ((k < Z.to_nat ord)%nat) then Some (default empty_meta (tw_metas w !! k))
     else tw_metas w !! k).
Proof.
  intros Ho Hl.
  assert (∀ {A} (d : A) (l : list A) x, (#l <=? ord) = (#(tw_texts w) <=? ord) →
    set_at ord x (if #(tw_texts w) <=? ord then resize (ord + 1) d l else l) !! k =
    if decide (k = Z.to_nat ord) then Some x
    else if decide ((k < Z.to_nat ord)%nat) then Some (default d (l !! k)) else l !! k) as Hset.
  { intros A d l x <-. unfold set_at. destruct (#l <=? ord) eqn:E.
    - assert (Z.to_nat ord < length (resize (ord + 1) d l))%nat.
      { pose proof (len_resize (ord + 1) d l ltac:(lia)). unfold len in *. lia. }
      destruct (decide (k = Z.to_nat ord)) as [->|]; [by apply list_lookup_insert_eq|].
      rewrite list_lookup_insert_ne by done. destruct (decide _).
      + apply resize_lookup; unfold len in *; lia.
      + rewrite !lookup_ge_None_2; [done|unfold len in *; lia|].
        pose proof (len_resize (ord + 1) d l ltac:(lia)). unfold len in *. lia.
    - destruct (decide (k = Z.to_nat ord)) as [->|].
      + apply list_lookup_insert_eq. unfold len in *. lia.
      + rewrite list_lookup_insert_ne by done. destruct (decide _); [|done].
        destruct (lookup_lt_is_Some_2 l k) as [y ->]; [unfold len in *; lia|done]. }
  unfold add. split.
  - rewrite <- (Hset _ [] (tw_texts w) t eq_refl). by destruct (_ <=? _).
  - assert ((#(tw_metas w) <=? ord) = (#(tw_texts w) <=? ord)) as He by (unfold len; by rewrite Hl).
    rewrite <- (Hset _ empty_meta (tw_metas w) m He). by destruct (_ <=? _).
Qed.

(** ** Totality *)

(** What [open] establishes of any file it accepts. *)
Record part_wf (p : Part) : Prop := {
  pw_entries : bytes_ok (tp_entries p);
  pw_num : 0 ≤ tp_num_terms p;
  pw_layout : match tp_text_offsets p with
    | Some _ => #(tp_entries p) = tp_num_terms p * META_SIZE
    | None => (tp_stride p = 4 ∨ tp_stride p = ENTRY_SIZE) ∧
              #(tp_entries p) = (tp_num_terms p + 1) * tp_stride p
    end;
  pw_legacy : ∀ d c, tp_legacy_meta p = Some (d, c) → bytes_ok d;
}.

Lemma parse_total bytes :
  bytes_ok bytes → parse bytes = Nothing ∨ ∃ t used, parse bytes = Ret (t, used) ∧ 0 ≤ used ≤ #bytes.
Proof.
  intros Hb. unfold parse. destruct (#bytes <? 12) eqn:E; [by left|].
  destruct (u32_at_ok bytes 0) as (n & -> & Hn); [done|lia..|].
  destruct (u32_at_ok bytes 4) as (nb & -> & Hnb); [done|lia..|].
  destruct (u32_at_ok bytes 8) as (bb & -> & Hbb); [done|lia..|]. rewrite !bind_ret. widths.
  destruct (_ || _) eqn:E'; [by left|].
  destruct (slice_returns bytes 12 (12 + nb * 4)) as [d ->]; [lia..|]. rewrite bind_ret.
  destruct (slice_returns bytes (12 + nb * 4) (12 + nb * 4 + bb)) as [bl ->]; [lia..|]. rewrite bind_ret.
  right. eexists _, _. split; [done|]. lia.
Qed.

(** The [if ... then Nothing else ...] guards of an opening function. *)
Ltac reject := match goal with |- context [if ?b then Nothing else _] =>
  let E := fresh "E" in destruct b eqn:E; [exact I|] end.

Definition wf_entries (x : Z * list Z * Z * list Z * option (list Z * Z) * option BlockOffsets) : Prop :=
  let '(num, entries, stride, texts, legacy, offs) := x in
  part_wf {| tp_num_terms := num; tp_id_runs := None; tp_text_offsets := offs; tp_entries := entries;
             tp_stride := stride; tp_text_data := texts; tp_legacy_meta := legacy;
             tp_max_word_content_len := None |}.

Lemma open_entries_total file :
  reader_ok file → opens wf_entries (open_entries file).
Proof.
  intros Hf. unfold open_entries, META_SIZE, ENTRY_SIZE, slice_from.
  destruct (get_section_total file SECTION_ENTRIES3 Hf) as [_ [->|(raw & -> & Hb)]]; cbn [catch]; rewrite bind_ret.
  2: { reject. destruct (u32_at_ok raw 0) as (n & -> & Hn); [done|lia..|]. rewrite bind_ret. widths.
       destruct (slice_returns raw 4 #raw) as [tl Htl]; [lia..|].
       rewrite Htl, bind_ret. apply slice_ok in Htl as Hok; [|done].
       apply slice_len in Htl. destruct (parse_total tl Hok) as [->|(t & u & -> & Hu)]; [exact I|].
       rewrite bind_ret. cbv beta iota. reject. reject.
       destruct (slice_returns raw (4 + u) (4 + u + n * 4)) as [e He]; [lia..|]. rewrite He, bind_ret.
       destruct (slice_returns raw (4 + u + n * 4) #raw) as [tx ->]; [lia..|].
       rewrite bind_ret. apply slice_ok in He as Heok; [|done].
       apply slice_len in He. split; simpl; [done|lia|unfold META_SIZE; lia|done]. }
  destruct (get_section_total file SECTION_ENTRIES Hf) as [_ [->|(raw & -> & Hb)]]; cbn [catch]; rewrite bind_ret.
  2: { reject. destruct (u32_at_ok raw 0) as (n & -> & Hn); [done|lia..|]. rewrite bind_ret. widths. reject.
       destruct (slice_returns raw 4 (4 + (n + 1) * 8)) as [e He]; [lia..|]. rewrite He, bind_ret.
       destruct (slice_returns raw (4 + (n + 1) * 8) #raw) as [tx ->]; [lia..|].
       rewrite bind_ret. apply slice_ok in He as Heok; [|done].
       apply slice_len in He. split; simpl; [done|lia| |done]. unfold ENTRY_SIZE. split; [auto|lia]. }
  destruct (get_section_total file SECTION_TEXTS Hf) as [_ [->|(raw & -> & Hb)]]; [exact I|]. rewrite bind_ret.
  reject. destruct (u32_at_ok raw 0) as (n & -> & Hn); [done|lia..|]. rewrite bind_ret. widths. reject.
  destruct (slice_returns raw 4 (4 + (n + 1) * 4)) as [e He]; [lia..|].
  destruct (slice_returns raw (4 + (n + 1) * 4) #raw) as [tx Htx]; [lia..|].
  apply slice_ok in He as Heok; [|done]. apply slice_len in He as Hel.
  assert (∀ legacy : option (list Z * Z), (∀ d c, legacy = Some (d, c) → bytes_ok d) →
    opens wf_entries (entries ← slice raw 4 (4 + (n + 1) * 4);
      texts ← slice raw (4 + (n + 1) * 4) #raw;
      Ret (n, entries, 4, texts, legacy, None))) as Hfin.
  { intros legacy Hleg. rewrite He, Htx, !bind_ret. 
    split; simpl; [done|lia|split; [auto|lia]|done]. }
  destruct (get_section_total file SECTION_META Hf) as [_ [->|(m & -> & Hbm)]]; cbn [catch]; rewrite bind_ret.
  - rewrite bind_ret. apply Hfin. done.
  - destruct (#m <? 4) eqn:E4; [rewrite bind_ret; by apply Hfin|].
    destruct (slice_returns m 4 #m) as [b Hbs]; [lia..|].
    rewrite Hbs, bind_ret. destruct (u32_at_ok m 0) as (c & -> & Hc); [done|lia..|].
    rewrite !bind_ret. apply Hfin. intros d c' [= <- <-]. by eapply slice_ok.
Qed.

Lemma open_stats_total file : reader_ok file → ∃ o, open_stats file = Ret o.
Proof.
  intros Hf. unfold open_stats.
  destruct (get_section_total file SECTION_STATS Hf) as [_ [->|(s & -> & Hb)]]; cbn [catch]; rewrite bind_ret; [eauto|].
  destruct (#s <? 4) eqn:E; [eauto|]. destruct (u16_at_ok s 2) as (v & -> & _); [done|lia..|].
  destruct (u16_at_ok s 0) as (u & -> & _); [done|lia..|]. rewrite bind_ret.
  destruct (v =? _); rewrite ?bind_ret; eauto.
Qed.

Lemma open_id_runs_total file : reader_ok file → ∃ o, open_id_runs file = Ret o.
Proof.
  intros Hf. unfold open_id_runs.
  destruct (get_section_total file SECTION_IDS Hf) as [_ [->|(s & -> & Hb)]]; cbn [catch]; rewrite bind_ret; [eauto|].
  destruct (#s <? 4) eqn:E; [eauto|]. destruct (u32_at_ok s 0) as (n & -> & Hn); [done|lia..|]. rewrite bind_ret.
  destruct (#s <? 4 + n * 8) eqn:E'; [eauto|].
  assert (∀ l st, Forall (λ i, 0 ≤ i < n) l → ∃ st', foldM (λ st i,
        let '(runs, first) := st in
        let o := 4 + i * 8 in
        start ← u32_at s o;
        len ← u32_at s (o + 4);
        Ret (runs ++ [(start, len, first)], add32 first len)) st l = Ret st') as Hfold.
  { induction l as [|i l IH]; intros st Hl; [by eexists|]. apply Forall_cons in Hl as [Hi Hl].
    cbn [foldM]. destruct st as [runs first]. cbv zeta.
    destruct (u32_at_ok s (4 + i * 8)) as (a & -> & _); [done|lia..|].
    destruct (u32_at_ok s (4 + i * 8 + 4)) as (b & -> & _); [done|lia..|]. rewrite !bind_ret. by apply IH. }
  cbv zeta in Hfold |- *.
  destruct (Hfold (range 0 n) ([], 0)) as [[runs f] ->]; [|rewrite bind_ret; eauto].
  apply Forall_forall. intros i Hi%elem_of_range. done.
Qed.

Lemma open_part_total bytes :
  bytes_ok bytes → open_part bytes = Nothing ∨ ∃ p, open_part bytes = Ret p ∧ part_wf p.
Proof.
  intros Hb. unfold open_part. destruct (open_total bytes MAGIC Hb) as [->|(file & -> & Hf)]; [by left|].
  rewrite bind_ret. destruct (opens_inv _ _ (open_entries_total file Hf)) as [->|(x & -> & Hx)]; [by left|]. rewrite bind_ret.
  destruct x as [[[[[num entries] stride] texts] legacy] offs]. cbv beta iota.
  destruct (open_stats_total file Hf) as [o ->]. rewrite bind_ret.
  destruct (open_id_runs_total file Hf) as [o' ->]. rewrite bind_ret.
  right. eexists. split; [done|]. destruct Hx as [H1 H2 H3 H4]. by split.
Qed.

Lemma partition_point_le {A} (p : A → bool) l : partition_point p l ≤ #l.
Proof. induction l as [|a l IH]; simpl; [done|]. rewrite len_cons. pose proof (len_nonneg l).
  destruct (p a); lia. Qed.

Lemma local_index_total p id : 0 ≤ id → ∃ o, local_index p id = Ret o ∧ ∀ i, o = Some i → 0 ≤ i.
Proof.
  intros Hid. unfold local_index. destruct (tp_id_runs p) as [runs|].
  2: { eexists. split; [done|]. destruct (_ <? _); intros i; [|done]. intros [= <-]. done. }
  pose proof (partition_point_le (λ r : Z * Z * Z, fst (fst r) <=? id) runs).
  pose proof (partition_point_nonneg (λ r : Z * Z * Z, fst (fst r) <=? id) runs).
  set (i := partition_point _ _) in *. destruct (i =? 0) eqn:E; [by exists None|].
  destruct (index_in runs (i - 1)) as ([[s l] f] & -> & _); [lia|]. rewrite bind_ret.
  eexists. split; [done|]. intros j. destruct (_ <? _); [|done]. intros [= <-].
  apply Z.mod_pos_bound. lia.
Qed.

Lemma inline_meta_total p i :
  part_wf p → 0 ≤ i →
  inline_meta p i = Nothing ∨ ∃ e, inline_meta p i = Ret e ∧ #e = 4 ∧ bytes_ok e.
Proof.
  intros [He Hn Hl _] Hi. unfold inline_meta. destruct (_ <=? i) eqn:E; [by left|].
  unfold META_SIZE, ENTRY_SIZE in *.
  assert (∀ a, 0 ≤ a → a + 4 ≤ #(tp_entries p) → ∃ e,
    (t ← slice_from (tp_entries p) a; slice t 0 4) = Ret e ∧ #e = 4 ∧ bytes_ok e) as Hrd.
  { intros a Ha Hb. unfold slice_from. destruct (slice_returns (tp_entries p) a #(tp_entries p)) as [t Ht]; [lia..|].
    rewrite Ht, bind_ret. apply slice_ok in Ht as Htok; [|done]. apply slice_len in Ht.
    destruct (slice_returns t 0 4) as [e Hee]; [lia..|]. exists e.
    apply slice_ok in Hee as Heok; [|done]. apply slice_len in Hee as Hel. split_and!; [done|lia|done]. }
  destruct (tp_text_offsets p).
  - right. apply Hrd; lia.
  - destruct Hl as [Hst Hl]. destruct (tp_stride p =? 8) eqn:E8; [|by left].
    right. apply Hrd; lia.
Qed.

Lemma meta_at_total p i : part_wf p → 0 ≤ i → returns (meta_at p i).
Proof.
  intros Hp Hi. unfold meta_at. destruct (has_inline_meta p).
  - destruct (inline_meta_total p i Hp Hi) as [->|(e & -> & Hl & Hb)]; [done|]. rewrite bind_ret.
    destruct (u16_at_ok e 0) as (v & -> & _); [done|lia..|].
    destruct (index_in e 2) as (s & -> & _); [lia|]. destruct (index_in e 3) as (f & -> & _); [lia|]. done.
  - pose proof (pw_legacy _ Hp) as Hleg. destruct (tp_legacy_meta p) as [[d c]|]; [|done].
    specialize (Hleg d c eq_refl). cbn [of_option]. rewrite bind_ret.
    destruct (c <=? i); [done|]. destruct (#d <? i * 6 + 6) eqn:E; [done|].
    destruct (u16_at_ok d (i * 6)) as (v & -> & _); [done|lia..|].
    destruct (index_in d (i * 6 + 2)) as (s & -> & _); [lia|].
    destruct (index_in d (i * 6 + 3)) as (o & -> & _); [lia|].
    destruct (index_in d (i * 6 + 4)) as (a & -> & _); [lia|].
    destruct (index_in d (i * 6 + 5)) as (b & -> & _); [lia|]. done.
Qed.

Lemma text_at_total p i : part_wf p → tp_text_offsets p = None → 0 ≤ i → returns (text_at p i).
Proof.
  intros [He Hn Hl _] Hno Hi. unfold text_at, read_text_offset. destruct (_ <=? i) eqn:E; [done|].
  rewrite Hno in *. destruct Hl as [Hst Hl].
  assert (4 ≤ tp_stride p) by (unfold ENTRY_SIZE in *; lia). apply Z.leb_gt in E.
  assert ((i + 2) * tp_stride p ≤ #(tp_entries p))
    by (rewrite Hl; apply Z.mul_le_mono_nonneg_r; lia).
  destruct (u32_at_ok (tp_entries p) (i * tp_stride p)) as (a & -> & Ha); [done|nia|nia|].
  replace ((i + 1) * tp_stride p) with (i * tp_stride p + tp_stride p) by lia.
  destruct (u32_at_ok (tp_entries p) (i * tp_stride p + tp_stride p)) as (b & -> & Hb); [done|nia|lia|].
  rewrite !bind_ret. destruct (_ || _) eqn:E'; [done|]. widths.
  destruct (slice_returns (tp_text_data p) a b) as [t ->]; [lia..|]. rewrite bind_ret.
  unfold from_utf8. by destruct (utf8_valid t).
Qed.

(** ** Properties *)

(** C31. Term texts round trip, alone or over several files: the files the
    writers serialize open as one reader, and for every 32-bit id the reader
    returns the text and the metadata (every field, the two flags and the
    packed overlap included) of the first file that holds the id, through its
    run-coded id section where it has one; an id no file holds is [None], and
    counts as content.  [iter] over one file lists its entries in order, each
    under its own id. *)
Theorem termtexts_roundtrip (w : TermTextsWriterV3) (ws : list TermTextsWriterV3) :
  Forall writer_ok (w :: ws) →
  ∃ files r, mapM_out serialize (w :: ws) = Ret files ∧ open_parts files = Ret r ∧
    (∀ id, fits 32 id →
       text r id = of_option (fst <$> lookup_first (w :: ws) id) ∧
       meta r id = of_option (snd <$> lookup_first (w :: ws) id) ∧
       entry r id = of_option (lookup_first (w :: ws) id) ∧
       has_content r id = Ret (match lookup_first (w :: ws) id with
                               | Some (_, m) => sep_len m <? own_len m | None => true end)) ∧
    part_iter (tr_first r) = Ret (all_entries w).
Proof.
  intros Hws. destruct (open_written w ws Hws) as (files & Hser & Hopen).
  eexists files, _. split; [done|]. split; [done|]. split.
  - intros id Hid. by apply reads_written.
  - apply part_iter_written. by apply Forall_cons in Hws as [Hw _].
Qed.

Definition sample_meta (own : Z) (stripped : bool) : TermMetaV3 :=
  {| own_len := own; sep_len := 1; overlap_len := 2; is_word_start := true; is_word_stripped := stripped |}.
Definition sample_writer : TermTextsWriterV3 :=
  with_ids (add (add (add new 0 [0x61; 0x62] (sample_meta 2 false)) 2 [0xC3; 0xA9] (sample_meta 300 true))
    1 [] (sample_meta 0 true)) [4; 5; 9].

Lemma sample_writer_ok : writer_ok sample_writer.
Proof.
  split; [done|by apply (bool_decide_unpack _)| |by vm_compute|by vm_compute|].
  { do 3 (constructor; [by vm_compute|]). constructor. }
  intros ids [= <-]. split; [|done]. split; [|by repeat constructor; vm_compute|by vm_compute].
  intros i j a b Hij Ha Hb.
  do 3 (destruct i as [|i]; [do 3 (destruct j as [|j]; [simpl in *; simplify_eq; lia|]); done|]). done.
Qed.

Definition sample_writer2 : TermTextsWriterV3 := add new 0 [0x7A] (sample_meta 1 false).

Lemma sample_writer2_ok : writer_ok sample_writer2.
Proof.
  split; [done|by apply (bool_decide_unpack _)| |by vm_compute|by vm_compute|done].
  constructor; [by vm_compute|constructor].
Qed.

Lemma termtexts_roundtrip_witness :
  ∃ files r, mapM_out serialize [sample_writer; sample_writer2] = Ret files ∧ open_parts files = Ret r ∧
    (∀ id, fits 32 id →
       text r id = of_option (fst <$> lookup_first [sample_writer; sample_writer2] id) ∧
       meta r id = of_option (snd <$> lookup_first [sample_writer; sample_writer2] id) ∧
       entry r id = of_option (lookup_first [sample_writer; sample_writer2] id) ∧
       has_content r id = Ret (match lookup_first [sample_writer; sample_writer2] id with
                               | Some (_, m) => sep_len m <? own_len m | None => true end)) ∧
    part_iter (tr_first r) = Ret (all_entries sample_writer).
Proof.
  apply (termtexts_roundtrip sample_writer [sample_writer2]).
  constructor; [apply sample_writer_ok|]. constructor; [apply sample_writer2_ok|constructor].
Defined.

(** The long-word shortcut is sound and exact: over the files written,
    [may_have_long_words] answers [false] exactly when every word-stripped
    entry of every file has a content of at most [WORD_SUFFIX_CAP] bytes, so
    skipping the chunk chains then loses no occurrence. *)
Theorem termtexts_long_words (w : TermTextsWriterV3) (ws : list TermTextsWriterV3) :
  Forall writer_ok (w :: ws) →
  ∃ files r, mapM_out serialize (w :: ws) = Ret files ∧ open_parts files = Ret r ∧
    (may_have_long_words r = false ↔
       ∀ w' m, w' ∈ w :: ws → m ∈ tw_metas w' → is_word_stripped m = true →
         content_len m ≤ WORD_SUFFIX_CAP).
Proof.
  intros Hws. destruct (open_written w ws Hws) as (files & Hser & Hopen).
  eexists files, _. split; [done|]. split; [done|].
  unfold may_have_long_words, max_word_content_len. cbn [tr_first tr_more part_of tp_max_word_content_len].
  assert (∀ l a, fold_left (λ m p, m ← m; n ← tp_max_word_content_len p; Some (Z.max m n))
    (part_of <$> l) (Some a) = Some (fold_left Z.max (map (λ w, max_word (tw_metas w)) l) a)) as ->.
  { induction l as [|w' l IH]; intros a; [done|]. simpl. apply IH. }
  rewrite Z.ltb_ge, fold_max_le, max_word_le, Forall_forall by done.
  split.
  - intros [H1 H2] w' m Hw' Hm Hst. apply elem_of_cons in Hw' as [->|Hw']; [by apply H1|].
    specialize (H2 (max_word (tw_metas w'))). rewrite max_word_le in H2 by done.
    apply H2; [|done..]. rewrite list_elem_of_In, in_map_iff. exists w'. by rewrite <- list_elem_of_In.
  - intros H. split; [intros m; apply H; set_solver|]. intros x Hx.
    rewrite list_elem_of_In, in_map_iff in Hx. destruct Hx as (w' & <- & Hw').
    rewrite max_word_le by done. intros m. apply H. rewrite <- list_elem_of_In in Hw'. set_solver.
Qed.

Lemma termtexts_long_words_witness :
  ∃ files r, mapM_out serialize [sample_writer; sample_writer2] = Ret files ∧ open_parts files = Ret r ∧
    (may_have_long_words r = false ↔
       ∀ w' m, w' ∈ [sample_writer; sample_writer2] → m ∈ tw_metas w' → is_word_stripped m = true →
         content_len m ≤ WORD_SUFFIX_CAP).
Proof.
  apply (termtexts_long_words sample_writer [sample_writer2]).
  constructor; [apply sample_writer_ok|]. constructor; [apply sample_writer2_ok|constructor].
Defined.

(** No file takes the reader down: on any bytes, in any of the three
    layouts, [open] returns, and on whatever it accepts the metadata of every
    id is read or refused without a panic; so is the text in layouts 1 and 2
    (layout 3 trusts its block table). *)
Theorem termtexts_total (bytes : list Z) (id : Z) :
  bytes_ok bytes → 0 ≤ id →
  returns (open bytes) ∧
  ∀ r, open bytes = Ret r →
    returns (meta r id) ∧ returns (has_content r id) ∧
    (tp_text_offsets (tr_first r) = None → returns (text r id)).
Proof.
  intros Hb Hid. unfold open. destruct (open_part_total bytes Hb) as [->|(p & -> & Hp)]; [done|].
  rewrite bind_ret. split; [done|]. intros r [= <-].
  unfold meta, has_content, text, locate. cbn [tr_first tr_more locate_in].
  destruct (local_index_total p id Hid) as (o & -> & Ho). rewrite bind_ret.
  destruct o as [i|]; [|done]. specialize (Ho i eq_refl). cbn [catch]. rewrite !bind_ret.
  pose proof (meta_at_total p i Hp Ho) as Hm. split; [done|]. split.
  - destruct (has_inline_meta p).
    + destruct (inline_meta_total p i Hp Ho) as [->|(e & -> & Hl & Hbe)]; [done|]. cbn [catch].
      rewrite bind_ret. destruct (u16_at_ok e 0) as (v & -> & _); [done|lia..|].
      by destruct (index_in e 2) as (s & -> & _); [lia|].
    + by destruct (meta_at p i).
  - intros Hno. by apply text_at_total.
Qed.

Lemma termtexts_total_witness :
  let bytes := [0x54; 0x54; 0x58; 0x33; 1; 1; 0; 1; 0; 0; 0; 0; 0; 0; 0; 12; 0; 0; 0;
                1; 0; 0; 0; 9; 0; 0; 0; 2; 0; 0; 0] in
  returns (open bytes) ∧
  ∀ r, open bytes = Ret r →
    returns (meta r 0) ∧ returns (has_content r 0) ∧
    (tp_text_offsets (tr_first r) = None → returns (text r 0)).
Proof.
  apply (termtexts_total [0x54; 0x54; 0x58; 0x33; 1; 1; 0; 1; 0; 0; 0; 0; 0; 0; 0; 12; 0; 0; 0;
                1; 0; 0; 0; 9; 0; 0; 0; 2; 0; 0; 0] 0); [|lia].
  by repeat constructor; vm_compute.
Defined.
