(* ===== verification/TermMerge.v ===== *)
(** * Merging term texts ([src/suffix_fst/termtexts_v3.rs], [MergedEntries]
    and [write_merged])

    The generations of a shard dictionary merged into one file: a heap over
    the files' cursors yields the entries ascending by id, an id held by two
    files once, from the first; [write_merged] streams the merge three times
    (offsets and ids, metadata, texts) without holding the entries. *)
From S2P Require Import Prelude Ordering OffsetTables SectionFile TermTexts.
Import block_offsets termtexts.

Module merge.

(** [(id, text, meta)], the item of the iterators. *)
Definition item : Type := Z * list Z * TermMetaV3.

(** [BinaryHeap<Reverse<(u32, usize)>>]: [pop] takes the smallest
    [(id, cursor)]. *)
Definition heap := list (Z * Z).
Definition heap_push (h : heap) (x : Z * Z) : heap := x :: h.
Definition pair_leb (a b : Z * Z) : bool := lex_leb [fst a; snd a] [fst b; snd b].
Fixpoint heap_pop (h : heap) : option (Z * Z * heap) :=
  match h with
  | [] => None
  | x :: h =>
      match heap_pop h with
      | None => Some (x, [])
      | Some (y, h') => if pair_leb x y then Some (x, h) else Some (y, x :: h')
      end
  end.

(** [struct MergedEntries]. *)
Record MergedEntries := {
  me_cursors : list (list item);
  me_heap : heap;
  me_last : option Z;
}.

Definition item_id (x : item) : Z := fst (fst x).

(** [MergedEntries::new] over the entries of the parts. *)
Definition start (cursors : list (list item)) : MergedEntries :=
  let heap := fold_left (λ h ic,
    match snd ic with
    | x :: _ => heap_push h (item_id x, fst ic)
    | [] => h
    end) (zip (range 0 #cursors) cursors) [] in
  {| me_cursors := cursors; me_heap := heap; me_last := None |}.

Definition new (parts : list TermTextsReaderV3) : out MergedEntries :=
  cursors ← mapM_out iter parts;
  Ret (start cursors).

(** [Iterator::next]: each iteration takes one item off a cursor. *)
Fixpoint next (fuel : nat) (st : MergedEntries) : out (option item * MergedEntries) :=
  match fuel with
  | O => OutOfFuel
  | S fuel =>
      match heap_pop (me_heap st) with
      | None => Ret (None, st)
      | Some ((id, i), h) =>
          c ← index (me_cursors st) i;
          match c with
          | [] => Ret (None, {| me_cursors := me_cursors st; me_heap := h; me_last := me_last st |})
          | x :: rest =>
              let cursors := set_at i rest (me_cursors st) in
              let h := match rest with
                | y :: _ => heap_push h (item_id y, i)
                | [] => h
                end in
              if bool_decide (me_last st = Some id)
              then next fuel {| me_cursors := cursors; me_heap := h; me_last := me_last st |}
              else Ret (Some x, {| me_cursors := cursors; me_heap := h; me_last := Some id |})
          end
      end
  end.

(** The number of items left: enough fuel for every call. *)
Definition remaining (st : MergedEntries) : nat := length (concat (me_cursors st)).

(** [for x in MergedEntries::new(parts)]: the items, in order. *)
Fixpoint collect (fuel : nat) (st : MergedEntries) : out (list item) :=
  match fuel with
  | O => OutOfFuel
  | S fuel =>
      '(x, st) ← next (S (remaining st)) st;
      match x with
      | None => Ret []
      | Some x => xs ← collect fuel st; Ret (x :: xs)
      end
  end.
Definition merged (parts : list TermTextsReaderV3) : out (list item) :=
  st ← new parts; collect (S (remaining st)) st.

(** The first pass of [write_merged]: offsets, runs, total and the longest
    word; [None] stands for the error of a text past 4 GB. *)
Definition first_pass (st : list Z * list (Z * Z) * Z * Z) (x : item)
    : out (list Z * list (Z * Z) * Z * Z) :=
  let '(offsets, runs, total, max_word) := st in
  let '(id, text, m) := x in
  let offsets := offsets ++ [as_u32 total] in
  let total := total + #text in
  if u32_max <? total then Nothing else
  let max_word := if is_word_stripped m then Z.max max_word (content_len m) else max_word in
  Ret (offsets, push_run runs id, total, max_word).

(** [write_merged]: the bytes written to [out] and the number of entries. *)
Definition write_merged (parts : list TermTextsReaderV3) : out (list Z * Z) :=
  es ← merged parts;
  '(offsets, runs, total, max_word) ← foldM first_pass ([], [], 0, 0) es;
  let num := as_u32 #offsets in
  let offsets := offsets ++ [as_u32 total] in
  let table := encode offsets in
  let ids := ids_section runs in
  let entries_len := 4 + #table + num * META_SIZE + total in
  if u32_max <? entries_len then Nothing else
  let header := section_file.section_file_header MAGIC VERSION
    [(SECTION_ENTRIES3, as_u32 entries_len); (SECTION_STATS, 4); (SECTION_IDS, as_u32 #ids)] in
  let out_ := header ++ to_le_bytes 4 num ++ table in
  es ← merged parts;
  out_ ← foldM (λ out_ x, p ← pack_meta (snd x); Ret (out_ ++ p)) out_ es;
  es ← merged parts;
  let out_ := fold_left (λ out_ x, out_ ++ snd (fst x)) es out_ in
  Ret (out_ ++ stats_section max_word ++ ids, num).

End merge.
Import merge.

(** ** Specification *)

(** The ids of a part ascend. *)
Definition ascending (xs : list item) : Prop := increasing (item_id <$> xs).

(** The item of the first part that has its id. *)
Definition chosen (parts : list (list item)) (x : item) : Prop :=
  ∃ i part, parts !! i = Some part ∧ x ∈ part ∧
    ∀ j part', parts !! j = Some part' → (j < i)%nat → item_id x ∉ item_id <$> part'.

(** ** The heap *)

Lemma pair_leb_trans a b c : pair_leb a b = true → pair_leb b c = true → pair_leb a c = true.
Proof. apply lex_leb_trans. Qed.

Lemma heap_pop_spec h :
  match heap_pop h with
  | None => h = []
  | Some (x, h') => h ≡ₚ x :: h' ∧ ∀ y, y ∈ h → pair_leb x y = true
  end.
Proof.
  induction h as [|x h IH]; [done|]. cbn [heap_pop]. destruct (heap_pop h) as [[y h']|].
  - destruct IH as [Hp Hmin]. destruct (pair_leb x y) eqn:E.
    + split; [done|]. intros z [->|Hz]%elem_of_cons; [apply lex_leb_refl|].
      eapply pair_leb_trans; [done|]. by apply Hmin.
    + split; [rewrite Hp; apply Permutation_swap|].
      intros z [->|Hz]%elem_of_cons; [|by apply Hmin].
      destruct (lex_leb_total [fst y; snd y] [fst x; snd x]) as [H|H]; [done|].
      unfold pair_leb in E. congruence.
  - subst. split; [done|]. intros z ->%list_elem_of_singleton. apply lex_leb_refl.
Qed.

(** The heap holds the head of every cursor that is not spent, once. *)
Record heap_ok (cs : list (list item)) (h : heap) : Prop := {
  ho_nodup : NoDup h;
  ho_heads : ∀ id i, (id, i) ∈ h ↔
    ∃ x rest, 0 ≤ i ∧ cs !! Z.to_nat i = Some (x :: rest) ∧ item_id x = id;
}.

Lemma start_heap_ok cs : heap_ok cs (me_heap (start cs)).
Proof.
  unfold start. cbn [me_heap]. induction cs as [|c cs IH] using rev_ind.
  { split; [constructor|]. intros id i. split; [set_solver|]. intros (x & rest & _ & H & _). done. }
  rewrite len_app. change (len [c]) with 1. pose proof (len_nonneg cs).
  rewrite (range_app 0 #cs) by lia. rewrite (range_cons #cs), (range_nil (#cs + 1)) by lia.
  rewrite zip_with_app by (rewrite length_range; unfold len; lia). rewrite fold_left_app.
  match type of IH with heap_ok _ ?t => set (h := t) in * end. clearbody h. destruct IH as [Hnd Hin].
  assert (∀ id i, (id, i) ∈ h → i < #cs) as Hlt.
  { intros id i (x & rest & Hi & Hl & _)%Hin. apply lookup_lt_Some in Hl. unfold len. lia. }
  assert (∀ i d, (cs ++ [c]) !! i = Some d ↔ cs !! i = Some d ∨ i = length cs ∧ c = d) as Hlook.
  { intros i d. rewrite lookup_app_Some, list_lookup_singleton_Some.
    split; [intros [?|(? & ? & ?)]; [by left|right; split; [lia|done]]|].
    intros [?|[-> ->]]; [by left|right; split; [lia|split; [lia|done]]]. }
  cbn [zip_with fold_left snd fst]. destruct c as [|x rest].
  - split; [done|]. intros id i. rewrite Hin. setoid_rewrite Hlook. split.
    + intros (y & r & Hi & Hl & Hid). exists y, r. auto.
    + intros (y & r & Hi & [Hl|[_ Hl]] & Hid); [eauto|done].
  - unfold heap_push. split.
    + constructor; [|done]. intros Hx%Hlt. lia.
    + intros id i. rewrite elem_of_cons, Hin. setoid_rewrite Hlook. split.
      * intros [Heq|(y & r & Hi & Hl & Hid)].
        -- simplify_eq. exists x, rest. split_and!; [lia| |done]. right. split; [unfold len; lia|done].
        -- exists y, r. auto.
      * intros (y & r & Hi & [Hl|[Hl Heq]] & Hid); [right; exists y, r; auto|]. simplify_eq. left. f_equal. unfold len. lia.
Qed.

(** Taking the head of cursor [i] keeps the heap in step. *)
Lemma advance_heap_ok cs h h' id i x rest :
  heap_ok cs h → h ≡ₚ (id, i) :: h' → 0 ≤ i → cs !! Z.to_nat i = Some (x :: rest) →
  heap_ok (set_at i rest cs)
    (match rest with y :: _ => heap_push h' (item_id y, i) | [] => h' end).
Proof.
  intros [Hnd Hin] Hp Hi Hx. rewrite Hp in Hnd. apply NoDup_cons in Hnd as [Hnotin Hnd].
  apply lookup_lt_Some in Hx as Hlt.
  assert (item_id x = id) as Hid.
  { assert ((id, i) ∈ h) as Hm by (rewrite Hp; set_solver).
    apply Hin in Hm as (x' & r' & _ & Hx' & <-). rewrite Hx in Hx'. by simplify_eq. }
  assert (∀ a b, (a, b) ∈ h' ↔ (∃ y r, 0 ≤ b ∧ cs !! Z.to_nat b = Some (y :: r) ∧ item_id y = a) ∧ b ≠ i) as Hh'.
  { intros a b. rewrite <- Hin, Hp, elem_of_cons. split.
    - intros Hab. split; [by right|]. intros ->. apply Hnotin.
      assert ((a, i) ∈ h) as Hm by (rewrite Hp; set_solver).
      apply Hin in Hm as (x' & r' & _ & Hx' & <-). rewrite Hx in Hx'. simplify_eq. done.
    - intros [[Heq|?] Hne]; [simplify_eq|done]. }
  assert (∀ a b, 0 ≤ b → (∃ y r, set_at i rest cs !! Z.to_nat b = Some (y :: r) ∧ item_id y = a) ↔
    (b ≠ i ∧ ∃ y r, cs !! Z.to_nat b = Some (y :: r) ∧ item_id y = a) ∨
    (b = i ∧ ∃ y r, rest = y :: r ∧ item_id y = a)) as Hset.
  { intros a b Hb. unfold set_at. destruct (decide (b = i)) as [->|Hne].
    - rewrite list_lookup_insert_eq by done. naive_solver.
    - rewrite list_lookup_insert_ne by lia. naive_solver. }
  assert (∀ a b, (∃ y r, 0 ≤ b ∧ set_at i rest cs !! Z.to_nat b = Some (y :: r) ∧ item_id y = a) ↔
    (a, b) ∈ h' ∨ (b = i ∧ ∃ y r, rest = y :: r ∧ item_id y = a)) as Hall.
  { intros a b. rewrite Hh'. split.
    - intros (y & r & Hb & Hl & Hya). destruct (proj1 (Hset a b Hb)) as [[Hne (y' & r' & ? & ?)]|?];
        [by eauto|left; split; [|done]|by right]. eauto.
    - intros [[(y & r & Hb & Hl & Hya) Hne]|[-> (y & r & -> & Hya)]].
      + destruct (proj2 (Hset a b Hb)) as (y' & r' & ? & ?); [left; eauto|eauto 10].
      + destruct (proj2 (Hset a i Hi)) as (y' & r' & ? & ?); [right; eauto|eauto 10]. }
  destruct rest as [|y r].
  - split; [done|]. intros a b. rewrite Hall. split; [by left|]. intros [?|(_ & ? & ? & ? & _)]; done.
  - unfold heap_push. split.
    + constructor; [|done]. intros [_ Hne]%Hh'. done.
    + intros a b. rewrite Hall, elem_of_cons. split.
      * intros [Heq|?]; [simplify_eq; right; eauto|by left].
      * intros [?|(-> & y' & r' & Heq & Hy)]; [by right|]. simplify_eq. by left.
Qed.

(** ** The merge *)

(** The items still to come: of the ids not just yielded, the first part's. *)
Definition pending (cs : list (list item)) (last : option Z) (x : item) : Prop :=
  chosen cs x ∧ last ≠ Some (item_id x).

Record state_ok (st : MergedEntries) : Prop := {
  so_heap : heap_ok (me_cursors st) (me_heap st);
  so_asc : Forall ascending (me_cursors st);
  so_last : ∀ l c x, me_last st = Some l → c ∈ me_cursors st → x ∈ c → l ≤ item_id x;
}.

Lemma ascending_cons x xs :
  ascending (x :: xs) → ascending xs ∧ ∀ y, y ∈ xs → item_id x < item_id y.
Proof.
  intros H. split.
  - intros i j a b Hij Ha Hb. apply (H (S i) (S j)); [lia|done|done].
  - intros y [k Hk]%list_elem_of_lookup. apply (H 0%nat (S k)); [lia|done|].
    simpl. by rewrite list_lookup_fmap, Hk.
Qed.

(** Advancing a cursor past [x] changes nothing for the other ids. *)
Lemma chosen_advance cs (i : nat) x rest y :
  cs !! i = Some (x :: rest) → item_id y ≠ item_id x →
  chosen (<[i:=rest]> cs) y ↔ chosen cs y.
Proof.
  intros Hi Hne. apply lookup_lt_Some in Hi as Hlt.
  assert (∀ j c, <[i:=rest]> cs !! j = Some c → ∃ c', cs !! j = Some c' ∧
    (y ∈ c ↔ y ∈ c') ∧ (item_id y ∈ item_id <$> c ↔ item_id y ∈ item_id <$> c')) as H1.
  { intros j c Hc. destruct (decide (j = i)) as [->|Hji].
    - rewrite list_lookup_insert_eq in Hc by done. simplify_eq. exists (x :: c). split; [done|].
      rewrite fmap_cons, !elem_of_cons. split; split; auto; intros [?|?]; congruence || done.
    - rewrite list_lookup_insert_ne in Hc by done. exists c. done. }
  assert (∀ j c', cs !! j = Some c' → ∃ c, <[i:=rest]> cs !! j = Some c ∧
    (y ∈ c ↔ y ∈ c') ∧ (item_id y ∈ item_id <$> c ↔ item_id y ∈ item_id <$> c')) as H2.
  { intros j c' Hc. destruct (lookup_lt_is_Some_2 (<[i:=rest]> cs) j) as [c Hc'].
    - rewrite length_insert. by apply lookup_lt_Some in Hc.
    - destruct (H1 _ _ Hc') as (c'' & Hc'' & He). simplify_eq. eauto. }
  split; intros (k & part & Hk & Hy & Hfirst).
  - destruct (H1 _ _ Hk) as (part' & Hk' & Hyy & _). exists k, part'. split_and!; [done|by apply Hyy|].
    intros j c' Hj Hjk. destruct (H2 _ _ Hj) as (c & Hc & _ & Hid). rewrite <- Hid. eauto.
  - destruct (H2 _ _ Hk) as (part' & Hk' & Hyy & _). exists k, part'. split_and!; [done|by apply Hyy|].
    intros j c Hj Hjk. destruct (H1 _ _ Hj) as (c' & Hc & _ & Hid). rewrite Hid. eauto.
Qed.

(** The chosen item of the least id is the head of the first cursor on it. *)
Lemma chosen_head cs (i : nat) x rest y :
  Forall ascending cs → cs !! i = Some (x :: rest) →
  (∀ j c, cs !! j = Some c → (j < i)%nat → item_id x ∉ item_id <$> c) →
  item_id y = item_id x → chosen cs y → y = x.
Proof.
  intros Hasc Hi Hfirst Hid (k & part & Hk & Hy & Hmin).
  assert (item_id y ∈ item_id <$> part) as Hin by (apply list_elem_of_fmap; eauto).
  destruct (lt_eq_lt_dec k i) as [[Hlt| ->]|Hgt].
  - by destruct (Hfirst _ _ Hk Hlt); rewrite <- Hid.
  - simplify_eq. rewrite Forall_lookup in Hasc. destruct (ascending_cons _ _ (Hasc _ _ Hi)) as [_ Hlt].
    apply elem_of_cons in Hy as [->|Hy]; [done|]. specialize (Hlt y Hy). lia.
  - destruct (Hmin _ _ Hi Hgt). rewrite Hid. apply list_elem_of_fmap. exists x. split; [done|]. set_solver.
Qed.

Lemma length_concat_advance (cs : list (list item)) (i : nat) x rest :
  cs !! i = Some (x :: rest) → length (concat cs) = S (length (concat (<[i:=rest]> cs))).
Proof.
  intros Hi. apply lookup_lt_Some in Hi as Hlt. rewrite insert_take_drop by done.
  rewrite <- (take_drop_middle cs i _ Hi) at 1. rewrite !concat_app, !length_app. simpl.
  rewrite !length_app. lia.
Qed.

(** What popping the heap finds. *)
Lemma pop_least st id i h :
  state_ok st → heap_pop (me_heap st) = Some (id, i, h) →
  ∃ x rest, 0 ≤ i ∧ me_cursors st !! Z.to_nat i = Some (x :: rest) ∧ item_id x = id ∧
    me_heap st ≡ₚ (id, i) :: h ∧
    (∀ c y, c ∈ me_cursors st → y ∈ c → id ≤ item_id y) ∧
    (∀ j c, me_cursors st !! j = Some c → (j < Z.to_nat i)%nat → id ∉ item_id <$> c).
Proof.
  intros [[Hnd Hheads] Hasc _] Hpop. pose proof (heap_pop_spec (me_heap st)) as Hspec.
  rewrite Hpop in Hspec. destruct Hspec as [Hp Hmin].
  assert ((id, i) ∈ me_heap st) as Hin by (rewrite Hp; set_solver).
  apply Hheads in Hin as (x & rest & Hi & Hx & Hid). exists x, rest.
  assert (∀ j c y, me_cursors st !! j = Some c → y ∈ c →
    ∃ z r, c = z :: r ∧ item_id z ≤ item_id y ∧ pair_leb (id, i) (item_id z, Z.of_nat j) = true) as Hhead.
  { intros j c y Hc Hy. destruct c as [|z r]; [set_solver|]. exists z, r. split; [done|]. split.
    - rewrite Forall_lookup in Hasc. destruct (ascending_cons _ _ (Hasc _ _ Hc)) as [_ Hlt].
      apply elem_of_cons in Hy as [->|Hy]; [lia|]. specialize (Hlt y Hy). lia.
    - apply Hmin, Hheads. exists z, r. rewrite Nat2Z.id. split_and!; [lia|done|done]. }
  split_and!; try done.
  - intros c y [j Hc]%list_elem_of_lookup Hy. destruct (Hhead _ _ _ Hc Hy) as (z & r & _ & Hle & Hl).
    unfold pair_leb in Hl. simpl in Hl. lia.
  - intros j c Hc Hj Hmem. apply list_elem_of_fmap in Hmem as (y & Hy & Hyc).
    destruct (Hhead _ _ _ Hc Hyc) as (z & r & _ & Hle & Hl). unfold pair_leb in Hl. simpl in Hl. lia.
Qed.

Lemma advance_state_ok st id i h x rest last :
  state_ok st → 0 ≤ i → me_cursors st !! Z.to_nat i = Some (x :: rest) →
  me_heap st ≡ₚ (id, i) :: h →
  (∀ l c y, last = Some l → c ∈ set_at i rest (me_cursors st) → y ∈ c → l ≤ item_id y) →
  state_ok {| me_cursors := set_at i rest (me_cursors st);
    me_heap := match rest with y :: _ => heap_push h (item_id y, i) | [] => h end; me_last := last |}.
Proof.
  intros [Hheap Hasc _] Hi Hx Hp Hlast. split; cbn [me_cursors me_heap me_last]; [|  |done].
  - by apply (advance_heap_ok _ _ _ _ _ _ _ Hheap Hp Hi Hx).
  - apply Forall_insert; [done|]. rewrite Forall_lookup in Hasc.
    by destruct (ascending_cons _ _ (Hasc _ _ Hx)).
Qed.

Lemma elem_of_set_at (cs : list (list item)) (i : Z) x rest c y :
  cs !! Z.to_nat i = Some (x :: rest) → c ∈ set_at i rest cs → y ∈ c → ∃ c', c' ∈ cs ∧ y ∈ c'.
Proof.
  intros Hi Hc Hy. unfold set_at in Hc. apply list_elem_of_lookup in Hc as [j Hj].
  destruct (decide (j = Z.to_nat i)) as [->|Hne].
  - rewrite list_lookup_insert_eq in Hj by (by apply lookup_lt_Some in Hi). simplify_eq.
    exists (x :: c). split; [by eapply list_elem_of_lookup_2|set_solver].
  - rewrite list_lookup_insert_ne in Hj by done. exists c. split; [by eapply list_elem_of_lookup_2|done].
Qed.

(** One call of [next]: the least pending item, or the end. *)
Lemma next_spec fuel st :
  state_ok st → (remaining st < fuel)%nat →
  (∃ st', next fuel st = Ret (None, st') ∧ ∀ y, ¬ pending (me_cursors st) (me_last st) y) ∨
  (∃ x st', next fuel st = Ret (Some x, st') ∧ state_ok st' ∧ (remaining st' < remaining st)%nat ∧
     me_last st' = Some (item_id x) ∧ (∀ l, me_last st = Some l → l < item_id x) ∧
     ∀ y, pending (me_cursors st) (me_last st) y ↔ y = x ∨ pending (me_cursors st') (me_last st') y).
Proof.
  revert st. induction fuel as [|fuel IH]; intros st Hst Hf; [lia|]. cbn [next].
  destruct (heap_pop (me_heap st)) as [[[id i] h]|] eqn:Hpop.
  2: { left. exists st. split; [done|]. intros y [(k & part & Hk & Hy & _) _].
       pose proof (heap_pop_spec (me_heap st)) as Hnil. rewrite Hpop in Hnil.
       destruct part as [|z r]; [set_solver|]. assert ((item_id z, Z.of_nat k) ∈ me_heap st) as Hin.
       { apply (so_heap _ Hst). exists z, r. rewrite Nat2Z.id. split_and!; [lia|done|done]. }
       rewrite Hnil in Hin. set_solver. }
  destruct (pop_least st id i h Hst Hpop) as (x & rest & Hi & Hx & Hid & Hp & Hleast & Hfirst).
  subst id. rewrite (index_lookup _ _ _ Hi Hx), bind_ret. cbv zeta.
  pose proof (length_concat_advance _ _ _ _ Hx) as Hlen.
  case_bool_decide as Hlast.
  - set (st' := {| me_cursors := _ |}). assert (state_ok st') as Hst'.
    { apply (advance_state_ok _ _ _ _ _ _ _ Hst Hi Hx Hp). intros l c y Hl Hc Hy.
      destruct (elem_of_set_at _ _ _ _ _ _ Hx Hc Hy) as (c' & Hc' & Hy').
      by apply (so_last _ Hst l c' y). }
    assert (∀ y, pending (me_cursors st) (me_last st) y ↔ pending (me_cursors st') (me_last st') y) as Hpend.
    { intros y. unfold pending, st'. cbn [me_cursors me_last]. rewrite Hlast.
      destruct (decide (item_id y = item_id x)) as [->|Hne]; [naive_solver|].
      unfold set_at. by rewrite (chosen_advance _ _ _ _ _ Hx Hne). }
    assert (remaining st = S (remaining st')) as Hrem by exact Hlen.
    destruct (IH st' Hst' ltac:(lia)) as [(st2 & Hn & Hno)|(y & st2 & Hn & Hok2 & Hrem2 & Hl2 & Hgt & Hp2)].
    + left. exists st2. split; [done|]. intros y. by rewrite Hpend.
    + right. exists y, st2. split_and!; [done|done|lia|done|done|]. intros z. by rewrite Hpend.
  - right. eexists x, _. split; [done|]. split_and!.
    + apply (advance_state_ok _ _ _ _ _ _ _ Hst Hi Hx Hp). intros l c y [= <-] Hc Hy.
      destruct (elem_of_set_at _ _ _ _ _ _ Hx Hc Hy) as (c' & Hc' & Hy'). by apply (Hleast c' y).
    + unfold remaining. cbn [me_cursors]. unfold set_at. lia.
    + done.
    + intros l Hl. assert (l ≤ item_id x) as Hle.
      { apply (so_last _ Hst l (x :: rest) x Hl); [by eapply list_elem_of_lookup_2|set_solver]. }
      destruct (decide (l = item_id x)) as [->|]; [done|lia].
    + intros y. cbn [me_cursors me_last]. unfold pending, set_at.
      destruct (decide (item_id y = item_id x)) as [He|Hne].
      * split.
        -- intros [Hch _]. left. by apply (chosen_head _ _ _ _ _ (so_asc _ Hst) Hx Hfirst He).
        -- intros [->|[_ Hne]]; [|by rewrite He in Hne]. split; [|done].
           exists (Z.to_nat i), (x :: rest). split_and!; [done|set_solver|done].
      * rewrite (chosen_advance _ _ _ _ _ Hx Hne). split.
        -- intros [Hch _]. right. split; [done|]. naive_solver.
        -- intros [->|[Hch _]]; [done|]. split; [done|]. intros Hl.
           destruct Hch as (k & part & Hk & Hy & _).
           assert (item_id x ≤ item_id y) by (eapply Hleast; [by eapply list_elem_of_lookup_2|done]).
           assert (item_id y ≤ item_id x).
           { apply (so_last _ Hst _ (x :: rest) x Hl); [by eapply list_elem_of_lookup_2|set_solver]. }
           lia.
Qed.

Lemma collect_spec fuel st :
  state_ok st → (remaining st < fuel)%nat →
  ∃ xs, collect fuel st = Ret xs ∧ ascending xs ∧
    (∀ l x, me_last st = Some l → x ∈ xs → l < item_id x) ∧
    ∀ y, y ∈ xs ↔ pending (me_cursors st) (me_last st) y.
Proof.
  revert st. induction fuel as [|fuel IH]; intros st Hst Hf; [lia|]. cbn [collect].
  destruct (next_spec (S (remaining st)) st Hst ltac:(lia))
    as [(st' & -> & Hno)|(x & st' & -> & Hst' & Hrem & Hlast & Hgt & Hp)]; rewrite bind_ret; cbv beta iota.
  - exists []. split_and!; [done|by intros ? ? ? ? ? ?|set_solver|].
    intros y. split; [set_solver|]. intros Hy. by apply Hno in Hy.
  - destruct (IH st' Hst' ltac:(lia)) as (xs & -> & Hasc & Hgt' & Hin). rewrite bind_ret.
    exists (x :: xs). split; [done|]. split.
    + intros i j a b Hij Ha Hb. destruct i as [|i], j as [|j]; simpl in *; [lia| |lia|].
      * simplify_eq. apply list_lookup_fmap_Some in Hb as (y & -> & Hy).
        apply (Hgt' _ y Hlast). by eapply list_elem_of_lookup_2.
      * by apply (Hasc i j); [lia|..].
    + split.
      * intros l y Hl [->|Hy]%elem_of_cons; [by apply Hgt|].
        specialize (Hgt' _ y Hlast Hy). specialize (Hgt l Hl). lia.
      * intros y. rewrite elem_of_cons, Hin, Hp. done.
Qed.

(** The entries of ascending parts merge to the chosen ones, ascending. *)
Lemma collect_start cs :
  Forall ascending cs →
  ∃ xs, collect (S (remaining (start cs))) (start cs) = Ret xs ∧ ascending xs ∧
    ∀ x, x ∈ xs ↔ chosen cs x.
Proof.
  intros Hasc. destruct (collect_spec (S (remaining (start cs))) (start cs)) as (xs & Hc & Hx & _ & Hin).
  - split; [apply start_heap_ok|done|done].
  - lia.
  - exists xs. split_and!; [done|done|]. intros x. rewrite Hin. unfold pending.
    cbn [start me_cursors me_last]. naive_solver.
Qed.

(** ** The streamed file *)

(** The writer that holds the entries, as [TermTextsWriterV3] would after one
    [add] per entry and [with_ids]. *)
Definition writer_of (es : list item) : TermTextsWriterV3 :=
  {| tw_texts := (λ x, snd (fst x)) <$> es; tw_metas := snd <$> es; tw_ids := Some (item_id <$> es) |}.

Lemma first_pass_spec es offs runs total mw :
  0 ≤ total → total + #(concat (tw_texts (writer_of es))) ≤ u32_max →
  ∃ offs', foldM first_pass (offs, runs, total, mw) es =
      Ret (offs', fold_left push_run (item_id <$> es) runs,
           total + #(concat (tw_texts (writer_of es))),
           fold_left Z.max (map content_len (List.filter is_word_stripped (snd <$> es))) mw) ∧
    offs' ++ [total + #(concat (tw_texts (writer_of es)))] = offs ++ prefix_sums total (tw_texts (writer_of es)) ∧
    #offs' = #offs + #es.
Proof.
  revert offs runs total mw. induction es as [|[[id t] m] es IH]; intros offs runs total mw Ht Hb.
  - exists offs. cbn. rewrite len_nil, Z.add_0_r. split_and!; [done|done|]. llia.
  - change (tw_texts (writer_of ((id, t, m) :: es))) with (t :: tw_texts (writer_of es)) in *.
    cbn [concat] in *. rewrite len_app in Hb.
    pose proof (len_nonneg t). pose proof (len_nonneg (concat (tw_texts (writer_of es)))).
    cbn [foldM first_pass]. replace (_ <? _) with false by lia. rewrite bind_ret.
    unfold as_u32. rewrite Z.mod_small by (widths; lia).
    destruct (IH (offs ++ [total]) (push_run runs id) (total + #t)
      (if is_word_stripped m then Z.max mw (content_len m) else mw)) as (offs' & Hf & Ho & Hl); [lia|lia|].
    exists offs'. rewrite len_app, Z.add_assoc. split_and!.
    + rewrite Hf. rewrite !fmap_cons. cbn [List.filter map fold_left fst snd item_id].
      by destruct (is_word_stripped m).
    + rewrite Ho. cbn [prefix_sums]. by rewrite <- app_assoc.
    + rewrite Hl. llia.
Qed.

Lemma pack_items buf (es : list item) :
  foldM (λ out_ x, p ← pack_meta (snd x); Ret (out_ ++ p)) buf es =
  foldM (λ buf m, p ← pack_meta m; Ret (buf ++ p)) buf (snd <$> es).
Proof.
  revert buf. induction es as [|x es IH]; intros buf; [done|]. cbn [foldM fmap list_fmap].
  destruct (pack_meta (snd x)); [|done|done|done]. rewrite !bind_ret. apply IH.
Qed.

(** The stream is the file the writer would produce, byte for byte. *)
Lemma write_merged_eq parts es :
  merged parts = Ret es → writer_ok (writer_of es) →
  write_merged parts = Ret (section_file.serialize
    (SectionFile.build MAGIC VERSION (file_sections (writer_of es))), #es).
Proof.
  intros Hm Hok. set (w := writer_of es) in *. unfold write_merged. rewrite !Hm, !bind_ret.
  destruct (texts_size w Hok) as [Ht _]. pose proof (entries_size w Hok) as Hes.
  destruct (first_pass_spec es [] [] 0 0 ltac:(lia) ltac:(fold w; widths; lia)) as (offs & -> & Ho & Hl).
  fold w in Ho |- *. rewrite bind_ret. cbv beta iota. rewrite Z.add_0_l in *.
  rewrite app_nil_l in Ho. pose proof (wo_num _ Hok) as Hn. pose proof (len_nonneg es).
  assert (#(tw_texts w) = #es) as Hnum by (unfold w; simpl; by rewrite len_fmap).
  rewrite Hnum in Hn. assert (as_u32 #offs = #es) as ->.
  { replace #offs with #es by (lens; lia). apply Z.mod_small. widths. lia. }
  pose proof (len_nonneg (concat (tw_texts w))).
  assert (as_u32 #(concat (tw_texts w)) = #(concat (tw_texts w))) as -> by (apply Z.mod_small; lia).
  rewrite Ho. set (tab := encode (prefix_sums 0 (tw_texts w))).
  assert (#(entries_bytes (tw_texts w) (tw_metas w)) =
    4 + #tab + #es * META_SIZE + #(concat (tw_texts w))) as Helen.
  { unfold entries_bytes. fold tab. rewrite !len_app, len_to_le_bytes, (len_records meta_bytes 4 len_meta_bytes).
    unfold META_SIZE. assert (#(tw_metas w) = #es) by (unfold w; simpl; by rewrite len_fmap). lia. }
  rewrite <- Helen. replace (_ <? _) with false by (widths; lia).
  rewrite bind_ret, pack_items. change (snd <$> es) with (tw_metas w).
  rewrite (pack_metas _ _ (wo_metas _ Hok)), !bind_ret.
  rewrite (fold_regions (λ x : Z * list Z * TermMetaV3, snd (fst x))). change (map _ es) with (tw_texts w).
  do 2 f_equal. pose proof (header_build MAGIC VERSION _ (sections_ok w Hok)) as Hhead.
  rewrite <- Hhead. change (fold_left Z.max _ 0) with (max_word (tw_metas w)).
  set (ids := ids_section (fold_left push_run (item_id <$> es) [])).
  assert (file_sections w = [(SECTION_ENTRIES3, entries_bytes (tw_texts w) (tw_metas w));
    (SECTION_STATS, stats_section (max_word (tw_metas w))); (SECTION_IDS, ids)]) as Hsec by done.
  pose proof (wo_size _ Hok) as Hsize. rewrite Hsec in *. cbn [flat_map snd] in *.
  rewrite app_nil_r, !len_app in Hsize. cbn [fmap list_fmap prod_map fst snd].
  change (#(stats_section (max_word (tw_metas w)))) with 4 in *.
  pose proof (len_nonneg ids). pose proof (len_nonneg (entries_bytes (tw_texts w) (tw_metas w))).
  unfold as_u32. rewrite !Z.mod_small by lia. unfold entries_bytes. fold tab.
  rewrite Hnum. rewrite <- !app_assoc, app_nil_r. done.
Qed.

(** ** Lookups across the merge *)

Lemma all_entries_elem w id t m :
  writer_ok w → (id, t, m) ∈ all_entries w ↔ fits 32 id ∧ writer_lookup w id = Some (t, m).
Proof.
  intros Hok. unfold all_entries, writer_lookup, entry_at.
  assert (∀ k v, entry_ids w !! k = Some v → (k < length (tw_texts w))%nat →
    fits 32 v ∧ entry_index w v = Some k) as Hidx.
  { intros k v Hk Hlt. unfold entry_ids, entry_index in *. pose proof (wo_ids _ Hok) as Hids.
    pose proof (wo_num _ Hok) as Hn. destruct (tw_ids w) as [ids|].
    - destruct (Hids ids eq_refl) as [[Hinc Hr _] _]. rewrite Forall_lookup in Hr. specialize (Hr _ _ Hk).
      simpl in Hr. split; [widths; lia|]. by rewrite (list_find_index ids k v Hinc Hk).
    - apply range_lookup in Hk as [-> Hk]. split; [widths; unfold len in *; lia|].
      replace (_ && _) with true by (unfold len in *; lia). f_equal. lia. }
  rewrite list_elem_of_lookup. setoid_rewrite lookup_zip_Some. setoid_rewrite lookup_zip_Some. cbn [fst snd].
  split.
  - intros (k & [Hk Ht] & Hm). apply lookup_lt_Some in Ht as Hlt. destruct (Hidx _ _ Hk Hlt) as [Hf ->].
    split; [done|]. simpl. rewrite Ht. simpl. by rewrite Hm.
  - intros [Hf Hl]. destruct (entry_index w id) as [k|] eqn:Ek; [|done]. simpl in Hl.
    destruct (tw_texts w !! k) as [t'|] eqn:Ht; [|done]. simpl in Hl.
    destruct (tw_metas w !! k) as [m'|] eqn:Hm; [|done]. simpl in Hl. simplify_eq.
    exists k. split; [|done]. split; [|done]. unfold entry_index, entry_ids in *.
    destruct (tw_ids w) as [ids|].
    + destruct (list_find _ ids) as [[k' v]|] eqn:Efind; [|done]. simpl in Ek. simplify_eq.
      apply list_find_Some in Efind as (? & -> & _). done.
    + destruct (_ && _) eqn:E; [|done]. simplify_eq. apply range_lookup. unfold len in *. lia.
Qed.

Lemma all_entries_ascending w : writer_ok w → ascending (all_entries w).
Proof.
  intros Hok i j a b Hij Ha Hb. apply list_lookup_fmap_Some in Ha as (x & -> & Hx).
  apply list_lookup_fmap_Some in Hb as (y & -> & Hy).
  unfold all_entries in Hx, Hy. destruct x as [[ida ta] ma], y as [[idb tb] mb].
  apply lookup_zip_Some in Hx as [Hx _], Hy as [Hy _]. cbn [fst snd] in *.
  apply lookup_zip_Some in Hx as [Hx _], Hy as [Hy _]. cbn [fst snd] in *. unfold item_id. cbn [fst].
  unfold entry_ids in *. pose proof (wo_ids _ Hok) as Hids. destruct (tw_ids w) as [ids|].
  - destruct (Hids ids eq_refl) as [[Hinc _ _] _]. by apply (Hinc i j).
  - apply range_lookup in Hx, Hy. lia.
Qed.

Lemma all_entries_ids w id :
  writer_ok w → fits 32 id → id ∈ item_id <$> all_entries w ↔ is_Some (writer_lookup w id).
Proof.
  intros Hok Hid. rewrite list_elem_of_fmap. split.
  - intros ([[id' t] m] & -> & Hin). apply all_entries_elem in Hin as [_ Hl]; [|done]. unfold item_id in *.
    simpl in *. eauto.
  - intros [[t m] Hl]. exists (id, t, m). split; [done|]. by apply all_entries_elem.
Qed.

Lemma lookup_chosen ws id t m :
  Forall writer_ok ws →
  chosen (all_entries <$> ws) (id, t, m) ↔ fits 32 id ∧ lookup_first ws id = Some (t, m).
Proof.
  induction 1 as [|w ws Hw Hws IH].
  { split; [intros (k & part & Hk & _); done|by intros []]. }
  cbn [fmap list_fmap lookup_first].
  assert (chosen (all_entries w :: (all_entries <$> ws)) (id, t, m) ↔
    (id, t, m) ∈ all_entries w ∨ (id ∉ item_id <$> all_entries w) ∧ chosen (all_entries <$> ws) (id, t, m)) as Hsplit.
  { split.
    - intros ([|k] & part & Hk & Hx & Hfirst); simpl in Hk.
      + simplify_eq. by left.
      + right. split; [by apply (Hfirst 0%nat (all_entries w)); [|lia]|].
        exists k, part. split_and!; [done|done|]. intros j c Hj Hjk. by apply (Hfirst (S j) c); [|lia].
    - intros [Hin|[Hnot (k & part & Hk & Hx & Hfirst)]].
      + exists 0%nat, (all_entries w). split_and!; [done|done|]. intros; lia.
      + exists (S k), part. split_and!; [done|done|]. intros [|j] c Hj Hjk; simpl in Hj.
        * by simplify_eq.
        * apply (Hfirst j c); [done|lia]. }
  change (list_fmap _ _ all_entries ws) with (all_entries <$> ws). rewrite Hsplit, IH, all_entries_elem by done. clear IH Hsplit.
  destruct (decide (fits 32 id)) as [Hid|Hid]; [|naive_solver].
  rewrite (all_entries_ids w id Hw Hid). destruct (writer_lookup w id) as [e|]; naive_solver.
Qed.

(** The sizes the merged file can hold. *)
Record merge_fits (es : list item) : Prop := {
  mf_num : #es < u32_max;
  mf_size : #(flat_map snd (file_sections (writer_of es))) < 2 ^ 32;
}.

(** The files of the writers, each opened on its own. *)
Definition readers (ws : list TermTextsWriterV3) : list TermTextsReaderV3 :=
  map (λ w, {| tr_first := part_of w; tr_more := [] |}) ws.

Lemma merged_readers ws :
  Forall writer_ok ws →
  ∃ es, merged (readers ws) = Ret es ∧ ascending es ∧
    ∀ id t m, (id, t, m) ∈ es ↔ fits 32 id ∧ lookup_first ws id = Some (t, m).
Proof.
  intros Hws.
  assert (∀ w, writer_ok w → iter {| tr_first := part_of w; tr_more := [] |} = Ret (all_entries w)) as Hone.
  { intros w Hw. unfold iter. cbn [tr_first tr_more mapM_out]. rewrite (part_iter_written w Hw), !bind_ret.
    cbn [concat]. by rewrite app_nil_r. }
  assert (mapM_out iter (readers ws) = Ret (all_entries <$> ws)) as Hit.
  { unfold readers. induction Hws as [|w ws Hw _ IH]; [done|]. cbn [map mapM_out].
    by rewrite (Hone w Hw), IH, !bind_ret. }
  destruct (collect_start (all_entries <$> ws)) as (es & Hc & Hasc & Hin).
  { apply Forall_fmap. eapply Forall_impl; [exact Hws|]. intros w Hw. by apply all_entries_ascending. }
  exists es. split; [|split; [done|]].
  - unfold merged, new. by rewrite Hit, !bind_ret.
  - intros id t m. rewrite Hin. by apply lookup_chosen.
Qed.

Lemma writer_of_ok ws es :
  Forall writer_ok ws → ascending es → merge_fits es →
  (∀ id t m, (id, t, m) ∈ es ↔ fits 32 id ∧ lookup_first ws id = Some (t, m)) →
  writer_ok (writer_of es).
Proof.
  intros Hws Hasc [Hn Hs] Hin.
  assert (∀ id t m, (id, t, m) ∈ es → 0 ≤ id < u32_max ∧ utf8_valid t = true ∧ meta_ok m) as Hgood.
  { intros id t m [Hid Hl]%Hin. clear Hin. revert Hl. induction Hws as [|w ws Hw _ IH]; [done|].
    cbn [lookup_first]. destruct (writer_lookup w id) as [[t' m']|] eqn:E; [|done].
    intros Heq. simplify_eq. assert ((id, t, m) ∈ all_entries w) as Hx by (by apply all_entries_elem).
    unfold all_entries in Hx. apply list_elem_of_lookup in Hx as [k Hk].
    apply lookup_zip_Some in Hk as [Hk Hm]. cbn [fst snd] in *.
    apply lookup_zip_Some in Hk as [Hk Ht]. cbn [fst snd] in *.
    pose proof (wo_texts _ Hw) as Htx. pose proof (wo_metas _ Hw) as Hmx. rewrite Forall_lookup in Htx. rewrite Forall_lookup in Hmx.
    split_and!; [| |by eapply Htx|by eapply Hmx].
    - apply Hid.
    - unfold entry_ids in Hk. pose proof (wo_ids _ Hw) as Hids. destruct (tw_ids w) as [ids|].
      + destruct (Hids ids eq_refl) as [[_ Hr _] _]. rewrite Forall_lookup in Hr.
        specialize (Hr _ _ Hk). simpl in Hr. lia.
      + apply range_lookup in Hk. pose proof (wo_num _ Hw). unfold len in *. lia. }
  split; cbn [writer_of tw_texts tw_metas tw_ids].
  - by rewrite !length_fmap.
  - apply Forall_fmap, Forall_forall. intros [[id t] m] Hx. by apply Hgood in Hx as (_ & ? & _).
  - apply Forall_fmap, Forall_forall. intros [[id t] m] Hx. by apply Hgood in Hx as (_ & _ & ?).
  - by rewrite len_fmap.
  - done.
  - intros ids [= <-]. split; [|by rewrite !length_fmap]. split; [done| |rewrite len_fmap; widths; lia].
    apply Forall_fmap, Forall_forall. intros [[id t] m] Hx. by apply Hgood in Hx as (? & _).
Qed.

(** ** Properties *)

(** The heap merge is the sorted union, first file wins: over any parts
    each ascending by id, iterating [MergedEntries] to its end terminates and
    yields ids strictly ascending, and exactly the items whose part is the
    first to hold their id. *)
Theorem merged_entries_correct (parts : list (list item)) :
  Forall ascending parts →
  ∃ xs, collect (S (remaining (start parts))) (start parts) = Ret xs ∧ ascending xs ∧
    ∀ x, x ∈ xs ↔ chosen parts x.
Proof. apply collect_start. Qed.

Definition sample_item (id : Z) : item := (id, [0x61], sample_meta 2 false).

Lemma merged_entries_correct_witness :
  ∃ xs, collect (S (remaining (start [[sample_item 2; sample_item 5]; []; [sample_item 1; sample_item 5]])))
      (start [[sample_item 2; sample_item 5]; []; [sample_item 1; sample_item 5]]) = Ret xs ∧ ascending xs ∧
    ∀ x, x ∈ xs ↔ chosen [[sample_item 2; sample_item 5]; []; [sample_item 1; sample_item 5]] x.
Proof.
  apply (merged_entries_correct [[sample_item 2; sample_item 5]; []; [sample_item 1; sample_item 5]]).
  rewrite !Forall_cons. split_and!; [| | |done]; intros i j a b Hij Ha Hb; [|done|];
    (do 2 (destruct i as [|i]; [do 2 (destruct j as [|j]; [first [lia|simpl in *; simplify_eq; by vm_compute]|]); done|]); done).
Defined.

(** The streamed merge writes the file the in-memory writer would, byte
    for byte: for any readers whose merge fits the format, [write_merged]
    returns the number of entries and exactly the bytes [TermTextsWriterV3]
    serializes for those entries. *)
Theorem write_merged_same_bytes (parts : list TermTextsReaderV3) (es : list item) :
  merged parts = Ret es → writer_ok (writer_of es) →
  ∃ bytes, write_merged parts = Ret (bytes, #es) ∧ serialize (writer_of es) = Ret bytes.
Proof. intros Hm Hok. eexists. split; [by apply write_merged_eq|]. by apply serialize_eq. Qed.

Lemma write_merged_same_bytes_witness :
  ∃ bytes, write_merged (readers [sample_writer2]) = Ret (bytes, 1) ∧
    serialize (writer_of [(0, [0x7A], sample_meta 1 false)]) = Ret bytes.
Proof.
  apply (write_merged_same_bytes (readers [sample_writer2]) [(0, [0x7A], sample_meta 1 false)]); [done|].
  split; [done|by apply (bool_decide_unpack _)| |by vm_compute|by vm_compute|].
  { constructor; [by vm_compute|constructor]. }
  intros ids [= <-]. split; [|done]. split; [|by repeat constructor; vm_compute|by vm_compute].
  intros i j a b Hij Ha Hb. destruct i as [|i], j as [|j]; try done; lia.
Defined.

(** C32. Merging the generations changes no answer: for any files written by
    [TermTextsWriterV3], once merged (when the union fits the format) the one
    file answers every 32-bit id with what the first of the original files
    holding it answered, and with [None] exactly where none held it. *)
Theorem write_merged_preserves_lookups (w : TermTextsWriterV3) (ws : list TermTextsWriterV3) :
  Forall writer_ok (w :: ws) →
  ∃ es, merged (readers (w :: ws)) = Ret es ∧
    (merge_fits es →
     ∃ bytes r, write_merged (readers (w :: ws)) = Ret (bytes, #es) ∧ open bytes = Ret r ∧
       ∀ id, fits 32 id → entry r id = of_option (lookup_first (w :: ws) id)).
Proof.
  intros Hws. destruct (merged_readers _ Hws) as (es & Hm & Hasc & Hin).
  exists es. split; [done|]. intros Hfit. pose proof (writer_of_ok _ _ Hws Hasc Hfit Hin) as Hok.
  eexists _, {| tr_first := part_of (writer_of es); tr_more := [] |}. split; [by apply write_merged_eq|].
  split; [unfold open; by rewrite open_part_written|]. intros id Hid.
  destruct (reads_written _ [] (writer_of es) [] id eq_refl) as (_ & _ & -> & _);
    [by constructor|done|]. f_equal. cbn [lookup_first].
  destruct (lookup_first (w :: ws) id) as [[t m]|] eqn:E.
  - assert ((id, t, m) ∈ es) as Hx by (by apply Hin). apply list_elem_of_lookup in Hx as [k Hk].
    assert ((id, t, m) ∈ all_entries (writer_of es)) as Hx.
    { unfold all_entries, entry_ids. cbn [writer_of tw_texts tw_metas tw_ids]. apply list_elem_of_lookup.
      exists k. apply lookup_zip_Some. split; [|by apply (lookup_map snd es k (id, t, m))].
      apply lookup_zip_Some. split; [by apply (lookup_map item_id es k (id, t, m))|].
      by apply (lookup_map (λ x, snd (fst x)) es k (id, t, m)). }
    apply all_entries_elem in Hx as [_ ->]; [done|done].
  - destruct (writer_lookup (writer_of es) id) as [[t m]|] eqn:E'; [|done]. exfalso.
    assert ((id, t, m) ∈ all_entries (writer_of es)) as Hx by (by apply all_entries_elem).
    unfold all_entries, entry_ids in Hx. cbn [writer_of tw_texts tw_metas tw_ids] in Hx.
    apply list_elem_of_lookup in Hx as [k Hk]. apply lookup_zip_Some in Hk as [Hk Hmk]. cbn [fst snd] in *.
    apply lookup_zip_Some in Hk as [Hik Htk]. cbn [fst snd] in *.
    rewrite list_lookup_fmap in Hik. rewrite list_lookup_fmap in Htk. rewrite list_lookup_fmap in Hmk.
    apply fmap_Some in Hik as ([[id' t'] m'] & Ek & Hid').
    apply fmap_Some in Htk as (y & Ey & Hty). apply fmap_Some in Hmk as (z & Ez & Hmz).
    assert (y = (id', t', m')) as -> by (unfold item in *; congruence).
    assert (z = (id', t', m')) as -> by (unfold item in *; congruence).
    cbn [fst snd] in *. subst t' m'. apply list_elem_of_lookup_2, Hin in Ek as [_ Ek]. unfold item_id in *. simpl in *.
    subst id'. by rewrite Ek in E.
Qed.

Lemma write_merged_preserves_lookups_witness :
  ∃ es, merged (readers [sample_writer; sample_writer2]) = Ret es ∧
    (merge_fits es →
     ∃ bytes r, write_merged (readers [sample_writer; sample_writer2]) = Ret (bytes, #es) ∧
       open bytes = Ret r ∧
       ∀ id, fits 32 id → entry r id = of_option (lookup_first [sample_writer; sample_writer2] id)).
Proof.
  apply (write_merged_preserves_lookups sample_writer [sample_writer2]).
  constructor; [apply sample_writer_ok|]. constructor; [apply sample_writer2_ok|constructor].
Defined.
