(* ===== verification/DocFilter.v ===== *)
(** * Document filters ([src/query/posting_resolver.rs], [trait DocFilter])

    The set of documents a filtered search restricts the postings to: the
    trait as a class of operations, and its laws as a second class, against
    which the posting readers are proved.  A [HashSet<u32>] is an instance:
    its visiting order is some enumeration without repeats. *)
From S2P Require Import Prelude.

(** [trait DocFilter]: [for_each] as the documents it visits, in order. *)
Class DocFilter (F : Type) := {
  contains : F → Z → bool;
  filter_len : F → Z;
  for_each : F → list Z;
}.

(** What the readers rely on. *)
Class DocFilterLaws (F : Type) `{DocFilter F} := {
  for_each_contains : ∀ f d, d ∈ for_each f ↔ contains f d = true;
  for_each_nodup : ∀ f, NoDup (for_each f);
  filter_len_spec : ∀ f, filter_len f = #(for_each f);
}.

(** A [HashSet<u32>], by the enumeration its iterator takes. *)
Record HashSet := { hs_docs : list Z; hs_nodup : NoDup hs_docs }.

#[export] Instance HashSet_filter : DocFilter HashSet := {
  contains s d := bool_decide (d ∈ hs_docs s);
  filter_len s := #(hs_docs s);
  for_each := hs_docs;
}.

#[export] Instance HashSet_filter_laws : DocFilterLaws HashSet.
Proof.
  split; simpl.
  - intros f d. by rewrite bool_decide_eq_true.
  - intros f. apply hs_nodup.
  - done.
Qed.
