(* ===== verification/Runs.v ===== *)
(** * Runs of a sorted posting list

    What the two posting writers ([sfxpost_v2.rs], [word_sfxpost.rs]) share:
    a sorted list of entries is a sequence of runs, one per document; the
    [(d_doc, tf)] pairs of a file without positions; the offsets recorded in
    front of each ordinal's block. *)
From S2P Require Import Prelude Varint Ordering.
Import varint.

(** ** One run per document *)

Section Group.
Context {A : Type} (doc : A → Z).

Fixpoint group (l : list A) : list (Z * list A) :=
  match l with
  | [] => []
  | e :: l =>
      match group l with
      | [] => [(doc e, [e])]
      | (d, es) :: gs =>
          if doc e =? d then (d, e :: es) :: gs else (doc e, [e]) :: (d, es) :: gs
      end
  end.

(** Runs are not empty, hold one document each, and their documents increase. *)
Record runs_ok (gs : list (Z * list A)) : Prop := {
  ro_nonempty : Forall (λ g, g.2 ≠ []) gs;
  ro_docs : Forall (λ g, Forall (λ e, doc e = g.1) g.2) gs;
  ro_sorted : StronglySorted Z.lt (map fst gs);
}.

Lemma group_flat l : flat_map snd (group l) = l.
Proof using.
  induction l as [|e l IH]; [done|]. cbn [group].
  destruct (group l) as [|[d es] gs]; [by rewrite <- IH|].
  destruct (doc e =? d); simpl in *; by rewrite IH.
Qed.

Lemma group_nil l : group l = [] → l = [].
Proof using. intros H. by rewrite <- (group_flat l), H. Qed.

Lemma elem_of_group g l e : g ∈ group l → e ∈ g.2 → e ∈ l.
Proof using.
  intros Hg He. rewrite <- (group_flat l). apply list_elem_of_In, in_flat_map.
  exists g. split; by apply list_elem_of_In.
Qed.

Lemma runs_ok_tail g gs : runs_ok (g :: gs) → runs_ok gs.
Proof using.
  intros [H1 H2 H3]. apply Forall_cons in H1 as [_ H1]. apply Forall_cons in H2 as [_ H2].
  simpl in H3. apply StronglySorted_cons in H3 as [_ H3]. done.
Qed.

Lemma group_ok l : StronglySorted (λ a b, doc a ≤ doc b) l → runs_ok (group l).
Proof using.
  induction l as [|e l IH]; [by repeat constructor|].
  intros [He Hl]%StronglySorted_cons. specialize (IH Hl). cbn [group].
  destruct (group l) as [|[d es] gs] eqn:Eg.
  { split; repeat constructor; done. }
  destruct IH as [Hne Hd Hs].
  apply Forall_cons in Hne as [Hne1 Hne]. apply Forall_cons in Hd as [Hd1 Hd]. simpl in Hs, Hd1, Hne1.
  assert (doc e ≤ d) as Hle.
  { destruct es as [|x es]; [done|]. apply Forall_cons in Hd1 as [<- _].
    rewrite Forall_forall in He. apply He. apply (elem_of_group (doc x, x :: es)).
    - rewrite Eg. set_solver.
    - set_solver. }
  destruct (doc e =? d) eqn:E.
  - apply Z.eqb_eq in E. split; simpl; [by constructor| |done].
    constructor; [|done]. by constructor.
  - apply Z.eqb_neq in E. split; simpl.
    + repeat constructor; done.
    + repeat constructor; done.
    + apply StronglySorted_cons. split; [|done].
      apply StronglySorted_cons in Hs as [Hs _]. constructor; [lia|].
      eapply Forall_impl; [apply Hs|]. simpl. lia.
Qed.

(** A restriction to some documents, by runs and by entries. *)
Lemma filter_runs (p : Z → bool) gs :
  Forall (λ g, Forall (λ e, doc e = g.1) g.2) gs →
  List.filter (λ e, p (doc e)) (flat_map snd gs) =
    flat_map snd (List.filter (λ g, p g.1) gs).
Proof using.
  induction 1 as [|[d es] gs Hd _ IH]; [done|]. simpl in *.
  rewrite List.filter_app, IH.
  assert (List.filter (λ e, p (doc e)) es = if p d then es else []) as ->.
  { clear IH. induction Hd as [|e es <- _ IH]; [by destruct (p d)|]. simpl. rewrite IH.
    by destruct (p (doc e)). }
  by destruct (p d).
Qed.

(** The documents of increasing runs are found once. *)
Lemma runs_lookup_lt (gs : list (Z * list A)) i j gi gj :
  StronglySorted Z.lt (map fst gs) → gs !! i = Some gi → gs !! j = Some gj → (i < j)%nat →
  gi.1 < gj.1.
Proof using.
  revert i j. induction gs as [|g gs IH]; intros i j Hs Hi Hj Hij; [done|].
  simpl in Hs. apply StronglySorted_cons in Hs as [Hg Hs]. destruct j as [|j]; [lia|].
  destruct i as [|i]; simpl in *; [|eapply IH; eauto; lia]. simplify_eq.
  rewrite Forall_forall in Hg. apply Hg. apply list_elem_of_fmap. exists gj. split; [done|].
  by eapply list_elem_of_lookup_2.
Qed.

Lemma runs_lookup_inj (gs : list (Z * list A)) i j gi gj :
  StronglySorted Z.lt (map fst gs) → gs !! i = Some gi → gs !! j = Some gj → gi.1 = gj.1 → i = j.
Proof using.
  intros Hs Hi Hj Heq. destruct (lt_eq_lt_dec i j) as [[Hl| ->]|Hl]; [|done|].
  - pose proof (runs_lookup_lt _ _ _ _ _ Hs Hi Hj Hl). lia.
  - pose proof (runs_lookup_lt _ _ _ _ _ Hs Hj Hi Hl). lia.
Qed.

Lemma filter_run_none (gs : list (Z * list A)) d :
  (∀ g, g ∈ gs → g.1 ≠ d) → List.filter (λ g : Z * list A, g.1 =? d) gs = [].
Proof using.
  induction gs as [|g gs IH]; intros H; [done|]. simpl.
  assert (g.1 ≠ d) by (apply H; set_solver). case_lia. apply IH. set_solver.
Qed.

Lemma filter_run_one (gs : list (Z * list A)) i g :
  StronglySorted Z.lt (map fst gs) → gs !! i = Some g →
  List.filter (λ g', g'.1 =? g.1) gs = [g].
Proof using.
  revert i. induction gs as [|g' gs IH]; intros i Hs Hi; [done|].
  simpl in Hs. apply StronglySorted_cons in Hs as [Hg Hs]. rewrite Forall_forall in Hg.
  assert (∀ g0, g0 ∈ gs → g'.1 < g0.1) as Hlt.
  { intros g0 H0. apply Hg. apply list_elem_of_fmap. eauto. }
  destruct i as [|i]; simpl in *.
  - simplify_eq. rewrite Z.eqb_refl. f_equal. apply filter_run_none.
    intros g0 H0. apply Hlt in H0. lia.
  - apply list_elem_of_lookup_2 in Hi as Hin. apply Hlt in Hin. case_lia. by eapply IH.
Qed.
End Group.

(** The [(doc, occurrences)] pairs of a list, in document order. *)
Definition doc_counts {A} (doc : A → Z) (l : list A) : list (Z * Z) :=
  map (λ g, (g.1, #g.2)) (group doc l).

(** ** The pairs of a file without positions *)

Fixpoint pairs_bytes (prev : Z) (l : list (Z * Z)) : list Z :=
  match l with
  | [] => []
  | (d, tf) :: l => varint_bytes (sub32 d prev) ++ varint_bytes tf ++ pairs_bytes d l
  end.

Definition pair_fits (p : Z * Z) : Prop := fits 32 p.1 ∧ fits 32 p.2.

Lemma len_pairs_bytes prev l :
  Forall (λ p, fits 32 p.2) l → 2 * #l ≤ #(pairs_bytes prev l).
Proof.
  intros H. revert prev. induction H as [|[d tf] l Htf _ IH]; intros prev; [done|].
  cbn [pairs_bytes]. lens. specialize (IH d). simpl in Htf.
  pose proof (len_varint_pos (sub32 d prev) (fits_32_64 _ (sub32_fits _ _))).
  pose proof (len_varint_pos tf (fits_32_64 _ Htf)). lia.
Qed.

Lemma run_len_le {A} (gs : list (Z * list A)) g : g ∈ gs → #g.2 ≤ #(flat_map snd gs).
Proof.
  induction gs as [|g' gs IH]; intros Hg; [by apply not_elem_of_nil in Hg|]. cbn [flat_map]. rewrite len_app.
  pose proof (len_nonneg g'.2). pose proof (len_nonneg (flat_map snd gs)).
  apply elem_of_cons in Hg as [->|Hg]; [lia|]. specialize (IH Hg). lia.
Qed.

Lemma doc_counts_fits {A} (doc : A → Z) l :
  Forall (λ e, fits 32 (doc e)) l → #l < 2 ^ 32 → Forall pair_fits (doc_counts doc l).
Proof.
  intros Hf Hl. rewrite Forall_forall in Hf. apply Forall_forall.
  intros p (g & -> & Hg)%list_elem_of_fmap. split; simpl.
  - assert (g.2 ≠ [] ∧ Forall (λ e, doc e = g.1) g.2) as [Hne Hd].
    { clear Hf Hl. revert g Hg. induction l as [|e l IH]; intros g Hg; [by apply not_elem_of_nil in Hg|].
      cbn [group] in Hg. destruct (group doc l) as [|[d es] gs].
      - apply list_elem_of_singleton in Hg as ->. split; [done|]. by repeat constructor.
      - destruct (doc e =? d) eqn:E; apply elem_of_cons in Hg as [->|Hg].
        + split; [done|]. simpl. constructor; [lia|]. apply (IH (d, es)). set_solver.
        + apply IH. set_solver.
        + split; [done|]. by repeat constructor.
        + by apply IH. }
    destruct g as [d [|e es]]; [done|]. apply Forall_cons in Hd as [<- _]. apply Hf.
    eapply elem_of_group; [done|]. simpl. set_solver.
  - pose proof (run_len_le _ g Hg) as H. rewrite group_flat in H. unfold fits.
    split; [apply len_nonneg|lia].
Qed.

(** ** Offsets in front of each block *)

Lemma fold_block_offsets {A} (step : list Z → A → list Z) (enc : A → list Z) l offs data :
  (∀ data a, a ∈ l → step data a = data ++ enc a) →
  let '(o, d) := fold_left (λ st a,
      let '(offset_table, entry_data) := st in
      (offset_table ++ [as_u32 #entry_data], step entry_data a)) l (offs, data) in
  d = data ++ concat (map enc l) ∧
  o ++ [as_u32 #d] = offs ++ map as_u32 (prefix_sums #data (map enc l)).
Proof.
  revert offs data. induction l as [|a l IH]; intros offs data Hstep; simpl.
  - by rewrite app_nil_r.
  - specialize (IH (offs ++ [as_u32 #data]) (step data a)).
    destruct (fold_left _ _ _) as [o d]. destruct IH as [-> Ho]; [set_solver|].
    rewrite Hstep in * by set_solver. split.
    + by rewrite <- app_assoc.
    + rewrite Ho, len_app. by rewrite <- app_assoc.
Qed.
