(* ===== verification/SfxPost.v ===== *)
(** * Posting lists ([src/suffix_fst/sfxpost_v2.rs])

    [.sfxpost]: for each ordinal, the documents it occurs in and its positions
    in each.  The writer produces [SFP4] (with byte spans), [SFP5] (positions
    only) or [SFP6] (documents and frequencies); the reader also takes [SFP3]
    and the fixed-width [SFP2].  A checkpoint every eight documents gives the
    varint-coded headers back their binary search. *)
From S2P Require Import Prelude Varint OffsetTables Gmap Ordering Runs DocFilter.
Import varint block_offsets.

Module sfxpost.

Definition MAGIC_V2 : list Z := [0x53; 0x46; 0x50; 0x32].
Definition MAGIC_V3 : list Z := [0x53; 0x46; 0x50; 0x33].
Definition MAGIC_V4 : list Z := [0x53; 0x46; 0x50; 0x34].
Definition MAGIC_V5 : list Z := [0x53; 0x46; 0x50; 0x35].
Definition MAGIC_V6 : list Z := [0x53; 0x46; 0x50; 0x36].
Definition CHECKPOINT_EVERY : Z := 8.
Definition CHECKPOINT_SIZE : Z := 12.

Definition checkpoints_for (n : Z) : Z := if n =? 0 then 0 else (n - 1) / CHECKPOINT_EVERY.

(** [(doc_id, token_index, byte_from, byte_to)]. *)
Definition entry : Type := Z * Z * Z * Z.
Definition entry_doc (e : entry) : Z := let '(d, _, _, _) := e in d.
Definition entry_key (e : entry) : list Z := let '(d, ti, bf, bt) := e in [d; ti; bf; bt].

(** [struct SfxPostWriterV2]. *)
Record SfxPostWriterV2 := {
  pw_ordinals : list (list entry);
  pw_spans : bool;
  pw_docs_only : bool;
}.

Definition new (num_terms : Z) : SfxPostWriterV2 :=
  {| pw_ordinals := replicate (Z.to_nat num_terms) []; pw_spans := true; pw_docs_only := false |}.
Definition positions_only (num_terms : Z) : SfxPostWriterV2 :=
  {| pw_ordinals := replicate (Z.to_nat num_terms) []; pw_spans := false; pw_docs_only := false |}.
Definition docs_only (num_terms : Z) : SfxPostWriterV2 :=
  {| pw_ordinals := replicate (Z.to_nat num_terms) []; pw_spans := false; pw_docs_only := true |}.

(** [add_entry]: out of range is ignored. *)
Definition add_entry (w : SfxPostWriterV2) (ordinal doc_id token_index byte_from byte_to : Z)
    : SfxPostWriterV2 :=
  if ordinal <? #(pw_ordinals w) then
    let '(bf, bt) := if pw_spans w then (byte_from, byte_to) else (0, 0) in
    let l := default [] (pw_ordinals w !! Z.to_nat ordinal) in
    {| pw_ordinals := set_at ordinal (l ++ [(doc_id, token_index, bf, bt)]) (pw_ordinals w);
       pw_spans := pw_spans w; pw_docs_only := pw_docs_only w |}
  else w.

Definition add_position (w : SfxPostWriterV2) (ordinal doc_id token_index : Z) : SfxPostWriterV2 :=
  add_entry w ordinal doc_id token_index 0 0.

(** [SFP6]: [while i < entries.len() && entries[i].0 == doc_id], the count and
    the entries left. *)
Fixpoint count_doc (doc_id : Z) (entries : list entry) (tf : Z) : Z * list entry :=
  match entries with
  | (d, ti, bf, bt) :: rest =>
      if d =? doc_id then count_doc doc_id rest (add32 tf 1) else (tf, entries)
  | [] => (tf, [])
  end.

(** The outer loop takes at least one entry per iteration: the number of
    entries bounds it. *)
Fixpoint docs_loop (fuel : nat) (entries : list entry) (n_docs prev_doc : Z) (headers : list Z)
    : Z * list Z :=
  match fuel, entries with
  | S fuel, (doc_id, _, _, _) :: _ =>
      let '(tf, rest) := count_doc doc_id entries 0 in
      let headers := write_varint headers (sub32 doc_id prev_doc) in
      let headers := write_varint headers tf in
      docs_loop fuel rest (n_docs + 1) doc_id headers
  | _, _ => (n_docs, headers)
  end.

(** The payload of one document: deltas, with the spans or without. *)
Fixpoint write_payload (spans : bool) (doc_id prev_ti prev_bf count : Z) (entries : list entry)
    (payload : list Z) : list Z * Z * list entry :=
  match entries with
  | (d, ti, bf, bt) :: rest =>
      if d =? doc_id then
        let payload := write_varint payload (sub32 ti prev_ti) in
        let payload := if spans
          then write_varint (write_varint payload (sub32 bf prev_bf)) (sub32 bt bf)
          else payload in
        write_payload spans doc_id ti bf (add32 count 1) rest payload
      else (payload, count, entries)
  | [] => (payload, count, [])
  end.

(** [doc_runs]: [(doc_id, entry count, end of its payload)]. *)
Fixpoint runs_loop (fuel : nat) (spans : bool) (entries : list entry) (payload : list Z)
    (doc_runs : list (Z * Z * Z)) : list Z * list (Z * Z * Z) :=
  match fuel, entries with
  | S fuel, (doc_id, _, _, _) :: _ =>
      let '(payload, count, rest) := write_payload spans doc_id 0 0 0 entries payload in
      runs_loop fuel spans rest payload (doc_runs ++ [(doc_id, count, #payload)])
  | _, _ => (payload, doc_runs)
  end.

(** The headers and the checkpoints: over the runs numbered from [i], with
    the end of the previous one. *)
Fixpoint headers_loop (i prev_end prev_doc cumulative : Z) (runs : list (Z * Z * Z))
    (headers checkpoints : list Z) : list Z * list Z :=
  match runs with
  | [] => (headers, checkpoints)
  | (doc_id, count, end_) :: runs =>
      let start := prev_end in
      let len := end_ - start in
      let checkpoints :=
        if (0 <? i) && (i mod CHECKPOINT_EVERY =? 0)
        then checkpoints ++ to_le_bytes 4 prev_doc ++ to_le_bytes 4 cumulative
               ++ to_le_bytes 4 (as_u32 #headers)
        else checkpoints in
      let headers := write_varint headers (sub32 doc_id prev_doc) in
      let headers := write_varint headers len in
      let headers := write_varint headers count in
      headers_loop (i + 1) end_ doc_id (add32 cumulative (as_u32 len)) runs headers checkpoints
  end.

(** The body of [finish]'s loop: one ordinal's block appended. *)
Definition write_block (w : SfxPostWriterV2) (entry_data : list Z) (entries : list entry) : list Z :=
  let entries := sort_by entry_key entries in
  if pw_docs_only w then
    match entries with
    | [] => entry_data
    | _ :: _ =>
        let '(n_docs, headers) := docs_loop (length entries) entries 0 0 [] in
        write_varint entry_data n_docs ++ headers
    end
  else
    let '(payload_data, doc_runs) := runs_loop (length entries) (pw_spans w) entries [] [] in
    let '(headers, checkpoints) := headers_loop 0 0 0 0 doc_runs [] [] in
    let entry_data := write_varint entry_data #doc_runs in
    let entry_data := write_varint entry_data #headers in
    entry_data ++ checkpoints ++ headers ++ payload_data.

(** [finish]. *)
Definition finish (w : SfxPostWriterV2) : out (list Z) :=
  let num_terms := #(pw_ordinals w) in
  let '(offset_table, entry_data) := fold_left (λ st entries,
      let '(offset_table, entry_data) := st in
      (offset_table ++ [as_u32 #entry_data], write_block w entry_data entries))
    (pw_ordinals w) ([], []) in
  assert_ (#entry_data <=? u32_max) (
    let offset_table := offset_table ++ [as_u32 #entry_data] in
    let magic := if pw_docs_only w then MAGIC_V6 else if pw_spans w then MAGIC_V4 else MAGIC_V5 in
    Ret (magic ++ to_le_bytes 4 (as_u32 num_terms) ++ encode offset_table ++ entry_data)).

Definition is_docs_only (bytes : list Z) : out bool :=
  if 4 <=? #bytes then m ← slice bytes 0 4; Ret (bytes_eqb m MAGIC_V6) else Ret false.

(** [build_sfxpost_v2]. *)
Definition build_sfxpost_v2 (sorted_entries_per_ordinal : list (list entry)) : out (list Z) :=
  finish (fold_left (λ w oe,
    fold_left (λ w e, let '(d, ti, bf, bt) := (e : entry) in add_entry w (fst oe) d ti bf bt) (snd oe) w)
    (zip (range 0 #sorted_entries_per_ordinal) sorted_entries_per_ordinal)
    (new #sorted_entries_per_ordinal)).

(** [struct SfxPostReaderV2]. *)
Record SfxPostReaderV2 := {
  sp_data : list Z;
  sp_num_terms : Z;
  sp_offsets_start : Z;
  sp_entry_data_start : Z;
  sp_v3 : bool;
  sp_block_table : option (Z * Z);
  sp_spans : bool;
  sp_docs_only : bool;
  sp_gmap : option (list Z);
}.

(** [open_owned]. *)
Definition open (data : list Z) : out SfxPostReaderV2 :=
  if #data <? 8 then Nothing else
  m ← slice data 0 4;
  let docs_only := bytes_eqb m MAGIC_V6 in
  '(v3, block, spans) ←
    (if bytes_eqb m MAGIC_V6 then Ret (true, true, false)
     else if bytes_eqb m MAGIC_V5 then Ret (true, true, false)
     else if bytes_eqb m MAGIC_V4 then Ret (true, true, true)
     else if bytes_eqb m MAGIC_V3 then Ret (true, false, true)
     else if bytes_eqb m MAGIC_V2 then Ret (false, false, true)
     else Nothing);
  num_terms ← u32_at data 4;
  if (block : bool) then
    tail ← slice_from data 8;
    '(table, used) ← parse tail;
    if negb (bo_num table =? add32 num_terms 1) then Nothing else
    num_blocks ← u32_at data 12;
    let dir_start := 8 + 12 in
    let blocks_start := dir_start + num_blocks * 4 in
    Ret {| sp_data := data; sp_num_terms := num_terms; sp_offsets_start := 8;
           sp_entry_data_start := 8 + used; sp_v3 := v3;
           sp_block_table := Some (dir_start, blocks_start);
           sp_spans := spans; sp_docs_only := docs_only; sp_gmap := None |}
  else
    let offsets_size := (num_terms + 1) * 4 in
    if #data <? 8 + offsets_size then Nothing else
    Ret {| sp_data := data; sp_num_terms := num_terms; sp_offsets_start := 8;
           sp_entry_data_start := 8 + offsets_size; sp_v3 := v3; sp_block_table := None;
           sp_spans := spans; sp_docs_only := docs_only; sp_gmap := None |}.

Definition with_gmap (r : SfxPostReaderV2) (g : list Z) : SfxPostReaderV2 :=
  {| sp_data := sp_data r; sp_num_terms := sp_num_terms r; sp_offsets_start := sp_offsets_start r;
     sp_entry_data_start := sp_entry_data_start r; sp_v3 := sp_v3 r;
     sp_block_table := sp_block_table r; sp_spans := sp_spans r; sp_docs_only := sp_docs_only r;
     sp_gmap := Some g |}.

Definition has_byte_spans (r : SfxPostReaderV2) : bool := sp_spans r.
Definition has_positions (r : SfxPostReaderV2) : bool := negb (sp_docs_only r).

Definition offsets (r : SfxPostReaderV2) : out (list Z) :=
  slice (sp_data r) (sp_offsets_start r) (sp_entry_data_start r).
Definition entry_data (r : SfxPostReaderV2) : out (list Z) :=
  slice_from (sp_data r) (sp_entry_data_start r).

(** [local]: the map is opened at each call. *)
Definition local (r : SfxPostReaderV2) (ordinal : Z) : out (option Z) :=
  match sp_gmap r with
  | Some bytes => catch (g ← gmap.open bytes; gmap.local g ordinal)
  | None => Ret (Some ordinal)
  end.

(** [read_offset]. *)
Definition read_offset (r : SfxPostReaderV2) (idx : Z) : out Z :=
  match sp_block_table r with
  | Some (dir_start, blocks_start) =>
      dir ← slice (sp_data r) dir_start blocks_start;
      blocks ← slice (sp_data r) blocks_start (sp_entry_data_start r);
      get_ (from_parts (add32 (sp_num_terms r) 1) dir blocks) idx
  | None =>
      offs ← offsets r;
      u32_at offs (idx * 4)
  end.

(** [enum HeaderLayout]. *)
Inductive HeaderLayout :=
| V2 (doc_ids payload_offsets entry_counts : list Z)
| V3 (checkpoints headers : list Z)
| Docs (pairs : list Z).

(** [struct OrdinalHeader]. *)
Record OrdinalHeader := {
  oh_num_docs : Z;
  oh_layout : HeaderLayout;
  oh_payload_data : list Z;
  oh_spans : bool;
}.

(** [read_ordinal_header]. *)
Definition read_ordinal_header (r : SfxPostReaderV2) (ordinal : Z) : out OrdinalHeader :=
  off_start ← read_offset r ordinal;
  off_end ← read_offset r (ordinal + 1);
  entry_data ← entry_data r;
  if (off_end <=? off_start) || (#entry_data <=? off_start) then Nothing else
  data ← slice entry_data off_start (Z.min off_end #entry_data);
  if sp_docs_only r then
    '(num_docs, pos) ← read_varint_u32 data 0;
    if #data <? num_docs then Nothing else
    pairs ← slice_from data pos;
    Ret {| oh_num_docs := num_docs; oh_layout := Docs pairs; oh_payload_data := [];
           oh_spans := false |}
  else
  if #data <? 4 then Nothing else
  if sp_v3 r then
    '(num_docs, pos) ← read_varint_u32 data 0;
    if #data <? num_docs then Nothing else
    '(headers_len, pos) ← read_varint_u32 data pos;
    let cp_start := pos in
    let cp_len := checkpoints_for num_docs * CHECKPOINT_SIZE in
    let headers_start := cp_start + cp_len in
    let payload_start := headers_start + headers_len in
    if #data <? payload_start then Nothing else
    checkpoints ← slice data cp_start headers_start;
    headers ← slice data headers_start payload_start;
    payload ← slice_from data payload_start;
    Ret {| oh_num_docs := num_docs; oh_layout := V3 checkpoints headers;
           oh_payload_data := payload; oh_spans := sp_spans r |}
  else
    num_docs ← u32_at data 0;
    let header_size := 4 + num_docs * 4 + num_docs * 4 + num_docs * 2 in
    if #data <? header_size then Nothing else
    let d0 := 4 in
    let p0 := d0 + num_docs * 4 in
    let c0 := p0 + num_docs * 4 in
    let payload_start := c0 + num_docs * 2 in
    doc_ids ← slice data d0 p0;
    payload_offsets ← slice data p0 c0;
    entry_counts ← slice data c0 payload_start;
    payload ← slice_from data payload_start;
    Ret {| oh_num_docs := num_docs; oh_layout := V2 doc_ids payload_offsets entry_counts;
           oh_payload_data := payload; oh_spans := true |}.

(** [next_doc_pair]. *)
Definition next_doc_pair (pairs : list Z) (pos : Z) : out (Z * Z * Z) :=
  '(d, pos) ← read_varint_u32 pairs pos;
  '(n, pos) ← read_varint_u32 pairs pos;
  Ret (d, n, pos).

(** The three varints of a document header. *)
Definition next_header (headers : list Z) (pos : Z) : out (Z * Z * Z * Z) :=
  '(d_doc, pos) ← read_varint_u32 headers pos;
  '(len, pos) ← read_varint_u32 headers pos;
  '(n, pos) ← read_varint_u32 headers pos;
  Ret (d_doc, len, n, pos).

(** The checkpoint [k >= 1], [g(0)], [g(1)], [g(2)]; the start for [k = 0]. *)
Definition checkpoint_at (checkpoints : list Z) (k : Z) : out (Z * Z * Z) :=
  if k =? 0 then Ret (0, 0, 0) else
  let c := (k - 1) * CHECKPOINT_SIZE in
  doc ← u32_at checkpoints c;
  offset ← u32_at checkpoints (c + 4);
  pos ← u32_at checkpoints (c + 8);
  Ret (doc, offset, pos).

(** [doc_at]'s loop over the run, [for j in k * CHECKPOINT_EVERY..=i]. *)
Fixpoint doc_at_loop (js : list Z) (i : Z) (headers : list Z) (doc offset pos count : Z)
    : out (Z * Z * Z) :=
  match js with
  | [] => Ret (doc, offset, count)
  | j :: js =>
      h ← catch (next_header headers pos);
      match h with
      | None => Ret (doc, offset, count)
      | Some (d_doc, len, n, pos) =>
          let doc := add32 doc d_doc in
          if j =? i then Ret (doc, offset, n)
          else doc_at_loop js i headers doc (add32 offset len) pos n
      end
  end.

Fixpoint docs_at_loop (js : list Z) (pairs : list Z) (doc tf pos : Z) : out (Z * Z * Z) :=
  match js with
  | [] => Ret (doc, 0, tf)
  | _ :: js =>
      p ← catch (next_doc_pair pairs pos);
      match p with
      | None => Ret (doc, 0, tf)
      | Some (d, n, pos) => docs_at_loop js pairs (add32 doc d) n pos
      end
  end.

(** [doc_at]: [(doc_id, payload offset, entry count)] of document [i]. *)
Definition doc_at (h : OrdinalHeader) (i : Z) : out (Z * Z * Z) :=
  match oh_layout h with
  | V2 doc_ids payload_offsets entry_counts =>
      d ← u32_at doc_ids (i * 4);
      p ← u32_at payload_offsets (i * 4);
      c ← u16_at entry_counts (i * 2);
      Ret (d, p, c)
  | V3 checkpoints headers =>
      let k := i / CHECKPOINT_EVERY in
      '(doc, offset, pos) ← checkpoint_at checkpoints k;
      doc_at_loop (range (k * CHECKPOINT_EVERY) (i + 1)) i headers doc offset pos 0
  | Docs pairs => docs_at_loop (range 0 (i + 1)) pairs 0 0 0
  end.

(** [for_each_doc]: the [(i, doc_id, offset, count)] visited, in order; the
    callers' closures never stop it. *)
Fixpoint for_each_header (is_ : list Z) (headers : list Z) (doc offset pos : Z)
    : out (list (Z * Z * Z * Z)) :=
  match is_ with
  | [] => Ret []
  | i :: is_ =>
      h ← catch (next_header headers pos);
      match h with
      | None => Ret []
      | Some (d_doc, len, n, pos) =>
          let doc := add32 doc d_doc in
          rest ← for_each_header is_ headers doc (add32 offset len) pos;
          Ret ((i, doc, offset, n) :: rest)
      end
  end.

Fixpoint for_each_pair (is_ : list Z) (pairs : list Z) (doc pos : Z) : out (list (Z * Z * Z * Z)) :=
  match is_ with
  | [] => Ret []
  | i :: is_ =>
      p ← catch (next_doc_pair pairs pos);
      match p with
      | None => Ret []
      | Some (d, n, pos) =>
          let doc := add32 doc d in
          rest ← for_each_pair is_ pairs doc pos;
          Ret ((i, doc, 0, n) :: rest)
      end
  end.

Definition header_for_each_doc (h : OrdinalHeader) : out (list (Z * Z * Z * Z)) :=
  match oh_layout h with
  | V2 _ _ _ =>
      mapM_out (λ i, '(doc, off, n) ← doc_at h i; Ret (i, doc, off, n)) (range 0 (oh_num_docs h))
  | V3 _ headers => for_each_header (range 0 (oh_num_docs h)) headers 0 0 0
  | Docs pairs => for_each_pair (range 0 (oh_num_docs h)) pairs 0 0
  end.

(** [decode_vint]: at most five bytes. *)
Fixpoint decode_vint_loop (fuel : nat) (data : list Z) (i shift result : Z) : Z * Z :=
  match fuel, data with
  | S fuel, byte :: data =>
      let result := Z.lor result (as_u32 (Z.shiftl (Z.land byte 0x7F) shift)) in
      if Z.land byte 0x80 =? 0 then (result, i + 1)
      else decode_vint_loop fuel data (i + 1) (shift + 7) result
  | _, _ => (result, i)
  end.
Definition decode_vint (data : list Z) : Z * Z := decode_vint_loop 5 data 0 0 0.

(** [walk_payload]: over the state of the caller's closure, which says
    whether to go on. *)
Fixpoint walk_positions {S : Type} (count : nat) (data : list Z) (pos prev_ti : Z)
    (f : S → Z → Z → Z → S * bool) (s : S) : out S :=
  match count with
  | O => Ret s
  | Datatypes.S count =>
      if #data <=? pos then Ret s else
      d ← slice_from data pos;
      let '(a, n) := decode_vint d in
      let pos := pos + n in
      let prev_ti := add32 prev_ti a in
      let '(s, go_on) := f s prev_ti 0 0 in
      if (go_on : bool) then walk_positions count data pos prev_ti f s else Ret s
  end.

Fixpoint walk_spans {S : Type} (v3 : bool) (count : nat) (data : list Z) (pos prev_ti prev_bf : Z)
    (f : S → Z → Z → Z → S * bool) (s : S) : out S :=
  match count with
  | O => Ret s
  | Datatypes.S count =>
      if #data <=? pos then Ret s else
      d ← slice_from data pos;
      let '(a, n) := decode_vint d in
      let pos := pos + n in
      if #data <=? pos then Ret s else
      d ← slice_from data pos;
      let '(b, n) := decode_vint d in
      let pos := pos + n in
      if #data <? pos then Ret s else
      d ← slice_from data pos;
      let '(c, n) := decode_vint d in
      let pos := pos + n in
      let '(ti, bf, bt) :=
        if v3 then
          let ti := add32 prev_ti a in
          let bf := add32 prev_bf b in
          (ti, bf, add32 bf c)
        else (a, b, c) in
      let '(prev_ti, prev_bf) := if v3 then (ti, bf) else (prev_ti, prev_bf) in
      let '(s, go_on) := f s ti bf bt in
      if (go_on : bool) then walk_spans v3 count data pos prev_ti prev_bf f s else Ret s
  end.

Definition walk_payload {S : Type} (h : OrdinalHeader) (offset count : Z)
    (f : S → Z → Z → Z → S * bool) (s : S) : out S :=
  data ← slice_from (oh_payload_data h) (Z.min offset #(oh_payload_data h));
  let v3 := match oh_layout h with V3 _ _ => true | _ => false end in
  if negb (oh_spans h) then walk_positions (Z.to_nat count) data 0 0 f s
  else walk_spans v3 (Z.to_nat count) data 0 0 0 f s.

(** [find_doc_full]'s scan of one run. *)
Fixpoint find_in_run (is_ : list Z) (headers : list Z) (doc_id doc offset pos : Z)
    : out (Z * Z * Z) :=
  match is_ with
  | [] => Nothing
  | i :: is_ =>
      '(d_doc, len, n, pos) ← next_header headers pos;
      let doc := add32 doc d_doc in
      if doc <? doc_id then find_in_run is_ headers doc_id doc (add32 offset len) pos
      else if doc =? doc_id then Ret (i, offset, n)
      else Nothing
  end.

Fixpoint find_in_pairs (is_ : list Z) (pairs : list Z) (doc_id doc pos : Z) : out (Z * Z * Z) :=
  match is_ with
  | [] => Nothing
  | i :: is_ =>
      '(d, n, pos) ← next_doc_pair pairs pos;
      let doc := add32 doc d in
      if doc <? doc_id then find_in_pairs is_ pairs doc_id doc pos
      else if doc =? doc_id then Ret (i, 0, n)
      else Nothing
  end.

(** [find_doc_full]: the document's index, payload offset and entry count. *)
Definition find_doc_full (h : OrdinalHeader) (doc_id : Z) : out (Z * Z * Z) :=
  match oh_layout h with
  | V2 _ _ _ =>
      lo ← bisect (λ mid, '(d, _, _) ← doc_at h mid; Ret (d <? doc_id)) 0 (oh_num_docs h);
      if lo <? oh_num_docs h then
        '(d, off, n) ← doc_at h lo;
        if d =? doc_id then Ret (lo, off, n) else Nothing
      else Nothing
  | V3 checkpoints headers =>
      let c := checkpoints_for (oh_num_docs h) in
      lo ← bisect_last (λ mid,
        cp_doc ← u32_at checkpoints ((mid - 1) * CHECKPOINT_SIZE);
        Ret (cp_doc <? doc_id)) 0 c;
      let start := lo * CHECKPOINT_EVERY in
      let end_ := Z.min (start + CHECKPOINT_EVERY) (oh_num_docs h) in
      '(doc, offset, pos) ← checkpoint_at checkpoints lo;
      find_in_run (range start end_) headers doc_id doc offset pos
  | Docs pairs => find_in_pairs (range 0 (oh_num_docs h)) pairs doc_id 0 0
  end.

Definition find_doc (h : OrdinalHeader) (doc_id : Z) : out Z :=
  '(i, _, _) ← find_doc_full h doc_id; Ret i.

(** [usize::BITS - n.leading_zeros()]. *)
Definition bit_length (n : Z) : Z := if n =? 0 then 0 else Z.log2 n + 1.

(** [filtered_indices]: the smaller side drives the loop. *)
Definition filtered_indices {F} `{DocFilter F} (h : OrdinalHeader) (filter : F) : out (list Z) :=
  let n := oh_num_docs h in
  let probe_cost := bit_length n in
  let searchable := match oh_layout h with Docs _ => false | _ => true end in
  if searchable && (Z.min (filter_len filter * probe_cost) (2 ^ 64 - 1) <? n) then
    found ← mapM_out (λ d, catch (find_doc h d)) (for_each filter);
    Ret (sort_by (λ i : Z, [i]) (omap id (found : list (option Z))))
  else
    visits ← header_for_each_doc h;
    Ret (map (λ v, let '(i, _, _, _) := (v : Z * Z * Z * Z) in i)
      (List.filter (λ v, let '(_, d, _, _) := (v : Z * Z * Z * Z) in contains filter d) visits)).

(** [struct SfxPostingEntry], and the closure that collects it. *)
Record SfxPostingEntry := { pe_doc_id : Z; pe_token_index : Z; pe_byte_from : Z; pe_byte_to : Z }.
Definition push_entry (doc_id : Z) (acc : list SfxPostingEntry) (ti bf bt : Z)
    : list SfxPostingEntry * bool :=
  (acc ++ [{| pe_doc_id := doc_id; pe_token_index := ti; pe_byte_from := bf; pe_byte_to := bt |}], true).

(** The header of an ordinal as a caller names it: nothing on an id the
    segment does not have, past the table or for an empty ordinal. *)
Definition header_of (r : SfxPostReaderV2) (ordinal : Z) : out (option OrdinalHeader) :=
  o ← local r ordinal;
  match o with
  | None => Ret None
  | Some ordinal =>
      if sp_num_terms r <=? ordinal then Ret None else catch (read_ordinal_header r ordinal)
  end.

(** [entries_filtered]. *)
Definition entries_filtered {F} `{DocFilter F} (r : SfxPostReaderV2) (ordinal : Z) (filter : option F)
    : out (list SfxPostingEntry) :=
  h ← header_of r ordinal;
  match h with
  | None => Ret []
  | Some h =>
      match filter with
      | None =>
          visits ← header_for_each_doc h;
          foldM (λ result v, let '(_, doc_id, offset, count) := (v : Z * Z * Z * Z) in
            walk_payload h offset count (push_entry doc_id) result) [] visits
      | Some filter =>
          idx ← filtered_indices h filter;
          foldM (λ result i,
            '(doc_id, offset, count) ← doc_at h i;
            walk_payload h offset count (push_entry doc_id) result) [] idx
      end
  end.

(** [has_doc]. *)
Definition has_doc (r : SfxPostReaderV2) (ordinal doc_id : Z) : out bool :=
  h ← header_of r ordinal;
  match h with
  | None => Ret false
  | Some h => i ← catch (find_doc h doc_id); Ret (bool_decide (is_Some i))
  end.

(** [Vec::with_capacity] for [count] elements of [size] bytes: a panic when they
    take more than [isize::MAX] bytes; whether that much memory can be had is
    left out. *)
Definition with_capacity {A} (size count : Z) : out (list A) :=
  if size * count <=? 2 ^ 63 - 1 then Ret [] else Panic.

(** [entries_for_doc]. *)
Definition entries_for_doc (r : SfxPostReaderV2) (ordinal target_doc : Z)
    : out (list SfxPostingEntry) :=
  h ← header_of r ordinal;
  match h with
  | None => Ret []
  | Some h =>
      d ← catch (find_doc_full h target_doc);
      match d with
      | None => Ret []
      | Some (_, offset, count) =>
          out ← with_capacity 12 count;
          walk_payload h offset count (push_entry target_doc) out
      end
  end.

(** [entry_at]: the scan stops past the target. *)
Definition entry_at (r : SfxPostReaderV2) (ordinal doc_id position : Z) : out (Z * Z) :=
  h ← header_of r ordinal;
  h ← of_option h;
  '(_, offset, count) ← find_doc_full h doc_id;
  found ← walk_payload h offset count (λ found ti bf bt,
    if ti =? position then (Some (bf, bt), false) else (found, ti <? position)) None;
  of_option found.

(** [positions_for_doc]. *)
Definition positions_for_doc (r : SfxPostReaderV2) (ordinal target_doc : Z) : out (list Z) :=
  h ← header_of r ordinal;
  match h with
  | None => Ret []
  | Some h =>
      d ← catch (find_doc_full h target_doc);
      match d with
      | None => Ret []
      | Some (_, offset, count) =>
          out ← with_capacity 4 count;
          walk_payload h offset count (λ acc ti _ _, (acc ++ [ti], true)) out
      end
  end.

(** [has_position]. *)
Definition has_position (r : SfxPostReaderV2) (ordinal doc_id position : Z) : out bool :=
  h ← header_of r ordinal;
  match h with
  | None => Ret false
  | Some h =>
      d ← catch (find_doc_full h doc_id);
      match d with
      | None => Ret false
      | Some (_, offset, count) =>
          walk_payload h offset count (λ found ti _ _,
            if ti =? position then (true, false) else (found, ti <? position)) false
      end
  end.

(** [positions_filtered]. *)
Definition positions_filtered {F} `{DocFilter F} (r : SfxPostReaderV2) (ordinal : Z) (filter : option F)
    : out (list (Z * Z)) :=
  let push doc_id (acc : list (Z * Z)) (ti bf bt : Z) := (acc ++ [(doc_id, ti)], true) in
  h ← header_of r ordinal;
  match h with
  | None => Ret []
  | Some h =>
      match filter with
      | None =>
          visits ← header_for_each_doc h;
          foldM (λ result v, let '(_, doc_id, offset, count) := (v : Z * Z * Z * Z) in
            walk_payload h offset count (push doc_id) result) [] visits
      | Some filter =>
          idx ← filtered_indices h filter;
          foldM (λ result i,
            '(doc_id, offset, count) ← doc_at h i;
            walk_payload h offset count (push doc_id) result) [] idx
      end
  end.

(** [for_each_entry]: the entries visited, in order. *)
Definition for_each_entry (r : SfxPostReaderV2) (ordinal : Z) : out (list entry) :=
  h ← header_of r ordinal;
  match h with
  | None => Ret []
  | Some h =>
      visits ← header_for_each_doc h;
      foldM (λ result v, let '(_, doc_id, offset, count) := (v : Z * Z * Z * Z) in
        walk_payload h offset count (λ acc ti bf bt, (acc ++ [(doc_id, ti, bf, bt)], true)) result)
        [] visits
  end.

(** [for_each_position]: the [(doc_id, token_index)] visited, in order. *)
Definition for_each_position (r : SfxPostReaderV2) (ordinal : Z) : out (list (Z * Z)) :=
  h ← header_of r ordinal;
  match h with
  | None => Ret []
  | Some h =>
      visits ← header_for_each_doc h;
      foldM (λ result v, let '(_, doc_id, offset, count) := (v : Z * Z * Z * Z) in
        walk_payload h offset count (λ acc ti _ _, (acc ++ [(doc_id, ti)], true)) result)
        [] visits
  end.

(** [for_each_doc]: the [(doc_id, frequency)] visited. *)
Definition for_each_doc (r : SfxPostReaderV2) (ordinal : Z) : out (list (Z * Z)) :=
  h ← header_of r ordinal;
  match h with
  | None => Ret []
  | Some h =>
      visits ← header_for_each_doc h;
      Ret (map (λ v, let '(_, doc_id, _, count) := (v : Z * Z * Z * Z) in (doc_id, count)) visits)
  end.

(** [doc_freq]. *)
Definition doc_freq (r : SfxPostReaderV2) (ordinal : Z) : out Z :=
  h ← header_of r ordinal;
  Ret (match h with None => 0 | Some h => as_u32 (oh_num_docs h) end).

End sfxpost.
Import sfxpost.
