(* ===== verification/SfxPostBlock.v ===== *)
(** * One ordinal's block of a posting file

    What [finish] writes for an ordinal ([sfxpost_v2.rs]) as a function of the
    runs of its sorted entries, and what each lookup of [OrdinalHeader] finds
    in it: the checkpoints and the headers in step, the binary search of
    [find_doc_full], the payload of each document. *)
From S2P Require Import Prelude Varint OffsetTables Gmap Ordering Runs DocFilter SfxPost.
Import varint block_offsets sfxpost.

(** ** Entries *)

(** A field of an entry is a [u32]. *)
Definition entry_fits (e : entry) : Prop :=
  let '(d, ti, bf, bt) := e in fits 32 d ∧ fits 32 ti ∧ fits 32 bf ∧ fits 32 bt.

#[export] Instance entry_fits_dec e : Decision (entry_fits e).
Proof. destruct e as [[[d ti] bf] bt]. unfold entry_fits. apply _. Defined.

#[export] Instance entry_key_inj : Inj (=) (=) entry_key.
Proof. intros [[[d ti] bf] bt] [[[d' ti'] bf'] bt'] H. by simplify_eq/=. Qed.

Lemma entry_key_doc a b : key_le entry_key a b → entry_doc a ≤ entry_doc b.
Proof.
  destruct a as [[[d ti] bf] bt], b as [[[d' ti'] bf'] bt']. unfold key_le. simpl. lia.
Qed.

(** The runs of an ordinal's entries, as [finish] meets them. *)
Definition runs_of (es : list entry) : list (Z * list entry) := group entry_doc (sort_by entry_key es).

Lemma runs_of_ok es : runs_ok entry_doc (runs_of es).
Proof.
  apply group_ok. pose proof (sort_by_sorted entry_key es) as H.
  induction H as [|e l _ IH Hall]; constructor; [done|].
  eapply Forall_impl; [apply Hall|]. intros b. apply entry_key_doc.
Qed.

Lemma runs_of_flat es : flat_map snd (runs_of es) = sort_by entry_key es.
Proof. apply group_flat. Qed.

(** ** The payload of one document *)

Fixpoint payload_of (spans : bool) (prev_ti prev_bf : Z) (es : list entry) : list Z :=
  match es with
  | [] => []
  | (_, ti, bf, bt) :: es =>
      varint_bytes (sub32 ti prev_ti)
        ++ (if spans then varint_bytes (sub32 bf prev_bf) ++ varint_bytes (sub32 bt bf) else [])
        ++ payload_of spans ti bf es
  end.

(** The next entry, if any, is of another document. *)
Definition leaves (d : Z) (rest : list entry) : Prop :=
  match rest with [] => True | e :: _ => entry_doc e ≠ d end.

Lemma write_payload_run spans d es rest pt pb c payload :
  Forall (λ e, entry_doc e = d) es → leaves d rest → 0 ≤ c → c + #es < 2 ^ 32 →
  write_payload spans d pt pb c (es ++ rest) payload =
    (payload ++ payload_of spans pt pb es, c + #es, rest).
Proof.
  intros Hd Hr. revert pt pb c payload.
  induction Hd as [|[[[d' ti] bf] bt] es Hd _ IH]; intros pt pb c payload Hc Hb.
  - rewrite app_nil_l. cbn [payload_of]. rewrite app_nil_r, len_nil, Z.add_0_r.
    destruct rest as [|[[[d' ti] bf] bt] rest]; [done|]. cbn [write_payload].
    simpl in Hr. by replace (d' =? d) with false by lia.
  - rewrite len_cons in *. pose proof (len_nonneg es). cbn [app write_payload payload_of].
    simpl in Hd. subst d'. rewrite Z.eqb_refl. unfold add32, as_u32. rewrite Z.mod_small by lia.
    rewrite IH by lia. f_equal. f_equal; [|lia].
    destruct spans; rewrite !write_varint_app, <- ?app_assoc; by rewrite ?app_nil_l.
Qed.

Lemma count_doc_run d es rest tf :
  Forall (λ e, entry_doc e = d) es → leaves d rest → 0 ≤ tf → tf + #es < 2 ^ 32 →
  count_doc d (es ++ rest) tf = (tf + #es, rest).
Proof.
  intros Hd Hr. revert tf.
  induction Hd as [|[[[d' ti] bf] bt] es Hd _ IH]; intros tf Ht Hb.
  - rewrite app_nil_l, len_nil, Z.add_0_r.
    destruct rest as [|[[[d' ti] bf] bt] rest]; [done|]. cbn [count_doc].
    simpl in Hr. by replace (d' =? d) with false by lia.
  - rewrite len_cons in *. pose proof (len_nonneg es). cbn [app count_doc].
    simpl in Hd. subst d'. rewrite Z.eqb_refl. unfold add32, as_u32. rewrite Z.mod_small by lia.
    rewrite IH by lia. f_equal. lia.
Qed.

Lemma leaves_next g gs : runs_ok entry_doc (g :: gs) → leaves g.1 (flat_map snd gs).
Proof.
  intros [Hne Hd Hs]. destruct gs as [|[d' es'] gs]; [done|].
  apply Forall_cons in Hne as [_ Hne]. apply Forall_cons in Hne as [Hne _].
  apply Forall_cons in Hd as [_ Hd]. apply Forall_cons in Hd as [Hd _].
  simpl in *. destruct es' as [|e es']; [done|]. apply Forall_cons in Hd as [Hd _].
  apply StronglySorted_cons in Hs as [Hs _]. apply Forall_cons in Hs as [Hs _]. simpl. lia.
Qed.

(** ** The loops over the documents *)

Definition run_payload (spans : bool) (g : Z * list entry) : list Z := payload_of spans 0 0 g.2.

Fixpoint run_ends (spans : bool) (a : Z) (gs : list (Z * list entry)) : list (Z * Z * Z) :=
  match gs with
  | [] => []
  | g :: gs =>
      (g.1, #g.2, a + #(run_payload spans g)) :: run_ends spans (a + #(run_payload spans g)) gs
  end.

Definition total (gs : list (Z * list entry)) : Z := #(flat_map snd gs).

Lemma runs_loop_spec spans gs fuel payload dr :
  runs_ok entry_doc gs → total gs < 2 ^ 32 → (length (flat_map snd gs) ≤ fuel)%nat →
  runs_loop fuel spans (flat_map snd gs) payload dr =
    (payload ++ concat (map (run_payload spans) gs), dr ++ run_ends spans #payload gs).
Proof.
  revert fuel payload dr. induction gs as [|[d es] gs IH]; intros fuel payload dr Hok Ht Hf.
  - simpl. rewrite !app_nil_r. by destruct fuel.
  - unfold total in *. cbn [flat_map snd] in *. rewrite len_app in Ht. rewrite length_app in Hf.
    pose proof (leaves_next _ _ Hok) as Hl. pose proof (ro_nonempty _ _ Hok) as Hne.
    pose proof (ro_docs _ _ Hok) as Hd. apply Forall_cons in Hne as [Hne _].
    apply Forall_cons in Hd as [Hd _]. simpl in Hne, Hd, Hl.
    pose proof (len_nonneg es). pose proof (len_nonneg (flat_map snd gs)).
    destruct es as [|[[[d' ti] bf] bt] es]; [done|]. assert (d' = d) as -> by (by inv Hd).
    destruct fuel as [|fuel]; [simpl in Hf; lia|]. cbn [app runs_loop].
    change ((d, ti, bf, bt) :: es ++ flat_map snd gs) with (((d, ti, bf, bt) :: es) ++ flat_map snd gs).
    rewrite (write_payload_run spans d) by (done || (unfold entry in *; lia)).
    rewrite IH; [|by apply runs_ok_tail in Hok|lia|simpl in Hf; lia].
    cbn [map concat run_ends fst snd]. unfold run_payload at 4 5. cbn [snd].
    rewrite len_app, Z.add_0_l. by rewrite <- !app_assoc.
Qed.

Definition counts (gs : list (Z * list entry)) : list (Z * Z) := map (λ g, (g.1, #g.2)) gs.

Lemma docs_loop_spec gs fuel n prev headers :
  runs_ok entry_doc gs → total gs < 2 ^ 32 → (length (flat_map snd gs) ≤ fuel)%nat →
  docs_loop fuel (flat_map snd gs) n prev headers =
    (n + #gs, headers ++ pairs_bytes prev (counts gs)).
Proof.
  revert fuel n prev headers. induction gs as [|[d es] gs IH]; intros fuel n prev headers Hok Ht Hf.
  - simpl. rewrite !app_nil_r, len_nil, Z.add_0_r. by destruct fuel.
  - unfold total in *. cbn [flat_map snd] in *. rewrite len_app in Ht. rewrite length_app in Hf.
    pose proof (leaves_next _ _ Hok) as Hl. pose proof (ro_nonempty _ _ Hok) as Hne.
    pose proof (ro_docs _ _ Hok) as Hd. apply Forall_cons in Hne as [Hne _].
    apply Forall_cons in Hd as [Hd _]. simpl in Hne, Hd, Hl.
    pose proof (len_nonneg es). pose proof (len_nonneg (flat_map snd gs)).
    destruct es as [|[[[d' ti] bf] bt] es]; [done|]. assert (d' = d) as -> by (by inv Hd).
    destruct fuel as [|fuel]; [simpl in Hf; lia|]. cbn [app docs_loop].
    change ((d, ti, bf, bt) :: es ++ flat_map snd gs) with (((d, ti, bf, bt) :: es) ++ flat_map snd gs).
    rewrite (count_doc_run d) by (done || (unfold entry in *; lia)).
    rewrite IH; [|by apply runs_ok_tail in Hok|lia|simpl in Hf; lia].
    cbn [counts map pairs_bytes fst snd]. rewrite !write_varint_app, Z.add_0_l, <- !app_assoc.
    f_equal. rewrite len_cons. lia.
Qed.

(** ** Headers and checkpoints *)

(** The document before the [i]-th, 0 at the start. *)
Definition doc_before (gs : list (Z * list entry)) (i : nat) : Z :=
  match i with
  | O => 0
  | S i => match gs !! i with Some g => g.1 | None => 0 end
  end.

Definition header_bytes (spans : bool) (prev : Z) (g : Z * list entry) : list Z :=
  varint_bytes (sub32 g.1 prev) ++ varint_bytes #(run_payload spans g) ++ varint_bytes #g.2.

(** A header per run; the payloads and the headers of the first [i] runs. *)
Definition header_list (spans : bool) (gs : list (Z * list entry)) : list (list Z) :=
  imap (λ i g, header_bytes spans (doc_before gs i) g) gs.
Definition payloads (spans : bool) (gs : list (Z * list entry)) : list (list Z) :=
  map (run_payload spans) gs.
Definition payload_pos (spans : bool) (gs : list (Z * list entry)) (i : nat) : Z :=
  #(concat (take i (payloads spans gs))).
Definition header_pos (spans : bool) (gs : list (Z * list entry)) (i : nat) : Z :=
  #(concat (take i (header_list spans gs))).

(** The checkpoint [k >= 1], in front of run [8 k]. *)
Definition cp_bytes (spans : bool) (gs : list (Z * list entry)) (k : nat) : list Z :=
  to_le_bytes 4 (doc_before gs (8 * k)) ++ to_le_bytes 4 (payload_pos spans gs (8 * k))
    ++ to_le_bytes 4 (header_pos spans gs (8 * k)).
(** The checkpoints in front of the runs below [i]. *)
Definition cps_below (i : nat) : nat := Nat.div (i - 1) 8.
Definition cp_list (spans : bool) (gs : list (Z * list entry)) (i : nat) : list Z :=
  flat_map (cp_bytes spans gs) (seq 1 (cps_below i)).

Lemma cps_below_spec i : Z.of_nat (cps_below i) = checkpoints_for (Z.of_nat i).
Proof.
  unfold cps_below, checkpoints_for, CHECKPOINT_EVERY. rewrite Nat2Z.inj_div.
  destruct (Z.of_nat i =? 0) eqn:E.
  - replace i with 0%nat by lia. done.
  - f_equal. lia.
Qed.

Lemma cps_below_S i :
  cps_below (S i) =
    (if ((0 <? Z.of_nat i) && (Z.of_nat i mod CHECKPOINT_EVERY =? 0))%Z
     then S (cps_below i) else cps_below i) ∧
  (((0 <? Z.of_nat i) && (Z.of_nat i mod CHECKPOINT_EVERY =? 0))%Z = true →
     (8 * S (cps_below i) = i)%nat).
Proof.
  unfold cps_below, CHECKPOINT_EVERY. replace (S i - 1)%nat with i by lia.
  pose proof (Nat.div_mod_eq i 8). pose proof (Nat.mod_upper_bound i 8 ltac:(lia)).
  pose proof (Nat.div_mod_eq (i - 1) 8). pose proof (Nat.mod_upper_bound (i - 1) 8 ltac:(lia)).
  change 8 with (Z.of_nat 8). rewrite <- Nat2Z.inj_mod.
  destruct (0 <? Z.of_nat i) eqn:E0; rewrite ?andb_true_l, ?andb_false_l.
  - destruct (Z.of_nat (i mod 8) =? 0) eqn:E1; split; try done; intros; lia.
  - replace i with 0%nat by lia. done.
Qed.

Lemma imap_take_S {A B} (f : nat → A → B) l i a :
  l !! i = Some a → take (S i) (imap f l) = take i (imap f l) ++ [f i a].
Proof. intros Hi. apply take_S_r. by rewrite list_lookup_imap, Hi. Qed.

Lemma headers_loop_spec spans gs (suf : list (Z * list entry)) i :
  drop i gs = suf → (i ≤ length gs)%nat →
  #(concat (payloads spans gs)) < 2 ^ 32 → #(concat (header_list spans gs)) < 2 ^ 32 →
  headers_loop (Z.of_nat i) (payload_pos spans gs i) (doc_before gs i) (payload_pos spans gs i)
    (run_ends spans (payload_pos spans gs i) suf)
    (concat (take i (header_list spans gs))) (cp_list spans gs i) =
  (concat (header_list spans gs), cp_list spans gs (length gs)).
Proof.
  intros Hsuf Hi Hpl Hhl. revert i Hsuf Hi. induction suf as [|g suf IH]; intros i Hsuf Hi.
  - assert (length gs ≤ i)%nat.
    { apply (f_equal length) in Hsuf. rewrite length_drop in Hsuf. simpl in Hsuf. lia. }
    replace i with (length gs) by lia. simpl. f_equal. f_equal. apply take_ge.
    unfold header_list. by rewrite length_imap.
  - assert (gs !! i = Some g) as Hg.
    { rewrite <- (Nat.add_0_r i), <- lookup_drop, Hsuf. done. }
    apply lookup_lt_Some in Hg as Hlt. cbn [run_ends headers_loop].
    assert (payloads spans gs !! i = Some (run_payload spans g)) as Hp by (by apply lookup_map).
    assert (payload_pos spans gs (S i) = payload_pos spans gs i + #(run_payload spans g)) as HpS.
    { unfold payload_pos. by rewrite (concat_take_S _ _ _ Hp), len_app. }
    assert (payload_pos spans gs (S i) < 2 ^ 32) as Hb.
    { pose proof (len_concat_take_le (payloads spans gs) (S i)). unfold payload_pos. lia. }
    assert (header_pos spans gs i < 2 ^ 32) as Hbh.
    { pose proof (len_concat_take_le (header_list spans gs) i). unfold header_pos. lia. }
    assert (0 ≤ payload_pos spans gs i) as H0 by apply len_nonneg.
    assert (0 ≤ header_pos spans gs i) as H0h by apply len_nonneg.
    pose proof (len_nonneg (run_payload spans g)).
    replace (payload_pos spans gs i + #(run_payload spans g) - payload_pos spans gs i)
      with #(run_payload spans g) by lia.
    rewrite <- HpS. replace (Z.of_nat i + 1) with (Z.of_nat (S i)) by lia.
    assert (add32 (payload_pos spans gs i) (as_u32 #(run_payload spans g)) = payload_pos spans gs (S i)) as ->.
    { unfold add32, as_u32. rewrite Zplus_mod_idemp_r, <- HpS. apply Z.mod_small. lia. }
    assert (doc_before gs (S i) = g.1) as Hd by (simpl; by rewrite Hg).
    rewrite <- Hd. rewrite !write_varint_app, <- !app_assoc.
    rewrite <- (IH (S i)); [|by rewrite <- Nat.add_1_r, <- drop_drop, Hsuf|lia]. f_equal.
    + unfold header_list at 2. rewrite (imap_take_S _ _ _ _ Hg), concat_app. simpl concat.
      rewrite app_nil_r. unfold header_bytes. by rewrite Hd.
    + unfold cp_list. destruct (cps_below_S i) as [-> H8].
      destruct (_ && _) eqn:E; [|done]. specialize (H8 eq_refl).
      rewrite seq_S, flat_map_app. cbn [flat_map]. rewrite app_nil_r. f_equal.
      unfold cp_bytes. replace (1 + cps_below i)%nat with (S (cps_below i)) by lia. rewrite H8.
      change #(concat (take i (header_list spans gs))) with (header_pos spans gs i).
      unfold as_u32. by rewrite Z.mod_small by lia.
Qed.

(** ** Reading the headers *)

(** What a block needs: runs of [u32] fields, regions that a [u32] addresses,
    and no span where the file stores none. *)
Record block_ok (spans : bool) (gs : list (Z * list entry)) : Prop := {
  bk_runs : runs_ok entry_doc gs;
  bk_fits : Forall (λ g, Forall entry_fits g.2) gs;
  bk_total : total gs < 2 ^ 32;
  bk_payload : #(concat (payloads spans gs)) < 2 ^ 32;
  bk_headers : #(concat (header_list spans gs)) < 2 ^ 32;
  bk_spans : spans = false →
    Forall (λ g, Forall (λ e : entry, let '(_, _, bf, bt) := e in bf = 0 ∧ bt = 0) g.2) gs;
}.

(** The header a reader of the block works on. *)
Definition block_view (spans : bool) (gs : list (Z * list entry)) : OrdinalHeader :=
  {| oh_num_docs := #gs;
     oh_layout := V3 (cp_list spans gs (length gs)) (concat (header_list spans gs));
     oh_payload_data := concat (payloads spans gs);
     oh_spans := spans |}.

Section Headers.
Context (spans : bool) (gs : list (Z * list entry)).
Hypothesis ok : block_ok spans gs.
Let cps := cp_list spans gs (length gs).
Let hdrs := concat (header_list spans gs).

Lemma total_run i g : gs !! i = Some g → #g.2 ≤ total gs.
Proof using.
  clear. intros Hg. unfold total. revert i Hg.
  induction gs as [|g' l IH]; intros [|i] Hg; simplify_eq/=; rewrite len_app.
  - pose proof (len_nonneg (flat_map snd l)). lia.
  - apply IH in Hg. pose proof (len_nonneg g'.2). lia.
Qed.

Lemma run_doc_fits i g : gs !! i = Some g → fits 32 g.1.
Proof using ok.
  intros Hg. pose proof (bk_fits _ _ ok) as Hf. destruct (bk_runs _ _ ok) as [Hne Hd _].
  rewrite Forall_lookup in Hf, Hne, Hd. specialize (Hf _ _ Hg). specialize (Hne _ _ Hg).
  specialize (Hd _ _ Hg). destruct g as [d [|e es]]; [done|]. simpl in *.
  apply Forall_cons in Hf as [Hf _]. apply Forall_cons in Hd as [<- _].
  destruct e as [[[d' ti] bf] bt]. by destruct Hf.
Qed.

Lemma payload_pos_S i g :
  gs !! i = Some g → payload_pos spans gs (S i) = payload_pos spans gs i + #(run_payload spans g).
Proof using.
  intros Hg. unfold payload_pos. rewrite (concat_take_S _ _ (run_payload spans g)), len_app; [done|].
  by apply lookup_map.
Qed.

Lemma payload_pos_fits i : fits 32 (payload_pos spans gs i).
Proof using ok.
  pose proof (bk_payload _ _ ok). pose proof (len_concat_take_le (payloads spans gs) i).
  unfold fits, payload_pos. split; [apply len_nonneg|lia].
Qed.

Lemma header_pos_fits i : fits 32 (header_pos spans gs i).
Proof using ok.
  pose proof (bk_headers _ _ ok). pose proof (len_concat_take_le (header_list spans gs) i).
  unfold fits, header_pos. split; [apply len_nonneg|lia].
Qed.

Lemma run_payload_fits i g : gs !! i = Some g → fits 32 #(run_payload spans g).
Proof using ok.
  intros Hg. pose proof (payload_pos_S i g Hg). pose proof (payload_pos_fits (S i)).
  pose proof (payload_pos_fits i). unfold fits in *. split; [apply len_nonneg|lia].
Qed.

Lemma run_count_fits i g : gs !! i = Some g → fits 32 #g.2.
Proof using ok.
  intros Hg. pose proof (total_run i g Hg). pose proof (bk_total _ _ ok).
  unfold fits. split; [apply len_nonneg|lia].
Qed.

Lemma doc_before_fits i : fits 32 (doc_before gs i).
Proof using ok.
  destruct i as [|i]; [done|]. simpl. destruct (gs !! i) as [g|] eqn:E; [|done].
  by apply (run_doc_fits i).
Qed.

Lemma next_header_at i g :
  gs !! i = Some g →
  next_header hdrs (header_pos spans gs i) =
    Ret (sub32 g.1 (doc_before gs i), #(run_payload spans g), #g.2, header_pos spans gs (S i)).
Proof using ok.
  intros Hg. set (hl := header_list spans gs).
  assert (hl !! i = Some (header_bytes spans (doc_before gs i) g)) as Hh.
  { unfold hl, header_list. by rewrite list_lookup_imap, Hg. }
  assert (At hdrs (header_pos spans gs i)
    (header_bytes spans (doc_before gs i) g ++ concat (drop (S i) hl))) as Hat.
  { unfold hdrs. fold hl. rewrite (concat_split hl i _ Hh). by apply At_mid. }
  unfold header_pos at 2. fold hl. rewrite (concat_take_S hl i _ Hh).
  unfold header_bytes in *. rewrite <- !app_assoc in Hat.
  pose proof (sub32_fits g.1 (doc_before gs i)) as F1.
  pose proof (run_payload_fits i g Hg) as F2. pose proof (run_count_fits i g Hg) as F3.
  unfold next_header.
  next_varint F1 Hat.
  next_varint F2 Hat.
  rewrite (read_varint_u32_at _ _ _ _ F3 Hat), bind_ret.
  rewrite !len_app. do 2 f_equal. unfold header_pos. fold hl. lia.
Qed.

Lemma next_doc_step i g :
  gs !! i = Some g → add32 (doc_before gs i) (sub32 g.1 (doc_before gs i)) = g.1.
Proof using ok. intros Hg. apply add_sub32. by apply (run_doc_fits i). Qed.

Lemma next_offset_step i g :
  gs !! i = Some g →
  add32 (payload_pos spans gs i) #(run_payload spans g) = payload_pos spans gs (S i).
Proof using ok.
  intros Hg. unfold add32, as_u32. rewrite <- (payload_pos_S i g Hg).
  apply Z.mod_small, payload_pos_fits.
Qed.

Lemma len_cp_bytes k : #(cp_bytes spans gs k) = 12.
Proof using. unfold cp_bytes. by lens. Qed.

Lemma len_cps : #cps = checkpoints_for #gs * CHECKPOINT_SIZE.
Proof using.
  unfold cps, cp_list. rewrite (len_records _ 12) by apply len_cp_bytes.
  unfold len at 1 2. rewrite length_seq, cps_below_spec. unfold CHECKPOINT_SIZE. lia.
Qed.

Lemma checkpoint_fields k :
  (1 ≤ k ≤ cps_below (length gs))%nat →
  let c := (Z.of_nat k - 1) * CHECKPOINT_SIZE in
  u32_at cps c = Ret (doc_before gs (8 * k)) ∧
  u32_at cps (c + 4) = Ret (payload_pos spans gs (8 * k)) ∧
  u32_at cps (c + 8) = Ret (header_pos spans gs (8 * k)).
Proof using ok.
  intros Hk c.
  destruct (At_record (cp_bytes spans gs) 12 len_cp_bytes (seq 1 (cps_below (length gs))) (k - 1) k [])
    as [rest Hat].
  { apply lookup_seq. lia. }
  rewrite app_nil_r in Hat. replace (12 * Z.of_nat (k - 1)) with c in Hat
    by (unfold c, CHECKPOINT_SIZE; lia).
  unfold cp_bytes in Hat. rewrite <- !app_assoc in Hat.
  apply At_u32 in Hat as [H1 Hat]; [|apply doc_before_fits].
  apply At_u32 in Hat as [H2 Hat]; [|apply payload_pos_fits].
  apply At_u32 in Hat as [H3 _]; [|apply header_pos_fits].
  replace (c + 4 + 4) with (c + 8) in H3 by lia. done.
Qed.

Lemma checkpoint_at_spec k :
  (k ≤ cps_below (length gs))%nat →
  checkpoint_at cps (Z.of_nat k) =
    Ret (doc_before gs (8 * k), payload_pos spans gs (8 * k), header_pos spans gs (8 * k)).
Proof using ok.
  intros Hk. unfold checkpoint_at. destruct (Z.of_nat k =? 0) eqn:E.
  - replace k with 0%nat by lia. done.
  - destruct (checkpoint_fields k) as (-> & H2 & H3); [lia|]. rewrite bind_ret, H2, bind_ret.
    by rewrite H3, bind_ret.
Qed.

(** The documents as [for_each_doc] visits them. *)
Definition visit (i : nat) (g : Z * list entry) : Z * Z * Z * Z :=
  (Z.of_nat i, g.1, payload_pos spans gs i, #g.2).
Definition visits : list (Z * Z * Z * Z) := imap visit gs.

Lemma for_each_header_spec m i :
  (m = length gs - i)%nat → (i ≤ length gs)%nat →
  for_each_header (range (Z.of_nat i) #gs) hdrs (doc_before gs i) (payload_pos spans gs i)
    (header_pos spans gs i) = Ret (drop i visits).
Proof using ok.
  revert i. induction m as [|m IH]; intros i Hm Hi.
  - rewrite range_nil by (unfold len; lia). rewrite drop_ge; [done|].
    unfold visits. rewrite length_imap. lia.
  - destruct (lookup_lt_is_Some_2 gs i) as [g Hg]; [lia|].
    rewrite range_cons by (unfold len; lia). cbn [for_each_header].
    rewrite (next_header_at i g Hg). cbn [catch]. rewrite bind_ret.
    rewrite (next_doc_step i g Hg), (next_offset_step i g Hg).
    replace (Z.of_nat i + 1) with (Z.of_nat (S i)) by lia.
    assert (doc_before gs (S i) = g.1) as <- by (simpl; by rewrite Hg).
    rewrite IH by lia. rewrite bind_ret. f_equal. symmetry.
    simpl doc_before. rewrite Hg.
    apply (drop_S _ (visit i g)). unfold visits. by rewrite list_lookup_imap, Hg.
Qed.

Lemma view_for_each_doc : header_for_each_doc (block_view spans gs) = Ret visits.
Proof using ok.
  unfold header_for_each_doc. cbn [block_view oh_layout oh_num_docs].
  apply (for_each_header_spec (length gs - 0) 0); lia.
Qed.

Lemma doc_at_loop_spec m j i g c :
  (m = i - j)%nat → (j ≤ i)%nat → gs !! i = Some g →
  doc_at_loop (range (Z.of_nat j) (Z.of_nat i + 1)) (Z.of_nat i) hdrs (doc_before gs j)
    (payload_pos spans gs j) (header_pos spans gs j) c = Ret (g.1, payload_pos spans gs i, #g.2).
Proof using ok.
  revert j c. induction m as [|m IH]; intros j c Hm Hj Hi.
  - replace j with i by lia. rewrite range_cons by lia. cbn [doc_at_loop].
    rewrite (next_header_at i g Hi). cbn [catch]. rewrite bind_ret, Z.eqb_refl.
    by rewrite (next_doc_step i g Hi).
  - apply lookup_lt_Some in Hi as Hlt.
    destruct (lookup_lt_is_Some_2 gs j) as [g' Hg]; [lia|].
    rewrite range_cons by lia. cbn [doc_at_loop].
    rewrite (next_header_at j g' Hg). cbn [catch]. rewrite bind_ret.
    replace (Z.of_nat j =? Z.of_nat i) with false by lia.
    rewrite (next_doc_step j g' Hg), (next_offset_step j g' Hg).
    replace (Z.of_nat j + 1) with (Z.of_nat (S j)) by lia.
    assert (doc_before gs (S j) = g'.1) as <- by (simpl; by rewrite Hg).
    apply IH; [lia..|done].
Qed.

Lemma view_doc_at i g :
  gs !! i = Some g →
  doc_at (block_view spans gs) (Z.of_nat i) = Ret (g.1, payload_pos spans gs i, #g.2).
Proof using ok.
  intros Hi. unfold doc_at. cbn [block_view oh_layout]. fold cps hdrs. unfold CHECKPOINT_EVERY.
  apply lookup_lt_Some in Hi as Hlt.
  pose proof (Nat.div_mod_eq i 8). pose proof (Nat.mod_upper_bound i 8 ltac:(lia)).
  change 8 with (Z.of_nat 8). rewrite <- Nat2Z.inj_div.
  rewrite checkpoint_at_spec, bind_ret.
  - rewrite <- Nat2Z.inj_mul, (Nat.mul_comm (i / 8) 8).
    apply (doc_at_loop_spec (i - 8 * (i / 8))); [lia..|done].
  - unfold cps_below. apply Nat.Div0.div_le_mono. lia.
Qed.

Lemma find_in_run_spec doc_id m j e :
  (m = e - j)%nat → (e ≤ length gs)%nat →
  (∀ i g, (j ≤ i < e)%nat → gs !! i = Some g → g.1 = doc_id →
     find_in_run (range (Z.of_nat j) (Z.of_nat e)) hdrs doc_id (doc_before gs j)
       (payload_pos spans gs j) (header_pos spans gs j) =
     Ret (Z.of_nat i, payload_pos spans gs i, #g.2)) ∧
  ((∀ i g, (j ≤ i < e)%nat → gs !! i = Some g → g.1 ≠ doc_id) →
     find_in_run (range (Z.of_nat j) (Z.of_nat e)) hdrs doc_id (doc_before gs j)
       (payload_pos spans gs j) (header_pos spans gs j) = Nothing).
Proof using ok.
  revert j. induction m as [|m IH]; intros j Hm He.
  - split; [intros; lia|]. intros _. by rewrite range_nil by lia.
  - destruct (lookup_lt_is_Some_2 gs j) as [g' Hg]; [lia|].
    destruct (IH (S j)) as [IH1 IH2]; [lia..|].
    rewrite range_cons by lia. cbn [find_in_run].
    rewrite (next_header_at j g' Hg), bind_ret.
    rewrite (next_doc_step j g' Hg), (next_offset_step j g' Hg).
    replace (Z.of_nat j + 1) with (Z.of_nat (S j)) by lia.
    assert (doc_before gs (S j) = g'.1) as <- by (simpl; by rewrite Hg).
    assert (doc_before gs (S j) = g'.1) as Hd by (simpl; by rewrite Hg).
    pose proof (ro_sorted _ _ (bk_runs _ _ ok)) as Hs. split.
    + intros i g Hi Hgi Hdoc. destruct (decide (i = j)) as [->|Hne].
      * simplify_eq. rewrite Hd, Z.ltb_irrefl, Z.eqb_refl. done.
      * pose proof (runs_lookup_lt gs j i g' g Hs Hg Hgi ltac:(lia)).
        replace (_ <? doc_id) with true by lia. apply IH1; [lia|done..].
    + intros Hno. assert (g'.1 ≠ doc_id) by (apply (Hno j); [lia|done]).
      destruct (doc_before gs (S j) <? doc_id) eqn:E.
      * apply IH2. intros i g Hi. apply Hno. lia.
      * by replace (_ =? _) with false by lia.
Qed.

(** The largest checkpoint below the target splits the runs. *)
Lemma bisect_checkpoints doc_id :
  ∃ lo : nat, bisect_last (λ mid,
      cp_doc ← u32_at cps ((mid - 1) * CHECKPOINT_SIZE); Ret (cp_doc <? doc_id))
      0 (checkpoints_for #gs) = Ret (Z.of_nat lo) ∧
    (lo ≤ cps_below (length gs))%nat ∧
    ((0 < lo)%nat → doc_before gs (8 * lo) < doc_id) ∧
    ((lo < cps_below (length gs))%nat → doc_id ≤ doc_before gs (8 * S lo)).
Proof using ok.
  destruct (bisect_last_spec (λ mid,
      cp_doc ← u32_at cps ((mid - 1) * CHECKPOINT_SIZE); Ret (cp_doc <? doc_id))
    (λ k, doc_before gs (8 * Z.to_nat k) <? doc_id) 0 (checkpoints_for #gs))
    as (r & Hr & Hb & Ht & Hf).
  - pose proof (cps_below_spec (length gs)) as Hc. fold #gs in Hc. split.
    + intros i Hi. destruct (checkpoint_fields (Z.to_nat i)) as [H1 _]; [unfold len in *; lia|].
      rewrite Z2Nat.id in H1 by lia. cbv zeta in H1. by rewrite H1, bind_ret.
    + intros i j Hi Hij Hj. destruct (decide (i = j)) as [->|Hne]; [done|].
      assert (8 * Z.to_nat j < length gs)%nat.
      { assert (Z.to_nat j ≤ cps_below (length gs))%nat as Hle by (unfold len in *; lia).
        revert Hle. unfold cps_below. pose proof (Nat.div_mod_eq (length gs - 1) 8). lia. }
      assert (doc_before gs (8 * Z.to_nat i) < doc_before gs (8 * Z.to_nat j)).
      { destruct (8 * Z.to_nat i)%nat as [|ni] eqn:Ei; [lia|].
        destruct (8 * Z.to_nat j)%nat as [|nj] eqn:Ej; [lia|]. simpl.
        destruct (lookup_lt_is_Some_2 gs ni) as [gi Hgi]; [lia|].
        destruct (lookup_lt_is_Some_2 gs nj) as [gj Hgj]; [lia|]. rewrite Hgi, Hgj.
        apply (runs_lookup_lt gs ni nj); [apply (bk_runs _ _ ok)|done..|lia]. }
      lia.
  - unfold len. rewrite <- cps_below_spec. lia.
  - pose proof (cps_below_spec (length gs)) as Hc. fold #gs in Hc.
    exists (Z.to_nat r). rewrite Z2Nat.id by lia. split; [done|]. split; [unfold len in *; lia|]. split.
    + intros Hr0. specialize (Ht r). lia.
    + intros Hlt. specialize (Hf (r + 1)). rewrite Z2Nat.inj_add in Hf by lia.
      change (Z.to_nat 1) with 1%nat in Hf. rewrite Nat.add_1_r in Hf. unfold len in *. lia.
Qed.

Lemma view_find_at lo doc_id :
  bisect_last (λ mid, cp_doc ← u32_at cps ((mid - 1) * CHECKPOINT_SIZE); Ret (cp_doc <? doc_id))
    0 (checkpoints_for #gs) = Ret (Z.of_nat lo) → (lo ≤ cps_below (length gs))%nat →
  find_doc_full (block_view spans gs) doc_id =
    find_in_run (range (Z.of_nat (8 * lo)) (Z.of_nat (Nat.min (8 * lo + 8) (length gs)))) hdrs doc_id
      (doc_before gs (8 * lo)) (payload_pos spans gs (8 * lo)) (header_pos spans gs (8 * lo)).
Proof using ok.
  intros Hlo Hle. unfold find_doc_full. cbn [block_view oh_layout oh_num_docs]. fold cps hdrs.
  rewrite Hlo, bind_ret, checkpoint_at_spec, bind_ret by done. unfold CHECKPOINT_EVERY, len.
  f_equal. f_equal; lia.
Qed.

Lemma view_find i g :
  gs !! i = Some g →
  find_doc_full (block_view spans gs) g.1 = Ret (Z.of_nat i, payload_pos spans gs i, #g.2).
Proof using ok.
  intros Hi. destruct (bisect_checkpoints g.1) as (lo & Hlo & Hle & Hlow & Hhigh).
  rewrite (view_find_at lo) by done. apply lookup_lt_Some in Hi as Hlt.
  pose proof (ro_sorted _ _ (bk_runs _ _ ok)) as Hs.
  eapply find_in_run_spec; [done|lia| |done..]. split.
  - destruct (decide (8 * lo ≤ i)%nat); [done|]. exfalso.
    destruct (8 * lo)%nat as [|p] eqn:Ep; [lia|]. specialize (Hlow ltac:(lia)). simpl in Hlow.
    assert (p < length gs)%nat.
    { revert Hle. unfold cps_below. pose proof (Nat.div_mod_eq (length gs - 1) 8). lia. }
    destruct (lookup_lt_is_Some_2 gs p) as [g' Hg']; [done|]. rewrite Hg' in Hlow.
    destruct (decide (i = p)) as [->|]; [simplify_eq; lia|].
    pose proof (runs_lookup_lt gs i p g g' Hs Hi Hg' ltac:(lia)). lia.
  - apply Nat.min_glb_lt; [|done]. destruct (decide (i < 8 * lo + 8)%nat); [done|]. exfalso.
    assert (lo < cps_below (length gs))%nat as Hlc.
    { unfold cps_below. apply Nat.div_le_lower_bound; lia. }
    specialize (Hhigh Hlc). replace (8 * S lo)%nat with (S (8 * lo + 7)) in Hhigh by lia.
    cbn [doc_before] in Hhigh.
    destruct (lookup_lt_is_Some_2 gs (8 * lo + 7)) as [g' Hg']; [lia|]. rewrite Hg' in Hhigh.
    pose proof (runs_lookup_lt gs _ i g' g Hs Hg' Hi ltac:(lia)). lia.
Qed.

Lemma view_find_none doc_id :
  (∀ g, g ∈ gs → g.1 ≠ doc_id) → find_doc_full (block_view spans gs) doc_id = Nothing.
Proof using ok.
  intros Hno. destruct (bisect_checkpoints doc_id) as (lo & Hlo & Hle & _ & _).
  rewrite (view_find_at lo) by done.
  eapply find_in_run_spec; [done|lia|].
  intros i g _ Hg. apply Hno. by eapply list_elem_of_lookup_2.
Qed.
End Headers.

(** ** Reading a payload *)

Lemma decode_vint_loop_spec (k : nat) v rest i acc :
  fits 64 v → (k < 5)%nat → fits (7 * Z.of_nat k) acc →
  acc + v * 2 ^ (7 * Z.of_nat k) < 2 ^ 32 →
  decode_vint_loop (5 - k) (varint_bytes v ++ rest) i (7 * Z.of_nat k) acc =
    (acc + v * 2 ^ (7 * Z.of_nat k), i + #(varint_bytes v)).
Proof.
  intros Hv. revert k i acc. pattern v. apply varint_ind; [| |done]; clear v Hv.
  - intros v Hv k i acc Hk Hacc Hb. rewrite varint_bytes_small by lia.
    replace (5 - k)%nat with (S (4 - k)) by lia. cbn [app decode_vint_loop].
    rewrite land_7f, land_80 by (widths; lia). replace (v <? 128) with true by lia.
    rewrite (Z.mod_small v 128) by lia. unfold as_u32. rewrite Z.shiftl_mul_pow2 by lia.
    assert (0 ≤ v * 2 ^ (7 * Z.of_nat k)) by (apply Z.mul_nonneg_nonneg; lia).
    rewrite (Z.mod_small (v * _)) by (unfold fits in *; lia).
    rewrite <- Z.shiftl_mul_pow2, lor_shiftl_add, Z.shiftl_mul_pow2 by (unfold fits in *; lia).
    done.
  - intros v Hv Hge IH k i acc Hk Hacc Hb. rewrite varint_bytes_cont by done.
    replace (5 - k)%nat with (S (4 - k)) by lia. cbn [app decode_vint_loop].
    pose proof (Z.mod_pos_bound v 128 ltac:(lia)) as Hm.
    rewrite land_7f, land_80 by (widths; lia). replace (_ <? 128) with false by lia.
    assert ((v mod 128 + 128) mod 128 = v mod 128) as ->.
    { rewrite <- (Z.mul_1_l 128) at 2. by rewrite Z.mod_add, Z.mod_mod by lia. }
    assert (0 < 2 ^ (7 * Z.of_nat k)) as Hp by lia.
    assert (2 ^ (7 * Z.of_nat (S k)) = 128 * 2 ^ (7 * Z.of_nat k)) as HS.
    { replace (7 * Z.of_nat (S k)) with (7 + 7 * Z.of_nat k) by lia. by rewrite Z.pow_add_r by lia. }
    assert (v = 128 * (v / 128) + v mod 128) as Hdm by (apply Z.div_mod; lia).
    unfold as_u32. rewrite Z.shiftl_mul_pow2 by lia.
    rewrite (Z.mod_small (_ * _)) by (unfold fits in *; nia).
    rewrite <- Z.shiftl_mul_pow2, lor_shiftl_add by (unfold fits in *; lia).
    assert (k < 4)%nat as Hk4.
    { destruct (decide (k = 4%nat)) as [->|]; [|lia]. unfold fits in *.
      change (2 ^ (7 * Z.of_nat 4)) with (2 ^ 28) in *.
      change (2 ^ 32) with (16 * 2 ^ 28) in *. lia. }
    replace (4 - k)%nat with (5 - S k)%nat by lia.
    replace (7 * Z.of_nat k + 7) with (7 * Z.of_nat (S k)) by lia.
    rewrite IH; [|lia| |].
    + f_equal; [rewrite HS; nia|]. lens. lia.
    + unfold fits in *. rewrite HS. nia.
    + rewrite HS. nia.
Qed.

Lemma decode_vint_spec v rest :
  fits 32 v → decode_vint (varint_bytes v ++ rest) = (v, #(varint_bytes v)).
Proof.
  intros Hv. unfold decode_vint. pose proof (decode_vint_loop_spec 0 v rest 0 0) as H.
  change (2 ^ (7 * Z.of_nat 0)) with 1 in H. rewrite Z.mul_1_r, !Z.add_0_l in H.
  apply H; [by apply fits_32_64|lia|done|by destruct Hv].
Qed.

(** The entries handed to the closure, up to where it stops. *)
Fixpoint walk_entries {S : Type} (f : S → Z → Z → Z → S * bool) (es : list entry) (s : S) : S :=
  match es with
  | [] => s
  | (_, ti, bf, bt) :: es =>
      let '(s, go_on) := f s ti bf bt in
      if (go_on : bool) then walk_entries f es s else s
  end.

(** One field of an entry, at the cursor of the walk. *)
Lemma At_decode data pos v rest :
  fits 32 v → At data pos (varint_bytes v ++ rest) →
  (#data <=? pos) = false ∧ slice_from data pos = Ret (varint_bytes v ++ rest) ∧
  At data (pos + #(varint_bytes v)) rest.
Proof.
  intros Hv Hat. pose proof (At_len _ _ _ Hat) as Hl. rewrite len_app in Hl.
  pose proof (len_varint_pos v (fits_32_64 _ Hv)). pose proof (len_nonneg rest).
  split; [lia|]. split; [by apply At_slice_from|]. by apply At_skip.
Qed.

Lemma walk_positions_spec {S} (f : S → Z → Z → Z → S * bool) es data pos pt pb rest s :
  Forall entry_fits es →
  Forall (λ e : entry, let '(_, _, bf, bt) := e in bf = 0 ∧ bt = 0) es →
  At data pos (payload_of false pt pb es ++ rest) →
  walk_positions (length es) data pos pt f s = Ret (walk_entries f es s).
Proof.
  intros Hf Hz. revert pos pt pb s.
  induction es as [|[[[d ti] bf] bt] es IH]; intros pos pt pb s Hat; [done|].
  apply Forall_cons in Hf as [(_ & Hti & _ & _) Hf]. apply Forall_cons in Hz as [[-> ->] Hz].
  cbn [payload_of] in Hat. rewrite app_nil_l, <- app_assoc in Hat.
  cbn [length walk_positions walk_entries].
  destruct (At_decode _ _ _ _ (sub32_fits ti pt) Hat) as (-> & -> & Hat').
  rewrite bind_ret, decode_vint_spec, add_sub32 by eauto with bytes.
  destruct (f s ti 0 0) as [s' [|]]; [|done]. by eapply IH.
Qed.

Lemma walk_spans_spec {S} (f : S → Z → Z → Z → S * bool) es data pos pt pb rest s :
  Forall entry_fits es →
  At data pos (payload_of true pt pb es ++ rest) →
  walk_spans true (length es) data pos pt pb f s = Ret (walk_entries f es s).
Proof.
  intros Hf. revert pos pt pb s.
  induction es as [|[[[d ti] bf] bt] es IH]; intros pos pt pb s Hat; [done|].
  apply Forall_cons in Hf as [(_ & Hti & Hbf & Hbt) Hf].
  cbn [payload_of] in Hat. rewrite <- !app_assoc in Hat.
  cbn [length walk_spans walk_entries].
  destruct (At_decode _ _ _ _ (sub32_fits ti pt) Hat) as (-> & -> & Hat1). clear Hat.
  rewrite bind_ret, decode_vint_spec by apply sub32_fits.
  destruct (At_decode _ _ _ _ (sub32_fits bf pb) Hat1) as (-> & -> & Hat2). clear Hat1.
  rewrite bind_ret, decode_vint_spec by apply sub32_fits.
  destruct (At_decode _ _ _ _ (sub32_fits bt bf) Hat2) as (Hg & -> & Hat3). clear Hat2.
  replace (_ <? _) with false by lia.
  rewrite bind_ret, decode_vint_spec by apply sub32_fits. cbv iota.
  rewrite !add_sub32 by done.
  destruct (f s ti bf bt) as [s' [|]]; [|done]. by eapply IH.
Qed.

Lemma view_walk {S} spans gs (f : S → Z → Z → Z → S * bool) i g s :
  block_ok spans gs → gs !! i = Some g →
  walk_payload (block_view spans gs) (payload_pos spans gs i) #g.2 f s = Ret (walk_entries f g.2 s).
Proof.
  intros Hok Hg. unfold walk_payload. cbn [block_view oh_payload_data oh_layout oh_spans].
  set (ps := payloads spans gs).
  assert (ps !! i = Some (run_payload spans g)) as Hp by (by apply lookup_map).
  pose proof (len_concat_take_le ps i) as Hle.
  change (payload_pos spans gs i) with #(concat (take i ps)). rewrite Z.min_l by done.
  rewrite (concat_split ps i _ Hp), slice_from_app by done. rewrite bind_ret, len_to_nat.
  pose proof (bk_fits _ _ Hok) as Hf. rewrite Forall_lookup in Hf. specialize (Hf _ _ Hg).
  pose proof (bk_spans _ _ Hok) as Hz. unfold run_payload. destruct spans; simpl negb; cbv iota.
  - eapply walk_spans_spec; [done|]. apply At_start.
  - specialize (Hz eq_refl). rewrite Forall_lookup in Hz. specialize (Hz _ _ Hg).
    eapply walk_positions_spec; [done..|]. apply At_start.
Qed.
