(* ===== verification/SfxPostRead.v ===== *)
(** * The accessors of a posting reader

    What each query of [SfxPostReaderV2] hands back ([sfxpost_v2.rs]), once
    the header of the ordinal is the view of its block: first the layouts with
    positions, then the documents and frequencies of [SFP6]. *)
From S2P Require Import Prelude Varint OffsetTables Gmap Ordering Runs DocFilter SfxPost SfxPostBlock.
Import varint block_offsets sfxpost.

(** ** Counts and capacities *)

Lemma with_capacity_ok {A} size c : 0 ≤ size ≤ 12 → c ≤ u32_max → with_capacity (A := A) size c = Ret [].
Proof. intros Hs Hc. unfold with_capacity, u32_max in *. replace (size * c <=? 2 ^ 63 - 1) with true by nia. done. Qed.

Lemma next_header_count hdrs pos d l n p : next_header hdrs pos = Ret (d, l, n, p) → n ≤ u32_max.
Proof.
  unfold next_header. destruct (read_varint_u32_step hdrs pos) as [->|(a & p1 & -> & _)]; [done|]. rewrite bind_ret.
  destruct (read_varint_u32_step hdrs p1) as [->|(b & p2 & -> & _)]; [done|]. rewrite bind_ret.
  destruct (read_varint_u32_step hdrs p2) as [->|(c & p3 & -> & _ & Hc)]; [done|]. rewrite bind_ret. by intros [= <- <- <- <-].
Qed.

Lemma next_doc_pair_count pairs pos d n p : next_doc_pair pairs pos = Ret (d, n, p) → n ≤ u32_max.
Proof.
  unfold next_doc_pair. destruct (read_varint_u32_step pairs pos) as [->|(a & p1 & -> & _)]; [done|]. rewrite bind_ret.
  destruct (read_varint_u32_step pairs p1) as [->|(c & p3 & -> & _ & Hc)]; [done|]. rewrite bind_ret. by intros [= <- <- <-].
Qed.

Lemma find_in_run_count hdrs doc_id is_ : ∀ doc off pos t, find_in_run is_ hdrs doc_id doc off pos = Ret t → t.2 ≤ u32_max.
Proof.
  induction is_ as [|i is_ IH]; intros doc off pos t; cbn [find_in_run]; [done|]. destruct (next_header hdrs pos) as [[[[d l] n] p]| | |] eqn:E; try done. rewrite bind_ret.
  destruct (_ <? _); [apply IH|]. destruct (_ =? _); [|done]. intros [= <-]. cbn. by eapply next_header_count.
Qed.

Lemma find_in_pairs_count pairs doc_id is_ : ∀ doc pos t, find_in_pairs is_ pairs doc_id doc pos = Ret t → t.2 ≤ u32_max.
Proof.
  induction is_ as [|i is_ IH]; intros doc pos t; cbn [find_in_pairs]; [done|]. destruct (next_doc_pair pairs pos) as [[[d n] p]| | |] eqn:E; try done. rewrite bind_ret.
  destruct (_ <? _); [apply IH|]. destruct (_ =? _); [|done]. intros [= <-]. cbn. by eapply next_doc_pair_count.
Qed.

(** Where the counts are varints. *)
Lemma find_counts h d i off c : match oh_layout h with V2 _ _ _ => False | _ => True end → find_doc_full h d = Ret (i, off, c) → c ≤ u32_max.
Proof.
  unfold find_doc_full. destruct (oh_layout h) as [ds ps cs|cps hdrs|pairs]; [done| |].
  - intros _ H. apply bind_ret_inv in H as (lo & _ & H). apply bind_ret_inv in H as ([[a b] p] & _ & H). by apply find_in_run_count in H.
  - intros _ H. by apply find_in_pairs_count in H.
Qed.

(** ** Walks that collect *)

Definition apply_entry {B} (h : Z → Z → Z → Z → B) (e : entry) : B :=
  let '(d, ti, bf, bt) := e in h d ti bf bt.

Lemma walk_collect {B} (h : Z → Z → Z → Z → B) d es acc :
  Forall (λ e, entry_doc e = d) es →
  walk_entries (λ acc ti bf bt, (acc ++ [h d ti bf bt], true)) es acc = acc ++ map (apply_entry h) es.
Proof.
  intros Hd. revert acc. induction Hd as [|[[[d' ti] bf] bt] es Hd _ IH]; intros acc; simpl.
  - by rewrite app_nil_r.
  - simpl in Hd. subst d'. by rewrite IH, <- app_assoc.
Qed.

(** The runs with their indices. *)
Definition indexed {A} (l : list A) : list (nat * A) := imap pair l.

Lemma indexed_snd {A} (l : list A) : map snd (indexed l) = l.
Proof.
  unfold indexed. apply list_eq. intros i. rewrite list_lookup_fmap, list_lookup_imap.
  by destruct (l !! i).
Qed.

Lemma indexed_spec {A} (l : list A) i a : (i, a) ∈ indexed l ↔ l !! i = Some a.
Proof.
  unfold indexed. rewrite list_elem_of_lookup. setoid_rewrite list_lookup_imap. split.
  - intros (j & Hj). destruct (l !! j) eqn:E; simplify_eq/=. done.
  - intros H. exists i. by rewrite H.
Qed.

Lemma indexed_sorted {A} (l : list A) :
  StronglySorted (λ p q, (p.1 < q.1)%nat) (indexed l).
Proof.
  unfold indexed. assert (∀ (c : nat), StronglySorted (λ p q : nat * A, (p.1 < q.1)%nat)
    (imap (λ i a, (c + i, a)%nat) l)) as H; [|apply (H 0%nat)].
  induction l as [|a l IH]; intros c; [constructor|]. rewrite imap_cons.
  assert (imap ((λ i a, ((c + i)%nat, a)) ∘ S) l = imap (λ i a, ((S c + i)%nat, a)) l) as ->.
  { apply imap_ext. intros i x _. simpl. f_equal. lia. }
  constructor; [apply IH|]. apply Forall_lookup. intros i [j x].
  rewrite list_lookup_imap. intros H. destruct (l !! i); simplify_eq/=. lia.
Qed.

Section View.
Context (spans : bool) (gs : list (Z * list entry)).
Hypothesis ok : block_ok spans gs.

Lemma visits_indexed : visits spans gs = map (λ p, visit spans gs p.1 p.2) (indexed gs).
Proof using.
  unfold visits, indexed. apply list_eq. intros i.
  rewrite list_lookup_fmap, !list_lookup_imap. by destruct (gs !! i).
Qed.

(** A collecting walk over some of the documents, in the order given. *)
Lemma fold_visits {B} (h : Z → Z → Z → Z → B) ps acc :
  Forall (λ p, gs !! p.1 = Some p.2) ps →
  foldM (λ result v, let '(_, doc_id, offset, count) := (v : Z * Z * Z * Z) in
      walk_payload (block_view spans gs) offset count
        (λ acc ti bf bt, (acc ++ [h doc_id ti bf bt], true)) result) acc
    (map (λ p, visit spans gs p.1 p.2) ps) =
  Ret (acc ++ map (apply_entry h) (flat_map (λ p, p.2.2) ps)).
Proof using ok.
  intros Hps. revert acc. induction Hps as [|[i g] ps Hg _ IH]; intros acc.
  - simpl. by rewrite app_nil_r.
  - simpl in Hg. cbn [map foldM visit fst snd flat_map].
    rewrite (view_walk spans gs _ i g _ ok Hg), bind_ret.
    pose proof (ro_docs _ _ (bk_runs _ _ ok)) as Hd. rewrite Forall_lookup in Hd.
    rewrite walk_collect by (by apply (Hd i)).
    rewrite IH, map_app. by rewrite <- app_assoc.
Qed.

(** The same, with each document found again by its index. *)
Lemma fold_doc_at {B} (h : Z → Z → Z → Z → B) ps acc :
  Forall (λ p, gs !! p.1 = Some p.2) ps →
  foldM (λ result i, '(doc_id, offset, count) ← doc_at (block_view spans gs) i;
      walk_payload (block_view spans gs) offset count
        (λ acc ti bf bt, (acc ++ [h doc_id ti bf bt], true)) result) acc
    (map (λ p, Z.of_nat p.1) ps) =
  Ret (acc ++ map (apply_entry h) (flat_map (λ p, p.2.2) ps)).
Proof using ok.
  intros Hps. revert acc. induction Hps as [|[i g] ps Hg _ IH]; intros acc.
  - simpl. by rewrite app_nil_r.
  - simpl in Hg. cbn [map foldM fst snd flat_map].
    rewrite (view_doc_at spans gs ok i g Hg), bind_ret.
    rewrite (view_walk spans gs _ i g _ ok Hg), bind_ret.
    pose proof (ro_docs _ _ (bk_runs _ _ ok)) as Hd. rewrite Forall_lookup in Hd.
    rewrite walk_collect by (by apply (Hd i)).
    rewrite IH, map_app. by rewrite <- app_assoc.
Qed.

Lemma indexed_ok : Forall (λ p, gs !! p.1 = Some p.2) (indexed gs).
Proof using. apply Forall_forall. intros [i g] H. by apply indexed_spec. Qed.

(** The runs whose document passes the filter. *)
Definition selected {F} `{DocFilter F} (f : F) : list (nat * (Z * list entry)) :=
  List.filter (λ p, contains f p.2.1) (indexed gs).

Lemma selected_ok {F} `{DocFilter F} (f : F) : Forall (λ p, gs !! p.1 = Some p.2) (selected f).
Proof using.
  apply Forall_forall. intros p Hp. apply list_elem_of_In, filter_In in Hp as [Hp _].
  apply list_elem_of_In in Hp. pose proof indexed_ok as H'. rewrite Forall_forall in H'. by apply H'.
Qed.

Lemma selected_flat {F} `{DocFilter F} (f : F) :
  flat_map (λ p, p.2.2) (selected f) =
    List.filter (λ e, contains f (entry_doc e)) (flat_map snd gs).
Proof using ok.
  rewrite (filter_runs entry_doc) by apply (bk_runs _ _ ok).
  unfold selected. rewrite <- (indexed_snd gs) at 2.
  generalize (indexed gs) as l. induction l as [|[i g] l IH]; [done|]. simpl.
  destruct (contains f g.1); simpl; by rewrite IH.
Qed.

Lemma find_doc_catch d :
  ∃ o, catch (find_doc (block_view spans gs) d) = Ret o ∧
    match o with
    | Some z => ∃ i g, z = Z.of_nat i ∧ gs !! i = Some g ∧ g.1 = d
    | None => ∀ g, g ∈ gs → g.1 ≠ d
    end.
Proof using ok.
  unfold find_doc. destruct (decide (Exists (λ g, g.1 = d) gs)) as [He|Hn].
  - apply Exists_exists in He as (g & Hg & Hd).
    apply list_elem_of_lookup in Hg as [i Hi]. subst d.
    rewrite (view_find spans gs ok i g Hi). simpl. eexists. split; [done|]. simpl. eauto.
  - rewrite (view_find_none spans gs ok); [simpl|].
    + exists None. split; [done|]. intros g Hg Hd. apply Hn, Exists_exists. eauto.
    + intros g Hg Hd. apply Hn, Exists_exists. eauto.
Qed.

(** The probes of a filter's documents, one by one. *)
Lemma probe_docs ds :
  NoDup ds →
  ∃ os, mapM_out (λ d, catch (find_doc (block_view spans gs) d)) ds = Ret os ∧
    NoDup (omap id os) ∧
    ∀ z, z ∈ omap id os ↔ ∃ i g, z = Z.of_nat i ∧ gs !! i = Some g ∧ g.1 ∈ ds.
Proof using ok.
  induction ds as [|d ds IH]; intros Hnd.
  - exists []. split; [done|]. split; [constructor|]. set_solver.
  - apply NoDup_cons in Hnd as [Hd Hnd]. destruct (IH Hnd) as (os & Hos & Hn & Hin).
    destruct (find_doc_catch d) as (o & Ho & Hspec). cbn [mapM_out].
    rewrite Ho, bind_ret, Hos, bind_ret. exists (o :: os). split; [done|].
    destruct o as [z|]; simpl.
    + destruct Hspec as (i & g & -> & Hi & <-). split.
      * apply NoDup_cons. split; [|done]. rewrite Hin. intros (j & g' & Hj & Hg' & Hin').
        assert (i = j) as <- by lia. simplify_eq. by apply Hd.
      * intros z. rewrite elem_of_cons, Hin. split.
        -- intros [->|(j & g' & ? & ? & ?)]; [exists i, g; set_solver|exists j, g'; set_solver].
        -- intros (j & g' & -> & Hj & Hin'). apply elem_of_cons in Hin' as [Heq|Hin'].
           ++ left. f_equal.
              apply (runs_lookup_inj gs j i g' g); [apply (bk_runs _ _ ok)|done..].
           ++ right. eauto.
    + split; [done|]. intros z. rewrite Hin. split.
      * intros (j & g' & ? & ? & ?). exists j, g'. set_solver.
      * intros (j & g' & -> & Hj & Hin'). apply elem_of_cons in Hin' as [Heq|Hin'].
        -- exfalso. apply (Hspec g'); [by eapply list_elem_of_lookup_2|done].
        -- eauto.
Qed.

Lemma selected_sorted {F} `{DocFilter F} (f : F) :
  StronglySorted (λ p q, (p.1 < q.1)%nat) (selected f).
Proof using. apply StronglySorted_filter, indexed_sorted. Qed.

(** Both strategies of [filtered_indices] give the same indices. *)
Lemma view_filtered_indices {F} `{DocFilterLaws F} (f : F) :
  filtered_indices (block_view spans gs) f = Ret (map (λ p, Z.of_nat p.1) (selected f)).
Proof using ok.
  unfold filtered_indices. cbn [block_view oh_layout oh_num_docs]. rewrite andb_true_l.
  destruct (_ <? _).
  - change {| oh_num_docs := _ |} with (block_view spans gs).
    destruct (probe_docs (for_each f) (for_each_nodup f)) as (os & -> & Hnd & Hin).
    rewrite bind_ret. f_equal.
    assert (StronglySorted Z.lt (map (λ p, Z.of_nat p.1) (selected f))) as Hs.
    { eapply StronglySorted_fmap; [|apply selected_sorted]. simpl. lia. }
    assert (∀ l, StronglySorted Z.lt l → NoDup l ∧ StronglySorted (key_le (λ i : Z, [i])) l) as Hz.
    { induction 1 as [|x l _ [IH1 IH2] Hx]; [by repeat constructor|].
      rewrite Forall_forall in Hx. split.
      - constructor; [|done]. intros Hx'. apply Hx in Hx'. lia.
      - constructor; [done|]. apply Forall_forall. intros y Hy. apply Hx in Hy.
        unfold key_le. simpl. lia. }
    apply Hz in Hs as [Hnd' Hs]. apply sort_by_perm; [by intros ?? [=]| |done].
    apply NoDup_Permutation; [done..|]. intros z. rewrite Hin. split.
    + intros (i & g & -> & Hi & Hg). apply list_elem_of_fmap. exists (i, g). split; [done|].
      apply list_elem_of_In, filter_In. split; [by apply list_elem_of_In, indexed_spec|].
      by apply for_each_contains.
    + intros ([i g] & -> & Hp)%list_elem_of_fmap. apply list_elem_of_In, filter_In in Hp as [Hp Hc].
      apply list_elem_of_In, indexed_spec in Hp. exists i, g. split; [done|]. split; [done|].
      by apply for_each_contains.
  - change {| oh_num_docs := _ |} with (block_view spans gs).
    rewrite (view_for_each_doc spans gs ok), bind_ret. f_equal.
    rewrite visits_indexed. unfold selected. generalize (indexed gs) as l.
    induction l as [|[i g] l IH]; [done|]. simpl. destruct (contains f g.1); simpl; by rewrite IH.
Qed.

(** Collecting from the whole block, or from the documents of a filter. *)
Lemma collect_all {B} (h : Z → Z → Z → Z → B) :
  (visits ← header_for_each_doc (block_view spans gs);
   foldM (λ result v, let '(_, doc_id, offset, count) := (v : Z * Z * Z * Z) in
      walk_payload (block_view spans gs) offset count
        (λ acc ti bf bt, (acc ++ [h doc_id ti bf bt], true)) result) [] visits) =
  Ret (map (apply_entry h) (flat_map snd gs)).
Proof using ok.
  rewrite (view_for_each_doc spans gs ok), bind_ret, visits_indexed, fold_visits, app_nil_l
    by apply indexed_ok.
  do 2 f_equal. rewrite <- (indexed_snd gs) at 2. rewrite !flat_map_concat_map, map_map. done.
Qed.

Lemma collect_filtered {F B} `{DocFilterLaws F} (f : F) (h : Z → Z → Z → Z → B) :
  (idx ← filtered_indices (block_view spans gs) f;
   foldM (λ result i, '(doc_id, offset, count) ← doc_at (block_view spans gs) i;
      walk_payload (block_view spans gs) offset count
        (λ acc ti bf bt, (acc ++ [h doc_id ti bf bt], true)) result) [] idx) =
  Ret (map (apply_entry h) (List.filter (λ e, contains f (entry_doc e)) (flat_map snd gs))).
Proof using ok.
  rewrite view_filtered_indices, bind_ret, fold_doc_at, app_nil_l by apply selected_ok.
  by rewrite selected_flat.
Qed.

(** The entries of one document, through the search. *)
Lemma collect_doc {S} d (f : S → Z → Z → Z → S * bool) (s : S) :
  (found ← catch (find_doc_full (block_view spans gs) d);
   match found with
   | None => Ret s
   | Some (_, offset, count) => walk_payload (block_view spans gs) offset count f s
   end) =
  Ret (walk_entries f (List.filter (λ e, entry_doc e =? d) (flat_map snd gs)) s).
Proof using ok.
  rewrite (filter_runs entry_doc (λ x, x =? d)) by apply (bk_runs _ _ ok).
  destruct (decide (Exists (λ g, g.1 = d) gs)) as [He|Hn].
  - apply Exists_exists in He as (g & Hg & <-).
    apply list_elem_of_lookup in Hg as [i Hi].
    rewrite (view_find spans gs ok i g Hi). cbn [catch]. rewrite bind_ret.
    rewrite (view_walk spans gs f i g s ok Hi).
    rewrite (filter_run_one gs i g) by (done || apply (bk_runs _ _ ok)). simpl. by rewrite app_nil_r.
  - rewrite Exists_exists in Hn. rewrite (view_find_none spans gs ok) by naive_solver.
    rewrite filter_run_none by naive_solver. done.
Qed.

(** The capacity reserved for the entries of one document is that of a count
    read as a [u32]. *)
Lemma collect_reserved {B} size d (f : list B → Z → Z → Z → list B * bool) : 0 ≤ size ≤ 12 →
  (found ← catch (find_doc_full (block_view spans gs) d);
   match found with
   | None => Ret []
   | Some (_, offset, count) => out ← with_capacity size count; walk_payload (block_view spans gs) offset count f out
   end) =
  Ret (walk_entries f (List.filter (λ e, entry_doc e =? d) (flat_map snd gs)) []).
Proof using ok.
  intros Hs. rewrite <- collect_doc. destruct (find_doc_full _ d) as [[[i off] c]| | |] eqn:E; cbn [catch]; rewrite ?bind_ret; try done.
  apply find_counts in E; [|done]. by rewrite with_capacity_ok, bind_ret.
Qed.
End View.

(** ** Documents and frequencies *)

Definition docs_view (gs : list (Z * list entry)) : OrdinalHeader :=
  {| oh_num_docs := #gs; oh_layout := Docs (pairs_bytes 0 (counts gs)); oh_payload_data := [];
     oh_spans := false |}.

Lemma next_doc_pair_at data pos prev d tf l rest :
  fits 32 tf → At data pos (pairs_bytes prev ((d, tf) :: l) ++ rest) →
  ∃ pos', next_doc_pair data pos = Ret (sub32 d prev, tf, pos') ∧
    At data pos' (pairs_bytes d l ++ rest).
Proof.
  intros Htf Hat. cbn [pairs_bytes] in Hat. rewrite <- !app_assoc in Hat. unfold next_doc_pair.
  next_varint (sub32_fits d prev) Hat.
  next_varint Htf Hat. eauto.
Qed.

Lemma for_each_pair_spec data rest l pos prev i :
  Forall pair_fits l → At data pos (pairs_bytes prev l ++ rest) →
  for_each_pair (range i (i + #l)) data prev pos =
    Ret (zip_with (λ i p, (i, p.1, 0, p.2)) (range i (i + #l)) l).
Proof.
  intros Hf. revert pos prev i. induction Hf as [|[d tf] l [Hd Htf] _ IH]; intros pos prev i Hat.
  - by rewrite range_nil by (rewrite len_nil; lia).
  - rewrite len_cons. pose proof (len_nonneg l). rewrite range_cons by lia. cbn [for_each_pair].
    destruct (next_doc_pair_at _ _ _ _ _ _ _ Htf Hat) as (pos' & -> & Hat'). cbn [catch].
    rewrite bind_ret, add_sub32 by done. replace (i + (1 + #l)) with (i + 1 + #l) by lia.
    rewrite (IH pos' d (i + 1) Hat'), bind_ret. done.
Qed.

Lemma find_in_pairs_spec data rest l pos prev i d :
  Forall pair_fits l → StronglySorted Z.lt (map fst l) →
  At data pos (pairs_bytes prev l ++ rest) →
  ∃ o, catch (find_in_pairs (range i (i + #l)) data d prev pos) = Ret o ∧
    bool_decide (is_Some o) = existsb (λ p, p.1 =? d) l.
Proof.
  intros Hf. revert pos prev i.
  induction Hf as [|[d' tf] l [Hd Htf] _ IH]; intros pos prev i Hs Hat.
  - rewrite range_nil by (rewrite len_nil; lia). exists None. done.
  - rewrite len_cons. pose proof (len_nonneg l). rewrite range_cons by lia. cbn [find_in_pairs].
    simpl in Hs. apply StronglySorted_cons in Hs as [Hlt Hs].
    destruct (next_doc_pair_at _ _ _ _ _ _ _ Htf Hat) as (pos' & -> & Hat').
    rewrite bind_ret. simpl in Hd. rewrite add_sub32 by done.
    replace (i + (1 + #l)) with (i + 1 + #l) by lia. simpl existsb.
    destruct (d' <? d) eqn:E; [|destruct (d' =? d) eqn:E2].
    + replace (d' =? d) with false by lia. simpl orb. by apply (IH pos').
    + exists (Some (i, 0, tf)). done.
    + exists None. split; [done|]. simpl orb. symmetry. apply not_true_iff_false.
      intros (p & Hp & Hpd)%existsb_exists. apply list_elem_of_In in Hp.
      rewrite Forall_forall in Hlt. assert (d' < p.1); [|lia]. apply Hlt.
      apply list_elem_of_fmap. eauto.
Qed.

Lemma docs_at_loop_returns js pairs doc tf pos :
  ∃ a b, docs_at_loop js pairs doc tf pos = Ret (a, 0, b).
Proof.
  revert doc tf pos. induction js as [|j js IH]; intros doc tf pos; simpl; [eauto|].
  unfold next_doc_pair. destruct (read_varint_u32_step pairs pos) as [->|(v & p & -> & _)]; simpl; [eauto|].
  destruct (read_varint_u32_step pairs p) as [->|(v' & p' & -> & _)]; simpl; [eauto|]. apply IH.
Qed.

Section DocsView.
Context (gs : list (Z * list entry)).
Hypothesis ok : runs_ok entry_doc gs.
Hypothesis pairs_ok : Forall pair_fits (counts gs).

Lemma len_counts : #(counts gs) = #gs.
Proof using. unfold counts. by rewrite len_map. Qed.

Lemma docs_view_visits :
  header_for_each_doc (docs_view gs) =
    Ret (zip_with (λ i p, (i, p.1, 0, p.2)) (range 0 #gs) (counts gs)).
Proof using pairs_ok.
  unfold header_for_each_doc. cbn [docs_view oh_layout oh_num_docs].
  pose proof (for_each_pair_spec (pairs_bytes 0 (counts gs)) [] (counts gs) 0 0 0 pairs_ok) as H.
  rewrite len_counts, Z.add_0_l in H. apply H. rewrite app_nil_r. apply At_start.
Qed.

Lemma docs_view_docs :
  (visits ← header_for_each_doc (docs_view gs);
   Ret (map (λ v, let '(_, doc_id, _, count) := (v : Z * Z * Z * Z) in (doc_id, count)) visits)) =
  Ret (counts gs).
Proof using pairs_ok.
  rewrite docs_view_visits, bind_ret. f_equal. apply list_eq. intros i.
  rewrite list_lookup_fmap, lookup_zip_with.
  destruct (counts gs !! i) as [[d n]|] eqn:E.
  - rewrite (proj2 (range_lookup 0 #gs i (0 + Z.of_nat i))); [done|]. split; [done|].
    apply lookup_lt_Some in E. rewrite <- len_counts. unfold len. lia.
  - by destruct (range 0 #gs !! i).
Qed.

Lemma docs_view_find d :
  ∃ o, catch (find_doc (docs_view gs) d) = Ret o ∧
    bool_decide (is_Some o) = existsb (λ g, g.1 =? d) gs.
Proof using ok pairs_ok.
  unfold find_doc, find_doc_full. cbn [docs_view oh_layout oh_num_docs].
  destruct (find_in_pairs_spec (pairs_bytes 0 (counts gs)) [] (counts gs) 0 0 0 d pairs_ok)
    as (o & Ho & Hs).
  - unfold counts. rewrite map_map. apply (ro_sorted _ _ ok).
  - rewrite app_nil_r. apply At_start.
  - rewrite len_counts, Z.add_0_l in Ho.
    assert (existsb (λ p, p.1 =? d) (counts gs) = existsb (λ g, g.1 =? d) gs) as He.
    { unfold counts. clear. induction gs as [|g l IH]; [done|]. simpl. by rewrite IH. }
    destruct (find_in_pairs _ _ _ _ _) as [[[i off] n]| | |]; simplify_eq/=; rewrite <- He, <- Hs; eauto.
Qed.

Lemma docs_view_walk {S} off cnt (f : S → Z → Z → Z → S * bool) s :
  0 ≤ off → walk_payload (docs_view gs) off cnt f s = Ret s.
Proof using.
  intros Hoff. unfold walk_payload. cbn [docs_view oh_payload_data oh_spans oh_layout].
  change (#([] : list Z)) with 0. rewrite Z.min_r by done. change (slice_from [] 0) with (Ret (A:=list Z) []).
  rewrite bind_ret. simpl negb. cbv iota. by destruct (Z.to_nat cnt).
Qed.

(** No occurrence comes out of a file without positions. *)
Lemma docs_view_collect {B} (push : Z → list B → Z → Z → Z → list B * bool) :
  (visits ← header_for_each_doc (docs_view gs);
   foldM (λ result v, let '(_, doc_id, offset, count) := (v : Z * Z * Z * Z) in
      walk_payload (docs_view gs) offset count (push doc_id) result) [] visits) = Ret [].
Proof using pairs_ok.
  rewrite docs_view_visits, bind_ret. generalize (range 0 #gs) as is_, (counts gs) as l.
  induction is_ as [|i is_ IH]; intros [|p l]; try done. simpl.
  rewrite docs_view_walk by done. apply IH.
Qed.

Lemma docs_view_filtered {F B} `{DocFilter F} (f : F) (push : Z → list B → Z → Z → Z → list B * bool) :
  (idx ← filtered_indices (docs_view gs) f;
   foldM (λ result i, '(doc_id, offset, count) ← doc_at (docs_view gs) i;
      walk_payload (docs_view gs) offset count (push doc_id) result) [] idx) = Ret [].
Proof using pairs_ok.
  unfold filtered_indices. cbn [docs_view oh_layout oh_num_docs]. rewrite andb_false_l.
  change {| oh_num_docs := _ |} with (docs_view gs).
  rewrite docs_view_visits, !bind_ret.
  match goal with |- foldM _ _ ?idx = _ => generalize idx end.
  intros l. induction l as [|i l IH]; [done|]. cbn [foldM].
  assert (∃ a b, doc_at (docs_view gs) i = Ret (a, 0, b)) as (a & b & ->)
    by apply docs_at_loop_returns.
  rewrite bind_ret, docs_view_walk, bind_ret by lia. done.
Qed.
End DocsView.
