(* ===== verification/SfxPostFile.v ===== *)
(** * Posting files: from the writer to every accessor

    [finish], [open] and the queries of [sfxpost_v2.rs] composed: the
    properties of the posting files. *)
From S2P Require Import Prelude Varint OffsetTables Gmap Ordering Runs DocFilter SfxPost SfxPostBlock SfxPostRead.
Import varint block_offsets sfxpost.

(** ** The file *)

(** One ordinal's block. *)
Definition posting_block (w : SfxPostWriterV2) (es : list entry) : list Z :=
  let gs := runs_of es in
  if pw_docs_only w then
    match es with
    | [] => []
    | _ :: _ => varint_bytes #gs ++ pairs_bytes 0 (counts gs)
    end
  else
    varint_bytes #gs ++ varint_bytes #(concat (header_list (pw_spans w) gs))
      ++ cp_list (pw_spans w) gs (length gs) ++ concat (header_list (pw_spans w) gs)
      ++ concat (payloads (pw_spans w) gs).

Definition posting_blocks (w : SfxPostWriterV2) : list (list Z) :=
  map (posting_block w) (pw_ordinals w).

(** A writer whose file a [u32] addresses: the blocks and the offset table
    stay below 4 GB, the entries hold [u32]s, and a writer without spans was
    given none (which [add_entry] sees to). *)
Record posts_ok (w : SfxPostWriterV2) : Prop := {
  po_num : #(pw_ordinals w) + 1 < 2 ^ 32;
  po_entries : Forall (Forall entry_fits) (pw_ordinals w);
  po_count : Forall (λ es, #es < 2 ^ 32) (pw_ordinals w);
  po_spans : pw_spans w = false →
    Forall (Forall (λ e : entry, let '(_, _, bf, bt) := e in bf = 0 ∧ bt = 0)) (pw_ordinals w);
  po_data : #(concat (posting_blocks w)) ≤ u32_max;
  po_table : #(encode (prefix_sums 0 (posting_blocks w))) < 2 ^ 32;
}.

Lemma Forall_sort {P : entry → Prop} es : Forall P es → Forall P (sort_by entry_key es).
Proof. rewrite !Forall_forall. intros H e. rewrite elem_of_sort_by. apply H. Qed.

Lemma len_sort es : #(sort_by entry_key es) = #es.
Proof. unfold len, sort_by. by rewrite merge_sort_Permutation. Qed.

Lemma Forall_runs {P : entry → Prop} es :
  Forall P es → Forall (λ g, Forall P g.2) (runs_of es).
Proof.
  intros H%Forall_sort. rewrite Forall_forall in H. apply Forall_forall. intros g Hg.
  apply Forall_forall. intros e He. apply H. by apply (elem_of_group entry_doc g).
Qed.

Lemma total_runs es : total (runs_of es) = #es.
Proof. unfold total. by rewrite runs_of_flat, len_sort. Qed.

Lemma sort_nil es : sort_by entry_key es = [] ↔ es = [].
Proof.
  split; [|by intros ->]. intros H. assert (#es = 0) as H0 by (by rewrite <- len_sort, H).
  destruct es as [|e es]; [done|]. llia.
Qed.

Lemma runs_of_nil es : runs_of es = [] ↔ es = [].
Proof.
  split; [|by intros ->]. intros H. apply sort_nil. by rewrite <- runs_of_flat, H.
Qed.

Lemma n_runs_le es : #(runs_of es) ≤ #es.
Proof.
  rewrite <- total_runs. unfold total. pose proof (ro_nonempty _ _ (runs_of_ok es)) as H.
  induction H as [|g l Hg _ IH]; [done|]. cbn [flat_map]. rewrite len_app, len_cons.
  destruct g as [d [|e es']]; [done|]. cbn [snd]. rewrite len_cons. pose proof (len_nonneg es'). lia.
Qed.

Lemma headers_long spans gs : block_ok spans gs → 3 * #gs ≤ #(concat (header_list spans gs)).
Proof.
  intros ok. assert (∀ k, (k ≤ length gs)%nat →
    3 * Z.of_nat k ≤ #(concat (take k (header_list spans gs)))) as H.
  { induction k as [|k IH]; intros Hk; [done|].
    destruct (lookup_lt_is_Some_2 gs k) as [g Hg]; [lia|].
    rewrite (concat_take_S _ _ (header_bytes spans (doc_before gs k) g)), len_app
      by (unfold header_list; by rewrite list_lookup_imap, Hg).
    unfold header_bytes. rewrite !len_app.
    pose proof (len_varint_pos _ (fits_32_64 _ (sub32_fits g.1 (doc_before gs k)))).
    pose proof (len_varint_pos _ (fits_32_64 _ (run_payload_fits _ _ ok k g Hg))).
    pose proof (len_varint_pos _ (fits_32_64 _ (run_count_fits _ _ ok k g Hg))).
    specialize (IH ltac:(lia)). lia. }
  specialize (H (length gs) ltac:(lia)). rewrite take_ge in H; [done|].
  unfold header_list. by rewrite length_imap.
Qed.

Section File.
Context (w : SfxPostWriterV2).
Hypothesis ok : posts_ok w.
Let n := #(pw_ordinals w).
Let bs := posting_blocks w.
Let offs := prefix_sums 0 bs.

Lemma posting_block_at o es :
  pw_ordinals w !! o = Some es → bs !! o = Some (posting_block w es).
Proof using. apply lookup_map. Qed.

Lemma posting_block_small o es : pw_ordinals w !! o = Some es → #(posting_block w es) ≤ u32_max.
Proof using ok.
  intros Ho%posting_block_at. pose proof (po_data _ ok : #(concat bs) ≤ u32_max) as H.
  pose proof (concat_split bs o _ Ho) as He. rewrite He, !len_app in H.
  pose proof (len_nonneg (concat (take o bs))). pose proof (len_nonneg (concat (drop (S o) bs))). lia.
Qed.

Lemma runs_counts_fit o es :
  pw_ordinals w !! o = Some es → Forall pair_fits (counts (runs_of es)).
Proof using ok.
  intros Ho. pose proof (po_entries _ ok) as Hf. rewrite Forall_lookup in Hf. specialize (Hf _ _ Ho).
  pose proof (po_count _ ok) as Hc. rewrite Forall_lookup in Hc. specialize (Hc _ _ Ho).
  apply Forall_runs in Hf. pose proof (runs_of_ok es) as [Hne Hd _].
  apply Forall_forall. intros p (g & -> & Hg)%list_elem_of_fmap.
  apply list_elem_of_lookup in Hg as [i Hi]. rewrite Forall_lookup in Hf, Hne, Hd.
  specialize (Hf _ _ Hi). specialize (Hne _ _ Hi). specialize (Hd _ _ Hi).
  pose proof (total_run (runs_of es) i g Hi) as Ht. rewrite total_runs in Ht.
  split; simpl; [|unfold fits; split; [apply len_nonneg|lia]].
  destruct g as [d [|e es']]; [done|]. simpl in *.
  apply Forall_cons in Hf as [Hf _]. apply Forall_cons in Hd as [<- _].
  destruct e as [[[d' ti] bf] bt]. by destruct Hf.
Qed.

Lemma posting_block_ok o es :
  pw_docs_only w = false → pw_ordinals w !! o = Some es → block_ok (pw_spans w) (runs_of es).
Proof using ok.
  intros Hdo Ho. pose proof (posting_block_small o es Ho) as Hb. unfold posting_block in Hb.
  rewrite Hdo, !len_app in Hb. pose proof (po_entries _ ok) as Hf. rewrite Forall_lookup in Hf.
  pose proof (po_count _ ok) as Hc. rewrite Forall_lookup in Hc. specialize (Hc _ _ Ho).
  pose proof (po_spans _ ok) as Hs.
  repeat match type of Hb with context [len ?x] =>
    lazymatch goal with _ : 0 ≤ len x |- _ => fail | _ => pose proof (len_nonneg x) end end.
  widths. split.
  - apply runs_of_ok.
  - apply Forall_runs. by apply (Hf o).
  - rewrite total_runs. widths. lia.
  - widths. lia.
  - widths. lia.
  - intros E. specialize (Hs E). rewrite Forall_lookup in Hs. apply Forall_runs. by apply (Hs o).
Qed.

Lemma write_block_spec data o es :
  pw_ordinals w !! o = Some es → write_block w data es = data ++ posting_block w es.
Proof using ok.
  intros Ho. pose proof (po_count _ ok) as Hc. rewrite Forall_lookup in Hc. specialize (Hc _ _ Ho).
  unfold write_block, posting_block. destruct (pw_docs_only w) eqn:Hdo.
  - destruct es as [|e es]; [by rewrite app_nil_r|].
    destruct (sort_by entry_key (e :: es)) as [|e' es'] eqn:Es.
    { by apply (proj1 (sort_nil (e :: es))) in Es. }
    rewrite <- Es. rewrite <- (runs_of_flat (e :: es)).
    rewrite docs_loop_spec; [|apply runs_of_ok|by rewrite total_runs|done].
    by rewrite write_varint_app, Z.add_0_l, app_nil_l, <- app_assoc.
  - pose proof (posting_block_ok o es Hdo Ho) as Hb. rewrite <- runs_of_flat.
    rewrite runs_loop_spec; [|apply runs_of_ok|by rewrite total_runs|done].
    rewrite !app_nil_l. change (#([] : list Z)) with 0.
    set (gs := runs_of es) in *.
    pose proof (headers_loop_spec (pw_spans w) gs gs 0 eq_refl ltac:(lia)
      (bk_payload _ _ Hb) (bk_headers _ _ Hb)) as Hh.
    change (payload_pos (pw_spans w) gs 0) with 0 in Hh. change (doc_before gs 0) with 0 in Hh.
    change (Z.of_nat 0) with 0 in Hh. simpl take in Hh. simpl concat in Hh.
    change (cp_list (pw_spans w) gs 0) with (@nil Z) in Hh. rewrite Hh.
    rewrite !write_varint_app, <- !app_assoc.
    assert (∀ a, #(run_ends (pw_spans w) a gs) = #gs) as ->.
    { generalize gs. clear. induction gs as [|g l IH]; intros a; [done|]. simpl. rewrite !len_cons.
      by rewrite IH. }
    done.
Qed.

Lemma posting_offsets_encodable : encodable offs.
Proof using ok.
  pose proof (po_num _ ok). pose proof (po_data _ ok : #(concat bs) ≤ u32_max). split.
  - apply prefix_sums_bound; [lia|]. widths. lia.
  - apply prefix_sums_nondecreasing.
  - apply (po_table _ ok).
  - unfold offs, bs, posting_blocks. rewrite len_prefix_sums, len_map. lia.
Qed.

Definition posting_magic : list Z :=
  if pw_docs_only w then MAGIC_V6 else if pw_spans w then MAGIC_V4 else MAGIC_V5.
Definition posting_file : list Z := posting_magic ++ to_le_bytes 4 n ++ encode offs ++ concat bs.

Lemma finish_spec : finish w = Ret posting_file.
Proof using ok.
  unfold finish. pose proof (fold_block_offsets (write_block w) (posting_block w) (pw_ordinals w) [] []) as H.
  destruct (fold_left _ _ _) as [o d]. destruct H as [-> Ho].
  { intros data es (i & Hi)%list_elem_of_lookup. by apply (write_block_spec data i). }
  rewrite app_nil_l in *. change (#([] : list Z)) with 0 in Ho. fold (posting_blocks w) in *.
  pose proof (po_data _ ok). unfold assert_. replace (_ <=? _) with true by lia.
  rewrite Ho, map_as_u32 by apply (enc_u32 _ posting_offsets_encodable).
  unfold posting_file, posting_magic. pose proof (po_num _ ok). pose proof (len_nonneg (pw_ordinals w)).
  unfold as_u32, n. rewrite Z.mod_small by lia. done.
Qed.

(** The reader the file opens to, with or without a map of global ids. *)
Definition posting_reader (gm : option (list Z)) : SfxPostReaderV2 :=
  {| sp_data := posting_file; sp_num_terms := n; sp_offsets_start := 8;
     sp_entry_data_start := 8 + #(encode offs); sp_v3 := true;
     sp_block_table := Some (20, 20 + div_ceil #offs BLOCK * 4);
     sp_spans := if pw_docs_only w then false else pw_spans w;
     sp_docs_only := pw_docs_only w; sp_gmap := gm |}.

Lemma len_posting_offs : #offs = n + 1.
Proof using. unfold offs, bs, posting_blocks, n. by rewrite len_prefix_sums, len_map. Qed.

Lemma posting_file_tail : At posting_file 8 (encode offs ++ concat bs).
Proof using.
  unfold posting_file. rewrite (app_assoc posting_magic). apply At_mid.
  unfold posting_magic. lens. by destruct (pw_docs_only w), (pw_spans w).
Qed.

Lemma open_posting_file : open posting_file = Ret (posting_reader None).
Proof using ok.
  pose proof posting_offsets_encodable as He. pose proof (po_num _ ok) as Hn. fold n in Hn.
  destruct (encode_regions _ _ _ _ He posting_file_tail) as (Hnb & _ & _ & _).
  pose proof posting_file_tail as Hat. pose proof (At_len _ _ _ Hat) as Hlen.
  pose proof (len_nonneg (encode offs ++ concat bs)). pose proof (len_nonneg (pw_ordinals w)).
  unfold open. replace (_ <? 8) with false by lia.
  assert (slice posting_file 0 4 = Ret posting_magic) as ->.
  { apply slice_prefix. unfold posting_magic. by destruct (pw_docs_only w), (pw_spans w). }
  rewrite bind_ret.
  assert (u32_at posting_file 4 = Ret n) as Hnum.
  { unfold posting_file, u32_at. apply (le_at_mid 4); [|unfold fits, n; lia].
    unfold posting_magic. by destruct (pw_docs_only w), (pw_spans w). }
  assert (bytes_eqb posting_magic MAGIC_V6 = pw_docs_only w) as ->
    by (unfold posting_magic; by destruct (pw_docs_only w), (pw_spans w)).
  assert ((if pw_docs_only w then Ret (true, true, false)
     else if bytes_eqb posting_magic MAGIC_V5 then Ret (true, true, false)
     else if bytes_eqb posting_magic MAGIC_V4 then Ret (true, true, true)
     else if bytes_eqb posting_magic MAGIC_V3 then Ret (true, false, true)
     else if bytes_eqb posting_magic MAGIC_V2 then Ret (false, false, true)
     else Nothing) = Ret (true, true, if pw_docs_only w then false else pw_spans w)) as ->
    by (unfold posting_magic; by destruct (pw_docs_only w), (pw_spans w)).
  rewrite bind_ret. rewrite Hnum, bind_ret. cbv iota.
  rewrite (At_slice_from _ _ _ Hat), bind_ret, (parse_encode _ _ He), bind_ret.
  change (bo_num (table_of offs)) with #offs. rewrite len_posting_offs.
  unfold add32, as_u32. rewrite Z.mod_small by (unfold n in *; lia). rewrite Z.eqb_refl.
  simpl negb. cbv iota. change (u32_at posting_file 12) with (u32_at posting_file (8 + 4)). rewrite Hnb, bind_ret. done.
Qed.

Lemma posting_read_offset gm k :
  (k ≤ length bs)%nat →
  read_offset (posting_reader gm) (Z.of_nat k) = Ret #(concat (take k bs)).
Proof using ok.
  intros Hk. pose proof posting_offsets_encodable as He.
  destruct (encode_regions _ _ _ _ He posting_file_tail) as (_ & Hd & Hb & _).
  unfold read_offset. cbn [posting_reader sp_block_table sp_data sp_entry_data_start sp_num_terms].
  change 20 with (8 + 12). rewrite Hd, bind_ret, Hb, bind_ret.
  assert (from_parts (add32 n 1) (bo_dir (table_of offs)) (bo_blocks (table_of offs)) = table_of offs) as ->.
  { unfold from_parts, table_of. f_equal. rewrite len_posting_offs. unfold add32, as_u32.
    pose proof (po_num _ ok). pose proof (len_nonneg (pw_ordinals w)).
    apply Z.mod_small. unfold n. lia. }
  apply (get_table_of _ He); [lia|]. rewrite Nat2Z.id. unfold offs.
  by rewrite prefix_sums_lookup by done.
Qed.

Lemma posting_entry_data gm : entry_data (posting_reader gm) = Ret (concat bs).
Proof using ok.
  destruct (encode_regions _ _ _ _ posting_offsets_encodable posting_file_tail) as (_ & _ & _ & Hat).
  unfold entry_data. cbn [posting_reader sp_data sp_entry_data_start]. by apply At_slice_from.
Qed.

Lemma posting_slice o es :
  pw_ordinals w !! o = Some es →
  let a := #(concat (take o bs)) in let b := #(concat (take (S o) bs)) in
  b = a + #(posting_block w es) ∧ b ≤ #(concat bs) ∧
  slice (concat bs) a b = Ret (posting_block w es).
Proof using.
  intros Ho%posting_block_at a b. split; [|split].
  - unfold a, b. by rewrite (concat_take_S _ _ _ Ho), len_app.
  - apply len_concat_take_le.
  - rewrite <- (app_nil_r (concat bs)). by eapply slice_region.
Qed.

(** The common part of the two layouts: the block of the ordinal. *)
Lemma posting_offsets_at gm o es :
  pw_ordinals w !! o = Some es →
  read_offset (posting_reader gm) (Z.of_nat o) = Ret #(concat (take o bs)) ∧
  read_offset (posting_reader gm) (Z.of_nat o + 1) = Ret #(concat (take (S o) bs)) ∧
  fits 32 #(runs_of es).
Proof using ok.
  intros Ho. assert (o < length bs)%nat as Hlt.
  { apply lookup_lt_Some in Ho. unfold bs, posting_blocks. by rewrite length_map. }
  replace (Z.of_nat o + 1) with (Z.of_nat (S o)) by lia. rewrite !posting_read_offset by lia.
  split; [done|]. split; [done|]. pose proof (n_runs_le es). pose proof (len_nonneg (runs_of es)).
  pose proof (po_count _ ok) as Hc. rewrite Forall_lookup in Hc. specialize (Hc _ _ Ho).
  unfold fits. lia.
Qed.

(** The header of an ordinal that has entries; an empty one has none. *)
Lemma docs_header gm o es :
  pw_docs_only w = true → pw_ordinals w !! o = Some es →
  read_ordinal_header (posting_reader gm) (Z.of_nat o) =
    match es with [] => Nothing | _ :: _ => Ret (docs_view (runs_of es)) end.
Proof using ok.
  intros Hdo Ho. destruct (posting_offsets_at gm o es Ho) as (H1 & H2 & Hnf).
  destruct (posting_slice o es Ho) as (Hb & Hle & Hslice).
  unfold read_ordinal_header. rewrite H1, bind_ret, H2, bind_ret, posting_entry_data, bind_ret.
  cbn [posting_reader sp_docs_only]. rewrite Hdo, Z.min_l by done.
  unfold posting_block in *. rewrite Hdo in *. destruct es as [|e es].
  { rewrite len_nil in Hb. by replace (_ || _) with true by lia. }
  set (gs := runs_of (e :: es)) in *.
  pose proof (len_varint_pos #gs (fits_32_64 _ Hnf)).
  pose proof (len_nonneg (pairs_bytes 0 (counts gs))). rewrite len_app in Hb.
  replace (_ || _) with false by lia. rewrite Hslice, bind_ret.
  destruct (cursor_open (varint_bytes #gs ++ pairs_bytes 0 (counts gs))) as (data & Hdata & Hat).
  rewrite <- Hdata. rewrite (read_varint_u32_at _ _ _ _ Hnf Hat), bind_ret.
  pose proof (At_len _ _ _ Hat) as Hlen. rewrite len_app in Hlen. apply At_skip in Hat.
  pose proof (len_pairs_bytes 0 (counts gs)) as Hp. rewrite len_counts in Hp.
  assert (2 * #gs ≤ #(pairs_bytes 0 (counts gs))).
  { apply Hp. eapply Forall_impl; [apply (runs_counts_fit o); done|]. by intros p []. }
  replace (_ <? _) with false by lia. by rewrite (At_slice_from _ _ _ Hat), bind_ret.
Qed.

Lemma block_header gm o es :
  pw_docs_only w = false → pw_ordinals w !! o = Some es →
  read_ordinal_header (posting_reader gm) (Z.of_nat o) =
    match es with [] => Nothing | _ :: _ => Ret (block_view (pw_spans w) (runs_of es)) end.
Proof using ok.
  intros Hdo Ho. destruct (posting_offsets_at gm o es Ho) as (H1 & H2 & Hnf).
  destruct (posting_slice o es Ho) as (Hb & Hle & Hslice).
  unfold read_ordinal_header. rewrite H1, bind_ret, H2, bind_ret, posting_entry_data, bind_ret.
  cbn [posting_reader sp_docs_only sp_v3 sp_spans]. rewrite Hdo, Z.min_l by done.
  pose proof (posting_block_ok o es Hdo Ho) as Hok. unfold posting_block in *. rewrite Hdo in *.
  set (gs := runs_of es) in *. set (hdrs := concat (header_list (pw_spans w) gs)) in *.
  set (cps := cp_list (pw_spans w) gs (length gs)) in *.
  set (pl := concat (payloads (pw_spans w) gs)) in *.
  assert (fits 32 #hdrs) as Hhf by (split; [apply len_nonneg|apply (bk_headers _ _ Hok)]).
  pose proof (len_varint_pos #gs (fits_32_64 _ Hnf)).
  pose proof (len_varint_pos #hdrs (fits_32_64 _ Hhf)).
  pose proof (len_nonneg cps). pose proof (len_nonneg hdrs). pose proof (len_nonneg pl).
  rewrite !len_app in Hb. replace (_ || _) with false by lia. rewrite Hslice, bind_ret.
  destruct (cursor_open (varint_bytes #gs ++ varint_bytes #hdrs ++ cps ++ hdrs ++ pl))
    as (data & Hdata & Hat). rewrite <- Hdata.
  destruct es as [|e es].
  { assert (#data = 2) as -> by (rewrite Hdata; vm_compute; done). done. }
  pose proof (At_len _ _ _ Hat) as Hlen. rewrite !len_app in Hlen.
  assert (3 * #gs ≤ #hdrs) as Hlong by (apply headers_long; done).
  assert (1 ≤ #gs) as Hone.
  { destruct gs eqn:Eg; [|rewrite len_cons; pose proof (len_nonneg l); lia].
    by apply (proj1 (runs_of_nil (e :: es))) in Eg. }
  replace (_ <? 4) with false by lia.
  next_varint Hnf Hat.
  replace (#data <? #gs) with false by lia.
  next_varint Hhf Hat.
  pose proof (len_cps (pw_spans w) gs : #cps = _) as Hcps. rewrite <- Hcps.
  replace (#data <? _) with false by lia.
  read_slice Hat. read_slice Hat. by rewrite (At_slice_from _ _ _ Hat), bind_ret.
Qed.

(** By the id a caller gives, which names ordinal [o]. *)
Lemma posting_header_of gm id o es :
  local (posting_reader gm) id = Ret (Some (Z.of_nat o)) → pw_ordinals w !! o = Some es →
  header_of (posting_reader gm) id = Ret
    match es with
    | [] => None
    | _ :: _ => Some (if pw_docs_only w then docs_view (runs_of es)
                      else block_view (pw_spans w) (runs_of es))
    end.
Proof using ok.
  intros Hl Ho. unfold header_of. rewrite Hl, bind_ret. apply lookup_lt_Some in Ho as Hlt.
  cbn [posting_reader sp_num_terms]. replace (n <=? _) with false by (unfold n, len; lia).
  destruct (pw_docs_only w) eqn:Hdo.
  - rewrite (docs_header gm o es Hdo Ho). by destruct es.
  - rewrite (block_header gm o es Hdo Ho). by destruct es.
Qed.

(** An id outside the file has no header. *)
Lemma posting_header_none gm id v :
  local (posting_reader gm) id = Ret v → match v with Some o => n ≤ o | None => True end →
  header_of (posting_reader gm) id = Ret None.
Proof using.
  intros Hl Ho. unfold header_of. rewrite Hl, bind_ret. destruct v as [o|]; [|done].
  cbn [posting_reader sp_num_terms]. by replace (n <=? o) with true by lia.
Qed.
End File.

(** ** The accessors *)

Definition entry_ti (e : entry) : Z := let '(_, ti, _, _) := e in ti.
Definition entry_span (e : entry) : Z * Z := let '(_, _, bf, bt) := e in (bf, bt).
Definition posting_of (e : entry) : SfxPostingEntry :=
  apply_entry (λ d ti bf bt,
    {| pe_doc_id := d; pe_token_index := ti; pe_byte_from := bf; pe_byte_to := bt |}) e.
Definition at_position (d p : Z) (e : entry) : bool := (entry_doc e =? d) && (entry_ti e =? p).

(** In one document the positions do not decrease. *)
Lemma doc_positions_sorted es d :
  StronglySorted (λ a b, entry_ti a ≤ entry_ti b)
    (List.filter (λ e, entry_doc e =? d) (sort_by entry_key es)).
Proof.
  pose proof (StronglySorted_filter _ (λ e, entry_doc e =? d) _ (sort_by_sorted entry_key es)) as H.
  assert (Forall (λ e, entry_doc e = d) (List.filter (λ e, entry_doc e =? d) (sort_by entry_key es))) as Hd.
  { apply Forall_forall. intros e He. apply list_elem_of_In, filter_In in He as [_ He]. lia. }
  induction H as [|e l _ IH Hall]; [constructor|]. apply Forall_cons in Hd as [He Hd].
  constructor; [by apply IH|]. rewrite Forall_forall in *. intros b Hb.
  specialize (Hall b Hb). specialize (Hd b Hb). unfold key_le in Hall.
  destruct e as [[[d1 ti1] bf1] bt1], b as [[[d2 ti2] bf2] bt2]. simpl in *. lia.
Qed.

(** The scan that stops past the target misses nothing. *)
Lemma scan_past {B} (found : entry → B) p l b0 :
  StronglySorted (λ a b, entry_ti a ≤ entry_ti b) l →
  walk_entries (λ b ti bf bt, if ti =? p then (found (0, ti, bf, bt), false) else (b, ti <? p)) l b0 =
    match List.find (λ e, entry_ti e =? p) l with
    | Some (_, ti, bf, bt) => found (0, ti, bf, bt)
    | None => b0
    end.
Proof.
  induction 1 as [|[[[d ti] bf] bt] l Hl IH Hall]; [done|]. simpl.
  destruct (ti =? p) eqn:E; [done|]. destruct (ti <? p) eqn:E2; [done|].
  assert (List.find (λ e, entry_ti e =? p) l = None) as ->; [|done].
  destruct (List.find _ l) as [e|] eqn:Ef; [|done]. exfalso.
  apply find_some in Ef as [Hin He]. apply list_elem_of_In in Hin.
  rewrite Forall_forall in Hall. specialize (Hall e Hin). simpl in Hall. lia.
Qed.

Lemma find_in_doc d p l :
  List.find (λ e, entry_ti e =? p) (List.filter (λ e, entry_doc e =? d) l) =
    List.find (at_position d p) l.
Proof.
  unfold at_position. induction l as [|e l IH]; [done|]. simpl.
  destruct (entry_doc e =? d); simpl; [|done]. by destruct (entry_ti e =? p).
Qed.

Lemma existsb_sort (p : entry → bool) es : existsb p (sort_by entry_key es) = existsb p es.
Proof.
  apply Bool.eq_iff_eq_true. rewrite !existsb_exists. setoid_rewrite <- list_elem_of_In.
  by setoid_rewrite elem_of_sort_by.
Qed.

Lemma find_existsb {A} (p : A → bool) l :
  match List.find p l with Some _ => true | None => false end = existsb p l.
Proof. induction l as [|a l IH]; [done|]. simpl. by destruct (p a). Qed.

Section Accessors.
Context (r : SfxPostReaderV2) (id : Z) (es : list entry) (spans : bool).
Hypothesis hdr : header_of r id = Ret
  match es with [] => None | _ :: _ => Some (block_view spans (runs_of es)) end.
Hypothesis bok : block_ok spans (runs_of es).
Let sorted := sort_by entry_key es.

Lemma read_for_each_entry : for_each_entry r id = Ret sorted.
Proof using hdr bok.
  unfold for_each_entry. rewrite hdr, bind_ret.
  pose proof (collect_all spans (runs_of es) bok (λ d ti bf bt, (d, ti, bf, bt))) as H.
  rewrite runs_of_flat in H. destruct es as [|e es']; [done|]. rewrite H. f_equal.
  rewrite <- map_id. apply map_ext. by intros [[[d ti] bf] bt].
Qed.

Lemma read_entries : entries_filtered (F := HashSet) r id None = Ret (map posting_of sorted).
Proof using hdr bok.
  unfold entries_filtered. rewrite hdr, bind_ret.
  pose proof (collect_all spans (runs_of es) bok (λ d ti bf bt,
    {| pe_doc_id := d; pe_token_index := ti; pe_byte_from := bf; pe_byte_to := bt |})) as H.
  rewrite runs_of_flat in H. destruct es as [|e es']; [done|]. exact H.
Qed.

Lemma read_entries_filtered {F} `{DocFilterLaws F} (f : F) :
  entries_filtered r id (Some f) =
    Ret (map posting_of (List.filter (λ e, contains f (entry_doc e)) sorted)).
Proof using hdr bok.
  unfold entries_filtered. rewrite hdr, bind_ret.
  pose proof (collect_filtered spans (runs_of es) bok f (λ d ti bf bt,
    {| pe_doc_id := d; pe_token_index := ti; pe_byte_from := bf; pe_byte_to := bt |})) as Hc.
  rewrite runs_of_flat in Hc. destruct es as [|e es']; [done|]. exact Hc.
Qed.

Lemma read_positions_filtered {F} `{DocFilterLaws F} (f : option F) :
  positions_filtered r id f =
    Ret (map (λ e, (entry_doc e, entry_ti e))
      (match f with
       | None => sorted
       | Some f => List.filter (λ e, contains f (entry_doc e)) sorted
       end)).
Proof using hdr bok.
  assert (∀ l, map (apply_entry (λ d ti _ _, (d, ti))) l = map (λ e, (entry_doc e, entry_ti e)) l) as Hm.
  { intros l. apply map_ext. by intros [[[d ti] bf] bt]. }
  unfold positions_filtered. rewrite hdr, bind_ret. destruct f as [f|].
  - pose proof (collect_filtered spans (runs_of es) bok f (λ d ti _ _, (d, ti))) as Hc.
    rewrite runs_of_flat, Hm in Hc. destruct es as [|e es']; [done|]. exact Hc.
  - pose proof (collect_all spans (runs_of es) bok (λ d ti _ _, (d, ti))) as Hc.
    rewrite runs_of_flat, Hm in Hc. destruct es as [|e es']; [done|]. exact Hc.
Qed.

Lemma read_has_doc d : has_doc r id d = Ret (existsb (λ e, entry_doc e =? d) es).
Proof using hdr bok.
  unfold has_doc. rewrite hdr, bind_ret.
  destruct (find_doc_catch spans (runs_of es) bok d) as (o & Ho & Hspec).
  assert (bool_decide (is_Some o) = existsb (λ e, entry_doc e =? d) es) as Hb.
  { rewrite <- existsb_sort, <- runs_of_flat. apply Bool.eq_iff_eq_true.
    rewrite bool_decide_eq_true, existsb_exists.
    destruct (bk_runs _ _ bok) as [Hne Hdoc _]. split.
    - destruct o as [z|]; [intros _|by intros []]. destruct Hspec as (i & g & _ & Hi & <-).
      rewrite Forall_lookup in Hne, Hdoc. specialize (Hne _ _ Hi). specialize (Hdoc _ _ Hi).
      destruct g as [d [|e l]]; [done|]. exists e. apply Forall_cons in Hdoc as [Hdoc _].
      simpl in Hdoc |- *. split; [|lia]. apply in_flat_map. exists (d, e :: l).
      split; [by eapply list_elem_of_In, list_elem_of_lookup_2|by left].
    - intros (e & (g & Hg & Hin)%in_flat_map & He). destruct o as [z|]; [eauto|]. exfalso.
      apply list_elem_of_In in Hg. rewrite Forall_forall in Hdoc. specialize (Hdoc g Hg).
      rewrite Forall_forall in Hdoc. apply list_elem_of_In, Hdoc in Hin.
      apply (Hspec g Hg). lia. }
  destruct es as [|e es']; [done|]. by rewrite Ho, bind_ret, Hb.
Qed.

Lemma read_entries_for_doc d :
  entries_for_doc r id d = Ret (map posting_of (List.filter (λ e, entry_doc e =? d) sorted)).
Proof using hdr bok.
  unfold entries_for_doc. rewrite hdr, bind_ret.
  pose proof (collect_reserved spans (runs_of es) bok 12 d (push_entry d) ltac:(lia)) as H.
  rewrite runs_of_flat in H. destruct es as [|e es']; [done|]. rewrite H. f_equal.
  unfold push_entry. rewrite (walk_collect (λ d ti bf bt,
    {| pe_doc_id := d; pe_token_index := ti; pe_byte_from := bf; pe_byte_to := bt |})); [done|].
  apply Forall_forall. intros x Hx. apply list_elem_of_In, filter_In in Hx as [_ Hx]. lia.
Qed.

Lemma read_positions_for_doc d :
  positions_for_doc r id d = Ret (map entry_ti (List.filter (λ e, entry_doc e =? d) sorted)).
Proof using hdr bok.
  unfold positions_for_doc. rewrite hdr, bind_ret.
  pose proof (collect_reserved spans (runs_of es) bok 4 d (λ acc ti _ _, (acc ++ [ti], true)) ltac:(lia)) as H.
  rewrite runs_of_flat in H. destruct es as [|e es']; [done|]. rewrite H. f_equal.
  rewrite (walk_collect (λ _ ti _ _, ti) d).
  - apply map_ext. by intros [[[x ti] bf] bt].
  - apply Forall_forall. intros x Hx. apply list_elem_of_In, filter_In in Hx as [_ Hx]. lia.
Qed.

Lemma read_has_position d p : has_position r id d p = Ret (existsb (at_position d p) es).
Proof using hdr bok.
  unfold has_position. rewrite hdr, bind_ret.
  pose proof (collect_doc spans (runs_of es) bok d (λ found ti _ _,
    if ti =? p then (true, false) else (found, ti <? p)) false) as H.
  rewrite runs_of_flat in H. rewrite <- existsb_sort, <- find_existsb, <- find_in_doc.
  destruct es as [|e es']; [done|]. rewrite H. f_equal.
  rewrite (scan_past (λ _, true)) by apply doc_positions_sorted.
  by destruct (List.find _ _) as [[[[x ti] bf] bt]|].
Qed.

Lemma read_entry_at d p :
  entry_at r id d p = of_option (entry_span <$> List.find (at_position d p) sorted).
Proof using hdr bok.
  unfold entry_at. rewrite hdr, bind_ret. unfold sorted.
  pose proof (collect_doc spans (runs_of es) bok d (λ found ti bf bt,
    if ti =? p then (Some (bf, bt), false) else (found, ti <? p)) None) as H.
  rewrite runs_of_flat in H. rewrite <- find_in_doc.
  rewrite (scan_past (λ e, Some (entry_span e))) in H by apply doc_positions_sorted.
  destruct es as [|e es']; [done|]. cbn [of_option]. rewrite bind_ret.
  destruct (find_doc_full _ _) as [[[i off] cnt]| | |]; simpl in *; try done.
  - rewrite H. by destruct (List.find _ _) as [[[[x ti] bf] bt]|].
  - by destruct (List.find _ _) as [[[[x ti] bf] bt]|]; simplify_eq.
Qed.

Lemma read_for_each_doc : for_each_doc r id = Ret (doc_counts entry_doc sorted).
Proof using hdr bok.
  unfold for_each_doc. rewrite hdr, bind_ret.
  pose proof (view_for_each_doc spans (runs_of es) bok) as H.
  assert (map (λ v, let '(_, doc_id, _, count) := (v : Z * Z * Z * Z) in (doc_id, count))
    (visits spans (runs_of es)) = doc_counts entry_doc sorted) as Hm.
  { unfold visits, doc_counts, sorted. fold (runs_of es). apply list_eq. intros i.
    rewrite !list_lookup_fmap, list_lookup_imap. by destruct (runs_of es !! i). }
  destruct es as [|e es']; [done|]. by rewrite H, bind_ret, Hm.
Qed.

Lemma read_doc_freq : #es < 2 ^ 32 → doc_freq r id = Ret #(doc_counts entry_doc sorted).
Proof using hdr bok.
  intros Hl. unfold doc_freq. rewrite hdr, bind_ret. f_equal.
  unfold doc_counts, sorted. rewrite len_map. fold (runs_of es).
  pose proof (n_runs_le es). pose proof (len_nonneg (runs_of es)).
  destruct es as [|e es']; [done|]. cbn [block_view oh_num_docs]. apply Z.mod_small. lia.
Qed.
End Accessors.

(** The same ids, for a file of documents and frequencies. *)
Section DocsAccessors.
Context (r : SfxPostReaderV2) (id : Z) (es : list entry).
Hypothesis hdr : header_of r id = Ret
  match es with [] => None | _ :: _ => Some (docs_view (runs_of es)) end.
Hypothesis pairs : Forall pair_fits (counts (runs_of es)).

Lemma docs_for_each_doc : for_each_doc r id = Ret (doc_counts entry_doc (sort_by entry_key es)).
Proof using hdr pairs.
  unfold for_each_doc. rewrite hdr, bind_ret. pose proof (docs_view_docs (runs_of es) pairs) as H.
  destruct es as [|e es']; [done|]. exact H.
Qed.

Lemma docs_has_doc d : has_doc r id d = Ret (existsb (λ e, entry_doc e =? d) es).
Proof using hdr pairs.
  unfold has_doc. rewrite hdr, bind_ret.
  destruct (docs_view_find (runs_of es) (runs_of_ok es) pairs d) as (o & Ho & Hb).
  assert (existsb (λ g, g.1 =? d) (runs_of es) = existsb (λ e, entry_doc e =? d) es) as He.
  { rewrite <- existsb_sort, <- runs_of_flat. pose proof (runs_of_ok es) as [Hne Hdoc _].
    revert Hne Hdoc. generalize (runs_of es) as gs. clear. intros gs Hne Hdoc.
    induction gs as [|g l IH]; [done|]. apply Forall_cons in Hne as [Hg Hne].
    apply Forall_cons in Hdoc as [Hdg Hdoc]. cbn [existsb flat_map]. rewrite existsb_app, IH by done.
    f_equal. destruct g as [x [|e l']]; [done|]. simpl in *.
    apply Bool.eq_iff_eq_true. rewrite orb_true_iff, existsb_exists. split.
    - intros Hx. left. apply Forall_cons in Hdg as [-> _]. done.
    - rewrite Forall_forall in Hdg. intros [Hx|(e' & Hin & Hx)].
      + assert (entry_doc e = x) by (apply Hdg; set_solver). lia.
      + apply list_elem_of_In in Hin. assert (entry_doc e' = x) by (apply Hdg; set_solver). lia. }
  destruct es as [|e es']; [done|]. by rewrite Ho, bind_ret, Hb, He.
Qed.

Lemma docs_doc_freq : #es < 2 ^ 32 → doc_freq r id = Ret #(doc_counts entry_doc (sort_by entry_key es)).
Proof using hdr pairs.
  intros Hl. unfold doc_freq. rewrite hdr, bind_ret. f_equal.
  unfold doc_counts. rewrite len_map. fold (runs_of es).
  pose proof (n_runs_le es). pose proof (len_nonneg (runs_of es)). clear hdr.
  destruct es as [|e es']; [done|]. cbn [docs_view oh_num_docs]. apply Z.mod_small. lia.
Qed.

Lemma docs_no_entries : for_each_entry r id = Ret [].
Proof using hdr pairs.
  unfold for_each_entry. rewrite hdr, bind_ret.
  pose proof (docs_view_collect (runs_of es) pairs (λ doc_id acc ti bf bt,
    (acc ++ [(doc_id, ti, bf, bt)], true))) as H.
  destruct es as [|e es']; [done|]. exact H.
Qed.

Lemma docs_no_positions {F} `{DocFilter F} (f : option F) : positions_filtered r id f = Ret [].
Proof using hdr pairs.
  unfold positions_filtered. rewrite hdr, bind_ret.
  pose proof (docs_view_collect (runs_of es) pairs (λ doc_id acc ti (_ _ : Z),
    (acc ++ [(doc_id, ti)], true))) as H1.
  destruct f as [f|].
  - pose proof (docs_view_filtered (runs_of es) pairs f (λ doc_id acc ti (_ _ : Z),
      (acc ++ [(doc_id, ti)], true))) as H2.
    destruct es as [|e es']; [done|]. exact H2.
  - destruct es as [|e es']; [done|]. exact H1.
Qed.
End DocsAccessors.

(** ** Ids: local without a map, global with one *)

Lemma local_plain w id : local (posting_reader w None) id = Ret (Some id).
Proof. done. Qed.

Lemma local_gmap w gb g ids (o : nat) id :
  gmap.open gb = Ret g → gmap_over g ids → ids_ok ids → ids !! o = Some id →
  local (posting_reader w (Some gb)) id = Ret (Some (Z.of_nat o)).
Proof.
  intros Hg Hover Hok Ho. unfold local. cbn [posting_reader sp_gmap]. rewrite Hg, bind_ret.
  apply lookup_lt_Some in Ho as Hlt.
  destruct (local_spec g ids Hover Hok id) as [(i & -> & Hi & Hid)|[_ Hno]].
  - simpl. do 2 f_equal. pose proof (id_at_lookup ids i Hi) as Hl. rewrite Hid in Hl.
    pose proof (increasing_inj ids _ _ _ (ids_sorted _ Hok) Hl Ho). lia.
  - exfalso. apply (Hno (Z.of_nat o)); [unfold len; lia|].
    unfold id_at. by rewrite Nat2Z.id, Ho.
Qed.

Lemma local_gmap_unknown w gb g ids id :
  gmap.open gb = Ret g → gmap_over g ids → ids_ok ids → id ∉ ids →
  local (posting_reader w (Some gb)) id = Ret None.
Proof.
  intros Hg Hover Hok Hid. unfold local. cbn [posting_reader sp_gmap]. rewrite Hg, bind_ret.
  destruct (local_spec g ids Hover Hok id) as [(i & _ & Hi & Hid')|[-> _]]; [|done].
  exfalso. apply Hid. rewrite <- Hid'. eapply list_elem_of_lookup_2. by apply id_at_lookup.
Qed.

Lemma header_of_local w (o : nat) es :
  posts_ok w → pw_docs_only w = false → pw_ordinals w !! o = Some es →
  header_of (posting_reader w None) (Z.of_nat o) = Ret
    match es with [] => None | _ :: _ => Some (block_view (pw_spans w) (runs_of es)) end.
Proof. intros Hok Hdo Ho. rewrite (posting_header_of w Hok None _ o es) by done. by rewrite Hdo. Qed.

(** ** Filling the writer *)

Definition add_all (w : SfxPostWriterV2) (adds : list (Z * entry)) : SfxPostWriterV2 :=
  fold_left (λ w a, let '(o, (d, ti, bf, bt)) := (a : Z * entry) in add_entry w o d ti bf bt) adds w.

(** What the writer keeps of an entry. *)
Definition kept (spans : bool) (e : entry) : entry :=
  let '(d, ti, bf, bt) := e in if spans then (d, ti, bf, bt) else (d, ti, 0, 0).
Definition added (spans : bool) (o : Z) (adds : list (Z * entry)) : list entry :=
  map (λ a, kept spans (snd a)) (List.filter (λ a, fst a =? o) adds).

Lemma add_all_flags w adds :
  pw_spans (add_all w adds) = pw_spans w ∧ pw_docs_only (add_all w adds) = pw_docs_only w ∧
  length (pw_ordinals (add_all w adds)) = length (pw_ordinals w).
Proof.
  revert w. induction adds as [|[o [[[d ti] bf] bt]] adds IH]; intros w; [done|].
  cbn [add_all fold_left]. fold (add_all (add_entry w o d ti bf bt) adds).
  destruct (IH (add_entry w o d ti bf bt)) as (-> & -> & ->). unfold add_entry.
  destruct (o <? _); [|done]. destruct (pw_spans w); simpl; unfold set_at; by rewrite length_insert.
Qed.

Lemma add_all_lookup w adds (o : nat) l :
  Forall (λ a, 0 ≤ fst a) adds → pw_ordinals w !! o = Some l →
  pw_ordinals (add_all w adds) !! o = Some (l ++ added (pw_spans w) (Z.of_nat o) adds).
Proof.
  intros Ha. revert w l. induction Ha as [|[o' [[[d ti] bf] bt]] adds Ho' _ IH]; intros w l Hl.
  - simpl. by rewrite app_nil_r.
  - cbn [add_all fold_left]. fold (add_all (add_entry w o' d ti bf bt) adds). simpl in Ho'.
    apply lookup_lt_Some in Hl as Hlt. unfold add_entry, added. simpl List.filter.
    destruct (o' =? Z.of_nat o) eqn:E.
    + assert (o' = Z.of_nat o) as -> by lia. replace (_ <? _) with true by (unfold len; lia).
      unfold entry in *. rewrite Nat2Z.id, Hl. cbn [map default]. rewrite cons_middle, app_assoc.
      destruct (pw_spans w) eqn:Es; erewrite IH.
      all: try (cbn [pw_ordinals]; unfold set_at; rewrite Nat2Z.id; by apply list_lookup_insert_eq).
      all: cbn [pw_spans]; unfold added; by rewrite ?Es.
    + destruct (o' <? _); [|by apply IH].
      destruct (pw_spans w) eqn:Es; erewrite IH.
      all: try (cbn [pw_ordinals]; unfold set_at; rewrite list_lookup_insert_ne by lia; done).
      all: cbn [pw_spans]; unfold added; by rewrite ?Es.
Qed.

(** A writer of positions, empty. *)
Definition fresh_writer (w : SfxPostWriterV2) (n : Z) : Prop :=
  w = new n ∨ w = positions_only n ∨ w = docs_only n.

Lemma fresh_lookup w n (o : nat) : fresh_writer w n → Z.of_nat o < n → pw_ordinals w !! o = Some [].
Proof. intros [->|[->| ->]] Ho; apply lookup_replicate; split; try done; lia. Qed.

Lemma fresh_length w n : fresh_writer w n → 0 ≤ n → #(pw_ordinals w) = n.
Proof. intros [->|[->| ->]] Hn; simpl; lens; lia. Qed.

Lemma len_filter_le {A} (p : A → bool) l : #(List.filter p l) ≤ #l.
Proof. induction l as [|a l IH]; [done|]. simpl. destruct (p a); rewrite ?len_cons; lia. Qed.

(** The additions a writer of [n] ordinals takes: [u32] fields, ordinals that
    are not negative, fewer than 4 G of them; and a file that fits. *)
Record adds_ok (w0 : SfxPostWriterV2) (n : Z) (adds : list (Z * entry)) : Prop := {
  ao_num : 0 ≤ n < 2 ^ 32 - 1;
  ao_fits : Forall (λ a, 0 ≤ fst a ∧ entry_fits (snd a)) adds;
  ao_count : #adds < 2 ^ 32;
  ao_data : #(concat (posting_blocks (add_all w0 adds))) ≤ u32_max;
  ao_table : #(encode (prefix_sums 0 (posting_blocks (add_all w0 adds)))) < 2 ^ 32;
}.

Section Filled.
Context (w0 : SfxPostWriterV2) (n : Z) (adds : list (Z * entry)).
Hypothesis fresh : fresh_writer w0 n.
Hypothesis ok : adds_ok w0 n adds.

Lemma filled_lookup (o : nat) :
  Z.of_nat o < n → pw_ordinals (add_all w0 adds) !! o = Some (added (pw_spans w0) (Z.of_nat o) adds).
Proof using fresh ok.
  intros Ho. rewrite (add_all_lookup w0 adds o []); [done| |by apply (fresh_lookup w0 n)].
  eapply Forall_impl; [apply (ao_fits _ _ _ ok)|]. by intros a [].
Qed.

Lemma filled_num : #(pw_ordinals (add_all w0 adds)) = n.
Proof using fresh ok.
  destruct (add_all_flags w0 adds) as (_ & _ & Hl). pose proof (fresh_length w0 n fresh) as Hn.
  pose proof (ao_num _ _ _ ok). unfold len in *. lia.
Qed.

Lemma filled_ok : posts_ok (add_all w0 adds).
Proof using fresh ok.
  pose proof filled_num as Hn. pose proof (ao_num _ _ _ ok) as Hnum.
  destruct (add_all_flags w0 adds) as (Hs & _ & _).
  assert (∀ P : list entry → Prop, (∀ o, P (added (pw_spans w0) o adds)) →
    Forall P (pw_ordinals (add_all w0 adds))) as Hall.
  { intros P HP. apply Forall_lookup. intros o es Ho. apply lookup_lt_Some in Ho as Hlt.
    rewrite filled_lookup in Ho by (unfold len in *; lia). simplify_eq. apply HP. }
  split.
  - lia.
  - apply Hall. intros o. apply Forall_forall. intros e (a & -> & Hin)%list_elem_of_fmap.
    apply list_elem_of_In, filter_In in Hin as [Hin _]. apply list_elem_of_In in Hin.
    pose proof (ao_fits _ _ _ ok) as Hf. rewrite Forall_forall in Hf. apply Hf in Hin as [_ Hin].
    destruct a as [x [[[d ti] bf] bt]]. simpl in *. destruct (pw_spans w0); [done|].
    destruct Hin as (H1 & H2 & _ & _). repeat split; unfold fits in *; lia.
  - apply Hall. intros o. unfold added. rewrite len_map.
    pose proof (len_filter_le (λ a : Z * entry, fst a =? o) adds). pose proof (ao_count _ _ _ ok). lia.
  - intros E. rewrite Hs in E. apply Hall. intros o. apply Forall_forall.
    intros e (a & -> & _)%list_elem_of_fmap. rewrite E. by destruct a as [x [[[d ti] bf] bt]].
  - apply (ao_data _ _ _ ok).
  - apply (ao_table _ _ _ ok).
Qed.
End Filled.

(** ** Properties *)

(** C5. The posting file gives back what was added.  A fresh writer of
    positions ([SFP4] with spans, [SFP5] without) filled by any sequence of
    [add_entry] calls finishes without tripping its assertion, and the file
    opens; every ordinal of the file then lists its entries in the order of
    (document, position, span), whatever order they came in: through
    [for_each_entry], through [entries] and by position alone, with the
    documents and their frequencies; an ordinal past the file lists none. *)
Theorem postings_roundtrip (w0 : SfxPostWriterV2) (n : Z) (adds : list (Z * entry)) :
  w0 = new n ∨ w0 = positions_only n → adds_ok w0 n adds →
  ∃ bytes r, finish (add_all w0 adds) = Ret bytes ∧ open bytes = Ret r ∧
    has_positions r = true ∧ has_byte_spans r = pw_spans w0 ∧
    (∀ o, 0 ≤ o < n →
       let es := sort_by entry_key (added (pw_spans w0) o adds) in
       for_each_entry r o = Ret es ∧
       entries_filtered (F := HashSet) r o None = Ret (map posting_of es) ∧
       positions_filtered (F := HashSet) r o None = Ret (map (λ e, (entry_doc e, entry_ti e)) es) ∧
       for_each_doc r o = Ret (doc_counts entry_doc es) ∧
       doc_freq r o = Ret #(doc_counts entry_doc es)) ∧
    (∀ o, n ≤ o → for_each_entry r o = Ret [] ∧ doc_freq r o = Ret 0).
Proof.
  intros Hw Hok. assert (fresh_writer w0 n) as Hf by (unfold fresh_writer; tauto).
  pose proof (filled_ok w0 n adds Hf Hok) as Hposts. set (w := add_all w0 adds) in *.
  destruct (add_all_flags w0 adds) as (Hs & Hd & _). fold w in Hs, Hd.
  assert (pw_docs_only w = false) as Hdo by (rewrite Hd; by destruct Hw as [->| ->]).
  pose proof (filled_num w0 n adds Hf Hok) as Hn. fold w in Hn.
  exists (posting_file w), (posting_reader w None).
  split; [by apply finish_spec|]. split; [by apply open_posting_file|].
  split; [unfold has_positions; cbn [posting_reader sp_docs_only]; by rewrite Hdo|].
  split; [unfold has_byte_spans; cbn [posting_reader sp_spans]; by rewrite Hdo|]. split.
  - intros o Ho es. rewrite <- (Z2Nat.id o) by lia. set (k := Z.to_nat o) in *.
    assert (pw_ordinals w !! k = Some (added (pw_spans w0) o adds)) as Hk.
    { unfold w. rewrite (filled_lookup w0 n adds Hf Hok) by lia. unfold k. by rewrite Z2Nat.id by lia. }
    pose proof (header_of_local w k _ Hposts Hdo Hk) as Hh.
    pose proof (posting_block_ok w Hposts k _ Hdo Hk) as Hb.
    pose proof (po_count _ Hposts) as Hc. rewrite Forall_lookup in Hc. specialize (Hc _ _ Hk).
    split; [by eapply read_for_each_entry|]. split; [by eapply read_entries|].
    split; [by eapply (read_positions_filtered _ _ _ _ Hh Hb None)|].
    split; [by eapply read_for_each_doc|by eapply read_doc_freq].
  - intros o Ho. assert (header_of (posting_reader w None) o = Ret None) as Hh.
    { eapply posting_header_none; [apply local_plain|]. simpl. lia. }
    unfold for_each_entry, doc_freq. by rewrite Hh.
Qed.

Definition sample_adds : list (Z * entry) :=
  [(0, (7, 4, 30, 35)); (1, (2, 0, 0, 3)); (0, (7, 1, 5, 9)); (0, (2, 3, 11, 12)); (3, (0, 0, 0, 0))].

Lemma sample_adds_ok : adds_ok (new 2) 2 sample_adds.
Proof.
  split; [by vm_compute| |by vm_compute|by vm_compute|by vm_compute].
  by apply (bool_decide_unpack _).
Qed.

Lemma postings_roundtrip_witness :
  ∃ bytes r, finish (add_all (new 2) sample_adds) = Ret bytes ∧ open bytes = Ret r ∧
    for_each_entry r 0 = Ret [(2, 3, 11, 12); (7, 1, 5, 9); (7, 4, 30, 35)] ∧
    for_each_doc r 0 = Ret [(2, 1); (7, 2)] ∧ for_each_entry r 3 = Ret [].
Proof.
  destruct (postings_roundtrip (new 2) 2 sample_adds (or_introl eq_refl) sample_adds_ok)
    as (bytes & r & Hf & Ho & _ & _ & Hin & Hout).
  exists bytes, r. split; [done|]. split; [done|].
  destruct (Hin 0 ltac:(lia)) as (H1 & _ & _ & H2 & _). split; [exact H1|].
  split; [exact H2|]. apply Hout. lia.
Defined.

(** C6. A filtered read is the whole list restricted to the filter, in the
    same order: for any document filter that honours [DocFilter]'s contract,
    [entries_filtered] and [positions_filtered] hand back exactly the entries
    whose document the filter contains, whether the filter was probed document
    by document through the checkpoints or every header was scanned. *)
Theorem postings_filtered {F} `{DocFilterLaws F} (w : SfxPostWriterV2) (f : F) :
  posts_ok w → pw_docs_only w = false →
  ∃ bytes r, finish w = Ret bytes ∧ open bytes = Ret r ∧
    ∀ (o : nat) es, pw_ordinals w !! o = Some es →
      let hits := List.filter (λ e, contains f (entry_doc e)) (sort_by entry_key es) in
      entries_filtered r (Z.of_nat o) (Some f) = Ret (map posting_of hits) ∧
      positions_filtered r (Z.of_nat o) (Some f) =
        Ret (map (λ e, (entry_doc e, entry_ti e)) hits).
Proof.
  intros Hok Hdo. exists (posting_file w), (posting_reader w None).
  split; [by apply finish_spec|]. split; [by apply open_posting_file|].
  intros o es Ho hits. pose proof (header_of_local w o es Hok Hdo Ho) as Hh.
  pose proof (posting_block_ok w Hok o es Hdo Ho) as Hb.
  split; [by eapply read_entries_filtered|by eapply (read_positions_filtered _ _ _ _ Hh Hb (Some f))].
Qed.

Definition sample_posts : SfxPostWriterV2 := add_all (new 2) sample_adds.

Lemma sample_docs_nodup : NoDup [9; 7].
Proof. by apply (bool_decide_unpack _). Qed.
Definition sample_filter : HashSet := {| hs_docs := [9; 7]; hs_nodup := sample_docs_nodup |}.

Lemma sample_posts_ok : posts_ok sample_posts.
Proof. apply (filled_ok (new 2) 2); [by left|apply sample_adds_ok]. Qed.

Lemma postings_filtered_witness :
  ∃ bytes r, finish sample_posts = Ret bytes ∧ open bytes = Ret r ∧
    positions_filtered r 0 (Some sample_filter) = Ret [(7, 1); (7, 4)].
Proof.
  destruct (postings_filtered sample_posts sample_filter sample_posts_ok eq_refl)
    as (bytes & r & Hf & Ho & Hr).
  exists bytes, r. split; [done|]. split; [done|]. destruct (Hr 0%nat _ eq_refl) as [_ Hp]. exact Hp.
Defined.

(** The point lookups of a posting file agree with its list: [has_doc] is
    whether the document occurs, [entries_for_doc] and [positions_for_doc]
    are the document's entries in position order, [has_position] is whether
    the position occurs in the document, and [entry_at] is the span of the
    first entry there.  The search over the checkpoints finds every document,
    and the scan that stops at the first larger position misses none. *)
Theorem postings_lookup (w : SfxPostWriterV2) :
  posts_ok w → pw_docs_only w = false →
  ∃ bytes r, finish w = Ret bytes ∧ open bytes = Ret r ∧
    ∀ (o : nat) es d p, pw_ordinals w !! o = Some es →
      let doc_es := List.filter (λ e, entry_doc e =? d) (sort_by entry_key es) in
      has_doc r (Z.of_nat o) d = Ret (existsb (λ e, entry_doc e =? d) es) ∧
      entries_for_doc r (Z.of_nat o) d = Ret (map posting_of doc_es) ∧
      positions_for_doc r (Z.of_nat o) d = Ret (map entry_ti doc_es) ∧
      has_position r (Z.of_nat o) d p = Ret (existsb (at_position d p) es) ∧
      entry_at r (Z.of_nat o) d p =
        of_option (entry_span <$> List.find (at_position d p) (sort_by entry_key es)).
Proof.
  intros Hok Hdo. exists (posting_file w), (posting_reader w None).
  split; [by apply finish_spec|]. split; [by apply open_posting_file|].
  intros o es d p Ho doc_es. pose proof (header_of_local w o es Hok Hdo Ho) as Hh.
  pose proof (posting_block_ok w Hok o es Hdo Ho) as Hb.
  split; [by eapply read_has_doc|]. split; [by eapply read_entries_for_doc|].
  split; [by eapply read_positions_for_doc|]. split; [by eapply read_has_position|].
  by eapply read_entry_at.
Qed.

Lemma postings_lookup_witness :
  ∃ bytes r, finish sample_posts = Ret bytes ∧ open bytes = Ret r ∧
    has_doc r 0 7 = Ret true ∧ has_doc r 0 3 = Ret false ∧
    entry_at r 0 7 4 = Ret (30, 35) ∧ entry_at r 0 7 2 = Nothing.
Proof.
  destruct (postings_lookup sample_posts sample_posts_ok eq_refl) as (bytes & r & Hf & Ho & Hr).
  exists bytes, r. split; [done|]. split; [done|].
  destruct (Hr 0%nat _ 7 4 eq_refl) as (H1 & _ & _ & _ & H2).
  destruct (Hr 0%nat _ 3 0 eq_refl) as (H3 & _).
  destruct (Hr 0%nat _ 7 2 eq_refl) as (_ & _ & _ & _ & H4).
  split; [exact H1|]. split; [exact H3|]. split; [exact H2|exact H4].
Defined.

(** A file without positions ([SFP6]) answers for documents and
    frequencies alone: [for_each_doc] lists each document with the number of
    entries added for it, [has_doc] and [doc_freq] agree with that list, and
    the accessors of entries and positions find nothing. *)
Theorem postings_docs_only (w : SfxPostWriterV2) :
  posts_ok w → pw_docs_only w = true →
  ∃ bytes r, finish w = Ret bytes ∧ open bytes = Ret r ∧ has_positions r = false ∧
    ∀ (o : nat) es d, pw_ordinals w !! o = Some es →
      let docs := doc_counts entry_doc (sort_by entry_key es) in
      for_each_doc r (Z.of_nat o) = Ret docs ∧
      doc_freq r (Z.of_nat o) = Ret #docs ∧
      has_doc r (Z.of_nat o) d = Ret (existsb (λ e, entry_doc e =? d) es) ∧
      for_each_entry r (Z.of_nat o) = Ret [] ∧
      positions_filtered (F := HashSet) r (Z.of_nat o) None = Ret [].
Proof.
  intros Hok Hdo. exists (posting_file w), (posting_reader w None).
  split; [by apply finish_spec|]. split; [by apply open_posting_file|].
  split; [unfold has_positions; cbn [posting_reader sp_docs_only]; by rewrite Hdo|].
  intros o es d Ho docs. pose proof (posting_header_of w Hok None (Z.of_nat o) o es eq_refl Ho) as Hh.
  rewrite Hdo in Hh. pose proof (runs_counts_fit w Hok o es Ho) as Hp.
  pose proof (po_count _ Hok) as Hc. rewrite Forall_lookup in Hc. specialize (Hc _ _ Ho).
  split; [by eapply docs_for_each_doc|]. split; [by eapply docs_doc_freq|].
  split; [by eapply docs_has_doc|]. split; [by eapply docs_no_entries|]. by eapply docs_no_positions.
Qed.

Lemma sample_docs_only_ok : adds_ok (docs_only 2) 2 sample_adds.
Proof.
  split; [by vm_compute| |by vm_compute|by vm_compute|by vm_compute].
  by apply (bool_decide_unpack _).
Qed.

Lemma postings_docs_only_witness :
  ∃ bytes r, finish (add_all (docs_only 2) sample_adds) = Ret bytes ∧ open bytes = Ret r ∧
    for_each_doc r 0 = Ret [(2, 1); (7, 2)] ∧ has_doc r 0 3 = Ret false ∧ for_each_entry r 0 = Ret [].
Proof.
  destruct (postings_docs_only (add_all (docs_only 2) sample_adds)
    (filled_ok (docs_only 2) 2 sample_adds (or_intror (or_intror eq_refl)) sample_docs_only_ok) eq_refl)
    as (bytes & r & Hf & Ho & _ & Hr).
  exists bytes, r. split; [done|]. split; [done|].
  destruct (Hr 0%nat _ 3 eq_refl) as (H1 & _ & H2 & H3 & _).
  split; [exact H1|]. split; [exact H2|exact H3].
Defined.

(** Global ids: over a reader given the map [gmap::encode] wrote for the
    segment's ids, every accessor asked for a global id answers what it answers for the local
    ordinal the map gives it, and an id the segment does not have has no
    entry and no document. *)
Theorem postings_global_ids (w : SfxPostWriterV2) (ids : list Z) :
  posts_ok w → ids_ok ids →
  let gb := gmap.encode ids None in
  ∃ bytes r, finish w = Ret bytes ∧ open bytes = Ret r ∧
    (∀ (o : nat) id es d p, ids !! o = Some id → pw_ordinals w !! o = Some es →
       for_each_entry (with_gmap r gb) id = for_each_entry r (Z.of_nat o) ∧
       for_each_doc (with_gmap r gb) id = for_each_doc r (Z.of_nat o) ∧
       has_doc (with_gmap r gb) id d = has_doc r (Z.of_nat o) d ∧
       entry_at (with_gmap r gb) id d p = entry_at r (Z.of_nat o) d p) ∧
    (∀ id d p, id ∉ ids →
       for_each_entry (with_gmap r gb) id = Ret [] ∧ for_each_doc (with_gmap r gb) id = Ret [] ∧
       has_doc (with_gmap r gb) id d = Ret false ∧ entry_at (with_gmap r gb) id d p = Nothing).
Proof.
  intros Hok Hids gb. exists (posting_file w), (posting_reader w None).
  destruct (open_encode ids None [] Hids) as (g & Hg & Hover & _); [done|].
  rewrite app_nil_r in Hg. fold gb in Hg.
  split; [by apply finish_spec|]. split; [by apply open_posting_file|].
  change (with_gmap (posting_reader w None) gb) with (posting_reader w (Some gb)). split.
  - intros o id es d p Hid Ho.
    pose proof (posting_header_of w Hok (Some gb) id o es
      (local_gmap w gb g ids o id Hg Hover Hids Hid) Ho) as Hh.
    rewrite <- (posting_header_of w Hok None (Z.of_nat o) o es eq_refl Ho) in Hh.
    unfold for_each_entry, for_each_doc, has_doc, entry_at. by rewrite Hh.
  - intros id d p Hid.
    pose proof (posting_header_none w (Some gb) id None
      (local_gmap_unknown w gb g ids id Hg Hover Hids Hid) I) as Hh.
    unfold for_each_entry, for_each_doc, has_doc, entry_at. by rewrite Hh.
Qed.

Lemma postings_global_ids_witness :
  ∃ bytes r, finish sample_posts = Ret bytes ∧ open bytes = Ret r ∧
    for_each_doc (with_gmap r (gmap.encode sample_ids None)) 1 = for_each_doc r 0 ∧
    for_each_doc (with_gmap r (gmap.encode sample_ids None)) 2 = Ret [].
Proof.
  destruct (postings_global_ids sample_posts sample_ids sample_posts_ok sample_ids_ok)
    as (bytes & r & Hf & Ho & Hin & Hout).
  exists bytes, r. split; [done|]. split; [done|].
  destruct (Hin 0%nat 1 _ 0 0 eq_refl eq_refl) as (_ & H1 & _).
  destruct (Hout 2 0 0) as (_ & H2 & _); [by apply (bool_decide_unpack _)|]. exact (conj H1 H2).
Defined.
