(* ===== verification/SfxPostTotal.v ===== *)
(** * Posting readers over files that may be corrupt

    Nothing here assumes that [finish] wrote the file: the bounds the readers
    of [sfxpost_v2.rs] check are enough for every lookup to return. *)
From S2P Require Import Prelude Varint OffsetTables Gmap Ordering Runs DocFilter SfxPost SfxPostBlock SfxPostRead SfxPostFile.
Import varint block_offsets sfxpost.

(** A call that comes to a value: it neither panics nor gives up. *)
Definition answers {A} (m : out A) : Prop := ∃ a, m = Ret a.

(** A header that comes out of a file, well-formed or not: the fixed-width
    arrays have the length the count calls for. *)
Definition header_sane (h : OrdinalHeader) : Prop :=
  0 ≤ oh_num_docs h ∧
  match oh_layout h with
  | V2 d p c => #d = 4 * oh_num_docs h ∧ #p = 4 * oh_num_docs h ∧ #c = 2 * oh_num_docs h ∧ bytes_ok p ∧ bytes_ok c
  | V3 cps _ => #cps = checkpoints_for (oh_num_docs h) * CHECKPOINT_SIZE ∧ bytes_ok cps
  | Docs _ => True
  end.

Lemma next_header_returns hdrs pos : returns (next_header hdrs pos).
Proof.
  unfold next_header. destruct (read_varint_u32_step hdrs pos) as [->|(a & p & -> & _)]; [done|].
  rewrite bind_ret. destruct (read_varint_u32_step hdrs p) as [->|(b & p' & -> & _)]; [done|].
  rewrite bind_ret. by destruct (read_varint_u32_step hdrs p') as [->|(c & p'' & -> & _)].
Qed.

Lemma next_doc_pair_returns hdrs pos : returns (next_doc_pair hdrs pos).
Proof.
  unfold next_doc_pair. destruct (read_varint_u32_step hdrs pos) as [->|(a & p & -> & _)]; [done|].
  rewrite bind_ret. by destruct (read_varint_u32_step hdrs p) as [->|(b & p' & -> & _)].
Qed.

(** A call whose [None] the caller handles has a value. *)
Lemma catch_returns {A} (m : out A) : returns m → ∃ o, catch m = Ret o.
Proof. destruct m; simpl; intros; try done; eauto. Qed.

Lemma checkpoints_for_mono i k : 0 ≤ i < k → i / CHECKPOINT_EVERY ≤ checkpoints_for k.
Proof.
  intros Hi. unfold checkpoints_for, CHECKPOINT_EVERY. replace (k =? 0) with false by lia.
  apply Z.div_le_mono; lia.
Qed.

Lemma checkpoints_for_nonneg k : 0 ≤ k → 0 ≤ checkpoints_for k.
Proof.
  intros Hk. unfold checkpoints_for, CHECKPOINT_EVERY. destruct (k =? 0) eqn:E; [done|].
  apply Z.div_pos; lia.
Qed.

Lemma checkpoint_at_returns cps k c :
  bytes_ok cps → #cps = c * CHECKPOINT_SIZE → 0 ≤ k ≤ c →
  ∃ a b d, checkpoint_at cps k = Ret (a, b, d) ∧ 0 ≤ b.
Proof.
  intros Hb Hl Hk. unfold checkpoint_at, CHECKPOINT_SIZE in *.
  destruct (k =? 0) eqn:E; [exists 0, 0, 0; split; [done|lia]|].
  destruct (u32_at_ok cps ((k - 1) * 12)) as (a & -> & _); [done|lia..|]. rewrite bind_ret.
  destruct (u32_at_ok cps ((k - 1) * 12 + 4)) as (b & -> & [Hb0 _]); [done|lia..|]. rewrite bind_ret.
  destruct (u32_at_ok cps ((k - 1) * 12 + 8)) as (d & -> & _); [done|lia..|]. eauto.
Qed.

Lemma add32_nonneg a b : 0 ≤ add32 a b.
Proof. apply (add32_fits a b). Qed.
#[local] Hint Resolve add32_nonneg : core.

(** Each loop of the reader ends in a value, and the payload offsets it hands
    on are not negative. *)
Lemma doc_at_loop_returns js i hdrs doc off pos c :
  0 ≤ off → ∃ a b d, doc_at_loop js i hdrs doc off pos c = Ret (a, b, d) ∧ 0 ≤ b.
Proof.
  revert doc off pos c. induction js as [|j js IH]; intros doc off pos c Hoff; simpl; [eauto|].
  destruct (catch_returns _ (next_header_returns hdrs pos)) as [o ->]. rewrite bind_ret.
  destruct o as [[[[d l] m] p]|]; [|eauto]. destruct (j =? i); eauto.
Qed.

Definition visits_sane (vs : list (Z * Z * Z * Z)) (lo hi : Z) : Prop :=
  Forall (λ v, let '(i, _, off, _) := v in lo ≤ i < hi ∧ 0 ≤ off) vs.

Lemma for_each_header_returns lo hi is_ hdrs doc off pos :
  Forall (λ i, lo ≤ i < hi) is_ → 0 ≤ off →
  ∃ vs, for_each_header is_ hdrs doc off pos = Ret vs ∧ visits_sane vs lo hi.
Proof.
  intros Hi. revert doc off pos. induction Hi as [|i is_ Hi _ IH]; intros doc off pos Hoff; simpl.
  { exists []. split; [done|constructor]. }
  destruct (catch_returns _ (next_header_returns hdrs pos)) as [o ->]. rewrite bind_ret.
  destruct o as [[[[d l] m] p]|]; [|exists []; split; [done|constructor]].
  destruct (IH (add32 doc d) (add32 off l) p) as (vs & -> & Hvs); [done|].
  eexists. split; [done|]. by constructor.
Qed.

Lemma for_each_pair_returns lo hi is_ pairs doc pos :
  Forall (λ i, lo ≤ i < hi) is_ →
  ∃ vs, for_each_pair is_ pairs doc pos = Ret vs ∧ visits_sane vs lo hi.
Proof.
  intros Hi. revert doc pos. induction Hi as [|i is_ Hi _ IH]; intros doc pos; simpl.
  { exists []. split; [done|constructor]. }
  destruct (catch_returns _ (next_doc_pair_returns pairs pos)) as [o ->]. rewrite bind_ret.
  destruct o as [[[d m] p]|]; [|exists []; split; [done|constructor]].
  destruct (IH (add32 doc d) p) as (vs & -> & Hvs).
  eexists. split; [done|]. by constructor.
Qed.

Lemma range_within lo hi : Forall (λ i, lo ≤ i < hi) (range lo hi).
Proof. apply Forall_forall. intros i. apply elem_of_range. Qed.

Lemma decode_vint_loop_le fuel data i shift acc :
  let '(_, n) := decode_vint_loop fuel data i shift acc in i ≤ n ≤ i + #data.
Proof.
  revert data i shift acc. induction fuel as [|fuel IH]; intros data i shift acc; simpl.
  { pose proof (len_nonneg data). lia. }
  destruct data as [|b data]; [rewrite len_nil; lia|]. rewrite len_cons. pose proof (len_nonneg data).
  destruct (_ =? 0); [lia|]. specialize (IH data (i + 1) (shift + 7)
    (Z.lor acc (as_u32 (Z.shiftl (Z.land b 127) shift)))).
  destruct (decode_vint_loop _ _ _ _ _) as [v n]. lia.
Qed.

(** One field decoded, somewhere in the data. *)
Lemma decode_step data pos :
  0 ≤ pos ≤ #data → ∃ d, slice_from data pos = Ret d ∧
    let '(_, n) := decode_vint d in 0 ≤ pos + n ≤ #data.
Proof.
  intros Hp. unfold slice_from. rewrite slice_ret by lia. eexists. split; [done|].
  match goal with |- context [decode_vint ?d] => pose proof (decode_vint_loop_le 5 d 0 0 0) as H end.
  unfold decode_vint. destruct (decode_vint_loop _ _ _ _ _) as [v n].
  rewrite len_take, len_drop in H. lia.
Qed.

Lemma walk_positions_returns {S} count data pos pt (f : S → Z → Z → Z → S * bool) s :
  0 ≤ pos ≤ #data → ∃ s', walk_positions count data pos pt f s = Ret s'.
Proof.
  revert pos pt s. induction count as [|count IH]; intros pos pt s Hp; simpl; [eauto|].
  destruct (#data <=? pos); [eauto|]. destruct (decode_step data pos Hp) as (d & -> & Hn).
  rewrite bind_ret. destruct (decode_vint d) as [a n].
  destruct (f s (add32 pt a) 0 0) as [s' [|]]; [by apply IH|eauto].
Qed.

Lemma walk_spans_returns {S} v3 count data pos pt pb (f : S → Z → Z → Z → S * bool) s :
  0 ≤ pos ≤ #data → ∃ s', walk_spans v3 count data pos pt pb f s = Ret s'.
Proof.
  revert pos pt pb s. induction count as [|count IH]; intros pos pt pb s Hp; simpl; [eauto|].
  destruct (#data <=? pos); [eauto|]. destruct (decode_step data pos Hp) as (d & -> & Hn).
  rewrite bind_ret. destruct (decode_vint d) as [a n]. clear Hp.
  destruct (#data <=? pos + n); [eauto|]. destruct (decode_step data (pos + n) Hn) as (d' & -> & Hn').
  rewrite bind_ret. destruct (decode_vint d') as [b n']. clear Hn.
  destruct (#data <? pos + n + n') eqn:E; [eauto|].
  destruct (decode_step data (pos + n + n')) as (d'' & -> & Hn''); [lia|].
  rewrite bind_ret. destruct (decode_vint d'') as [c n''].
  destruct v3; destruct (f _ _ _ _) as [s' [|]]; eauto.
Qed.

Lemma walk_payload_returns {S} h off cnt (f : S → Z → Z → Z → S * bool) s :
  0 ≤ off → ∃ s', walk_payload h off cnt f s = Ret s'.
Proof.
  intros Ho. unfold walk_payload. pose proof (len_nonneg (oh_payload_data h)).
  unfold slice_from. rewrite slice_ret, bind_ret by lia.
  destruct (negb (oh_spans h)).
  - apply walk_positions_returns. split; [done|apply len_nonneg].
  - apply walk_spans_returns. split; [done|apply len_nonneg].
Qed.

Lemma find_in_run_returns is_ hdrs doc_id doc off pos :
  0 ≤ off → opens (λ t, t.1.1 ∈ is_ ∧ 0 ≤ t.1.2) (find_in_run is_ hdrs doc_id doc off pos).
Proof.
  revert doc off pos. induction is_ as [|i is_ IH]; intros doc off pos Hoff; simpl; [done|].
  pose proof (next_header_returns hdrs pos) as Hr.
  destruct (next_header hdrs pos) as [[[[d l] m] p]| | |]; try done. rewrite bind_ret.
  destruct (_ <? _).
  - specialize (IH (add32 doc d) (add32 off l) p (add32_nonneg _ _)).
    destruct (find_in_run _ _ _ _ _ _) as [t| | |]; simpl in *; try done. set_solver.
  - destruct (_ =? _); [|done]. simpl. set_solver.
Qed.

Lemma find_in_pairs_returns is_ pairs doc_id doc pos :
  opens (λ t, t.1.1 ∈ is_ ∧ 0 ≤ t.1.2) (find_in_pairs is_ pairs doc_id doc pos).
Proof.
  revert doc pos. induction is_ as [|i is_ IH]; intros doc pos; simpl; [done|].
  pose proof (next_doc_pair_returns pairs pos) as Hr.
  destruct (next_doc_pair pairs pos) as [[[d m] p]| | |]; try done. rewrite bind_ret.
  destruct (_ <? _).
  - specialize (IH (add32 doc d) p).
    destruct (find_in_pairs _ _ _ _ _) as [t| | |]; simpl in *; try done. set_solver.
  - destruct (_ =? _); [|done]. simpl. set_solver.
Qed.

(** ** A header *)

Section Header.
Context (h : OrdinalHeader).
Hypothesis sane : header_sane h.

Lemma doc_at_returns i :
  0 ≤ i < oh_num_docs h → ∃ a b d, doc_at h i = Ret (a, b, d) ∧ 0 ≤ b ∧ (match oh_layout h with V2 _ _ _ => d ≤ u32_max | _ => True end).
Proof using sane.
  intros Hi. destruct sane as [Hn Hl]. unfold doc_at. destruct (oh_layout h) as [ds ps cs|cps hdrs|pairs].
  - destruct Hl as (H1 & H2 & H3 & Hb & Hc).
    destruct (le_at_returns 4 ds (i * 4)) as [a Ha]; [lia..|].
    destruct (u32_at_ok ps (i * 4)) as (b & Hb' & [Hb0 _]); [done|lia..|].
    destruct (u16_at_ok cs (i * 2)) as (c & Hc' & [_ Hc1]); [done|lia..|].
    unfold u32_at in *. rewrite Ha, bind_ret, Hb', bind_ret, Hc', bind_ret. do 3 eexists. split; [done|]. split; [done|]. unfold u32_max. lia.
  - destruct Hl as [Hl Hb].
    assert (0 ≤ i / CHECKPOINT_EVERY ≤ checkpoints_for (oh_num_docs h)) as Hk.
    { split; [apply Z.div_pos; [lia|by vm_compute]|by apply checkpoints_for_mono]. }
    destruct (checkpoint_at_returns cps _ _ Hb Hl Hk) as (a & b & d & -> & Hb0).
    rewrite bind_ret. destruct (doc_at_loop_returns (range (i / CHECKPOINT_EVERY * CHECKPOINT_EVERY) (i + 1)) i hdrs a b d 0 Hb0) as (x & y & z & -> & Hy). eauto 10.
  - destruct (docs_at_loop_returns (range 0 (i + 1)) pairs 0 0 0) as (a & b & ->). eauto 10 using Z.le_refl.
Qed.

Lemma for_each_doc_returns :
  ∃ vs, header_for_each_doc h = Ret vs ∧ visits_sane vs 0 (oh_num_docs h).
Proof using sane.
  unfold header_for_each_doc. pose proof doc_at_returns as Hd. destruct (oh_layout h) as [ds ps cs|cps hdrs|pairs].
  - pose proof (range_within 0 (oh_num_docs h)) as Hr.
    induction Hr as [|i l Hi _ IH]; [exists []; split; [done|constructor]|]. cbn [mapM_out].
    destruct (Hd i Hi) as (a & b & d & -> & Hb & _). rewrite !bind_ret.
    destruct IH as (vs & -> & Hvs). rewrite bind_ret. eexists. split; [done|]. by constructor.
  - apply for_each_header_returns; [apply range_within|done].
  - apply for_each_pair_returns, range_within.
Qed.

(** A search ends, in a document of the header when it finds one. *)
Lemma find_doc_full_returns doc_id :
  opens (λ t, 0 ≤ t.1.1 < oh_num_docs h ∧ 0 ≤ t.1.2 ∧ t.2 ≤ u32_max) (find_doc_full h doc_id).
Proof using sane.
  pose proof doc_at_returns as Hd. pose proof (λ i off c, find_counts h doc_id i off c) as Hcnt. destruct sane as [Hn Hl]. unfold find_doc_full in *.
  destruct (oh_layout h) as [ds ps cs|cps hdrs|pairs].
  - destruct (bisect_total (λ mid, '(d, _, _) ← doc_at h mid; Ret (d <? doc_id)) 0 (oh_num_docs h))
      as (r & Hr & Hrange); [|done|].
    { intros i Hi. destruct (Hd i Hi) as (a & b & d & -> & _). eexists. done. }
    rewrite Hr, bind_ret. destruct (r <? oh_num_docs h) eqn:E; [|done].
    destruct (Hd r ltac:(lia)) as (a & b & d & -> & Hb & Hcount). rewrite bind_ret.
    destruct (a =? doc_id); [|done]. simpl. lia.
  - destruct Hl as [Hl Hb]. pose proof (checkpoints_for_nonneg _ Hn) as Hc.
    destruct (bisect_last_total (λ mid, cp_doc ← u32_at cps ((mid - 1) * CHECKPOINT_SIZE);
      Ret (cp_doc <? doc_id)) 0 (checkpoints_for (oh_num_docs h))) as (r & Hr & Hrange); [|done|].
    { intros i Hi. unfold CHECKPOINT_SIZE in *.
      destruct (u32_at_ok cps ((i - 1) * 12)) as (v & -> & _); [done|lia..|]. eexists. done. }
    rewrite Hr, bind_ret in *.
    destruct (checkpoint_at_returns cps r _ Hb Hl Hrange) as (a & b & d & Ecp & Hb0). rewrite Ecp, bind_ret in *.
    pose proof (find_in_run_returns (range (r * CHECKPOINT_EVERY)
      (Z.min (r * CHECKPOINT_EVERY + CHECKPOINT_EVERY) (oh_num_docs h))) hdrs doc_id a b d Hb0) as Hf.
    destruct (find_in_run _ _ _ _ _ _) as [[[x y] z]| | |]; simpl in *; try done. destruct Hf as [Hin H0].
    apply elem_of_range in Hin. specialize (Hcnt x y z I eq_refl). unfold CHECKPOINT_EVERY in *. lia.
  - pose proof (find_in_pairs_returns (range 0 (oh_num_docs h)) pairs doc_id 0 0) as Hf.
    destruct (find_in_pairs _ _ _ _ _) as [[[x y] z]| | |]; simpl in *; try done.
    rewrite elem_of_range in Hf. specialize (Hcnt x y z I eq_refl). lia.
Qed.

Lemma find_doc_returns doc_id : opens (λ i, 0 ≤ i < oh_num_docs h) (find_doc h doc_id).
Proof using sane.
  unfold find_doc. pose proof (find_doc_full_returns doc_id) as H.
  destruct (find_doc_full h doc_id) as [[[i o] c]| | |]; simpl in *; try done. lia.
Qed.

Lemma collect_returns {B} (push : Z → list B → Z → Z → Z → list B * bool) vs acc lo hi :
  visits_sane vs lo hi →
  ∃ l, foldM (λ result v, let '(_, doc_id, offset, count) := (v : Z * Z * Z * Z) in
    walk_payload h offset count (push doc_id) result) acc vs = Ret l.
Proof using.
  intros Hv. revert acc. induction Hv as [|[[[i d] o] c] vs [_ Ho] _ IH]; intros acc; simpl; [eauto|].
  destruct (walk_payload_returns h o c (push d) acc Ho) as [s ->]. rewrite bind_ret. apply IH.
Qed.

Lemma filtered_indices_returns {F} `{DocFilter F} (f : F) :
  ∃ idx, filtered_indices h f = Ret idx ∧ Forall (λ i, 0 ≤ i < oh_num_docs h) idx.
Proof using sane.
  unfold filtered_indices. destruct (_ && _).
  - assert (∃ os, mapM_out (λ d, catch (find_doc h d)) (for_each f) = Ret os ∧
      Forall (λ i, 0 ≤ i < oh_num_docs h) (omap id os)) as (os & -> & Hos).
    { generalize (for_each f) as ds. induction ds as [|d ds IH].
      - exists []. split; [done|constructor].
      - cbn [mapM_out]. pose proof (find_doc_returns d) as Hd. destruct IH as (os & Hos & Hall).
        destruct (find_doc h d) as [i| | |]; try done; cbn [catch]; rewrite bind_ret, Hos, bind_ret.
        + exists (Some i :: os). split; [done|]. by constructor.
        + exists (None :: os). done. }
    rewrite bind_ret. eexists. split; [done|]. apply Forall_forall. intros i Hi.
    apply elem_of_sort_by in Hi. rewrite Forall_forall in Hos. by apply Hos.
  - destruct for_each_doc_returns as (vs & -> & Hvs). rewrite bind_ret. eexists. split; [done|].
    apply Forall_forall. intros i (v & -> & Hv)%list_elem_of_fmap.
    apply list_elem_of_In, filter_In in Hv as [Hv _]. apply list_elem_of_In in Hv.
    unfold visits_sane in Hvs. rewrite Forall_forall in Hvs. specialize (Hvs v Hv).
    destruct v as [[[i d] o] c]. tauto.
Qed.

Lemma collect_indices_returns {B} (push : Z → list B → Z → Z → Z → list B * bool) idx acc :
  Forall (λ i, 0 ≤ i < oh_num_docs h) idx →
  ∃ l, foldM (λ result i, '(doc_id, offset, count) ← doc_at h i;
    walk_payload h offset count (push doc_id) result) acc idx = Ret l.
Proof using sane.
  intros Hv. revert acc. induction Hv as [|i idx Hi _ IH]; intros acc; simpl; [eauto|].
  destruct (doc_at_returns i Hi) as (a & b & d & -> & Hb & _). rewrite bind_ret.
  destruct (walk_payload_returns h b d (push a) acc Hb) as [s ->]. rewrite bind_ret. apply IH.
Qed.

(** The accessors that find one document, reserve room for its entries and
    walk them. *)
Lemma walk_doc_returns {B} size d (f : list B → Z → Z → Z → list B * bool) : 0 ≤ size ≤ 12 →
  ∃ l, (found ← catch (find_doc_full h d);
        match found with
        | None => Ret []
        | Some (_, offset, count) => out ← with_capacity size count; walk_payload h offset count f out
        end) = Ret l.
Proof using sane.
  intros Hs. pose proof (find_doc_full_returns d) as Hf. destruct (find_doc_full h d) as [[[i off] c]| | |]; try done; cbn [catch]; rewrite bind_ret; [|eauto].
  destruct Hf as (_ & Ho & Hc). rewrite with_capacity_ok, bind_ret by done. by apply walk_payload_returns.
Qed.
End Header.

(** ** A file *)

(** The offset table of a reader answers on its whole range. *)
Definition offsets_answer (r : SfxPostReaderV2) : Prop :=
  ∀ i, 0 ≤ i ≤ sp_num_terms r → ∃ v, read_offset r i = Ret v ∧ 0 ≤ v.

Lemma v2_header_sane data spans :
  bytes_ok data → 4 ≤ #data →
  opens header_sane (
    num_docs ← u32_at data 0;
    let header_size := 4 + num_docs * 4 + num_docs * 4 + num_docs * 2 in
    if #data <? header_size then Nothing else
    let d0 := 4 in
    let p0 := d0 + num_docs * 4 in
    let c0 := p0 + num_docs * 4 in
    let payload_start := c0 + num_docs * 2 in
    doc_ids ← slice data d0 p0;
    payload_offsets ← slice data p0 c0;
    entry_counts ← slice data c0 payload_start;
    payload ← slice_from data payload_start;
    Ret {| oh_num_docs := num_docs; oh_layout := V2 doc_ids payload_offsets entry_counts;
           oh_payload_data := payload; oh_spans := spans |}).
Proof.
  intros Hb Hl. destruct (u32_at_ok data 0) as (n & -> & [Hn _]); [done|lia..|]. rewrite bind_ret.
  cbv zeta. destruct (#data <? _) eqn:E; [done|].
  destruct (slice_returns data 4 (4 + n * 4)) as [a Ha]; [lia..|]. rewrite Ha, bind_ret.
  destruct (slice_returns data (4 + n * 4) (4 + n * 4 + n * 4)) as [b Hb']; [lia..|].
  rewrite Hb', bind_ret.
  destruct (slice_returns data (4 + n * 4 + n * 4) (4 + n * 4 + n * 4 + n * 2)) as [c Hc]; [lia..|].
  rewrite Hc, bind_ret. unfold slice_from.
  destruct (slice_returns data (4 + n * 4 + n * 4 + n * 2) #data) as [d Hd]; [lia..|].
  rewrite Hd, bind_ret. split; [done|]. simpl.
  apply slice_len in Ha. apply slice_len in Hb' as Hb2. apply slice_len in Hc as Hc2.
  split; [lia|]. split; [lia|]. split; [lia|]. split; by eapply slice_ok.
Qed.

Lemma varint_u32_bytes data pos :
  bytes_ok data → 0 ≤ pos →
  read_varint_u32 data pos = Nothing ∨
  ∃ v p, read_varint_u32 data pos = Ret (v, p) ∧ pos < p ≤ #data ∧ 0 ≤ v.
Proof.
  intros Hb Hp. destruct (read_varint_u32_step data pos) as [H|(v & p & H & Hpos & _)]; [by left|].
  right. exists v, p. split; [done|]. split; [done|]. by eapply read_varint_u32_nonneg.
Qed.

Lemma v3_header_sane data spans :
  bytes_ok data →
  opens header_sane (
    '(num_docs, pos) ← read_varint_u32 data 0;
    if #data <? num_docs then Nothing else
    '(headers_len, pos) ← read_varint_u32 data pos;
    let cp_start := pos in
    let cp_len := checkpoints_for num_docs * CHECKPOINT_SIZE in
    let headers_start := cp_start + cp_len in
    let payload_start := headers_start + headers_len in
    if #data <? payload_start then Nothing else
    checkpoints ← slice data cp_start headers_start;
    headers ← slice data headers_start payload_start;
    payload ← slice_from data payload_start;
    Ret {| oh_num_docs := num_docs; oh_layout := V3 checkpoints headers;
           oh_payload_data := payload; oh_spans := spans |}).
Proof.
  intros Hb. destruct (varint_u32_bytes data 0 Hb) as [->|(n & p & -> & Hp & Hn)]; [lia|done|].
  rewrite bind_ret. destruct (#data <? n); [done|].
  destruct (varint_u32_bytes data p Hb) as [->|(m & q & -> & Hq & Hm)]; [lia|done|].
  rewrite bind_ret. cbv zeta. pose proof (checkpoints_for_nonneg n Hn) as Hc.
  unfold CHECKPOINT_SIZE. destruct (#data <? _) eqn:E; [done|].
  destruct (slice_returns data q (q + checkpoints_for n * 12)) as [a Ha]; [lia..|].
  rewrite Ha, bind_ret.
  destruct (slice_returns data (q + checkpoints_for n * 12) (q + checkpoints_for n * 12 + m))
    as [b Hb']; [lia..|]. rewrite Hb', bind_ret. unfold slice_from.
  destruct (slice_returns data (q + checkpoints_for n * 12 + m) #data) as [d Hd]; [lia..|].
  rewrite Hd, bind_ret. split; [done|]. simpl. apply slice_len in Ha as Hl.
  unfold CHECKPOINT_SIZE. split; [lia|]. by eapply slice_ok.
Qed.

Lemma header_returns r o :
  bytes_ok (sp_data r) → 0 ≤ sp_entry_data_start r ≤ #(sp_data r) → offsets_answer r →
  0 ≤ o < sp_num_terms r → opens header_sane (read_ordinal_header r o).
Proof.
  intros Hb Hs Ho Hr. unfold read_ordinal_header.
  destruct (Ho o ltac:(lia)) as (a & -> & Ha). rewrite bind_ret.
  destruct (Ho (o + 1) ltac:(lia)) as (b & -> & Hbb). rewrite bind_ret.
  unfold entry_data, slice_from.
  destruct (slice_returns (sp_data r) (sp_entry_data_start r) #(sp_data r)) as [ed Hed]; [lia..|].
  rewrite Hed, bind_ret. assert (bytes_ok ed) as Hbe by (by eapply slice_ok).
  destruct (_ || _) eqn:E; [done|].
  destruct (slice_returns ed a (Z.min b #ed)) as [data Hd]; [lia..|]. rewrite Hd, bind_ret.
  assert (bytes_ok data) as Hbd by (by eapply slice_ok).
  destruct (sp_docs_only r).
  - destruct (varint_u32_bytes data 0 Hbd) as [->|(n & p & -> & Hp & Hn)]; [lia|done|].
    rewrite bind_ret. destruct (#data <? n); [done|].
    destruct (slice_returns data p #data) as [x Hx]; [lia..|]. unfold slice_from. by rewrite Hx.
  - destruct (#data <? 4) eqn:E4; [done|]. destruct (sp_v3 r).
    + by apply v3_header_sane.
    + apply v2_header_sane; [done|lia].
Qed.

Lemma header_of_returns r o :
  bytes_ok (sp_data r) → 0 ≤ sp_entry_data_start r ≤ #(sp_data r) → offsets_answer r →
  sp_gmap r = None → 0 ≤ o →
  ∃ h, header_of r o = Ret h ∧ match h with Some h => header_sane h | None => True end.
Proof.
  intros Hb Hs Ho Hg H0. unfold header_of, local. rewrite Hg, bind_ret.
  destruct (sp_num_terms r <=? o) eqn:E; [by exists None|].
  pose proof (header_returns r o Hb Hs Ho ltac:(lia)) as Hh.
  destruct (read_ordinal_header r o) as [h| | |]; try done; simpl.
  - exists (Some h). done.
  - exists None. done.
Qed.

(** The readers of the layouts with a flat table. *)
Lemma open_flat_sane data r :
  bytes_ok data → open data = Ret r → sp_block_table r = None →
  sp_data r = data ∧ 0 ≤ sp_entry_data_start r ≤ #data ∧ offsets_answer r ∧ sp_gmap r = None.
Proof.
  intros Hb Ho Hflat. unfold open in Ho. destruct (#data <? 8) eqn:E8; [done|].
  apply bind_ret_inv in Ho as (m & _ & Ho). apply bind_ret_inv in Ho as ([[v3 block] spans] & _ & Ho).
  apply bind_ret_inv in Ho as (n & Hn & Ho). apply (le_at_bound 4) in Hn as [Hn0 _]; [|done].
  destruct block.
  - apply bind_ret_inv in Ho as (t & _ & Ho). apply bind_ret_inv in Ho as ([tab used] & _ & Ho).
    destruct (negb _); [done|]. apply bind_ret_inv in Ho as (nb & _ & Ho). by simplify_eq.
  - destruct (#data <? 8 + (n + 1) * 4) eqn:E; [done|]. simplify_eq. cbn [sp_data sp_entry_data_start sp_gmap].
    split; [done|]. split; [lia|]. split; [|done]. intros i Hi.
    cbn [sp_num_terms] in Hi. unfold read_offset. cbn [sp_block_table]. unfold offsets.
    cbn [sp_data sp_offsets_start sp_entry_data_start].
    destruct (slice_returns data 8 (8 + (n + 1) * 4)) as [tab Ht]; [lia..|]. rewrite Ht, bind_ret.
    apply slice_len in Ht as Hl. apply slice_ok in Ht; [|done].
    destruct (u32_at_ok tab (i * 4)) as (v & -> & [Hv _]); [done|lia..|]. eauto.
Qed.

Lemma parse_returns bytes : bytes_ok bytes → opens (λ _, 12 ≤ #bytes) (parse bytes).
Proof.
  intros Hb. unfold parse. destruct (#bytes <? 12) eqn:E; [done|].
  destruct (u32_at_ok bytes 0) as (a & -> & [Ha _]); [done|lia..|]. rewrite bind_ret.
  destruct (u32_at_ok bytes 4) as (b & -> & [Hb0 _]); [done|lia..|]. rewrite bind_ret.
  destruct (u32_at_ok bytes 8) as (c & -> & [Hc _]); [done|lia..|]. rewrite bind_ret.
  cbv zeta. destruct (_ || _) eqn:E2; [done|].
  destruct (slice_returns bytes 12 (12 + b * 4)) as [x ->]; [lia..|]. rewrite bind_ret.
  destruct (slice_returns bytes (12 + b * 4) (12 + b * 4 + c)) as [y ->]; [lia..|]. rewrite bind_ret.
  simpl. lia.
Qed.

Lemma open_returns data : bytes_ok data → returns (open data).
Proof.
  intros Hb. unfold open. destruct (#data <? 8) eqn:E; [done|].
  destruct (slice_returns data 0 4) as [m ->]; [lia..|]. rewrite bind_ret.
  apply returns_bind; [by repeat case_match|]. intros [[v3 block] spans] _.
  destruct (u32_at_ok data 4) as (n & -> & [Hn _]); [done|lia..|]. rewrite bind_ret.
  destruct block; [|by case_match].
  destruct (slice_returns data 8 #data) as [t Ht]; [lia..|]. unfold slice_from. rewrite Ht, bind_ret.
  apply slice_ok in Ht as Hbt; [|done].
  apply slice_len in Ht. pose proof (parse_returns t Hbt) as Hp.
  destruct (parse t) as [[tab used]| | |]; try done. rewrite bind_ret. simpl in Hp.
  destruct (negb _); [done|].
  destruct (u32_at_ok data 12) as (nb & -> & _); [done|lia..|]. done.
Qed.

(** C40. No file makes a posting reader panic where the offset table answers:
    [open] returns on any bytes, and over a reader it hands back for a file
    with a flat offset table ([SFP2], [SFP3]), however corrupt the blocks,
    every accessor of a local ordinal comes to a value: the entries and the
    positions, all of them, filtered, visited or of one document, the
    documents and their number, the tests of a document and of a position,
    and [entry_at] to a span or to [None].  The counts read from the file
    never send a search, a checkpoint or a payload walk out of its slice, and
    none reserves a capacity past [isize::MAX] bytes; that the memory for it
    can be had is not part of the model. *)
Theorem postings_total {F} `{DocFilter F} (data : list Z) (f : option F) (o d p : Z) :
  bytes_ok data → 0 ≤ o →
  returns (open data) ∧
  ∀ r, open data = Ret r → sp_block_table r = None →
    answers (for_each_entry r o) ∧ answers (for_each_position r o) ∧ answers (for_each_doc r o) ∧ answers (doc_freq r o) ∧
    answers (entries_filtered r o f) ∧ answers (positions_filtered r o f) ∧
    answers (entries_for_doc r o d) ∧ answers (positions_for_doc r o d) ∧
    answers (has_doc r o d) ∧ answers (has_position r o d p) ∧ returns (entry_at r o d p).
Proof.
  unfold answers.
  intros Hb Ho. split; [by apply open_returns|]. intros r Hr Hflat.
  destruct (open_flat_sane data r Hb Hr Hflat) as (Hd & Hs & Ha & Hg).
  destruct (header_of_returns r o) as (h & Hh & Hsane); [by rewrite ?Hd..|done|done|].
  unfold for_each_entry, for_each_position, for_each_doc, doc_freq, entries_filtered, positions_filtered, entries_for_doc, positions_for_doc, has_doc, has_position, entry_at.
  rewrite Hh, !bind_ret. destruct h as [h|]; [|naive_solver].
  destruct (for_each_doc_returns h Hsane) as (vs & -> & Hvs). rewrite !bind_ret.
  split; [by eapply (collect_returns h (λ doc_id acc ti bf bt, (acc ++ [(doc_id, ti, bf, bt)], true)))|].
  split; [by eapply (collect_returns h (λ doc_id acc ti bf bt, (acc ++ [(doc_id, ti)], true)))|].
  split; [eauto|]. split; [eauto|].
  assert (∀ {B} (push : Z → list B → Z → Z → Z → list B * bool), ∃ l, match f with
    | None => foldM (λ result v, let '(_, doc_id, offset, count) := (v : Z * Z * Z * Z) in walk_payload h offset count (push doc_id) result) [] vs
    | Some f => idx ← filtered_indices h f; foldM (λ result i, '(doc_id, offset, count) ← doc_at h i; walk_payload h offset count (push doc_id) result) [] idx
    end = Ret l) as Hfil.
  { intros B push. destruct f as [f|]; [|by eapply collect_returns]. destruct (filtered_indices_returns h Hsane f) as (idx & -> & Hidx). rewrite bind_ret. by apply (collect_indices_returns h Hsane push). }
  split; [apply Hfil|]. split; [apply (Hfil _ (λ doc_id acc ti bf bt, (acc ++ [(doc_id, ti)], true)))|].
  split; [by apply walk_doc_returns|]. split; [by apply (walk_doc_returns h Hsane 4 d (λ acc ti _ _, (acc ++ [ti], true)))|].
  pose proof (find_doc_returns h Hsane d) as Hf. pose proof (find_doc_full_returns h Hsane d) as Hff.
  split; [destruct (find_doc h d); try done; simpl; eauto|].
  cbn [of_option]. rewrite bind_ret.
  destruct (find_doc_full h d) as [[[i off] cnt]| | |]; try done; cbn [catch]; rewrite ?bind_ret.
  - destruct Hff as (_ & Hoff & _). cbn [fst snd] in Hoff. split.
    + by apply walk_payload_returns.
    + destruct (walk_payload_returns h off cnt (λ found ti bf bt,
        if ti =? p then (Some (bf, bt), false) else (found, ti <? p)) None Hoff) as [s ->].
      rewrite bind_ret. by destruct s.
  - split; [eauto|done].
Qed.

(** An [SFP3] file with one ordinal, whose block claims three documents and
    stops short. *)
Definition corrupt_postings : list Z :=
  MAGIC_V3 ++ to_le_bytes 4 1 ++ to_le_bytes 4 0 ++ to_le_bytes 4 7 ++ [3; 4; 1; 200; 9; 255; 255].

Lemma corrupt_postings_ok : bytes_ok corrupt_postings.
Proof. by apply (bool_decide_unpack _). Qed.

Lemma postings_total_witness :
  ∃ r, open corrupt_postings = Ret r ∧ answers (for_each_entry r 0) ∧ answers (entries_for_doc r 0 1) ∧
    returns (entry_at r 0 1 2).
Proof.
  destruct (postings_total corrupt_postings (Some sample_filter) 0 1 2 corrupt_postings_ok (Z.le_refl 0))
    as [_ H].
  eexists. split; [by vm_compute|].
  destruct (H _ eq_refl eq_refl) as (H1 & _ & _ & _ & _ & _ & H2 & _ & _ & _ & H3). exact (conj H1 (conj H2 H3)).
Defined.
