(* ===== verification/WordSfxPost.v ===== *)
(** * Word postings ([src/suffix_fst/word_sfxpost.rs])

    [.word_sfxpost]: for each word ordinal, where the word occurs (document,
    first and last position, span or tail offset).  The writer produces [WSP5]
    (positions and tail offsets), [WSP4] (with byte spans) or [WSP6]
    (documents and frequencies); the reader also takes [WSP3] and the
    fixed-width [WSP2]. *)
From S2P Require Import Prelude Varint OffsetTables Gmap PosMap Ordering SfxPost.
Import varint block_offsets.

Module word_sfxpost.

(** [struct WordPostingEntry]. *)
Record WordPostingEntry := {
  doc_id : Z;
  first_position : Z;
  last_position : Z;
  byte_from : Z;
  byte_to : Z;
  tail_off : Z;
}.

(** The fields in the order the derived [Ord] compares them. *)
Definition word_key (e : WordPostingEntry) : list Z :=
  [doc_id e; first_position e; last_position e; byte_from e; byte_to e; tail_off e].

#[export] Instance WordPostingEntry_eq_dec : EqDecision WordPostingEntry.
Proof. solve_decision. Defined.

Definition ENTRY_SIZE : Z := 20.
Definition MAGIC : list Z := [0x57; 0x53; 0x50; 0x32].
Definition MAGIC_V3 : list Z := [0x57; 0x53; 0x50; 0x33].
Definition MAGIC_V4 : list Z := [0x57; 0x53; 0x50; 0x34].
Definition MAGIC_V5 : list Z := [0x57; 0x53; 0x50; 0x35].
Definition MAGIC_V6 : list Z := [0x57; 0x53; 0x50; 0x36].
Definition CHECKPOINT_EVERY : Z := 32.
Definition CHECKPOINT_SIZE : Z := 16.
Definition CHECKPOINT_SIZE_V5 : Z := 12.

Definition checkpoints_for (n : Z) : Z := if n =? 0 then 0 else (n - 1) / CHECKPOINT_EVERY.

(** [struct DeltaState]. *)
Record DeltaState := { st_doc : Z; st_first : Z; st_from : Z }.
Definition DeltaState_default : DeltaState := {| st_doc := 0; st_first := 0; st_from := 0 |}.

(** [decode_entry]: the entry, the new position and the new state. *)
Definition decode_entry (data : list Z) (pos : Z) (st : DeltaState) (spans : bool)
    : out (WordPostingEntry * Z * DeltaState) :=
  '(d_doc, pos) ← read_varint_u32 data pos;
  '(d_first, pos) ← read_varint_u32 data pos;
  let doc := add32 (st_doc st) d_doc in
  let same_doc := d_doc =? 0 in
  let first := if same_doc then add32 (st_first st) d_first else d_first in
  if negb spans then
    '(last_flag, pos) ← read_varint_u32 data pos;
    '(tail_off, pos) ← (if negb (Z.land last_flag 1 =? 0) then read_varint_u32 data pos
                        else Ret (0, pos));
    let st := {| st_doc := doc; st_first := first; st_from := st_from st |} in
    Ret ({| doc_id := doc; first_position := first;
            last_position := add32 first (Z.shiftr last_flag 1);
            byte_from := 0; byte_to := 0; tail_off := as_u16 (Z.min tail_off u16_max) |}, pos, st)
  else
    '(d_last, pos) ← read_varint_u32 data pos;
    '(d_from, pos) ← read_varint_u32 data pos;
    '(len, pos) ← read_varint_u32 data pos;
    let byte_from := if same_doc then add32 (st_from st) d_from else d_from in
    let st := {| st_doc := doc; st_first := first; st_from := byte_from |} in
    Ret ({| doc_id := doc; first_position := first; last_position := add32 first d_last;
            byte_from := byte_from; byte_to := add32 byte_from len; tail_off := 0 |}, pos, st).

(** [struct WordSfxPostWriter]. *)
Record WordSfxPostWriter := {
  ww_entries : list (list WordPostingEntry);
  ww_spans : bool;
  ww_docs_only : bool;
}.

Definition new (num_ordinals : Z) : WordSfxPostWriter :=
  {| ww_entries := replicate (Z.to_nat num_ordinals) []; ww_spans := false; ww_docs_only := false |}.
Definition docs_only (num_ordinals : Z) : WordSfxPostWriter :=
  {| ww_entries := replicate (Z.to_nat num_ordinals) []; ww_spans := false; ww_docs_only := true |}.
Definition with_byte_spans (num_ordinals : Z) : WordSfxPostWriter :=
  {| ww_entries := replicate (Z.to_nat num_ordinals) []; ww_spans := true; ww_docs_only := false |}.

(** [add]: out of range is ignored. *)
Definition add (w : WordSfxPostWriter) (ordinal : Z) (e : WordPostingEntry) : WordSfxPostWriter :=
  if ordinal <? #(ww_entries w) then
    {| ww_entries := set_at ordinal (default [] (ww_entries w !! Z.to_nat ordinal) ++ [e]) (ww_entries w);
       ww_spans := ww_spans w; ww_docs_only := ww_docs_only w |}
  else w.

(** [encode_docs_block_into]: the count of one document, then the loop. *)
Fixpoint count_doc (doc : Z) (entries : list WordPostingEntry) (tf : Z)
    : Z * list WordPostingEntry :=
  match entries with
  | e :: rest => if doc_id e =? doc then count_doc doc rest (add32 tf 1) else (tf, entries)
  | [] => (tf, [])
  end.

Fixpoint docs_loop (fuel : nat) (entries : list WordPostingEntry) (n_docs prev_doc : Z)
    (body : list Z) : Z * list Z :=
  match fuel, entries with
  | S fuel, e :: _ =>
      let doc := doc_id e in
      let '(tf, rest) := count_doc doc entries 0 in
      let body := write_varint body (sub32 doc prev_doc) in
      let body := write_varint body tf in
      docs_loop fuel rest (n_docs + 1) doc body
  | _, _ => (n_docs, body)
  end.

Definition encode_docs_block_into (out : list Z) (entries : list WordPostingEntry) : list Z :=
  match entries with
  | [] => out
  | _ :: _ =>
      let '(n_docs, body) := docs_loop (length entries) entries 0 0 [] in
      write_varint out n_docs ++ body
  end.

(** [encode_block_into]: the bytes of one entry after the state [st]. *)
Definition write_entry (spans : bool) (body : list Z) (st : DeltaState) (e : WordPostingEntry)
    : list Z :=
  let same_doc := doc_id e =? st_doc st in
  let body := write_varint body (sub32 (doc_id e) (st_doc st)) in
  let body := write_varint body
    (if same_doc then sub32 (first_position e) (st_first st) else first_position e) in
  let d_last := sub32 (last_position e) (first_position e) in
  if spans then
    let body := write_varint body d_last in
    let body := write_varint body (if same_doc then sub32 (byte_from e) (st_from st) else byte_from e) in
    write_varint body (sub32 (byte_to e) (byte_from e))
  else
    let body := write_varint body
      (Z.lor (Z.shiftl d_last 1) (if negb (tail_off e =? 0) then 1 else 0)) in
    if negb (tail_off e =? 0) then write_varint body (tail_off e) else body.

Definition state_after (e : WordPostingEntry) : DeltaState :=
  {| st_doc := doc_id e; st_first := first_position e; st_from := byte_from e |}.

(** Pass 1, over the entries numbered from [i]. *)
Fixpoint encode_loop (spans : bool) (i : Z) (entries : list WordPostingEntry) (st : DeltaState)
    (body : list Z) (checkpoints : list (DeltaState * Z)) : list Z * list (DeltaState * Z) :=
  match entries with
  | [] => (body, checkpoints)
  | e :: entries =>
      let checkpoints :=
        if (0 <? i) && (i mod CHECKPOINT_EVERY =? 0)
        then checkpoints ++ [(st, as_u32 #body)] else checkpoints in
      let body := write_entry spans body st e in
      encode_loop spans (i + 1) entries (state_after e) body checkpoints
  end.

(** Pass 2: a checkpoint as it is stored. *)
Definition checkpoint_bytes (spans : bool) (c : DeltaState * Z) : list Z :=
  let '(st, off) := c in
  to_le_bytes 4 (st_doc st) ++ to_le_bytes 4 (st_first st)
    ++ (if spans then to_le_bytes 4 (st_from st) else []) ++ to_le_bytes 4 off.

Definition encode_block_into (out : list Z) (entries : list WordPostingEntry) (spans : bool) : list Z :=
  match entries with
  | [] => out
  | _ :: _ =>
      let n := #entries in
      let '(body, checkpoints) := encode_loop spans 0 entries DeltaState_default [] [] in
      let out := write_varint out n in
      let out := fold_left (λ out c, out ++ checkpoint_bytes spans c) checkpoints out in
      out ++ body
  end.

(** The table and the blocks behind a magic. *)
Definition assemble (magic : list Z) (num_ords : Z) (offsets entries_data : list Z) : list Z :=
  magic ++ to_le_bytes 4 num_ords ++ encode offsets ++ entries_data.

(** [finish]. *)
Definition finish (w : WordSfxPostWriter) : out (list Z) :=
  let num_ords := as_u32 #(ww_entries w) in
  let entries := map (λ es, dedup (sort_by word_key es)) (ww_entries w) in
  let '(offsets, entries_data) := fold_left (λ st es,
      let '(offsets, entries_data) := st in
      (offsets ++ [as_u32 #entries_data],
       if ww_docs_only w then encode_docs_block_into entries_data es
       else encode_block_into entries_data es (ww_spans w))) entries ([], []) in
  assert_ (#entries_data <=? u32_max) (
    let offsets := offsets ++ [as_u32 #entries_data] in
    let magic := if ww_docs_only w then MAGIC_V6 else if ww_spans w then MAGIC_V4 else MAGIC_V5 in
    Ret (assemble magic num_ords offsets entries_data)).

(** [struct WordSfxPostReader]. *)
Record WordSfxPostReader := {
  wr_data : list Z;
  wr_num_ordinals : Z;
  wr_v3 : bool;
  wr_spans : bool;
  wr_docs_only : bool;
  wr_table : OffsetTable;
  wr_entries_start : Z;
  wr_gmap : option gmap.GmapReader;
}.

(** [open]. *)
Definition open (data : list Z) : out WordSfxPostReader :=
  if #data <? 8 then Nothing else
  m ← slice data 0 4;
  let docs_only := bytes_eqb m MAGIC_V6 in
  '(v3, block, spans) ←
    (if bytes_eqb m MAGIC_V6 then Ret (true, true, false)
     else if bytes_eqb m MAGIC_V5 then Ret (true, true, false)
     else if bytes_eqb m MAGIC_V4 then Ret (true, true, true)
     else if bytes_eqb m MAGIC_V3 then Ret (true, false, true)
     else if bytes_eqb m MAGIC then Ret (false, false, true)
     else Nothing);
  num_ordinals ← u32_at data 4;
  '(table, entries_start) ←
    (if (block : bool) then
       tail ← slice_from data 8;
       '(t, used) ← parse tail;
       if negb (bo_num t =? add32 num_ordinals 1) then Nothing else Ret (Block t, 8 + used)
     else
       let min_size := 8 + (num_ordinals + 1) * 4 in
       if #data <? min_size then Nothing else
       flat ← slice data 8 min_size;
       Ret (Flat flat, 0));
  Ret {| wr_data := data; wr_num_ordinals := num_ordinals; wr_v3 := v3; wr_spans := spans;
         wr_docs_only := docs_only; wr_table := table; wr_entries_start := entries_start;
         wr_gmap := None |}.

Definition has_byte_spans (r : WordSfxPostReader) : bool := wr_spans r.
Definition has_positions (r : WordSfxPostReader) : bool := negb (wr_docs_only r).
Definition num_ordinals (r : WordSfxPostReader) : Z := wr_num_ordinals r.
Definition checkpoint_size (r : WordSfxPostReader) : Z :=
  if wr_spans r then CHECKPOINT_SIZE else CHECKPOINT_SIZE_V5.

Definition with_gmap (r : WordSfxPostReader) (g : gmap.GmapReader) : WordSfxPostReader :=
  {| wr_data := wr_data r; wr_num_ordinals := wr_num_ordinals r; wr_v3 := wr_v3 r;
     wr_spans := wr_spans r; wr_docs_only := wr_docs_only r; wr_table := wr_table r;
     wr_entries_start := wr_entries_start r; wr_gmap := Some g |}.

Definition local (r : WordSfxPostReader) (ordinal : Z) : out Z :=
  match wr_gmap r with
  | Some g => gmap.local g ordinal
  | None => Ret ordinal
  end.

(** [block_range]. *)
Definition block_range (r : WordSfxPostReader) (ordinal : Z) : out (Z * Z) :=
  if wr_num_ordinals r <=? ordinal then Nothing else
  s ← OffsetTable_get (wr_table r) ordinal;
  e ← OffsetTable_get (wr_table r) (ordinal + 1);
  let start := wr_entries_start r + s in
  let end_ := wr_entries_start r + e in
  if (end_ <=? start) || (#(wr_data r) <? end_) then Nothing else Ret (start, end_).

(** [block_header]. *)
Definition block_header (r : WordSfxPostReader) (start : Z) : out (Z * Z * Z) :=
  '(n, pos) ← read_varint_u32 (wr_data r) start;
  let checkpoints := pos in
  let entries := checkpoints + checkpoints_for n * checkpoint_size r in
  if #(wr_data r) <? entries then Nothing else Ret (n, checkpoints, entries).

(** [checkpoint]: the fields through [data.get(..)?]. *)
Definition checkpoint (r : WordSfxPostReader) (checkpoints k : Z) : out (DeltaState * Z) :=
  let o := checkpoints + (k - 1) * checkpoint_size r in
  let g j := from_le_bytes <$> get_range (wr_data r) (o + j * 4) (o + j * 4 + 4) in
  if wr_spans r then
    doc ← g 0; first ← g 1; from ← g 2; off ← g 3;
    Ret ({| st_doc := doc; st_first := first; st_from := from |}, off)
  else
    doc ← g 0; first ← g 1; off ← g 2;
    Ret ({| st_doc := doc; st_first := first; st_from := 0 |}, off).

(** [walk_v3]: the entries visited; no caller's closure stops it. *)
Fixpoint walk_loop (count : nat) (r : WordSfxPostReader) (end_ pos : Z) (st : DeltaState)
    : out (list WordPostingEntry) :=
  match count with
  | O => Ret []
  | S count =>
      if end_ <=? pos then Ret [] else
      d ← catch (decode_entry (wr_data r) pos st (wr_spans r));
      match d with
      | None => Ret []
      | Some (e, pos, st) => rest ← walk_loop count r end_ pos st; Ret (e :: rest)
      end
  end.

Definition walk_v3 (r : WordSfxPostReader) (start end_ : Z) : out (list WordPostingEntry) :=
  h ← catch (block_header r start);
  match h with
  | None => Ret []
  | Some (n, _, entries) => walk_loop (Z.to_nat n) r end_ entries DeltaState_default
  end.

(** [<] on pairs. *)
Definition pair_ltb (a b : Z * Z) : bool :=
  (fst a <? fst b) || ((fst a =? fst b) && (snd a <? snd b)).

(** [entry_at_v3]'s search of the checkpoints: it stops where one is
    missing. *)
Fixpoint search_checkpoints (fuel : nat) (r : WordSfxPostReader) (checkpoints : Z) (key : Z * Z)
    (lo hi : Z) : out Z :=
  if lo <? hi then
    match fuel with
    | O => OutOfFuel
    | S fuel =>
        let mid := lo + (hi - lo) / 2 + 1 in
        c ← catch (checkpoint r checkpoints mid);
        match c with
        | None => Ret lo
        | Some (st, _) =>
            if pair_ltb (st_doc st, st_first st) key
            then search_checkpoints fuel r checkpoints key mid hi
            else search_checkpoints fuel r checkpoints key lo (mid - 1)
        end
    end
  else Ret lo.

(** Its scan of one run. *)
Fixpoint scan_run (count : nat) (r : WordSfxPostReader) (end_ pos : Z) (st : DeltaState) (key : Z * Z)
    : out WordPostingEntry :=
  match count with
  | O => Nothing
  | S count =>
      if end_ <=? pos then Nothing else
      '(e, pos, st) ← decode_entry (wr_data r) pos st (wr_spans r);
      let at_ := (doc_id e, first_position e) in
      if pair_ltb at_ key then scan_run count r end_ pos st key
      else if pair_ltb key at_ then Nothing else Ret e
  end.

Definition entry_at_v3 (r : WordSfxPostReader) (start end_ doc_id first_position : Z)
    : out WordPostingEntry :=
  '(n, checkpoints, entries) ← block_header r start;
  let key := (doc_id, first_position) in
  let c := checkpoints_for n in
  lo ← search_checkpoints (Z.to_nat c) r checkpoints key 0 c;
  '(st, pos) ← (if lo =? 0 then Ret (DeltaState_default, entries)
                else '(st, off) ← checkpoint r checkpoints lo; Ret (st, entries + off));
  let remaining := Z.min (n - lo * CHECKPOINT_EVERY) CHECKPOINT_EVERY in
  scan_run (Z.to_nat remaining) r end_ pos st key.

(** A fixed-width record of [WSP2]. *)
Definition record_at (data : list Z) (base : Z) : out WordPostingEntry :=
  b ← slice data base (base + ENTRY_SIZE);
  d ← u32_at b 0; f ← u32_at b 4; l ← u32_at b 8; bf ← u32_at b 12; bt ← u32_at b 16;
  Ret {| doc_id := d; first_position := f; last_position := l; byte_from := bf; byte_to := bt;
         tail_off := 0 |}.

(** [entry_at]. *)
Definition entry_at (r : WordSfxPostReader) (ordinal doc_id first_position : Z) : out WordPostingEntry :=
  if wr_docs_only r then Nothing else
  ordinal ← local r ordinal;
  '(start, end_) ← block_range r ordinal;
  if wr_v3 r then entry_at_v3 r start end_ doc_id first_position else
  let num := (end_ - start) / ENTRY_SIZE in
  let key i :=
    b ← slice_from (wr_data r) (start + i * ENTRY_SIZE);
    d ← u32_at b 0; f ← u32_at b 4; Ret (d, f) in
  lo ← bisect (λ mid, k ← key mid; Ret (pair_ltb k (doc_id, first_position))) 0 num;
  if num <=? lo then Nothing else
  k ← key lo;
  if negb (bool_decide (k = (doc_id, first_position))) then Nothing else
  b ← slice (wr_data r) (start + lo * ENTRY_SIZE) (start + (lo + 1) * ENTRY_SIZE);
  l ← u32_at b 8; bf ← u32_at b 12; bt ← u32_at b 16;
  Ret {| doc_id := doc_id; first_position := first_position; last_position := l;
         byte_from := bf; byte_to := bt; tail_off := 0 |}.

(** The records of a [WSP2] block. *)
Definition records (r : WordSfxPostReader) (start end_ : Z) : out (list WordPostingEntry) :=
  mapM_out (λ i, record_at (wr_data r) (start + i * ENTRY_SIZE)) (range 0 ((end_ - start) / ENTRY_SIZE)).

(** [for_each_entry]: the entries visited, in order; [entries] collects the
    same. *)
Definition for_each_entry (r : WordSfxPostReader) (ordinal : Z) : out (list WordPostingEntry) :=
  if wr_docs_only r then Ret [] else
  o ← catch (local r ordinal);
  match o with
  | None => Ret []
  | Some ordinal =>
      b ← catch (block_range r ordinal);
      match b with
      | None => Ret []
      | Some (start, end_) =>
          if wr_v3 r then walk_v3 r start end_ else records r start end_
      end
  end.

(** [for_each_doc] on [WSP6]. *)
Fixpoint docs_pairs (count : nat) (data : list Z) (pos doc : Z) : out (list (Z * Z)) :=
  match count with
  | O => Ret []
  | S count =>
      p ← catch ('(d, pos) ← read_varint_u32 data pos; '(tf, pos) ← read_varint_u32 data pos;
                 Ret (d, tf, pos));
      match p with
      | None => Ret []
      | Some (d, tf, pos) =>
          let doc := add32 doc d in
          rest ← docs_pairs count data pos doc; Ret ((doc, tf) :: rest)
      end
  end.

(** ... and on the layouts with entries: the closure's state, and the pairs
    handed on. *)
Definition tally (st : option Z * Z * list (Z * Z)) (e : WordPostingEntry)
    : option Z * Z * list (Z * Z) :=
  let '(cur, tf, acc) := st in
  let '(cur, tf, acc) :=
    if negb (bool_decide (cur = Some (doc_id e))) then
      (Some (doc_id e), 0, match cur with Some d => acc ++ [(d, tf)] | None => acc end)
    else (cur, tf, acc) in
  (cur, add32 tf 1, acc).

Definition for_each_doc (r : WordSfxPostReader) (ordinal : Z) : out (list (Z * Z)) :=
  if wr_docs_only r then
    o ← catch (local r ordinal);
    match o with
    | None => Ret []
    | Some ordinal =>
        b ← catch (block_range r ordinal);
        match b with
        | None => Ret []
        | Some (start, end_) =>
            data ← slice (wr_data r) 0 end_;
            n ← catch (read_varint_u32 data start);
            match n with
            | None => Ret []
            | Some (n, pos) => docs_pairs (Z.to_nat n) data pos 0
            end
        end
    end
  else
    es ← for_each_entry r ordinal;
    let '(cur, tf, acc) := fold_left tally es (None, 0, []) in
    Ret (match cur with Some d => acc ++ [(d, tf)] | None => acc end).

(** [to_docs_only]: one ordinal's block from the documents visited. *)
Definition docs_body (docs : list (Z * Z)) : list Z * Z :=
  let '(body, prev_doc, n_docs) := fold_left (λ st p,
      let '(body, prev_doc, n_docs) := st in
      let body := write_varint body (sub32 (fst p) prev_doc) in
      let body := write_varint body (snd p) in
      (body, fst p, n_docs + 1)) docs ([], 0, 0) in
  (body, n_docs).

Definition to_docs_only (bytes : list Z) : out (list Z) :=
  r ← open bytes;
  if negb (has_positions r) then Ret bytes else
  let n := num_ordinals r in
  '(offsets, entries_data) ← foldM (λ st ordinal,
      let '(offsets, entries_data) := (st : list Z * list Z) in
      let offsets := offsets ++ [as_u32 #entries_data] in
      docs ← for_each_doc r ordinal;
      let '(body, n_docs) := docs_body docs in
      Ret (offsets, if 0 <? n_docs then write_varint entries_data n_docs ++ body else entries_data))
    ([], []) (range 0 n);
  assert_ (#entries_data <=? u32_max) (
    let offsets := offsets ++ [as_u32 #entries_data] in
    Ret (assemble MAGIC_V6 n offsets entries_data)).

(** [tail_off_from_spans]. *)
Definition tail_off_from_spans (e : WordPostingEntry) (pm : option posmap.PosMapReader)
    (sp : option sfxpost.SfxPostReaderV2) : out Z :=
  match pm, sp with
  | Some pm, Some sp =>
      if negb (sfxpost.has_byte_spans sp) then Ret 0 else
      ord ← catch (posmap.ordinal_at pm (doc_id e) (first_position e));
      match ord with
      | None => Ret 0
      | Some ord =>
          c ← catch (sfxpost.entry_at sp ord (doc_id e) (first_position e));
          Ret (match c with
               | None => 0
               | Some (chunk_from, _) =>
                   as_u16 (Z.min (saturating_sub (byte_from e) chunk_from) u16_max)
               end)
      end
  | _, _ => Ret 0
  end.

End word_sfxpost.
Import word_sfxpost.
