(* ===== verification/WordSfxPostBlock.v ===== *)
(** * One ordinal's block of a word posting file

    What [encode_block_into] writes ([word_sfxpost.rs]) as a function of the
    sorted entries, and that [walk_v3] and [entry_at_v3] read it back: the
    decoder's state at each entry, the checkpoints, the search over them. *)
From S2P Require Import Prelude Varint OffsetTables Gmap PosMap Ordering Runs SfxPost WordSfxPost.
Import varint block_offsets word_sfxpost.

(** ** Entries *)

(** The fields at their widths.  Without spans, [last - first] shares a [u32]
    with a flag bit: it has 31 bits. *)
Record wentry_ok (spans : bool) (e : WordPostingEntry) : Prop := {
  we_doc : fits 32 (doc_id e);
  we_first : fits 32 (first_position e);
  we_last : fits 32 (last_position e);
  we_from : fits 32 (byte_from e);
  we_to : fits 32 (byte_to e);
  we_tail : fits 16 (tail_off e);
  we_len : spans = false → sub32 (last_position e) (first_position e) < 2 ^ 31;
}.

(** What a layout keeps of an entry: the spans or the tail offset. *)
Definition stored (spans : bool) (e : WordPostingEntry) : WordPostingEntry :=
  if spans
  then {| doc_id := doc_id e; first_position := first_position e; last_position := last_position e;
          byte_from := byte_from e; byte_to := byte_to e; tail_off := 0 |}
  else {| doc_id := doc_id e; first_position := first_position e; last_position := last_position e;
          byte_from := 0; byte_to := 0; tail_off := tail_off e |}.

Definition entry_bytes (spans : bool) (st : DeltaState) (e : WordPostingEntry) : list Z :=
  write_entry spans [] st e.

Lemma write_word_entry_app spans body st e : write_entry spans body st e = body ++ entry_bytes spans st e.
Proof.
  unfold entry_bytes, write_entry. destruct spans, (negb (tail_off e =? 0));
    rewrite !write_varint_app, ?app_nil_l; by rewrite <- !app_assoc.
Qed.

Lemma flag_token d (b : bool) :
  let t := Z.lor (Z.shiftl d 1) (if b then 1 else 0) in
  0 ≤ d < 2 ^ 31 →
  fits 32 t ∧ Z.shiftr t 1 = d ∧ negb (Z.land t 1 =? 0) = b.
Proof.
  intros t Hd. assert (t = 2 * d + (if b then 1 else 0)) as Ht.
  { unfold t. rewrite Z.lor_comm, lor_shiftl_add by (destruct b; lia). lia. }
  rewrite Ht. split; [unfold fits; change (2 ^ 32) with (2 * 2 ^ 31); destruct b; lia|]. split.
  - rewrite Z.shiftr_div_pow2 by lia. change (2 ^ 1) with 2.
    rewrite Z.mul_comm, Z.div_add_l by lia. destruct b; simpl; rewrite ?Z.div_small; lia.
  - change 1 with (Z.ones 1) at 2. rewrite Z.land_ones by lia. change (2 ^ 1) with 2.
    rewrite Z.add_comm, Z.mul_comm, Z.mod_add by lia. by destruct b.
Qed.

Lemma sub32_zero a b : fits 32 a → fits 32 b → (sub32 a b =? 0) = (a =? b).
Proof.
  intros Ha Hb. unfold sub32, as_u32. destruct (a =? b) eqn:E.
  - replace (a - b) with 0 by lia. done.
  - apply Z.eqb_neq. apply Z.eqb_neq in E. intros H. apply E.
    apply Z.mod_divide in H as [k Hk]; [|lia]. widths. nia.
Qed.

(** The state the decoder carries past an entry. *)
Definition read_state (spans : bool) (e : WordPostingEntry) : DeltaState :=
  {| st_doc := doc_id e; st_first := first_position e; st_from := if spans then byte_from e else 0 |}.

(** A writer's and a reader's state in step. *)
Record in_step (spans : bool) (we rd : DeltaState) : Prop := {
  is_doc : st_doc rd = st_doc we;
  is_first : st_first rd = st_first we;
  is_from : st_from rd = if spans then st_from we else 0;
  is_doc_fits : fits 32 (st_doc we);
}.

Lemma in_step_default spans : in_step spans DeltaState_default DeltaState_default.
Proof. split; [done..| |done]. by destruct spans. Qed.

Lemma in_step_after spans e : wentry_ok spans e → in_step spans (state_after e) (read_state spans e).
Proof. intros He. split; [done..|]. apply (we_doc _ _ He). Qed.

Lemma decode_entry_at spans data pos we rd e rest :
  wentry_ok spans e → in_step spans we rd →
  At data pos (entry_bytes spans we e ++ rest) →
  decode_entry data pos rd spans =
    Ret (stored spans e, pos + #(entry_bytes spans we e), read_state spans e).
Proof.
  intros He [Hd Hf Hfrom Hdf] Hat. destruct He as [F1 F2 F3 F4 F5 F6 F7].
  unfold entry_bytes, write_entry in *. unfold decode_entry.
  assert (fits 32 (if doc_id e =? st_doc we then sub32 (first_position e) (st_first we)
    else first_position e)) as Ff by (destruct (_ =? _); [apply sub32_fits|done]).
  assert (fits 32 (if doc_id e =? st_doc we then sub32 (byte_from e) (st_from we)
    else byte_from e)) as Fb by (destruct (_ =? _); [apply sub32_fits|done]).
  destruct spans; simpl negb; cbv iota.
  - rewrite !write_varint_app, !app_nil_l, <- !app_assoc in *.
    next_varint (sub32_fits _ _) Hat. next_varint Ff Hat. next_varint (sub32_fits _ _) Hat.
    next_varint Fb Hat.
    rewrite (read_varint_u32_at _ _ _ _ (sub32_fits _ _) Hat), bind_ret.
    rewrite Hd, Hf, Hfrom, sub32_zero, !len_app by done. unfold stored, read_state.
    rewrite (add_sub32 (st_doc we)) by done.
    destruct (doc_id e =? st_doc we); rewrite !add_sub32 by done; f_equal; f_equal; f_equal; lia.
  - specialize (F7 eq_refl). pose proof (sub32_fits (last_position e) (first_position e)) as [Hl0 _].
    destruct (flag_token (sub32 (last_position e) (first_position e)) (negb (tail_off e =? 0)))
      as (T1 & T2 & T3); [lia|].
    set (tok := Z.lor _ _) in *.
    assert (as_u16 (Z.min (tail_off e) u16_max) = tail_off e) as Htail.
    { unfold as_u16. widths. rewrite Z.min_l by lia. apply Z.mod_small. lia. }
    destruct (negb (tail_off e =? 0)) eqn:Et.
    + rewrite !write_varint_app, !app_nil_l, <- !app_assoc in *.
      next_varint (sub32_fits _ _) Hat. next_varint Ff Hat. next_varint T1 Hat. rewrite T3.
      assert (fits 32 (tail_off e)) as F6' by (widths; lia).
      rewrite (read_varint_u32_at _ _ _ _ F6' Hat), bind_ret, T2, Htail.
      rewrite Hd, Hf, Hfrom, sub32_zero, !len_app by done. unfold stored, read_state.
      rewrite (add_sub32 (st_doc we)) by done.
      destruct (doc_id e =? st_doc we); rewrite !add_sub32 by done; f_equal; f_equal; f_equal; lia.
    + rewrite !write_varint_app, !app_nil_l, <- !app_assoc in *.
      next_varint (sub32_fits _ _) Hat. next_varint Ff Hat.
      rewrite (read_varint_u32_at _ _ _ _ T1 Hat), bind_ret, T3. simpl. rewrite T2.
      rewrite Hd, Hf, Hfrom, sub32_zero, !len_app by done. unfold stored, read_state.
      rewrite (add_sub32 (st_doc we)) by done. replace (tail_off e) with 0 by lia.
      destruct (doc_id e =? st_doc we); rewrite !add_sub32 by done; f_equal; f_equal; f_equal; lia.
Qed.

(** ** The layout of a block *)

Definition state_before (es : list WordPostingEntry) (i : nat) : DeltaState :=
  match i with
  | O => DeltaState_default
  | S i => match es !! i with Some e => state_after e | None => DeltaState_default end
  end.

(** The bytes of the entries, one string each, and where each starts. *)
Definition body_list (spans : bool) (es : list WordPostingEntry) : list (list Z) :=
  imap (λ i e, entry_bytes spans (state_before es i) e) es.
Definition body_pos (spans : bool) (es : list WordPostingEntry) (i : nat) : Z :=
  #(concat (take i (body_list spans es))).

(** The checkpoints in front of the entries below [i], one every 32. *)
Definition wcps_below (i : nat) : nat := Nat.div (i - 1) 32.
Definition wcp (spans : bool) (es : list WordPostingEntry) (k : nat) : DeltaState * Z :=
  (state_before es (32 * k), body_pos spans es (32 * k)).
Definition wcp_list (spans : bool) (es : list WordPostingEntry) (i : nat) : list (DeltaState * Z) :=
  map (wcp spans es) (seq 1 (wcps_below i)).

Definition word_block (spans : bool) (es : list WordPostingEntry) : list Z :=
  match es with
  | [] => []
  | _ :: _ => varint_bytes #es ++ flat_map (checkpoint_bytes spans) (wcp_list spans es (length es))
      ++ concat (body_list spans es)
  end.

Lemma wcps_below_spec i : Z.of_nat (wcps_below i) = checkpoints_for (Z.of_nat i).
Proof.
  unfold wcps_below, checkpoints_for, CHECKPOINT_EVERY. rewrite Nat2Z.inj_div.
  destruct (Z.of_nat i =? 0) eqn:E.
  - replace i with 0%nat by lia. done.
  - f_equal. lia.
Qed.

Lemma wcps_below_S i :
  wcps_below (S i) =
    (if ((0 <? Z.of_nat i) && (Z.of_nat i mod CHECKPOINT_EVERY =? 0))%Z
     then S (wcps_below i) else wcps_below i) ∧
  (((0 <? Z.of_nat i) && (Z.of_nat i mod CHECKPOINT_EVERY =? 0))%Z = true →
     (32 * S (wcps_below i) = i)%nat).
Proof.
  unfold wcps_below, CHECKPOINT_EVERY. replace (S i - 1)%nat with i by lia.
  pose proof (Nat.div_mod_eq i 32). pose proof (Nat.mod_upper_bound i 32 ltac:(lia)).
  pose proof (Nat.div_mod_eq (i - 1) 32). pose proof (Nat.mod_upper_bound (i - 1) 32 ltac:(lia)).
  change 32 with (Z.of_nat 32). rewrite <- Nat2Z.inj_mod.
  destruct (0 <? Z.of_nat i) eqn:E0; rewrite ?andb_true_l, ?andb_false_l.
  - destruct (Z.of_nat (i mod 32) =? 0) eqn:E1; split; try done; intros; lia.
  - replace i with 0%nat by lia. done.
Qed.

Lemma encode_loop_spec spans es (suf : list WordPostingEntry) i :
  drop i es = suf → (i ≤ length es)%nat → #(concat (body_list spans es)) < 2 ^ 32 →
  encode_loop spans (Z.of_nat i) suf (state_before es i) (concat (take i (body_list spans es)))
    (wcp_list spans es i) =
  (concat (body_list spans es), wcp_list spans es (length es)).
Proof.
  intros Hsuf Hi Hb. revert i Hsuf Hi. induction suf as [|e suf IH]; intros i Hsuf Hi.
  - assert (length es ≤ i)%nat.
    { apply (f_equal length) in Hsuf. rewrite length_drop in Hsuf. simpl in Hsuf. lia. }
    replace i with (length es) by lia. simpl. f_equal. f_equal. apply take_ge.
    unfold body_list. by rewrite length_imap.
  - assert (es !! i = Some e) as He.
    { rewrite <- (Nat.add_0_r i), <- lookup_drop, Hsuf. done. }
    apply lookup_lt_Some in He as Hlt. cbn [encode_loop].
    replace (Z.of_nat i + 1) with (Z.of_nat (S i)) by lia.
    assert (state_before es (S i) = state_after e) as <- by (simpl; by rewrite He).
    rewrite write_word_entry_app.
    rewrite <- (IH (S i)); [|by rewrite <- Nat.add_1_r, <- drop_drop, Hsuf|lia]. f_equal.
    + unfold body_list at 2. rewrite (take_S_r _ _ (entry_bytes spans (state_before es i) e))
        by (by rewrite list_lookup_imap, He). rewrite concat_app. simpl concat. by rewrite app_nil_r.
    + unfold wcp_list. destruct (wcps_below_S i) as [-> H32].
      destruct (_ && _) eqn:E; [|done]. specialize (H32 eq_refl).
      rewrite seq_S, map_app. simpl map. f_equal. unfold wcp.
      replace (1 + wcps_below i)%nat with (S (wcps_below i)) by lia. rewrite H32.
      change #(concat (take i (body_list spans es))) with (body_pos spans es i).
      do 2 f_equal. unfold as_u32. apply Z.mod_small.
      pose proof (len_concat_take_le (body_list spans es) i). unfold body_pos.
      split; [apply len_nonneg|lia].
Qed.

Lemma encode_block_spec out spans es :
  #(concat (body_list spans es)) < 2 ^ 32 →
  encode_block_into out es spans = out ++ word_block spans es.
Proof.
  intros Hb. unfold encode_block_into, word_block. destruct es as [|e es]; [by rewrite app_nil_r|].
  pose proof (encode_loop_spec spans (e :: es) (e :: es) 0 eq_refl ltac:(lia) Hb) as H.
  change (Z.of_nat 0) with 0 in H. change (state_before (e :: es) 0) with DeltaState_default in H.
  change (wcp_list spans (e :: es) 0) with (@nil (DeltaState * Z)) in H. simpl take in H.
  simpl concat in H at 1. rewrite H, write_varint_app.
  assert (∀ l o, fold_left (λ out c, out ++ checkpoint_bytes spans c) l o =
    o ++ flat_map (checkpoint_bytes spans) l) as ->.
  { induction l as [|c l IH]; intros o; simpl; [by rewrite app_nil_r|]. by rewrite IH, <- app_assoc. }
  by rewrite <- !app_assoc.
Qed.

(** What reading a block back needs. *)
Record wblock_ok (spans : bool) (es : list WordPostingEntry) : Prop := {
  wb_entries : Forall (wentry_ok spans) es;
  wb_body : #(concat (body_list spans es)) < 2 ^ 32;
  wb_count : #es < 2 ^ 32;
}.

(** The decoder's state in front of entry [i]. *)
Definition rstate (spans : bool) (es : list WordPostingEntry) (i : nat) : DeltaState :=
  match i with
  | O => DeltaState_default
  | S i => match es !! i with Some e => read_state spans e | None => DeltaState_default end
  end.

(** A reader over a file that holds the block at [start]. *)
Record block_at (r : WordSfxPostReader) (start : Z) (es : list WordPostingEntry) (post : list Z) : Prop := {
  ba_at : At (wr_data r) start (word_block (wr_spans r) es ++ post);
  ba_ok : wblock_ok (wr_spans r) es;
  ba_some : es ≠ [];
}.

Lemma len_cp (spans : bool) c :
  #(checkpoint_bytes spans c) = if spans then CHECKPOINT_SIZE else CHECKPOINT_SIZE_V5.
Proof. destruct c as [st off]. unfold checkpoint_bytes. by destruct spans; lens. Qed.

Lemma At_get_u32 data pos v rest :
  At data pos (to_le_bytes 4 v ++ rest) → fits 32 v →
  from_le_bytes <$> get_range data pos (pos + 4) = Ret v ∧ At data (pos + 4) rest.
Proof.
  intros Hat Hv. unfold get_range. rewrite (At_slice _ _ _ _ _ Hat) by (by lens). simpl. split.
  - f_equal. by apply from_to_le_bytes.
  - apply At_skip in Hat. by rewrite len_to_le_bytes in Hat.
Qed.

Lemma pair_ltb_wk a b c f :
  fits 32 b → fits 32 f → pair_ltb (a, b) (c, f) = (a * 2 ^ 32 + b <? c * 2 ^ 32 + f).
Proof.
  intros Hb Hf. unfold pair_ltb, fits in *. simpl. change (2 ^ 32) with 4294967296 in *.
  apply Bool.eq_iff_eq_true. rewrite orb_true_iff, andb_true_iff, !Z.ltb_lt, Z.eqb_eq.
  destruct (Z.lt_trichotomy a c) as [?|[->|?]]; lia.
Qed.

(** Document and first position as one number. *)
Definition wk (e : WordPostingEntry) : Z := doc_id e * 2 ^ 32 + first_position e.

Lemma wk_mono_in es i j a b :
  StronglySorted (λ a b, wk a ≤ wk b) es →
  es !! i = Some a → es !! j = Some b → (i ≤ j)%nat → wk a ≤ wk b.
Proof.
  intros Hs Ha Hb Hij. destruct (decide (i = j)) as [->|]; [simplify_eq; lia|].
  apply (StronglySorted_lookup _ es i j a b Hs Ha Hb). lia.
Qed.

Lemma find_split {A} (f : A → bool) l1 l2 :
  List.find f (l1 ++ l2) = match List.find f l1 with Some x => Some x | None => List.find f l2 end.
Proof. induction l1 as [|a l1 IH]; [done|]. simpl. by destruct (f a). Qed.

Lemma find_absent {A} (f : A → bool) l : (∀ a, a ∈ l → f a = false) → List.find f l = None.
Proof.
  induction l as [|a l IH]; intros H; [done|]. simpl. rewrite (H a) by set_solver.
  apply IH. set_solver.
Qed.

Section Block.
Context (r : WordSfxPostReader) (start : Z) (es : list WordPostingEntry) (post : list Z).
Hypothesis ba : block_at r start es post.
Let spans := wr_spans r.
Let cps_start := start + #(varint_bytes #es).
Let entries_start := cps_start + #(flat_map (checkpoint_bytes spans) (wcp_list spans es (length es))).
Let end_ := start + #(word_block spans es).

Lemma es_ok i e : es !! i = Some e → wentry_ok spans e.
Proof using ba.
  intros He. pose proof (wb_entries _ _ (ba_ok _ _ _ _ ba)) as H. rewrite Forall_lookup in H.
  by apply (H i).
Qed.

Lemma es_count : fits 32 #es.
Proof using ba. split; [apply len_nonneg|apply (wb_count _ _ (ba_ok _ _ _ _ ba))]. Qed.

Lemma body_pos_fits i : fits 32 (body_pos spans es i).
Proof using ba.
  pose proof (wb_body _ _ (ba_ok _ _ _ _ ba) : #(concat (body_list spans es)) < 2 ^ 32).
  pose proof (len_concat_take_le (body_list spans es) i).
  unfold fits, body_pos. split; [apply len_nonneg|lia].
Qed.

Lemma states_in_step i : in_step spans (state_before es i) (rstate spans es i).
Proof using ba.
  destruct i as [|i]; [apply in_step_default|]. simpl.
  destruct (es !! i) as [e|] eqn:E; [|apply in_step_default].
  apply in_step_after. by apply (es_ok i).
Qed.

Lemma block_unfold :
  word_block spans es = varint_bytes #es
    ++ flat_map (checkpoint_bytes spans) (wcp_list spans es (length es)) ++ concat (body_list spans es).
Proof using ba. unfold word_block. pose proof (ba_some _ _ _ _ ba). by destruct es. Qed.

Lemma at_entries : At (wr_data r) entries_start (concat (body_list spans es) ++ post).
Proof using ba.
  pose proof (ba_at _ _ _ _ ba : At _ _ (word_block spans es ++ _)) as Hat. rewrite block_unfold in Hat. rewrite <- !app_assoc in Hat.
  apply At_skip in Hat. by apply At_skip in Hat.
Qed.

Lemma end_spec : end_ = entries_start + #(concat (body_list spans es)).
Proof using ba. unfold end_, entries_start, cps_start. rewrite block_unfold, !len_app. lia. Qed.

Lemma decode_at i e :
  es !! i = Some e →
  decode_entry (wr_data r) (entries_start + body_pos spans es i) (rstate spans es i) spans =
    Ret (stored spans e, entries_start + body_pos spans es (S i), rstate spans es (S i)) ∧
  entries_start + body_pos spans es i < end_.
Proof using ba.
  intros He. set (bl := body_list spans es).
  assert (bl !! i = Some (entry_bytes spans (state_before es i) e)) as Hb.
  { unfold bl, body_list. by rewrite list_lookup_imap, He. }
  pose proof at_entries as Hat. fold bl in Hat.
  rewrite (concat_split bl i _ Hb), <- !app_assoc in Hat. apply At_skip in Hat.
  change #(concat (take i bl)) with (body_pos spans es i) in Hat.
  assert (body_pos spans es (S i) =
    body_pos spans es i + #(entry_bytes spans (state_before es i) e)) as HS.
  { unfold body_pos. fold bl. by rewrite (concat_take_S bl i _ Hb), len_app. }
  split.
  - rewrite (decode_entry_at spans _ _ (state_before es i) _ e _ (es_ok i e He) (states_in_step i) Hat).
    rewrite HS. simpl rstate. rewrite He. do 3 f_equal. lia.
  - rewrite end_spec. pose proof (len_concat_take_le bl (S i)) as Hle.
    change #(concat (take (S i) bl)) with (body_pos spans es (S i)) in Hle. fold bl.
    assert (1 ≤ #(entry_bytes spans (state_before es i) e)); [|lia].
    unfold entry_bytes, write_entry.
    pose proof (len_varint_pos _ (fits_32_64 _ (sub32_fits (doc_id e) (st_doc (state_before es i))))).
    destruct spans, (negb (tail_off e =? 0)); rewrite !write_varint_app, !len_app;
      rewrite len_nil; repeat match goal with |- context [len (varint_bytes ?x)] =>
        lazymatch goal with _ : _ ≤ len (varint_bytes x) |- _ => fail
        | _ => pose proof (len_nonneg (varint_bytes x)) end end; lia.
Qed.

Lemma len_checkpoint_bytes c : #(checkpoint_bytes spans c) = checkpoint_size r.
Proof using. apply len_cp. Qed.

Lemma len_wcps :
  #(flat_map (checkpoint_bytes spans) (wcp_list spans es (length es))) =
    checkpoints_for #es * checkpoint_size r.
Proof using start entries_start end_ cps_start.
  rewrite (len_records _ (checkpoint_size r)) by apply len_checkpoint_bytes.
  unfold wcp_list. rewrite len_map. unfold len. rewrite length_seq, wcps_below_spec. lia.
Qed.

Lemma block_header_spec : block_header r start = Ret (#es, cps_start, entries_start).
Proof using ba.
  pose proof (ba_at _ _ _ _ ba : At _ _ (word_block spans es ++ _)) as Hat.
  rewrite block_unfold, <- !app_assoc in Hat. unfold block_header.
  rewrite (read_varint_u32_at _ _ _ _ es_count Hat), bind_ret. cbv zeta.
  rewrite <- len_wcps. pose proof (At_len _ _ _ at_entries) as Hl.
  pose proof (len_nonneg (concat (body_list spans es) ++ post)).
  fold cps_start. fold entries_start. by replace (_ <? _) with false by lia.
Qed.

Lemma walk_loop_spec m i :
  (m = length es - i)%nat → (i ≤ length es)%nat →
  walk_loop m r end_ (entries_start + body_pos spans es i) (rstate spans es i) =
    Ret (map (stored spans) (drop i es)).
Proof using ba.
  revert i. induction m as [|m IH]; intros i Hm Hi; cbn [walk_loop].
  - by rewrite drop_ge by lia.
  - destruct (lookup_lt_is_Some_2 es i) as [e He]; [lia|].
    destruct (decode_at i e He) as [Hd Hlt]. replace (end_ <=? _) with false by lia.
    fold spans. rewrite Hd. cbn [catch]. rewrite bind_ret, IH, bind_ret by lia.
    by rewrite (drop_S es e i He).
Qed.

Lemma walk_v3_spec : walk_v3 r start end_ = Ret (map (stored spans) es).
Proof using ba.
  unfold walk_v3. rewrite block_header_spec. cbn [catch]. rewrite bind_ret, len_to_nat.
  pose proof (walk_loop_spec (length es - 0) 0 eq_refl ltac:(lia)) as H.
  change (body_pos spans es 0) with 0 in H. rewrite Z.add_0_r, Nat.sub_0_r in H. exact H.
Qed.

Lemma checkpoint_spec k :
  (1 ≤ k ≤ wcps_below (length es))%nat →
  checkpoint r cps_start (Z.of_nat k) = Ret (rstate spans es (32 * k), body_pos spans es (32 * k)).
Proof using ba.
  intros Hk. pose proof (ba_at _ _ _ _ ba : At _ _ (word_block spans es ++ _)) as Hat.
  rewrite block_unfold, <- !app_assoc in Hat. apply At_skip in Hat. fold cps_start in Hat.
  destruct (At_record_at (checkpoint_bytes spans) (checkpoint_size r) len_checkpoint_bytes
    _ _ _ (k - 1) (wcp spans es k) _ Hat) as [rest Hcp].
  { apply lookup_map. apply lookup_seq. lia. }
  replace (Z.of_nat (k - 1)) with (Z.of_nat k - 1) in Hcp by lia.
  rewrite (Z.mul_comm (checkpoint_size r)) in Hcp.
  pose proof (states_in_step (32 * k)) as [S1 S2 S3 S4].
  destruct (es !! (32 * k - 1)%nat) as [e|] eqn:He.
  2: { apply lookup_ge_None in He. unfold wcps_below in Hk.
       pose proof (Nat.div_mod_eq (length es - 1) 32). lia. }
  assert (state_before es (32 * k) = state_after e ∧ rstate spans es (32 * k) = read_state spans e)
    as [Hw Hrd].
  { destruct (32 * k)%nat as [|p] eqn:E; [lia|]. replace (S p - 1)%nat with p in He by lia.
    simpl. by rewrite He. }
  pose proof (es_ok _ e He) as [F1 F2 _ F4 _ _ _]. pose proof (body_pos_fits (32 * k)) as F5.
  unfold checkpoint. cbv zeta. fold spans.
  set (o := cps_start + (Z.of_nat k - 1) * checkpoint_size r) in *.
  unfold wcp, checkpoint_bytes in Hcp. rewrite Hw in Hcp. cbn [state_after st_doc st_first st_from] in Hcp.
  rewrite <- !app_assoc in Hcp. rewrite Hrd. unfold read_state.
  replace (o + 0 * 4) with o by lia.
  apply At_get_u32 in Hcp as [H1 Hcp]; [|done]. rewrite H1, !bind_ret.
  replace (o + 1 * 4) with (o + 4) by lia.
  apply At_get_u32 in Hcp as [H2 Hcp]; [|done]. rewrite H2, !bind_ret.
  replace (o + 2 * 4) with (o + 4 + 4) by lia.
  destruct spans.
  - apply At_get_u32 in Hcp as [H3 Hcp]; [|done]. rewrite H3, !bind_ret.
    replace (o + 3 * 4) with (o + 4 + 4 + 4) by lia.
    apply At_get_u32 in Hcp as [H4 _]; [|done]. by rewrite H4.
  - rewrite app_nil_l in Hcp. apply At_get_u32 in Hcp as [H3 _]; [|done]. by rewrite H3.
Qed.

(** ** The search *)

Context (sorted : StronglySorted (λ a b, wk a ≤ wk b) es).
Context (d p : Z) (Hd : fits 32 d) (Hp : fits 32 p).
Let key := d * 2 ^ 32 + p.

Lemma search_spec :
  ∃ lo : nat, search_checkpoints (Z.to_nat (checkpoints_for #es)) r cps_start (d, p)
      0 (checkpoints_for #es) = Ret (Z.of_nat lo) ∧
    (lo ≤ wcps_below (length es))%nat ∧
    (∀ i e, (i < 32 * lo)%nat → es !! i = Some e → wk e < key) ∧
    ((lo < wcps_below (length es))%nat → ∀ e, es !! (32 * lo + 31)%nat = Some e → key ≤ wk e).
Proof using ba sorted Hd Hp.
  pose proof (wcps_below_spec (length es)) as Hc. change (Z.of_nat (length es)) with #es in Hc.
  set (c := checkpoints_for #es) in *.
  set (q := λ k, match es !! (32 * Z.to_nat k - 1)%nat with Some e => wk e <? key | None => false end).
  assert (∀ k, 0 < k ≤ c → ∃ e, es !! (32 * Z.to_nat k - 1)%nat = Some e ∧
    rstate spans es (32 * Z.to_nat k) = read_state spans e) as Hstate.
  { intros k Hk. destruct (lookup_lt_is_Some_2 es (32 * Z.to_nat k - 1)) as [e He].
    - assert (Z.to_nat k ≤ wcps_below (length es))%nat as Hk' by lia. unfold wcps_below in Hk'.
      pose proof (Nat.div_mod_eq (length es - 1) 32). lia.
    - exists e. split; [done|]. destruct (32 * Z.to_nat k)%nat as [|x] eqn:E; [lia|].
      replace (S x - 1)%nat with x in He by lia. simpl. by rewrite He. }
  assert (∀ fuel lo hi, 0 ≤ lo → hi ≤ c → search_checkpoints fuel r cps_start (d, p) lo hi =
    bisect_last_loop fuel (λ k, Ret (q k)) lo hi) as Hbis.
  { induction fuel as [|fuel IH]; intros lo hi H0 Hhi; simpl; [done|].
    destruct (lo <? hi) eqn:E; [|done]. set (mid := lo + (hi - lo) / 2 + 1).
    assert (lo < mid ≤ hi) as Hmid.
    { subst mid. pose proof (Z.div_pos (hi - lo) 2). pose proof (Z.div_lt (hi - lo) 2). lia. }
    destruct (Hstate mid ltac:(lia)) as (e & He & Hst).
    pose proof (checkpoint_spec (Z.to_nat mid) ltac:(lia)) as Hcp. rewrite Z2Nat.id in Hcp by lia.
    rewrite Hcp, Hst. cbn [catch]. rewrite bind_ret. cbn [read_state st_doc st_first].
    rewrite pair_ltb_wk by (done || apply (we_first spans e), (es_ok _ e He)).
    assert (q mid = (wk e <? key)) as Hq by (unfold q; by rewrite He). unfold mret, out_mret. rewrite Hq.
    change (doc_id e * 2 ^ 32 + first_position e) with (wk e). fold key.
    destruct (wk e <? key); apply IH; lia. }
  rewrite Hbis by lia. destruct (bisect_last_spec (λ k, Ret (q k)) q 0 c) as (lo & Hlo & Hr & Ht & Hf).
  { split; [done|]. intros i j Hi Hij Hj Hq. unfold q in *.
    destruct (Hstate i ltac:(lia)) as (ei & Hei & _). destruct (Hstate j ltac:(lia)) as (ej & Hej & _).
    rewrite Hei, Hej in *. pose proof (wk_mono_in es _ _ ei ej sorted Hei Hej ltac:(lia)). lia. }
  { lia. }
  unfold bisect_last in Hlo. rewrite Z.sub_0_r in Hlo. exists (Z.to_nat lo). rewrite Z2Nat.id by lia.
  split; [done|]. split; [lia|]. split.
  - intros i e Hi He. destruct (Hstate lo ltac:(lia)) as (e' & He' & _).
    specialize (Ht lo ltac:(lia)). unfold q in Ht. rewrite He' in Ht.
    pose proof (wk_mono_in es _ _ e e' sorted He He' ltac:(lia)). lia.
  - intros Hlt e He. specialize (Hf (lo + 1) ltac:(lia)). unfold q in Hf.
    replace (32 * Z.to_nat (lo + 1) - 1)%nat with (32 * Z.to_nat lo + 31)%nat in Hf by lia.
    rewrite He in Hf. lia.
Qed.

Lemma scan_run_spec m i :
  (i + m ≤ length es)%nat →
  scan_run m r end_ (entries_start + body_pos spans es i) (rstate spans es i) (d, p) =
    of_option (stored spans <$> List.find (λ e, wk e =? key) (take m (drop i es))).
Proof using ba sorted Hd Hp.
  revert i. induction m as [|m IH]; intros i Hm; [done|]. cbn [scan_run].
  destruct (lookup_lt_is_Some_2 es i) as [e He]; [lia|].
  destruct (decode_at i e He) as [Hdec Hlt]. replace (end_ <=? _) with false by lia.
  fold spans. rewrite Hdec, bind_ret. rewrite (drop_S es e i He). cbn [take List.find].
  pose proof (we_first spans e (es_ok i e He)) as Hf.
  assert (doc_id (stored spans e) = doc_id e ∧ first_position (stored spans e) = first_position e)
    as [-> ->] by (by destruct spans).
  rewrite !pair_ltb_wk by done. change (doc_id e * 2 ^ 32 + first_position e) with (wk e). fold key.
  destruct (wk e <? key) eqn:E1.
  - replace (wk e =? key) with false by lia. apply IH. lia.
  - destruct (key <? wk e) eqn:E2.
    + replace (wk e =? key) with false by lia. rewrite find_absent; [done|].
      intros a Ha. apply list_elem_of_lookup in Ha as [j Hj].
      rewrite lookup_take_Some, lookup_drop in Hj. destruct Hj as [Hj _].
      pose proof (wk_mono_in es i (S i + j) e a sorted He Hj ltac:(lia)). lia.
    + by replace (wk e =? key) with true by lia.
Qed.

Lemma entry_at_v3_spec :
  entry_at_v3 r start end_ d p = of_option (stored spans <$> List.find (λ e, wk e =? key) es).
Proof using ba sorted Hd Hp.
  unfold entry_at_v3. rewrite block_header_spec, bind_ret.
  destruct search_spec as (lo & -> & Hle & Hlow & Hhigh). rewrite bind_ret.
  assert ((if Z.of_nat lo =? 0 then Ret (DeltaState_default, entries_start)
           else '(st, off) ← checkpoint r cps_start (Z.of_nat lo); Ret (st, entries_start + off)) =
    Ret (rstate spans es (32 * lo), entries_start + body_pos spans es (32 * lo))) as ->.
  { destruct (Z.of_nat lo =? 0) eqn:E.
    - replace lo with 0%nat by lia. simpl. change (body_pos spans es 0) with 0. by rewrite Z.add_0_r.
    - rewrite (checkpoint_spec lo) by lia. done. }
  rewrite bind_ret. set (m := Nat.min (length es - 32 * lo) 32).
  assert (32 * lo < length es)%nat as Hin.
  { pose proof (ba_some _ _ _ _ ba). assert (length es ≠ 0)%nat by (by destruct es).
    unfold wcps_below in Hle. pose proof (Nat.div_mod_eq (length es - 1) 32). lia. }
  replace (Z.to_nat (Z.min (#es - Z.of_nat lo * CHECKPOINT_EVERY) CHECKPOINT_EVERY)) with m
    by (unfold m, len, CHECKPOINT_EVERY; lia).
  rewrite scan_run_spec by (unfold m; lia). do 2 f_equal.
  rewrite <- (take_drop (32 * lo) es) at 2. rewrite find_split, (find_absent _ (take _ es)).
  2: { intros a Ha. apply list_elem_of_lookup in Ha as [i Hi]. rewrite lookup_take_Some in Hi.
       destruct Hi as [Hi Hlt]. specialize (Hlow i a Hlt Hi). lia. }
  rewrite <- (take_drop m (drop (32 * lo) es)) at 2. rewrite find_split.
  destruct (List.find _ (take m _)) as [x|] eqn:Ef; [done|]. symmetry. apply find_absent.
  intros a Ha. apply list_elem_of_lookup in Ha as [i Hi]. rewrite !lookup_drop in Hi.
  apply lookup_lt_Some in Hi as Hi'.
  assert (m = 32)%nat as Hm by (unfold m in *; lia).
  destruct (lookup_lt_is_Some_2 es (32 * lo + 31)) as [e He]; [lia|].
  assert (lo < wcps_below (length es))%nat as Hlc.
  { unfold wcps_below. apply Nat.div_le_lower_bound; lia. }
  specialize (Hhigh Hlc e He).
  assert (wk e ≠ key) as Hne.
  { intros Heq. assert (In e (take m (drop (32 * lo) es))) as Hmem.
    { apply list_elem_of_In, list_elem_of_lookup. exists 31%nat.
      by rewrite lookup_take_lt, lookup_drop by lia. }
    pose proof (List.find_none _ _ Ef e Hmem) as Hx. cbv beta in Hx. lia. }
  pose proof (wk_mono_in es _ _ e a sorted He Hi ltac:(lia)). lia.
Qed.
End Block.
