(* ===== verification/WordSfxPostFile.v ===== *)
(** * Word posting files: from the writer to every accessor

    [finish], [open], the queries and [to_docs_only] of [word_sfxpost.rs]
    composed: the properties of the word posting files. *)
From S2P Require Import Prelude Varint OffsetTables Gmap PosMap Ordering Runs SfxPost WordSfxPost WordSfxPostBlock.
Import varint block_offsets word_sfxpost.

#[export] Instance word_key_inj : Inj (=) (=) word_key.
Proof. intros [] [] H. by simplify_eq/=. Qed.

(** The entries of an ordinal as [finish] writes them. *)
Definition written (es : list WordPostingEntry) : list WordPostingEntry := dedup (sort_by word_key es).

Lemma elem_of_written e es : e ∈ written es ↔ e ∈ es.
Proof. unfold written. by rewrite elem_of_dedup, elem_of_sort_by. Qed.

Lemma len_dedup {A} `{EqDecision A} (l : list A) : #(dedup l) ≤ #l.
Proof.
  induction l as [|x l IH]; [done|]. destruct l as [|y l]; [done|].
  destruct (decide (x = y)) as [->|Hne].
  - rewrite dedup_cons_eq, (len_cons y (y :: l)). lia.
  - rewrite dedup_cons_ne, !(len_cons x) by done. lia.
Qed.

Lemma len_written es : #(written es) ≤ #es.
Proof.
  unfold written. pose proof (len_dedup (sort_by word_key es)) as H.
  assert (#(sort_by word_key es) = #es) as <-; [|done].
  unfold len, sort_by. by rewrite merge_sort_Permutation.
Qed.

Lemma Forall_written (P : WordPostingEntry → Prop) es : Forall P es → Forall P (written es).
Proof. rewrite !Forall_forall. intros H e. rewrite elem_of_written. apply H. Qed.

Lemma written_wk es : Forall (λ e, fits 32 (first_position e)) es →
  StronglySorted (λ a b, wk a ≤ wk b) (written es).
Proof.
  intros Hf. assert (StronglySorted (key_lt word_key) (written es)) as Hs.
  { apply dedup_sorted; [apply _|]. apply sort_by_sorted. }
  apply Forall_written in Hf. induction Hs as [|a l _ IH Hall]; [constructor|]. apply Forall_cons in Hf as [Ha Hf].
  constructor; [by apply IH|]. rewrite Forall_forall in *. intros b Hb.
  destruct (Hall b Hb) as [Hle _]. specialize (Hf b Hb). unfold key_le, wk, fits in *.
  simpl in Hle. widths. lia.
Qed.

(** ** Documents and frequencies *)

Definition docs_block (l : list WordPostingEntry) : list Z :=
  match l with
  | [] => []
  | _ :: _ => varint_bytes #(doc_counts doc_id l) ++ pairs_bytes 0 (doc_counts doc_id l)
  end.

(** The documents of [l] do not decrease. *)
Definition by_doc (l : list WordPostingEntry) : Prop :=
  StronglySorted (λ a b, doc_id a ≤ doc_id b) l.

Lemma written_by_doc es : by_doc (written es).
Proof.
  unfold by_doc. assert (StronglySorted (key_lt word_key) (written es)) as Hs.
  { apply dedup_sorted; [apply _|]. apply sort_by_sorted. }
  induction Hs as [|a l _ IH Hall]; constructor; [done|].
  eapply Forall_impl; [apply Hall|]. intros b [Hle _]. unfold key_le in Hle. simpl in Hle. lia.
Qed.

Definition word_leaves (d : Z) (rest : list WordPostingEntry) : Prop :=
  match rest with [] => True | e :: _ => doc_id e ≠ d end.

Lemma word_count_run d es rest tf :
  Forall (λ e, doc_id e = d) es → word_leaves d rest → 0 ≤ tf → tf + #es < 2 ^ 32 →
  count_doc d (es ++ rest) tf = (tf + #es, rest).
Proof.
  intros Hd Hr. revert tf. induction Hd as [|e es Hd _ IH]; intros tf Ht Hb.
  - rewrite app_nil_l, len_nil, Z.add_0_r. destruct rest as [|e rest]; [done|]. cbn [count_doc].
    simpl in Hr. by replace (doc_id e =? d) with false by lia.
  - rewrite len_cons in *. pose proof (len_nonneg es). cbn [app count_doc].
    rewrite Hd, Z.eqb_refl. unfold add32, as_u32. rewrite Z.mod_small by lia.
    rewrite IH by lia. f_equal. lia.
Qed.

Lemma word_leaves_next g gs : runs_ok doc_id (g :: gs) → word_leaves g.1 (flat_map snd gs).
Proof.
  intros [Hne Hd Hs]. destruct gs as [|[d' es'] gs]; [done|].
  apply Forall_cons in Hne as [_ Hne]. apply Forall_cons in Hne as [Hne _].
  apply Forall_cons in Hd as [_ Hd]. apply Forall_cons in Hd as [Hd _].
  simpl in *. destruct es' as [|e es']; [done|]. apply Forall_cons in Hd as [Hd _].
  apply StronglySorted_cons in Hs as [Hs _]. apply Forall_cons in Hs as [Hs _]. simpl. lia.
Qed.

Lemma word_docs_loop_spec gs fuel n prev body :
  runs_ok doc_id gs → #(flat_map snd gs) < 2 ^ 32 → (length (flat_map snd gs) ≤ fuel)%nat →
  docs_loop fuel (flat_map snd gs) n prev body =
    (n + #gs, body ++ pairs_bytes prev (map (λ g, (g.1, #g.2)) gs)).
Proof.
  revert fuel n prev body. induction gs as [|[d es] gs IH]; intros fuel n prev body Hok Ht Hf.
  - simpl. rewrite !app_nil_r, len_nil, Z.add_0_r. by destruct fuel.
  - cbn [flat_map snd] in *. rewrite len_app in Ht. rewrite length_app in Hf.
    pose proof (word_leaves_next _ _ Hok) as Hl. pose proof (ro_nonempty _ _ Hok) as Hne.
    pose proof (ro_docs _ _ Hok) as Hd. apply Forall_cons in Hne as [Hne _].
    apply Forall_cons in Hd as [Hd _]. simpl in Hne, Hd, Hl.
    pose proof (len_nonneg es). pose proof (len_nonneg (flat_map snd gs)).
    destruct es as [|e es]; [done|]. assert (doc_id e = d) as He by (by inv Hd).
    destruct fuel as [|fuel]; [simpl in Hf; lia|]. cbn [app docs_loop].
    change (e :: es ++ flat_map snd gs) with ((e :: es) ++ flat_map snd gs).
    rewrite He, (word_count_run d) by (done || lia).
    rewrite IH; [|by apply runs_ok_tail in Hok|lia|simpl in Hf; lia].
    cbn [map pairs_bytes fst snd]. rewrite !write_varint_app, Z.add_0_l, <- !app_assoc.
    f_equal. rewrite len_cons. lia.
Qed.

Lemma encode_docs_block_spec out l :
  by_doc l → #l < 2 ^ 32 → encode_docs_block_into out l = out ++ docs_block l.
Proof.
  intros Hs Hl. unfold encode_docs_block_into, docs_block.
  destruct l as [|e l]; [by rewrite app_nil_r|]. set (es := e :: l) in *.
  pose proof (word_docs_loop_spec (group doc_id es) (length es) 0 0 []) as H.
  rewrite group_flat in H. rewrite H; [|by apply group_ok|done|done].
  rewrite write_varint_app, Z.add_0_l, app_nil_l, <- app_assoc. unfold doc_counts. by rewrite len_map.
Qed.

(** The frequencies counted off the entries. *)
Definition merge_count (d tf : Z) (cs : list (Z * Z)) : list (Z * Z) :=
  match cs with
  | (d', n) :: cs' => if d =? d' then (d, tf + n) :: cs' else (d, tf) :: cs
  | [] => [(d, tf)]
  end.

Lemma doc_counts_cons e l : doc_counts doc_id (e :: l) = merge_count (doc_id e) 1 (doc_counts doc_id l).
Proof.
  unfold doc_counts. cbn [group]. destruct (group doc_id l) as [|[d es] gs]; [done|]. simpl.
  destruct (doc_id e =? d) eqn:E; [|done]. simpl. rewrite len_cons. f_equal. f_equal. lia.
Qed.

Lemma tally_spec l d tf acc :
  0 ≤ tf → tf + #l < 2 ^ 32 →
  (let '(cur, tf, acc) := fold_left tally l (Some d, tf, acc) in
   match cur with Some d => acc ++ [(d, tf)] | None => acc end) =
  acc ++ merge_count d tf (doc_counts doc_id l).
Proof.
  revert d tf acc. induction l as [|e l IH]; intros d tf acc H0 Hb; [done|].
  rewrite len_cons in Hb. pose proof (len_nonneg l). cbn [fold_left]. unfold tally at 2.
  rewrite doc_counts_cons. case_bool_decide as E; simpl negb; cbv iota beta.
  - simplify_eq. unfold add32, as_u32. rewrite Z.mod_small by lia. rewrite IH by lia. f_equal.
    destruct (doc_counts doc_id l) as [|[d' n] cs]; simpl.
    + by rewrite Z.eqb_refl.
    + destruct (doc_id e =? d'); simpl; rewrite Z.eqb_refl; do 2 f_equal; lia.
  - change (add32 0 1) with 1. rewrite IH by lia. rewrite <- app_assoc. f_equal.
    assert (d ≠ doc_id e) as Hne by congruence.
    destruct (doc_counts doc_id l) as [|[d' n] cs]; simpl.
    + by replace (d =? doc_id e) with false by lia.
    + destruct (doc_id e =? d'); simpl; by replace (d =? doc_id e) with false by lia.
Qed.

Lemma tally_all l :
  #l < 2 ^ 32 →
  (let '(cur, tf, acc) := fold_left tally l (None, 0, []) in
   match cur with Some d => acc ++ [(d, tf)] | None => acc end) = doc_counts doc_id l.
Proof.
  intros Hl. destruct l as [|e l]; [done|]. rewrite len_cons in Hl. pose proof (len_nonneg l).
  cbn [fold_left]. unfold tally at 2. simpl negb. cbv iota beta. change (add32 0 1) with 1.
  rewrite tally_spec by lia. by rewrite doc_counts_cons.
Qed.

Lemma docs_pairs_spec data rest l pos prev :
  Forall pair_fits l → At data pos (pairs_bytes prev l ++ rest) →
  docs_pairs (length l) data pos prev = Ret l.
Proof.
  intros Hf. revert pos prev. induction Hf as [|[d tf] l [Hd Htf] _ IH]; intros pos prev Hat; [done|].
  cbn [length docs_pairs pairs_bytes] in *. rewrite <- !app_assoc in Hat. simpl in Hd, Htf.
  next_varint (sub32_fits _ _) Hat. next_varint Htf Hat. cbn [catch]. rewrite bind_ret.
  rewrite add_sub32, (IH _ _ Hat), bind_ret by done. done.
Qed.

Lemma docs_body_spec docs : docs_body docs = (pairs_bytes 0 docs, #docs).
Proof.
  unfold docs_body. assert (∀ body prev n,
    fold_left (λ st p, let '(body, prev_doc, n_docs) := (st : list Z * Z * Z) in
      (write_varint (write_varint body (sub32 (fst p) prev_doc)) (snd p), fst p, n_docs + 1))
      docs (body, prev, n) = (body ++ pairs_bytes prev docs, match last docs with Some p => p.1 | None => prev end,
        n + #docs)) as H.
  { induction docs as [|[d tf] docs IH]; intros body prev n; simpl.
    - by rewrite app_nil_r, len_nil, Z.add_0_r.
    - rewrite IH, !write_varint_app, <- !app_assoc, len_cons. f_equal; [f_equal|lia].
      destruct docs as [|p docs]; [done|]. rewrite !last_cons. by destruct (last docs). }
  rewrite H. by rewrite Z.add_0_l.
Qed.

Lemma n_counts_le l : #(doc_counts doc_id l) ≤ #l.
Proof.
  unfold doc_counts. rewrite len_map. induction l as [|e l IH]; [done|]. cbn [group].
  rewrite len_cons. destruct (group doc_id l) as [|[d es] gs].
  - pose proof (len_nonneg l). change (len [(doc_id e, [e])]) with 1. lia.
  - rewrite len_cons in IH. destruct (doc_id e =? d); rewrite !len_cons; lia.
Qed.

(** A prefix of a buffer that ends where a region does. *)
Lemma At_prefix {A} (buf : list A) pos x post :
  At buf pos (x ++ post) →
  ∃ data, slice buf 0 (pos + #x) = Ret data ∧ At data pos x.
Proof.
  intros Hat. pose proof (At_len _ _ _ Hat) as Hl. destruct Hat as [Hp Hd]. rewrite len_app in Hl.
  pose proof (len_nonneg x). pose proof (len_nonneg post). rewrite slice_ret by lia.
  eexists. split; [done|]. rewrite Z.sub_0_r, drop_0. split; [rewrite len_take; lia|].
  replace (Z.to_nat (pos + #x)) with (Z.to_nat pos + length x)%nat by (unfold len; lia).
  by rewrite <- take_drop_commute, Hd, take_app_length.
Qed.

(** ** The file *)

Definition word_post_block (w : WordSfxPostWriter) (es : list WordPostingEntry) : list Z :=
  if ww_docs_only w then docs_block (written es) else word_block (ww_spans w) (written es).
Definition word_post_blocks (w : WordSfxPostWriter) : list (list Z) :=
  map (word_post_block w) (ww_entries w).

(** A writer whose file a [u32] addresses. *)
Record words_ok (w : WordSfxPostWriter) : Prop := {
  wo_num : #(ww_entries w) + 1 < 2 ^ 32;
  wo_entries : Forall (Forall (wentry_ok (ww_spans w || ww_docs_only w))) (ww_entries w);
  wo_count : Forall (λ es, #es < 2 ^ 32) (ww_entries w);
  wo_data : #(concat (word_post_blocks w)) ≤ u32_max;
  wo_table : #(encode (prefix_sums 0 (word_post_blocks w))) < 2 ^ 32;
}.

Section File.
Context (w : WordSfxPostWriter).
Hypothesis ok : words_ok w.
Let n := #(ww_entries w).
Let bs := word_post_blocks w.
Let offs := prefix_sums 0 bs.

Lemma word_block_lookup o es :
  ww_entries w !! o = Some es → bs !! o = Some (word_post_block w es).
Proof using. apply lookup_map. Qed.

Lemma written_count o es : ww_entries w !! o = Some es → #(written es) < 2 ^ 32.
Proof using ok.
  intros Ho. pose proof (wo_count _ ok) as Hc. rewrite Forall_lookup in Hc. specialize (Hc _ _ Ho).
  pose proof (len_written es). lia.
Qed.

Lemma written_ok o es :
  ww_entries w !! o = Some es → Forall (wentry_ok (ww_spans w || ww_docs_only w)) (written es).
Proof using ok.
  intros Ho. apply Forall_written. pose proof (wo_entries _ ok) as H. rewrite Forall_lookup in H.
  by apply (H o).
Qed.

Lemma word_block_small o es : ww_entries w !! o = Some es → #(word_post_block w es) ≤ u32_max.
Proof using ok.
  intros Ho%word_block_lookup. pose proof (wo_data _ ok : #(concat bs) ≤ u32_max) as H.
  pose proof (concat_split bs o _ Ho) as He. rewrite He, !len_app in H.
  pose proof (len_nonneg (concat (take o bs))). pose proof (len_nonneg (concat (drop (S o) bs))). lia.
Qed.

Lemma word_wblock_ok o es :
  ww_docs_only w = false → ww_entries w !! o = Some es → wblock_ok (ww_spans w) (written es).
Proof using ok.
  intros Hdo Ho. pose proof (word_block_small o es Ho) as Hb. unfold word_post_block in Hb.
  rewrite Hdo in Hb. pose proof (written_ok o es Ho) as Hf. rewrite Hdo, orb_false_r in Hf.
  split; [done| |by apply (written_count o)].
  unfold word_block in Hb. destruct (written es) as [|e l]; [done|]. rewrite !len_app in Hb.
  set (es' := e :: l) in *. pose proof (len_nonneg (varint_bytes #es')).
  pose proof (len_nonneg (flat_map (checkpoint_bytes (ww_spans w)) (wcp_list (ww_spans w) es' (length es')))).
  widths. lia.
Qed.

Lemma word_offsets_encodable : encodable offs.
Proof using ok.
  pose proof (wo_num _ ok). pose proof (wo_data _ ok : #(concat bs) ≤ u32_max). split.
  - apply prefix_sums_bound; [lia|]. widths. lia.
  - apply prefix_sums_nondecreasing.
  - apply (wo_table _ ok).
  - unfold offs, bs, word_post_blocks. rewrite len_prefix_sums, len_map. lia.
Qed.

Definition word_magic : list Z :=
  if ww_docs_only w then MAGIC_V6 else if ww_spans w then MAGIC_V4 else MAGIC_V5.
Definition word_file : list Z := word_magic ++ to_le_bytes 4 n ++ encode offs ++ concat bs.

Lemma num_u32 : as_u32 n = n.
Proof using ok.
  pose proof (wo_num _ ok). pose proof (len_nonneg (ww_entries w)).
  unfold as_u32, n. apply Z.mod_small. lia.
Qed.

Lemma finish_words : finish w = Ret word_file.
Proof using ok.
  unfold finish. pose proof (fold_block_offsets (λ data es,
    if ww_docs_only w then encode_docs_block_into data es else encode_block_into data es (ww_spans w))
    (λ es, if ww_docs_only w then docs_block es else word_block (ww_spans w) es)
    (map (λ es, dedup (sort_by word_key es)) (ww_entries w)) [] []) as H.
  destruct (fold_left _ _ _) as [o d]. destruct H as [-> Ho].
  { intros data l (es & -> & Hin)%list_elem_of_fmap. apply list_elem_of_lookup in Hin as [i Hi].
    fold (written es). destruct (ww_docs_only w) eqn:Hdo.
    - apply encode_docs_block_spec; [apply written_by_doc|by apply (written_count i)].
    - apply encode_block_spec, wb_body, (word_wblock_ok i es Hdo Hi). }
  rewrite app_nil_l, map_map in *. change (#([] : list Z)) with 0 in Ho.
  change (map (λ x, if ww_docs_only w then docs_block (dedup (sort_by word_key x))
    else word_block (ww_spans w) (dedup (sort_by word_key x))) (ww_entries w)) with bs in *.
  pose proof (wo_data _ ok : #(concat bs) ≤ u32_max). unfold assert_. replace (_ <=? _) with true by lia.
  fold n. rewrite Ho, map_as_u32, num_u32 by apply (enc_u32 _ word_offsets_encodable). done.
Qed.

Definition word_reader (gm : option gmap.GmapReader) : WordSfxPostReader :=
  {| wr_data := word_file; wr_num_ordinals := n; wr_v3 := true;
     wr_spans := if ww_docs_only w then false else ww_spans w; wr_docs_only := ww_docs_only w;
     wr_table := Block (table_of offs); wr_entries_start := 8 + #(encode offs); wr_gmap := gm |}.

Lemma word_file_tail : At word_file 8 (encode offs ++ concat bs).
Proof using.
  unfold word_file. rewrite (app_assoc word_magic). apply At_mid.
  unfold word_magic. lens. by destruct (ww_docs_only w), (ww_spans w).
Qed.

Lemma len_word_offs : #offs = n + 1.
Proof using. unfold offs, bs, word_post_blocks, n. by rewrite len_prefix_sums, len_map. Qed.

Lemma open_words : open word_file = Ret (word_reader None).
Proof using ok.
  pose proof word_offsets_encodable as He. pose proof (wo_num _ ok) as Hn.
  pose proof word_file_tail as Hat. pose proof (At_len _ _ _ Hat) as Hlen.
  pose proof (len_nonneg (encode offs ++ concat bs)). pose proof (len_nonneg (ww_entries w)).
  unfold open. replace (_ <? 8) with false by lia.
  assert (slice word_file 0 4 = Ret word_magic) as ->.
  { apply slice_prefix. unfold word_magic. by destruct (ww_docs_only w), (ww_spans w). }
  rewrite bind_ret.
  assert (u32_at word_file 4 = Ret n) as Hnum.
  { unfold word_file, u32_at. apply (le_at_mid 4); [|unfold fits, n; lia].
    unfold word_magic. by destruct (ww_docs_only w), (ww_spans w). }
  assert (bytes_eqb word_magic MAGIC_V6 = ww_docs_only w) as ->
    by (unfold word_magic; by destruct (ww_docs_only w), (ww_spans w)).
  assert ((if ww_docs_only w then Ret (true, true, false)
     else if bytes_eqb word_magic MAGIC_V5 then Ret (true, true, false)
     else if bytes_eqb word_magic MAGIC_V4 then Ret (true, true, true)
     else if bytes_eqb word_magic MAGIC_V3 then Ret (true, false, true)
     else if bytes_eqb word_magic MAGIC then Ret (false, false, true)
     else Nothing) = Ret (true, true, if ww_docs_only w then false else ww_spans w)) as ->
    by (unfold word_magic; by destruct (ww_docs_only w), (ww_spans w)).
  rewrite bind_ret, Hnum, bind_ret. cbv iota.
  rewrite (At_slice_from _ _ _ Hat), bind_ret, (parse_encode _ _ He), bind_ret.
  change (bo_num (table_of offs)) with #offs. rewrite len_word_offs.
  assert (add32 n 1 = n + 1) as -> by (unfold add32, as_u32, n; apply Z.mod_small; lia).
  by rewrite Z.eqb_refl.
Qed.

Lemma word_table_get gm k :
  (k ≤ length bs)%nat →
  OffsetTable_get (wr_table (word_reader gm)) (Z.of_nat k) = Ret #(concat (take k bs)).
Proof using ok.
  intros Hk. cbn [word_reader wr_table OffsetTable_get].
  apply (get_table_of _ word_offsets_encodable); [lia|]. rewrite Nat2Z.id. unfold offs.
  by rewrite prefix_sums_lookup by done.
Qed.

(** Where the block of an ordinal is. *)
Lemma word_block_range gm o es :
  ww_entries w !! o = Some es →
  let start := 8 + #(encode offs) + #(concat (take o bs)) in
  block_range (word_reader gm) (Z.of_nat o) =
    (if 0 <? #(word_post_block w es) then Ret (start, start + #(word_post_block w es)) else Nothing) ∧
  At word_file start (word_post_block w es ++ concat (drop (S o) bs)).
Proof using ok.
  intros Ho start. pose proof (word_block_lookup o es Ho) as Hb.
  assert (At word_file start (word_post_block w es ++ concat (drop (S o) bs))) as Hat.
  { pose proof word_file_tail as Hat. apply At_skip in Hat. rewrite (concat_split bs o _ Hb) in Hat.
    by apply At_skip in Hat. }
  split; [|done]. apply lookup_lt_Some in Hb as Hlt. apply lookup_lt_Some in Ho as Hlt'.
  unfold block_range. cbn [word_reader wr_num_ordinals]. fold (word_reader gm).
  replace (n <=? Z.of_nat o) with false by (unfold n, len; lia).
  change (wr_table _) with (wr_table (word_reader gm)).
  rewrite word_table_get, bind_ret by lia. replace (Z.of_nat o + 1) with (Z.of_nat (S o)) by lia.
  rewrite word_table_get, bind_ret by lia. cbn [wr_entries_start wr_data].
  rewrite (concat_take_S bs o _ Hb), len_app. pose proof (At_len _ _ _ Hat) as Hlen.
  rewrite len_app in Hlen. pose proof (len_nonneg (concat (drop (S o) bs))).
  pose proof (len_nonneg (word_post_block w es)).
  rewrite Z.add_assoc. change (wr_entries_start (word_reader gm) + #(concat (take o bs))) with start.
  change (wr_data (word_reader gm)) with word_file.
  destruct (0 <? #(word_post_block w es)) eqn:E.
  - by replace (_ || _) with false by lia.
  - by replace (_ || _) with true by lia.
Qed.

(** The accessors on an ordinal of the file, by its local number. *)
Lemma word_at_block gm o es e l :
  ww_docs_only w = false → ww_entries w !! o = Some es → written es = e :: l →
  block_at (word_reader gm) (8 + #(encode offs) + #(concat (take o bs))) (written es)
    (concat (drop (S o) bs)) ∧
  0 < #(word_post_block w es).
Proof using ok.
  intros Hdo Ho He. destruct (word_block_range gm o es Ho) as [_ Hat].
  assert (word_post_block w es = word_block (ww_spans w) (written es)) as Hb
    by (unfold word_post_block; by rewrite Hdo).
  split.
  - split.
    + cbn [word_reader wr_spans wr_data]. rewrite Hdo. by rewrite <- Hb.
    + cbn [word_reader wr_spans]. rewrite Hdo. by apply (word_wblock_ok o).
    + by rewrite He.
  - rewrite Hb. unfold word_block. rewrite He. rewrite len_app.
    pose proof (written_count o es Ho) as Hc. rewrite He in Hc.
    assert (fits 64 #(e :: l)) as Hf by (split; [apply len_nonneg|]; widths; lia).
    pose proof (len_varint_pos _ Hf). match goal with |- _ < _ + #?x => pose proof (len_nonneg x) end. lia.
Qed.

Lemma word_post_block_nil es : written es = [] → word_post_block w es = [].
Proof using. intros He. unfold word_post_block. rewrite He. by destruct (ww_docs_only w). Qed.

Lemma read_words gm id o es :
  ww_docs_only w = false → local (word_reader gm) id = Ret (Z.of_nat o) → ww_entries w !! o = Some es →
  for_each_entry (word_reader gm) id = Ret (map (stored (ww_spans w)) (written es)).
Proof using ok.
  intros Hdo Hl Ho. unfold for_each_entry. rewrite Hl. cbn [catch]. rewrite bind_ret.
  change (wr_docs_only (word_reader gm)) with (ww_docs_only w). rewrite Hdo.
  destruct (word_block_range gm o es Ho) as [-> _].
  destruct (written es) as [|e l] eqn:He.
  - by rewrite (word_post_block_nil es He).
  - destruct (word_at_block gm o es e l Hdo Ho He) as [Hat Hpos].
    replace (0 <? _) with true by lia. cbn [catch]. rewrite bind_ret.
    change (wr_v3 (word_reader gm)) with true. cbv iota.
    pose proof (walk_v3_spec _ _ _ _ Hat) as Hw.
    change (wr_spans (word_reader gm)) with (if ww_docs_only w then false else ww_spans w) in Hw.
    rewrite Hdo in Hw. unfold word_post_block. rewrite Hdo. rewrite Hw. by rewrite He.
Qed.

Lemma read_word_at gm id o es d p :
  ww_docs_only w = false → local (word_reader gm) id = Ret (Z.of_nat o) → ww_entries w !! o = Some es →
  fits 32 d → fits 32 p →
  entry_at (word_reader gm) id d p =
    of_option (stored (ww_spans w) <$>
      List.find (λ e, (doc_id e =? d) && (first_position e =? p)) (written es)).
Proof using ok.
  intros Hdo Hl Ho Hd Hp. unfold entry_at. rewrite Hl, bind_ret.
  change (wr_docs_only (word_reader gm)) with (ww_docs_only w). rewrite Hdo.
  destruct (word_block_range gm o es Ho) as [-> _].
  destruct (written es) as [|e l] eqn:He.
  - by rewrite (word_post_block_nil es He).
  - destruct (word_at_block gm o es e l Hdo Ho He) as [Hat Hpos].
    replace (0 <? _) with true by lia. rewrite bind_ret.
    change (wr_v3 (word_reader gm)) with true. cbv iota.
    pose proof (written_ok o es Ho) as Hf.
    assert (Forall (λ e, fits 32 (first_position e)) (written es)) as Hff.
    { eapply Forall_impl; [apply Hf|]. intros x. apply we_first. }
    assert (StronglySorted (λ a b, wk a ≤ wk b) (written es)) as Hs.
    { apply written_wk. pose proof (wo_entries _ ok) as H. rewrite Forall_lookup in H.
      eapply Forall_impl; [by apply (H o)|]. intros x. apply we_first. }
    pose proof (entry_at_v3_spec _ _ _ _ Hat Hs d p Hd Hp) as Hw.
    change (wr_spans (word_reader gm)) with (if ww_docs_only w then false else ww_spans w) in Hw.
    rewrite Hdo in Hw. unfold word_post_block. rewrite Hdo. rewrite Hw, <- He. do 2 f_equal.
    clear - Hff Hd Hp. induction Hff as [|x l' Hx _ IH]; [done|]. simpl. rewrite IH.
    replace (wk x =? d * 2 ^ 32 + p) with ((doc_id x =? d) && (first_position x =? p)); [done|].
    unfold wk. widths. apply Bool.eq_iff_eq_true. rewrite andb_true_iff, !Z.eqb_eq. lia.
Qed.

Lemma read_word_docs gm id o es :
  local (word_reader gm) id = Ret (Z.of_nat o) → ww_entries w !! o = Some es →
  for_each_doc (word_reader gm) id = Ret (doc_counts doc_id (written es)).
Proof using ok.
  intros Hl Ho. unfold for_each_doc. change (wr_docs_only (word_reader gm)) with (ww_docs_only w).
  pose proof (written_count o es Ho) as Hc.
  destruct (ww_docs_only w) eqn:Hdo.
  - rewrite Hl. cbn [catch]. rewrite bind_ret. destruct (word_block_range gm o es Ho) as [-> Hat].
    destruct (written es) as [|e l] eqn:He; [by rewrite (word_post_block_nil es He)|].
    set (es' := e :: l) in *. set (start := _ + #(concat _)) in *.
    assert (word_post_block w es = varint_bytes #(doc_counts doc_id es')
      ++ pairs_bytes 0 (doc_counts doc_id es')) as Hb.
    { unfold word_post_block. by rewrite Hdo, He. }
    assert (Forall pair_fits (doc_counts doc_id es')) as Hpf.
    { apply doc_counts_fits; [|done]. rewrite <- He. eapply Forall_impl; [by apply (written_ok o)|].
      intros x. apply we_doc. }
    assert (fits 32 #(doc_counts doc_id es')) as Hnf.
    { split; [apply len_nonneg|]. pose proof (n_counts_le es'). lia. }
    pose proof (len_varint_pos _ (fits_32_64 _ Hnf)).
    assert (0 < #(word_post_block w es)) as Hpos.
    { rewrite Hb, len_app. pose proof (len_nonneg (pairs_bytes 0 (doc_counts doc_id es'))). lia. }
    replace (0 <? _) with true by lia. cbn [catch]. rewrite bind_ret.
    change (wr_data (word_reader gm)) with word_file.
    destruct (At_prefix _ _ _ _ Hat) as (data & -> & Hat').
    rewrite bind_ret. rewrite Hb in Hat'. rewrite <- (app_nil_r (pairs_bytes _ _)) in Hat'.
    rewrite (read_varint_u32_at _ _ _ _ Hnf Hat'). cbn [catch]. rewrite bind_ret, len_to_nat.
    apply At_skip in Hat'. by apply docs_pairs_spec with (rest := []).
  - rewrite (read_words gm id o es Hdo Hl Ho), bind_ret.
    assert (∀ s l, fold_left tally (map (stored (ww_spans w)) l) s = fold_left tally l s) as ->.
    { intros s l. revert s. induction l as [|x l IH]; intros s; [done|]. simpl. rewrite IH. f_equal.
      destruct s as [[cur tf] acc]. unfold tally. by destruct (ww_spans w). }
    pose proof (tally_all (written es) Hc) as Ht. destruct (fold_left tally _ _) as [[cur tf] acc].
    by rewrite Ht.
Qed.
End File.

(** ** Without positions *)

(** The same entries, for a file of documents and frequencies. *)
Definition as_docs_only (w : WordSfxPostWriter) : WordSfxPostWriter :=
  {| ww_entries := ww_entries w; ww_spans := false; ww_docs_only := true |}.

Lemma foldM_fold {A B S} (f : S → A → out S) (g : S → B → S) la lb s :
  Forall2 (λ a b, ∀ s, f s a = Ret (g s b)) la lb → foldM f s la = Ret (fold_left g lb s).
Proof.
  intros H. revert s. induction H as [|a b la lb Hab _ IH]; intros s; [done|]. simpl.
  by rewrite Hab, bind_ret.
Qed.

Lemma to_docs_only_spec w :
  words_ok w → ww_docs_only w = false → to_docs_only (word_file w) = finish (as_docs_only w).
Proof.
  intros Hok Hdo. unfold to_docs_only. rewrite (open_words w Hok), bind_ret.
  assert (has_positions (word_reader w None) = true) as ->
    by (unfold has_positions; cbn [word_reader wr_docs_only]; by rewrite Hdo).
  simpl negb. cbv iota. change (num_ordinals (word_reader w None)) with #(ww_entries w).
  erewrite (foldM_fold _ (λ st es, let '(offsets, entries_data) := (st : list Z * list Z) in
      (offsets ++ [as_u32 #entries_data], encode_docs_block_into entries_data es))
    _ (map written (ww_entries w))).
  - rewrite bind_ret. unfold finish, as_docs_only. cbn [ww_entries ww_docs_only ww_spans].
    rewrite (num_u32 w Hok). fold written. done.
  - apply Forall2_same_length_lookup_2.
    { rewrite length_range, length_map. unfold len. lia. }
    intros i o l [-> Hi]%range_lookup Hl. rewrite list_lookup_fmap in Hl.
    destruct (ww_entries w !! i) as [es|] eqn:Ho; simplify_eq/=.
    intros [offsets entries_data].
    rewrite (read_word_docs w Hok None (0 + Z.of_nat i) i es eq_refl Ho), bind_ret.
    rewrite docs_body_spec. f_equal. f_equal. pose proof (written_count w Hok i es Ho) as Hc.
    rewrite encode_docs_block_spec by (done || apply written_by_doc). unfold docs_block.
    destruct (written es) as [|e l]; [symmetry; apply app_nil_r|].
    assert (0 < #(doc_counts doc_id (e :: l))) as Hpos.
    { rewrite doc_counts_cons. unfold merge_count. repeat case_match; rewrite len_cons;
        pose proof (len_nonneg (A := Z * Z)); llia. }
    replace (0 <? _) with true by lia. by rewrite write_varint_app, <- app_assoc.
Qed.

(** ** Ids *)

Lemma word_local_gmap w g ids (o : nat) id :
  gmap_over g ids → ids_ok ids → ids !! o = Some id →
  local (word_reader w (Some g)) id = Ret (Z.of_nat o).
Proof.
  intros Hover Hok Ho. unfold local. cbn [word_reader wr_gmap]. apply lookup_lt_Some in Ho as Hlt.
  destruct (local_spec g ids Hover Hok id) as [(i & -> & Hi & Hid)|[_ Hno]].
  - f_equal. pose proof (id_at_lookup ids i Hi) as Hl. rewrite Hid in Hl.
    pose proof (increasing_inj ids _ _ _ (ids_sorted _ Hok) Hl Ho). lia.
  - exfalso. apply (Hno (Z.of_nat o)); [unfold len; lia|].
    unfold id_at. by rewrite Nat2Z.id, Ho.
Qed.

(** ** Properties *)

(** The word posting file gives back what was added: a writer whose
    entries fit the layout finishes, its file opens, and every ordinal lists
    its distinct entries in the order of their fields, each with the fields
    the layout stores (the spans in [WSP4], the tail offset in [WSP5]); the
    documents come with the number of those entries; an ordinal past the file
    lists nothing. *)
Theorem word_postings_roundtrip (w : WordSfxPostWriter) :
  words_ok w → ww_docs_only w = false →
  ∃ bytes r, finish w = Ret bytes ∧ open bytes = Ret r ∧
    has_positions r = true ∧ has_byte_spans r = ww_spans w ∧
    (∀ (o : nat) es, ww_entries w !! o = Some es →
       ∃ l, for_each_entry r (Z.of_nat o) = Ret (map (stored (ww_spans w)) l) ∧
         for_each_doc r (Z.of_nat o) = Ret (doc_counts doc_id l) ∧
         StronglySorted (key_lt word_key) l ∧ ∀ e, e ∈ l ↔ e ∈ es) ∧
    (∀ o, #(ww_entries w) ≤ o → for_each_entry r o = Ret []).
Proof.
  intros Hok Hdo. exists (word_file w), (word_reader w None).
  split; [by apply finish_words|]. split; [by apply open_words|].
  split; [unfold has_positions; cbn [word_reader wr_docs_only]; by rewrite Hdo|].
  split; [unfold has_byte_spans; cbn [word_reader wr_spans]; by rewrite Hdo|]. split.
  - intros o es Ho. exists (written es).
    split; [by apply (read_words w Hok None _ o)|]. split; [by apply (read_word_docs w Hok None _ o)|].
    split; [|intros e; apply elem_of_written].
    apply dedup_sorted; [apply _|]. apply sort_by_sorted.
  - intros o Ho. unfold for_each_entry, block_range.
    cbn [word_reader wr_docs_only wr_gmap local wr_num_ordinals catch]. rewrite Hdo, bind_ret.
    by replace (_ <=? o) with true by lia.
Qed.

Definition word (d f l bf bt t : Z) : WordPostingEntry :=
  {| doc_id := d; first_position := f; last_position := l; byte_from := bf; byte_to := bt; tail_off := t |}.

Definition sample_words : WordSfxPostWriter :=
  add (add (add (add (new 2) 0 (word 5 3 4 10 20 0)) 0 (word 1 7 7 0 0 9)) 0 (word 5 3 4 10 20 0))
    7 (word 1 1 1 1 1 1).

Lemma sample_word_ok spans d f l bf bt t :
  bool_decide (fits 32 d ∧ fits 32 f ∧ fits 32 l ∧ fits 32 bf ∧ fits 32 bt ∧ fits 16 t ∧
    sub32 l f < 2 ^ 31) = true → wentry_ok spans (word d f l bf bt t).
Proof. rewrite bool_decide_eq_true. intros (? & ? & ? & ? & ? & ? & ?). by split. Qed.

Lemma sample_words_ok : words_ok sample_words.
Proof.
  split; [by vm_compute| |by repeat constructor|by vm_compute|by vm_compute].
  repeat first [apply Forall_nil_2 | apply Forall_cons; split]; by apply sample_word_ok.
Qed.

Lemma word_postings_roundtrip_witness :
  ∃ bytes r, finish sample_words = Ret bytes ∧ open bytes = Ret r ∧
    ∃ l, for_each_entry r 0 = Ret (map (stored false) l) ∧ StronglySorted (key_lt word_key) l.
Proof.
  destruct (word_postings_roundtrip sample_words sample_words_ok eq_refl)
    as (bytes & r & Hf & Ho & _ & _ & Hin & _).
  exists bytes, r. split; [exact Hf|]. split; [exact Ho|].
  destruct (Hin 0%nat _ eq_refl) as (l & H1 & _ & H2 & _). exists l. exact (conj H1 H2).
Defined.

(** [entry_at] finds the word that starts at a position: the first of the
    ordinal's entries, in field order, whose document and first position are
    the ones asked for, with the fields the layout stores, and [None] when
    there is none.  The search over the checkpoints and the scan of one run
    of 32 entries answer as a search of the whole list would. *)
Theorem word_postings_entry_at (w : WordSfxPostWriter) :
  words_ok w → ww_docs_only w = false →
  ∃ bytes r, finish w = Ret bytes ∧ open bytes = Ret r ∧
    ∀ (o : nat) es d p, ww_entries w !! o = Some es → fits 32 d → fits 32 p →
      entry_at r (Z.of_nat o) d p =
        of_option (stored (ww_spans w) <$>
          List.find (λ e, (doc_id e =? d) && (first_position e =? p)) (dedup (sort_by word_key es))).
Proof.
  intros Hok Hdo. exists (word_file w), (word_reader w None).
  split; [by apply finish_words|]. split; [by apply open_words|].
  intros o es d p Ho Hd Hp. by apply (read_word_at w Hok None _ o).
Qed.

Lemma word_postings_entry_at_witness :
  ∃ bytes r, finish sample_words = Ret bytes ∧ open bytes = Ret r ∧
    entry_at r 0 1 7 = Ret (word 1 7 7 0 0 9) ∧ entry_at r 0 5 4 = Nothing.
Proof.
  destruct (word_postings_entry_at sample_words sample_words_ok eq_refl) as (bytes & r & Hf & Ho & Hr).
  exists bytes, r. split; [exact Hf|]. split; [exact Ho|].
  assert (fits 32 1 ∧ fits 32 7 ∧ fits 32 5 ∧ fits 32 4) as (F1 & F2 & F3 & F4)
    by (unfold fits; lia).
  split; [exact (Hr 0%nat _ 1 7 eq_refl F1 F2)|exact (Hr 0%nat _ 5 4 eq_refl F3 F4)].
Defined.

(** An index without positions: [to_docs_only] applied to a positional
    file ([WSP4] or [WSP5]) gives, byte for byte, the file a [WSP6] writer
    given the same entries would have finished to (and panics exactly when it
    would); applied again it changes nothing. *)
Theorem word_postings_to_docs_only (w : WordSfxPostWriter) :
  words_ok w → ww_docs_only w = false →
  ∃ bytes, finish w = Ret bytes ∧ to_docs_only bytes = finish (as_docs_only w) ∧
    (words_ok (as_docs_only w) →
       ∃ bytes', to_docs_only bytes = Ret bytes' ∧ to_docs_only bytes' = Ret bytes').
Proof.
  intros Hok Hdo. exists (word_file w). split; [by apply finish_words|].
  pose proof (to_docs_only_spec w Hok Hdo) as Hspec. split; [done|]. intros Hok'.
  exists (word_file (as_docs_only w)). rewrite Hspec, (finish_words _ Hok'). split; [done|].
  unfold to_docs_only. by rewrite (open_words _ Hok'), bind_ret.
Qed.

Lemma word_postings_to_docs_only_witness :
  ∃ bytes, finish sample_words = Ret bytes ∧ to_docs_only bytes = finish (as_docs_only sample_words).
Proof.
  destruct (word_postings_to_docs_only sample_words sample_words_ok eq_refl) as (bytes & Hf & Ht & _).
  exists bytes. exact (conj Hf Ht).
Defined.

(** Global ids and files without positions: over the map of a segment's
    ids, a word posting reader asked for a global id answers what it answers
    for the local ordinal, entries and documents alike; a [WSP6] file answers
    for the documents and frequencies of each word, and has no entry. *)
Theorem word_postings_global_ids (w : WordSfxPostWriter) (g : gmap.GmapReader) (ids : list Z) :
  words_ok w → gmap_over g ids → ids_ok ids →
  ∃ bytes r, finish w = Ret bytes ∧ open bytes = Ret r ∧
    ∀ (o : nat) id es d p, ids !! o = Some id → ww_entries w !! o = Some es → fits 32 d → fits 32 p →
      for_each_doc (with_gmap r g) id = Ret (doc_counts doc_id (dedup (sort_by word_key es))) ∧
      for_each_entry (with_gmap r g) id = for_each_entry r (Z.of_nat o) ∧
      entry_at (with_gmap r g) id d p = entry_at r (Z.of_nat o) d p ∧
      (ww_docs_only w = true → for_each_entry r (Z.of_nat o) = Ret []).
Proof.
  intros Hok Hover Hids. exists (word_file w), (word_reader w None).
  split; [by apply finish_words|]. split; [by apply open_words|].
  change (with_gmap (word_reader w None) g) with (word_reader w (Some g)).
  intros o id es d p Hid Ho Hd Hp. pose proof (word_local_gmap w g ids o id Hover Hids Hid) as Hl.
  split; [by apply (read_word_docs w Hok (Some g) id o)|].
  destruct (ww_docs_only w) eqn:Hdo.
  - unfold for_each_entry, entry_at. cbn [word_reader wr_docs_only]. by rewrite Hdo.
  - rewrite (read_words w Hok (Some g) id o es Hdo Hl Ho), (read_words w Hok None _ o es Hdo eq_refl Ho).
    rewrite (read_word_at w Hok (Some g) id o es d p Hdo Hl Ho Hd Hp).
    by rewrite (read_word_at w Hok None _ o es d p Hdo eq_refl Ho Hd Hp).
Qed.

Lemma word_postings_global_ids_witness :
  ∃ bytes r, finish sample_words = Ret bytes ∧ open bytes = Ret r ∧
    for_each_doc (with_gmap r (sample_gmap true)) 1 = Ret [(1, 1); (5, 1)].
Proof.
  destruct (word_postings_global_ids sample_words (sample_gmap true) sample_ids sample_words_ok)
    as (bytes & r & Hf & Ho & Hr); [by split; auto|apply sample_ids_ok|].
  exists bytes, r. split; [exact Hf|]. split; [exact Ho|].
  assert (fits 32 0) as F0 by (unfold fits; lia).
  destruct (Hr 0%nat 1 _ 0 0 eq_refl eq_refl F0 F0) as [H1 _]. exact H1.
Defined.

(** What [WSP5] does not store: an entry whose last position is below its
    first.  The module says that a field that is not monotone round-trips
    through the wrapping deltas; in [WSP4] it does, but in [WSP5] the
    difference shares a varint with the tail flag, takes 33 bits, and the
    reader's [read_varint_u32] refuses it: the entry and every one after it in
    the ordinal are lost. *)
Theorem word_postings_wsp5_backwards :
  let entries := [word 0 1 0 0 0 0; word 3 2 2 0 0 0] in
  let file spans := finish {| ww_entries := [entries]; ww_spans := spans; ww_docs_only := false |} in
  (∃ bytes r, file true = Ret bytes ∧ open bytes = Ret r ∧ for_each_entry r 0 = Ret entries) ∧
  (∃ bytes r, file false = Ret bytes ∧ open bytes = Ret r ∧ for_each_entry r 0 = Ret []).
Proof. split; eexists _, _; repeat split; by vm_compute. Qed.
