(* ===== verification/Text.v ===== *)
(** * Strings

    What the code uses of [str] and [String].  A string is the list of its
    characters, each a Unicode scalar value; lengths and indices are in bytes
    of its UTF-8 encoding, as in Rust, and a slice that does not fall between
    two characters panics. *)
From S2P Require Import Prelude.

Module text.

(** [char::len_utf8]. *)
Definition len_utf8 (c : Z) : Z :=
  if c <? 0x80 then 1 else if c <? 0x800 then 2 else if c <? 0x10000 then 3 else 4.

(** The UTF-8 encoding, [str::as_bytes]. *)
Definition utf8 (c : Z) : list Z :=
  if c <? 0x80 then [c]
  else if c <? 0x800 then [0xC0 + c / 64; 0x80 + c mod 64]
  else if c <? 0x10000 then [0xE0 + c / 4096; 0x80 + (c / 64) mod 64; 0x80 + c mod 64]
  else [0xF0 + c / 262144; 0x80 + (c / 4096) mod 64; 0x80 + (c / 64) mod 64; 0x80 + c mod 64].

(** [str::len]. *)
Fixpoint str_len (s : list Z) : Z :=
  match s with
  | [] => 0
  | c :: s => len_utf8 c + str_len s
  end.

(** [str::char_indices]. *)
Fixpoint char_indices_from (i : Z) (s : list Z) : list (Z * Z) :=
  match s with
  | [] => []
  | c :: s => (i, c) :: char_indices_from (i + len_utf8 c) s
  end.
Definition char_indices : list Z → list (Z * Z) := char_indices_from 0.

(** [str::split_at_checked]: the string cut at a byte index, if it lies
    between two characters. *)
Fixpoint split_at (i : Z) (s : list Z) : option (list Z * list Z) :=
  if i =? 0 then Some ([], s) else
  match s with
  | [] => None
  | c :: s =>
      if i <? len_utf8 c then None
      else (λ ab, (c :: fst ab, snd ab)) <$> split_at (i - len_utf8 c) s
  end.

(** [str::is_char_boundary]. *)
Definition is_char_boundary (s : list Z) (i : Z) : bool :=
  match split_at i s with Some _ => true | None => false end.

(** [&s[a..]] and [&s[a..b]]. *)
Definition str_from (s : list Z) (a : Z) : out (list Z) :=
  match split_at a s with Some (_, t) => Ret t | None => Panic end.
Definition str_slice (s : list Z) (a b : Z) : out (list Z) :=
  t ← str_from s a;
  match split_at (b - a) t with Some (m, _) => Ret m | None => Panic end.

End text.
Import text.

(** ** Lengths and boundaries *)

Lemma len_utf8_range c : 1 ≤ len_utf8 c ≤ 4.
Proof. unfold len_utf8. repeat case_match; lia. Qed.

(** The length counts the bytes of the encoding. *)
Lemma str_len_bytes s : #(flat_map utf8 s) = str_len s.
Proof.
  induction s as [|c s IH]; [done|]. cbn [flat_map str_len]. rewrite len_app, IH.
  unfold utf8, len_utf8. by repeat case_match.
Qed.

Lemma str_len_nonneg s : 0 ≤ str_len s.
Proof. induction s as [|c s IH]; simpl; [done|]. pose proof (len_utf8_range c). lia. Qed.

Lemma str_len_app s t : str_len (s ++ t) = str_len s + str_len t.
Proof. induction s as [|c s IH]; simpl; [done|]. lia. Qed.

Lemma str_len_zero s : str_len s ≤ 0 → s = [].
Proof.
  destruct s as [|c s]; [done|]. simpl. pose proof (len_utf8_range c).
  pose proof (str_len_nonneg s). lia.
Qed.

Lemma str_len_pos c s : 0 < str_len (c :: s).
Proof. simpl. pose proof (len_utf8_range c). pose proof (str_len_nonneg s). lia. Qed.

Lemma str_len_ascii s : Forall (λ c, c < 0x80) s → str_len s = #s.
Proof.
  induction 1 as [|c s Hc _ IH]; [done|]. rewrite len_cons. simpl. rewrite IH.
  unfold len_utf8. replace (c <? 128) with true by lia. lia.
Qed.

(** [split_at] cuts exactly at the boundaries. *)
Lemma split_at_app s t : split_at (str_len s) (s ++ t) = Some (s, t).
Proof.
  induction s as [|c s IH].
  - by destruct t.
  - pose proof (str_len_pos c s). pose proof (str_len_nonneg s).
    cbn [app split_at str_len]. replace (len_utf8 c + str_len s =? 0) with false by (simpl in *; lia).
    replace (len_utf8 c + str_len s <? len_utf8 c) with false by lia.
    replace (len_utf8 c + str_len s - len_utf8 c) with (str_len s) by lia. by rewrite IH.
Qed.

Lemma split_at_inv i s a b : split_at i s = Some (a, b) → s = a ++ b ∧ i = str_len a.
Proof.
  revert i a. induction s as [|c s IH]; intros i a; simpl; case_match; intros; simplify_eq/=.
  - split; [done|]. lia.
  - split; [done|]. lia.
  - case_match; [done|]. destruct (split_at (i - len_utf8 c) s) as [[a' b']|] eqn:E; simplify_eq/=.
    apply IH in E as [-> ?]. split; [done|]. lia.
Qed.

Lemma str_from_app s t : str_from (s ++ t) (str_len s) = Ret t.
Proof. unfold str_from. by rewrite split_at_app. Qed.

Lemma str_slice_app s m t :
  str_slice (s ++ m ++ t) (str_len s) (str_len s + str_len m) = Ret m.
Proof.
  unfold str_slice. rewrite str_from_app, bind_ret.
  replace (str_len s + str_len m - str_len s) with (str_len m) by lia. by rewrite split_at_app.
Qed.

Lemma str_slice_app' s m t : str_slice (s ++ m ++ t) (str_len s) (str_len (s ++ m)) = Ret m.
Proof. rewrite str_len_app. apply str_slice_app. Qed.

Lemma boundary_app s t : is_char_boundary (s ++ t) (str_len s) = true.
Proof. unfold is_char_boundary. by rewrite split_at_app. Qed.

Lemma boundary_inv s i :
  is_char_boundary s i = true → ∃ a b, s = a ++ b ∧ i = str_len a.
Proof.
  unfold is_char_boundary. destruct (split_at i s) as [[a b]|] eqn:E; [|done].
  intros _. apply split_at_inv in E. eauto.
Qed.

(** From any index inside a string, a boundary is at most three bytes away;
    in ASCII text it is the index itself. *)
Lemma boundary_near s i :
  0 ≤ i ≤ str_len s → ∃ k, 0 ≤ k ≤ 3 ∧ i + k ≤ str_len s ∧ is_char_boundary s (i + k) = true.
Proof.
  revert i. induction s as [|c s IH]; intros i Hi; cbn [str_len] in Hi |- *.
  - exists 0. split; [lia|]. replace (i + 0) with 0 by lia. done.
  - pose proof (len_utf8_range c) as Hc. pose proof (str_len_nonneg s).
    destruct (decide (i = 0)) as [->|]; [exists 0; split_and!; [lia..|done]|].
    destruct (decide (i < len_utf8 c)) as [Hlt|Hge].
    + exists (len_utf8 c - i). split; [lia|]. split; [lia|].
      replace (i + (len_utf8 c - i)) with (str_len [c]) by (simpl; lia). apply (boundary_app [c] s).
    + destruct (IH (i - len_utf8 c)) as (k & Hk & Hle & Hb); [lia|]. exists k. split; [done|].
      split; [lia|]. apply boundary_inv in Hb as (a & b & -> & Heq).
      replace (i + k) with (str_len (c :: a)) by (simpl; lia). apply (boundary_app (c :: a) b).
Qed.

Lemma boundary_ascii s i :
  Forall (λ c, c < 0x80) s → 0 ≤ i ≤ #s → is_char_boundary s i = true.
Proof.
  intros Hs Hi. pose proof (boundary_app (take (Z.to_nat i) s) (drop (Z.to_nat i) s)) as H.
  rewrite take_drop, str_len_ascii, len_take in H by (by apply Forall_take).
  by replace (Z.min (Z.of_nat (Z.to_nat i)) #s) with i in H by lia.
Qed.

(** ** Runs of characters *)

(** The longest prefix that satisfies [f], and the rest. *)
Fixpoint span (f : Z → bool) (s : list Z) : list Z * list Z :=
  match s with
  | c :: s' => if f c then (λ ab, (c :: fst ab, snd ab)) (span f s') else ([], s)
  | [] => ([], [])
  end.

Lemma span_app f s : fst (span f s) ++ snd (span f s) = s.
Proof. induction s as [|c s IH]; simpl; [done|]. case_match; simpl; [by rewrite IH|done]. Qed.

Lemma span_forall f s : Forall (λ c, f c = true) (fst (span f s)).
Proof. induction s as [|c s IH]; simpl; [done|]. case_match; simpl; by constructor. Qed.

Lemma span_head f s c t : snd (span f s) = c :: t → f c = false.
Proof. induction s as [|c' s IH]; simpl; [done|]. case_match; simpl; [done|]. by intros [= -> ->]. Qed.

(** [s.char_indices().find(|(_, c)| f(c)).map(|(i, _)| i).unwrap_or(s.len())]
    is the length of the run of characters that do not satisfy [f]. *)
Lemma find_char_indices f s i :
  match List.find (λ ic, f (snd ic)) (char_indices_from i s) with
  | Some (j, _) => j
  | None => i + str_len s
  end = i + str_len (fst (span (negb ∘ f) s)).
Proof.
  revert i. induction s as [|c s IH]; intros i; simpl; [lia|].
  destruct (f c) eqn:E; simpl; rewrite ?E; simpl; [lia|].
  specialize (IH (i + len_utf8 c)). destruct (List.find _ _) as [[j c']|]; simpl in *; lia.
Qed.
