(* ===== verification/EqualChunk.v ===== *)
(** * The chunk tokenizer ([src/tokenizer/equal_chunk.rs])

    Text is cut into segments, a word and the separators after it, and each
    segment into chunks of about the same size.  The chunks are the tokens of
    the SFX index; their ordinals are what the other files speak of. *)
From S2P Require Import Prelude Text.
Import text.

Module equal_chunk.

Definition DEFAULT_MAX_TOKEN : Z := 8.

Record ChunkMeta := {
  content_len : Z;
  sep_len : Z;
  is_word_start : bool;
  word_id : Z;
}.

(** [Token] of the tokenizer API. *)
Record Token := {
  offset_from : Z;
  offset_to : Z;
  position : Z;
  token_text : list Z;
  position_length : Z;
}.
Definition usize_max : Z := 2 ^ 64 - 1.
Definition Token_default : Token :=
  {| offset_from := 0; offset_to := 0; position := usize_max; token_text := []; position_length := 1 |}.

Record EqualChunkTokenizer := {
  max_token : Z;
  tk_token : Token;
  tk_meta : list ChunkMeta;
}.

Definition with_max_token (max_token : Z) : out EqualChunkTokenizer :=
  assert_ (2 <=? max_token)
    (Ret {| max_token := max_token; tk_token := Token_default; tk_meta := [] |}).

Record Segment := { content : list Z; sep : list Z }.

Definition is_ascii_alphanumeric (c : Z) : bool :=
  ((48 <=? c) && (c <=? 57)) || ((65 <=? c) && (c <=? 90)) || ((97 <=? c) && (c <=? 122)).
Definition is_content_char (c : Z) : bool := negb (c <? 0x80) || is_ascii_alphanumeric c.

(** [text[base..].char_indices().find(|(_, c)| f(c)).map(|(i, _)| base + i)
    .unwrap_or(len)]. *)
Definition find_from (f : Z → bool) (text : list Z) (base len : Z) : out Z :=
  tail ← str_from text base;
  Ret (match List.find (λ ic, f (snd ic)) (char_indices tail) with
       | Some (i, _) => base + i
       | None => len
       end).

Fixpoint segments_loop (fuel : nat) (text : list Z) (len pos : Z) (segments : list Segment)
    : out (list Segment) :=
  if pos <? len then
    match fuel with
    | O => OutOfFuel
    | S fuel =>
        content_end ← find_from (negb ∘ is_content_char) text pos len;
        sep_end ← find_from is_content_char text content_end len;
        content ← str_slice text pos content_end;
        sep ← str_slice text content_end sep_end;
        segments_loop fuel text len sep_end (segments ++ [{| content := content; sep := sep |}])
    end
  else Ret segments.

(** Each turn of the loop takes at least the one character it starts on: as
    many turns as bytes are enough. *)
Definition split_into_segments (text : list Z) : out (list Segment) :=
  let len := str_len text in
  first_content ← find_from is_content_char text 0 len;
  segments ← (if 0 <? first_content
    then sep ← str_slice text 0 first_content; Ret [{| content := []; sep := sep |}]
    else Ret []);
  segments_loop (Z.to_nat len) text len first_content segments.

(** [while end < total && !combined.is_char_boundary(end) { end += 1 }]. *)
Fixpoint snap (fuel : nat) (combined : list Z) (total end_ : Z) : out Z :=
  if (end_ <? total) && negb (is_char_boundary combined end_) then
    match fuel with
    | O => OutOfFuel
    | S fuel => snap fuel combined total (end_ + 1)
    end
  else Ret end_.

Fixpoint equal_chunks_loop (is_ : list Z) (combined : list Z) (content_len total base extra offset : Z)
    (chunks : list (list Z * Z * Z)) : out (list (list Z * Z * Z)) :=
  match is_ with
  | [] => Ret chunks
  | i :: is_ =>
      if total <=? offset then Ret chunks else
      let target := if i <? extra then base + 1 else base in
      end_ ← snap (Z.to_nat total) combined total (offset + target);
      let end_ := if total <? end_ then total else end_ in
      chunk_str ← str_slice combined offset end_;
      let chunk_len := str_len chunk_str in
      let content_in_chunk :=
        if content_len <=? offset then 0
        else if offset + chunk_len <=? content_len then chunk_len
        else content_len - offset in
      equal_chunks_loop is_ combined content_len total base extra end_
        (chunks ++ [(chunk_str, content_in_chunk, chunk_len - content_in_chunk)])
  end.

Definition equal_chunks (content sep : list Z) (max_token : Z) : out (list (list Z * Z * Z)) :=
  let combined := content ++ sep in
  let total := str_len combined in
  if total =? 0 then Ret []
  else if total <=? max_token then Ret [(combined, str_len content, str_len sep)]
  else if max_token =? 0 then Panic
  else
    let num_chunks := div_ceil total max_token in
    let base := total / num_chunks in
    let extra := total mod num_chunks in
    equal_chunks_loop (range 0 num_chunks) combined (str_len content) total base extra 0 [].

(** The chunks of one word, with their metadata; [first] is [i == 0]. *)
Fixpoint with_meta (first : bool) (word_id : Z) (chunks : list (list Z * Z * Z))
    : list (list Z * ChunkMeta) :=
  match chunks with
  | [] => []
  | (chunk_str, content_len, sep_len) :: chunks =>
      (chunk_str, {| content_len := content_len; sep_len := sep_len; is_word_start := first;
                     word_id := word_id |}) :: with_meta false word_id chunks
  end.

Fixpoint chunk_segments (word_id : Z) (segments : list Segment) (max_token : Z)
    (result : list (list Z * ChunkMeta)) : out (list (list Z * ChunkMeta)) :=
  match segments with
  | [] => Ret result
  | seg :: segments =>
      chunks ← equal_chunks (content seg) (sep seg) max_token;
      chunk_segments (word_id + 1) segments max_token (result ++ with_meta true word_id chunks)
  end.

Definition segment_and_chunk (text : list Z) (max_token : Z) : out (list (list Z * ChunkMeta)) :=
  segments ← split_into_segments text;
  chunk_segments 0 segments max_token [].

(** The stream borrows the tokenizer's token and metadata: its fields are
    theirs while it lives. *)
Record EqualChunkStream := {
  st_chunks : list (list Z * ChunkMeta);
  st_index : Z;
  st_token : Token;
  st_meta : list ChunkMeta;
}.

Definition token_stream (t : EqualChunkTokenizer) (text : list Z) : out EqualChunkStream :=
  chunks ← segment_and_chunk text (max_token t);
  Ret {| st_chunks := chunks; st_index := 0; st_token := Token_default; st_meta := [] |}.

Definition advance (s : EqualChunkStream) : out (bool * EqualChunkStream) :=
  if #(st_chunks s) <=? st_index s then Ret (false, s) else
  '(text, meta) ← index (st_chunks s) (st_index s);
  Ret (true,
    {| st_chunks := st_chunks s;
       st_index := st_index s + 1;
       st_token := {| offset_from := 0; offset_to := str_len text; position := st_index s;
                      token_text := text; position_length := position_length (st_token s) |};
       st_meta := st_meta s ++ [meta] |}).

End equal_chunk.
Import equal_chunk.

(** ** Segments *)

Definition is_content (c : Z) : Prop := is_content_char c = true.
Definition is_sep (c : Z) : Prop := is_content_char c = false.
Definition seg_text (seg : Segment) : list Z := content seg ++ sep seg.

(** A segmentation of a text: the segments in order, each a run of content
    and a run of separators.  Only the first can lack content, only the last
    separators, so the runs are as long as can be: there is only one. *)
Definition segmentation (text : list Z) (segs : list Segment) : Prop :=
  flat_map seg_text segs = text ∧
  ∀ w seg, segs !! w = Some seg →
    Forall is_content (content seg) ∧ Forall is_sep (sep seg) ∧ seg_text seg ≠ [] ∧
    (w ≠ 0%nat → content seg ≠ []) ∧ (S w < length segs → sep seg ≠ [])%nat.

Lemma find_from_spec f pre s :
  find_from f (pre ++ s) (str_len pre) (str_len (pre ++ s)) =
    Ret (str_len pre + str_len (fst (span (negb ∘ f) s))).
Proof.
  unfold find_from. rewrite str_from_app, bind_ret, str_len_app. f_equal. unfold char_indices.
  pose proof (find_char_indices f s 0). destruct (List.find _ _) as [[j c]|]; lia.
Qed.

(** The reference: words by the longest run of content, then of separators. *)
Fixpoint words (fuel : nat) (s : list Z) : list Segment :=
  match fuel, s with
  | S fuel, _ :: _ =>
      let '(c, s) := span is_content_char s in
      let '(p, s) := span (negb ∘ is_content_char) s in
      {| content := c; sep := p |} :: words fuel s
  | _, _ => []
  end.

Definition starts_with_content (s : list Z) : Prop :=
  match s with c :: _ => is_content c | [] => True end.

Lemma span_ext f g s : (∀ c, f c = g c) → span f s = span g s.
Proof. intros E. induction s as [|c s IH]; simpl; [done|]. by rewrite E, IH. Qed.

Lemma span_negb_negb f s : span (negb ∘ (negb ∘ f)) s = span f s.
Proof. apply span_ext. intros c. apply negb_involutive. Qed.

Lemma span_cons_pos f c s : f c = true → 0 < str_len (fst (span f (c :: s))).
Proof.
  intros E. simpl. rewrite E. cbn [fst str_len]. pose proof (len_utf8_range c).
  pose proof (str_len_nonneg (fst (span f s))). lia.
Qed.

Lemma segments_loop_spec fuel pre s segs :
  starts_with_content s → str_len s ≤ Z.of_nat fuel →
  segments_loop fuel (pre ++ s) (str_len (pre ++ s)) (str_len pre) segs =
    Ret (segs ++ words fuel s).
Proof.
  revert pre s segs. induction fuel as [|fuel IH]; intros pre s segs Hs Hf.
  { assert (s = []) as -> by (apply str_len_zero; lia). rewrite !app_nil_r. simpl.
    by rewrite Z.ltb_irrefl. }
  destruct s as [|c s]; [rewrite !app_nil_r; cbn [segments_loop]; by rewrite Z.ltb_irrefl|].
  cbn [segments_loop words]. rewrite str_len_app. pose proof (str_len_pos c s).
  replace (str_len pre <? str_len pre + str_len (c :: s)) with true by lia. rewrite <- str_len_app.
  rewrite find_from_spec, bind_ret, span_negb_negb.
  pose proof (span_cons_pos is_content_char c s Hs) as Hpos.
  pose proof (span_app is_content_char (c :: s)) as E1.
  destruct (span is_content_char (c :: s)) as [w s1]. cbn [fst snd] in *. rewrite <- E1 in Hf |- *.
  rewrite <- str_len_app, app_assoc, find_from_spec, bind_ret.
  pose proof (span_app (negb ∘ is_content_char) s1) as E2.
  pose proof (span_head (negb ∘ is_content_char) s1) as Hh.
  destruct (span (negb ∘ is_content_char) s1) as [p s2]. cbn [fst snd] in *. subst s1.
  rewrite <- (app_assoc pre w (p ++ s2)) at 1. rewrite (str_slice_app' pre w), bind_ret.
  rewrite str_slice_app, bind_ret, <- (str_len_app (pre ++ w) p), (app_assoc (pre ++ w) p).
  rewrite !str_len_app in Hf. pose proof (str_len_nonneg p).
  rewrite IH; [by rewrite <- app_assoc| |lia].
  destruct s2 as [|c2 s2]; [done|]. specialize (Hh c2 s2 eq_refl).
  by apply negb_false_iff in Hh.
Qed.

Lemma span_seps s : Forall is_sep (fst (span (negb ∘ is_content_char) s)).
Proof.
  eapply Forall_impl; [apply span_forall|]. intros c Hc. by apply negb_true_iff in Hc.
Qed.

Lemma after_seps s : starts_with_content (snd (span (negb ∘ is_content_char) s)).
Proof.
  destruct (snd (span (negb ∘ is_content_char) s)) as [|c t] eqn:E; [done|].
  apply span_head in E. by apply negb_false_iff in E.
Qed.

Lemma words_spec fuel s :
  starts_with_content s → str_len s ≤ Z.of_nat fuel →
  flat_map seg_text (words fuel s) = s ∧
  ∀ w seg, words fuel s !! w = Some seg →
    Forall is_content (content seg) ∧ Forall is_sep (sep seg) ∧ content seg ≠ [] ∧
    (S w < length (words fuel s) → sep seg ≠ [])%nat.
Proof.
  revert s. induction fuel as [|fuel IH]; intros s Hs Hf.
  { assert (s = []) as -> by (apply str_len_zero; lia). split; [done|]. by intros []. }
  destruct s as [|c s]; [split; [done|]; by intros []|]. cbn [words].
  pose proof (span_cons_pos is_content_char c s Hs) as Hpos.
  pose proof (span_app is_content_char (c :: s)) as E1.
  pose proof (span_forall is_content_char (c :: s)) as Hc.
  pose proof (span_head is_content_char (c :: s)) as Hh1.
  destruct (span is_content_char (c :: s)) as [w0 s1]. cbn [fst snd] in *. rewrite <- E1 in Hf |- *.
  pose proof (span_app (negb ∘ is_content_char) s1) as E2.
  pose proof (span_seps s1) as Hp. pose proof (after_seps s1) as Hh2.
  destruct (span (negb ∘ is_content_char) s1) as [p s2]. cbn [fst snd] in *.
  rewrite <- E2, !str_len_app in Hf. pose proof (str_len_nonneg p).
  destruct (IH s2 Hh2) as [IH1 IH2]; [lia|]. split.
  { cbn [flat_map]. rewrite IH1. unfold seg_text. cbn [content sep]. by rewrite <- app_assoc, E2. }
  intros [|w] seg Hw; simpl in Hw.
  - simplify_eq. cbn [content sep]. split; [done|]. split; [done|].
    split; [by intros ->|]. intros Hlen ->. simpl in Hlen, Hh1.
    destruct s2 as [|c2 s2]; [destruct fuel; simpl in Hlen; lia|].
    specialize (Hh1 c2 s2 eq_refl). simpl in Hh2. unfold is_content in Hh2. congruence.
  - apply IH2 in Hw as (? & ? & ? & Hsep). split_and!; [done..|]. intros Hlen. apply Hsep.
    simpl in Hlen. lia.
Qed.

Lemma split_into_segments_spec text :
  ∃ segs, split_into_segments text = Ret segs ∧ segmentation text segs.
Proof.
  unfold split_into_segments.
  pose proof (find_from_spec is_content_char [] text) as Hf. cbn [app str_len] in Hf. rewrite Hf, bind_ret, Z.add_0_l.
  clear Hf.
  pose proof (span_app (negb ∘ is_content_char) text) as E. pose proof (span_seps text) as Hl.
  pose proof (after_seps text) as Hr.
  destruct (span (negb ∘ is_content_char) text) as [l r]. cbn [fst snd] in *. subst text.
  pose proof (str_len_nonneg l). pose proof (str_len_nonneg r).
  destruct (words_spec (Z.to_nat (str_len (l ++ r))) r Hr) as [Hw1 Hw2]; [rewrite str_len_app; lia|].
  set (ws := words _ r) in *.
  assert (∀ segs, segments_loop (Z.to_nat (str_len (l ++ r))) (l ++ r) (str_len (l ++ r)) (str_len l) segs
            = Ret (segs ++ ws)) as Hloop
    by (intros segs; apply segments_loop_spec; [done|rewrite str_len_app; lia]).
  destruct l as [|c l].
  - simpl. rewrite Hloop. exists ws. split; [done|]. split; [done|].
    intros w seg Hseg. apply Hw2 in Hseg as (? & ? & ? & ?). split_and!; [done..| |done|done].
    unfold seg_text. by destruct (content seg).
  - pose proof (str_len_pos c l). replace (0 <? str_len (c :: l)) with true by lia.
    pose proof (str_slice_app' [] (c :: l) r : str_slice ((c :: l) ++ r) 0 (str_len (c :: l)) = _) as Hs.
    rewrite Hs, !bind_ret, Hloop.
    eexists. split; [done|]. split; [simpl; by rewrite Hw1|].
    intros [|w] seg Hseg; simpl in Hseg.
    + simplify_eq. cbn [content sep]. split_and!; [done..|]. by intros _.
    + apply Hw2 in Hseg as (? & ? & ? & Hsep). split_and!; [done..| |done|].
      * unfold seg_text. by destruct (content seg).
      * intros Hlen. apply Hsep. simpl in Hlen. lia.
Qed.

(** ** Chunks *)

Definition is_ascii (s : list Z) : Prop := Forall (λ c, c < 0x80) s.

(** A chunk of a segment: some text, its content first and its separators
    after, with their lengths, at most three bytes over the maximum. *)
Definition chunk_ok (max_token : Z) (s : list Z) (content_len sep_len : Z) : Prop :=
  s ≠ [] ∧ str_len s ≤ max_token + 3 ∧
  ∃ a b, s = a ++ b ∧ Forall is_content a ∧ Forall is_sep b ∧
    content_len = str_len a ∧ sep_len = str_len b.

Lemma snap_near k fuel s e :
  e + Z.of_nat k ≤ str_len s → is_char_boundary s (e + Z.of_nat k) = true → (k ≤ fuel)%nat →
  ∃ e', snap fuel s (str_len s) e = Ret e' ∧ e ≤ e' ≤ e + Z.of_nat k ∧ is_char_boundary s e' = true.
Proof.
  revert fuel e. induction k as [|k IH]; intros fuel e Hle Hb Hf.
  { rewrite Z.add_0_r in *. exists e. destruct fuel; simpl; rewrite Hb, andb_false_r; split_and!; done || lia. }
  destruct (is_char_boundary s e) eqn:E.
  { exists e. destruct fuel; simpl; rewrite E, andb_false_r; split_and!; done || lia. }
  destruct fuel as [|fuel]; [lia|]. simpl. rewrite E.
  replace (e <? str_len s) with true by lia. simpl.
  destruct (IH fuel (e + 1)) as (e' & He' & Hr & Hb'); [lia| |lia|].
  - by replace (e + 1 + Z.of_nat k) with (e + Z.of_nat (S k)) by lia.
  - exists e'. split; [done|]. split; [lia|done].
Qed.

(** One turn of the loop takes the text up to the first boundary at or after
    the target, or all that is left. *)
Lemma next_chunk pre rest target :
  rest ≠ [] → 1 ≤ target →
  let s := pre ++ rest in let total := str_len s in
  ∃ m rest' e, rest = m ++ rest' ∧ m ≠ [] ∧
    snap (Z.to_nat total) s total (str_len pre + target) = Ret e ∧
    (if total <? e then total else e) = str_len pre + str_len m ∧
    Z.min target (str_len rest) ≤ str_len m ≤ target + 3 ∧
    (is_ascii s → str_len m = Z.min target (str_len rest)).
Proof.
  intros Hr Ht s total. pose proof (str_len_nonneg pre). pose proof (str_len_nonneg rest).
  assert (total = str_len pre + str_len rest) as Htot by apply str_len_app.
  destruct (decide (str_len pre + target ≤ total)) as [Hle|Hgt].
  - destruct (boundary_near s (str_len pre + target)) as (k & Hk & Hke & Hkb); [unfold total in *; lia|].
    destruct (snap_near (Z.to_nat k) (Z.to_nat total) s (str_len pre + target)) as (e & He & Hb & Heb).
    { unfold total in *. lia. } { by rewrite Z2Nat.id by lia. } { unfold total in *. lia. }
    rewrite Z2Nat.id in Hb by lia. pose proof Heb as (a & b & Hab & Hea)%boundary_inv.
    destruct (app_eq_inv a b pre rest) as [(m & -> & Hm)|(m & Hm & _)]; [done| |].
    + exists m, b, e. rewrite str_len_app in Hea. split; [done|].
      split; [intros ->; simpl in Hea; lia|]. split; [done|]. split; [case_lia; unfold total in *; lia|].
      split; [lia|]. intros Ha.
      destruct (snap_near 0 (Z.to_nat total) s (str_len pre + target)) as (e1 & He1 & Hb1 & _).
      { unfold total in *. lia. }
      { apply boundary_ascii; [done|]. rewrite <- str_len_ascii by done. unfold total in *. lia. }
      { lia. }
      rewrite He in He1. injection He1 as <-. lia.
    + exfalso. pose proof (str_len_nonneg m). rewrite Hm, str_len_app in Hb. lia.
  - exists rest, [], (str_len pre + target). rewrite app_nil_r. split; [done|]. split; [done|].
    split.
    { destruct (Z.to_nat total); cbn [snap]; by replace (str_len pre + target <? total) with false by lia. }
    split; [case_lia; lia|]. split; [lia|]. lia.
Qed.

(** The lengths the loop computes split the chunk where the content ends. *)
Lemma content_part c p pre m rest :
  c ++ p = pre ++ m ++ rest → Forall is_content c → Forall is_sep p →
  let n := if str_len c <=? str_len pre then 0
           else if str_len pre + str_len m <=? str_len c then str_len m
           else str_len c - str_len pre in
  ∃ a b, m = a ++ b ∧ Forall is_content a ∧ Forall is_sep b ∧ n = str_len a ∧
    str_len m - n = str_len b.
Proof.
  intros E Hc Hp n.
  enough (∃ a b, m = a ++ b ∧ Forall is_content a ∧ Forall is_sep b ∧ n = str_len a)
    as (a & b & -> & Ha & Hb & Hn).
  { exists a, b. split_and!; try done. rewrite str_len_app. lia. }
  destruct (app_eq_inv _ _ _ _ E) as [(k & -> & Hk)|(k & -> & ->)].
  - apply Forall_app in Hc as [_ Hc].
    destruct (app_eq_inv _ _ _ _ Hk) as [(k' & -> & ->)|(k' & -> & ->)].
    + exists k, k'. apply Forall_app in Hp as [Hp _]. split_and!; try done.
      unfold n. rewrite !str_len_app. pose proof (str_len_nonneg k). pose proof (str_len_nonneg k').
      repeat case_lia; lia.
    + exists m, []. apply Forall_app in Hc as [Hc _]. rewrite app_nil_r. split_and!; try done.
      unfold n. rewrite !str_len_app. pose proof (str_len_nonneg m). pose proof (str_len_nonneg k').
      repeat case_lia; lia.
  - exists [], m. apply Forall_app in Hp as [_ [Hp _]%Forall_app]. split_and!; try done.
    unfold n. rewrite str_len_app. pose proof (str_len_nonneg k). simpl. repeat case_lia; lia.
Qed.

Section Loop.
Context (c p : list Z) (Hc : Forall is_content c) (Hp : Forall is_sep p).
Context (max_token num base extra : Z).
Let total := str_len (c ++ p).
Context (Hbase : 1 ≤ base) (Hextra : 0 ≤ extra < num) (Htotal : base * num + extra = total).
Context (Hmax : base + (if 0 <? extra then 1 else 0) ≤ max_token).

Definition target_of (i : Z) : Z := if i <? extra then base + 1 else base.

(** The byte the plan starts chunk [i] at. *)
Definition planned (i : Z) : Z := base * i + Z.min i extra.

Lemma planned_succ i : planned (i + 1) = planned i + target_of i.
Proof. unfold planned, target_of. case_lia; lia. Qed.

Lemma planned_end i : 0 ≤ i ≤ num → planned i + (num - i) ≤ total.
Proof. unfold planned. nia. Qed.

Lemma target_range i : 0 ≤ i → 1 ≤ target_of i ≤ max_token.
Proof. intros Hi. unfold target_of. destruct (i <? extra) eqn:E, (0 <? extra) eqn:E0; lia. Qed.

(** From chunk [i] on, the loop cuts what is left into good chunks, never
    behind the plan, which ends with the text; on ASCII text it follows the
    plan to the byte. *)
Lemma equal_chunks_loop_spec n i pre rest acc :
  c ++ p = pre ++ rest → 0 ≤ i → i + Z.of_nat n = num → Z.min total (planned i) ≤ str_len pre →
  ∃ cs, equal_chunks_loop (range i num) (c ++ p) (str_len c) total base extra (str_len pre) acc
          = Ret (acc ++ cs) ∧
    flat_map (λ x, fst (fst x)) cs = rest ∧
    Forall (λ x, chunk_ok max_token (fst (fst x)) (snd (fst x)) (snd x)) cs ∧
    (is_ascii (c ++ p) → str_len pre = planned i →
       map (λ x, str_len (fst (fst x))) cs = map target_of (range i num)).
Proof.
  revert i pre rest acc. induction n as [|n IH]; intros i pre rest acc E Hi Hn Hpre.
  { assert (str_len rest ≤ 0).
    { pose proof (str_len_app pre rest) as Hl. rewrite <- E in Hl. fold total in Hl.
      assert (planned i = total) by (unfold planned; nia). lia. }
    assert (rest = []) as -> by (by apply str_len_zero).
    exists []. rewrite range_nil, app_nil_r by lia. split_and!; done || by intros. }
  pose proof (str_len_app pre rest) as Hl. rewrite <- E in Hl. fold total in Hl.
  pose proof (planned_end i) as Hend. pose proof (target_range i Hi) as Ht.
  rewrite range_cons by lia. cbn [equal_chunks_loop].
  destruct (decide (rest = [])) as [->|Hr].
  { simpl in Hl. replace (total <=? str_len pre) with true by lia. exists []. rewrite app_nil_r.
    split_and!; try done. intros _ Heq. exfalso. lia. }
  assert (0 < str_len rest) by (destruct rest; [done|apply str_len_pos]).
  replace (total <=? str_len pre) with false by lia. fold (target_of i).
  destruct (next_chunk pre rest (target_of i) Hr) as (m & rest' & e & Hm & Hm0 & He & Hc' & Hlen & Ha); [lia|].
  rewrite <- E in He, Hc', Ha. fold total in He, Hc'. rewrite He, bind_ret, Hc'.
  rewrite Hm in E. pose proof (str_slice_app pre m rest') as Hslice.
  rewrite <- E in Hslice. rewrite Hslice, bind_ret.
  destruct (content_part c p pre m rest' E Hc Hp) as (a & b & Hab & Hca & Hsb & Hna & Hnb).
  set (content_in := if str_len c <=? _ then _ else _) in *. rewrite <- (str_len_app pre m).
  edestruct (IH (i + 1) (pre ++ m) rest') as (cs & Hcs & Htext & Hok & Hasc).
  { by rewrite <- app_assoc. } { lia. } { lia. }
  { rewrite planned_succ, str_len_app. rewrite Hm, str_len_app in Hl, Hlen. pose proof (str_len_nonneg rest'). lia. }
  eexists. rewrite Hcs, <- app_assoc. split; [done|]. split; [simpl; by rewrite Htext, Hm|]. split.
  - constructor; [|done]. cbn [fst snd]. split; [done|]. split; [lia|]. exists a, b. split_and!; done.
  - intros Hasci Heq. simpl. pose proof (planned_succ i) as Hs. pose proof (planned_end (i + 1)) as He1.
    assert (str_len m = target_of i) as Hmi by (specialize (Ha Hasci); lia). rewrite Hmi. f_equal.
    apply Hasc; [done|]. rewrite str_len_app. lia.
Qed.

End Loop.

(** The plan of a segment longer than the maximum. *)
Lemma chunk_plan total max_token :
  1 ≤ max_token < total →
  let num := div_ceil total max_token in
  let base := total / num in let extra := total mod num in
  1 < num ∧ 1 ≤ base ∧ 0 ≤ extra < num ∧ base * num + extra = total ∧
  base + (if 0 <? extra then 1 else 0) ≤ max_token.
Proof.
  intros Hm num base extra.
  assert (total ≤ max_token * num < total + max_token) as Hnum.
  { unfold num, div_ceil. pose proof (Z.div_mod (total + max_token - 1) max_token).
    pose proof (Z.mod_pos_bound (total + max_token - 1) max_token). lia. }
  assert (1 < num) by nia. assert (num ≤ total) by nia.
  assert (0 ≤ extra < num) by (apply Z.mod_pos_bound; lia).
  assert (base * num + extra = total) by (unfold base, extra; rewrite (Z.div_mod total num) at 3; lia).
  split; [lia|]. split; [nia|]. split; [done|]. split; [done|]. case_lia; nia.
Qed.

(** [equal_chunks] on a segment: the chunks are the segment, and on ASCII text
    there are as few as the maximum allows, their lengths a byte apart at
    most. *)
Lemma equal_chunks_spec c p max_token :
  1 ≤ max_token → Forall is_content c → Forall is_sep p →
  let total := str_len (c ++ p) in
  ∃ cs, equal_chunks c p max_token = Ret cs ∧
    flat_map (λ x, fst (fst x)) cs = c ++ p ∧
    Forall (λ x, chunk_ok max_token (fst (fst x)) (snd (fst x)) (snd x)) cs ∧
    (is_ascii (c ++ p) →
       #cs = div_ceil total max_token ∧
       Forall (λ x, total / #cs ≤ str_len (fst (fst x)) ≤ Z.min max_token (total / #cs + 1)) cs).
Proof.
  intros Hm Hc Hp total. unfold equal_chunks. fold total.
  pose proof (str_len_nonneg (c ++ p)) as Hnn. fold total in Hnn.
  destruct (total =? 0) eqn:E0.
  { assert (c ++ p = []) as Hnil by (apply str_len_zero; unfold total in *; lia).
    exists []. rewrite Hnil. split_and!; try done. intros _. split; [|done].
    replace total with 0 by lia. unfold div_ceil. by rewrite Z.div_small by lia. }
  destruct (total <=? max_token) eqn:E1.
  { eexists. split; [done|]. split; [simpl; by rewrite app_nil_r|]. split.
    - constructor; [|done]. cbn [fst snd]. split; [intros Hnil; unfold total in *; rewrite Hnil in *; done|].
      fold total. split; [lia|]. by exists c, p.
    - intros _. rewrite len_cons, len_nil. simpl (0 + 1). rewrite Z.div_1_r. split.
      + unfold div_ceil. apply Z.div_unique with (total - 1); lia.
      + constructor; [|done]. cbn [fst]. fold total. lia. }
  replace (max_token =? 0) with false by lia.
  destruct (chunk_plan total max_token) as (Hn & Hb & He & Ht & Hle); [lia|].
  set (num := div_ceil total max_token) in *.
  destruct (equal_chunks_loop_spec c p Hc Hp max_token num (total / num) (total mod num)
    Hb He Ht Hle (Z.to_nat num) 0 [] (c ++ p) []) as (cs & Hcs & Htext & Hok & Hasc);
    [done|lia|lia|unfold planned; simpl; lia|].
  exists cs. split; [exact Hcs|]. split; [done|]. split; [done|]. intros Ha.
  specialize (Hasc Ha).
  assert (map (λ x, str_len (fst (fst x))) cs = map (target_of (total / num) (total mod num)) (range 0 num))
    as Hlens by (apply Hasc; unfold planned; simpl; lia).
  assert (#cs = num) as Hlen.
  { rewrite <- (len_map (λ x, str_len (fst (fst x))) cs), Hlens, len_map, len_range; lia. }
  split; [done|]. rewrite Hlen.
  enough (Forall (λ n, total / num ≤ n ≤ Z.min max_token (total / num + 1))
    (map (λ x, str_len (fst (fst x))) cs)) as Hf by (by rewrite List.Forall_map in Hf).
  rewrite Hlens, List.Forall_map. apply Forall_forall. intros i [Hi _]%elem_of_range. cbv beta.
  pose proof (target_range c p max_token (total / num) (total mod num) Hb Hle i Hi).
  unfold target_of in *. case_match; lia.
Qed.

(** ** The chunks of a text *)

(** The word starts of a list of chunks are its changes of word: the first
    chunk of a word is one, the others are not. *)
Fixpoint word_starts (prev : option Z) (cs : list (list Z * ChunkMeta)) : Prop :=
  match cs with
  | [] => True
  | (_, m) :: cs =>
      is_word_start m = bool_decide (prev ≠ Some (word_id m)) ∧ word_starts (Some (word_id m)) cs
  end.

(** The text of the chunks of word [w]. *)
Definition word_text (w : Z) (cs : list (list Z * ChunkMeta)) : list Z :=
  flat_map fst (List.filter (λ x, word_id (snd x) =? w) cs).

Lemma with_meta_text first w c :
  flat_map fst (with_meta first w c) = flat_map (λ x, fst (fst x)) c.
Proof. revert first. induction c as [|[[s a] b] c IH]; intros first; simpl; [done|]. by rewrite IH. Qed.

Lemma with_meta_forall first w c (P : list Z → Z → Z → Prop) :
  Forall (λ x, P (fst (fst x)) (snd (fst x)) (snd x)) c →
  Forall (λ x, P (fst x) (content_len (snd x)) (sep_len (snd x)) ∧ word_id (snd x) = w)
    (with_meta first w c).
Proof.
  intros H. revert first. induction H as [|[[s a] b] c Hx _ IH]; intros first; simpl; [done|].
  by constructor.
Qed.

Lemma with_meta_starts first w c prev rest :
  c ≠ [] → first = bool_decide (prev ≠ Some w) → word_starts (Some w) rest →
  word_starts prev (with_meta first w c ++ rest).
Proof.
  intros Hc Hf Hr. revert first prev Hf. induction c as [|[[s a] b] c IH]; [done|].
  intros first prev Hf. simpl. split; [done|]. destruct c as [|x c]; [done|].
  apply IH; [done|]. symmetry. apply bool_decide_eq_false. naive_solver.
Qed.

Lemma word_text_same w (cs : list (list Z * ChunkMeta)) :
  Forall (λ x, word_id (snd x) = w) cs → word_text w cs = flat_map fst cs.
Proof.
  unfold word_text. induction 1 as [|x cs Hx _ IH]; [done|]. simpl. rewrite Hx, Z.eqb_refl. simpl.
  by rewrite IH.
Qed.

Lemma word_text_other w (cs : list (list Z * ChunkMeta)) :
  Forall (λ x, word_id (snd x) ≠ w) cs → word_text w cs = [].
Proof.
  unfold word_text. induction 1 as [|x cs Hx _ IH]; [done|]. simpl.
  by replace (word_id (snd x) =? w) with false by lia.
Qed.

Lemma word_text_app w (a b : list (list Z * ChunkMeta)) :
  word_text w (a ++ b) = word_text w a ++ word_text w b.
Proof. unfold word_text. by rewrite List.filter_app, flat_map_app. Qed.

Lemma chunk_segments_spec max_token segs k acc :
  1 ≤ max_token →
  Forall (λ seg, Forall is_content (content seg) ∧ Forall is_sep (sep seg) ∧ seg_text seg ≠ []) segs →
  ∃ cs, chunk_segments k segs max_token acc = Ret (acc ++ cs) ∧
    flat_map fst cs = flat_map seg_text segs ∧
    Forall (λ x, chunk_ok max_token (fst x) (content_len (snd x)) (sep_len (snd x)) ∧
                 k ≤ word_id (snd x) < k + #segs) cs ∧
    (∀ prev, match prev with Some p => p < k | None => True end → word_starts prev cs) ∧
    (∀ w seg, segs !! w = Some seg → word_text (k + Z.of_nat w) cs = seg_text seg) ∧
    (is_ascii (flat_map seg_text segs) → Forall (λ x, str_len (fst x) ≤ max_token) cs).
Proof.
  intros Hm Hs. revert k acc. induction Hs as [|seg segs (Hc & Hp & Hne) _ IH]; intros k acc.
  { exists []. simpl. rewrite app_nil_r. split_and!; done || by intros. }
  destruct (equal_chunks_spec (content seg) (sep seg) max_token Hm Hc Hp)
    as (c & Ec & Htext & Hok & Hasc). fold (seg_text seg) in *.
  destruct (IH (k + 1) (acc ++ with_meta true k c)) as (cs & Ecs & Hcs & Hoks & Hst & Hw & Has).
  exists (with_meta true k c ++ cs). cbn [chunk_segments]. rewrite Ec, bind_ret, Ecs, <- app_assoc.
  split; [done|]. assert (c ≠ []) as Hc0 by (intros ->; by destruct Hne).
  pose proof (with_meta_forall true k c _ Hok) as Hmeta.
  assert (Forall (λ x, word_id (snd x) = k) (with_meta true k c)) as Hk
    by (eapply Forall_impl; [exact Hmeta|]; naive_solver).
  assert (Forall (λ x, k + 1 ≤ word_id (snd x)) cs) as Hk1
    by (eapply Forall_impl; [exact Hoks|]; naive_solver lia).
  split; [rewrite flat_map_app, with_meta_text, Htext; simpl; by rewrite Hcs|]. split.
  { apply Forall_app. rewrite len_cons. pose proof (len_nonneg segs). split.
    - eapply Forall_impl; [exact Hmeta|]. cbv beta. intros x [H1 H2]. split; [done|lia].
    - eapply Forall_impl; [exact Hoks|]. cbv beta. intros x [H1 H2]. split; [done|lia]. }
  split.
  { intros prev Hprev. apply with_meta_starts; [done| |].
    { symmetry. apply bool_decide_eq_true. destruct prev; naive_solver lia. }
    apply Hst. lia. }
  split.
  { intros [|w] sg Hsg; simpl in Hsg; rewrite word_text_app.
    - simplify_eq. rewrite Z.add_0_r, (word_text_same k), with_meta_text, Htext by done.
      rewrite word_text_other by (eapply Forall_impl; [exact Hk1|]; cbv beta; lia). apply app_nil_r.
    - rewrite word_text_other by (eapply Forall_impl; [exact Hk|]; cbv beta; lia).
      replace (k + Z.of_nat (S w)) with (k + 1 + Z.of_nat w) by lia. by apply Hw. }
  intros Ha. simpl in Ha. apply Forall_app in Ha as [Ha1 Ha2]. apply Forall_app. split; [|by apply Has].
  destruct (Hasc Ha1) as [_ Hl].
  pose proof (with_meta_forall true k c (λ s _ _, str_len s ≤ max_token)) as Hf.
  eapply Forall_impl; [apply Hf|]; [|naive_solver]. eapply Forall_impl; [exact Hl|]. cbv beta. lia.
Qed.

(** ** The token stream *)

(** [while stream.advance() { tokens.push(stream.token()) }]. *)
Fixpoint drain (fuel : nat) (s : EqualChunkStream) : out (list Token * EqualChunkStream) :=
  match fuel with
  | O => OutOfFuel
  | S fuel =>
      '(more, s) ← advance s;
      if (more : bool) then
        '(tokens, s') ← drain fuel s;
        Ret (st_token s :: tokens, s')
      else Ret ([], s)
  end.

(** The token of the chunk at position [i]. *)
Definition token_of (i : Z) (s : list Z) : Token :=
  {| offset_from := 0; offset_to := str_len s; position := i; token_text := s; position_length := 1 |}.

Lemma advance_next done_ t m rest tok metas :
  advance {| st_chunks := done_ ++ (t, m) :: rest; st_index := #done_; st_token := tok; st_meta := metas |} =
    Ret (true, {| st_chunks := done_ ++ (t, m) :: rest; st_index := #done_ + 1;
                  st_token := {| offset_from := 0; offset_to := str_len t; position := #done_;
                                 token_text := t; position_length := position_length tok |};
                  st_meta := metas ++ [m] |}).
Proof.
  unfold advance. cbn [st_chunks st_index]. rewrite len_app, len_cons.
  pose proof (len_nonneg rest). pose proof (len_nonneg done_).
  replace (_ <=? _) with false by lia.
  rewrite (index_lookup _ _ (t, m)); [done|lia|].
  rewrite len_to_nat, lookup_app_r, Nat.sub_diag; done.
Qed.

Lemma drain_spec done_ rest tok :
  position_length tok = 1 →
  ∃ tok', drain (S (length rest)) {| st_chunks := done_ ++ rest; st_index := #done_; st_token := tok;
                                    st_meta := map snd done_ |} =
    Ret (imap (λ i x, token_of (#done_ + Z.of_nat i) (fst x)) rest,
      {| st_chunks := done_ ++ rest; st_index := #(done_ ++ rest); st_token := tok';
         st_meta := map snd (done_ ++ rest) |}).
Proof.
  revert done_ tok. induction rest as [|[t m] rest IH]; intros done_ tok Htok.
  { exists tok. cbn [length drain]. unfold advance. cbn [st_chunks st_index].
    rewrite app_nil_r. by replace (#done_ <=? #done_) with true by lia. }
  destruct (IH (done_ ++ [(t, m)]) (token_of #done_ t)) as (tok' & Htok'); [done|].
  exists tok'. change (length ((t, m) :: rest)) with (S (length rest)).
  remember (S (length rest)) as fuel eqn:E. cbn [drain]. rewrite advance_next, bind_ret, Htok.
  rewrite map_app, !len_app, <- !app_assoc, len_cons, len_nil, Z.add_0_r in Htok'.
  cbn [map app snd] in Htok'. unfold token_of at 1 in Htok'. rewrite Htok', bind_ret.
  cbn [imap]. f_equal. f_equal; [|f_equal; rewrite ?len_app, ?len_cons; lia].
  rewrite Z.add_0_r. f_equal. apply imap_ext. intros i x _. simpl. f_equal. lia.
Qed.

(** The segments of a text and the chunks they are cut into. *)
Lemma segment_and_chunk_spec text max_token :
  1 ≤ max_token →
  ∃ segs cs, split_into_segments text = Ret segs ∧ segmentation text segs ∧
    segment_and_chunk text max_token = Ret cs ∧
    flat_map fst cs = text ∧
    Forall (λ x, chunk_ok max_token (fst x) (content_len (snd x)) (sep_len (snd x)) ∧
                 0 ≤ word_id (snd x) < #segs) cs ∧
    word_starts None cs ∧
    ∀ w seg, segs !! w = Some seg → word_text (Z.of_nat w) cs = content seg ++ sep seg.
Proof.
  intros Hm. destruct (split_into_segments_spec text) as (segs & Es & Htext & Hsegs).
  assert (Forall (λ seg, Forall is_content (content seg) ∧ Forall is_sep (sep seg) ∧ seg_text seg ≠ []) segs)
    as Hok by (apply Forall_lookup; intros w seg Hw; naive_solver).
  destruct (chunk_segments_spec max_token segs 0 [] Hm Hok) as (cs & Ec & Hf & Hcs & Hst & Hw & _).
  exists segs, cs. split; [done|]. split; [done|].
  split; [unfold segment_and_chunk; by rewrite Es, bind_ret|]. split; [by rewrite Hf|].
  split; [done|]. split; [by apply Hst|]. apply Hw.
Qed.

(** ** Properties *)

(** C39. Chunking loses nothing and describes what it cuts.  For any text and
    any maximum from one up, [split_into_segments] gives the one segmentation
    of the text into words and the separators after them, and
    [segment_and_chunk] returns chunks whose concatenation is the text; no
    chunk is empty, none is more than three bytes over the maximum; each
    holds [content_len] bytes of content and then [sep_len] bytes of
    separators; the chunks of each word make up its segment, and a chunk is
    marked as a word start exactly when it is the first of its word. *)
Theorem chunking_lossless (text : list Z) (max_token : Z) :
  1 ≤ max_token →
  ∃ segs cs, split_into_segments text = Ret segs ∧ segmentation text segs ∧
    segment_and_chunk text max_token = Ret cs ∧
    flat_map fst cs = text ∧
    Forall (λ x, chunk_ok max_token (fst x) (content_len (snd x)) (sep_len (snd x)) ∧
                 0 ≤ word_id (snd x) < #segs) cs ∧
    word_starts None cs ∧
    ∀ w seg, segs !! w = Some seg → word_text (Z.of_nat w) cs = content seg ++ sep seg.
Proof.
  apply segment_and_chunk_spec.
Qed.

(** [mutex_lock->x], which has two kinds of separators. *)
Definition sample_text : list Z :=
  [109; 117; 116; 101; 120; 95; 108; 111; 99; 107; 45; 62; 120].

Lemma chunking_lossless_witness :
  ∃ cs, segment_and_chunk sample_text DEFAULT_MAX_TOKEN = Ret cs ∧ flat_map fst cs = sample_text ∧
    word_text 1 cs = [108; 111; 99; 107; 45; 62].
Proof.
  destruct (chunking_lossless sample_text DEFAULT_MAX_TOKEN) as (segs & cs & Es & _ & Ec & Ht & _ & _ & Hw);
    [vm_compute; congruence|].
  exists cs. split; [exact Ec|]. split; [exact Ht|].
  apply (Hw 1%nat {| content := [108; 111; 99; 107]; sep := [45; 62] |}).
  vm_compute in Es. injection Es as <-. reflexivity.
Defined.

(** Chunk sizes.  On an ASCII segment [equal_chunks] cuts the fewest
    chunks the maximum allows, none above it, and their lengths are a byte
    apart at most.  On other text the maximum is not one: the end of a chunk
    is moved forward to a character boundary, so eight ideographs of three
    bytes give chunks of nine bytes where [with_max_token] documents eight. *)
Theorem chunk_sizes :
  (∀ c p max_token, 1 ≤ max_token → Forall is_content c → Forall is_sep p → is_ascii (c ++ p) →
     let total := str_len (c ++ p) in
     ∃ cs, equal_chunks c p max_token = Ret cs ∧ #cs = div_ceil total max_token ∧
       Forall (λ x, total / #cs ≤ str_len (fst (fst x)) ≤ Z.min max_token (total / #cs + 1)) cs) ∧
  (∃ cs, segment_and_chunk (replicate 8 0x5F15) DEFAULT_MAX_TOKEN = Ret cs ∧
     map (λ x, str_len (fst x)) cs = [9; 9; 6]).
Proof.
  split; [|eexists; by split; vm_compute].
  intros c p max_token Hm Hc Hp Ha total.
  destruct (equal_chunks_spec c p max_token Hm Hc Hp) as (cs & Ec & _ & _ & H).
  exists cs. split; [done|]. by apply H.
Qed.

(** A token stream yields the chunks in order and ends: from a tokenizer
    of any history, advancing until [false] gives one token per chunk, at
    positions 0, 1, 2, ..., with the chunk's text and length, and leaves in
    the tokenizer exactly the metadata of the chunks, the earlier text's
    cleared. *)
Theorem token_stream_drained (t : EqualChunkTokenizer) (text : list Z) :
  1 ≤ max_token t →
  ∃ s cs s', token_stream t text = Ret s ∧ segment_and_chunk text (max_token t) = Ret cs ∧
    drain (S (length cs)) s = Ret (imap (λ i x, token_of (Z.of_nat i) (fst x)) cs, s') ∧
    st_meta s' = map snd cs ∧ advance s' = Ret (false, s').
Proof.
  intros Hm. destruct (segment_and_chunk_spec text _ Hm) as (segs & cs & _ & _ & E & _).
  destruct (drain_spec [] cs Token_default eq_refl) as (tok & Hd).
  eexists _, cs, _. unfold token_stream. rewrite E, bind_ret. split; [done|]. split; [done|].
  split; [exact Hd|]. split; [done|]. unfold advance. cbn [st_chunks st_index app].
  by replace (#cs <=? #cs) with true by lia.
Qed.

Definition sample_tokenizer : EqualChunkTokenizer :=
  {| max_token := 8; tk_token := token_of 3 [97]; tk_meta := [] |}.

Lemma token_stream_drained_witness :
  ∃ s s' toks, token_stream sample_tokenizer sample_text = Ret s ∧ drain 4 s = Ret (toks, s') ∧
    map position toks = [0; 1; 2].
Proof.
  destruct (token_stream_drained sample_tokenizer sample_text) as (s & cs & s' & E & Ec & Ed & _);
    [vm_compute; congruence|].
  vm_compute in Ec. injection Ec as <-. eexists s, s', _. split; [exact E|]. split; [exact Ed|].
  reflexivity.
Defined.
