(* ===== verification/FuzzyDistance.v ===== *)
(** * The edit distance behind the fuzzy occurrences

    [edit a b k]: [b] is got from [a] by [k] edits.  [dist needle hay i j],
    the recurrence of the matrix, is the least number of edits from the first
    [i] bytes of the needle to a substring of the text that ends at [j]. *)
From S2P Require Import Prelude.

(** ** Edits *)

Inductive edit : list Z → list Z → Z → Prop :=
| edit_nil : edit [] [] 0
| edit_keep a b x k : edit a b k → edit (a ++ [x]) (b ++ [x]) k
| edit_change a b x y k : edit a b k → edit (a ++ [x]) (b ++ [y]) (k + 1)
| edit_drop a b x k : edit a b k → edit (a ++ [x]) b (k + 1)
| edit_skip a b y k : edit a b k → edit a (b ++ [y]) (k + 1).

Lemma edit_nonneg a b k : edit a b k → 0 ≤ k.
Proof. induction 1; lia. Qed.

(** An edited text is longer by at most its number of edits. *)
Lemma edit_length a b k : edit a b k → #b ≤ #a + k.
Proof. induction 1; rewrite ?len_app, ?len_cons, ?len_nil; lia. Qed.

(** [hay[s..e]]. *)
Definition sub (hay : list Z) (s e : nat) : list Z := take (e - s) (drop s hay).

Lemma sub_nil hay s : sub hay s s = [].
Proof. unfold sub. by rewrite Nat.sub_diag. Qed.

Lemma sub_snoc hay s e y :
  (s ≤ e)%nat → hay !! e = Some y → sub hay s (S e) = sub hay s e ++ [y].
Proof.
  intros Hs He. unfold sub. replace (S e - s)%nat with (S (e - s)) by lia.
  apply take_S_r. rewrite lookup_drop. by replace (s + (e - s))%nat with e by lia.
Qed.

Lemma length_sub hay s e : (s ≤ e ≤ length hay)%nat → length (sub hay s e) = (e - s)%nat.
Proof. intros H. unfold sub. rewrite length_take, length_drop. lia. Qed.

Lemma sub_snoc_inv hay s e b y :
  (s ≤ e ≤ length hay)%nat → sub hay s e = b ++ [y] →
  ∃ e', e = S e' ∧ (s ≤ e')%nat ∧ hay !! e' = Some y ∧ b = sub hay s e'.
Proof.
  intros H E. pose proof (f_equal length E) as Hl. rewrite length_sub, length_app in Hl by done. simpl in Hl.
  exists (e - 1)%nat. assert (is_Some (hay !! (e - 1)%nat)) as [z Hz] by (apply lookup_lt_is_Some; lia).
  replace e with (S (e - 1)) in E by lia. rewrite (sub_snoc _ _ _ z) in E by (done || lia).
  apply app_inj_tail in E as [<- <-]. split_and!; done || lia.
Qed.

Lemma take_snoc_inv (l a : list Z) i x :
  (i ≤ length l)%nat → take i l = a ++ [x] → ∃ i', i = S i' ∧ l !! i' = Some x ∧ a = take i' l.
Proof.
  intros H E. pose proof (f_equal length E) as Hl. rewrite length_take, length_app in Hl. simpl in Hl.
  exists (i - 1)%nat. assert (is_Some (l !! (i - 1)%nat)) as [z Hz] by (apply lookup_lt_is_Some; lia).
  replace i with (S (i - 1)) in E by lia. rewrite (take_S_r _ _ z) in E by done.
  apply app_inj_tail in E as [<- <-]. split_and!; done || lia.
Qed.

(** ** The recurrence *)

Section Dist.
Context (needle hay : list Z).

Definition cost (i j : nat) : Z := if decide (needle !! i = hay !! j) then 0 else 1.

Fixpoint dist (i : nat) : nat → Z :=
  match i with
  | O => λ _, 0
  | S i' => fix col j :=
      match j with
      | O => Z.of_nat i
      | S j' => Z.min (Z.min (dist i' j + 1) (col j' + 1)) (dist i' j' + cost i' j')
      end
  end.

Lemma dist_0_l j : dist 0 j = 0.
Proof. done. Qed.

Lemma dist_0_r i : dist i 0 = Z.of_nat i.
Proof. by destruct i. Qed.

Lemma dist_S i j :
  dist (S i) (S j) = Z.min (Z.min (dist i (S j) + 1) (dist (S i) j + 1)) (dist i j + cost i j).
Proof. done. Qed.

Lemma cost_range i j : 0 ≤ cost i j ≤ 1.
Proof. unfold cost. case_decide; lia. Qed.

Lemma dist_nonneg i j : 0 ≤ dist i j.
Proof.
  revert j. induction i as [|i IHi]; intros j; [done|].
  induction j as [|j IHj]; [rewrite dist_0_r; lia|]. rewrite dist_S.
  pose proof (IHi j). pose proof (IHi (S j)). pose proof (cost_range i j). lia.
Qed.

(** Neighbours differ by at most one, down a column and along a row. *)
Lemma dist_deltas i j :
  -1 ≤ dist (S i) j - dist i j ≤ 1 ∧ -1 ≤ dist i (S j) - dist i j ≤ 1.
Proof.
  revert j. induction i as [|i IHi]; intros j.
  - split; [|rewrite !dist_0_l; lia]. rewrite dist_0_l. induction j as [|j IHj]; [rewrite dist_0_r; lia|].
    rewrite dist_S, !dist_0_l in *. pose proof (cost_range 0 j). lia.
  - assert (∀ j, -1 ≤ dist (S i) (S j) - dist (S i) j ≤ 1) as Hrow.
    { intros j'. destruct (IHi j') as [Hv Hh]. rewrite dist_S. pose proof (cost_range i j'). lia. }
    split; [|apply Hrow]. induction j as [|j IHj]; [rewrite !dist_0_r; lia|].
    specialize (Hrow j). rewrite (dist_S (S i)). pose proof (cost_range (S i) j). lia.
Qed.

Lemma dist_le i j : dist i j ≤ Z.of_nat i.
Proof.
  induction i as [|i IH]; [done|]. destruct (dist_deltas i j). lia.
Qed.

(** ** The recurrence is the least distance *)

(** Some substring that ends at [j] is [dist i j] edits away. *)
Lemma dist_reached i j :
  (i ≤ length needle)%nat → (j ≤ length hay)%nat →
  ∃ s, (s ≤ j)%nat ∧ edit (take i needle) (sub hay s j) (dist i j).
Proof.
  revert j. induction i as [|i IHi]; intros j Hi Hj.
  { exists j. rewrite sub_nil. split; [lia|constructor]. }
  assert (is_Some (needle !! i)) as [x Hx] by (apply lookup_lt_is_Some; lia).
  rewrite (take_S_r _ _ x) by done. induction j as [|j IHj].
  { destruct (IHi 0%nat) as (s & Hs & He); [lia..|]. exists s. split; [done|].
    rewrite dist_0_r in *. replace (Z.of_nat (S i)) with (Z.of_nat i + 1) by lia. by constructor. }
  assert (is_Some (hay !! j)) as [y Hy] by (apply lookup_lt_is_Some; lia). rewrite dist_S.
  destruct (IHi (S j)) as (s1 & Hs1 & He1); [lia..|]. destruct IHj as (s2 & Hs2 & He2); [lia|].
  destruct (IHi j) as (s3 & Hs3 & He3); [lia..|].
  destruct (Z.min_spec (Z.min (dist i (S j) + 1) (dist (S i) j + 1)) (dist i j + cost i j)) as [[_ ->]|[_ ->]].
  - destruct (Z.min_spec (dist i (S j) + 1) (dist (S i) j + 1)) as [[_ ->]|[_ ->]].
    + exists s1. split; [done|]. by constructor.
    + exists s2. split; [lia|]. rewrite (sub_snoc _ _ _ y) by (done || lia). by constructor.
  - exists s3. split; [lia|]. rewrite (sub_snoc _ _ _ y) by (done || lia). unfold cost. case_decide as Hd.
    + rewrite Z.add_0_r. rewrite Hx, Hy in Hd. simplify_eq. by constructor.
    + by constructor.
Qed.

(** No substring that ends at [j] is nearer. *)
Lemma dist_least i s j k :
  (i ≤ length needle)%nat → (s ≤ j ≤ length hay)%nat →
  edit (take i needle) (sub hay s j) k → dist i j ≤ k.
Proof.
  intros Hi Hj H. remember (take i needle) as a eqn:Ea. remember (sub hay s j) as b eqn:Eb.
  revert i j Hi Hj Ea Eb.
  induction H as [|a b x k H IH|a b x y k H IH|a b x k H IH|a b y k H IH]; intros i j Hi Hj Ea Eb.
  - destruct i; [done|]. destruct needle; simpl in *; [lia|done].
  - symmetry in Ea, Eb. apply take_snoc_inv in Ea as (i' & -> & Hx & ->); [|done].
    apply sub_snoc_inv in Eb as (j' & -> & Hs & Hy & ->); [|done].
    rewrite dist_S. specialize (IH i' j'). unfold cost. rewrite Hx, Hy, decide_True by done.
    enough (dist i' j' ≤ k) by lia. apply IH; done || lia.
  - symmetry in Ea, Eb. apply take_snoc_inv in Ea as (i' & -> & Hx & ->); [|done].
    apply sub_snoc_inv in Eb as (j' & -> & Hs & Hy & ->); [|done].
    rewrite dist_S. pose proof (cost_range i' j').
    enough (dist i' j' ≤ k) by lia. apply IH; done || lia.
  - symmetry in Ea. apply take_snoc_inv in Ea as (i' & -> & Hx & ->); [|done].
    enough (dist i' j ≤ k) by (destruct (dist_deltas i' j); lia). apply IH; done || lia.
  - symmetry in Eb. apply sub_snoc_inv in Eb as (j' & -> & Hs & Hy & ->); [|done].
    enough (dist i j' ≤ k) by (destruct (dist_deltas i j'); lia). apply IH; done || lia.
Qed.

End Dist.
