(* ===== verification/FuzzySpans.v ===== *)
(** * Fuzzy occurrences ([src/suffix_fst/briques/fuzzy_spans.rs])

    The one definition of a fuzzy occurrence of the engine: the semi-global
    edit distance of a needle against a text, its runs of acceptable end
    offsets and the start a traceback gives each.  Three computations of the
    distance live side by side: the full matrix ([fuzzy_spans]), Myers'
    bit-parallel last row and a column at a time ([last_row]), and the early
    exit of [within_distance]. *)
From S2P Require Import Prelude.

Module fuzzy_spans.

(** ** The matrix

    [dp[i * w + j]], row by row.  [fuzzy_spans] fills it over the whole text
    ([s0 = 0], [ln = n]); the second pass of [fuzzy_spans_long_above] fills
    the same matrix over [hay[s0..s0 + ln]]. *)
Definition init_cell (w : Z) (dp : list Z) (i : Z) : list Z := set_at (i * w) (as_u32 i) dp.

Definition fill_cell (needle hay : list Z) (s0 w i : Z) (dp : list Z) (j : Z) : out (list Z) :=
  qb ← index needle (i - 1);
  hb ← index hay (s0 + j - 1);
  let cost := if qb =? hb then 0 else 1 in
  up ← index dp ((i - 1) * w + j);
  left_ ← index dp (i * w + j - 1);
  diag ← index dp ((i - 1) * w + j - 1);
  Ret (set_at (i * w + j) (Z.min (Z.min (add32 up 1) (add32 left_ 1)) (add32 diag cost)) dp).

Definition fill_row (needle hay : list Z) (s0 w ln : Z) (dp : list Z) (i : Z) : out (list Z) :=
  foldM (fill_cell needle hay s0 w i) dp (range 1 (ln + 1)).

Definition matrix (needle hay : list Z) (s0 ln : Z) : out (list Z) :=
  let m := #needle in
  let w := ln + 1 in
  let dp := replicate (Z.to_nat ((m + 1) * w)) 0 in
  let dp := fold_left (init_cell w) (range 1 (m + 1)) dp in
  foldM (fill_row needle hay s0 w ln) dp (range 1 (m + 1)).

(** ** Runs and tracebacks *)

(** [while k <= n && row[k] as usize <= d { .. }]: the best end of a run, and
    the offset after it.  [row k] reads the last row. *)
Fixpoint best_of_run (fuel : nat) (row : Z → out Z) (n d k best_e best_d : Z) : out (Z * Z * Z) :=
  if k <=? n then
    v ← row k;
    if v <=? d then
      match fuel with
      | O => OutOfFuel
      | S fuel =>
          if v <? best_d then best_of_run fuel row n d (k + 1) k v
          else best_of_run fuel row n d (k + 1) best_e best_d
      end
    else Ret (best_e, best_d, k)
  else Ret (best_e, best_d, k).

(** The traceback from cell [(i, e)] of a matrix over [hay[s0..]] to row 0:
    the column it lands on.  The last move subtracts from [e], which is not 0
    there: in column 0 a needle byte is dropped. *)
Fixpoint traceback (fuel : nat) (needle hay : list Z) (s0 w : Z) (dp : list Z) (i e : Z) : out Z :=
  if 0 <? i then
    match fuel with
    | O => OutOfFuel
    | S fuel =>
        here ← index dp (i * w + e);
        diagonal ← (if 0 <? e then
            qb ← index needle (i - 1);
            hb ← index hay (s0 + e - 1);
            if qb =? hb then d ← index dp ((i - 1) * w + e - 1); Ret (d =? here) else Ret false
          else Ret false);
        if (diagonal : bool) then traceback fuel needle hay s0 w dp (i - 1) (e - 1) else
        up ← index dp ((i - 1) * w + e);
        if add32 up 1 =? here then traceback fuel needle hay s0 w dp (i - 1) e else
        substitution ← (if 0 <? e then
            d ← index dp ((i - 1) * w + e - 1); Ret (add32 d 1 =? here) else Ret false);
        if (substitution : bool) then traceback fuel needle hay s0 w dp (i - 1) (e - 1)
        else if e =? 0 then Panic
        else traceback fuel needle hay s0 w dp i (e - 1)
    end
  else Ret e.

(** The outer loop: [trace e best_d] is the start of the occurrence that ends
    at [e]. *)
Fixpoint spans_loop (fuel : nat) (row : Z → out Z) (trace : Z → out Z) (n d j : Z)
    (acc : list (Z * Z * Z)) : out (list (Z * Z * Z)) :=
  if j <=? n then
    match fuel with
    | O => OutOfFuel
    | S fuel =>
        v ← row j;
        if d <? v then spans_loop fuel row trace n d (j + 1) acc else
        '(best_e, best_d, k) ← best_of_run (Z.to_nat n) row n d (j + 1) j v;
        s ← trace best_e;
        spans_loop fuel row trace n d k (acc ++ [(s, best_e, best_d)])
    end
  else Ret acc.

Definition fuzzy_spans (needle hay : list Z) (d : Z) : out (list (Z * Z * Z)) :=
  let m := #needle in
  let n := #hay in
  if (m =? 0) || (n =? 0) then Ret [] else
  let w := n + 1 in
  dp ← matrix needle hay 0 n;
  spans_loop (Z.to_nat n) (λ j, index dp (m * w + j))
    (λ e, traceback (Z.to_nat (m + e)) needle hay 0 w dp m e) n d 1 [].

(** ** The last row *)

Definition u64_max : Z := 2 ^ 64 - 1.
Definition not64 (x : Z) : Z := Z.lxor x u64_max.
Definition shl64 (x k : Z) : Z := as_u64 (Z.shiftl x k).
Definition wrapping_add64 (a b : Z) : Z := as_u64 (a + b).

(** [peq[b as usize] |= 1u64 << i]. *)
Fixpoint peq_loop (i : Z) (needle : list Z) (peq : list Z) : out (list Z) :=
  match needle with
  | [] => Ret peq
  | b :: needle =>
      x ← index peq b;
      peq_loop (i + 1) needle (set_at b (Z.lor x (shl64 1 i)) peq)
  end.
Definition build_peq (needle : list Z) : out (list Z) := peq_loop 0 needle (replicate 256 0).

(** One column of the bit-parallel matrix: the horizontal deltas [ph], [mh]
    before the shift, and the vertical ones after it. *)
Definition myers_step (eq pv mv : Z) : Z * Z * Z * Z :=
  let xv := Z.lor eq mv in
  let xh := Z.lor (Z.lxor (wrapping_add64 (Z.land eq pv) pv) pv) eq in
  let ph := Z.lor mv (not64 (Z.lor xh pv)) in
  let mh := Z.land pv xh in
  let ph' := shl64 ph 1 in
  let mh' := shl64 mh 1 in
  (ph, mh, Z.lor mh' (not64 (Z.lor xv ph')), Z.land ph' xv).

Fixpoint myers_loop (hay : list Z) (peq : list Z) (top pv mv score : Z) : out (list Z) :=
  match hay with
  | [] => Ret []
  | c :: hay =>
      eq ← index peq c;
      let '(ph, mh, pv, mv) := myers_step eq pv mv in
      let score := if negb (Z.land ph top =? 0) then add32 score 1
                   else if negb (Z.land mh top =? 0) then sub32 score 1 else score in
      rest ← myers_loop hay peq top pv mv score;
      Ret (score :: rest)
  end.

(** The inner loop of the scalar path, down one column: [above] is
    [col[i - 1]], already of this column, and [diag] is [dp[i - 1][j - 1]]. *)
Fixpoint column_loop (needle : list Z) (hb above diag : Z) (col : list Z) : list Z :=
  match needle, col with
  | qb :: needle, left_ :: col =>
      let cost := if qb =? hb then 0 else 1 in
      let v := Z.min (Z.min (add32 above 1) (add32 left_ 1)) (add32 diag cost) in
      v :: column_loop needle hb v left_ col
  | _, _ => []
  end.

Definition next_column (needle : list Z) (hb : Z) (col : list Z) : list Z :=
  match col with
  | c0 :: col => c0 :: column_loop needle hb c0 0 col
  | [] => []
  end.

Fixpoint columns_loop (needle hay : list Z) (col : list Z) : out (list Z) :=
  match hay with
  | [] => Ret []
  | hb :: hay =>
      let col := next_column needle hb col in
      v ← index col #needle;
      rest ← columns_loop needle hay col;
      Ret (v :: rest)
  end.

Definition last_row (needle hay : list Z) : out (list Z) :=
  let m := #needle in
  if m =? 0 then Ret (as_u32 m :: replicate (length hay) 0) else
  if m <=? 64 then
    peq ← build_peq needle;
    rest ← myers_loop hay peq (shl64 1 (m - 1)) u64_max 0 (as_u32 m);
    Ret (as_u32 m :: rest)
  else
    rest ← columns_loop needle hay (range 0 (as_u32 m + 1));
    Ret (as_u32 m :: rest).

(** ** [within_distance] *)

Fixpoint within_loop (hay : list Z) (peq : list Z) (top d pv mv score : Z) : out bool :=
  match hay with
  | [] => Ret false
  | c :: hay =>
      eq ← index peq c;
      let '(ph, mh, pv, mv) := myers_step eq pv mv in
      if negb (Z.land ph top =? 0) then within_loop hay peq top d pv mv (score + 1)
      else if negb (Z.land mh top =? 0) then
        if score - 1 <=? d then Ret true else within_loop hay peq top d pv mv (score - 1)
      else within_loop hay peq top d pv mv score
  end.

Definition within_distance (needle hay : list Z) (d : Z) : out bool :=
  let m := #needle in
  if (m =? 0) || (#hay =? 0) then Ret false
  else if m <=? d then Ret true
  else if m <=? 64 then
    peq ← build_peq needle;
    within_loop hay peq (shl64 1 (m - 1)) d u64_max 0 m
  else
    last ← last_row needle hay;
    tail ← slice_from last 1;
    Ret (existsb (λ v, v <=? d) tail).

(** ** Long texts *)

Definition fuzzy_spans_long_above (needle hay : list Z) (d full_cells : Z)
    : out (list (Z * Z * Z)) :=
  let m := #needle in
  let n := #hay in
  if (m =? 0) || (n =? 0) then Ret [] else
  if (64 <? m) && (Z.min ((m + 1) * (n + 1)) u64_max <=? full_cells) then fuzzy_spans needle hay d else
  last ← last_row needle hay;
  spans_loop (Z.to_nat n) (index last)
    (λ best_e,
      let s0 := saturating_sub best_e (as_u64 (2 * m + d + 1)) in
      let ln := best_e - s0 in
      local ← matrix needle hay s0 ln;
      e ← traceback (Z.to_nat (m + ln)) needle hay s0 (ln + 1) local m ln;
      Ret (s0 + e)) n d 1 [].

Definition fuzzy_spans_long (needle hay : list Z) (d : Z) : out (list (Z * Z * Z)) :=
  fuzzy_spans_long_above needle hay d (Z.shiftl 1 22).

End fuzzy_spans.
Import fuzzy_spans.
