(* ===== verification/FuzzyMatrix.v ===== *)
(** * The matrix of the fuzzy occurrences

    The flat vector the code fills holds [dist], and the traceback in it ends
    at the start of an occurrence. *)
From S2P Require Import Prelude FuzzyDistance FuzzySpans.
Import fuzzy_spans.

(** The sizes at which a [u32] holds every distance. *)
Definition needle_ok (needle : list Z) : Prop := #needle + 1 < 2 ^ 32.

Section Matrix.
Context (needle hay : list Z) (s0 ln : Z).
Context (Hok : needle_ok needle) (Hs0 : 0 ≤ s0) (Hln : 0 ≤ ln) (Hhay : s0 + ln ≤ #hay).
Local Abbreviation w := (ln + 1).
Local Abbreviation m := #needle.
Local Abbreviation D i j := (dist needle (drop (Z.to_nat s0) hay) (Z.to_nat i) (Z.to_nat j)).

(** The cells that satisfy [P] hold their distance. *)
Definition cells (P : Z → Z → Prop) (dp : list Z) : Prop :=
  #dp = (m + 1) * w ∧
  ∀ i j, 0 ≤ i ≤ m → 0 ≤ j ≤ ln → P i j → dp !! Z.to_nat (i * w + j) = Some (D i j).

Lemma cell_lt i j : 0 ≤ i ≤ m → 0 ≤ j ≤ ln → 0 ≤ i * w + j < (m + 1) * w.
Proof using Hln. nia. Qed.

Lemma cell_inj i j i' j' :
  0 ≤ j ≤ ln → 0 ≤ j' ≤ ln → i * w + j = i' * w + j' → i = i' ∧ j = j'.
Proof using Hln. intros. assert (i = i') by nia. split; [done|]. subst. lia. Qed.

Lemma cells_index P dp i j :
  cells P dp → 0 ≤ i ≤ m → 0 ≤ j ≤ ln → P i j → index dp (i * w + j) = Ret (D i j).
Proof using Hln.
  intros [_ H] Hi Hj HP. apply index_lookup; [apply cell_lt; done|]. by apply H.
Qed.

(** Writing the right value into a cell adds it. *)
Lemma cells_set P Q dp i j v :
  cells P dp → 0 ≤ i ≤ m → 0 ≤ j ≤ ln → v = D i j →
  (∀ i' j', Q i' j' → P i' j' ∨ (i' = i ∧ j' = j)) → cells Q (set_at (i * w + j) v dp).
Proof using Hln.
  intros [Hl H] Hi Hj -> HQ. pose proof (cell_lt i j Hi Hj). unfold cells, set_at.
  split; [by rewrite len_insert|]. intros i' j' Hi' Hj' HQ'.
  destruct (decide (i' = i ∧ j' = j)) as [[-> ->]|Hne].
  - apply list_lookup_insert_eq. rewrite <- len_to_nat. lia.
  - rewrite list_lookup_insert_ne.
    + destruct (HQ i' j' HQ'); [by apply H|done].
    + pose proof (cell_lt i' j' Hi' Hj'). intros E. apply Hne, cell_inj; lia.
Qed.

Lemma fits_small v : 0 ≤ v ≤ m + 1 → as_u32 v = v.
Proof using Hok. intros Hv. unfold needle_ok in Hok. apply Z.mod_small. lia. Qed.

Lemma cells_init n :
  Z.of_nat n ≤ m →
  cells (λ i j, i = 0 ∨ (i ≤ Z.of_nat n ∧ j = 0))
    (fold_left (init_cell w) (range 1 (Z.of_nat n + 1)) (replicate (Z.to_nat ((m + 1) * w)) 0)).
Proof using All.
  induction n as [|n IH]; intros Hn.
  - rewrite range_nil by lia. simpl. split; [rewrite len_replicate; lia|].
    intros i j Hi Hj Hp. assert (i = 0) as -> by lia. simpl. apply lookup_replicate.
    split; [done|]. nia.
  - rewrite (range_app 1 (Z.of_nat n + 1)), fold_left_app by lia.
    rewrite (range_cons (Z.of_nat n + 1)), (range_nil _ (Z.of_nat (S n) + 1)) by lia.
    cbn [fold_left]. unfold init_cell at 1. rewrite <- (Z.add_0_r (_ * w)).
    eapply cells_set; [apply IH; lia|lia|lia| |].
    + rewrite fits_small by lia. rewrite dist_0_r. lia.
    + cbv beta. intros i j. lia.
Qed.

Lemma needle_hay_cost i j :
  1 ≤ i ≤ m → 1 ≤ j ≤ ln →
  ∃ qb hb, index needle (i - 1) = Ret qb ∧ index hay (s0 + j - 1) = Ret hb ∧
    (if qb =? hb then 0 else 1) = cost needle (drop (Z.to_nat s0) hay) (Z.to_nat (i - 1)) (Z.to_nat (j - 1)).
Proof using Hs0 Hhay.
  intros Hi Hj.
  assert (is_Some (needle !! Z.to_nat (i - 1))) as [q Hq] by (apply lookup_lt_is_Some; unfold len in *; lia).
  assert (is_Some (hay !! Z.to_nat (s0 + j - 1))) as [h Hh]
    by (apply lookup_lt_is_Some; unfold len in *; lia).
  exists q, h. split; [apply index_lookup; [lia|done]|]. split; [apply index_lookup; [lia|done]|].
  unfold cost. rewrite lookup_drop. replace (Z.to_nat s0 + Z.to_nat (j - 1))%nat with (Z.to_nat (s0 + j - 1)) by lia.
  rewrite Hq, Hh. destruct (Z.eqb_spec q h) as [->|Hne]; case_decide; congruence.
Qed.

Lemma dist_step i j :
  1 ≤ i → 1 ≤ j →
  D i j = Z.min (Z.min (D (i - 1) j + 1) (D i (j - 1) + 1))
    (D (i - 1) (j - 1) + cost needle (drop (Z.to_nat s0) hay) (Z.to_nat (i - 1)) (Z.to_nat (j - 1))).
Proof using.
  intros Hi Hj. replace (Z.to_nat i) with (S (Z.to_nat (i - 1))) by lia.
  replace (Z.to_nat j) with (S (Z.to_nat (j - 1))) by lia. apply dist_S.
Qed.

Lemma dist_bound i j : 0 ≤ i ≤ m → 0 ≤ D i j ≤ m.
Proof using.
  intros Hi. pose proof (dist_nonneg needle (drop (Z.to_nat s0) hay) (Z.to_nat i) (Z.to_nat j)).
  pose proof (dist_le needle (drop (Z.to_nat s0) hay) (Z.to_nat i) (Z.to_nat j)). lia.
Qed.

Lemma fill_cell_spec i j dp :
  1 ≤ i ≤ m → 1 ≤ j ≤ ln → cells (λ i' j', i' < i ∨ (i' = i ∧ j' < j) ∨ j' = 0) dp →
  ∃ dp', fill_cell needle hay s0 w i dp j = Ret dp' ∧
    cells (λ i' j', i' < i ∨ (i' = i ∧ j' < j + 1) ∨ j' = 0) dp'.
Proof using All.
  intros Hi Hj Hc. destruct (needle_hay_cost i j Hi Hj) as (qb & hb & Hqb & Hhb & Hcost).
  unfold fill_cell. rewrite Hqb, bind_ret, Hhb, bind_ret, Hcost.
  replace (i * w + j - 1) with (i * w + (j - 1)) by lia.
  replace ((i - 1) * w + j - 1) with ((i - 1) * w + (j - 1)) by lia.
  rewrite !(cells_index _ dp _ _ Hc), !bind_ret by (cbv beta; lia). eexists. split; [done|].
  pose proof (dist_bound (i - 1) j). pose proof (dist_bound i (j - 1)).
  pose proof (dist_bound (i - 1) (j - 1)).
  pose proof (cost_range needle (drop (Z.to_nat s0) hay) (Z.to_nat (i - 1)) (Z.to_nat (j - 1))).
  eapply cells_set; [done|lia|lia| |cbv beta; lia].
  unfold add32. rewrite !fits_small by lia. symmetry. apply dist_step; lia.
Qed.

Lemma fill_row_spec i dp :
  1 ≤ i ≤ m → cells (λ i' j', i' < i ∨ j' = 0) dp →
  ∃ dp', fill_row needle hay s0 w ln dp i = Ret dp' ∧ cells (λ i' j', i' < i + 1 ∨ j' = 0) dp'.
Proof using All.
  intros Hi Hc. unfold fill_row.
  assert (∀ n : nat, Z.of_nat n ≤ ln → ∃ dp', foldM (fill_cell needle hay s0 w i) dp (range 1 (Z.of_nat n + 1)) = Ret dp' ∧
    cells (λ i' j', i' < i ∨ (i' = i ∧ j' < Z.of_nat n + 1) ∨ j' = 0) dp') as H.
  { induction n as [|n IH]; intros Hn.
    - rewrite range_nil by lia. exists dp. split; [done|]. destruct Hc as [Hl Hc]. split; [done|].
      intros i' j' ? ? ?. apply Hc; lia.
    - destruct IH as (dp1 & E1 & Hc1); [lia|].
      rewrite (range_app 1 (Z.of_nat n + 1)), foldM_app, E1, bind_ret by lia.
      rewrite (range_cons (Z.of_nat n + 1)), (range_nil _ (Z.of_nat (S n) + 1)) by lia. cbn [foldM].
      destruct (fill_cell_spec i (Z.of_nat n + 1) dp1) as (dp2 & E2 & Hc2); [lia|lia|done|].
      rewrite E2. exists dp2. split; [done|].
      by replace (Z.of_nat (S n) + 1) with (Z.of_nat n + 1 + 1) by lia. }
  destruct (H (Z.to_nat ln)) as (dp' & E & Hc'); [lia|]. rewrite Z2Nat.id in E, Hc' by lia.
  exists dp'. split; [done|]. destruct Hc' as [Hl Hc']. split; [done|]. intros i' j' ? ? ?. apply Hc'; lia.
Qed.

(** The matrix holds the distances of every prefix pair. *)
Lemma matrix_spec :
  ∃ dp, matrix needle hay s0 ln = Ret dp ∧ cells (λ _ _, True) dp.
Proof using All.
  unfold matrix.
  assert (∀ n : nat, Z.of_nat n ≤ m → ∃ dp',
    foldM (fill_row needle hay s0 w ln) (fold_left (init_cell w) (range 1 (m + 1)) (replicate (Z.to_nat ((m + 1) * w)) 0))
      (range 1 (Z.of_nat n + 1)) = Ret dp' ∧
    cells (λ i' j', i' < Z.of_nat n + 1 ∨ j' = 0) dp') as H.
  { induction n as [|n IH]; intros Hn.
    - rewrite (range_nil 1 (Z.of_nat 0 + 1)) by lia. eexists. split; [done|].
      destruct (cells_init (length needle)) as [Hl Hc]; [unfold len; lia|]. fold (len needle) in Hl, Hc.
      split; [done|]. intros i j ? ? ?. apply Hc; lia.
    - destruct IH as (dp1 & E1 & Hc1); [lia|].
      rewrite (range_app 1 (Z.of_nat n + 1) (Z.of_nat (S n) + 1)), foldM_app, E1, bind_ret by lia.
      rewrite (range_cons (Z.of_nat n + 1)), (range_nil _ (Z.of_nat (S n) + 1)) by lia. cbn [foldM].
      destruct (fill_row_spec (Z.of_nat n + 1) dp1) as (dp2 & E2 & Hc2); [lia|done|].
      rewrite E2. exists dp2. split; [done|].
      by replace (Z.of_nat (S n) + 1) with (Z.of_nat n + 1 + 1) by lia. }
  destruct (H (length needle)) as (dp & E & Hc); [unfold len; lia|]. fold (len needle) in E, Hc.
  exists dp. split; [done|]. destruct Hc as [Hl Hc]. split; [done|]. intros i j ? ? _. apply Hc; lia.
Qed.

End Matrix.

(** ** The traceback *)

Section Path.
Context (needle hay : list Z).

(** The column the traceback from [(i, j)] lands on, over the distances. *)
Fixpoint path (fuel i j : nat) : nat :=
  match fuel, i with
  | S fuel, S i' =>
      let here := dist needle hay (S i') j in
      match j with
      | O => path fuel i' O
      | S j' =>
          if bool_decide (needle !! i' = hay !! j') && (dist needle hay i' j' =? here) then path fuel i' j'
          else if dist needle hay i' (S j') + 1 =? here then path fuel i' (S j')
          else if dist needle hay i' j' + 1 =? here then path fuel i' j'
          else path fuel (S i') j'
      end
  | _, _ => j
  end.

(** When no other move explains a cell, the one to the left does. *)
Lemma last_move i j :
  bool_decide (needle !! i = hay !! j) && (dist needle hay i j =? dist needle hay (S i) (S j)) = false →
  dist needle hay i (S j) + 1 ≠ dist needle hay (S i) (S j) →
  dist needle hay i j + 1 ≠ dist needle hay (S i) (S j) →
  dist needle hay (S i) j + 1 = dist needle hay (S i) (S j).
Proof.
  intros H1 H2 H3. pose proof (dist_S needle hay i j) as E. unfold cost in E.
  case_decide as Hd; [|lia]. rewrite bool_decide_eq_true_2, andb_true_l in H1 by done.
  apply Z.eqb_neq in H1. lia.
Qed.

Lemma path_fuel f1 f2 i j : (i + j ≤ f1)%nat → (i + j ≤ f2)%nat → path f1 i j = path f2 i j.
Proof.
  revert f2 i j. induction f1 as [|f1 IH]; intros [|f2] [|i] [|j] H1 H2; simpl; try done; try lia;
    repeat case_match; apply IH; lia.
Qed.

(** The traceback finds an occurrence with the distance of the cell. *)
Lemma path_edit f i j :
  (i ≤ length needle)%nat → (j ≤ length hay)%nat → (i + j ≤ f)%nat →
  (path f i j ≤ j)%nat ∧ edit (take i needle) (sub hay (path f i j) j) (dist needle hay i j).
Proof.
  revert i j. induction f as [|f IH]; intros i j Hi Hj Hf.
  { destruct i; [|lia]. simpl. rewrite sub_nil. split; [lia|constructor]. }
  destruct i as [|i]; [simpl; rewrite sub_nil; split; [lia|constructor]|].
  assert (is_Some (needle !! i)) as [x Hx] by (apply lookup_lt_is_Some; lia).
  rewrite (take_S_r _ _ x) by done. destruct j as [|j].
  { cbn [path]. destruct (IH i 0%nat) as [H1 H2]; [lia..|]. split; [done|].
    rewrite !dist_0_r in *. replace (Z.of_nat (S i)) with (Z.of_nat i + 1) by lia. by constructor. }
  assert (is_Some (hay !! j)) as [y Hy] by (apply lookup_lt_is_Some; lia). cbn [path].
  destruct (bool_decide _ && _) eqn:E1.
  { destruct (IH i j) as [H1 H2]; [lia..|]. apply andb_true_iff in E1 as [E1%bool_decide_eq_true E1'].
    rewrite Hx, Hy in E1. simplify_eq. split; [lia|]. rewrite (sub_snoc _ _ _ y) by done.
    replace (dist needle hay (S i) (S j)) with (dist needle hay i j) by lia. by constructor. }
  destruct (dist needle hay i (S j) + 1 =? _) eqn:E2.
  { destruct (IH i (S j)) as [H1 H2]; [lia..|]. split; [done|].
    replace (dist needle hay (S i) (S j)) with (dist needle hay i (S j) + 1) by lia. by constructor. }
  destruct (dist needle hay i j + 1 =? _) eqn:E3.
  { destruct (IH i j) as [H1 H2]; [lia..|]. split; [lia|]. rewrite (sub_snoc _ _ _ y) by done.
    replace (dist needle hay (S i) (S j)) with (dist needle hay i j + 1) by lia. by constructor. }
  destruct (IH (S i) j) as [H1 H2]; [lia..|]. split; [lia|]. rewrite (sub_snoc _ _ _ y) by done.
  rewrite <- (last_move i j E1) by lia. rewrite (take_S_r _ _ x) in H2 by done. by constructor.
Qed.

End Path.

(** ** Windows

    A cell depends on no byte more than [2 * i] before it, so from a window
    that starts early enough the traceback is the one over the whole text. *)

Lemma dist_window needle hay s0 i jj :
  (i ≤ length needle)%nat → (s0 + jj ≤ length hay)%nat → (2 * i ≤ jj)%nat →
  dist needle (drop s0 hay) i jj = dist needle hay i (s0 + jj).
Proof.
  intros Hi Hj Hw.
  assert (∀ s, (s0 ≤ s)%nat → sub hay s (s0 + jj) = sub (drop s0 hay) (s - s0) jj) as Hsub.
  { intros s Hs. unfold sub. rewrite drop_drop. replace (s0 + (s - s0))%nat with s by lia.
    f_equal. lia. }
  apply Z.le_antisymm.
  - destruct (dist_reached needle hay i (s0 + jj)) as (s & Hs & He); [lia..|].
    pose proof (edit_length _ _ _ He) as Hl. pose proof (dist_le needle hay i (s0 + jj)).
    unfold len in Hl. rewrite length_sub, length_take in Hl by lia.
    rewrite Hsub in He by lia. eapply dist_least; [done| |exact He]. rewrite length_drop. lia.
  - destruct (dist_reached needle (drop s0 hay) i jj) as (s & Hs & He); [done|rewrite length_drop; lia|].
    eapply (dist_least needle hay i (s0 + s)); [done|lia|]. rewrite Hsub by lia.
    by replace (s0 + s - s0)%nat with s by lia.
Qed.

Lemma path_window needle hay s0 f i jj :
  (i ≤ length needle)%nat → (s0 + jj ≤ length hay)%nat → (i + (s0 + jj) ≤ f)%nat →
  2 * Z.of_nat i + dist needle hay i (s0 + jj) + 1 ≤ Z.of_nat jj →
  path needle hay f i (s0 + jj) = (s0 + path needle (drop s0 hay) f i jj)%nat.
Proof.
  revert i jj. induction f as [|f IH]; intros i jj Hi Hj Hf Hw; [done|].
  destruct i as [|i]; [done|].
  pose proof (dist_nonneg needle hay (S i) (s0 + jj)). destruct jj as [|jj]; [lia|].
  rewrite Nat.add_succ_r in *. cbn [path].
  rewrite !(dist_window needle hay s0) by lia. rewrite !Nat.add_succ_r, lookup_drop.
  destruct (bool_decide _ && _) eqn:E1; [|destruct (dist needle hay i (S (s0 + jj)) + 1 =? _) eqn:E2; [|destruct (dist needle hay i (s0 + jj) + 1 =? _) eqn:E3]].
  - apply andb_true_iff in E1 as [_ E1]. apply IH; lia.
  - rewrite <- Nat.add_succ_r in *. apply IH; lia.
  - apply IH; lia.
  - pose proof (last_move needle hay i (s0 + jj) E1). apply IH; lia.
Qed.

Section Traceback.
Context (needle hay : list Z) (s0 ln : Z) (dp : list Z).
Context (Hok : needle_ok needle) (Hs0 : 0 ≤ s0) (Hln : 0 ≤ ln) (Hhay : s0 + ln ≤ #hay).
Context (Hdp : cells needle hay s0 ln (λ _ _, True) dp).
Local Abbreviation text := (drop (Z.to_nat s0) hay).

Lemma traceback_path f i e :
  0 ≤ i ≤ #needle → 0 ≤ e ≤ ln → i + e ≤ Z.of_nat f →
  traceback f needle hay s0 (ln + 1) dp i e =
    Ret (Z.of_nat (path needle text f (Z.to_nat i) (Z.to_nat e))).
Proof using All.
  revert i e. induction f as [|f IH]; intros i e Hi He Hf.
  { replace i with 0 by lia. replace e with 0 by lia. done. }
  assert (∀ i' j, 0 ≤ i' ≤ #needle → 0 ≤ j ≤ ln →
    index dp (i' * (ln + 1) + j) = Ret (dist needle text (Z.to_nat i') (Z.to_nat j))) as Hcell
    by (intros; by eapply cells_index).
  assert (∀ i', 0 ≤ i' < #needle → ∀ j, add32 (dist needle text (Z.to_nat i') j) 1 =
    dist needle text (Z.to_nat i') j + 1) as Hadd.
  { intros i' Hi' j. pose proof (dist_nonneg needle text (Z.to_nat i') j).
    pose proof (dist_le needle text (Z.to_nat i') j). apply (fits_small needle Hok). lia. }
  cbn [traceback]. destruct (0 <? i) eqn:Ei; [|replace i with 0 by lia; simpl; f_equal; lia].
  rewrite (Hcell i e), bind_ret by lia. replace (Z.to_nat i) with (S (Z.to_nat (i - 1))) by lia.
  destruct (0 <? e) eqn:Ee.
  - destruct (needle_hay_cost needle hay s0 ln Hs0 Hhay i e) as (qb & hb & Hqb & Hhb & Hcost); [lia..|].
    replace (Z.to_nat e) with (S (Z.to_nat (e - 1))) by lia. cbn [path].
    rewrite Hqb, bind_ret, Hhb, bind_ret.
    replace ((i - 1) * (ln + 1) + e - 1) with ((i - 1) * (ln + 1) + (e - 1)) by lia.
    rewrite !Hcell, !bind_ret by lia. replace (Z.to_nat e) with (S (Z.to_nat (e - 1))) by lia.
    rewrite !Hadd by lia. unfold cost in Hcost.
    assert (bool_decide (needle !! Z.to_nat (i - 1) = text !! Z.to_nat (e - 1)) = (qb =? hb)) as Heq.
    { destruct (qb =? hb); case_decide; try done; [by apply bool_decide_eq_true_2|by apply bool_decide_eq_false_2]. }
    rewrite Heq. replace (e =? 0) with false by lia.
    replace (S (Z.to_nat (i - 1))) with (Z.to_nat i) by lia.
    replace (S (Z.to_nat (e - 1))) with (Z.to_nat e) by lia.
    destruct (qb =? hb); rewrite bind_ret, ?andb_true_l, ?andb_false_l;
      repeat case_match; apply IH; lia.
  - replace e with 0 in * by lia. cbn [path Z.to_nat]. rewrite !bind_ret, Hcell, bind_ret by lia.
    rewrite Hadd by lia. simpl (Z.to_nat 0). rewrite !dist_0_r.
    rewrite Nat2Z.inj_succ, <- Z.add_1_r, Z.eqb_refl.
    apply (IH (i - 1) 0); lia.
Qed.
End Traceback.
