(* ===== verification/FuzzyBits.v ===== *)
(** * The bit-parallel last row

    Myers' algorithm keeps the vertical differences of one column of the
    matrix in two words, one bit per byte of the needle.  One step computes
    the next column's: the carry of the addition runs down the column as the
    horizontal difference of -1 does. *)
From S2P Require Import Prelude FuzzyDistance FuzzySpans FuzzyMatrix.
Import fuzzy_spans.

(** ** Words *)

Lemma as_u64_bit x k : 0 ≤ k < 64 → Z.testbit (as_u64 x) k = Z.testbit x k.
Proof. intros Hk. unfold as_u64. apply Z.mod_pow2_bits_low. lia. Qed.

Lemma not64_bit x k : 0 ≤ k < 64 → Z.testbit (not64 x) k = negb (Z.testbit x k).
Proof.
  intros Hk. unfold not64, u64_max. change (2 ^ 64 - 1) with (Z.ones 64).
  rewrite Z.lxor_spec, Z.ones_spec_low by lia. apply xorb_true_r.
Qed.

Lemma shl1_bit x k :
  0 ≤ k < 64 → Z.testbit (shl64 x 1) k = if k =? 0 then false else Z.testbit x (k - 1).
Proof.
  intros Hk. unfold shl64. rewrite as_u64_bit, Z.shiftl_spec by lia.
  destruct (Z.eqb_spec k 0) as [->|]; [by apply Z.testbit_neg_r|done].
Qed.

Lemma shl64_one k : 0 ≤ k < 64 → shl64 1 k = 2 ^ k.
Proof.
  intros Hk. unfold shl64, as_u64. rewrite Z.shiftl_1_l. apply Z.mod_small.
  split; [lia|]. apply Z.pow_lt_mono_r; lia.
Qed.

Lemma land_pow2 x k : 0 ≤ k → (Z.land x (2 ^ k) =? 0) = negb (Z.testbit x k).
Proof.
  intros Hk. destruct (Z.testbit x k) eqn:E; simpl.
  - apply Z.eqb_neq. intros H. apply (f_equal (λ z, Z.testbit z k)) in H.
    rewrite Z.land_spec, Z.pow2_bits_true, E, Z.testbit_0_l in H by done. done.
  - apply Z.eqb_eq. apply Z.bits_inj'. intros n Hn.
    rewrite Z.land_spec, Z.pow2_bits_eqb, Z.testbit_0_l by done.
    destruct (Z.eqb_spec k n) as [->|]; [by rewrite E|apply andb_false_r].
Qed.

(** The addition spreads a match down the run of +1 below it. *)
Lemma spread_bit eq pv k :
  0 ≤ k < 64 →
  let xh := Z.lor (Z.lxor (wrapping_add64 (Z.land eq pv) pv) pv) eq in
  Z.testbit xh k = Z.testbit eq k ||
    (if k =? 0 then false else Z.testbit pv (k - 1) && Z.testbit xh (k - 1)).
Proof.
  intros Hk xh.
  destruct (Z.add_carry_bits (Z.land eq pv) pv false) as (c & Hsum & Hc & Hc0).
  rewrite Z.add_0_r in Hsum.
  assert (∀ n, 0 ≤ n < 64 → Z.testbit xh n = Z.testbit eq n || Z.testbit c n) as Hx.
  { intros n Hn. unfold xh, wrapping_add64.
    rewrite Z.lor_spec, Z.lxor_spec, as_u64_bit, Hsum, !Z.lxor_spec, Z.land_spec by done.
    by destruct (Z.testbit eq n), (Z.testbit pv n), (Z.testbit c n). }
  rewrite Hx by done. f_equal. destruct (Z.eqb_spec k 0) as [->|Hne]; [done|].
  rewrite Hx by lia. replace k with (Z.succ (k - 1)) at 1 by lia.
  rewrite <- Z.div2_bits, Hc by lia.
  rewrite Z.lor_spec, !Z.land_spec, Z.lor_spec, Z.land_spec.
  by destruct (Z.testbit eq (k - 1)), (Z.testbit pv (k - 1)), (Z.testbit c (k - 1)).
Qed.

(** ** One cell

    From the difference on its left ([dv]) and the one above ([dh]), the
    cell's differences [vo] and [ho], as bits. *)
Lemma cell_bits (e : bool) (dv dh : Z) :
  -1 ≤ dv ≤ 1 → -1 ≤ dh ≤ 1 →
  let low := Z.min (Z.min (if e then -1 else 0) dv) dh in
  let vo := low + 1 - dh in let ho := low + 1 - dv in
  (dv =? -1) || negb ((e || (dh =? -1)) || (dv =? 1)) = (ho =? 1) ∧
  (dv =? 1) && (e || (dh =? -1)) = (ho =? -1) ∧
  (dh =? -1) || negb ((e || (dv =? -1)) || (dh =? 1)) = (vo =? 1) ∧
  (dh =? 1) && (e || (dv =? -1)) = (vo =? -1).
Proof.
  intros Hv Hh. assert (dv = -1 ∨ dv = 0 ∨ dv = 1) as [->|[->| ->]] by lia;
    assert (dh = -1 ∨ dh = 0 ∨ dh = 1) as [->|[->| ->]] by lia; by destruct e.
Qed.

(** ** One column *)

Section Column.
Context (needle hay : list Z) (Hm : (length needle ≤ 64)%nat).
Local Abbreviation D := (dist needle hay).

Definition dv (k j : nat) : Z := D (S k) j - D k j.
Definition dh (k j : nat) : Z := D k (S j) - D k j.

(** The two words hold the vertical differences of column [j]. *)
Definition column_words (j : nat) (pv mv : Z) : Prop :=
  ∀ k : nat, (k < length needle)%nat →
    Z.testbit pv (Z.of_nat k) = (dv k j =? 1) ∧ Z.testbit mv (Z.of_nat k) = (dv k j =? -1).

Lemma deltas_step k j :
  let low := Z.min (Z.min (if bool_decide (needle !! k = hay !! j) then -1 else 0) (dv k j)) (dh k j) in
  dv k (S j) = low + 1 - dh k j ∧ dh (S k) j = low + 1 - dv k j.
Proof.
  unfold dv, dh. rewrite dist_S. unfold cost.
  case_decide; [rewrite bool_decide_eq_true_2 by done|rewrite bool_decide_eq_false_2 by done]; simpl; lia.
Qed.

Lemma deltas_range k j : -1 ≤ dv k j ≤ 1 ∧ -1 ≤ dh k j ≤ 1.
Proof. unfold dv, dh. apply dist_deltas. Qed.

Lemma myers_step_spec j eq pv mv :
  column_words j pv mv →
  (∀ k : nat, (k < length needle)%nat → Z.testbit eq (Z.of_nat k) = bool_decide (needle !! k = hay !! j)) →
  let '(ph, mh, pv', mv') := myers_step eq pv mv in
  column_words (S j) pv' mv' ∧
  ∀ k : nat, (k < length needle)%nat →
    Z.testbit ph (Z.of_nat k) = (dh (S k) j =? 1) ∧ Z.testbit mh (Z.of_nat k) = (dh (S k) j =? -1).
Proof.
  intros Hc He. unfold myers_step.
  set (xh := Z.lor (Z.lxor _ pv) eq). set (ph := Z.lor mv _). set (mh := Z.land pv xh).
  assert (∀ k : nat, (k < length needle)%nat →
    Z.testbit xh (Z.of_nat k) = bool_decide (needle !! k = hay !! j) || (dh k j =? -1) →
    Z.testbit ph (Z.of_nat k) = (dh (S k) j =? 1) ∧ Z.testbit mh (Z.of_nat k) = (dh (S k) j =? -1)) as Hcell.
  { intros k Hk Hx. destruct (Hc k Hk) as [Hp Hq], (deltas_range k j) as [Hv Hh], (deltas_step k j) as [_ ->].
    destruct (cell_bits (bool_decide (needle !! k = hay !! j)) _ _ Hv Hh) as (<- & <- & _).
    unfold ph, mh. by rewrite Z.lor_spec, Z.land_spec, not64_bit, Z.lor_spec, Hx, Hp, Hq by lia. }
  assert (∀ k : nat, (k < length needle)%nat →
    Z.testbit xh (Z.of_nat k) = bool_decide (needle !! k = hay !! j) || (dh k j =? -1)) as Hxh.
  { intros k. induction k as [|k IH]; intros Hk; unfold xh; rewrite spread_bit, He by lia; fold xh; f_equal.
    destruct (Hcell k) as [_ Hmh]; [lia|apply IH; lia|].
    rewrite (proj2 (Z.eqb_neq (Z.of_nat (S k)) 0)) by lia.
    replace (Z.of_nat (S k) - 1) with (Z.of_nat k) by lia.
    rewrite <- Hmh. unfold mh. by rewrite Z.land_spec. }
  split; [|by intros k Hk; apply Hcell, Hxh].
  intros k Hk.
  assert (Z.testbit (shl64 ph 1) (Z.of_nat k) = (dh k j =? 1) ∧
          Z.testbit (shl64 mh 1) (Z.of_nat k) = (dh k j =? -1)) as [Hph Hmh].
  { rewrite !shl1_bit by lia. destruct k as [|k]; [done|].
    rewrite (proj2 (Z.eqb_neq (Z.of_nat (S k)) 0)) by lia.
    replace (Z.of_nat (S k) - 1) with (Z.of_nat k) by lia.
    apply Hcell, Hxh; lia. }
  destruct (Hc k Hk) as [Hp Hq], (deltas_range k j) as [Hv Hh], (deltas_step k j) as [-> _].
  destruct (cell_bits (bool_decide (needle !! k = hay !! j)) _ _ Hv Hh) as (_ & _ & <- & <-).
  by rewrite Z.lor_spec, Z.land_spec, not64_bit, !Z.lor_spec, Hph, Hmh, Hq, He by lia.
Qed.

(** Before the first byte every vertical difference is +1. *)
Lemma column_words_start : column_words 0 u64_max 0.
Proof.
  intros k Hk. unfold dv. rewrite !dist_0_r, Z.testbit_0_l. unfold u64_max.
  change (2 ^ 64 - 1) with (Z.ones 64). rewrite Z.ones_spec_low by lia.
  split; symmetry; [apply Z.eqb_eq|apply Z.eqb_neq]; lia.
Qed.

End Column.

(** ** The table of matches *)

Definition peq_of (needle peq : list Z) : Prop :=
  #peq = 256 ∧
  ∀ c x (k : nat), 0 ≤ c → peq !! Z.to_nat c = Some x → (k < 64)%nat →
    Z.testbit x (Z.of_nat k) = bool_decide (needle !! k = Some c).

Lemma peq_loop_spec pre rest peq :
  peq_of pre peq → bytes_ok rest → #pre + #rest ≤ 64 →
  ∃ peq', peq_loop #pre rest peq = Ret peq' ∧ peq_of (pre ++ rest) peq'.
Proof.
  revert pre peq. induction rest as [|b rest IH]; intros pre peq Hp Hb Hl.
  { exists peq. by rewrite app_nil_r. }
  apply Forall_cons in Hb as [Hb Hrest]. unfold fits in Hb. destruct Hp as [Hlen Hp].
  rewrite len_cons in Hl. pose proof (len_nonneg rest). pose proof (len_nonneg pre).
  assert (is_Some (peq !! Z.to_nat b)) as [x Hx]
    by (apply lookup_lt_is_Some; rewrite <- len_to_nat; lia).
  cbn [peq_loop]. rewrite (index_lookup _ _ x), bind_ret by (done || lia).
  rewrite shl64_one by lia.
  destruct (IH (pre ++ [b]) (set_at b (Z.lor x (2 ^ #pre)) peq)) as (peq' & E & Hpeq').
  - split; [unfold set_at; by rewrite len_insert|]. intros c y k Hc Hy Hk. unfold set_at in Hy.
    destruct (decide (c = b)) as [->|Hne].
    + rewrite list_lookup_insert_eq in Hy by (rewrite <- len_to_nat; lia). simplify_eq.
      rewrite Z.lor_spec, (Hp b x k), Z.pow2_bits_eqb by (done || lia).
      destruct (decide (k < length pre)%nat) as [Hlt|Hge].
      * rewrite lookup_app_l by done. rewrite (proj2 (Z.eqb_neq _ _)) by (unfold len; lia). apply orb_false_r.
      * rewrite (lookup_ge_None_2 pre) by lia. rewrite lookup_app_r by lia.
        destruct (decide (k = length pre)) as [->|].
        -- rewrite Nat.sub_diag. unfold len. rewrite Z.eqb_refl. rewrite orb_true_r. symmetry. by apply bool_decide_eq_true_2.
        -- rewrite (proj2 (Z.eqb_neq _ _)) by (unfold len; lia).
           rewrite (lookup_ge_None_2 [b]) by (simpl; lia). done.
    + rewrite list_lookup_insert_ne in Hy by lia. rewrite (Hp c y k) by done.
      apply bool_decide_ext. destruct (decide (k < length pre)%nat).
      * by rewrite lookup_app_l.
      * rewrite (lookup_ge_None_2 pre), lookup_app_r by lia.
        destruct (k - length pre)%nat eqn:E; simpl; split; intros; simplify_eq; done.
  - done.
  - rewrite len_app, len_cons, len_nil. lia.
  - exists peq'. rewrite len_app, len_cons, len_nil in E. rewrite <- app_assoc in Hpeq'. by split.
Qed.

Lemma build_peq_spec needle :
  bytes_ok needle → #needle ≤ 64 → ∃ peq, build_peq needle = Ret peq ∧ peq_of needle peq.
Proof.
  intros Hb Hl. apply (peq_loop_spec [] needle); [|done|rewrite len_nil; lia].
  split; [done|]. intros c x k Hc [-> _]%lookup_replicate Hk. by rewrite Z.testbit_0_l.
Qed.

Lemma peq_index needle peq c :
  peq_of needle peq → fits 8 c →
  ∃ eq, index peq c = Ret eq ∧
    ∀ k : nat, (k < 64)%nat → Z.testbit eq (Z.of_nat k) = bool_decide (needle !! k = Some c).
Proof.
  intros [Hl Hp] Hc. unfold fits in Hc.
  assert (is_Some (peq !! Z.to_nat c)) as [x Hx] by (apply lookup_lt_is_Some; rewrite <- len_to_nat; lia).
  exists x. split; [apply index_lookup; [lia|done]|]. intros k Hk. apply (Hp c x k); done || lia.
Qed.

(** ** The last row *)

Section LastRow.
Context (needle hay : list Z) (Hn : needle ≠ []) (Hok : needle_ok needle) (Hhay : bytes_ok hay).
Local Abbreviation m := (length needle).
Local Abbreviation D := (dist needle hay).

Lemma score_fits j : 0 ≤ D m j ≤ #needle.
Proof using. pose proof (dist_nonneg needle hay m j). pose proof (dist_le needle hay m j). unfold len. lia. Qed.

(** The change of the score is the horizontal difference of the last row,
    read off the top bit. *)
Lemma top_bit_step j c peq pv mv :
  (m ≤ 64)%nat → peq_of needle peq → column_words needle hay j pv mv → hay !! j = Some c →
  ∃ eq, index peq c = Ret eq ∧
    let '(ph, mh, pv', mv') := myers_step eq pv mv in
    column_words needle hay (S j) pv' mv' ∧
    negb (Z.land ph (shl64 1 (#needle - 1)) =? 0) = (D m (S j) - D m j =? 1) ∧
    negb (Z.land mh (shl64 1 (#needle - 1)) =? 0) = (D m (S j) - D m j =? -1).
Proof using All.
  intros Hm Hp Hw Hc. assert (fits 8 c) as Hcb by (eapply Forall_lookup_1; done).
  destruct (peq_index needle peq c Hp Hcb) as (eq & E & Hbits). exists eq. split; [done|].
  assert (0 < length needle)%nat by (destruct needle; simpl; [done|lia]).
  pose proof (myers_step_spec needle hay Hm j eq pv mv Hw) as Hs.
  destruct (myers_step eq pv mv) as [[[ph mh] pv'] mv']. destruct Hs as [Hw' Hrow].
  { intros k Hk. rewrite Hbits, Hc by lia. done. }
  split; [done|]. destruct (Hrow (m - 1)%nat) as [H1 H2]; [lia|].
  replace (S (m - 1)) with m in * by lia. unfold dh in *.
  replace (Z.of_nat (m - 1)) with (#needle - 1) in * by (unfold len; lia).
  rewrite shl64_one by (unfold len; lia). rewrite !land_pow2, !negb_involutive by (unfold len; lia). done.
Qed.

Lemma score_step j :
  (if D m (S j) - D m j =? 1 then add32 (D m j) 1
   else if D m (S j) - D m j =? -1 then sub32 (D m j) 1 else D m j) = D m (S j).
Proof using All.
  pose proof (score_fits j) as H1. pose proof (score_fits (S j)) as H2. unfold needle_ok in Hok.
  destruct (dist_deltas needle hay m j) as [_ Hd].
  destruct (Z.eqb_spec (D m (S j) - D m j) 1) as [E|E].
  { unfold add32, as_u32. rewrite Z.mod_small by lia. lia. }
  destruct (Z.eqb_spec (D m (S j) - D m j) (-1)) as [E'|E']; [|lia].
  unfold sub32, as_u32. rewrite Z.mod_small by lia. lia.
Qed.

(** Distances at the ends [j + 1], ..., [j + n]. *)
Definition row_from (j n : nat) : list Z := map (λ k, D m k) (seq (S j) n).

Lemma myers_loop_spec j rest peq pv mv :
  (m ≤ 64)%nat → peq_of needle peq → column_words needle hay j pv mv → drop j hay = rest →
  myers_loop rest peq (shl64 1 (#needle - 1)) pv mv (D m j) = Ret (row_from j (length rest)).
Proof using All.
  intros Hm Hp. revert j pv mv. induction rest as [|c rest IH]; intros j pv mv Hw Hd; [done|].
  assert (hay !! j = Some c) as Hc by (rewrite <- (Nat.add_0_r j), <- lookup_drop, Hd; done).
  destruct (top_bit_step j c peq pv mv Hm Hp Hw Hc) as (eq & E & Hs). cbn [myers_loop].
  rewrite E, bind_ret. destruct (myers_step eq pv mv) as [[[ph mh] pv'] mv'].
  destruct Hs as (Hw' & -> & ->). rewrite score_step.
  rewrite (IH (S j)), bind_ret; [done..|].
  replace (S j) with (j + 1)%nat by lia. rewrite <- drop_drop, Hd. done.
Qed.

(** The scalar path: the same row, one column at a time. *)
Lemma column_loop_spec j hb i n :
  hay !! j = Some hb → (i + n = m)%nat →
  column_loop (drop i needle) hb (D i (S j)) (D i j) (map (λ k, D k j) (seq (S i) n)) =
    map (λ k, D k (S j)) (seq (S i) n).
Proof using All.
  intros Hj. revert i. induction n as [|n IH]; intros i Hi.
  { simpl. by destruct (drop i needle). }
  assert (is_Some (needle !! i)) as [q Hq] by (apply lookup_lt_is_Some; lia).
  rewrite (drop_S _ q) by done. cbn [seq map column_loop].
  assert (Z.min (Z.min (add32 (D i (S j)) 1) (add32 (D (S i) j) 1))
            (add32 (D i j) (if q =? hb then 0 else 1)) = D (S i) (S j)) as ->.
  { rewrite dist_S. unfold cost. rewrite Hq, Hj. unfold needle_ok, len in Hok.
    pose proof (dist_nonneg needle hay i (S j)). pose proof (dist_le needle hay i (S j)).
    pose proof (dist_nonneg needle hay (S i) j). pose proof (dist_le needle hay (S i) j).
    pose proof (dist_nonneg needle hay i j). pose proof (dist_le needle hay i j).
    unfold add32, as_u32. rewrite !Z.mod_small by (repeat case_match; lia).
    destruct (Z.eqb_spec q hb) as [->|Hne]; case_decide; congruence || lia. }
  f_equal. apply IH. lia.
Qed.

Lemma columns_loop_spec j rest :
  drop j hay = rest →
  columns_loop needle rest (map (λ k, D k j) (seq 0 (S m))) = Ret (row_from j (length rest)).
Proof using All.
  revert j. induction rest as [|hb rest IH]; intros j Hd; [done|].
  assert (hay !! j = Some hb) as Hj by (rewrite <- (Nat.add_0_r j), <- lookup_drop, Hd; done).
  cbn [columns_loop]. change (seq 0 (S m)) with (0%nat :: seq 1 m). cbn [map next_column].
  pose proof (column_loop_spec j hb 0 m Hj) as Hc. rewrite drop_0, !dist_0_l in Hc.
  rewrite dist_0_l, Hc by lia. change (0 :: map (λ k, D k (S j)) (seq 1 m)) with (map (λ k, D k (S j)) (seq 0 (S m))).
  rewrite (index_lookup _ _ (D m (S j))), bind_ret.
  - rewrite (IH (S j)); [done|]. replace (S j) with (j + 1)%nat by lia. by rewrite <- drop_drop, Hd.
  - apply len_nonneg.
  - rewrite len_to_nat, list_lookup_fmap. rewrite lookup_seq_lt by lia. done.
Qed.
End LastRow.

(** Whatever path computes it, the last row is the distance of the needle at
    every end. *)
Lemma last_row_spec needle hay :
  needle_ok needle → bytes_ok needle → bytes_ok hay →
  last_row needle hay = Ret (map (λ j, dist needle hay (length needle) j) (seq 0 (S (length hay)))).
Proof.
  intros Hok Hb Hh. unfold last_row. change (seq 0 (S (length hay))) with (0%nat :: seq 1 (length hay)).
  cbn [map]. rewrite dist_0_r. fold (len needle).
  assert (as_u32 #needle = #needle) as Hm
    by (unfold needle_ok in Hok; pose proof (len_nonneg needle); apply Z.mod_small; lia).
  destruct (#needle =? 0) eqn:E0.
  { destruct needle as [|b needle]; [|rewrite len_cons in E0; pose proof (len_nonneg needle); lia].
    do 2 f_equal. symmetry. generalize 1%nat. induction (length hay) as [|n IH]; intros s; simpl; [done|].
    by rewrite IH. }
  assert (needle ≠ []) as Hn by (intros ->; done).
  rewrite Hm. destruct (#needle <=? 64) eqn:E64.
  - destruct (build_peq_spec needle Hb) as (peq & -> & Hp); [lia|]. rewrite bind_ret.
    pose proof (myers_loop_spec needle hay Hn Hok Hh 0 hay peq u64_max 0) as H.
    rewrite dist_0_r in H. fold (len needle) in H. rewrite H; [done| |done| |done].
    + unfold len in E64. lia.
    + apply column_words_start. unfold len in E64. lia.
  - pose proof (columns_loop_spec needle hay Hn Hok Hh 0 hay eq_refl) as H.
    replace (range 0 (#needle + 1)) with (map (λ k, dist needle hay k 0) (seq 0 (S (length needle)))); [by rewrite H|].
    unfold range, seqZ. replace (Z.to_nat (#needle + 1 - 0)) with (S (length needle)) by (unfold len; lia).
    apply map_ext. intros k. rewrite dist_0_r. lia.
Qed.

(** ** The early exit *)

Lemma within_loop_spec needle hay d peq j rest pv mv :
  needle ≠ [] → needle_ok needle → bytes_ok hay → (length needle ≤ 64)%nat → peq_of needle peq →
  column_words needle hay j pv mv → drop j hay = rest → d < dist needle hay (length needle) j →
  within_loop rest peq (shl64 1 (#needle - 1)) d pv mv (dist needle hay (length needle) j) =
    Ret (existsb (λ v, v <=? d) (row_from needle hay j (length rest))).
Proof.
  intros Hn Hok Hh Hm Hp. revert j pv mv. induction rest as [|c rest IH]; intros j pv mv Hw Hd Hgt; [done|].
  assert (hay !! j = Some c) as Hc by (rewrite <- (Nat.add_0_r j), <- lookup_drop, Hd; done).
  assert (drop (S j) hay = rest) as Hd'
    by (replace (S j) with (j + 1)%nat by lia; by rewrite <- drop_drop, Hd).
  destruct (top_bit_step needle hay Hn Hok Hh j c peq pv mv Hm Hp Hw Hc) as (eq & E & Hs).
  cbn [within_loop length]. rewrite E, bind_ret. destruct (myers_step eq pv mv) as [[[ph mh] pv'] mv'].
  destruct Hs as (Hw' & -> & ->). specialize (IH (S j) pv' mv' Hw' Hd').
  unfold row_from. cbn [seq map existsb]. fold (row_from needle hay (S j) (length rest)).
  destruct (dist_deltas needle hay (length needle) j) as [_ Hdelta].
  set (a := dist needle hay (length needle) j) in *. set (b := dist needle hay (length needle) (S j)) in *.
  destruct (Z.eqb_spec (b - a) 1) as [E1|E1].
  { replace (b <=? d) with false by lia. replace (a + 1) with b by lia. apply IH. lia. }
  destruct (Z.eqb_spec (b - a) (-1)) as [E2|E2].
  - replace (a - 1) with b by lia. destruct (b <=? d) eqn:Eb; [done|]. apply IH. lia.
  - replace b with a in * by lia. replace (a <=? d) with false by lia. apply IH. lia.
Qed.

Lemma existsb_row needle hay d :
  existsb (λ v, v <=? d) (row_from needle hay 0 (length hay)) = true ↔
  ∃ j : nat, (1 ≤ j ≤ length hay)%nat ∧ dist needle hay (length needle) j ≤ d.
Proof.
  rewrite existsb_exists. unfold row_from. split.
  - intros (v & (j & <- & Hj)%in_map_iff & Hv). apply in_seq in Hj. exists j. split; lia.
  - intros (j & Hj & Hv). exists (dist needle hay (length needle) j).
    split; [apply (in_map (λ k, dist needle hay (length needle) k)), in_seq|]; lia.
Qed.

Lemma within_distance_spec needle hay d :
  needle_ok needle → bytes_ok needle → bytes_ok hay →
  ∃ b, within_distance needle hay d = Ret b ∧
    (b = true ↔ needle ≠ [] ∧
       ∃ j : nat, (1 ≤ j ≤ length hay)%nat ∧ dist needle hay (length needle) j ≤ d).
Proof.
  intros Hok Hb Hh. unfold within_distance.
  destruct (decide (needle = [])) as [->|Hn]; [exists false; split; [done|naive_solver]|].
  destruct (decide (hay = [])) as [->|Hhn].
  { exists false. change (#(@nil Z) =? 0) with true. rewrite orb_true_r. split; [done|]. split; [done|].
    intros (_ & j & Hj & _). simpl in Hj. lia. }
  assert (0 < #needle) by (destruct needle; [done|rewrite len_cons; pose proof (len_nonneg needle); lia]).
  assert (0 < #hay) by (destruct hay; [done|rewrite len_cons; pose proof (len_nonneg hay); lia]).
  replace ((#needle =? 0) || (#hay =? 0)) with false by lia.
  destruct (#needle <=? d) eqn:Ed.
  { exists true. split; [done|]. split; [|done]. intros _. split; [done|]. exists 1%nat.
    pose proof (dist_le needle hay (length needle) 1). unfold len in *. lia. }
  exists (existsb (λ v, v <=? d) (row_from needle hay 0 (length hay))).
  rewrite existsb_row. split; [|naive_solver]. destruct (#needle <=? 64) eqn:E64.
  - destruct (build_peq_spec needle Hb) as (peq & -> & Hp); [lia|]. rewrite bind_ret.
    pose proof (within_loop_spec needle hay d peq 0 hay u64_max 0 Hn Hok Hh) as H1.
    rewrite dist_0_r in H1. fold (len needle) in H1.
    apply H1; [unfold len in *; lia|done|apply column_words_start; unfold len in *; lia|done|lia].
  - rewrite last_row_spec, bind_ret by done.
    change (seq 0 (S (length hay))) with (0%nat :: seq 1 (length hay)). cbn [map].
    erewrite (slice_from_app [_] (map _ _) 1 eq_refl : slice_from (_ :: map _ _) 1 = _). done.
Qed.
