(* ===== verification/FuzzyRuns.v ===== *)
(** * The fuzzy occurrences

    The loop over the runs of acceptable ends, the occurrences it returns,
    and the equivalence of the full matrix with the windows of the long
    path. *)
From S2P Require Import Prelude FuzzyDistance FuzzySpans FuzzyMatrix FuzzyBits.
Import fuzzy_spans.

(** ** The loops *)

Section Runs.
Context (row trace : Z → out Z) (R T : Z → Z) (n d : Z).
Context (Hrow : ∀ k, 1 ≤ k ≤ n → row k = Ret (R k)).
Context (Htrace : ∀ e, 1 ≤ e ≤ n → R e ≤ d → trace e = Ret (T e)).

(** [e] is the first of the nearest ends of [a..b]. *)
Definition best_in (a b e : Z) : Prop :=
  a ≤ e < b ∧ ∀ x, a ≤ x < b → R e < R x ∨ (R e = R x ∧ e ≤ x).

Lemma best_of_run_spec fuel a k e :
  best_in a k e → 1 ≤ k ≤ n + 1 → (∀ x, a ≤ x < k → R x ≤ d) → n + 1 - k ≤ Z.of_nat fuel →
  ∃ e' k', best_of_run fuel row n d k e (R e) = Ret (e', R e', k') ∧
    k ≤ k' ≤ n + 1 ∧ best_in a k' e' ∧ (∀ x, a ≤ x < k' → R x ≤ d) ∧ (k' ≤ n → d < R k').
Proof using Hrow.
  revert k e. induction fuel as [|fuel IH]; intros k e He Hk Hacc Hf; cbn [best_of_run].
  { replace (k <=? n) with false by lia. exists e, k. split_and!; try done; lia. }
  destruct (k <=? n) eqn:E; [|exists e, k; split_and!; try done; lia].
  rewrite Hrow, bind_ret by lia. destruct (R k <=? d) eqn:Ed; [|exists e, k; split_and!; try done; lia].
  assert (∀ x, a ≤ x < k + 1 → R x ≤ d) as Hacc'.
  { intros x Hx. destruct (decide (x = k)) as [->|]; [lia|]. apply Hacc. lia. }
  destruct He as [He1 He2].
  destruct (R k <? R e) eqn:Ev.
  - destruct (IH (k + 1) k) as (e' & k' & -> & Hk' & H); [|lia|done|lia|].
    { split; [lia|]. intros x Hx. destruct (decide (x = k)) as [->|]; [lia|].
      specialize (He2 x). lia. }
    exists e', k'. split; [done|]. split; [lia|done].
  - destruct (IH (k + 1) e) as (e' & k' & -> & Hk' & H); [|lia|done|lia|].
    { split; [lia|]. intros x Hx. destruct (decide (x = k)) as [->|]; [lia|]. apply He2. lia. }
    exists e', k'. split; [done|]. split; [lia|done].
Qed.

(** The occurrences from [j] on: an end per run, with its start; between two
    of them lies an end that is not acceptable; each acceptable end is in the
    run of one, which is nearer, or as near and not after it. *)
Definition spans_of (j : Z) (spans : list (Z * Z * Z)) : Prop :=
  Forall (λ x, let '(s, e, v) := (x : Z * Z * Z) in j ≤ e ≤ n ∧ s = T e ∧ v = R e ∧ R e ≤ d) spans ∧
  StronglySorted (λ x y : Z * Z * Z, ∃ z, snd (fst x) < z < snd (fst y) ∧ d < R z) spans ∧
  ∀ e, j ≤ e ≤ n → R e ≤ d → ∃ e', (T e', e', R e') ∈ spans ∧
    (R e' < R e ∨ (R e' = R e ∧ e' ≤ e)) ∧ ∀ z, Z.min e e' ≤ z ≤ Z.max e e' → R z ≤ d.

Lemma spans_loop_spec fuel j acc :
  1 ≤ j → n + 1 - j ≤ Z.of_nat fuel →
  ∃ spans, spans_loop fuel row trace n d j acc = Ret (acc ++ spans) ∧ spans_of j spans.
Proof using All.
  revert j acc. induction fuel as [|fuel IH]; intros j acc Hj Hf; cbn [spans_loop].
  { replace (j <=? n) with false by lia. exists []. rewrite app_nil_r. split; [done|].
    split_and!; [done|constructor|]. intros e He. lia. }
  destruct (j <=? n) eqn:E.
  2: { exists []. rewrite app_nil_r. split; [done|]. split_and!; [done|constructor|]. intros e He. lia. }
  rewrite Hrow, bind_ret by lia. destruct (d <? R j) eqn:Ed.
  - destruct (IH (j + 1) acc) as (spans & Es & H1 & H2 & H3); [lia..|]. exists spans. split; [done|].
    split_and!; [|done|].
    + eapply Forall_impl; [exact H1|]. intros [[s e] v]. lia.
    + intros e He Hr. apply H3; [|done]. destruct (decide (e = j)) as [->|]; lia.
  - destruct (best_of_run_spec (Z.to_nat n) j (j + 1) j) as (e' & k' & -> & Hk & Hb & Hacc & Hend);
      [split; [lia|]; intros x Hx; replace x with j by lia; lia|lia|intros x Hx; replace x with j by lia; lia|lia|].
    destruct Hb as [He' Hbest]. rewrite bind_ret, Htrace, bind_ret by (apply Hacc || lia; lia).
    destruct (IH k' (acc ++ [(T e', e', R e')])) as (spans & Es & H1 & H2 & H3); [lia..|].
    exists ((T e', e', R e') :: spans). rewrite Es, <- app_assoc. split; [done|]. split_and!.
    + constructor; [split_and!; try done; try lia; apply Hacc; lia|].
      eapply Forall_impl; [exact H1|]. intros [[s e] v]. lia.
    + constructor; [done|]. eapply Forall_impl; [exact H1|]. intros [[s e] v] (He & _ & _ & Hr).
      cbn [fst snd]. assert (k' ≤ n) as Hkn by lia. specialize (Hend Hkn). exists k'. split; [|done].
      assert (e ≠ k') by (intros ->; lia). lia.
    + intros e He Hr. destruct (decide (e < k')) as [Hlt|Hge].
      * exists e'. split; [left|]. split; [apply Hbest; lia|]. intros z Hz. apply Hacc. lia.
      * destruct (H3 e) as (e2 & Hin & H); [lia|done|]. exists e2. split; [by right|done].
Qed.

(** The loop depends on its row and its traceback by their values only. *)
Lemma spans_loop_ext fuel j acc row' trace' :
  (∀ k, 1 ≤ k ≤ n → row' k = row k) →
  (∀ e, 1 ≤ e ≤ n → R e ≤ d → trace' e = trace e) → 1 ≤ j →
  spans_loop fuel row' trace' n d j acc = spans_loop fuel row trace n d j acc.
Proof using Hrow.
  intros Hr Ht. revert j acc.
  assert (∀ f k e v, 1 ≤ k → best_of_run f row' n d k e v = best_of_run f row n d k e v) as Hb.
  { induction f as [|f IH]; intros k e v Hk; cbn [best_of_run]; case_match; try done;
      rewrite Hr, Hrow, !bind_ret by lia; repeat case_match; try done; apply IH; lia. }
  induction fuel as [|fuel IH]; intros j acc Hj; cbn [spans_loop]; [done|].
  destruct (j <=? n) eqn:E; [|done]. rewrite Hr, Hrow, !bind_ret by lia.
  destruct (d <? R j) eqn:Ed; [apply IH; lia|]. rewrite Hb by lia.
  destruct (best_of_run_spec (Z.to_nat n) j (j + 1) j) as (e' & k' & -> & Hk & Hbest & Hacc & _);
    [split; [lia|]; intros x Hx; replace x with j by lia; lia|lia|intros x Hx; replace x with j by lia; lia|lia|].
  destruct Hbest as [He' _]. rewrite !bind_ret, Ht by (apply Hacc || lia; lia).
  destruct (trace e'); [|done..]. rewrite !bind_ret. apply IH. lia.
Qed.
End Runs.

(** ** Occurrences *)

(** [v] is the least number of edits from the needle to a substring of the
    text that ends at [e]. *)
Definition least_edits (needle hay : list Z) (e v : Z) : Prop :=
  (∃ s, 0 ≤ s ≤ e ∧ edit needle (sub hay (Z.to_nat s) (Z.to_nat e)) v) ∧
  ∀ s k, 0 ≤ s ≤ e → edit needle (sub hay (Z.to_nat s) (Z.to_nat e)) k → v ≤ k.

(** Some substring that ends at [e] is at most [d] edits away. *)
Definition near (needle hay : list Z) (d e : Z) : Prop :=
  ∃ s k, 0 ≤ s ≤ e ∧ edit needle (sub hay (Z.to_nat s) (Z.to_nat e)) k ∧ k ≤ d.

Definition distance (needle hay : list Z) (e : Z) : Z := dist needle hay (length needle) (Z.to_nat e).

Lemma distance_least needle hay e : 0 ≤ e ≤ #hay → least_edits needle hay e (distance needle hay e).
Proof.
  intros He. unfold len in He. split.
  - destruct (dist_reached needle hay (length needle) (Z.to_nat e)) as (s & Hs & H); [lia..|].
    rewrite firstn_all in H. exists (Z.of_nat s). rewrite Nat2Z.id. split; [lia|done].
  - intros s k Hs H. apply (dist_least needle hay (length needle) (Z.to_nat s)); [lia..|]. by rewrite firstn_all.
Qed.

Lemma near_distance needle hay d e : 0 ≤ e ≤ #hay → near needle hay d e ↔ distance needle hay e ≤ d.
Proof.
  intros He. destruct (distance_least needle hay e He) as [(s & Hs & H) Hl]. split.
  - intros (s' & k & Hs' & Hk & Hd). specialize (Hl s' k Hs' Hk). lia.
  - intros Hd. by exists s, (distance needle hay e).
Qed.

(** Where the traceback from an end lands. *)
Definition start_of (needle hay : list Z) (e : Z) : Z :=
  Z.of_nat (path needle hay (Z.to_nat (#needle + e)) (length needle) (Z.to_nat e)).

Lemma start_of_edit needle hay e :
  0 ≤ e ≤ #hay → 0 ≤ start_of needle hay e ≤ e ∧
    edit needle (sub hay (Z.to_nat (start_of needle hay e)) (Z.to_nat e)) (distance needle hay e).
Proof.
  intros He. unfold start_of, distance. rewrite Nat2Z.id.
  destruct (path_edit needle hay (Z.to_nat (#needle + e)) (length needle) (Z.to_nat e)) as [H1 H2];
    [unfold len in *; lia..|]. rewrite firstn_all in H2. split; [lia|done].
Qed.

Lemma fuzzy_spans_eq needle hay d :
  needle_ok needle → needle ≠ [] →
  ∃ row trace, fuzzy_spans.fuzzy_spans needle hay d = spans_loop (length hay) row trace #hay d 1 [] ∧
    (∀ k, 1 ≤ k ≤ #hay → row k = Ret (distance needle hay k)) ∧
    (∀ e, 1 ≤ e ≤ #hay → trace e = Ret (start_of needle hay e)).
Proof.
  intros Hok Hn. unfold fuzzy_spans.fuzzy_spans. pose proof (len_nonneg hay).
  assert (0 < #needle) by (destruct needle; [done|rewrite len_cons; pose proof (len_nonneg needle); lia]).
  replace (#needle =? 0) with false by lia. rewrite orb_false_l, len_to_nat.
  destruct (#hay =? 0) eqn:Eh.
  { exists (λ _, Ret 0), (λ _, Ret 0). assert (hay = []) as -> by (destruct hay; [done|rewrite len_cons in Eh; pose proof (len_nonneg hay); lia]).
    split; [done|]. rewrite len_nil. split; intros; lia. }
  destruct (matrix_spec needle hay 0 #hay Hok) as (dp & -> & Hc); [lia..|]. rewrite bind_ret.
  eexists _, _. split; [done|]. split.
  - intros k Hk. rewrite (cells_index needle hay 0 #hay) with (P := λ _ _, True) by (done || lia).
    unfold distance. by rewrite len_to_nat.
  - intros e He. rewrite (traceback_path needle hay 0 #hay dp Hok) by (done || lia).
    unfold start_of. by rewrite len_to_nat.
Qed.

(** The windows of the long path give the starts of the full matrix. *)
Lemma window_trace needle hay d e :
  needle_ok needle → 0 ≤ d → 2 * #needle + d + 1 < 2 ^ 64 →
  1 ≤ e ≤ #hay → distance needle hay e ≤ d →
  (let s0 := saturating_sub e (as_u64 (2 * #needle + d + 1)) in
   local ← matrix needle hay s0 (e - s0);
   x ← traceback (Z.to_nat (#needle + (e - s0))) needle hay s0 (e - s0 + 1) local #needle (e - s0);
   Ret (s0 + x)) = Ret (start_of needle hay e).
Proof.
  intros Hok Hd0 Hsize He Hd. cbv zeta. pose proof (len_nonneg needle).
  unfold as_u64. rewrite Z.mod_small by lia. unfold saturating_sub.
  set (s0 := Z.max 0 (e - (2 * #needle + d + 1))).
  destruct (matrix_spec needle hay s0 (e - s0) Hok) as (dp & -> & Hc); [lia..|]. rewrite bind_ret.
  rewrite (traceback_path needle hay s0 (e - s0) dp Hok), bind_ret by (done || lia).
  f_equal. unfold start_of. rewrite len_to_nat.
  destruct (decide (e ≤ 2 * #needle + d + 1)) as [Hsmall|Hlarge].
  { replace s0 with 0 by lia. rewrite Z.sub_0_r. done. }
  rewrite (path_fuel needle _ _ (Z.to_nat (#needle + e))) by (unfold len in *; lia).
  replace (Z.to_nat e) with (Z.to_nat s0 + Z.to_nat (e - s0))%nat by lia.
  rewrite path_window; [lia|lia|unfold len in *; lia..|].
  replace (Z.to_nat s0 + Z.to_nat (e - s0))%nat with (Z.to_nat e) by lia.
  fold (distance needle hay e). unfold len in *. lia.
Qed.

(** C37. Fuzzy occurrences are exactly what the module defines.  For a
    non-empty needle, every span returned is an occurrence: the needle
    becomes [hay[s..e]] by [v] edits, [v] is within the tolerance, and no
    substring that ends at [e] is nearer.  There is one span per run of
    acceptable ends: between two spans lies an end with no occurrence, and
    for every substring within the tolerance there is a span in the same run
    of ends that is nearer, or as near and not after it. *)
Theorem fuzzy_spans_correct (needle hay : list Z) (d : Z) :
  needle_ok needle → needle ≠ [] →
  ∃ spans, fuzzy_spans.fuzzy_spans needle hay d = Ret spans ∧
    (∀ s e v, (s, e, v) ∈ spans →
       1 ≤ e ≤ #hay ∧ 0 ≤ s ≤ e ∧ v ≤ d ∧ edit needle (sub hay (Z.to_nat s) (Z.to_nat e)) v ∧
       least_edits needle hay e v) ∧
    StronglySorted (λ x y : Z * Z * Z,
      ∃ z, snd (fst x) < z < snd (fst y) ∧ ¬ near needle hay d z) spans ∧
    (∀ s e k, 1 ≤ e ≤ #hay → 0 ≤ s ≤ e →
       edit needle (sub hay (Z.to_nat s) (Z.to_nat e)) k → k ≤ d →
       ∃ s' e' v, (s', e', v) ∈ spans ∧ (v < k ∨ (v = k ∧ e' ≤ e)) ∧
         ∀ z, Z.min e e' ≤ z ≤ Z.max e e' → near needle hay d z).
Proof.
  intros Hok Hn. destruct (fuzzy_spans_eq needle hay d Hok Hn) as (row & trace & -> & Hrow & Htrace).
  destruct (spans_loop_spec row trace (distance needle hay) (start_of needle hay) #hay d Hrow
    (λ e He _, Htrace e He) (length hay) 1 []) as (spans & -> & H1 & H2 & H3); [lia|unfold len; lia|].
  exists spans. split; [done|]. split; [|split].
  - intros s e v Hin. rewrite Forall_forall in H1. destruct (H1 _ Hin) as (He & -> & -> & Hd).
    destruct (start_of_edit needle hay e) as [Hs Hedit]; [lia|].
    split_and!; try done; try lia; apply distance_least; lia.
  - clear H3. induction H2 as [|x spans Hs IH Hx]; [constructor|]. apply Forall_cons in H1 as [Hx1 Hs1].
    constructor; [by apply IH|]. rewrite Forall_forall in Hx, Hs1 |- *. intros y Hy.
    destruct (Hx y Hy) as (z & Hz & Hdz). exists z. split; [done|].
    destruct x as [[sx ex] vx], y as [[sy ey] vy]. destruct (Hs1 _ Hy) as [Hey _]. simpl in *.
    rewrite near_distance by lia. lia.
  - intros s e k He Hs Hk Hd. destruct (distance_least needle hay e) as [_ Hl]; [lia|].
    specialize (Hl s k Hs Hk). destruct (H3 e) as (e' & Hin & Hbest & Hz); [lia..|].
    eexists _, e', _. split; [exact Hin|]. split; [lia|]. intros z Hzr.
    rewrite Forall_forall in H1. destruct (H1 _ Hin) as (He' & _). apply near_distance; [lia|]. by apply Hz.
Qed.

(** [abcd] against [xabdyyacd]. *)
Definition sample_needle : list Z := [97; 98; 99; 100].
Definition sample_hay : list Z := [120; 97; 98; 100; 121; 121; 97; 99; 100].

Lemma sample_needle_ok : needle_ok sample_needle.
Proof. done. Qed.

Lemma fuzzy_spans_correct_witness :
  ∃ spans, fuzzy_spans.fuzzy_spans sample_needle sample_hay 1 = Ret spans ∧
    spans = [(1, 4, 1); (6, 9, 1)] ∧ least_edits sample_needle sample_hay 4 1.
Proof.
  destruct (fuzzy_spans_correct sample_needle sample_hay 1 sample_needle_ok) as (spans & E & H & _); [done|].
  exists spans. split; [exact E|]. vm_compute in E. injection E as <-. split; [reflexivity|].
  apply (H 1 4 1). by left.
Defined.

(** The last row is the distance at every end, whichever way it is
    computed: for any needle and text of bytes, [last_row] returns one value
    per end offset, 0 included, and each is the least number of edits from
    the needle to a substring ending there.  Up to 64 bytes the value comes
    out of Myers' bit vectors, beyond out of the columns. *)
Theorem last_row_correct (needle hay : list Z) :
  needle_ok needle → bytes_ok needle → bytes_ok hay →
  ∃ row, last_row needle hay = Ret row ∧ #row = #hay + 1 ∧
    ∀ e, 0 ≤ e ≤ #hay → ∃ v, row !! Z.to_nat e = Some v ∧ least_edits needle hay e v.
Proof.
  intros Hok Hb Hh. rewrite last_row_spec by done. eexists. split; [done|].
  split; [unfold len; rewrite length_map, length_seq; lia|]. intros e He.
  exists (distance needle hay e). split; [|by apply distance_least].
  rewrite list_lookup_fmap, lookup_seq_lt by (unfold len in He; lia). done.
Qed.

Lemma last_row_correct_witness :
  last_row sample_needle sample_hay = Ret [4; 4; 3; 2; 1; 2; 3; 3; 2; 1] ∧
  least_edits sample_needle sample_hay 9 1.
Proof.
  destruct (last_row_correct sample_needle sample_hay sample_needle_ok) as (row & E & _ & H);
    [by apply (bool_decide_unpack _)..|].
  split; [reflexivity|]. vm_compute in E. injection E as <-.
  destruct (H 9) as (v & Hv & Hl); [vm_compute; split; congruence|]. injection Hv as <-. exact Hl.
Defined.

(** The quick test is exact: [within_distance] is true exactly when
    [fuzzy_spans] finds a span, although it stops at the first end that is
    near enough and looks only where the score goes down. *)
Theorem within_distance_exact (needle hay : list Z) (d : Z) :
  needle_ok needle → bytes_ok needle → bytes_ok hay →
  ∃ b spans, within_distance needle hay d = Ret b ∧ fuzzy_spans.fuzzy_spans needle hay d = Ret spans ∧
    (b = true ↔ spans ≠ []).
Proof.
  intros Hok Hb Hh. destruct (within_distance_spec needle hay d Hok Hb Hh) as (b & Eb & Hiff).
  destruct (decide (needle = [])) as [->|Hn].
  { exists b, []. split; [done|]. split; [done|]. rewrite Hiff. naive_solver. }
  destruct (fuzzy_spans_eq needle hay d Hok Hn) as (row & trace & -> & Hrow & Htrace).
  destruct (spans_loop_spec row trace (distance needle hay) (start_of needle hay) #hay d Hrow
    (λ e He _, Htrace e He) (length hay) 1 []) as (spans & -> & H1 & _ & H3); [lia|unfold len; lia|].
  exists b, spans. split; [done|]. split; [done|]. rewrite Hiff. split.
  - intros (_ & j & Hj & Hd) ->. destruct (H3 (Z.of_nat j)) as (e' & Hin & _); [unfold len; lia| |].
    + unfold distance. by rewrite Nat2Z.id.
    + by apply not_elem_of_nil in Hin.
  - intros Hs. split; [done|]. destruct spans as [|[[s e] v] spans]; [done|].
    apply Forall_cons in H1 as [(He & _ & _ & Hd) _]. exists (Z.to_nat e). split; [unfold len in He; lia|done].
Qed.

Lemma within_distance_exact_witness :
  within_distance sample_needle sample_hay 1 = Ret true ∧
  ∃ spans, fuzzy_spans.fuzzy_spans sample_needle sample_hay 1 = Ret spans ∧ spans ≠ [].
Proof.
  destruct (within_distance_exact sample_needle sample_hay 1 sample_needle_ok) as (b & spans & Eb & Es & H);
    [by apply (bool_decide_unpack _)..|].
  split; [reflexivity|]. exists spans. split; [exact Es|]. apply H. vm_compute in Eb. congruence.
Defined.

(** C38. The long path finds what the full matrix finds: for every threshold,
    [fuzzy_spans_long_above] returns the spans of [fuzzy_spans], starts
    included.  A cell depends on nothing more than twice its row before it,
    and the traceback from an acceptable end moves left at most [d] times, so
    the window of [2 * m + d + 1] bytes holds every cell it reads. *)
Theorem fuzzy_spans_long_same (needle hay : list Z) (d full_cells : Z) :
  needle_ok needle → bytes_ok needle → bytes_ok hay → 0 ≤ d → 2 * #needle + d + 1 < 2 ^ 64 →
  fuzzy_spans_long_above needle hay d full_cells = fuzzy_spans.fuzzy_spans needle hay d.
Proof.
  intros Hok Hb Hh Hd Hsize. unfold fuzzy_spans_long_above.
  destruct (decide (needle = [])) as [->|Hn]; [done|].
  destruct ((#needle =? 0) || (#hay =? 0)) eqn:E0.
  { unfold fuzzy_spans.fuzzy_spans. by rewrite E0. }
  case_match; [done|]. rewrite last_row_spec, bind_ret by done.
  destruct (fuzzy_spans_eq needle hay d Hok Hn) as (row & trace & -> & Hrow & Htrace).
  rewrite len_to_nat. apply (spans_loop_ext row trace (distance needle hay) #hay d Hrow); [| |lia].
  - intros k Hk. rewrite Hrow by done. apply index_lookup; [lia|].
    rewrite list_lookup_fmap, lookup_seq_lt by (unfold len in Hk; lia). done.
  - intros e He Hde. rewrite Htrace by done. by apply window_trace.
Qed.

Lemma fuzzy_spans_long_same_witness :
  fuzzy_spans_long_above sample_needle (replicate 40 32 ++ sample_hay) 1 0 = Ret [(41, 44, 1); (46, 49, 1)].
Proof.
  rewrite (fuzzy_spans_long_same sample_needle (replicate 40 32 ++ sample_hay) 1 0 sample_needle_ok);
    [vm_compute; reflexivity|by apply (bool_decide_unpack _)..|vm_compute; congruence|reflexivity].
Defined.
