(* ===== verification/ParentRecord.v ===== *)
(** * Parent records ([src/suffix_fst/builder_v3.rs])

    A key of the suffix dictionary is a suffix of some chunk or word; its
    record lists the tokens it is a suffix of, its parents.  This file holds
    the record's encoders and decoders, for the version written now (8: flat
    up to 32 parents, grouped by overlap beyond) and for the versions still
    read (5 and 6 delta-coded, 4 packed, 3 fixed width). *)
From S2P Require Import Prelude Varint Ordering.
Import varint.

Module parents.

(** ** Integers *)

(** [v as i64]. *)
Definition as_i64 (v : Z) : Z :=
  let m := as_u64 v in if m <? 2 ^ 63 then m else m - 2 ^ 64.
(** [a + b] on [u64] and [usize], [a + b] on [u16]. *)
Definition add64 (a b : Z) : Z := as_u64 (a + b).
Definition add16 (a b : Z) : Z := as_u16 (a + b).
(** [v << shift] on [u64]: without overflow checks the shift is masked. *)
Definition wrapping_shl64 (v shift : Z) : Z := as_u64 (Z.shiftl v (shift mod 64)).

(** [<[u8]>::cmp]. *)
Fixpoint lex_cmp (a b : list Z) : comparison :=
  match a, b with
  | [], [] => Eq
  | [], _ :: _ => Lt
  | _ :: _, [] => Gt
  | x :: a, y :: b => match x ?= y with Eq => lex_cmp a b | c => c end
  end.

(** ** The parent *)

Definition MAX_OVERLAP_BYTES : Z := 4.
Definition SI0_PREFIX : Z := 0x00.
Definition SI_REST_PREFIX : Z := 0x01.
Definition SI_STRIPPED_PREFIX : Z := 0x02.

(** [overlap] is the array of four bytes; the first [overlap_len] count. *)
Record ParentEntryV3 := {
  raw_ordinal : Z;
  sti : Z;
  own_len : Z;
  sep_len : Z;
  overlap_len : Z;
  overlap : list Z;
  is_word_start : bool;
}.

#[export] Instance ParentEntryV3_eq : EqDecision ParentEntryV3.
Proof. solve_decision. Defined.

(** ** The packed value of versions 3 to 5 *)

Definition MULTI_FLAG : Z := Z.shiftl 1 63.
Definition WORD_START_FLAG : Z := Z.shiftl 1 62.
Definition ORDINAL_MASK : Z := Z.shiftl 1 24 - 1.
Definition STI_SHIFT : Z := 24.
Definition STI_MASK : Z := Z.shiftl 1 12 - 1.
Definition OWN_LEN_SHIFT : Z := 36.
Definition OWN_LEN_MASK : Z := Z.shiftl 1 14 - 1.
Definition SEP_LEN_SHIFT : Z := 50.
Definition SEP_LEN_MASK : Z := Z.shiftl 1 8 - 1.
Definition OVERLAP_SHIFT : Z := 58.
Definition OVERLAP_MASK : Z := Z.shiftl 1 4 - 1.

Definition encode_single_parent_v3 (p : ParentEntryV3) : Z :=
  let val := Z.land (raw_ordinal p) ORDINAL_MASK in
  let val := Z.lor val (as_u64 (Z.shiftl (sti p) STI_SHIFT)) in
  let val := Z.lor val (as_u64 (Z.shiftl (own_len p) OWN_LEN_SHIFT)) in
  let val := Z.lor val (as_u64 (Z.shiftl (sep_len p) SEP_LEN_SHIFT)) in
  let val := Z.lor val (as_u64 (Z.shiftl (overlap_len p) OVERLAP_SHIFT)) in
  if is_word_start p then Z.lor val WORD_START_FLAG else val.

Definition encode_multi_parent_v3 (offset : Z) : Z := Z.lor MULTI_FLAG offset.

Inductive ParentRefV3 :=
| Single (p : ParentEntryV3)
| Multi (offset : Z).

Definition decode_output_v3 (value : Z) : ParentRefV3 :=
  if negb (Z.land value MULTI_FLAG =? 0)
  then Multi (Z.land value (2 ^ 64 - 1 - MULTI_FLAG))
  else Single {|
    raw_ordinal := Z.land value ORDINAL_MASK;
    sti := as_u16 (Z.land (Z.shiftr value STI_SHIFT) STI_MASK);
    own_len := as_u16 (Z.land (Z.shiftr value OWN_LEN_SHIFT) OWN_LEN_MASK);
    sep_len := as_u8 (Z.land (Z.shiftr value SEP_LEN_SHIFT) SEP_LEN_MASK);
    overlap_len := as_u8 (Z.land (Z.shiftr value OVERLAP_SHIFT) OVERLAP_MASK);
    overlap := replicate 4 0;
    is_word_start := negb (Z.land value WORD_START_FLAG =? 0) |}.

(** ** Varints, read in place *)

(** The loop of [read_varint_inline] past the first byte; every turn reads a
    byte, so the length of the data bounds them. *)
Fixpoint read_varint_inline_loop (fuel : nat) (data : list Z) (pos v shift : Z) : out (Z * Z) :=
  match fuel with
  | O => OutOfFuel
  | S fuel =>
      b ← index data pos;
      let pos := pos + 1 in
      let v := Z.lor v (wrapping_shl64 (Z.land b 0x7f) shift) in
      if b <? 0x80 then Ret (v, pos) else read_varint_inline_loop fuel data pos v (shift + 7)
  end.

Definition read_varint_inline (data : list Z) (pos : Z) : out (Z * Z) :=
  b ← index data pos;
  let pos := pos + 1 in
  if b <? 0x80 then Ret (b, pos)
  else read_varint_inline_loop (S (length data)) data pos (Z.land b 0x7f) 7.

(** ** Version 8: the writer *)

Definition FLAT_RECORD_MAX_PARENTS : Z := 32.
Definition FLAG_WORD_START : Z := 0x80.
Definition FLAG_OWN_LEN : Z := 0x40.
Definition SEP_LEN_ESCAPE : Z := 7.

Definition zigzag (delta : Z) : Z :=
  as_u64 (Z.lxor (as_i64 (Z.shiftl delta 1)) (Z.shiftr delta 63)).

Definition unzigzag (v : Z) : Z :=
  Z.lxor (as_i64 (Z.shiftr v 1)) (- as_i64 (Z.land v 1)).

Definition derived_own_len (key : list Z) (sti sep_len : Z) : Z :=
  let body := as_u16 (saturating_sub #key 1) in
  if bool_decide (head key = Some SI_STRIPPED_PREFIX)
  then add16 (add16 body sti) sep_len
  else add16 body sti.

Definition overlap_of (p : ParentEntryV3) : list Z :=
  take (Z.to_nat (Z.min (overlap_len p) MAX_OVERLAP_BYTES)) (overlap p).

Definition write_parent_fields (buf : list Z) (p : ParentEntryV3) (key : list Z)
    (with_overlap : bool) : list Z :=
  let buf := write_varint buf (sti p) in
  let explicit := negb (derived_own_len key (sti p) (sep_len p) =? own_len p) in
  let ov_len := Z.min (overlap_len p) MAX_OVERLAP_BYTES in
  let flags := Z.lor (Z.shiftl ov_len 3)
                 (if sep_len p <? SEP_LEN_ESCAPE then sep_len p else SEP_LEN_ESCAPE) in
  let flags := if is_word_start p then Z.lor flags FLAG_WORD_START else flags in
  let flags := if explicit then Z.lor flags FLAG_OWN_LEN else flags in
  let buf := buf ++ [flags] in
  let buf := if explicit then write_varint buf (own_len p) else buf in
  let buf := if SEP_LEN_ESCAPE <=? sep_len p then write_varint buf (sep_len p) else buf in
  if with_overlap then buf ++ overlap_of p else buf.

(** A run of parents, each ordinal a delta against the one before. *)
Fixpoint write_parents (buf : list Z) (prev : Z) (ps : list ParentEntryV3) (key : list Z)
    (with_overlap : bool) : list Z :=
  match ps with
  | [] => buf
  | p :: ps =>
      let buf := write_varint buf (as_u64 (raw_ordinal p - prev)) in
      let buf := write_parent_fields buf p key with_overlap in
      write_parents buf (raw_ordinal p) ps key with_overlap
  end.

(** The order of a flat record, and that of a grouped one. *)
Definition flat_le (a b : ParentEntryV3) : Prop :=
  lex_leb [raw_ordinal a; sti a] [raw_ordinal b; sti b] = true.
Definition grouped_le (a b : ParentEntryV3) : Prop :=
  match lex_cmp (overlap_of a) (overlap_of b) with
  | Lt => True
  | Eq => flat_le a b
  | Gt => False
  end.

#[export] Instance flat_le_dec a b : Decision (flat_le a b).
Proof. unfold flat_le. apply _. Defined.
#[export] Instance grouped_le_dec a b : Decision (grouped_le a b).
Proof. unfold grouped_le. destruct (lex_cmp _ _); apply _. Defined.

(** The inner [while]: the end of the group that starts at [i]. *)
Fixpoint group_end (fuel : nat) (ps : list ParentEntryV3) (i j : Z) : out Z :=
  match fuel with
  | O => OutOfFuel
  | S fuel =>
      if j <? #ps then
        pj ← index ps j;
        pi ← index ps i;
        if bytes_eqb (overlap_of pj) (overlap_of pi) then group_end fuel ps i (j + 1) else Ret j
      else Ret j
  end.

(** The outer [while]: the bounds of the groups from [i] on. *)
Fixpoint groups_loop (fuel : nat) (ps : list ParentEntryV3) (i : Z) (groups : list (Z * Z))
    : out (list (Z * Z)) :=
  match fuel with
  | O => OutOfFuel
  | S fuel =>
      if i <? #ps then
        j ← group_end (S (length ps)) ps i (i + 1);
        groups_loop fuel ps j (groups ++ [(i, j)])
      else Ret groups
  end.

(** The loop that writes the groups; [more] tells that another follows, which
    is when the byte length is written. *)
Fixpoint write_groups (buf : list Z) (ps : list ParentEntryV3) (key : list Z) (prev_first : Z)
    (groups : list (Z * Z)) : out (list Z) :=
  match groups with
  | [] => Ret buf
  | (i, j) :: groups =>
      p ← index ps i;
      let ov := overlap_of p in
      let buf := buf ++ [as_u8 #ov] ++ ov in
      let buf := write_varint buf (as_u64 (j - i)) in
      let first := as_i64 (raw_ordinal p) in
      let buf := write_varint buf (zigzag (as_i64 (first - prev_first))) in
      members ← slice ps i j;
      let body := write_parents [] (as_u64 first) members key false in
      let buf := if negb (bool_decide (groups = [])) then write_varint buf (as_u64 #body) else buf in
      write_groups (buf ++ body) ps key first groups
  end.

Definition encode_parent_record_v8 (parents : list ParentEntryV3) (key : list Z) : out (list Z) :=
  if #parents <=? FLAT_RECORD_MAX_PARENTS then
    let parents := merge_sort flat_le parents in
    Ret (write_parents [as_u8 #parents] 0 parents key true)
  else
    let parents := merge_sort grouped_le parents in
    groups ← groups_loop (S (length parents)) parents 0 [];
    let buf := if #groups <=? 127 then [Z.lor 0x80 (as_u8 #groups)]
               else write_varint [0x80] (as_u64 #groups) in
    write_groups buf parents key 0 groups.

Definition encode_parent_entries_v8 (parents : list ParentEntryV3) (key : list Z) : out (list Z) :=
  encode_parent_record_v8 parents key.

(** ** Version 8: the readers *)

(** The first byte and, when its count is 0, the varint behind it. *)
Definition read_record_head_v8 (data : list Z) : out (bool * Z * Z) :=
  head ← index data 0;
  '(count, pos) ← (if Z.land head 0x7F =? 0 then read_varint_inline data 1
                   else Ret (Z.land head 0x7F, 1));
  Ret (negb (Z.land head 0x80 =? 0), count, pos).

Definition read_parent_fields (data : list Z) (pos : Z) (key : list Z)
    : out (Z * Z * Z * Z * Z) :=
  '(v, pos) ← read_varint_inline data pos;
  let sti := as_u16 v in
  flags ← index data pos;
  let pos := pos + 1 in
  '(own_len, pos) ← (if negb (Z.land flags FLAG_OWN_LEN =? 0)
                     then '(v, pos) ← read_varint_inline data pos; Ret (as_u16 v, pos)
                     else Ret (0, pos));
  '(sep_len, pos) ← (if Z.land flags 0x07 =? SEP_LEN_ESCAPE
                     then '(v, pos) ← read_varint_inline data pos; Ret (as_u8 v, pos)
                     else Ret (Z.land flags 0x07, pos));
  let own_len := if Z.land flags FLAG_OWN_LEN =? 0 then derived_own_len key sti sep_len
                 else own_len in
  Ret (sti, own_len, sep_len, flags, pos).

(** [overlap[..ov_len].copy_from_slice(&data[pos..pos + ov_len])] over an
    array of zeros. *)
Definition copy_overlap (data : list Z) (pos ov_len : Z) : out (list Z) :=
  if ov_len <=? MAX_OVERLAP_BYTES then
    bytes ← slice data pos (pos + ov_len);
    Ret (bytes ++ replicate (Z.to_nat (MAX_OVERLAP_BYTES - ov_len)) 0)
  else Panic.

(** [n] parents of a flat record; those whose overlap [keep] refuses are read
    and dropped. *)
Fixpoint flat_run (n : nat) (data : list Z) (pos ordinal : Z) (key : list Z)
    (keep : list Z → bool) : out (list ParentEntryV3) :=
  match n with
  | O => Ret []
  | S n =>
      '(delta, pos) ← read_varint_inline data pos;
      let ordinal := add64 ordinal delta in
      '(sti, own_len, sep_len, flags, pos) ← read_parent_fields data pos key;
      let ov_len := Z.land (Z.shiftr flags 3) 0x07 in
      overlap ← copy_overlap data pos ov_len;
      let pos := pos + ov_len in
      entries ← flat_run n data pos ordinal key keep;
      Ret (if keep (take (Z.to_nat ov_len) overlap)
           then {| raw_ordinal := ordinal; sti := sti; own_len := own_len; sep_len := sep_len;
                   overlap_len := as_u8 ov_len; overlap := overlap;
                   is_word_start := negb (Z.land flags FLAG_WORD_START =? 0) |} :: entries
           else entries)
  end.

(** [n] parents of a group, with the position behind them. *)
Fixpoint group_run (n : nat) (data : list Z) (pos ordinal : Z) (key : list Z) (ov_len : Z)
    (overlap : list Z) : out (list ParentEntryV3 * Z) :=
  match n with
  | O => Ret ([], pos)
  | S n =>
      '(delta, pos) ← read_varint_inline data pos;
      let ordinal := add64 ordinal delta in
      '(sti, own_len, sep_len, flags, pos) ← read_parent_fields data pos key;
      '(entries, pos) ← group_run n data pos ordinal key ov_len overlap;
      Ret ({| raw_ordinal := ordinal; sti := sti; own_len := own_len; sep_len := sep_len;
              overlap_len := as_u8 ov_len; overlap := overlap;
              is_word_start := negb (Z.land flags FLAG_WORD_START =? 0) |} :: entries, pos)
  end.

(** The head of a group: its overlap, its number of parents and its first
    ordinal, as the code accumulates it in an [i64]. *)
Definition read_group_head (data : list Z) (pos prev_first : Z) : out (Z * list Z * Z * Z * Z) :=
  b ← index data pos;
  let ov_len := Z.min b MAX_OVERLAP_BYTES in
  let pos := pos + 1 in
  overlap ← copy_overlap data pos ov_len;
  let pos := pos + ov_len in
  '(n, pos) ← read_varint_inline data pos;
  '(z, pos) ← read_varint_inline data pos;
  Ret (ov_len, overlap, n, as_i64 (prev_first + unzigzag z), pos).

(** The byte length behind the head of every group but the last. *)
Definition read_byte_len (more : bool) (data : list Z) (pos : Z) : out (Z * Z) :=
  if more then read_varint_inline data pos else Ret (0, pos).

(** The group loop of [decode_parent_entries_v8_where], [n] groups to go. *)
Fixpoint groups_where (n : nat) (data : list Z) (pos prev_first : Z) (key : list Z)
    (keep : list Z → bool) : out (list ParentEntryV3) :=
  match n with
  | O => Ret []
  | S n =>
      '(ov_len, overlap, k, first, pos) ← read_group_head data pos prev_first;
      '(byte_len, pos) ← read_byte_len (negb (Nat.eqb n 0)) data pos;
      if keep (take (Z.to_nat ov_len) overlap) then
        '(entries, pos) ← group_run (Z.to_nat k) data pos (as_u64 first) key ov_len overlap;
        rest ← groups_where n data pos first key keep;
        Ret (entries ++ rest)
      else if negb (Nat.eqb n 0) then groups_where n data (add64 pos byte_len) first key keep
      else Ret []
  end.

Definition decode_parent_entries_v8_where (data key : list Z) (keep : list Z → bool)
    : out (list ParentEntryV3) :=
  '(grouped, count, pos) ← read_record_head_v8 data;
  if negb grouped then flat_run (Z.to_nat count) data pos 0 key keep
  else groups_where (Z.to_nat count) data pos 0 key keep.

Definition decode_parent_entries_v8 (data key : list Z) : out (list ParentEntryV3) :=
  decode_parent_entries_v8_where data key (λ _, true).

(** The [while g < count] of [decode_group_v8_from], [n] groups to go;
    [prev_first] is a [u64] here. *)
Fixpoint group_from_loop (n : nat) (data : list Z) (pos prev_first : Z) (want key : list Z)
    : out (list ParentEntryV3) :=
  match n with
  | O => Ret []
  | S n =>
      '(ov_len, overlap, k, first, pos) ← read_group_head data pos (as_i64 prev_first);
      let first := as_u64 first in
      '(byte_len, pos) ← read_byte_len (negb (Nat.eqb n 0)) data pos;
      match lex_cmp (take (Z.to_nat ov_len) overlap) want with
      | Lt => group_from_loop n data (add64 pos byte_len) first want key
      | Eq => '(entries, _) ← group_run (Z.to_nat k) data pos first key ov_len overlap; Ret entries
      | Gt => Ret []
      end
  end.

Definition decode_group_v8_from (data : list Z) (pos prev_first g count : Z) (want key : list Z)
    : out (list ParentEntryV3) :=
  group_from_loop (Z.to_nat (count - g)) data pos prev_first want key.

Definition decode_parent_entries_v8_overlap (data key want : list Z) : out (list ParentEntryV3) :=
  '(grouped, count, pos) ← read_record_head_v8 data;
  if negb grouped then decode_parent_entries_v8_where data key (λ ov, bytes_eqb ov want)
  else decode_group_v8_from data pos 0 0 count want key.

(** [count_parent_entries_v8]: the bodies are skipped. *)
Fixpoint count_groups (n : nat) (data : list Z) (pos total : Z) : out Z :=
  match n with
  | O => Ret total
  | S n =>
      b ← index data pos;
      let ov_len := Z.min b MAX_OVERLAP_BYTES in
      let pos := pos + (1 + ov_len) in
      '(k, pos) ← read_varint_inline data pos;
      '(_, pos) ← read_varint_inline data pos;
      let total := add64 total k in
      '(byte_len, pos) ← read_byte_len (negb (Nat.eqb n 0)) data pos;
      count_groups n data (add64 pos byte_len) total
  end.

Definition count_parent_entries_v8 (data : list Z) : out Z :=
  '(grouped, count, pos) ← read_record_head_v8 data;
  if negb grouped then Ret count else count_groups (Z.to_nat count) data pos 0.

(** ** The scan without a key *)

Record RawParentV8 := {
  rp_ordinal : Z;
  rp_sti : Z;
  rp_flags : Z;
  rp_own_len : option Z;
  rp_sep_len : Z;
  rp_overlap_len : Z;
  rp_overlap : list Z;
}.

Definition rp_is_word_start (r : RawParentV8) : bool :=
  negb (Z.land (rp_flags r) FLAG_WORD_START =? 0).

Definition resolve (r : RawParentV8) (key : list Z) : ParentEntryV3 :=
  {| raw_ordinal := rp_ordinal r;
     sti := rp_sti r;
     own_len := match rp_own_len r with
                | Some v => v
                | None => derived_own_len key (rp_sti r) (rp_sep_len r)
                end;
     sep_len := rp_sep_len r;
     overlap_len := rp_overlap_len r;
     overlap := rp_overlap r;
     is_word_start := rp_is_word_start r |}.

Record RecordShapeV8 := { flat : bool; groups : Z; num_parents : Z }.

Definition read_raw_parent_fields (data : list Z) (pos : Z) : out (Z * option Z * Z * Z * Z) :=
  '(v, pos) ← read_varint_inline data pos;
  let sti := as_u16 v in
  flags ← index data pos;
  let pos := pos + 1 in
  '(own_len, pos) ← (if negb (Z.land flags FLAG_OWN_LEN =? 0)
                     then '(v, pos) ← read_varint_inline data pos; Ret (Some (as_u16 v), pos)
                     else Ret (None, pos));
  '(sep_len, pos) ← (if Z.land flags 0x07 =? SEP_LEN_ESCAPE
                     then '(v, pos) ← read_varint_inline data pos; Ret (as_u8 v, pos)
                     else Ret (Z.land flags 0x07, pos));
  Ret (sti, own_len, sep_len, flags, pos).

Fixpoint scan_flat (n : nat) (data : list Z) (pos ordinal : Z) : out (list RawParentV8) :=
  match n with
  | O => Ret []
  | S n =>
      '(delta, pos) ← read_varint_inline data pos;
      let ordinal := add64 ordinal delta in
      '(sti, own_len, sep_len, flags, pos) ← read_raw_parent_fields data pos;
      let ov_len := Z.land (Z.shiftr flags 3) 0x07 in
      overlap ← copy_overlap data pos ov_len;
      let pos := pos + ov_len in
      rest ← scan_flat n data pos ordinal;
      Ret ({| rp_ordinal := ordinal; rp_sti := sti; rp_flags := flags; rp_own_len := own_len;
              rp_sep_len := sep_len; rp_overlap_len := as_u8 ov_len; rp_overlap := overlap |} :: rest)
  end.

Fixpoint scan_run (n : nat) (data : list Z) (pos ordinal ov_len : Z) (overlap : list Z)
    : out (list RawParentV8 * Z) :=
  match n with
  | O => Ret ([], pos)
  | S n =>
      '(delta, pos) ← read_varint_inline data pos;
      let ordinal := add64 ordinal delta in
      '(sti, own_len, sep_len, flags, pos) ← read_raw_parent_fields data pos;
      '(rest, pos) ← scan_run n data pos ordinal ov_len overlap;
      Ret ({| rp_ordinal := ordinal; rp_sti := sti; rp_flags := flags; rp_own_len := own_len;
              rp_sep_len := sep_len; rp_overlap_len := as_u8 ov_len; rp_overlap := overlap |} :: rest, pos)
  end.

Fixpoint scan_groups (n : nat) (data : list Z) (pos prev_first parents : Z)
    : out (list RawParentV8 * Z) :=
  match n with
  | O => Ret ([], parents)
  | S n =>
      '(ov_len, overlap, k, first, pos) ← read_group_head data pos prev_first;
      '(_, pos) ← read_byte_len (negb (Nat.eqb n 0)) data pos;
      '(raws, pos) ← scan_run (Z.to_nat k) data pos (as_u64 first) ov_len overlap;
      '(rest, parents) ← scan_groups n data pos first (add64 parents k);
      Ret (raws ++ rest, parents)
  end.

(** The parents in the order of the calls of [f], and the shape returned. *)
Definition scan_parent_record_v8 (data : list Z) : out (list RawParentV8 * RecordShapeV8) :=
  '(grouped, count, pos) ← read_record_head_v8 data;
  if negb grouped then
    raws ← scan_flat (Z.to_nat count) data pos 0;
    Ret (raws, {| flat := true; groups := 1; num_parents := count |})
  else
    '(raws, parents) ← scan_groups (Z.to_nat count) data pos 0 0;
    Ret (raws, {| flat := false; groups := count; num_parents := parents |}).

(** [for_each_group_header_v8]: the arguments of the calls of [f], group by
    group, the group's number its place in the list. *)
Fixpoint headers_loop (n : nat) (data : list Z) (pos prev_first : Z) : out (list (Z * Z * list Z)) :=
  match n with
  | O => Ret []
  | S n =>
      let header_pos := pos in
      b ← index data pos;
      let ov_len := Z.min b MAX_OVERLAP_BYTES in
      let pos := pos + 1 in
      ov ← slice data pos (pos + ov_len);
      let pos := pos + ov_len in
      '(_, pos) ← read_varint_inline data pos;
      '(z, pos) ← read_varint_inline data pos;
      let first := as_i64 (prev_first + unzigzag z) in
      '(byte_len, pos) ← read_byte_len (negb (Nat.eqb n 0)) data pos;
      rest ← headers_loop n data (add64 pos byte_len) first;
      Ret ((header_pos, as_u64 prev_first, ov) :: rest)
  end.

Definition for_each_group_header_v8 (data : list Z) : out (list (Z * Z * list Z)) :=
  '(grouped, count, pos) ← read_record_head_v8 data;
  if negb grouped then Ret [] else headers_loop (Z.to_nat count) data pos 0.

(** ** Versions 3 to 6 *)

Fixpoint write_sorted_v3 (buf : list Z) (prev : Z) (ps : list ParentEntryV3) : list Z :=
  match ps with
  | [] => buf
  | p :: ps =>
      let buf := write_varint buf (as_u64 (raw_ordinal p - prev)) in
      let buf := write_varint buf (sti p) in
      let buf := write_varint buf (own_len p) in
      let buf := buf ++ [sep_len p] in
      let buf := buf ++ [Z.lor (Z.land (overlap_len p) (as_u8 OVERLAP_MASK))
                           (if is_word_start p then 0x10 else 0)] in
      write_sorted_v3 buf (raw_ordinal p) ps
  end.

Definition encode_sorted_parent_entries_v3 (parents : list ParentEntryV3) : list Z :=
  write_sorted_v3 (write_varint [] (as_u64 #parents)) 0 parents.

Definition encode_parent_entries_v3 (parents : list ParentEntryV3) : list Z :=
  encode_sorted_parent_entries_v3 (merge_sort flat_le parents).

(** [decode_parent_run] without a group, as versions 5 and 6 use it. *)
Fixpoint decode_parent_run (n : nat) (data : list Z) (pos ordinal : Z) : out (list ParentEntryV3) :=
  match n with
  | O => Ret []
  | S n =>
      '(delta, pos) ← read_varint_inline data pos;
      let ordinal := add64 ordinal delta in
      '(sti, pos) ← read_varint_inline data pos;
      '(own_len, pos) ← read_varint_inline data pos;
      sep_len ← index data pos;
      flags ← index data (pos + 1);
      let pos := pos + 2 in
      rest ← decode_parent_run n data pos ordinal;
      Ret ({| raw_ordinal := ordinal; sti := as_u16 sti; own_len := as_u16 own_len; sep_len := sep_len;
              overlap_len := Z.land flags (as_u8 OVERLAP_MASK); overlap := replicate 4 0;
              is_word_start := negb (Z.land flags 0x10 =? 0) |} :: rest)
  end.

Definition decode_parent_entries_v3 (data : list Z) : out (list ParentEntryV3) :=
  '(num, pos) ← read_varint_inline data 0;
  decode_parent_run (Z.to_nat num) data pos 0.

(** [data[cursor..].chunks_exact(8).take(num)]: whole chunks only. *)
Definition chunks_exact (n : nat) (l : list Z) : list (list Z) :=
  List.filter (λ c, Nat.eqb (length c) n) (chunks n l).

Definition decode_parent_entries_v4_packed (data : list Z) : out (list ParentEntryV3) :=
  '(num, cursor) ← match read_varint data 0 with Nothing => Panic | m => m end;
  rest ← slice_from data cursor;
  mapM_out (λ chunk, match decode_output_v3 (from_le_bytes chunk) with
                     | Single p => Ret p
                     | Multi _ => Panic
                     end) (take (Z.to_nat num) (chunks_exact 8 rest)).

Fixpoint legacy_loop (n : nat) (data : list Z) (cursor : Z) : out (list ParentEntryV3) :=
  match n with
  | O => Ret []
  | S n =>
      raw_ordinal ← u32_at data cursor;
      let cursor := cursor + 4 in
      sti ← u16_at data cursor;
      let cursor := cursor + 2 in
      own_len ← u16_at data cursor;
      let cursor := cursor + 2 in
      sep_len ← index data cursor;
      let cursor := cursor + 1 in
      overlap_len ← index data cursor;
      let cursor := cursor + 1 in
      b ← index data cursor;
      let cursor := cursor + 1 in
      rest ← legacy_loop n data cursor;
      Ret ({| raw_ordinal := raw_ordinal; sti := sti; own_len := own_len; sep_len := sep_len;
              overlap_len := overlap_len; overlap := replicate 4 0;
              is_word_start := negb (b =? 0) |} :: rest)
  end.

Definition decode_parent_entries_v3_legacy (data : list Z) : out (list ParentEntryV3) :=
  num ← u32_at data 0;
  legacy_loop (Z.to_nat num) data 4.

(** ** The parents table ([lucivy-fst/src/output_table.rs]) *)

(** [OutputTableBuilder::add]: the table with the record behind its length,
    and the record's offset. *)
Fixpoint encode_varint_loop (fuel : nat) (buf : list Z) (n : Z) : list Z :=
  match fuel with
  | O => buf ++ [as_u8 n]
  | S fuel =>
      if 0x80 <=? n
      then encode_varint_loop fuel (buf ++ [Z.lor (as_u8 n) 0x80]) (Z.shiftr n 7)
      else buf ++ [as_u8 n]
  end.

Definition encode_varint (buf : list Z) (n : Z) : list Z := encode_varint_loop 9 buf n.

Definition table_add (data record : list Z) : list Z * Z :=
  (encode_varint data #record ++ record, #data).

Fixpoint decode_varint_loop (data : list Z) (i n shift : Z) : out (Z * Z) :=
  match data with
  | [] => Panic
  | b :: data =>
      let n := Z.lor n (wrapping_shl64 (Z.land b 0x7F) shift) in
      if b <? 0x80 then Ret (n, i + 1) else decode_varint_loop data (i + 1) n (shift + 7)
  end.

Definition decode_varint (data : list Z) : out (Z * Z) := decode_varint_loop data 0 0 0.

Definition table_get (data : list Z) (offset : Z) : out (list Z) :=
  tail ← slice_from data offset;
  '(len, varint_size) ← decode_varint tail;
  let start := offset + varint_size in
  let end_ := add64 start len in
  slice data start end_.

Definition table_try_get (data : list Z) (offset : Z) : out (list Z) :=
  if #data <=? offset then Nothing
  else
    tail ← slice_from data offset;
    '(len, varint_size) ← decode_varint tail;
    let start := offset + varint_size in
    let end_ := add64 start len in
    if #data <? end_ then Nothing else slice data start end_.

(** [for_each_table_record]: the offsets and records in order.  Every turn
    reads a byte at least, so the table's length bounds the turns. *)
Fixpoint table_records_loop (fuel : nat) (table : list Z) (pos : Z) : out (list (Z * list Z)) :=
  match fuel with
  | O => OutOfFuel
  | S fuel =>
      if pos <? #table then
        '(len, next) ← read_varint_inline table pos;
        let end_ := add64 next len in
        record ← slice table next end_;
        rest ← table_records_loop fuel table end_;
        Ret ((pos, record) :: rest)
      else Ret []
  end.

Definition for_each_table_record (table : list Z) : out (list (Z * list Z)) :=
  table_records_loop (S (length table)) table 0.

End parents.
