(* ===== verification/ParentCodec.v ===== *)
(** * Parent records: reading back one parent

    The varints read in place, the zigzag deltas, the fields of one parent
    and the runs of parents, each read back from the bytes the writer
    appended. *)
From S2P Require Import Prelude Varint Ordering ParentRecord.
Import varint parents.

(** ** Integers *)

Lemma as_u64_id v : fits 64 v → as_u64 v = v.
Proof. intros H. apply Z.mod_small. exact H. Qed.

Lemma as_u8_id v : fits 8 v → as_u8 v = v.
Proof. intros H. apply Z.mod_small. exact H. Qed.

Lemma as_u16_id v : fits 16 v → as_u16 v = v.
Proof. intros H. apply Z.mod_small. exact H. Qed.

Lemma as_u32_id v : fits 32 v → as_u32 v = v.
Proof. intros H. apply Z.mod_small. exact H. Qed.

Lemma fits_64 w v : 0 ≤ w ≤ 64 → fits w v → fits 64 v.
Proof. intros Hw [Hv Hv']. split; [done|]. pose proof (Z.pow_le_mono_r 2 w 64). lia. Qed.

Lemma as_u64_fits v : fits 64 (as_u64 v).
Proof. apply Z.mod_pos_bound. lia. Qed.

Lemma as_i64_congr v : ∃ k, as_i64 v = v + k * 2 ^ 64.
Proof.
  unfold as_i64, as_u64. pose proof (Z.div_mod v (2 ^ 64) ltac:(lia)).
  destruct (_ <? _); [exists (- (v / 2 ^ 64))|exists (- (v / 2 ^ 64) - 1)]; lia.
Qed.

Lemma as_u64_as_i64 v : as_u64 (as_i64 v) = as_u64 v.
Proof. destruct (as_i64_congr v) as [k ->]. unfold as_u64. by rewrite Z.mod_add by lia. Qed.

Lemma as_i64_range v : - 2 ^ 63 ≤ as_i64 v < 2 ^ 63.
Proof.
  unfold as_i64, as_u64. pose proof (Z.mod_pos_bound v (2 ^ 64) ltac:(lia)) as H.
  change (2 ^ 64) with (2 * 2 ^ 63) in *. case_lia; lia.
Qed.

(** An [i64] is determined by its 64 bits. *)
Lemma as_i64_unique v d : - 2 ^ 63 ≤ d < 2 ^ 63 → as_u64 v = as_u64 d → as_i64 v = d.
Proof.
  intros Hd E. unfold as_i64. rewrite E. unfold as_u64.
  change (2 ^ 64) with (2 * 2 ^ 63) in *.
  destruct (Z.leb_spec 0 d).
  - rewrite Z.mod_small by lia. by case_lia.
  - rewrite <- (Z.mod_add d 1), Z.mul_1_l, Z.mod_small by lia. case_lia; lia.
Qed.

Lemma as_i64_id d : - 2 ^ 63 ≤ d < 2 ^ 63 → as_i64 d = d.
Proof. intros. by apply as_i64_unique. Qed.

Lemma as_u64_congr_add a b c : as_u64 a = as_u64 b → as_u64 (a + c) = as_u64 (b + c).
Proof. unfold as_u64. intros H. by rewrite Z.add_mod, H, <- Z.add_mod by lia. Qed.

(** Adding a wrapped difference gives the value back, whatever the sign the
    words are read with. *)
Lemma add64_sub a b : fits 64 b → add64 a (as_u64 (b - a)) = b.
Proof.
  intros Hb. unfold add64, as_u64. rewrite Z.add_mod_idemp_r by lia.
  replace (a + (b - a)) with b by lia. by apply Z.mod_small.
Qed.

Lemma as_i64_add_sub a b : - 2 ^ 63 ≤ b < 2 ^ 63 → as_i64 (a + as_i64 (b - a)) = b.
Proof.
  intros Hb. apply as_i64_unique; [done|]. rewrite Z.add_comm.
  rewrite (as_u64_congr_add _ (b - a)) by apply as_u64_as_i64. f_equal. lia.
Qed.

Lemma zigzag_cases d :
  - 2 ^ 63 ≤ d < 2 ^ 63 → zigzag d = if 0 <=? d then 2 * d else - 2 * d - 1.
Proof.
  intros Hd. unfold zigzag. rewrite Z.shiftl_mul_pow2, Z.shiftr_div_pow2 by lia.
  change (2 ^ 1) with 2. destruct (Z.leb_spec 0 d).
  - rewrite (Z.div_small d) by lia. rewrite Z.lxor_0_r, as_u64_as_i64.
    rewrite as_u64_id; [lia|]. split; [lia|]. change (2 ^ 64) with (2 * 2 ^ 63). lia.
  - assert (d / 2 ^ 63 = -1) as ->.
    { symmetry. apply (Z.div_unique_pos d (2 ^ 63) (-1) (d + 2 ^ 63)); lia. }
    rewrite Z.lxor_m1_r. unfold Z.lnot. destruct (as_i64_congr (d * 2)) as [k ->].
    replace (Z.pred (- (d * 2 + k * 2 ^ 64))) with (- 2 * d - 1 + (- k) * 2 ^ 64) by lia.
    unfold as_u64. rewrite Z.mod_add by lia. apply Z.mod_small.
    change (2 ^ 64) with (2 * 2 ^ 63). lia.
Qed.

Lemma zigzag_fits d : - 2 ^ 63 ≤ d < 2 ^ 63 → fits 64 (zigzag d).
Proof.
  intros Hd. rewrite zigzag_cases by done. unfold fits. change (2 ^ 64) with (2 * 2 ^ 63).
  case_lia; lia.
Qed.

Lemma unzigzag_zigzag d : - 2 ^ 63 ≤ d < 2 ^ 63 → unzigzag (zigzag d) = d.
Proof.
  intros Hd. rewrite zigzag_cases by done. unfold unzigzag.
  rewrite Z.shiftr_div_pow2 by lia. change (2 ^ 1) with 2.
  rewrite (Z.land_ones _ 1 ltac:(lia) : Z.land _ 1 = _ mod 2).
  destruct (Z.leb_spec 0 d).
  - replace (2 * d) with (d * 2) by lia. rewrite Z.div_mul, Z.mod_mul by lia.
    rewrite (as_i64_id d), (as_i64_id 0) by lia. apply Z.lxor_0_r.
  - replace (- 2 * d - 1) with (1 + (- d - 1) * 2) by lia.
    rewrite Z.div_add, Z.mod_add by lia. change (1 / 2) with 0. change (1 mod 2) with 1.
    rewrite Z.add_0_l, (as_i64_id (- d - 1)), (as_i64_id 1) by lia.
    change (- (1)) with (-1). rewrite Z.lxor_m1_r. unfold Z.lnot. lia.
Qed.

(** A predicate that keeps everything. *)
Lemma filter_all {A} (l : list A) : List.filter (λ _, true) l = l.
Proof. induction l as [|a l IH]; [done|]. simpl. by rewrite IH. Qed.

(** ** Varints read in place *)

Lemma At_index {A} (data : list A) pos a rest : At data pos (a :: rest) → index data pos = Ret a.
Proof. intros H. unfold index. by rewrite (At_get _ _ _ _ H). Qed.

(** Over the bytes of a varint the loop makes the steps of [read_varint]. *)
Lemma inline_loop_read (v : Z) :
  fits 64 v →
  ∀ (i fuel : nat) data pos acc rest,
    (i < 10)%nat → v < 2 ^ (7 * (10 - Z.of_nat i)) → #(varint_bytes v) ≤ Z.of_nat fuel →
    At data pos (varint_bytes v ++ rest) →
    read_varint_inline_loop fuel data pos acc (7 * Z.of_nat i) =
      read_varint_loop (shifts_from i) data pos acc.
Proof.
  revert v. apply (varint_ind (λ v, ∀ (i fuel : nat) data pos acc rest,
    (i < 10)%nat → v < 2 ^ (7 * (10 - Z.of_nat i)) → #(varint_bytes v) ≤ Z.of_nat fuel →
    At data pos (varint_bytes v ++ rest) →
    read_varint_inline_loop fuel data pos acc (7 * Z.of_nat i) =
      read_varint_loop (shifts_from i) data pos acc)).
  - intros v Hv i fuel data pos acc rest Hi Hb Hf Hat. rewrite varint_bytes_small in * by lia.
    destruct fuel as [|fuel]; [lens; lia|]. rewrite shifts_from_cons by lia.
    cbn [read_varint_loop read_varint_inline_loop app] in *.
    rewrite (At_index _ _ _ _ Hat), (At_get _ _ _ _ Hat), !bind_ret.
    unfold checked_shl. replace (7 * Z.of_nat i <? 64) with true by lia. rewrite bind_ret.
    rewrite land_80 by (widths; lia). unfold wrapping_shl64.
    rewrite (Z.mod_small (7 * Z.of_nat i)) by lia. change 0x80 with 128. by case_lia.
  - intros v Hv Hge IH i fuel data pos acc rest Hi Hb Hf Hat.
    rewrite varint_bytes_cont in * by done.
    destruct fuel as [|fuel]; [pose proof (len_nonneg (varint_bytes (v / 128))); lens; lia|].
    rewrite shifts_from_cons by lia. cbn [read_varint_loop read_varint_inline_loop app] in *.
    rewrite (At_index _ _ _ _ Hat), (At_get _ _ _ _ Hat), !bind_ret.
    pose proof (Z.mod_pos_bound v 128 ltac:(lia)).
    unfold checked_shl. replace (7 * Z.of_nat i <? 64) with true by lia. rewrite bind_ret.
    rewrite land_80 by (widths; lia). unfold wrapping_shl64.
    rewrite (Z.mod_small (7 * Z.of_nat i)) by lia. change 0x80 with 128. case_lia.
    assert (i < 9)%nat as Hi9.
    { destruct (decide (i = 9%nat)) as [->|]; [|lia]. change (2 ^ (7 * _)) with 128 in Hb. lia. }
    replace (7 * Z.of_nat i + 7) with (7 * Z.of_nat (S i)) by lia.
    apply (IH _ _ _ _ _ rest); [lia| |lens; lia|by apply At_tail in Hat].
    apply Z.div_lt_upper_bound; [lia|].
    replace (128 * 2 ^ (7 * (10 - Z.of_nat (S i)))) with (2 ^ (7 * (10 - Z.of_nat i))); [done|].
    replace (7 * (10 - Z.of_nat i)) with (7 + 7 * (10 - Z.of_nat (S i))) by lia.
    by rewrite Z.pow_add_r by lia.
Qed.

Lemma read_varint_inline_at data pos v rest :
  fits 64 v → At data pos (varint_bytes v ++ rest) →
  read_varint_inline data pos = Ret (v, pos + #(varint_bytes v)).
Proof.
  intros Hv Hat. pose proof (read_varint_at _ _ _ _ Hv Hat) as Hr.
  pose proof (At_len _ _ _ Hat) as Hlen. unfold read_varint_inline.
  destruct (Z.ltb_spec v 128).
  { rewrite varint_bytes_small in * by (unfold fits in Hv; lia).
    rewrite (At_index _ _ _ _ Hat), bind_ret. change 0x80 with 128. by case_lia. }
  change (read_varint data pos) with (read_varint_loop (shifts_from 0) data pos 0) in Hr.
  rewrite varint_bytes_cont in Hat by done.
  rewrite shifts_from_cons in Hr by lia. cbn [read_varint_loop app] in *.
  rewrite (At_get _ _ _ _ Hat), bind_ret in Hr. rewrite (At_index _ _ _ _ Hat), bind_ret.
  pose proof (Z.mod_pos_bound v 128 ltac:(lia)).
  change (checked_shl ?x (7 * Z.of_nat 0)) with (Ret (as_u64 (Z.shiftl x 0))) in Hr.
  rewrite bind_ret, land_80 in Hr by (widths; lia). change 0x80 with 128.
  rewrite Z.shiftl_0_r, Z.lor_0_l in Hr.
  revert Hr. case_lia. intros Hr.
  assert (0 ≤ Z.land (v mod 128 + 128) 127 < 128) by (rewrite land_7f; apply Z.mod_pos_bound; lia).
  rewrite as_u64_id in Hr by (widths; lia).
  change 7 with (7 * Z.of_nat 1) at 1.
  rewrite (inline_loop_read (v / 128)) with (rest := rest); [done| |lia| | |].
  - unfold fits in *. split; [apply Z.div_pos; lia|]. apply Z.div_lt_upper_bound; lia.
  - apply Z.div_lt_upper_bound; [lia|]. unfold fits in *.
    replace (128 * 2 ^ (7 * (10 - Z.of_nat 1))) with (2 ^ 70) by done. lia.
  - rewrite varint_bytes_cont in Hlen by done. lens.
    pose proof (len_nonneg rest). unfold At, len in *. lia.
  - by apply At_tail in Hat.
Qed.

(** The reader of the parents table is the same loop over the rest of the
    slice. *)
Lemma decode_varint_loop_inline rest :
  ∀ fuel data pos i n shift, At data pos rest → (length rest < fuel)%nat →
    decode_varint_loop rest i n shift =
      ('(v, pos') ← read_varint_inline_loop fuel data pos n shift; Ret (v, pos' - pos + i)).
Proof.
  induction rest as [|b rest IH]; intros fuel data pos i n shift Hat Hf;
    (destruct fuel as [|fuel]; [simpl in Hf; lia|]); cbn [decode_varint_loop read_varint_inline_loop].
  - apply At_end in Hat as ->. unfold index. by rewrite get_nothing by lia.
  - rewrite (At_index _ _ _ _ Hat), bind_ret. destruct (b <? 128); [rewrite bind_ret; f_equal; f_equal; lia|].
    rewrite (IH fuel data (pos + 1)); [|by apply At_tail in Hat|simpl in Hf; lia].
    destruct (read_varint_inline_loop _ _ _ _ _) as [[v p]| | |]; [|done..]. rewrite !bind_ret.
    f_equal. f_equal. lia.
Qed.

Lemma decode_varint_at v rest :
  fits 64 v → decode_varint (varint_bytes v ++ rest) = Ret (v, #(varint_bytes v)).
Proof.
  intros Hv. unfold decode_varint.
  rewrite (decode_varint_loop_inline _ (S (length (varint_bytes v ++ rest))) _ 0) by (apply At_start || lia).
  pose proof (inline_loop_read v Hv 0 (S (length (varint_bytes v ++ rest)))
    (varint_bytes v ++ rest) 0 0 rest) as E.
  change (7 * Z.of_nat 0) with 0 in E. rewrite E; [|lia| | |apply At_start]; clear E.
  - change (read_varint_loop (shifts_from 0) ?d 0 0) with (read_varint d 0).
    rewrite (read_varint_at _ _ _ rest Hv) by apply At_start. rewrite bind_ret. f_equal. f_equal. lia.
  - unfold fits in Hv. change (2 ^ (7 * _)) with (2 ^ 70). lia.
  - rewrite length_app. unfold len. lia.
Qed.

Lemma encode_varint_write buf n : encode_varint buf n = write_varint buf n.
Proof. done. Qed.

(** The next varint off the cursor. *)
Tactic Notation "next_inline" uconstr(F) hyp(Hat) :=
  rewrite (read_varint_inline_at _ _ _ _ F Hat), bind_ret; apply At_skip in Hat.

(** ** One parent *)

(** What a version-8 record keeps of a parent: the overlap cut to the four
    bytes of the array, the bytes past it zero. *)
Definition norm (p : ParentEntryV3) : ParentEntryV3 :=
  {| raw_ordinal := raw_ordinal p;
     sti := sti p;
     own_len := own_len p;
     sep_len := sep_len p;
     overlap_len := #(overlap_of p);
     overlap := overlap_of p ++ replicate (4 - length (overlap_of p)) 0;
     is_word_start := is_word_start p |}.

(** The fields at their widths. *)
Definition parent_ok (p : ParentEntryV3) : Prop :=
  fits 64 (raw_ordinal p) ∧ fits 16 (sti p) ∧ fits 16 (own_len p) ∧ fits 8 (sep_len p) ∧
  fits 8 (overlap_len p) ∧ length (overlap p) = 4%nat ∧ bytes_ok (overlap p).

#[export] Instance parent_ok_dec p : Decision (parent_ok p).
Proof. unfold parent_ok, bytes_ok. apply _. Defined.

Lemma len_overlap_of p :
  parent_ok p → #(overlap_of p) = Z.min (overlap_len p) 4 ∧ #(overlap_of p) ≤ 4.
Proof.
  intros (_ & _ & _ & _ & Ho & Hl & _). unfold overlap_of, MAX_OVERLAP_BYTES.
  rewrite len_take. unfold len, fits in *. lia.
Qed.

Lemma overlap_of_norm p : parent_ok p → overlap_of (norm p) = overlap_of p.
Proof.
  intros Hp. destruct (len_overlap_of p Hp) as [_ Ho]. unfold overlap_of at 1, MAX_OVERLAP_BYTES. simpl.
  rewrite Z.min_l by done. by rewrite len_to_nat, take_app_length.
Qed.

(** The bytes of one parent after its ordinal. *)
Definition flags_of (p : ParentEntryV3) (key : list Z) : Z :=
  let explicit := negb (derived_own_len key (sti p) (sep_len p) =? own_len p) in
  let flags := Z.lor (Z.shiftl (Z.min (overlap_len p) 4) 3) (Z.min (sep_len p) 7) in
  let flags := if is_word_start p then Z.lor flags 0x80 else flags in
  if explicit then Z.lor flags 0x40 else flags.

Definition fields_bytes (p : ParentEntryV3) (key : list Z) (with_overlap : bool) : list Z :=
  varint_bytes (sti p) ++ [flags_of p key] ++
  (if derived_own_len key (sti p) (sep_len p) =? own_len p then [] else varint_bytes (own_len p)) ++
  (if 7 <=? sep_len p then varint_bytes (sep_len p) else []) ++
  (if with_overlap then overlap_of p else []).

Lemma write_parent_fields_app buf p key w :
  write_parent_fields buf p key w = buf ++ fields_bytes p key w.
Proof.
  unfold write_parent_fields, fields_bytes, flags_of, SEP_LEN_ESCAPE, MAX_OVERLAP_BYTES, FLAG_WORD_START, FLAG_OWN_LEN.
  rewrite !write_varint_app.
  replace (if sep_len p <? 7 then sep_len p else 7) with (Z.min (sep_len p) 7) by (destruct (Z.ltb_spec (sep_len p) 7); lia).
  destruct (derived_own_len _ _ _ =? own_len p), (7 <=? sep_len p), w; simpl;
    by rewrite <- ?app_assoc, ?app_nil_r.
Qed.

Fixpoint run_bytes (prev : Z) (ps : list ParentEntryV3) (key : list Z) (w : bool) : list Z :=
  match ps with
  | [] => []
  | p :: ps => varint_bytes (as_u64 (raw_ordinal p - prev)) ++ fields_bytes p key w ++ run_bytes (raw_ordinal p) ps key w
  end.

Lemma write_parents_app buf prev ps key w :
  write_parents buf prev ps key w = buf ++ run_bytes prev ps key w.
Proof.
  revert buf prev. induction ps as [|p ps IH]; intros buf prev; simpl; [by rewrite app_nil_r|].
  by rewrite IH, write_parent_fields_app, write_varint_app, <- !app_assoc.
Qed.

(** The bits of the flags byte. *)
Lemma flags_bits (o s : Z) (w e : bool) :
  0 ≤ o ≤ 4 → 0 ≤ s ≤ 7 →
  let f := Z.lor (Z.shiftl o 3) s in
  let f := if w then Z.lor f 0x80 else f in
  let f := if e then Z.lor f 0x40 else f in
  fits 8 f ∧ (Z.land f 0x40 =? 0) = negb e ∧ Z.land f 0x07 = s ∧
  Z.land (Z.shiftr f 3) 0x07 = o ∧ (Z.land f 0x80 =? 0) = negb w.
Proof.
  intros Ho Hs.
  assert (o = 0 ∨ o = 1 ∨ o = 2 ∨ o = 3 ∨ o = 4) as Ho' by lia.
  assert (s = 0 ∨ s = 1 ∨ s = 2 ∨ s = 3 ∨ s = 4 ∨ s = 5 ∨ s = 6 ∨ s = 7) as Hs' by lia.
  clear Ho Hs. destruct_or!; subst; destruct w, e; vm_compute; repeat split; congruence.
Qed.

Lemma flags_of_bits p key :
  parent_ok p →
  let f := flags_of p key in
  (Z.land f 0x40 =? 0) = (derived_own_len key (sti p) (sep_len p) =? own_len p) ∧
  Z.land f 0x07 = Z.min (sep_len p) 7 ∧ Z.land (Z.shiftr f 3) 0x07 = #(overlap_of p) ∧
  (Z.land f 0x80 =? 0) = negb (is_word_start p).
Proof.
  intros Hp f. destruct (len_overlap_of p Hp) as [Hov _]. destruct Hp as (_ & _ & _ & Hs & Ho & _).
  destruct (flags_bits (Z.min (overlap_len p) 4) (Z.min (sep_len p) 7) (is_word_start p)
    (negb (derived_own_len key (sti p) (sep_len p) =? own_len p))) as (_ & H1 & H2 & H3 & H4);
    [unfold fits in *; lia..|].
  rewrite Hov. rewrite negb_involutive in H1. repeat split; assumption.
Qed.

(** The scan of a parent, and what the decoder makes of it. *)
Definition raw_of (p : ParentEntryV3) (key : list Z) : RawParentV8 :=
  {| rp_ordinal := raw_ordinal p;
     rp_sti := sti p;
     rp_flags := flags_of p key;
     rp_own_len := if derived_own_len key (sti p) (sep_len p) =? own_len p then None else Some (own_len p);
     rp_sep_len := sep_len p;
     rp_overlap_len := #(overlap_of p);
     rp_overlap := overlap_of p ++ replicate (4 - length (overlap_of p)) 0 |}.

Lemma resolve_raw_of p key : parent_ok p → resolve (raw_of p key) key = norm p.
Proof.
  intros Hp. destruct (flags_of_bits p key Hp) as (_ & _ & _ & Hw).
  unfold resolve, norm, raw_of, rp_is_word_start, FLAG_WORD_START. simpl. rewrite Hw, negb_involutive.
  f_equal. by destruct (Z.eqb_spec (derived_own_len key (sti p) (sep_len p)) (own_len p)).
Qed.

Lemma fields_bytes_overlap p key : fields_bytes p key true = fields_bytes p key false ++ overlap_of p.
Proof. unfold fields_bytes. by rewrite app_nil_r, <- !app_assoc. Qed.

(** The separator length: the three bits, or the varint behind the escape. *)
Lemma read_sep_at data pos v rest :
  fits 8 v → At data pos ((if 7 <=? v then varint_bytes v else []) ++ rest) →
  (if Z.min v 7 =? SEP_LEN_ESCAPE
   then '(v, pos) ← read_varint_inline data pos; Ret (as_u8 v, pos)
   else Ret (Z.min v 7, pos)) = Ret (v, pos + #(if 7 <=? v then varint_bytes v else [])).
Proof.
  intros Hv Hat. unfold SEP_LEN_ESCAPE. destruct (Z.leb_spec 7 v).
  - replace (Z.min v 7 =? 7) with true by lia. next_inline (fits_64 8 _ ltac:(lia) Hv) Hat.
    by rewrite (as_u8_id _ Hv).
  - replace (Z.min v 7 =? 7) with false by lia. by rewrite Z.min_l, Z.add_0_r by lia.
Qed.

Lemma read_raw_parent_fields_at data pos p key rest :
  parent_ok p → At data pos (fields_bytes p key false ++ rest) →
  let r := raw_of p key in
  read_raw_parent_fields data pos =
    Ret (sti p, rp_own_len r, sep_len p, rp_flags r, pos + #(fields_bytes p key false)).
Proof.
  intros Hp Hat. destruct (flags_of_bits p key Hp) as (He & Hs & _).
  destruct Hp as (_ & Hsti & Hown & Hsep & _).
  unfold read_raw_parent_fields, fields_bytes, raw_of in *. cbn [rp_own_len rp_flags].
  rewrite app_nil_r in *. rewrite <- !app_assoc in Hat.
  next_inline (fits_64 16 _ ltac:(lia) Hsti) Hat.
  simpl app in Hat. rewrite (At_index _ _ _ _ Hat), bind_ret. apply At_tail in Hat.
  unfold FLAG_OWN_LEN. rewrite He, Hs, (as_u16_id _ Hsti).
  destruct (derived_own_len _ _ _ =? own_len p); simpl negb; cbv iota.
  - rewrite bind_ret. rewrite (read_sep_at _ _ _ _ Hsep Hat), bind_ret. f_equal. f_equal. lens. lia.
  - next_inline (fits_64 16 _ ltac:(lia) Hown) Hat. rewrite bind_ret, (as_u16_id _ Hown).
    rewrite (read_sep_at _ _ _ _ Hsep Hat), bind_ret. f_equal. f_equal. lens. lia.
Qed.

(** With the key, the fields are the raw ones with [own_len] derived. *)
Lemma read_parent_fields_raw data pos key :
  read_parent_fields data pos key =
    ('(sti, own_len, sep_len, flags, pos) ← read_raw_parent_fields data pos;
     Ret (sti, match own_len with Some v => v | None => derived_own_len key sti sep_len end,
          sep_len, flags, pos)).
Proof.
  unfold read_parent_fields, read_raw_parent_fields.
  destruct (read_varint_inline data pos) as [[v p1]| | |]; [|done..]. rewrite !bind_ret.
  destruct (index data p1) as [f| | |]; [|done..]. rewrite !bind_ret.
  destruct (Z.land f FLAG_OWN_LEN =? 0); simpl negb; cbv iota.
  - rewrite !bind_ret. destruct (Z.land f 7 =? SEP_LEN_ESCAPE); [|done].
    by destruct (read_varint_inline data _) as [[w p2]| | |].
  - destruct (read_varint_inline data (p1 + 1)) as [[w p2]| | |]; [|done..]. rewrite !bind_ret.
    destruct (Z.land f 7 =? SEP_LEN_ESCAPE); [|done].
    by destruct (read_varint_inline data p2) as [[x p3]| | |].
Qed.

(** ** Runs of parents *)

Lemma copy_overlap_at data pos ov rest :
  #ov ≤ 4 → At data pos (ov ++ rest) →
  copy_overlap data pos #ov = Ret (ov ++ replicate (4 - length ov) 0).
Proof.
  intros Hov Hat. unfold copy_overlap, MAX_OVERLAP_BYTES. case_lia.
  rewrite (At_slice _ _ _ _ _ Hat) by done. rewrite bind_ret. do 3 f_equal. unfold len. lia.
Qed.

Lemma scan_flat_at ps key :
  Forall parent_ok ps → ∀ data pos prev rest, At data pos (run_bytes prev ps key true ++ rest) →
  scan_flat (length ps) data pos prev = Ret (map (λ p, raw_of p key) ps).
Proof.
  induction 1 as [|p ps Hp _ IH]; intros data pos prev rest Hat; [done|].
  cbn [run_bytes length scan_flat map] in *. rewrite <- !app_assoc in Hat.
  next_inline (as_u64_fits _) Hat. rewrite add64_sub by apply Hp.
  rewrite fields_bytes_overlap, <- app_assoc in Hat.
  rewrite (read_raw_parent_fields_at _ _ _ _ _ Hp Hat), bind_ret. apply At_skip in Hat.
  destruct (flags_of_bits p key Hp) as (_ & _ & Ho & _). cbn [rp_flags raw_of].
  rewrite Ho. destruct (len_overlap_of p Hp) as [_ Hov].
  rewrite (copy_overlap_at _ _ _ _ Hov Hat), bind_ret. apply At_skip in Hat.
  rewrite (IH _ _ _ _ Hat), bind_ret. f_equal. f_equal. unfold raw_of. f_equal.
  apply Z.mod_small. pose proof (len_nonneg (overlap_of p)). widths. lia.
Qed.

Lemma scan_run_at ps key ov :
  Forall parent_ok ps → Forall (λ p, overlap_of p = ov) ps →
  ∀ data pos prev rest, At data pos (run_bytes prev ps key false ++ rest) →
  scan_run (length ps) data pos prev #ov (ov ++ replicate (4 - length ov) 0) =
    Ret (map (λ p, raw_of p key) ps, pos + #(run_bytes prev ps key false)).
Proof.
  induction 1 as [|p ps Hp _ IH]; intros Hov data pos prev rest Hat; [by rewrite Z.add_0_r|].
  apply Forall_cons in Hov as [<- Hov].
  cbn [run_bytes length scan_run map] in *. rewrite <- !app_assoc in Hat.
  next_inline (as_u64_fits _) Hat. rewrite add64_sub by apply Hp.
  rewrite (read_raw_parent_fields_at _ _ _ _ _ Hp Hat), bind_ret. apply At_skip in Hat.
  rewrite (IH Hov _ _ _ _ Hat), bind_ret. f_equal. f_equal; [|lens; lia]. f_equal. unfold raw_of. f_equal.
  apply Z.mod_small. destruct (len_overlap_of p Hp). pose proof (len_nonneg (overlap_of p)). widths. lia.
Qed.

(** The decoders read what the scan reads, over any bytes. *)
Lemma flat_run_scan n data pos ordinal key keep :
  flat_run n data pos ordinal key keep =
    (raws ← scan_flat n data pos ordinal;
     Ret (map (λ r, resolve r key)
            (List.filter (λ r, keep (take (Z.to_nat (rp_overlap_len r)) (rp_overlap r))) raws))).
Proof.
  revert pos ordinal. induction n as [|n IH]; intros pos ordinal; [done|]. cbn [flat_run scan_flat].
  destruct (read_varint_inline data pos) as [[delta p1]| | |]; [|done..]. rewrite !bind_ret.
  rewrite read_parent_fields_raw.
  destruct (read_raw_parent_fields data p1) as [[[[[s o] e] f] p2]| | |]; [|done..]. rewrite !bind_ret.
  destruct (copy_overlap data p2 _) as [ov| | |]; [|done..]. rewrite !bind_ret, IH.
  destruct (scan_flat n data _ _) as [raws| | |]; [|done..]. rewrite !bind_ret. simpl.
  assert (as_u8 (Z.land (Z.shiftr f 3) 7) = Z.land (Z.shiftr f 3) 7) as ->.
  { unfold as_u8. apply Z.mod_small. change 7 with (Z.ones 3). rewrite Z.land_ones by lia.
    pose proof (Z.mod_pos_bound (Z.shiftr f 3) (2 ^ 3) ltac:(lia)). lia. }
  by destruct (keep _).
Qed.

Lemma group_run_scan n data pos ordinal key ov_len ov :
  group_run n data pos ordinal key ov_len ov =
    ('(raws, pos) ← scan_run n data pos ordinal ov_len ov; Ret (map (λ r, resolve r key) raws, pos)).
Proof.
  revert pos ordinal. induction n as [|n IH]; intros pos ordinal; [done|]. cbn [group_run scan_run].
  destruct (read_varint_inline data pos) as [[delta p1]| | |]; [|done..]. rewrite !bind_ret.
  rewrite read_parent_fields_raw.
  destruct (read_raw_parent_fields data p1) as [[[[[s o] e] f] p2]| | |]; [|done..]. rewrite !bind_ret, IH.
  by destruct (scan_run n data _ _ _ _) as [[raws p3]| | |].
Qed.

(** ** Parent records: groups and layouts

    The bytes of a version-8 record, flat or grouped, described from the
    parents in record order ([layout]); that the writer produces such bytes;
    and what each reader makes of them. *)
Import varint parents.

(** ** The order of byte strings *)

Lemma lex_cmp_refl a : lex_cmp a a = Eq.
Proof. induction a as [|x a IH]; [done|]. simpl. by rewrite Z.compare_refl. Qed.

Lemma lex_cmp_eq a b : lex_cmp a b = Eq ↔ a = b.
Proof.
  split; [|intros ->; apply lex_cmp_refl].
  revert b. induction a as [|x a IH]; intros [|y b]; simpl; try done.
  destruct (Z.compare_spec x y) as [->|?|?]; try done. intros H. f_equal. by apply IH.
Qed.

Lemma lex_cmp_opp a b : lex_cmp b a = CompOpp (lex_cmp a b).
Proof.
  revert b. induction a as [|x a IH]; intros [|y b]; simpl; try done.
  rewrite (Z.compare_antisym x y). by destruct (x ?= y); simpl.
Qed.

Lemma lex_leb_cmp a b : lex_leb a b = match lex_cmp a b with Gt => false | _ => true end.
Proof.
  revert b. induction a as [|x a IH]; intros [|y b]; simpl; try done.
  destruct (Z.compare_spec x y) as [->|?|?]; rewrite <- ?IH.
  - by rewrite Z.ltb_irrefl, Z.eqb_refl.
  - by replace (x <? y) with true by lia.
  - replace (x <? y) with false by lia. by replace (x =? y) with false by lia.
Qed.

Lemma lex_cmp_lt_leb a b : lex_cmp a b = Lt ↔ lex_leb a b = true ∧ a ≠ b.
Proof.
  rewrite lex_leb_cmp, <- lex_cmp_eq. by destruct (lex_cmp a b); intuition congruence.
Qed.

#[export] Instance lex_lt_trans : Transitive (λ a b, lex_cmp a b = Lt).
Proof.
  intros a b c. rewrite !lex_cmp_lt_leb. intros [Hab Hne] [Hbc Hne'].
  split; [by eapply lex_leb_trans|]. intros ->. apply Hne. by apply lex_leb_antisym.
Qed.

#[export] Instance flat_le_trans : Transitive flat_le.
Proof. intros a b c. apply lex_leb_trans. Qed.
#[export] Instance flat_le_total : Total flat_le.
Proof. intros a b. apply lex_leb_total. Qed.

#[export] Instance grouped_le_trans : Transitive grouped_le.
Proof.
  intros a b c. unfold grouped_le.
  destruct (lex_cmp (overlap_of a) (overlap_of b)) eqn:E1; [|destruct (lex_cmp (overlap_of b) (overlap_of c)) eqn:E2|done].
  - apply lex_cmp_eq in E1 as ->. destruct (lex_cmp _ _); [apply flat_le_trans|done..].
  - apply lex_cmp_eq in E2 as <-. by rewrite E1.
  - by rewrite (lex_lt_trans _ _ _ E1 E2).
  - done.
Qed.
#[export] Instance grouped_le_total : Total grouped_le.
Proof.
  intros a b. unfold grouped_le. rewrite (lex_cmp_opp (overlap_of a)).
  destruct (lex_cmp (overlap_of a) (overlap_of b)); simpl; auto. apply flat_le_total.
Qed.

(** ** Groups *)

(** Neighbours with the same key put together, for any key of bytes. *)
Section GroupsOn.
Context {A : Type} (f : A → list Z).

Definition head_key (g : list A) : list Z := match g with [] => [] | a :: _ => f a end.

Fixpoint groups_on (l : list A) : list (list A) :=
  match l with
  | [] => []
  | a :: l =>
      match groups_on l with
      | g :: gs => if decide (f a = head_key g) then (a :: g) :: gs else [a] :: g :: gs
      | [] => [[a]]
      end
  end.

Definition uniform (g : list A) : Prop := g ≠ [] ∧ Forall (λ a, f a = head_key g) g.

Lemma concat_groups_on l : concat (groups_on l) = l.
Proof using.
  induction l as [|p l IH]; [done|]. simpl. destruct (groups_on l) as [|g gs]; simpl in *; [by rewrite <- IH|].
  destruct (decide _); simpl; by rewrite IH.
Qed.

Lemma uniform_singleton a : uniform [a].
Proof using. split; [done|]. by apply Forall_singleton. Qed.

Lemma groups_on_ok l :
  StronglySorted (λ a b, lex_cmp (f a) (f b) ≠ Gt) l →
  Forall uniform (groups_on l) ∧
  StronglySorted (λ g g', lex_cmp (head_key g) (head_key g') = Lt) (groups_on l).
Proof using.
  intros Hs. induction Hs as [|p l Hs [Hgs Hlt] Hp]; [by split; constructor|].
  pose proof (concat_groups_on l) as Hc. simpl. destruct (groups_on l) as [|g gs].
  { split; [by apply Forall_singleton, uniform_singleton|]. apply StronglySorted_cons. by split; constructor. }
  apply Forall_cons in Hgs as [Hg Hgs]. destruct g as [|q g]; [by destruct Hg|].
  assert (lex_cmp (f p) (f q) ≠ Gt) as Hpq.
  { rewrite Forall_forall in Hp. apply Hp. rewrite <- Hc. simpl. by left. }
  simpl head_key. apply StronglySorted_cons in Hlt as [H1 H2]. destruct (decide _) as [E|E].
  - split.
    + constructor; [|done]. destruct Hg as (_ & Hv). split; [done|].
      constructor; [done|]. eapply Forall_impl; [exact Hv|]. simpl. intros x ->. by rewrite E.
    + apply StronglySorted_cons. split; [|done]. eapply Forall_impl; [exact H1|]. simpl. intros g' Hg'. by rewrite E.
  - assert (lex_cmp (f p) (f q) = Lt) as Hlt0.
    { destruct (lex_cmp (f p) _) eqn:E'; [|done..]. by apply lex_cmp_eq in E'. }
    split; [constructor; [apply uniform_singleton|by constructor]|].
    apply StronglySorted_cons. split; [|by apply StronglySorted_cons]. constructor; [done|].
    eapply Forall_impl; [exact H1|]. simpl. intros g'. by apply lex_lt_trans.
Qed.
End GroupsOn.

Lemma StronglySorted_impl {A} (R R' : A → A → Prop) l :
  (∀ x y, R x y → R' x y) → StronglySorted R l → StronglySorted R' l.
Proof.
  intros H Hs. induction Hs as [|x l Hs IH Hx]; [constructor|]. apply StronglySorted_cons. split; [|done].
  eapply Forall_impl; [exact Hx|]. auto.
Qed.

(** The overlap and the first ordinal of a group. *)
Definition ov_of (g : list ParentEntryV3) : list Z :=
  match g with [] => [] | p :: _ => overlap_of p end.
Definition first_of (g : list ParentEntryV3) : Z :=
  match g with [] => 0 | p :: _ => raw_ordinal p end.

Definition group_ok (g : list ParentEntryV3) : Prop :=
  g ≠ [] ∧ Forall parent_ok g ∧ Forall (λ p, overlap_of p = ov_of g) g.

Lemma group_ok_singleton p : parent_ok p → group_ok [p].
Proof. intros Hp. split; [done|]. split; by apply Forall_singleton. Qed.

(** The groups of a record, their overlaps increasing. *)
Definition groups_ok (gs : list (list ParentEntryV3)) : Prop :=
  Forall group_ok gs ∧ StronglySorted (λ g g', lex_cmp (ov_of g) (ov_of g') = Lt) gs.

(** Neighbours with the same overlap put together. *)
Definition groups_of : list ParentEntryV3 → list (list ParentEntryV3) := groups_on overlap_of.

Lemma ov_of_head g : ov_of g = head_key overlap_of g.
Proof. by destruct g. Qed.

Lemma concat_groups_of l : concat (groups_of l) = l.
Proof. apply concat_groups_on. Qed.

Lemma groups_of_ok l :
  Forall parent_ok l → StronglySorted grouped_le l → groups_ok (groups_of l).
Proof.
  intros Hok Hs. destruct (groups_on_ok overlap_of l) as [Hu Hlt].
  { eapply StronglySorted_impl; [|exact Hs]. intros p q. unfold grouped_le. by destruct (lex_cmp _ _). }
  split.
  - apply Forall_forall. intros g Hg. rewrite Forall_forall in Hu. destruct (Hu g Hg) as [Hne Hg'].
    split; [done|]. split; [|by rewrite ov_of_head].
    rewrite <- (concat_groups_of l) in Hok. rewrite Forall_concat, Forall_forall in Hok. by apply Hok.
  - eapply StronglySorted_impl; [|exact Hlt]. intros g g'. by rewrite !ov_of_head.
Qed.

(** The bounds of the groups in the sorted vector. *)
Fixpoint bounds (i : Z) (gs : list (list ParentEntryV3)) : list (Z * Z) :=
  match gs with
  | [] => []
  | g :: gs => (i, i + #g) :: bounds (i + #g) gs
  end.

Lemma len_bounds i gs : #(bounds i gs) = #gs.
Proof. revert i. induction gs as [|g gs IH]; intros i; [done|]. simpl. by rewrite !len_cons, IH. Qed.

Lemma group_end_spec ps i p g rest :
  index ps i = Ret p → Forall (λ q, overlap_of q = overlap_of p) g →
  match rest with [] => True | q :: _ => overlap_of q ≠ overlap_of p end →
  ∀ fuel j, At ps j (g ++ rest) → (length g < fuel)%nat → group_end fuel ps i j = Ret (j + #g).
Proof.
  intros Hi Hg Hrest. induction Hg as [|q g Hq Hg IH]; intros fuel j Hat Hf;
    (destruct fuel as [|fuel]; [simpl in Hf; lia|]); cbn [group_end].
  - simpl in Hat. pose proof (At_len _ _ _ Hat). rewrite Z.add_0_r. destruct rest as [|q rest].
    + by replace (j <? #ps) with false by (lens; lia).
    + replace (j <? #ps) with true by (pose proof (len_nonneg rest); lens; lia).
      rewrite (At_index _ _ _ _ Hat), bind_ret, Hi, bind_ret. unfold bytes_eqb.
      by rewrite bool_decide_false.
  - pose proof (At_len _ _ _ Hat). simpl in Hat.
    replace (j <? #ps) with true by (pose proof (len_nonneg (g ++ rest)); lens; lia).
    rewrite (At_index _ _ _ _ Hat), bind_ret, Hi, bind_ret. unfold bytes_eqb.
    rewrite bool_decide_true by done. rewrite IH; [f_equal; lens; lia|by apply At_tail in Hat|simpl in Hf; lia].
Qed.

Lemma groups_loop_spec ps gs :
  groups_ok gs → ∀ fuel i acc, At ps i (concat gs) → (length gs < fuel)%nat →
  groups_loop fuel ps i acc = Ret (acc ++ bounds i gs).
Proof.
  intros [Hok Hlt]. revert Hlt. induction Hok as [|g gs (Hne & _ & Hov) Hgs IH]; intros Hlt fuel i acc Hat Hf;
    (destruct fuel as [|fuel]; [simpl in Hf; lia|]); cbn [groups_loop].
  - apply At_end in Hat as ->. by rewrite Z.ltb_irrefl, app_nil_r.
  - destruct g as [|p g]; [done|]. pose proof (At_len _ _ _ Hat). simpl concat in *. simpl app in Hat.
    replace (i <? #ps) with true by (pose proof (len_nonneg (g ++ concat gs)); lens; lia).
    apply StronglySorted_cons in Hlt as [Hlt0 Hlt]. apply Forall_cons in Hov as [_ Hov].
    rewrite (group_end_spec ps i p g (concat gs)).
    + rewrite bind_ret, IH; [|done| |simpl in Hf; lia].
      * simpl bounds. rewrite len_cons. rewrite <- app_assoc. simpl.
        by replace (i + 1 + #g) with (i + (1 + #g)) by lia.
      * change (p :: g ++ concat gs) with ((p :: g) ++ concat gs) in Hat. apply At_skip in Hat.
        rewrite len_cons in Hat. by replace (i + 1 + #g) with (i + (1 + #g)) by lia.
    + by eapply At_index.
    + done.
    + destruct gs as [|[|q g'] gs]; simpl; [done| |].
      * by apply Forall_cons in Hgs as [[? _] _].
      * apply Forall_cons in Hlt0 as [E _]. simpl in E. intros Heq. by rewrite Heq, lex_cmp_refl in E.
    + by apply At_tail in Hat.
    + destruct Hat as [_ Hd]. assert (Hl := f_equal length Hd). rewrite length_drop in Hl.
      cbn [length] in Hl. rewrite length_app in Hl. lia.
Qed.

(** ** The bytes of a grouped record *)

Definition head_bytes (prev_first : Z) (g : list ParentEntryV3) : list Z :=
  #(ov_of g) :: ov_of g ++ varint_bytes #g ++ varint_bytes (zigzag (as_i64 (as_i64 (first_of g) - prev_first))).

Definition len_bytes (more : bool) (body : list Z) : list Z :=
  if more then varint_bytes #body else [].

Fixpoint groups_bytes (prev_first : Z) (gs : list (list ParentEntryV3)) (key : list Z) : list Z :=
  match gs with
  | [] => []
  | g :: gs =>
      let body := run_bytes (first_of g) g key false in
      head_bytes prev_first g ++ len_bytes (negb (Nat.eqb (length gs) 0)) body ++ body ++
        groups_bytes (as_i64 (first_of g)) gs key
  end.

Definition group_count_bytes (n : Z) : list Z :=
  if n <=? 127 then [128 + n] else [128] ++ varint_bytes n.

(** The bytes of a record from its parents in record order. *)
Inductive layout (key : list Z) : list ParentEntryV3 → list Z → Prop :=
| layout_flat ps :
    1 ≤ #ps ≤ 32 → Forall parent_ok ps →
    layout key ps (#ps :: run_bytes 0 ps key true)
| layout_grouped gs :
    gs ≠ [] → groups_ok gs →
    layout key (concat gs) (group_count_bytes #gs ++ groups_bytes 0 gs key).

Lemma ov_of_len g : group_ok g → 0 ≤ #(ov_of g) ≤ 4.
Proof.
  intros (Hne & Hp & _). destruct g as [|p g]; [done|]. apply Forall_cons in Hp as [Hp _].
  pose proof (len_nonneg (overlap_of p)). destruct (len_overlap_of p Hp). simpl. lia.
Qed.

Lemma first_of_fits g : group_ok g → fits 64 (first_of g).
Proof. intros (Hne & Hp & _). destruct g as [|p g]; [done|]. apply Forall_cons in Hp as [Hp _]. apply Hp. Qed.

Lemma write_groups_spec ps key gs :
  Forall group_ok gs → #ps < 2 ^ 64 → ∀ buf i prev, At ps i (concat gs) →
  Forall (λ g, #(run_bytes (first_of g) g key false) < 2 ^ 64) gs →
  write_groups buf ps key prev (bounds i gs) = Ret (buf ++ groups_bytes prev gs key).
Proof.
  intros Hok Hps. induction Hok as [|g gs Hg _ IH]; intros buf i prev Hat Hb; [by simpl; rewrite app_nil_r|].
  apply Forall_cons in Hb as [Hb0 Hb]. pose proof (ov_of_len g Hg) as Hov.
  pose proof (first_of_fits g Hg) as Hfirst. destruct Hg as (Hne & _ & _).
  cbn [bounds write_groups groups_bytes concat] in *. destruct g as [|p g]; [done|].
  rewrite (At_index _ _ p (g ++ concat gs)), bind_ret by done.
  rewrite (At_slice _ _ _ _ _ Hat), bind_ret by done.
  pose proof (At_len _ _ _ Hat) as Hl. assert (0 ≤ i) by apply Hat.
  apply At_skip in Hat. rewrite write_parents_app, app_nil_l.
  cbn [ov_of first_of] in *. rewrite as_u64_as_i64, (as_u64_id (raw_ordinal p)) by done.
  set (body := run_bytes _ _ _ _) in *. pose proof (len_nonneg body).
  replace (bool_decide (bounds (i + #(p :: g)) gs = [])) with (Nat.eqb (length gs) 0) by (by destruct gs).
  rewrite (as_u8_id #(overlap_of p)) by (widths; lia).
  rewrite (as_u64_id #body) by (unfold fits; lia).
  rewrite (as_u64_id (_ - i)); cycle 1.
  { rewrite len_app in Hl. pose proof (len_nonneg (p :: g)). pose proof (len_nonneg (concat gs)). unfold fits.
    lia. }
  replace (i + #(p :: g) - i) with #(p :: g) by lia.
  rewrite IH by done. unfold head_bytes, len_bytes. cbn [ov_of first_of]. rewrite !write_varint_app.
  destruct (Nat.eqb (length gs) 0); simpl negb; cbv iota; rewrite <- !app_assoc; simpl; by rewrite <- ?app_assoc.
Qed.

Lemma run_bytes_lower ps key w : ∀ prev, #ps ≤ #(run_bytes prev ps key w).
Proof.
  induction ps as [|p ps IH]; intros prev; [done|].
  specialize (IH (raw_ordinal p)). simpl. pose proof (len_varint_pos _ (as_u64_fits (raw_ordinal p - prev))).
  pose proof (len_nonneg (fields_bytes p key w)). lens. lia.
Qed.

(** Sizes: a parent takes 45 bytes at most, the head of a group 35. *)
Lemma len_varint_max v : fits 64 v → #(varint_bytes v) ≤ 10.
Proof. intros Hv. rewrite varint_len_bytes by done. by apply varint_len_le. Qed.

Lemma fields_bytes_upper p key w : parent_ok p → #(fields_bytes p key w) ≤ 35.
Proof.
  intros Hp. destruct (len_overlap_of p Hp) as [_ Ho]. destruct Hp as (_ & Hs & Hw & He & _).
  pose proof (len_varint_max _ (fits_64 16 _ ltac:(lia) Hs)). pose proof (len_varint_max _ (fits_64 16 _ ltac:(lia) Hw)).
  pose proof (len_varint_max _ (fits_64 8 _ ltac:(lia) He)). unfold fields_bytes.
  destruct (_ =? _), (7 <=? _), w; lens; lia.
Qed.

Lemma run_bytes_upper ps key w : ∀ prev, Forall parent_ok ps → #(run_bytes prev ps key w) ≤ 45 * #ps.
Proof.
  induction ps as [|p ps IH]; intros prev Hok; [done|]. apply Forall_cons in Hok as [Hp Hok].
  specialize (IH (raw_ordinal p) Hok). simpl. pose proof (len_varint_max _ (as_u64_fits (raw_ordinal p - prev))).
  pose proof (fields_bytes_upper p key w Hp). lens. lia.
Qed.

Lemma groups_bytes_upper gs key :
  ∀ prev, Forall group_ok gs → #(concat gs) < 2 ^ 57 → #(groups_bytes prev gs key) ≤ 80 * #(concat gs).
Proof.
  induction gs as [|g gs IH]; intros prev Hok Hc; [done|]. apply Forall_cons in Hok as [Hg Hok].
  simpl concat in *. rewrite len_app in *. pose proof (len_nonneg (concat gs)). pose proof (len_nonneg g).
  specialize (IH (as_i64 (first_of g)) Hok ltac:(lia)). pose proof (ov_of_len g Hg) as Hov.
  destruct Hg as (Hne & Hp & _). assert (1 ≤ #g) by (destruct g; [done|]; lens; pose proof (len_nonneg g); lia).
  pose proof (run_bytes_upper g key false (first_of g) Hp) as Hr. cbn [groups_bytes].
  set (body := run_bytes _ _ _ _) in *. pose proof (len_nonneg body).
  assert (#(len_bytes (negb (length gs =? 0)%nat) body) ≤ 10).
  { unfold len_bytes. destruct (negb _); [apply len_varint_max; unfold fits; lia|done]. }
  assert (#(head_bytes prev g) ≤ 25).
  { unfold head_bytes. pose proof (len_varint_max #g ltac:(unfold fits; lia)).
    pose proof (len_varint_max _ (zigzag_fits _ (as_i64_range (as_i64 (first_of g) - prev)))). lens. lia. }
  lens. lia.
Qed.

Lemma groups_count_le gs : Forall group_ok gs → #gs ≤ #(concat gs).
Proof.
  induction 1 as [|g gs (Hne & _) _ IH]; [done|]. simpl. destruct g; [done|]. pose proof (len_nonneg g). lens. lia.
Qed.

Lemma layout_size key ps bytes : layout key ps bytes → #ps < 2 ^ 57 → 1 ≤ #ps ∧ #bytes ≤ 91 * #ps.
Proof.
  intros [ps' Hn Hok|gs Hne [Hok _]] Hlt.
  - pose proof (run_bytes_upper ps' key true 0 Hok). lens. lia.
  - pose proof (groups_bytes_upper gs key 0 Hok Hlt). rewrite len_app. pose proof (groups_count_le gs Hok).
    assert (1 ≤ #gs) by (destruct gs; [done|]; lens; pose proof (len_nonneg gs); lia).
    assert (#(group_count_bytes #gs) ≤ 11); [|lia]. unfold group_count_bytes.
    case_lia; [done|]. lens. pose proof (len_varint_max #gs ltac:(unfold fits; lia)). lia.
Qed.

Lemma layout_upper key ps bytes : layout key ps bytes → #ps < 2 ^ 57 → #bytes < 2 ^ 64.
Proof. intros Hlay Hlt. pose proof (layout_size _ _ _ Hlay Hlt). lia. Qed.

Lemma lor_80_low n : 0 ≤ n < 128 → Z.lor 0x80 n = 128 + n.
Proof.
  intros Hn. rewrite Z.lor_comm. change 0x80 with (Z.shiftl 1 7). rewrite lor_shiftl_add; [|unfold fits; lia..].
  change (Z.shiftl 1 7) with 128. lia.
Qed.

(** ** The writer *)

Lemma encode_layout parents key :
  parents ≠ [] → Forall parent_ok parents →
  #parents < 2 ^ 57 →
  ∃ ds bytes, encode_parent_record_v8 parents key = Ret bytes ∧ layout key ds bytes ∧ ds ≡ₚ parents ∧
    if #parents <=? 32 then ds = merge_sort flat_le parents else ds = merge_sort grouped_le parents.
Proof.
  intros Hne Hok Hn. unfold encode_parent_record_v8, FLAT_RECORD_MAX_PARENTS.
  destruct (Z.leb_spec #parents 32) as [Hle|Hgt].
  - pose proof (merge_sort_Permutation flat_le parents) as Hp. exists (merge_sort flat_le parents). eexists. split; [done|].
    rewrite write_parents_app. assert (#(merge_sort flat_le parents) = #parents) as Hl by (unfold len; by rewrite Hp).
    assert (1 ≤ #parents) by (destruct parents; [done|]; lens; pose proof (len_nonneg parents); lia).
    rewrite as_u8_id by (widths; lia). split; [|done].
    apply layout_flat; [lia|by rewrite Hp].
  - pose proof (merge_sort_Permutation grouped_le parents) as Hp. set (sorted := merge_sort grouped_le parents) in *.
    assert (#sorted = #parents) as Hl by (unfold len; by rewrite Hp).
    pose proof (concat_groups_of sorted) as Hc.
    assert (groups_ok (groups_of sorted)) as Hgs.
    { apply groups_of_ok; [by rewrite Hp|]. apply StronglySorted_merge_sort; apply _. }
    assert (#(groups_of sorted) ≤ #sorted) as Hgl by (rewrite <- Hc at 2; apply groups_count_le, Hgs).
    rewrite (groups_loop_spec sorted (groups_of sorted)); [|done|rewrite Hc; apply At_start|unfold len in *; lia].
    rewrite app_nil_l, bind_ret, len_bounds, (write_groups_spec sorted key (groups_of sorted));
      [|apply Hgs|lia|rewrite Hc; apply At_start|].
    2: { destruct Hgs as [Hgs _]. rewrite <- Hc in Hl. clear -Hgs Hl Hn.
         assert (#(concat (groups_of sorted)) < 2 ^ 57) as Hn' by lia. clear Hl Hn. revert Hn'.
         induction Hgs as [|g gs (_ & Hp & _) _ IH]; [constructor|]. simpl. rewrite len_app. intros Hn.
         pose proof (len_nonneg g). pose proof (len_nonneg (concat gs)). pose proof (run_bytes_upper g key false (first_of g) Hp).
         constructor; [lia|]. apply IH. lia. }
    exists sorted. eexists. split; [done|]. split; [|done].
    rewrite <- Hc at 1. set (gs := groups_of sorted) in *.
    assert (gs ≠ []) as Hgne.
    { intros E. rewrite E in Hc. simpl in Hc. rewrite <- Hc in Hl. destruct parents; [done|].
      rewrite len_cons in Hl. pose proof (len_nonneg parents). unfold len in *. simpl in *. lia. }
    assert (1 ≤ #gs) by (destruct gs; [done|]; lens; pose proof (len_nonneg gs); lia).
    replace (if #gs <=? 127 then _ else _) with (group_count_bytes #gs); [by apply layout_grouped|].
    unfold group_count_bytes. destruct (Z.leb_spec #gs 127).
    + rewrite as_u8_id by (widths; lia). rewrite lor_80_low by lia. done.
    + rewrite write_varint_app, as_u64_id by (unfold fits; lia). done.
Qed.

(** ** Reading groups *)

(** Whatever a reader does with a group, it reads its head first: each of the
    reads, and where the cursor stands behind them. *)
Record group_reads (data : list Z) (pos prev : Z) (g : list ParentEntryV3) (more : bool)
    (rest : list Z) (n_at z_at len_at byte_len body_at : Z) : Prop := {
  gr_ov_len : index data pos = Ret #(ov_of g);
  gr_ov : At data (pos + 1) (ov_of g ++ drop (length (ov_of g)) (drop (Z.to_nat (pos + 1)) data));
  gr_n_at : n_at = pos + 1 + #(ov_of g);
  gr_n : read_varint_inline data n_at = Ret (#g, z_at);
  gr_z : read_varint_inline data z_at = Ret (zigzag (as_i64 (as_i64 (first_of g) - prev)), len_at);
  gr_len : read_byte_len more data len_at = Ret (byte_len, body_at);
  gr_body : At data body_at rest;
}.

Lemma At_split {A} (data : list A) pos x rest :
  At data pos (x ++ rest) → At data pos (x ++ drop (length x) (drop (Z.to_nat pos) data)).
Proof. intros [Hp Hd]. split; [done|]. by rewrite Hd, drop_app_length. Qed.

Lemma group_reads_at data pos prev g gs key rest :
  group_ok g → #data < 2 ^ 64 → At data pos (groups_bytes prev (g :: gs) key ++ rest) →
  let body := run_bytes (first_of g) g key false in
  let more := negb (Nat.eqb (length gs) 0) in
  ∃ n_at z_at len_at body_at,
    group_reads data pos prev g more (body ++ groups_bytes (as_i64 (first_of g)) gs key ++ rest)
      n_at z_at len_at (if more then #body else 0) body_at.
Proof.
  intros Hg Hd Hat body more. cbn [groups_bytes] in Hat. fold body more in Hat.
  unfold head_bytes in Hat. simpl app in Hat.
  rewrite <- !app_assoc in Hat.
  assert (#g < 2 ^ 64 ∧ #body < 2 ^ 64) as [Hgn Hbn].
  { assert (#g ≤ #body) as Hgb by apply run_bytes_lower.
    pose proof (At_len _ _ _ Hat) as Hl. assert (0 ≤ pos) by apply Hat. rewrite len_cons, !len_app in Hl.
    repeat match type of Hl with context [ #?l ] => let t := l in lazymatch goal with
      | _ : 0 ≤ #t |- _ => fail | _ => pose proof (len_nonneg t) end end. lia. }
  pose proof (len_nonneg g). pose proof (len_nonneg body).
  eexists _, _, _, _. constructor.
  - exact (At_index _ _ _ _ Hat).
  - apply At_tail in Hat. by eapply At_split.
  - reflexivity.
  - apply At_tail, At_skip in Hat.
    rewrite (read_varint_inline_at _ _ #g _ ltac:(unfold fits; lia) Hat). done.
  - apply At_tail, At_skip in Hat. apply At_skip in Hat.
    by rewrite (read_varint_inline_at _ _ _ _ (zigzag_fits _ (as_i64_range _)) Hat).
  - apply At_tail, At_skip in Hat. do 2 apply At_skip in Hat.
    instantiate (1 := _ + #(len_bytes more body)). unfold read_byte_len. unfold len_bytes in *. destruct more.
    + by rewrite (read_varint_inline_at _ _ #body _ ltac:(unfold fits; lia) Hat).
    + by rewrite Z.add_0_r.
  - apply At_tail, At_skip in Hat. do 3 apply At_skip in Hat. exact Hat.
Qed.

Lemma read_group_head_at data pos prev g more rest n_at z_at len_at byte_len body_at :
  group_ok g → group_reads data pos prev g more rest n_at z_at len_at byte_len body_at →
  read_group_head data pos prev =
    Ret (#(ov_of g), ov_of g ++ replicate (4 - length (ov_of g)) 0, #g, as_i64 (first_of g), len_at).
Proof.
  intros Hg [H1 H2 -> H4 H5 _ _]. pose proof (ov_of_len g Hg) as Hov. unfold read_group_head, MAX_OVERLAP_BYTES.
  rewrite H1, bind_ret, Z.min_l by lia. rewrite (copy_overlap_at _ _ _ _ (proj2 Hov) H2), bind_ret.
  rewrite H4, bind_ret, H5, bind_ret. do 3 f_equal.
  rewrite unzigzag_zigzag by apply as_i64_range. by rewrite as_i64_add_sub by apply as_i64_range.
Qed.

Lemma group_run_at g key data pos rest :
  group_ok g → At data pos (run_bytes (first_of g) g key false ++ rest) →
  group_run (Z.to_nat #g) data pos (first_of g) key #(ov_of g) (ov_of g ++ replicate (4 - length (ov_of g)) 0) =
    Ret (map norm g, pos + #(run_bytes (first_of g) g key false)).
Proof.
  intros (_ & Hp & Hov) Hat. rewrite group_run_scan, len_to_nat, (scan_run_at _ _ _ Hp Hov _ _ _ _ Hat), bind_ret.
  f_equal. f_equal. rewrite map_map. apply map_ext_in. intros p Hin%list_elem_of_In. apply resolve_raw_of.
  rewrite Forall_forall in Hp. by apply Hp.
Qed.

(** The overlap of a group as its readers see it. *)
Lemma take_ov (ov : list Z) n : take (Z.to_nat #ov) (ov ++ replicate n 0) = ov.
Proof. by rewrite len_to_nat, take_app_length. Qed.

(** A group is kept or dropped whole. *)
Lemma filter_group (keep : list Z → bool) g :
  group_ok g → List.filter (λ p, keep (overlap_of p)) g = if keep (ov_of g) then g else [].
Proof.
  intros (_ & _ & Hov). remember (ov_of g) as o. clear Heqo. induction Hov as [|p g Hp _ IH]; [by destruct (keep o)|].
  simpl. rewrite Hp, IH. by destruct (keep o).
Qed.

Section Readers.
Context (data key rest : list Z) (data_fits : #data < 2 ^ 64).
Implicit Types (gs : list (list ParentEntryV3)).

(** The cursor behind a skipped body. *)
Lemma skip_body pos body : At data pos (body ++ rest) → At data (add64 pos #body) rest.
Proof using data_fits.
  intros Hat. pose proof (At_len _ _ _ Hat) as Hl. assert (0 ≤ pos) by apply Hat. apply At_skip in Hat.
  unfold add64. rewrite as_u64_id; [done|]. destruct Hat. unfold fits. lia.
Qed.
End Readers.

Lemma scan_groups_at data key rest gs :
  #data < 2 ^ 64 → Forall group_ok gs → ∀ pos prev parents,
  At data pos (groups_bytes prev gs key ++ rest) → 0 ≤ parents → parents + #(concat gs) < 2 ^ 64 →
  scan_groups (length gs) data pos prev parents =
    Ret (map (λ p, raw_of p key) (concat gs), parents + #(concat gs)).
Proof.
  intros Hd Hok. induction Hok as [|g gs Hg _ IH]; intros pos prev parents Hat H0 Hn; [by rewrite Z.add_0_r|].
  destruct (group_reads_at _ _ _ _ _ _ _ Hg Hd Hat) as (n_at & z_at & len_at & body_at & R).
  simpl concat in *. rewrite len_app in *. pose proof (len_nonneg g). pose proof (len_nonneg (concat gs)).
  cbn [length scan_groups]. rewrite (read_group_head_at _ _ _ _ _ _ _ _ _ _ _ Hg R), bind_ret.
  destruct R as [_ _ _ _ _ Hlen Hbody]. rewrite Hlen, bind_ret.
  rewrite as_u64_as_i64, as_u64_id, len_to_nat by by apply first_of_fits.
  destruct Hg as (_ & Hp & Hov). rewrite (scan_run_at _ _ _ Hp Hov _ _ _ _ Hbody), bind_ret.
  apply At_skip in Hbody. unfold add64. rewrite as_u64_id by (unfold fits; lia).
  rewrite (IH _ _ _ Hbody) by lia. rewrite bind_ret, map_app. f_equal. f_equal. lia.
Qed.

Lemma groups_where_at data key rest keep gs :
  #data < 2 ^ 64 → Forall group_ok gs → ∀ pos prev, At data pos (groups_bytes prev gs key ++ rest) →
  groups_where (length gs) data pos prev key keep =
    Ret (map norm (List.filter (λ p, keep (overlap_of p)) (concat gs))).
Proof.
  intros Hd Hok. induction Hok as [|g gs Hg _ IH]; intros pos prev Hat; [done|].
  destruct (group_reads_at _ _ _ _ _ _ _ Hg Hd Hat) as (n_at & z_at & len_at & body_at & R).
  cbn [length groups_where]. rewrite (read_group_head_at _ _ _ _ _ _ _ _ _ _ _ Hg R), bind_ret.
  destruct R as [_ _ _ _ _ Hlen Hbody]. rewrite Hlen, bind_ret, take_ov.
  simpl concat. rewrite List.filter_app, map_app, filter_group by done. destruct (keep (ov_of g)).
  - rewrite as_u64_as_i64, as_u64_id by by apply first_of_fits. rewrite (group_run_at _ _ _ _ _ Hg Hbody), bind_ret.
    apply At_skip in Hbody. by rewrite (IH _ _ Hbody), bind_ret.
  - simpl. destruct gs as [|g' gs]; [done|]. cbn [length Nat.eqb negb] in *. apply skip_body in Hbody; [|done].
    by apply IH.
Qed.

Lemma group_from_loop_at data key rest want gs :
  #data < 2 ^ 64 → groups_ok gs → ∀ pos prev, At data pos (groups_bytes (as_i64 prev) gs key ++ rest) →
  group_from_loop (length gs) data pos prev want key =
    Ret (map norm (List.filter (λ p, bytes_eqb (overlap_of p) want) (concat gs))).
Proof.
  intros Hd [Hok Hs]. revert Hs. induction Hok as [|g gs Hg Hgs IH]; intros Hs pos prev Hat; [done|].
  destruct (group_reads_at _ _ _ _ _ _ _ Hg Hd Hat) as (n_at & z_at & len_at & body_at & R).
  cbn [length group_from_loop]. rewrite (read_group_head_at _ _ _ _ _ _ _ _ _ _ _ Hg R), bind_ret.
  destruct R as [_ _ _ _ _ Hlen Hbody]. rewrite Hlen, bind_ret, take_ov.
  apply StronglySorted_cons in Hs as [Hlt Hs]. simpl concat.
  rewrite List.filter_app, map_app, (filter_group (λ ov, bytes_eqb ov want)) by done.
  assert (lex_cmp (ov_of g) want ≠ Lt → List.filter (λ p, bytes_eqb (overlap_of p) want) (concat gs) = []) as Hpast.
  { intros Hc. clear -Hgs Hlt Hc. induction Hgs as [|g' gs Hg' _ IH]; [done|].
    apply Forall_cons in Hlt as [E Hlt]. simpl. rewrite List.filter_app, (filter_group (λ ov, bytes_eqb ov want)), IH by done.
    unfold bytes_eqb. rewrite bool_decide_false; [done|]. by intros <-. }
  unfold bytes_eqb at 1. destruct (lex_cmp (ov_of g) want) eqn:E.
  - apply lex_cmp_eq in E. rewrite bool_decide_true, Hpast, app_nil_r by done.
    rewrite as_u64_as_i64, as_u64_id by by apply first_of_fits. by rewrite (group_run_at _ _ _ _ _ Hg Hbody), bind_ret.
  - rewrite bool_decide_false by (intros Ew; by rewrite Ew, lex_cmp_refl in E). simpl.
    destruct gs as [|g' gs]; [done|]. cbn [length Nat.eqb negb] in *. apply skip_body in Hbody; [|done].
    apply IH; [done|]. rewrite as_u64_as_i64, as_u64_id; [done|by apply first_of_fits].
  - rewrite bool_decide_false, Hpast; [done..|]. intros Ew. by rewrite Ew, lex_cmp_refl in E.
Qed.

Lemma count_groups_at data key rest gs :
  #data < 2 ^ 64 → Forall group_ok gs → ∀ pos prev total,
  At data pos (groups_bytes prev gs key ++ rest) → 0 ≤ total → total + #(concat gs) < 2 ^ 64 →
  count_groups (length gs) data pos total = Ret (total + #(concat gs)).
Proof.
  intros Hd Hok. induction Hok as [|g gs Hg _ IH]; intros pos prev total Hat H0 Hn; [by rewrite Z.add_0_r|].
  destruct (group_reads_at _ _ _ _ _ _ _ Hg Hd Hat) as (n_at & z_at & len_at & body_at & R).
  simpl concat in *. rewrite len_app in *. pose proof (len_nonneg g) as Hg0. pose proof (len_nonneg (concat gs)) as Hc0.
  pose proof (ov_of_len g Hg) as Hov. cbn [length count_groups]. destruct R as [H1 _ -> H4 H5 H6 Hbody].
  rewrite H1, bind_ret. unfold MAX_OVERLAP_BYTES. rewrite Z.min_l by lia.
  rewrite Z.add_assoc, H4, bind_ret, H5, bind_ret, H6, bind_ret.
  replace (add64 total #g) with (total + #g) by (unfold add64; rewrite as_u64_id; [done|unfold fits; lia]).
  destruct gs as [|g' gs]; [simpl; rewrite len_nil; f_equal; lia|].
  cbn [length Nat.eqb negb] in *. apply skip_body in Hbody; [|done].
  rewrite (IH _ _ _ Hbody) by lia. f_equal. lia.
Qed.

(** The headers: where each group starts, and the first ordinal before it. *)
Lemma headers_loop_at data key rest gs :
  #data < 2 ^ 64 → Forall group_ok gs → ∀ pos prev, At data pos (groups_bytes prev gs key ++ rest) →
  - 2 ^ 63 ≤ prev < 2 ^ 63 →
  ∃ hs, headers_loop (length gs) data pos prev = Ret hs ∧ length hs = length gs ∧
    ∀ k hp pf ov, hs !! k = Some (hp, pf, ov) →
      (pf = as_u64 prev ∨ ∃ g, g ∈ gs ∧ pf = first_of g) ∧
      At data hp (groups_bytes (as_i64 pf) (drop k gs) key ++ rest) ∧
      ∃ g, gs !! k = Some g ∧ ov = ov_of g.
Proof.
  intros Hd Hok. induction Hok as [|g gs Hg Hgs IH]; intros pos prev Hat Hprev; [by exists []|].
  destruct (group_reads_at _ _ _ _ _ _ _ Hg Hd Hat) as (n_at & z_at & len_at & body_at & R).
  pose proof (ov_of_len g Hg) as Hov. cbn [length headers_loop]. destruct R as [H1 H2 -> H4 H5 H6 Hbody].
  rewrite H1, bind_ret. unfold MAX_OVERLAP_BYTES. rewrite Z.min_l by lia.
  rewrite (At_slice _ _ _ _ _ H2), bind_ret, H4, bind_ret, H5, bind_ret, H6, bind_ret by done.
  rewrite unzigzag_zigzag, as_i64_add_sub by apply as_i64_range.
  assert (∃ hs, headers_loop (length gs) data
    (add64 body_at (if negb (length gs =? 0)%nat then #(run_bytes (first_of g) g key false) else 0))
    (as_i64 (first_of g)) = Ret hs ∧ length hs = length gs ∧
    ∀ k hp pf ov, hs !! k = Some (hp, pf, ov) → (pf = as_u64 (as_i64 (first_of g)) ∨ ∃ g, g ∈ gs ∧ pf = first_of g) ∧
      At data hp (groups_bytes (as_i64 pf) (drop k gs) key ++ rest) ∧ ∃ g, gs !! k = Some g ∧ ov = ov_of g)
    as (hs & -> & Hl & Hhs).
  { destruct gs as [|g' gs]; [by exists []|]. cbn [length Nat.eqb negb] in *. apply skip_body in Hbody; [|done].
    apply IH; [done|apply as_i64_range]. }
  rewrite bind_ret. eexists. split; [done|]. split; [simpl; by rewrite Hl|].
  intros [|k] hp pf ov Hk; simpl in Hk.
  2: { destruct (Hhs k hp pf ov Hk) as (Hpf & H). split; [|exact H]. right.
       rewrite as_u64_as_i64, as_u64_id in Hpf by by apply first_of_fits.
       destruct Hpf as [-> |(g' & Hin & ->)]; [exists g|exists g']; split; try done; [by left|by right]. }
  injection Hk as <- <- <-. split; [by left|]. split; [|by exists g]. simpl drop.
  rewrite (as_i64_unique (as_u64 prev) prev); [done|done|]. apply as_u64_id, as_u64_fits.
Qed.
