(* ===== verification/ParentRecordProofs.v ===== *)
(** * Parent records: properties

    The records of version 8 as the dictionary uses them, written by
    [encode_parent_record_v8] and read whole, by overlap, without a key, or
    counted; and the records of the versions still read. *)
From S2P Require Import Prelude Varint Ordering ParentRecord ParentCodec.
Import varint parents.

(** ** Reading a record *)

Lemma head_flat n rest : 1 ≤ n ≤ 32 → read_record_head_v8 (n :: rest) = Ret (false, n, 1).
Proof.
  intros Hn. unfold read_record_head_v8. rewrite (At_index _ _ n rest), bind_ret by apply At_start.
  rewrite land_7f, Z.mod_small by lia. replace (n =? 0) with false by lia. rewrite bind_ret.
  rewrite land_80 by (widths; lia). by replace (n <? 128) with true by lia.
Qed.

Lemma head_grouped n rest :
  1 ≤ n < 2 ^ 64 →
  read_record_head_v8 (group_count_bytes n ++ rest) = Ret (true, n, #(group_count_bytes n)).
Proof.
  intros Hn. unfold read_record_head_v8, group_count_bytes. destruct (Z.leb_spec n 127).
  - simpl app. rewrite (At_index _ _ (128 + n) rest), bind_ret by apply At_start.
    rewrite land_7f. replace (128 + n) with (n + 1 * 128) by lia. rewrite Z.mod_add, Z.mod_small by lia.
    replace (n =? 0) with false by lia. rewrite bind_ret, land_80 by (widths; lia).
    by replace (n + 1 * 128 <? 128) with false by lia.
  - simpl app. assert (At (128 :: varint_bytes n ++ rest) 0 (128 :: varint_bytes n ++ rest)) as Hat by apply At_start.
    rewrite (At_index _ _ _ _ Hat), bind_ret. apply At_tail in Hat.
    change (0 + 1) with 1 in Hat. change (Z.land 128 127 =? 0) with true. cbv iota.
    rewrite (read_varint_inline_at _ _ n _ ltac:(unfold fits; lia) Hat), bind_ret. by rewrite len_cons.
Qed.

Section Layout.
Context (key : list Z) (ds : list ParentEntryV3) (bytes : list Z).
Context (Hlay : layout key ds bytes) (Hlt : #ds < 2 ^ 57).

Lemma layout_ok : Forall parent_ok ds.
Proof using Hlay.
  clear Hlt. destruct Hlay as [|gs _ [Hok _]]; [done|]. clear -Hok. induction Hok as [|g gs (_ & Hp & _) _ IH]; [constructor|].
  simpl. by apply Forall_app.
Qed.

(** The head of a grouped record gives the number of its groups. *)
Lemma groups_count gs : gs ≠ [] → Forall group_ok gs → #(concat gs) < 2 ^ 57 → 1 ≤ #gs < 2 ^ 64.
Proof using.
  intros Hne Hok Hc. pose proof (groups_count_le gs Hok).
  destruct gs as [|g gs]; [done|]. pose proof (len_nonneg gs). rewrite len_cons in *. lia.
Qed.

Lemma layout_where keep :
  decode_parent_entries_v8_where bytes key keep =
    Ret (map norm (List.filter (λ p, keep (overlap_of p)) ds)).
Proof using Hlay Hlt.
  pose proof (layout_upper _ _ _ Hlay Hlt) as Hd. pose proof layout_ok as Hok.
  unfold decode_parent_entries_v8_where. destruct Hlay as [ps Hn _|gs Hne [Hgs _]].
  - rewrite head_flat, bind_ret by done. simpl negb. cbv iota. rewrite flat_run_scan, len_to_nat.
    rewrite (scan_flat_at ps key Hok _ _ _ []), bind_ret by (rewrite app_nil_r; apply (At_app (_ :: []))).
    f_equal. clear -Hok. induction Hok as [|p ps Hp _ IH]; [done|]. simpl. rewrite take_ov.
    destruct (keep (overlap_of p)); simpl; [|done]. by rewrite resolve_raw_of, IH.
  - rewrite head_grouped, bind_ret by by apply groups_count. simpl negb. cbv iota.
    rewrite len_to_nat. apply (groups_where_at _ _ []); [done..|]. rewrite app_nil_r. apply At_app.
Qed.

Lemma layout_overlap want :
  decode_parent_entries_v8_overlap bytes key want =
    Ret (map norm (List.filter (λ p, bytes_eqb (overlap_of p) want) ds)).
Proof using Hlay Hlt.
  pose proof (layout_upper _ _ _ Hlay Hlt) as Hd. pose proof (layout_where (λ ov, bytes_eqb ov want)) as Hw.
  unfold decode_parent_entries_v8_overlap. destruct Hlay as [ps Hn _|gs Hne Hgs].
  - by rewrite head_flat, bind_ret by done.
  - rewrite head_grouped, bind_ret by (apply groups_count; [done|apply Hgs|done]). simpl negb. cbv iota.
    unfold decode_group_v8_from. rewrite Z.sub_0_r, len_to_nat.
    apply (group_from_loop_at _ _ []); [done..|]. rewrite app_nil_r. apply At_app.
Qed.

Lemma layout_count : count_parent_entries_v8 bytes = Ret #ds.
Proof using Hlay Hlt.
  pose proof (layout_upper _ _ _ Hlay Hlt) as Hd. unfold count_parent_entries_v8.
  destruct Hlay as [ps Hn _|gs Hne [Hgs _]].
  - by rewrite head_flat, bind_ret by done.
  - rewrite head_grouped, bind_ret by by apply groups_count. simpl negb. cbv iota.
    rewrite len_to_nat, (count_groups_at _ key [] gs) with (prev := 0); [by rewrite Z.add_0_l|done..| |lia|lia].
    rewrite app_nil_r. apply At_app.
Qed.

Lemma layout_scan :
  ∃ shape, scan_parent_record_v8 bytes = Ret (map (λ p, raw_of p key) ds, shape) ∧
    num_parents shape = #ds ∧ 1 ≤ groups shape.
Proof using Hlay Hlt.
  pose proof (layout_upper _ _ _ Hlay Hlt) as Hd. pose proof layout_ok as Hok. unfold scan_parent_record_v8.
  destruct Hlay as [ps Hn _|gs Hne [Hgs _]].
  - rewrite head_flat, bind_ret by done. simpl negb. cbv iota. rewrite len_to_nat.
    rewrite (scan_flat_at ps key Hok _ _ _ []), bind_ret by (rewrite app_nil_r; apply (At_app (_ :: []))).
    by eexists.
  - pose proof (groups_count gs Hne Hgs Hlt). rewrite head_grouped, bind_ret by done. simpl negb. cbv iota.
    rewrite len_to_nat, (scan_groups_at _ key [] gs), bind_ret; [|done..| |lia|lia].
    + eexists. split; [done|]. simpl. lia.
    + rewrite app_nil_r. apply At_app.
Qed.
End Layout.

(** What the decoders see is what the scan sees with the key applied, on any
    bytes: one panics where the other does. *)
Lemma groups_scan n data key :
  ∀ pos prev parents, groups_where n data pos prev key (λ _, true) =
    ('(raws, _) ← scan_groups n data pos prev parents; Ret (map (λ r, resolve r key) raws)).
Proof.
  induction n as [|n IH]; intros pos prev parents; [done|]. cbn [groups_where scan_groups].
  destruct (read_group_head data pos prev) as [[[[[ol ov] k] first] p1]| | |]; [|done..]. rewrite !bind_ret.
  destruct (read_byte_len _ data p1) as [[bl p2]| | |]; [|done..]. rewrite !bind_ret, group_run_scan.
  destruct (scan_run _ data p2 _ _ _) as [[raws p3]| | |]; [|done..]. rewrite !bind_ret, (IH _ _ (add64 parents k)).
  destruct (scan_groups n data _ _ _) as [[rest ps]| | |]; [|done..]. by rewrite !bind_ret, map_app.
Qed.

(** ** Properties *)

(** C33. Round trip of a version-8 record.  Any non-empty list of parents whose
    fields fit their widths is encoded, and decoding it under the same key
    gives every parent back, its ordinal, suffix index, lengths and word
    flag exactly and its overlap cut to the four bytes a record holds, in the
    record's order: by ordinal and suffix index in a flat record (up to 32
    parents), by overlap first in a grouped one.  The count read without
    decoding is the number of parents. *)
Theorem parent_record_roundtrip (parents : list ParentEntryV3) (key : list Z) :
  parents ≠ [] → Forall parent_ok parents → #parents < 2 ^ 57 →
  ∃ bytes ds, encode_parent_record_v8 parents key = Ret bytes ∧
    decode_parent_entries_v8 bytes key = Ret (map norm ds) ∧
    ds ≡ₚ parents ∧
    (if #parents <=? FLAT_RECORD_MAX_PARENTS then StronglySorted flat_le ds else StronglySorted grouped_le ds) ∧
    count_parent_entries_v8 bytes = Ret #parents.
Proof.
  intros Hne Hok Hn. destruct (encode_layout parents key Hne Hok Hn) as (ds & bytes & E & Hlay & Hp & Hs).
  assert (#ds = #parents) as Hl by (unfold len; by rewrite Hp).
  exists bytes, ds. split; [done|]. split.
  { unfold decode_parent_entries_v8. rewrite (layout_where key ds) by (done || lia). by rewrite filter_all. }
  split; [done|]. split; [|by rewrite <- Hl; apply (layout_count key); [done|lia]].
  unfold FLAT_RECORD_MAX_PARENTS. destruct (#parents <=? 32); subst ds; apply StronglySorted_merge_sort; apply _.
Qed.

(** Forty parents of a key, over three overlaps, out of order. *)
Definition sample_parent (i : Z) : ParentEntryV3 :=
  {| raw_ordinal := 1000 - 7 * i; sti := i mod 3; own_len := 5; sep_len := i mod 9;
     overlap_len := i mod 3; overlap := [97 + i mod 3; 98; 0; 0]; is_word_start := Z.even i |}.
Definition sample_parents (n : Z) : list ParentEntryV3 := map sample_parent (range 0 n).
Definition sample_key : list Z := [SI_REST_PREFIX; 104; 105; 106; 107].

Lemma parent_record_roundtrip_witness :
  ∃ bytes ds, encode_parent_record_v8 (sample_parents 40) sample_key = Ret bytes ∧
    decode_parent_entries_v8 bytes sample_key = Ret (map norm ds) ∧ length ds = 40%nat ∧
    StronglySorted grouped_le ds.
Proof.
  destruct (parent_record_roundtrip (sample_parents 40) sample_key) as (bytes & ds & E & D & Hp & Hs & _);
    [done|by apply (bool_decide_unpack _); vm_compute|done|].
  exists bytes, ds. split; [exact E|]. split; [exact D|]. split; [|exact Hs].
  rewrite Hp. reflexivity.
Defined.

(** C34. A selective read returns what a full one would and a filter keeps:
    decoding with any predicate on the overlap, which skips whole groups
    unread, gives the parents that satisfy it, in record order, and the
    search for one exact overlap, which stops at the first group past it,
    gives the parents with that overlap and no other. *)
Theorem parent_record_selective (parents : list ParentEntryV3) (key : list Z) :
  parents ≠ [] → Forall parent_ok parents → #parents < 2 ^ 57 →
  ∃ bytes ds, encode_parent_record_v8 parents key = Ret bytes ∧
    decode_parent_entries_v8 bytes key = Ret ds ∧
    (∀ keep, decode_parent_entries_v8_where bytes key keep =
       Ret (List.filter (λ p, keep (overlap_of p)) ds)) ∧
    (∀ want, decode_parent_entries_v8_overlap bytes key want =
       Ret (List.filter (λ p, bytes_eqb (overlap_of p) want) ds)).
Proof.
  intros Hne Hok Hn. destruct (encode_layout parents key Hne Hok Hn) as (ds & bytes & E & Hlay & Hp & _).
  assert (#ds < 2 ^ 57) as Hl by (unfold len in *; by rewrite Hp).
  assert (∀ f : list Z → bool, map norm (List.filter (λ p, f (overlap_of p)) ds) =
    List.filter (λ p, f (overlap_of p)) (map norm ds)) as Hf.
  { intros f. pose proof (layout_ok _ _ _ Hlay) as Hok'. clear -Hok'. induction Hok' as [|p ds Hpo _ IH]; [done|].
    simpl. rewrite overlap_of_norm by done. destruct (f (overlap_of p)); simpl; by rewrite IH. }
  exists bytes, (map norm ds). split; [done|]. split; [|split].
  - unfold decode_parent_entries_v8. rewrite (layout_where key ds) by done. by rewrite filter_all.
  - intros keep. rewrite (layout_where key ds) by done. by rewrite Hf.
  - intros want. rewrite (layout_overlap key ds) by done. by rewrite (Hf (λ ov, bytes_eqb ov want)).
Qed.

Lemma parent_record_selective_witness :
  ∃ bytes ds es, encode_parent_record_v8 (sample_parents 40) sample_key = Ret bytes ∧
    decode_parent_entries_v8 bytes sample_key = Ret ds ∧
    decode_parent_entries_v8_overlap bytes sample_key [98] = Ret es ∧
    es = List.filter (λ p, bytes_eqb (overlap_of p) [98]) ds ∧ length es = 13%nat.
Proof.
  destruct (parent_record_selective (sample_parents 40) sample_key) as (bytes & ds & E & D & _ & H);
    [done|by apply (bool_decide_unpack _); vm_compute|done|].
  eexists bytes, ds, _. split; [exact E|]. split; [exact D|]. split; [apply (H [98])|]. split; [reflexivity|].
  vm_compute in E. injection E as <-. vm_compute in D. injection D as <-. reflexivity.
Defined.

(** A scan without the key loses nothing: on any bytes, well-formed or
    not, [scan_parent_record_v8] followed by [resolve] under a key gives the
    parents the decoder gives, in the same order, and panics exactly where
    the decoder does. *)
Theorem scan_resolve_decodes (data key : list Z) :
  decode_parent_entries_v8 data key =
    ('(raws, _) ← scan_parent_record_v8 data; Ret (map (λ r, resolve r key) raws)).
Proof.
  unfold decode_parent_entries_v8, decode_parent_entries_v8_where, scan_parent_record_v8.
  destruct (read_record_head_v8 data) as [[[grouped count] pos]| | |]; [|done..]. rewrite !bind_ret.
  destruct grouped; simpl negb; cbv iota.
  - rewrite (groups_scan _ _ _ _ _ 0). by destruct (scan_groups _ _ _ _ _) as [[raws ps]| | |].
  - rewrite flat_run_scan. destruct (scan_flat _ _ _ _) as [raws| | |]; [|done..]. rewrite !bind_ret.
    by rewrite filter_all.
Qed.
