(* ===== verification/OldParents.v ===== *)
(** * Parent records: the versions still read

    The inline value of versions 3 to 5 and the records of versions 3 to 6.
    Versions 5 and 6 have their writer in the source; the records of 3 and 4
    are described by the layout their decoders document. *)
From S2P Require Import Prelude Varint Ordering ParentRecord ParentCodec.
Import varint parents.

(** ** The packed value *)

(** What the value has room for. *)
Definition packs (p : ParentEntryV3) : Prop :=
  fits 24 (raw_ordinal p) ∧ fits 12 (sti p) ∧ fits 14 (own_len p) ∧ fits 8 (sep_len p) ∧ fits 4 (overlap_len p).

#[export] Instance packs_dec p : Decision (packs p).
Proof. unfold packs. apply _. Defined.

(** A parent as the older versions keep it, without the overlap bytes. *)
Definition bare (p : ParentEntryV3) : ParentEntryV3 :=
  {| raw_ordinal := raw_ordinal p; sti := sti p; own_len := own_len p; sep_len := sep_len p;
     overlap_len := overlap_len p; overlap := replicate 4 0; is_word_start := is_word_start p |}.

(** A field of [n] bits stored at bit [s]. *)
Lemma land_mask v n : 0 ≤ n → Z.land v (Z.shiftl 1 n - 1) = v mod 2 ^ n.
Proof. intros Hn. rewrite Z.shiftl_1_l. rewrite <- Z.land_ones, Z.ones_equiv by lia. done. Qed.

Lemma field_shift v s n : 0 ≤ s → fits n v → s + n ≤ 64 → as_u64 (Z.shiftl v s) = Z.shiftl v s.
Proof.
  intros Hs Hv Hn. rewrite Z.shiftl_mul_pow2 by done. apply Z.mod_small. unfold fits in Hv.
  assert (0 < 2 ^ s) by lia. assert (0 ≤ n) by (destruct (Z.leb_spec 0 n); [done|]; rewrite Z.pow_neg_r in Hv; lia).
  pose proof (Z.pow_le_mono_r 2 (n + s) 64). rewrite Z.pow_add_r in * by done. nia.
Qed.

(** The value as a sum of its fields. *)
Lemma encode_single_sum p :
  packs p →
  encode_single_parent_v3 p =
    raw_ordinal p + sti p * 2 ^ 24 + own_len p * 2 ^ 36 + sep_len p * 2 ^ 50 + overlap_len p * 2 ^ 58 +
      (if is_word_start p then 2 ^ 62 else 0).
Proof.
  intros (Ho & Hs & Hw & He & Hv). unfold encode_single_parent_v3.
  unfold ORDINAL_MASK, STI_SHIFT, OWN_LEN_SHIFT, SEP_LEN_SHIFT, OVERLAP_SHIFT, WORD_START_FLAG.
  rewrite land_mask, (Z.mod_small (raw_ordinal p)) by (unfold fits in *; lia).
  rewrite (field_shift (sti p) 24 12), (field_shift (own_len p) 36 14), (field_shift (sep_len p) 50 8),
    (field_shift (overlap_len p) 58 4) by (done || lia).
  unfold fits in *. rewrite (lor_shiftl_add _ (sti p)) by lia. rewrite (lor_shiftl_add _ (own_len p)) by lia.
  rewrite (lor_shiftl_add _ (sep_len p)) by lia. rewrite (lor_shiftl_add _ (overlap_len p)) by lia.
  destruct (is_word_start p); [|lia]. rewrite lor_shiftl_add by lia. lia.
Qed.

(** Cutting a field out of a sum. *)
Lemma field_cut a v b s n : 0 ≤ s → 0 ≤ n → 0 ≤ a < 2 ^ s → fits n v →
  Z.land (Z.shiftr (a + v * 2 ^ s + b * 2 ^ (s + n)) s) (Z.shiftl 1 n - 1) = v.
Proof.
  intros Hs Hn Ha Hv. rewrite Z.shiftr_div_pow2, land_mask by done. rewrite Z.pow_add_r by done.
  replace (a + v * 2 ^ s + b * (2 ^ s * 2 ^ n)) with (a + (v + b * 2 ^ n) * 2 ^ s) by ring.
  rewrite Z.div_add, (Z.div_small a) by lia. rewrite Z.add_0_l, Z.mod_add by lia. by apply Z.mod_small.
Qed.

(** The test of one bit. *)
Lemma land_bit v k : 0 ≤ k → (Z.land v (Z.shiftl 1 k) =? 0) = negb (Z.testbit v k).
Proof.
  intros Hk. rewrite Z.shiftl_1_l. destruct (Z.testbit v k) eqn:E; simpl.
  - apply Z.eqb_neq. intros H. assert (Hb := f_equal (λ x, Z.testbit x k) H). simpl in Hb.
    by rewrite Z.land_spec, E, Z.pow2_bits_true, Z.bits_0 in Hb.
  - apply Z.eqb_eq, Z.bits_inj'. intros n Hn. rewrite Z.land_spec, Z.bits_0.
    destruct (Z.eq_dec k n) as [<-|]; [by rewrite E|]. rewrite Z.pow2_bits_false by done. apply andb_false_r.
Qed.

Lemma testbit_top a w k : 0 ≤ k → 0 ≤ a < 2 ^ k → 0 ≤ w ≤ 1 → Z.testbit (a + w * 2 ^ k) k = (w =? 1).
Proof.
  intros Hk Ha Hw. assert (Z.b2z (Z.testbit (a + w * 2 ^ k) k) = Z.b2z (w =? 1)) as E; [|by apply Z.b2z_inj].
  rewrite Z.testbit_spec' by done. rewrite Z.div_add, (Z.div_small a) by lia. rewrite Z.add_0_l.
  assert (w = 0 ∨ w = 1) as [-> | ->] by lia; done.
Qed.

Lemma decode_encode_single p :
  packs p → decode_output_v3 (encode_single_parent_v3 p) = Single (bare p).
Proof.
  intros Hp. pose proof (encode_single_sum p Hp) as Ev. destruct Hp as (Ho & Hs & Hw & He & Hv).
  set (v := encode_single_parent_v3 p) in *. set (w := (if is_word_start p then 1 else 0)).
  assert ((if is_word_start p then 2 ^ 62 else 0) = w * 2 ^ 62) as Ew by (unfold w; destruct (is_word_start p); lia).
  rewrite Ew in Ev. assert (0 ≤ w ≤ 1) as Hw1 by (unfold w; destruct (is_word_start p); lia).
  unfold decode_output_v3. unfold fits in *.
  unfold MULTI_FLAG, WORD_START_FLAG. rewrite !land_bit, !negb_involutive by lia.
  assert (Z.testbit v 63 = false) as ->.
  { pose proof (testbit_top v 0 63) as H. rewrite Z.mul_0_l, Z.add_0_r in H. apply H; lia. }
  unfold bare. f_equal. f_equal.
  - unfold ORDINAL_MASK. rewrite <- (Z.shiftr_0_r v). rewrite <- (field_cut 0 (raw_ordinal p)
      (sti p + own_len p * 2 ^ 12 + sep_len p * 2 ^ 26 + overlap_len p * 2 ^ 34 + w * 2 ^ 38) 0 24) by (unfold fits; lia).
    do 2 f_equal. rewrite Ev. lia.
  - unfold STI_MASK, STI_SHIFT. rewrite <- (as_u16_id (sti p)) by (unfold fits; lia). f_equal.
    rewrite <- (field_cut (raw_ordinal p) (sti p)
      (own_len p + sep_len p * 2 ^ 14 + overlap_len p * 2 ^ 22 + w * 2 ^ 26) 24 12) by (unfold fits; lia).
    do 2 f_equal. rewrite Ev. lia.
  - unfold OWN_LEN_MASK, OWN_LEN_SHIFT. rewrite <- (as_u16_id (own_len p)) by (unfold fits; lia). f_equal.
    rewrite <- (field_cut (raw_ordinal p + sti p * 2 ^ 24) (own_len p)
      (sep_len p + overlap_len p * 2 ^ 8 + w * 2 ^ 12) 36 14) by (unfold fits; lia).
    do 2 f_equal. rewrite Ev. lia.
  - unfold SEP_LEN_MASK, SEP_LEN_SHIFT. rewrite <- (as_u8_id (sep_len p)) by (unfold fits; lia). f_equal.
    rewrite <- (field_cut (raw_ordinal p + sti p * 2 ^ 24 + own_len p * 2 ^ 36) (sep_len p)
      (overlap_len p + w * 2 ^ 4) 50 8) by (unfold fits; lia).
    do 2 f_equal. rewrite Ev. lia.
  - unfold OVERLAP_MASK, OVERLAP_SHIFT. rewrite <- (as_u8_id (overlap_len p)) by (unfold fits; lia). f_equal.
    rewrite <- (field_cut (raw_ordinal p + sti p * 2 ^ 24 + own_len p * 2 ^ 36 + sep_len p * 2 ^ 50)
      (overlap_len p) w 58 4) by (unfold fits; lia).
    do 2 f_equal. rewrite Ev. lia.
  - rewrite Ev. rewrite testbit_top by lia. unfold w. by destruct (is_word_start p).
Qed.

Lemma decode_encode_multi offset : fits 63 offset → decode_output_v3 (encode_multi_parent_v3 offset) = Multi offset.
Proof.
  intros Ho. unfold decode_output_v3, encode_multi_parent_v3, MULTI_FLAG. unfold fits in Ho.
  rewrite Z.lor_comm, lor_shiftl_add by lia. rewrite land_bit, testbit_top by lia. simpl.
  f_equal. change (2 ^ 64 - 1 - Z.shiftl 1 63) with (Z.ones 63). rewrite Z.land_ones by lia.
  rewrite Z.mod_add by lia. by apply Z.mod_small.
Qed.

(** ** Versions 5 and 6 *)

Definition flags3_of (p : ParentEntryV3) : Z := overlap_len p + (if is_word_start p then 16 else 0).

Lemma flags3_bits o (w : bool) :
  fits 4 o →
  let f := Z.lor (Z.land o (as_u8 OVERLAP_MASK)) (if w then 0x10 else 0) in
  f = o + (if w then 16 else 0) ∧ Z.land f (as_u8 OVERLAP_MASK) = o ∧ (Z.land f 0x10 =? 0) = negb w.
Proof.
  intros Ho. assert (∃ n, o = Z.of_nat n ∧ (n < 16)%nat) as (n & -> & Hn)
    by (exists (Z.to_nat o); unfold fits in Ho; lia). clear Ho.
  do 16 (destruct n as [|n]; [destruct w; vm_compute; repeat split; congruence|]). lia.
Qed.

Fixpoint run3_bytes (prev : Z) (ps : list ParentEntryV3) : list Z :=
  match ps with
  | [] => []
  | p :: ps => varint_bytes (as_u64 (raw_ordinal p - prev)) ++ varint_bytes (sti p) ++ varint_bytes (own_len p) ++
                 [sep_len p; flags3_of p] ++ run3_bytes (raw_ordinal p) ps
  end.

(** The flags byte of these versions has four bits for the overlap. *)
Definition parent3_ok (p : ParentEntryV3) : Prop :=
  fits 64 (raw_ordinal p) ∧ fits 16 (sti p) ∧ fits 16 (own_len p) ∧ fits 8 (sep_len p) ∧ fits 4 (overlap_len p).

#[export] Instance parent3_ok_dec p : Decision (parent3_ok p).
Proof. unfold parent3_ok. apply _. Defined.

Lemma write_sorted_v3_app ps :
  Forall parent3_ok ps → ∀ buf prev, write_sorted_v3 buf prev ps = buf ++ run3_bytes prev ps.
Proof.
  induction 1 as [|p ps (_ & _ & _ & _ & Ho) _ IH]; intros buf prev; simpl; [by rewrite app_nil_r|].
  destruct (flags3_bits (overlap_len p) (is_word_start p) Ho) as (Hf & _).
  rewrite IH, !write_varint_app, Hf, <- !app_assoc. done.
Qed.

Lemma decode_parent_run_at ps :
  Forall parent3_ok ps → ∀ data pos prev rest, At data pos (run3_bytes prev ps ++ rest) →
  decode_parent_run (length ps) data pos prev = Ret (map bare ps).
Proof.
  induction 1 as [|p ps (H1 & H2 & H3 & H4 & Ho) _ IH]; intros data pos prev rest Hat; [done|].
  cbn [run3_bytes length decode_parent_run map] in *. rewrite <- !app_assoc in Hat.
  destruct (flags3_bits (overlap_len p) (is_word_start p) Ho) as (Hf & Hl & Hw). rewrite Hf in *.
  next_inline (as_u64_fits _) Hat. rewrite add64_sub by done.
  next_inline (fits_64 16 _ ltac:(lia) H2) Hat. next_inline (fits_64 16 _ ltac:(lia) H3) Hat. simpl app in Hat.
  rewrite (At_index _ _ _ _ Hat), bind_ret. apply At_tail in Hat.
  rewrite (At_index _ _ _ _ Hat), bind_ret. apply At_tail in Hat. rewrite <- Z.add_assoc in Hat.
  change (1 + 1) with 2 in Hat. rewrite (IH _ _ _ _ Hat), bind_ret, !as_u16_id by done.
  unfold flags3_of, bare. by rewrite Hl, Hw, negb_involutive.
Qed.

(** ** Version 4 *)

Definition packed_record (ps : list ParentEntryV3) : list Z :=
  varint_bytes #ps ++ flat_map (λ p, to_le_bytes 8 (encode_single_parent_v3 p)) ps.

Lemma encode_single_fits p : packs p → fits 64 (encode_single_parent_v3 p).
Proof.
  intros Hp. rewrite encode_single_sum by done. destruct Hp as (? & ? & ? & ? & ?). unfold fits in *.
  destruct (is_word_start p); lia.
Qed.

Lemma chunks_exact_blocks (l : list Z) :
  chunks_exact 8 (flat_map (to_le_bytes 8) l) = map (to_le_bytes 8) l.
Proof.
  unfold chunks_exact. induction l as [|v l IH]; [done|]. simpl flat_map.
  rewrite chunks_cons; [|lia|]. 2: { intros E. assert (Hl := f_equal length E). rewrite length_app, length_to_le_bytes in Hl. done. }
  rewrite take_app_length', drop_app_length' by by rewrite length_to_le_bytes. simpl.
  by rewrite length_to_le_bytes, IH.
Qed.

(** ** Version 3 *)

Definition legacy_parent (p : ParentEntryV3) : list Z :=
  to_le_bytes 4 (raw_ordinal p) ++ to_le_bytes 2 (sti p) ++ to_le_bytes 2 (own_len p) ++
  [sep_len p; overlap_len p; if is_word_start p then 1 else 0].
Definition legacy_record (ps : list ParentEntryV3) : list Z :=
  to_le_bytes 4 #ps ++ flat_map legacy_parent ps.

Definition legacy_ok (p : ParentEntryV3) : Prop :=
  fits 32 (raw_ordinal p) ∧ fits 16 (sti p) ∧ fits 16 (own_len p).

#[export] Instance legacy_ok_dec p : Decision (legacy_ok p).
Proof. unfold legacy_ok. apply _. Defined.

Lemma legacy_loop_at ps :
  Forall legacy_ok ps → ∀ data pos rest, At data pos (flat_map legacy_parent ps ++ rest) →
  legacy_loop (length ps) data pos = Ret (map bare ps).
Proof.
  induction 1 as [|p ps (H1 & H2 & H3) _ IH]; intros data pos rest Hat; [done|].
  cbn [flat_map length legacy_loop map] in *. unfold legacy_parent in Hat at 1. rewrite <- !app_assoc in Hat.
  destruct (At_u32 _ _ _ _ Hat H1) as [-> Hat1]. rewrite bind_ret.
  destruct (At_u16 _ _ _ _ Hat1 H2) as [-> Hat2]. rewrite bind_ret.
  destruct (At_u16 _ _ _ _ Hat2 H3) as [-> Hat3]. rewrite bind_ret. simpl app in Hat3.
  rewrite (At_index _ _ _ _ Hat3), bind_ret. apply At_tail in Hat3.
  rewrite (At_index _ _ _ _ Hat3), bind_ret. apply At_tail in Hat3.
  rewrite (At_index _ _ _ _ Hat3), bind_ret. apply At_tail in Hat3.
  rewrite (IH _ _ _ Hat3), bind_ret. unfold bare. by destruct (is_word_start p).
Qed.

(** ** Properties *)

(** The packed value of versions 3 to 5 gives its parent back: ordinals up
    to 24 bits, suffix indexes up to 12, lengths up to 14, 8 and 4 bits and
    the word flag do not overlap, and an offset of up to 63 bits is told from
    a parent by the top bit. *)
Theorem packed_value_roundtrip (p : ParentEntryV3) (offset : Z) :
  packs p → fits 63 offset →
  decode_output_v3 (encode_single_parent_v3 p) = Single (bare p) ∧
  decode_output_v3 (encode_multi_parent_v3 offset) = Multi offset.
Proof. intros Hp Ho. split; [by apply decode_encode_single|by apply decode_encode_multi]. Qed.

Definition sample_packed : ParentEntryV3 :=
  {| raw_ordinal := 2 ^ 24 - 1; sti := 4095; own_len := 16383; sep_len := 255; overlap_len := 15;
     overlap := [1; 2; 3; 4]; is_word_start := true |}.

Lemma packed_value_roundtrip_witness :
  decode_output_v3 (encode_single_parent_v3 sample_packed) = Single (bare sample_packed) ∧
  encode_single_parent_v3 sample_packed = 2 ^ 63 - 1.
Proof.
  split; [|reflexivity].
  apply (packed_value_roundtrip sample_packed 0); by apply (bool_decide_unpack _).
Defined.

(** The records of the versions still read decode to their parents: the
    delta-coded records of versions 5 and 6 as [encode_parent_entries_v3]
    wrote them, sorted by ordinal and suffix index; the packed records of
    version 4; the fixed-width records of version 3.  None of them carries
    overlap bytes, which come back as zeros. *)
Theorem old_records_roundtrip (ps : list ParentEntryV3) :
  fits 32 #ps →
  (Forall parent3_ok ps →
     ∃ ds, decode_parent_entries_v3 (encode_parent_entries_v3 ps) = Ret (map bare ds) ∧
       ds ≡ₚ ps ∧ StronglySorted flat_le ds) ∧
  (Forall packs ps → decode_parent_entries_v4_packed (packed_record ps) = Ret (map bare ps)) ∧
  (Forall legacy_ok ps → decode_parent_entries_v3_legacy (legacy_record ps) = Ret (map bare ps)).
Proof.
  intros Hn. assert (fits 64 #ps) as Hn64 by by apply fits_32_64. split; [|split]; intros Hok.
  - exists (merge_sort flat_le ps). pose proof (merge_sort_Permutation flat_le ps) as Hp.
    assert (#(merge_sort flat_le ps) = #ps) as Hl by (unfold len; by rewrite Hp).
    split; [|split; [done|apply StronglySorted_merge_sort; apply _]].
    unfold decode_parent_entries_v3, encode_parent_entries_v3, encode_sorted_parent_entries_v3.
    rewrite write_sorted_v3_app by by rewrite Hp. rewrite Hl, as_u64_id by done.
    change (write_varint [] #ps) with (varint_bytes #ps). set (data := _ ++ _).
    assert (At data 0 data) as Hat by apply At_start. unfold data in Hat at 2. next_inline Hn64 Hat.
    rewrite <- Hl, len_to_nat. rewrite <- (app_nil_r (run3_bytes _ _)) in Hat.
    eapply decode_parent_run_at; [by rewrite Hp|]. by rewrite Hl.
  - unfold decode_parent_entries_v4_packed, packed_record.
    assert (At (packed_record ps) 0 (packed_record ps)) as Hat by apply At_start. unfold packed_record in Hat.
    rewrite (read_varint_at _ _ _ _ Hn64 Hat). apply At_skip in Hat. rewrite bind_ret.
    rewrite (At_slice_from _ _ _ Hat), bind_ret, len_to_nat.
    replace (flat_map _ ps) with (flat_map (to_le_bytes 8) (map encode_single_parent_v3 ps))
      by (rewrite !flat_map_concat_map, map_map; done).
    rewrite chunks_exact_blocks, map_map, firstn_all2 by (rewrite length_map; lia).
    clear -Hok. induction Hok as [|p ps Hp _ IH]; [done|]. cbn [map mapM_out].
    rewrite from_to_le_bytes by by apply encode_single_fits. rewrite decode_encode_single, bind_ret by done.
    by rewrite IH.
  - unfold decode_parent_entries_v3_legacy. destruct (cursor_open (legacy_record ps)) as (data & E & Hat). rewrite <- E.
    clear E. unfold legacy_record in Hat. read_u32 Hat. rewrite len_to_nat. eapply (legacy_loop_at _ Hok _ _ []).
    by rewrite app_nil_r.
Qed.

Lemma old_records_roundtrip_witness :
  let ps := [sample_packed; bare sample_packed] in
  decode_parent_entries_v4_packed (packed_record ps) = Ret (map bare ps) ∧
  decode_parent_entries_v3_legacy (legacy_record ps) = Ret (map bare ps) ∧
  #(legacy_record ps) = 26.
Proof.
  destruct (old_records_roundtrip [sample_packed; bare sample_packed]) as (_ & H4 & H3);
    [by apply (bool_decide_unpack _)|].
  split; [apply H4; by apply (bool_decide_unpack _)|].
  split; [apply H3; by apply (bool_decide_unpack _)|]. by vm_compute.
Defined.
