(* ===== verification/ParentTable.v ===== *)
(** * The parents table ([lucivy-fst/src/output_table.rs])

    Records behind their lengths, found by the offset the transducer holds. *)
From S2P Require Import Prelude Varint ParentRecord ParentCodec.
Import varint parents.

(** ** The table of records *)

(** The records of a table with their offsets. *)
Definition table_bytes (rs : list (list Z)) : list Z := flat_map (λ r, varint_bytes #r ++ r) rs.

Fixpoint rows (off : Z) (rs : list (list Z)) : list (Z * list Z) :=
  match rs with
  | [] => []
  | r :: rs => (off, r) :: rows (off + #(varint_bytes #r ++ r)) rs
  end.

Lemma table_add_app data r : table_add data r = (data ++ varint_bytes #r ++ r, #data).
Proof. unfold table_add. rewrite encode_varint_write, write_varint_app. by rewrite <- app_assoc. Qed.

Lemma table_records_loop_at table rs :
  #table < 2 ^ 64 → ∀ fuel pos, At table pos (table_bytes rs) → (length rs < fuel)%nat →
  table_records_loop fuel table pos = Ret (rows pos rs).
Proof.
  intros Ht. induction rs as [|r rs IH]; intros fuel pos Hat Hf; (destruct fuel as [|fuel]; [simpl in Hf; lia|]);
    cbn [table_records_loop].
  - apply At_end in Hat as ->. by rewrite Z.ltb_irrefl.
  - cbn [table_bytes flat_map] in Hat. fold (table_bytes rs) in Hat. rewrite <- app_assoc in Hat.
    pose proof (At_len _ _ _ Hat) as Hl. rewrite !len_app in Hl. assert (0 ≤ pos) by apply Hat.
    pose proof (len_nonneg r). pose proof (len_nonneg (table_bytes rs)). pose proof (len_nonneg (varint_bytes #r)).
    assert (fits 64 #r) as Hr by (unfold fits; lia). pose proof (len_varint_pos _ Hr).
    replace (pos <? #table) with true by lia. rewrite (read_varint_inline_at _ _ _ _ Hr Hat), bind_ret.
    apply At_skip in Hat. unfold add64. rewrite as_u64_id by (unfold fits; lia).
    rewrite (At_slice _ _ _ _ _ Hat), bind_ret by done. apply At_skip in Hat.
    rewrite IH by (done || simpl in Hf; lia). cbn [rows]. by rewrite bind_ret, len_app, Z.add_assoc.
Qed.

Lemma len_table_bytes rs : #rs ≤ #(table_bytes rs) ∨ 2 ^ 64 ≤ #(table_bytes rs).
Proof.
  induction rs as [|r rs IH]; [by left|]. cbn [table_bytes flat_map]. fold (table_bytes rs). rewrite !len_app, len_cons.
  pose proof (len_nonneg r). pose proof (len_nonneg (varint_bytes #r)). pose proof (len_nonneg (table_bytes rs)).
  destruct (Z.ltb_spec #r (2 ^ 64)); [|right; lia]. pose proof (len_varint_pos #r ltac:(unfold fits; lia)).
  destruct IH; [left|right]; lia.
Qed.

Lemma for_each_table_record_spec rs :
  #(table_bytes rs) < 2 ^ 64 → for_each_table_record (table_bytes rs) = Ret (rows 0 rs).
Proof.
  intros Ht. unfold for_each_table_record. apply table_records_loop_at; [done|apply At_start|].
  destruct (len_table_bytes rs); unfold len in *; lia.
Qed.

Lemma rows_lookup rs : ∀ off k o r, rows off rs !! k = Some (o, r) →
  rs !! k = Some r ∧ o = off + #(table_bytes (take k rs)).
Proof.
  induction rs as [|r0 rs IH]; intros off [|k] o r Hk; simpl in Hk; try done.
  - injection Hk as <- <-. split; [done|]. simpl. lens. lia.
  - apply IH in Hk as [Hk ->]. split; [done|].
    change (table_bytes (take (S k) (r0 :: rs))) with ((varint_bytes #r0 ++ r0) ++ table_bytes (take k rs)).
    rewrite !len_app. lia.
Qed.

Lemma table_get_row rs k off r :
  #(table_bytes rs) < 2 ^ 64 → rows 0 rs !! k = Some (off, r) →
  table_get (table_bytes rs) off = Ret r ∧ table_try_get (table_bytes rs) off = Ret r.
Proof.
  intros Ht Hk. apply rows_lookup in Hk as [Hk ->]. rewrite Z.add_0_l.
  assert (table_bytes rs = table_bytes (take k rs) ++ varint_bytes #r ++ r ++ table_bytes (drop (S k) rs)) as E.
  { unfold table_bytes. rewrite <- (take_drop_middle rs k r Hk) at 1. rewrite flat_map_app. simpl. by rewrite <- app_assoc. }
  set (pre := table_bytes (take k rs)) in *. set (post := table_bytes (drop (S k) rs)) in *. rewrite E in *.
  rewrite !len_app in Ht. pose proof (len_nonneg pre). pose proof (len_nonneg post). pose proof (len_nonneg r).
  pose proof (len_nonneg (varint_bytes #r)). assert (fits 64 #r) as Hr by (unfold fits; lia).
  pose proof (len_varint_pos _ Hr). unfold table_get, table_try_get.
  rewrite (proj2 (Z.leb_gt _ _)) by (rewrite !len_app; lia).
  rewrite slice_from_app, !bind_ret, decode_varint_at, !bind_ret by done.
  unfold add64. rewrite as_u64_id by (unfold fits; lia).
  rewrite (proj2 (Z.ltb_ge _ _)) by (rewrite !len_app; lia).
  split; rewrite app_assoc; apply slice_mid; rewrite ?len_app; lia.
Qed.

Lemma rows_increasing rs : ∀ off,
  Forall (λ r, fits 64 #r) rs →
  StronglySorted (λ a b, fst a < fst b) (rows off rs) ∧ Forall (λ a, off ≤ fst a) (rows off rs).
Proof.
  induction rs as [|r rs IH]; intros off Hf; [by split; constructor|]. apply Forall_cons in Hf as [Hr Hf]. cbn [rows].
  pose proof (len_varint_pos _ Hr). pose proof (len_nonneg r). rewrite len_app.
  destruct (IH (off + (#(varint_bytes #r) + #r)) Hf) as [Hs Ha]. split.
  - apply StronglySorted_cons. split; [|done]. eapply Forall_impl; [exact Ha|]. simpl. lia.
  - constructor; [simpl; lia|]. eapply Forall_impl; [exact Ha|]. simpl. lia.
Qed.

Lemma rows_snoc rs : ∀ off r, rows off (rs ++ [r]) = rows off rs ++ [(off + #(table_bytes rs), r)].
Proof.
  induction rs as [|r0 rs IH]; intros off r; simpl; [by rewrite len_nil, Z.add_0_r|]. rewrite IH. do 4 f_equal.
  fold (table_bytes rs). rewrite !len_app. lia.
Qed.

Lemma length_rows rs : ∀ off, length (rows off rs) = length rs.
Proof. induction rs as [|r rs IH]; intros off; simpl; [done|by rewrite IH]. Qed.

(** A part of a table is no longer than the table. *)
Lemma table_bytes_take k rs : #(table_bytes (take k rs)) ≤ #(table_bytes rs).
Proof.
  unfold table_bytes. rewrite <- (take_drop k rs) at 2. rewrite flat_map_app, len_app.
  set (x := flat_map _ (drop k rs)). pose proof (len_nonneg x). lia.
Qed.
