(* ===== verification/GroupIndex.v ===== *)
(** * The group index of a parents table ([src/suffix_fst/dictionary_pidx.rs])

    Checkpoints into the grouped records of a table, one per sixteen groups,
    so that a lookup by overlap reads a few headers instead of all of them.
    The index is built by a scan of the table and read in place; the theorem
    is that a lookup through it answers as the scan of the record does. *)
From S2P Require Import Prelude Varint Ordering ParentRecord ParentCodec ParentRecordProofs ParentTable.
Import varint parents.

Module pidx.

Definition MAGIC : list Z := [80; 73; 68; 88].
Definition VERSION : Z := 1.
Definition STRIDE : Z := 16.
Definition HEADER_LEN : Z := 12.
Definition RECORD_LEN : Z := 12.
Definition ENTRY_LEN : Z := 13.

Record GroupIndexBuilder := {
  gb_records : list Z;
  gb_entries : list Z;
  gb_n_records : Z;
  gb_n_entries : Z;
}.

Definition new : GroupIndexBuilder :=
  {| gb_records := []; gb_entries := []; gb_n_records := 0; gb_n_entries := 0 |}.

(** The closure [add] runs on each header: [g] is the group's number, the
    state the entries, their number and [fits]. *)
Definition visit (st : list Z * Z * bool) (h : Z * (Z * Z * list Z)) : list Z * Z * bool :=
  let '(entries, n_entries, fits) := st in
  let '(g, (header_pos, prev_first, ov)) := h in
  if negb (g mod STRIDE =? 0) then st
  else if (u32_max <? prev_first) || (u32_max <? header_pos) then (entries, n_entries, false)
  else (entries ++ to_le_bytes 4 (as_u32 prev_first) ++ to_le_bytes 4 (as_u32 header_pos) ++
          [as_u8 #ov] ++ (ov ++ replicate (Z.to_nat (MAX_OVERLAP_BYTES - #ov)) 0),
        add32 n_entries 1, fits).

(** [iter().enumerate()]. *)
Definition enumerate {A} (l : list A) : list (Z * A) := zip (seqZ 0 #l) l.

Definition add (b : GroupIndexBuilder) (table_offset : Z) (record : list Z) : out GroupIndexBuilder :=
  match record with
  | [] => Ret b
  | head :: _ =>
      if Z.land head 0x80 =? 0 then Ret b
      else
        '(_, count, _) ← read_record_head_v8 record;
        if count <=? STRIDE then Ret b
        else
          let n_before := gb_n_entries b in
          headers ← for_each_group_header_v8 record;
          let '(entries, n_entries, fits) :=
            fold_left visit (enumerate headers) (gb_entries b, n_before, true) in
          if negb fits then
            Ret {| gb_records := gb_records b;
                   gb_entries := take (length (gb_entries b)) entries;
                   gb_n_records := gb_n_records b;
                   gb_n_entries := n_before |}
          else
            Ret {| gb_records := gb_records b ++ to_le_bytes 8 table_offset ++ to_le_bytes 4 n_before;
                   gb_entries := entries;
                   gb_n_records := add32 (gb_n_records b) 1;
                   gb_n_entries := n_entries |}
  end.

Definition finish (b : GroupIndexBuilder) : list Z :=
  MAGIC ++ [VERSION] ++ [as_u8 STRIDE] ++ to_le_bytes 2 0 ++ to_le_bytes 4 (gb_n_records b) ++
  gb_records b ++ to_le_bytes 4 (gb_n_entries b) ++ gb_entries b.

Definition build_from_table (table : list Z) : out (list Z) :=
  records ← for_each_table_record table;
  b ← foldM (λ b '(offset, record), add b offset record) new records;
  Ret (finish b).

Record GroupIndex := {
  gi_bytes : list Z;
  n_records : Z;
  records_at : Z;
  n_entries : Z;
  entries_at : Z;
  stride : Z;
}.

Definition open (b : list Z) : out GroupIndex :=
  if #b <? HEADER_LEN then Nothing
  else
    magic ← slice b 0 4;
    if negb (bytes_eqb magic MAGIC) then Nothing
    else
      version ← index b 4;
      if negb (version =? VERSION) then Nothing
      else
        stride ← index b 5;
        if stride =? 0 then Nothing
        else
          n_records ← u32_at b 8;
          let records_at := HEADER_LEN in
          let entries_count_at := records_at + n_records * RECORD_LEN in
          if #b <? entries_count_at + 4 then Nothing
          else
            n_entries ← u32_at b entries_count_at;
            let entries_at := entries_count_at + 4 in
            if #b <? entries_at + n_entries * ENTRY_LEN then Nothing
            else Ret {| gi_bytes := b; n_records := n_records; records_at := records_at;
                        n_entries := n_entries; entries_at := entries_at; stride := stride |}.

(** [GroupIndex::build]: the [expect] panics when the bytes do not open. *)
Definition build (table : list Z) : out GroupIndex :=
  bytes ← build_from_table table;
  match open bytes with Nothing => Panic | m => m end.

Definition record_offset (ix : GroupIndex) (i : Z) : out Z :=
  u64_at (gi_bytes ix) (records_at ix + i * RECORD_LEN).

Definition record_entry_start (ix : GroupIndex) (i : Z) : out Z :=
  u32_at (gi_bytes ix) (records_at ix + i * RECORD_LEN + 8).

Definition entry (ix : GroupIndex) (k : Z) : out (Z * Z * list Z) :=
  let at_ := entries_at ix + k * ENTRY_LEN in
  b ← slice (gi_bytes ix) at_ (at_ + ENTRY_LEN);
  prev_first ← u32_at b 0;
  header_pos ← u32_at b 4;
  l ← index b 8;
  let ov_len := Z.min l MAX_OVERLAP_BYTES in
  ov ← slice b 9 (9 + ov_len);
  Ret (prev_first, header_pos, ov).

(** The search of [entries_of]; the interval shrinks at every turn. *)
Fixpoint entries_of_loop (fuel : nat) (ix : GroupIndex) (table_offset lo hi : Z) : out (Z * Z) :=
  match fuel with
  | O => OutOfFuel
  | S fuel =>
      if lo <? hi then
        let mid := lo + (hi - lo) / 2 in
        offset ← record_offset ix mid;
        match offset ?= table_offset with
        | Lt => entries_of_loop fuel ix table_offset (mid + 1) hi
        | Gt => entries_of_loop fuel ix table_offset lo mid
        | Eq =>
            start ← record_entry_start ix mid;
            end_ ← (if mid + 1 <? n_records ix then record_entry_start ix (mid + 1)
                    else Ret (n_entries ix));
            Ret (start, end_)
        end
      else Nothing
  end.

Definition entries_of (ix : GroupIndex) (table_offset : Z) : out (Z * Z) :=
  entries_of_loop (S (Z.to_nat (n_records ix))) ix table_offset 0 (n_records ix).

Definition parents_with_overlap (ix : GroupIndex) (table_offset : Z) (record key want : list Z)
    : out (list ParentEntryV3) :=
  '(start, end_) ← entries_of ix table_offset;
  lo ← bisect (λ mid, '(_, _, ov) ← entry ix mid; Ret (lex_leb ov want)) start end_;
  if lo =? start then Ret []
  else
    let k := lo - 1 in
    '(prev_first, header_pos, _) ← entry ix k;
    '(_, count, _) ← read_record_head_v8 record;
    decode_group_v8_from record header_pos prev_first ((k - start) * stride ix) count want key.

End pidx.
Import pidx.

(** ** The content of an index *)

(** A checkpoint: the first ordinal before the group, the position of its
    header, its overlap. *)
Abbreviation cp := (Z * Z * list Z)%type.

Definition entry_bytes (c : cp) : list Z :=
  let '(pf, hp, ov) := c in
  to_le_bytes 4 pf ++ to_le_bytes 4 hp ++ [ #ov ] ++ take 4 (ov ++ replicate 4 0).
Definition record_bytes (r : Z * Z) : list Z := to_le_bytes 8 (fst r) ++ to_le_bytes 4 (snd r).

(** The checkpoints of each indexed record, by the record's offset. *)
Abbreviation content := (list (Z * list cp)).

Definition idx_entries (ix : content) : list Z := flat_map entry_bytes (concat (map snd ix)).
Definition idx_records (ix : content) : list Z :=
  flat_map record_bytes (zip (map fst ix) (prefix_sums 0 (map snd ix))).
Definition idx_bytes (ix : content) : list Z :=
  MAGIC ++ [VERSION] ++ [as_u8 STRIDE] ++ to_le_bytes 2 0 ++ to_le_bytes 4 #ix ++
  idx_records ix ++ to_le_bytes 4 #(concat (map snd ix)) ++ idx_entries ix.

Definition builder_rep (b : GroupIndexBuilder) (ix : content) : Prop :=
  gb_records b = idx_records ix ∧ gb_entries b = idx_entries ix ∧ gb_n_records b = #ix ∧
  gb_n_entries b = #(concat (map snd ix)).

Definition cp_ok (c : cp) : Prop :=
  let '(pf, hp, ov) := c in fits 32 pf ∧ fits 32 hp ∧ #ov ≤ 4.
Definition content_ok (ix : content) : Prop :=
  Forall (λ r, fits 64 (fst r) ∧ Forall cp_ok (snd r)) ix ∧ #ix < 2 ^ 32 ∧ #(concat (map snd ix)) < 2 ^ 32.

Lemma len_checkpoint_entry c : #(entry_bytes c) = 13.
Proof.
  destruct c as [[pf hp] ov]. unfold entry_bytes. rewrite !len_app, !len_to_le_bytes, len_take, len_app, len_replicate.
  pose proof (len_nonneg ov). change (len [ #ov ]) with 1. lia.
Qed.
Lemma len_record_bytes r : #(record_bytes r) = 12.
Proof. unfold record_bytes. by rewrite len_app, !len_to_le_bytes. Qed.

Lemma zip_starts_snoc (ix : content) off cps :
  zip (map fst (ix ++ [(off, cps)])) (prefix_sums 0 (map snd (ix ++ [(off, cps)]))) =
  zip (map fst ix) (prefix_sums 0 (map snd ix)) ++ [(off, #(concat (map snd ix)))].
Proof.
  rewrite <- (Z.add_0_l #(concat (map snd ix))). generalize 0 as a.
  induction ix as [|[o c] ix IH]; intros a; simpl; [by rewrite len_nil, Z.add_0_r|].
  rewrite IH. simpl. by rewrite len_app, Z.add_assoc.
Qed.

Lemma idx_records_snoc ix off cps :
  idx_records (ix ++ [(off, cps)]) = idx_records ix ++ to_le_bytes 8 off ++ to_le_bytes 4 #(concat (map snd ix)).
Proof. unfold idx_records. rewrite zip_starts_snoc, flat_map_app. simpl. by rewrite app_nil_r. Qed.

Lemma idx_entries_snoc ix off cps :
  idx_entries (ix ++ [(off, cps)]) = idx_entries ix ++ flat_map entry_bytes cps.
Proof. unfold idx_entries. by rewrite map_app, concat_app, flat_map_app; simpl; rewrite app_nil_r. Qed.

(** ** One record added *)

(** The checkpoints among the headers from group [g] on. *)
Fixpoint checkpoints (g : Z) (hs : list (Z * Z * list Z)) : list cp :=
  match hs with
  | [] => []
  | (hp, pf, ov) :: hs =>
      if g mod 16 =? 0 then (pf, hp, ov) :: checkpoints (g + 1) hs else checkpoints (g + 1) hs
  end.

Definition swap (h : Z * Z * list Z) : cp := let '(hp, pf, ov) := h in (pf, hp, ov).

Lemma checkpoints_lookup hs : ∀ g k,
  checkpoints g hs !! k = swap <$> hs !! (Z.to_nat ((- g) mod 16) + 16 * k)%nat.
Proof.
  induction hs as [|[[hp pf] ov] hs IH]; intros g k; [by destruct k|]. cbn [checkpoints].
  pose proof (Z.mod_pos_bound g 16 ltac:(lia)) as Hm. pose proof (Z.div_mod g 16 ltac:(lia)) as Hg.
  destruct (Z.eqb_spec (g mod 16) 0) as [E|E].
  - assert ((- g) mod 16 = 0) as -> by (apply Z.mod_opp_l_z; lia).
    assert ((- (g + 1)) mod 16 = 15) as E'.
    { symmetry. apply (Z.mod_unique_pos _ _ (- (g / 16) - 1)); lia. }
    destruct k as [|k]; [done|]. simpl lookup at 1. rewrite IH, E'.
    replace (Z.to_nat 0 + 16 * S k)%nat with (S (Z.to_nat 15 + 16 * k)) by lia. done.
  - assert ((- g) mod 16 = 16 - g mod 16) as E1.
    { symmetry. apply (Z.mod_unique_pos _ _ (- (g / 16) - 1)); lia. }
    assert ((- (g + 1)) mod 16 = 15 - g mod 16) as E2.
    { symmetry. apply (Z.mod_unique_pos _ _ (- (g / 16) - 1)); lia. }
    rewrite IH, E1, E2.
    replace (Z.to_nat (16 - g mod 16) + 16 * k)%nat with (S (Z.to_nat (15 - g mod 16) + 16 * k)) by lia. done.
Qed.

Definition small (c : cp) : bool := let '(pf, hp, _) := c in (pf <=? u32_max) && (hp <=? u32_max).

(** Past a header that does not fit, the entries only grow. *)
Lemma fold_visit_unfit l : ∀ e n, ∃ x n', fold_left visit l (e, n, false) = (e ++ x, n', false).
Proof.
  induction l as [|[g [[hp pf] ov]] l IH]; intros e n; [exists [], n; by rewrite app_nil_r|]. cbn [fold_left visit].
  destruct (negb _); [apply IH|]. destruct (_ || _); [apply IH|].
  match goal with |- context [(e ++ ?y, ?m, false)] => destruct (IH (e ++ y) m) as (x & n' & ->) end.
  eexists _, _. by rewrite <- app_assoc.
Qed.

Lemma padded_overlap (ov : list Z) : #ov ≤ 4 → ov ++ replicate (Z.to_nat (4 - #ov)) 0 = take 4 (ov ++ replicate 4 0).
Proof.
  intros Hov. unfold len in *. rewrite take_app, (take_ge ov) by lia. f_equal.
  rewrite take_replicate. f_equal. lia.
Qed.

(** What a header must satisfy for the checkpoint to be written whole. *)
Definition header_ok (h : Z * Z * list Z) : Prop := #(snd h) ≤ 4 ∧ 0 ≤ fst (fst h) ∧ 0 ≤ snd (fst h).

Lemma fold_visit hs :
  Forall header_ok hs → ∀ g e n, 0 ≤ n → n + #(checkpoints g hs) < 2 ^ 32 →
  ∃ e' n' f', fold_left visit (zip (seqZ g #hs) hs) (e, n, true) = (e', n', f') ∧
    if forallb small (checkpoints g hs)
    then f' = true ∧ e' = e ++ flat_map entry_bytes (checkpoints g hs) ∧ n' = n + #(checkpoints g hs)
    else f' = false ∧ ∃ x, e' = e ++ x.
Proof.
  induction 1 as [|[[hp pf] ov] hs (Hov & H1 & H2) _ IH]; intros g e n Hn Hlt.
  { eexists _, _, _. split; [done|]. simpl. rewrite app_nil_r, len_nil. repeat split; lia. }
  rewrite len_cons. pose proof (len_nonneg hs). rewrite seqZ_cons by lia. cbn [zip_with fold_left visit checkpoints] in *.
  replace (Z.pred (1 + #hs)) with #hs by lia. unfold STRIDE. rewrite <- Z.add_1_r. simpl fst in *. simpl snd in *.
  destruct (g mod 16 =? 0); cbn [negb]; [|by apply IH]. cbn [forallb small].
  rewrite len_cons in *. pose proof (len_nonneg (checkpoints (g + 1) hs)).
  destruct ((u32_max <? pf) || (u32_max <? hp)) eqn:E.
  - apply orb_true_iff in E. replace ((pf <=? u32_max) && (hp <=? u32_max)) with false by lia.
    destruct (fold_visit_unfit (zip (seqZ (g + 1) #hs) hs) e n) as (x & n' & ->). eexists _, _, _. split; [done|]. simpl.
    split; [done|]. by exists x.
  - apply orb_false_iff in E as [E1 E2]. replace ((pf <=? u32_max) && (hp <=? u32_max)) with true by lia. simpl andb.
    unfold MAX_OVERLAP_BYTES. rewrite padded_overlap by done.
    pose proof (len_nonneg ov). rewrite (as_u8_id #ov) by (widths; lia).
    unfold add32. rewrite !as_u32_id by (unfold fits, u32_max in *; lia).
    match goal with |- context [fold_left visit _ (?y, _, true)] => set (e1 := y) end.
    destruct (IH (g + 1) e1 (n + 1)) as (e' & n' & f' & -> & Hif); [lia..|].
    eexists _, _, _. split; [done|]. destruct (forallb small _).
    + destruct Hif as (-> & -> & ->). split; [done|]. split; [|lia]. unfold e1. simpl. by rewrite <- !app_assoc.
    + destruct Hif as (-> & x & ->). split; [done|]. eexists. unfold e1. by rewrite <- app_assoc.
Qed.

(** The checkpoints of a grouped record. *)
Definition indexed (key : list Z) (ds : list ParentEntryV3) (record : list Z) (cps : list cp) : Prop :=
  ∃ gs, gs ≠ [] ∧ groups_ok gs ∧ ds = concat gs ∧ record = group_count_bytes #gs ++ groups_bytes 0 gs key ∧
    cps ≠ [] ∧ Forall cp_ok cps ∧
    ∀ k pf hp ov, cps !! k = Some (pf, hp, ov) →
      At record hp (groups_bytes (as_i64 pf) (drop (16 * k) gs) key) ∧
      ∃ g, gs !! (16 * k)%nat = Some g ∧ ov = ov_of g.

(** The checkpoints [add] keeps of a record, if any. *)
Definition expect (record : list Z) : option (list cp) :=
  match read_record_head_v8 record, for_each_group_header_v8 record with
  | Ret (true, count, _), Ret hs =>
      if (16 <? count) && forallb small (checkpoints 0 hs) then Some (checkpoints 0 hs) else None
  | _, _ => None
  end.

Definition grow (ix : content) (off : Z) (record : list Z) : content :=
  ix ++ match expect record with Some cps => [(off, cps)] | None => [] end.

(** The headers of a grouped record. *)
Lemma headers_at gs key :
  gs ≠ [] → groups_ok gs → #(concat gs) < 2 ^ 57 →
  let record := group_count_bytes #gs ++ groups_bytes 0 gs key in
  read_record_head_v8 record = Ret (true, #gs, #(group_count_bytes #gs)) ∧
  ∃ hs, for_each_group_header_v8 record = Ret hs ∧ length hs = length gs ∧ Forall header_ok hs ∧
    ∀ k hp pf ov, hs !! k = Some (hp, pf, ov) →
      (pf = 0 ∨ ∃ g, g ∈ gs ∧ pf = first_of g) ∧ At record hp (groups_bytes (as_i64 pf) (drop k gs) key) ∧
      ∃ g, gs !! k = Some g ∧ ov = ov_of g.
Proof.
  intros Hne [Hok Hs] Hlt record. pose proof (groups_count gs Hne Hok Hlt) as Hn.
  assert (read_record_head_v8 record = Ret (true, #gs, #(group_count_bytes #gs))) as Eh by by apply head_grouped.
  split; [done|]. unfold for_each_group_header_v8. rewrite Eh, bind_ret. simpl negb. cbv iota. rewrite len_to_nat.
  assert (layout key (concat gs) record) as Hlay by by apply layout_grouped.
  destruct (headers_loop_at record key [] gs (layout_upper _ _ _ Hlay Hlt) Hok #(group_count_bytes #gs) 0)
    as (hs & -> & Hl & Hhs); [rewrite app_nil_r; apply At_app|lia|].
  assert (∀ k hp pf ov, hs !! k = Some (hp, pf, ov) →
      (pf = 0 ∨ ∃ g, g ∈ gs ∧ pf = first_of g) ∧ At record hp (groups_bytes (as_i64 pf) (drop k gs) key) ∧
      ∃ g, gs !! k = Some g ∧ ov = ov_of g) as Hall.
  { intros k hp pf ov Hk. specialize (Hhs k hp pf ov Hk). by rewrite app_nil_r in Hhs. }
  exists hs. split; [done|]. split; [done|]. split; [|done].
  apply Forall_lookup. intros k [[hp pf] ov] Hk. destruct (Hall k hp pf ov Hk) as (Hpf & Hat & g & Hg & ->).
  rewrite Forall_lookup in Hok. pose proof (Hok _ _ Hg) as Hg'. split; [apply ov_of_len, Hg'|].
  split; [apply Hat|]. simpl. destruct Hpf as [-> |(g' & Hin & ->)]; [done|].
  apply list_elem_of_lookup in Hin as [k' Hk']. apply (first_of_fits g'), (Hok _ _ Hk').
Qed.

Lemma len_checkpoints hs : ∀ g, #(checkpoints g hs) ≤ #hs.
Proof.
  induction hs as [|[[hp pf] ov] hs IH]; intros g; [done|]. simpl. specialize (IH (g + 1)).
  destruct (_ =? _); rewrite ?len_cons; lia.
Qed.

Lemma add_spec b ix off key ds record :
  builder_rep b ix → layout key ds record → #ds < 2 ^ 57 →
  #(concat (map snd ix)) + #ds < 2 ^ 32 → #ix + #ds < 2 ^ 32 →
  ∃ b', add b off record = Ret b' ∧ builder_rep b' (grow ix off record).
Proof.
  intros (R1 & R2 & R3 & R4) Hlay Hlt Hc Hi. unfold grow, expect. destruct Hlay as [ps Hn Hok|gs Hne Hgs].
  - exists b. unfold add. rewrite land_80 by (widths; lia). replace (#ps <? 128) with true by lia.
    split; [done|]. rewrite head_flat by done. by rewrite app_nil_r.
  - destruct (headers_at gs key Hne Hgs Hlt) as (Eh & hs & Ehs & Hl & Hhs & _).
    set (record := group_count_bytes #gs ++ groups_bytes 0 gs key) in *.
    assert (∃ h t, record = h :: t ∧ (Z.land h 0x80 =? 0) = false) as (h & t & Er & Hh).
    { unfold record, group_count_bytes. destruct Hgs as [Hok _]. pose proof (groups_count gs Hne Hok Hlt).
      destruct (Z.leb_spec #gs 127); eexists _, _; (split; [done|]); [|done]. rewrite land_80 by (widths; lia). lia. }
    rewrite Eh, Ehs. clearbody record. subst record. cbv beta iota delta [add]. rewrite Hh, Eh, bind_ret. unfold STRIDE.
    destruct (Z.leb_spec #gs 16).
    { exists b. split; [done|]. replace (16 <? #gs) with false by lia. simpl. by rewrite app_nil_r. }
    replace (16 <? #gs) with true by lia. simpl andb. rewrite Ehs, bind_ret.
    assert (#(checkpoints 0 hs) ≤ #(concat gs)) as Hcl.
    { pose proof (len_checkpoints hs 0). assert (#hs = #gs) by (unfold len; by rewrite Hl).
      pose proof (groups_count_le gs (proj1 Hgs)). lia. }
    pose proof (len_nonneg (concat (map snd ix))). pose proof (len_nonneg ix).
    destruct (fold_visit hs Hhs 0 (gb_entries b) (gb_n_entries b)) as (e' & n' & f' & Ef & Hif); [lia..|].
    unfold enumerate. rewrite Ef. destruct (forallb small _).
    + destruct Hif as (-> & -> & ->). simpl negb. cbv iota. eexists. split; [done|].
      pose proof (groups_count_le gs (proj1 Hgs)).
      split; [|split; [|split]]; simpl.
      * by rewrite idx_records_snoc, R1, R4.
      * by rewrite idx_entries_snoc, R2.
      * unfold add32. rewrite R3, as_u32_id by (unfold fits; lia). lens. lia.
      * rewrite map_app, concat_app, len_app, R4. simpl. by rewrite app_nil_r.
    + destruct Hif as (-> & x & ->). simpl negb. cbv iota. eexists. split; [done|]. rewrite app_nil_r.
      split; [done|]. split; [|by split]. simpl. by rewrite take_app_length.
Qed.

(** ** Reading the index *)

Definition reader_of (ix : content) : GroupIndex :=
  {| gi_bytes := idx_bytes ix; n_records := #ix; records_at := 12; n_entries := #(concat (map snd ix));
     entries_at := 12 + #ix * 12 + 4; stride := 16 |}.

Lemma len_zip_starts (ix : content) : #(zip (map fst ix) (prefix_sums 0 (map snd ix))) = #ix.
Proof.
  unfold len. rewrite length_zip_with, length_map. pose proof (len_prefix_sums 0 (map snd ix)) as H.
  unfold len in H. rewrite length_map in H. lia.
Qed.

Lemma len_idx_records ix : #(idx_records ix) = 12 * #ix.
Proof. unfold idx_records. rewrite (len_records _ 12 len_record_bytes). by rewrite len_zip_starts. Qed.

Lemma len_idx_entries ix : #(idx_entries ix) = 13 * #(concat (map snd ix)).
Proof. unfold idx_entries. by rewrite (len_records _ 13 len_checkpoint_entry). Qed.

Section Reader.
Context (ix : content) (Hok : content_ok ix).

Lemma idx_head : At (idx_bytes ix) 8 (to_le_bytes 4 #ix ++ idx_records ix ++
  to_le_bytes 4 #(concat (map snd ix)) ++ idx_entries ix).
Proof using. unfold idx_bytes. apply (At_app (MAGIC ++ [VERSION] ++ [as_u8 STRIDE] ++ to_le_bytes 2 0)). Qed.

Lemma idx_tables :
  At (idx_bytes ix) 12 (idx_records ix ++ to_le_bytes 4 #(concat (map snd ix)) ++ idx_entries ix) ∧
  At (idx_bytes ix) (12 + #ix * 12) (to_le_bytes 4 #(concat (map snd ix)) ++ idx_entries ix) ∧
  At (idx_bytes ix) (12 + #ix * 12 + 4) (idx_entries ix).
Proof using.
  pose proof idx_head as H. apply At_skip in H. rewrite len_to_le_bytes in H.
  split; [done|]. apply At_skip in H. rewrite len_idx_records in H.
  replace (8 + Z.of_nat 4 + 12 * #ix) with (12 + #ix * 12) in H by lia. split; [done|].
  apply At_skip in H. by rewrite len_to_le_bytes in H.
Qed.

Lemma open_idx : open (idx_bytes ix) = Ret (reader_of ix).
Proof using Hok.
  destruct idx_tables as (_ & H2 & H3). destruct Hok as (_ & Hn & He). unfold open.
  pose proof (At_len _ _ _ H3) as Hl. rewrite len_idx_entries in Hl.
  pose proof (len_nonneg ix). pose proof (len_nonneg (concat (map snd ix))).
  unfold HEADER_LEN. replace (#(idx_bytes ix) <? 12) with false by lia.
  change (slice (idx_bytes ix) 0 4) with (slice (MAGIC ++ drop 4 (idx_bytes ix)) 0 4).
  rewrite slice_prefix, bind_ret by done. change (bytes_eqb MAGIC MAGIC) with true. cbn [negb].
  change (index (idx_bytes ix) 4) with (Ret 1). rewrite bind_ret. cbn [negb].
  change (index (idx_bytes ix) 5) with (Ret 16). rewrite bind_ret. change (negb (1 =? VERSION)) with false. cbv iota.
  change (16 =? 0) with false. cbv iota.
  destruct (At_u32 _ _ _ _ idx_head ltac:(unfold fits; lia)) as [-> _]. rewrite bind_ret.
  unfold RECORD_LEN, ENTRY_LEN. replace (_ <? _) with false by lia.
  destruct (At_u32 _ _ _ _ H2 ltac:(unfold fits; lia)) as [-> _]. rewrite bind_ret.
  replace (_ <? _) with false by lia. done.
Qed.

Lemma starts_lookup i off cps :
  ix !! i = Some (off, cps) →
  zip (map fst ix) (prefix_sums 0 (map snd ix)) !! i = Some (off, #(concat (take i (map snd ix)))).
Proof using.
  intros Hi. rewrite lookup_zip_with, (lookup_map fst _ _ _ Hi). simpl.
  rewrite prefix_sums_lookup by (rewrite length_map; apply lookup_lt_Some in Hi; lia). done.
Qed.

Lemma record_reads i off cps :
  ix !! i = Some (off, cps) →
  record_offset (reader_of ix) (Z.of_nat i) = Ret off ∧
  record_entry_start (reader_of ix) (Z.of_nat i) = Ret #(concat (take i (map snd ix))).
Proof using Hok.
  intros Hi. destruct idx_tables as (H1 & _). destruct Hok as (Hf & Hn & He).
  destruct (At_record_at record_bytes 12 len_record_bytes _ _ _ _ _ _ H1 (starts_lookup _ _ _ Hi)) as [rest Hat].
  unfold record_offset, record_entry_start, RECORD_LEN, record_bytes in *. simpl in *. rewrite <- app_assoc in Hat.
  replace (12 + Z.of_nat i * 12) with (12 + 12 * Z.of_nat i) by lia.
  rewrite Forall_lookup in Hf. destruct (Hf _ _ Hi) as [Hoff _].
  destruct (At_u64 _ _ _ _ Hat Hoff) as [-> Hat2]. split; [done|].
  pose proof (len_concat_take_le (map snd ix) i). pose proof (len_nonneg (concat (take i (map snd ix)))).
  by destruct (At_u32 _ _ _ _ Hat2 ltac:(unfold fits; lia)) as [-> _].
Qed.

Lemma checkpoint_reads k pf hp ov :
  concat (map snd ix) !! k = Some (pf, hp, ov) → entry (reader_of ix) (Z.of_nat k) = Ret (pf, hp, ov).
Proof using Hok.
  intros Hk. destruct idx_tables as (_ & _ & H3). destruct Hok as (Hf & Hn & He).
  assert (cp_ok (pf, hp, ov)) as (H1 & H2 & Hov).
  { assert (Forall cp_ok (concat (map snd ix))) as Ha; [|by rewrite Forall_lookup in Ha; apply (Ha k)].
    clear -Hf. induction Hf as [|r ix [_ Hr] _ IH]; [constructor|]. simpl. by apply Forall_app. }
  rewrite <- (app_nil_r (idx_entries ix)) in H3. unfold idx_entries in H3.
  destruct (At_record_at entry_bytes 13 len_checkpoint_entry _ _ _ _ _ _ H3 Hk) as [rest Hat].
  unfold entry, ENTRY_LEN. simpl gi_bytes. simpl entries_at.
  replace (12 + #ix * 12 + 4 + Z.of_nat k * 13) with (12 + #ix * 12 + 4 + 13 * Z.of_nat k) by lia.
  rewrite (At_slice _ _ _ _ _ Hat), bind_ret by (by rewrite len_checkpoint_entry).
  destruct (cursor_open (entry_bytes (pf, hp, ov))) as (b & E & Hb). rewrite <- E. clear E.
  unfold entry_bytes in Hb. rewrite <- padded_overlap in Hb by done.
  destruct (At_u32 _ _ _ _ Hb H1) as [-> Hb2]. rewrite bind_ret. cursor_norm Hb2.
  destruct (At_u32 _ _ _ _ Hb2 H2) as [-> Hb3]. rewrite bind_ret. cursor_norm Hb3. simpl app in Hb3.
  rewrite (At_index _ _ _ _ Hb3), bind_ret. apply At_tail in Hb3. cursor_norm Hb3.
  pose proof (len_nonneg ov). unfold MAX_OVERLAP_BYTES. rewrite Z.min_l by done.
  by rewrite (At_slice _ _ _ _ _ Hb3), bind_ret by done.
Qed.

(** Offsets in increasing order, as the table has them. *)
Definition offsets_increasing : Prop :=
  ∀ i j o1 o2 c1 c2, ix !! i = Some (o1, c1) → ix !! j = Some (o2, c2) → (i < j)%nat → o1 < o2.

Lemma entries_of_loop_spec (Hinc : offsets_increasing) off : ∀ fuel lo hi,
  0 ≤ lo ≤ hi → hi ≤ #ix → (Z.to_nat (hi - lo) < fuel)%nat →
  (∀ i o c, ix !! i = Some (o, c) → Z.of_nat i < lo → o < off) →
  (∀ i o c, ix !! i = Some (o, c) → hi ≤ Z.of_nat i → off < o) →
  match entries_of_loop fuel (reader_of ix) off lo hi with
  | Ret (s, e) => ∃ i cps, ix !! i = Some (off, cps) ∧ s = #(concat (take i (map snd ix))) ∧ e = s + #cps
  | Nothing => ∀ i o c, ix !! i = Some (o, c) → o ≠ off
  | _ => False
  end.
Proof using Hok.
  induction fuel as [|fuel IH]; intros lo hi Hlo Hhi Hf Hbelow Habove; [lia|]. cbn [entries_of_loop].
  destruct (Z.ltb_spec lo hi).
  2: { intros i o c Hi ->. destruct (Z.ltb_spec (Z.of_nat i) lo) as [Hlt|Hge]; [specialize (Hbelow _ _ _ Hi Hlt); lia|].
       specialize (Habove i off c Hi ltac:(lia)). lia. }
  set (mid := lo + (hi - lo) / 2).
  assert (lo ≤ mid < hi) as Hmid.
  { subst mid. pose proof (Z.div_pos (hi - lo) 2). pose proof (Z.div_lt (hi - lo) 2). lia. }
  destruct (lookup_lt_is_Some_2 ix (Z.to_nat mid)) as [[o c] Hm]; [unfold len in *; lia|].
  destruct (record_reads _ _ _ Hm) as [E1 E2]. rewrite Z2Nat.id in E1, E2 by lia. rewrite E1, bind_ret.
  destruct (Z.compare_spec o off) as [->|Hlt|Hgt].
  - rewrite E2, bind_ret. simpl n_records. simpl n_entries.
    assert ((if mid + 1 <? #ix then record_entry_start (reader_of ix) (mid + 1) else Ret #(concat (map snd ix))) =
      Ret #(concat (take (S (Z.to_nat mid)) (map snd ix)))) as ->.
    { destruct (Z.ltb_spec (mid + 1) #ix).
      - destruct (lookup_lt_is_Some_2 ix (S (Z.to_nat mid))) as [[o' c'] Hm']; [unfold len in *; lia|].
        destruct (record_reads _ _ _ Hm') as [_ E]. by replace (Z.of_nat (S (Z.to_nat mid))) with (mid + 1) in E by lia.
      - rewrite take_ge; [done|]. rewrite length_map. unfold len in *. lia. }
    rewrite bind_ret. exists (Z.to_nat mid), c. split; [done|]. split; [done|].
    rewrite (concat_take_S _ _ c), len_app; [done|]. by rewrite list_lookup_fmap, Hm.
  - apply IH; [lia..| |done]. intros i o' c' Hi Hlt'. destruct (Z.eq_dec (Z.of_nat i) mid) as [<-|].
    + rewrite Nat2Z.id in Hm. rewrite Hi in Hm. injection Hm as -> ->. done.
    + pose proof (Hinc i (Z.to_nat mid) o' o c' c Hi Hm ltac:(lia)). lia.
  - apply IH; [lia..|done|]. intros i o' c' Hi Hge. destruct (Z.eq_dec (Z.of_nat i) mid) as [<-|].
    + rewrite Nat2Z.id in Hm. rewrite Hi in Hm. injection Hm as -> ->. done.
    + pose proof (Hinc (Z.to_nat mid) i o o' c c' Hm Hi ltac:(lia)). lia.
Qed.
End Reader.

(** ** A lookup *)

Lemma filter_groups_none gs want :
  Forall group_ok gs → (∀ k g, gs !! k = Some g → ov_of g ≠ want) →
  List.filter (λ p, bytes_eqb (overlap_of p) want) (concat gs) = [].
Proof.
  intros Hok. induction Hok as [|g gs Hg _ IH]; intros Hne; [done|]. simpl.
  rewrite List.filter_app, (filter_group (λ ov, bytes_eqb ov want)) by done.
  rewrite IH by (intros k; apply (Hne (S k))). unfold bytes_eqb. by rewrite bool_decide_false by by apply (Hne 0%nat).
Qed.

(** Overlaps grow along the groups. *)
Lemma groups_ov_mono gs i j g g' :
  groups_ok gs → gs !! i = Some g → gs !! j = Some g' → (i < j)%nat → lex_cmp (ov_of g) (ov_of g') = Lt.
Proof. intros [_ Hs] Hi Hj Hij. by eapply (StronglySorted_lookup _ _ _ _ _ _ Hs). Qed.

Lemma groups_ok_drop n gs : groups_ok gs → groups_ok (drop n gs).
Proof.
  intros [Hok Hs]. split; [by apply Forall_drop|]. revert n. induction Hs as [|g gs Hs IH Hg]; intros n.
  { rewrite drop_nil. constructor. }
  apply Forall_cons in Hok as [_ Hok]. destruct n as [|n]; simpl; [by apply StronglySorted_cons|by apply IH].
Qed.

Section Lookup.
Context (ix : content) (Hok : content_ok ix) (Hinc : offsets_increasing ix).

Lemma entries_of_cases off :
  match entries_of (reader_of ix) off with
  | Ret (s, e) => ∃ i cps, ix !! i = Some (off, cps) ∧ s = #(concat (take i (map snd ix))) ∧ e = s + #cps
  | Nothing => ∀ i o c, ix !! i = Some (o, c) → o ≠ off
  | _ => False
  end.
Proof using Hok Hinc.
  pose proof (len_nonneg ix). unfold entries_of. simpl n_records. apply entries_of_loop_spec; [done..|lia|lia|lia| |].
  all: intros i o c Hi%lookup_lt_Some; unfold len; lia.
Qed.

Lemma entries_of_found i off cps :
  ix !! i = Some (off, cps) →
  let s := #(concat (take i (map snd ix))) in entries_of (reader_of ix) off = Ret (s, s + #cps).
Proof using Hok Hinc.
  intros Hi s. pose proof (entries_of_cases off) as H. destruct (entries_of _ _) as [[s' e]| | |]; [|by apply H in Hi|done..].
  destruct H as (j & c & Hj & -> & ->). assert (j = i) as ->.
  { destruct (Nat.lt_trichotomy i j) as [Hij|[->|Hij]]; [|done|].
    - pose proof (Hinc _ _ _ _ _ _ Hi Hj Hij). lia.
    - pose proof (Hinc _ _ _ _ _ _ Hj Hi Hij). lia. }
  rewrite Hi in Hj. by injection Hj as <-.
Qed.

Lemma entries_of_absent off :
  (∀ i o c, ix !! i = Some (o, c) → o ≠ off) → entries_of (reader_of ix) off = Nothing.
Proof using Hok Hinc.
  intros Ha. pose proof (entries_of_cases off) as H. destruct (entries_of _ _) as [[s' e]| | |]; [|done..].
  destruct H as (j & c & Hj & _). by apply Ha in Hj.
Qed.

Lemma entry_of_record i off cps k c :
  ix !! i = Some (off, cps) → cps !! k = Some c →
  entry (reader_of ix) (#(concat (take i (map snd ix))) + Z.of_nat k) = Ret c.
Proof using Hok.
  intros Hi Hk. destruct c as [[pf hp] ov]. unfold len. rewrite <- Nat2Z.inj_add. apply checkpoint_reads; [done|].
  rewrite (concat_split (map snd ix) i cps) by apply (lookup_map snd _ _ _ Hi).
  rewrite lookup_app_r by lia. rewrite lookup_app_l by (apply lookup_lt_Some in Hk; lia).
  rewrite <- Hk. f_equal. lia.
Qed.

(** The search among the checkpoints, whose overlaps increase. *)
Lemma checkpoint_search i off cps want :
  ix !! i = Some (off, cps) →
  (∀ j k c c', cps !! j = Some c → cps !! k = Some c' → (j < k)%nat → lex_cmp (snd c) (snd c') = Lt) →
  let s := #(concat (take i (map snd ix))) in
  ∃ n, (n ≤ length cps)%nat ∧
    bisect (λ mid, '(_, _, ov) ← entry (reader_of ix) mid; Ret (lex_leb ov want)) s (s + #cps) = Ret (s + Z.of_nat n) ∧
    ∀ k c, cps !! k = Some c → lex_leb (snd c) want = (k <? n)%nat.
Proof using Hok.
  intros Hi Hmono s.
  set (q := λ k, match cps !! Z.to_nat (k - s) with Some c => lex_leb (snd c) want | None => false end).
  destruct (bisect_spec (λ mid, '(_, _, ov) ← entry (reader_of ix) mid; Ret (lex_leb ov want)) q s (s + #cps))
    as (lo & -> & Hlo & Htrue & Hfalse).
  - split.
    + intros k Hk. destruct (lookup_lt_is_Some_2 cps (Z.to_nat (k - s))) as [c Hc]; [unfold len in *; lia|].
      pose proof (entry_of_record _ _ _ _ _ Hi Hc) as E. fold s in E.
      replace (s + Z.of_nat (Z.to_nat (k - s))) with k in E by lia. rewrite E. unfold q. rewrite Hc. by destruct c as [[pf hp] ov].
    + intros k l Hk Hkl Hl. unfold q. destruct (Z.eq_dec k l) as [->|Hne]; [done|].
      destruct (lookup_lt_is_Some_2 cps (Z.to_nat (k - s))) as [c Hc]; [unfold len in *; lia|].
      destruct (lookup_lt_is_Some_2 cps (Z.to_nat (l - s))) as [c' Hc']; [unfold len in *; lia|]. rewrite Hc, Hc'.
      apply lex_leb_trans. apply lex_cmp_lt_leb. by apply (Hmono _ _ _ _ Hc Hc'); lia.
  - pose proof (len_nonneg cps). lia.
  - exists (Z.to_nat (lo - s)). split; [unfold len in *; lia|]. split; [f_equal; lia|].
    intros k c Hc. pose proof (lookup_lt_Some _ _ _ Hc).
    destruct (Nat.ltb_spec k (Z.to_nat (lo - s))) as [Hk|Hk]; [specialize (Htrue (s + Z.of_nat k))|specialize (Hfalse (s + Z.of_nat k))];
      unfold q in *; replace (Z.to_nat (s + Z.of_nat k - s)) with k in * by lia; rewrite Hc in *; [apply Htrue|apply Hfalse];
      unfold len in *; lia.
Qed.
End Lookup.

Lemma indexed_lookup ix i off cps key ds record want :
  content_ok ix → offsets_increasing ix → ix !! i = Some (off, cps) → indexed key ds record cps → #ds < 2 ^ 57 →
  parents_with_overlap (reader_of ix) off record key want = decode_parent_entries_v8_overlap record key want.
Proof.
  intros Hok Hinc Hi (gs & Hne & Hgs & -> & -> & Hcne & Hcok & Hcps) Hlt.
  set (record := group_count_bytes #gs ++ groups_bytes 0 gs key) in *.
  assert (layout key (concat gs) record) as Hlay by by apply layout_grouped.
  pose proof (layout_upper _ _ _ Hlay Hlt) as Hd. pose proof Hgs as [Hgok _].
  rewrite (layout_overlap key (concat gs)) by done. unfold parents_with_overlap.
  rewrite (entries_of_found ix Hok Hinc i off cps Hi), bind_ret.
  destruct (checkpoint_search ix Hok i off cps want Hi) as (n & Hn & -> & Hleb).
  { intros j k [[pf hp] ov] [[pf' hp'] ov'] Hj Hk Hjk. destruct (Hcps _ _ _ _ Hj) as (_ & g & Hg & ->).
    destruct (Hcps _ _ _ _ Hk) as (_ & g' & Hg' & ->). simpl. eapply groups_ov_mono; [done..|lia]. }
  rewrite bind_ret. pose proof (λ k, entry_of_record ix Hok i off cps k) as Hent.
  set (s := #(concat (take i (map snd ix)))) in *. destruct n as [|n].
  - rewrite (proj2 (Z.eqb_eq (s + Z.of_nat 0) s)) by lia. destruct cps as [|[[pf hp] ov] cps]; [done|].
    destruct (Hcps 0%nat pf hp ov eq_refl) as (_ & g & Hg & ->). specialize (Hleb 0%nat _ eq_refl). simpl in Hleb.
    rewrite filter_groups_none; [done|done|]. intros k g' Hk E. destruct k as [|k].
    + simpl in *. rewrite Hk in Hg. injection Hg as ->. by rewrite E, lex_leb_refl in Hleb.
    + pose proof (groups_ov_mono gs 0 (S k) g g' Hgs Hg Hk ltac:(lia)) as Hlt'. rewrite E in Hlt'.
      apply lex_cmp_lt_leb in Hlt' as [Hle _]. by rewrite Hle in Hleb.
  - rewrite (proj2 (Z.eqb_neq (s + Z.of_nat (S n)) s)) by lia. destruct (lookup_lt_is_Some_2 cps n) as [[[pf hp] ov] Hc]; [lia|].
    replace (s + Z.of_nat (S n) - 1) with (s + Z.of_nat n) by lia.
    rewrite (Hent n _ Hi Hc), bind_ret.
    assert (read_record_head_v8 record = Ret (true, #gs, #(group_count_bytes #gs))) as ->
      by by apply head_grouped, groups_count.
    rewrite bind_ret.
    destruct (Hcps _ _ _ _ Hc) as (Hat & g & Hg & ->). specialize (Hleb _ _ Hc). simpl snd in Hleb.
    assert (Nat.ltb n (S n) = true) as E1 by (apply Nat.ltb_lt; lia). rewrite E1 in Hleb. clear E1.
    unfold decode_group_v8_from. simpl stride.
    replace (Z.to_nat (#gs - (s + Z.of_nat n - s) * 16))
      with (length (drop (16 * n) gs)) by (rewrite length_drop; unfold len; lia).
    rewrite <- (app_nil_r (groups_bytes _ _ _)) in Hat.
    rewrite (group_from_loop_at record key [] want _ Hd) with (2 := Hat); [|by apply groups_ok_drop].
    rewrite <- (take_drop (16 * n) gs) at 2. rewrite concat_app, List.filter_app, (filter_groups_none (take (16 * n) gs)); [done| |].
    + by apply Forall_take.
    + intros k g' Hk E. assert (k < 16 * n)%nat as Hkn by (apply lookup_lt_Some in Hk; rewrite length_take in Hk; lia).
      rewrite lookup_take_lt in Hk by done. pose proof (groups_ov_mono gs _ _ _ _ Hgs Hk Hg Hkn) as Hlt'.
      rewrite E in Hlt'. apply lex_cmp_lt_leb in Hlt' as [Hle Hne']. apply Hne'. by apply lex_leb_antisym.
Qed.

(** ** The index of a table *)

(** What the index of a table holds. *)
Definition contents (rws : list (Z * list Z)) : content :=
  flat_map (λ row, match expect (snd row) with Some cps => [(fst row, cps)] | None => [] end) rws.

Lemma expect_indexed key ds record cps :
  layout key ds record → #ds < 2 ^ 57 → expect record = Some cps → indexed key ds record cps ∧ 1 ≤ #cps ≤ #ds.
Proof.
  intros Hlay Hlt. unfold expect. destruct Hlay as [ps Hn Hok|gs Hne Hgs]; [by rewrite head_flat|].
  destruct (headers_at gs key Hne Hgs Hlt) as (-> & hs & -> & Hl & Hhs & Hall).
  destruct (_ && _) eqn:E; [|done]. apply andb_true_iff in E as [Hn Hsmall]. intros [= <-].
  assert (∀ k pf hp ov, checkpoints 0 hs !! k = Some (pf, hp, ov) → hs !! (16 * k)%nat = Some (hp, pf, ov)) as Hck.
  { intros k pf hp ov Hk. rewrite checkpoints_lookup in Hk. change (Z.to_nat (- 0 mod 16) + 16 * k)%nat with (16 * k)%nat in Hk.
    destruct (hs !! (16 * k)%nat) as [[[hp' pf'] ov']|]; [|done]. simpl in Hk. by injection Hk as <- <- <-. }
  assert (1 ≤ #(checkpoints 0 hs)) as H1.
  { destruct hs as [|[[hp pf] ov] hs]; [destruct gs; [done|]; simpl in Hl; lia|]. cbn [checkpoints].
    change (0 mod 16 =? 0) with true. cbv iota. rewrite len_cons. pose proof (len_nonneg (checkpoints (0 + 1) hs)). lia. }
  split; [|pose proof (len_checkpoints hs 0); pose proof (groups_count_le gs (proj1 Hgs)); unfold len in *; lia].
  exists gs. split; [done|]. split; [done|]. split; [done|]. split; [done|]. split; [by destruct (checkpoints 0 hs)|]. split.
  - apply Forall_lookup. intros k [[pf hp] ov] Hk. pose proof (Hck _ _ _ _ Hk) as Hk'.
    rewrite Forall_lookup in Hhs. destruct (Hhs _ _ Hk') as (? & ? & ?). simpl in *.
    rewrite forallb_forall in Hsmall. specialize (Hsmall (pf, hp, ov)).
    assert (small (pf, hp, ov) = true) as Hs by (apply Hsmall, list_elem_of_In; by eapply list_elem_of_lookup_2).
    simpl in Hs. apply andb_true_iff in Hs as [? ?]. unfold fits, u32_max in *. lia.
  - intros k pf hp ov Hk. destruct (Hall _ _ _ _ (Hck _ _ _ _ Hk)) as (_ & Hat & Hg). by split.
Qed.

(** The first ordinals of the groups are ordinals of the record. *)
Lemma first_of_in gs g : Forall group_ok gs → g ∈ gs → ∃ p, p ∈ concat gs ∧ first_of g = raw_ordinal p.
Proof.
  intros Hok Hin. rewrite Forall_forall in Hok. destruct (Hok _ Hin) as (Hne & _). destruct g as [|p g]; [done|].
  exists p. split; [|done]. apply list_elem_of_In, in_concat. exists (p :: g). split; [by apply list_elem_of_In|by left].
Qed.

(** When [add] keeps a record: more than sixteen groups, ordinals and
    positions of 32 bits. *)
Lemma expect_some key ds record count pos :
  layout key ds record → #ds < 2 ^ 57 → read_record_head_v8 record = Ret (true, count, pos) → 16 < count →
  Forall (λ p, fits 32 (raw_ordinal p)) ds → #record ≤ 2 ^ 32 → is_Some (expect record).
Proof.
  intros Hlay Hlt Eh Hcount Hord Hrec. unfold expect. destruct Hlay as [ps Hn Hok|gs Hne Hgs]; [by rewrite head_flat in Eh|].
  destruct (headers_at gs key Hne Hgs Hlt) as (Eh' & hs & -> & Hl & Hhs & Hall). rewrite Eh' in *. injection Eh as <- _.
  replace (16 <? #gs) with true by lia.
  assert (forallb small (checkpoints 0 hs) = true) as ->; [|by eexists].
  apply forallb_forall. intros c Hc%list_elem_of_In. apply list_elem_of_lookup in Hc as [k Hk].
  rewrite checkpoints_lookup in Hk. destruct (hs !! _) as [[[hp pf] ov]|] eqn:Eh; [|done]. injection Hk as <-.
  destruct (Hall _ _ _ _ Eh) as (Hpf & Hat & g & Hg & _). simpl. apply andb_true_iff. unfold u32_max. split.
  - destruct Hpf as [-> |(g' & Hin & ->)]; [done|]. destruct (first_of_in gs g' (proj1 Hgs) Hin) as (p & Hp & ->).
    rewrite Forall_forall in Hord. specialize (Hord _ Hp). unfold fits in Hord. lia.
  - pose proof (At_len _ _ _ Hat) as Hlen. rewrite (drop_S _ _ _ Hg) in Hlen. cbn [groups_bytes] in Hlen.
    unfold head_bytes in Hlen. rewrite len_app, len_cons in Hlen.
    match type of Hlen with _ + (1 + #?x + #?y) = _ => pose proof (len_nonneg x); pose proof (len_nonneg y) end. lia.
Qed.

(** The rows of a table whose records are laid out. *)
Definition rows_ok (rws : list (Z * list Z)) (dss : list (list Z * list ParentEntryV3)) : Prop :=
  Forall2 (λ row kd, fits 64 (fst row) ∧ layout (fst kd) (snd kd) (snd row) ∧ #(snd kd) < 2 ^ 57) rws dss.

Lemma contents_le rws dss :
  rows_ok rws dss →
  #(contents rws) ≤ #(concat (map snd dss)) ∧ #(concat (map snd (contents rws))) ≤ #(concat (map snd dss)) ∧
  Forall (λ r, fits 64 (fst r) ∧ Forall cp_ok (snd r)) (contents rws).
Proof.
  induction 1 as [|[off r] [key ds] rws dss (Hoff & Hlay & Hlt) _ (IH1 & IH2 & IH3)]; [by split; [|split]|].
  simpl in *. rewrite !len_app, map_app, concat_app, len_app. destruct (expect r) as [cps|] eqn:E; simpl.
  - destruct (expect_indexed _ _ _ _ Hlay Hlt E) as [(gs & _ & _ & _ & _ & _ & Hc & _) Hn].
    rewrite app_nil_r, len_cons, len_nil. split; [lia|]. split; [lia|]. by constructor.
  - unfold len in *. simpl. split; [lia|]. split; [lia|done].
Qed.

Lemma contents_increasing rws :
  StronglySorted (λ a b, fst a < fst b) rws → offsets_increasing (contents rws).
Proof.
  intros Hs. assert (StronglySorted (λ a b, fst a < fst b) (contents rws)) as Hc.
  { induction Hs as [|row rws Hs IH Ha]; [constructor|]. simpl. destruct (expect (snd row)) as [cps|]; [|done].
    apply StronglySorted_cons. split; [|done]. apply Forall_forall. intros [o c] Hin%list_elem_of_In.
    apply in_flat_map in Hin as ([o' r] & Hin & Hoc). rewrite Forall_forall in Ha.
    specialize (Ha (o', r) (proj2 (list_elem_of_In _ _) Hin)). simpl in *.
    destruct (expect r); [|done]. destruct Hoc as [[= <- <-]|[]]. done. }
  intros i j o1 o2 c1 c2 Hi Hj Hij. exact (StronglySorted_lookup _ _ _ _ _ _ Hc Hi Hj Hij).
Qed.

Lemma foldM_add rws dss :
  rows_ok rws dss → ∀ b ix, builder_rep b ix →
  #(concat (map snd ix)) + #(concat (map snd dss)) < 2 ^ 32 → #ix + #(concat (map snd dss)) < 2 ^ 32 →
  ∃ b', foldM (λ b '(off, r), add b off r) b rws = Ret b' ∧ builder_rep b' (ix ++ contents rws).
Proof.
  induction 1 as [|[off r] [key ds] rws dss (Hoff & Hlay & Hlt) Hrest IH]; intros b ix Hrep H1 H2.
  { exists b. by rewrite app_nil_r. }
  cbn [map snd concat foldM fst] in *. rewrite len_app in *. pose proof (len_nonneg (concat (map snd dss))).
  destruct (add_spec b ix off key ds r Hrep Hlay Hlt) as (b1 & -> & Hrep1); [lia..|]. rewrite bind_ret.
  destruct (IH b1 (grow ix off r) Hrep1) as (b' & -> & Hrep').
  - unfold grow. destruct (expect r) as [cps|] eqn:E; [|rewrite app_nil_r; pose proof (len_nonneg ds); lia].
    pose proof (expect_indexed _ _ _ _ Hlay Hlt E) as [_ ?]. rewrite map_app, concat_app, len_app. simpl. rewrite app_nil_r. lia.
  - unfold grow. destruct (expect r) as [cps|] eqn:E; [|rewrite app_nil_r; pose proof (len_nonneg ds); lia].
    pose proof (expect_indexed _ _ _ _ Hlay Hlt E) as [_ ?]. rewrite len_app, len_cons, len_nil. lia.
  - exists b'. split; [done|]. unfold grow in Hrep'. by rewrite <- app_assoc in Hrep'.
Qed.

Lemma finish_rep b ix : builder_rep b ix → finish b = idx_bytes ix.
Proof. intros (R1 & R2 & R3 & R4). unfold finish, idx_bytes. by rewrite R1, R2, R3, R4. Qed.

Lemma index_build_spec rs dss :
  rows_ok (rows 0 rs) dss → #(table_bytes rs) < 2 ^ 64 → #(concat (map snd dss)) < 2 ^ 32 →
  build (table_bytes rs) = Ret (reader_of (contents (rows 0 rs))) ∧ content_ok (contents (rows 0 rs)).
Proof.
  intros Hrows Ht Hn. destruct (contents_le _ _ Hrows) as (H1 & H2 & H3).
  assert (content_ok (contents (rows 0 rs))) as Hok by (split; [done|lia]). split; [|done].
  unfold build, build_from_table. rewrite for_each_table_record_spec, bind_ret by done.
  destruct (foldM_add _ _ Hrows new []) as (b & -> & Hrep); [done|unfold len in *; simpl; lia..|].
  rewrite bind_ret, bind_ret.
  rewrite app_nil_l in Hrep. by rewrite (finish_rep _ _ Hrep), open_idx.
Qed.

(** Lookups in the index of a table, record by record. *)
Lemma contents_lookup rws dss k key ds off record want :
  StronglySorted (λ a b, fst a < fst b) rws → content_ok (contents rws) → rows_ok rws dss →
  rws !! k = Some (off, record) → dss !! k = Some (key, ds) →
  parents_with_overlap (reader_of (contents rws)) off record key want =
    if bool_decide (is_Some (expect record)) then decode_parent_entries_v8_overlap record key want else Nothing.
Proof.
  intros Hs Hok Hrows Hk Hd. pose proof (contents_increasing _ Hs) as Hinc.
  destruct (Forall2_lookup_lr _ _ _ _ _ _ Hrows Hk Hd) as (_ & Hlay & Hlt). simpl in *.
  destruct (expect record) as [cps|] eqn:E.
  - rewrite bool_decide_true by by eexists.
    assert ((off, cps) ∈ contents rws) as [i Hi]%list_elem_of_lookup.
    { apply list_elem_of_In, in_flat_map. exists (off, record). split; [apply list_elem_of_In; by eapply list_elem_of_lookup_2|].
      simpl. rewrite E. by left. }
    destruct (expect_indexed _ _ _ _ Hlay Hlt E) as [Hix _]. exact (indexed_lookup _ _ _ _ _ _ _ want Hok Hinc Hi Hix Hlt).
  - rewrite bool_decide_false by (by intros []). unfold parents_with_overlap.
    rewrite entries_of_absent; [done..|]. intros i o c Hi ->.
    apply list_elem_of_lookup_2, list_elem_of_In, in_flat_map in Hi as ([o r] & Hin & Hoc). simpl in Hoc.
    destruct (expect r) as [c'|] eqn:Er; [|done]. destruct Hoc as [[= -> ->]|[]].
    apply list_elem_of_In, list_elem_of_lookup in Hin as [j Hj].
    destruct (Nat.lt_trichotomy j k) as [Hjk|[->|Hjk]].
    + pose proof (StronglySorted_lookup _ _ _ _ _ _ Hs Hj Hk Hjk). simpl in *. lia.
    + congruence.
    + pose proof (StronglySorted_lookup _ _ _ _ _ _ Hs Hk Hj Hjk). simpl in *. lia.
Qed.

Lemma rows_ok_table rs dss :
  Forall2 (λ kd r, layout (fst kd) (snd kd) r) dss rs → #(table_bytes rs) < 2 ^ 64 →
  #(concat (map snd dss)) < 2 ^ 32 →
  rows_ok (rows 0 rs) dss ∧ Forall (λ r, fits 64 #r) rs.
Proof.
  intros Hl Ht Hn.
  assert (∀ k key ds, dss !! k = Some (key, ds) → #ds < 2 ^ 57) as Hle.
  { intros k key ds Hk. pose proof (concat_split (map snd dss) k ds (lookup_map snd _ _ _ Hk)) as E.
    rewrite E, !len_app in Hn. pose proof (len_nonneg (concat (take k (map snd dss)))).
    pose proof (len_nonneg (concat (drop (S k) (map snd dss)))). lia. }
  split.
  - apply Forall2_same_length_lookup_2; [by rewrite length_rows, (Forall2_length _ _ _ Hl)|].
    intros k [off r] [key ds] Hk Hkd. apply rows_lookup in Hk as [Hk ->]. simpl.
    pose proof (len_nonneg (table_bytes (take k rs))). pose proof (table_bytes_take k rs).
    split; [unfold fits; lia|]. split; [exact (Forall2_lookup_lr _ _ _ _ _ _ Hl Hkd Hk)|by eapply Hle].
  - apply Forall_lookup. intros k r Hk. destruct (Forall2_lookup_r _ _ _ _ _ Hl Hk) as ([key ds] & Hkd & Hlay).
    pose proof (layout_upper _ _ _ Hlay (Hle _ _ _ Hkd)). pose proof (len_nonneg r). unfold fits. lia.
Qed.

(** ** Properties *)

(** A parents table: each record encoded under its key and added in turn,
    with the offset and the bytes of each. *)
Definition write_record (st : list Z * list (Z * list Z)) (kp : list Z * list ParentEntryV3)
    : out (list Z * list (Z * list Z)) :=
  let '(table, rws) := st in
  record ← encode_parent_record_v8 (snd kp) (fst kp);
  let '(table, off) := table_add table record in
  Ret (table, rws ++ [(off, record)]).

Definition write_table (recs : list (list Z * list ParentEntryV3)) : out (list Z * list (Z * list Z)) :=
  foldM write_record ([], []) recs.

Definition rec_ok (kp : list Z * list ParentEntryV3) : Prop := snd kp ≠ [] ∧ Forall parent_ok (snd kp).

Lemma write_table_spec recs :
  Forall rec_ok recs → #(concat (map snd recs)) < 2 ^ 32 →
  ∃ rs dss, write_table recs = Ret (table_bytes rs, rows 0 rs) ∧
    Forall2 (λ kp r, encode_parent_record_v8 (snd kp) (fst kp) = Ret r) recs rs ∧
    Forall2 (λ kd r, layout (fst kd) (snd kd) r) dss rs ∧
    Forall2 (λ kp kd, fst kp = fst kd ∧ snd kd ≡ₚ snd kp) recs dss ∧
    #(table_bytes rs) ≤ 101 * #(concat (map snd recs)).
Proof.
  unfold write_table. change ([], []) with (table_bytes [], rows 0 []). intros Hok.
  induction recs as [|[key ps] recs IH] using rev_ind; intros Hn.
  { by exists [], []. }
  apply Forall_app in Hok as [Hok [[Hne Hp] _]%Forall_cons]. simpl in Hne, Hp.
  rewrite map_app, concat_app, len_app in *. simpl in *. rewrite app_nil_r in *.
  pose proof (len_nonneg ps). pose proof (len_nonneg (concat (map snd recs))).
  destruct (IH Hok ltac:(lia)) as (rs & dss & E & He & Hl & Hd & Hb). rewrite foldM_app, E, bind_ret.
  cbn [foldM]. unfold write_record at 1. cbn [fst snd].
  destruct (encode_layout ps key Hne Hp ltac:(lia)) as (ds & bytes & Eb & Hlay & Hperm & _).
  assert (#ds = #ps) as Hds by (unfold len; by rewrite Hperm).
  rewrite Eb, bind_ret, table_add_app. exists (rs ++ [bytes]), (dss ++ [(key, ds)]). split.
  { rewrite rows_snoc. unfold table_bytes. rewrite flat_map_app. simpl. by rewrite app_nil_r. }
  split; [apply Forall2_app; [done|by repeat constructor]|]. split; [apply Forall2_app; [done|by repeat constructor]|].
  split; [apply Forall2_app; [done|by repeat constructor]|].
  pose proof (layout_size _ _ _ Hlay ltac:(lia)) as [? ?]. pose proof (len_nonneg bytes).
  pose proof (len_varint_max #bytes ltac:(unfold fits; lia)).
  unfold table_bytes in *. rewrite flat_map_app, len_app. simpl. rewrite app_nil_r, len_app. lia.
Qed.

(** C35. The group index answers as the scan does.  For a table of any
    non-empty parent lists under any keys, fewer than 2^32 parents in all,
    the index builds, and the table gives each record back at its offset.
    For each record, either the index does not hold it and says so, or a
    lookup of any overlap through it (binary search of the record, of its
    checkpoints, then a scan of at most sixteen headers) returns exactly what
    [decode_parent_entries_v8_overlap] finds by scanning the record.  A
    record is held only if it has more than sixteen groups, and always then
    when its ordinals fit 32 bits and it is no longer than 2^32 bytes. *)
Theorem group_index_lookup (recs : list (list Z * list ParentEntryV3)) :
  Forall rec_ok recs → #(concat (map snd recs)) < 2 ^ 32 →
  ∃ table rws ix, write_table recs = Ret (table, rws) ∧ length rws = length recs ∧
    for_each_table_record table = Ret rws ∧ build table = Ret ix ∧
    ∀ k key ps off record, recs !! k = Some (key, ps) → rws !! k = Some (off, record) →
      encode_parent_record_v8 ps key = Ret record ∧
      table_get table off = Ret record ∧ table_try_get table off = Ret record ∧
      ∃ held : bool,
        (∀ want, parents_with_overlap ix off record key want =
           if held then decode_parent_entries_v8_overlap record key want else Nothing) ∧
        (∀ count pos, read_record_head_v8 record = Ret (true, count, pos) → 16 < count →
           Forall (λ p, fits 32 (raw_ordinal p)) ps → #record ≤ 2 ^ 32 → held = true) ∧
        (held = true → ∃ count pos, read_record_head_v8 record = Ret (true, count, pos) ∧ 16 < count).
Proof.
  intros Hok Hn. destruct (write_table_spec recs Hok Hn) as (rs & dss & E & He & Hl & Hd & Hb).
  assert (#(table_bytes rs) < 2 ^ 64) as Ht by lia.
  assert (#(concat (map snd dss)) = #(concat (map snd recs))) as Hdn.
  { clear -Hd. induction Hd as [|kp kd recs dss [_ Hp] _ IH]; [done|]. simpl. rewrite !len_app, IH. unfold len. by rewrite Hp. }
  destruct (rows_ok_table rs dss Hl Ht ltac:(lia)) as [Hrows Hfits].
  destruct (index_build_spec rs dss Hrows Ht ltac:(lia)) as [Eb Hcok].
  exists (table_bytes rs), (rows 0 rs). eexists. split; [done|]. split; [by rewrite length_rows, (Forall2_length _ _ _ He)|].
  split; [by apply for_each_table_record_spec|]. split; [exact Eb|].
  intros k key ps off record Hk Hrow. destruct (table_get_row rs k off record Ht Hrow) as [Hg1 Hg2].
  pose proof (rows_lookup _ _ _ _ _ Hrow) as [Hr _]. split; [exact (Forall2_lookup_lr _ _ _ _ _ _ He Hk Hr)|].
  split; [done|]. split; [done|]. destruct (Forall2_lookup_l _ _ _ _ _ Hd Hk) as ([key' ds] & Hkd & [Hkey Hp]).
  simpl in Hkey, Hp. subst key'.
  destruct (Forall2_lookup_lr _ _ _ _ _ _ Hrows Hrow Hkd) as (_ & Hlay & Hlt). simpl in Hlay, Hlt.
  exists (bool_decide (is_Some (expect record))). split; [|split].
  - intros want. eapply contents_lookup; [by apply rows_increasing|done..].
  - intros count pos Eh Hc Hord Hrec. apply bool_decide_eq_true. eapply expect_some; [done|lia|done|done| |done]. by rewrite Hp.
  - intros [cps Ex]%bool_decide_eq_true. unfold expect in Ex.
    destruct (read_record_head_v8 record) as [[[[] count] pos]| | |]; [|done..].
    destruct (for_each_group_header_v8 record); [|done..]. destruct (Z.ltb_spec 16 count); [|done]. by exists count, pos.
Qed.

(** A flat record, and one of twenty groups. *)
Definition grouped_parent (i : Z) : ParentEntryV3 :=
  {| raw_ordinal := 100 + 3 * i; sti := 0; own_len := 4; sep_len := 0; overlap_len := 1;
     overlap := [97 + i mod 20; 0; 0; 0]; is_word_start := false |}.
Definition sample_recs : list (list Z * list ParentEntryV3) :=
  [(sample_key, sample_parents 3); (sample_key, map grouped_parent (range 0 40))].

#[export] Instance rec_ok_dec kp : Decision (rec_ok kp).
Proof. unfold rec_ok. apply _. Defined.

Lemma group_index_lookup_witness :
  ∃ table rws ix off record es, write_table sample_recs = Ret (table, rws) ∧ build table = Ret ix ∧
    rws !! 1%nat = Some (off, record) ∧
    parents_with_overlap ix off record sample_key [105] = Ret es ∧
    decode_parent_entries_v8_overlap record sample_key [105] = Ret es ∧
    map raw_ordinal es = [124; 184].
Proof.
  destruct (group_index_lookup sample_recs) as (table & rws & ix & E & _ & _ & Eb & H);
    [by apply (bool_decide_unpack _)|done|].
  assert (rws = snd (match write_table sample_recs with Ret x => x | _ => ([], []) end)) as Hr by (by rewrite E).
  vm_compute in Hr. destruct (rws !! 1%nat) as [[off record]|] eqn:Hrow; [|subst; done].
  destruct (H 1%nat sample_key (map grouped_parent (range 0 40)) off record eq_refl Hrow) as (_ & _ & _ & held & Hw & Hheld & _).
  rewrite Hr in Hrow. injection Hrow as Ho Hrec.
  assert (held = true) as ->.
  { apply (Hheld 20 1); [rewrite <- Hrec; reflexivity|done|by apply (bool_decide_unpack _)|rewrite <- Hrec; done]. }
  specialize (Hw [105]).
  eexists table, rws, ix, off, record, _. split; [exact E|]. split; [exact Eb|]. split; [rewrite Hr, <- Ho, <- Hrec; reflexivity|].
  split; [rewrite Hw, <- Hrec; vm_compute; reflexivity|]. split; [rewrite <- Hrec; vm_compute; reflexivity|]. reflexivity.
Defined.
