(* ===== verification/SuffixBuilder.v ===== *)
(** * The suffix dictionary's builder ([src/suffix_fst/builder_v3.rs])

    [SuffixFstBuilderV3] takes chunks and words, keeps one entry per suffix in
    a shared byte buffer, and [build] sorts the entries, groups them by key
    and writes one parent record per key.  The transducer itself
    ([lucivy-fst]) is represented by the list of the pairs inserted into it,
    with the check of the order of the keys that [insert] makes.
    [str::to_lowercase], the Unicode tables of the standard library, is a
    parameter. *)
From S2P Require Import Prelude Ordering Text ParentRecord.
Import text parents.

Module builder.

Definition MAX_CHUNK_BYTES : Z := 256.
Definition MAX_ORDINAL : Z := Z.shiftl 1 28 - 1.

(** An entry: where its key starts in the buffer, the key's length, and the
    parent; the overlap bytes follow the key. *)
Abbreviation Entry := (Z * Z * ParentEntryV3)%type.

Record SuffixFstBuilderV3 := {
  key_buf : list Z;
  entries : list Entry;
  min_suffix_len : Z;
  num_terms : Z;
  max_parents : Z;
  max_ordinal : Z;
}.

Definition with_min_suffix_len (min : Z) : SuffixFstBuilderV3 :=
  {| key_buf := []; entries := []; min_suffix_len := min; num_terms := 0; max_parents := 0;
     max_ordinal := MAX_ORDINAL |}.

Definition set_max_ordinal (b : SuffixFstBuilderV3) (max : Z) : SuffixFstBuilderV3 :=
  {| key_buf := key_buf b; entries := entries b; min_suffix_len := min_suffix_len b;
     num_terms := num_terms b; max_parents := max_parents b; max_ordinal := max |}.

Definition is_utf8_char_boundary (bytes : list Z) (i : Z) : out bool :=
  if #bytes <=? i then Ret true
  else b ← index bytes i; Ret (negb (Z.land b 0xC0 =? 0x80)).

(** [while n > 0 && !s.is_char_boundary(n) { n -= 1 }]. *)
Fixpoint floor_boundary (s : list Z) (n : nat) : nat :=
  match n with
  | O => O
  | S m => if is_char_boundary s (Z.of_nat n) then n else floor_boundary s m
  end.

(** The key of one suffix and the overlap bytes behind it, and the entry. *)
Definition push_suffix (b : SuffixFstBuilderV3) (prefix : Z) (suffix overlap_bytes : list Z)
    (parent : ParentEntryV3) : SuffixFstBuilderV3 :=
  let key_start := as_u32 #(key_buf b) in
  let buf := key_buf b ++ [prefix] ++ suffix in
  let key_len := sub32 (as_u32 #buf) key_start in
  {| key_buf := buf ++ overlap_bytes;
     entries := entries b ++ [(key_start, key_len, parent)];
     min_suffix_len := min_suffix_len b; num_terms := num_terms b; max_parents := max_parents b;
     max_ordinal := max_ordinal b |}.

(** The loop over the suffixes of [bytes], shared by chunks and words:
    [prefix_of] is the partition of a suffix, [parent_of] its parent. *)
Fixpoint suffix_loop (sis : list Z) (b : SuffixFstBuilderV3) (bytes overlap_bytes : list Z)
    (prefix_of : Z → Z) (parent_of : Z → ParentEntryV3) : out SuffixFstBuilderV3 :=
  match sis with
  | [] => Ret b
  | si :: sis =>
      boundary ← is_utf8_char_boundary bytes si;
      if (0 <? si) && negb boundary then suffix_loop sis b bytes overlap_bytes prefix_of parent_of
      else if (0 <? si) && (#bytes - si + #overlap_bytes <? min_suffix_len b) then Ret b
      else
        suffix ← slice_from bytes si;
        suffix_loop sis (push_suffix b (prefix_of si) suffix overlap_bytes (parent_of si))
          bytes overlap_bytes prefix_of parent_of
  end.

Section Lowercase.
Context (to_lowercase : list Z → list Z).

(** The overlap as a record holds it: lower case, cut to four bytes at a
    character boundary. *)
Definition overlap_bytes_of (overlap_text : list Z) : list Z :=
  let lower_overlap := to_lowercase overlap_text in
  let ov_end := floor_boundary lower_overlap
                  (Z.to_nat (Z.min (str_len lower_overlap) MAX_OVERLAP_BYTES)) in
  take ov_end (flat_map utf8 lower_overlap).

Definition add_token_with_content_overlap (b : SuffixFstBuilderV3) (extended_token : list Z)
    (raw_ordinal own_len sep_len overlap_len : Z) (is_word_start : bool) : out SuffixFstBuilderV3 :=
  let split := Z.of_nat (floor_boundary extended_token
                 (Z.to_nat (saturating_sub (str_len extended_token) overlap_len))) in
  own ← str_slice extended_token 0 split;
  ov ← str_from extended_token split;
  let extended_bytes := flat_map utf8 (to_lowercase own) in
  let own_end := #extended_bytes in
  let max_si := Z.min own_end MAX_CHUNK_BYTES in
  let overlap_bytes := overlap_bytes_of ov in
  suffix_loop (range 0 max_si) b extended_bytes overlap_bytes
    (λ si, if si =? 0 then SI0_PREFIX else SI_REST_PREFIX)
    (λ si, {| raw_ordinal := raw_ordinal; sti := as_u16 si; own_len := own_len; sep_len := sep_len;
              overlap_len := as_u8 #overlap_bytes; overlap := replicate 4 0;
              is_word_start := is_word_start |}).

Definition add_token (b : SuffixFstBuilderV3) (extended_token : list Z)
    (raw_ordinal own_len sep_len overlap_len : Z) (is_word_start : bool) : out SuffixFstBuilderV3 :=
  add_token_with_content_overlap b extended_token raw_ordinal own_len sep_len overlap_len is_word_start.

Definition add_word_stripped (b : SuffixFstBuilderV3) (word_content content_overlap : list Z)
    (first_ordinal first_sep_len : Z) (is_word_start : bool) : out SuffixFstBuilderV3 :=
  let content_bytes := flat_map utf8 (to_lowercase word_content) in
  let overlap_bytes := overlap_bytes_of content_overlap in
  if #content_bytes =? 0 then Ret b
  else
    let content_len := Z.min #content_bytes (OWN_LEN_MASK - first_sep_len) in
    content_bytes ← slice content_bytes 0 content_len;
    let max_si := Z.min content_len MAX_CHUNK_BYTES in
    suffix_loop (range 0 max_si) b content_bytes overlap_bytes (λ _, SI_STRIPPED_PREFIX)
      (λ si, {| raw_ordinal := first_ordinal; sti := as_u16 si;
                own_len := as_u16 (content_len + first_sep_len); sep_len := first_sep_len;
                overlap_len := as_u8 #overlap_bytes; overlap := replicate 4 0;
                is_word_start := is_word_start |}).
End Lowercase.

(** ** [build] *)

(** The bytes of a key in the buffer, for the comparisons.  A key outside the
    buffer makes the source panic in a comparison; here it compares as empty
    and the main loop, which takes the same slice, panics. *)
Definition key_at (buf : list Z) (start len : Z) : list Z :=
  match slice buf start (add32 start len) with Ret k => k | _ => [] end.

(** [u64::from_be_bytes]. *)
Definition from_be_bytes (l : list Z) : Z := fold_left (λ acc b, acc * 256 + b) l 0.

Definition prefix8 (buf : list Z) (start len : Z) : out Z :=
  let n := Z.min len 8 in
  bytes ← slice buf start (start + n);
  Ret (from_be_bytes (bytes ++ replicate (Z.to_nat (8 - n)) 0)).

Abbreviation Keyed := (Z * Z * Z * ParentEntryV3)%type.

Definition then_ (c d : comparison) : comparison := match c with Eq => d | _ => c end.

(** The comparison of [sort_unstable_by]. *)
Definition keyed_cmp (buf : list Z) (a b : Keyed) : comparison :=
  let '(pa, sa, la, ea) := a in
  let '(pb, sb, lb, eb) := b in
  then_ (pa ?= pb) (then_ (lex_cmp (key_at buf sa la) (key_at buf sb lb))
    (then_ (raw_ordinal ea ?= raw_ordinal eb) (sti ea ?= sti eb))).

Definition keyed_le (buf : list Z) (a b : Keyed) : Prop := keyed_cmp buf a b ≠ Gt.

#[export] Instance keyed_le_dec buf a b : Decision (keyed_le buf a b).
Proof. unfold keyed_le. apply _. Defined.

(** The test of [dedup_by]: the later element [a] repeats the kept one [b]. *)
Definition keyed_same (buf : list Z) (a b : Keyed) : bool :=
  let '(pa, sa, la, ea) := a in
  let '(pb, sb, lb, eb) := b in
  (pa =? pb) && bytes_eqb (key_at buf sa la) (key_at buf sb lb) &&
  (raw_ordinal ea =? raw_ordinal eb) && (sti ea =? sti eb).

(** [Vec::dedup_by] from the last element kept on. *)
Fixpoint dedup_from {A} (same : A → A → bool) (last : A) (l : list A) : list A :=
  match l with
  | [] => []
  | a :: l => if same a last then dedup_from same last l else a :: dedup_from same a l
  end.
Definition dedup_by {A} (same : A → A → bool) (l : list A) : list A :=
  match l with [] => [] | a :: l => a :: dedup_from same a l end.

(** The end of the group of the key at [i]. *)
Fixpoint key_end (fuel : nat) (buf : list Z) (es : list Entry) (key : list Z) (j : Z) : out Z :=
  match fuel with
  | O => OutOfFuel
  | S fuel =>
      if j <? #es then
        '(js, jl, _) ← index es j;
        kj ← slice buf js (add32 js jl);
        if bytes_eqb kj key then key_end fuel buf es key (j + 1) else Ret j
      else Ret j
  end.

Inductive BuildError :=
| OrdinalExceeds (ordinal : Z)
| OverlapExceeds (overlap_len : Z)
| FieldsExceed (own_len sti : Z)
| DuplicateKey (got : list Z)
| OutOfOrder (previous got : list Z).

Inductive result (A : Type) :=
| Ok (a : A)
| Err (e : BuildError).
Arguments Ok {A} a.
Arguments Err {A} e.

(** The checks of one parent, in order. *)
Definition check_parent (max_ordinal : Z) (p : ParentEntryV3) : option BuildError :=
  if max_ordinal <? raw_ordinal p then Some (OrdinalExceeds (raw_ordinal p))
  else if MAX_OVERLAP_BYTES <? overlap_len p then Some (OverlapExceeds (overlap_len p))
  else if (OWN_LEN_MASK <? own_len p) || (STI_MASK <? sti p) then Some (FieldsExceed (own_len p) (sti p))
  else None.

Fixpoint first_error (max_ordinal : Z) (es : list Entry) : option BuildError :=
  match es with
  | [] => None
  | (_, _, p) :: es =>
      match check_parent max_ordinal p with
      | Some e => Some e
      | None => first_error max_ordinal es
      end
  end.

(** The parent with its overlap bytes copied from behind the key. *)
Definition fill_overlap (buf : list Z) (e : Entry) : out ParentEntryV3 :=
  let '(start, len, p) := e in
  let n := Z.min (overlap_len p) MAX_OVERLAP_BYTES in
  let from := add32 start len in
  bytes ← slice buf from (from + n);
  Ret {| raw_ordinal := raw_ordinal p; sti := sti p; own_len := own_len p; sep_len := sep_len p;
         overlap_len := overlap_len p; overlap := bytes ++ drop (Z.to_nat n) (overlap p);
         is_word_start := is_word_start p |}.

(** [MapBuilder::insert], on the pairs inserted so far. *)
Definition fst_insert (fst_ : list (list Z * Z)) (key : list Z) (val : Z) : result (list (list Z * Z)) :=
  match last fst_ with
  | Some (prev, _) =>
      if bytes_eqb key prev then Err (DuplicateKey key)
      else match lex_cmp key prev with
           | Lt => Err (OutOfOrder prev key)
           | _ => Ok (fst_ ++ [(key, val)])
           end
  | None => Ok (fst_ ++ [(key, val)])
  end.

Record Built := {
  bt_fst : list (list Z * Z);
  bt_table : list Z;
  bt_num_terms : Z;
  bt_max_parents : Z;
}.

(** The main loop, one turn per key. *)
Fixpoint build_loop (fuel : nat) (buf : list Z) (es : list Entry) (max_ordinal i : Z) (st : Built)
    : out (result Built) :=
  match fuel with
  | O => OutOfFuel
  | S fuel =>
      if i <? #es then
        '(ks, kl, _) ← index es i;
        key ← slice buf ks (add32 ks kl);
        j ← key_end (S (length es)) buf es key (i + 1);
        group ← slice es i j;
        match first_error max_ordinal group with
        | Some e => Ret (Err e)
        | None =>
            scratch ← mapM_out (fill_overlap buf) group;
            record ← encode_parent_record_v8 scratch key;
            let '(table, offset) := table_add (bt_table st) record in
            match fst_insert (bt_fst st) key offset with
            | Err e => Ret (Err e)
            | Ok fst_ =>
                build_loop fuel buf es max_ordinal j
                  {| bt_fst := fst_; bt_table := table; bt_num_terms := bt_num_terms st + 1;
                     bt_max_parents := Z.max (bt_max_parents st) (j - i) |}
            end
        end
      else Ret (Ok st)
  end.

(** [sort_unstable_by] may leave entries of one key, ordinal and index in any
    order, so that [dedup_by] keeps any of them; this sort is stable and keeps
    the one added first. *)
Definition sorted_entries (b : SuffixFstBuilderV3) : out (list Entry) :=
  let buf := key_buf b in
  keyed ← mapM_out (λ '(start, len, parent), p ← prefix8 buf start len; Ret (p, start, len, parent))
            (entries b);
  let keyed := merge_sort (keyed_le buf) keyed in
  let keyed := dedup_by (keyed_same buf) keyed in
  Ret (map (λ '(_, s, l, p), (s, l, p)) keyed).

Definition build (b : SuffixFstBuilderV3) : out (result Built) :=
  es ← sorted_entries b;
  build_loop (S (length es)) (key_buf b) es (max_ordinal b) 0
    {| bt_fst := []; bt_table := []; bt_num_terms := 0; bt_max_parents := max_parents b |}.

End builder.
