(* ===== verification/SuffixBuild.v ===== *)
(** * The builder's entries

    What the buffer and the entry vector of [SuffixFstBuilderV3] hold, as a
    list of keys with their parents; that a call of [add_token] or
    [add_word_stripped] appends the suffixes of its text; and that the
    8-byte prefixes [build] compares first sort as the keys do. *)
From S2P Require Import Prelude Ordering Text ParentRecord ParentCodec SuffixBuilder Varint ParentRecordProofs ParentTable.
Import text parents builder.

(** ** The entries in the buffer *)

Definition with_overlap (p : ParentEntryV3) (ov : list Z) : ParentEntryV3 :=
  {| raw_ordinal := raw_ordinal p; sti := sti p; own_len := own_len p; sep_len := sep_len p;
     overlap_len := overlap_len p; overlap := ov ++ replicate (4 - length ov) 0;
     is_word_start := is_word_start p |}.

(** The entry [e] of [buf] is the key and the parent of [kq]. *)
Definition entry_is (buf : list Z) (e : Entry) (kq : list Z * ParentEntryV3) : Prop :=
  let '(s, l, p) := e in
  ∃ ov rest, At buf s (fst kq ++ ov ++ rest) ∧ l = #(fst kq) ∧ overlap_len p = #ov ∧ #ov ≤ 4 ∧
    overlap p = replicate 4 0 ∧ snd kq = with_overlap p ov.

Definition binv (b : SuffixFstBuilderV3) (kqs : list (list Z * ParentEntryV3)) : Prop :=
  Forall2 (entry_is (key_buf b)) (entries b) kqs.

Lemma At_grow {A} (data : list A) pos rest x : At data pos rest → At (data ++ x) pos (rest ++ x).
Proof.
  intros [Hp Hd]. split; [rewrite len_app; pose proof (len_nonneg x); lia|].
  rewrite drop_app_le by (unfold len in Hp; lia). by rewrite Hd.
Qed.

Lemma entry_is_grow buf x e kq : entry_is buf e kq → entry_is (buf ++ x) e kq.
Proof.
  destruct e as [[s l] p]. intros (ov & rest & Hat & H). exists ov, (rest ++ x). split; [|done].
  apply (At_grow _ _ _ x) in Hat. by rewrite <- !app_assoc in Hat.
Qed.

(** ** One suffix *)

Lemma push_suffix_spec b kqs prefix suffix ov p :
  binv b kqs → #(key_buf (push_suffix b prefix suffix ov p)) < 2 ^ 32 →
  overlap_len p = #ov → #ov ≤ 4 → overlap p = replicate 4 0 →
  binv (push_suffix b prefix suffix ov p) (kqs ++ [(prefix :: suffix, with_overlap p ov)]).
Proof.
  intros Hb Hlt Ho Hov Hz. unfold binv, push_suffix in *. cbn [key_buf entries] in *.
  pose proof (len_nonneg (key_buf b)). pose proof (len_nonneg ov). pose proof (len_nonneg suffix).
  rewrite <- app_assoc, !len_app, len_cons in Hlt. rewrite len_nil in Hlt.
  apply Forall2_app.
  - eapply Forall2_impl; [exact Hb|]. intros e kq He. rewrite <- !app_assoc. by apply entry_is_grow.
  - constructor; [|constructor]. exists ov, []. rewrite !as_u32_id by (unfold fits; lens; lia).
    split; [|split; [|done]].
    + rewrite app_nil_r, <- !app_assoc. apply At_app.
    + cbn [fst]. unfold sub32. rewrite !len_app, len_cons, len_nil, len_cons.
      replace (#(key_buf b) + (1 + 0 + #suffix) - #(key_buf b)) with (1 + #suffix) by lia.
      apply as_u32_id. unfold fits. lia.
Qed.

(** ** The suffixes of a text *)

Definition boundary_at (bytes : list Z) (i : Z) : bool :=
  match is_utf8_char_boundary bytes i with Ret b => b | _ => false end.

Lemma is_utf8_char_boundary_ret bytes i :
  0 ≤ i → is_utf8_char_boundary bytes i = Ret (boundary_at bytes i).
Proof.
  intros Hi. unfold boundary_at, is_utf8_char_boundary. destruct (Z.leb_spec #bytes i); [done|].
  destruct (index_in bytes i) as (x & -> & _); [lia|]. done.
Qed.

(** Which suffixes are indexed: the whole text, and every suffix that starts
    a character and is long enough with its overlap. *)
Definition kept (min : Z) (bytes ov : list Z) (si : Z) : bool :=
  (si =? 0) || (boundary_at bytes si && (min <=? #bytes - si + #ov)).

Definition suffix_entries (min m : Z) (bytes ov : list Z) (prefix_of : Z → Z) (parent_of : Z → ParentEntryV3)
    : list (list Z * ParentEntryV3) :=
  map (λ si, (prefix_of si :: drop (Z.to_nat si) bytes, with_overlap (parent_of si) ov))
    (List.filter (kept min bytes ov) (range 0 m)).

Lemma filter_none {A} (f : A → bool) l : (∀ x, x ∈ l → f x = false) → List.filter f l = [].
Proof.
  induction l as [|x l IH]; intros H; [done|]. simpl. rewrite (H x) by by left. apply IH. intros y Hy. apply H. by right.
Qed.

(** Growth of the buffer, and what a call leaves alone. *)
Definition grows (b b' : SuffixFstBuilderV3) : Prop :=
  #(key_buf b) ≤ #(key_buf b') ∧ min_suffix_len b' = min_suffix_len b ∧ max_ordinal b' = max_ordinal b ∧
  max_parents b' = max_parents b.

#[export] Instance grows_po : PreOrder grows.
Proof. split; [done|]. intros a b c (? & ? & ? & ?) (? & ? & ? & ?). split; [lia|]. split; [congruence|]. split; congruence. Qed.

Lemma suffix_loop_spec bytes ov prefix_of parent_of m :
  m ≤ #bytes → #ov ≤ 4 →
  (∀ si, overlap_len (parent_of si) = #ov ∧ overlap (parent_of si) = replicate 4 0) →
  ∀ n a b, 0 ≤ a → m - a = Z.of_nat n →
  ∃ b', suffix_loop (range a m) b bytes ov prefix_of parent_of = Ret b' ∧ grows b b' ∧
    #(key_buf b) + #(List.filter (kept (min_suffix_len b) bytes ov) (range a m)) ≤ #(key_buf b') ∧
    ∀ kqs, binv b kqs → #(key_buf b') < 2 ^ 32 →
      binv b' (kqs ++ map (λ si, (prefix_of si :: drop (Z.to_nat si) bytes, with_overlap (parent_of si) ov))
                        (List.filter (kept (min_suffix_len b) bytes ov) (range a m))).
Proof.
  intros Hm Hov Hp. induction n as [|n IH]; intros a b Ha Hn.
  { rewrite range_nil by lia. exists b. split; [done|]. split; [done|]. split; [simpl; rewrite len_nil; lia|].
    intros kqs Hb _. simpl. by rewrite app_nil_r. }
  rewrite range_cons by lia. cbn [suffix_loop]. rewrite is_utf8_char_boundary_ret, bind_ret by done.
  destruct ((0 <? a) && negb (boundary_at bytes a)) eqn:E1.
  { apply andb_true_iff in E1 as [H1 H2]. apply negb_true_iff in H2.
    destruct (IH (a + 1) b ltac:(lia) ltac:(lia)) as (b' & -> & Hg & Hn' & H). exists b'. split; [done|]. split; [done|].
    cbn [List.filter]. replace (kept (min_suffix_len b) bytes ov a) with false; [by split|].
    unfold kept. rewrite H2. by replace (a =? 0) with false by lia. }
  destruct ((0 <? a) && (#bytes - a + #ov <? min_suffix_len b)) eqn:E2.
  { apply andb_true_iff in E2 as [H1 H2]. exists b. split; [done|]. split; [done|].
    rewrite <- range_cons, filter_none by lia || (intros si Hsi%elem_of_range; unfold kept; lia).
    split; [rewrite len_nil; lia|]. intros kqs Hb _. simpl. by rewrite app_nil_r. }
  unfold slice_from. rewrite slice_ret by lia. rewrite bind_ret, take_ge by (rewrite length_drop; unfold len in *; lia).
  set (b1 := push_suffix b (prefix_of a) (drop (Z.to_nat a) bytes) ov (parent_of a)).
  destruct (IH (a + 1) b1 ltac:(lia) ltac:(lia)) as (b' & -> & Hg & Hn' & H). exists b'. split; [done|].
  assert (#(key_buf b) + 1 ≤ #(key_buf b1)) as Hk1.
  { unfold b1, push_suffix. cbn [key_buf]. rewrite !len_app.
    pose proof (len_nonneg (drop (Z.to_nat a) bytes)). pose proof (len_nonneg ov). rewrite len_cons, len_nil. lia. }
  assert (grows b b1) as Hg1 by (split; [lia|done]).
  split; [by etrans|]. cbn [List.filter]. replace (kept (min_suffix_len b) bytes ov a) with true; [split|].
  - change (min_suffix_len b1) with (min_suffix_len b) in Hn'. rewrite len_cons. lia.
  - intros kqs Hb Hlt. destruct (Hp a) as [Hp1 Hp2].
    specialize (H (kqs ++ [(prefix_of a :: drop (Z.to_nat a) bytes, with_overlap (parent_of a) ov)])).
    rewrite <- app_assoc in H. apply H; [|done].
    destruct Hg as (? & _). apply push_suffix_spec; [done|fold b1; lia|done..].
  - symmetry. unfold kept. destruct (Z.eqb_spec a 0) as [->|]; [done|]. replace (0 <? a) with true in * by lia.
    simpl in E1, E2. apply negb_false_iff in E1. rewrite E1. simpl. lia.
Qed.

(** ** Tokens and words *)

Lemma floor_boundary_spec s n :
  (floor_boundary s n ≤ n)%nat ∧ is_char_boundary s (Z.of_nat (floor_boundary s n)) = true.
Proof.
  induction n as [|n [IH1 IH2]]; [split; [done|]; by destruct s|]. cbn [floor_boundary].
  destruct (is_char_boundary s (Z.of_nat (S n))) eqn:E; [done|]. split; [lia|done].
Qed.

(** Nothing between the index and the boundary found is one. *)
Lemma floor_boundary_max s n m :
  (floor_boundary s n < m ≤ n)%nat → is_char_boundary s (Z.of_nat m) = false.
Proof.
  induction n as [|n IH]; intros Hm; [simpl in Hm; lia|]. cbn [floor_boundary] in Hm.
  destruct (is_char_boundary s (Z.of_nat (S n))) eqn:E; [lia|]. destruct (decide (m = S n)) as [->|]; [done|]. apply IH. lia.
Qed.

(** Where a token's own text ends and its overlap starts. *)
Definition cut_token (extended_token : list Z) (overlap_len : Z) : list Z * list Z :=
  let split := floor_boundary extended_token (Z.to_nat (saturating_sub (str_len extended_token) overlap_len)) in
  match split_at (Z.of_nat split) extended_token with Some c => c | None => (extended_token, []) end.

Section Calls.
Context (to_lowercase : list Z → list Z).

Lemma len_overlap_bytes text : #(overlap_bytes_of to_lowercase text) ≤ 4.
Proof using.
  unfold overlap_bytes_of, MAX_OVERLAP_BYTES. set (s := to_lowercase text). rewrite len_take.
  destruct (floor_boundary_spec s (Z.to_nat (Z.min (str_len s) 4))) as [H _]. lia.
Qed.

(** A call of the builder's interface. *)
Inductive call :=
| Token (extended_token : list Z) (raw_ordinal own_len sep_len overlap_len : Z) (is_word_start : bool)
| Word (word_content content_overlap : list Z) (first_ordinal first_sep_len : Z) (is_word_start : bool).

Definition apply_call (b : SuffixFstBuilderV3) (c : call) : out SuffixFstBuilderV3 :=
  match c with
  | Token t o w s v ws => add_token to_lowercase b t o w s v ws
  | Word t v o s ws => add_word_stripped to_lowercase b t v o s ws
  end.

(** The keys and parents a call stands for: every indexed suffix of the
    lower-case text, under its partition. *)
Definition call_entries (min : Z) (c : call) : list (list Z * ParentEntryV3) :=
  match c with
  | Token t o w s v ws =>
      let bytes := flat_map utf8 (to_lowercase (fst (cut_token t v))) in
      let ov := overlap_bytes_of to_lowercase (snd (cut_token t v)) in
      suffix_entries min (Z.min #bytes MAX_CHUNK_BYTES) bytes ov
        (λ si, if si =? 0 then SI0_PREFIX else SI_REST_PREFIX)
        (λ si, {| raw_ordinal := o; sti := as_u16 si; own_len := w; sep_len := s; overlap_len := as_u8 #ov;
                  overlap := replicate 4 0; is_word_start := ws |})
  | Word t v o s ws =>
      let all := flat_map utf8 (to_lowercase t) in
      let bytes := take (Z.to_nat (OWN_LEN_MASK - s)) all in
      let ov := overlap_bytes_of to_lowercase v in
      suffix_entries min (Z.min #bytes MAX_CHUNK_BYTES) bytes ov (λ _, SI_STRIPPED_PREFIX)
        (λ si, {| raw_ordinal := o; sti := as_u16 si; own_len := as_u16 (#bytes + s); sep_len := s;
                  overlap_len := as_u8 #ov; overlap := replicate 4 0; is_word_start := ws |})
  end.

(** A call extends the builder by its entries. *)
Definition extends (b b' : SuffixFstBuilderV3) (kqs : list (list Z * ParentEntryV3)) : Prop :=
  grows b b' ∧ #(key_buf b) + #kqs ≤ #(key_buf b') ∧
  ∀ kqs0, binv b kqs0 → #(key_buf b') < 2 ^ 32 → binv b' (kqs0 ++ kqs).

Lemma cut_token_spec t v :
  let n := floor_boundary t (Z.to_nat (saturating_sub (str_len t) v)) in
  t = fst (cut_token t v) ++ snd (cut_token t v) ∧ Z.of_nat n = str_len (fst (cut_token t v)).
Proof using.
  intros n. destruct (floor_boundary_spec t (Z.to_nat (saturating_sub (str_len t) v))) as [_ Hb].
  unfold cut_token. fold n in Hb |- *. unfold is_char_boundary in Hb.
  destruct (split_at (Z.of_nat n) t) as [[a c]|] eqn:E; [|done]. by apply split_at_inv in E as [-> ->].
Qed.

Lemma suffix_loop_extends b bytes ov prefix_of parent_of m :
  0 ≤ m ≤ #bytes → #ov ≤ 4 → (∀ si, overlap_len (parent_of si) = #ov ∧ overlap (parent_of si) = replicate 4 0) →
  ∃ b', suffix_loop (range 0 m) b bytes ov prefix_of parent_of = Ret b' ∧
    extends b b' (suffix_entries (min_suffix_len b) m bytes ov prefix_of parent_of).
Proof using.
  intros Hm Hov Hp. destruct (suffix_loop_spec bytes ov prefix_of parent_of m ltac:(lia) Hov Hp (Z.to_nat m) 0 b)
    as (b' & E & Hg & Hn & H); [lia..|]. exists b'. split; [done|]. split; [done|]. split; [|done].
  unfold suffix_entries. by rewrite len_map.
Qed.

Lemma apply_call_spec b c :
  match c with Word _ _ _ s _ => fits 8 s | Token _ _ _ _ _ _ => True end →
  ∃ b', apply_call b c = Ret b' ∧ extends b b' (call_entries (min_suffix_len b) c).
Proof using.
  destruct c as [t o w s v ws|t v o s ws]; intros Hc; cbn [apply_call call_entries].
  - destruct (cut_token_spec t v) as [Ht Hn]. unfold add_token, add_token_with_content_overlap. rewrite Hn.
    set (own := fst (cut_token t v)) in *. set (ovt := snd (cut_token t v)) in *.
    pose proof (str_slice_app [] own ovt) as E1. pose proof (str_from_app own ovt) as E2.
    change (str_len []) with 0 in E1. rewrite app_nil_l, Z.add_0_l in E1. rewrite <- Ht in E1, E2.
    rewrite E1, bind_ret, E2, bind_ret.
    pose proof (len_overlap_bytes ovt) as Hov. pose proof (len_nonneg (overlap_bytes_of to_lowercase ovt)).
    apply suffix_loop_extends; [|done|].
    + pose proof (len_nonneg (flat_map utf8 (to_lowercase own))). unfold MAX_CHUNK_BYTES. lia.
    + intros si. simpl. by rewrite as_u8_id by (widths; lia).
  - unfold add_word_stripped. set (all := flat_map utf8 (to_lowercase t)).
    pose proof (len_overlap_bytes v) as Hov. pose proof (len_nonneg (overlap_bytes_of to_lowercase v)).
    pose proof (len_nonneg all). destruct (Z.eqb_spec #all 0) as [E|E].
    { exists b. split; [done|]. assert (all = []) as -> by (destruct all; [done|]; rewrite len_cons in E; pose proof (len_nonneg all); lia).
      rewrite take_nil. split; [done|]. unfold suffix_entries. split; [simpl; rewrite len_nil; lia|].
      intros kqs Hb _. simpl. by rewrite app_nil_r. }
    rewrite slice_ret, bind_ret by (unfold fits, OWN_LEN_MASK in *; change (Z.shiftl 1 14) with 16384; lia).
    assert (take (Z.to_nat (Z.min #all (OWN_LEN_MASK - s) - 0)) (drop (Z.to_nat 0) all) = take (Z.to_nat (OWN_LEN_MASK - s)) all) as ->.
    { rewrite drop_0, Z.sub_0_r. destruct (Z.min_spec #all (OWN_LEN_MASK - s)) as [[? ->]|[? ->]]; [|done].
      rewrite !take_ge; [done|unfold len in *; lia..]. }
    set (bytes := take _ all). assert (Z.min #all (OWN_LEN_MASK - s) = #bytes) as ->.
    { unfold bytes. rewrite len_take. unfold fits, OWN_LEN_MASK in *. change (Z.shiftl 1 14) with 16384. lia. }
    apply suffix_loop_extends; [|done|].
    + pose proof (len_nonneg bytes). unfold MAX_CHUNK_BYTES. lia.
    + intros si. simpl. by rewrite as_u8_id by (widths; lia).
Qed.

(** A sequence of calls. *)
Lemma apply_calls_spec cs : ∀ b,
  Forall (λ c, match c with Word _ _ _ s _ => fits 8 s | Token _ _ _ _ _ _ => True end) cs →
  ∃ b', foldM apply_call b cs = Ret b' ∧ extends b b' (flat_map (call_entries (min_suffix_len b)) cs).
Proof using.
  induction cs as [|c cs IH]; intros b Hc.
  { exists b. split; [done|]. split; [done|]. split; [simpl; rewrite len_nil; lia|]. intros kqs Hb _. by rewrite app_nil_r. }
  apply Forall_cons in Hc as [Hc Hcs]. cbn [foldM flat_map].
  destruct (apply_call_spec b c Hc) as (b1 & -> & Hg1 & Hn1 & H1). rewrite bind_ret.
  destruct (IH b1 Hcs) as (b2 & -> & Hg2 & Hn2 & H2). exists b2. split; [done|]. split; [by etrans|].
  destruct Hg1 as (Hl1 & Em & _). rewrite Em in *. split; [rewrite len_app; lia|].
  intros kqs Hb Hlt. rewrite app_assoc. apply H2; [|done].
  apply H1; [done|]. destruct Hg2 as (? & _). lia.
Qed.
End Calls.

(** ** The suffix dictionary's builder: [build]

    The order of the comparisons, the entries sorted and stripped of
    repetitions, and the loop that writes one record per key. *)
Import varint text parents builder.

(** ** Comparisons *)

Record cmp_ok {A} (c : A → A → comparison) : Prop := {
  cmp_opp : ∀ a b, c b a = CompOpp (c a b);
  cmp_lt : ∀ a b d, c a b = Lt → c b d = Lt → c a d = Lt;
  cmp_eq : ∀ a b d, c a b = Eq → c a d = c b d;
}.

Lemma compare_ok : cmp_ok Z.compare.
Proof.
  split.
  - intros a b. apply Z.compare_antisym.
  - intros a b d. rewrite !Z.compare_lt_iff. lia.
  - by intros a b d ->%Z.compare_eq.
Qed.

Lemma lex_cmp_ok : cmp_ok lex_cmp.
Proof.
  split.
  - intros a b. apply lex_cmp_opp.
  - intros a b d. apply lex_lt_trans.
  - by intros a b d ->%lex_cmp_eq.
Qed.

Lemma on_ok {A B} (f : A → B) c : cmp_ok c → cmp_ok (λ a b, c (f a) (f b)).
Proof. intros [H1 H2 H3]. split; eauto. Qed.

Lemma then_ok {A} (c d : A → A → comparison) : cmp_ok c → cmp_ok d → cmp_ok (λ a b, then_ (c a b) (d a b)).
Proof.
  intros [O1 L1 E1] [O2 L2 E2]. split.
  - intros a b. rewrite (O1 a b). destruct (c a b); simpl; [apply O2|done..].
  - intros a b e Hab Hbe. destruct (c a b) eqn:Eab; simpl in Hab; [|clear Hab|done].
    + rewrite (E1 _ _ e Eab). destruct (c b e); simpl in *; [by eapply L2|done..].
    + destruct (c b e) eqn:Ebe; simpl in Hbe; [|by rewrite (L1 _ _ _ Eab Ebe)|done].
      assert (c e b = Eq) as Eeb by (by rewrite O1, Ebe). pose proof (E1 _ _ a Eeb) as H.
      rewrite (O1 a e), (O1 a b), Eab in H. destruct (c a e); done.
  - intros a b e H. destruct (c a b) eqn:Eab; simpl in H; [|done..]. by rewrite (E1 _ _ e Eab), (E2 _ _ e H).
Qed.

Lemma keyed_cmp_ok buf : cmp_ok (keyed_cmp buf).
Proof.
  assert (cmp_ok (λ a b : Keyed, then_ (fst (fst (fst a)) ?= fst (fst (fst b)))
    (then_ (lex_cmp (key_at buf (snd (fst (fst a))) (snd (fst a))) (key_at buf (snd (fst (fst b))) (snd (fst b))))
      (then_ (raw_ordinal (snd a) ?= raw_ordinal (snd b)) (sti (snd a) ?= sti (snd b)))))) as H.
  { apply then_ok; [apply (on_ok (λ a : Keyed, fst (fst (fst a)))), compare_ok|].
    apply then_ok; [apply (on_ok (λ a : Keyed, key_at buf (snd (fst (fst a))) (snd (fst a)))), lex_cmp_ok|].
    apply then_ok; [apply (on_ok (λ a : Keyed, raw_ordinal (snd a)))|apply (on_ok (λ a : Keyed, sti (snd a)))]; apply compare_ok. }
  destruct H as [H1 H2 H3]. split.
  - intros [[[pa sa] la] ea] [[[pb sb] lb] eb]. exact (H1 (pa, sa, la, ea) (pb, sb, lb, eb)).
  - intros [[[pa sa] la] ea] [[[pb sb] lb] eb] [[[pd sd] ld] ed].
    exact (H2 (pa, sa, la, ea) (pb, sb, lb, eb) (pd, sd, ld, ed)).
  - intros [[[pa sa] la] ea] [[[pb sb] lb] eb] [[[pd sd] ld] ed].
    exact (H3 (pa, sa, la, ea) (pb, sb, lb, eb) (pd, sd, ld, ed)).
Qed.

Section SortDedup.
Context {A : Type} (c : A → A → comparison) (Hc : cmp_ok c).

Lemma cmp_refl a : c a a = Eq.
Proof using Hc. pose proof (cmp_opp c Hc a a). by destruct (c a a). Qed.

Lemma cmp_le_trans : Transitive (λ a b, c a b ≠ Gt).
Proof using Hc.
  intros a b d Hab Hbd Had. destruct (c a b) eqn:E; [|clear Hab|done].
  - by rewrite (cmp_eq c Hc _ _ d E) in Had.
  - destruct (c b d) eqn:E'; [|by rewrite (cmp_lt c Hc _ _ _ E E') in Had|done].
    assert (c d b = Eq) as E2 by (by rewrite (cmp_opp c Hc b d), E'). pose proof (cmp_eq c Hc _ _ a E2) as H.
    by rewrite (cmp_opp c Hc a d), (cmp_opp c Hc a b), E, Had in H.
Qed.

Lemma cmp_le_total : Total (λ a b, c a b ≠ Gt).
Proof using Hc. intros a b. rewrite (cmp_opp c Hc a b). destruct (c a b); simpl; auto. Qed.

Lemma dedup_from_spec (same : A → A → bool) (Hsame : ∀ a b, same a b = true ↔ c a b = Eq) l : ∀ last,
  StronglySorted (λ a b, c a b ≠ Gt) (last :: l) →
  let r := dedup_from same last l in
  StronglySorted (λ a b, c a b = Lt) (last :: r) ∧ (∀ x, x ∈ r → x ∈ l) ∧
  (∀ x, x ∈ l → ∃ y, y ∈ last :: r ∧ c x y = Eq).
Proof using Hc.
  induction l as [|x l IH]; intros last Hs; simpl.
  { split; [by repeat constructor|]. split; [done|]. intros x Hx. by apply not_elem_of_nil in Hx. }
  apply StronglySorted_cons in Hs as [Hall Hs]. apply Forall_cons in Hall as [Hlx Hall].
  destruct (same x last) eqn:E.
  - apply Hsame in E. destruct (IH last) as (H1 & H2 & H3).
    { apply StronglySorted_cons in Hs as [_ Hs]. by apply StronglySorted_cons. }
    split; [done|]. split; [set_solver|]. intros y [->|Hy]%elem_of_cons; [|by apply H3]. exists last. split; [by left|done].
  - assert (c x last ≠ Eq) as Hne by (intros H; apply Hsame in H; congruence).
    assert (c last x = Lt) as Hlt.
    { destruct (c last x) eqn:E2; [|done..]. by rewrite (cmp_opp c Hc last x), E2 in Hne. }
    destruct (IH x Hs) as (H1 & H2 & H3). split; [|split; [set_solver|]].
    + apply StronglySorted_cons. split; [|done]. constructor; [done|].
      apply StronglySorted_cons in H1 as [H1 _]. eapply Forall_impl; [exact H1|]. intros y. simpl. by apply (cmp_lt c Hc).
    + intros y [->|Hy]%elem_of_cons; [exists x; split; [set_solver|apply cmp_refl]|].
      destruct (H3 y Hy) as (z & Hz & Hyz). exists z. split; [set_solver|done].
Qed.

Lemma dedup_by_spec (same : A → A → bool) (Hsame : ∀ a b, same a b = true ↔ c a b = Eq) l :
  StronglySorted (λ a b, c a b ≠ Gt) l →
  StronglySorted (λ a b, c a b = Lt) (dedup_by same l) ∧ (∀ x, x ∈ dedup_by same l → x ∈ l) ∧
  (∀ x, x ∈ l → ∃ y, y ∈ dedup_by same l ∧ c x y = Eq).
Proof using Hc.
  destruct l as [|a l]; intros Hs; simpl.
  { split; [constructor|]. split; [done|]. intros x Hx. by apply not_elem_of_nil in Hx. }
  destruct (dedup_from_spec same Hsame l a Hs) as (H1 & H2 & H3). split; [done|]. split; [set_solver|].
  intros x [->|Hx]%elem_of_cons; [exists a; split; [by left|apply cmp_refl]|by apply H3].
Qed.
End SortDedup.

(** ** The 8-byte prefix *)

Lemma from_be_cmp a : ∀ b x y, bytes_ok a → bytes_ok b → length a = length b →
  (fold_left (λ acc b, acc * 256 + b) a x ?= fold_left (λ acc b, acc * 256 + b) b y) = then_ (x ?= y) (lex_cmp a b).
Proof.
  induction a as [|u a IH]; intros [|v b] x y Ha Hb Hl; simpl in Hl; try lia; [cbn [fold_left lex_cmp]; by destruct (x ?= y)|].
  apply Forall_cons in Ha as [Hu Ha]. apply Forall_cons in Hb as [Hv Hb]. cbn [fold_left lex_cmp].
  rewrite IH by (done || lia). unfold fits in *. change (2 ^ 8) with 256 in *.
  destruct (Z.compare_spec x y) as [->|?|?]; simpl.
  - destruct (Z.compare_spec u v) as [->|?|?]; [by rewrite Z.compare_refl|..].
    + by rewrite (proj2 (Z.compare_lt_iff _ _)) by lia.
    + by rewrite (proj2 (Z.compare_gt_iff _ _)) by lia.
  - by rewrite (proj2 (Z.compare_lt_iff _ _)) by lia.
  - by rewrite (proj2 (Z.compare_gt_iff _ _)) by lia.
Qed.

Definition pad8 (n : nat) (k : list Z) : list Z := take n k ++ replicate (n - length k) 0.

Lemma pad8_cmp n : ∀ a b, bytes_ok a → bytes_ok b →
  then_ (lex_cmp (pad8 n a) (pad8 n b)) (lex_cmp a b) = lex_cmp a b.
Proof.
  assert (∀ n (x : list Z), bytes_ok x → lex_cmp (replicate n 0) (pad8 n x) ≠ Gt) as Hz.
  { clear n. induction n as [|n IH]; intros x Hx; [done|]. unfold pad8. destruct x as [|u x].
    - rewrite take_nil. simpl. by rewrite lex_cmp_refl.
    - apply Forall_cons in Hx as [Hu Hx]. cbn [take length Nat.sub replicate app lex_cmp].
      unfold fits in Hu. destruct (Z.compare_spec 0 u); [|done|lia]. apply (IH x Hx). }
  induction n as [|n IH]; intros a b Ha Hb; [done|]. destruct a as [|u a], b as [|v b].
  - by rewrite lex_cmp_refl.
  - specialize (Hz (S n) (v :: b) Hb). unfold pad8 at 1. rewrite take_nil. simpl (length []). rewrite Nat.sub_0_r, app_nil_l.
    simpl (lex_cmp [] _). destruct (lex_cmp (replicate (S n) 0) _); done.
  - specialize (Hz (S n) (u :: a) Ha). unfold pad8 at 2. rewrite take_nil. simpl (length []). rewrite Nat.sub_0_r, app_nil_l.
    simpl (lex_cmp _ []) at 2. rewrite lex_cmp_opp. destruct (lex_cmp (replicate (S n) 0) _); done.
  - apply Forall_cons in Ha as [Hu Ha]. apply Forall_cons in Hb as [Hv Hb]. unfold pad8.
    cbn [take length Nat.sub app lex_cmp]. destruct (Z.compare_spec u v) as [->|?|?]; [apply (IH a b Ha Hb)|done..].
Qed.

(** ** Entries as keys and parents *)

Definition view (buf : list Z) (e : Entry) : list Z * ParentEntryV3 :=
  let '(s, l, p) := e in
  (key_at buf s l, match fill_overlap buf e with Ret q => q | _ => p end).

(** The comparison of [build] without the cached prefix. *)
Definition kq_cmp (a b : list Z * ParentEntryV3) : comparison :=
  then_ (lex_cmp (fst a) (fst b))
    (then_ (raw_ordinal (snd a) ?= raw_ordinal (snd b)) (sti (snd a) ?= sti (snd b))).

Lemma kq_cmp_ok : cmp_ok kq_cmp.
Proof.
  apply then_ok; [apply (on_ok fst), lex_cmp_ok|].
  apply then_ok; [apply (on_ok (λ a : list Z * ParentEntryV3, raw_ordinal (snd a)))|
                  apply (on_ok (λ a : list Z * ParentEntryV3, sti (snd a)))]; apply compare_ok.
Qed.

Section Entries.
Context (buf : list Z) (Hbuf : #buf < 2 ^ 32).

(** What [build] reads of an entry that [entry_is] describes. *)
Lemma entry_reads s l p kq :
  entry_is buf (s, l, p) kq →
  slice buf s (add32 s l) = Ret (fst kq) ∧ key_at buf s l = fst kq ∧
  fill_overlap buf (s, l, p) = Ret (snd kq) ∧ view buf (s, l, p) = kq ∧
  prefix8 buf s l = Ret (from_be_bytes (pad8 8 (fst kq))).
Proof using Hbuf.
  intros (ov & rest & Hat & -> & Ho & Hov & Hz & Hq). destruct kq as [key q]. cbn [fst snd] in *.
  pose proof (At_len _ _ _ Hat) as Hl. rewrite !len_app in Hl. assert (0 ≤ s) as Hs by apply Hat.
  pose proof (len_nonneg key). pose proof (len_nonneg ov). pose proof (len_nonneg rest).
  assert (add32 s #key = s + #key) as Ea by (unfold add32; rewrite as_u32_id; [done|unfold fits; lia]).
  assert (slice buf s (add32 s #key) = Ret key) as Ek by (rewrite Ea; by eapply At_slice).
  assert (key_at buf s #key = key) as Ekey by (unfold key_at; by rewrite Ek).
  assert (fill_overlap buf (s, #key, p) = Ret q) as Ef.
  { unfold fill_overlap. rewrite Ea, Ho, Z.min_l by done. apply At_skip in Hat.
    rewrite (At_slice _ _ _ _ _ Hat), bind_ret by done. rewrite Hq. unfold with_overlap. rewrite Hz, Ho.
    by rewrite len_to_nat, drop_replicate. }
  split; [done|]. split; [done|]. split; [done|]. split; [unfold view; by rewrite Ekey, Ef|].
  unfold prefix8. rewrite slice_ret by lia. rewrite bind_ret. destruct Hat as [_ ->]. unfold pad8. do 2 f_equal.
  replace (s + Z.min #key 8 - s) with (Z.min #key 8) by lia. rewrite take_app.
  replace (Z.to_nat (Z.min #key 8) - length key)%nat with 0%nat by (unfold len; lia). rewrite take_0, app_nil_r.
  destruct (Z.min_spec #key 8) as [[Hm ->]|[Hm ->]].
  - rewrite len_to_nat, firstn_all, take_ge by (unfold len in Hm; lia). do 2 f_equal. unfold len. lia.
  - f_equal. replace (8 - length key)%nat with 0%nat by (unfold len in Hm; lia). done.
Qed.

(** The cached prefix changes no comparison. *)
Lemma keyed_cmp_view e e' kq kq' :
  entry_is buf e kq → entry_is buf e' kq' → bytes_ok (fst kq) → bytes_ok (fst kq') →
  let '(s, l, p) := e in let '(s', l', p') := e' in
  keyed_cmp buf (from_be_bytes (pad8 8 (fst kq)), s, l, p) (from_be_bytes (pad8 8 (fst kq')), s', l', p') =
    kq_cmp kq kq'.
Proof using Hbuf.
  destruct e as [[s l] p], e' as [[s' l'] p']. intros H H' Hb Hb'.
  destruct (entry_reads _ _ _ _ H) as (_ & Ek & _). destruct (entry_reads _ _ _ _ H') as (_ & Ek' & _).
  destruct H as (ov & rest & _ & _ & _ & _ & _ & Eq1). destruct H' as (ov' & rest' & _ & _ & _ & _ & _ & Eq2).
  unfold keyed_cmp, kq_cmp. rewrite Ek, Ek', Eq1, Eq2. unfold from_be_bytes.
  assert (∀ k, bytes_ok k → bytes_ok (pad8 8 k) ∧ length (pad8 8 k) = 8%nat) as Hp.
  { intros k Hk. unfold pad8. split; [apply Forall_app; split; [by apply Forall_take|apply Forall_replicate; done]|].
    rewrite length_app, length_take, length_replicate. lia. }
  destruct (Hp _ Hb), (Hp _ Hb'). rewrite from_be_cmp by (done || congruence). simpl then_ at 1.
  rewrite <- (pad8_cmp 8 (fst kq) (fst kq') Hb Hb'). by destruct (lex_cmp (pad8 8 (fst kq)) _).
Qed.
End Entries.

(** ** The sorted entries *)

Lemma StronglySorted_map {A B} (R : A → A → Prop) (R' : B → B → Prop) (f : A → B) l :
  (∀ x y, x ∈ l → y ∈ l → R x y → R' (f x) (f y)) → StronglySorted R l → StronglySorted R' (map f l).
Proof.
  intros H Hs. induction Hs as [|x l Hs IH Hx]; [constructor|]. simpl. apply StronglySorted_cons. split.
  - apply Forall_forall. intros y Hy. apply list_elem_of_In, in_map_iff in Hy as (z & <- & Hz%list_elem_of_In).
    rewrite Forall_forall in Hx. apply H; [by left|by right|by apply Hx].
  - apply IH. intros y z Hy Hz. apply H; by right.
Qed.

Lemma keyed_same_spec buf a b : keyed_same buf a b = true ↔ keyed_cmp buf a b = Eq.
Proof.
  destruct a as [[[pa sa] la] ea], b as [[[pb sb] lb] eb]. unfold keyed_same, keyed_cmp, bytes_eqb.
  rewrite !andb_true_iff, !Z.eqb_eq, bool_decide_eq_true, <- lex_cmp_eq, <- !Z.compare_eq_iff.
  destruct (pa ?= pb), (lex_cmp _ _), (raw_ordinal ea ?= _), (sti ea ?= _); simpl; intuition congruence.
Qed.

(** The entries [build] works on: those kept by the sort and the removal of
    repetitions, as keys and parents in strictly increasing order. *)
Lemma sorted_entries_spec b kqs :
  binv b kqs → #(key_buf b) < 2 ^ 32 → Forall (λ kq, bytes_ok (fst kq)) kqs →
  ∃ es lqs, sorted_entries b = Ret es ∧ Forall2 (entry_is (key_buf b)) es lqs ∧
    StronglySorted (λ a c, kq_cmp a c = Lt) lqs ∧
    (∀ kq, kq ∈ lqs → kq ∈ kqs) ∧ (∀ kq, kq ∈ kqs → ∃ kq', kq' ∈ lqs ∧ kq_cmp kq kq' = Eq).
Proof.
  intros Hb Hlt Hbytes. set (buf := key_buf b) in *.
  set (key8 := λ e : Entry, let '(s, l, p) := e in (from_be_bytes (pad8 8 (key_at buf s l)), s, l, p) : Keyed).
  set (strip := λ k : Keyed, let '(_, s, l, p) := k in (s, l, p) : Entry).
  assert (∀ e, e ∈ entries b → ∃ kq, entry_is buf e kq ∧ kq ∈ kqs ∧ bytes_ok (fst kq) ∧ view buf e = kq) as Hent.
  { intros e Hin. apply list_elem_of_lookup in Hin as [i Hi]. destruct (Forall2_lookup_l _ _ _ _ _ Hb Hi) as (kq & Hk & He).
    exists kq. split; [done|]. split; [by eapply list_elem_of_lookup_2|].
    split; [rewrite Forall_lookup in Hbytes; by eapply Hbytes|]. destruct e as [[s l] p]. by apply (entry_reads buf Hlt). }
  assert (∀ e e', e ∈ entries b → e' ∈ entries b → keyed_cmp buf (key8 e) (key8 e') = kq_cmp (view buf e) (view buf e')) as Hcmp.
  { intros e e' He He'. destruct (Hent e He) as (kq & E & _ & B & ->), (Hent e' He') as (kq' & E' & _ & B' & ->).
    pose proof (keyed_cmp_view buf Hlt e e' kq kq' E E' B B') as H. destruct e as [[s l] p], e' as [[s' l'] p'].
    destruct (entry_reads buf Hlt _ _ _ _ E) as (_ & K & _), (entry_reads buf Hlt _ _ _ _ E') as (_ & K' & _).
    unfold key8. by rewrite K, K'. }
  assert (∀ e, strip (key8 e) = e) as Hstrip by (by intros [[s l] p]).
  unfold sorted_entries. fold buf. rewrite (mapM_out_pure _ key8), bind_ret.
  2: { intros [[s l] p] Hin. destruct (Hent _ Hin) as (kq & E & _). destruct (entry_reads buf Hlt _ _ _ _ E) as (_ & K & _ & _ & P).
       rewrite P, bind_ret. unfold key8. by rewrite K. }
  set (S := merge_sort (keyed_le buf) (map key8 (entries b))).
  pose proof (cmp_le_trans _ (keyed_cmp_ok buf)) as Ht. pose proof (cmp_le_total _ (keyed_cmp_ok buf)) as Hto.
  assert (StronglySorted (keyed_le buf) S) as HS by (apply StronglySorted_merge_sort; done).
  assert (∀ k, k ∈ S ↔ k ∈ map key8 (entries b)) as HinS by (intros k; unfold S; by rewrite merge_sort_Permutation).
  destruct (dedup_by_spec _ (keyed_cmp_ok buf) _ (keyed_same_spec buf) S HS) as (HD & Hsub & Hrep).
  set (D := dedup_by (keyed_same buf) S) in *.
  assert (∀ k, k ∈ D → ∃ e, k = key8 e ∧ e ∈ entries b) as HinD.
  { intros k Hk%Hsub%HinS. apply list_elem_of_In, in_map_iff in Hk as (e & <- & He%list_elem_of_In). by exists e. }
  assert (∀ e, e ∈ map strip D → e ∈ entries b) as Hsd.
  { intros e He. apply list_elem_of_In, in_map_iff in He as (k & <- & Hk%list_elem_of_In). destruct (HinD k Hk) as (e & -> & He).
    by rewrite Hstrip. }
  exists (map strip D), (map (view buf) (map strip D)). split; [done|]. split; [|split; [|split]].
  - apply Forall2_same_length_lookup_2; [by rewrite !length_map|]. intros i e kq Hi Hk.
    rewrite (lookup_map _ _ _ _ Hi) in Hk. injection Hk as <-.
    destruct (Hent e (Hsd e ltac:(by eapply list_elem_of_lookup_2))) as (kq & E & _ & _ & ->). done.
  - rewrite map_map. eapply StronglySorted_map; [|exact HD]. intros x y Hx Hy Hxy.
    destruct (HinD x Hx) as (e & -> & He), (HinD y Hy) as (e' & -> & He'). rewrite !Hstrip. by rewrite <- Hcmp.
  - intros kq Hk. apply list_elem_of_In, in_map_iff in Hk as (e & <- & He%list_elem_of_In).
    destruct (Hent e (Hsd e He)) as (kq & _ & Hin & _ & ->). done.
  - intros kq Hk. apply list_elem_of_lookup in Hk as [i Hi]. destruct (Forall2_lookup_r _ _ _ _ _ Hb Hi) as (e & Hei & Heq).
    assert (e ∈ entries b) as He by by eapply list_elem_of_lookup_2.
    destruct (Hrep (key8 e)) as (k & Hk & Hc); [apply HinS, list_elem_of_In, in_map, list_elem_of_In; done|].
    destruct (HinD k Hk) as (e' & -> & He'). exists (view buf e'). split.
    + rewrite map_map. apply list_elem_of_In, in_map_iff. exists (key8 e'). rewrite Hstrip. split; [done|by apply list_elem_of_In].
    + rewrite Hcmp in Hc by done. destruct e as [[s l] p]. destruct (entry_reads buf Hlt _ _ _ _ Heq) as (_ & _ & _ & Hv & _).
      by rewrite Hv in Hc.
Qed.

(** ** The loop over the keys *)

(** The entries of one key with what they stand for. *)
Abbreviation Item := (Entry * (list Z * ParentEntryV3))%type.
Definition item_key (x : Item) : list Z := fst (snd x).
Definition item_parent (x : Item) : ParentEntryV3 := snd (snd x).

Lemma last_snoc_inv {A} (l : list A) x y : last (l ++ [x]) = Some y → x = y.
Proof. rewrite last_snoc. by intros [= ->]. Qed.

Section Loop.
Context (buf : list Z) (Hbuf : #buf < 2 ^ 32) (es : list Entry) (max_ordinal : Z).

Definition item_ok (x : Item) : Prop := entry_is buf (fst x) (snd x) ∧ parent_ok (item_parent x).

Lemma key_end_spec key rest :
  match rest with [] => True | x :: _ => item_ok x ∧ item_key x ≠ key end →
  ∀ g fuel j, Forall item_ok g → Forall (λ x, item_key x = key) g →
    At es j (map fst (g ++ rest)) → (length g < fuel)%nat →
    key_end fuel buf es key j = Ret (j + #g).
Proof using Hbuf.
  intros Hrest. induction g as [|x g IH]; intros fuel j Hok Hk Hat Hf; (destruct fuel as [|fuel]; [simpl in Hf; lia|]);
    cbn [key_end]; pose proof (At_len _ _ _ Hat) as Hl; rewrite len_map in Hl.
  - rewrite len_nil, Z.add_0_r. destruct rest as [|[[[s l] p] kq] rest]; simpl in Hl, Hat.
    + rewrite len_nil in Hl. by rewrite (proj2 (Z.ltb_ge _ _)) by lia.
    + rewrite len_cons in Hl. pose proof (len_nonneg rest). rewrite (proj2 (Z.ltb_lt _ _)) by lia.
      rewrite (At_index _ _ _ _ Hat), bind_ret. destruct Hrest as [[He _] Hne].
      destruct (entry_reads buf Hbuf _ _ _ _ He) as (-> & _). rewrite bind_ret. unfold bytes_eqb.
      by rewrite bool_decide_false.
  - destruct x as [[[s l] p] kq]. simpl in Hl, Hat. rewrite len_cons in Hl. pose proof (len_nonneg (g ++ rest)).
    rewrite (proj2 (Z.ltb_lt _ _)) by lia. rewrite (At_index _ _ _ _ Hat), bind_ret.
    apply Forall_cons in Hok as [[He _] Hok]. apply Forall_cons in Hk as [Ek Hk].
    destruct (entry_reads buf Hbuf _ _ _ _ He) as (-> & _). rewrite bind_ret. unfold bytes_eqb.
    rewrite bool_decide_true by done. rewrite (IH fuel (j + 1)); [f_equal; rewrite len_cons; lia|done..| |simpl in Hf; lia].
    by apply At_tail in Hat.
Qed.

Lemma fill_group g : Forall item_ok g → mapM_out (fill_overlap buf) (map fst g) = Ret (map item_parent g).
Proof using Hbuf.
  induction 1 as [|x g [He _] _ IH]; [done|]. destruct x as [[[s l] p] kq]. cbn [map mapM_out fst].
  destruct (entry_reads buf Hbuf _ _ _ _ He) as (_ & _ & E & _). rewrite E, bind_ret, IH. done.
Qed.

(** What a successful pass writes for the groups [G]. *)
Definition written (st : Built) (G : list (list Item)) (rs : list (list Z)) : Built :=
  {| bt_fst := bt_fst st ++ zip_with (λ g row, (head_key item_key g, fst row)) G (rows #(bt_table st) rs);
     bt_table := bt_table st ++ table_bytes rs;
     bt_num_terms := bt_num_terms st + #G;
     bt_max_parents := fold_left (λ m g, Z.max m #g) G (bt_max_parents st) |}.

Lemma first_error_app a b :
  first_error max_ordinal (a ++ b) =
    match first_error max_ordinal a with Some e => Some e | None => first_error max_ordinal b end.
Proof using.
  induction a as [|[[s l] p] a IH]; [done|]. simpl. by destruct (check_parent max_ordinal p).
Qed.

Lemma build_loop_spec G :
  Forall (uniform item_key) G → Forall item_ok (concat G) →
  StronglySorted (λ g g', lex_cmp (head_key item_key g) (head_key item_key g') = Lt) G →
  #(concat G) < 2 ^ 57 →
  ∀ fuel i st, At es i (map fst (concat G)) → (length G < fuel)%nat →
  (∀ g k o, g ∈ G → last (bt_fst st) = Some (k, o) → lex_cmp k (head_key item_key g) = Lt) →
  match first_error max_ordinal (map fst (concat G)) with
  | Some e => build_loop fuel buf es max_ordinal i st = Ret (Err e)
  | None => ∃ rs, build_loop fuel buf es max_ordinal i st = Ret (Ok (written st G rs)) ∧
      Forall2 (λ g r, ∃ ds, layout (head_key item_key g) ds r ∧ ds ≡ₚ map item_parent g) G rs
  end.
Proof using Hbuf.
  induction G as [|g G IH]; intros Hu Hok Hs Hn fuel i st Hat Hf Hlast;
    (destruct fuel as [|fuel]; [simpl in Hf; lia|]); cbn [build_loop concat map].
  { simpl in Hat. apply At_end in Hat as ->. rewrite Z.ltb_irrefl. exists []. split; [|constructor].
    unfold written. destruct st. simpl. by rewrite !app_nil_r, len_nil, Z.add_0_r. }
  apply Forall_cons in Hu as [[Hne Hk] Hu]. cbn [concat] in *. apply Forall_app in Hok as [Hg Hok].
  apply StronglySorted_cons in Hs as [Hlt Hs]. rewrite len_app in Hn. pose proof (len_nonneg (concat G)).
  destruct g as [|x g]; [done|]. set (key := head_key item_key (x :: g)) in *.
  rewrite map_app in *. pose proof (At_len _ _ _ Hat) as Hl. rewrite len_app, !len_map in Hl.
  pose proof (len_nonneg g). assert (1 ≤ #(x :: g)) by (rewrite len_cons; lia).
  rewrite (proj2 (Z.ltb_lt _ _)) by lia. destruct x as [[[s l] p] kq]. pose proof Hat as Hat0.
  change (map fst ((s, l, p, kq) :: g) ++ map fst (concat G)) with ((s, l, p) :: map fst g ++ map fst (concat G)) in Hat0.
  rewrite (At_index _ _ _ _ Hat0), bind_ret. apply At_tail in Hat0. rewrite <- map_app in Hat0.
  pose proof Hg as [[He _] Hg']%Forall_cons. apply Forall_cons in Hk as [_ Hk].
  destruct (entry_reads buf Hbuf _ _ _ _ He) as (-> & _). rewrite bind_ret.
  change (fst (snd (s, l, p, kq))) with key.
  assert (key_end (S (length es)) buf es key (i + 1) = Ret (i + #((s, l, p, kq) :: g))) as ->.
  { rewrite (key_end_spec key (concat G)) with (g := g); [f_equal; rewrite len_cons; lia| |done|done|exact Hat0|].
    - destruct G as [|[|y g'] G]; simpl; [done| |].
      + by apply Forall_cons in Hu as [[? _] _].
      + apply Forall_cons in Hok as [Hy _]. split; [done|]. apply Forall_cons in Hlt as [E _]. simpl in E.
        intros Heq. by rewrite Heq, lex_cmp_refl in E.
    - destruct Hat0 as [_ Hd]. assert (Hl' := f_equal length Hd). rewrite length_drop, length_map, length_app in Hl'. lia. }
  rewrite bind_ret, (At_slice _ _ _ _ _ Hat), bind_ret by (by rewrite len_map). rewrite first_error_app.
  destruct (first_error max_ordinal (map fst ((s, l, p, kq) :: g))) as [e|]; [done|].
  rewrite (fill_group _ Hg), bind_ret.
  destruct (encode_layout (map item_parent ((s, l, p, kq) :: g)) key) as (ds & r & -> & Hlay & Hp & _); [done| |rewrite len_map; lia|].
  { apply Forall_map. eapply Forall_impl; [exact Hg|]. by intros x [_ ?]. }
  rewrite bind_ret, table_add_app.
  assert (fst_insert (bt_fst st) key #(bt_table st) = Ok (bt_fst st ++ [(key, #(bt_table st))])) as ->.
  { unfold fst_insert. destruct (last (bt_fst st)) as [[k o]|] eqn:El; [|done].
    pose proof (Hlast _ _ _ ltac:(by left) eq_refl) as Hkl. fold key in Hkl. unfold bytes_eqb.
    rewrite bool_decide_false by (intros <-; by rewrite lex_cmp_refl in Hkl). by rewrite lex_cmp_opp, Hkl. }
  set (st1 := {| bt_fst := _ |}).
  specialize (IH Hu Hok Hs ltac:(lia) fuel (i + #((s, l, p, kq) :: g)) st1).
  destruct (first_error max_ordinal (map fst (concat G))) as [e|].
  - apply IH; [apply At_skip in Hat; by rewrite len_map in Hat|simpl in Hf; lia|].
    intros g' k o Hg'' [= <- <-]%last_snoc_inv. rewrite Forall_forall in Hlt. by apply Hlt.
  - destruct IH as (rs & -> & Hrs); [apply At_skip in Hat; by rewrite len_map in Hat|simpl in Hf; lia| |].
    + intros g' k o Hg'' [= <- <-]%last_snoc_inv. rewrite Forall_forall in Hlt. by apply Hlt.
    + exists (r :: rs). split; [|constructor; [by exists ds|done]]. do 2 f_equal. unfold written, st1.
      cbn [bt_fst bt_table bt_num_terms bt_max_parents rows zip_with table_bytes flat_map fold_left].
      rewrite <- !app_assoc. cbn [app]. fold key. rewrite !len_app, !len_cons. f_equal; [lia|].
      do 2 f_equal. lia.
Qed.
End Loop.

(** ** [build] *)

Lemma concat_filter_key {A} (f : A → list Z) G g :
  Forall (uniform f) G → StronglySorted (λ g g', lex_cmp (head_key f g) (head_key f g') = Lt) G → g ∈ G →
  ∀ x, x ∈ concat G → f x = head_key f g → x ∈ g.
Proof.
  intros Hu Hs Hg x Hx Hk. apply list_elem_of_In, in_concat in Hx as (g' & Hg' & Hx). apply list_elem_of_In in Hg', Hx.
  assert (f x = head_key f g') as Hk'.
  { rewrite Forall_forall in Hu. destruct (Hu g' Hg') as [_ Ha]. rewrite Forall_forall in Ha. by apply Ha. }
  apply list_elem_of_lookup in Hg as [i Hi]. apply list_elem_of_lookup in Hg' as [j Hj].
  destruct (Nat.lt_trichotomy i j) as [Hij|[->|Hij]]; [|congruence|].
  - pose proof (StronglySorted_lookup _ _ _ _ _ _ Hs Hi Hj Hij) as H. simpl in H. by rewrite <- Hk, Hk', lex_cmp_refl in H.
  - pose proof (StronglySorted_lookup _ _ _ _ _ _ Hs Hj Hi Hij) as H. simpl in H. by rewrite <- Hk, Hk', lex_cmp_refl in H.
Qed.

Lemma StronglySorted_map_inv {A B} (R : B → B → Prop) (f : A → B) l :
  StronglySorted R (map f l) → StronglySorted (λ x y, R (f x) (f y)) l.
Proof.
  induction l as [|x l IH]; simpl; [constructor|]. intros [H1 H2]%StronglySorted_cons. apply StronglySorted_cons.
  split; [|by apply IH]. by rewrite Forall_map in H1.
Qed.

Lemma check_parent_view buf m s l p kq :
  entry_is buf (s, l, p) kq → check_parent m p = check_parent m (snd kq).
Proof. intros (ov & rest & _ & _ & _ & _ & _ & ->). done. Qed.

Lemma first_error_view buf m es lqs :
  Forall2 (entry_is buf) es lqs → first_error m es = first_error m (map (λ kq, (0, 0, snd kq)) lqs).
Proof.
  induction 1 as [|[[s l] p] kq es lqs He _ IH]; [done|]. simpl. by rewrite (check_parent_view _ _ _ _ _ _ He), IH.
Qed.

Lemma sorted_nodup lqs : StronglySorted (λ a c, kq_cmp a c = Lt) lqs → NoDup lqs.
Proof.
  induction 1 as [|x l _ IH Hx]; constructor; [|done]. intros Hin. rewrite Forall_forall in Hx.
  specialize (Hx x Hin). by rewrite (cmp_refl _ kq_cmp_ok) in Hx.
Qed.

(** Groups of items and the groups of what they stand for. *)
Lemma head_key_map {A B} (f : B → list Z) (h : A → B) g : head_key f (map h g) = head_key (λ x, f (h x)) g.
Proof. by destruct g. Qed.

Lemma uniform_map {A B} (f : B → list Z) (h : A → B) g : uniform (λ x, f (h x)) g → uniform f (map h g).
Proof.
  intros [Hne Hk]. split; [by destruct g|]. rewrite head_key_map. by apply Forall_map.
Qed.

(** The outcome of [build] on the entries the calls made. *)
Lemma build_spec b kqs :
  binv b kqs → #(key_buf b) < 2 ^ 32 → #kqs ≤ #(key_buf b) →
  Forall (λ kq, bytes_ok (fst kq) ∧ parent_ok (snd kq)) kqs →
  ∃ lqs, StronglySorted (λ a c, kq_cmp a c = Lt) lqs ∧
    (∀ kq, kq ∈ lqs → kq ∈ kqs) ∧ (∀ kq, kq ∈ kqs → ∃ kq', kq' ∈ lqs ∧ kq_cmp kq kq' = Eq) ∧
    match first_error (max_ordinal b) (map (λ kq, (0, 0, snd kq)) lqs) with
    | Some e => build b = Ret (Err e)
    | None => ∃ built G rs, build b = Ret (Ok built) ∧ concat G = lqs ∧ Forall (uniform fst) G ∧
        StronglySorted (λ g g', lex_cmp (head_key fst g) (head_key fst g') = Lt) G ∧
        bt_fst built = zip_with (λ g row, (head_key fst g, fst row)) G (rows 0 rs) ∧
        bt_table built = table_bytes rs ∧ bt_num_terms built = #G ∧
        Forall2 (λ g r, ∃ ds, layout (head_key fst g) ds r ∧ ds ≡ₚ map snd g) G rs ∧ #lqs < 2 ^ 32
    end.
Proof.
  intros Hb Hlt Hn Hok. destruct (sorted_entries_spec b kqs Hb Hlt) as (es & lqs & Ees & He & Hs & Hsub & Hrep).
  { eapply Forall_impl; [exact Hok|]. by intros kq [? _]. }
  exists lqs. split; [done|]. split; [done|]. split; [done|].
  assert (#lqs < 2 ^ 32) as Hl.
  { pose proof (submseteq_length _ _ (NoDup_submseteq _ _ (sorted_nodup _ Hs) Hsub)). unfold len in *. lia. }
  set (items := zip es lqs : list Item). pose proof (Forall2_length _ _ _ He) as Hlen.
  assert (map snd items = lqs) as Hsnd by (apply snd_zip; lia). assert (map fst items = es) as Hfst by (apply fst_zip; lia).
  set (G := groups_on item_key items). pose proof (concat_groups_on item_key items) as Hc. fold G in Hc.
  destruct (groups_on_ok item_key items) as [Hu Hlt'].
  { rewrite <- Hsnd in Hs. apply StronglySorted_map_inv in Hs. eapply StronglySorted_impl; [|exact Hs].
    intros x y. unfold kq_cmp, item_key. by destruct (lex_cmp _ _). }
  fold G in Hu, Hlt'.
  assert (Forall (item_ok (key_buf b)) items) as Hitems.
  { apply Forall_lookup. intros i [e kq] Hi. apply lookup_zip_Some in Hi as [Hi Hk].
    split; [exact (Forall2_lookup_lr _ _ _ _ _ _ He Hi Hk)|]. unfold item_parent. simpl. rewrite Forall_forall in Hok.
    apply Hok, Hsub. by eapply list_elem_of_lookup_2. }
  assert (length G ≤ length es)%nat as HGl.
  { rewrite <- Hfst, length_map, <- Hc. clear -Hu. induction Hu as [|g G [Hne _] _ IH]; [done|]. simpl. rewrite length_app.
    destruct g; [done|]. simpl. lia. }
  pose proof (build_loop_spec (key_buf b) Hlt es (max_ordinal b) G Hu) as HB. rewrite Hc in HB.
  specialize (HB Hitems Hlt'). rewrite Hfst, (first_error_view _ _ _ _ He) in HB.
  assert (#items < 2 ^ 57) as Hi57 by (rewrite <- Hsnd, len_map in Hl; lia).
  unfold build. rewrite Ees, bind_ret. specialize (HB Hi57 (S (length es)) 0 _ ltac:(apply At_start) ltac:(lia)
    ltac:(intros g k o _; instantiate (1 := {| bt_fst := []; bt_table := []; bt_num_terms := 0; bt_max_parents := max_parents b |}); done)).
  destruct (first_error _ _) as [e|]; [exact HB|]. destruct HB as (rs & E & Hrs).
  exists (written {| bt_fst := []; bt_table := []; bt_num_terms := 0; bt_max_parents := max_parents b |} G rs), (map (map snd) G), rs.
  split; [exact E|]. split; [by rewrite <- concat_map, Hc|].
  split; [apply Forall_map; eapply Forall_impl; [exact Hu|]; intros g Hg; exact (uniform_map fst snd g Hg)|].
  split; [eapply StronglySorted_map; [|exact Hlt']; intros g g' _ _; by rewrite !head_key_map|].
  split; [|split; [done|split; [unfold written; simpl; by rewrite len_map, Z.add_0_l|split; [|done]]]].
  - unfold written. cbn [bt_fst bt_table app]. rewrite len_nil. clear. generalize 0 as o. revert rs.
    induction G as [|g G IH]; intros [|r rs] o; [done..|]. simpl. rewrite head_key_map. by rewrite IH.
  - apply Forall2_fmap_l. eapply Forall2_impl; [exact Hrs|]. intros g r (ds & Hlay & Hp). simpl. exists ds.
    rewrite head_key_map. split; [done|]. rewrite map_map. done.
Qed.
