(* ===== verification/SuffixBuildProofs.v ===== *)
(** * The suffix dictionary's builder: properties

    From the calls of the collector to the dictionary: which keys it has, and
    what the record of each key decodes to. *)
From S2P Require Import Prelude Varint Ordering Text ParentRecord ParentCodec ParentRecordProofs ParentTable SuffixBuilder SuffixBuild.
Import varint text parents builder.

(** ** Bytes of text *)

(** A code point. *)
Definition is_char (c : Z) : Prop := 0 ≤ c < 0x110000.

#[export] Instance is_char_dec c : Decision (is_char c).
Proof. unfold is_char. apply _. Defined.

Lemma utf8_ok c : is_char c → bytes_ok (utf8 c).
Proof.
  unfold is_char, utf8, bytes_ok. intros Hc.
  pose proof (Z.mod_pos_bound c 64 ltac:(lia)). pose proof (Z.mod_pos_bound (c / 64) 64 ltac:(lia)).
  pose proof (Z.mod_pos_bound (c / 4096) 64 ltac:(lia)).
  pose proof (Z.div_pos c 64). pose proof (Z.div_pos c 4096). pose proof (Z.div_pos c 262144).
  repeat case_match; rewrite ?Z.ltb_lt, ?Z.ltb_ge in *; repeat (apply Forall_cons; split); try apply Forall_nil_2; unfold fits;
    change (2 ^ 8) with 256.
  - lia.
  - pose proof (Z.div_lt_upper_bound c 64 32). lia.
  - lia.
  - pose proof (Z.div_lt_upper_bound c 4096 16). lia.
  - lia.
  - lia.
  - pose proof (Z.div_lt_upper_bound c 262144 5). lia.
  - lia.
  - lia.
  - lia.
Qed.

Lemma flat_utf8_ok s : Forall is_char s → bytes_ok (flat_map utf8 s).
Proof.
  induction 1 as [|c s Hc _ IH]; [constructor|]. cbn [flat_map]. apply Forall_app. split; [by apply utf8_ok|done].
Qed.

(** The first byte of a character is not a continuation byte. *)
Lemma utf8_head c : is_char c → ∃ h t, utf8 c = h :: t ∧ (Z.land h 0xC0 =? 0x80) = false.
Proof.
  intros Hc. assert (∀ h, 0 ≤ h < 128 ∨ 192 ≤ h < 256 → (Z.land h 0xC0 =? 0x80) = false) as Hh.
  { intros h Hr.
    assert (implb ((h <? 128) || (192 <=? h)) (negb (Z.land h 0xC0 =? 0x80)) = true) as H.
    { apply (all_bytes_spec (λ h, implb ((h <? 128) || (192 <=? h)) (negb (Z.land h 0xC0 =? 0x80)))); [done|unfold fits; lia]. }
    destruct (Z.land h 0xC0 =? 0x80); [|done]. simpl in H. rewrite implb_false_r in H. lia. }
  unfold utf8, is_char in *. repeat case_match; rewrite ?Z.ltb_lt, ?Z.ltb_ge in *; eexists _, _; (split; [done|]); apply Hh.
  - lia.
  - pose proof (Z.div_lt_upper_bound c 64 32). pose proof (Z.div_pos c 64). lia.
  - pose proof (Z.div_lt_upper_bound c 4096 16). pose proof (Z.div_pos c 4096). lia.
  - pose proof (Z.div_lt_upper_bound c 262144 5). pose proof (Z.div_pos c 262144). lia.
Qed.

(** ** The entries of a call *)

(** What the collector passes: text, and fields at their widths. *)
Definition call_ok (c : call) : Prop :=
  match c with
  | Token t o w s v _ => Forall is_char t ∧ fits 64 o ∧ fits 16 w ∧ fits 8 s
  | Word t v o s _ => Forall is_char t ∧ Forall is_char v ∧ fits 64 o ∧ fits 8 s
  end.

#[export] Instance call_ok_dec c : Decision (call_ok c).
Proof. destruct c; simpl; apply _. Defined.

(** The overlap bytes of a parent are followed by zeros. *)
Definition padded (q : ParentEntryV3) : Prop :=
  ∃ p ov, overlap_len p = #ov ∧ #ov ≤ 4 ∧ q = with_overlap p ov.

Lemma norm_padded q : padded q → norm q = q.
Proof.
  intros (p & ov & Ho & Hov & ->). unfold norm. assert (overlap_of (with_overlap p ov) = ov) as ->.
  { unfold overlap_of, MAX_OVERLAP_BYTES. simpl. rewrite Ho, Z.min_l by done. by rewrite len_to_nat, take_app_length. }
  unfold with_overlap. simpl. by rewrite Ho.
Qed.

Lemma binv_padded b kqs kq : binv b kqs → kq ∈ kqs → padded (snd kq).
Proof.
  intros Hb [i Hi]%list_elem_of_lookup. destruct (Forall2_lookup_r _ _ _ _ _ Hb Hi) as ([[s l] p] & _ & He).
  destruct He as (ov & rest & _ & _ & Ho & Hov & _ & ->). by exists p, ov.
Qed.

Lemma suffix_entries_ok min m bytes ov prefix_of parent_of :
  bytes_ok bytes → bytes_ok ov → #ov ≤ 4 → (∀ si, fits 8 (prefix_of si)) →
  (∀ si, 0 ≤ si → let p := parent_of si in fits 64 (raw_ordinal p) ∧ fits 16 (sti p) ∧ fits 16 (own_len p) ∧ fits 8 (sep_len p) ∧
     overlap_len p = #ov) →
  Forall (λ kq, bytes_ok (fst kq) ∧ parent_ok (snd kq)) (suffix_entries min m bytes ov prefix_of parent_of).
Proof.
  intros Hb Ho Hov Hpre Hp. apply Forall_map, Forall_forall. intros si Hsi.
  apply list_elem_of_In, filter_In in Hsi as [Hsi%list_elem_of_In%elem_of_range _]. simpl. split.
  - constructor; [apply Hpre|]. by apply Forall_drop.
  - destruct (Hp si ltac:(lia)) as (H1 & H2 & H3 & H4 & H5). pose proof (len_nonneg ov).
    split; [done|]. split; [done|]. split; [done|]. split; [done|]. split; [simpl; rewrite H5; widths; lia|].
    simpl. split; [rewrite length_app, length_replicate; unfold len in *; lia|].
    apply Forall_app. split; [done|]. apply Forall_replicate. done.
Qed.

(** ** The dictionary *)

(** The dictionary of a set of keys and parents: the keys in strictly
    increasing order, each with the offset of a record that decodes to the
    parents of the key, one for each token and suffix index, all of them or
    those with chosen overlap bytes. *)
Definition dictionary_of (kqs : list (list Z * ParentEntryV3)) (built : Built) : Prop :=
  StronglySorted (λ a b, lex_cmp a b = Lt) (map fst (bt_fst built)) ∧
  (∀ key, key ∈ map fst (bt_fst built) ↔ key ∈ map fst kqs) ∧
  bt_num_terms built = #(bt_fst built) ∧
  ∀ key off, (key, off) ∈ bt_fst built →
    ∃ record ps, table_get (bt_table built) off = Ret record ∧ decode_parent_entries_v8 record key = Ret ps ∧
      (∀ keep, decode_parent_entries_v8_where record key keep = Ret (List.filter (λ p, keep (overlap_of p)) ps)) ∧
      count_parent_entries_v8 record = Ret #ps ∧
      NoDup (map (λ p, (raw_ordinal p, sti p)) ps) ∧ (∀ p, p ∈ ps → (key, p) ∈ kqs) ∧
      ∀ q, (key, q) ∈ kqs → ∃ p, p ∈ ps ∧ raw_ordinal p = raw_ordinal q ∧ sti p = sti q.

Lemma StronglySorted_concat {A} (R : A → A → Prop) G : StronglySorted R (concat G) → Forall (StronglySorted R) G.
Proof.
  induction G as [|g G IH]; intros Hs; [constructor|]. simpl in Hs.
  apply StronglySorted_app in Hs as (_ & H1 & H2). by constructor; [|apply IH].
Qed.

Lemma kq_cmp_eq a b :
  kq_cmp a b = Eq ↔ fst a = fst b ∧ raw_ordinal (snd a) = raw_ordinal (snd b) ∧ sti (snd a) = sti (snd b).
Proof.
  unfold kq_cmp. rewrite <- lex_cmp_eq, <- !Z.compare_eq_iff.
  destruct (lex_cmp _ _), (raw_ordinal _ ?= _), (sti _ ?= _); simpl; intuition congruence.
Qed.

(** Parents of one key in increasing order differ in ordinal or index. *)
Lemma group_nodup g :
  uniform fst g → StronglySorted (λ a c, kq_cmp a c = Lt) g →
  NoDup (map (λ p, (raw_ordinal p, sti p)) (map snd g)).
Proof.
  intros [_ Hk] Hs. rewrite map_map. remember (head_key fst g) as key. clear Heqkey.
  induction Hs as [|x g Hs IH Hx]; simpl; [constructor|]. apply Forall_cons in Hk as [Hkx Hk]. constructor; [|by apply IH].
  intros Hin. apply list_elem_of_In, in_map_iff in Hin as (y & [= Ho Ht] & Hy%list_elem_of_In).
  rewrite Forall_forall in Hx, Hk. specialize (Hx y Hy). specialize (Hk y Hy).
  assert (kq_cmp x y = Eq) as E by (apply kq_cmp_eq; split_and!; congruence). congruence.
Qed.

Lemma zip_with_heads {A} (f : list A → list Z) G rs : ∀ off, length G = length rs →
  map fst (zip_with (λ g row, (f g, fst row)) G (rows off rs)) = map f G.
Proof.
  revert rs. induction G as [|g G IH]; intros [|r rs] off Hl; simpl in *; try done; [].
  f_equal. apply IH. lia.
Qed.

Section Dictionary.
Context (kqs lqs : list (list Z * ParentEntryV3)) (G : list (list (list Z * ParentEntryV3))) (rs : list (list Z)) (built : Built).
Context (Hlqs : StronglySorted (λ a c, kq_cmp a c = Lt) lqs) (Hsub : ∀ kq, kq ∈ lqs → kq ∈ kqs).
Context (Hrep : ∀ kq, kq ∈ kqs → ∃ kq', kq' ∈ lqs ∧ kq_cmp kq kq' = Eq).
Context (Hpad : ∀ kq, kq ∈ kqs → padded (snd kq)).
Context (Hc : concat G = lqs) (Hu : Forall (uniform fst) G).
Context (Hs : StronglySorted (λ g g', lex_cmp (head_key fst g) (head_key fst g') = Lt) G).
Context (Hfst : bt_fst built = zip_with (λ g row, (head_key fst g, fst row)) G (rows 0 rs)).
Context (Htable : bt_table built = table_bytes rs) (Hterms : bt_num_terms built = #G).
Context (Hlay : Forall2 (λ g r, ∃ ds, layout (head_key fst g) ds r ∧ ds ≡ₚ map snd g) G rs) (Hn : #lqs < 2 ^ 32).

Lemma group_in g kq : g ∈ G → kq ∈ g → kq ∈ lqs.
Proof using Hc.
  intros Hg Hk. rewrite <- Hc. apply list_elem_of_In, in_concat. exists g. split; by apply list_elem_of_In.
Qed.

Lemma group_size g : g ∈ G → #g ≤ #lqs.
Proof using Hc.
  intros [i Hi]%list_elem_of_lookup. rewrite <- Hc, (concat_split _ _ _ Hi), !len_app.
  pose proof (len_nonneg (concat (take i G))). pose proof (len_nonneg (concat (drop (S i) G))). lia.
Qed.

Lemma table_fits : #(table_bytes rs) < 2 ^ 64.
Proof using Hlay Hc Hn.
  assert (#(table_bytes rs) ≤ 101 * #(concat G)); [|rewrite Hc in *; lia].
  assert (#(concat G) < 2 ^ 32) as HG by (by rewrite Hc). clear -Hlay HG. revert HG.
  induction Hlay as [|g r G rs (ds & Hl & Hp) Hrest IH]; [done|]. simpl concat. rewrite len_app. intros HG.
  pose proof (len_nonneg g). pose proof (len_nonneg (concat G)). specialize (IH Hrest ltac:(lia)).
  assert (#ds = #g) as Hd by (unfold len; by rewrite Hp, length_map). destruct (layout_size _ _ _ Hl ltac:(lia)) as [? ?].
  pose proof (len_nonneg r). pose proof (len_varint_max #r ltac:(unfold fits; lia)).
  change (table_bytes (r :: rs)) with ((varint_bytes #r ++ r) ++ table_bytes rs). rewrite !len_app. lia.
Qed.

Lemma keys_of_groups key : key ∈ map (head_key fst) G ↔ key ∈ map fst kqs.
Proof using Hsub Hrep Hc Hu.
  split; intros Hk; apply list_elem_of_In, in_map_iff in Hk as (g & <- & Hg%list_elem_of_In).
  - rewrite Forall_forall in Hu. destruct (Hu g Hg) as [Hne _]. destruct g as [|kq g]; [done|]. simpl.
    apply list_elem_of_In, in_map, list_elem_of_In, Hsub. eapply group_in; [done|by left].
  - destruct (Hrep g Hg) as (kq' & Hin & [E _]%kq_cmp_eq). rewrite E. rewrite <- Hc in Hin.
    apply list_elem_of_In, in_concat in Hin as (g' & Hg' & Hin). apply list_elem_of_In, in_map_iff. exists g'. split; [|done].
    rewrite Forall_forall in Hu. destruct (Hu g' ltac:(by apply list_elem_of_In)) as [_ Ha]. rewrite Forall_forall in Ha.
    symmetry. apply Ha. by apply list_elem_of_In.
Qed.

Lemma record_of_key key off :
  (key, off) ∈ bt_fst built →
  ∃ record ps, table_get (bt_table built) off = Ret record ∧ decode_parent_entries_v8 record key = Ret ps ∧
    (∀ keep, decode_parent_entries_v8_where record key keep = Ret (List.filter (λ p, keep (overlap_of p)) ps)) ∧
    count_parent_entries_v8 record = Ret #ps ∧
    NoDup (map (λ p, (raw_ordinal p, sti p)) ps) ∧ (∀ p, p ∈ ps → (key, p) ∈ kqs) ∧
    ∀ q, (key, q) ∈ kqs → ∃ p, p ∈ ps ∧ raw_ordinal p = raw_ordinal q ∧ sti p = sti q.
Proof using All.
  rewrite Hfst. intros [k Hk]%list_elem_of_lookup. apply lookup_zip_with_Some in Hk as (g & [o r] & [= -> ->] & Hg & Hr).
  pose proof (rows_lookup _ _ _ _ _ Hr) as [Hrs _]. destruct (Forall2_lookup_lr _ _ _ _ _ _ Hlay Hg Hrs) as (ds & Hl & Hp).
  assert (g ∈ G) as HgG by by eapply list_elem_of_lookup_2. pose proof (group_size g HgG).
  assert (#ds = #g) as Hd by (unfold len; by rewrite Hp, length_map).
  rewrite Forall_forall in Hu. pose proof (Hu g HgG) as Hug. pose proof Hug as [_ Hkeys]. rewrite Forall_forall in Hkeys.
  assert (∀ p, p ∈ ds → (head_key fst g, p) ∈ g) as Hin.
  { intros p Hpd. rewrite Hp in Hpd. apply list_elem_of_In, in_map_iff in Hpd as ([key q] & <- & Hq%list_elem_of_In).
    pose proof (Hkeys _ Hq) as E. simpl in *. by rewrite <- E. }
  assert (∀ p, p ∈ ds → norm p = p) as Hnorm.
  { intros p Hpd. apply norm_padded. apply (Hpad (head_key fst g, p)), Hsub. eapply group_in; [done|by apply Hin]. }
  assert (∀ keep, decode_parent_entries_v8_where r (head_key fst g) keep = Ret (List.filter (λ p, keep (overlap_of p)) ds)) as Hwhere.
  { intros keep. rewrite (layout_where _ _ _ Hl) by lia. f_equal. rewrite <- (map_id (List.filter _ ds)) at 2.
    apply map_ext_in. intros p [Hpd%list_elem_of_In _]%filter_In. by apply Hnorm. }
  exists r, ds. rewrite Htable. split; [by apply (table_get_row rs k o r table_fits)|]. split; [|split; [done|split]].
  { unfold decode_parent_entries_v8. by rewrite Hwhere, filter_all. }
  { apply (layout_count _ _ _ Hl). lia. }
  split; [|split].
  - rewrite Hp. apply group_nodup; [done|]. rewrite <- Hc in Hlqs. apply StronglySorted_concat in Hlqs.
    rewrite Forall_forall in Hlqs. by apply Hlqs.
  - intros p Hpd. apply Hsub. eapply group_in; [done|by apply Hin].
  - intros q Hq. destruct (Hrep _ Hq) as ([key' q'] & Hq' & (E1 & E2 & E3)%kq_cmp_eq). simpl in *. subst key'.
    rewrite <- Hc in Hq'. exists q'. split; [|by split]. rewrite Hp.
    pose proof (concat_filter_key fst G g ltac:(by apply Forall_forall) Hs HgG _ Hq' eq_refl) as H'.
    apply list_elem_of_In, in_map_iff. exists (head_key fst g, q'). split; [done|by apply list_elem_of_In].
Qed.

Lemma dictionary_built : dictionary_of kqs built.
Proof using All.
  pose proof (Forall2_length _ _ _ Hlay) as Hlen.
  assert (map fst (bt_fst built) = map (head_key fst) G) as E by (by rewrite Hfst, zip_with_heads).
  split; [|split; [|split]].
  - rewrite E. eapply StronglySorted_map; [|exact Hs]. done.
  - intros key. rewrite E. apply keys_of_groups.
  - rewrite Hterms, <- (len_map fst), E. by rewrite len_map.
  - apply record_of_key.
Qed.
End Dictionary.

Lemma first_error_none m lqs :
  (∀ kq, kq ∈ lqs → check_parent m (snd kq) = None) → first_error m (map (λ kq : list Z * ParentEntryV3, (0, 0, snd kq)) lqs) = None.
Proof.
  induction lqs as [|kq lqs IH]; intros H; [done|]. simpl. rewrite (H kq) by by left. apply IH. intros kq' Hk. apply H. by right.
Qed.

Lemma first_error_some m lqs kq :
  kq ∈ lqs → m < raw_ordinal (snd kq) →
  ∃ e, first_error m (map (λ kq : list Z * ParentEntryV3, (0, 0, snd kq)) lqs) = Some e.
Proof.
  induction lqs as [|kq' lqs IH]; intros Hk Hm; [by apply not_elem_of_nil in Hk|]. simpl.
  destruct (check_parent m (snd kq')) as [e|] eqn:E; [by exists e|]. apply elem_of_cons in Hk as [->|Hk]; [|by apply IH].
  unfold check_parent in E. by replace (m <? raw_ordinal (snd kq')) with true in E by lia.
Qed.

Section Build.
Context (to_lowercase : list Z → list Z).
Hypothesis lower_chars : ∀ s, Forall is_char s → Forall is_char (to_lowercase s).

Lemma overlap_bytes_ok text : Forall is_char text → bytes_ok (overlap_bytes_of to_lowercase text).
Proof using lower_chars. intros Ht. unfold overlap_bytes_of. apply Forall_take, flat_utf8_ok. by apply lower_chars. Qed.

Lemma call_entries_ok min c :
  call_ok c → Forall (λ kq, bytes_ok (fst kq) ∧ parent_ok (snd kq)) (call_entries to_lowercase min c).
Proof using lower_chars.
  destruct c as [t o w s v ws|t v o s ws]; cbn [call_ok call_entries].
  - intros (Ht & Ho & Hw & Hs). destruct (cut_token_spec t v) as [E _]. rewrite E in Ht. apply Forall_app in Ht as [Ha Hb].
    pose proof (len_overlap_bytes to_lowercase (snd (cut_token t v))) as Hov.
    pose proof (len_nonneg (overlap_bytes_of to_lowercase (snd (cut_token t v)))).
    apply suffix_entries_ok; [apply flat_utf8_ok; by apply lower_chars|by apply overlap_bytes_ok|done| |].
    + intros si. destruct (si =? 0); done.
    + intros si _. simpl. split; [done|]. split; [apply Z.mod_pos_bound; lia|]. split; [done|]. split; [done|].
      apply as_u8_id. widths. lia.
  - intros (Ht & Hv & Ho & Hs). pose proof (len_overlap_bytes to_lowercase v) as Hov.
    pose proof (len_nonneg (overlap_bytes_of to_lowercase v)).
    apply suffix_entries_ok; [apply Forall_take, flat_utf8_ok; by apply lower_chars|by apply overlap_bytes_ok|done|done|].
    intros si _. simpl. split; [done|]. split; [apply Z.mod_pos_bound; lia|]. split; [apply Z.mod_pos_bound; lia|].
    split; [done|]. apply as_u8_id. widths. lia.
Qed.

(** The builder after a sequence of calls. *)
Lemma calls_builder min cs :
  Forall call_ok cs →
  ∃ b, foldM (apply_call to_lowercase) (with_min_suffix_len min) cs = Ret b ∧ max_ordinal b = MAX_ORDINAL ∧
    let kqs := flat_map (call_entries to_lowercase min) cs in
    #kqs ≤ #(key_buf b) ∧ (#(key_buf b) < 2 ^ 32 → binv b kqs) ∧
    Forall (λ kq, bytes_ok (fst kq) ∧ parent_ok (snd kq)) kqs.
Proof using lower_chars.
  intros Hcs. destruct (apply_calls_spec to_lowercase cs (with_min_suffix_len min)) as (b & E & Hg & Hn & H).
  { eapply Forall_impl; [exact Hcs|]. intros [t o w s v ws|t v o s ws]; simpl; [done|]. by intros (_ & _ & _ & ?). }
  exists b. split; [done|]. destruct Hg as (_ & _ & -> & _). split; [done|].
  simpl in Hn. rewrite len_nil in Hn. split; [lia|]. split; [intros Hlt; apply (H []); [constructor|done]|].
  apply Forall_flat_map. eapply Forall_impl; [exact Hcs|]. apply call_entries_ok.
Qed.

(** The text a call indexes, the partition of a suffix, and the token. *)
Definition own_text (c : call) : list Z :=
  match c with
  | Token t _ _ _ v _ => to_lowercase (fst (cut_token t v))
  | Word t _ _ _ _ => to_lowercase t
  end.
Definition partition (c : call) (si : Z) : Z :=
  match c with
  | Token _ _ _ _ _ _ => if si =? 0 then SI0_PREFIX else SI_REST_PREFIX
  | Word _ _ _ _ _ => SI_STRIPPED_PREFIX
  end.
Definition call_ordinal (c : call) : Z :=
  match c with Token _ o _ _ _ _ => o | Word _ _ o _ _ => o end.

(** A word is cut at 16383 bytes, its separators included. *)
Definition uncut (c : call) : Prop :=
  match c with
  | Token _ _ _ _ _ _ => True
  | Word t _ _ s _ => str_len (to_lowercase t) ≤ OWN_LEN_MASK - s
  end.

Lemma boundary_of_chars a c : Forall is_char c → c ≠ [] → boundary_at (flat_map utf8 (a ++ c)) (str_len a) = true.
Proof using.
  intros Hc Hne. destruct c as [|x c]; [done|]. apply Forall_cons in Hc as [Hx _].
  destruct (utf8_head x Hx) as (h & t & E & Hh). unfold boundary_at, is_utf8_char_boundary.
  rewrite flat_map_app. cbn [flat_map]. rewrite E. pose proof (str_len_bytes a) as Ha.
  destruct (Z.leb_spec #(flat_map utf8 a ++ (h :: t) ++ flat_map utf8 c) (str_len a)) as [|_]; [done|].
  rewrite (At_index _ _ h (t ++ flat_map utf8 c)), bind_ret; [by rewrite Hh|]. rewrite <- Ha. apply At_app.
Qed.

Lemma suffix_entry min bytes ov prefix_of parent_of si :
  kept min bytes ov si = true → 0 ≤ si < Z.min #bytes MAX_CHUNK_BYTES →
  (prefix_of si :: drop (Z.to_nat si) bytes, with_overlap (parent_of si) ov) ∈
    suffix_entries min (Z.min #bytes MAX_CHUNK_BYTES) bytes ov prefix_of parent_of.
Proof using.
  intros Hk Hsi. apply list_elem_of_In, in_map_iff. exists si. split; [done|]. apply filter_In. split; [|done].
  apply list_elem_of_In, elem_of_range. lia.
Qed.

(** Every suffix of a text that is long enough has its entry. *)
Lemma call_suffix min c a d :
  call_ok c → uncut c → own_text c = a ++ d → d ≠ [] → str_len a < MAX_CHUNK_BYTES → (a = [] ∨ min ≤ str_len d) →
  ∃ q, (partition c (str_len a) :: flat_map utf8 d, q) ∈ call_entries to_lowercase min c ∧
    raw_ordinal q = call_ordinal c ∧ sti q = str_len a.
Proof using lower_chars.
  intros Hok Hcut Et Hd Ha Hmin. pose proof (str_len_nonneg a) as Ha0.
  assert (Forall is_char (a ++ d)) as Hch.
  { rewrite <- Et. destruct c as [t o w s v ws|t v o s ws]; simpl in *; apply lower_chars; [|apply Hok].
    destruct Hok as [Ht _]. destruct (cut_token_spec t v) as [E _]. rewrite E in Ht. by apply Forall_app in Ht as [? _]. }
  apply Forall_app in Hch as [_ Hchd].
  assert (#(flat_map utf8 (a ++ d)) = str_len a + str_len d) as Hl by (by rewrite str_len_bytes, str_len_app).
  assert (0 < str_len d) as Hd0 by (destruct d as [|x d]; [done|apply str_len_pos]).
  assert (drop (Z.to_nat (str_len a)) (flat_map utf8 (a ++ d)) = flat_map utf8 d) as Edrop.
  { rewrite flat_map_app, <- str_len_bytes, len_to_nat. apply drop_app_length. }
  assert (∀ ov, kept min (flat_map utf8 (a ++ d)) ov (str_len a) = true) as Hk.
  { intros ov. unfold kept. rewrite (boundary_of_chars a d Hchd Hd). pose proof (len_nonneg ov).
    destruct Hmin as [-> |Hmin]; [done|]. simpl. destruct (str_len a =? 0); simpl; lia. }
  assert (as_u16 (str_len a) = str_len a) as E16 by (apply as_u16_id; unfold fits, MAX_CHUNK_BYTES in *; lia).
  unfold MAX_CHUNK_BYTES in Ha.
  destruct c as [t o w s v ws|t v o s ws]; simpl in Et; cbn [call_entries]; rewrite Et.
  - eexists. split; [rewrite <- Edrop; apply suffix_entry; [apply Hk|unfold MAX_CHUNK_BYTES; lia]|by simpl].
  - simpl in Hcut. rewrite Et, str_len_app in Hcut. rewrite take_ge by (unfold len in Hl; lia).
    eexists. split; [rewrite <- Edrop; apply (suffix_entry _ _ _ (λ _, SI_STRIPPED_PREFIX)); [apply Hk|unfold MAX_CHUNK_BYTES; lia]|by simpl].
Qed.

(** The calls within the limits give a dictionary. *)
Lemma calls_dictionary min cs b :
  Forall call_ok cs → foldM (apply_call to_lowercase) (with_min_suffix_len min) cs = Ret b → #(key_buf b) < 2 ^ 32 →
  let kqs := flat_map (call_entries to_lowercase min) cs in
  Forall (λ kq, check_parent MAX_ORDINAL (snd kq) = None) kqs → ∃ built, build b = Ret (Ok built) ∧ dictionary_of kqs built.
Proof using lower_chars.
  intros Hcs Eb Hlt kqs Hlim. destruct (calls_builder min cs Hcs) as (b' & E & Em & Hn & Hb & Hok). rewrite Eb in E. injection E as <-.
  destruct (build_spec b kqs (Hb Hlt) Hlt Hn Hok) as (lqs & Hs & Hsub & Hrep & Hbuild). rewrite Em, first_error_none in Hbuild.
  - destruct Hbuild as (built & G & rs & Ebuilt & Hc & Hu & HG & Hf & Ht & Hnt & Hlay & Hl). exists built. split; [done|].
    apply (dictionary_built kqs lqs G rs); try done. intros kq Hk. exact (binv_padded b _ kq (Hb Hlt) Hk).
  - intros kq Hk. rewrite Forall_forall in Hlim. by apply Hlim, Hsub.
Qed.

(** ** Properties *)

(** C20. The dictionary holds what the calls say.  After any sequence of
    [add_token] and [add_word_stripped], as long as the keys take less than
    the 2^32 bytes their positions can address, [build] succeeds when every
    parent is within the limits, and the result is the dictionary of the
    calls' suffixes: its keys are exactly theirs, inserted in strictly
    increasing order, and the record at each key's offset decodes to parents
    of that key, overlap bytes included, one and only one for each token and
    suffix index.  An ordinal above the limit makes [build] fail. *)
Theorem suffix_build_correct (min : Z) (cs : list call) :
  Forall call_ok cs →
  ∃ b, foldM (apply_call to_lowercase) (with_min_suffix_len min) cs = Ret b ∧
    (#(key_buf b) < 2 ^ 32 →
     let kqs := flat_map (call_entries to_lowercase min) cs in
     (Forall (λ kq, check_parent MAX_ORDINAL (snd kq) = None) kqs →
        ∃ built, build b = Ret (Ok built) ∧ dictionary_of kqs built) ∧
     (∀ kq, kq ∈ kqs → MAX_ORDINAL < raw_ordinal (snd kq) → ∃ e, build b = Ret (Err e))).
Proof using lower_chars.
  intros Hcs. destruct (calls_builder min cs Hcs) as (b & E & Em & Hn & Hb & Hok). exists b. split; [done|].
  intros Hlt kqs. split; [by apply calls_dictionary|]. intros kq Hk Hbig.
  destruct (build_spec b kqs (Hb Hlt) Hlt Hn Hok) as (lqs & Hs & Hsub & Hrep & Hbuild). rewrite Em in Hbuild.
  destruct (Hrep kq Hk) as (kq' & Hk' & (_ & Eo & _)%kq_cmp_eq).
  destruct (first_error_some MAX_ORDINAL lqs kq' Hk') as [e Ee]; [rewrite <- Eo; exact Hbig|].
  rewrite Ee in Hbuild. by exists e.
Qed.

(** Every suffix can be looked up.  For any call of a valid sequence and
    any cut of its lower-case text [a ++ d] between characters, with [a]
    shorter than 256 bytes and [d] not shorter than the minimum (or [a]
    empty), the built dictionary has the key of [d] in the call's partition,
    and the record found there decodes to a list with a parent that names the
    call's token and the byte length of [a]. *)
Theorem suffix_found (min : Z) (cs : list call) (b : SuffixFstBuilderV3) (c : call) (a d : list Z) :
  Forall call_ok cs → c ∈ cs → uncut c → own_text c = a ++ d → d ≠ [] →
  str_len a < MAX_CHUNK_BYTES → (a = [] ∨ min ≤ str_len d) →
  foldM (apply_call to_lowercase) (with_min_suffix_len min) cs = Ret b → #(key_buf b) < 2 ^ 32 →
  Forall (λ kq, check_parent MAX_ORDINAL (snd kq) = None) (flat_map (call_entries to_lowercase min) cs) →
  ∃ built off record ps p, build b = Ret (Ok built) ∧
    (partition c (str_len a) :: flat_map utf8 d, off) ∈ bt_fst built ∧
    table_get (bt_table built) off = Ret record ∧
    decode_parent_entries_v8 record (partition c (str_len a) :: flat_map utf8 d) = Ret ps ∧
    p ∈ ps ∧ raw_ordinal p = call_ordinal c ∧ sti p = str_len a.
Proof using lower_chars.
  intros Hcs Hc Hcut Et Hd Ha Hmin Eb Hlt Hlim.
  destruct (calls_dictionary min cs b Hcs Eb Hlt Hlim) as (built & Ebuilt & _ & Hkeys & _ & Hrec).
  rewrite Forall_forall in Hcs. destruct (call_suffix min c a d (Hcs c Hc) Hcut Et Hd Ha Hmin) as (q & Hq & Ho & Hsti).
  set (key := partition c (str_len a) :: flat_map utf8 d) in *.
  assert ((key, q) ∈ flat_map (call_entries to_lowercase min) cs) as Hin.
  { apply list_elem_of_In, in_flat_map. exists c. split; by apply list_elem_of_In. }
  assert (key ∈ map fst (bt_fst built)) as Hkey.
  { apply Hkeys, list_elem_of_In, in_map_iff. exists (key, q). split; [done|by apply list_elem_of_In]. }
  apply list_elem_of_In, in_map_iff in Hkey as ([k off] & Ek & Hko%list_elem_of_In). simpl in Ek. subst k.
  destruct (Hrec key off Hko) as (record & ps & Hget & Hdec & _ & _ & _ & _ & Hall). destruct (Hall q Hin) as (p & Hp & E1 & E2).
  exists built, off, record, ps, p. split_and!; try done; congruence.
Qed.
End Build.

(** ** Witnesses *)

(** The lower case of ASCII letters. *)
Definition ascii_lower (s : list Z) : list Z := map (λ c, if (65 <=? c) && (c <=? 90) then c + 32 else c) s.

Lemma ascii_lower_chars s : Forall is_char s → Forall is_char (ascii_lower s).
Proof. intros H. apply Forall_map. eapply Forall_impl; [exact H|]. intros c Hc. unfold is_char in *. simpl. case_match; lia. Qed.

(** "Abc" with an overlap, twice, "bc " with an accented letter before it,
    and the word "abc". *)
Definition sample_calls : list call :=
  [Token [65; 98; 99; 100] 0 3 0 1 true; Token [65; 98; 99; 100] 0 3 0 1 true; Token [233; 98; 99] 5 4 0 0 false;
   Word [97; 98; 99] [32] 7 1 true].

Definition value_of {A} (d : A) (x : out A) : A := match x with Ret a => a | _ => d end.

Definition sample_builder : SuffixFstBuilderV3 :=
  Eval vm_compute in value_of (with_min_suffix_len 2) (foldM (apply_call ascii_lower) (with_min_suffix_len 2) sample_calls).

Lemma sample_calls_ok : Forall call_ok sample_calls.
Proof. by apply (bool_decide_unpack _). Qed.

Lemma suffix_build_correct_witness :
  ∃ built, build sample_builder = Ret (Ok built) ∧ dictionary_of (flat_map (call_entries ascii_lower 2) sample_calls) built.
Proof.
  destruct (suffix_build_correct ascii_lower ascii_lower_chars 2 sample_calls sample_calls_ok) as (b & E & H).
  assert (b = sample_builder) as -> by (vm_compute in E; by injection E as <-).
  apply H; [done|by apply (bool_decide_unpack _)].
Defined.

Lemma suffix_found_witness :
  ∃ built off record ps p, build sample_builder = Ret (Ok built) ∧
    ([SI_REST_PREFIX; 98; 99], off) ∈ bt_fst built ∧ table_get (bt_table built) off = Ret record ∧
    decode_parent_entries_v8 record [SI_REST_PREFIX; 98; 99] = Ret ps ∧ p ∈ ps ∧ raw_ordinal p = 5 ∧ sti p = 2.
Proof.
  apply (suffix_found ascii_lower ascii_lower_chars 2 sample_calls sample_builder (Token [233; 98; 99] 5 4 0 0 false) [233] [98; 99]).
  - exact sample_calls_ok.
  - by right; right; left.
  - done.
  - done.
  - done.
  - done.
  - by right.
  - by vm_compute.
  - done.
  - by apply (bool_decide_unpack _).
Defined.
