(* ===== verification/DocSet.v ===== *)
(** * Document sets ([src/docset.rs])

    A query runs as a tree of [DocSet]s, cursors over increasing document
    ids.  The trait is a class here, [DocSet]; what one docset may rely on in
    another is a second class, [DocSetLaws], against which the combinators
    (intersection, exclusion, unions, disjunction) are proved and which they
    discharge in turn.  Besides the ordinary position there is the state the
    trait calls the danger zone: after [seek_into_the_danger_zone] has
    returned false only that method may be called, until it returns true. *)
From S2P Require Import Prelude.

(** ** Loops *)

(** At most [p] turns of [f], which goes on with [inl] and ends with [inr]. *)
Fixpoint turns {S R} (p : positive) (f : S → out (S + R)) (s : S) : out (S + R) :=
  let twice q s :=
    r ← turns q f s;
    match r with inl s => turns q f s | inr r => Ret (inr r) end in
  match p with
  | xH => f s
  | xO q => twice q s
  | xI q => r ← f s; match r with inl s => twice q s | inr r => Ret (inr r) end
  end.

(** A loop whose every turn consumes a 32-bit id: [2 ^ 32] turns. *)
Definition loop {S R} (f : S → out (S + R)) (s : S) : out R :=
  r ← turns (2 ^ 32) f s;
  match r with inl _ => OutOfFuel | inr r => Ret r end.

Section Loops.
Context {S R : Type} (f : S → out (S + R)) (I : S → Prop) (m : S → Z) (Q : R → Prop).
Context (Hf : ∀ s, I s → ∃ r, f s = Ret r ∧ match r with inl s' => I s' ∧ m s' < m s | inr r => Q r end).

Lemma turns_spec p : ∀ s, I s →
  ∃ r, turns p f s = Ret r ∧ match r with inl s' => I s' ∧ m s' ≤ m s - Z.pos p | inr r => Q r end.
Proof using Hf.
  assert (∀ q, (∀ s, I s → ∃ r, turns q f s = Ret r ∧ match r with inl s' => I s' ∧ m s' ≤ m s - Z.pos q | inr r => Q r end) →
    ∀ s, I s → ∃ r, (r ← turns q f s; match r with inl s => turns q f s | inr r => Ret (inr r) end) = Ret r ∧
      match r with inl s' => I s' ∧ m s' ≤ m s - 2 * Z.pos q | inr r => Q r end) as Htwice.
  { intros q IH s Hs. destruct (IH s Hs) as ([s1|r] & -> & H); rewrite bind_ret; [|by exists (inr r)].
    destruct H as [Hs1 Hm]. destruct (IH s1 Hs1) as ([s2|r] & -> & H); [|by exists (inr r)].
    exists (inl s2). split; [done|]. destruct H. split; [done|lia]. }
  induction p as [p IH|p IH|]; intros s Hs; cbn [turns].
  - destruct (Hf s Hs) as ([s1|r] & -> & H); rewrite bind_ret; [|by exists (inr r)]. destruct H as [Hs1 Hm].
    destruct (Htwice p IH s1 Hs1) as ([s2|r] & -> & H); [|by exists (inr r)].
    exists (inl s2). split; [done|]. destruct H. split; [done|lia].
  - destruct (Htwice p IH s Hs) as ([s2|r] & -> & H); [|by exists (inr r)].
    exists (inl s2). split; [done|]. destruct H. split; [done|lia].
  - destruct (Hf s Hs) as ([s1|r] & -> & H); [|by exists (inr r)].
    exists (inl s1). split; [done|]. destruct H. split; [done|lia].
Qed.

(** Total correctness: an invariant and a measure below the bound. *)
Lemma loop_spec s : I s → (∀ s, I s → 0 ≤ m s) → m s < 2 ^ 32 → ∃ r, loop f s = Ret r ∧ Q r.
Proof using Hf.
  intros Hs Hpos Hlt. unfold loop. destruct (turns_spec (2 ^ 32) s Hs) as ([s'|r] & -> & H); rewrite bind_ret.
  - destruct H as [Hs' Hm]. specialize (Hpos s' Hs'). lia.
  - by exists r.
Qed.
End Loops.

(** A loop whose states go round among [I] runs out of any number of turns. *)
Lemma turns_forever {S R} (f : S → out (S + R)) (I : S → Prop) p : (∀ s, I s → ∃ s', f s = Ret (inl s') ∧ I s') →
  ∀ s, I s → ∃ s', turns p f s = Ret (inl s') ∧ I s'.
Proof.
  intros Hf. assert (∀ q, (∀ s, I s → ∃ s', turns q f s = Ret (inl s') ∧ I s') → ∀ s, I s →
    ∃ s', (r ← turns q f s; match r with inl s => turns q f s | inr r => Ret (inr r) end) = Ret (inl s') ∧ I s') as Htwice.
  { intros q IH s Hs. destruct (IH s Hs) as (s1 & -> & Hs1). by apply IH. }
  induction p as [p IH|p IH|]; intros s Hs; cbn [turns]; [|by apply Htwice|by apply Hf].
  destruct (Hf s Hs) as (s1 & -> & Hs1). by apply Htwice.
Qed.

Lemma loop_out_of_fuel {S R} (f : S → out (S + R)) s : (∀ n, ∃ y, turns n f s = Ret (inl y)) → loop f s = OutOfFuel.
Proof. intros Hn. unfold loop. generalize (2 ^ 32)%positive. intros p. by destruct (Hn p) as [y ->]. Qed.

(** Unfolded last when terms are compared. *)
Strategy 1000 [loop].

(** ** Lists of docsets *)

Lemma Forall2_perm {A B} (P : A → B → Prop) (ss ss' : list A) ls :
  Forall2 P ss ls → ss' ≡ₚ ss → ∃ ls', Forall2 P ss' ls' ∧ ls' ≡ₚ ls.
Proof.
  intros Hs Hp. revert ls Hs. symmetry in Hp. induction Hp as [|s ss ss' Hp IH|s1 s2 ss|s1 s2 s3 Hp1 IH1 Hp2 IH2]; intros ls Hs.
  - by exists ls.
  - apply Forall2_cons_inv_l in Hs as (l & ls0 & Hl & Hs & ->). destruct (IH _ Hs) as (ls' & Hs' & Hp'). exists (l :: ls'). split; [by constructor|by f_equiv].
  - apply Forall2_cons_inv_l in Hs as (l1 & ls0 & H1 & Hs & ->). apply Forall2_cons_inv_l in Hs as (l2 & ls1 & H2 & Hs & ->).
    exists (l2 :: l1 :: ls1). split; [by repeat constructor|constructor].
  - destruct (IH1 _ Hs) as (ls1 & Hs1 & Hp1'). destruct (IH2 _ Hs1) as (ls2 & Hs2 & Hp2'). exists ls2. split; [done|by etrans].
Qed.

(** ** The trait *)

Module docset.

Definition TERMINATED : Z := 2 ^ 31 - 1.
Definition COLLECT_BLOCK_BUFFER_LEN : nat := 64.

(** A method that moves the docset returns it. *)
Class DocSet (S : Type) := {
  doc : S → Z;
  advance : S → out (S * Z);
  seek : S → Z → out (S * Z);
  seek_into_the_danger_zone : S → Z → out (S * bool);
}.

(** The provided bodies of [seek] and [seek_into_the_danger_zone]. *)
Definition default_seek {S} (doc : S → Z) (advance : S → out (S * Z)) (s : S) (target : Z) : out (S * Z) :=
  loop (λ '(s, d), if d <? target then '(s, d) ← advance s; Ret (inl (s, d)) else Ret (inr (s, d))) (s, doc s).

Definition default_danger {S} (doc : S → Z) (seek : S → Z → out (S * Z)) (s : S) (target : Z) : out (S * bool) :=
  s ← (if doc s <? target then '(s, _) ← seek s target; Ret s else Ret s);
  Ret (s, doc s =? target).

Section Provided.
Context {S : Type} `{DocSet S}.

(** The loop of [fill_buffer] from index [i] on. *)
Fixpoint fill_loop (n : nat) (i : nat) (s : S) (buffer : list Z) : out (S * list Z * Z) :=
  match n with
  | O => Ret (s, buffer, #buffer)
  | Datatypes.S n =>
      let buffer := <[i := doc s]> buffer in
      '(s, d) ← advance s;
      if d =? TERMINATED then Ret (s, buffer, Z.of_nat i + 1) else fill_loop n (Datatypes.S i) s buffer
  end.

Definition fill_buffer (s : S) (buffer : list Z) : out (S * list Z * Z) :=
  if doc s =? TERMINATED then Ret (s, buffer, 0) else fill_loop (length buffer) 0 s buffer.

Definition count (alive : Z → bool) (s : S) : out (S * Z) :=
  loop (λ '(s, d, n),
    if d =? TERMINATED then Ret (inr (s, n))
    else let n := if alive d then add32 n 1 else n in
         '(s, d) ← advance s; Ret (inl (s, d, n))) (s, doc s, 0).

Definition count_including_deleted (s : S) : out (S * Z) :=
  loop (λ '(s, d, n),
    if d =? TERMINATED then Ret (inr (s, n))
    else let n := add32 n 1 in
         '(s, d) ← advance s; Ret (inl (s, d, n))) (s, doc s, 0).
End Provided.

(** [impl DocSet for &mut dyn DocSet]: a docset of either type. *)
#[export] Instance DocSet_dyn {A B} `{DocSet A} `{DocSet B} : DocSet (A + B) := {
  doc s := match s with inl a => doc a | inr b => doc b end;
  advance s := match s with
               | inl a => '(a, d) ← advance a; Ret (inl a, d)
               | inr b => '(b, d) ← advance b; Ret (inr b, d)
               end;
  seek s t := match s with
              | inl a => '(a, d) ← seek a t; Ret (inl a, d)
              | inr b => '(b, d) ← seek b t; Ret (inr b, d)
              end;
  seek_into_the_danger_zone s t := match s with
                                   | inl a => '(a, d) ← seek_into_the_danger_zone a t; Ret (inl a, d)
                                   | inr b => '(b, d) ← seek_into_the_danger_zone b t; Ret (inr b, d)
                                   end;
}.

(** ** [VecDocSet] ([query/vec_docset.rs]) *)

Record VecDocSet := { doc_ids : list Z; cursor : Z }.

Definition from_vec (doc_ids : list Z) : VecDocSet := {| doc_ids := doc_ids; cursor := 0 |}.

(** The index is in range unless the docset has ended, which is the only case
    in which the source would panic. *)
Definition vec_doc (s : VecDocSet) : Z :=
  if cursor s =? #(doc_ids s) then TERMINATED
  else match doc_ids s !! Z.to_nat (cursor s) with Some d => d | None => TERMINATED end.

Definition vec_advance (s : VecDocSet) : out (VecDocSet * Z) :=
  let c := cursor s + 1 in
  if #(doc_ids s) <=? c
  then Ret ({| doc_ids := doc_ids s; cursor := #(doc_ids s) |}, TERMINATED)
  else let s := {| doc_ids := doc_ids s; cursor := c |} in Ret (s, vec_doc s).

#[export] Instance DocSet_Vec : DocSet VecDocSet := {
  doc := vec_doc;
  advance := vec_advance;
  seek := default_seek vec_doc vec_advance;
  seek_into_the_danger_zone := default_danger vec_doc (default_seek vec_doc vec_advance);
}.

End docset.
Import docset.

(** ** Increasing lists of ids *)

Definition docs_ok (l : list Z) : Prop := StronglySorted Z.lt l ∧ Forall (λ d, 0 ≤ d < TERMINATED) l.

(** Where a docset over [l] stands, and what of [l] is at or past [t]. *)
Definition first (l : list Z) : Z := match l with [] => TERMINATED | d :: _ => d end.
Definition from (t : Z) (l : list Z) : list Z := filter (λ d, t ≤ d) l.

Lemma elem_from t l d : d ∈ from t l ↔ t ≤ d ∧ d ∈ l.
Proof. unfold from. by rewrite list_elem_of_filter. Qed.

Lemma docs_nil : docs_ok [].
Proof. split; constructor. Qed.

Lemma docs_cons_inv d l : docs_ok (d :: l) → docs_ok l ∧ 0 ≤ d < TERMINATED ∧ Forall (Z.lt d) l.
Proof. intros [Hs Hb]. apply StronglySorted_inv in Hs as [Hs Hd]. apply Forall_cons in Hb as [? ?]. split; [by split|by split]. Qed.

Lemma docs_cons d l : docs_ok l → 0 ≤ d < TERMINATED → Forall (Z.lt d) l → docs_ok (d :: l).
Proof. intros [? ?] ? ?. split; constructor; done. Qed.

Lemma docs_bound l d : docs_ok l → d ∈ l → 0 ≤ d < TERMINATED.
Proof. intros [_ Hb] Hd. rewrite Forall_forall in Hb. by apply Hb. Qed.

Lemma docs_tail l : docs_ok l → docs_ok (tail l).
Proof. destruct l as [|d l]; [done|]. by intros (? & _ & _)%docs_cons_inv. Qed.

Lemma docs_filter (P : Z → Prop) `{∀ d, Decision (P d)} l : docs_ok l → docs_ok (filter P l).
Proof.
  induction l as [|d l IH]; [done|]. intros (Hl & Hd & Hlt)%docs_cons_inv. rewrite filter_cons. case_decide; [|by apply IH].
  apply docs_cons; [by apply IH|done|]. rewrite Forall_forall in *. intros x [_ Hx]%list_elem_of_filter. by apply Hlt.
Qed.

Lemma docs_from t l : docs_ok l → docs_ok (from t l).
Proof. apply docs_filter. Qed.

Lemma first_min l d : docs_ok l → d ∈ l → first l ≤ d.
Proof.
  intros Hl Hd. destruct l as [|x l]; [by apply elem_of_nil in Hd|]. apply docs_cons_inv in Hl as (_ & _ & Hlt).
  apply elem_of_cons in Hd as [->|Hd]; simpl; [done|]. rewrite Forall_forall in Hlt. specialize (Hlt d Hd). lia.
Qed.

Lemma first_bound l : docs_ok l → 0 ≤ first l ≤ TERMINATED.
Proof. destruct l as [|d l]; [simpl; unfold TERMINATED; lia|]. intros (_ & ? & _)%docs_cons_inv. simpl. lia. Qed.

Lemma first_cases l : docs_ok l → l = [] ∧ first l = TERMINATED ∨ first l ∈ l ∧ first l < TERMINATED.
Proof. destruct l as [|d l]; [by left|]. intros (_ & ? & _)%docs_cons_inv. right. split; [by left|]. simpl. lia. Qed.

Lemma first_end l : docs_ok l → first l = TERMINATED ↔ l = [].
Proof. intros Hl. destruct (first_cases l Hl) as [[-> ?]|[Hin ?]]; [done|]. split; [lia|]. intros ->. by apply elem_of_nil in Hin. Qed.

Lemma elem_tail l d : docs_ok l → d ∈ tail l ↔ d ∈ l ∧ first l < d.
Proof.
  destruct l as [|x l]; [intros _; simpl; rewrite elem_of_nil; tauto|]. intros (_ & _ & Hlt)%docs_cons_inv. simpl.
  rewrite Forall_forall in Hlt. rewrite elem_of_cons. split; [intros Hd; split; [by right|by apply Hlt]|].
  intros [[->|?] ?]; [lia|done].
Qed.

(** An increasing list is determined by its elements. *)
Lemma docs_ext l l' : docs_ok l → docs_ok l' → (∀ d, d ∈ l ↔ d ∈ l') → l = l'.
Proof.
  revert l'. induction l as [|d l IH]; intros [|d' l'] Hl Hl' He; [done| | |].
  - exfalso. by apply (elem_of_nil d'), He; left.
  - exfalso. by apply (elem_of_nil d), He; left.
  - assert (d = d') as ->.
    { pose proof (first_min _ d' Hl (proj2 (He d') ltac:(by left))). pose proof (first_min _ d Hl' (proj1 (He d) ltac:(by left))). simpl in *. lia. }
    f_equal. apply IH; [by apply (docs_tail (d' :: l))|by apply (docs_tail (d' :: l'))|].
    intros x. change l with (tail (d' :: l)). change l' with (tail (d' :: l')). rewrite !elem_tail by done. by rewrite He.
Qed.

(** The least element of a list, from its membership. *)
Lemma first_least l d : docs_ok l → d ∈ l → (∀ x, x ∈ l → d ≤ x) → first l = d.
Proof.
  intros Hl Hd Hmin. pose proof (first_min l d Hl Hd). destruct (first_cases l Hl) as [[-> _]|[Hin _]]; [by apply elem_of_nil in Hd|].
  specialize (Hmin _ Hin). lia.
Qed.

Lemma first_lower l t : docs_ok l → t ≤ TERMINATED → (∀ x, x ∈ l → t ≤ x) → t ≤ first l.
Proof. intros Hl Ht Hx. destruct (first_cases l Hl) as [[_ ->]|[Hin _]]; [done|by apply Hx]. Qed.

Lemma first_from l t : docs_ok l → t ≤ TERMINATED → t ≤ first (from t l).
Proof. intros Hl Ht. apply first_lower; [by apply docs_from|done|]. by intros x [? _]%elem_from. Qed.

Lemma from_id l t : docs_ok l → t ≤ first l → from t l = l.
Proof.
  intros Hl Ht. apply docs_ext; [by apply docs_from|done|]. intros d. rewrite elem_from. split; [tauto|].
  intros Hd. split; [|done]. pose proof (first_min l d Hl Hd). lia.
Qed.

Lemma from_from l t t' : t ≤ t' → from t' (from t l) = from t' l.
Proof.
  intros Ht. unfold from. rewrite list_filter_filter_l; [done|]. intros x ?. lia.
Qed.

Lemma from_end l : docs_ok l → from TERMINATED l = [].
Proof.
  intros Hl. apply docs_ext; [by apply docs_from|apply docs_nil|]. intros d. rewrite elem_from, elem_of_nil.
  split; [|done]. intros [? Hd]. pose proof (docs_bound l d Hl Hd). lia.
Qed.

(** A hit at [t]: the list from [t] on starts with it, or has ended. *)
Lemma first_from_hit l t : docs_ok l → t < TERMINATED → first (from t l) = t ↔ t ∈ l.
Proof.
  intros Hl Ht. split; intros H.
  - destruct (first_cases _ (docs_from t l Hl)) as [[_ ?]|[Hin _]]; [lia|]. rewrite H in Hin. by apply elem_from in Hin as [_ ?].
  - apply first_least; [by apply docs_from|by apply elem_from|]. by intros x [? _]%elem_from.
Qed.

Lemma miss_lt l c : docs_ok l → first (from c l) ≠ c → c ≤ TERMINATED → c < TERMINATED ∧ c ∉ l.
Proof.
  intros Hl Hf Hc. assert (c < TERMINATED) as Hlt.
  { destruct (Z.lt_ge_cases c TERMINATED); [done|]. assert (c = TERMINATED) as -> by lia. by rewrite from_end in Hf. }
  split; [done|]. by rewrite <- first_from_hit.
Qed.

Lemma tail_after l : docs_ok l → first l < TERMINATED → first l < first (tail l).
Proof.
  intros Hl Hlt. destruct (first_cases _ (docs_tail l Hl)) as [[_ ->]|[Hin _]]; [done|]. by apply elem_tail in Hin as [_ ?].
Qed.

(** Two lists with the same documents from [t] on. *)
Definition keeps (t : Z) (l l' : list Z) : Prop := ∀ d, t ≤ d → d ∈ l ↔ d ∈ l'.

Lemma keeps_refl t l : keeps t l l.
Proof. done. Qed.

Lemma keeps_from t l : keeps t l (from t l).
Proof. intros d Hd. rewrite elem_from. tauto. Qed.

Lemma keeps_mono t t' l l' : keeps t l l' → t ≤ t' → keeps t' l l'.
Proof. intros Hk Ht d Hd. apply Hk. lia. Qed.

Lemma keeps_trans t l1 l2 l3 : keeps t l1 l2 → keeps t l2 l3 → keeps t l1 l3.
Proof. intros H1 H2 d Hd. by rewrite (H1 d Hd), (H2 d Hd). Qed.

Lemma keeps_eq t l l' : docs_ok l → docs_ok l' → keeps t l l' → from t l = from t l'.
Proof. intros Hl Hl' Hk. apply docs_ext; [by apply docs_from..|]. intros d. rewrite !elem_from. split; intros [? ?]; (split; [done|by apply Hk]). Qed.

Lemma len_docs l : docs_ok l → #l ≤ TERMINATED - first l.
Proof.
  induction l as [|d l IH]; [done|]. intros (Hl & Hd & Hlt)%docs_cons_inv. specialize (IH Hl). rewrite len_cons. simpl.
  destruct (first_cases l Hl) as [[-> _]|[Hin _]]; [rewrite len_nil; lia|]. rewrite Forall_forall in Hlt. specialize (Hlt _ Hin). lia.
Qed.

Lemma len_docs_bound l : docs_ok l → 0 ≤ #l < 2 ^ 31.
Proof. intros Hl. pose proof (len_docs l Hl). pose proof (first_bound l Hl). pose proof (len_nonneg l). unfold TERMINATED in *. lia. Qed.

(** ** The contract *)

(** [stands s l]: the docset is in a valid state, on the first of the
    documents [l] that it still holds.  [adrift s t l]: it is in the danger
    zone after a failed look-up of [t]; of the documents [l] those past [t]
    are still ahead, and [doc] is no further than the next of them. *)
Class DocSetLaws (S : Type) `{DocSet S} := {
  stands : S → list Z → Prop;
  adrift : S → Z → list Z → Prop;
  stands_docs s l : stands s l → docs_ok l;
  adrift_docs s t l : adrift s t l → docs_ok l ∧ t ≤ TERMINATED;
  doc_stands s l : stands s l → doc s = first l;
  doc_adrift s t l : adrift s t l → doc s ≤ first (from t l);
  advance_stands s l : stands s l → ∃ s', advance s = Ret (s', first (tail l)) ∧ stands s' (tail l);
  seek_stands s l t : stands s l → first l ≤ t ≤ TERMINATED →
    ∃ s', seek s t = Ret (s', first (from t l)) ∧ stands s' (from t l);
  danger_stands s l t : stands s l → first l ≤ t < TERMINATED →
    ∃ s' b, seek_into_the_danger_zone s t = Ret (s', b) ∧
      if b : bool then first (from t l) = t ∧ stands s' (from t l) else first (from t l) ≠ t ∧ adrift s' t l;
  danger_adrift s l t0 t : adrift s t0 l → t0 ≤ t < TERMINATED →
    ∃ s' b, seek_into_the_danger_zone s t = Ret (s', b) ∧
      if b : bool then first (from t l) = t ∧ stands s' (from t l) else first (from t l) ≠ t ∧ adrift s' t l;
  seek_adrift_end s t l : adrift s t l → ∃ s', seek s TERMINATED = Ret (s', TERMINATED) ∧ stands s' [];
}.

(** What the intersection relies on beyond it: a look-up of [TERMINATED], which
    no docset holds, ends the docset and returns true.  The provided method
    does so. *)
Class DocSetEnds (S : Type) `{DocSetLaws S} := {
  danger_end s l : stands s l → ∃ s', seek_into_the_danger_zone s TERMINATED = Ret (s', true) ∧ stands s' [];
  danger_end_adrift s t l : adrift s t l → ∃ s', seek_into_the_danger_zone s TERMINATED = Ret (s', true) ∧ stands s' [];
}.

(** What the buffered union relies on beyond it.  In the danger zone [doc] is
    before the target, and then [seek] may resume, or it is a hit, and then
    the state is valid; and a look-up of a target that is behind is harmless. *)
Class DocSetResumes (S : Type) `{DocSetLaws S} := {
  resume_seek s t0 l t : adrift s t0 l → t0 ≤ t ≤ TERMINATED → doc s < t →
    ∃ s', seek s t = Ret (s', first (from t l)) ∧ stands s' (from t l);
  resume_hit s t l : adrift s t l → t ≤ doc s → stands s (from t l);
  danger_behind s l t : stands s l → 0 ≤ t < first l →
    ∃ s', seek_into_the_danger_zone s t = Ret (s', false) ∧ stands s' l;
}.

(** ** Consequences *)

Section Laws.
Context {S : Type} `{DocSetLaws S}.

(** A state in which the danger zone may be entered at [t] or beyond. *)
Definition ready (s : S) (t : Z) (l : list Z) : Prop :=
  stands s l ∧ first l ≤ t ∨ ∃ t0, adrift s t0 l ∧ t0 ≤ t.

Lemma ready_docs s t l : ready s t l → docs_ok l.
Proof. intros [[Hs _]|(t0 & Ha & _)]; [by eapply stands_docs|by eapply adrift_docs]. Qed.

Lemma ready_mono s t t' l : ready s t l → t ≤ t' → ready s t' l.
Proof. intros [[Hs ?]|(t0 & Ha & ?)] Ht; [left; split; [done|lia]|right; exists t0; split; [done|lia]]. Qed.

Lemma first_from_mono l t0 t : docs_ok l → t0 ≤ t → t ≤ TERMINATED → first (from t0 l) ≤ first (from t l).
Proof.
  intros Hl Ht Hend. destruct (first_cases _ (docs_from t l Hl)) as [[_ ->]|[Hin _]].
  - by apply first_bound, docs_from.
  - apply first_min; [by apply docs_from|]. apply elem_from in Hin as [? ?]. apply elem_from. split; [lia|done].
Qed.

Lemma ready_doc s t l : ready s t l → t ≤ TERMINATED → doc s ≤ first (from t l).
Proof.
  intros Hr Ht. pose proof (ready_docs _ _ _ Hr) as Hl. destruct Hr as [[Hs ?]|(t0 & Ha & ?)].
  - rewrite (doc_stands s l Hs). pose proof (first_from l t Hl Ht). lia.
  - pose proof (doc_adrift s t0 l Ha). pose proof (first_from_mono l t0 t Hl). lia.
Qed.

Lemma ready_end s t l : ready s t l → ∃ s', seek s TERMINATED = Ret (s', TERMINATED) ∧ stands s' [].
Proof.
  intros Hr. pose proof (ready_docs _ _ _ Hr) as Hl. destruct Hr as [[Hs ?]|(t0 & Ha & ?)]; [|by eapply seek_adrift_end].
  destruct (seek_stands s l TERMINATED Hs) as (s' & E & Hs').
  - split; [by apply first_bound|done].
  - rewrite from_end in E, Hs' by done. by exists s'.
Qed.

Lemma stands_ready s l t : stands s l → first l ≤ t → ready s t l.
Proof. by left. Qed.

Lemma adrift_ready s t l : adrift s t l → ready s t l.
Proof. right. by exists t. Qed.

Lemma danger_ready `{!DocSetEnds S} s t l : ready s t l → t ≤ TERMINATED →
  ∃ s' b, seek_into_the_danger_zone s t = Ret (s', b) ∧
    if b : bool then first (from t l) = t ∧ stands s' (from t l) else first (from t l) ≠ t ∧ adrift s' t l.
Proof.
  intros Hr Ht. pose proof (ready_docs _ _ _ Hr) as Hl. destruct (Z.eq_dec t TERMINATED) as [->|Hne].
  - rewrite from_end by done. destruct Hr as [[Hs _]|(t0 & Ha & _)].
    + destruct (danger_end s l Hs) as (s' & E & Hs'). by exists s', true.
    + destruct (danger_end_adrift s t0 l Ha) as (s' & E & Hs'). by exists s', true.
  - destruct Hr as [[Hs ?]|(t0 & Ha & ?)]; [apply danger_stands; [done|lia]|apply (danger_adrift s l t0); [done|lia]].
Qed.
End Laws.

(** The provided [seek] over an [advance] that honours its law. *)
Section DefaultSeek.
Context {S : Type} (dc : S → Z) (a : S → out (S * Z)) (P : S → list Z → Prop).
Context (P_docs : ∀ s l, P s l → docs_ok l).
Context (P_doc : ∀ s l, P s l → dc s = first l).
Context (P_advance : ∀ s l, P s l → ∃ s', a s = Ret (s', first (tail l)) ∧ P s' (tail l)).

Lemma default_seek_spec s l t : P s l → first l ≤ t ≤ TERMINATED →
  ∃ s', default_seek dc a s t = Ret (s', first (from t l)) ∧ P s' (from t l).
Proof using P_docs P_doc P_advance.
  intros Hs Ht. unfold default_seek.
  set (I := λ '(s, d), ∃ l', P s l' ∧ d = first l' ∧ from t l' = from t l).
  destruct (loop_spec (λ '(s, x), if x <? t then '(s, x) ← a s; Ret (inl (s, x)) else Ret (inr (s, x)))
    I (λ '(_, d), TERMINATED - d) (λ '(s, d), d = first (from t l) ∧ P s (from t l))) with (s := (s, dc s)) as ([s' e] & E & Hd & Hs').
  - intros [s1 d] (l' & Hs1 & -> & El). pose proof (P_docs _ _ Hs1) as Hl'. destruct (Z.ltb_spec (first l') t) as [Hlt|Hge].
    + destruct (P_advance s1 l' Hs1) as (s2 & -> & Hs2). rewrite bind_ret. eexists. split; [done|]. split.
      * exists (tail l'). split_and!; [done|done|]. rewrite <- El. apply docs_ext; [by apply docs_from, docs_tail|by apply docs_from|].
        intros d. rewrite !elem_from, elem_tail by done. intuition lia.
      * pose proof (P_docs _ _ Hs2) as Ht'. destruct (first_cases _ Ht') as [[_ ->]|[Hin _]]; [lia|].
        apply elem_tail in Hin as [_ ?]; [lia|done].
    + eexists. split; [done|]. cbv beta iota. rewrite <- El, from_id by (done || lia). done.
  - exists l. split_and!; [done|by apply P_doc|done].
  - intros [s1 d] (l' & Hs1 & -> & _). apply P_docs, first_bound in Hs1. lia.
  - rewrite (P_doc s l Hs). apply P_docs, first_bound in Hs. unfold TERMINATED in *. lia.
  - exists s'. by rewrite E, Hd.
Qed.
End DefaultSeek.

(** A docset with the provided [seek_into_the_danger_zone] never leaves the
    valid states: its laws follow from those of the other three methods. *)
Section Steady.
Context {S : Type} `{DocSet S} (P : S → list Z → Prop).
Context (P_docs : ∀ s l, P s l → docs_ok l).
Context (P_doc : ∀ s l, P s l → doc s = first l).
Context (P_advance : ∀ s l, P s l → ∃ s', advance s = Ret (s', first (tail l)) ∧ P s' (tail l)).
Context (P_seek : ∀ s l t, P s l → first l ≤ t ≤ TERMINATED → ∃ s', seek s t = Ret (s', first (from t l)) ∧ P s' (from t l)).
Context (P_danger : ∀ s t, seek_into_the_danger_zone s t = default_danger doc seek s t).

Definition steady_adrift (s : S) (t : Z) (l : list Z) : Prop := docs_ok l ∧ t ≤ TERMINATED ∧ P s (from t l).

Lemma steady_danger s l t : P s l → t ≤ TERMINATED →
  ∃ s' b, seek_into_the_danger_zone s t = Ret (s', b) ∧ (b = true ↔ first (from t l) = t) ∧ P s' (from t l).
Proof using P_docs P_doc P_seek P_danger.
  intros Hs Ht. pose proof (P_docs _ _ Hs) as Hl. rewrite P_danger. unfold default_danger. rewrite (P_doc s l Hs).
  destruct (Z.ltb_spec (first l) t) as [Hlt|Hge].
  - destruct (P_seek s l t Hs ltac:(lia)) as (s' & -> & Hs'). rewrite !bind_ret. exists s', (doc s' =? t).
    split; [done|]. split; [|done]. by rewrite (P_doc _ _ Hs'), Z.eqb_eq.
  - rewrite bind_ret. exists s, (doc s =? t). rewrite from_id by (done || lia). split; [done|]. split; [|done].
    by rewrite (P_doc _ _ Hs), Z.eqb_eq.
Qed.

#[refine] Definition steady_laws : DocSetLaws S := {| stands := P; adrift := steady_adrift |}.
Proof using P_docs P_doc P_advance P_seek P_danger.
  - done.
  - by intros s t l (? & ? & _).
  - done.
  - intros s t l (_ & _ & Hs). by rewrite (P_doc _ _ Hs).
  - done.
  - done.
  - intros s l t Hs Ht. destruct (steady_danger s l t Hs) as (s' & b & E & Hb & Hs'); [lia|]. exists s', b. split; [done|].
    destruct b; [split; [by apply Hb|done]|]. split; [intros Hf; by apply Hb in Hf|]. split_and!; [by eapply P_docs|lia|done].
  - intros s l t0 t (Hl & Ht0 & Hs) Ht. destruct (steady_danger s _ t Hs) as (s' & b & E & Hb & Hs'); [lia|].
    rewrite from_from in Hb, Hs' by lia. exists s', b. split; [done|].
    destruct b; [split; [by apply Hb|done]|]. split; [intros Hf; by apply Hb in Hf|]. split_and!; [done|lia|done].
  - intros s t l (Hl & Ht & Hs). destruct (P_seek s _ TERMINATED Hs) as (s' & E & Hs').
    + split; [by apply first_bound, docs_from|done].
    + rewrite from_from, from_end in E, Hs' by done. by exists s'.
Defined.
Lemma steady_ends : @DocSetEnds S _ steady_laws.
Proof using.
  assert (∀ s l, P s l → ∃ s', seek_into_the_danger_zone s TERMINATED = Ret (s', true) ∧ P s' []) as Hend.
  { intros s l Hs. destruct (steady_danger s l TERMINATED Hs) as (s' & b & E & Hb & Hs'); [lia|].
    rewrite from_end in Hb, Hs' by (by eapply P_docs). exists s'. split; [|done]. rewrite E. by rewrite (proj2 Hb eq_refl). }
  split.
  - intros s l Hs. by apply (Hend s l).
  - intros s t l (_ & _ & Hs). by apply (Hend s (from t l)).
Qed.

Lemma steady_resumes : @DocSetResumes S _ steady_laws.
Proof using.
  split.
  - intros s t0 l t (Hl & Ht0 & Hs) Ht Hd. simpl. rewrite <- (from_from l t0 t) by lia. apply P_seek; [done|].
    rewrite <- (P_doc _ _ Hs). lia.
  - by intros s t l (_ & _ & Hs) _.
  - intros s l t Hs Ht. exists s. split; [|done]. rewrite P_danger. unfold default_danger. rewrite (P_doc s l Hs).
    rewrite (proj2 (Z.ltb_ge _ _)) by lia. rewrite bind_ret, (P_doc s l Hs). by rewrite (proj2 (Z.eqb_neq _ _)) by lia.
Qed.
End Steady.

(** ** The vector of ids *)

Definition vec_stands (s : VecDocSet) (l : list Z) : Prop :=
  docs_ok (doc_ids s) ∧ 0 ≤ cursor s ≤ #(doc_ids s) ∧ l = drop (Z.to_nat (cursor s)) (doc_ids s).

Lemma docs_drop n l : docs_ok l → docs_ok (drop n l).
Proof. revert n. induction l as [|d l IH]; intros [|n] Hl; try done; []. apply IH. by apply (docs_tail (d :: l)). Qed.

Lemma vec_doc_spec s l : vec_stands s l → vec_doc s = first l.
Proof.
  intros (Hd & Hc & ->). unfold vec_doc. destruct (Z.eqb_spec (cursor s) #(doc_ids s)) as [->|Hne].
  - by rewrite len_to_nat, drop_all.
  - destruct (lookup_lt_is_Some_2 (doc_ids s) (Z.to_nat (cursor s))) as [d Ed]; [unfold len in *; lia|].
    by rewrite Ed, (drop_S _ _ _ Ed).
Qed.

Lemma vec_advance_spec s l : vec_stands s l →
  ∃ s', vec_advance s = Ret (s', first (tail l)) ∧ vec_stands s' (tail l).
Proof.
  intros (Hd & Hc & ->). assert (tail (drop (Z.to_nat (cursor s)) (doc_ids s)) = drop (Z.to_nat (cursor s + 1)) (doc_ids s)) as ->.
  { replace (Z.to_nat (cursor s + 1)) with (Datatypes.S (Z.to_nat (cursor s))) by lia.
    destruct (drop _ _) as [|x r] eqn:E; [rewrite <- drop_drop with (n1 := 1%nat) || idtac|].
    - symmetry. apply drop_ge. apply (f_equal length) in E. rewrite length_drop in E. simpl in E. lia.
    - simpl. replace (Datatypes.S (Z.to_nat (cursor s))) with (Z.to_nat (cursor s) + 1)%nat by lia. by rewrite <- drop_drop, E. }
  unfold vec_advance. destruct (Z.leb_spec #(doc_ids s) (cursor s + 1)) as [Hle|Hlt].
  - rewrite drop_ge by (unfold len in *; lia). eexists. split; [done|]. split; [done|]. simpl. split; [lia|].
    by rewrite len_to_nat, drop_all.
  - assert (vec_stands {| doc_ids := doc_ids s; cursor := cursor s + 1 |} (drop (Z.to_nat (cursor s + 1)) (doc_ids s))) as Hs'.
    { split; [done|]. simpl. split; [lia|done]. }
    eexists. split; [by rewrite (vec_doc_spec _ _ Hs')|done].
Qed.

Lemma vec_seek_spec s l t : vec_stands s l → first l ≤ t ≤ TERMINATED →
  ∃ s', seek s t = Ret (s', first (from t l)) ∧ vec_stands s' (from t l).
Proof. apply default_seek_spec; [by intros ? ? (? & _ & ->); apply docs_drop|apply vec_doc_spec|apply vec_advance_spec]. Qed.

#[export] Instance Laws_Vec : DocSetLaws VecDocSet.
Proof.
  refine (steady_laws vec_stands _ vec_doc_spec vec_advance_spec vec_seek_spec (λ _ _, eq_refl)).
  by intros ? ? (? & _ & ->); apply docs_drop.
Defined.

#[export] Instance Ends_Vec : DocSetEnds VecDocSet.
Proof. apply steady_ends. Qed.

#[export] Instance Resumes_Vec : DocSetResumes VecDocSet.
Proof. apply steady_resumes. Qed.

Lemma from_vec_stands l : docs_ok l → stands (from_vec l) l.
Proof. intros Hl. split; [done|]. simpl. split; [pose proof (len_nonneg l); lia|done]. Qed.

(** ** A docset of either type *)

#[export] Instance Laws_dyn {A B} `{DocSetLaws A} `{DocSetLaws B} : DocSetLaws (A + B).
Proof.
  refine {| stands s l := match s with inl a => stands a l | inr b => stands b l end;
            adrift s t l := match s with inl a => adrift a t l | inr b => adrift b t l end |}.
  - intros [a|b] l Hs; by apply (stands_docs _ _ Hs).
  - intros [a|b] t l Hs; by apply (adrift_docs _ _ _ Hs).
  - intros [a|b] l Hs; by apply (doc_stands _ _ Hs).
  - intros [a|b] t l Hs; by apply (doc_adrift _ _ _ Hs).
  - intros [a|b] l Hs; destruct (advance_stands _ _ Hs) as (s' & E & Hs'); simpl; rewrite E; by eexists.
  - intros [a|b] l t Hs Ht; destruct (seek_stands _ _ _ Hs Ht) as (s' & E & Hs'); simpl; rewrite E; by eexists.
  - intros [a|b] l t Hs Ht; destruct (danger_stands _ _ _ Hs Ht) as (s' & r & E & Hs'); simpl; rewrite E; by eexists _, r.
  - intros [a|b] l t0 t Hs Ht; destruct (danger_adrift _ _ _ _ Hs Ht) as (s' & r & E & Hs'); simpl; rewrite E; by eexists _, r.
  - intros [a|b] t l Hs; destruct (seek_adrift_end _ _ _ Hs) as (s' & E & Hs'); simpl; rewrite E; by eexists.
Defined.

#[export] Instance Ends_dyn {A B} `{DocSetEnds A} `{DocSetEnds B} : DocSetEnds (A + B).
Proof.
  split.
  - intros [a|b] l Hs; [destruct (danger_end a l Hs) as (s' & E & Hs')|destruct (danger_end b l Hs) as (s' & E & Hs')];
      simpl; rewrite E; by eexists.
  - intros [a|b] t l Hs; [destruct (danger_end_adrift a t l Hs) as (s' & E & Hs')|destruct (danger_end_adrift b t l Hs) as (s' & E & Hs')];
      simpl; rewrite E; by eexists.
Qed.

(** ** The provided methods *)

Section Provided.
Context {S : Type} `{DocSetLaws S}.

Lemma add32_small n : 0 ≤ n < 2 ^ 31 → add32 n 1 = n + 1.
Proof. intros Hn. unfold add32, as_u32. rewrite Z.mod_small; lia. Qed.

Lemma tail_shorter l : docs_ok l → first l ≠ TERMINATED → #(tail l) = #l - 1 ∧ l = first l :: tail l.
Proof. destruct l as [|d l]; [done|]. intros _ _. simpl. rewrite len_cons. split; [lia|done]. Qed.

(** [count] with the documents alive, [alive] being the bit set. *)
Lemma count_spec alive s l : stands s l →
  ∃ s', count alive s = Ret (s', #(filter (λ d, alive d = true) l)) ∧ stands s' [].
Proof.
  intros Hs. unfold count. pose proof (stands_docs _ _ Hs) as Hl.
  set (live := λ l, #(filter (λ d, alive d = true) l)).
  assert (∀ l', docs_ok l' → 0 ≤ live l' < 2 ^ 31) as Hlive.
  { intros l' Hl'. apply len_docs_bound, docs_filter, Hl'. }
  destruct (loop_spec (λ '(s, d, n), if d =? TERMINATED then Ret (inr (s, n))
      else let n := if alive d then add32 n 1 else n in '(s, d) ← advance s; Ret (inl (s, d, n)))
    (λ '(s, d, n), ∃ l', stands s l' ∧ d = first l' ∧ 0 ≤ n ∧ n + live l' = live l) (λ '(_, d, _), TERMINATED - d)
    (λ '(s, n), n = live l ∧ stands s [])) with (s := (s, doc s, 0)) as ([s' n] & E & -> & Hs').
  - intros [[s1 d] n] (l' & Hs1 & -> & Hn & En). pose proof (stands_docs _ _ Hs1) as Hl'.
    destruct (Z.eqb_spec (first l') TERMINATED) as [Hend|Hne].
    + eexists. split; [done|]. apply first_end in Hend as ->; [|done]. split; [|done]. unfold live in En at 1.
      change (filter _ []) with (@nil Z) in En. rewrite len_nil in En. lia.
    + destruct (advance_stands s1 l' Hs1) as (s2 & -> & Hs2). rewrite bind_ret. eexists. split; [done|].
      destruct (tail_shorter l' Hl' Hne) as [_ E']. pose proof (Hlive l Hl). pose proof (Hlive _ (docs_tail l' Hl')).
      assert (live l' = (if alive (first l') then 1 else 0) + live (tail l')) as El.
      { rewrite E' at 1. unfold live. rewrite filter_cons. case_decide as Ha; [rewrite Ha, len_cons|]; [lia|].
        destruct (alive (first l')); [done|lia]. }
      split.
      * exists (tail l'). destruct (alive (first l')); [rewrite add32_small by lia|]; split_and!; try done; lia.
      * pose proof (stands_docs _ _ Hs2) as Ht. pose proof (len_docs _ Hl'). destruct (first_cases _ Ht) as [[_ ->]|[Hin _]].
        -- pose proof (first_bound _ Hl'). lia.
        -- apply elem_tail in Hin as [_ ?]; [lia|done].
  - exists l. split_and!; [done|by apply doc_stands|done|lia].
  - intros [[s1 d] n] (l' & Hs1 & -> & _). apply stands_docs, first_bound in Hs1. lia.
  - rewrite (doc_stands s l Hs). apply first_bound in Hl. unfold TERMINATED in *. lia.
  - exists s'. split; [exact E|done].
Qed.
Lemma count_including_deleted_spec s l : stands s l → ∃ s', count_including_deleted s = Ret (s', #l) ∧ stands s' [].
Proof.
  intros Hs. destruct (count_spec (λ _, true) s l Hs) as (s' & E & Hs'). exists s'. split; [|done].
  assert (#(filter (λ _ : Z, true = true) l) = #l) as Ef.
  { f_equal. clear. induction l as [|d l IH]; [done|]. rewrite filter_cons. case_decide; [by rewrite IH|done]. }
  rewrite Ef in E. exact E.
Qed.

Lemma fill_loop_spec n : ∀ i s l buffer, stands s l → l ≠ [] → (0 < n)%nat → length buffer = (i + n)%nat →
  ∃ s' k, fill_loop n i s buffer = Ret (s', take i buffer ++ take k l ++ drop (i + k) buffer, Z.of_nat (i + k)) ∧
    k = Nat.min n (length l) ∧ stands s' (drop k l).
Proof.
  induction n as [|n IH]; intros i s l buffer Hs Hne Hn Hlen; [lia|]. cbn [fill_loop].
  destruct l as [|d l]; [done|]. rewrite (doc_stands s _ Hs). change (first (d :: l)) with d.
  destruct (advance_stands s _ Hs) as (s' & -> & Hs'). rewrite bind_ret. simpl tail in *.
  pose proof (stands_docs _ _ Hs') as Hl'.
  assert (<[i := d]> buffer = take i buffer ++ d :: drop (Datatypes.S i) buffer) as Eb by (apply insert_take_drop; lia).
  destruct (Z.eqb_spec (first l) TERMINATED) as [Hend|Hne'].
  - apply first_end in Hend as ->; [|done]. exists s', 1%nat. simpl length. rewrite Eb, Nat.add_1_r. simpl. split_and!; [|lia|done].
    repeat f_equal. lia.
  - assert (l ≠ []) as Hl by (intros ->; done). destruct n as [|n].
    + cbn [fill_loop]. exists s', 1%nat. simpl length. split_and!; [|lia|done].
      rewrite Eb. do 2 f_equal; [by rewrite Nat.add_1_r|]. rewrite len_app, len_cons. rewrite len_take, len_drop. unfold len. lia.
    + destruct (IH (Datatypes.S i) s' l (<[i := d]> buffer) Hs' Hl) as (s2 & k & E & -> & Hs2); [lia|by rewrite length_insert; lia|].
      rewrite E. exists s2, (Datatypes.S (Nat.min (Datatypes.S n) (length l))). simpl length. split_and!; [|lia|done].
      rewrite drop_insert_lt by lia. rewrite (take_S_r (<[i := d]> buffer) i d) by (apply list_lookup_insert_eq; lia).
      rewrite take_insert_ge by lia. simpl take. rewrite <- app_assoc. simpl. rewrite Nat.add_succ_r. by repeat f_equal.
Qed.

Lemma fill_buffer_spec s l buffer : stands s l → (0 < length buffer)%nat →
  ∃ s' k, fill_buffer s buffer = Ret (s', take k l ++ drop k buffer, Z.of_nat k) ∧
    k = Nat.min (length buffer) (length l) ∧ stands s' (drop k l).
Proof.
  intros Hs Hb. unfold fill_buffer. pose proof (stands_docs _ _ Hs) as Hl. rewrite (doc_stands s l Hs).
  destruct (Z.eqb_spec (first l) TERMINATED) as [Hend|Hne].
  - apply first_end in Hend as ->; [|done]. exists s, 0%nat. rewrite Nat.min_0_r. by split_and!.
  - apply (fill_loop_spec (length buffer) 0); [done| |done|done]. by intros ->.
Qed.
End Provided.

(** ** What a client sees *)

(** A call of the trait's interface. *)
Inductive call := Doc | Advance | Seek (target : Z) | Danger (target : Z).

(** The answers of a sequence of calls. *)
Fixpoint run {S} `{DocSet S} (calls : list call) (s : S) : out (list Z) :=
  match calls with
  | [] => Ret []
  | Doc :: calls => ans ← run calls s; Ret (doc s :: ans)
  | Advance :: calls => '(s, d) ← advance s; ans ← run calls s; Ret (d :: ans)
  | Seek t :: calls => '(s, d) ← seek s t; ans ← run calls s; Ret (d :: ans)
  | Danger t :: calls => '(s, b) ← seek_into_the_danger_zone s t; ans ← run calls s; Ret (Z.b2z b :: ans)
  end.

(** The answers of the plain list of the documents; [zone] is the target of a
    look-up that failed.  [None] for calls the trait does not allow: a target
    before the position, another method in the danger zone, or there a look-up
    of [TERMINATED], which is no document. *)
Fixpoint expected (calls : list call) (l : list Z) (zone : option Z) : option (list Z) :=
  match calls, zone with
  | [], _ => Some []
  | Doc :: calls, None => ans ← expected calls l None; Some (first l :: ans)
  | Advance :: calls, None => ans ← expected calls (tail l) None; Some (first (tail l) :: ans)
  | Seek t :: calls, None =>
      if (first l <=? t) && (t <=? TERMINATED)
      then ans ← expected calls (from t l) None; Some (first (from t l) :: ans) else None
  | Danger t :: calls, _ =>
      if (match zone with Some t0 => t0 | None => first l end <=? t) && (t <? TERMINATED) then
        if first (from t l) =? t then ans ← expected calls (from t l) None; Some (1 :: ans)
        else ans ← expected calls l (Some t); Some (0 :: ans)
      else None
  | _, Some _ => None
  end.

(** A docset that honours the contract answers as the list it stands for. *)
Lemma run_expected {S} `{DocSetLaws S} calls : ∀ s l zone ans,
  match zone with None => stands s l | Some t => adrift s t l end →
  expected calls l zone = Some ans → run calls s = Ret ans.
Proof.
  induction calls as [|[| |t|t] calls IH]; intros s l zone ans Hs He; cbn [expected run] in *.
  - destruct zone; by injection He as <-.
  - destruct zone; [done|]. apply bind_Some in He as (ans' & E & [= <-]). rewrite (IH s l None ans' Hs E), bind_ret. by rewrite (doc_stands s l Hs).
  - destruct zone; [done|]. apply bind_Some in He as (ans' & E & [= <-]). destruct (advance_stands s l Hs) as (s' & -> & Hs').
    rewrite bind_ret. by rewrite (IH s' _ None ans' Hs' E).
  - destruct zone; [done|]. destruct ((first l <=? t) && (t <=? TERMINATED)) eqn:Ht; [|done]. apply bind_Some in He as (ans' & E & [= <-]).
    destruct (seek_stands s l t Hs ltac:(lia)) as (s' & -> & Hs'). rewrite bind_ret. by rewrite (IH s' _ None ans' Hs' E).
  - assert (∃ s' b, seek_into_the_danger_zone s t = Ret (s', b) ∧
      (if b : bool then first (from t l) = t ∧ stands s' (from t l) else first (from t l) ≠ t ∧ adrift s' t l) ∧
      (if first (from t l) =? t then ans' ← expected calls (from t l) None; Some (1 :: ans')
       else ans' ← expected calls l (Some t); Some (0 :: ans')) = Some ans) as (s' & b & -> & Hb & He').
    { destruct zone as [t0|]; destruct (_ && _) eqn:Ht in He; try done.
      - destruct (danger_adrift s l t0 t Hs ltac:(lia)) as (s' & b & E & Hb). by exists s', b.
      - destruct (danger_stands s l t Hs ltac:(lia)) as (s' & b & E & Hb). by exists s', b. }
    rewrite bind_ret. destruct b, Hb as [Hf Hs'], (Z.eqb_spec (first (from t l)) t); try done; apply bind_Some in He' as (ans' & E & [= <-]).
    + by rewrite (IH s' _ None ans' Hs' E).
    + by rewrite (IH s' _ (Some t) ans' Hs' E).
Qed.

(** ** Concrete lists *)

Fixpoint docs_check (prev : Z) (l : list Z) : bool :=
  match l with
  | [] => true
  | d :: l => (prev <? d) && (d <? TERMINATED) && docs_check d l
  end.

Lemma docs_check_ok l : docs_check (-1) l = true → docs_ok l.
Proof.
  assert (∀ l prev, -1 ≤ prev → docs_check prev l = true → docs_ok l ∧ Forall (Z.lt prev) l) as H.
  { clear. induction l as [|d l IH]; intros prev Hp Hc; [split; [apply docs_nil|constructor]|]. cbn [docs_check] in Hc.
    apply andb_true_iff in Hc as [Hc Hl]. destruct (IH d ltac:(lia) Hl) as [Hok Hlt]. split; [apply docs_cons; [done|lia|done]|].
    constructor; [lia|]. eapply Forall_impl; [exact Hlt|]. simpl. lia. }
  intros Hc. by apply (H l (-1)).
Qed.

Lemma vecs_stand ls : forallb (docs_check (-1)) ls = true → Forall2 stands (map from_vec ls) ls.
Proof.
  induction ls as [|l ls IH]; [constructor|]. cbn [forallb map]. intros [Hl Hls]%andb_true_iff.
  constructor; [by apply from_vec_stands, docs_check_ok|by apply IH].
Qed.
