(* ===== verification/Intersection.v ===== *)
(** * Intersections ([src/query/intersection.rs])

    The docset of the documents common to two or more docsets, driven by the
    two that cost least.  The definitions are generic in the docsets, and the
    proofs use only their contract, [DocSetLaws], the danger zone included;
    the intersection honours the same contract. *)
From S2P Require Import Prelude Ordering DocSet.
Import docset.

Module intersection.

(** The [for] loop of [go_to_first_doc]: the docsets up to one that is past
    the candidate, which then gives the next. *)
Fixpoint seek_all {S} `{DocSet S} (docsets : list S) (candidate : Z) : out (list S * option Z) :=
  match docsets with
  | [] => Ret ([], None)
  | docset :: rest =>
      '(docset, seek_doc) ← seek docset candidate;
      if candidate <? seek_doc then Ret (docset :: rest, Some (doc docset))
      else '(rest, r) ← seek_all rest candidate; Ret (docset :: rest, r)
  end.

Definition go_to_first_doc {S} `{DocSet S} (docsets : list S) : out (list S * Z) :=
  match docsets with
  | [] => Panic
  | docset :: rest =>
      let candidate := foldl (λ m s, Z.max m (doc s)) (doc docset) rest in
      loop (λ '(docsets, candidate),
        '(docsets, r) ← seek_all docsets candidate;
        Ret (match r with Some candidate => inl (docsets, candidate) | None => inr (docsets, candidate) end))
        (docsets, candidate)
  end.

Record Intersection (A B : Type) := {
  left : A;
  right : A;
  others : list B;
  num_docs : Z;
}.
Arguments left {A B}.
Arguments right {A B}.
Arguments others {A B}.
Arguments num_docs {A B}.

(** [docsets.sort_by_key(|docset| docset.cost())]: the cost of a docset is an
    estimate, in floating point for some; it is an argument here, and what is
    proved holds whatever it says. *)
Definition by_cost {S} (cost : S → Z) (a b : S) : Prop := cost a ≤ cost b.

#[export] Instance by_cost_dec {S} (cost : S → Z) a b : Decision (by_cost cost a b).
Proof. unfold by_cost. apply _. Defined.

Definition new {S} `{DocSet S} (cost : S → Z) (docsets : list S) (num_docs : Z) : out (Intersection S S) :=
  assert_ (2 <=? #docsets)
    ('(docsets, _) ← go_to_first_doc (merge_sort (by_cost cost) docsets);
     match docsets with
     | left :: right :: others => Ret {| left := left; right := right; others := others; num_docs := num_docs |}
     | _ => Panic
     end).

(** [others.iter_mut().all(|docset| docset.seek_into_the_danger_zone(target))]. *)
Fixpoint all_danger {S} `{DocSet S} (docsets : list S) (target : Z) : out (list S * bool) :=
  match docsets with
  | [] => Ret ([], true)
  | docset :: rest =>
      '(docset, found) ← seek_into_the_danger_zone docset target;
      if found : bool then '(rest, r) ← all_danger rest target; Ret (docset :: rest, r)
      else Ret (docset :: rest, false)
  end.

Section Methods.
Context {A B : Type} `{DocSet A} `{DocSet B}.

Definition with_docsets (x : Intersection A B) (l r : A) (o : list B) : Intersection A B :=
  {| left := l; right := r; others := o; num_docs := num_docs x |}.

(** One turn of the two nested loops of [advance]: from the top of the inner
    loop to the next time the code is there. *)
Definition advance_step (st : Intersection A B * Z) : out ((Intersection A B * Z) + (Intersection A B * Z)) :=
  let '(x, candidate) := st in
  '(r, found) ← seek_into_the_danger_zone (right x) candidate;
  if negb found then
    let right_doc := doc r in
    '(l, candidate) ← (if as_u32 (candidate + 100) <? right_doc then seek (left x) right_doc else advance (left x));
    let x := with_docsets x l r (others x) in
    if candidate =? TERMINATED then Ret (inr (x, TERMINATED)) else Ret (inl (x, candidate))
  else
    '(o, all) ← all_danger (others x) candidate;
    if all : bool then Ret (inr (with_docsets x (left x) r o, candidate))
    else '(l, candidate) ← advance (left x); Ret (inl (with_docsets x l r o, candidate)).

Definition inter_advance (x : Intersection A B) : out (Intersection A B * Z) :=
  '(l, candidate) ← advance (left x);
  let x := with_docsets x l (right x) (others x) in
  if candidate =? TERMINATED then Ret (x, TERMINATED) else loop advance_step (x, candidate).

(** The vector of [&mut dyn DocSet] that [seek] makes of the docsets, and the
    docsets it has moved. *)
Definition dyn_docsets (x : Intersection A B) : list (A + B) :=
  inl (left x) :: inl (right x) :: map inr (others x).
Definition from_dyn (x : Intersection A B) (docsets : list (A + B)) : Intersection A B :=
  match docsets with
  | inl l :: inl r :: o => with_docsets x l r (omap (λ s, match s with inr b => Some b | inl _ => None end) o)
  | _ => x
  end.

Definition inter_seek (x : Intersection A B) (target : Z) : out (Intersection A B * Z) :=
  '(l, _) ← seek (left x) target;
  let x := with_docsets x l (right x) (others x) in
  '(docsets, d) ← go_to_first_doc (dyn_docsets x);
  Ret (from_dyn x docsets, d).

Definition inter_danger (x : Intersection A B) (target : Z) : out (Intersection A B * bool) :=
  '(l, found) ← seek_into_the_danger_zone (left x) target;
  if negb found then Ret (with_docsets x l (right x) (others x), false) else
  '(r, found) ← seek_into_the_danger_zone (right x) target;
  if negb found then Ret (with_docsets x l r (others x), false) else
  '(o, all) ← all_danger (others x) target;
  Ret (with_docsets x l r o, all).

#[export] Instance DocSet_Intersection : DocSet (Intersection A B) := {
  doc x := doc (left x);
  advance := inter_advance;
  seek := inter_seek;
  seek_into_the_danger_zone := inter_danger;
}.
End Methods.

End intersection.
Import intersection.

(** ** The common documents *)

(** Reference: the documents of [l] that every list of [ls] has. *)
Definition inter (l : list Z) (ls : list (list Z)) : list Z := filter (λ d, Forall (λ l', d ∈ l') ls) l.

Lemma elem_inter l ls d : d ∈ inter l ls ↔ d ∈ l ∧ Forall (λ l', d ∈ l') ls.
Proof. unfold inter. rewrite list_elem_of_filter. tauto. Qed.

Lemma docs_inter l ls : docs_ok l → docs_ok (inter l ls).
Proof. apply docs_filter. Qed.

Lemma keeps_all t ls ls' d : t ≤ d → Forall2 (keeps t) ls ls' → Forall (λ l, d ∈ l) ls ↔ Forall (λ l, d ∈ l) ls'.
Proof. intros Hd. induction 1 as [|l l' ls ls' Hk _ IH]; [done|]. rewrite !Forall_cons, IH. by rewrite (Hk d Hd). Qed.

Lemma keeps_inter t l l' ls ls' : keeps t l l' → Forall2 (keeps t) ls ls' → keeps t (inter l ls) (inter l' ls').
Proof. intros Hk Hks d Hd. by rewrite !elem_inter, (Hk d Hd), (keeps_all t ls ls' d Hd Hks). Qed.

Lemma keeps_froms t ls : Forall2 (keeps t) ls (map (from t) ls).
Proof. induction ls; simpl; constructor; [apply keeps_from|done]. Qed.

Lemma keeps_refls t ls : Forall2 (keeps t) ls ls.
Proof. induction ls; constructor; [apply keeps_refl|done]. Qed.

(** The intersection stands on [t] when every list does. *)
Lemma inter_hit t l ls : docs_ok l → Forall docs_ok ls → t ≤ TERMINATED →
  first (from t (inter l ls)) = t ↔ first (from t l) = t ∧ Forall (λ l', first (from t l') = t) ls.
Proof.
  intros Hl Hls Ht. destruct (Z.lt_ge_cases t TERMINATED) as [Hlt|Hge].
  - rewrite !first_from_hit by (done || by apply docs_inter). rewrite elem_inter. apply and_iff_compat_l.
    induction Hls as [|l' ls Hl' _ IH]; [done|]. by rewrite !Forall_cons, IH, first_from_hit.
  - assert (t = TERMINATED) as -> by lia. rewrite !from_end by (done || by apply docs_inter). split; [|done].
    intros _. split; [done|]. eapply Forall_impl; [exact Hls|]. intros l' Hl'. by rewrite from_end.
Qed.

(** ** [go_to_first_doc] *)

Lemma loop_once {S R} (f : S → out (S + R)) s r : f s = Ret (inr r) → loop f s = Ret r.
Proof.
  intros E. destruct (loop_spec f (λ s', s' = s) (λ _, 0) (λ r', r' = r)) with (s := s) as (r' & E' & ->).
  - intros s' ->. by exists (inr r).
  - done.
  - done.
  - done.
  - exact E'.
Qed.

(** [tag] is what [seek] leaves alone: which type a [dyn] docset has. *)
Section First.
Context {S T : Type} `{DocSetLaws S} (tag : S → T).
Context (tag_seek : ∀ s t s' d, seek s t = Ret (s', d) → tag s' = tag s).

Lemma stands_all_docs ss ls : Forall2 stands ss ls → Forall docs_ok ls.
Proof using. induction 1; constructor; [by eapply stands_docs|done]. Qed.

Lemma ready_all_docs t ss ls : Forall2 (λ s, ready s t) ss ls → Forall docs_ok ls.
Proof using. induction 1; constructor; [by eapply ready_docs|done]. Qed.

Lemma seek_all_spec c ss ls : Forall2 stands ss ls → Forall (λ l, first l ≤ c) ls → c ≤ TERMINATED →
  ∃ ss' ls' r, seek_all ss c = Ret (ss', r) ∧ map tag ss' = map tag ss ∧ Forall2 stands ss' ls' ∧ Forall2 (keeps c) ls ls' ∧
    match r with
    | None => Forall (λ l, first l = c) ls'
    | Some c' => c < c' ≤ TERMINATED ∧ Forall (λ l, first l ≤ c') ls' ∧ Exists (λ l, first l = c') ls'
    end.
Proof using tag_seek.
  intros Hs Hf Hc. induction Hs as [|s l ss ls Hs Hss IH]; [by exists [], [], None|].
  apply Forall_cons in Hf as [Hl Hf]. cbn [seek_all]. destruct (seek_stands s l c Hs ltac:(lia)) as (s' & Ek & Hs').
  pose proof (tag_seek _ _ _ _ Ek) as Et. rewrite Ek, bind_ret.
  pose proof (stands_docs _ _ Hs) as Hdl. pose proof (first_from l c Hdl Hc) as Hge. pose proof (first_bound _ (docs_from c l Hdl)).
  destruct (Z.ltb_spec c (first (from c l))) as [Hlt|Hle].
  - rewrite (doc_stands _ _ Hs'). exists (s' :: ss), (from c l :: ls), (Some (first (from c l))). split; [done|].
    split; [simpl; by rewrite Et|]. split; [by constructor|]. split; [constructor; [apply keeps_from|apply keeps_refls]|]. split; [lia|]. split; [|by left].
    constructor; [done|]. eapply Forall_impl; [exact Hf|]. simpl. lia.
  - destruct (IH Hf) as (ss' & ls' & r & -> & Ets & Hss' & Hk & Hr). rewrite bind_ret.
    exists (s' :: ss'), (from c l :: ls'), r. split; [done|]. split; [simpl; by rewrite Et, Ets|]. split; [by constructor|]. split; [constructor; [apply keeps_from|done]|].
    destruct r as [c'|]; [|constructor; [lia|done]]. destruct Hr as (? & ? & ?). split; [lia|]. split; [constructor; [lia|done]|by right].
Qed.

Lemma foldl_max (ss : list S) c : let m := foldl (λ m s, Z.max m (doc s)) c ss in
  c ≤ m ∧ Forall (λ s, doc s ≤ m) ss ∧ (m = c ∨ Exists (λ s, doc s = m) ss).
Proof using.
  revert c. induction ss as [|s ss IH]; intros c; simpl; [split; [lia|]; split; [constructor|by left]|].
  destruct (IH (Z.max c (doc s))) as (Hm & Ha & He). split; [lia|]. split; [constructor; [lia|done]|].
  destruct He as [->|He]; [|by right; right]. destruct (Z.max_spec c (doc s)) as [[_ ->]|[_ ->]]; [by right; left|by left].
Qed.

Lemma stands_doc_all ss ls (P : Z → Prop) : Forall2 stands ss ls → Forall (λ s, P (doc s)) ss → Forall (λ l, P (first l)) ls.
Proof using.
  induction 1 as [|s l ss ls Hs _ IH]; [done|]. intros [Hd ?]%Forall_cons. constructor; [|by apply IH]. by rewrite <- (doc_stands s l Hs).
Qed.

Lemma stands_doc_one ss ls (P : Z → Prop) : Forall2 stands ss ls → Exists (λ s, P (doc s)) ss → Exists (λ l, P (first l)) ls.
Proof using.
  induction 1 as [|s l ss ls Hs _ IH]; [by intros ?%Exists_nil|]. intros [Hd|?]%Exists_cons; [left|right; by apply IH].
  by rewrite <- (doc_stands s l Hs).
Qed.

(** A common document is not before where any of the docsets stands. *)
Lemma common_after ls c d : Forall docs_ok ls → Exists (λ l, first l = c) ls → Forall (λ l, d ∈ l) ls → c ≤ d.
Proof using.
  intros Hok He Hd. rewrite Exists_exists in He. destruct He as (l & Hin & <-). rewrite Forall_forall in Hok, Hd.
  apply first_min; [by apply Hok|by apply Hd].
Qed.

Lemma go_to_first_doc_spec ss ls : Forall2 stands ss ls → ss ≠ [] →
  ∃ ss' ls' c, go_to_first_doc ss = Ret (ss', c) ∧ map tag ss' = map tag ss ∧ Forall2 stands ss' ls' ∧ Forall (λ l, first l = c) ls' ∧
    ∀ d, Forall (λ l, d ∈ l) ls' ↔ Forall (λ l, d ∈ l) ls.
Proof using tag_seek.
  intros Hs Hne. destruct ss as [|s ss]; [done|]. unfold go_to_first_doc.
  pose proof (foldl_max ss (doc s)) as (Hm & Ha & He). set (c0 := foldl _ (doc s) ss) in *. set (f := λ '(_, _), _).
  assert (Forall (λ l, first l ≤ c0) ls) as Hbelow by (apply (stands_doc_all (s :: ss) ls (λ x, x ≤ c0)); [done|by constructor]).
  assert (Exists (λ l, first l = c0) ls) as Hone.
  { apply (stands_doc_one (s :: ss) ls (λ x, x = c0)); [done|]. destruct He as [E|?]; [by left|by right]. }
  destruct (loop_spec f (λ '(ss', c), map tag ss' = map tag (s :: ss) ∧ ∃ ls', Forall2 stands ss' ls' ∧ Forall (λ l, first l ≤ c) ls' ∧ Exists (λ l, first l = c) ls' ∧
      ∀ d, Forall (λ l, d ∈ l) ls' ↔ Forall (λ l, d ∈ l) ls) (λ '(_, c), TERMINATED - c)
    (λ '(ss', c), map tag ss' = map tag (s :: ss) ∧ ∃ ls', Forall2 stands ss' ls' ∧ Forall (λ l, first l = c) ls' ∧ ∀ d, Forall (λ l, d ∈ l) ls' ↔ Forall (λ l, d ∈ l) ls))
    with (s := (s :: ss, c0)) as ([ss' c] & E & Ht & ls' & Hs' & Hf & Hd); cycle -1; [by exists ss', ls', c|..].
  - intros [ss1 c] (Ht1 & ls1 & Hs1 & Hf1 & He1 & Hd1). unfold f. pose proof (stands_all_docs _ _ Hs1) as Hok1.
    assert (c ≤ TERMINATED) as Hc.
    { rewrite Exists_exists in He1. destruct He1 as (l & Hin & <-). rewrite Forall_forall in Hok1. by apply first_bound, Hok1. }
    destruct (seek_all_spec c ss1 ls1 Hs1 Hf1 Hc) as (ss2 & ls2 & r & -> & Ht2 & Hs2 & Hk & Hr). rewrite bind_ret.
    pose proof (stands_all_docs _ _ Hs2) as Hok2. eexists. split; [done|].
    assert (∀ c', c ≤ c' → Exists (λ l, first l = c') ls2 → ∀ d, Forall (λ l, d ∈ l) ls2 ↔ Forall (λ l, d ∈ l) ls) as Hsame.
    { intros c' Hc' He2 d. rewrite <- Hd1. split; intros Hall.
      - pose proof (common_after ls2 c' d Hok2 He2 Hall). eapply keeps_all; [|exact Hk|done]. lia.
      - pose proof (common_after ls1 c d Hok1 He1 Hall). eapply (keeps_all c ls1); [|exact Hk|done]. lia. }
    destruct r as [c'|].
    + destruct Hr as (Hc' & Hf2 & He2). split; [|lia]. split; [congruence|]. exists ls2. split_and!; try done; []. apply (Hsame c'); [lia|done].
    + split; [congruence|]. exists ls2. split_and!; try done; []. apply (Hsame c); [lia|]. destruct ls2 as [|l2 ls2]; [|left; by apply Forall_cons in Hr as [? _]].
      exfalso. apply Forall2_nil_inv_r in Hk as ->. by apply Exists_nil in He1.
  - split; [done|]. by exists ls.
  - intros [ss1 c] (_ & ls1 & Hs1 & _ & He1 & _). pose proof (stands_all_docs _ _ Hs1) as Hok1. rewrite Exists_exists in He1.
    destruct He1 as (l & Hin & <-). rewrite Forall_forall in Hok1. specialize (Hok1 l Hin). apply first_bound in Hok1. lia.
  - pose proof (stands_all_docs _ _ Hs) as Hok. rewrite Exists_exists in Hone. destruct Hone as (l & Hin & <-).
    rewrite Forall_forall in Hok. specialize (Hok l Hin). apply first_bound in Hok. unfold TERMINATED in *. lia.
Qed.
(** At the end, also from the danger zone. *)
Lemma seek_all_end ss ls : Forall2 (λ s, ready s TERMINATED) ss ls →
  ∃ ss', seek_all ss TERMINATED = Ret (ss', None) ∧ map tag ss' = map tag ss ∧ Forall (λ s, stands s []) ss'.
Proof using tag_seek.
  induction 1 as [|s l ss ls Hr _ IH]; [by exists []|]. cbn [seek_all]. destruct (ready_end _ _ _ Hr) as (s' & Ek & Hs').
  pose proof (tag_seek _ _ _ _ Ek) as Et. rewrite Ek, bind_ret, Z.ltb_irrefl. destruct IH as (ss' & -> & Ets & Hss'). rewrite bind_ret.
  exists (s' :: ss'). split; [done|]. split; [simpl; by rewrite Et, Ets|by constructor].
Qed.

Lemma ready_doc_end s l : ready s TERMINATED l → doc s ≤ TERMINATED.
Proof using. intros Hr. pose proof (ready_doc _ _ _ Hr). pose proof (first_bound _ (docs_from TERMINATED l (ready_docs _ _ _ Hr))). lia. Qed.

Lemma go_to_first_doc_end ss ls : Forall2 (λ s, ready s TERMINATED) ss ls → Exists (λ s, doc s = TERMINATED) ss →
  ∃ ss', go_to_first_doc ss = Ret (ss', TERMINATED) ∧ map tag ss' = map tag ss ∧ Forall (λ s, stands s []) ss'.
Proof using tag_seek.
  intros Hr He. destruct ss as [|s ss]; [by apply Exists_nil in He|]. unfold go_to_first_doc.
  pose proof (foldl_max ss (doc s)) as (Hm & Ha & Hmax). set (c0 := foldl _ (doc s) ss) in *.
  assert (Forall (λ s, doc s ≤ TERMINATED) (s :: ss)) as Hle.
  { clear -Hr. induction Hr; constructor; [by eapply ready_doc_end|done]. }
  assert (c0 = TERMINATED) as ->.
  { apply Forall_cons in Hle as [? Hle]. assert (c0 ≤ TERMINATED).
    { destruct Hmax as [->|Hx]; [done|]. rewrite Exists_exists in Hx. destruct Hx as (x & Hin & <-). rewrite Forall_forall in Hle. by apply Hle. }
    apply Exists_cons in He as [?|Hx]; [lia|]. rewrite Exists_exists in Hx. destruct Hx as (x & Hin & Ex). rewrite Forall_forall in Ha.
    specialize (Ha x Hin). lia. }
  destruct (seek_all_end _ _ Hr) as (ss' & E & Et & Hss'). exists ss'. split; [|done]. apply loop_once. by rewrite E.
Qed.

Lemma all_danger_spec `{!DocSetEnds S} t ss ls : Forall2 (λ s, ready s t) ss ls → t ≤ TERMINATED →
  ∃ ss' ls' b, all_danger ss t = Ret (ss', b) ∧ Forall2 (keeps t) ls ls' ∧
    (b = true ↔ Forall (λ l, first (from t l) = t) ls) ∧
    Forall2 (λ s, ready s t) ss' ls' ∧ (b = true → Forall2 stands ss' ls' ∧ Forall (λ l, first l = t) ls').
Proof using.
  intros Hr Ht. induction Hr as [|s l ss ls Hs Hss IH]; [by exists [], [], true|]. cbn [all_danger].
  destruct (danger_ready s t l Hs Ht) as (s' & b & -> & Hb). rewrite bind_ret. destruct b.
  - destruct Hb as [Hf Hs']. destruct IH as (ss' & ls' & r & -> & Hk & Hr & Hready & Hstands). rewrite bind_ret.
    exists (s' :: ss'), (from t l :: ls'), r. split; [done|]. split; [constructor; [apply keeps_from|done]|].
    split; [rewrite Forall_cons, <- Hr; tauto|]. split; [constructor; [apply stands_ready; [done|lia]|done]|].
    intros Hrt. destruct (Hstands Hrt). split; by constructor.
  - destruct Hb as [Hf Hs']. exists (s' :: ss), (l :: ls), false. split; [done|]. split; [apply keeps_refls|].
    split; [rewrite Forall_cons; split; [done|tauto]|]. split; [constructor; [by apply adrift_ready|done]|done].
Qed.
Lemma stands_all_ready (ss : list S) ls t : Forall2 stands ss ls → Forall (λ l, first l ≤ t) ls → Forall2 (λ s, ready s t) ss ls.
Proof using. induction 1; [constructor|]. intros [? ?]%Forall_cons. constructor; [by apply stands_ready|auto]. Qed.

Lemma ready_all_mono (ss : list S) ls t t' : Forall2 (λ s, ready s t) ss ls → t ≤ t' → Forall2 (λ s, ready s t') ss ls.
Proof using. intros Hr Ht. eapply Forall2_impl; [exact Hr|]. intros s l Hs. exact (ready_mono s t t' l Hs Ht). Qed.

End First.

(** ** The intersection honours the contract *)

Section Laws.
Context {A B : Type} `{DocSetEnds A} `{DocSetEnds B}.
Implicit Types (x : Intersection A B).

(** The docsets are ready for [t] and hold these lists. *)
Definition parts x (t : Z) (l0 l1 : list Z) (ls : list (list Z)) : Prop :=
  ready (left x) t l0 ∧ ready (right x) t l1 ∧ Forall2 (λ s, ready s t) (others x) ls.

(** Before the end all the docsets stand on the same document; at the end the
    first has ended and the others may be in the danger zone. *)
Definition inter_stands x (l : list Z) : Prop :=
  (∃ l0 l1 ls, stands (left x) l0 ∧ stands (right x) l1 ∧ Forall2 stands (others x) ls ∧
     l = inter l0 (l1 :: ls) ∧ first l1 = first l0 ∧ Forall (λ l', first l' = first l0) ls) ∨
  (∃ l1 ls, l = [] ∧ stands (left x) [] ∧ parts x TERMINATED [] l1 ls).

Definition inter_adrift x (t : Z) (l : list Z) : Prop :=
  docs_ok l ∧ t ≤ TERMINATED ∧ ∃ l0 l1 ls, parts x t l0 l1 ls ∧ from t l = from t (inter l0 (l1 :: ls)).

Lemma inter_first l0 l1 ls : docs_ok l0 → docs_ok l1 → Forall docs_ok ls → first l1 = first l0 → Forall (λ l', first l' = first l0) ls →
  first (inter l0 (l1 :: ls)) = first l0.
Proof.
  intros H0' H1' Hls E1 Els. pose proof (first_bound l0 H0') as Hb. rewrite <- (from_id (inter l0 (l1 :: ls)) (first l0)).
  - apply inter_hit; [done|by constructor|lia|]. split; [by rewrite from_id by (done || lia)|]. constructor; [by rewrite from_id by (done || lia)|].
    clear -Hls Els. induction Hls; [constructor|]. apply Forall_cons in Els as [? ?]. constructor; [by rewrite from_id by (done || lia)|auto].
  - by apply docs_inter.
  - apply first_lower; [by apply docs_inter|lia|]. intros d [Hd _]%elem_inter. by apply first_min.
Qed.

(** From a valid state the danger zone may be entered at any later target. *)
Lemma inter_stands_parts x l t : inter_stands x l → first l ≤ t → t ≤ TERMINATED →
  ∃ l0 l1 ls, parts x t l0 l1 ls ∧ docs_ok l0 ∧ l = inter l0 (l1 :: ls).
Proof.
  intros [(l0 & l1 & ls & Hl & Hr & Ho & -> & E1 & Es)|(l1 & ls & -> & Hl & Hp)] Hf Ht.
  - pose proof (stands_docs _ _ Hl). pose proof (stands_docs _ _ Hr). pose proof (stands_all_docs _ _ Ho).
    rewrite inter_first in Hf by done. exists l0, l1, ls. split; [|done].
    split_and!; [by apply stands_ready|apply stands_ready; [done|lia]|]. apply stands_all_ready; [done|].
    eapply Forall_impl; [exact Es|]. simpl. lia.
  - simpl in Hf. assert (t = TERMINATED) as -> by lia. exists [], l1, ls. split_and!; [done|apply docs_nil|done].
Qed.

Lemma inter_parts_docs x t l0 l1 ls : parts x t l0 l1 ls → docs_ok l0 ∧ docs_ok l1 ∧ Forall docs_ok ls.
Proof. intros (H0' & H1' & Hs). split; [exact (ready_docs _ _ _ H0')|]. split; [exact (ready_docs _ _ _ H1')|exact (ready_all_docs _ _ _ Hs)]. Qed.

(** A list may lose documents that another list lacks. *)
Lemma inter_narrow c l l' ls ls' : docs_ok l → docs_ok l' → c ≤ first l → Forall2 (keeps c) ls ls' →
  (∀ d, d ∈ l' → d ∈ l) → (∀ d, d ∈ l → Forall (λ l, d ∈ l) ls → d ∈ l') → inter l' ls' = inter l ls.
Proof.
  intros Hl Hl' Hc Hk Hsub Hkeep. apply docs_ext; [by apply docs_inter..|]. intros d. rewrite !elem_inter. split.
  - intros [Hd Hall]. split; [by apply Hsub|]. apply Hsub, (first_min l d Hl) in Hd. eapply (keeps_all c ls); [|done..]. lia.
  - intros [Hd Hall]. split; [by apply Hkeep|]. apply (first_min l d Hl) in Hd. eapply (keeps_all c ls); [|done..]. lia.
Qed.

Lemma inter_danger_spec x t l0 l1 ls : parts x t l0 l1 ls → t ≤ TERMINATED →
  ∃ x' b, inter_danger x t = Ret (x', b) ∧
    if b : bool then first (from t (inter l0 (l1 :: ls))) = t ∧ inter_stands x' (from t (inter l0 (l1 :: ls)))
    else first (from t (inter l0 (l1 :: ls))) ≠ t ∧
      ∃ l0' l1' ls', parts x' t l0' l1' ls' ∧ from t (inter l0 (l1 :: ls)) = from t (inter l0' (l1' :: ls')).
Proof.
  intros Hp Ht. pose proof (inter_parts_docs _ _ _ _ _ Hp) as (H0' & H1' & Hs'). destruct Hp as (Hl & Hr & Ho).
  pose proof (inter_hit t l0 (l1 :: ls) H0' ltac:(by constructor) Ht) as Hhit. rewrite Forall_cons in Hhit.
  unfold inter_danger. destruct (danger_ready _ _ _ Hl Ht) as (l & b & -> & Hb). rewrite bind_ret. destruct b; simpl negb; cbv iota; cycle 1.
  { destruct Hb as [Hf Ha]. eexists _, false. split; [done|]. split; [tauto|]. exists l0, l1, ls. split; [|done].
    split_and!; [by apply adrift_ready|done..]. }
  destruct Hb as [Hf Hsl]. destruct (danger_ready _ _ _ Hr Ht) as (r & b & -> & Hb). rewrite bind_ret. destruct b; simpl negb; cbv iota; cycle 1.
  { destruct Hb as [Hf1 Ha]. eexists _, false. split; [done|]. split; [tauto|]. exists (from t l0), l1, ls.
    split; [split_and!; [apply stands_ready; [done|lia]|by apply adrift_ready|done]|].
    apply keeps_eq; [by apply docs_inter|by apply docs_inter, docs_from|]. apply keeps_inter; [apply keeps_from|apply keeps_refls]. }
  destruct Hb as [Hf1 Hsr]. destruct (all_danger_spec t _ _ Ho Ht) as (o & ls' & b & -> & Hk & Hb & Hready & Hstands). rewrite bind_ret.
  eexists _, b. split; [done|].
  assert (keeps t (inter l0 (l1 :: ls)) (inter (from t l0) (from t l1 :: ls'))) as Hkeep.
  { apply keeps_inter; [apply keeps_from|constructor; [apply keeps_from|done]]. }
  assert (from t (inter l0 (l1 :: ls)) = from t (inter (from t l0) (from t l1 :: ls'))) as Heq.
  { apply keeps_eq; [by apply docs_inter|by apply docs_inter, docs_from|done]. }
  destruct b.
  - destruct (Hstands eq_refl) as [Hso Hfs]. split; [apply Hhit; tauto|]. rewrite Heq. left.
    exists (from t l0), (from t l1), ls'. simpl. rewrite Hf, Hf1. split_and!; try done; [].
    apply from_id; [by apply docs_inter, docs_from|]. apply first_lower; [by apply docs_inter, docs_from|done|].
    intros d [[? _]%elem_from _]%elem_inter. done.
  - split; [intros Hx; apply Hhit in Hx as (_ & _ & Hx); by apply Hb in Hx|]. exists (from t l0), (from t l1), ls'. split; [|done].
    split_and!; [apply stands_ready; [done|lia]|apply stands_ready; [done|lia]|done].
Qed.

(** The state of the loop of [advance] on its way to [tl]. *)
Definition seeking (tl : list Z) (st : Intersection A B * Z) : Prop :=
  let '(x, c) := st in
  ∃ L l1 ls, stands (left x) L ∧ c = first L ∧ ready (right x) c l1 ∧ Forall2 (λ s, ready s c) (others x) ls ∧ inter L (l1 :: ls) = tl.

Lemma inter_ended x l1 ls t : stands (left x) [] → ready (right x) t l1 → Forall2 (λ s, ready s t) (others x) ls → t ≤ TERMINATED → inter_stands x [].
Proof.
  intros Hl Hr Ho Ht. right. exists l1, ls. split_and!; [done|done|]. split_and!; [by apply stands_ready|by eapply ready_mono|by eapply ready_all_mono].
Qed.


(** The left docset moves on past a candidate that the right one lacks. *)
Lemma move_left (s r : A) L l1 ls : stands s L → adrift r (first L) l1 → docs_ok l1 → first (from (first L) l1) ≠ first L →
  ∃ l' L', (if as_u32 (first L + 100) <? doc r then seek s (doc r) else advance s) = Ret (l', first L') ∧
    stands l' L' ∧ first L < first L' ∧ inter L' (l1 :: ls) = inter L (l1 :: ls).
Proof.
  intros Hl Ha H1' Hf1. pose proof (stands_docs _ _ Hl) as HL. pose proof (first_bound L HL) as Hc.
  destruct (miss_lt l1 _ H1' Hf1 ltac:(lia)) as [Hlt Hnot]. pose proof (doc_adrift _ _ _ Ha) as Hdoc.
  assert (as_u32 (first L + 100) = first L + 100) as -> by (unfold as_u32; rewrite Z.mod_small; unfold TERMINATED in *; lia).
  pose proof (first_bound _ (docs_from (first L) l1 H1')) as Hb. destruct (Z.ltb_spec (first L + 100) (doc r)) as [Hfar|Hnear].
  - assert (first L ≤ doc r ≤ TERMINATED) as Hrd by lia. destruct (seek_stands _ L (doc r) Hl Hrd) as (l' & -> & Hl').
    exists l', (from (doc r) L). split; [done|]. split; [done|]. split; [pose proof (first_from L (doc r) HL); lia|].
    apply (inter_narrow (first L)); try done; [by apply docs_from|apply keeps_refls|by intros d [_ ?]%elem_from|].
    intros d Hd [Hd1 _]%Forall_cons. apply elem_from. split; [|done]. pose proof (first_min L d HL Hd).
    assert (d ∈ from (first L) l1) as Hin by by apply elem_from. apply first_min in Hin; [lia|by apply docs_from].
  - destruct (advance_stands _ _ Hl) as (l' & -> & Hl'). exists l', (tail L). split; [done|]. split; [done|].
    split; [by apply tail_after|].
    apply (inter_narrow (first L)); try done; [by apply docs_tail|apply keeps_refls|intros d [? _]%elem_tail; done|].
    intros d Hd [Hd1 _]%Forall_cons. apply elem_tail; [done|]. split; [done|]. pose proof (first_min L d HL Hd).
    destruct (Z.eq_dec (first L) d) as [<-|]; [done|lia].
Qed.

(** The candidate is dropped when one of the other docsets lacks it. *)
Lemma drop_candidate L l1 ls ls' : docs_ok L → Forall docs_ok ls → Forall2 (keeps (first L)) (l1 :: ls) ls' →
  ¬ Forall (λ l, first (from (first L) l) = first L) ls →
  first L < TERMINATED ∧ inter (tail L) ls' = inter L (l1 :: ls).
Proof.
  intros HL Hls Hk Hmiss. pose proof (first_bound L HL) as Hc. assert (first L < TERMINATED) as Hlt.
  { destruct (Z.lt_ge_cases (first L) TERMINATED); [done|]. assert (first L = TERMINATED) as E by lia. exfalso. apply Hmiss. rewrite E.
    eapply Forall_impl; [exact Hls|]. intros l Hdl. by rewrite from_end. }
  split; [done|]. apply (inter_narrow (first L)); try done; [by apply docs_tail|intros d [? _]%elem_tail; done|].
  intros d Hd Hall. apply elem_tail; [done|]. split; [done|]. pose proof (first_min L d HL Hd).
  destruct (Z.eq_dec (first L) d) as [<-|]; [|lia]. exfalso. apply Hmiss. apply Forall_cons in Hall as [_ Hall].
  clear -Hall Hls Hlt. induction Hls; [constructor|]. apply Forall_cons in Hall as [? ?]. constructor; [by apply first_from_hit|auto].
Qed.

Lemma advance_step_spec tl st : seeking tl st →
  ∃ r, advance_step st = Ret r ∧
    match r with
    | inl st' => seeking tl st' ∧ TERMINATED - snd st' < TERMINATED - snd st
    | inr (x', c) => c = first tl ∧ inter_stands x' tl
    end.
Proof.
  destruct st as [x c]. intros (L & l1 & ls & Hl & -> & Hr & Ho & Etl). pose proof (stands_docs _ _ Hl) as HL.
  pose proof (ready_docs _ _ _ Hr) as H1'. pose proof (ready_all_docs _ _ _ Ho) as Hls. pose proof (first_bound L HL) as Hc.
  unfold advance_step. destruct (danger_ready _ _ _ Hr ltac:(lia)) as (r & b & -> & Hb). rewrite bind_ret.
  destruct b; simpl negb; cbv iota; destruct Hb as [Hf1 Hb].
  - destruct (all_danger_spec _ _ _ Ho ltac:(lia)) as (o & ls' & b & -> & Hk & Hall & Hready & Hstands). rewrite bind_ret.
    assert (Forall2 (keeps (first L)) (l1 :: ls) (from (first L) l1 :: ls')) as Hks by (constructor; [apply keeps_from|done]).
    destruct b.
    + destruct (Hstands eq_refl) as [Hso Hfs]. eexists. split; [done|]. cbv iota beta.
      assert (inter L (from (first L) l1 :: ls') = tl) as Etl' by (rewrite <- Etl; apply (inter_narrow (first L)); done).
      split; [|left; exists L, (from (first L) l1), ls'; by simpl; split_and!].
      rewrite <- Etl', inter_first; try done; [by apply docs_from|]. by eapply stands_all_docs.
    + destruct (advance_stands _ _ Hl) as (l' & -> & Hl'). rewrite bind_ret. eexists. split; [done|]. simpl.
      destruct (drop_candidate L l1 ls _ HL Hls Hks) as [Hlt E]; [intros Hx; by apply Hall in Hx|].
      pose proof (tail_after L HL Hlt) as Hadv. split; [|lia]. exists (tail L), (from (first L) l1), ls'. rewrite E. simpl.
      split_and!; [done|done|apply stands_ready; [done|lia]|eapply ready_all_mono; [done|lia]|done].
  - destruct (move_left _ _ L l1 ls Hl Hb H1' Hf1) as (l' & L' & -> & Hl' & Hadv & E). rewrite bind_ret, Etl in *.
    pose proof (stands_docs _ _ Hl') as HL'. destruct (Z.eqb_spec (first L') TERMINATED) as [Hend|Hne]; (eexists; split; [done|]); cbv iota beta.
    + apply first_end in Hend as ->; [|done]. change (inter [] (l1 :: ls)) with (@nil Z) in E. rewrite <- E. split; [done|].
      eapply inter_ended; [done|by apply adrift_ready|done|lia].
    + simpl. split; [|lia]. exists L', l1, ls. simpl. split_and!; try done.
      * eapply ready_mono; [by apply adrift_ready|lia].
      * eapply ready_all_mono; [done|lia].
Qed.

Lemma inter_advance_spec x l : inter_stands x l →
  ∃ x', inter_advance x = Ret (x', first (tail l)) ∧ inter_stands x' (tail l).
Proof.
  intros [(l0 & l1 & ls & Hl & Hr & Ho & -> & E1 & Es)|(l1 & ls & -> & Hl & (_ & Hr & Ho))]; unfold inter_advance.
  - destruct (advance_stands _ _ Hl) as (l & -> & Hl'). rewrite bind_ret.
    pose proof (stands_docs _ _ Hl) as H0'. pose proof (stands_docs _ _ Hr) as H1'. pose proof (stands_all_docs _ _ Ho) as Hs'.
    pose proof (first_bound l0 H0'). pose proof (stands_docs _ _ Hl') as Hd'. pose proof (first_bound _ Hd').
    assert (inter (tail l0) (l1 :: ls) = tail (inter l0 (l1 :: ls))) as Et.
    { apply docs_ext; [by apply docs_inter, docs_tail|by apply docs_tail, docs_inter|]. intros d.
      rewrite elem_inter, !elem_tail, elem_inter, inter_first by (done || by apply docs_inter). tauto. }
    assert (first l0 ≤ first (tail l0)) as Hge.
    { destruct (first_cases l0 H0') as [[-> _]|[_ ?]]; [done|]. pose proof (tail_after l0 H0'). lia. }
    assert (ready (right x) (first (tail l0)) l1) as Hrr by (apply stands_ready; [done|lia]).
    assert (Forall2 (λ s, ready s (first (tail l0))) (others x) ls) as Hor.
    { apply stands_all_ready; [done|]. eapply Forall_impl; [exact Es|]. simpl. lia. }
    destruct (Z.eqb_spec (first (tail l0)) TERMINATED) as [Hend|Hne].
    + eexists. rewrite <- Et. pose proof Hend as En. apply first_end in En; [|done]. rewrite En in *. split; [done|]. by eapply inter_ended.
    + destruct (loop_spec advance_step (seeking (tail (inter l0 (l1 :: ls)))) (λ st, TERMINATED - snd st)
        (λ '(x', c), c = first (tail (inter l0 (l1 :: ls))) ∧ inter_stands x' (tail (inter l0 (l1 :: ls)))))
        with (s := (with_docsets x l (right x) (others x), first (tail l0))) as ([x' c] & E & -> & Hx').
      * intros st Hst. destruct (advance_step_spec _ _ Hst) as (r & E & Hr'). exists r. split; [done|]. by destruct r as [?|[? ?]].
      * exists (tail l0), l1, ls. by split_and!.
      * intros [x' c] (L & ? & ? & HL & -> & _). apply stands_docs, first_bound in HL. simpl. lia.
      * simpl. unfold TERMINATED in *. lia.
      * by exists x'.
  - destruct (advance_stands _ _ Hl) as (l & -> & Hl'). rewrite bind_ret. simpl first. rewrite Z.eqb_refl. eexists. split; [done|].
    by eapply inter_ended.
Qed.

(** Which side a [dyn] docset is of, and the docsets back from the vector. *)
Definition side (s : A + B) : bool := match s with inl _ => true | inr _ => false end.

Lemma side_seek s t s' d : seek s t = Ret (s', d) → side s' = side s.
Proof using. destruct s as [a|b]; simpl; intros (p & _ & E)%bind_ret_inv; destruct p; by injection E as <- _. Qed.

Lemma from_dyn_sides x ss' : map side ss' = map side (dyn_docsets x) →
  ∃ l r o, ss' = inl l :: inl r :: map inr o ∧ from_dyn x ss' = with_docsets x l r o.
Proof using.
  destruct ss' as [|[l|] [|[r|] ss]]; try done; []. simpl. intros E. injection E as E.
  assert (∃ o, ss = map inr o) as [o ->].
  { clear -E. revert E. generalize (others x). induction ss as [|[a|b] ss IH]; intros [|y o]; try done; [by exists []|].
    simpl. intros [= E]. destruct (IH o E) as [o' ->]. by exists (b :: o'). }
  exists l, r, o. split; [done|]. f_equal. clear. induction o as [|b o IH]; [done|]. simpl. f_equal. exact IH.
Qed.

Lemma dyn_stands o ls : Forall2 (stands (S := A + B)) (map inr o) ls ↔ Forall2 stands o ls.
Proof using. split; (revert ls; induction o; intros ls Hs; inversion Hs; subst; constructor; [done|auto]). Qed.

Lemma dyn_ready t o ls : Forall2 (λ s : A + B, ready s t) (map inr o) ls ↔ Forall2 (λ s, ready s t) o ls.
Proof using. split; (revert ls; induction o; intros ls Hs; inversion Hs; subst; constructor; [done|auto]). Qed.

(** From the end on, also out of the danger zone. *)
Lemma inter_seek_end x t l0 l1 ls : parts x t l0 l1 ls → t ≤ TERMINATED →
  ∃ x', inter_seek x TERMINATED = Ret (x', TERMINATED) ∧ inter_stands x' [].
Proof using.
  intros (Hl & Hr & Ho) Ht. unfold inter_seek. destruct (ready_end _ _ _ Hl) as (l & -> & Hl'). rewrite bind_ret.
  set (y := with_docsets x l (right x) (others x)).
  destruct (go_to_first_doc_end side side_seek (dyn_docsets y) ([] :: l1 :: ls)) as (ss' & E & Et & Hs).
  - constructor; [by apply (stands_ready (S := A + B))|]. constructor; [by eapply (ready_mono (S := A + B)); [exact Hr|]|].
    apply dyn_ready. by eapply ready_all_mono.
  - left. simpl. by rewrite (doc_stands _ _ Hl').
  - rewrite E, bind_ret. destruct (from_dyn_sides y ss' Et) as (l' & r' & o' & -> & ->). eexists. split; [done|].
    apply Forall_cons in Hs as [Hs1 [Hs2 Hs3]%Forall_cons]. left. exists [], [], (map (λ _, []) o'). simpl. split_and!; try done.
    + clear -Hs3. induction o'; [constructor|]. apply Forall_cons in Hs3 as [? ?]. constructor; auto.
    + clear. induction o'; simpl; constructor; done.
Qed.

Lemma inter_seek_spec x l t : inter_stands x l → first l ≤ t ≤ TERMINATED →
  ∃ x', inter_seek x t = Ret (x', first (from t l)) ∧ inter_stands x' (from t l).
Proof using.
  intros [(l0 & l1 & ls & Hl & Hr & Ho & -> & E1 & Es)|(l1 & ls & -> & Hl & Hp)] Ht; cycle 1.
  { simpl in Ht. assert (t = TERMINATED) as -> by lia. by eapply inter_seek_end. }
  pose proof (stands_docs _ _ Hl) as H0'. pose proof (stands_docs _ _ Hr) as H1'. pose proof (stands_all_docs _ _ Ho) as Hs'.
  rewrite inter_first in Ht by done. unfold inter_seek. destruct (seek_stands _ _ _ Hl Ht) as (l & -> & Hl'). rewrite bind_ret.
  set (y := with_docsets x l (right x) (others x)).
  destruct (go_to_first_doc_spec side side_seek (dyn_docsets y) (from t l0 :: l1 :: ls)) as (ss' & ls' & c & E & Et & Hs & Hf & Hd).
  - constructor; [done|]. constructor; [done|]. by apply dyn_stands.
  - done.
  - rewrite E, bind_ret. destruct (from_dyn_sides y ss' Et) as (l' & r' & o' & -> & ->).
    apply Forall2_cons_inv_l in Hs as (m0 & ms & Hs0 & Hs & ->). apply Forall2_cons_inv_l in Hs as (m1 & ms' & Hs1 & Hs & ->).
    apply dyn_stands in Hs. apply Forall_cons in Hf as [Hf0 [Hf1 Hfs]%Forall_cons].
    pose proof (stands_docs (S := A) _ _ Hs0) as Hm0. pose proof (stands_docs (S := A) _ _ Hs1) as Hm1. pose proof (stands_all_docs _ _ Hs) as Hms.
    assert (from t (inter l0 (l1 :: ls)) = inter m0 (m1 :: ms')) as ->.
    { apply docs_ext; [by apply docs_from, docs_inter|by apply docs_inter|]. intros d. specialize (Hd d).
      rewrite !Forall_cons in Hd. rewrite elem_from, !elem_inter, !Forall_cons. rewrite elem_from in Hd. tauto. }
    eexists. split; [rewrite inter_first; [by rewrite Hf0|done..| |]|].
    + congruence.
    + eapply Forall_impl; [exact Hfs|]. simpl. congruence.
    + left. exists m0, m1, ms'. simpl. split_and!; try done; [congruence|]. eapply Forall_impl; [exact Hfs|]. simpl. congruence.
Qed.

Lemma inter_stands_docs x l : inter_stands x l → docs_ok l.
Proof using.
  intros [(l0 & l1 & ls & Hl & _ & _ & -> & _)|(? & ? & -> & _)]; [|apply docs_nil]. apply docs_inter. exact (stands_docs _ _ Hl).
Qed.

Lemma inter_doc_stands x l : inter_stands x l → doc x = first l.
Proof using.
  intros [(l0 & l1 & ls & Hl & Hr & Ho & -> & E1 & Es)|(l1 & ls & -> & Hl & _)]; simpl; rewrite (doc_stands _ _ Hl); [|done].
  rewrite inter_first; [done|exact (stands_docs _ _ Hl)|exact (stands_docs _ _ Hr)|exact (stands_all_docs _ _ Ho)|done|done].
Qed.

Lemma inter_doc_adrift x t l : inter_adrift x t l → doc x ≤ first (from t l).
Proof using.
  intros (Hl & Ht & l0 & l1 & ls & Hp & ->). pose proof (inter_parts_docs _ _ _ _ _ Hp) as (H0' & _ & _). destruct Hp as (Hr & _ & _).
  simpl. pose proof (ready_doc _ _ _ Hr Ht) as Hd. apply first_lower; [by apply docs_from, docs_inter| |].
  - pose proof (first_bound _ (docs_from t l0 H0')). lia.
  - intros d [Htd [Hd0 _]%elem_inter]%elem_from. assert (d ∈ from t l0) as Hin by by apply elem_from.
    apply first_min in Hin; [lia|by apply docs_from].
Qed.

#[export] Instance Laws_Intersection : DocSetLaws (Intersection A B).
Proof.
  refine {| stands := inter_stands; adrift := inter_adrift |}.
  - apply inter_stands_docs.
  - by intros x t l (? & ? & _).
  - apply inter_doc_stands.
  - apply inter_doc_adrift.
  - apply inter_advance_spec.
  - apply inter_seek_spec.
  - intros x l t Hs Ht. pose proof (inter_stands_docs _ _ Hs) as Hl.
    destruct (inter_stands_parts x l t Hs) as (l0 & l1 & ls & Hp & H0' & ->); [lia..|].
    destruct (inter_danger_spec x t l0 l1 ls Hp) as (x' & b & E & Hb); [lia|]. exists x', b. split; [done|]. destruct b; [done|].
    destruct Hb as (Hf & l0' & l1' & ls' & Hp' & Eq). split; [done|]. split; [done|]. split; [lia|]. by exists l0', l1', ls'.
  - intros x l t0 t (Hl & Ht0 & l0 & l1 & ls & Hp & Eq) Ht.
    assert (parts x t l0 l1 ls) as Hpt.
    { assert (t0 ≤ t) as Hle by lia. destruct Hp as (Ha & Hb & Hc).
      split_and!; [exact (ready_mono _ _ _ _ Ha Hle)|exact (ready_mono _ _ _ _ Hb Hle)|exact (ready_all_mono _ _ _ _ Hc Hle)]. }
    assert (from t l = from t (inter l0 (l1 :: ls))) as Et by (rewrite <- (from_from l t0 t), Eq, from_from; [done|lia|lia]).
    destruct (inter_danger_spec x t l0 l1 ls Hpt) as (x' & b & E & Hb); [lia|]. exists x', b. split; [done|]. rewrite Et. destruct b; [done|].
    destruct Hb as (Hf & l0' & l1' & ls' & Hp' & Eq'). split; [done|]. split; [done|]. split; [lia|]. exists l0', l1', ls'. by rewrite Et.
  - intros x t l (Hl & Ht & l0 & l1 & ls & Hp & Eq). by eapply inter_seek_end.
Defined.

#[export] Instance Ends_Intersection : DocSetEnds (Intersection A B).
Proof.
  assert (∀ x l0 l1 ls t, parts x t l0 l1 ls → t ≤ TERMINATED →
    ∃ x', seek_into_the_danger_zone x TERMINATED = Ret (x', true) ∧ stands x' []) as Hend.
  { intros x l0 l1 ls t (Ha & Hb & Hc) Ht. destruct (inter_danger_spec x TERMINATED l0 l1 ls) as (x' & b & E & Hb'); [|done|].
    - split_and!; [exact (ready_mono _ _ _ _ Ha Ht)|exact (ready_mono _ _ _ _ Hb Ht)|exact (ready_all_mono _ _ _ _ Hc Ht)].
    - pose proof (ready_docs _ _ _ Ha) as H0'. rewrite from_end in Hb' by by apply docs_inter. exists x'. destruct b; [by destruct Hb'|by destruct Hb' as [[] _]]. }
  split.
  - intros x l Hs. destruct (inter_stands_parts x l TERMINATED Hs) as (l0 & l1 & ls & Hp & _ & _); [|done|by eapply Hend].
    by apply first_bound, (inter_stands_docs x).
  - intros x t l (_ & Ht & l0 & l1 & ls & Hp & _). by eapply Hend.
Qed.
End Laws.

(** ** Building an intersection *)

Section New.
Context {S : Type} `{DocSetEnds S}.

Lemma new_spec (cost : S → Z) ss ls n : Forall2 stands ss ls → 2 ≤ #ss →
  ∃ x l, new cost ss n = Ret x ∧ stands x l ∧ ∀ d, d ∈ l ↔ Forall (λ l, d ∈ l) ls.
Proof using.
  intros Hs Hn. unfold new. rewrite (proj2 (Z.leb_le _ _)) by done. cbn [assert_].
  pose proof (merge_sort_Permutation (by_cost cost) ss) as Hp. destruct (Forall2_perm stands ss _ ls Hs Hp) as (ls0 & Hs0 & Hls).
  assert (∃ s0 s1 so, merge_sort (by_cost cost) ss = s0 :: s1 :: so) as (s0 & s1 & so & Em).
  { apply Permutation_length in Hp. unfold len in Hn. destruct (merge_sort _ _) as [|s0 [|s1 so]]; simpl in Hp; [lia|lia|by eauto]. }
  rewrite Em in *. destruct (go_to_first_doc_spec (λ _, ()) (λ _ _ _ _ _, eq_refl) _ _ Hs0) as (ss' & ls' & c & E & Et & Hs' & Hf & Hd); [done|].
  rewrite E, bind_ret. destruct ss' as [|a [|b o]]; try done; [].
  apply Forall2_cons_inv_l in Hs' as (m0 & ms & Ha & Hs' & ->). apply Forall2_cons_inv_l in Hs' as (m1 & ms' & Hb & Ho & ->).
  apply Forall_cons in Hf as [Hf0 [Hf1 Hfs]%Forall_cons]. eexists _, (inter m0 (m1 :: ms')). split; [done|]. split.
  - left. exists m0, m1, ms'. simpl. split_and!; try done; [congruence|]. eapply Forall_impl; [exact Hfs|]. simpl. congruence.
  - intros d. rewrite elem_inter, <- Forall_cons, Hd. by rewrite Hls.
Qed.
End New.

(** ** Properties *)

(** C21. An intersection is the common documents.  For any two docsets or more
    that honour the trait's contract, in any states of theirs and at any
    costs, [Intersection::new] returns a docset that answers every allowed
    sequence of [doc], [advance], [seek] and [seek_into_the_danger_zone] as
    the increasing list of the documents common to all of them would. *)
Theorem intersection_refines {S} `{DocSetEnds S} (cost : S → Z) (ss : list S) (ls : list (list Z)) (n : Z) :
  Forall2 stands ss ls → 2 ≤ #ss →
  ∃ x l, new cost ss n = Ret x ∧ docs_ok l ∧ (∀ d, d ∈ l ↔ Forall (λ l', d ∈ l') ls) ∧
    ∀ calls ans, expected calls l None = Some ans → run calls x = Ret ans.
Proof.
  intros Hs Hn. destruct (new_spec cost ss ls n Hs Hn) as (x & l & E & Hx & Hd). exists x, l. split; [done|].
  split; [exact (stands_docs _ _ Hx)|]. split; [done|]. intros calls ans. by apply (run_expected calls x l None ans).
Qed.

Lemma intersection_refines_witness :
  ∃ x, new (λ s, #(doc_ids s)) [from_vec [1; 3; 7; 200; 400]; from_vec [3; 4; 7; 400]; from_vec [2; 3; 7; 9; 400]] 500 = Ret x ∧
    run [Doc; Danger 5; Danger 7; Advance; Advance; Seek TERMINATED] x = Ret [3; 0; 1; 400; TERMINATED; TERMINATED].
Proof.
  set (ls := [[1; 3; 7; 200; 400]; [3; 4; 7; 400]; [2; 3; 7; 9; 400]]).
  destruct (intersection_refines (λ s, #(doc_ids s)) (map from_vec ls) ls 500) as (x & l & E & Hl & Hd & Hrun).
  - by apply vecs_stand.
  - done.
  - exists x. split; [exact E|]. apply Hrun. assert (l = [3; 7; 400]) as ->; [|by vm_compute].
    apply docs_ext; [done| |].
    + by apply docs_check_ok.
    + intros d. rewrite Hd. unfold ls. rewrite !Forall_cons, Forall_nil, !elem_of_cons, !elem_of_nil. lia.
Defined.
