(* ===== verification/Exclude.v ===== *)
(** * Exclusion and the simple union ([src/query/exclude.rs],
      [src/query/union/simple_union.rs])

    Two combinators with the provided [seek_into_the_danger_zone]; both keep
    to the valid states of the docsets below them. *)
From S2P Require Import Prelude DocSet.
Import docset.

Module exclude.

Definition is_within {B} `{DocSet B} (docset : B) (d : Z) : out (B * bool) :=
  if doc docset <=? d then '(docset, x) ← seek docset d; Ret (docset, x =? d) else Ret (docset, false).

Record Exclude (A B : Type) := { underlying_docset : A; excluding_docset : B }.
Arguments underlying_docset {A B}.
Arguments excluding_docset {A B}.

Section Methods.
Context {A B : Type} `{DocSet A} `{DocSet B}.

(** The body of the [while] of [new]. *)
Definition new_step (x : Exclude A B) : out (Exclude A B + Exclude A B) :=
  let target := doc (underlying_docset x) in
  if target =? TERMINATED then Ret (inr x) else
  '(e, within) ← is_within (excluding_docset x) target;
  let x := {| underlying_docset := underlying_docset x; excluding_docset := e |} in
  if negb within then Ret (inr x)
  else '(u, _) ← advance (underlying_docset x); Ret (inl {| underlying_docset := u; excluding_docset := e |}).

Definition new (underlying : A) (excluding : B) : out (Exclude A B) :=
  loop new_step {| underlying_docset := underlying; excluding_docset := excluding |}.

(** The body of the loop of [advance]. *)
Definition ex_step (x : Exclude A B) : out (Exclude A B + Exclude A B * Z) :=
  '(u, candidate) ← advance (underlying_docset x);
  if candidate =? TERMINATED then Ret (inr ({| underlying_docset := u; excluding_docset := excluding_docset x |}, TERMINATED)) else
  '(e, within) ← is_within (excluding_docset x) candidate;
  let x := {| underlying_docset := u; excluding_docset := e |} in
  if negb within then Ret (inr (x, candidate)) else Ret (inl x).

Definition ex_advance (x : Exclude A B) : out (Exclude A B * Z) := loop ex_step x.

Definition ex_seek (x : Exclude A B) (target : Z) : out (Exclude A B * Z) :=
  '(u, candidate) ← seek (underlying_docset x) target;
  if candidate =? TERMINATED then Ret ({| underlying_docset := u; excluding_docset := excluding_docset x |}, TERMINATED) else
  '(e, within) ← is_within (excluding_docset x) candidate;
  let x := {| underlying_docset := u; excluding_docset := e |} in
  if negb within then Ret (x, candidate) else ex_advance x.

#[export] Instance DocSet_Exclude : DocSet (Exclude A B) := {
  doc x := doc (underlying_docset x);
  advance := ex_advance;
  seek := ex_seek;
  seek_into_the_danger_zone := default_danger (λ x, doc (underlying_docset x)) ex_seek;
}.
End Methods.

End exclude.

Module simple_union.

Record SimpleUnion (S : Type) := { docsets : list S; su_doc : Z }.
Arguments docsets {S}.
Arguments su_doc {S}.

Section Methods.
Context {S : Type} `{DocSet S}.

Definition initialize_first_doc_id (ss : list S) : Z := foldl (λ next s, Z.min next (doc s)) TERMINATED ss.

Definition build (ss : list S) : SimpleUnion S :=
  let ss := filter (λ s, doc s ≠ TERMINATED) ss in
  {| docsets := ss; su_doc := initialize_first_doc_id ss |}.

(** The loop of [advance_to_next]; [cur] is [self.doc] before it. *)
Fixpoint advance_all (cur : Z) (ss : list S) (next : Z) : out (list S * Z) :=
  match ss with
  | [] => Ret ([], next)
  | s :: ss =>
      s ← (if doc s <=? cur then '(s, _) ← advance s; Ret s else Ret s);
      '(ss, next) ← advance_all cur ss (Z.min next (doc s));
      Ret (s :: ss, next)
  end.

Definition advance_to_next (x : SimpleUnion S) : out (SimpleUnion S * Z) :=
  '(ss, next) ← advance_all (su_doc x) (docsets x) TERMINATED;
  Ret ({| docsets := ss; su_doc := next |}, next).

(** The loop of [seek]; [least] is [self.doc]. *)
Fixpoint seek_docsets (target : Z) (ss : list S) (least : Z) : out (list S * Z) :=
  match ss with
  | [] => Ret ([], least)
  | s :: ss =>
      s ← (if doc s <? target then '(s, _) ← seek s target; Ret s else Ret s);
      '(ss, least) ← seek_docsets target ss (if doc s <? least then doc s else least);
      Ret (s :: ss, least)
  end.

Definition su_seek (x : SimpleUnion S) (target : Z) : out (SimpleUnion S * Z) :=
  '(ss, least) ← seek_docsets target (docsets x) TERMINATED;
  Ret ({| docsets := ss; su_doc := least |}, least).

(** The union's own [count_including_deleted]. *)
Definition su_count (x : SimpleUnion S) : out (SimpleUnion S * Z) :=
  if su_doc x =? TERMINATED then Ret (x, 0)
  else loop (λ '(x, n), '(x, d) ← advance_to_next x; Ret (if d =? TERMINATED then inr (x, n) else inl (x, add32 n 1))) (x, 1).

#[export] Instance DocSet_SimpleUnion : DocSet (SimpleUnion S) := {
  doc := su_doc;
  advance := advance_to_next;
  seek := su_seek;
  seek_into_the_danger_zone := default_danger su_doc su_seek;
}.
End Methods.

End simple_union.

(** ** Exclusion *)

Import exclude.

Section Exclusion.
Context {A B : Type} `{DocSetLaws A} `{DocSetLaws B}.
Implicit Types (x : Exclude A B).

(** The documents of the first list that the second lacks. *)
Definition minus (l0 l1 l : list Z) : Prop := docs_ok l ∧ ∀ d, d ∈ l ↔ d ∈ l0 ∧ d ∉ l1.

Definition ex_stands x (l : list Z) : Prop :=
  ∃ l0 l1, stands (underlying_docset x) l0 ∧ stands (excluding_docset x) l1 ∧ (first l0 ∉ l1) ∧ minus l0 l1 l.

Lemma minus_first l0 l1 l : docs_ok l0 → first l0 ∉ l1 → minus l0 l1 l → first l = first l0.
Proof using.
  intros H0' Hf [Hl Hd]. destruct (first_cases l0 H0') as [[-> ->]|[Hin _]].
  - apply first_end; [done|]. apply docs_ext; [done|apply docs_nil|]. intros d. rewrite Hd, elem_of_nil. tauto.
  - apply first_least; [done|by apply Hd|]. intros d [? _]%Hd. by apply first_min.
Qed.

Lemma is_within_spec (e : B) l1 d : stands e l1 → d < TERMINATED →
  ∃ e' l1' b, is_within e d = Ret (e', b) ∧ stands e' l1' ∧ keeps d l1 l1' ∧ (b = true ↔ d ∈ l1).
Proof using.
  intros He Hd. pose proof (stands_docs _ _ He) as H1'. unfold is_within. rewrite (doc_stands _ _ He).
  destruct (Z.leb_spec (first l1) d) as [Hle|Hgt].
  - destruct (seek_stands e l1 d He ltac:(lia)) as (e' & -> & He'). rewrite bind_ret. exists e', (from d l1), (first (from d l1) =? d).
    split; [done|]. split; [done|]. split; [apply keeps_from|]. by rewrite Z.eqb_eq, first_from_hit.
  - exists e, l1, false. split; [done|]. split; [done|]. split; [apply keeps_refl|]. split; [done|]. intros Hin.
    pose proof (first_min l1 d H1' Hin). lia.
Qed.

(** The excluding docset moves up to the position of the other. *)
Lemma minus_move l0 l1 l1' l : docs_ok l0 → minus l0 l1 l → keeps (first l0) l1 l1' → minus l0 l1' l.
Proof using.
  intros H0' [Hl Hd] Hk. split; [done|]. intros d. rewrite Hd. split; intros [Hd0 Hd1]; (split; [done|]);
    pose proof (first_min l0 d H0' Hd0) as Hge; [by rewrite <- (Hk d Hge)|by rewrite (Hk d Hge)].
Qed.

(** An excluded document is passed over. *)
Lemma minus_skip l0 l1 l : docs_ok l0 → first l0 ∈ l1 → minus l0 l1 l → minus (tail l0) l1 l.
Proof using.
  intros H0' Hin [Hl Hd]. split; [done|]. intros d. rewrite elem_tail, Hd by done. split; [|tauto]. intros [Hd0 Hd1].
  split; [|done]. split; [done|]. pose proof (first_min l0 d H0' Hd0). assert (d ≠ first l0); [by intros ->|lia].
Qed.

Lemma ex_advance_spec x l0 l1 tl : stands (underlying_docset x) l0 → stands (excluding_docset x) l1 → minus (tail l0) l1 tl →
  ∃ x', ex_advance x = Ret (x', first tl) ∧ ex_stands x' tl.
Proof using.
  intros Hu He Hm. unfold ex_advance.
  destruct (loop_spec ex_step (λ x, ∃ l0 l1, stands (underlying_docset x) l0 ∧ stands (excluding_docset x) l1 ∧ minus (tail l0) l1 tl)
    (λ x, TERMINATED - doc (underlying_docset x)) (λ '(x', d), d = first tl ∧ ex_stands x' tl)) with (s := x)
    as ([x' d] & E & -> & Hx'); cycle -1; [by exists x'|..].
  - clear. intros x (l0 & l1 & Hu & He & Hm). unfold ex_step. pose proof (stands_docs _ _ Hu) as H0'. rewrite (doc_stands _ _ Hu).
    destruct (advance_stands _ _ Hu) as (u & -> & Hu'). rewrite bind_ret. pose proof (stands_docs _ _ Hu') as Ht. pose proof (stands_docs _ _ He) as H1'.
    destruct (Z.eqb_spec (first (tail l0)) TERMINATED) as [Hend|Hne].
    + eexists. split; [done|]. cbv iota beta. assert (first (tail l0) ∉ l1) as Hnot.
      { rewrite Hend. intros Hin. apply (docs_bound _ _ H1') in Hin. lia. }
      split; [rewrite (minus_first _ _ _ Ht Hnot Hm); congruence|]. by exists (tail l0), l1.
    + assert (first (tail l0) < TERMINATED) as Hlt by (pose proof (first_bound _ Ht); lia).
      destruct (is_within_spec (excluding_docset x) l1 _ He Hlt) as (e & l1' & b & -> & He' & Hk & Hb). rewrite bind_ret.
      assert (minus (tail l0) l1' tl) as Hm' by by eapply minus_move.
      destruct b; simpl negb; cbv iota; (eexists; split; [done|]); cbv iota beta.
      * assert (first (tail l0) ∈ l1) as Hin by by apply Hb. split.
        -- exists (tail l0), l1'. simpl. split_and!; [done|done|]. apply minus_skip; [done|apply Hk; [lia|done]|done].
        -- simpl. rewrite (doc_stands _ _ Hu'). destruct (first_cases l0 H0') as [[-> _]|[_ Hlt0]]; [done|].
           pose proof (tail_after l0 H0' Hlt0). lia.
      * assert (first (tail l0) ∉ l1') as Hnot by (intros Hin; apply Hk in Hin; [by apply Hb in Hin|lia]).
        split; [by rewrite (minus_first _ _ _ Ht Hnot Hm')|]. by exists (tail l0), l1'.
  - by exists l0, l1.
  - clear. intros x (l0 & l1 & Hu & _). rewrite (doc_stands _ _ Hu). apply stands_docs, first_bound in Hu. lia.
  - rewrite (doc_stands _ _ Hu). apply stands_docs, first_bound in Hu. unfold TERMINATED in *. lia.
Qed.

Lemma ex_seek_spec x l t : ex_stands x l → first l ≤ t ≤ TERMINATED →
  ∃ x', ex_seek x t = Ret (x', first (from t l)) ∧ ex_stands x' (from t l).
Proof using.
  intros (l0 & l1 & Hu & He & Hf & Hm) Ht. pose proof (stands_docs _ _ Hu) as H0'. pose proof (stands_docs _ _ He) as H1'.
  rewrite (minus_first _ _ _ H0' Hf Hm) in Ht. unfold ex_seek. destruct (seek_stands _ _ _ Hu Ht) as (u & -> & Hu'). rewrite bind_ret.
  pose proof (stands_docs _ _ Hu') as Hd0. pose proof (first_from l0 t H0' ltac:(lia)) as Hge.
  assert (minus (from t l0) l1 (from t l)) as Hm'.
  { split; [apply docs_from, Hm|]. intros d. rewrite !elem_from, (proj2 Hm d). tauto. }
  destruct (Z.eqb_spec (first (from t l0)) TERMINATED) as [Hend|Hne].
  - assert (first (from t l0) ∉ l1) as Hnot by (rewrite Hend; intros Hin; apply (docs_bound _ _ H1') in Hin; lia).
    eexists. split; [rewrite (minus_first _ _ _ Hd0 Hnot Hm'), Hend; done|]. by exists (from t l0), l1.
  - assert (first (from t l0) < TERMINATED) as Hlt by (pose proof (first_bound _ Hd0); lia).
    destruct (is_within_spec _ l1 _ He Hlt) as (e & l1' & b & -> & He' & Hk & Hb). rewrite bind_ret.
    assert (minus (from t l0) l1' (from t l)) as Hm2 by by eapply minus_move.
    destruct b; simpl negb; cbv iota.
    + eapply ex_advance_spec; [done|done|]. apply minus_skip; [done|apply Hk; [lia|by apply Hb]|done].
    + assert (first (from t l0) ∉ l1') as Hnot by (intros Hin; apply Hk in Hin; [by apply Hb in Hin|lia]).
      eexists. split; [by rewrite (minus_first _ _ _ Hd0 Hnot Hm2)|]. by exists (from t l0), l1'.
Qed.

Lemma ex_new_spec (u : A) (e : B) l0 l1 l : stands u l0 → stands e l1 → minus l0 l1 l → ∃ x, new u e = Ret x ∧ ex_stands x l.
Proof using.
  intros Hu He Hm. unfold new.
  destruct (loop_spec new_step (λ x, ∃ l0 l1, stands (underlying_docset x) l0 ∧ stands (excluding_docset x) l1 ∧ minus l0 l1 l)
    (λ x, TERMINATED - doc (underlying_docset x)) (λ x, ex_stands x l)) with (s := {| underlying_docset := u; excluding_docset := e |})
    as (x & E & Hx); cycle -1; [by exists x|..].
  - clear. intros x (l0 & l1 & Hu & He & Hm). unfold new_step. pose proof (stands_docs _ _ Hu) as H0'. pose proof (stands_docs _ _ He) as H1'.
    rewrite (doc_stands _ _ Hu). destruct (Z.eqb_spec (first l0) TERMINATED) as [Hend|Hne].
    + eexists. split; [done|]. exists l0, l1. split_and!; try done; []. rewrite Hend. intros Hin. apply (docs_bound _ _ H1') in Hin. lia.
    + assert (first l0 < TERMINATED) as Hlt by (pose proof (first_bound _ H0'); lia).
      destruct (is_within_spec _ l1 _ He Hlt) as (e & l1' & b & -> & He' & Hk & Hb). rewrite bind_ret.
      assert (minus l0 l1' l) as Hm' by by eapply minus_move.
      destruct b; simpl negb; cbv iota.
      * destruct (advance_stands _ _ Hu) as (u & Ea & Hu'). cbn [underlying_docset]. rewrite Ea, bind_ret. eexists. split; [done|]. simpl.
        rewrite (doc_stands _ _ Hu'). split; [|pose proof (tail_after l0 H0' Hlt); lia]. exists (tail l0), l1'. split_and!; [done|done|].
        apply minus_skip; [done|apply Hk; [lia|by apply Hb]|done].
      * eexists. split; [done|]. exists l0, l1'. split_and!; try done; []. intros Hin. apply Hk in Hin; [by apply Hb in Hin|lia].
  - by exists l0, l1.
  - clear. intros x (l0 & l1 & Hu & _). rewrite (doc_stands _ _ Hu). apply stands_docs, first_bound in Hu. lia.
  - simpl. rewrite (doc_stands _ _ Hu). apply stands_docs, first_bound in Hu. unfold TERMINATED in *. lia.
Qed.

#[export] Instance Laws_Exclude : DocSetLaws (Exclude A B).
Proof.
  refine (steady_laws ex_stands _ _ _ ex_seek_spec (λ _ _, eq_refl)).
  - by intros x l (l0 & l1 & _ & _ & _ & [? _]).
  - intros x l (l0 & l1 & Hu & _ & Hf & Hm). simpl. rewrite (doc_stands _ _ Hu). symmetry. by apply (minus_first _ l1); [exact (stands_docs _ _ Hu)|..].
  - intros x l (l0 & l1 & Hu & He & Hf & Hm). pose proof (stands_docs _ _ Hu) as H0'. eapply ex_advance_spec; [done|done|].
    split; [apply docs_tail, Hm|]. intros d. rewrite !elem_tail, (minus_first l0 l1), (proj2 Hm d) by (done || apply Hm). tauto.
Defined.

#[export] Instance Ends_Exclude : DocSetEnds (Exclude A B).
Proof. apply steady_ends. Qed.

#[export] Instance Resumes_Exclude : DocSetResumes (Exclude A B).
Proof. apply steady_resumes. Qed.
End Exclusion.

(** ** The simple union *)

Import simple_union.

(** [l] lists the documents of any of the lists of [ls]. *)
Definition joins (ls : list (list Z)) (l : list Z) : Prop := docs_ok l ∧ ∀ d, d ∈ l ↔ Exists (λ l', d ∈ l') ls.

Definition least (m : Z) (ls : list (list Z)) : Z := foldl (λ m l, Z.min m (first l)) m ls.

Lemma least_spec ls m : least m ls ≤ m ∧ Forall (λ l, least m ls ≤ first l) ls ∧ (least m ls = m ∨ Exists (λ l, least m ls = first l) ls).
Proof.
  revert m. induction ls as [|l ls IH]; intros m; cbn [least foldl]; [split; [lia|]; split; [constructor|by left]|].
  destruct (IH (Z.min m (first l))) as (Hm & Ha & He). fold (least (Z.min m (first l)) ls). split; [lia|]. split; [constructor; [lia|done]|].
  destruct He as [->|?]; [|by right; right]. destruct (Z.min_spec m (first l)) as [[_ ->]|[_ ->]]; [by left|by right; left].
Qed.

Lemma joins_first ls l : Forall docs_ok ls → joins ls l → least TERMINATED ls = first l.
Proof.
  intros Hls [Hl Hd]. destruct (least_spec ls TERMINATED) as (Hm & Ha & He). destruct (first_cases l Hl) as [[-> ->]|[Hin Hlt]].
  - destruct He as [?|He]; [done|]. rewrite Exists_exists in He. destruct He as (l' & Hin & E). rewrite Forall_forall in Hls.
    destruct (first_cases l' (Hls l' Hin)) as [[_ E']|[Hin' _]]; [lia|]. exfalso. apply (elem_of_nil (first l')), Hd, Exists_exists. by exists l'.
  - apply Hd, Exists_exists in Hin as (l' & Hl' & Hin). rewrite Forall_forall in Ha, Hls. pose proof (Ha l' Hl'). pose proof (first_min l' _ (Hls l' Hl') Hin).
    destruct He as [E|He]; [lia|]. rewrite Exists_exists in He. destruct He as (l2 & Hl2 & E).
    destruct (first_cases l2 (Hls l2 Hl2)) as [[_ ?]|[Hin2 _]]; [lia|]. assert (first l ≤ first l2); [|lia].
    apply first_min; [done|]. apply Hd, Exists_exists. by exists l2.
Qed.

Lemma joins_from t ls l : joins ls l → joins (map (from t) ls) (from t l).
Proof.
  intros [Hl Hd]. split; [by apply docs_from|]. intros d. rewrite elem_from, Hd, !Exists_exists. split.
  - intros (Ht & l' & Hin & Hd'). exists (from t l'). split; [by apply list_elem_of_fmap_2|by apply elem_from].
  - intros (l' & Hin & Hd'). apply list_elem_of_fmap in Hin as (l2 & -> & Hin). apply elem_from in Hd' as [? ?]. split; [done|]. by exists l2.
Qed.

Lemma joins_below ls l : Forall docs_ok ls → joins ls l → Forall (λ l', first l ≤ first l') ls.
Proof. intros Hls Hj. rewrite <- (joins_first ls l Hls Hj). apply (least_spec ls TERMINATED). Qed.

Lemma docs_froms t ls : Forall docs_ok ls → Forall docs_ok (map (from t) ls).
Proof. intros Hls. apply Forall_map. eapply Forall_impl; [exact Hls|]. intros l. apply docs_from. Qed.

(** What follows the first document, as what is from the next id on. *)
Lemma tail_from l : docs_ok l → from (first l + 1) l = tail l.
Proof.
  intros Hl. apply docs_ext; [by apply docs_from|by apply docs_tail|]. intros d. rewrite elem_from, elem_tail by done. intuition lia.
Qed.

Section Union.
Context {S : Type} `{DocSetLaws S}.
Implicit Types (x : SimpleUnion S).

Definition su_stands x (l : list Z) : Prop := ∃ ls, Forall2 stands (docsets x) ls ∧ joins ls l ∧ su_doc x = first l.

Lemma docsets_docs (ss : list S) ls : Forall2 stands ss ls → Forall docs_ok ls.
Proof using. induction 1; constructor; [by eapply stands_docs|done]. Qed.

Lemma advance_all_spec cur ss ls next : Forall2 stands ss ls → Forall (λ l, cur ≤ first l) ls →
  ∃ ss', advance_all cur ss next = Ret (ss', least next (map (from (cur + 1)) ls)) ∧ Forall2 stands ss' (map (from (cur + 1)) ls).
Proof using.
  intros Hs. revert next. induction Hs as [|s l ss ls Hs Hss IH]; intros next Hc; [by exists []|]. apply Forall_cons in Hc as [Hc Hcs].
  cbn [advance_all]. pose proof (stands_docs _ _ Hs) as Hl.
  assert (∃ s', (if doc s <=? cur then '(s, _) ← advance s; Ret s else Ret s) = Ret s' ∧ stands s' (from (cur + 1) l)) as (s' & -> & Hs').
  { rewrite (doc_stands _ _ Hs). destruct (Z.leb_spec (first l) cur) as [Hle|Hgt].
    - destruct (advance_stands _ _ Hs) as (s' & -> & Hs'). exists s'. split; [done|]. assert (cur = first l) as -> by lia. by rewrite tail_from.
    - exists s. by rewrite from_id by (done || lia). }
  rewrite bind_ret, (doc_stands _ _ Hs'). destruct (IH (Z.min next (first (from (cur + 1) l))) Hcs) as (ss' & -> & Hss'). rewrite bind_ret.
  exists (s' :: ss'). split; [done|by constructor].
Qed.

Lemma seek_docsets_spec t ss ls m : Forall2 stands ss ls → t ≤ TERMINATED →
  ∃ ss', seek_docsets t ss m = Ret (ss', least m (map (from t) ls)) ∧ Forall2 stands ss' (map (from t) ls).
Proof using.
  intros Hs Ht. revert m. induction Hs as [|s l ss ls Hs Hss IH]; intros m; [by exists []|].
  cbn [seek_docsets]. pose proof (stands_docs _ _ Hs) as Hl.
  assert (∃ s', (if doc s <? t then '(s, _) ← seek s t; Ret s else Ret s) = Ret s' ∧ stands s' (from t l)) as (s' & -> & Hs').
  { rewrite (doc_stands _ _ Hs). destruct (Z.ltb_spec (first l) t) as [Hlt|Hge].
    - destruct (seek_stands s l t Hs ltac:(lia)) as (s' & -> & Hs'). by exists s'.
    - exists s. by rewrite from_id by (done || lia). }
  rewrite bind_ret, (doc_stands _ _ Hs').
  assert ((if first (from t l) <? m then first (from t l) else m) = Z.min m (first (from t l))) as ->.
  { destruct (Z.ltb_spec (first (from t l)) m); lia. }
  destruct (IH (Z.min m (first (from t l)))) as (ss' & -> & Hss'). rewrite bind_ret. exists (s' :: ss'). split; [done|by constructor].
Qed.

Lemma su_advance_spec x l : su_stands x l → ∃ x', advance_to_next x = Ret (x', first (tail l)) ∧ su_stands x' (tail l).
Proof using.
  intros (ls & Hs & Hj & Hd). pose proof (docsets_docs _ _ Hs) as Hls. unfold advance_to_next. rewrite Hd.
  destruct (advance_all_spec (first l) (docsets x) ls TERMINATED Hs (joins_below ls l Hls Hj)) as (ss' & -> & Hs'). rewrite bind_ret.
  rewrite <- (tail_from l (proj1 Hj)). pose proof (joins_from (first l + 1) ls l Hj) as Hj'.
  rewrite (joins_first _ _ (docs_froms _ _ Hls) Hj'). eexists. split; [done|]. by exists (map (from (first l + 1)) ls).
Qed.

Lemma su_seek_spec x l t : su_stands x l → first l ≤ t ≤ TERMINATED →
  ∃ x', su_seek x t = Ret (x', first (from t l)) ∧ su_stands x' (from t l).
Proof using.
  intros (ls & Hs & Hj & Hd) Ht. pose proof (docsets_docs _ _ Hs) as Hls. unfold su_seek.
  destruct (seek_docsets_spec t (docsets x) ls TERMINATED Hs ltac:(lia)) as (ss' & -> & Hs'). rewrite bind_ret.
  rewrite (joins_first _ _ (docs_froms _ _ Hls) (joins_from t ls l Hj)). eexists. split; [done|].
  exists (map (from t) ls). split; [done|]. split; [by apply joins_from|done].
Qed.

#[export] Instance Laws_SimpleUnion : DocSetLaws (SimpleUnion S).
Proof.
  refine (steady_laws su_stands _ _ su_advance_spec su_seek_spec (λ _ _, eq_refl)).
  - by intros x l (ls & _ & [? _] & _).
  - by intros x l (ls & _ & _ & ?).
Defined.

#[export] Instance Ends_SimpleUnion : DocSetEnds (SimpleUnion S).
Proof. apply steady_ends. Qed.

#[export] Instance Resumes_SimpleUnion : DocSetResumes (SimpleUnion S).
Proof. apply steady_resumes. Qed.

Lemma su_build_spec ss ls l : Forall2 stands ss ls → joins ls l → su_stands (build ss) l.
Proof using.
  intros Hs [Hl Hd].
  assert (∃ ls', Forall2 stands (filter (λ s, doc s ≠ TERMINATED) ss) ls' ∧ ∀ d, Exists (λ l', d ∈ l') ls' ↔ Exists (λ l', d ∈ l') ls) as (ls' & Hs' & Hd').
  { clear -Hs. induction Hs as [|s l ss ls Hs _ (ls' & Hss & He)]; [by exists []|]. rewrite filter_cons. case_decide as Hne.
    - exists (l :: ls'). split; [by constructor|]. intros d. rewrite !Exists_cons. by rewrite He.
    - exists ls'. split; [done|]. intros d. rewrite Exists_cons, He. rewrite (doc_stands _ _ Hs) in Hne.
      assert (l = []) as ->; [|rewrite elem_of_nil; tauto]. apply first_end; [exact (stands_docs _ _ Hs)|].
      destruct (Z.eq_dec (first l) TERMINATED); [done|tauto]. }
  assert (joins ls' l) as Hj by (split; [done|]; intros d; by rewrite Hd, Hd'). pose proof (docsets_docs _ _ Hs') as Hls'.
  exists ls'. split; [done|]. split; [done|]. simpl. rewrite <- (joins_first ls' l Hls' Hj). unfold initialize_first_doc_id, least. clear -Hs'.
  revert Hs'. generalize (filter (λ s, doc s ≠ TERMINATED) ss). intros ss' Hs'. clear ss. generalize TERMINATED.
  induction Hs' as [|s l ss ls Hs _ IH]; intros m; [done|]. simpl. rewrite (doc_stands _ _ Hs). apply IH.
Qed.

Lemma su_count_spec x l : su_stands x l → ∃ x', su_count x = Ret (x', #l) ∧ su_stands x' [].
Proof using.
  intros Hx. pose proof Hx as (ls & _ & [Hl _] & Hd). unfold su_count. rewrite Hd. destruct (Z.eqb_spec (first l) TERMINATED) as [Hend|Hne].
  { apply first_end in Hend as ->; [|done]. by exists x. }
  set (f := λ '(x, n), _). destruct (loop_spec f (λ '(x, n), ∃ l', su_stands x l' ∧ l' ≠ [] ∧ 1 ≤ n ∧ n + #l' = #l + 1) (λ '(x, _), TERMINATED - su_doc x)
    (λ '(x, n), n = #l ∧ su_stands x [])) with (s := (x, 1)) as ([x' n] & E & -> & Hx'); cycle -1; [by exists x'|..].
  - intros [y n] (l' & Hy & Hne' & Hn & En). unfold f. pose proof Hy as (ls' & _ & [Hl' _] & Hd'). rewrite Hd'.
    destruct (su_advance_spec y l' Hy) as (y' & -> & Hy'). rewrite bind_ret. eexists. split; [done|]. pose proof (docs_tail l' Hl') as Ht.
    assert (first l' ≠ TERMINATED) as Hf by by rewrite first_end. destruct (tail_shorter l' Hl' Hf) as [El _].
    pose proof (len_docs_bound l Hl). pose proof (len_nonneg (tail l')).
    destruct (Z.eqb_spec (first (tail l')) TERMINATED) as [Hend|Hgo].
    + apply first_end in Hend as E; [|done]. rewrite E in *. rewrite len_nil in El. split; [lia|done].
    + split.
      * exists (tail l'). rewrite add32_small by lia. split_and!; [done|by rewrite <- first_end|lia|lia].
      * destruct Hy' as (? & _ & _ & ->). pose proof (first_bound l' Hl'). pose proof (tail_after l' Hl' ltac:(lia)). lia.
  - exists l. split_and!; [done|by rewrite <- first_end|lia|lia].
  - intros [y n] (l' & (ls' & _ & [Hl' _] & ->) & _). apply first_bound in Hl'. lia.
  - rewrite Hd. apply first_bound in Hl. unfold TERMINATED in *. lia.
Qed.
End Union.

(** The union as a list. *)
Definition union_of (ls : list (list Z)) : list Z := merge_sort Z.le (remove_dups (concat ls)).

Lemma union_of_joins ls : Forall docs_ok ls → joins ls (union_of ls).
Proof.
  intros Hls. unfold union_of. pose proof (merge_sort_Permutation Z.le (remove_dups (concat ls))) as Hp.
  assert (∀ d, d ∈ merge_sort Z.le (remove_dups (concat ls)) ↔ Exists (λ l', d ∈ l') ls) as Hd.
  { intros d. rewrite Hp, elem_of_remove_dups, list_elem_of_In, in_concat, Exists_exists. split.
    - intros (l & Hin & Hd). exists l. by rewrite !list_elem_of_In.
    - intros (l & Hin & Hd). exists l. by rewrite <- !list_elem_of_In. }
  split; [|done]. split.
  - assert (NoDup (merge_sort Z.le (remove_dups (concat ls)))) as Hn by (rewrite Hp; apply NoDup_remove_dups).
    pose proof (StronglySorted_merge_sort Z.le (remove_dups (concat ls))) as Hs. revert Hn Hs. generalize (merge_sort Z.le (remove_dups (concat ls))).
    clear. intros l Hn Hs. induction Hs as [|d l Hs IH Hd]; constructor; [by apply IH; apply NoDup_cons in Hn as [_ ?]|].
    apply NoDup_cons in Hn as [Hnot _]. rewrite Forall_forall in *. intros x Hx. specialize (Hd x Hx). assert (d ≠ x) by (by intros ->). lia.
  - apply Forall_forall. intros d [l [Hin Hdl]]%Hd%Exists_exists. rewrite Forall_forall in Hls. by apply (docs_bound l); [apply Hls|].
Qed.

(** ** Properties *)

(** C23. Exclusion.  For docsets that honour the contract, [Exclude::new]
    returns a docset that answers every allowed sequence of calls as the list
    of the documents of the first that the second does not have. *)
Theorem exclude_refines {A B} `{DocSetLaws A} `{DocSetLaws B} (u : A) (e : B) (l0 l1 : list Z) :
  stands u l0 → stands e l1 →
  ∃ x, new u e = Ret x ∧
    ∀ calls ans, expected calls (filter (λ d, d ∉ l1) l0) None = Some ans → run calls x = Ret ans.
Proof.
  intros Hu He. destruct (ex_new_spec u e l0 l1 (filter (λ d, d ∉ l1) l0) Hu He) as (x & E & Hx).
  - split; [apply docs_filter; exact (stands_docs _ _ Hu)|]. intros d. rewrite list_elem_of_filter. tauto.
  - exists x. split; [done|]. intros calls ans. by apply (run_expected calls x _ None ans).
Qed.

Lemma exclude_refines_witness :
  ∃ x, new (from_vec [1; 3; 5; 8; 9]) (from_vec [3; 8; 20]) = Ret x ∧ run [Doc; Advance; Seek 7; Advance; Advance] x = Ret [1; 5; 9; TERMINATED; TERMINATED].
Proof.
  destruct (exclude_refines (from_vec [1; 3; 5; 8; 9]) (from_vec [3; 8; 20]) [1; 3; 5; 8; 9] [3; 8; 20]) as (x & E & Hrun).
  - by apply from_vec_stands, docs_check_ok.
  - by apply from_vec_stands, docs_check_ok.
  - exists x. split; [exact E|]. apply Hrun. by vm_compute.
Defined.

(** C24. The simple union.  Over docsets that honour the contract it answers
    every allowed sequence of calls as the increasing list of the documents
    that any of them has, and counts them. *)
Theorem simple_union_refines {S} `{DocSetLaws S} (ss : list S) (ls : list (list Z)) :
  Forall2 stands ss ls →
  (∀ d, d ∈ union_of ls ↔ Exists (λ l', d ∈ l') ls) ∧
  (∀ calls ans, expected calls (union_of ls) None = Some ans → run calls (build ss) = Ret ans) ∧
  ∃ x', su_count (build ss) = Ret (x', #(union_of ls)).
Proof.
  intros Hs. pose proof (union_of_joins ls (docsets_docs _ _ Hs)) as Hj. pose proof (su_build_spec ss ls _ Hs Hj) as Hx. split; [apply Hj|].
  split; [intros calls ans; by apply (run_expected calls (build ss) _ None ans)|].
  destruct (su_count_spec _ _ Hx) as (x' & E & _). by exists x'.
Qed.

Lemma simple_union_refines_witness :
  run [Doc; Advance; Danger 4; Danger 5; Seek 9; Advance] (build (map from_vec [[1; 5]; []; [1; 3; 9]])) = Ret [1; 3; 0; 1; 9; TERMINATED].
Proof. apply (simple_union_refines (map from_vec [[1; 5]; []; [1; 3; 9]]) [[1; 5]; []; [1; 3; 9]]); [by apply vecs_stand|by vm_compute]. Defined.
