(* ===== verification/BufferedUnion.v ===== *)
(** * The buffered union ([src/query/union/buffered_union.rs])

    The union that queries use: it reads its docsets ahead into a window of
    4096 documents, kept as 64 words of 64 bits ([TinySet],
    [common/src/bitset.rs]), and hands the bits out in order.  Scores are left
    out: the combiners change no document. *)
From S2P Require Import Prelude DocSet Exclude.
Import docset.

Module tinyset.

Definition empty : Z := 0.
Definition singleton (el : Z) : Z := as_u64 (Z.shiftl 1 el).
Definition insert_mut (ts el : Z) : Z := Z.lor ts (singleton el).

(** [u64::trailing_zeros], from bit [i] on. *)
Fixpoint trailing_zeros_from (n : nat) (i w : Z) : Z :=
  match n with
  | O => i
  | S n => if Z.testbit w i then i else trailing_zeros_from n (i + 1) w
  end.
Definition trailing_zeros (w : Z) : Z := trailing_zeros_from 64 0 w.

(** [u64::count_ones]. *)
Definition count_ones (w : Z) : Z := len (filter (λ i, Z.testbit w i = true) (range 0 64)).

Definition pop_lowest (ts : Z) : option (Z * Z) :=
  if ts =? 0 then None
  else let lowest := trailing_zeros ts in Some (Z.lxor ts (singleton lowest), lowest).

End tinyset.

Module buffered_union.
Import tinyset.

Definition HORIZON : Z := 64 * 64.
Definition HORIZON_NUM_TINYBITSETS : Z := HORIZON / 64.

(** [Vec::swap_remove]. *)
Definition swap_remove {A} (i : nat) (v : list A) : list A :=
  match last v with Some z => removelast (<[i := z]> v) | None => v end.

(** [unordered_drain_filter]; the predicate moves the element and the state it
    has captured. *)
Fixpoint unordered_drain_filter {A T} (fuel : nat) (p : T → A → out (T * A * bool)) (st : T) (v : list A) (i : nat) : out (T * list A) :=
  match fuel with
  | O => OutOfFuel
  | S fuel =>
      match v !! i with
      | Some a =>
          '(st, a, remove) ← p st a;
          if remove : bool then unordered_drain_filter fuel p st (swap_remove i v) i
          else unordered_drain_filter fuel p st (<[i := a]> v) (S i)
      | None => Ret (st, v)
      end
  end.

Record BufferedUnionScorer (S : Type) := {
  docsets : list S;
  bitsets : list Z;
  bucket_idx : Z;
  window_start_doc : Z;
  bu_doc : Z;
  num_docs : Z;
}.
Arguments docsets {S}.
Arguments bitsets {S}.
Arguments bucket_idx {S}.
Arguments window_start_doc {S}.
Arguments bu_doc {S}.
Arguments num_docs {S}.

(** [bitsets[(delta / 64)].insert_mut(delta % 64)]. *)
Definition set_bit (bits : list Z) (delta : Z) : out (list Z) :=
  ts ← index bits (delta / 64);
  Ret (set_at (delta / 64) (insert_mut ts (delta mod 64)) bits).

Section Methods.
Context {S : Type} `{DocSet S}.

Definition with_doc (x : BufferedUnionScorer S) (d : Z) : BufferedUnionScorer S :=
  {| docsets := docsets x; bitsets := bitsets x; bucket_idx := bucket_idx x; window_start_doc := window_start_doc x;
     bu_doc := d; num_docs := num_docs x |}.

(** The predicate of [refill] on one scorer: its documents before the horizon
    go into the window; true when it has ended. *)
Definition refill_scorer (min_doc : Z) (bits : list Z) (s : S) : out (list Z * S * bool) :=
  let horizon := add32 min_doc HORIZON in
  loop (λ '(bits, s),
    let d := doc s in
    if horizon <=? d then Ret (inr (bits, s, false)) else
    bits ← set_bit bits (sub32 d min_doc);
    '(s, next) ← advance s;
    Ret (if next =? TERMINATED then inr (bits, s, true) else inl (bits, s))) (bits, s).

Definition refill_window (ss : list S) (bits : list Z) (min_doc : Z) : out (list Z * list S) :=
  unordered_drain_filter (Datatypes.S (length ss)) (refill_scorer min_doc) bits ss 0.

Definition min_doc_of (ss : list S) : option Z :=
  match ss with [] => None | s :: ss => Some (foldl (λ m s, Z.min m (doc s)) (doc s) ss) end.

(** [self.refill()]. *)
Definition refill (x : BufferedUnionScorer S) : out (BufferedUnionScorer S * bool) :=
  match min_doc_of (docsets x) with
  | Some min_doc =>
      '(bits, ss) ← refill_window (docsets x) (bitsets x) min_doc;
      Ret ({| docsets := ss; bitsets := bits; bucket_idx := 0; window_start_doc := min_doc; bu_doc := min_doc; num_docs := num_docs x |}, true)
  | None => Ret (x, false)
  end.

(** The [while] of [advance_buffered], [n] buckets to go. *)
Fixpoint advance_buffered_loop (n : nat) (x : BufferedUnionScorer S) : out (BufferedUnionScorer S * bool) :=
  match n with
  | O => Ret (x, false)
  | Datatypes.S n =>
      ts ← index (bitsets x) (bucket_idx x);
      match pop_lowest ts with
      | Some (ts, val) =>
          let delta := val + bucket_idx x * 64 in
          Ret ({| docsets := docsets x; bitsets := set_at (bucket_idx x) ts (bitsets x); bucket_idx := bucket_idx x;
                  window_start_doc := window_start_doc x; bu_doc := add32 (window_start_doc x) delta; num_docs := num_docs x |}, true)
      | None =>
          advance_buffered_loop n
            {| docsets := docsets x; bitsets := bitsets x; bucket_idx := bucket_idx x + 1; window_start_doc := window_start_doc x;
               bu_doc := bu_doc x; num_docs := num_docs x |}
      end
  end.
Definition advance_buffered (x : BufferedUnionScorer S) : out (BufferedUnionScorer S * bool) :=
  advance_buffered_loop (Z.to_nat (HORIZON_NUM_TINYBITSETS - bucket_idx x)) x.

Definition is_in_horizon (x : BufferedUnionScorer S) (target : Z) : bool :=
  sub32 target (window_start_doc x) <? HORIZON.

Definition bu_advance (x : BufferedUnionScorer S) : out (BufferedUnionScorer S * Z) :=
  '(x, found) ← advance_buffered x;
  if found : bool then Ret (x, bu_doc x) else
  '(x, refilled) ← refill x;
  if negb refilled then Ret (with_doc x TERMINATED, TERMINATED) else
  '(x, found) ← advance_buffered x;
  if negb found then Ret (x, TERMINATED) else Ret (x, bu_doc x).

Definition build (ss : list S) (num_docs : Z) : out (BufferedUnionScorer S) :=
  let x := {| docsets := filter (λ s, doc s ≠ TERMINATED) ss; bitsets := replicate 64 empty; bucket_idx := HORIZON_NUM_TINYBITSETS;
              window_start_doc := 0; bu_doc := 0; num_docs := num_docs |} in
  '(x, refilled) ← refill x;
  if refilled : bool then '(x, _) ← bu_advance x; Ret x else Ret (with_doc x TERMINATED).

(** [for obsolete in &mut bitsets[a..b] { obsolete.clear() }]. *)
Definition clear_range (a b : Z) (bits : list Z) : out (list Z) :=
  if (0 <=? a) && (a <=? b) && (b <=? #bits)
  then Ret (take (Z.to_nat a) bits ++ replicate (Z.to_nat (b - a)) empty ++ drop (Z.to_nat b) bits) else Panic.

(** The predicate of [seek] on one docset beyond the horizon. *)
Definition seek_docset (target : Z) (st : ()) (s : S) : out (() * S * bool) :=
  s ← (if doc s <? target then '(s, _) ← seek s target; Ret s else Ret s);
  Ret (st, s, doc s =? TERMINATED).

Definition bu_seek (x : BufferedUnionScorer S) (target : Z) : out (BufferedUnionScorer S * Z) :=
  if target <=? bu_doc x then Ret (x, bu_doc x) else
  let gap := sub32 target (window_start_doc x) in
  if gap <? HORIZON then
    let new_bucket_idx := gap / 64 in
    bits ← clear_range (bucket_idx x) new_bucket_idx (bitsets x);
    let x := {| docsets := docsets x; bitsets := bits; bucket_idx := new_bucket_idx; window_start_doc := window_start_doc x;
                bu_doc := bu_doc x; num_docs := num_docs x |} in
    default_seek bu_doc bu_advance x target
  else
    '(_, ss) ← unordered_drain_filter (Datatypes.S (length (docsets x))) (seek_docset target) () (docsets x) 0;
    let x := {| docsets := ss; bitsets := map (λ _, empty) (bitsets x); bucket_idx := bucket_idx x; window_start_doc := window_start_doc x;
                bu_doc := bu_doc x; num_docs := num_docs x |} in
    '(x, refilled) ← refill x;
    if negb refilled then Ret (with_doc x TERMINATED, TERMINATED) else bu_advance x.

(** [bitsets.iter().map(|bitset| bitset.len()).sum::<u32>()]. *)
Definition sum_len (bits : list Z) : Z := foldl (λ n w, add32 n (count_ones w)) 0 bits.

Definition with_bits (x : BufferedUnionScorer S) (bits : list Z) (bucket : Z) : BufferedUnionScorer S :=
  {| docsets := docsets x; bitsets := bits; bucket_idx := bucket; window_start_doc := window_start_doc x;
     bu_doc := bu_doc x; num_docs := num_docs x |}.

Definition bu_count_including_deleted (x : BufferedUnionScorer S) : out (BufferedUnionScorer S * Z) :=
  if bu_doc x =? TERMINATED then Ret (x, 0) else
  buckets ← slice (bitsets x) (bucket_idx x) HORIZON_NUM_TINYBITSETS;
  let count := add32 (sum_len buckets) 1 in
  let x := with_bits x (map (λ _, empty) (bitsets x)) (bucket_idx x) in
  '(x, count) ← loop (λ '(x, count),
    '(x, refilled) ← refill x;
    if negb refilled then Ret (inr (x, count)) else
    let count := add32 count (sum_len (bitsets x)) in
    Ret (inl (with_bits x (map (λ _, empty) (bitsets x)) (bucket_idx x), count))) (x, count);
  Ret (with_bits x (bitsets x) HORIZON_NUM_TINYBITSETS, count).

(** [docsets.iter_mut().any(|docset| docset.seek_into_the_danger_zone(target))]. *)
Fixpoint any_danger (ss : list S) (target : Z) : out (list S * bool) :=
  match ss with
  | [] => Ret ([], false)
  | s :: ss =>
      '(s, hit) ← seek_into_the_danger_zone s target;
      if hit : bool then Ret (s :: ss, true)
      else '(ss, r) ← any_danger ss target; Ret (s :: ss, r)
  end.

Definition bu_danger (x : BufferedUnionScorer S) (target : Z) : out (BufferedUnionScorer S * bool) :=
  if is_in_horizon x target then '(x, d) ← bu_seek x target; Ret (x, d =? target)
  else
    '(ss, is_hit) ← any_danger (docsets x) target;
    let x := {| docsets := ss; bitsets := bitsets x; bucket_idx := bucket_idx x; window_start_doc := window_start_doc x;
                bu_doc := bu_doc x; num_docs := num_docs x |} in
    if is_hit : bool then '(x, _) ← bu_seek x target; Ret (x, true) else Ret (x, false).

#[export] Instance DocSet_BufferedUnion : DocSet (BufferedUnionScorer S) := {
  doc := bu_doc;
  advance := bu_advance;
  seek := bu_seek;
  seek_into_the_danger_zone := bu_danger;
}.
End Methods.

End buffered_union.
Import tinyset buffered_union.

(** ** Words *)

Lemma singleton_bit el j : 0 ≤ el < 64 → 0 ≤ j → Z.testbit (singleton el) j = (j =? el).
Proof.
  intros Hel Hj. unfold singleton, as_u64. rewrite Z.mod_small.
  - rewrite Z.shiftl_spec by lia. destruct (Z.eqb_spec j el) as [->|Hne]; [by rewrite Z.sub_diag|].
    destruct (Z.lt_ge_cases j el); [by apply Z.testbit_neg_r; lia|]. by apply Z.bits_above_log2; simpl; lia.
  - rewrite Z.shiftl_1_l. split; [by apply Z.pow_nonneg|]. apply Z.pow_lt_mono_r; lia.
Qed.

Lemma singleton_fits el : 0 ≤ el < 64 → fits 64 (singleton el).
Proof. intros _. apply Z.mod_pos_bound. lia. Qed.

Lemma trailing_zeros_from_spec n : ∀ i w, 0 ≤ i → let k := trailing_zeros_from n i w in
  i ≤ k ≤ i + Z.of_nat n ∧ (∀ j, i ≤ j < k → Z.testbit w j = false) ∧ (k < i + Z.of_nat n → Z.testbit w k = true).
Proof.
  induction n as [|n IH]; intros i w Hi; cbn [trailing_zeros_from]; [split_and!; [lia|lia|lia|lia]|].
  destruct (Z.testbit w i) eqn:Eb.
  - split_and!; [lia|lia|lia|done].
  - destruct (IH (i + 1) w ltac:(lia)) as (Hk & Hlow & Hhit). split_and!; [lia|lia| |intros ?; apply Hhit; lia].
    intros j Hj. destruct (Z.eq_dec j i) as [->|]; [done|apply Hlow; lia].
Qed.

Lemma fits_log2 w : 0 ≤ w → fits 64 w ↔ Z.log2 w < 64.
Proof.
  intros Hw. unfold fits. destruct (Z.eq_dec w 0) as [->|]; [simpl; lia|]. rewrite <- Z.log2_lt_pow2 by lia. lia.
Qed.

Lemma pop_lowest_none w : fits 64 w → pop_lowest w = None → ∀ j, 0 ≤ j → Z.testbit w j = false.
Proof. unfold pop_lowest. destruct (Z.eqb_spec w 0) as [->|]; [|done]. intros _ _ j _. apply Z.bits_0. Qed.

Lemma pop_lowest_some w w' v : fits 64 w → pop_lowest w = Some (w', v) →
  0 ≤ v < 64 ∧ Z.testbit w v = true ∧ (∀ j, 0 ≤ j < v → Z.testbit w j = false) ∧ fits 64 w' ∧
  ∀ j, 0 ≤ j → Z.testbit w' j = Z.testbit w j && negb (j =? v).
Proof.
  unfold pop_lowest. intros Hw. destruct (Z.eqb_spec w 0) as [|Hne]; [done|]. intros [= <- <-].
  destruct (trailing_zeros_from_spec 64 0 w ltac:(lia)) as (Hk & Hlow & Hhit). fold (trailing_zeros w) in *. set (v := trailing_zeros w) in *.
  assert (v < 64) as Hv.
  { destruct (Z.lt_ge_cases v 64); [done|]. exfalso. apply Hne. apply Z.bits_inj'. intros j Hj. rewrite Z.bits_0.
    destruct (Z.lt_ge_cases j 64); [apply Hlow; lia|]. destruct (Z.eq_dec w 0) as [->|]; [apply Z.bits_0|]. apply Z.bits_above_log2; [apply Hw|].
    apply Z.log2_lt_pow2; [destruct Hw; lia|]. destruct Hw as [_ Hw]. eapply Z.lt_le_trans; [exact Hw|]. apply Z.pow_le_mono_r; lia. }
  assert (∀ j, 0 ≤ j → Z.testbit (Z.lxor w (singleton v)) j = Z.testbit w j && negb (j =? v)) as Hbits.
  { intros j Hj. rewrite Z.lxor_spec, singleton_bit by lia. destruct (Z.eqb_spec j v) as [->|]; simpl; [|by rewrite xorb_false_r, andb_true_r].
    rewrite (Hhit ltac:(lia)). done. }
  split; [lia|]. split; [apply Hhit; lia|]. split; [intros j ?; apply Hlow; lia|]. split; [|done].
  assert (0 ≤ Z.lxor w (singleton v)) as Hpos.
  { apply Z.lxor_nonneg. pose proof (singleton_fits v ltac:(lia)) as [? _]. destruct Hw. lia. }
  pose proof (Z.log2_lxor w (singleton v) ltac:(apply Hw) ltac:(apply (singleton_fits v); lia)) as Hlog.
  apply fits_log2; [done|]. pose proof (proj1 (fits_log2 w ltac:(apply Hw)) Hw).
  pose proof (proj1 (fits_log2 (singleton v) ltac:(apply singleton_fits; lia)) (singleton_fits v ltac:(lia))). lia.
Qed.

(** ** The window *)

Definition bitat (bits : list Z) (k : Z) : bool :=
  match bits !! Z.to_nat (k / 64) with Some w => Z.testbit w (k mod 64) | None => false end.

Definition bits_ok (bits : list Z) : Prop := length bits = 64%nat ∧ Forall (fits 64) bits.

Lemma bits_word bits b : bits_ok bits → 0 ≤ b < 64 → ∃ w, bits !! Z.to_nat b = Some w ∧ index bits b = Ret w ∧ fits 64 w.
Proof.
  intros [Hl Hf] Hb. destruct (lookup_lt_is_Some_2 bits (Z.to_nat b)) as [w Hw]; [lia|]. exists w. split; [done|]. split.
  - apply index_lookup; [lia|done].
  - rewrite Forall_lookup in Hf. by eapply Hf.
Qed.

Lemma bitat_insert bits b w k : bits_ok bits → 0 ≤ b < 64 → 0 ≤ k →
  bitat (set_at b w bits) k = if k / 64 =? b then Z.testbit w (k mod 64) else bitat bits k.
Proof.
  intros [Hl _] Hb Hk. unfold bitat, set_at. pose proof (Z.div_pos k 64 Hk ltac:(lia)).
  destruct (Z.eqb_spec (k / 64) b) as [->|Hne].
  - by rewrite list_lookup_insert_eq by lia.
  - by rewrite list_lookup_insert_ne by lia.
Qed.

Lemma bits_ok_insert bits b w : bits_ok bits → fits 64 w → bits_ok (set_at b w bits).
Proof. intros [Hl Hf] Hw. unfold set_at. split; [by rewrite length_insert|by apply Forall_insert]. Qed.

Lemma lor_fits w v : fits 64 w → fits 64 v → fits 64 (Z.lor w v).
Proof.
  intros Hw Hv. apply fits_log2; [by apply Z.lor_nonneg; destruct Hw, Hv|]. rewrite Z.log2_lor by (destruct Hw, Hv; done).
  apply Z.max_lub_lt; apply fits_log2; done || by destruct Hw, Hv.
Qed.

Lemma set_bit_spec bits k : bits_ok bits → 0 ≤ k < HORIZON →
  ∃ bits', set_bit bits k = Ret bits' ∧ bits_ok bits' ∧ ∀ j, 0 ≤ j → bitat bits' j = (j =? k) || bitat bits j.
Proof.
  intros Hok Hk. unfold HORIZON in Hk. assert (0 ≤ k / 64 < 64) as Hb by (split; [by apply Z.div_pos; lia|by apply Z.div_lt_upper_bound; lia]).
  pose proof (Z.mod_pos_bound k 64 ltac:(lia)) as Hm. destruct (bits_word bits (k / 64) Hok Hb) as (w & Hw & Ei & Hf).
  unfold set_bit. rewrite Ei, bind_ret. eexists. split; [done|].
  split; [apply bits_ok_insert; [done|]; apply lor_fits; [done|by apply singleton_fits]|]. intros j Hj. rewrite bitat_insert by done.
  pose proof (Z.mod_pos_bound j 64 ltac:(lia)). unfold insert_mut. rewrite Z.lor_spec, singleton_bit by lia.
  destruct (Z.eqb_spec (j / 64) (k / 64)) as [Ed|Hd].
  - unfold bitat. rewrite Ed, Hw, orb_comm. f_equal. pose proof (Z.div_mod j 64 ltac:(lia)). pose proof (Z.div_mod k 64 ltac:(lia)).
    destruct (Z.eqb_spec (j mod 64) (k mod 64)), (Z.eqb_spec j k); try done; exfalso; [lia|congruence].
  - destruct (Z.eqb_spec j k) as [->|]; done.
Qed.

Lemma bits_clear (bits : list Z) : length bits = 64%nat → bits_ok (map (λ _, empty) bits) ∧ ∀ k, bitat (map (λ _, empty) bits) k = false.
Proof.
  intros Hl. split; [split; [by rewrite length_map|]; apply Forall_map, Forall_forall; intros; unfold empty, fits; lia|].
  intros k. unfold bitat. rewrite list_lookup_fmap. destruct (bits !! _); [apply Z.bits_0|done].
Qed.

Lemma clear_range_spec a b bits : bits_ok bits → 0 ≤ a ≤ b → b ≤ 64 →
  ∃ bits', clear_range a b bits = Ret bits' ∧ bits_ok bits' ∧
    ∀ k, 0 ≤ k → bitat bits' k = if (a <=? k / 64) && (k / 64 <? b) then false else bitat bits k.
Proof.
  intros [Hl Hf] Ha Hb. unfold clear_range. assert (#bits = 64) as Hlen by (unfold len; lia).
  rewrite (proj2 (Z.leb_le 0 a)), (proj2 (Z.leb_le a b)), (proj2 (Z.leb_le b #bits)) by lia. eexists. split; [done|]. split.
  - split; [rewrite !length_app, length_take, length_replicate, length_drop; lia|].
    apply Forall_app. split; [by apply Forall_take|]. apply Forall_app. split; [apply Forall_replicate; unfold empty, fits; lia|by apply Forall_drop].
  - intros k Hk. unfold bitat. pose proof (Z.div_pos k 64 Hk ltac:(lia)) as Hd.
    destruct (Z.leb_spec a (k / 64)); simpl; [destruct (Z.ltb_spec (k / 64) b); simpl|].
    + rewrite lookup_app_r, lookup_app_l, lookup_replicate_2 by (rewrite ?length_take, ?length_replicate; lia). apply Z.bits_0.
    + rewrite !lookup_app_r by (rewrite ?length_take, ?length_replicate; lia).
      rewrite length_take, length_replicate, lookup_drop.
      replace (_ + _)%nat with (Z.to_nat (k / 64)) by lia. done.
    + by rewrite lookup_app_l, lookup_take_lt by (rewrite ?length_take; lia).
Qed.

(** ** [unordered_drain_filter] *)

Lemma swap_remove_perm {A} (done todo : list A) a : ∃ todo', swap_remove (length done) (done ++ a :: todo) = done ++ todo' ∧ todo' ≡ₚ todo.
Proof.
  unfold swap_remove. destruct todo as [|z todo _] using rev_ind.
  - rewrite last_snoc, insert_app_r_alt, Nat.sub_diag by lia. simpl. rewrite removelast_last. exists []. by rewrite app_nil_r.
  - assert (last (done ++ a :: todo ++ [z]) = Some z) as -> by (change (a :: todo ++ [z]) with ([a] ++ todo ++ [z]); by rewrite !app_assoc, last_snoc).
    rewrite insert_app_r_alt, Nat.sub_diag by lia. simpl. exists (z :: todo). split; [|by rewrite Permutation_app_comm].
    change (z :: todo ++ [z]) with ([z] ++ todo ++ [z]). rewrite !app_assoc, removelast_last. by rewrite <- app_assoc.
Qed.

(** [R st done todo] holds on the way, whatever order the removals leave. *)
Lemma unordered_drain_spec {A T} (p : T → A → out (T * A * bool)) (R : T → list A → list A → Prop) :
  (∀ st done todo todo', R st done todo → todo' ≡ₚ todo → R st done todo') →
  (∀ st done a todo, R st done (a :: todo) → ∃ st' a' r, p st a = Ret (st', a', r) ∧
    if r : bool then R st' done todo else R st' (done ++ [a']) todo) →
  ∀ fuel st done todo, R st done todo → (length todo < fuel)%nat →
    ∃ st' v, unordered_drain_filter fuel p st (done ++ todo) (length done) = Ret (st', v) ∧ R st' v [].
Proof.
  intros Hperm Hstep fuel. induction fuel as [|fuel IH]; intros st done todo HR Hf; [lia|]. cbn [unordered_drain_filter].
  destruct todo as [|a todo].
  - rewrite app_nil_r, lookup_ge_None_2 by lia. by exists st, done.
  - rewrite list_lookup_middle by done. destruct (Hstep st done a todo HR) as (st' & a' & r & -> & HR'). rewrite bind_ret. cbn [length] in Hf. destruct r.
    + destruct (swap_remove_perm done todo a) as (todo' & -> & Hp). apply IH; [by eapply Hperm|]. rewrite Hp. lia.
    + rewrite insert_app_r_alt, Nat.sub_diag by lia. cbn [list_insert]. change (<[0%nat := a']> (a :: todo)) with ([a'] ++ todo). rewrite app_assoc.
      replace (S (length done)) with (length (done ++ [a'])) by (rewrite length_app; simpl; lia). apply IH; [done|lia].
Qed.

(** ** The components *)

Lemma add32_exact a b : 0 ≤ a → 0 ≤ b → a + b < 2 ^ 32 → add32 a b = a + b.
Proof. intros. unfold add32, as_u32. apply Z.mod_small. lia. Qed.

Lemma sub32_exact a b : 0 ≤ b ≤ a → a < 2 ^ 32 → sub32 a b = a - b.
Proof. intros. unfold sub32, as_u32. apply Z.mod_small. lia. Qed.

Section BufferedUnion.
Context {S : Type} `{DocSetLaws S}.
Implicit Types x : BufferedUnionScorer S.

(** A component that has documents, from [m] on. *)
Definition live (m : Z) (s : S) (l : list Z) : Prop := stands s l ∧ l ≠ [] ∧ m ≤ first l.

(** Document [d] is buffered in the window at [ws]. *)
Definition buffered (bits : list Z) (ws d : Z) : Prop := 0 ≤ d - ws < HORIZON ∧ bitat bits (d - ws) = true.

Lemma live_weaken m m' s l : live m s l → m' ≤ m → live m' s l.
Proof. intros (? & ? & ?) ?. split_and!; [done..|lia]. Qed.

Lemma live_docs m s l : live m s l → docs_ok l.
Proof. intros [Hs _]. exact (stands_docs _ _ Hs). Qed.

Lemma lives_docs m ss ls : Forall2 (live m) ss ls → Forall docs_ok ls.
Proof using. induction 1; constructor; [by eapply live_docs|done]. Qed.

Lemma lives_after m ss ls d : Forall2 (live m) ss ls → Exists (λ l, d ∈ l) ls → m ≤ d.
Proof using.
  induction 1 as [|s l ss ls Hl _ IH]; [by intros ?%Exists_nil|]. intros [Hd|?]%Exists_cons; [|by apply IH].
  pose proof (first_min l d (live_docs _ _ _ Hl) Hd). destruct Hl as (_ & _ & ?). lia.
Qed.

(** The components [build] keeps. *)
Lemma live_filter ss ls : Forall2 stands ss ls →
  ∃ ls', Forall2 (live 0) (filter (λ s, doc s ≠ TERMINATED) ss) ls' ∧ ∀ d, Exists (λ l', d ∈ l') ls ↔ Exists (λ l', d ∈ l') ls'.
Proof using.
  induction 1 as [|s l ss ls Hs _ (ls' & Hss & He)]; [by exists []|]. rewrite filter_cons, (doc_stands _ _ Hs). pose proof (stands_docs _ _ Hs) as Hl.
  case_decide as Hne.
  - exists (l :: ls'). split; [|intros d; by rewrite !Exists_cons, He]. constructor; [|done]. pose proof (first_bound l Hl). split_and!; [done| |lia].
    by intros ->.
  - exists ls'. split; [done|]. intros d. rewrite Exists_cons, He. assert (l = []) as ->; [|rewrite elem_of_nil; tauto].
    apply first_end; [done|]. destruct (Z.eq_dec (first l) TERMINATED); [done|tauto].
Qed.

Lemma refill_scorer_spec m bits s l : 0 ≤ m < TERMINATED → bits_ok bits → live m s l →
  ∃ bits' s' r, refill_scorer m bits s = Ret (bits', s', r) ∧ bits_ok bits' ∧
    (∀ d, buffered bits' m d ↔ buffered bits m d ∨ d ∈ l ∧ d < m + HORIZON) ∧
    if r : bool then from (m + HORIZON) l = [] else live (m + HORIZON) s' (from (m + HORIZON) l).
Proof.
  intros Hm Hok Hlive. pose proof (live_docs _ _ _ Hlive) as Hl. set (h := m + HORIZON).
  assert (HORIZON = 4096) as EH by done. assert (TERMINATED = 2 ^ 31 - 1) as ET by done.
  assert (add32 m HORIZON = h) as Eh by (apply add32_exact; lia).
  set (I := λ '((b, s) : list Z * S), bits_ok b ∧ ∃ l', live m s l' ∧ from h l' = from h l ∧
    ∀ d, buffered b m d ∨ d ∈ l' ∧ d < h ↔ buffered bits m d ∨ d ∈ l ∧ d < h).
  set (Q := λ '((b, s, r) : list Z * S * bool), bits_ok b ∧ (∀ d, buffered b m d ↔ buffered bits m d ∨ d ∈ l ∧ d < h) ∧
    if r then from h l = [] else live h s (from h l)).
  destruct (loop_spec (λ '(bits, s), let d := doc s in if add32 m HORIZON <=? d then Ret (inr (bits, s, false)) else
      bits ← set_bit bits (sub32 d m); '(s, next) ← advance s; Ret (if next =? TERMINATED then inr (bits, s, true) else inl (bits, s)))
    I (λ '(_, s), TERMINATED - doc s) Q) with (s := (bits, s)) as ([[b' s'] r] & E & HQ).
  - intros [b1 s1] (Hok1 & l1 & Hl1 & El & Hd1). pose proof (live_docs _ _ _ Hl1) as Hd. destruct Hl1 as (Hs1 & Hne1 & Hm1).
    cbv zeta. rewrite (doc_stands _ _ Hs1), Eh. destruct (Z.leb_spec h (first l1)) as [Hge|Hlt].
    + eexists. split; [done|]. split; [done|]. split.
      * intros d. rewrite <- Hd1. split; [by left|]. intros [?|[Hin ?]]; [done|]. pose proof (first_min l1 d Hd Hin). lia.
      * rewrite <- El, from_id by done. split_and!; done.
    + assert (first l1 ∈ l1) as Hin by (destruct l1; [done|by left]). pose proof (docs_bound _ _ Hd Hin).
      rewrite sub32_exact by lia. destruct (set_bit_spec b1 (first l1 - m) Hok1) as (b2 & -> & Hok2 & Hb2); [lia|]. rewrite bind_ret.
      destruct (advance_stands _ _ Hs1) as (s2 & -> & Hs2). rewrite bind_ret. eexists. split; [done|].
      assert (∀ d, buffered b2 m d ∨ d ∈ tail l1 ∧ d < h ↔ buffered bits m d ∨ d ∈ l ∧ d < h) as Hd2.
      { intros d. rewrite <- Hd1, elem_tail by done. unfold buffered. pose proof (first_min l1 d Hd) as Hmin. split.
        - intros [[Hr Hb]|?]; [|tauto]. rewrite Hb2 in Hb by lia. destruct (Z.eqb_spec (d - m) (first l1 - m)) as [Ed|]; [|tauto].
          right. assert (d = first l1) as -> by lia. done.
        - intros [[Hr Hb]|[Hin' ?]]; [left; rewrite Hb2, Hb by lia; by rewrite orb_true_r|].
          specialize (Hmin Hin'). destruct (Z.eq_dec d (first l1)) as [->|]; [left; split; [lia|]; rewrite Hb2 by lia; by rewrite Z.eqb_refl|].
          right. split_and!; [done|lia|done]. }
      assert (from h (tail l1) = from h l) as El2.
      { rewrite <- El. apply docs_ext; [by apply docs_from, docs_tail|by apply docs_from|]. intros d. rewrite !elem_from, elem_tail by done. intuition lia. }
      pose proof (docs_tail _ Hd) as Hdt. pose proof (tail_after l1 Hd ltac:(lia)) as Haft. destruct (Z.eqb_spec (first (tail l1)) TERMINATED) as [Hend|Hend].
      * apply first_end in Hend; [|done]. rewrite Hend in *. split; [done|]. split; [|by rewrite <- El2].
        intros d. rewrite <- Hd2, elem_of_nil. tauto.
      * split; [|cbv beta iota; rewrite (doc_stands _ _ Hs2); lia]. split; [done|]. exists (tail l1). split; [|done].
        split_and!; [done|by intros E0; rewrite E0 in Hend|lia].
  - split; [done|]. by exists l.
  - intros [b1 s1] (_ & l1 & Hl1 & _). pose proof (first_bound _ (live_docs _ _ _ Hl1)). destruct Hl1 as [Hs1 _]. rewrite (doc_stands _ _ Hs1). lia.
  - pose proof (first_bound _ Hl). destruct Hlive as [Hs _]. rewrite (doc_stands _ _ Hs). lia.
  - exists b', s', r. split; [exact E|exact HQ].
Qed.

(** All the components: their documents, and which of them the buffer takes. *)
Definition filling (m : Z) (rest : list Z) (bits : list Z) (done todo : list S) : Prop :=
  bits_ok bits ∧ ∃ ld lt, Forall2 (live (m + HORIZON)) done ld ∧ Forall2 (live m) todo lt ∧
    ∀ d, d ∈ rest ↔ buffered bits m d ∨ Exists (λ l, d ∈ l) ld ∨ Exists (λ l, d ∈ l) lt.

Lemma Exists_perm {A} (P : A → Prop) l l' : l ≡ₚ l' → Exists P l ↔ Exists P l'.
Proof. intros Hp. rewrite !Exists_exists. by setoid_rewrite Hp. Qed.

Lemma filling_step m rest bits done s todo : 0 ≤ m < TERMINATED → filling m rest bits done (s :: todo) →
  ∃ bits' s' r, refill_scorer m bits s = Ret (bits', s', r) ∧
    if r : bool then filling m rest bits' done todo else filling m rest bits' (done ++ [s']) todo.
Proof using.
  intros Hm (Hok & ld & lt & Hd & Ht & Hin). apply Forall2_cons_inv_l in Ht as (l & lt' & Hl & Ht & ->).
  destruct (refill_scorer_spec m bits s l Hm Hok Hl) as (bits' & s' & r & E & Hok' & Hb & Hr). exists bits', s', r. split; [done|].
  assert (∀ d, d ∈ l → d < m + HORIZON ∨ d ∈ from (m + HORIZON) l) as Hcase.
  { intros d Hdl. destruct (Z.lt_ge_cases d (m + HORIZON)); [by left|right; by apply elem_from]. }
  destruct r; (split; [done|]).
  - exists ld, lt'. split_and!; [done..|]. intros d. rewrite Hin, Hb, Exists_cons. split; [|tauto].
    intros [?|[?|[Hdl|?]]]; [tauto..| |tauto]. destruct (Hcase d Hdl) as [?|Hf]; [tauto|]. rewrite Hr in Hf. by apply elem_of_nil in Hf.
  - exists (ld ++ [from (m + HORIZON) l]), lt'. split_and!; [apply Forall2_app; [done|constructor; [done|constructor]]|done|].
    intros d. rewrite Hin, Hb, Exists_cons, Exists_app, Exists_cons, Exists_nil. split.
    + intros [?|[?|[Hdl|?]]]; [tauto..| |tauto]. destruct (Hcase d Hdl); tauto.
    + intros [[?|[? ?]]|[[?|[Hf|?]]|?]]; try tauto. apply elem_from in Hf. tauto.
Qed.

Lemma filling_perm m rest bits done todo todo' : filling m rest bits done todo → todo' ≡ₚ todo → filling m rest bits done todo'.
Proof using.
  intros (Hok & ld & lt & Hd & Ht & Hin) Hp. split; [done|]. destruct (Forall2_perm (live m) todo todo' lt Ht Hp) as (lt' & Ht' & Hp').
  exists ld, lt'. split_and!; [done..|]. intros d. by rewrite Hin, (Exists_perm _ _ _ Hp').
Qed.

(** What is still to come: the buffered documents at or past the bucket, and
    those of the components, which are all beyond the window. *)
Definition pending x (rest : list Z) : Prop :=
  docs_ok rest ∧ bits_ok (bitsets x) ∧ 0 ≤ bucket_idx x ≤ 64 ∧ 0 ≤ window_start_doc x ≤ TERMINATED ∧
  (∀ k, 0 ≤ k < bucket_idx x * 64 → bitat (bitsets x) k = false) ∧
  ∃ ls, Forall2 (live (window_start_doc x + HORIZON)) (docsets x) ls ∧
    ∀ d, d ∈ rest ↔ buffered (bitsets x) (window_start_doc x) d ∨ Exists (λ l, d ∈ l) ls.

Lemma least_doc ss ls : Forall2 (live 0) ss ls → min_doc_of ss = match ls with [] => None | l :: ls => Some (least (first l) ls) end.
Proof using.
  intros Hs. destruct Hs as [|s l ss ls [Hs _] Hss]; [done|]. simpl. rewrite (doc_stands _ _ Hs). f_equal. unfold least. generalize (first l). clear Hs.
  induction Hss as [|s' l' ss ls [Hs' _] _ IH]; intros m; [done|]. simpl. rewrite (doc_stands _ _ Hs'). apply IH.
Qed.

Lemma refill_spec x ls rest : Forall2 (live 0) (docsets x) ls → joins ls rest → bits_ok (bitsets x) → (∀ k, 0 ≤ k → bitat (bitsets x) k = false) →
  if decide (rest = []) then refill x = Ret (x, false) ∧ docsets x = []
  else ∃ x', refill x = Ret (x', true) ∧ pending x' rest ∧ bitat (bitsets x') 0 = true ∧ bucket_idx x' = 0 ∧ window_start_doc x' = first rest.
Proof using.
  intros Hs Hj Hok Hbits. pose proof Hj as [Hrest Hd]. unfold refill. rewrite (least_doc _ _ Hs). pose proof (lives_docs _ _ _ Hs) as Hls.
  destruct ls as [|l ls].
  { apply Forall2_nil_inv_r in Hs. rewrite decide_True; [done|]. apply docs_ext; [done|apply docs_nil|]. intros d. by rewrite Hd, Exists_nil, elem_of_nil. }
  assert (least (first l) ls = first rest) as ->.
  { rewrite <- (joins_first _ _ Hls Hj). unfold least. simpl. f_equal. apply Forall_cons in Hls as [Hl _]. pose proof (first_bound l Hl). lia. }
  assert (first l < TERMINATED ∧ first rest ≤ first l) as [Hlt Hle].
  { inversion_clear Hs as [|? ? ? ? (_ & Hne & _)]. apply Forall_cons in Hls as [Hl _]. destruct (first_cases l Hl) as [[? _]|[Hin ?]]; [done|].
    split; [done|]. apply first_min; [done|]. apply Hd. by left. }
  assert (rest ≠ []) as Hne by (intros ->; simpl in *; lia). rewrite decide_False by done. pose proof (first_bound rest Hrest).
  assert (filling (first rest) rest (bitsets x) [] (docsets x)) as Hfill.
  { split; [done|]. exists [], (l :: ls). split_and!; [constructor| |].
    - pose proof (joins_below _ _ Hls Hj) as Hb. clear -Hs Hb. induction Hs as [|s l0 ss ls0 (? & ? & _) _ IH]; constructor;
        apply Forall_cons in Hb as [? ?]; [by split_and!|by apply IH].
    - intros d. rewrite Hd, Exists_nil. split; [tauto|]. intros [[? Hbit]|[?|?]]; [by rewrite Hbits in Hbit by lia|done..]. }
  destruct (unordered_drain_spec (refill_scorer (first rest)) (filling (first rest) rest)) with (fuel := Datatypes.S (length (docsets x)))
    (st := bitsets x) (done := @nil S) (todo := docsets x) as (bits' & ss' & E & Hfill').
  - apply filling_perm.
  - intros. apply filling_step; [lia|done].
  - done.
  - lia.
  - unfold refill_window. cbn [app length] in E. rewrite E, bind_ret. eexists. split; [done|].
    destruct Hfill' as (Hok' & ld & lt & Hd' & Ht & Hin). apply Forall2_nil_inv_l in Ht as ->. simpl. split.
    + split_and!; simpl; [done|done|lia|lia|lia|lia|lia|]. exists ld. split; [done|]. intros d. rewrite Hin, Exists_nil. tauto.
    + split; [|done]. destruct (first_cases rest Hrest) as [[? _]|[Hf _]]; [done|]. apply Hin in Hf as [[_ Hbit]|[He|?%Exists_nil]]; [|exfalso|done].
      * by rewrite Z.sub_diag in Hbit.
      * pose proof (lives_after _ _ _ _ Hd' He). unfold HORIZON in *. lia.
Qed.

(** The bit popped is the lowest of the window. *)
Lemma advance_buffered_loop_spec n : ∀ x, bits_ok (bitsets x) → 0 ≤ bucket_idx x → bucket_idx x + Z.of_nat n = 64 →
  (∀ k, 0 ≤ k < bucket_idx x * 64 → bitat (bitsets x) k = false) →
  ∃ x' r, advance_buffered_loop n x = Ret (x', r) ∧ docsets x' = docsets x ∧ window_start_doc x' = window_start_doc x ∧ bits_ok (bitsets x') ∧
    if r : bool then ∃ k, 0 ≤ k < HORIZON ∧ bu_doc x' = add32 (window_start_doc x) k ∧ bucket_idx x' = k / 64 ∧
      bitat (bitsets x) k = true ∧ (∀ j, 0 ≤ j < k → bitat (bitsets x) j = false) ∧
      ∀ j, 0 ≤ j → bitat (bitsets x') j = bitat (bitsets x) j && negb (j =? k)
    else bucket_idx x' = 64 ∧ bitsets x' = bitsets x ∧ ∀ k, 0 ≤ k < HORIZON → bitat (bitsets x) k = false.
Proof using.
  assert (HORIZON = 4096) as EH by done.
  induction n as [|n IH]; intros x Hok Hb Hn Hlow; cbn [advance_buffered_loop].
  { exists x, false. split_and!; [done..|lia|done|]. intros k Hk. apply Hlow. lia. }
  destruct (bits_word (bitsets x) (bucket_idx x) Hok ltac:(lia)) as (w & Hw & -> & Hf). rewrite bind_ret.
  destruct (pop_lowest w) as [[w' v]|] eqn:Ep.
  - destruct (pop_lowest_some w w' v Hf Ep) as (Hv & Hhit & Hless & Hf' & Hbits). set (k := v + bucket_idx x * 64).
    assert (k / 64 = bucket_idx x ∧ k mod 64 = v) as [Ed Em].
    { unfold k. rewrite Z.div_add, Z.div_small, Z.mod_add, Z.mod_small by lia. lia. }
    assert (∀ j, 0 ≤ j → j / 64 = bucket_idx x → bitat (bitsets x) j = Z.testbit w (j mod 64)) as Hat by (intros j _ Ej; unfold bitat; by rewrite Ej, Hw).
    eexists _, true. split; [done|]. simpl. split_and!; [done|done|by apply bits_ok_insert|]. exists k. split_and!; [unfold k; lia|unfold k; lia|done|by rewrite Ed| | |].
    + by rewrite Hat, Em by first [done | unfold k; lia].
    + intros j Hj. destruct (Z.lt_ge_cases j (bucket_idx x * 64)); [apply Hlow; lia|].
      assert (j / 64 = bucket_idx x) as Ej by (symmetry; apply (Z.div_unique j 64 _ (j - bucket_idx x * 64)); unfold k in *; lia).
      rewrite Hat by (done || lia). apply Hless. pose proof (Z.div_mod j 64 ltac:(lia)). pose proof (Z.mod_pos_bound j 64 ltac:(lia)). unfold k in *. lia.
    + intros j Hj. rewrite bitat_insert by (done || lia). destruct (Z.eqb_spec (j / 64) (bucket_idx x)) as [Ej|Ej].
      * rewrite Hat, Hbits by first [done | apply Z.mod_pos_bound; lia]. do 2 f_equal.
        destruct (Z.eqb_spec (j mod 64) v), (Z.eqb_spec j k); try done; exfalso; [|subst j; lia].
        pose proof (Z.div_mod j 64 ltac:(lia)). unfold k in *. lia.
      * destruct (Z.eqb_spec j k) as [->|]; [done|by rewrite andb_true_r].
  - destruct (IH {| docsets := docsets x; bitsets := bitsets x; bucket_idx := bucket_idx x + 1; window_start_doc := window_start_doc x;
                    bu_doc := bu_doc x; num_docs := num_docs x |}) as (x' & r & -> & Hx'); simpl; [done|lia|lia| |by exists x', r].
    intros k Hk. destruct (Z.lt_ge_cases k (bucket_idx x * 64)); [apply Hlow; lia|]. unfold bitat.
    assert (k / 64 = bucket_idx x) as Ek by (symmetry; apply (Z.div_unique k 64 _ (k - bucket_idx x * 64)); lia).
    rewrite Ek, Hw. apply (pop_lowest_none w Hf Ep). apply Z.mod_pos_bound. lia.
Qed.

(** The union stands on the first of [l]: within the window unless it has
    ended. *)
Definition bu_stands x (l : list Z) : Prop :=
  docs_ok l ∧ bu_doc x = first l ∧ pending x (tail l) ∧
  (l ≠ [] → window_start_doc x ≤ first l < window_start_doc x + HORIZON ∧ bucket_idx x ≤ (first l - window_start_doc x) / 64).

Lemma advance_buffered_spec x rest : pending x rest →
  ∃ x' r, advance_buffered x = Ret (x', r) ∧
    if r : bool then rest ≠ [] ∧ bu_stands x' rest
    else bitat (bitsets x) 0 = false ∧ bits_ok (bitsets x') ∧ (∀ k, 0 ≤ k → bitat (bitsets x') k = false) ∧ bucket_idx x' = 64 ∧ 0 ≤ window_start_doc x' ≤ TERMINATED ∧
      ∃ ls, Forall2 (live (window_start_doc x' + HORIZON)) (docsets x') ls ∧ joins ls rest.
Proof using.
  intros (Hrest & Hok & Hb & Hws & Hlow & ls & Hls & Hd). assert (HORIZON = 4096) as EH by done. assert (HORIZON_NUM_TINYBITSETS = 64) as EB by done.
  destruct (advance_buffered_loop_spec (Z.to_nat (HORIZON_NUM_TINYBITSETS - bucket_idx x)) x Hok) as (x' & r & E & Es & Ew & Hok' & Hr); [lia|lia|done|].
  exists x', r. split; [exact E|]. destruct r.
  - destruct Hr as (k & Hk & Edoc & Ebk & Hhit & Hless & Hbits'). set (d0 := window_start_doc x + k).
    assert (d0 ∈ rest) as Hin by (apply Hd; left; split; [unfold d0; lia|]; unfold d0; by replace (_ + _ - _) with k by lia).
    assert (∀ d, d ∈ rest → d0 ≤ d) as Hmin.
    { intros d [[Hr Hbit]|He]%Hd; unfold d0.
      - destruct (Z.lt_ge_cases (d - window_start_doc x) k); [|lia]. by rewrite Hless in Hbit by lia.
      - pose proof (lives_after _ _ _ _ Hls He). lia. }
    pose proof (first_least rest d0 Hrest Hin Hmin) as Ef. pose proof (docs_bound _ _ Hrest Hin) as Hd0. assert (TERMINATED = 2 ^ 31 - 1) as ET by done.
    split; [intros ->; by apply elem_of_nil in Hin|]. split; [done|]. rewrite Edoc, Ef, Ew, Ebk. rewrite add32_exact by (unfold d0 in *; lia). split; [done|].
    split; [|intros _; unfold d0; replace (window_start_doc x + k - window_start_doc x) with k by lia; lia].
    assert (0 ≤ k / 64 < 64) by (split; [apply Z.div_pos; lia|apply Z.div_lt_upper_bound; lia]).
    split_and!; [by apply docs_tail|done|lia|lia|lia|lia|..].
    + intros j Hj. rewrite Hbits' by lia. rewrite Hless; [done|]. pose proof (Z.mul_div_le k 64 ltac:(lia)). lia.
    + rewrite Es, Ew. exists ls. split; [done|]. intros d. rewrite elem_tail, Ef, Hd by done. unfold buffered. split.
      * intros [[[Hr Hbit]|?] Hlt]; [|by right]. left. split; [done|]. rewrite Hbits', Hbit by lia. simpl.
        by rewrite (proj2 (Z.eqb_neq _ _)) by (unfold d0 in *; lia).
      * intros [[Hr Hbit]|He].
        -- rewrite Hbits' in Hbit by lia. apply andb_true_iff in Hbit as [Hbit Hne]. split; [by left|].
           assert (d ∈ rest) as Hdr by (apply Hd; by left). specialize (Hmin d Hdr). apply negb_true_iff, Z.eqb_neq in Hne. unfold d0 in *. lia.
        -- split; [by right|]. pose proof (lives_after _ _ _ _ Hls He). unfold d0. lia.
  - destruct Hr as (Ebk & Ebits & Hz). rewrite Ew, Es, Ebits. split_and!; [apply Hz; lia|done| |done|lia|lia|].
    + intros k Hk. destruct (Z.lt_ge_cases k HORIZON); [apply Hz; lia|].
      unfold bitat. destruct Hok as [Hlen _]. rewrite lookup_ge_None_2; [done|]. rewrite Hlen. assert (64 ≤ k / 64); [apply Z.div_le_lower_bound; lia|lia].
    + exists ls. split; [done|]. split; [done|]. intros d. rewrite Hd. split; [|by right]. intros [[? Hbit]|?]; [|done]. by rewrite Hz in Hbit.
Qed.

Lemma bu_ended x : bits_ok (bitsets x) → (∀ k, 0 ≤ k → bitat (bitsets x) k = false) → docsets x = [] → 0 ≤ bucket_idx x ≤ 64 →
  0 ≤ window_start_doc x ≤ TERMINATED → bu_stands (with_doc x TERMINATED) [].
Proof using.
  intros Hok Hz Es Hb Hw. split_and!; [apply docs_nil|done| |done]. split_and!; simpl; [apply docs_nil|done|lia..| |].
  - intros k Hk. apply Hz. lia.
  - exists []. rewrite Es. split; [constructor|]. intros d. rewrite elem_of_nil, Exists_nil. split; [done|].
    intros [[? Hbit]|?]; [|done]. by rewrite Hz in Hbit by lia.
Qed.

Lemma bu_advance_spec x rest : pending x rest → ∃ x', bu_advance x = Ret (x', first rest) ∧ bu_stands x' rest.
Proof using.
  intros Hp. unfold bu_advance. destruct (advance_buffered_spec x rest Hp) as (x1 & r & -> & Hr). rewrite bind_ret. destruct r.
  { destruct Hr as [_ Hx1]. exists x1. by rewrite (proj1 (proj2 Hx1)). }
  destruct Hr as (_ & Hok & Hz & Hb & Hw & ls & Hls & Hj).
  assert (Forall2 (live 0) (docsets x1) ls) as Hls0 by (eapply Forall2_impl; [exact Hls|]; intros ? ? Hl; eapply live_weaken; [exact Hl|unfold HORIZON; lia]).
  pose proof (refill_spec x1 ls rest Hls0 Hj Hok Hz) as Href. case_decide as Hnil.
  - destruct Href as [-> Es]. rewrite bind_ret. subst rest. eexists. split; [done|]. apply bu_ended; [done..|lia|done].
  - destruct Href as (x2 & -> & Hp2 & Hbit & _). rewrite bind_ret. cbn [negb].
    destruct (advance_buffered_spec x2 rest Hp2) as (x3 & r & -> & Hr). rewrite bind_ret. destruct r; cbn [negb].
    + destruct Hr as [_ Hx3]. exists x3. by rewrite (proj1 (proj2 Hx3)).
    + destruct Hr as [Hbit' _]. congruence.
Qed.

Lemma bu_build_spec ss ls rest n : Forall2 stands ss ls → joins ls rest → ∃ x, build ss n = Ret x ∧ bu_stands x rest.
Proof using.
  intros Hs [Hrest Hd]. unfold build. set (x := {| docsets := _ |}).
  assert (∃ ls', Forall2 (live 0) (docsets x) ls' ∧ joins ls' rest) as (ls' & Hls' & Hj').
  { simpl. destruct (live_filter ss ls Hs) as (ls' & Hs' & He). exists ls'. split; [done|]. split; [done|]. intros d. by rewrite Hd, He. }
  assert (bits_ok (bitsets x) ∧ ∀ k, bitat (bitsets x) k = false) as [Hok Hz] by exact (bits_clear (replicate 64 empty) eq_refl).
  pose proof (refill_spec x ls' rest Hls' Hj' Hok (λ k _, Hz k)) as Href. case_decide as Hnil.
  - destruct Href as [-> Es]. rewrite bind_ret. subst rest. eexists. split; [done|]. apply bu_ended; [done|by intros|done|done|done].
  - destruct Href as (x2 & -> & Hp2 & _). rewrite bind_ret. destruct (bu_advance_spec x2 rest Hp2) as (x3 & -> & Hx3). rewrite bind_ret. by exists x3.
Qed.
End BufferedUnion.

(** ** Seeking *)

Section Seeking.
Context {S : Type} `{DocSetResumes S}.
Implicit Types x : BufferedUnionScorer S.

(** A component that may be asked for [t]: valid, or adrift from before it. *)
Definition resumable (t : Z) (s : S) (l : list Z) : Prop := stands s l ∨ ∃ t0, t0 ≤ t ∧ adrift s t0 l.

Lemma resumable_mono t t' s l : resumable t s l → t ≤ t' → resumable t' s l.
Proof. intros [?|(t0 & ? & ?)] ?; [by left|right; exists t0; split; [lia|done]]. Qed.

Lemma resumable_docs t s l : resumable t s l → docs_ok l.
Proof. intros [Hs|(t0 & _ & Ha)]; [exact (stands_docs _ _ Hs)|exact (proj1 (adrift_docs _ _ _ Ha))]. Qed.

Lemma seek_docset_spec t st s l : resumable t s l → t ≤ TERMINATED →
  ∃ s', seek_docset t st s = Ret (st, s', first (from t l) =? TERMINATED) ∧ stands s' (from t l).
Proof using H1.
  intros Hr Ht. unfold seek_docset. pose proof (resumable_docs _ _ _ Hr) as Hl.
  assert (∃ s', (if doc s <? t then '(s', _) ← seek s t; Ret s' else Ret s) = Ret s' ∧ stands s' (from t l)) as (s' & -> & Hs').
  { destruct (Z.ltb_spec (doc s) t) as [Hlt|Hge], Hr as [Hs|(t0 & Ht0 & Ha)].
    - rewrite (doc_stands _ _ Hs) in Hlt. destruct (seek_stands s l t Hs ltac:(lia)) as (s' & -> & Hs'). by exists s'.
    - destruct (resume_seek s t0 l t Ha ltac:(lia) Hlt) as (s' & -> & Hs'). by exists s'.
    - rewrite (doc_stands _ _ Hs) in Hge. rewrite from_id by done. by exists s.
    - exists s. split; [done|]. pose proof (resume_hit s t0 l Ha ltac:(lia)) as Hs. rewrite <- (from_from l t0 t) by done.
      rewrite from_id; [done|by apply docs_from|]. by rewrite <- (doc_stands _ _ Hs). }
  rewrite bind_ret. exists s'. split; [|done]. by rewrite (doc_stands _ _ Hs').
Qed.

(** Seeking the components one by one. *)
Definition moving (t : Z) (rest : list Z) (st : ()) (done todo : list S) : Prop :=
  ∃ ld lt, Forall2 (live 0) done ld ∧ Forall2 (resumable t) todo lt ∧
    ∀ d, d ∈ rest ↔ Exists (λ l, d ∈ l) ld ∨ t ≤ d ∧ Exists (λ l, d ∈ l) lt.

Lemma moving_perm t rest st done todo todo' : moving t rest st done todo → todo' ≡ₚ todo → moving t rest st done todo'.
Proof using.
  intros (ld & lt & Hd & Ht & Hin) Hp. destruct (Forall2_perm (resumable t) todo todo' lt Ht Hp) as (lt' & Ht' & Hp').
  exists ld, lt'. split_and!; [done..|]. intros d. by rewrite Hin, (Exists_perm _ _ _ Hp').
Qed.

Lemma moving_step t rest st done s todo : t ≤ TERMINATED → moving t rest st done (s :: todo) →
  ∃ st' s' r, seek_docset t st s = Ret (st', s', r) ∧ if r : bool then moving t rest st' done todo else moving t rest st' (done ++ [s']) todo.
Proof using H1.
  intros Hle (ld & lt & Hd & Ht & Hin). apply Forall2_cons_inv_l in Ht as (l & lt' & Hl & Ht & ->).
  destruct (seek_docset_spec t st s l Hl Hle) as (s' & E & Hs'). eexists _, _, _. split; [done|]. pose proof (stands_docs _ _ Hs') as Hf.
  assert (∀ d, t ≤ d ∧ d ∈ l ↔ d ∈ from t l) as Hfrom by (intros d; by rewrite elem_from).
  destruct (Z.eqb_spec (first (from t l)) TERMINATED) as [Hend|Hne].
  - apply first_end in Hend; [|done]. exists ld, lt'. split_and!; [done..|]. intros d. rewrite Hin, Exists_cons.
    specialize (Hfrom d). rewrite Hend, elem_of_nil in Hfrom. tauto.
  - exists (ld ++ [from t l]), lt'. split_and!; [|done|intros d; rewrite Hin, Exists_app, !Exists_cons, Exists_nil, <- Hfrom; tauto].
    apply Forall2_app; [done|]. constructor; [|constructor]. pose proof (first_bound _ Hf). split_and!; [done| |lia]. by intros E0; rewrite E0 in Hne.
Qed.

(** The target is beyond the window: the buffer no longer matters. *)
Definition beyond x (t : Z) (l : list Z) : Prop :=
  docs_ok l ∧ bits_ok (bitsets x) ∧ 0 ≤ bucket_idx x ≤ 64 ∧ 0 ≤ window_start_doc x ∧ window_start_doc x + HORIZON ≤ t ∧ bu_doc x < t ∧
  ∃ ls, Forall2 (resumable t) (docsets x) ls ∧ ∀ d, t ≤ d → d ∈ l ↔ Exists (λ l', d ∈ l') ls.

Lemma beyond_mono x t t' l : beyond x t l → t ≤ t' → beyond x t' l.
Proof using.
  intros (Hl & Hok & Hb & Hw & Hh & Hd & ls & Hls & He) Ht. split_and!; [done|done|lia|lia|done|lia|lia|]. exists ls. split.
  - eapply Forall2_impl; [exact Hls|]. intros s l' Hs. by eapply resumable_mono.
  - intros d Hd'. apply He. lia.
Qed.

Lemma beyond_docs x t l l' : beyond x t l → docs_ok l' → (∀ d, t ≤ d → d ∈ l' ↔ d ∈ l) → beyond x t l'.
Proof using.
  intros (Hl & Hok & Hb & Hw & Hh & Hd & ls & Hls & He) Hl' Hin. split_and!; [done|done|lia|lia|done|lia|lia|]. exists ls. split; [done|].
  intros d Hd'. by rewrite Hin, He.
Qed.

Lemma bu_stands_beyond x l t : bu_stands x l → first l < t → t ≤ TERMINATED → window_start_doc x + HORIZON ≤ t → beyond x t l.
Proof using.
  intros (Hl & Hd & (_ & Hok & Hb & Hw & _ & ls & Hls & He) & _) Hlt Ht Hh. split_and!; [done|done|lia|lia|lia|done|lia|].
  exists ls. split; [eapply Forall2_impl; [exact Hls|]; intros s l' [Hs _]; by left|]. intros d Hd'. specialize (He d). rewrite elem_tail in He by done.
  unfold buffered in He. split; [intros Hin|tauto]. destruct (proj1 He) as [[? _]|?]; [split; [done|lia]|lia|done].
Qed.

Lemma bu_seek_beyond x l t : beyond x t l → t ≤ TERMINATED →
  ∃ x', bu_seek x t = Ret (x', first (from t l)) ∧ bu_stands x' (from t l).
Proof using H1.
  intros (Hl & Hok & Hb & Hw & Hh & Hd & ls & Hls & He) Ht. unfold bu_seek. rewrite (proj2 (Z.leb_gt t (bu_doc x))) by done.
  assert (HORIZON = 4096) as EH by done. assert (TERMINATED = 2 ^ 31 - 1) as ET by done.
  rewrite sub32_exact by lia. rewrite (proj2 (Z.ltb_ge _ HORIZON)) by lia.
  destruct (unordered_drain_spec (seek_docset t) (moving t (from t l))) with (fuel := Datatypes.S (length (docsets x))) (st := ()) (done := @nil S)
    (todo := docsets x) as (st & ss' & E & ld & lt & Hd' & Hlt & Hin).
  - apply moving_perm.
  - intros. by apply moving_step.
  - exists [], ls. split_and!; [constructor|done|]. intros d. rewrite elem_from, Exists_nil. specialize (He d). tauto.
  - lia.
  - cbn [app length] in E. rewrite E, bind_ret. apply Forall2_nil_inv_l in Hlt as ->. set (x1 := {| docsets := ss' |}).
    assert (joins ld (from t l)) as Hj by (split; [by apply docs_from|]; intros d; rewrite Hin, Exists_nil; tauto).
    destruct (bits_clear (bitsets x) (proj1 Hok)) as [Hok1 Hz].
    pose proof (refill_spec x1 ld (from t l) Hd' Hj Hok1 (λ k _, Hz k)) as Href. case_decide as Hnil.
    + destruct Href as [-> Es]. rewrite bind_ret, Hnil. eexists. split; [done|]. apply bu_ended; [done|by intros|done|done|simpl; lia].
    + destruct Href as (x2 & -> & Hp2 & _). rewrite bind_ret. by apply bu_advance_spec.
Qed.

(** The target is in the window: earlier buckets are dropped and the rest of
    the bucket is walked. *)
Lemma bu_seek_near x l t : bu_stands x l → first l < t → t ≤ TERMINATED → t < window_start_doc x + HORIZON →
  ∃ x', bu_seek x t = Ret (x', first (from t l)) ∧ bu_stands x' (from t l).
Proof using.
  intros (Hl & Hd & Hp & Hin) Hlt Ht Hh. assert (HORIZON = 4096) as EH by done. assert (TERMINATED = 2 ^ 31 - 1) as ET by done.
  assert (l ≠ []) as Hne by (intros ->; simpl in *; lia). destruct (Hin Hne) as [Hwin Hbk]. destruct Hp as (Htl & Hok & Hb & Hw & Hlow & ls & Hls & He).
  unfold bu_seek. rewrite (proj2 (Z.leb_gt t (bu_doc x))) by lia. rewrite sub32_exact by lia. rewrite (proj2 (Z.ltb_lt _ HORIZON)) by lia.
  set (nb := (t - window_start_doc x) / 64).
  assert (bucket_idx x ≤ nb) by (etrans; [exact Hbk|]; apply Z.div_le_mono; lia).
  assert (nb < 64) by (apply Z.div_lt_upper_bound; lia). pose proof (Z.mul_div_le (t - window_start_doc x) 64 ltac:(lia)) as Hnb. fold nb in Hnb.
  destruct (clear_range_spec (bucket_idx x) nb (bitsets x) Hok) as (bits' & -> & Hok' & Hbits'); [lia|lia|]. rewrite bind_ret. set (x1 := {| docsets := docsets x |}).
  assert (∀ k, 0 ≤ k < nb * 64 → bitat bits' k = false) as Hlow'.
  { intros k Hk. rewrite Hbits' by lia. assert (k / 64 < nb) by (apply Z.div_lt_upper_bound; lia). rewrite (proj2 (Z.ltb_lt _ _)) by done.
    destruct (Z.leb_spec (bucket_idx x) (k / 64)); [done|]. simpl. apply Hlow. pose proof (Z.div_mod k 64 ltac:(lia)). pose proof (Z.mod_pos_bound k 64 ltac:(lia)). lia. }
  assert (∀ k, nb * 64 ≤ k → bitat bits' k = bitat (bitsets x) k) as Hkeep.
  { intros k Hk. assert (nb ≤ k / 64) by (apply Z.div_le_lower_bound; lia). rewrite Hbits' by lia. by rewrite (proj2 (Z.ltb_ge (k / 64) nb)), andb_false_r by done. }
  set (w := window_start_doc x + nb * 64). set (rest := from w (tail l)).
  assert (docs_ok (first l :: rest)) as Hl1.
  { apply docs_cons; [by apply docs_from|pose proof (first_bound l Hl); lia|]. apply Forall_forall. intros d [_ Hd']%elem_from.
    by apply elem_tail in Hd' as [_ ?]. }
  assert (pending x1 rest) as Hp1.
  { split_and!; simpl; [by apply docs_from|done|lia..|done|]. exists ls. split; [done|]. intros d. unfold rest. rewrite elem_from, He. unfold buffered.
    split; [intros [? [[? Hbit]|?]]; [left; split; [done|]; rewrite Hkeep by (unfold w in *; lia); done|by right]|].
    intros [[? Hbit]|Hex]; [|split; [pose proof (lives_after _ _ _ _ Hls Hex); unfold w; lia|by right]].
    destruct (Z.lt_ge_cases (d - window_start_doc x) (nb * 64)); [by rewrite Hlow' in Hbit by lia|].
    split; [unfold w; lia|]. left. split; [done|]. by rewrite <- Hkeep by done. }
  assert (from t (first l :: rest) = from t l) as <-.
  { apply docs_ext; [by apply docs_from|by apply docs_from|]. intros d. rewrite !elem_from, elem_of_cons. unfold rest. rewrite elem_from, elem_tail by done.
    unfold w. intuition lia. }
  destruct (default_seek_spec bu_doc bu_advance (λ x l, docs_ok l ∧ bu_doc x = first l ∧ pending x (tail l) ∧ (t ≤ first l → bu_stands x l)))
    with (s := x1) (l := first l :: rest) (t := t) as (x' & E & _ & _ & _ & Hx').
  - by intros ? ? (? & _).
  - by intros ? ? (_ & ? & _).
  - intros y l' (_ & _ & Hy & _). destruct (bu_advance_spec y _ Hy) as (y' & -> & Hy'). exists y'. split; [done|].
    pose proof Hy' as (? & ? & ? & _). by split_and!.
  - split_and!; [done|done|done|]. simpl. lia.
  - simpl. lia.
  - exists x'. split; [exact E|]. apply Hx'. apply first_from; done.
Qed.

Lemma bu_seek_spec x l t : bu_stands x l → first l ≤ t ≤ TERMINATED →
  ∃ x', bu_seek x t = Ret (x', first (from t l)) ∧ bu_stands x' (from t l).
Proof using H1.
  intros Hx Ht. destruct (Z.eq_dec (first l) t) as [<-|].
  - pose proof Hx as (Hl & Hd & _). rewrite from_id by done. exists x. split; [|done]. unfold bu_seek. rewrite Hd. by rewrite Z.leb_refl.
  - destruct (Z.lt_ge_cases t (window_start_doc x + HORIZON)); [by apply bu_seek_near; [|lia..|]|].
    apply bu_seek_beyond; [|lia]. apply bu_stands_beyond; [done|lia..].
Qed.

(** ** The danger zone *)

Lemma resumable_danger t s l : 0 ≤ t < TERMINATED → resumable t s l →
  ∃ s' b l', seek_into_the_danger_zone s t = Ret (s', b) ∧ resumable t s' l' ∧ from t l = from t l' ∧ (b = true ↔ first (from t l) = t).
Proof using H1.
  intros Ht Hs. pose proof (resumable_docs _ _ _ Hs) as Hl.
  assert (∀ s' b, (if b : bool then first (from t l) = t ∧ stands s' (from t l) else first (from t l) ≠ t ∧ adrift s' t l) →
    ∃ l', resumable t s' l' ∧ from t l = from t l' ∧ (b = true ↔ first (from t l) = t)) as Hout.
  { intros s' [|] [Hf Hs']; [exists (from t l)|exists l].
    - split_and!; [by left|by rewrite from_from|done].
    - split_and!; [right; by exists t|done|done]. }
  destruct Hs as [Hs|(t0 & Ht0 & Ha)]; [destruct (Z.lt_ge_cases t (first l)) as [Hlt|Hge]|].
  - destruct (danger_behind s l t Hs ltac:(lia)) as (s' & E & Hs'). exists s', false, l. split_and!; [done|by left|done|].
    rewrite from_id by (done || lia). split; [done|lia].
  - destruct (danger_stands s l t Hs ltac:(lia)) as (s' & b & E & [l' ?]%Hout). by exists s', b, l'.
  - destruct (danger_adrift s l t0 t Ha ltac:(lia)) as (s' & b & E & [l' ?]%Hout). by exists s', b, l'.
Qed.

Lemma any_danger_spec t ss ls : 0 ≤ t < TERMINATED → Forall2 (resumable t) ss ls →
  ∃ ss' r ls', any_danger ss t = Ret (ss', r) ∧ Forall2 (resumable t) ss' ls' ∧ Forall2 (λ l l', from t l = from t l') ls ls' ∧
    (r = true ↔ Exists (λ l, t ∈ l) ls).
Proof using H1.
  intros Ht. induction 1 as [|s l ss ls Hs Hss IH]; cbn [any_danger].
  { exists [], false, []. split_and!; [done|constructor..|]. by rewrite Exists_nil. }
  pose proof (resumable_docs _ _ _ Hs) as Hl. destruct (resumable_danger t s l Ht Hs) as (s' & b & l' & -> & Hs' & El & Hb).
  rewrite bind_ret. rewrite first_from_hit in Hb by (done || lia). destruct b.
  - exists (s' :: ss), true, (l' :: ls). split_and!; [done|by constructor|constructor; [done|apply Forall_Forall2_diag, Forall_forall; done]|].
    rewrite Exists_cons. tauto.
  - destruct IH as (ss' & r & ls' & -> & Hss' & El' & Hr). rewrite bind_ret. exists (s' :: ss'), r, (l' :: ls').
    split_and!; [done|by constructor|by constructor|]. rewrite Exists_cons, Hr. split; [by right|]. intros [Hin|?]; [by apply Hb in Hin|done].
Qed.

Definition with_components x (ss : list S) : BufferedUnionScorer S :=
  {| docsets := ss; bitsets := bitsets x; bucket_idx := bucket_idx x; window_start_doc := window_start_doc x; bu_doc := bu_doc x; num_docs := num_docs x |}.

Lemma bu_danger_beyond x t l : beyond x t l → t < TERMINATED →
  ∃ x' b, bu_danger x t = Ret (x', b) ∧
    if b : bool then first (from t l) = t ∧ bu_stands x' (from t l) else first (from t l) ≠ t ∧ beyond x' t l.
Proof using H1.
  intros Hx Ht. pose proof Hx as (Hl & Hok & Hb & Hw & Hh & Hd & ls & Hls & He). assert (HORIZON = 4096) as EH by done. assert (TERMINATED = 2 ^ 31 - 1) as ET by done.
  unfold bu_danger, is_in_horizon. rewrite sub32_exact by lia. rewrite (proj2 (Z.ltb_ge _ _)) by lia.
  destruct (any_danger_spec t (docsets x) ls ltac:(lia) Hls) as (ss' & r & ls' & -> & Hls' & El & Hr). rewrite bind_ret. fold (with_components x ss').
  assert (∀ d, t ≤ d → Exists (λ l', d ∈ l') ls ↔ Exists (λ l', d ∈ l') ls') as Hsame.
  { intros d Hd'. clear -El Hd'. induction El as [|l1 l2 ? ? E _ IH]; [done|]. rewrite !Exists_cons, IH. apply (f_equal (λ l, d ∈ l)) in E.
    assert (d ∈ from t l1 ↔ d ∈ from t l2) as Hi by by rewrite E. rewrite !elem_from in Hi. tauto. }
  assert (beyond (with_components x ss') t l) as Hx'.
  { split_and!; simpl; [done|done|lia..|done|]. exists ls'. split; [done|]. intros d Hd'. by rewrite (He d Hd'), Hsame. }
  rewrite <- (He t ltac:(lia)), <- first_from_hit in Hr by (done || lia). destruct r.
  - destruct (bu_seek_beyond _ l t Hx' ltac:(lia)) as (x' & -> & Hs). rewrite bind_ret. exists x', true. split; [done|]. split; [by apply Hr|done].
  - exists (with_components x ss'), false. split; [done|]. split; [|done]. intros Hf. by apply Hr in Hf.
Qed.

Lemma any_danger_behind m t ss ls : 0 ≤ t < m → Forall2 (live m) ss ls → ∃ ss', any_danger ss t = Ret (ss', false) ∧ Forall2 (live m) ss' ls.
Proof using H1.
  intros Ht. induction 1 as [|s l ss ls (Hs & Hne & Hm) Hss (ss' & E & Hss')]; cbn [any_danger]; [exists []; by split|].
  destruct (danger_behind s l t Hs ltac:(lia)) as (s' & -> & Hs'). rewrite bind_ret, E. exists (s' :: ss'). split; [done|]. constructor; [by split_and!|done].
Qed.

(** A target that is behind leaves the union where it is. *)
Lemma bu_danger_behind x l t : bu_stands x l → 0 ≤ t < first l → ∃ x', bu_danger x t = Ret (x', false) ∧ bu_stands x' l.
Proof using H1.
  intros Hx Ht. pose proof Hx as (Hl & Hd & Hp & Hin). unfold bu_danger. destruct (is_in_horizon x t).
  - unfold bu_seek. rewrite Hd, (proj2 (Z.leb_le _ _)) by lia. rewrite bind_ret. exists x. by rewrite (proj2 (Z.eqb_neq _ _)) by lia.
  - destruct Hp as (Htl & Hok & Hb & Hw & Hlow & ls & Hls & He).
    assert (∃ ss', any_danger (docsets x) t = Ret (ss', false) ∧ Forall2 (live (window_start_doc x + HORIZON)) ss' ls) as (ss' & -> & Hls').
    { destruct l as [|d l]; [|apply any_danger_behind; [|done]; destruct (Hin ltac:(done)); lia]. destruct Hls as [|s l' ss ls (_ & Hne & _)]; [by exists []|].
      exfalso. destruct l' as [|d l']; [done|]. apply (elem_of_nil d), He. right. left. by left. }
    rewrite bind_ret. fold (with_components x ss'). exists (with_components x ss'). split; [done|]. split_and!; [done|done| |done].
    split_and!; simpl; [done|done|lia..|done|]. by exists ls.
Qed.

Definition bu_adrift x (t : Z) (l : list Z) : Prop := docs_ok l ∧ 0 ≤ t ≤ TERMINATED ∧ (bu_stands x (from t l) ∨ beyond x t l).

Lemma bu_danger_spec x l t : bu_stands x l → 0 ≤ t < TERMINATED →
  ∃ x' b, bu_danger x t = Ret (x', b) ∧
    if b : bool then first (from t l) = t ∧ bu_stands x' (from t l) else first (from t l) ≠ t ∧ bu_adrift x' t l.
Proof using H1.
  intros Hx Ht. pose proof Hx as (Hl & Hd & Hp & Hin). destruct (Z.lt_ge_cases t (first l)) as [Hlt|Hge].
  { destruct (bu_danger_behind x l t Hx ltac:(lia)) as (x' & E & Hx'). exists x', false. split; [done|]. unfold bu_adrift.
    rewrite from_id by (done || lia). split; [lia|]. split_and!; [done|lia|lia|by left]. }
  assert (l ≠ []) as Hne by (intros ->; simpl in *; lia). destruct (Hin Hne) as [Hwin _]. destruct Hp as (_ & _ & _ & Hw & _).
  assert (HORIZON = 4096) as EH by done. assert (TERMINATED = 2 ^ 31 - 1) as ET by done.
  destruct (Z.lt_ge_cases t (window_start_doc x + HORIZON)) as [Hnear|Hfar].
  - unfold bu_danger, is_in_horizon. rewrite sub32_exact by lia. rewrite (proj2 (Z.ltb_lt _ _)) by lia.
    destruct (bu_seek_spec x l t Hx ltac:(lia)) as (x' & -> & Hx'). rewrite bind_ret. exists x', (first (from t l) =? t). split; [done|].
    destruct (Z.eqb_spec (first (from t l)) t); [done|]. split; [done|]. split_and!; [done|lia|lia|by left].
  - destruct (bu_danger_beyond x t l) as (x' & b & E & Hb); [apply bu_stands_beyond; [done|lia..]|lia|]. exists x', b. split; [done|].
    destruct b, Hb as [Hf Hx']; (split; [done|]); [done|]. split_and!; [done|lia|lia|by right].
Qed.

#[export] Instance Laws_BufferedUnion : DocSetLaws (BufferedUnionScorer S).
Proof using H1.
  refine {| stands := bu_stands; adrift := bu_adrift |}.
  - by intros x l (? & _).
  - by intros x t l (? & [_ ?] & _).
  - by intros x l (_ & ? & _).
  - intros x t l (Hl & Ht & [(_ & Hd & _)|(_ & _ & _ & _ & _ & Hd & _)]); simpl; [by rewrite Hd|].
    pose proof (first_from l t Hl ltac:(lia)). lia.
  - intros x l (_ & _ & Hp & _). by apply bu_advance_spec.
  - apply bu_seek_spec.
  - intros x l t Hx Ht. pose proof (first_bound l (proj1 Hx)). apply bu_danger_spec; [done|lia].
  - intros x l t0 t (Hl & Ht0 & [Hx|Hx]) Ht.
    + destruct (bu_danger_spec x _ t Hx ltac:(lia)) as (x' & b & E & Hb). rewrite from_from in Hb by lia. exists x', b. split; [exact E|].
      destruct b, Hb as [Hf Hx']; (split; [done|]); [done|]. destruct Hx' as (_ & Hlt & Hor). rewrite from_from in Hor by lia.
      split_and!; [done|lia|lia|]. destruct Hor as [?|Hbey]; [by left|right]. eapply beyond_docs; [exact Hbey|done|]. intros d. rewrite elem_from. intuition lia.
    + destruct (bu_danger_beyond x t l (beyond_mono x t0 t l Hx ltac:(lia)) ltac:(lia)) as (x' & b & E & Hb). exists x', b. split; [exact E|].
      destruct b, Hb as [Hf Hx']; (split; [done|]); [done|]. split_and!; [done|lia|lia|by right].
  - intros x t l (Hl & Ht & [Hx|Hx]).
    + destruct (bu_seek_spec x _ TERMINATED Hx) as (x' & E & Hx'); [split; [by apply first_bound, docs_from|done]|].
      rewrite from_from, from_end in E, Hx' by (done || lia). by exists x'.
    + destruct (bu_seek_beyond x l TERMINATED (beyond_mono x t TERMINATED l Hx ltac:(lia)) (Z.le_refl _)) as (x' & E & Hx').
      rewrite from_end in E, Hx' by done. by exists x'.
Defined.

#[export] Instance Resumes_BufferedUnion : DocSetResumes (BufferedUnionScorer S).
Proof using H1.
  split.
  - intros x t0 l t (Hl & Ht0 & [Hx|Hx]) Ht Hd.
    + rewrite <- (from_from l t0 t) by lia. apply bu_seek_spec; [done|]. destruct Hx as (_ & Ed & _). simpl in Hd. lia.
    + apply bu_seek_beyond; [|lia]. apply (beyond_mono x t0); [done|lia].
  - intros x t l (Hl & Ht & [Hx|(_ & _ & _ & _ & _ & Hd & _)]) Hge; [done|]. simpl in Hge. lia.
  - apply bu_danger_behind.
Qed.
End Seeking.

(** ** Counting *)

Lemma filter_map_len {A B} (g : A → B) (p : B → bool) (q : A → bool) l : (∀ a, a ∈ l → q a = p (g a)) →
  #(filter (λ a, q a = true) l) = #(filter (λ b, p b = true) (map g l)).
Proof.
  induction l as [|a l IH]; [done|]. intros Hq. cbn [map]. rewrite !filter_cons, (Hq a) by by left.
  destruct (decide (p (g a) = true)); rewrite ?len_cons, IH by (intros a' ?; apply Hq; by right); done.
Qed.

Lemma sum_len_spec ws : ∀ b acc f, (∀ i w, ws !! i = Some w → ∀ j, 0 ≤ j < 64 → Z.testbit w j = f ((b + Z.of_nat i) * 64 + j)) →
  0 ≤ acc → acc + 64 * #ws < 2 ^ 32 →
  foldl (λ n w, add32 n (count_ones w)) acc ws = acc + #(filter (λ k, f k = true) (range (b * 64) ((b + #ws) * 64))).
Proof.
  induction ws as [|w ws IH]; intros b acc f Hf Ha Hlt; cbn [foldl]; [rewrite range_nil by (rewrite len_nil; lia); change (filter _ []) with (@nil Z); rewrite len_nil; lia|].
  rewrite len_cons in *. pose proof (len_nonneg ws).
  assert (count_ones w = #(filter (λ k, f k = true) (range (b * 64) ((b + 1) * 64)))) as Ec.
  { unfold count_ones. rewrite (filter_map_len (Z.add (b * 64)) f).
    - unfold range. change (map (Z.add (b * 64)) (seqZ 0 (64 - 0))) with (Z.add (b * 64) <$> seqZ 0 (64 - 0)). rewrite fmap_add_seqZ.
      rewrite Z.add_0_r. by replace ((b + 1) * 64 - b * 64) with (64 - 0) by lia.
    - intros j Hj%elem_of_range. rewrite (Hf 0%nat w eq_refl j Hj). f_equal. lia. }
  assert (0 ≤ count_ones w ≤ 64) as Hc.
  { unfold count_ones, len. pose proof (length_filter (λ i, Z.testbit w i = true) (range 0 64)) as Hl. rewrite length_range in Hl. lia. }
  rewrite (IH (b + 1) _ f); rewrite ?add32_exact by lia; [|by intros i w' Hi j Hj; rewrite (Hf (S i) w' Hi j Hj); f_equal; lia|lia|lia].
  rewrite (range_app (b * 64) ((b + 1) * 64)) by lia. rewrite filter_app, len_app, <- Ec. replace (b + 1 + #ws) with (b + (1 + #ws)) by lia. lia.
Qed.

Lemma docs_nodup l : docs_ok l → NoDup l.
Proof.
  intros [Hs _]. induction Hs as [|d l Hs IH Hd]; constructor; [|done]. intros Hin. rewrite Forall_forall in Hd. specialize (Hd d Hin). lia.
Qed.

Section Counting.
Context {S : Type} `{DocSetLaws S}.
Implicit Types x : BufferedUnionScorer S.

(** The bits from the bucket on count the buffered documents. *)
Lemma window_count x rest : pending x rest → ∃ buckets, slice (bitsets x) (bucket_idx x) HORIZON_NUM_TINYBITSETS = Ret buckets ∧
  sum_len buckets = #(filter (λ d, d < window_start_doc x + HORIZON) rest).
Proof using.
  intros (Hrest & [Hlen Hf] & Hb & Hw & Hlow & ls & Hls & Hd). assert (HORIZON_NUM_TINYBITSETS = 64) as -> by done. assert (HORIZON = 4096) as EH by done.
  exists (drop (Z.to_nat (bucket_idx x)) (bitsets x)). split.
  { rewrite slice_ret by (unfold len; lia). f_equal. rewrite take_ge by (rewrite length_drop; lia). done. }
  unfold sum_len. rewrite (sum_len_spec _ (bucket_idx x) 0 (bitat (bitsets x))); cycle 1.
  - intros i w Hi j Hj. rewrite lookup_drop in Hi. unfold bitat.
    rewrite Z.div_add_l, Z.div_small, Z.add_0_r by lia. rewrite (Z.add_comm _ j), Z.mod_add, Z.mod_small by lia.
    by replace (Z.to_nat (bucket_idx x + Z.of_nat i)) with (Z.to_nat (bucket_idx x) + i)%nat by lia; rewrite Hi.
  - lia.
  - unfold len. rewrite length_drop. lia.
  - assert (#(drop (Z.to_nat (bucket_idx x)) (bitsets x)) = 64 - bucket_idx x) as -> by (unfold len; rewrite length_drop; lia).
    rewrite Z.add_0_l. replace ((bucket_idx x + (64 - bucket_idx x)) * 64) with 4096 by lia.
    rewrite <- (len_map (Z.add (window_start_doc x))). unfold len. f_equal. apply Permutation_length, NoDup_Permutation.
    + apply NoDup_fmap_2; [intros ? ?; lia|]. apply NoDup_filter, NoDup_seqZ.
    + by apply NoDup_filter, docs_nodup.
    + intros d. rewrite list_elem_of_fmap, list_elem_of_filter, Hd. split.
      * intros (k & -> & [Hk Hr%elem_of_range]%list_elem_of_filter). split; [lia|]. left. split; [lia|]. by replace (_ + k - _) with k by lia.
      * intros [Hlt [[Hr Hbit]|He]]; [|pose proof (lives_after _ _ _ _ Hls He); lia]. exists (d - window_start_doc x). split; [lia|].
        apply list_elem_of_filter. split; [done|]. apply elem_of_range. split; [|lia].
        destruct (Z.lt_ge_cases (d - window_start_doc x) (bucket_idx x * 64)); [by rewrite Hlow in Hbit by lia|lia].
Qed.

Lemma below_from h l : #l = #(filter (λ d, d < h) l) + #(from h l).
Proof.
  unfold from. induction l as [|d l IH]; [done|]. rewrite !filter_cons, len_cons, IH.
  destruct (decide (d < h)), (decide (h ≤ d)); rewrite ?len_cons; lia.
Qed.

(** Emptying the window leaves what is beyond it. *)
Lemma window_dropped x rest : pending x rest →
  let x' := with_bits x (map (λ _, empty) (bitsets x)) (bucket_idx x) in
  bits_ok (bitsets x') ∧ (∀ k, 0 ≤ k → bitat (bitsets x') k = false) ∧
  ∃ ls, Forall2 (live 0) (docsets x') ls ∧ joins ls (from (window_start_doc x + HORIZON) rest).
Proof using.
  intros (Hrest & [Hlen Hf] & Hb & Hw & Hlow & ls & Hls & Hd). destruct (bits_clear (bitsets x) Hlen) as [Hok Hz]. split; [done|]. split; [by intros|].
  exists ls. split.
  - eapply Forall2_impl; [exact Hls|]. intros s l Hl. eapply live_weaken; [exact Hl|]. unfold HORIZON. lia.
  - split; [by apply docs_from|]. intros d. rewrite elem_from, Hd. unfold buffered. split; [intros [? [[? _]|?]]; [lia|done]|].
    intros He. split; [by eapply lives_after|by right].
Qed.

Lemma bu_count_spec x l : bu_stands x l → ∃ x', bu_count_including_deleted x = Ret (x', #l).
Proof using.
  intros (Hl & Hdoc & Hp & Hin). unfold bu_count_including_deleted. rewrite Hdoc. destruct (Z.eqb_spec (first l) TERMINATED) as [Hend|Hne].
  { apply first_end in Hend as ->; [|done]. by exists x. }
  pose proof (len_docs_bound l Hl) as Hbound. destruct (tail_shorter l Hl Hne) as [Etl _].
  destruct (window_count x _ Hp) as (buckets & -> & Esum). rewrite bind_ret. cbv zeta. destruct (window_dropped x _ Hp) as (Hok & Hz & ls & Hls & Hj).
  set (x1 := with_bits x _ _) in *. pose proof (below_from (window_start_doc x + HORIZON) (tail l)) as Ecount. rewrite <- Esum in Ecount.
  set (rest1 := from (window_start_doc x + HORIZON) (tail l)) in *. pose proof (len_nonneg rest1).
  assert (0 ≤ sum_len buckets) by (rewrite Esum; apply len_nonneg). rewrite add32_exact by lia.
  destruct (loop_spec (λ '(x, count), '(x, refilled) ← refill x; if negb refilled then Ret (inr (x, count)) else
      Ret (inl (with_bits x (map (λ _, empty) (bitsets x)) (bucket_idx x), add32 count (sum_len (bitsets x)))))
    (λ '(x, count), ∃ ls rest, bits_ok (bitsets x) ∧ (∀ k, 0 ≤ k → bitat (bitsets x) k = false) ∧ Forall2 (live 0) (docsets x) ls ∧ joins ls rest ∧
      0 ≤ count ∧ count + #rest = #l)
    (λ '(_, count), #l - count) (λ '(_, count), count = #l)) with (s := (x1, sum_len buckets + 1)) as ([x' count] & E & ->).
  - intros [y c] (ls' & rest & Hok' & Hz' & Hls' & Hj' & Hc & Ec). pose proof (refill_spec y ls' rest Hls' Hj' Hok' Hz') as Href. case_decide as Hnil.
    + destruct Href as [-> _]. rewrite bind_ret. eexists. split; [done|]. subst rest. rewrite len_nil in Ec. lia.
    + destruct Href as (y' & -> & Hp' & _ & Ebk & Ews). rewrite bind_ret. eexists. split; [done|]. destruct (window_count y' rest Hp') as (bs & Es & En).
      assert (bs = bitsets y') as ->.
      { rewrite Ebk in Es. rewrite slice_all in Es; [by injection Es|]. destruct Hp' as (_ & [Hlen _] & _). unfold len. by rewrite Hlen. }
      destruct (window_dropped y' rest Hp') as (Hok2 & Hz2 & ls2 & Hls2 & Hj2).
      pose proof (below_from (window_start_doc y' + HORIZON) rest) as Ec2. rewrite <- En in Ec2. set (rest2 := from (window_start_doc y' + HORIZON) rest) in *.
      pose proof (len_nonneg rest2). assert (0 < sum_len (bitsets y')) as Hpos.
      { rewrite En, Ews. destruct rest as [|d rest]; [done|]. rewrite filter_cons, decide_True by (simpl; unfold HORIZON; lia).
        rewrite len_cons. pose proof (len_nonneg (filter (λ d', d' < first (d :: rest) + HORIZON) rest)). lia. }
      rewrite add32_exact by lia. split; [|lia]. exists ls2, rest2. split_and!; [done|done|done|done|lia|lia].
  - exists ls, rest1. split_and!; [done|done|done|done|lia|lia].
  - intros [y c] (ls' & rest & _ & _ & _ & _ & Hc & Ec). pose proof (len_nonneg rest). lia.
  - lia.
  - eexists. rewrite E. done.
Qed.
End Counting.

(** ** Property *)

(** C22. A buffered union is the documents of any of its components.  For any
    docsets that honour the trait's contract and, in the danger zone, the
    part of it the union relies on, and whatever the gaps between their
    documents, [BufferedUnionScorer::build] returns a docset that answers
    every allowed sequence of [doc], [advance], [seek] and
    [seek_into_the_danger_zone], within the window of 4096 documents and
    beyond it, as the increasing list of the documents of any of them would;
    and [count_including_deleted] is the length of that list. *)
Theorem buffered_union_refines {S} `{DocSetResumes S} (ss : list S) (ls : list (list Z)) (n : Z) :
  Forall2 stands ss ls →
  ∃ x, build ss n = Ret x ∧ (∀ d, d ∈ union_of ls ↔ Exists (λ l', d ∈ l') ls) ∧ (∀ calls ans, expected calls (union_of ls) None = Some ans → run calls x = Ret ans) ∧
    ∃ x', bu_count_including_deleted x = Ret (x', #(union_of ls)).
Proof.
  intros Hs. pose proof (union_of_joins ls (docsets_docs _ _ Hs)) as Hj. destruct (bu_build_spec ss ls _ n Hs Hj) as (x & E & Hx). exists x. split; [done|].
  split; [apply Hj|]. split; [intros calls ans; by apply (run_expected calls x _ None ans)|]. by apply bu_count_spec.
Qed.

Lemma buffered_union_refines_witness :
  ∃ x, build (map from_vec [[1; 5000; 5001; 90000]; []; [1; 3; 9000]]) 100000 = Ret x ∧
    run [Doc; Advance; Danger 4500; Danger 5000; Seek 5001; Advance; Danger 20000; Danger 90000; Advance] x =
      Ret [1; 3; 0; 1; 5001; 9000; 0; 1; TERMINATED].
Proof.
  destruct (buffered_union_refines (map from_vec [[1; 5000; 5001; 90000]; []; [1; 3; 9000]]) [[1; 5000; 5001; 90000]; []; [1; 3; 9000]] 100000)
    as (x & E & _ & Hrun & _); [by apply vecs_stand|]. exists x. split; [exact E|]. apply Hrun. by vm_compute.
Defined.
