(* ===== verification/QueryTrees.v ===== *)
(** * Unions inside intersections

    What happens when the buffered union and the intersection, each correct
    over docsets that honour the contract it relies on, are put inside each
    other: the union does not promise what the intersection relies on at
    [TERMINATED] ([DocSetEnds]), nor the intersection what the union relies on
    in the danger zone ([DocSetResumes]). *)
From S2P Require Import Prelude DocSet Intersection Exclude BufferedUnion.
Import docset buffered_union intersection.

(** A term's docset, or an operator's. *)
Abbreviation union_tree := (VecDocSet + buffered_union.BufferedUnionScorer VecDocSet)%type.

Definition hit_docs : list Z := [1; 5000; 6000].

(** [t AND t AND (u OR v)], cheapest first. *)
Definition conjunction : out (Intersection union_tree union_tree) :=
  u ← buffered_union.build (map from_vec [[1; 5000]; [1; 2; 3; 5000]]) 10000;
  new (λ s : union_tree, match s with inl _ => 3 | inr _ => 6 end) [inl (from_vec hit_docs); inl (from_vec hit_docs); inr u] 10000.

Lemma advance_out_of_fuel {A B} `{DocSet A} `{DocSet B} (x : Intersection A B) l c : c ≠ TERMINATED → advance (left x) = Ret (l, c) →
  (∀ n, ∃ y, turns n advance_step (with_docsets x l (right x) (others x), c) = Ret (inl y)) →
  advance (left x) = Ret (l, c) ∧ (∀ n, ∃ y, turns n advance_step (with_docsets x l (right x) (others x), c) = Ret (inl y)) ∧ advance x = OutOfFuel.
Proof.
  intros Hc El Hn. split; [done|]. split; [done|]. change (advance x) with (inter_advance x). unfold inter_advance. rewrite El, bind_ret.
  rewrite (proj2 (Z.eqb_neq _ _)) by done. cbv iota zeta. exact (loop_out_of_fuel _ _ Hn).
Qed.

(** The intersection after its last hit: [left] and [right] have ended, the
    union has not told so.  [right] and the union are where the first turn
    leaves them, and then stay. *)
Definition drained (c bucket last : Z) : Intersection union_tree union_tree :=
  {| left := inl {| doc_ids := hit_docs; cursor := 3 |}; right := inl {| doc_ids := hit_docs; cursor := c |};
     others := [inr {| docsets := []; bitsets := replicate 64 0; bucket_idx := bucket; window_start_doc := 5000; bu_doc := last;
                       buffered_union.num_docs := 10000 |}];
     num_docs := 10000 |}.

(** ** Properties *)

(** C29. [Intersection::advance] can loop for ever.  For [t AND t AND (u OR v)]
    with the union built by [BufferedUnionScorer::build], the second [advance]
    never leaves its loop, whatever the number of turns: the candidate
    becomes [TERMINATED], which the loop does not test after a miss of the
    others, and a union that has drained answers false to a look-up of it. *)
Theorem intersection_advance_hangs :
  ∃ x x' l, conjunction = Ret x ∧ advance x = Ret (x', 5000) ∧ advance (left x') = Ret (l, 6000) ∧
    (∀ n, ∃ y, turns n advance_step (with_docsets x' l (right x') (others x'), 6000) = Ret (inl y)) ∧ advance x' = OutOfFuel.
Proof.
  eexists _, _, _. split; [vm_compute; reflexivity|]. split; [vm_compute; reflexivity|]. 
  apply advance_out_of_fuel; [done|vm_compute; reflexivity|]. intros n.
  match goal with |- ∃ y, turns n _ ?s = _ => set (s0 := s) end.
  destruct (turns_forever advance_step (λ s, s = s0 ∨ s = (drained 2 64 TERMINATED, TERMINATED) ∨ s = (drained 3 64 TERMINATED, TERMINATED)) n)
    with (s := s0) as (s' & E & _); [|by left|by exists s'].
  intros s [->|[->| ->]]; eexists; (split; [by vm_compute|]); [right; left|right; right|right; right]; by vm_compute.
Qed.

(** [b AND c], a component of a union. *)
Abbreviation and_tree := (Intersection VecDocSet VecDocSet + VecDocSet)%type.

Definition b_docs : list Z := [5000; 10005; 20000].
Definition c_docs : list Z := [5000; 10010; 20000].
Definition d_docs : list Z := [0; 10000].

(** [(b AND c) OR d]. *)
Definition disjunction : out (BufferedUnionScorer and_tree) :=
  bc ← new (λ s, #(doc_ids s)) [from_vec b_docs; from_vec c_docs] 30000;
  build [inl bc; inr (from_vec d_docs)] 30000.

(** [a AND ((b AND c) OR d)]. *)
Definition nested (a_docs : list Z) : out (Intersection (VecDocSet + BufferedUnionScorer and_tree) (VecDocSet + BufferedUnionScorer and_tree)) :=
  u ← disjunction;
  new (λ s : VecDocSet + BufferedUnionScorer and_tree, match s with inl _ => 3 | inr _ => 8 end) [inl (from_vec a_docs); inr u] 30000.

(** A document that does not match can be returned.  Document 10005 is in
    [b] only, so [a AND ((b AND c) OR d)] does not match it, but the query
    returns it after 10000: a look-up of 10000 leaves [b AND c] in the danger
    zone with [doc()] at 10005, not a hit of it, and the [seek] of
    [BufferedUnionScorer] that follows the hit in [d] takes that for one. *)
Example union_returns_a_non_match :
  (x ← nested [0; 10000; 10005]; run [Doc; Advance; Advance; Advance] x) = Ret [0; 10000; 10005; TERMINATED] ∧
  (x ← disjunction; run [Doc; Danger 10000; Advance; Advance] x) = Ret [0; 1; 10005; 20000] ∧
  expected [Doc; Danger 10000; Advance; Advance] [0; 5000; 10000; 20000] None = Some [0; 1; 20000; TERMINATED] ∧
  ∀ d, d ∈ [0; 5000; 10000; 20000] ↔ d ∈ b_docs ∧ d ∈ c_docs ∨ d ∈ d_docs.
Proof.
  split; [by vm_compute|]. split; [by vm_compute|]. split; [by vm_compute|].
  intros d. unfold b_docs, c_docs, d_docs. rewrite !elem_of_cons, !elem_of_nil. lia.
Qed.
