(* ===== verification/Dag.v ===== *)
(** * The graph of a DAG run ([luciole/src/dag.rs])

    luciole runs a query or a commit as a graph of nodes whose typed ports are
    connected by edges.  This file models the graph: adding nodes, connecting
    ports, the topological levels (Kahn's algorithm) and the validation. *)
From stdpp Require Export gmap strings.
From S2P Require Import Prelude.
Open Scope Z_scope.

(** [TypeId] is an opaque identity. *)
Module port.
Inductive PortType := Typed (id : Z) | Trigger | Any.
#[export] Instance PortType_eq_dec : EqDecision PortType.
Proof. solve_decision. Defined.

Definition compatible_with (self other : PortType) : bool :=
  match self, other with
  | Any, _ | _, Any => true
  | Trigger, Trigger => true
  | Typed a, Typed b => a =? b
  | _, _ => false
  end.

Record PortDef := { pname : string; port_type : PortType; required : bool }.
End port.
Import port.

Module dag.

Record DagEdge := { from_node : string; from_port : string; to_node : string; to_port : string }.

(** The messages the code formats, as constructors. *)
Inductive DagError :=
  | NodeNotFound (name : string)
  | NoOutputPort (name port : string)
  | NoInputPort (name port : string)
  | PortTypeMismatch (from_node from_port to_node to_port : string)
  | UnknownNode (name : string)
  | CycleDetected
  | NotConnected (name port : string)
  | NodeFailed (name error : string).

Definition result (A : Type) : Type := A + DagError.

#[export] Instance result_ret : MRet result := λ A a, inl a.
#[export] Instance result_bind : MBind result := λ A B f r, match r with inl a => f a | inr e => inr e end.

Definition ok_or {A} (o : option A) (e : DagError) : result A := match o with Some a => inl a | None => inr e end.

(** What a graph asks of a node: its ports.  [taken] is [TakenNode], which has
    none. *)
Class Ports (N : Type) := {
  inputs : N → list PortDef;
  outputs : N → list PortDef;
  taken : N;
}.

Section Dag.
Context {N : Type} `{Ports N}.

Record DagNodeEntry := { name : string; node : N }.

Record Dag := { nodes : list DagNodeEntry; edges : list DagEdge }.

Definition new : Dag := {| nodes := []; edges := [] |}.

(** [add_node], [add_node_boxed] and [add_poll_node]. *)
Definition add_node (d : Dag) (nm : string) (n : N) : Dag :=
  {| nodes := nodes d ++ [{| name := nm; node := n |}]; edges := edges d |}.

Definition set_node (d : Dag) (idx : nat) (n : N) : out Dag :=
  match nodes d !! idx with
  | Some e => Ret {| nodes := <[idx := {| name := name e; node := n |}]> (nodes d); edges := edges d |}
  | None => Panic
  end.
Definition take_node (d : Dag) (idx : nat) : out (Dag * N) :=
  match nodes d !! idx with
  | Some e => d ← set_node d idx taken; Ret (d, node e)
  | None => Panic
  end.
Definition put_node (d : Dag) (idx : nat) (n : N) : out Dag := set_node d idx n.

Definition find_node (d : Dag) (nm : string) : option DagNodeEntry :=
  snd <$> list_find (λ e, name e = nm) (nodes d).
Definition find_output_port_type (n : N) (port : string) : option PortType :=
  port_type ∘ snd <$> list_find (λ p, pname p = port) (outputs n).
Definition find_input_port_type (n : N) (port : string) : option PortType :=
  port_type ∘ snd <$> list_find (λ p, pname p = port) (inputs n).

Definition connect (d : Dag) (from from_p to to_p : string) : result Dag :=
  f ← ok_or (find_node d from) (NodeNotFound from);
  t ← ok_or (find_node d to) (NodeNotFound to);
  from_type ← ok_or (find_output_port_type (node f) from_p) (NoOutputPort from from_p);
  to_type ← ok_or (find_input_port_type (node t) to_p) (NoInputPort to to_p);
  if negb (compatible_with from_type to_type) then inr (PortTypeMismatch from from_p to to_p) else
  inl {| nodes := nodes d;
         edges := edges d ++ [{| from_node := from; from_port := from_p; to_node := to; to_port := to_p |}] |}.

(** The edges connected before an error stay: the graph is returned with it. *)
Fixpoint chain (d : Dag) (names : list string) : Dag * result () :=
  match names with
  | a :: (b :: _) as rest =>
      match connect d a "done" b "trigger" with
      | inl d => chain d rest
      | inr e => (d, inr e)
      end
  | _ => (d, inl ())
  end.

(** ** [topological_levels] *)

(** [collect] into a [HashMap]: the last node of a name. *)
Definition name_to_idx (d : Dag) : gmap string nat :=
  foldl (λ m '(i, e), <[name e := i]> m) ∅ (imap pair (nodes d)).

(** One edge of the loop that counts dependencies. *)
Definition count_edge (m : gmap string nat) (st : list Z * list (list nat)) (e : DagEdge) : out (result (list Z * list (list nat))) :=
  let '(in_degree, dependents) := st in
  match ok_or (m !! from_node e) (UnknownNode (from_node e)), ok_or (m !! to_node e) (UnknownNode (to_node e)) with
  | inr e, _ => Ret (inr e)
  | inl _, inr e => Ret (inr e)
  | inl from, inl to =>
      deps ← index dependents (Z.of_nat from);
      if decide (to ∈ deps) then Ret (inl st) else
      deg ← index in_degree (Z.of_nat to);
      Ret (inl (<[to := deg + 1]> in_degree, <[from := deps ++ [to]]> dependents))
  end.
Fixpoint count_edges (m : gmap string nat) (st : list Z * list (list nat)) (es : list DagEdge) : out (result (list Z * list (list nat))) :=
  match es with
  | [] => Ret (inl st)
  | e :: es =>
      r ← count_edge m st e;
      match r with inl st => count_edges m st es | inr e => Ret (inr e) end
  end.

(** [-= 1] on a [usize]. *)
Definition usize_pred (k : Z) : Z := if k =? 0 then 2 ^ 64 - 1 else k - 1.

(** One dependent of a node of the level, then all of them. *)
Definition release (st : list Z * list nat) (dep : nat) : out (list Z * list nat) :=
  let '(in_degree, next) := st in
  deg ← index in_degree (Z.of_nat dep);
  let deg := usize_pred deg in
  Ret (<[dep := deg]> in_degree, if deg =? 0 then next ++ [dep] else next).
Fixpoint release_all (st : list Z * list nat) (deps : list nat) : out (list Z * list nat) :=
  match deps with
  | [] => Ret st
  | dep :: deps => st ← release st dep; release_all st deps
  end.
Fixpoint release_level (dependents : list (list nat)) (st : list Z * list nat) (current : list nat) : out (list Z * list nat) :=
  match current with
  | [] => Ret st
  | node_idx :: current =>
      deps ← index dependents (Z.of_nat node_idx);
      st ← release_all st deps;
      release_level dependents st current
  end.

(** The [while] over the levels. *)
Fixpoint levels_loop (fuel : nat) (dependents : list (list nat)) (in_degree : list Z) (levels : list (list nat)) (current : list nat) (visited : Z)
    : out (list (list nat) * Z) :=
  match current with
  | [] => Ret (levels, visited)
  | _ =>
      match fuel with
      | O => OutOfFuel
      | S fuel =>
          let visited := visited + #current in
          '(in_degree, next) ← release_level dependents (in_degree, []) current;
          levels_loop fuel dependents in_degree (levels ++ [current]) next visited
      end
  end.

Definition topological_levels (d : Dag) : out (result (list (list nat))) :=
  let n := length (nodes d) in
  if (n =? 0)%nat then Ret (inl []) else
  r ← count_edges (name_to_idx d) (replicate n 0, replicate n []) (edges d);
  match r with
  | inr e => Ret (inr e)
  | inl (in_degree, dependents) =>
      let current := filter (λ i, in_degree !! i = Some 0) (seq 0 n) in
      '(levels, visited) ← levels_loop n dependents in_degree [] current 0;
      Ret (if negb (visited =? Z.of_nat n) then inr CycleDetected else inl levels)
  end.

(** [validate]. *)
Definition incoming (d : Dag) : gset (string * string) := list_to_set (map (λ e, (to_node e, to_port e)) (edges d)).

Fixpoint check_ports (inc : gset (string * string)) (nm : string) (ps : list PortDef) : result () :=
  match ps with
  | [] => inl ()
  | p :: ps =>
      if required p && negb (bool_decide ((nm, pname p) ∈ inc)) then inr (NotConnected nm (pname p)) else check_ports inc nm ps
  end.
Fixpoint check_nodes (inc : gset (string * string)) (es : list DagNodeEntry) : result () :=
  match es with
  | [] => inl ()
  | e :: es => _ ← check_ports inc (name e) (inputs (node e)); check_nodes inc es
  end.
Definition validate (d : Dag) : out (result ()) :=
  r ← topological_levels d;
  Ret (_ ← r; check_nodes (incoming d) (nodes d)).

Definition node_count (d : Dag) : nat := length (nodes d).
Definition node_name (d : Dag) (idx : nat) : out string :=
  match nodes d !! idx with Some e => Ret (name e) | None => Panic end.
End Dag.
Arguments DagNodeEntry : clear implicits.
Arguments Dag : clear implicits.

End dag.
