(* ===== verification/DagLevels.v ===== *)
(** * Topological levels

    [topological_levels] of [Dag.v] is Kahn's algorithm by levels.  The levels
    are related here to the dependencies the edges stand for: what is counted
    for a node is the number of its dependencies not yet placed. *)
From stdpp Require Import gmap strings.
From S2P Require Import Prelude Dag.
Import port dag.
Open Scope Z_scope.

(** ** Counting *)

Section Counting.
Context {A : Type} `{EqDecision A}.
Implicit Types (P Q : A → Prop) (l : list A).

Lemma count_ext P Q `{∀ x, Decision (P x)} `{∀ x, Decision (Q x)} l : (∀ x, x ∈ l → P x ↔ Q x) → #(filter P l) = #(filter Q l).
Proof.
  intros Hpq. f_equal. induction l as [|x l IH]; [done|]. rewrite !filter_cons. rewrite IH by (intros; apply Hpq; by right).
  destruct (Hpq x ltac:(by left)). destruct (decide (P x)), (decide (Q x)); tauto.
Qed.

Lemma count_none P `{∀ x, Decision (P x)} l : #(filter P l) = 0 ↔ ∀ x, x ∈ l → ¬ P x.
Proof.
  split.
  - intros Hz x Hx HP. assert (x ∈ filter P l) as Hin by by apply list_elem_of_filter. destruct (filter P l); [by apply elem_of_nil in Hin|].
    rewrite len_cons in Hz. pose proof (len_nonneg l0). lia.
  - intros Hn. destruct (filter P l) as [|x r] eqn:E; [done|]. exfalso. assert (x ∈ filter P l) as [HP Hx]%list_elem_of_filter by (rewrite E; by left).
    by apply (Hn x).
Qed.

Lemma count_add P Q `{∀ x, Decision (P x)} `{∀ x, Decision (Q x)} l a : NoDup l → a ∈ l → ¬ P a → (∀ x, Q x ↔ P x ∨ x = a) →
  #(filter Q l) = #(filter P l) + 1.
Proof.
  intros Hnd Ha HPa HQ. induction Hnd as [|x l Hx Hnd IH]; [by apply elem_of_nil in Ha|]. rewrite !filter_cons. destruct (decide (x = a)) as [->|Hne].
  - rewrite decide_True by (apply HQ; by right). rewrite decide_False by done. rewrite len_cons.
    rewrite (count_ext Q P); [lia|]. intros y Hy. rewrite HQ. split; [|by left]. intros [?| ->]; done.
  - apply elem_of_cons in Ha as [->|Ha]; [done|]. specialize (IH Ha). destruct (HQ x).
    destruct (decide (P x)), (decide (Q x)); rewrite ?len_cons; try lia; exfalso; naive_solver.
Qed.

Lemma count_split P Q `{∀ x, Decision (P x)} `{∀ x, Decision (Q x)} l :
  #(filter P l) = #(filter (λ x, P x ∧ Q x) l) + #(filter (λ x, P x ∧ ¬ Q x) l).
Proof.
  induction l as [|x l IH]; [done|]. rewrite !filter_cons. destruct (decide (P x)), (decide (Q x)); 
    repeat case_decide; rewrite ?len_cons; try lia; tauto.
Qed.

(** The same elements in two lists without repetition. *)
Lemma count_same P Q `{∀ x, Decision (P x)} `{∀ x, Decision (Q x)} l l' : NoDup l → NoDup l' →
  (∀ x, x ∈ l ∧ P x ↔ x ∈ l' ∧ Q x) → #(filter P l) = #(filter Q l').
Proof.
  intros Hl Hl' Heq. unfold len. f_equal. apply Permutation_length, NoDup_Permutation; [by apply NoDup_filter..|].
  intros x. rewrite !list_elem_of_filter. specialize (Heq x). tauto.
Qed.

Lemma count_app P `{∀ x, Decision (P x)} l l' : #(filter P (l ++ l')) = #(filter P l) + #(filter P l').
Proof. by rewrite filter_app, len_app. Qed.
End Counting.

(** Occurrences of [v]. *)
Definition occ (v : nat) (l : list nat) : Z := #(filter (λ w, w = v) l).

Lemma occ_cons v w l : occ v (w :: l) = (if decide (w = v) then 1 else 0) + occ v l.
Proof. unfold occ. rewrite filter_cons. case_decide; rewrite ?len_cons; lia. Qed.

Lemma occ_nonneg v l : 0 ≤ occ v l.
Proof. apply len_nonneg. Qed.

Lemma occ_elem v l : v ∈ l ↔ 0 < occ v l.
Proof.
  pose proof (occ_nonneg v l). split.
  - intros Hv. assert (occ v l ≠ 0); [|lia]. intros Hz. by apply (proj1 (count_none _ _) Hz v).
  - intros Hpos. destruct (decide (v ∈ l)) as [|Hn]; [done|]. assert (occ v l = 0); [|lia]. apply count_none. by intros x Hx ->.
Qed.

Lemma occ_elem_not v l : v ∉ l → occ v l = 0.
Proof. rewrite occ_elem. pose proof (occ_nonneg v l). lia. Qed.

Lemma occ_nodup v l : NoDup l → occ v l = if decide (v ∈ l) then 1 else 0.
Proof.
  induction 1 as [|w l Hw _ IH]; [done|]. rewrite occ_cons, IH. destruct (decide (w = v)) as [->|Hne].
  - rewrite decide_False by done. by rewrite decide_True by by left.
  - destruct (decide (v ∈ l)); [by rewrite decide_True by by right|]. rewrite decide_False; [done|]. by intros [?|?]%elem_of_cons.
Qed.

(** ** Releasing *)

Lemma release_all_app st l l' : release_all st (l ++ l') = (st ← release_all st l; release_all st l').
Proof. revert st. induction l as [|v l IH]; intros st; [done|]. cbn [app release_all]. destruct (release st v); [apply IH|done..]. Qed.

(** Each occurrence takes one off; a node is released when its last goes. *)
Lemma release_all_spec fl : ∀ deg next, (∀ v, v ∈ fl → ∃ z, deg !! v = Some z) → (∀ v z, deg !! v = Some z → occ v fl ≤ z) →
  ∃ deg' news, release_all (deg, next) fl = Ret (deg', next ++ news) ∧ length deg' = length deg ∧ NoDup news ∧
    (∀ v z, deg !! v = Some z → deg' !! v = Some (z - occ v fl)) ∧ (∀ v, v ∈ news ↔ v ∈ fl ∧ deg' !! v = Some 0).
Proof.
  induction fl as [|w fl IH]; intros deg next Hin Hle; cbn [release_all].
  { exists deg, []. rewrite app_nil_r. split_and!; [done|done|constructor| |intros v; rewrite elem_of_nil; tauto].
    intros v z ->. f_equal. unfold occ. change (filter _ []) with (@nil nat). rewrite len_nil. lia. }
  destruct (Hin w ltac:(by left)) as [z Ez]. pose proof (Hle w z Ez) as Hz. rewrite occ_cons, decide_True in Hz by done. pose proof (occ_nonneg w fl).
  unfold release at 1. rewrite (index_lookup deg (Z.of_nat w) z) by (rewrite ?Nat2Z.id; done || lia). rewrite !bind_ret.
  unfold usize_pred. rewrite (proj2 (Z.eqb_neq z 0)) by lia.
  assert (w < length deg)%nat as Hw by by eapply lookup_lt_Some.
  destruct (IH (<[w := z - 1]> deg) (if z - 1 =? 0 then next ++ [w] else next)) as (deg' & news & -> & Hlen & Hnd & Hdeg & Hnews).
  - intros v Hv. destruct (decide (v = w)) as [->|]; [rewrite list_lookup_insert_eq by done; by eexists|].
    rewrite list_lookup_insert_ne by done. apply Hin. by right.
  - intros v y Hy. destruct (decide (v = w)) as [->|Hne].
    + rewrite list_lookup_insert_eq in Hy by done. injection Hy as <-. lia.
    + rewrite list_lookup_insert_ne in Hy by done. specialize (Hle v y Hy). rewrite occ_cons, decide_False in Hle by done. lia.
  - rewrite length_insert in Hlen. exists deg', (if z - 1 =? 0 then w :: news else news).
    assert (∀ v y, deg !! v = Some y → deg' !! v = Some (y - occ v (w :: fl))) as Hdeg'.
    { intros v y Hy. rewrite occ_cons. destruct (decide (w = v)) as [<-|Hne].
      - rewrite (Hdeg w (z - 1)) by by apply list_lookup_insert_eq. f_equal. assert (y = z) by congruence. lia.
      - rewrite (Hdeg v y) by (by rewrite list_lookup_insert_ne). f_equal. }
    destruct (Z.eqb_spec (z - 1) 0) as [Hlast|Hmore].
    + assert (w ∉ fl) as Hfl by (rewrite occ_elem; lia). split_and!; [by rewrite <- app_assoc|done| |done|].
      * constructor; [|done]. by intros [? _]%Hnews.
      * intros v. rewrite !elem_of_cons, Hnews. split; [|tauto]. intros [->|[? ?]]; [|tauto]. split; [by left|].
        rewrite (Hdeg' w z Ez), occ_cons, decide_True by done. f_equal. apply occ_elem_not in Hfl. lia.
    + split_and!; [done|done|done|done|]. intros v. rewrite elem_of_cons, Hnews. split; [tauto|]. intros [[->|?] Hv]; [|tauto]. split; [|done].
      rewrite (Hdeg' w z Ez), occ_cons, decide_True in Hv by done. injection Hv as Hv. apply occ_elem. lia.
Qed.
(** ** Cycles *)

Section Cycle.
Context (R : nat → nat → Prop) (U : nat → Prop) (n : nat).
Context (U_lt : ∀ v, U v → (v < n)%nat) (U_pred : ∀ v, U v → ∃ u, U u ∧ R u v).

Lemma linked_rtc (l : list nat) : (∀ i x y, l !! i = Some x → l !! S i = Some y → R x y) → ∀ i x y, l !! 0%nat = Some x → l !! i = Some y → rtc R x y.
Proof using.
  intros Hl i. induction i as [|i IH]; intros x y Hx Hy; [by simplify_eq|]. assert (i < length l)%nat as Hi by (apply lookup_lt_Some in Hy; lia).
  apply lookup_lt_is_Some_2 in Hi as [z Hz]. eapply rtc_r; [by apply IH|]. by eapply Hl.
Qed.

(** Going back along [R] inside a finite set comes round. *)
Lemma cycle_in v l : U v → NoDup (v :: l) → Forall U l → (∀ i x y, (v :: l) !! i = Some x → (v :: l) !! S i = Some y → R x y) → ∃ w, tc R w w.
Proof using U_lt U_pred.
  intros Hv Hnd Hl Hlink. remember (n - length l)%nat as k eqn:Hk. revert v l Hv Hnd Hl Hlink Hk.
  induction k as [|k IH]; intros v l Hv Hnd Hl Hlink Hk.
  - exfalso. assert (length (v :: l) ≤ n)%nat; [|simpl in *; lia]. rewrite <- (length_seq n 0). apply submseteq_length, NoDup_submseteq; [done|].
    intros x Hx. apply elem_of_seq. assert (U x) as Hx' by (apply elem_of_cons in Hx as [->|Hx]; [done|by rewrite Forall_forall in Hl; apply Hl]).
    apply U_lt in Hx'. lia.
  - destruct (U_pred v Hv) as (u & Hu & Hr). destruct (decide (u ∈ v :: l)) as [Hin|Hnot].
    + exists u. apply list_elem_of_lookup_1 in Hin as [i Hi]. eapply tc_rtc_r; [by apply tc_once|]. by eapply linked_rtc.
    + apply (IH u (v :: l)); [done|by constructor|by constructor| |simpl; lia].
      intros [|i] x y Hx Hy; [by simplify_eq/=|]. by apply (Hlink i).
Qed.
End Cycle.

(** ** The dependencies *)

Section Kahn.
Context (n : nat) (deps : list (list nat)).

Definition deps_of (u : nat) : list nat := default [] (deps !! u).
Definition before (u v : nat) : Prop := v ∈ deps_of u.
#[local] Instance before_dec u v : Decision (before u v).
Proof. unfold before. apply _. Defined.

(** How many dependencies of [v] are not among [placed]. *)
Definition missing (placed : list nat) (v : nat) : Z := #(filter (λ u, before u v ∧ u ∉ placed) (seq 0 n)).

Context (deps_len : length deps = n) (deps_nodup : ∀ u, NoDup (deps_of u)) (deps_lt : ∀ u v, before u v → (v < n)%nat).

Lemma before_lt u v : before u v → (u < n)%nat ∧ (v < n)%nat.
Proof using deps_len deps_nodup deps_lt.
  intros Hb. split; [|by eapply deps_lt]. unfold before, deps_of in Hb. destruct (deps !! u) eqn:E; [|by apply elem_of_nil in Hb].
  rewrite <- deps_len. by eapply lookup_lt_Some.
Qed.

Lemma missing_zero placed v : missing placed v = 0 ↔ ∀ u, before u v → u ∈ placed.
Proof using deps_len deps_nodup deps_lt.
  unfold missing. rewrite count_none. split.
  - intros Hn u Hu. destruct (decide (u ∈ placed)) as [|Hnot]; [done|]. exfalso. apply (Hn u); [|done]. apply elem_of_seq. apply before_lt in Hu. lia.
  - intros Hall u _ [Hu Hnot]. by apply Hnot, Hall.
Qed.

Lemma missing_some placed v : missing placed v ≠ 0 → ∃ u, (u < n)%nat ∧ before u v ∧ u ∉ placed.
Proof using deps_len deps_nodup deps_lt.
  unfold missing. intros Hm. destruct (filter _ (seq 0 n)) as [|u r] eqn:E; [done|].
  assert (u ∈ filter (λ u, before u v ∧ u ∉ placed) (seq 0 n)) as [[Hu Hnu] Hr]%list_elem_of_filter by (rewrite E; by left).
  exists u. apply elem_of_seq in Hr. split_and!; [lia|done..].
Qed.

Lemma missing_app placed current v : NoDup current → (∀ u, u ∈ current → (u < n)%nat ∧ u ∉ placed) →
  missing placed v = #(filter (λ u, before u v) current) + missing (placed ++ current) v.
Proof using deps_len deps_nodup deps_lt.
  intros Hnd Hc. unfold missing. rewrite (count_split _ (λ u, u ∈ current)). f_equal.
  - apply count_same; [apply NoDup_seq|done|]. intros u. rewrite elem_of_seq. specialize (Hc u). split; [tauto|]. intros [Hu ?]. specialize (Hc Hu).
    split; [lia|tauto].
  - apply count_ext. intros u _. rewrite elem_of_app. tauto.
Qed.

Lemma occ_released v current : occ v (concat (map deps_of current)) = #(filter (λ u, before u v) current).
Proof using deps_len deps_nodup deps_lt.
  induction current as [|u current IH]; [done|]. cbn [map concat]. unfold occ in *. rewrite count_app, IH, filter_cons.
  fold (occ v (deps_of u)). rewrite occ_nodup by done. unfold before. destruct (decide (v ∈ deps_of u)); rewrite ?len_cons; lia.
Qed.

(** The two loops over a level, as one. *)
Lemma release_level_flat current : ∀ st, (∀ u, u ∈ current → (u < n)%nat) →
  release_level deps st current = release_all st (concat (map deps_of current)).
Proof using deps_len.
  induction current as [|u current IH]; intros st Hc; [done|]. cbn [release_level map concat].
  destruct (lookup_lt_is_Some_2 deps u) as [ds E]; [rewrite deps_len; apply Hc; by left|].
  rewrite (index_lookup deps (Z.of_nat u) ds) by (rewrite ?Nat2Z.id; done || lia). rewrite bind_ret, release_all_app.
  assert (deps_of u = ds) as -> by (unfold deps_of; by rewrite E). destruct (release_all st ds); [|done..]. apply IH. intros ? ?. apply Hc. by right.
Qed.


(** Every node of a level depends on earlier levels only, and on the one just
    before. *)
Definition layered (levels : list (list nat)) : Prop :=
  ∀ i lv v, levels !! i = Some lv → v ∈ lv →
    (∀ u, before u v → ∃ j lu, (j < i)%nat ∧ levels !! j = Some lu ∧ u ∈ lu) ∧
    (∀ i', i = S i' → ∃ u lu, levels !! i' = Some lu ∧ u ∈ lu ∧ before u v).

(** The state of the loop: the counts are those of what is placed, and the
    current level is what they leave free. *)
Definition kahn (deg : list Z) (levels : list (list nat)) (current : list nat) : Prop :=
  NoDup (concat levels ++ current) ∧ (∀ v, v ∈ concat levels ++ current → (v < n)%nat) ∧ length deg = n ∧
  (∀ v, (v < n)%nat → deg !! v = Some (missing (concat levels) v)) ∧
  (∀ v, (v < n)%nat → v ∈ concat levels ++ current ↔ missing (concat levels) v = 0) ∧
  layered (levels ++ [current]).

Lemma in_levels (levels : list (list nat)) (u : nat) : u ∈ concat levels ↔ ∃ j lu, levels !! j = Some lu ∧ u ∈ lu.
Proof using.
  rewrite list_elem_of_In, in_concat. split.
  - intros (lu & Hl & Hu). apply list_elem_of_In, list_elem_of_lookup_1 in Hl as [j Hj]. exists j, lu. by rewrite list_elem_of_In.
  - intros (j & lu & Hj & Hu). exists lu. rewrite <- !list_elem_of_In. split; [by eapply list_elem_of_lookup_2|done].
Qed.

Lemma layered_snoc levels current next : layered (levels ++ [current]) →
  (∀ v, v ∈ next → (∀ u, before u v → u ∈ concat (levels ++ [current])) ∧ ∃ u, u ∈ current ∧ before u v) →
  layered ((levels ++ [current]) ++ [next]).
Proof using.
  clear deps_len deps_nodup deps_lt. intros Hl Hn i lv v Hi Hv. apply lookup_app_Some in Hi as [Hi|[Hge Hi]].
  - destruct (Hl i lv v Hi Hv) as [Hb Hp]. split.
    + intros u Hu. destruct (Hb u Hu) as (j & lu & Hj & Hlu & Hin). exists j, lu. split_and!; [done| |done]. by apply lookup_app_l_Some.
    + intros i' ->. destruct (Hp i' eq_refl) as (u & lu & Hlu & Hu & Hb'). exists u, lu. split_and!; [by apply lookup_app_l_Some|done..].
  - apply list_lookup_singleton_Some in Hi as [Ei <-]. destruct (Hn v Hv) as [Hb (u0 & Hu0 & Hb0)]. split.
    + intros u Hu. apply Hb, in_levels in Hu as (j & lu & Hlu & Hin). exists j, lu. split_and!; [apply lookup_lt_Some in Hlu; lia| |done].
      by apply lookup_app_l_Some.
    + intros i' ->. rewrite length_app in Hge, Ei. simpl in Hge, Ei. exists u0, current. split_and!; [|done..]. apply lookup_app_l_Some.
      rewrite lookup_app_r by lia. by replace (i' - length levels)%nat with 0%nat by lia.
Qed.

Lemma concat_snoc {A} (ls : list (list A)) l : concat (ls ++ [l]) = concat ls ++ l.
Proof using. rewrite concat_app. cbn [concat]. by rewrite app_nil_r. Qed.

Lemma kahn_step deg levels current : kahn deg levels current →
  ∃ deg' next, release_level deps (deg, []) current = Ret (deg', next) ∧ kahn deg' (levels ++ [current]) next.
Proof using deps_len deps_nodup deps_lt.
  intros (Hnd & Hlt & Hlen & Hdeg & Hfree & Hlay). apply NoDup_app in Hnd as Hnd'. destruct Hnd' as (_ & Hdisj & Hndc).
  assert (∀ u, u ∈ current → (u < n)%nat ∧ u ∉ concat levels) as Hcur.
  { intros u Hu. split; [apply Hlt, elem_of_app; by right|]. intros Hp. by apply (Hdisj u Hp). }
  rewrite release_level_flat by (intros u Hu; by apply Hcur). set (fl := concat (map deps_of current)).
  assert (∀ v, v ∈ fl ↔ ∃ u, u ∈ current ∧ before u v) as Hfl.
  { intros v. unfold fl. rewrite list_elem_of_In, in_concat. split.
    - intros (ds & Hds & Hv). apply list_elem_of_In, list_elem_of_fmap in Hds as (u & -> & Hu). exists u. by rewrite <- list_elem_of_In in Hv.
    - intros (u & Hu & Hb). exists (deps_of u). rewrite <- !list_elem_of_In. split; [by apply list_elem_of_fmap_2|done]. }
  assert (∀ v, missing (concat levels) v = occ v fl + missing (concat levels ++ current) v) as Hmiss
    by (intros v; unfold fl; rewrite occ_released by done; apply missing_app; done).
  destruct (release_all_spec fl deg []) as (deg' & next & E & Hlen' & Hndn & Hdeg' & Hnext).
  - intros v (u & _ & Hb)%Hfl. exists (missing (concat levels) v). apply Hdeg. by eapply deps_lt.
  - intros v z Hz. assert (v < n)%nat as Hv by (rewrite <- Hlen; by eapply lookup_lt_Some). rewrite Hdeg in Hz by done. injection Hz as <-.
    rewrite Hmiss. pose proof (len_nonneg (filter (λ u, before u v ∧ u ∉ concat levels ++ current) (seq 0 n))). unfold missing. lia.
  - exists deg', next. split; [done|].
    assert (∀ v, (v < n)%nat → deg' !! v = Some (missing (concat levels ++ current) v)) as Hcount.
    { intros v Hv. rewrite (Hdeg' v _ (Hdeg v Hv)). f_equal. rewrite Hmiss. lia. }
    assert (∀ v, v ∈ next ↔ (∃ u, u ∈ current ∧ before u v) ∧ missing (concat levels ++ current) v = 0) as Hnext'.
    { intros v. rewrite Hnext, Hfl. split.
      - intros [(u & Hu & Hb) Hz]. split; [by exists u|]. rewrite Hcount in Hz by by eapply deps_lt. by injection Hz.
      - intros [(u & Hu & Hb) Hz]. split; [by exists u|]. rewrite Hcount by by eapply deps_lt. by f_equal. }
    unfold kahn. rewrite concat_snoc. split_and!.
    + apply NoDup_app. split; [done|]. split; [|done]. intros v Hv [(u & Hu & Hb) _]%Hnext'. apply Hfree in Hv; [|by eapply deps_lt].
      rewrite (missing_zero) in Hv by done. apply (Hcur u Hu). by apply Hv.
    + intros v [Hv|Hv]%elem_of_app; [by apply Hlt|]. apply Hnext' in Hv as [(u & _ & Hb) _]. by eapply deps_lt.
    + congruence.
    + done.
    + intros v Hv. rewrite elem_of_app, Hnext', Hfree by done. rewrite !missing_zero by done. split.
      * intros [Hall|[_ Hall]]; [|done]. intros u Hu. apply elem_of_app. left. by apply Hall.
      * intros Hall. destruct (decide (missing (concat levels) v = 0)) as [Hz|Hnz]; [left; by rewrite missing_zero in Hz by done|].
        right. split; [|done]. assert (0 < occ v fl) as Hocc.
        { assert (missing (concat levels ++ current) v = 0) by (by rewrite missing_zero by done). rewrite Hmiss in Hnz. pose proof (occ_nonneg v fl). lia. }
        by apply Hfl, occ_elem.
    + apply layered_snoc; [done|]. intros v [Hex Hz]%Hnext'. split; [|done]. rewrite concat_snoc. by rewrite missing_zero in Hz by done.
Qed.

Lemma levels_loop_spec fuel : ∀ deg levels current visited, kahn deg levels current → visited = #(concat levels) → (n ≤ length (concat levels) + fuel)%nat →
  ∃ deg' levels', levels_loop fuel deps deg levels current visited = Ret (levels', #(concat levels')) ∧ kahn deg' levels' [].
Proof using deps_len deps_nodup deps_lt.
  assert (∀ deg levels current, kahn deg levels current → (length (concat levels) + length current ≤ n)%nat) as Hroom.
  { intros deg levels current (Hnd & Hlt & _). rewrite <- length_app, <- (length_seq n 0). apply submseteq_length, NoDup_submseteq; [done|].
    intros v Hv. apply elem_of_seq. specialize (Hlt v Hv). lia. }
  induction fuel as [|fuel IH]; intros deg levels current visited Hk -> Hf; pose proof (Hroom _ _ _ Hk) as Hr; cbn [levels_loop].
  - destruct current as [|u current]; [|simpl in Hr; lia]. by exists deg, levels.
  - destruct current as [|u current]; [by exists deg, levels|]. destruct (kahn_step _ _ _ Hk) as (deg' & next & -> & Hk'). rewrite bind_ret.
    apply IH; [done|by rewrite concat_snoc, len_app|]. rewrite concat_snoc, length_app. simpl. lia.
Qed.

(** The loop has placed every node, in layers, or what is left goes round. *)
Lemma kahn_done deg levels : kahn deg levels [] → #(concat levels) = Z.of_nat n → concat levels ≡ₚ seq 0 n ∧ layered levels.
Proof using deps_len deps_nodup deps_lt.
  intros (Hnd & Hlt & _ & _ & _ & Hlay) Hall. rewrite app_nil_r in *. split.
  - apply submseteq_length_Permutation; [|rewrite length_seq; unfold len in Hall; lia]. apply NoDup_submseteq; [done|].
    intros v Hv. apply elem_of_seq. specialize (Hlt v Hv). lia.
  - intros i lv v Hi Hv. destruct (Hlay i lv v) as [H1 H2]; [by apply lookup_app_l_Some|done|].
    assert (∀ j lu, (j < length levels)%nat → (levels ++ [[]]) !! j = Some lu → levels !! j = Some lu) as Hback by (intros j lu Hj; by rewrite lookup_app_l).
    apply lookup_lt_Some in Hi. split.
    + intros u Hu. destruct (H1 u Hu) as (j & lu & Hj & Hlu & Hin). exists j, lu. split_and!; [done|apply Hback; [lia|done]|done].
    + intros i' ->. destruct (H2 i' eq_refl) as (u & lu & Hlu & Hin & Hbef). exists u, lu. split_and!; [apply Hback; [lia|done]|done|done].
Qed.

Lemma kahn_stuck deg levels : kahn deg levels [] → #(concat levels) ≠ Z.of_nat n → ∃ v, tc before v v.
Proof using deps_len deps_nodup deps_lt.
  intros (Hnd & Hlt & _ & _ & Hfree & _) Hsome. rewrite app_nil_r in *.
  assert (∃ v, (v < n)%nat ∧ v ∉ concat levels) as (v & Hv & Hnot).
  { destruct (decide (Forall (λ v, v ∈ concat levels) (seq 0 n))) as [Hf|Hf].
    - exfalso. apply Hsome. unfold len. f_equal. rewrite <- (length_seq n 0). apply Permutation_length, NoDup_Permutation; [done|apply NoDup_seq|].
      intros v. rewrite elem_of_seq. split; [intros Hv; specialize (Hlt v Hv); lia|]. intros Hv. rewrite Forall_forall in Hf. apply Hf, elem_of_seq. lia.
    - apply not_Forall_Exists in Hf; [|intros ?; apply _]. apply Exists_exists in Hf as (v & Hv & Hn). apply elem_of_seq in Hv. exists v. split; [lia|done]. }
  apply (cycle_in before (λ v, (v < n)%nat ∧ v ∉ concat levels) n) with (v := v) (l := []); [by intros w [? _]| |done|apply NoDup_singleton|constructor|].
  - intros w [Hw Hnw]. rewrite Hfree in Hnw by done. destruct (missing_some _ _ Hnw) as (u & Hu & Hb & Hnu). by exists u.
  - intros i x y _ Hy. by destruct i.
Qed.
End Kahn.

(** ** Counting the dependencies *)

Section Edges.
Context (m : gmap string nat) (n : nat) (m_lt : ∀ nm i, m !! nm = Some i → (i < n)%nat).

Definition resolves (e : DagEdge) (u v : nat) : Prop := m !! from_node e = Some u ∧ m !! to_node e = Some v.

Definition counted (es : list DagEdge) (st : list Z * list (list nat)) : Prop :=
  length st.1 = n ∧ length st.2 = n ∧ (∀ u, NoDup (deps_of st.2 u)) ∧
  (∀ u v, before st.2 u v ↔ ∃ e, e ∈ es ∧ resolves e u v) ∧
  (∀ v, (v < n)%nat → st.1 !! v = Some (missing n st.2 [] v)).

Lemma counted_start : counted [] (replicate n 0, replicate n []).
Proof using.
  assert (∀ u, deps_of (replicate n []) u = []) as Hd.
  { intros u. unfold deps_of. destruct (replicate n [] !! u) as [ds|] eqn:E; [|done]. by apply lookup_replicate in E as [-> _]. }
  split_and!; simpl; [by rewrite length_replicate..| | |].
  - intros u. rewrite Hd. constructor.
  - intros u v. unfold before. rewrite Hd, elem_of_nil. split; [done|]. intros (e & He & _). by apply elem_of_nil in He.
  - intros v Hv. rewrite lookup_replicate_2 by done. f_equal. symmetry. apply count_none. intros u _ [Hb _]. unfold before in Hb. rewrite Hd in Hb.
    by apply elem_of_nil in Hb.
Qed.

Lemma deps_of_insert deps from ds u : (from < length deps)%nat → deps_of (<[from := ds]> deps) u = if decide (u = from) then ds else deps_of deps u.
Proof using. intros Hlt. unfold deps_of. case_decide as He; [subst; by rewrite list_lookup_insert_eq|by rewrite list_lookup_insert_ne]. Qed.

Lemma count_edge_spec es st e u v : counted es st → resolves e u v → ∃ st', count_edge m st e = Ret (inl st') ∧ counted (es ++ [e]) st'.
Proof using m_lt.
  intros (Hl1 & Hl2 & Hnd & Hb & Hdeg) [Hu Hv]. destruct st as [deg deps]. simpl in *. pose proof (m_lt _ _ Hu) as Hun. pose proof (m_lt _ _ Hv) as Hvn.
  assert (∀ w x, (∃ e', e' ∈ es ++ [e] ∧ resolves e' w x) ↔ before deps w x ∨ w = u ∧ x = v) as Hes.
  { intros w x. rewrite Hb. split.
    - intros (e' & [He|He]%elem_of_app & Hr); [left; by exists e'|]. apply list_elem_of_singleton in He as ->. destruct Hr. right. split; congruence.
    - intros [(e' & He & Hr)|[-> ->]]; [exists e'|exists e]; (split; [apply elem_of_app|done]); [by left|right; by left]. }
  unfold count_edge. rewrite Hu, Hv. cbn [ok_or]. destruct (lookup_lt_is_Some_2 deps u) as [ds Eds]; [lia|].
  assert (deps_of deps u = ds) as Eu by (unfold deps_of; by rewrite Eds).
  rewrite (index_lookup deps (Z.of_nat u) ds) by (rewrite ?Nat2Z.id; done || lia). rewrite bind_ret. case_decide as Hin.
  - exists (deg, deps). split; [done|]. split_and!; [done..| |done]. intros w x. rewrite Hes. simpl. split; [by left|].
    intros [?|[-> ->]]; [done|]. unfold before. by rewrite Eu.
  - rewrite (index_lookup deg (Z.of_nat v) (missing n deps [] v)) by (rewrite ?Nat2Z.id; by auto || lia). rewrite bind_ret. eexists. split; [done|].
    assert (∀ w x, before (<[u := ds ++ [v]]> deps) w x ↔ before deps w x ∨ w = u ∧ x = v) as Hb'.
    { intros w x. unfold before. rewrite deps_of_insert by lia. case_decide as He; [subst w|naive_solver].
      rewrite Eu, elem_of_app, list_elem_of_singleton. naive_solver. }
    split_and!; simpl; [by rewrite length_insert..| | |].
    + intros w. rewrite deps_of_insert by lia. case_decide; [|done]. apply NoDup_app. split; [by rewrite <- Eu|]. split; [|apply NoDup_singleton].
      intros x Hx Hxv%list_elem_of_singleton. by subst.
    + intros w x. by rewrite Hes, Hb'.
    + intros x Hx. unfold missing. destruct (decide (x = v)) as [->|Hne].
      * rewrite list_lookup_insert_eq by lia. f_equal. symmetry. apply (count_add _ _ (seq 0 n) u).
        -- apply NoDup_seq.
        -- apply elem_of_seq. lia.
        -- unfold before. rewrite Eu. tauto.
        -- intros w. rewrite Hb'. pose proof (not_elem_of_nil w). naive_solver.
      * rewrite list_lookup_insert_ne, Hdeg by done. f_equal. apply count_ext. intros w _. rewrite Hb'. naive_solver.
Qed.

Lemma count_edges_spec es' : ∀ es st, counted es st →
  if decide (Forall (λ e, is_Some (m !! from_node e) ∧ is_Some (m !! to_node e)) es')
  then ∃ st', count_edges m st es' = Ret (inl st') ∧ counted (es ++ es') st'
  else ∃ nm, count_edges m st es' = Ret (inr (UnknownNode nm)) ∧ m !! nm = None ∧ Exists (λ e, from_node e = nm ∨ to_node e = nm) es'.
Proof using m_lt.
  induction es' as [|e es' IH]; intros es st Hst; cbn [count_edges].
  { rewrite decide_True by constructor. exists st. by rewrite app_nil_r. }
  destruct (m !! from_node e) as [u|] eqn:Eu; [destruct (m !! to_node e) as [v|] eqn:Ev|].
  - destruct (count_edge_spec es st e u v Hst ltac:(done)) as (st1 & -> & Hst1). rewrite bind_ret. specialize (IH _ _ Hst1). rewrite <- app_assoc in IH.
    destruct (decide (Forall _ es')) as [Hall|Hnot].
    + rewrite decide_True; [done|]. constructor; [rewrite Eu, Ev; by split; eexists|done].
    + rewrite decide_False by (by intros [_ ?]%Forall_cons). destruct IH as (nm & E & Hn & He). exists nm. split_and!; [done..|by right].
  - rewrite decide_False by (intros [[_ [? ?]] _]%Forall_cons; congruence). exists (to_node e). split_and!; [|done|by left; right].
    unfold count_edge. destruct st. by rewrite Eu, Ev.
  - rewrite decide_False by (intros [[[? ?] _] _]%Forall_cons; congruence). exists (from_node e). split_and!; [|done|by left; left].
    unfold count_edge. destruct st. by rewrite Eu.
Qed.
End Edges.

(** ** The whole function *)

Section Levels.
Context {N : Type} `{Ports N}.
Implicit Types d : Dag N.

(** The last node of a name. *)
Definition last_named (l : list (DagNodeEntry N)) (nm : string) (i : nat) : Prop :=
  ∃ e, l !! i = Some e ∧ name e = nm ∧ ∀ j e', l !! j = Some e' → name e' = nm → (j ≤ i)%nat.

Lemma name_to_idx_spec d nm :
  match name_to_idx d !! nm with Some i => last_named (nodes d) nm i | None => ∀ e, e ∈ nodes d → name e ≠ nm end.
Proof using.
  unfold name_to_idx. generalize (nodes d). intros l. induction l as [|x l IH] using rev_ind.
  { simpl. rewrite lookup_empty. intros e He. by apply elem_of_nil in He. }
  rewrite imap_app, foldl_app. cbn [imap foldl]. set (m := foldl _ _ _) in *. rewrite Nat.add_0_r. destruct (decide (name x = nm)) as [<-|Hne].
  - rewrite lookup_insert_eq. exists x. split; [by rewrite list_lookup_middle|]. split; [done|]. intros j e' Hj _. apply lookup_lt_Some in Hj.
    rewrite length_app in Hj. simpl in Hj. lia.
  - rewrite lookup_insert_ne by done. destruct (m !! nm) as [i|].
    + destruct IH as (e & He & Hn & Hlast). exists e. split; [by apply lookup_app_l_Some|]. split; [done|]. intros j e' Hj Hn'.
      apply lookup_app_Some in Hj as [Hj|[_ Hj]]; [by eapply Hlast|]. by apply list_lookup_singleton_Some in Hj as [_ <-].
    + intros e [He|He]%elem_of_app; [by apply IH|]. by apply list_elem_of_singleton in He as ->.
Qed.

Lemma name_to_idx_lt d nm i : name_to_idx d !! nm = Some i → (i < length (nodes d))%nat.
Proof using. intros E. pose proof (name_to_idx_spec d nm) as Hs. rewrite E in Hs. destruct Hs as (e & He & _). by eapply lookup_lt_Some. Qed.

(** Node [v] takes input from node [u]. *)
Definition depends d (u v : nat) : Prop :=
  ∃ e, e ∈ edges d ∧ last_named (nodes d) (from_node e) u ∧ last_named (nodes d) (to_node e) v.

Lemma last_named_idx d nm i : last_named (nodes d) nm i ↔ name_to_idx d !! nm = Some i.
Proof using.
  pose proof (name_to_idx_spec d nm) as Hs. split; [|intros E; by rewrite E in Hs].
  intros (e & He & Hn & Hlast). destruct (name_to_idx d !! nm) as [j|]; [|exfalso; apply (Hs e); [by eapply list_elem_of_lookup_2|done]].
  destruct Hs as (e' & He' & Hn' & Hlast'). f_equal. specialize (Hlast j e' He' Hn'). specialize (Hlast' i e He Hn). lia.
Qed.

Lemma depends_resolves d u v : depends d u v ↔ ∃ e, e ∈ edges d ∧ resolves (name_to_idx d) e u v.
Proof using. unfold depends, resolves. by setoid_rewrite last_named_idx. Qed.

(** Levels that place every node, each after what it depends on. *)
Definition good_levels d (levels : list (list nat)) : Prop :=
  concat levels ≡ₚ seq 0 (length (nodes d)) ∧
  ∀ i lv v, levels !! i = Some lv → v ∈ lv →
    (∀ u, depends d u v → ∃ j lu, (j < i)%nat ∧ levels !! j = Some lu ∧ u ∈ lu) ∧
    (∀ i', i = S i' → ∃ u lu, levels !! i' = Some lu ∧ u ∈ lu ∧ depends d u v).

Lemma good_levels_acyclic d levels v : good_levels d levels → ¬ tc (depends d) v v.
Proof using.
  intros [Hperm Hlay] Hc.
  assert (∀ u w, tc (depends d) u w → ∀ i lw, levels !! i = Some lw → w ∈ lw → ∃ j lu, (j < i)%nat ∧ levels !! j = Some lu ∧ u ∈ lu) as Hdown.
  { induction 1 as [u w Hd|u x w Hd _ IH]; intros i lw Hi Hw; [by apply (Hlay i lw w Hi Hw)|].
    destruct (IH i lw Hi Hw) as (j & lx & Hj & Hlx & Hx). destruct (proj1 (Hlay j lx x Hlx Hx) u Hd) as (k & lu & Hk & Hlu & Hu).
    exists k, lu. split_and!; [lia|done..]. }
  assert (∀ i lv, levels !! i = Some lv → v ∈ lv → False) as Hno.
  { intros i. induction (lt_wf i) as [i _ IH]. intros lv Hi Hv. destruct (Hdown v v Hc i lv Hi Hv) as (j & lu & Hj & Hlu & Hu). by apply (IH j Hj lu). }
  assert (v ∈ concat levels) as (i & lv & Hi & Hv)%in_levels; [|by eapply Hno].
  rewrite Hperm. apply elem_of_seq. assert (∃ w, depends d v w) as (w & Hd).
  { inversion Hc as [? ? Hd|? w ? Hd _]; subst; by eexists. }
  apply depends_resolves in Hd as (e & _ & Hf & _). apply name_to_idx_lt in Hf. lia.
Qed.

Lemma topological_levels_spec d : ∃ r, topological_levels d = Ret r ∧
  match r with
  | inl levels => good_levels d levels
  | inr CycleDetected => ∃ v, tc (depends d) v v
  | inr (UnknownNode nm) => (∀ e, e ∈ nodes d → name e ≠ nm) ∧ Exists (λ e, from_node e = nm ∨ to_node e = nm) (edges d)
  | inr _ => False
  end.
Proof using.
  unfold topological_levels. set (n := length (nodes d)). set (m := name_to_idx d).
  destruct (Nat.eqb_spec n 0) as [Hz|Hnz].
  { eexists. split; [done|]. split; [unfold n in Hz; by rewrite Hz|]. intros i lv v Hi. by rewrite lookup_nil in Hi. }
  pose proof (count_edges_spec m n (name_to_idx_lt d) (edges d) [] _ (counted_start m n)) as Hcount. case_decide.
  2:{ destruct Hcount as (nm & -> & Hn & He). rewrite bind_ret. eexists. split; [done|]. split; [|done]. pose proof (name_to_idx_spec d nm) as Hs.
      unfold m in Hn. by rewrite Hn in Hs. }
  destruct Hcount as ([deg deps] & -> & Hl1 & Hl2 & Hnd & Hb & Hdeg). rewrite bind_ret. simpl in *.
  assert (∀ u v, before deps u v ↔ depends d u v) as Hdep by (intros u v; by rewrite Hb, depends_resolves).
  assert (∀ u v, before deps u v → (v < n)%nat) as Hlt.
  { intros u v (e & _ & _ & Hv)%Hb. by eapply name_to_idx_lt. }
  set (current := filter (λ i, deg !! i = Some 0) (seq 0 n)).
  assert (kahn n deps deg [] current) as Hk.
  { unfold kahn. cbn [concat app]. assert (∀ v, v ∈ current ↔ (v < n)%nat ∧ missing n deps [] v = 0) as Hcur.
    { intros v. unfold current. rewrite list_elem_of_filter, elem_of_seq. split.
      - intros [Hv Hr]. rewrite Hdeg in Hv by lia. injection Hv as Hv. split; [lia|done].
      - intros [Hv Hz]. rewrite Hdeg by done. rewrite Hz. split; [done|lia]. }
    split_and!; [apply NoDup_filter, NoDup_seq| |done|done| |].
    - by intros v [? _]%Hcur.
    - intros v Hv. rewrite Hcur. tauto.
    - intros i lv v Hi Hv. apply list_lookup_singleton_Some in Hi as [-> <-]. split; [|done]. intros u Hu. apply Hcur in Hv as [_ Hz].
      rewrite missing_zero in Hz by done. apply Hz in Hu. by apply elem_of_nil in Hu. }
  destruct (levels_loop_spec n deps Hl2 Hnd Hlt n deg [] current 0 Hk eq_refl) as (deg' & levels & -> & Hk'); [simpl; lia|]. rewrite bind_ret.
  eexists. split; [done|].
  destruct (Z.eqb_spec #(concat levels) (Z.of_nat n)) as [Hall|Hsome]; cbn [negb].
  - destruct (kahn_done n deps Hl2 Hnd Hlt _ _ Hk' Hall) as [Hperm Hlay]. split; [done|]. intros i lv v Hi Hv.
    destruct (Hlay i lv v Hi Hv) as [H1 H2]. split; [intros u Hu%Hdep; by apply H1|]. intros i' ->. destruct (H2 i' eq_refl) as (u & lu & ? & ? & Hu).
    exists u, lu. by rewrite <- Hdep.
  - destruct (kahn_stuck n deps Hl2 Hnd Hlt _ _ Hk' Hsome) as (v & Hv). exists v. apply (tc_congruence (R := before deps) id (depends d) v v); [|done]. by intros u w ?%Hdep.
Qed.
End Levels.

(** ** Building a graph *)

Section Wiring.
Context {N : Type} `{Ports N}.
Implicit Types d : Dag N.

Inductive op := AddNode (nm : string) (n : N) | Connect (from from_p to to_p : string) | Chain (names : list string).

(** The graph after a call, whatever the call returned. *)
Definition apply_op d (o : op) : Dag N :=
  match o with
  | AddNode nm n => add_node d nm n
  | Connect from from_p to to_p => match connect d from from_p to to_p with inl d => d | inr _ => d end
  | Chain names => (chain d names).1
  end.

(** Both ends of the edge exist and their port types agree. *)
Definition wired d (e : DagEdge) : Prop :=
  ∃ f t ft tt, find_node d (from_node e) = Some f ∧ find_node d (to_node e) = Some t ∧
    find_output_port_type (node f) (from_port e) = Some ft ∧ find_input_port_type (node t) (to_port e) = Some tt ∧ compatible_with ft tt = true.

Definition well_wired d : Prop := Forall (wired d) (edges d).

Lemma find_add d nm n nm' e : find_node d nm' = Some e → find_node (add_node d nm n) nm' = Some e.
Proof using.
  unfold find_node, add_node. cbn [nodes]. destruct (list_find _ (nodes d)) as [[i x]|] eqn:E; [|done]. simpl. intros [= <-].
  by rewrite (list_find_app_l _ _ _ _ _ E).
Qed.

Lemma find_named d nm e : find_node d nm = Some e → e ∈ nodes d ∧ name e = nm.
Proof using.
  unfold find_node. destruct (list_find _ _) as [[i x]|] eqn:E; [|done]. simpl. intros [= <-]. apply list_find_Some in E as (Hi & Hn & _).
  split; [by eapply list_elem_of_lookup_2|done].
Qed.

Lemma connect_spec d from from_p to to_p d' : connect d from from_p to to_p = inl d' → well_wired d →
  well_wired d' ∧ nodes d' = nodes d ∧
  edges d' = edges d ++ [{| from_node := from; from_port := from_p; to_node := to; to_port := to_p |}].
Proof using.
  intros Hc Hw. unfold connect in Hc.
  destruct (find_node d from) as [f|] eqn:Ef; [|done]. destruct (find_node d to) as [t|] eqn:Et; [|done]. cbn in Hc.
  destruct (find_output_port_type (node f) from_p) as [ft|] eqn:Eft; [|done]. destruct (find_input_port_type (node t) to_p) as [tt|] eqn:Ett; [|done].
  cbn in Hc. destruct (compatible_with ft tt) eqn:Ec; [|done]. injection Hc as <-. split; [|done].
  apply Forall_app. split; [exact Hw|]. apply Forall_singleton. by exists f, t, ft, tt.
Qed.

Lemma chain_spec names : ∀ d, well_wired d → well_wired (chain d names).1.
Proof using.
  induction names as [|a names IH]; intros d Hw; [done|]. destruct names as [|b names]; [done|]. cbn [chain].
  destruct (connect d a "done" b "trigger") as [d'|e] eqn:E; [|done]. apply IH. by apply (connect_spec _ _ _ _ _ _ E).
Qed.

Lemma apply_op_spec d o : well_wired d → well_wired (apply_op d o).
Proof using.
  intros Hw. destruct o as [nm n|from from_p to to_p|names]; cbn [apply_op]; [| |by apply chain_spec].
  - apply (Forall_impl _ _ _ Hw). intros e (f & t & ft & tt & Hf & Ht & Hrest). exists f, t, ft, tt. by rewrite (find_add d nm n _ f Hf), (find_add d nm n _ t Ht).
  - destruct (connect _ _ _ _ _) eqn:E; [by apply (connect_spec _ _ _ _ _ _ E)|done].
Qed.

Lemma ops_spec ops : ∀ d, well_wired d → well_wired (foldl apply_op d ops).
Proof using. induction ops as [|o ops IH]; intros d Hw; [done|]. by apply IH, apply_op_spec. Qed.

Lemma check_ports_spec inc nm ps : check_ports inc nm ps = inl () ↔ ∀ p, p ∈ ps → required p = true → (nm, pname p) ∈ inc.
Proof using.
  induction ps as [|p ps IH]; cbn [check_ports]; [split; [by intros _ p ?%elem_of_nil|done]|].
  destruct (required p) eqn:Er; simpl; [case_bool_decide as Hin; simpl|].
  - rewrite IH. split; [intros Hps q [->|Hq]%elem_of_cons; [done|by apply Hps]|]. intros Hps q Hq. apply Hps. by right.
  - split; [done|]. intros Hps. by destruct Hin; apply Hps; [left|].
  - rewrite IH. split; [intros Hps q [->|Hq]%elem_of_cons; [congruence|by apply Hps]|]. intros Hps q Hq. apply Hps. by right.
Qed.

Lemma check_nodes_spec inc (es : list (DagNodeEntry N)) :
  check_nodes inc es = inl () ↔ ∀ e p, e ∈ es → p ∈ inputs (node e) → required p = true → (name e, pname p) ∈ inc.
Proof using.
  induction es as [|e es IH]; cbn [check_nodes]; [split; [by intros _ e p ?%elem_of_nil|done]|].
  pose proof (check_ports_spec inc (name e) (inputs (node e))) as Hp. destruct (check_ports _ _ _) as [[]|err]; cbn.
  - rewrite IH. split; [intros Hes x p [->|Hx]%elem_of_cons; [by apply Hp|by apply Hes]|]. intros Hes x p Hx. apply Hes. by right.
  - split; [done|]. intros Hes. assert (inr err = inl (B := DagError) ()) as ?; [|done]. apply Hp. intros p Hp'. apply Hes; [by left|done].
Qed.

Lemma elem_incoming d nm p : (nm, p) ∈ incoming d ↔ ∃ e, e ∈ edges d ∧ to_node e = nm ∧ to_port e = p.
Proof using.
  unfold incoming. rewrite elem_of_list_to_set, list_elem_of_fmap. split; [intros (e & [= -> ->] & He); by exists e|]. intros (e & He & <- & <-). by exists e.
Qed.

(** A graph built by the calls references only nodes it has. *)
Lemma wired_known d nm : well_wired d → Exists (λ e, from_node e = nm ∨ to_node e = nm) (edges d) → ∃ e, e ∈ nodes d ∧ name e = nm.
Proof using.
  intros Hw (e & He & Hn)%Exists_exists. unfold well_wired in Hw. rewrite Forall_forall in Hw. destruct (Hw e He) as (f & t & _ & _ & Hf & Ht & _).
  destruct Hn as [<-|<-]; [exists f|exists t]; by apply find_named.
Qed.
End Wiring.

(** ** Properties *)

(** C27. [topological_levels] always returns.  Levels: they hold each node once,
    every node after all the nodes it takes input from and just after one of
    them, so that a node is in the earliest level it can be in; then there is
    no cycle.  An error: there is a cycle, or an edge names a node the graph
    does not have.  Of several nodes of one name the last counts. *)
Theorem topological_levels_correct {N} `{Ports N} (d : Dag N) :
  ∃ r, topological_levels d = Ret r ∧
    match r with
    | inl levels => good_levels d levels ∧ ∀ v, ¬ tc (depends d) v v
    | inr CycleDetected => ∃ v, tc (depends d) v v
    | inr (UnknownNode nm) => (∀ e, e ∈ nodes d → name e ≠ nm) ∧ Exists (λ e, from_node e = nm ∨ to_node e = nm) (edges d)
    | inr _ => False
    end.
Proof.
  destruct (topological_levels_spec d) as (r & E & Hr). exists r. split; [done|]. destruct r as [levels|[]]; try done; [].
  split; [done|]. intros v. by eapply good_levels_acyclic.
Qed.

(** C28. Whatever calls of [add_node], [connect] and [chain] built a graph,
    failed ones included, each of its edges joins an output port and an input
    port that exist, of compatible types; so the levels can fail on a cycle
    only.  [validate] succeeds exactly when there is no cycle and every
    required input port of every node has an edge. *)
Theorem dag_wiring {N} `{Ports N} (ops : list (@op N)) :
  let d := foldl apply_op new ops in
  well_wired d ∧
  ∃ r, validate d = Ret r ∧
    (r = inl () ↔ (∀ v, ¬ tc (depends d) v v) ∧
       ∀ e p, e ∈ nodes d → p ∈ inputs (node e) → required p = true → ∃ ed, ed ∈ edges d ∧ to_node ed = name e ∧ to_port ed = pname p) ∧
    (∀ err, r = inr err → err = CycleDetected ∨ ∃ nm p, err = NotConnected nm p).
Proof.
  intros d. assert (well_wired d) as Hw by (apply ops_spec; constructor). split; [done|].
  unfold validate. destruct (topological_levels_spec d) as (r & -> & Hr). rewrite bind_ret. eexists. split; [done|].
  pose proof (check_nodes_spec (incoming d) (nodes d)) as Hc. setoid_rewrite elem_incoming in Hc.
  destruct r as [levels|err]; cbn.
  - split.
    + rewrite Hc. split; [intros Hall; split; [intros v; by eapply good_levels_acyclic|done]|by intros [_ ?]].
    + clear. generalize (nodes d). intros es. induction es as [|e es IH]; cbn [check_nodes]; [done|]. generalize (inputs (node e)). intros ps err.
      induction ps as [|p ps IHps]; cbn; [apply IH|]. destruct (required p && _); cbn; [|apply IHps]. intros [= <-]. right. by eexists _, _.
  - assert (err = CycleDetected ∧ ∃ v, tc (depends d) v v) as [-> (v & Hv)].
    { destruct err; try done. destruct Hr as [Hno Hex]. exfalso. destruct (wired_known d name0 Hw Hex) as (e & He & Hn). by apply (Hno e). }
    split; [|intros err [= <-]; by left]. split; [done|]. intros [Hno _]. by destruct (Hno v).
Qed.
