(* ===== verification/DagRun.v ===== *)
(** * Running a graph ([luciole/src/runtime.rs])

    The executors run the levels of a graph in order and hand the values a
    node puts on its output ports to the input ports they are connected to.
    A value stays in [port_data] until its last consumer has taken it, by the
    counts of [consumer_counts].  [execute_sequential] runs node after node;
    [execute_dag] runs the nodes of a level at once unless the level has one
    node or the caller is itself a scheduler thread.

    A node's [execute] is a function of the node's state and its inputs; the
    tasks of a level touch only their own node, so that the order the
    scheduler gives them does not matter.  Events, taps, timings and the
    shared services are left out. *)
From stdpp Require Import gmap strings.
From S2P Require Import Prelude Dag.
Import port dag.
Open Scope Z_scope.

Module runtime.

(** What [execute] comes to: outputs and the node's metrics and logs, an
    error, or a panic. *)
Inductive outcome (V M : Type) :=
  | Done (outs : gmap string V) (nr : M)
  | Failed (error : string)
  | Panicked (message : string).
Arguments Done {V M}.
Arguments Failed {V M}.
Arguments Panicked {V M}.

(** The trait [Node].  [skipped] is the result pushed for a skipped node. *)
Class Node (N V M U : Type) := {
  node_ports :: Ports N;
  execute : N → gmap string V → N * outcome V M;
  can_undo : N → bool;
  undo_context : N → option U;
  undo : N → U → N;
  skipped : M;
}.

Section Runtime.
Context {N V M U : Type} `{Node N V M U}.

Abbreviation key := (string * string)%type.

(** The graph and the two maps the executors thread through a run. *)
Record Run := { r_dag : Dag N; port_data : gmap key V; consumer_counts : gmap key Z }.

Definition count_consumers (es : list DagEdge) : gmap key Z :=
  foldl (λ m e, let k := (from_node e, from_port e) in <[k := default 0 (m !! k) + 1]> m) ∅ es.

(** ** [collect_inputs] *)

Definition has_edge (es : list DagEdge) (nm p : string) : bool :=
  existsb (λ e, bool_decide (to_node e = nm ∧ to_port e = p)) es.

(** The initial inputs of the node: values under its own name and a port no
    edge leads to. *)
Definition direct_keys (nm : string) (pd : gmap key V) : list key := filter (λ k, k.1 = nm) (map_to_list pd).*1.
Definition take_direct (es : list DagEdge) (nm : string) (st : gmap string V * gmap key V) (k : key) : gmap string V * gmap key V :=
  let '(inp, pd) := st in
  if has_edge es nm k.2 then st
  else match pd !! k with Some v => (<[k.2 := v]> inp, delete k pd) | None => st end.

(** One edge: the last consumer takes the value out, the others clone the
    shared reference.  A node is given the value: that [PortValue::take]
    panics while another consumer still holds the reference is not
    modelled. *)
Definition take_edge (nm : string) (st : gmap string V * gmap key V * gmap key Z) (e : DagEdge) : gmap string V * gmap key V * gmap key Z :=
  let '(inp, pd, counts) := st in
  if decide (to_node e = nm) then
    let k := (from_node e, from_port e) in
    match counts !! k with
    | Some count =>
        let count := usize_pred count in
        let counts := <[k := count]> counts in
        if count =? 0 then
          match pd !! k with Some v => (<[to_port e := v]> inp, delete k pd, counts) | None => (inp, pd, counts) end
        else match pd !! k with Some v => (<[to_port e := v]> inp, pd, counts) | None => (inp, pd, counts) end
    | None => st
    end
  else st.

Definition collect_inputs (nm : string) (es : list DagEdge) (pd : gmap key V) (counts : gmap key Z) : gmap string V * gmap key V * gmap key Z :=
  let '(inp, pd) := foldl (take_direct es nm) (∅, pd) (direct_keys nm pd) in
  foldl (take_edge nm) (inp, pd, counts) es.

(** [for (port_name, value) in outputs { port_data.insert(..) }]. *)
Definition insert_outputs (nm : string) (outs : gmap string V) (pd : gmap key V) : gmap key V :=
  foldl (λ pd '(p, v), <[(nm, p) := v]> pd) pd (map_to_list outs).

(** ** One node after the other *)

Definition execute_single_node (r : Run) (idx : nat) : out (Run * result M) :=
  match nodes (r_dag r) !! idx with
  | Some e =>
      let '(inp, pd, counts) := collect_inputs (name e) (edges (r_dag r)) (port_data r) (consumer_counts r) in
      let '(n, o) := execute (node e) inp in
      d ← set_node (r_dag r) idx n;
      match o with
      | Done outs nr => Ret ({| r_dag := d; port_data := insert_outputs (name e) outs pd; consumer_counts := counts |}, inl nr)
      | Failed err => Ret ({| r_dag := d; port_data := pd; consumer_counts := counts |}, inr (NodeFailed (name e) err))
      | Panicked _ => Panic
      end
  | None => Panic
  end.

(** The nodes of a level, or of all of them, in order; [results] grows. *)
Fixpoint run_nodes (r : Run) (results : list (string * M)) (idxs : list nat) : out (Run * list (string * M) * result ()) :=
  match idxs with
  | [] => Ret (r, results, inl ())
  | idx :: idxs =>
      nm ← node_name (r_dag r) idx;
      '(r, res) ← execute_single_node r idx;
      match res with
      | inl nr => run_nodes r (results ++ [(nm, nr)]) idxs
      | inr e => Ret (r, results, inr e)
      end
  end.

Record DagResult := { node_results : list (string * M); leaf_outputs : gmap key V }.

Definition start (d : Dag N) (initial : gmap key V) : Run :=
  {| r_dag := d; port_data := initial; consumer_counts := count_consumers (edges d) |}.

Definition execute_sequential (d : Dag N) (initial : gmap key V) : out (Dag N * result DagResult) :=
  levels ← topological_levels d;
  match levels with
  | inr e => Ret (d, inr e)
  | inl levels =>
      '(r, results, res) ← run_nodes (start d initial) [] (concat levels);
      Ret (r_dag r, match res with inl _ => inl {| node_results := results; leaf_outputs := port_data r |} | inr e => inr e end)
  end.

(** ** The nodes of a level at once *)

Definition trigger_unsatisfied (es : list DagEdge) (nm : string) (n : N) (pd : gmap key V) : bool :=
  existsb (λ p, required p && bool_decide (port_type p = Trigger) &&
    negb (existsb (λ e, bool_decide (to_node e = nm ∧ to_port e = pname p) && bool_decide (is_Some (pd !! (from_node e, from_port e)))) es)) (inputs n).

(** A node taken out of the graph for its task. *)
Record Taken := { t_idx : nat; t_name : string; t_inputs : gmap string V; t_node : N }.

Fixpoint take_level (r : Run) (taken_nodes : list Taken) (skips : list (string * M)) (level : list nat) : out (Run * list Taken * list (string * M)) :=
  match level with
  | [] => Ret (r, taken_nodes, skips)
  | idx :: level =>
      match nodes (r_dag r) !! idx with
      | Some e =>
          if trigger_unsatisfied (edges (r_dag r)) (name e) (node e) (port_data r)
          then take_level r taken_nodes (skips ++ [(name e, skipped)]) level
          else
            let '(inp, pd, counts) := collect_inputs (name e) (edges (r_dag r)) (port_data r) (consumer_counts r) in
            '(d, n) ← take_node (r_dag r) idx;
            take_level {| r_dag := d; port_data := pd; consumer_counts := counts |}
              (taken_nodes ++ [{| t_idx := idx; t_name := name e; t_inputs := inp; t_node := n |}]) skips level
      | None => Panic
      end
  end.

(** The wait for every task, in the order of submission. *)
Fixpoint wait_level (r : Run) (results : list (string * M)) (first_err : option DagError) (ts : list Taken) : out (Run * list (string * M) * option DagError) :=
  match ts with
  | [] => Ret (r, results, first_err)
  | t :: ts =>
      let '(n, o) := execute (t_node t) (t_inputs t) in
      d ← put_node (r_dag r) (t_idx t) n;
      let back := {| r_dag := d; port_data := port_data r; consumer_counts := consumer_counts r |} in
      match o, first_err with
      | Done outs nr, None =>
          wait_level {| r_dag := d; port_data := insert_outputs (t_name t) outs (port_data r); consumer_counts := consumer_counts r |}
            (results ++ [(t_name t, nr)]) None ts
      | Done _ _, Some e => wait_level back results (Some e) ts
      | Failed err, None | Panicked err, None => wait_level back results (Some (NodeFailed (t_name t) err)) ts
      | Failed _, Some e | Panicked _, Some e => wait_level back results (Some e) ts
      end
  end.

Definition execute_level_parallel (r : Run) (level : list nat) : out (Run * result (list (string * M))) :=
  '(r, ts, skips) ← take_level r [] [] level;
  '(r, results, first_err) ← wait_level r [] None ts;
  Ret (r, match first_err with Some e => inr e | None => inl (results ++ skips) end).

(** ** [execute_dag] *)

Definition push_undo (d : Dag N) (stack : list (nat * U)) (idx : nat) : out (list (nat * U)) :=
  match nodes d !! idx with
  | Some e => Ret (if can_undo (node e) then match undo_context (node e) with Some u => stack ++ [(idx, u)] | None => stack end else stack)
  | None => Panic
  end.
Fixpoint push_undos (d : Dag N) (stack : list (nat * U)) (idxs : list nat) : out (list (nat * U)) :=
  match idxs with
  | [] => Ret stack
  | idx :: idxs => stack ← push_undo d stack idx; push_undos d stack idxs
  end.

(** An inline level: each node's undo context is kept once it has run. *)
Fixpoint run_inline (r : Run) (results : list (string * M)) (stack : list (nat * U)) (idxs : list nat)
    : out (Run * list (string * M) * list (nat * U) * result ()) :=
  match idxs with
  | [] => Ret (r, results, stack, inl ())
  | idx :: idxs =>
      nm ← node_name (r_dag r) idx;
      '(r, res) ← execute_single_node r idx;
      match res with
      | inl nr => stack ← push_undo (r_dag r) stack idx; run_inline r (results ++ [(nm, nr)]) stack idxs
      | inr e => Ret (r, results, stack, inr e)
      end
  end.

(** [inline i]: the scheduler's answers when level [i] starts. *)
Fixpoint run_levels (inline : nat → bool) (i : nat) (r : Run) (results : list (string * M)) (stack : list (nat * U)) (levels : list (list nat))
    : out (Run * list (string * M) * list (nat * U) * result ()) :=
  match levels with
  | [] => Ret (r, results, stack, inl ())
  | level :: levels =>
      if inline i || (length level =? 1)%nat then
        '(r, results, stack, res) ← run_inline r results stack level;
        match res with
        | inl _ => run_levels inline (S i) r results stack levels
        | inr e => Ret (r, results, stack, inr e)
        end
      else
        '(r, res) ← execute_level_parallel r level;
        match res with
        | inl level_results => stack ← push_undos (r_dag r) stack level; run_levels inline (S i) r (results ++ level_results) stack levels
        | inr e => Ret (r, results, stack, inr e)
        end
  end.

(** The rollback, last node first. *)
Fixpoint rollback (d : Dag N) (stack : list (nat * U)) : out (Dag N) :=
  match stack with
  | [] => Ret d
  | (idx, u) :: stack =>
      match nodes d !! idx with
      | Some e => d ← set_node d idx (undo (node e) u); rollback d stack
      | None => Panic
      end
  end.

Definition execute_dag (inline : nat → bool) (d : Dag N) (initial : gmap key V) : out (Dag N * result DagResult) :=
  levels ← topological_levels d;
  match levels with
  | inr e => Ret (d, inr e)
  | inl levels =>
      '(r, results, stack, res) ← run_levels inline 0 (start d initial) [] [] levels;
      match res with
      | inl _ => Ret (r_dag r, inl {| node_results := results; leaf_outputs := port_data r |})
      | inr e => d ← rollback (r_dag r) (rev stack); Ret (d, inr e)
      end
  end.
End Runtime.
Arguments Run : clear implicits.
Arguments DagResult : clear implicits.
Arguments Taken : clear implicits.

End runtime.
