(* ===== verification/DagFlow.v ===== *)
(** * The values on the ports

    What [port_data] and [consumer_counts] of [DagRun.v] hold at each moment
    of a run, against a map that keeps every value ever put on a port.  [D]
    are the names of the nodes that have run, [T] of those that have taken
    their inputs and not yet given their outputs. *)
From stdpp Require Import gmap strings.
From S2P Require Import Prelude Dag DagLevels DagRun.
Import port dag runtime.
Open Scope Z_scope.

(** ** The data flow *)

Section Flow.
Context {V : Type} (es : list DagEdge) (names : list string) (init : gmap (string * string) V).

Abbreviation key := (string * string)%type.

(** The initial inputs of a node: those no edge leads to. *)
Definition direct_inputs (nm : string) : gmap string V :=
  map_fold (λ k v inp, if decide (k.1 = nm ∧ has_edge es nm k.2 = false) then <[k.2 := v]> inp else inp) ∅ init.

(** The inputs of a node when [E] holds every value put on a port so far. *)
Definition flow_edge (E : gmap key V) (nm : string) (inp : gmap string V) (e : DagEdge) : gmap string V :=
  if decide (to_node e = nm) then
    match E !! (from_node e, from_port e) with Some v => <[to_port e := v]> inp | None => inp end
  else inp.
Definition flow_inputs (E : gmap key V) (nm : string) : gmap string V :=
  foldl (flow_edge E nm) (direct_inputs nm) es.

(** The initial inputs that no node takes as its own. *)
Definition flow_start : gmap key V :=
  filter (λ kv, has_edge es kv.1.1 kv.1.2 = true ∨ kv.1.1 ∉ names) init.

Definition from_key (e : DagEdge) : key := (from_node e, from_port e).

(** The edges that lead out of a port, and those still to be served. *)
Definition leaving (k : key) (l : list DagEdge) : Z := #(filter (λ e, from_key e = k) l).
Definition waiting (served : list string) (k : key) (l : list DagEdge) : Z := #(filter (λ e, from_key e = k ∧ to_node e ∉ served) l).

(** What is on a port, but for the values whose last consumer is served. *)
Definition on_port (D T : list string) (E : gmap key V) (k : key) : option V :=
  if decide (k.1 ∈ T) then (if has_edge es k.1 k.2 then init !! k else None)
  else if decide (k.1 ∈ D) then E !! k else init !! k.

Definition flowing (D T : list string) (E : gmap key V) (pd : gmap key V) (counts : gmap key Z) : Prop :=
  (∀ k, k.1 ∉ D → E !! k = flow_start !! k) ∧
  (∀ k, counts !! k = if decide (leaving k es = 0) then None else Some (waiting (D ++ T) k es)) ∧
  (∀ k, pd !! k = if decide (leaving k es ≠ 0 ∧ waiting (D ++ T) k es = 0) then None else on_port D T E k).

(** Nodes are run after those they take input from. *)
Definition closed (D : list string) : Prop := ∀ e, e ∈ es → to_node e ∈ D → from_node e ∈ D.

(** ** The maps *)

Lemma has_edge_true nm p : has_edge es nm p = true ↔ ∃ e, e ∈ es ∧ to_node e = nm ∧ to_port e = p.
Proof using.
  unfold has_edge. rewrite existsb_exists. split.
  - intros (e & He & Hd%bool_decide_eq_true_1). exists e. by rewrite list_elem_of_In.
  - intros (e & He & Hd). exists e. rewrite <- list_elem_of_In. split; [done|]. by apply bool_decide_eq_true_2.
Qed.

Lemma direct_inputs_lookup nm p : direct_inputs nm !! p = if has_edge es nm p then None else init !! (nm, p).
Proof using.
  unfold direct_inputs. apply (map_fold_weak_ind (λ inp (m : gmap key V), inp !! p = if has_edge es nm p then None else m !! (nm, p))).
  - rewrite !lookup_empty. by destruct (has_edge es nm p).
  - intros [a q] v m inp Hm IH. simpl. case_decide as Hc.
    + destruct Hc as [-> Hq]. destruct (decide (p = q)) as [->|Hne]; [by rewrite Hq, !lookup_insert_eq|].
      rewrite !lookup_insert_ne by congruence. done.
    + rewrite IH. destruct (has_edge es nm p) eqn:Hp; [done|]. rewrite lookup_insert_ne; [done|]. intros [= -> ->]. by apply Hc.
Qed.

Lemma flow_start_lookup k : flow_start !! k = if decide (has_edge es k.1 k.2 = true ∨ k.1 ∉ names) then init !! k else None.
Proof using.
  unfold flow_start. destruct (init !! k) as [v|] eqn:E.
  - case_decide as Hc; [by apply map_lookup_filter_Some_2|]. apply map_lookup_filter_None_2. right. intros w Hw. done.
  - rewrite map_lookup_filter_None_2 by by left. by case_decide.
Qed.

Lemma insert_outputs_lookup (nm : string) (outs : gmap string V) (pd : gmap key V) (k : key) :
  insert_outputs nm outs pd !! k = if decide (k.1 = nm) then match outs !! k.2 with Some v => Some v | None => pd !! k end else pd !! k.
Proof using.
  unfold insert_outputs. assert (∀ l : list (string * V), NoDup l.*1 → ∀ pd : gmap key V, foldl (λ pd '(p, v), <[(nm, p) := v]> pd) pd l !! k =
    if decide (k.1 = nm) then match (list_to_map l : gmap string V) !! k.2 with Some v => Some v | None => pd !! k end else pd !! k) as Hl.
  { clear. destruct k as [a q]. cbn [fst snd]. intros l Hnd. induction l as [|[p v] l IH]; intros pd; [cbn [foldl]; rewrite list_to_map_nil, lookup_empty; by case_decide|].
    apply NoDup_cons in Hnd as [Hp Hnd]. cbn [foldl]. rewrite (IH Hnd), list_to_map_cons. destruct (decide (a = nm)) as [->|Ha].
    - destruct (decide (p = q)) as [->|Hq].
      + by rewrite lookup_insert_eq, (not_elem_of_list_to_map_1 l q Hp), lookup_insert_eq.
      + by rewrite !lookup_insert_ne by congruence.
    - by rewrite lookup_insert_ne by congruence. }
  rewrite Hl by apply NoDup_fst_map_to_list. by rewrite list_to_map_to_list.
Qed.

Lemma waiting_nonneg l s k : 0 ≤ waiting s k l.
Proof. apply len_nonneg. Qed.

Lemma waiting_cons l s k e : waiting s k (e :: l) = (if decide (from_key e = k ∧ to_node e ∉ s) then 1 else 0) + waiting s k l.
Proof. unfold waiting. rewrite filter_cons. case_decide; rewrite ?len_cons; lia. Qed.

Lemma waiting_nil s k : waiting s k [] = 0.
Proof. done. Qed.

Lemma waiting_app s k l l' : waiting s k (l ++ l') = waiting s k l + waiting s k l'.
Proof. apply count_app. Qed.

Lemma waiting_leaving s k l : (∀ e, e ∈ l → from_key e = k → to_node e ∉ s) → waiting s k l = leaving k l.
Proof using. intros Hs. apply count_ext. intros e He. specialize (Hs e He). tauto. Qed.

Lemma waiting_ext s s' k l : (∀ x, x ∈ s ↔ x ∈ s') → waiting s k l = waiting s' k l.
Proof using. intros Hs. apply count_ext. intros e _. by rewrite Hs. Qed.

(** ** Taking the inputs *)

Lemma take_direct_keys (nm : string) ks : NoDup ks → (∀ k, k ∈ ks → k.1 = nm) → ∀ (inp : gmap string V) (pd : gmap key V),
  let '(inp', pd') := foldl (take_direct es nm) (inp, pd) ks in
  (∀ p, inp' !! p = if decide ((nm, p) ∈ ks ∧ has_edge es nm p = false ∧ is_Some (pd !! (nm, p))) then pd !! (nm, p) else inp !! p) ∧
  (∀ k, pd' !! k = if decide (k ∈ ks ∧ has_edge es nm k.2 = false) then None else pd !! k).
Proof using.
  induction ks as [|[a q] ks IH]; intros Hnd Hks inp pd; cbn [foldl].
  { split; intros; rewrite decide_False; [done| |done|]; intros [?%elem_of_nil _]; done. }
  apply NoDup_cons in Hnd as [Hq Hnd]. assert (a = nm) as -> by (apply (Hks (a, q)); by left).
  specialize (IH Hnd (λ k Hk, Hks k ltac:(by right))). unfold take_direct at 2. cbn [snd].
  destruct (has_edge es nm q) eqn:Eq; [|destruct (pd !! (nm, q)) as [v|] eqn:Ev].
  - specialize (IH inp pd). destruct (foldl _ _ ks) as [inp' pd']. destruct IH as [IH1 IH2]. split; intros x; [rewrite IH1|rewrite IH2];
      apply decide_ext; rewrite elem_of_cons; (split; [tauto|]); [intros [[[= ->]|?] ?]; [naive_solver congruence|tauto]|intros [[->|?] ?]; [simpl in *; congruence|tauto]].
  - specialize (IH (<[q := v]> inp) (delete (nm, q) pd)). destruct (foldl _ _ ks) as [inp' pd']. destruct IH as [IH1 IH2]. split.
    + intros p. rewrite IH1. destruct (decide (p = q)) as [->|Hne].
      * rewrite decide_False by tauto. rewrite decide_True; [by rewrite lookup_insert_eq|]. rewrite Ev. split_and!; [by left|done|by eexists].
      * rewrite lookup_insert_ne, lookup_delete_ne by congruence. apply decide_ext. rewrite elem_of_cons. split; [tauto|]. intros [[[= ->]|?] ?]; [done|tauto].
    + intros k. rewrite IH2. destruct (decide (k = (nm, q))) as [->|Hne].
      * rewrite decide_False by tauto. rewrite decide_True by (split; [by left|done]). by rewrite lookup_delete_eq.
      * rewrite lookup_delete_ne by congruence. apply decide_ext. rewrite elem_of_cons. split; [tauto|]. intros [[->|?] ?]; [done|tauto].
  - specialize (IH inp pd). destruct (foldl _ _ ks) as [inp' pd']. destruct IH as [IH1 IH2]. split; intros x; [rewrite IH1|rewrite IH2].
    + apply decide_ext. rewrite elem_of_cons. split; [tauto|]. intros [[[= ->]|?] Hx]; [|tauto]. rewrite Ev in Hx. by destruct Hx as [_ [? ?]].
    + destruct (decide (x = (nm, q))) as [->|Hne]; [repeat case_decide; by rewrite ?Ev|]. apply decide_ext. rewrite elem_of_cons. tauto.
Qed.

Lemma take_direct_spec (nm : string) (pd : gmap key V) : ∃ inp' pd', foldl (take_direct es nm) (∅, pd) (direct_keys nm pd) = (inp', pd') ∧
  (∀ p, inp' !! p = if has_edge es nm p then None else pd !! (nm, p)) ∧
  (∀ k, pd' !! k = if decide (k.1 = nm ∧ has_edge es nm k.2 = false) then None else pd !! k).
Proof using.
  assert (∀ k, k ∈ direct_keys nm pd ↔ k.1 = nm ∧ is_Some (pd !! k)) as Hk.
  { intros k. unfold direct_keys. rewrite list_elem_of_filter, list_elem_of_fmap. f_equiv. split.
    - intros ([k' v] & -> & Hv%elem_of_map_to_list). by eexists.
    - intros [v Hv]. exists (k, v). split; [done|]. by apply elem_of_map_to_list. }
  pose proof (take_direct_keys nm (direct_keys nm pd)) as Hf. specialize (Hf ltac:(apply NoDup_filter, NoDup_fst_map_to_list) (λ k Hin, proj1 (proj1 (Hk k) Hin)) ∅ pd).
  destruct (foldl _ _ _) as [inp' pd']. destruct Hf as [H1 H2]. exists inp', pd'. split; [done|]. split.
  - intros p. rewrite H1. rewrite lookup_empty. case_decide as Hc; [by destruct Hc as (_ & -> & _)|]. destruct (has_edge es nm p) eqn:E; [done|].
    destruct (pd !! (nm, p)) as [v|] eqn:Ev; [|done]. exfalso. apply Hc. rewrite Hk, Ev. split_and!; [done|by eexists|done|by eexists].
  - intros k. rewrite H2. destruct (decide (k ∈ direct_keys nm pd ∧ has_edge es nm k.2 = false)) as [[Hin Hh]|Hno].
    + rewrite decide_True; [done|]. split; [by apply Hk in Hin as [? _]|done].
    + case_decide as Hc; [|done]. destruct Hc as [Hn Hh]. destruct (pd !! k) eqn:Ev; [|done]. exfalso. apply Hno. rewrite Hk, Ev. split_and!; [done|by eexists|done].
Qed.

Section Edges.
Context (nm : string) (s : list string) (E : gmap key V) (P : key → option V) (Hnm : nm ∉ s).
Context (HP : ∀ e, e ∈ es → to_node e = nm → P (from_key e) = E !! from_key e).

Lemma take_edges_spec es2 : ∀ es1 (inp : gmap string V) (pd : gmap key V) counts, es = es1 ++ es2 →
  let W k := waiting (nm :: s) k es1 + waiting s k es2 in
  (∀ k, counts !! k = if decide (leaving k es = 0) then None else Some (W k)) →
  (∀ k, pd !! k = if decide (leaving k es ≠ 0 ∧ W k = 0) then None else P k) →
  ∃ pd' counts', foldl (take_edge nm) (inp, pd, counts) es2 = (foldl (flow_edge E nm) inp es2, pd', counts') ∧
    (∀ k, counts' !! k = if decide (leaving k es = 0) then None else Some (waiting (nm :: s) k es)) ∧
    (∀ k, pd' !! k = if decide (leaving k es ≠ 0 ∧ waiting (nm :: s) k es = 0) then None else P k).
Proof using Hnm HP.
  induction es2 as [|e es2 IH]; intros es1 inp pd counts Ees W Hc Hpd.
  { exists pd, counts. rewrite app_nil_r in Ees. subst es1. split; [done|].
    assert (∀ k, W k = waiting (nm :: s) k es) as HW by (intros k; unfold W; rewrite waiting_nil; lia).
    split; intros k; rewrite <- HW; [apply Hc|apply Hpd]. }
  cbn [foldl]. assert (e ∈ es) as He by (rewrite Ees; apply elem_of_app; right; by left). assert (es = (es1 ++ [e]) ++ es2) as Ees' by (rewrite <- app_assoc; exact Ees).
  assert (∀ k, W k = waiting (nm :: s) k (es1 ++ [e]) + waiting s k es2 + (if decide (from_key e = k ∧ to_node e = nm) then 1 else 0)) as HW.
  { intros k. unfold W. rewrite waiting_app, !waiting_cons, waiting_nil.
    repeat case_decide; rewrite ?elem_of_cons in *; try lia; exfalso; naive_solver. }
  unfold take_edge at 2, flow_edge at 2. destruct (decide (to_node e = nm)) as [Eto|Hto].
  - fold (from_key e). pose proof (HP e He Eto) as EP. remember (from_key e) as k eqn:Hk. assert (leaving k es ≠ 0) as Hleave.
    { unfold leaving. rewrite count_none. intros Hn. by apply (Hn e He). }
    pose proof (waiting_nonneg (es1 ++ [e]) (nm :: s) k). pose proof (waiting_nonneg es2 s k). pose proof (HW k) as HWk. rewrite decide_True in HWk by done.
    rewrite Hc, decide_False by done. unfold usize_pred. rewrite (proj2 (Z.eqb_neq (W k) 0)) by lia.
    rewrite (Hpd k), decide_False, EP by lia.
    assert (∀ k', <[k := W k - 1]> counts !! k' = if decide (leaving k' es = 0) then None else Some (waiting (nm :: s) k' (es1 ++ [e]) + waiting s k' es2)) as Hc'.
    { intros k'. destruct (decide (k = k')) as [<-|Hne]; [rewrite lookup_insert_eq, decide_False by done; f_equal; lia|].
      rewrite lookup_insert_ne, Hc by done. destruct (decide (leaving k' es = 0)); [done|]. f_equal. rewrite HW, decide_False by tauto. lia. }
    destruct (Z.eqb_spec (W k - 1) 0) as [Hz|Hnz].
    + assert (∀ pd' : gmap key V, (∀ k', pd' !! k' = if decide (k' = k) then None else pd !! k') → ∀ k', pd' !! k' =
        if decide (leaving k' es ≠ 0 ∧ waiting (nm :: s) k' (es1 ++ [e]) + waiting s k' es2 = 0) then None else P k') as Hpd'.
      { intros pd' Hd k'. rewrite Hd. destruct (decide (k' = k)) as [->|Hk']; [by rewrite decide_True by (split; [done|lia])|]. rewrite Hpd. apply decide_ext.
        rewrite HW, decide_False by naive_solver. f_equiv. lia. }
      destruct (E !! k) as [v|] eqn:Ek.
      * apply (IH (es1 ++ [e])); [done|done|]. apply Hpd'. intros k'. destruct (decide (k' = k)) as [->|]; [by rewrite lookup_delete_eq|by rewrite lookup_delete_ne].
      * apply (IH (es1 ++ [e])); [done|done|]. apply Hpd'. intros k'. destruct (decide (k' = k)) as [->|]; [|done]. by rewrite Hpd, decide_False by lia.
    + assert (∀ k', pd !! k' = if decide (leaving k' es ≠ 0 ∧ waiting (nm :: s) k' (es1 ++ [e]) + waiting s k' es2 = 0) then None else P k') as Hpd'.
      { intros k'. rewrite Hpd. apply decide_ext. rewrite HW. destruct (decide (k = k')) as [<-|]; [rewrite decide_True by done; lia|].
        rewrite decide_False by tauto. f_equiv. lia. }
      destruct (E !! k) as [v|]; by apply (IH (es1 ++ [e])).
  - apply (IH (es1 ++ [e])); [done| |].
    + intros k. rewrite Hc. destruct (decide (leaving k es = 0)); [done|]. f_equal. rewrite HW, decide_False by tauto. lia.
    + intros k. rewrite Hpd. apply decide_ext. rewrite HW, decide_False by tauto. f_equiv. lia.
Qed.
End Edges.

(** Nothing that leaves a node not yet run has been served. *)
Lemma unserved (D T : list string) nm k : closed D → (∀ e, e ∈ es → to_node e ∈ T → from_node e ∈ D) → nm ∉ D → k.1 = nm →
  waiting (D ++ T) k es = leaving k es.
Proof using.
  intros HD HT Hnm Hk. apply waiting_leaving. intros e He <- Hto. apply Hnm. rewrite <- Hk. cbn [from_key fst].
  apply elem_of_app in Hto as [?|?]; [by apply HD|by apply HT].
Qed.

Lemma flowing_collect D T E pd counts nm : flowing D T E pd counts → closed D → (∀ e, e ∈ es → to_node e ∈ T → from_node e ∈ D) →
  (∀ x, x ∈ T → x ∉ D) → nm ∉ D → nm ∉ T → (∀ e, e ∈ es → to_node e = nm → from_node e ∈ D) →
  ∃ pd' counts', collect_inputs nm es pd counts = (flow_inputs E nm, pd', counts') ∧ flowing D (nm :: T) E pd' counts'.
Proof using.
  intros (HE & Hc & Hpd) HD HT Hdisj HnD HnT Hpre. unfold collect_inputs. destruct (take_direct_spec nm pd) as (inp1 & pd1 & -> & Hinp1 & Hpd1).
  assert (∀ k, k.1 = nm → pd !! k = init !! k) as Hown.
  { intros k Hk. rewrite Hpd, (unserved D T nm k HD HT HnD Hk), decide_False by tauto. unfold on_port. rewrite Hk. by rewrite !decide_False by done. }
  assert (inp1 = direct_inputs nm) as ->.
  { apply map_eq. intros p. rewrite Hinp1, direct_inputs_lookup. destruct (has_edge es nm p); [done|]. by apply Hown. }
  set (P := λ k : key, if decide (k.1 = nm ∧ has_edge es nm k.2 = false) then None else on_port D T E k).
  destruct (take_edges_spec nm (D ++ T) E P) with (es2 := es) (es1 := @nil DagEdge) (inp := direct_inputs nm) (pd := pd1) (counts := counts)
    as (pd' & counts' & Efold & Hc' & Hpd').
  - rewrite elem_of_app. tauto.
  - intros e He Hto. pose proof (Hpre e He Hto) as Hf. unfold P, on_port, from_key. simpl. rewrite decide_False by (intros [Heq _]; apply HnD; by rewrite <- Heq).
    rewrite decide_False by (intros Hin; by apply (Hdisj _ Hin)). by rewrite decide_True.
  - done.
  - intros k. rewrite waiting_nil, Z.add_0_l. apply Hc.
  - intros k. rewrite waiting_nil, Z.add_0_l, Hpd1, Hpd. unfold P. repeat case_decide; done.
  - exists pd', counts'. split; [exact Efold|].
    assert (∀ k, waiting (D ++ nm :: T) k es = waiting (nm :: D ++ T) k es) as Hw.
    { intros k. apply waiting_ext. intros x. rewrite !elem_of_app, !elem_of_cons, elem_of_app. tauto. }
    split_and!; [done|intros k; rewrite Hw; apply Hc'|]. intros k. rewrite Hw, Hpd'. destruct (decide (leaving k es ≠ 0 ∧ _)); [done|]. unfold P, on_port.
    destruct (decide (k.1 = nm)) as [Hk|Hk].
    + rewrite (decide_True (P := k.1 ∈ nm :: T)) by (rewrite Hk; by left). rewrite <- Hk. destruct (has_edge es k.1 k.2) eqn:Eh.
      * rewrite decide_False by (by intros [_ ?]). by rewrite !decide_False by by rewrite Hk.
      * by rewrite decide_True.
    + rewrite decide_False by tauto. destruct (decide (k.1 ∈ T)); [by rewrite decide_True by by right|].
      rewrite (decide_False (P := k.1 ∈ nm :: T)); [done|]. by intros [?|?]%elem_of_cons.
Qed.

(** ** Giving the outputs *)

Lemma flowing_insert D T E pd counts nm outs : flowing D (nm :: T) E pd counts → closed D → (∀ e, e ∈ es → to_node e ∈ nm :: T → from_node e ∈ D) →
  nm ∈ names → nm ∉ D → nm ∉ T → flowing (nm :: D) T (insert_outputs nm outs E) (insert_outputs nm outs pd) counts.
Proof using.
  intros (HE & Hc & Hpd) HD HT Hname HnD HnT.
  assert (∀ k, waiting ((nm :: D) ++ T) k es = waiting (D ++ nm :: T) k es) as Hw.
  { intros k. apply waiting_ext. intros x. rewrite !elem_of_app, !elem_of_cons. tauto. }
  split_and!.
  - intros k Hk. rewrite insert_outputs_lookup, decide_False by (intros Hn; apply Hk; rewrite Hn; by left). apply HE. intros Hin. apply Hk. by right.
  - intros k. rewrite Hw. apply Hc.
  - intros k. rewrite insert_outputs_lookup, Hw, Hpd. unfold on_port. destruct (decide (k.1 = nm)) as [Hk|Hk].
    + assert (waiting (D ++ nm :: T) k es = leaving k es) as Hun by (apply (unserved D (nm :: T) nm); [done|exact HT|done|done]).
      rewrite Hun, !(decide_False (P := leaving k es ≠ 0 ∧ leaving k es = 0)) by tauto. rewrite (decide_False (P := k.1 ∈ T)) by by rewrite Hk.
      rewrite (decide_True (P := k.1 ∈ nm :: D)) by (rewrite Hk; by left). rewrite insert_outputs_lookup, (decide_True (P := k.1 = nm)) by done.
      destruct (outs !! k.2); [done|]. rewrite (decide_True (P := k.1 ∈ nm :: T)) by (rewrite Hk; by left). rewrite HE by by rewrite Hk.
      rewrite flow_start_lookup. destruct (has_edge es k.1 k.2); [by rewrite decide_True by by left|]. rewrite decide_False; [done|].
      rewrite Hk. by intros [?|?].
    + destruct (decide (leaving k es ≠ 0 ∧ _)); [done|]. destruct (decide (k.1 ∈ T)) as [HkT|HkT].
      * by rewrite decide_True by by right.
      * rewrite (decide_False (P := k.1 ∈ nm :: T)) by (by intros [?|?]%elem_of_cons). destruct (decide (k.1 ∈ D)) as [HkD|HkD].
        -- rewrite (decide_True (P := k.1 ∈ nm :: D)) by by right. by rewrite insert_outputs_lookup, decide_False.
        -- rewrite (decide_False (P := k.1 ∈ nm :: D)); [done|]. by intros [?|?]%elem_of_cons.
Qed.

(** The inputs depend only on the values of the nodes that have run. *)
Lemma flow_inputs_ext E E' nm : (∀ e, e ∈ es → to_node e = nm → E !! from_key e = E' !! from_key e) → flow_inputs E nm = flow_inputs E' nm.
Proof using.
  intros HE. unfold flow_inputs. generalize (direct_inputs nm). revert HE. generalize es as l. induction l as [|e l IH]; intros HE inp; [done|].
  cbn [foldl]. unfold flow_edge at 2 4. fold (from_key e). destruct (decide (to_node e = nm)) as [Hto|].
  - rewrite (HE e) by (done || by left). apply IH. intros e' He'. apply HE. by right.
  - apply IH. intros e' He'. apply HE. by right.
Qed.

Lemma flowing_start : flowing [] [] flow_start init (count_consumers es).
Proof using.
  split_and!; [done| |].
  - intros k. unfold count_consumers. assert (∀ l (m : gmap key Z), (∀ k, 0 ≤ default 0 (m !! k)) → foldl (λ m e, let k := (from_node e, from_port e) in
      <[k := default 0 (m !! k) + 1]> m) m l !! k = if decide (leaving k l = 0) then m !! k else Some (default 0 (m !! k) + leaving k l)) as Hl.
    { clear. induction l as [|e l IH]; intros m Hm; [done|]. cbn [foldl]. rewrite IH; cycle 1.
      { intros k'. destruct (decide ((from_node e, from_port e) = k')) as [<-|]; [rewrite lookup_insert_eq|by rewrite lookup_insert_ne].
        cbn. specialize (Hm (from_node e, from_port e)). lia. }
      assert (leaving k (e :: l) = (if decide (from_key e = k) then 1 else 0) + leaving k l) as Hcons.
      { unfold leaving. rewrite filter_cons. destruct (decide (from_key e = k)); rewrite ?len_cons; lia. }
      pose proof (len_nonneg (filter (λ e, from_key e = k) l)) as Hpos. fold (leaving k l) in Hpos. unfold from_key in Hcons.
      destruct (decide ((from_node e, from_port e) = k)) as [Hk|Hk].
      - rewrite Hk, lookup_insert_eq. rewrite (decide_False (P := leaving k (e :: l) = 0)) by lia. simpl. 
        destruct (decide (leaving k l = 0)) as [Hz|]; f_equal; lia.
      - rewrite lookup_insert_ne by done. by rewrite Hcons, Z.add_0_l. }
    rewrite Hl by (intros; by rewrite lookup_empty). rewrite lookup_empty. cbn [default]. destruct (decide (leaving k es = 0)); [done|].
    f_equal. rewrite waiting_leaving by (intros ? _ _; apply not_elem_of_nil). lia.
  - intros k. rewrite waiting_leaving by (intros ? _ _; apply not_elem_of_nil). rewrite decide_False by tauto. unfold on_port.
    by rewrite !decide_False by apply not_elem_of_nil.
Qed.

Lemma flowing_ext D D' T T' E pd counts : (∀ x, x ∈ D ↔ x ∈ D') → (∀ x, x ∈ T ↔ x ∈ T') → flowing D T E pd counts → flowing D' T' E pd counts.
Proof using.
  intros HD HT (HE & Hc & Hpd). assert (∀ k, waiting (D' ++ T') k es = waiting (D ++ T) k es) as Hw.
  { intros k. apply waiting_ext. intros x. by rewrite !elem_of_app, HD, HT. }
  split_and!; [intros k Hk; apply HE; by rewrite HD|intros k; rewrite Hw; apply Hc|].
  intros k. rewrite Hw, Hpd. destruct (decide (leaving k es ≠ 0 ∧ _)); [done|]. unfold on_port.
  rewrite (decide_ext (k.1 ∈ T) (k.1 ∈ T')), (decide_ext (k.1 ∈ D) (k.1 ∈ D')) by done. done.
Qed.

(** A value still to be taken is on its port. *)
Lemma flowing_source D T E pd counts e : flowing D T E pd counts → e ∈ es → to_node e ∉ D ++ T → from_node e ∈ D → from_node e ∉ T →
  pd !! from_key e = E !! from_key e.
Proof using.
  intros (_ & _ & Hpd) He Hto HD HT. rewrite Hpd, decide_False.
  - unfold on_port. rewrite decide_False by done. by rewrite decide_True.
  - intros [_ Hz]. by apply (proj1 (count_none _ _) Hz e He).
Qed.
End Flow.

(** ** What a run computes

    The executors of [DagRun.v] against the data flow of [DagFlow.v]: a
    reference that keeps every value and counts nothing. *)
Import port dag runtime.
Open Scope Z_scope.

Section Reference.
Context {N V M U : Type} `{Node N V M U}.
Implicit Types (d : Dag N) (E init : gmap (string * string) V).

Definition names_of d : list string := name <$> nodes d.

(** The nodes in order, each given the values its edges lead from. *)
Fixpoint flow_nodes (es : list DagEdge) init d E (results : list (string * M)) (idxs : list nat)
    : out (Dag N * gmap (string * string) V * list (string * M) * result ()) :=
  match idxs with
  | [] => Ret (d, E, results, inl ())
  | idx :: idxs =>
      match nodes d !! idx with
      | Some e =>
          let '(n, o) := execute (node e) (flow_inputs es init E (name e)) in
          d ← set_node d idx n;
          match o with
          | Done outs nr => flow_nodes es init d (insert_outputs (name e) outs E) (results ++ [(name e, nr)]) idxs
          | Failed err => Ret (d, E, results, inr (NodeFailed (name e) err))
          | Panicked _ => Panic
          end
      | None => Panic
      end
  end.

(** The result keeps the values no edge leads from. *)
Definition flow_dag d init : out (Dag N * result (DagResult V M)) :=
  levels ← topological_levels d;
  match levels with
  | inr e => Ret (d, inr e)
  | inl levels =>
      '(d', E, results, res) ← flow_nodes (edges d) init d (flow_start (edges d) (names_of d) init) [] (concat levels);
      Ret (d', match res with
               | inl _ => inl {| node_results := results; leaf_outputs := filter (λ kv, leaving kv.1 (edges d) = 0) E |}
               | inr e => inr e
               end)
  end.

(** Every node has its triggers and succeeds. *)
Fixpoint clean_nodes (es : list DagEdge) init d E (idxs : list nat) : bool :=
  match idxs with
  | [] => true
  | idx :: idxs =>
      match nodes d !! idx with
      | Some e =>
          negb (trigger_unsatisfied es (name e) (node e) E) &&
          match execute (node e) (flow_inputs es init E (name e)) with
          | (n, Done outs _) =>
              match set_node d idx n with Ret d => clean_nodes es init d (insert_outputs (name e) outs E) idxs | _ => false end
          | _ => false
          end
      | None => false
      end
  end.
Definition runs_clean d init : bool :=
  match topological_levels d with
  | Ret (inl levels) => clean_nodes (edges d) init d (flow_start (edges d) (names_of d) init) (concat levels)
  | _ => false
  end.

(** ** The graph does not change but for the nodes' states *)

Lemma set_node_spec d idx n e : nodes d !! idx = Some e →
  ∃ d', set_node d idx n = Ret d' ∧ edges d' = edges d ∧ names_of d' = names_of d ∧
    ∀ j, nodes d' !! j = if decide (j = idx) then Some {| name := name e; node := n |} else nodes d !! j.
Proof using.
  intros He. unfold set_node. rewrite He. eexists. split; [done|]. split; [done|]. split.
  - unfold names_of. cbn [nodes]. apply list_eq. intros j. rewrite !list_lookup_fmap.
    destruct (decide (j = idx)) as [->|Hne]; [rewrite list_lookup_insert_eq, He by (by eapply lookup_lt_Some); done|by rewrite list_lookup_insert_ne].
  - intros j. cbn [nodes]. case_decide as Hj; [subst; by rewrite list_lookup_insert_eq by (by eapply lookup_lt_Some)|by rewrite list_lookup_insert_ne].
Qed.

Lemma name_at d idx nm : names_of d !! idx = Some nm ↔ ∃ e, nodes d !! idx = Some e ∧ name e = nm.
Proof using.
  unfold names_of. rewrite list_lookup_fmap. destruct (nodes d !! idx) as [e|]; simpl; [|split; [done|by intros (? & ? & _)]].
  split; [intros [= <-]; by exists e|]. by intros (? & [= <-] & <-).
Qed.
End Reference.

(** ** One node after the other *)

Section Sequential.
Context {N V M U : Type} `{Node N V M U}.
Context (es : list DagEdge) (names : list string) (init : gmap (string * string) V).
Implicit Types (d : Dag N) (E : gmap (string * string) V) (r : Run N V) (results : list (string * M)).

(** The state of a run that is at [E] with [D] done. *)
Definition at_flow (D T : list string) E (r : Run N V) : Prop :=
  edges (r_dag r) = es ∧ flowing es names init D T E (port_data r) (consumer_counts r).

(** Node [nm] may run when [D] has. *)
Definition may_run (D : list string) (nm : string) : Prop :=
  nm ∈ names ∧ (nm ∉ D) ∧ ∀ e, e ∈ es → to_node e = nm → from_node e ∈ D.

Fixpoint scheduled (D nms : list string) : Prop :=
  match nms with
  | [] => True
  | nm :: nms => may_run D nm ∧ scheduled (nm :: D) nms
  end.

Lemma closed_run D nm : closed es D → may_run D nm → closed es (nm :: D).
Proof using. intros HD (_ & _ & Hpre) e He [Hto|Hto]%elem_of_cons; right; [by apply Hpre|by apply HD]. Qed.

(** One node: it gets the inputs of the data flow. *)
Lemma execute_single_node_flow D E r idx e : at_flow D [] E r → closed es D → nodes (r_dag r) !! idx = Some e → may_run D (name e) →
  ∃ n o d', execute (node e) (flow_inputs es init E (name e)) = (n, o) ∧ set_node (r_dag r) idx n = Ret d' ∧
    names_of d' = names_of (r_dag r) ∧ edges d' = es ∧
    match o with
    | Done outs nr => ∃ r', execute_single_node r idx = Ret (r', inl nr) ∧ r_dag r' = d' ∧ at_flow (name e :: D) [] (insert_outputs (name e) outs E) r'
    | Failed err => ∃ r', execute_single_node r idx = Ret (r', inr (NodeFailed (name e) err)) ∧ r_dag r' = d'
    | Panicked _ => execute_single_node r idx = Panic
    end.
Proof using.
  intros [Hes Hfl] HD He (Hname & HnD & Hpre).
  destruct (flowing_collect es names init D [] E _ _ (name e) Hfl HD) as (pd' & counts' & Ec & Hfl'); [by intros ? _ ?%elem_of_nil|by intros ? ?%elem_of_nil|done|
    apply not_elem_of_nil|done|].
  unfold execute_single_node. rewrite He, Hes, Ec. destruct (execute (node e) (flow_inputs es init E (name e))) as [n o] eqn:Ex.
  destruct (set_node_spec (r_dag r) idx n e He) as (d' & Ed & Hed & Hnd & _). exists n, o, d'. rewrite Ed, !bind_ret. split_and!; [done..|congruence|].
  destruct o as [outs nr|err|msg]; [|by eexists|done]. eexists. split; [done|]. split; [done|]. split; [simpl; congruence|].
  apply flowing_insert; [done|done| |done|done|apply not_elem_of_nil].
  intros e' He' Hto%list_elem_of_singleton. by apply Hpre.
Qed.

Lemma run_nodes_flow idxs : ∀ nms D E r results, at_flow D [] E r → closed es D → names_of (r_dag r) = names →
  Forall2 (λ idx nm, names !! idx = Some nm) idxs nms → scheduled D nms →
  match flow_nodes es init (r_dag r) E results idxs with
  | Ret (d', E', results', inl _) => ∃ r', run_nodes r results idxs = Ret (r', results', inl ()) ∧ r_dag r' = d' ∧
      names_of d' = names ∧ at_flow (rev nms ++ D) [] E' r' ∧ closed es (rev nms ++ D)
  | Ret (d', _, results', inr e) => ∃ r', run_nodes r results idxs = Ret (r', results', inr e) ∧ r_dag r' = d'
  | Panic => run_nodes r results idxs = Panic
  | _ => False
  end.
Proof using.
  induction idxs as [|idx idxs IH]; intros nms D E r results Hr HD Hn Hnms Hsch.
  { apply Forall2_nil_inv_l in Hnms as ->. simpl. by exists r. }
  apply Forall2_cons_inv_l in Hnms as (nm & nms' & Hidx & Hnms & ->). destruct Hsch as [Hmay Hsch]. rewrite <- Hn in Hidx.
  apply name_at in Hidx as (e & He & <-). cbn [flow_nodes run_nodes]. unfold node_name. rewrite He, bind_ret.
  destruct (execute_single_node_flow D E r idx e Hr HD He Hmay) as (n & o & d' & -> & -> & Hnd & _ & Ho). rewrite bind_ret.
  destruct o as [outs nr|err|msg]; [| |by rewrite Ho].
  - destruct Ho as (r' & -> & <- & Hr'). rewrite bind_ret. cbn [rev]. rewrite <- app_assoc. cbn [app].
    apply IH; [done|by apply closed_run|congruence|done|done].
  - destruct Ho as (r' & -> & <-). rewrite bind_ret. by exists r'.
Qed.

(** What is left on the ports at the end: what no edge takes. *)
Lemma flow_leaves D E r : at_flow D [] E r → (∀ x, x ∈ names → x ∈ D) → (∀ e, e ∈ es → to_node e ∈ names) →
  port_data r = filter (λ kv, leaving kv.1 es = 0) E.
Proof using.
  intros [_ (HE & _ & Hpd)] HD Hto. apply map_eq. intros k. rewrite Hpd.
  assert (waiting (D ++ []) k es = 0) as Hw.
  { apply count_none. intros e He [_ Hnot]. apply Hnot. rewrite app_nil_r. by apply HD, Hto. }
  rewrite Hw. unfold on_port. rewrite (decide_False (P := k.1 ∈ [])) by apply not_elem_of_nil.
  assert ((if decide (k.1 ∈ D) then E !! k else init !! k) = E !! k) as ->.
  { case_decide as Hk; [done|]. rewrite HE, flow_start_lookup, decide_True by (done || right; intros ?; by apply Hk, HD). done. }
  destruct (decide (leaving k es = 0)) as [Hz|Hnz].
  - rewrite decide_False by tauto. destruct (E !! k) as [v|] eqn:Ek; symmetry; [by apply map_lookup_filter_Some_2|apply map_lookup_filter_None_2; by left].
  - rewrite decide_True by done. symmetry. apply map_lookup_filter_None_2. right. by intros v _.
Qed.
End Sequential.

(** ** The order of the levels *)

Lemma elem_of_rev {A} (x : A) l : x ∈ rev l ↔ x ∈ l.
Proof. by rewrite !list_elem_of_In, <- in_rev. Qed.

Section Order.
Context {N : Type} `{Ports N}.
Implicit Types d : Dag N.

(** Levels by name: the nodes of each may all run once those before have. *)
Fixpoint scheduled_levels (es : list DagEdge) (names D : list string) (lvs : list (list string)) : Prop :=
  match lvs with
  | [] => True
  | lv :: lvs => NoDup lv ∧ (∀ nm, nm ∈ lv → may_run es names D nm) ∧ scheduled_levels es names (rev lv ++ D) lvs
  end.

(** Within a level any order will do. *)
Lemma scheduled_level es names D lv rest : NoDup lv → (∀ nm, nm ∈ lv → may_run es names D nm) →
  scheduled es names (rev lv ++ D) rest → scheduled es names D (lv ++ rest).
Proof using.
  intros Hnd. revert D. induction Hnd as [|nm lv Hnm Hnd IH]; intros D Hmay Hrest; [done|]. cbn [app scheduled]. split; [apply Hmay; by left|].
  apply IH.
  - intros x Hx. destruct (Hmay x ltac:(by right)) as (Hn & HD & Hpre). split_and!; [done| |].
    + intros [->|?]%elem_of_cons; done.
    + intros e He Hto. right. by apply Hpre.
  - cbn [rev] in Hrest. by rewrite <- app_assoc in Hrest.
Qed.

Lemma scheduled_concat es names lvs : ∀ D, scheduled_levels es names D lvs → scheduled es names D (concat lvs).
Proof using.
  induction lvs as [|lv lvs IH]; intros D Hl; [done|]. destruct Hl as (Hnd & Hmay & Hl). cbn [concat]. apply scheduled_level; [done..|by apply IH].
Qed.

Definition name_of d (idx : nat) : string := default EmptyString (names_of d !! idx).

Lemma name_of_lookup d idx : (idx < length (nodes d))%nat → names_of d !! idx = Some (name_of d idx).
Proof using.
  intros Hlt. unfold name_of. destruct (lookup_lt_is_Some_2 (names_of d) idx) as [nm E]; [unfold names_of; by rewrite length_fmap|]. by rewrite E.
Qed.

(** With distinct names an index is the last of its name. *)
Lemma last_named_unique d idx nm : NoDup (names_of d) → names_of d !! idx = Some nm → last_named (nodes d) nm idx.
Proof using.
  intros Hnd Hi. pose proof Hi as (e & He & Hn)%name_at. exists e. split_and!; [done..|]. intros j e' Hj Hn'.
  assert (names_of d !! j = Some nm) as Hj' by (apply name_at; by exists e'). assert (j = idx) as -> by (by eapply NoDup_lookup). done.
Qed.

Lemma levels_scheduled d levels : NoDup (names_of d) → well_wired d → good_levels d levels →
  scheduled_levels (edges d) (names_of d) [] (map (map (name_of d)) levels).
Proof using.
  intros Hnd Hw [Hperm Hlay]. assert (NoDup (concat levels)) as Hndl by (rewrite Hperm; apply NoDup_seq).
  assert (∀ v, v ∈ concat levels → (v < length (nodes d))%nat) as Hlt by (intros v Hv; rewrite Hperm, elem_of_seq in Hv; lia).
  assert (∀ u v, u ∈ concat levels → v ∈ concat levels → name_of d u = name_of d v → u = v) as Hinj.
  { intros u v Hu Hv He. eapply (NoDup_lookup (names_of d)); [done|by apply name_of_lookup, Hlt|]. rewrite He. by apply name_of_lookup, Hlt. }
  assert (∀ ls2 ls1, levels = ls1 ++ ls2 → scheduled_levels (edges d) (names_of d) (rev (map (name_of d) (concat ls1))) (map (map (name_of d)) ls2)) as Hgo;
    [|by apply (Hgo levels [])].
  induction ls2 as [|lv ls2 IH]; intros ls1 El; [done|]. cbn [map scheduled_levels].
  assert (concat levels = concat ls1 ++ lv ++ concat ls2) as Ec by (by rewrite El, concat_app).
  rewrite Ec in Hndl. pose proof Hndl as (_ & Hdisj & (Hndlv & _)%NoDup_app)%NoDup_app.
  assert (∀ v, v ∈ lv → v ∈ concat levels) as Hin by (intros v Hv; rewrite Ec, !elem_of_app; tauto).
  split_and!.
  - apply (NoDup_fmap_2_strong (name_of d)); [|done]. intros u v Hu Hv. apply Hinj; by apply Hin.
  - intros nm (v & -> & Hv)%list_elem_of_fmap. split_and!.
    + eapply list_elem_of_lookup_2. by apply name_of_lookup, Hlt, Hin.
    + rewrite elem_of_rev. intros (u & He & Hu)%list_elem_of_fmap. assert (v = u) as ->.
      { apply Hinj; [by apply Hin|rewrite Ec, !elem_of_app; tauto|done]. }
      apply (Hdisj u Hu), elem_of_app. by left.
    + intros e He Hto. unfold well_wired in Hw. rewrite Forall_forall in Hw. destruct (Hw e He) as (f & _ & _ & _ & Hf & _).
      apply find_named in Hf as [Hf Hfn]. apply list_elem_of_lookup_1 in Hf as [u Hu].
      assert (names_of d !! u = Some (from_node e)) as Hun by (apply name_at; by exists f).
      assert (levels !! length ls1 = Some lv) as Hl by (rewrite El; by apply list_lookup_middle).
      destruct (proj1 (Hlay _ lv v Hl Hv) u) as (j & lu & Hj & Hlu & Hul).
      { exists e. split_and!; [done|by apply last_named_unique|]. apply last_named_unique; [done|]. rewrite Hto. by apply name_of_lookup, Hlt, Hin. }
      rewrite elem_of_rev. apply list_elem_of_fmap. exists u. split; [unfold name_of; by rewrite Hun|]. apply in_levels. exists j, lu.
      split; [|done]. rewrite El, lookup_app_l in Hlu by done. done.
  - rewrite <- rev_app_distr, <- map_app, <- concat_snoc. apply IH. by rewrite <- app_assoc.
Qed.
End Order.

(** ** A level at once *)

Lemma existsb_ext {A} (f g : A → bool) l : (∀ x, x ∈ l → f x = g x) → existsb f l = existsb g l.
Proof. induction l as [|x l IH]; [done|]. intros Hfg. cbn [existsb]. rewrite (Hfg x) by by left. f_equal. apply IH. intros y ?. apply Hfg. by right. Qed.

Section Parallel.
Context {N V M U : Type} `{Node N V M U}.
Context (es : list DagEdge) (names : list string) (init : gmap (string * string) V).
Implicit Types (d : Dag N) (E : gmap (string * string) V) (r : Run N V) (results : list (string * M)).

(** The graph while the nodes [T] are out on their tasks. *)
Definition out_on_tasks d (T : list nat) d' : Prop :=
  edges d' = edges d ∧ ∀ j, nodes d' !! j = if decide (j ∈ T) then (λ e, {| name := name e; node := taken |}) <$> nodes d !! j else nodes d !! j.

Lemma out_none d d' : out_on_tasks d [] d' → d' = d.
Proof using.
  intros [He Hn]. destruct d as [ns es1], d' as [ns' es']. simpl in *. f_equal; [|done]. apply list_eq. intros j. by rewrite Hn.
Qed.

(** The task of a node of the level, whose inputs are those of [E]. *)
Definition task d E (idx : nat) : option (Taken N V) :=
  (λ e, {| t_idx := idx; t_name := name e; t_inputs := flow_inputs es init E (name e); t_node := node e |}) <$> nodes d !! idx.

Lemma task_cons d E idx e lv : nodes d !! idx = Some e → omap (task d E) (idx :: lv) =
  {| t_idx := idx; t_name := name e; t_inputs := flow_inputs es init E (name e); t_node := node e |} :: omap (task d E) lv.
Proof using. intros He. cbn. unfold task at 1. by rewrite He. Qed.

Lemma trigger_ext (nm : string) (n : N) (pd E : gmap (string * string) V) : (∀ e, e ∈ es → to_node e = nm → pd !! from_key e = E !! from_key e) →
  trigger_unsatisfied es nm n pd = trigger_unsatisfied es nm n E.
Proof using.
  intros Hpd. unfold trigger_unsatisfied. apply existsb_ext. intros p _. do 2 f_equal. apply existsb_ext. intros e He.
  case_bool_decide as Hto; [|done]. destruct Hto as [Hto _]. specialize (Hpd e He Hto). unfold from_key in Hpd. by rewrite Hpd.
Qed.

Lemma take_level_flow d E D : closed es D → ∀ lv nms T Tn ts skips r, at_flow es names init D Tn E r → out_on_tasks d T (r_dag r) →
  (∀ x, x ∈ Tn → (x ∉ D) ∧ ∀ e, e ∈ es → to_node e = x → from_node e ∈ D) →
  Forall2 (λ idx nm, ∃ e, nodes d !! idx = Some e ∧ name e = nm ∧ trigger_unsatisfied es nm (node e) E = false) lv nms →
  NoDup nms → NoDup lv → (∀ nm, nm ∈ nms → may_run es names D nm ∧ nm ∉ Tn) → (∀ idx, idx ∈ lv → idx ∉ T) →
  ∃ r', take_level r ts skips lv = Ret (r', ts ++ omap (task d E) lv, skips) ∧ at_flow es names init D (rev nms ++ Tn) E r' ∧
    out_on_tasks d (rev lv ++ T) (r_dag r').
Proof using.
  intros HD. induction lv as [|idx lv IH]; intros nms T Tn ts skips r Hr Hout HTn Hlv Hndn Hndl Hmay HT.
  { apply Forall2_nil_inv_l in Hlv as ->. exists r. simpl. by rewrite app_nil_r. }
  apply Forall2_cons_inv_l in Hlv as (nm & nms' & (e & He & <- & Htrig) & Hlv & ->). apply NoDup_cons in Hndn as [Hnm Hndn]. apply NoDup_cons in Hndl as [Hidx Hndl].
  destruct (Hmay (name e) ltac:(by left)) as [(Hname & HnD & Hpre) HnT]. destruct Hr as [Hes Hfl]. pose proof Hout as [Hed Hns].
  assert (nodes (r_dag r) !! idx = Some e) as He' by (rewrite Hns, decide_False by (apply HT; by left); done).
  cbn [take_level]. rewrite He', Hes. rewrite (trigger_ext (name e) (node e) (port_data r) E), Htrig; cycle 1.
  { intros e' He1 Hto. apply (flowing_source es names init D Tn E _ _ e' Hfl He1); [|by apply Hpre|].
    - rewrite Hto, elem_of_app. tauto.
    - intros HinT. destruct (HTn _ HinT) as [Hno _]. by apply Hno, Hpre. }
  destruct (flowing_collect es names init D Tn E _ _ (name e) Hfl HD) as (pd' & counts' & -> & Hfl'); [|by intros x Hx; apply HTn|done|done|done|].
  { intros e' He1 Hto. by apply (proj2 (HTn _ Hto)). }
  unfold take_node. rewrite He'. destruct (set_node_spec (r_dag r) idx taken e He') as (d1 & -> & Hed1 & _ & Hns1). rewrite !bind_ret.
  destruct (IH nms' (idx :: T) (name e :: Tn) (ts ++ [{| t_idx := idx; t_name := name e; t_inputs := flow_inputs es init E (name e); t_node := node e |}]) skips
    {| r_dag := d1; port_data := pd'; consumer_counts := counts' |}) as (r' & -> & Hr' & Hout').
  - split; [simpl; congruence|done].
  - split; [simpl; congruence|]. intros j. simpl. rewrite Hns1, Hns. destruct (decide (j = idx)) as [->|Hj].
    + rewrite decide_True by by left. by rewrite He.
    + destruct (decide (j ∈ T)); [by rewrite decide_True by by right|]. rewrite decide_False; [done|]. by intros [?|?]%elem_of_cons.
  - intros x [->|Hx]%elem_of_cons; [split; [done|exact Hpre]|by apply HTn].
  - done.
  - done.
  - done.
  - intros nm Hn. destruct (Hmay nm ltac:(by right)) as [? ?]. split; [done|]. intros [->|?]%elem_of_cons; done.
  - intros j Hj [->|?]%elem_of_cons; [done|]. by apply (HT j); [right|].
  - exists r'. split; [|split].
    + rewrite (task_cons d E idx e lv He). by rewrite <- app_assoc.
    + cbn [rev]. by rewrite <- app_assoc.
    + cbn [rev]. by rewrite <- app_assoc.
Qed.

(** A clean node: its triggers are there and it succeeds. *)
Lemma clean_cons d E idx lv : clean_nodes es init d E (idx :: lv) = true →
  ∃ e n outs nr d', nodes d !! idx = Some e ∧ trigger_unsatisfied es (name e) (node e) E = false ∧
    execute (node e) (flow_inputs es init E (name e)) = (n, Done outs nr) ∧ set_node d idx n = Ret d' ∧
    clean_nodes es init d' (insert_outputs (name e) outs E) lv = true ∧
    ∀ results rest, flow_nodes es init d E results (idx :: rest) = flow_nodes es init d' (insert_outputs (name e) outs E) (results ++ [(name e, nr)]) rest.
Proof using.
  cbn [clean_nodes flow_nodes]. destruct (nodes d !! idx) as [e|] eqn:He; [|done]. intros [Ht Hc]%andb_true_iff. apply negb_true_iff in Ht.
  destruct (execute (node e) (flow_inputs es init E (name e))) as [n o] eqn:Ex. destruct o as [outs nr|err|msg]; [|done..].
  destruct (set_node d idx n) as [d'| | |] eqn:Ed; [|done..]. exists e, n, outs, nr, d'. split_and!; [done..|]. intros results rest. by rewrite bind_ret.
Qed.

(** Sources of the level's nodes are in [D0]; [E] says of them what [E0] does. *)
Definition same_sources (D0 : list string) E0 E : Prop := ∀ k : string * string, k.1 ∈ D0 → E !! k = E0 !! k.

Lemma same_sources_insert D0 E0 E nm outs : same_sources D0 E0 E → nm ∉ D0 → same_sources D0 E0 (insert_outputs nm outs E).
Proof using. intros Hs Hnm k Hk. rewrite insert_outputs_lookup, decide_False by (intros He; by rewrite He in Hk). by apply Hs. Qed.

Lemma same_sources_inputs D0 E0 E nm : same_sources D0 E0 E → (∀ e, e ∈ es → to_node e = nm → from_node e ∈ D0) →
  flow_inputs es init E nm = flow_inputs es init E0 nm ∧ ∀ n : N, trigger_unsatisfied es nm n E = trigger_unsatisfied es nm n E0.
Proof using.
  intros Hs Hpre. assert (∀ e, e ∈ es → to_node e = nm → E !! from_key e = E0 !! from_key e) as Hk by (intros e He Hto; apply Hs; by apply Hpre).
  split; [by apply flow_inputs_ext|]. intros n. by apply trigger_ext.
Qed.

(** Every node of a clean level has its triggers before any of them runs. *)
Lemma clean_triggers D0 E0 d0 lv : ∀ nms d E, clean_nodes es init d E lv = true → same_sources D0 E0 E →
  Forall2 (λ idx nm, names_of d !! idx = Some nm) lv nms → (∀ nm, nm ∈ nms → may_run es names D0 nm) → NoDup lv →
  (∀ idx, idx ∈ lv → nodes d !! idx = nodes d0 !! idx) →
  Forall2 (λ idx nm, ∃ e, nodes d0 !! idx = Some e ∧ name e = nm ∧ trigger_unsatisfied es nm (node e) E0 = false) lv nms.
Proof using.
  induction lv as [|idx lv IH]; intros nms d E Hc Hs Hlv Hmay Hnd Hsame; [by apply Forall2_nil_inv_l in Hlv as ->|].
  apply Forall2_cons_inv_l in Hlv as (nm & nms' & Hidx & Hlv & ->). apply NoDup_cons in Hnd as [Hnot Hnd].
  destruct (clean_cons d E idx lv Hc) as (e & n & outs & nr & d' & He & Ht & _ & Ed & Hc' & _).
  apply name_at in Hidx as (e1 & He1 & <-). assert (e1 = e) as -> by congruence.
  destruct (Hmay (name e) ltac:(by left)) as (_ & HnD & Hpre). destruct (same_sources_inputs D0 E0 E (name e) Hs Hpre) as [_ Htr].
  destruct (set_node_spec d idx n e He) as (d1 & Ed1 & _ & Hnames & Hns). assert (d1 = d') as -> by congruence.
  constructor; [exists e; split_and!; [rewrite <- Hsame; [done|by left]|done|by rewrite <- Htr]|].
  apply (IH nms' d' (insert_outputs (name e) outs E)); [done|by apply same_sources_insert|by rewrite Hnames|intros; apply Hmay; by right|done|].
  intros j Hj. rewrite Hns, decide_False by (by intros ->). apply Hsame. by right.
Qed.

Lemma wait_level_flow D0 E0 d0 lv : ∀ nms D d E r pre results, at_flow es names init D nms E r → closed es D → (∀ x, x ∈ D0 → x ∈ D) →
  clean_nodes es init d E lv = true → same_sources D0 E0 E → edges d = es →
  Forall2 (λ idx nm, names_of d !! idx = Some nm) lv nms → (∀ nm, nm ∈ nms → may_run es names D0 nm ∧ nm ∉ D) → NoDup nms → NoDup lv →
  (∀ idx, idx ∈ lv → nodes d !! idx = nodes d0 !! idx) → out_on_tasks d lv (r_dag r) →
  ∃ d' E' results' r', flow_nodes es init d E (pre ++ results) lv = Ret (d', E', pre ++ results', inl ()) ∧
    wait_level r results None (omap (task d0 E0) lv) = Ret (r', results', None) ∧ r_dag r' = d' ∧ names_of d' = names_of d ∧
    at_flow es names init (rev nms ++ D) [] E' r' ∧ closed es (rev nms ++ D).
Proof using.
  induction lv as [|idx lv IH]; intros nms D d E r pre results Hr HD HD0 Hc Hs Hed Hlv Hmay Hndn Hnd Hsame Hout.
  { apply Forall2_nil_inv_l in Hlv as ->. exists d, E, results, r. apply out_none in Hout. by split_and!. }
  apply Forall2_cons_inv_l in Hlv as (nm & nms' & Hidx & Hlv & ->). apply NoDup_cons in Hnd as [Hnot Hnd]. apply NoDup_cons in Hndn as [Hnotn Hndn].
  destruct (clean_cons d E idx lv Hc) as (e & n & outs & nr & d' & He & Ht & Hex & Ed & Hc' & Hflow).
  apply name_at in Hidx as (e1 & He1 & <-). assert (e1 = e) as -> by congruence.
  destruct (Hmay (name e) ltac:(by left)) as [(Hname & _ & Hpre) HnD]. destruct (same_sources_inputs D0 E0 E (name e) Hs Hpre) as [Hinp _].
  destruct (set_node_spec d idx n e He) as (d1 & Ed1 & Hed1 & Hnames & Hns). assert (d1 = d') as -> by congruence.
  rewrite (task_cons d0 E0 idx e lv) by (rewrite <- Hsame by (by left); done). cbn [wait_level t_node t_inputs t_idx t_name]. rewrite <- Hinp, Hex.
  destruct Hout as [Hedr Hnsr]. assert (nodes (r_dag r) !! idx = Some {| name := name e; node := taken |}) as Her by (rewrite Hnsr, He, decide_True by (by left); done).
  unfold put_node. destruct (set_node_spec (r_dag r) idx n _ Her) as (d2 & -> & Hed2 & _ & Hns2). rewrite bind_ret. destruct Hr as [Hes Hfl].
  destruct (IH nms' (name e :: D) d' (insert_outputs (name e) outs E) {| r_dag := d2; port_data := insert_outputs (name e) outs (port_data r); consumer_counts := consumer_counts r |}
    pre (results ++ [(name e, nr)])) as (d3 & E3 & results3 & r3 & Hf3 & Hw3 & Hd3 & Hn3 & Hr3 & HD3).
  - split; [simpl; congruence|]. apply flowing_insert; [done|done| |done|done|done]. intros e' He' Hto. apply HD0.
    by apply (proj1 (Hmay _ Hto)).
  - intros e' He' [Hto|Hto]%elem_of_cons; right; [by apply HD0, Hpre|by apply HD].
  - intros x Hx. right. by apply HD0.
  - done.
  - apply same_sources_insert; [done|]. intros Hin. by apply HnD, HD0.
  - congruence.
  - by rewrite Hnames.
  - intros x Hx. destruct (Hmay x ltac:(by right)) as [? ?]. split; [done|]. intros [->|?]%elem_of_cons; done.
  - done.
  - done.
  - intros j Hj. rewrite Hns, decide_False by (by intros ->). apply Hsame. by right.
  - split; [simpl; congruence|]. intros j. simpl. rewrite Hns2, Hns. destruct (decide (j = idx)) as [->|Hj].
    + by rewrite decide_False.
    + rewrite Hnsr. apply decide_ext. rewrite elem_of_cons. tauto.
  - exists d3, E3, results3, r3. rewrite Hflow, <- app_assoc. cbn [rev]. rewrite <- app_assoc. split_and!; [done..|congruence|done|done].
Qed.

Lemma clean_app l : ∀ d E rest, clean_nodes es init d E (l ++ rest) = true →
  clean_nodes es init d E l = true ∧ ∃ d' E' rs, clean_nodes es init d' E' rest = true ∧
    ∀ results tail, flow_nodes es init d E results (l ++ tail) = flow_nodes es init d' E' (results ++ rs) tail.
Proof using.
  induction l as [|idx l IH]; intros d E rest Hc.
  { split; [done|]. exists d, E, []. split; [done|]. intros results tail. by rewrite app_nil_r. }
  destruct (clean_cons d E idx (l ++ rest) Hc) as (e & n & outs & nr & d1 & He & Ht & Hex & Ed & Hc1 & Hflow1).
  destruct (IH d1 _ rest Hc1) as (Hl & d' & E' & rs & Hrest & Hflow). split.
  { cbn [clean_nodes]. by rewrite He, Ht, Hex, Ed. }
  exists d', E', ((name e, nr) :: rs). split; [done|]. intros results tail. rewrite <- app_comm_cons, Hflow1, Hflow. by rewrite <- app_assoc.
Qed.

(** What both ways of running a clean level come to. *)
Definition level_done (D nms : list string) E r lv (run : Run N V → list (string * M) → Prop) : Prop :=
  ∃ E' rs r', (∀ results tail, flow_nodes es init (r_dag r) E results (lv ++ tail) = flow_nodes es init (r_dag r') E' (results ++ rs) tail) ∧
    (∀ rest, clean_nodes es init (r_dag r) E (lv ++ rest) = true → clean_nodes es init (r_dag r') E' rest = true) ∧
    run r' rs ∧ names_of (r_dag r') = names ∧ at_flow es names init (rev nms ++ D) [] E' r' ∧ closed es (rev nms ++ D).

(** A clean level as the data flow says, from what a run of it says. *)
Lemma level_done_intro D nms E r lv run : clean_nodes es init (r_dag r) E lv = true →
  (∃ d' E' rs r', flow_nodes es init (r_dag r) E [] lv = Ret (d', E', rs, inl ()) ∧ run r' rs ∧ r_dag r' = d' ∧ names_of d' = names ∧
    at_flow es names init (rev nms ++ D) [] E' r' ∧ closed es (rev nms ++ D)) → level_done D nms E r lv run.
Proof using.
  intros Hc (d' & E' & rs & r' & Hf & Hrun & <- & Hn & Hr' & HD').
  assert (∀ rest, clean_nodes es init (r_dag r) E (lv ++ rest) = true →
    clean_nodes es init (r_dag r') E' rest = true ∧ ∀ results tail, flow_nodes es init (r_dag r) E results (lv ++ tail) = flow_nodes es init (r_dag r') E' (results ++ rs) tail) as Hgo.
  { intros rest Hrest. destruct (clean_app lv (r_dag r) E rest Hrest) as (_ & d1 & E1 & rs1 & Hc1 & Hflow).
    pose proof (Hflow [] []) as H1. rewrite app_nil_r, Hf in H1. cbn in H1. injection H1 as <- <- <-. done. }
  exists E', rs, r'. split_and!; [|intros; by apply Hgo|done..]. apply (Hgo []). by rewrite app_nil_r.
Qed.

Lemma parallel_level_flow D E r lv nms : at_flow es names init D [] E r → closed es D → names_of (r_dag r) = names →
  clean_nodes es init (r_dag r) E lv = true → Forall2 (λ idx nm, names !! idx = Some nm) lv nms → NoDup lv → NoDup nms →
  (∀ nm, nm ∈ nms → may_run es names D nm) → level_done D nms E r lv (λ r' rs, execute_level_parallel r lv = Ret (r', inl rs)).
Proof using.
  intros Hr HD Hn Hc Hlv Hndl Hndn Hmay. apply level_done_intro; [done|]. rewrite <- Hn in Hlv. pose proof Hr as [Hes _].
  pose proof (clean_triggers D E (r_dag r) lv nms (r_dag r) E Hc ltac:(done) Hlv Hmay Hndl ltac:(done)) as Htr.
  destruct (take_level_flow (r_dag r) E D HD lv nms [] [] [] [] r) as (r1 & Etake & [Hes1 Hr1] & Hout1); [done|done|by intros ? ?%elem_of_nil|done..| |intros; apply not_elem_of_nil|].
  { intros nm Hnm. split; [by apply Hmay|apply not_elem_of_nil]. }
  assert (at_flow es names init D nms E r1) as Hr1'.
  { split; [done|]. eapply flowing_ext; [done| |exact Hr1]. intros x. by rewrite app_nil_r, elem_of_rev. }
  assert (out_on_tasks (r_dag r) lv (r_dag r1)) as Hout.
  { destruct Hout1 as [He1 Hn1]. split; [done|]. intros j. rewrite Hn1. apply decide_ext. by rewrite app_nil_r, elem_of_rev. }
  destruct (wait_level_flow D E (r_dag r) lv nms D (r_dag r) E r1 [] []) as (d' & E' & rs & r' & Hf & Hw & Hd & Hnames & Hr' & HD'); try done.
  { intros nm Hnm. split; [by apply Hmay|]. by destruct (Hmay nm Hnm) as (_ & ? & _). }
  exists d', E', rs, r'. split_and!; [done| |done|congruence|done..].
  unfold execute_level_parallel. rewrite Etake. rewrite bind_ret. cbn [app]. rewrite Hw, bind_ret. by rewrite app_nil_r.
Qed.
End Parallel.
