(* ===== verification/DagNodes.v ===== *)
(** * Nodes that decide ([luciole/src/node.rs], [branch.rs], [gate.rs])

    The context a node runs in, the switch and the gate.  A closure the code calls ([FnMut]) is a function of
    the values it has captured. *)
From stdpp Require Import gmap strings pretty.
From S2P Require Import Prelude Dag DagRun.
Import port dag runtime.
Open Scope Z_scope.

Module nodes.

(** [PortValue] of [port.rs]; the data is of any one type. *)
Inductive PortValue (A : Type) := Data (a : A) | TriggerValue.
Arguments Data {A}.
Arguments TriggerValue {A}.
Definition is_trigger {A} (v : PortValue A) : bool := match v with TriggerValue => true | Data _ => false end.

Inductive LogLevel := Debug | Info | Warn | Error.

(** The constructors of [PortDef]. *)
Definition required_port (nm : string) (ty : PortType) : PortDef := {| pname := nm; port_type := ty; required := true |}.
Definition optional_port (nm : string) (ty : PortType) : PortDef := {| pname := nm; port_type := ty; required := false |}.
Definition trigger_port (nm : string) : PortDef := {| pname := nm; port_type := Trigger; required := true |}.

(** A node's metrics and logs.  The metrics are whole numbers here. *)
Record NodeResult := { metrics : list (string * Z); logs : list (LogLevel * string) }.

Section Nodes.
Context {A : Type}.
Implicit Types (port msg : string).

Record NodeContext := {
  c_inputs : gmap string (PortValue A);
  c_outputs : gmap string (PortValue A);
  c_result : NodeResult;
}.

Definition context_new (inp : gmap string (PortValue A)) : NodeContext :=
  {| c_inputs := inp; c_outputs := ∅; c_result := {| metrics := []; logs := [] |} |}.

Definition input (c : NodeContext) port : option (PortValue A) := c_inputs c !! port.
Definition take_input (c : NodeContext) port : NodeContext * option (PortValue A) :=
  ({| c_inputs := delete port (c_inputs c); c_outputs := c_outputs c; c_result := c_result c |}, c_inputs c !! port).
Definition has_trigger (c : NodeContext) port : bool := default false (is_trigger <$> c_inputs c !! port).
Definition set_output (c : NodeContext) port (v : PortValue A) : NodeContext :=
  {| c_inputs := c_inputs c; c_outputs := <[port := v]> (c_outputs c); c_result := c_result c |}.
Definition trigger (c : NodeContext) port : NodeContext := set_output c port TriggerValue.
Definition metric (c : NodeContext) (k : string) (v : Z) : NodeContext :=
  {| c_inputs := c_inputs c; c_outputs := c_outputs c;
     c_result := {| metrics := metrics (c_result c) ++ [(k, v)]; logs := logs (c_result c) |} |}.
Definition log (c : NodeContext) (lv : LogLevel) msg : NodeContext :=
  {| c_inputs := c_inputs c; c_outputs := c_outputs c;
     c_result := {| metrics := metrics (c_result c); logs := logs (c_result c) ++ [(lv, msg)] |} |}.

(** The part of [execute_single_node] around a node's [execute]. *)
Definition outcome_of (r : NodeContext * (unit + string)) : outcome (PortValue A) NodeResult :=
  match r with
  | (c, inl _) => Done (c_outputs c) (c_result c)
  | (_, inr err) => Failed err
  end.

(** ** [SwitchNode] and [BranchNode] *)

Record SwitchNode (S : Type) := { sw_outputs : list string; selector : S → S * nat; sw_captured : S }.
Arguments sw_outputs {S}.
Arguments selector {S}.
Arguments sw_captured {S}.

Definition switch_inputs : list PortDef := [trigger_port "trigger"].
Definition switch_outputs {S} (n : SwitchNode S) : list PortDef := map trigger_port (sw_outputs n).

Definition switch_execute {S} (n : SwitchNode S) (c : NodeContext) : SwitchNode S * (NodeContext * (unit + string)) :=
  let '(s, idx) := selector n (sw_captured n) in
  let n := {| sw_outputs := sw_outputs n; selector := selector n; sw_captured := s |} in
  match sw_outputs n !! idx with
  | Some o => (n, (metric (trigger c o) "switch_index" (Z.of_nat idx), inl ()))
  | None => (n, (c, inr ("switch selector returned " +:+ pretty idx +:+ " but only " +:+ pretty (length (sw_outputs n)) +:+ " outputs defined")%string))
  end.

Definition BranchNode {S} (condition : S → S * bool) (s : S) : SwitchNode S :=
  {| sw_outputs := ["then"; "else"]%string;
     selector := λ s, let '(s, b) := condition s in (s, if b then 0%nat else 1%nat);
     sw_captured := s |}.

(** ** [GateNode] *)

Record GateNode (S : Type) := { condition : S → S * bool; g_captured : S }.
Arguments condition {S}.
Arguments g_captured {S}.

Definition gate_inputs : list PortDef := [trigger_port "trigger"; optional_port "data" Any].
Definition gate_outputs : list PortDef := [trigger_port "pass"; optional_port "data_out" Any].

Definition gate_execute {S} (n : GateNode S) (c : NodeContext) : GateNode S * (NodeContext * (unit + string)) :=
  let '(s, b) := condition n (g_captured n) in
  let n := {| condition := condition n; g_captured := s |} in
  if b then
    let '(c, data) := take_input (trigger c "pass") "data" in
    let c := match data with Some v => set_output c "data_out" v | None => c end in
    (n, (metric c "gate" 1, inl ()))
  else (n, (metric c "gate" 0, inl ())).
End Nodes.
Arguments NodeContext : clear implicits.
Arguments SwitchNode : clear implicits.
Arguments GateNode : clear implicits.
Arguments sw_outputs {S}.
Arguments selector {S}.
Arguments sw_captured {S}.
Arguments condition {S}.
Arguments g_captured {S}.

End nodes.
