(* ===== verification/DagExecute.v ===== *)
(** * The executors against the data flow

    [execute_sequential] computes what the data flow of the graph says, and
    [execute_dag] the same on every graph whose nodes have their triggers and
    succeed; where they do not, the two differ, and so do the levels
    [execute_dag] runs inline from those it runs at once. *)
From stdpp Require Import gmap strings.
From S2P Require Import Prelude Dag DagLevels DagRun DagFlow DagNodes.
Import port dag runtime.
Open Scope Z_scope.

Section Levels.
Context {N V M U : Type} `{Node N V M U}.
Context (es : list DagEdge) (names : list string) (init : gmap (string * string) V).
Implicit Types (d : Dag N) (E : gmap (string * string) V) (r : Run N V) (results : list (string * M)).

Lemma execute_single_node_there r idx r' res : execute_single_node r idx = Ret (r', res) → is_Some (nodes (r_dag r') !! idx).
Proof using.
  unfold execute_single_node. destruct (nodes (r_dag r) !! idx) as [e|] eqn:He; [|done]. destruct (collect_inputs _ _ _ _) as [[inp pd] counts].
  destruct (execute (node e) inp) as [n o]. destruct (set_node_spec (r_dag r) idx n e He) as (d' & -> & _ & _ & Hns). rewrite bind_ret.
  destruct o; [intros [= <- _]|intros [= <- _]|done]; simpl; rewrite Hns, decide_True by done; by eexists.
Qed.

(** An inline level that succeeds is the nodes one after the other. *)
Lemma run_inline_nodes idxs : ∀ r results stack r' results', run_nodes r results idxs = Ret (r', results', inl ()) →
  ∃ stack', run_inline r results stack idxs = Ret (r', results', stack', inl ()).
Proof using.
  induction idxs as [|idx idxs IH]; intros r results stack r' results'; cbn [run_nodes run_inline]; [intros [= <- <-]; by exists stack|].
  destruct (node_name (r_dag r) idx) as [nm| | |]; [|done..]. rewrite !bind_ret.
  destruct (execute_single_node r idx) as [[r1 res]| | |] eqn:Ex; [|done..]. rewrite !bind_ret. destruct res as [nr|e]; [|done]. intros Hrun.
  destruct (execute_single_node_there r idx r1 _ Ex) as [e He]. unfold push_undo. rewrite He, bind_ret. by apply IH.
Qed.

Lemma inline_level_flow D E r lv nms results stack : at_flow es names init D [] E r → closed es D → names_of (r_dag r) = names →
  clean_nodes es init (r_dag r) E lv = true → Forall2 (λ idx nm, names !! idx = Some nm) lv nms → scheduled es names D nms →
  level_done es names init D nms E r lv (λ r' rs, ∃ stack', run_inline r results stack lv = Ret (r', results ++ rs, stack', inl ())).
Proof using.
  intros Hr HD Hn Hc Hlv Hs. apply level_done_intro; [done|].
  assert (clean_nodes es init (r_dag r) E (lv ++ []) = true) as Hc' by by rewrite app_nil_r.
  destruct (clean_app es init lv _ _ _ Hc') as (_ & d' & E' & rs & _ & Hflow). specialize (λ res, Hflow res []) as Hflow'.
  rewrite app_nil_r in Hflow'. cbn [flow_nodes] in Hflow'.
  pose proof (run_nodes_flow es names init lv nms D E r results Hr HD Hn Hlv Hs) as Hrun. rewrite Hflow' in Hrun.
  destruct Hrun as (r' & Hrun & Hd & Hnames & Hr' & HD'). exists d', E', rs, r'. split_and!; [apply Hflow'|by apply run_inline_nodes|done..].
Qed.

Lemma push_undos_total d idxs : ∀ stack : list (nat * U), (∀ idx, idx ∈ idxs → is_Some (nodes d !! idx)) → ∃ stack', push_undos d stack idxs = Ret stack'.
Proof using.
  induction idxs as [|idx idxs IH]; intros stack Hin; [by eexists|]. cbn [push_undos]. unfold push_undo.
  destruct (Hin idx ltac:(by left)) as [e ->]. rewrite bind_ret. apply IH. intros j ?. apply Hin. by right.
Qed.

Lemma Forall2_named d lv nms : names_of d = names → Forall2 (λ idx nm, names !! idx = Some nm) lv nms → ∀ idx, idx ∈ lv → is_Some (nodes d !! idx).
Proof using.
  intros Hn Hlv idx Hidx. apply list_elem_of_lookup_1 in Hidx as [i Hi]. destruct (Forall2_lookup_l _ _ _ _ _ Hlv Hi) as (nm & _ & Hnm).
  rewrite <- Hn in Hnm. apply name_at in Hnm as (e & He & _). by eexists.
Qed.

Lemma run_levels_flow inline levels : ∀ nmss i D E r results stack, at_flow es names init D [] E r → closed es D → names_of (r_dag r) = names →
  clean_nodes es init (r_dag r) E (concat levels) = true → Forall2 (Forall2 (λ idx nm, names !! idx = Some nm)) levels nmss →
  Forall NoDup levels → scheduled_levels es names D nmss →
  ∃ E' results' stack' r', flow_nodes es init (r_dag r) E results (concat levels) = Ret (r_dag r', E', results', inl ()) ∧
    run_levels inline i r results stack levels = Ret (r', results', stack', inl ()) ∧ at_flow es names init (rev (concat nmss) ++ D) [] E' r'.
Proof using.
  induction levels as [|lv levels IH]; intros nmss i D E r results stack Hr HD Hn Hc Hlv Hnd Hs.
  { apply Forall2_nil_inv_l in Hlv as ->. by exists E, results, stack, r. }
  apply Forall2_cons_inv_l in Hlv as (nms & nmss' & Hlv & Hlvs & ->). apply Forall_cons in Hnd as [Hnd Hnds]. destruct Hs as (Hndn & Hmay & Hs).
  cbn [concat] in Hc. pose proof (clean_app es init lv _ _ _ Hc) as [Hc1 _]. cbn [concat run_levels].
  destruct (inline i || (length lv =? 1)%nat).
  - assert (scheduled es names D nms) as Hsch by (rewrite <- (app_nil_r nms); by apply scheduled_level).
    destruct (inline_level_flow D E r lv nms results stack Hr HD Hn Hc1 Hlv Hsch) as (E1 & rs & r1 & Hf & Hcl & [stack1 ->] & Hn1 & Hr1 & HD1).
    rewrite bind_ret, Hf. rewrite rev_app_distr, <- app_assoc. apply IH; try done. by apply Hcl.
  - destruct (parallel_level_flow es names init D E r lv nms) as (E1 & rs & r1 & Hf & Hcl & -> & Hn1 & Hr1 & HD1); try done.
    rewrite bind_ret. destruct (push_undos_total (r_dag r1) lv stack) as [stack1 ->]; [by eapply Forall2_named|].
    rewrite bind_ret, Hf. rewrite rev_app_distr, <- app_assoc. apply IH; try done. by apply Hcl.
Qed.
End Levels.

Section Whole.
Context {N V M U : Type} `{Node N V M U}.
Implicit Types (d : Dag N) (init : gmap (string * string) V).

Lemma named_levels d levels : good_levels d levels →
  Forall2 (Forall2 (λ idx nm, names_of d !! idx = Some nm)) levels (map (map (name_of d)) levels).
Proof using.
  intros [Hperm _]. apply Forall2_fmap_r, Forall_Forall2_diag. apply Forall_forall. intros lv Hlv. apply Forall2_fmap_r, Forall_Forall2_diag.
  apply Forall_forall. intros idx Hidx. apply name_of_lookup. assert (idx ∈ concat levels) as Hin.
  { apply list_elem_of_lookup_1 in Hlv as [i Hi]. apply in_levels. by exists i, lv. }
  rewrite Hperm, elem_of_seq in Hin. lia.
Qed.

Lemma good_levels_nodup d levels : good_levels d levels → Forall NoDup levels.
Proof using.
  intros [Hperm _]. assert (NoDup (concat levels)) as Hnd by (rewrite Hperm; apply NoDup_seq). clear Hperm. induction levels as [|lv levels IH]; [done|].
  cbn [concat] in Hnd. apply NoDup_app in Hnd as (Hlv & _ & Hnd). constructor; [done|by apply IH].
Qed.

(** Once every level has run every node has. *)
Lemma good_levels_all d levels x : good_levels d levels → x ∈ names_of d → x ∈ rev (concat (map (map (name_of d)) levels)) ++ [].
Proof using.
  intros [Hperm _] Hx. rewrite app_nil_r, elem_of_rev, <- concat_map. apply list_elem_of_lookup_1 in Hx as [i Hi]. apply list_elem_of_fmap.
  exists i. split; [unfold name_of; by rewrite Hi|]. rewrite Hperm, elem_of_seq. apply lookup_lt_Some in Hi. unfold names_of in Hi. rewrite length_fmap in Hi. lia.
Qed.

Lemma well_wired_to d e : well_wired d → e ∈ edges d → to_node e ∈ names_of d.
Proof using.
  unfold well_wired. rewrite Forall_forall. intros Hw He. destruct (Hw e He) as (f & t & _ & _ & _ & Ht & _). apply find_named in Ht as [Ht <-].
  apply list_elem_of_fmap. by exists t.
Qed.

Lemma execute_sequential_flow d init : NoDup (names_of d) → well_wired d → execute_sequential d init = flow_dag d init.
Proof using.
  intros Hnd Hw. unfold execute_sequential, flow_dag. destruct (topological_levels_spec d) as (r & -> & Hr). rewrite !bind_ret.
  destruct r as [levels|e]; [|done]. pose proof (named_levels d levels Hr) as Hn. pose proof (levels_scheduled d levels Hnd Hw Hr) as Hs.
  assert (Forall2 (λ idx nm, names_of d !! idx = Some nm) (concat levels) (concat (map (map (name_of d)) levels))) as Hn'.
  { clear -Hn. induction Hn; [done|]. cbn [concat]. by apply Forall2_app. }
  pose proof (run_nodes_flow (M := M) (edges d) (names_of d) init (concat levels) (concat (map (map (name_of d)) levels)) [] (flow_start (edges d) (names_of d) init) (start d init) []) as Hrun.
  specialize (Hrun ltac:(split; [done|apply flowing_start]) ltac:(by intros e _ ?%elem_of_nil) eq_refl Hn' ltac:(by apply scheduled_concat)).
  change (r_dag (start d init)) with d in Hrun.
  destruct (flow_nodes _ _ _ _ _ _) as [[[[d' E'] results'] [[]|e]]| | |]; try done; [| |by rewrite Hrun].
  2: { destruct Hrun as (r' & -> & <-). by rewrite !bind_ret. }
  destruct Hrun as (r' & -> & <- & Hrest). rewrite !bind_ret.
  destruct Hrest as (_ & Hr' & _). do 3 f_equal. f_equal. eapply flow_leaves; [exact Hr'| |].
  - intros x. by apply good_levels_all.
  - intros e. by apply well_wired_to.
Qed.

Lemma execute_dag_flow inline d init : NoDup (names_of d) → well_wired d → runs_clean d init = true → execute_dag inline d init = flow_dag d init.
Proof using.
  intros Hnd Hw. unfold runs_clean, execute_dag, flow_dag. destruct (topological_levels_spec d) as (r & -> & Hr). rewrite !bind_ret.
  destruct r as [levels|e]; [|done]. intros Hc. pose proof (named_levels d levels Hr) as Hn. pose proof (levels_scheduled d levels Hnd Hw Hr) as Hs.
  destruct (run_levels_flow (M := M) (edges d) (names_of d) init inline levels (map (map (name_of d)) levels) 0 [] (flow_start (edges d) (names_of d) init) (start d init) [] [])
    as (E' & results' & stack' & r' & Hf & -> & Hr'); [split; [done|apply flowing_start]|by intros e _ ?%elem_of_nil|done|done|exact Hn|by eapply good_levels_nodup|done|].
  change (r_dag (start d init)) with d in Hf. rewrite Hf, !bind_ret. do 3 f_equal. f_equal. eapply flow_leaves; [exact Hr'| |].
  - intros x. by apply good_levels_all.
  - intros e. by apply well_wired_to.
Qed.
End Whole.

(** ** Rolling back *)

Section Rollback.
Context {N V M U : Type} `{Node N V M U}.
Implicit Types (d : Dag N) (r : Run N V) (stack : list (nat * U)).

(** A node that succeeds can be undone, and is then what it was. *)
Definition undo_inverts : Prop := ∀ n inp n' (outs : gmap string V) (nr : M), execute n inp = (n', Done outs nr) →
  can_undo n' = true ∧ ∃ u, undo_context n' = Some u ∧ undo n' u = n.

Lemma set_node_back d idx n d' n' e : nodes d !! idx = Some e → set_node d idx n = Ret d' → n' = node e → set_node d' idx n' = Ret d.
Proof using.
  intros He Hs ->. unfold set_node in *. rewrite He in Hs. injection Hs as <-. cbn [nodes].
  rewrite list_lookup_insert_eq by (by eapply lookup_lt_Some). cbn. rewrite list_insert_insert_eq. do 2 f_equal.
  destruct d as [ns es]. cbn in *. f_equal. destruct e. by apply list_insert_id.
Qed.

Lemma set_node_swap d i j n m d1 d2 : i ≠ j → set_node d i n = Ret d1 → set_node d j m = Ret d2 → ∃ d3, set_node d1 j m = Ret d3 ∧ set_node d2 i n = Ret d3.
Proof using.
  intros Hij. unfold set_node. destruct (nodes d !! i) as [e|] eqn:Ei; [|done]. destruct (nodes d !! j) as [e'|] eqn:Ej; [|done].
  intros [= <-] [= <-]. cbn [nodes]. rewrite !list_lookup_insert_ne by done. rewrite Ei, Ej. cbn. eexists. split; [done|]. do 2 f_equal. by apply list_insert_insert_ne.
Qed.

(** The nodes not on the stack are left as they are. *)
Lemma rollback_set d0 idx n stack : ∀ d d', idx ∉ stack.*1 → rollback d stack = Ret d0 → set_node d idx n = Ret d' →
  ∃ d1, rollback d' stack = Ret d1 ∧ set_node d0 idx n = Ret d1.
Proof using.
  induction stack as [|[i u] stack IH]; intros d d' Hidx Hr Hs; [injection Hr as <-; by exists d'|].
  cbn [fmap list_fmap fst] in Hidx. apply not_elem_of_cons in Hidx as [Hne Hidx]. cbn [rollback] in *.
  destruct (nodes d !! i) as [e|] eqn:He; [|done]. destruct (set_node_spec d i (undo (node e) u) e He) as (d2 & Ed2 & _). rewrite Ed2, bind_ret in Hr.
  assert (nodes d' !! i = Some e) as ->.
  { destruct (nodes d !! idx) as [e'|] eqn:He'; [|unfold set_node in Hs; by rewrite He' in Hs].
    destruct (set_node_spec d idx n e' He') as (d3 & Ed3 & _ & _ & Hns). assert (d3 = d') as -> by congruence. by rewrite Hns, decide_False. }
  destruct (set_node_swap d idx i n (undo (node e) u) d' d2 Hne Hs Ed2) as (d3 & Ed3 & Ed3'). rewrite Ed3, bind_ret. by apply (IH d2).
Qed.

Lemma rollback_named d0 idx stack : ∀ d e, rollback d stack = Ret d0 → nodes d !! idx = Some e → ∃ e0, nodes d0 !! idx = Some e0 ∧ name e0 = name e.
Proof using.
  induction stack as [|[i u] stack IH]; intros d e Hroll He; [injection Hroll as <-; by exists e|].
  cbn [rollback] in Hroll. destruct (nodes d !! i) as [ei|] eqn:Ei; [|done]. destruct (set_node_spec d i (undo (node ei) u) ei Ei) as (d2 & Ed2 & _ & _ & Hns).
  rewrite Ed2, bind_ret in Hroll. destruct (decide (idx = i)) as [->|Hne].
  - assert (ei = e) as -> by congruence. apply (IH d2 {| name := name e; node := undo (node e) u |} Hroll). by rewrite Hns, decide_True.
  - apply (IH d2 e Hroll). by rewrite Hns, decide_False.
Qed.

(** Undoing the stack of a run gives the graph it started from. *)
Lemma run_inline_rollback (Hundo : undo_inverts) d0 idxs : ∀ r (results : list (string * M)) stack r' results' stack' res,
  rollback (r_dag r) (rev stack) = Ret d0 → NoDup idxs → (∀ i, i ∈ idxs → i ∉ stack.*1) →
  run_inline r results stack idxs = Ret (r', results', stack', res) →
  match res with
  | inl _ => rollback (r_dag r') (rev stack') = Ret d0 ∧ ∀ i, i ∈ stack'.*1 → i ∈ stack.*1 ∨ i ∈ idxs
  | inr err => ∃ nm msg idx e n d', err = NodeFailed nm msg ∧ idx ∈ idxs ∧ nodes d0 !! idx = Some e ∧ name e = nm ∧
      rollback (r_dag r') (rev stack') = Ret d' ∧ set_node d0 idx n = Ret d'
  end.
Proof using.
  induction idxs as [|idx idxs IH]; intros r results stack r' results' stack' res Hroll Hnd Hin; cbn [run_inline].
  { intros [= <- _ <- <-]. split; [done|]. tauto. }
  apply NoDup_cons in Hnd as [Hidx Hnd]. unfold node_name, execute_single_node. destruct (nodes (r_dag r) !! idx) as [e|] eqn:He; [|done]. rewrite !bind_ret.
  destruct (collect_inputs _ _ _ _) as [[inp pd] counts]. destruct (execute (node e) inp) as [n o] eqn:Ex.
  destruct (set_node_spec (r_dag r) idx n e He) as (d' & Ed & _ & _ & Hns). rewrite Ed, bind_ret. destruct o as [outs nr|msg|msg]; [| |done]; rewrite bind_ret.
  - destruct (Hundo _ _ _ _ _ Ex) as (Hcan & u & Hu & Hback). unfold push_undo. cbn [r_dag]. rewrite Hns, decide_True by done. cbn [node]. rewrite Hcan, Hu, bind_ret. intros Hrun.
    eapply IH in Hrun; [|cbn [r_dag]|done|].
    + destruct res as [[]|err].
      * destruct Hrun as [Hr Hs]. split; [done|]. intros i Hi. destruct (Hs i Hi) as [Hi'|Hi']; [|right; by right].
        rewrite fmap_app, elem_of_app in Hi'. destruct Hi' as [?|?%list_elem_of_singleton]; [by left|right; subst; by left].
      * destruct Hrun as (nm & msg & i & e' & n' & d2 & ? & ? & ?). exists nm, msg, i, e', n', d2. split_and!; [done|by right|tauto..].
    + rewrite rev_app_distr. cbn [rev app rollback]. rewrite Hns, decide_True by done. cbn [node]. rewrite (set_node_back (r_dag r) idx n d' _ e He Ed Hback). by rewrite bind_ret.
    + intros i Hi. rewrite fmap_app, elem_of_app. intros [Hi'|Hi'%list_elem_of_singleton]; [by apply (Hin i); [right|]|]. cbn in Hi'. by subst.
  - intros [= <- _ <- <-]. destruct (rollback_set d0 idx n (rev stack) (r_dag r) d') as (d1 & Hd1 & Hset); [|done|done|].
    { change ((rev stack).*1) with (map fst (rev stack)). rewrite map_rev, elem_of_rev. apply Hin. by left. }
    destruct (rollback_named d0 idx (rev stack) (r_dag r) e Hroll He) as (e0 & He0 & Hname).
    exists (name e), msg, idx, e0, n, d1. split_and!; [done|by left|done..].
Qed.

Lemma run_levels_rollback (Hundo : undo_inverts) d0 levels : ∀ i r (results : list (string * M)) stack r' results' stack' err,
  rollback (r_dag r) (rev stack) = Ret d0 → NoDup (concat levels) → (∀ i, i ∈ concat levels → i ∉ stack.*1) →
  run_levels (λ _, true) i r results stack levels = Ret (r', results', stack', inr err) →
  ∃ nm msg idx e n d', err = NodeFailed nm msg ∧ nodes d0 !! idx = Some e ∧ name e = nm ∧ rollback (r_dag r') (rev stack') = Ret d' ∧ set_node d0 idx n = Ret d'.
Proof using.
  induction levels as [|lv levels IH]; intros i r results stack r' results' stack' err Hroll Hnd Hin; cbn [run_levels]; [done|]. cbn [orb].
  cbn [concat] in Hnd, Hin. apply NoDup_app in Hnd as (Hnd & Hdisj & Hnds).
  destruct (run_inline r results stack lv) as [[[[r1 results1] stack1] res]| | |] eqn:Er; [|done..]. rewrite bind_ret.
  apply (run_inline_rollback Hundo d0) in Er; [|done|done|intros j Hj; apply Hin, elem_of_app; by left]. destruct res as [[]|e].
  - destruct Er as [Hr1 Hs1]. apply IH; [done|done|]. intros j Hj Hj'. destruct (Hs1 j Hj') as [Hk|Hk]; [|by apply (Hdisj j)].
    apply (Hin j); [apply elem_of_app; by right|done].
  - intros [= <- _ <- <-]. destruct Er as (nm & msg & idx & e' & n & d' & ? & _ & ?). by exists nm, msg, idx, e', n, d'.
Qed.

Lemma execute_dag_rollback (Hundo : undo_inverts) d (init : gmap (string * string) V) d' err : execute_dag (λ _, true) d init = Ret (d', inr err) →
  (err = CycleDetected ∨ ∃ nm, err = UnknownNode nm) ∧ d' = d ∨
  ∃ nm msg idx e n, err = NodeFailed nm msg ∧ nodes d !! idx = Some e ∧ name e = nm ∧ set_node d idx n = Ret d'.
Proof using.
  unfold execute_dag. destruct (topological_levels_spec d) as (r & -> & Hr). rewrite bind_ret. destruct r as [levels|e].
  - destruct (run_levels (λ _, true) 0 (start d init) [] [] levels) as [[[[r results] stack] res]| | |] eqn:Er; [|done..]. rewrite bind_ret.
    destruct res as [[]|e]; [done|]. destruct Hr as [Hperm _]. apply (run_levels_rollback Hundo d) in Er; [|done|rewrite Hperm; apply NoDup_seq|intros; apply not_elem_of_nil].
    destruct Er as (nm & msg & idx & en & n & d1 & -> & He & Hn & -> & Hs). rewrite bind_ret. intros [= <- <-]. right. by exists nm, msg, idx, en, n.
  - intros [= <- <-]. left. split; [|done]. destruct e; try done; [right; by eexists|by left].
Qed.
End Rollback.

(** ** Nodes for the witnesses *)

(** Workers that wait for a trigger, branches, and a source without inputs. *)
Record Worker := { runs : Z; fails : bool }.
Inductive AnyNode := Source | Branch (b : bool) | Gate (b : bool) | Work (w : Worker) | TakenNode.

(** A branch and a gate on a fixed condition, which their run does not
    change. *)
Definition branch (b : bool) : nodes.SwitchNode bool := nodes.BranchNode (λ s, (s, s)) b.
Definition gate (b : bool) : nodes.GateNode bool := {| nodes.condition := λ s, (s, s); nodes.g_captured := b |}.

#[export] Instance AnyNode_ports : Ports AnyNode := {
  inputs n := match n with Branch _ => nodes.switch_inputs | Gate _ => nodes.gate_inputs | Work _ => [nodes.trigger_port "trigger"] | _ => [] end;
  outputs n := match n with Branch b => nodes.switch_outputs (branch b) | Gate _ => nodes.gate_outputs | Work _ | Source => [nodes.trigger_port "done"] | TakenNode => [] end;
  taken := TakenNode;
}.

#[export] Instance AnyNode_node : Node AnyNode (nodes.PortValue Z) nodes.NodeResult () := {
  execute n inp :=
    let c := nodes.context_new inp in
    match n with
    | Source => (Source, nodes.outcome_of (nodes.trigger c "done", inl ()))
    | Branch b => let '(n, r) := nodes.switch_execute (branch b) c in (Branch (nodes.sw_captured n), nodes.outcome_of r)
    | Gate b => let '(n, r) := nodes.gate_execute (gate b) c in (Gate (nodes.g_captured n), nodes.outcome_of r)
    | Work w =>
        let w := {| runs := runs w + 1; fails := fails w |} in
        (Work w, nodes.outcome_of (if fails w then (c, inr "broken"%string) else (nodes.trigger c "done", inl ())))
    | TakenNode => (TakenNode, Failed "node is being executed by the runtime (or was lost to a panic)")
    end;
  can_undo n := match n with TakenNode => false | _ => true end;
  undo_context n := Some ();
  undo n _ := match n with Work w => Work {| runs := runs w - 1; fails := fails w |} | n => n end;
  skipped := {| nodes.metrics := [("skipped"%string, 1)]; nodes.logs := [] |};
}.

Definition worker (b : bool) : AnyNode := Work {| runs := 0; fails := b |}.

(** How often each worker of a graph has run. *)
Definition worked (d : Dag AnyNode) : list (string * Z) :=
  omap (λ e, match node e with Work w => Some (name e, runs w) | _ => None end) (nodes d).
Definition worked_after (o : out (Dag AnyNode * result (DagResult (nodes.PortValue Z) nodes.NodeResult))) : option (list (string * Z) * bool) :=
  match o with Ret (d, inl _) => Some (worked d, true) | Ret (d, inr _) => Some (worked d, false) | _ => None end.

Definition branch_ops (b : bool) : list (@op AnyNode) :=
  [AddNode "check" (Branch b); AddNode "heavy" (worker false); AddNode "light" (worker false);
   Connect "check" "then" "heavy" "trigger"; Connect "check" "else" "light" "trigger"].
Definition gate_ops (b : bool) : list (@op AnyNode) :=
  [AddNode "need_flush" (Gate b); AddNode "flush" (worker false); AddNode "notify" (worker false);
   Connect "need_flush" "pass" "flush" "trigger"; Connect "need_flush" "pass" "notify" "trigger"].

(** A chain of a worker and two more, the last of which fails. *)
Definition failing_ops : list (@op AnyNode) :=
  [AddNode "first" (worker false); AddNode "second" (worker false); AddNode "third" (worker true);
   Chain ["first"; "second"]; Connect "first" "done" "third" "trigger"].

(** ** Properties *)

(** C25. Running a graph that [add_node], [connect] and [chain] built, with
    distinct node names, through the shared port values and the counts of
    their consumers computes the data flow: every node runs once, in the order
    of the levels, and gets for each of its edges the value its source put on
    the port, however many consumers the port has; errors of nodes and of the
    levels are returned as they are, and at the end exactly the values no edge
    leads from are left. *)
Theorem execute_sequential_dataflow {N V M U} `{Node N V M U} (ops : list (@op N)) (init : gmap (string * string) V) :
  let d := foldl apply_op new ops in NoDup (names_of d) → execute_sequential d init = flow_dag d init.
Proof. intros d Hnd. apply execute_sequential_flow; [done|]. apply ops_spec. constructor. Qed.

(** The branch graph meets the hypothesis of [execute_sequential_dataflow]. *)
Lemma execute_sequential_dataflow_witness :
  let d := foldl apply_op new (branch_ops true) in NoDup (names_of d) ∧ execute_sequential d ∅ = flow_dag d ∅.
Proof. intros d. assert (NoDup (names_of d)) as Hnd by (vm_compute; repeat constructor; set_solver). split; [exact Hnd|]. exact (execute_sequential_dataflow (branch_ops true) ∅ Hnd). Defined.

(** C26. On a graph with distinct node names in which every node has its
    triggers and succeeds, [execute_dag] returns what [execute_sequential]
    does, whichever levels it runs inline and whichever as tasks. *)
Theorem execute_dag_same {N V M U} `{Node N V M U} (ops : list (@op N)) (init : gmap (string * string) V) (inline : nat → bool) :
  let d := foldl apply_op new ops in NoDup (names_of d) → runs_clean d init = true → execute_dag inline d init = execute_sequential d init.
Proof.
  intros d Hnd Hc. assert (well_wired d) as Hw by (apply ops_spec; constructor).
  rewrite (execute_dag_flow inline d init Hnd Hw Hc). symmetry. by apply execute_sequential_flow.
Qed.

Definition clean_ops : list (@op AnyNode) :=
  [AddNode "first" Source; AddNode "second" (worker false); AddNode "third" (worker false);
   Connect "first" "done" "second" "trigger"; Connect "first" "done" "third" "trigger"].

(** A fan-out of one port to two nodes meets the hypotheses of
    [execute_dag_same]. *)
Lemma execute_dag_same_witness :
  let d := foldl apply_op new clean_ops in NoDup (names_of d) ∧ runs_clean d ∅ = true ∧ execute_dag (λ _, false) d ∅ = execute_sequential d ∅.
Proof.
  intros d. assert (NoDup (names_of d)) as Hnd by (vm_compute; repeat constructor; set_solver). assert (runs_clean d ∅ = true) as Hc by (vm_compute; reflexivity).
  split; [exact Hnd|]. split; [exact Hc|]. exact (execute_dag_same clean_ops ∅ (λ _, false) Hnd Hc).
Defined.

(** C30. Rollback: when undoing a node that succeeded gives the node back as it
    was and all levels run inline, an [execute_dag] that returns an error
    leaves every node but the failed one as it was before the call; an error
    of the levels leaves all of them. *)
Theorem rollback_restores {N V M U} `{Node N V M U} (d : Dag N) (init : gmap (string * string) V) d' err :
  undo_inverts → execute_dag (λ _, true) d init = Ret (d', inr err) →
  (err = CycleDetected ∨ ∃ nm, err = UnknownNode nm) ∧ d' = d ∨
  ∃ nm msg idx e n, err = NodeFailed nm msg ∧ nodes d !! idx = Some e ∧ name e = nm ∧ set_node d idx n = Ret d'.
Proof. intros Hundo. by apply execute_dag_rollback. Qed.

(** The worker that fails, in a graph of [failing_ops], and nodes whose undo
    takes back what they did. *)
Lemma rollback_restores_witness :
  let d := foldl apply_op new failing_ops in
  ∃ d', execute_dag (λ _, true) d ∅ = Ret (d', inr (NodeFailed "third" "broken")) ∧
    ∃ nm msg idx e n, NodeFailed "third" "broken" = NodeFailed nm msg ∧ nodes d !! idx = Some e ∧ name e = nm ∧ set_node d idx n = Ret d'.
Proof.
  intros d. eexists. split; [vm_compute; reflexivity|].
  match goal with |- ∃ nm msg idx e n, _ ∧ _ ∧ _ ∧ _ = Ret ?d' => destruct (rollback_restores d ∅ d' (NodeFailed "third" "broken")) as [[[H|[nm H]] _]|H] end.
  - intros [|b|b|w|] inp n' outs' nr; cbn.
    + intros [= <- _ _]. split; [done|]. by exists ().
    + destruct b; cbn; intros [= <- _ _]; (split; [done|]); by exists ().
    + destruct b; cbn; intros [= <- _ _]; (split; [done|]); by exists ().
    + destruct (fails w) eqn:E; intros [= <- _ _]. split; [done|]. exists (). split; [done|]. cbn. destruct w. cbn in *. subst. f_equal. f_equal. lia.
    + done.
  - vm_compute. reflexivity.
  - discriminate.
  - discriminate.
  - exact H.
Defined.

(** The same graph and inputs, and which nodes run depends on the caller's
    thread: as tasks the branch not taken is skipped, as [branch.rs] says, but
    inline, as on a scheduler thread, and by [execute_sequential] both
    branches run; so do the nodes behind a gate that blocks. *)
Example branch_not_taken_runs_inline (b : bool) :
  let d := foldl apply_op new (branch_ops b) in
  worked_after (execute_dag (λ _, false) d ∅) = Some ([("heavy"%string, if b then 1 else 0); ("light"%string, if b then 0 else 1)], true) ∧
  worked_after (execute_dag (λ _, true) d ∅) = Some ([("heavy"%string, 1); ("light"%string, 1)], true) ∧
  worked_after (execute_sequential d ∅) = Some ([("heavy"%string, 1); ("light"%string, 1)], true) ∧
  let g := foldl apply_op new (gate_ops b) in
  worked_after (execute_dag (λ _, false) g ∅) = Some ([("flush"%string, if b then 1 else 0); ("notify"%string, if b then 1 else 0)], true) ∧
  worked_after (execute_sequential g ∅) = Some ([("flush"%string, 1); ("notify"%string, 1)], true).
Proof. destruct b; vm_compute; done. Qed.

(** A level that runs as tasks is rolled back only up to the level before
    it: when "third" fails the undoable "second" of the same level has run and
    stays so, while the same graph run inline undoes it. *)
Example parallel_siblings_not_undone :
  let d := foldl apply_op new failing_ops in
  worked_after (execute_dag (λ _, false) d ∅) = Some ([("first"%string, 0); ("second"%string, 1); ("third"%string, 1)], false) ∧
  worked_after (execute_dag (λ _, true) d ∅) = Some ([("first"%string, 0); ("second"%string, 0); ("third"%string, 1)], false).
Proof. vm_compute. done. Qed.
