(* ===== verification/Resolve.v ===== *)
(** * From chains of tokens to matches ([src/suffix_fst/briques/resolve.rs])

    A chain lists, position by position, the token ordinals a query may run
    through; resolving it finds the documents in which such tokens follow each
    other.  This file models the resolution of chunk chains in its three modes:
    through the postings ([Strict]), through the position map with the chains
    that share their first list resolved together ([StrictPosmap]), and with
    separator tokens allowed in between ([Relaxed]).

    The readers are records of their accessors; [str::to_lowercase] is a
    parameter; the order in which a hash map is visited is a parameter as well.
    The cap on the matches of a segment, read from the environment, is [cap].
    Counters and diagnostics are left out. *)
From stdpp Require Import gmap.
From S2P Require Import Prelude Text DocFilter.
Import text.
Open Scope Z_scope.

Module resolve.

(** ** [Alts] and [TokenChainV3] ([fst_walk.rs]) *)

Inductive Alts := Ids (v : list Z) | Prefix (p : list Z).
#[export] Instance Alts_eq_dec : EqDecision Alts.
Proof. solve_decision. Defined.

Record TokenChainV3 := {
  ordinals : list Alts;
  first_sti : Z;
  total_query_consumed : Z;
  last_consumed : Z;
}.

Definition single (ord : Z) : Alts := Ids [ord].

Definition explicit (a : Alts) : out (list Z) := match a with Ids v => Ret v | Prefix _ => Panic end.

Definition first_ids (c : TokenChainV3) : out (list Z) := a ← index (ordinals c) 0; explicit a.
Definition head (c : TokenChainV3) : out Z := ids ← first_ids c; index ids 0.

Definition is_ascii (s : list Z) : bool := forallb (λ c, c <? 128) s.
Definition ascii_lower (c : Z) : Z := if (65 <=? c) && (c <=? 90) then c + 32 else c.

(** ** The readers a resolution asks *)

(** [PositionEntry]: a document and a token index. *)
Abbreviation PositionEntry := (Z * Z)%type.

(** The methods of [dyn PostingResolver] the resolution calls. *)
Record PostingResolver := {
  positions : Z → list PositionEntry;
  positions_filtered : ∀ F, DocFilter F → Z → F → list PositionEntry;
  has_position : Z → Z → Z → bool;
}.
Arguments positions_filtered _ {F _} _ _.

(** What the trait says of them. *)
Class ResolverLaws (r : PostingResolver) : Prop := {
  positions_filtered_spec : ∀ F `{DocFilterLaws F} o (f : F), positions_filtered r o f = List.filter (λ e, contains f e.1) (positions r o);
  has_position_spec : ∀ o d p, has_position r o d p = bool_decide ((d, p) ∈ positions r o);
}.

(** A match being extended: document, last position, last ordinal, first
    position; the matches of the chains of a group; the cached postings of
    first positions. *)
Abbreviation Active := (Z * Z * Z * Z)%type.
Abbreviation survivors_map := (gmap nat (list Active)).
Abbreviation first_memo := (gmap (list Z) (list PositionEntry)).

(** A match in positions; its bytes are placed later. *)
Record MatchV3 := {
  doc_id : Z;
  position : Z;
  span : Z;
  sti : Z;
  ordinal : Z;
  last_ordinal : Z;
  first_off : Z;
  last_start_pos : Z;
  last_off : Z;
  m_last_consumed : Z;
  byte_from : Z;
  overlap_overflow : Z;
  byte_to : Z;
  token_end : Z;
}.

Definition unplaced (doc_id position span sti ordinal last_ordinal first_off last_start_pos last_off last_consumed : Z) : MatchV3 :=
  {| doc_id := doc_id; position := position; span := span; sti := sti; ordinal := ordinal; last_ordinal := last_ordinal;
     first_off := first_off; last_start_pos := last_start_pos; last_off := last_off; m_last_consumed := last_consumed;
     byte_from := 0; overlap_overflow := 0; byte_to := 0; token_end := 0 |}.

(** A loop that goes on, or the function that returns. *)
Inductive flow (A : Type) := Go (a : A) | Stop (ms : list MatchV3).
Arguments Go {A}.
Arguments Stop {A}.

(** [HashSet::from_iter]. *)
Definition hash_set (l : list Z) : HashSet := {| hs_docs := remove_dups l; hs_nodup := NoDup_remove_dups l |}.

Section Resolve.
Context (cap : Z) (to_lowercase : list Z → list Z).
Context (iter : gmap (list Z) (list nat) → list (list Z * list nat)).
Context (resolver : PostingResolver).
(** [PosMapReader::ordinal_at], [TermTextsReaderV3::text] and [has_content]. *)
Context (ordinal_at : Z → Z → option Z) (text : Z → option (list Z)) (has_content : Z → bool).

Definition starts_with_ci (s prefix_lower : list Z) : bool :=
  if is_ascii s && is_ascii prefix_lower then
    (#prefix_lower <=? #s) && bool_decide (map ascii_lower (take (length prefix_lower) s) = map ascii_lower prefix_lower)
  else bool_decide (prefix_lower `prefix_of` to_lowercase s).

(** [Alts::contains]; a list is sorted, so that its binary search is
    membership.  [with_texts]: the caller has the texts. *)
Definition contains_alt (with_texts : bool) (a : Alts) (ord : Z) : bool :=
  match a with
  | Ids v => bool_decide (ord ∈ v)
  | Prefix p => with_texts && match text (as_u32 ord) with Some s => starts_with_ci s p | None => false end
  end.

(** [results.push] under the cap. *)
Definition push (results : list MatchV3) (m : MatchV3) : flow (list MatchV3) :=
  if cap <=? #results then Stop results else Go (results ++ [m]).
Fixpoint push_all (results ms : list MatchV3) : flow (list MatchV3) :=
  match ms with
  | [] => Go results
  | m :: ms => match push results m with Go results => push_all results ms | Stop r => Stop r end
  end.

Section Filtered.
Context {F : Type} `{DocFilter F} (filter_docs : option F).

Definition resolve_ordinal (ord : Z) : list PositionEntry :=
  match filter_docs with Some f => positions_filtered resolver ord f | None => positions resolver ord end.
Definition resolve_alternatives (ords : list Z) : list PositionEntry := flat_map resolve_ordinal ords.

(** ** [resolve_single_v3] *)

(** A candidate, as far as it is read: partition, ordinal, suffix index. *)
Definition single_matches (query_len : Z) (c : Z * Z * Z) : list MatchV3 :=
  let '(partition, raw_ordinal, s) := c in
  if partition =? 2 then []
  else map (λ e : PositionEntry, unplaced e.1 e.2 1 s raw_ordinal raw_ordinal s e.2 0 (add32 s query_len)) (resolve_ordinal raw_ordinal).

Definition resolve_single_v3 (candidates : list (Z * Z * Z)) (query_len : Z) : list MatchV3 :=
  match push_all [] (flat_map (single_matches query_len) candidates) with Go ms | Stop ms => ms end.

(** ** One chain *)

(** The postings of a first position, through the cache. *)
Definition first_entries (memo : first_memo) (ids : list Z) : list PositionEntry * first_memo :=
  match memo !! ids with
  | Some hit => (hit, memo)
  | None => let v := resolve_alternatives ids in (v, <[ids := v]> memo)
  end.

Definition one_token (c : TokenChainV3) (h : Z) (e : PositionEntry) : MatchV3 :=
  unplaced e.1 e.2 1 (first_sti c) h h (first_sti c) e.2 0 (add32 (first_sti c) (as_u32 (total_query_consumed c))).
Definition emitted (c : TokenChainV3) (h : Z) (a : Active) : MatchV3 :=
  let '(doc, last_pos, last_ord, pos) := a in
  unplaced doc pos (add32 (saturating_sub last_pos pos) 1) (first_sti c) h last_ord (first_sti c) last_pos 0 (as_u32 (last_consumed c)).

Inductive AdjacencyMode := Strict | StrictPosmap (with_texts : bool) | Relaxed.

(** The next position by the position map. *)
Definition posmap_next (with_texts : bool) (wanted : Alts) (a : Active) : option Active :=
  let '(doc, prev_pos, _, first_pos) := a in
  let next_pos := add32 prev_pos 1 in
  match ordinal_at doc next_pos with
  | Some ord => if contains_alt with_texts wanted ord then Some (doc, next_pos, ord, first_pos) else None
  | None => None
  end.

Definition intermediates_are_pure_sep (doc pos_from pos_to : Z) : bool :=
  forallb (λ pos, match ordinal_at doc pos with Some ord => negb (has_content ord) | None => false end) (range pos_from pos_to).

(** The test of a pair in the two modes that read postings. *)
Definition adjacent (mode : AdjacencyMode) (doc prev_pos token_index : Z) : bool :=
  match mode with
  | Relaxed =>
      if token_index <=? prev_pos then false
      else if token_index =? add32 prev_pos 1 then true
      else intermediates_are_pure_sep doc (add32 prev_pos 1) token_index
  | _ => token_index =? add32 prev_pos 1
  end.

(** The postings of the next position, indexed by document. *)
Definition by_doc_of (entries : list (PositionEntry * Z)) : gmap Z (list nat) :=
  foldl (λ m '(i, (e, _)), <[e.1 := default [] (m !! e.1) ++ [i]]> m) ∅ (imap pair entries).

Fixpoint first_valid (mode : AdjacencyMode) (doc prev_pos : Z) (entries : list (PositionEntry * Z)) (idxs : list nat) : option (PositionEntry * Z) :=
  match idxs with
  | [] => None
  | i :: idxs =>
      match entries !! i with
      | Some (e, ord) => if adjacent mode doc prev_pos e.2 then Some (e, ord) else first_valid mode doc prev_pos entries idxs
      | None => None
      end
  end.

Definition posting_next (mode : AdjacencyMode) (entries : list (PositionEntry * Z)) (by_doc : gmap Z (list nat)) (a : Active) : option Active :=
  let '(doc, prev_pos, _, first_pos) := a in
  match by_doc !! doc with
  | Some idxs =>
      match first_valid mode doc prev_pos entries idxs with
      | Some (e, ord) => Some (doc, e.2, ord, first_pos)
      | None => None
      end
  | None => None
  end.

Definition step (mode : AdjacencyMode) (active : list Active) (wanted : Alts) : out (list Active) :=
  match mode with
  | StrictPosmap with_texts => Ret (omap (posmap_next with_texts wanted) active)
  | _ =>
      let active_docs := hash_set (map (λ a : Active, a.1.1.1) active) in
      ids ← explicit wanted;
      let entries := flat_map (λ ord, map (λ e, (e, ord)) (positions_filtered resolver ord active_docs)) ids in
      Ret (omap (posting_next mode entries (by_doc_of entries)) active)
  end.

(** [for ord_idx in 1..] with its test for an empty set. *)
Fixpoint steps (mode : AdjacencyMode) (active : list Active) (wanted : list Alts) : out (list Active) :=
  match wanted with
  | [] => Ret active
  | w :: wanted => match active with [] => Ret [] | _ => active ← step mode active w; steps mode active wanted end
  end.

(** The position map's claim on the last position, confirmed. *)
Definition confirmed (mode : AdjacencyMode) (a : Active) : bool :=
  match mode with
  | StrictPosmap _ => let '(doc, last_pos, last_ord, _) := a in has_position resolver last_ord doc last_pos
  | _ => true
  end.

(** One chain of the loop of [resolve_chains_impl]. *)
Definition resolve_chain (mode : AdjacencyMode) (st : list MatchV3 * first_memo) (c : TokenChainV3) : out (flow (list MatchV3 * first_memo)) :=
  let '(results, memo) := st in
  match ordinals c with
  | [] => Ret (Go (results, memo))
  | _ :: rest =>
      ids ← first_ids c;
      let '(entries, memo) := first_entries memo ids in
      match rest with
      | [] =>
          match entries with
          | [] => Ret (Go (results, memo))
          | _ =>
              if cap <=? #results then Ret (Stop results) else
              h ← head c;
              Ret (match push_all results (map (one_token c h) entries) with Go results => Go (results, memo) | Stop r => Stop r end)
          end
      | _ =>
          active ← steps mode (map (λ e : PositionEntry, (e.1, e.2, 0, e.2)) entries) rest;
          match List.filter (confirmed mode) active with
          | [] => Ret (Go (results, memo))
          | active =>
              if cap <=? #results then Ret (Stop results) else
              h ← head c;
              Ret (match push_all results (map (emitted c h) active) with Go results => Go (results, memo) | Stop r => Stop r end)
          end
      end
  end.

Fixpoint resolve_lone (mode : AdjacencyMode) (st : list MatchV3 * first_memo) (chains : list TokenChainV3) : out (list MatchV3) :=
  match chains with
  | [] => Ret st.1
  | c :: chains =>
      r ← resolve_chain mode st c;
      match r with Go st => resolve_lone mode st chains | Stop ms => Ret ms end
  end.

(** ** Chains that share their first list *)

(** [tails]: the distinct second lists of a group, with the chains wanting
    each. *)
Fixpoint add_tail (tails : list (Alts * list nat)) (w : Alts) (ci : nat) : list (Alts * list nat) :=
  match tails with
  | [] => [(w, [ci])]
  | (l, cs) :: tails => if decide (l = w) then (l, cs ++ [ci]) :: tails else (l, cs) :: add_tail tails w ci
  end.

(** A member of the group: a chain of one position is emitted, a longer one
    says what it wants at its second. *)
Definition register (chains : list TokenChainV3) (with_texts shared_head : bool) (entries : list PositionEntry)
    (st : list MatchV3 * list (Alts * list nat) * survivors_map) (ci : nat) : out (flow (list MatchV3 * list (Alts * list nat) * survivors_map)) :=
  let '(results, tails, survivors) := st in
  c ← index chains (Z.of_nat ci);
  match ordinals c with
  | [] => Panic
  | [_] =>
      match entries with
      | [] => Ret (Go st)
      | _ =>
          if cap <=? #results then Ret (Stop results) else
          h ← head c;
          Ret (match push_all results (map (one_token c h) entries) with Go results => Go (results, tails, survivors) | Stop r => Stop r end)
      end
  | _ :: wanted :: _ =>
      if shared_head then Ret (Go (results, add_tail tails wanted ci, survivors))
      else
        let found := omap (posmap_next with_texts wanted) (map (λ e : PositionEntry, (e.1, e.2, 0, e.2)) entries) in
        Ret (Go (results, tails, match found with [] => survivors | _ => <[ci := found]> survivors end))
  end.
Fixpoint register_all (chains : list TokenChainV3) (with_texts shared_head : bool) (entries : list PositionEntry)
    (st : list MatchV3 * list (Alts * list nat) * survivors_map) (members : list nat) : out (flow (list MatchV3 * list (Alts * list nat) * survivors_map)) :=
  match members with
  | [] => Ret (Go st)
  | ci :: members =>
      r ← register chains with_texts shared_head entries st ci;
      match r with Go st => register_all chains with_texts shared_head entries st members | Stop ms => Ret (Stop ms) end
  end.

(** One posting of the shared list: the ordinal after it goes to every chain
    that wants it. *)
Definition dispatch (with_texts : bool) (tails : list (Alts * list nat)) (survivors : survivors_map) (e : PositionEntry) : survivors_map :=
  let next_pos := add32 e.2 1 in
  match ordinal_at e.1 next_pos with
  | Some ord =>
      foldl (λ sv '(l, wanting),
        if contains_alt with_texts l ord
        then foldl (λ sv ci, <[ci := default [] (sv !! ci) ++ [(e.1, next_pos, ord, e.2)]]> sv) sv wanting
        else sv) survivors tails
  | None => survivors
  end.

(** The rest of a member's chain, on its own. *)
Definition finish_member (chains : list TokenChainV3) (with_texts : bool) (st : list MatchV3 * survivors_map) (ci : nat) : out (flow (list MatchV3 * survivors_map)) :=
  let '(results, survivors) := st in
  c ← index chains (Z.of_nat ci);
  match ordinals c with
  | [_] => Ret (Go st)
  | l =>
      match survivors !! ci with
      | None => Ret (Go st)
      | Some active =>
          active ← steps (StrictPosmap with_texts) active (drop 2 l);
          match List.filter (confirmed (StrictPosmap with_texts)) active with
          | [] => Ret (Go (results, delete ci survivors))
          | active =>
              if cap <=? #results then Ret (Stop results) else
              h ← head c;
              Ret (match push_all results (map (emitted c h) active) with Go results => Go (results, delete ci survivors) | Stop r => Stop r end)
          end
      end
  end.
Fixpoint finish_members (chains : list TokenChainV3) (with_texts : bool) (st : list MatchV3 * survivors_map) (members : list nat) : out (flow (list MatchV3)) :=
  match members with
  | [] => Ret (Go st.1)
  | ci :: members =>
      r ← finish_member chains with_texts st ci;
      match r with Go st => finish_members chains with_texts st members | Stop ms => Ret (Stop ms) end
  end.

Definition resolve_group (chains : list TokenChainV3) (with_texts : bool) (results : list MatchV3) (first_key : list Z) (members : list nat) (entries : list PositionEntry)
    : out (flow (list MatchV3)) :=
  r ← register_all chains with_texts (1 <? #members) entries (results, [], ∅) members;
  match r with
  | Stop ms => Ret (Stop ms)
  | Go (results, tails, survivors) =>
      let survivors := match tails with [] => survivors | _ => foldl (dispatch with_texts tails) survivors entries end in
      finish_members chains with_texts (results, survivors) members
  end.

Fixpoint resolve_groups (chains : list TokenChainV3) (with_texts : bool) (results : list MatchV3) (memo : first_memo) (groups : list (list Z * list nat))
    : out (list MatchV3 * first_memo) :=
  match groups with
  | [] => Ret (results, memo)
  | (first_key, members) :: groups =>
      let '(entries, memo) := first_entries memo first_key in
      r ← resolve_group chains with_texts results first_key members entries;
      match r with Go results => resolve_groups chains with_texts results memo groups | Stop ms => Ret (ms, memo) end
  end.

(** The groups, by first list. *)
Fixpoint group_chains (i : nat) (groups : gmap (list Z) (list nat)) (chains : list TokenChainV3) : out (gmap (list Z) (list nat)) :=
  match chains with
  | [] => Ret groups
  | c :: chains =>
      match ordinals c with
      | [] => group_chains (S i) groups chains
      | _ => ids ← first_ids c; group_chains (S i) (<[ids := default [] (groups !! ids) ++ [i]]> groups) chains
      end
  end.

Definition resolve_chains_posmap_grouped (chains : list TokenChainV3) (with_texts : bool) (memo : first_memo) : out (list MatchV3 * first_memo) :=
  groups ← group_chains 0 ∅ chains;
  resolve_groups chains with_texts [] memo (iter groups).

(** ** [resolve_chains_impl] *)

(** How many chains start with each list, and the chains that share theirs. *)
Fixpoint count_first (count : gmap (list Z) Z) (chains : list TokenChainV3) : out (gmap (list Z) Z) :=
  match chains with
  | [] => Ret count
  | c :: chains =>
      match ordinals c with
      | [] => count_first count chains
      | _ => ids ← first_ids c; count_first (<[ids := default 0 (count !! ids) + 1]> count) chains
      end
  end.
Fixpoint split_shared (count : gmap (list Z) Z) (chains : list TokenChainV3) : out (list TokenChainV3 * list TokenChainV3) :=
  match chains with
  | [] => Ret ([], [])
  | c :: chains =>
      match ordinals c with
      | [] => split_shared count chains
      | _ =>
          ids ← first_ids c;
          '(shared, lone) ← split_shared count chains;
          Ret (if 1 <? default 0 (count !! ids) then (c :: shared, lone) else (shared, c :: lone))
      end
  end.

Definition resolve_chains_impl (chains : list TokenChainV3) (mode : AdjacencyMode) : out (list MatchV3) :=
  match mode with
  | StrictPosmap with_texts =>
      count ← count_first ∅ chains;
      '(shared, lone) ← split_shared count chains;
      '(results, memo) ← resolve_chains_posmap_grouped shared with_texts ∅;
      resolve_lone mode (results, memo) lone
  | _ => resolve_lone mode ([], ∅) chains
  end.

Definition resolve_chains_v3 (chains : list TokenChainV3) : out (list MatchV3) := resolve_chains_impl chains Strict.
Definition resolve_chains_v3_posmap (chains : list TokenChainV3) (with_texts : bool) : out (list MatchV3) :=
  resolve_chains_impl chains (StrictPosmap with_texts).
Definition resolve_chains_v3_relaxed (chains : list TokenChainV3) : out (list MatchV3) := resolve_chains_impl chains Relaxed.
End Filtered.
End Resolve.

End resolve.
