(* ===== verification/PostingSource.v ===== *)
(** * Where the resolution's answers come from

    The posting file as a [PostingResolver] ([SfxPostResolverV2] of
    [query/posting_resolver.rs]), and a corpus in memory: documents as lists
    of token ordinals, with the postings and the position map they give. *)
From stdpp Require Import gmap.
From S2P Require Import Prelude Ordering DocFilter SfxPost SfxPostFile Resolve.
Import sfxpost resolve.
Open Scope Z_scope.

Module source.

Definition ret_or {A} (d : A) (m : out A) : A := match m with Ret a => a | _ => d end.

(** [impl PostingResolver for SfxPostResolverV2]. *)
Definition resolver_of (r : SfxPostReaderV2) : PostingResolver := {|
  positions o := ret_or [] (sfxpost.positions_filtered (F := HashSet) r (as_u32 o) None);
  positions_filtered F _ o f := ret_or [] (sfxpost.positions_filtered (F := F) r (as_u32 o) (Some f));
  has_position o d p := ret_or false (sfxpost.has_position r (as_u32 o) d p);
|}.

(** A corpus: the tokens of each document. *)
Definition corpus_at (docs : list (list Z)) (d p : Z) : option Z :=
  if (0 <=? d) && (0 <=? p) then toks ← docs !! Z.to_nat d; toks !! Z.to_nat p else None.
Definition corpus_postings (docs : list (list Z)) (o : Z) : list PositionEntry :=
  concat (imap (λ d toks, concat (imap (λ p o', if o' =? o then [(Z.of_nat d, Z.of_nat p)] else []) toks)) docs).
Definition corpus_resolver (docs : list (list Z)) : PostingResolver := {|
  positions := corpus_postings docs;
  positions_filtered F _ o f := List.filter (λ e, contains f e.1) (corpus_postings docs o);
  has_position o d p := bool_decide ((d, p) ∈ corpus_postings docs o);
|}.

End source.
Import source.

#[export] Instance corpus_laws docs : ResolverLaws (corpus_resolver docs).
Proof. split; by intros. Qed.

Lemma elem_concat_imap {A B} (f : nat → A → list B) (l : list A) x : x ∈ concat (imap f l) ↔ ∃ i a, l !! i = Some a ∧ x ∈ f i a.
Proof.
  rewrite list_elem_of_In, in_concat. split.
  - intros (y & Hy & Hx). apply list_elem_of_In in Hy, Hx. apply list_elem_of_lookup_1 in Hy as [i Hi].
    rewrite list_lookup_imap in Hi. destruct (l !! i) as [a|] eqn:E; [|done]. injection Hi as <-. by exists i, a.
  - intros (i & a & Hi & Hx). exists (f i a). rewrite <- !list_elem_of_In. split; [|done]. apply (list_elem_of_lookup_2 _ i). by rewrite list_lookup_imap, Hi.
Qed.

(** The postings of a corpus and its position map say the same. *)
Lemma corpus_posmap docs d p o : corpus_at docs d p = Some o ↔ (d, p) ∈ corpus_postings docs o.
Proof.
  unfold corpus_postings. rewrite elem_concat_imap. setoid_rewrite elem_concat_imap. unfold corpus_at. split.
  - destruct (Z.leb_spec 0 d), (Z.leb_spec 0 p); try done. cbn [andb]. destruct (docs !! Z.to_nat d) as [toks|] eqn:Ed; [|done]. cbn. intros Ep.
    exists (Z.to_nat d), toks. split; [done|]. exists (Z.to_nat p), o. split; [done|]. rewrite Z.eqb_refl, !Z2Nat.id by done. by left.
  - intros (i & toks & Ed & j & o' & Ep & Hin). destruct (Z.eqb_spec o' o) as [->|]; [|by apply elem_of_nil in Hin].
    apply list_elem_of_singleton in Hin as [= -> ->]. rewrite !(proj2 (Z.leb_le 0 _)) by lia. cbn [andb]. rewrite !Nat2Z.id, Ed. exact Ep.
Qed.

(** ** The posting file *)

Lemma filter_map_comm {A B} (f : A → B) (p : B → bool) l : List.filter p (map f l) = map f (List.filter (λ x, p (f x)) l).
Proof. induction l as [|x l IH]; [done|]. cbn. destruct (p (f x)); cbn; by rewrite IH. Qed.

(** A posting file with positions, as it was written, serves its ordinals'
    entries in order, and honours the laws of a resolver. *)
Lemma written_resolver (w : SfxPostWriterV2) : posts_ok w → pw_docs_only w = false →
  ∃ bytes r, finish w = Ret bytes ∧ open bytes = Ret r ∧ ResolverLaws (resolver_of r) ∧
    (∀ o es, 0 ≤ o < 2 ^ 32 → pw_ordinals w !! Z.to_nat o = Some es →
      positions (resolver_of r) o = map (λ e, (entry_doc e, entry_ti e)) (sort_by entry_key es)) ∧
    ∀ o, 0 ≤ o < 2 ^ 32 → pw_ordinals w !! Z.to_nat o = None → positions (resolver_of r) o = [].
Proof.
  intros Hok Hdo. exists (posting_file w), (posting_reader w None). split; [by apply finish_spec|]. split; [by apply open_posting_file|].
  assert (∀ o es, pw_ordinals w !! Z.to_nat o = Some es → 0 ≤ o → ∀ F (HF : DocFilter F) (HL : DocFilterLaws F) (f : option F),
    sfxpost.positions_filtered (posting_reader w None) o f = Ret (map (λ e, (entry_doc e, entry_ti e))
      (match f with None => sort_by entry_key es | Some f => List.filter (λ e, contains f (entry_doc e)) (sort_by entry_key es) end))) as Hpf.
  { intros o es Ho Hpos F HF HL f. rewrite <- (Z2Nat.id o) by done. pose proof (header_of_local w _ es Hok Hdo Ho) as Hh.
    by eapply (read_positions_filtered _ _ _ _ Hh (posting_block_ok w Hok _ es Hdo Ho)). }
  assert (∀ o, pw_ordinals w !! Z.to_nat o = None → 0 ≤ o → header_of (posting_reader w None) o = Ret None) as Hnone.
  { intros o Ho Hpos. apply lookup_ge_None in Ho. eapply posting_header_none; [apply local_plain|]. cbn. unfold len. lia. }
  split; [split|split].
  - intros F HF HL o f. cbn [positions positions_filtered resolver_of]. assert (0 ≤ as_u32 o) as Hpos by (apply Z.mod_pos_bound; lia).
    destruct (pw_ordinals w !! Z.to_nat (as_u32 o)) as [es|] eqn:Eo.
    + rewrite (Hpf _ _ Eo Hpos F HF HL (Some f)), (Hpf _ _ Eo Hpos HashSet _ _ None). cbn [ret_or]. by rewrite filter_map_comm.
    + unfold sfxpost.positions_filtered. rewrite (Hnone _ Eo Hpos). done.
  - intros o d p. cbn [positions has_position resolver_of]. assert (0 ≤ as_u32 o) as Hpos by (apply Z.mod_pos_bound; lia).
    destruct (pw_ordinals w !! Z.to_nat (as_u32 o)) as [es|] eqn:Eo.
    + rewrite (Hpf _ _ Eo Hpos HashSet _ _ None). cbn [ret_or]. rewrite <- (Z2Nat.id (as_u32 o)) by done.
      rewrite (read_has_position _ _ _ _ (header_of_local w _ es Hok Hdo Eo) (posting_block_ok w Hok _ es Hdo Eo)). cbn [ret_or].
      apply eq_bool_prop_intro. rewrite !Is_true_true, bool_decide_eq_true. unfold at_position. rewrite existsb_exists. setoid_rewrite <- list_elem_of_In. rewrite list_elem_of_fmap. split.
      * intros (e & He & [Hd Hp]%andb_true_iff). exists e. rewrite elem_of_sort_by. apply Z.eqb_eq in Hd, Hp. by rewrite Hd, Hp.
      * intros (e & [= -> ->] & He). exists e. rewrite elem_of_sort_by in He. by rewrite !Z.eqb_refl.
    + unfold sfxpost.positions_filtered, sfxpost.has_position. rewrite (Hnone _ Eo Hpos). cbn. by rewrite bool_decide_eq_false_2 by apply not_elem_of_nil.
  - intros o es Ho Eo. cbn [positions resolver_of]. unfold as_u32. rewrite Z.mod_small by done. by rewrite (Hpf _ _ Eo (proj1 Ho) HashSet _ _ None).
  - intros o Ho Eo. cbn [positions resolver_of]. unfold as_u32. rewrite Z.mod_small by done. unfold sfxpost.positions_filtered. by rewrite (Hnone _ Eo (proj1 Ho)).
Qed.
