(* ===== verification/ResolveProofs.v ===== *)
(** * The two ways to resolve chains agree

    [resolve_chains_v3] reads the postings of every alternative at every
    position; [resolve_chains_v3_posmap] asks the position map which ordinal
    comes next, once for all the chains that share a first list.  Both are
    proved to return the matches of a reference that follows each chain from
    each posting of its first position. *)
From stdpp Require Import gmap.
From S2P Require Import Prelude Text DocFilter Resolve PostingSource.
Import resolve source.
Open Scope Z_scope.

(** ** Pushing under the cap *)

Section Push.
Context (cap : Z) (Hcap : 0 ≤ cap).
Implicit Types (results ms : list MatchV3).

(** [results] followed by [ms], or as much of it as the cap allows. *)
Definition capped results ms : flow (list MatchV3) :=
  if #results + #ms <=? cap then Go (results ++ ms) else Stop (take (Z.to_nat cap) (results ++ ms)).

Lemma capped_nil results : #results ≤ cap → capped results [] = Go results.
Proof using. intros Hr. unfold capped. rewrite len_nil, app_nil_r. by rewrite (proj2 (Z.leb_le _ _)) by lia. Qed.

Lemma push_all_capped ms : ∀ results, #results ≤ cap → push_all cap results ms = capped results ms.
Proof using.
  induction ms as [|m ms IH]; intros results Hr; cbn [push_all]; [by rewrite capped_nil|]. unfold push. destruct (Z.leb_spec cap #results) as [Hle|Hlt].
  - unfold capped. rewrite (proj2 (Z.leb_gt _ _)) by (rewrite len_cons; pose proof (len_nonneg ms); lia). f_equal.
    rewrite take_app_le by (unfold len in *; lia). symmetry. apply take_ge. unfold len in *. lia.
  - rewrite IH by (lens; lia). unfold capped. lens. rewrite Z.add_0_r.
    replace (#results + 1 + #ms) with (#results + (1 + #ms)) by lia. by rewrite <- app_assoc.
Qed.

(** Two loops, one after the other. *)
Lemma capped_app results ms1 ms2 : match capped results ms1 with Go r => capped r ms2 | Stop r => Stop r end = capped results (ms1 ++ ms2).
Proof using Hcap.
  unfold capped. destruct (Z.leb_spec (#results + #ms1) cap) as [Hle|Hgt].
  - rewrite !len_app, app_assoc. by replace (#results + #ms1 + #ms2) with (#results + (#ms1 + #ms2)) by lia.
  - rewrite (proj2 (Z.leb_gt _ _)) by (rewrite len_app; pose proof (len_nonneg ms2); lia). f_equal. rewrite app_assoc.
    symmetry. apply take_app_le. rewrite length_app. unfold len in *. lia.
Qed.

(** The guard before a chain's first match changes nothing. *)
Lemma capped_guard {A} results ms (k : flow (list MatchV3) → out A) : #results ≤ cap → ms ≠ [] →
  (if cap <=? #results then k (Stop results) else k (capped results ms)) = k (capped results ms).
Proof using Hcap.
  intros Hr Hms. destruct (Z.leb_spec cap #results) as [Hle|Hlt]; [|done]. f_equal. unfold capped.
  destruct ms as [|m ms]; [done|]. rewrite (proj2 (Z.leb_gt _ _)) by (rewrite len_cons; pose proof (len_nonneg ms); lia). f_equal.
  rewrite take_app_le by (unfold len in *; lia). symmetry. apply take_ge. unfold len in *. lia.
Qed.

Lemma capped_go results ms r : capped results ms = Go r → r = results ++ ms ∧ #r ≤ cap.
Proof using. unfold capped. destruct (Z.leb_spec (#results + #ms) cap); [|done]. intros [= <-]. rewrite len_app. split; [done|lia]. Qed.
End Push.

(** ** Lists and indexes *)

(** The index of the postings by document. *)
Lemma by_doc_spec (entries : list (PositionEntry * Z)) d i :
  i ∈ default [] (by_doc_of entries !! d) ↔ ∃ x, entries !! i = Some x ∧ x.1.1 = d.
Proof.
  unfold by_doc_of. induction entries as [|x entries IH] using rev_ind; [cbn; rewrite lookup_empty; split; [by intros ?%elem_of_nil|by intros (? & ? & _)]|].
  rewrite imap_app, foldl_app. cbn [imap foldl]. destruct x as [[d' p] o]. cbn [fst compose]. rewrite Nat.add_0_r.
  assert ((∃ x, (entries ++ [(d', p, o)]) !! i = Some x ∧ x.1.1 = d) ↔ (∃ x, entries !! i = Some x ∧ x.1.1 = d) ∨ i = length entries ∧ d' = d) as ->.
  { destruct (decide (i < length entries)%nat) as [Hlt|Hge].
    - rewrite lookup_app_l by done. split; [tauto|]. intros [?|[-> _]]; [done|lia].
    - rewrite lookup_app_r by lia. destruct (decide (i = length entries)) as [->|Hne].
      + rewrite Nat.sub_diag. cbn. split; [intros (x & [= <-] & Hx); by right|]. intros [(x & Hx & _)|[_ <-]]; [by apply lookup_lt_Some in Hx; lia|by eexists].
      + destruct (i - length entries)%nat as [|n] eqn:En; [lia|]. cbn. split; [by intros (x & ? & _)|]. intros [(x & Hx & _)|[? _]]; [apply lookup_lt_Some in Hx; lia|done]. }
  rewrite <- IH. destruct (decide (d' = d)) as [->|Hne].
  - rewrite lookup_insert_eq. cbn. rewrite elem_of_app, list_elem_of_singleton. tauto.
  - rewrite lookup_insert_ne by done. tauto.
Qed.

Lemma omap_ext_in {A B} (f g : A → option B) (l : list A) : (∀ x, x ∈ l → f x = g x) → omap f l = omap g l.
Proof. induction l as [|x l IH]; intros Hfg; [done|]. cbn. rewrite (Hfg x) by by left. rewrite IH by (intros; apply Hfg; by right). done. Qed.

Lemma omap_none {A B} (f : A → option B) (l : list A) : (∀ x, x ∈ l → f x = None) → omap f l = [].
Proof. induction l as [|x l IH]; intros Hl; [done|]. cbn. rewrite Hl by by left. apply IH. intros y ?. apply Hl. by right. Qed.

Lemma omap_omap {A B C} (f : A → option B) (g : B → option C) (l : list A) : omap g (omap f l) = omap (λ x, match f x with Some y => g y | None => None end) l.
Proof. induction l as [|x l IH]; [done|]. cbn. destruct (f x) as [y|]; cbn; [|done]. destruct (g y); by rewrite <- IH. Qed.

Lemma omap_some {A} (l : list A) : omap Some l = l.
Proof. induction l as [|x l IH]; [done|]. cbn. f_equal. exact IH. Qed.

Section Reference.
Context (cap : Z) (to_lowercase : list Z → list Z) (iter : gmap (list Z) (list nat) → list (list Z * list nat)).
Context (resolver : PostingResolver) (ordinal_at : Z → Z → option Z) (text : Z → option (list Z)) (has_content : Z → bool).
Context {F : Type} `{!DocFilter F} (filter_docs : option F).

Abbreviation posmap_next := (posmap_next to_lowercase ordinal_at text).
Abbreviation resolve_alternatives := (resolve_alternatives resolver filter_docs).
Implicit Types (a : Active) (c : TokenChainV3) (e : PositionEntry) (results : list MatchV3) (memo : first_memo).

(** One posting of the first position, followed through the rest. *)
Fixpoint follow (with_texts : bool) (rest : list Alts) a : option Active :=
  match rest with
  | [] => Some a
  | w :: rest => match posmap_next with_texts w a with Some a => follow with_texts rest a | None => None end
  end.

Definition init_active e : Active := (e.1, e.2, 0, e.2).

(** The matches of a chain that starts with the ordinals [h :: ids]. *)
Definition chain_hits (with_texts : bool) c : list MatchV3 :=
  match ordinals c with
  | [Ids (h :: ids)] => map (one_token c h) (resolve_alternatives (h :: ids))
  | Ids (h :: ids) :: rest => map (emitted c h) (omap (follow with_texts rest) (map init_active (resolve_alternatives (h :: ids))))
  | _ => []
  end.

Definition starts_explicit c : Prop := ∃ h ids rest, ordinals c = Ids (h :: ids) :: rest.

Lemma starts_explicit_first c : starts_explicit c → ∃ h ids, first_ids c = Ret (h :: ids) ∧ head c = Ret h.
Proof using. intros (h & ids & rest & E). exists h, ids. unfold head, first_ids. rewrite E. by split. Qed.

(** Every cached list is the list it stands for. *)
Definition memo_ok memo : Prop := ∀ ids v, memo !! ids = Some v → v = resolve_alternatives ids.

Lemma first_entries_spec memo ids : memo_ok memo →
  ∃ memo', first_entries resolver filter_docs memo ids = (resolve_alternatives ids, memo') ∧ memo_ok memo'.
Proof using.
  intros Hm. unfold first_entries. destruct (memo !! ids) as [v|] eqn:E; [exists memo; by rewrite (Hm _ _ E)|]. eexists. split; [done|].
  intros ids' v. destruct (decide (ids = ids')) as [<-|Hne]; [rewrite lookup_insert_eq; by intros [= <-]|]. rewrite lookup_insert_ne by done. apply Hm.
Qed.

(** A mode whose step is the position map's follows the chain. *)
Lemma steps_follow mode with_texts rest : (∀ w active, w ∈ rest → step to_lowercase resolver ordinal_at text has_content mode active w = Ret (omap (posmap_next with_texts w) active)) →
  ∀ active, steps to_lowercase resolver ordinal_at text has_content mode active rest = Ret (omap (follow with_texts rest) active).
Proof using.
  induction rest as [|w rest IH]; intros Hstep active; cbn [steps follow]; [by rewrite omap_some|]. destruct active as [|a active]; [done|].
  rewrite Hstep by by left. rewrite bind_ret, IH by (intros; apply Hstep; by right). by rewrite omap_omap.
Qed.
End Reference.

(** ** Postings and position map *)

Section Agreement.
Context (cap : Z) (to_lowercase : list Z → list Z) (iter : gmap (list Z) (list nat) → list (list Z * list nat)).
Context (resolver : PostingResolver) (ordinal_at : Z → Z → option Z) (text : Z → option (list Z)) (has_content : Z → bool).
Context {F : Type} `{!DocFilter F} (filter_docs : option F).
Context {Hlaws : ResolverLaws resolver}.
(** The position map holds, at each position of each document, the ordinal
    whose postings have it, of 32 bits. *)
Context (Hposmap : ∀ d p o, fits 32 o → ordinal_at d p = Some o ↔ (d, p) ∈ positions resolver o) (Hfits : ∀ d p o, ordinal_at d p = Some o → fits 32 o).
Implicit Types (a : Active) (c : TokenChainV3) (e : PositionEntry) (results : list MatchV3) (memo : first_memo).

Abbreviation posmap_next := (posmap_next to_lowercase ordinal_at text).
Abbreviation step := (step to_lowercase resolver ordinal_at text has_content).
Abbreviation steps := (steps to_lowercase resolver ordinal_at text has_content).
Abbreviation follow := (follow to_lowercase ordinal_at text).
Abbreviation first_valid := (first_valid ordinal_at has_content).

Lemma first_valid_some mode d p entries idxs x : first_valid mode d p entries idxs = Some x →
  ∃ i, i ∈ idxs ∧ entries !! i = Some x ∧ adjacent ordinal_at has_content mode d p x.1.2 = true.
Proof using.
  induction idxs as [|i idxs IH]; cbn [first_valid]; [done|]. destruct (entries !! i) as [[e o]|] eqn:Ei; [|done]. destruct (adjacent ordinal_at has_content mode d p e.2) eqn:Ea.
  - intros [= <-]. exists i. split_and!; [by left|exact Ei|exact Ea].
  - intros (j & ? & ?)%IH. exists j. split; [by right|done].
Qed.

Lemma first_valid_none mode d p entries idxs : first_valid mode d p entries idxs = None → (∀ i, i ∈ idxs → is_Some (entries !! i)) →
  ∀ i x, i ∈ idxs → entries !! i = Some x → adjacent ordinal_at has_content mode d p x.1.2 = false.
Proof using.
  induction idxs as [|i idxs IH]; cbn [first_valid]; [by intros _ _ ? ? ?%elem_of_nil|]. intros Hn Hin j x. destruct (Hin i ltac:(by left)) as [[e o] Ei].
  rewrite Ei in Hn. destruct (adjacent ordinal_at has_content mode d p e.2) eqn:Ea; [done|]. intros [->|Hj]%elem_of_cons Hx; [rewrite Ei in Hx; by injection Hx as <-|].
  eapply (IH Hn); [|exact Hj|exact Hx]. intros k ?. apply Hin. by right.
Qed.

(** The postings of the alternatives in the active documents. *)
Definition next_entries (ids : list Z) (active : list Active) : list (PositionEntry * Z) :=
  flat_map (λ ord, map (λ e, (e, ord)) (positions_filtered resolver ord (hash_set (map (λ a : Active, a.1.1.1) active)))) ids.

Lemma next_entries_spec ids active e o : (e, o) ∈ next_entries ids active ↔ o ∈ ids ∧ e ∈ positions resolver o ∧ e.1 ∈ map (λ a : Active, a.1.1.1) active.
Proof using Hlaws.
  unfold next_entries. rewrite list_elem_of_In, in_flat_map. setoid_rewrite <- list_elem_of_In. split.
  - intros (o' & Ho & Hin). apply list_elem_of_fmap in Hin as (e' & [= -> ->] & Hin). rewrite (positions_filtered_spec HashSet) in Hin.
    apply list_elem_of_In, filter_In in Hin as [Hin Hc]. rewrite <- list_elem_of_In in Hin. cbn in Hc. apply bool_decide_eq_true_1 in Hc. rewrite elem_of_remove_dups in Hc. done.
  - intros (Ho & He & Hd). exists o. split; [done|]. apply list_elem_of_fmap. exists e. split; [done|]. rewrite (positions_filtered_spec HashSet).
    apply list_elem_of_In, filter_In. rewrite <- list_elem_of_In. split; [done|]. cbn. by apply bool_decide_eq_true_2, elem_of_remove_dups.
Qed.

(** The pairs in the postings of the next position are what the position map
    says is there. *)
Lemma strict_next ids active a : Forall (fits 32) ids → a ∈ active →
  posting_next ordinal_at has_content Strict (next_entries ids active) (by_doc_of (next_entries ids active)) a = posmap_next true (Ids ids) a.
Proof using Hlaws Hposmap Hfits.
  intros Hids Ha. destruct a as [[[d p] lo] f]. cbn [posting_next resolve.posmap_next contains_alt]. set (entries := next_entries ids active).
  assert (∀ i, i ∈ default [] (by_doc_of entries !! d) → is_Some (entries !! i)) as Hin by (intros i (x & Hx & _)%by_doc_spec; by eexists).
  assert (d ∈ map (λ a : Active, a.1.1.1) active) as Hd by (apply list_elem_of_fmap; by exists (d, p, lo, f)).
  assert (∀ o, ordinal_at d (add32 p 1) = Some o → o ∈ ids → ∃ i, i ∈ default [] (by_doc_of entries !! d) ∧ entries !! i = Some (d, add32 p 1, o)) as Hthere.
  { intros o Ho Hin'. assert ((d, add32 p 1, o) ∈ entries) as [i Hi]%list_elem_of_lookup_1 by (apply next_entries_spec; split; [done|split; [apply Hposmap; [by eapply Hfits|done]|done]]).
    exists i. split; [|done]. apply by_doc_spec. by eexists. }
  destruct (by_doc_of entries !! d) as [idxs|] eqn:Eb; cbn [default] in Hin, Hthere; unfold default, id in Hin, Hthere.
  - destruct (first_valid Strict d p entries idxs) as [[e o]|] eqn:Ev.
    + apply first_valid_some in Ev as (i & Hi & Hx & Hadj). cbn in Hadj. apply Z.eqb_eq in Hadj.
      assert (i ∈ default [] (by_doc_of entries !! d)) as (x & Hx' & Hd')%by_doc_spec by by rewrite Eb.
      rewrite Hx in Hx'. injection Hx' as <-. cbn in Hd'. apply list_elem_of_lookup_2, next_entries_spec in Hx as (Ho & He & _).
      destruct e as [d' p']. cbn in *. subst d' p'. rewrite Forall_forall in Hids. apply Hposmap in He; [|by apply Hids]. rewrite He. by rewrite bool_decide_eq_true_2.
    + destruct (ordinal_at d (add32 p 1)) as [o|] eqn:Eo; [|done]. case_bool_decide as Ho; [|done]. exfalso.
      destruct (Hthere o eq_refl Ho) as (i & Hi & Hx). pose proof (first_valid_none _ _ _ _ _ Ev Hin i _ Hi Hx) as Hadj. cbn in Hadj. by rewrite Z.eqb_refl in Hadj.
  - destruct (ordinal_at d (add32 p 1)) as [o|] eqn:Eo; [|done]. case_bool_decide as Ho; [|done]. destruct (Hthere o eq_refl Ho) as (i & Hi & _). by apply elem_of_nil in Hi.
Qed.

Lemma strict_step ids active : Forall (fits 32) ids → step Strict active (Ids ids) = Ret (omap (posmap_next true (Ids ids)) active).
Proof using Hlaws Hposmap Hfits. intros Hids. cbn [resolve.step explicit]. rewrite bind_ret. f_equal. apply omap_ext_in. intros a Ha. by apply strict_next. Qed.

(** ** One chain at a time *)

Context (Hcap : 0 ≤ cap).
Abbreviation chain_hits := (chain_hits to_lowercase resolver ordinal_at text filter_docs).
Abbreviation memo_ok := (memo_ok resolver filter_docs).
Abbreviation resolve_alternatives := (resolve_alternatives resolver filter_docs).
Abbreviation resolve_chain := (resolve_chain cap to_lowercase resolver ordinal_at text has_content filter_docs).
Abbreviation resolve_lone := (resolve_lone cap to_lowercase resolver ordinal_at text has_content filter_docs).

(** A mode and the alternatives it can step through by the position map. *)
Definition steps_ok (mode : AdjacencyMode) (with_texts : bool) c : Prop :=
  starts_explicit c ∧
  match mode with
  | Strict => ∀ w, w ∈ tail (ordinals c) → ∃ ids, w = Ids ids ∧ Forall (fits 32) ids
  | StrictPosmap wt => wt = with_texts
  | Relaxed => False
  end.

Lemma follow_last with_texts rest : ∀ a a', rest ≠ [] → follow with_texts rest a = Some a' → let '(d, p, o, _) := a' in (d, p) ∈ positions resolver o.
Proof using Hposmap Hfits.
  induction rest as [|w rest IH]; intros a a' Hne Hf; [done|]. cbn [resolve.posmap_next ResolveProofs.follow] in Hf.
  destruct (posmap_next with_texts w a) as [a1|] eqn:E; [|done]. destruct rest as [|w' rest]; [|by apply (IH a1)].
  injection Hf as <-. destruct a as [[[d p] o] f]. cbn in E. destruct (ordinal_at d (add32 p 1)) as [o'|] eqn:Eo; [|done]. destruct (contains_alt _ _ _ _ _); [|done].
  injection E as <-. apply Hposmap; [by eapply Hfits|done].
Qed.

Lemma filter_true {A} (f : A → bool) (l : list A) : (∀ x, x ∈ l → f x = true) → List.filter f l = l.
Proof using. induction l as [|x l IH]; intros Hf; [done|]. cbn. rewrite (Hf x) by by left. f_equal. apply IH. intros y ?. apply Hf. by right. Qed.

Lemma follow_confirmed mode with_texts rest (entries : list PositionEntry) : rest ≠ [] →
  List.filter (confirmed resolver mode) (omap (follow with_texts rest) (map init_active entries)) = omap (follow with_texts rest) (map init_active entries).
Proof using Hlaws Hposmap Hfits.
  intros Hne. apply filter_true. intros a (a0 & Ha0 & Hf)%list_elem_of_omap. apply follow_last in Hf; [|done]. destruct a as [[[d p] o] f].
  destruct mode; [done| |done]. cbn. rewrite has_position_spec. by apply bool_decide_eq_true_2.
Qed.

Lemma emit_capped {A B} (l : list A) (g : A → MatchV3) results (h : Z) (k : flow (list MatchV3) → out B) : #results ≤ cap →
  match l with [] => k (Go results) | _ => if cap <=? #results then k (Stop results) else k (push_all cap results (map g l)) end = k (capped cap results (map g l)).
Proof using Hcap.
  intros Hr. destruct l as [|x l]; [by rewrite capped_nil|]. rewrite push_all_capped by done. by apply (capped_guard cap Hcap results (map g (x :: l)) k).
Qed.

Lemma resolve_chain_spec mode with_texts results memo c : steps_ok mode with_texts c → #results ≤ cap → memo_ok memo →
  ∃ memo', memo_ok memo' ∧ resolve_chain mode (results, memo) c =
    Ret (match capped cap results (chain_hits with_texts c) with Go r => Go (r, memo') | Stop r => Stop r end).
Proof using Hlaws Hposmap Hfits Hcap.
  intros [(h & ids & rest & Eo) Hmode] Hr Hm. pose proof (first_entries_spec resolver filter_docs memo (h :: ids) Hm) as (memo' & Ef & Hm'). exists memo'. split; [done|].
  set (k := λ f : flow (list MatchV3), Ret (match f with Go r => Go (r, memo') | Stop r => Stop r end) : out (flow (list MatchV3 * first_memo))).
  change (resolve_chain mode (results, memo) c = k (capped cap results (chain_hits with_texts c))).
  assert (first_ids c = Ret (h :: ids) ∧ head c = Ret h) as [Efi Eh] by (unfold head, first_ids; rewrite Eo; by split).
  unfold resolve.resolve_chain, ResolveProofs.chain_hits. rewrite Eo, Efi, bind_ret, Ef. destruct rest as [|w rest].
  - rewrite <- (emit_capped (resolve_alternatives (h :: ids)) (one_token c h) results h k Hr). destruct (resolve_alternatives (h :: ids)); [done|]. by rewrite Eh, bind_ret.
  - rewrite (steps_follow _ _ _ _ _ mode with_texts); cycle 1.
    { intros w' active Hw. destruct mode as [|wt|]; [|by rewrite <- Hmode|done]. destruct (Hmode w') as (ids' & -> & Hf); [by rewrite Eo|]. rewrite strict_step by done. done. }
    rewrite bind_ret, follow_confirmed by done.
    rewrite <- (emit_capped (omap (follow with_texts (w :: rest)) (map init_active (resolve_alternatives (h :: ids)))) (emitted c h) results h k Hr).
    destruct (omap _ _); [done|]. by rewrite Eh, bind_ret.
Qed.

Lemma resolve_lone_spec mode with_texts chains : Forall (steps_ok mode with_texts) chains → ∀ results memo, #results ≤ cap → memo_ok memo →
  resolve_lone mode (results, memo) chains = Ret (match capped cap results (flat_map (chain_hits with_texts) chains) with Go r | Stop r => r end).
Proof using Hlaws Hposmap Hfits Hcap.
  intros Hc. induction Hc as [|c chains Hc Hcs IH]; intros results memo Hr Hm; cbn [resolve.resolve_lone flat_map]; [by rewrite capped_nil|].
  destruct (resolve_chain_spec mode with_texts results memo c Hc Hr Hm) as (memo' & Hm' & ->). rewrite bind_ret, <- capped_app by done.
  destruct (capped cap results (chain_hits with_texts c)) as [r|r] eqn:E; [|done]. apply capped_go in E as [_ Hr']. by apply IH.
Qed.

(** ** The chains of a group *)

Section Group.
Context (with_texts : bool) (chains : list TokenChainV3) (key : list Z).
Abbreviation entries := (resolve_alternatives key).
Abbreviation register := (register cap to_lowercase ordinal_at text chains with_texts).
Abbreviation register_all := (register_all cap to_lowercase ordinal_at text chains with_texts).
Abbreviation dispatch := (dispatch to_lowercase ordinal_at text with_texts).
Abbreviation finish_member := (finish_member cap to_lowercase resolver ordinal_at text has_content chains with_texts).
Abbreviation finish_members := (finish_members cap to_lowercase resolver ordinal_at text has_content chains with_texts).

(** Chain [ci] is a member: it starts with the list of the group. *)
Definition member (ci : nat) c : Prop := chains !! ci = Some c ∧ ∃ h ids rest, key = h :: ids ∧ ordinals c = Ids key :: rest.

Definition wanted_of (ci : nat) : option Alts := c ← chains !! ci; ordinals c !! 1%nat.
Definition is_single (ci : nat) : bool := match wanted_of ci with Some _ => false | None => true end.

(** What [dispatch] and [register] come to for one chain. *)
Definition survived (ci : nat) : list Active := match wanted_of ci with Some w => omap (posmap_next with_texts w) (map init_active entries) | None => [] end.

Lemma member_hits ci c : member ci c → ∃ h, head c = Ret h ∧
  chain_hits with_texts c = if is_single ci then map (one_token c h) entries
    else map (emitted c h) (omap (follow with_texts (drop 2 (ordinals c))) (survived ci)).
Proof using.
  intros (Hci & h & ids & rest & Ek & Eo). exists h. split; [unfold head, first_ids; by rewrite Eo, Ek|].
  unfold survived, is_single, wanted_of, ResolveProofs.chain_hits. rewrite Hci. cbn. rewrite Eo, Ek. destruct rest as [|w rest]; [done|]. cbn [lookup list_lookup drop].
  rewrite omap_omap. done.
Qed.

(** The members that a list of tails serves. *)
Definition tails_ok (tails : list (Alts * list nat)) (ms : list nat) : Prop :=
  NoDup (concat (map snd tails)) ∧ (∀ ci, ci ∈ concat (map snd tails) ↔ ci ∈ ms ∧ is_single ci = false) ∧
  ∀ l cs ci, (l, cs) ∈ tails → ci ∈ cs → wanted_of ci = Some l.

Lemma add_tail_elem tails w ci l cs : (l, cs) ∈ add_tail tails w ci → (l, cs) ∈ tails ∨ l = w ∧ (cs = [ci] ∨ ∃ cs', (l, cs') ∈ tails ∧ cs = cs' ++ [ci]).
Proof using.
  induction tails as [|[l' cs'] tails IH]; cbn [add_tail]; [intros [= -> ->]%list_elem_of_singleton; by right; split; [|left]|].
  destruct (decide (l' = w)) as [->|Hne]; intros [[= -> ->]|Hin]%elem_of_cons.
  - right. split; [done|]. right. exists cs'. split; [by left|done].
  - left. by right.
  - left. by left.
  - destruct (IH Hin) as [?|(-> & [->|(cs'' & ? & ->)])]; [left; by right|right; split; [done|by left]|]. right. split; [done|]. right. exists cs''. split; [by right|done].
Qed.

Lemma add_tail_perm tails w ci : concat (map snd (add_tail tails w ci)) ≡ₚ ci :: concat (map snd tails).
Proof using.
  induction tails as [|[l cs] tails IH]; [done|]. cbn [add_tail]. destruct (decide (l = w)); cbn [map concat snd].
  - rewrite <- app_assoc. cbn. by rewrite <- Permutation_middle.
  - rewrite IH. by rewrite Permutation_middle.
Qed.

Lemma tails_add tails ms ci w : tails_ok tails ms → ci ∉ ms → wanted_of ci = Some w → tails_ok (add_tail tails w ci) (ms ++ [ci]).
Proof using cap chains has_content key text to_lowercase.
  intros (Hnd & Hin & Hw) Hci Hwant. split_and!.
  - rewrite add_tail_perm. apply NoDup_cons. split; [|done]. rewrite Hin. tauto.
  - intros cj. rewrite add_tail_perm, elem_of_cons, Hin, elem_of_app, list_elem_of_singleton. unfold is_single.
    split; [intros [ ->|[? ?]]; [rewrite Hwant; tauto|tauto]|]. intros [[?| ->] ?]; [right; done|by left].
  - intros l cs cj [Hl|(-> & [->|(cs' & Hl & ->)])]%add_tail_elem Hj; [by eapply Hw|by apply list_elem_of_singleton in Hj as ->|].
    apply elem_of_app in Hj as [Hj| ->%list_elem_of_singleton]; [by eapply Hw|done].
Qed.

(** The matches of the members of one position, and of the others. *)
Definition hits_at (ci : nat) : list MatchV3 := match chains !! ci with Some c => chain_hits with_texts c | None => [] end.
Definition single_hits (ci : nat) : list MatchV3 := if is_single ci then hits_at ci else [].
Definition multi_hits (ci : nat) : list MatchV3 := if is_single ci then [] else hits_at ci.

Lemma register_single shared results tails sv ci c h : chains !! ci = Some c → ordinals c = [Ids key] → head c = Ret h → #results ≤ cap →
  register shared entries (results, tails, sv) ci =
    Ret (match capped cap results (map (one_token c h) entries) with Go r => Go (r, tails, sv) | Stop r => Stop r end).
Proof using Hcap.
  intros Eci Eo Eh Hr. unfold resolve.register. rewrite (index_lookup chains (Z.of_nat ci) c) by (lia || by rewrite Nat2Z.id). rewrite bind_ret, Eo.
  set (k := λ f : flow (list MatchV3), Ret (match f with Go r => Go (r, tails, sv) | Stop r => Stop r end) : out (flow (list MatchV3 * list (Alts * list nat) * survivors_map))).
  change (Ret (match capped cap results (map (one_token c h) entries) with Go r => Go (r, tails, sv) | Stop r => Stop r end)) with (k (capped cap results (map (one_token c h) entries))).
  rewrite <- (emit_capped entries (one_token c h) results h k Hr). destruct entries; [done|]. by rewrite Eh, bind_ret.
Qed.

(** Registering the members of a shared list. *)
Lemma register_shared ms : ∀ pre results tails, (∀ ci, ci ∈ ms → ∃ c, member ci c) → NoDup (pre ++ ms) → tails_ok tails pre → #results ≤ cap →
  match capped cap results (flat_map single_hits ms) with
  | Go r => ∃ tails', tails_ok tails' (pre ++ ms) ∧ register_all true entries (results, tails, ∅) ms = Ret (Go (r, tails', ∅))
  | Stop r => register_all true entries (results, tails, ∅) ms = Ret (Stop r)
  end.
Proof using Hcap has_content.
  induction ms as [|ci ms IH]; intros pre results tails Hm Hnd Ht Hr; cbn [resolve.register_all flat_map].
  { rewrite capped_nil by done. exists tails. by rewrite app_nil_r. }
  destruct (Hm ci ltac:(by left)) as [c Hc]. destruct (member_hits ci c Hc) as (h & Eh & Ehits). pose proof Hc as (Eci & h' & ids & rest & Ek & Eo).
  assert (ci ∉ pre) as Hpre by (intros Hin; apply NoDup_app in Hnd as (_ & Hd & _); apply (Hd ci Hin); by left).
  replace (pre ++ ci :: ms) with ((pre ++ [ci]) ++ ms) in * by by rewrite <- app_assoc.
  rewrite <- capped_app by done. unfold single_hits at 1, hits_at. rewrite Eci. destruct rest as [|w rest].
  - assert (is_single ci = true) as Es by (unfold is_single, wanted_of; rewrite Eci; cbn; by rewrite Eo). rewrite Es in *. rewrite Ehits.
    rewrite (register_single true results tails ∅ ci c h Eci Eo Eh Hr), bind_ret.
    destruct (capped cap results (map (one_token c h) entries)) as [r|r] eqn:Ec; [|done]. apply capped_go in Ec as [_ Hr'].
    apply (IH (pre ++ [ci]) r tails); [intros; apply Hm; by right|done| |done].
    destruct Ht as (? & Hin & ?). split_and!; [done| |done]. intros cj. rewrite Hin, elem_of_app, list_elem_of_singleton. split; [tauto|]. intros [[?| ->] ?]; [done|congruence].
  - assert (wanted_of ci = Some w) as Ew by (unfold wanted_of; rewrite Eci; cbn; by rewrite Eo). unfold is_single. rewrite Ew, capped_nil by done.
    unfold resolve.register. rewrite (index_lookup chains (Z.of_nat ci) c) by (lia || by rewrite Nat2Z.id). rewrite bind_ret, Eo, bind_ret.
    apply (IH (pre ++ [ci]) results (add_tail tails w ci)); [intros; apply Hm; by right|done|by apply tails_add|done].
Qed.

(** One posting reaches each of the chains that want what follows it. *)
Lemma give_spec (x : Active) (ci : nat) wanting : NoDup wanting → ∀ sv : survivors_map,
  default [] (foldl (λ sv cj, <[cj := default [] (sv !! cj) ++ [x]]> sv) sv wanting !! ci) = default [] (sv !! ci) ++ (if decide (ci ∈ wanting) then [x] else []).
Proof using.
  induction 1 as [|cj wanting Hcj Hnd IH]; intros sv; cbn [foldl]; [rewrite decide_False by apply not_elem_of_nil; by rewrite app_nil_r|]. rewrite IH.
  destruct (decide (ci = cj)) as [->|Hne].
  - rewrite lookup_insert_eq, (decide_False (P := cj ∈ wanting)), app_nil_r by done. rewrite decide_True by by left. done.
  - rewrite lookup_insert_ne by done. f_equal. destruct (decide (ci ∈ wanting)); [by rewrite decide_True by by right|]. rewrite decide_False; [done|]. by intros [?|?]%elem_of_cons.
Qed.

Lemma dispatch_spec tails e (ci : nat) : NoDup (concat (map snd tails)) → (∀ l cs cj, (l, cs) ∈ tails → cj ∈ cs → wanted_of cj = Some l) → ∀ sv,
  default [] (dispatch tails sv e !! ci) = default [] (sv !! ci) ++
    (if decide (ci ∈ concat (map snd tails)) then match wanted_of ci with Some w => omap (posmap_next with_texts w) [init_active e] | None => [] end else []).
Proof using.
  intros Hnd Hw sv. unfold resolve.dispatch. destruct e as [d p]. cbn [fst snd init_active omap list_omap resolve.posmap_next].
  destruct (ordinal_at d (add32 p 1)) as [o|] eqn:Eo.
  2: { rewrite <- (app_nil_r (default [] (sv !! ci))) at 1. f_equal. case_decide; [|done]. destruct (wanted_of ci); [|done]. cbn -[add32]. by rewrite ?Eo. }
  revert sv. induction tails as [|[l cs] tails IH]; intros sv; cbn [foldl map concat snd]; [rewrite decide_False by apply not_elem_of_nil; by rewrite app_nil_r|].
  cbn [map concat snd] in Hnd. apply NoDup_app in Hnd as (Hcs & Hdisj & Hnd). rewrite IH by (done || (intros; eapply Hw; [by right|done])).
  set (out := match wanted_of ci with Some w => _ | None => [] end). destruct (decide (ci ∈ cs)) as [Hci|Hci].
  - rewrite (decide_False (P := ci ∈ concat (map snd tails))), app_nil_r by by apply Hdisj. rewrite decide_True by (apply elem_of_app; by left).
    unfold out. rewrite (Hw l cs ci) by (done || by left). cbn -[add32]. rewrite ?Eo. destruct (contains_alt _ _ _ _ _); [|by rewrite app_nil_r].
    rewrite give_spec by done. by rewrite decide_True.
  - assert (default [] ((if contains_alt to_lowercase text with_texts l o then foldl (λ sv cj, <[cj := default [] (sv !! cj) ++ [(d, add32 p 1, o, p)]]> sv) sv cs else sv) !! ci) = default [] (sv !! ci)) as ->.
    { destruct (contains_alt _ _ _ _ _); [|done]. rewrite give_spec by done. by rewrite decide_False, app_nil_r. }
    f_equal. destruct (decide (ci ∈ concat (map snd tails))); [rewrite decide_True by (apply elem_of_app; by right)|rewrite decide_False by (by rewrite elem_of_app; intros [?|?])]; done.
Qed.

Lemma dispatch_all tails ms ci : tails_ok tails ms → ∀ es sv,
  default [] (foldl (dispatch tails) sv es !! ci) = default [] (sv !! ci) ++
    (if decide (ci ∈ concat (map snd tails)) then match wanted_of ci with Some w => omap (posmap_next with_texts w) (map init_active es) | None => [] end else []).
Proof using.
  intros (Hnd & Hin & Hw) es. induction es as [|e es IH]; intros sv; cbn [foldl map].
  - destruct (decide _); [destruct (wanted_of ci)|]; by rewrite app_nil_r.
  - rewrite IH, dispatch_spec by done. rewrite <- app_assoc. f_equal. destruct (decide _); [|done]. destruct (wanted_of ci) as [w|]; [|done]. 
    change (init_active e :: map init_active es) with ([init_active e] ++ map init_active es). by rewrite omap_app.
Qed.

(** ** The rest of the members *)

Lemma survived_follow ci w rest : wanted_of ci = Some w →
  omap (follow with_texts rest) (survived ci) = omap (follow with_texts (w :: rest)) (map init_active entries).
Proof using. intros Ew. unfold survived. rewrite Ew. by rewrite omap_omap. Qed.

Lemma finish_member_spec results sv ci c : member ci c → default [] (sv !! ci) = survived ci → #results ≤ cap →
  ∃ sv', (∀ cj, cj ≠ ci → sv' !! cj = sv !! cj) ∧
    finish_member (results, sv) ci = Ret (match capped cap results (multi_hits ci) with Go r => Go (r, sv') | Stop r => Stop r end).
Proof using Hlaws Hposmap Hfits Hcap.
  intros Hc Hsv Hr. destruct (member_hits ci c Hc) as (h & Eh & Ehits). destruct Hc as (Eci & h' & ids & rest & Ek & Eo).
  unfold resolve.finish_member, multi_hits, hits_at. rewrite (index_lookup chains (Z.of_nat ci) c) by (lia || by rewrite Nat2Z.id). rewrite bind_ret, Eci, Ehits.
  destruct rest as [|w rest].
  { assert (is_single ci = true) as -> by (unfold is_single, wanted_of; rewrite Eci; cbn; by rewrite Eo). exists sv. split; [done|]. rewrite Eo, capped_nil by done. done. }
  assert (wanted_of ci = Some w) as Ew by (unfold wanted_of; rewrite Eci; cbn; by rewrite Eo). assert (is_single ci = false) as -> by (unfold is_single; by rewrite Ew).
  rewrite Eo. cbn [drop]. rewrite drop_0, (survived_follow ci w rest Ew). destruct (sv !! ci) as [active|] eqn:Esv; cbn in Hsv.
  - exists (delete ci sv). split; [intros cj Hne; by rewrite lookup_delete_ne|]. subst active. rewrite (steps_follow _ _ _ _ _ _ with_texts) by done.
    rewrite bind_ret, (survived_follow ci w rest Ew), follow_confirmed by done.
    set (k := λ f : flow (list MatchV3), Ret (match f with Go r => Go (r, delete ci sv) | Stop r => Stop r end) : out (flow (list MatchV3 * survivors_map))).
    change (Ret (match ?x with Go r => Go (r, delete ci sv) | Stop r => Stop r end)) with (k x).
    rewrite <- (emit_capped (omap (follow with_texts (w :: rest)) (map init_active entries)) (emitted c h) results h k Hr).
    destruct (omap (follow with_texts (w :: rest)) (map init_active entries)); [done|]. by rewrite Eh, bind_ret.
  - exists sv. split; [done|]. rewrite <- (survived_follow ci w rest Ew), <- Hsv. cbn. by rewrite capped_nil.
Qed.

Lemma finish_members_spec ms : ∀ results sv, NoDup ms → (∀ ci, ci ∈ ms → ∃ c, member ci c) → (∀ ci, ci ∈ ms → default [] (sv !! ci) = survived ci) → #results ≤ cap →
  finish_members (results, sv) ms = Ret (capped cap results (flat_map multi_hits ms)).
Proof using Hlaws Hposmap Hfits Hcap.
  induction ms as [|ci ms IH]; intros results sv Hnd Hm Hsv Hr; cbn [resolve.finish_members flat_map]; [by rewrite capped_nil|].
  apply NoDup_cons in Hnd as [Hci Hnd]. destruct (Hm ci ltac:(by left)) as [c Hc].
  destruct (finish_member_spec results sv ci c Hc (Hsv ci ltac:(by left)) Hr) as (sv' & Hsv' & ->). rewrite bind_ret, <- capped_app by done.
  destruct (capped cap results (multi_hits ci)) as [r|r] eqn:E; [|done]. apply capped_go in E as [_ Hr']. apply IH; [done|intros; apply Hm; by right| |done].
  intros cj Hj. rewrite Hsv' by (by intros ->). apply Hsv. by right.
Qed.

Lemma resolve_group_spec results ms : NoDup ms → (∀ ci, ci ∈ ms → ∃ c, member ci c) → #results ≤ cap →
  resolve_group cap to_lowercase resolver ordinal_at text has_content chains with_texts results key ms entries =
    Ret (capped cap results (flat_map single_hits ms ++ flat_map multi_hits ms)).
Proof using Hlaws Hposmap Hfits Hcap.
  intros Hnd Hm Hr. unfold resolve_group. rewrite <- capped_app by done. destruct (Z.ltb_spec 1 #ms) as [Hgt|Hle].
  - pose proof (register_shared ms [] results [] Hm Hnd ltac:(split_and!; [constructor|intros ci; cbn; by rewrite !elem_of_nil; tauto|by intros ? ? ? ?%elem_of_nil]) Hr) as Hreg.
    destruct (capped cap results (flat_map single_hits ms)) as [r|r] eqn:E; [|by rewrite Hreg, bind_ret]. destruct Hreg as (tails & Ht & ->). rewrite bind_ret.
    apply capped_go in E as [_ Hr']. apply finish_members_spec; [done|done| |done]. intros ci Hci.
    assert (default [] (match tails with [] => ∅ | _ => foldl (dispatch tails) ∅ entries end !! ci) = default [] (foldl (dispatch tails) ∅ entries !! ci)) as ->.
    { destruct tails; [|done]. rewrite (dispatch_all [] ms ci Ht). cbn. by rewrite lookup_empty. }
    rewrite (dispatch_all tails ms ci Ht), lookup_empty. cbn [default]. unfold survived. destruct Ht as (_ & Hin & _). case_decide as Hd; [done|].
    unfold is_single in Hin. specialize (Hin ci). destruct (wanted_of ci); [|done]. tauto.
  - destruct ms as [|ci [|cj ms]]; [|..]; cycle 2.
    { exfalso. rewrite !len_cons in Hle. pose proof (len_nonneg ms). lia. }
    { cbn [resolve.register_all flat_map]. rewrite !bind_ret. rewrite capped_nil by done. cbn. by rewrite capped_nil. }
    destruct (Hm ci ltac:(by left)) as [c Hc]. destruct (member_hits ci c Hc) as (h & Eh & Ehits). pose proof Hc as (Eci & h' & ids & rest & Ek & Eo).
    cbn [resolve.register_all]. destruct rest as [|w rest].
    + assert (is_single ci = true) as Es by (unfold is_single, wanted_of; rewrite Eci; cbn; by rewrite Eo).
      rewrite (register_single false results [] ∅ ci c h Eci Eo Eh Hr), bind_ret. cbn [flat_map]. unfold single_hits, hits_at. rewrite Es, Eci, Ehits, Es, app_nil_r.
      destruct (capped cap results (map (one_token c h) entries)) as [r|r] eqn:E; [|done]. rewrite bind_ret. apply capped_go in E as [_ Hr'].
      apply (finish_members_spec [ci]); [done|done| |done]. intros cj ->%list_elem_of_singleton. rewrite lookup_empty. unfold survived, is_single in *. by destruct (wanted_of ci).
    + assert (wanted_of ci = Some w) as Ew by (unfold wanted_of; rewrite Eci; cbn; by rewrite Eo).
      assert (single_hits ci = []) as Es by (unfold single_hits, is_single; by rewrite Ew). cbn [flat_map]. rewrite Es. cbn [app]. rewrite capped_nil by done.
      unfold resolve.register. rewrite (index_lookup chains (Z.of_nat ci) c) by (lia || by rewrite Nat2Z.id). rewrite bind_ret, Eo, !bind_ret.
      apply (finish_members_spec [ci]); [done|done| |done]. intros cj ->%list_elem_of_singleton. unfold survived. rewrite Ew.
      change (map (λ e : PositionEntry, (e.1, e.2, 0, e.2)) entries) with (map init_active entries).
      destruct (omap (posmap_next with_texts w) (map init_active entries)); [by rewrite lookup_empty|by rewrite lookup_insert_eq].
Qed.
End Group.

(** ** All groups *)

Abbreviation groups_map := (gmap (list Z) (list nat)).
Definition members_of (g : groups_map) : list nat := concat (map snd (map_to_list g)).

Lemma members_insert (g : groups_map) k (i : nat) : members_of (<[k := default [] (g !! k) ++ [i]]> g) ≡ₚ i :: members_of g.
Proof using.
  unfold members_of. rewrite <- (insert_delete_eq g). rewrite map_to_list_insert by apply lookup_delete_eq. cbn [map concat snd]. destruct (g !! k) as [l|] eqn:E; cbn.
  - rewrite <- (insert_delete_id g k l E) at 2. rewrite map_to_list_insert by apply lookup_delete_eq. cbn [map concat snd].
    rewrite <- app_assoc. cbn. by rewrite <- Permutation_middle.
  - by rewrite delete_id.
Qed.

Definition first_list c (key : list Z) : Prop := ∃ h ids rest, key = h :: ids ∧ ordinals c = Ids key :: rest.

Lemma first_list_ids c : starts_explicit c → ∃ key, first_ids c = Ret key ∧ first_list c key ∧ ordinals c ≠ [].
Proof using. intros (h & ids & rest & E). exists (h :: ids). unfold first_ids. rewrite E. split_and!; [done| |done]. by exists h, ids, rest. Qed.

Lemma group_chains_spec chains : Forall starts_explicit chains → ∀ all pre g, all = pre ++ chains →
  (∀ k ms ci, g !! k = Some ms → ci ∈ ms → member all k ci (default (Build_TokenChainV3 [] 0 0 0) (all !! ci))) →
  ∃ g', group_chains (length pre) g chains = Ret g' ∧ members_of g' ≡ₚ members_of g ++ seq (length pre) (length chains) ∧
    ∀ k ms ci, g' !! k = Some ms → ci ∈ ms → member all k ci (default (Build_TokenChainV3 [] 0 0 0) (all !! ci)).
Proof using.
  induction 1 as [|c chains Hc Hcs IH]; intros all pre g Eall Hg; cbn [group_chains length seq]; [exists g; by rewrite app_nil_r|].
  destruct (first_list_ids c Hc) as (key & Ek & Hkey & Hne). destruct (ordinals c) as [|a l] eqn:Eo; [done|]. rewrite Ek, bind_ret.
  assert (S (length pre) = length (pre ++ [c])) as -> by (rewrite length_app; cbn; lia).
  destruct (IH all (pre ++ [c]) (<[key := default [] (g !! key) ++ [length pre]]> g)) as (g' & -> & Hperm & Hg'); [by rewrite <- app_assoc| |].
  - intros k ms ci. destruct (decide (key = k)) as [<-|Hk]; [|rewrite lookup_insert_ne by done; by apply Hg].
    rewrite lookup_insert_eq. intros [= <-]. rewrite elem_of_app, list_elem_of_singleton. intros [Hci| ->].
    + destruct (g !! key) as [ms|] eqn:E; [by eapply Hg|by apply elem_of_nil in Hci].
    + rewrite Eall, list_lookup_middle by done. split; [by apply list_lookup_middle|]. exact Hkey.
  - exists g'. split; [done|]. split; [|done]. rewrite Hperm, members_insert. rewrite length_app. cbn [length seq].
    rewrite Nat.add_1_r. by rewrite <- Permutation_middle.
Qed.

Lemma hits_split with_texts chains ms : flat_map (single_hits with_texts chains) ms ++ flat_map (multi_hits with_texts chains) ms ≡ₚ flat_map (hits_at with_texts chains) ms.
Proof using.
  induction ms as [|ci ms IH]; [done|]. cbn [flat_map]. rewrite <- IH. unfold single_hits at 1, multi_hits at 1. destruct (is_single chains ci); cbn [app].
  - by rewrite <- app_assoc.
  - rewrite !app_assoc. f_equiv. apply Permutation_app_comm.
Qed.

Lemma hits_all with_texts chains : flat_map (hits_at with_texts chains) (seq 0 (length chains)) = flat_map (chain_hits with_texts) chains.
Proof using.
  assert (∀ l pre, chains = pre ++ l → flat_map (hits_at with_texts chains) (seq (length pre) (length l)) = flat_map (chain_hits with_texts) l) as Hgo; [|by apply (Hgo chains [])].
  induction l as [|c l IH]; intros pre E; [done|]. cbn [length seq flat_map]. unfold hits_at at 1. rewrite E, list_lookup_middle by done. rewrite <- E. f_equal.
  specialize (IH (pre ++ [c])). rewrite length_app in IH. cbn in IH. rewrite Nat.add_1_r in IH. apply IH. rewrite E. by rewrite <- app_assoc.
Qed.

Lemma flat_map_perm {A B} (f : A → list B) (l l' : list A) : l ≡ₚ l' → flat_map f l ≡ₚ flat_map f l'.
Proof using. intros Hl. by rewrite Hl. Qed.

Lemma resolve_groups_spec with_texts chains gs : ∀ results memo, memo_ok memo → #results ≤ cap →
  (∀ k ms, (k, ms) ∈ gs → NoDup ms ∧ ∀ ci, ci ∈ ms → ∃ c, member chains k ci c) →
  ∃ l memo', resolve_groups cap to_lowercase resolver ordinal_at text has_content filter_docs chains with_texts results memo gs =
      Ret (match capped cap results l with Go r | Stop r => r end, memo') ∧ memo_ok memo' ∧
    l ≡ₚ flat_map (hits_at with_texts chains) (concat (map snd gs)).
Proof using Hlaws Hposmap Hfits Hcap.
  induction gs as [|[k ms] gs IH]; intros results memo Hm Hr Hgs; cbn [resolve_groups].
  { exists [], memo. by rewrite capped_nil. }
  destruct (first_entries_spec resolver filter_docs memo k Hm) as (memo1 & -> & Hm1). destruct (Hgs k ms ltac:(by left)) as [Hnd Hms].
  rewrite (resolve_group_spec with_texts chains k results ms Hnd Hms Hr), bind_ret. set (l1 := flat_map (single_hits with_texts chains) ms ++ flat_map (multi_hits with_texts chains) ms).
  destruct (capped cap results l1) as [r|r] eqn:E.
  - pose proof E as [_ Hr']%capped_go. destruct (IH r memo1 Hm1 Hr') as (l2 & memo' & -> & Hm' & Hl2); [intros; apply Hgs; by right|].
    exists (l1 ++ l2), memo'. split_and!; [|done|].
    + rewrite <- capped_app by done. by rewrite E.
    + cbn [map concat snd]. rewrite flat_map_app, Hl2. unfold l1. by rewrite hits_split.
  - exists (l1 ++ flat_map (hits_at with_texts chains) (concat (map snd gs))), memo1. split_and!; [|done|].
    + rewrite <- capped_app by done. by rewrite E.
    + cbn [map concat snd]. rewrite flat_map_app. unfold l1. by rewrite hits_split.
Qed.

(** ** The whole resolution *)

Context (Hiter : ∀ g, iter g ≡ₚ map_to_list g).

Lemma count_first_total chains : Forall starts_explicit chains → ∀ m, ∃ m', count_first m chains = Ret m'.
Proof using.
  induction 1 as [|c chains Hc Hcs IH]; intros m; cbn [count_first]; [by eexists|]. destruct (first_list_ids c Hc) as (key & Ek & _ & Hne).
  destruct (ordinals c); [done|]. rewrite Ek, bind_ret. apply IH.
Qed.

Lemma split_shared_spec m chains : Forall starts_explicit chains → ∃ shared lone, split_shared m chains = Ret (shared, lone) ∧ shared ++ lone ≡ₚ chains.
Proof using.
  induction 1 as [|c chains Hc Hcs IH]; cbn [split_shared]; [by exists [], []|]. destruct (first_list_ids c Hc) as (key & Ek & _ & Hne).
  destruct (ordinals c); [done|]. destruct IH as (shared & lone & -> & Hp). rewrite Ek, !bind_ret. destruct (1 <? _); eexists _, _; (split; [done|]).
  - cbn [app]. by rewrite Hp.
  - rewrite <- Permutation_middle. by rewrite Hp.
Qed.

Lemma capped_take ms : match capped cap [] ms with Go r | Stop r => r end = take (Z.to_nat cap) ms.
Proof using Hcap.
  unfold capped. cbn [app]. rewrite len_nil, Z.add_0_l. destruct (Z.leb_spec #ms cap); [|done]. symmetry. apply take_ge. unfold len in *. lia.
Qed.

Lemma resolve_grouped_spec with_texts chains : Forall starts_explicit chains →
  ∃ l memo, resolve_chains_posmap_grouped cap to_lowercase iter resolver ordinal_at text has_content filter_docs chains with_texts ∅ = Ret (take (Z.to_nat cap) l, memo) ∧
    memo_ok memo ∧ l ≡ₚ flat_map (chain_hits with_texts) chains.
Proof using Hlaws Hposmap Hfits Hcap Hiter.
  intros Hc. unfold resolve_chains_posmap_grouped. destruct (group_chains_spec chains Hc chains [] ∅ eq_refl) as (g & Eg & Hperm & Hg); [intros ? ? ?; by rewrite lookup_empty|].
  cbn [length] in Eg. rewrite Eg, bind_ret. change (members_of ∅) with (@nil nat) in Hperm. cbn [app length] in Hperm.
  destruct (resolve_groups_spec with_texts chains (iter g) [] ∅) as (l & memo & -> & Hm & Hl); [intros ? ?; by rewrite lookup_empty|by rewrite len_nil| |].
  - intros k ms Hk. rewrite Hiter in Hk. apply elem_of_map_to_list in Hk as Hlk. split; [|intros ci Hci; eexists; by eapply Hg].
    assert (NoDup (members_of g)) as Hnd by (rewrite Hperm; apply NoDup_seq). unfold members_of in Hnd.
    clear -Hnd Hk. induction (map_to_list g) as [|[k' ms'] gl IH]; [by apply elem_of_nil in Hk|]. cbn [map concat snd] in Hnd. apply NoDup_app in Hnd as (? & _ & ?).
    apply elem_of_cons in Hk as [[= <- <-]|Hk]; [done|by apply IH].
  - exists l, memo. rewrite capped_take. split_and!; [done..|]. rewrite Hl, Hiter. fold (members_of g). rewrite Hperm. by rewrite hits_all.
Qed.

Lemma resolve_posmap_spec with_texts chains : Forall starts_explicit chains →
  ∃ l, resolve_chains_v3_posmap cap to_lowercase iter resolver ordinal_at text has_content filter_docs chains with_texts = Ret (take (Z.to_nat cap) l) ∧
    l ≡ₚ flat_map (chain_hits with_texts) chains.
Proof using Hlaws Hposmap Hfits Hcap Hiter.
  intros Hc. unfold resolve_chains_v3_posmap, resolve_chains_impl. destruct (count_first_total chains Hc ∅) as [m ->]. rewrite bind_ret.
  destruct (split_shared_spec m chains Hc) as (shared & lone & -> & Hp). rewrite bind_ret. rewrite <- Hp, Forall_app in Hc. destruct Hc as [Hs Hl].
  destruct (resolve_grouped_spec with_texts shared Hs) as (l & memo & -> & Hm & Hperm). rewrite bind_ret.
  assert (#(take (Z.to_nat cap) l) ≤ cap) as Hlen by (unfold len; rewrite length_take; lia).
  rewrite (resolve_lone_spec (StrictPosmap with_texts) with_texts lone); [|by eapply Forall_impl|done|done].
  exists (l ++ flat_map (chain_hits with_texts) lone). split; [|by rewrite <- Hp, flat_map_app, Hperm]. f_equal. unfold capped.
  destruct (Z.leb_spec (#(take (Z.to_nat cap) l) + #(flat_map (chain_hits with_texts) lone)) cap) as [Hle|Hgt].
  - destruct (decide (length l ≤ Z.to_nat cap)%nat) as [Hll|Hll].
    + rewrite (take_ge l) in * by done. symmetry. apply take_ge. rewrite length_app. unfold len in *. lia.
    + unfold len in Hle. rewrite length_take in Hle. assert (flat_map (chain_hits with_texts) lone = []) as -> by (apply nil_length_inv; lia). by rewrite !app_nil_r.
  - destruct (decide (length l ≤ Z.to_nat cap)%nat) as [Hll|Hll]; [by rewrite (take_ge l) by done|]. rewrite (take_app_le l) by lia. apply take_app_length'. rewrite length_take. lia.
Qed.
End Agreement.

(** ** Properties *)

(** Every alternative of the chain is a list of ordinals, of 32 bits behind
    the first. *)
Definition explicit_chain (c : TokenChainV3) : Prop :=
  ∃ h ids rest, ordinals c = Ids (h :: ids) :: rest ∧ Forall (λ w, ∃ v, w = Ids v ∧ Forall (fits 32) v) rest.

(** C7. The resolution through the position map is the one through the
    postings.  Let the position map hold, at each position, the ordinal whose
    postings have it, of 32 bits.  Then [resolve_chains_v3], which unions and pairs the
    postings of every alternative, and [resolve_chains_v3_posmap], which looks
    the next ordinal up and resolves the chains that share their first list as
    groups, in whatever order their hash map is visited, return the matches of
    the same list, that of the chains followed one by one from each posting of
    their first position, up to its order and cut at the cap. *)
Theorem chains_resolved_alike {F} `{DocFilter F} (cap : Z) (to_lowercase : list Z → list Z) (iter : gmap (list Z) (list nat) → list (list Z * list nat))
    (resolver : PostingResolver) (ordinal_at : Z → Z → option Z) (text : Z → option (list Z)) (has_content : Z → bool) (filter_docs : option F)
    (chains : list TokenChainV3) (with_texts : bool) :
  0 ≤ cap → (∀ g, iter g ≡ₚ map_to_list g) → ResolverLaws resolver → (∀ d p o, fits 32 o → ordinal_at d p = Some o ↔ (d, p) ∈ positions resolver o) → (∀ d p o, ordinal_at d p = Some o → fits 32 o) →
  Forall explicit_chain chains →
  let hits := flat_map (chain_hits to_lowercase resolver ordinal_at text filter_docs with_texts) chains in
  resolve_chains_v3 cap to_lowercase iter resolver ordinal_at text has_content filter_docs chains = Ret (take (Z.to_nat cap) hits) ∧
  ∃ l, resolve_chains_v3_posmap cap to_lowercase iter resolver ordinal_at text has_content filter_docs chains with_texts = Ret (take (Z.to_nat cap) l) ∧ l ≡ₚ hits.
Proof.
  intros Hcap Hiter Hlaws Hpm Hfits Hc hits. split.
  - unfold hits, resolve_chains_v3, resolve_chains_impl. rewrite (resolve_lone_spec cap to_lowercase resolver ordinal_at text has_content filter_docs Hpm Hfits Hcap Strict with_texts).
    + by rewrite capped_take.
    + eapply Forall_impl; [exact Hc|]. intros c (h & ids & rest & E & Hr). split; [by exists h, ids, rest|]. rewrite E. intros w Hw. rewrite Forall_forall in Hr. by apply Hr.
    + by rewrite len_nil.
    + intros ? ?. by rewrite lookup_empty.
  - apply resolve_posmap_spec; [done..|]. eapply Forall_impl; [exact Hc|]. intros c (h & ids & rest & E & _). by exists h, ids, rest.
Qed.

(** Two documents, and three chains of which two start with the same list. *)
Definition sample_docs : list (list Z) := [[0; 1; 2; 1]; [1; 2; 0; 1]].
Definition sample_chains : list TokenChainV3 :=
  [{| ordinals := [Ids [0; 2]; Ids [1]]; first_sti := 1; total_query_consumed := 4; last_consumed := 2 |};
   {| ordinals := [Ids [0; 2]; Ids [1]; Ids [2]]; first_sti := 0; total_query_consumed := 6; last_consumed := 2 |};
   {| ordinals := [Ids [1]]; first_sti := 0; total_query_consumed := 2; last_consumed := 2 |}].

Lemma chains_resolved_alike_witness :
  let r := corpus_resolver sample_docs in
  ∃ l, resolve_chains_v3_posmap (F := HashSet) 100 id map_to_list r (corpus_at sample_docs) (λ _, None) (λ _, true) None sample_chains true = Ret l ∧
    length l = 8%nat ∧ (resolve_chains_v3 (F := HashSet) 100 id map_to_list r (corpus_at sample_docs) (λ _, None) (λ _, true) None sample_chains ≫= λ l', Ret (length l')) = Ret 8%nat.
Proof.
  intros r. destruct (chains_resolved_alike (F := HashSet) 100 id map_to_list r (corpus_at sample_docs) (λ _, None) (λ _, true) None sample_chains true) as (Hs & l & Hl & Hp).
  - lia.
  - done.
  - apply _.
  - intros d p o _. apply corpus_posmap.
  - intros d p o Ho. apply corpus_posmap in Ho. unfold corpus_postings in Ho. destruct (decide (fits 32 o)) as [|Hn]; [done|]. exfalso. cbn -[Z.eqb] in Ho.
    assert (∀ k, fits 32 k → (k =? o) = false) as Hk by (intros k Hk; apply Z.eqb_neq; by intros ->). rewrite !Hk in Ho by (unfold fits; lia). by apply elem_of_nil in Ho.
  - assert (∀ v, forallb (λ o, (0 <=? o) && (o <? 2 ^ 32)) v = true → ∃ v', Ids v = Ids v' ∧ Forall (fits 32) v') as Hv.
    { intros v Hv. exists v. split; [done|]. apply Forall_forall. intros o Ho%list_elem_of_In. rewrite forallb_forall in Hv. specialize (Hv o Ho). unfold fits. lia. }
    repeat (constructor; [eexists _, _, _; split; [reflexivity|]; repeat (constructor; [by apply Hv|]); constructor|]). constructor.
  - exists (take (Z.to_nat 100) l). split; [exact Hl|]. rewrite Hs. split; [|vm_compute; reflexivity].
    rewrite take_ge; [by rewrite Hp|]. rewrite Hp. vm_compute. lia.
Defined.
