(* ===== verification/FstWalk.v ===== *)
(** * The walks over the suffix dictionary ([src/suffix_fst/briques/fst_walk.rs])

    The lookups a query starts with: the keys a literal is found under, the
    keys that end inside it, and the cut of a shard-wide list down to the ids
    of a segment.

    A [&str] is here the list of its bytes.  A part is a file of container
    version 8, the one that is written: its transducer is represented by the
    pairs it holds, a node of it by the pairs below the node.  The memo of a
    shared reader holds what a call computes, and is a flag; the counters are
    left out; [str::to_lowercase] is a parameter. *)
From S2P Require Import Prelude Varint Ordering Gmap ParentRecord SuffixBuilder.
Import parents builder.

Module walk.

(** ** Strings *)

Definition is_char_boundary (s : list Z) (i : Z) : bool :=
  if i =? 0 then true
  else if #s <=? i then i =? #s
  else match s !! Z.to_nat i with Some b => negb (Z.land b 0xC0 =? 0x80) | None => false end.

Fixpoint snap_loop (fuel : nat) (s : list Z) (p : Z) : Z :=
  match fuel with
  | O => p
  | S fuel => if (p <? #s) && negb (is_char_boundary s p) then snap_loop fuel s (p + 1) else p
  end.
(** At most one turn per byte. *)
Definition snap_to_char_boundary (s : list Z) (pos : Z) : Z := snap_loop (length s) s (Z.min pos #s).

(** ** Readers ([file_v3.rs]) *)

Record Part := {
  fst_ : list (list Z * Z);
  parent_list_data : list Z;
}.

(** The files of a reader, whether it is shared, and the ids of the segment
    it is a view for. *)
Record SfxFileReaderV3 := {
  part_views : list Part;
  memo : bool;
  segment_gmap : option gmap.GmapReader;
}.

Definition decode_parents (p : Part) (value : Z) (key : list Z) : out (list ParentEntryV3) :=
  record ← table_get (parent_list_data p) value; decode_parent_entries_v8 record key.
Definition decode_parents_where (p : Part) (value : Z) (key : list Z) (keep : list Z → bool) : out (list ParentEntryV3) :=
  record ← table_get (parent_list_data p) value; decode_parent_entries_v8_where record key keep.
Definition count_parents (p : Part) (value : Z) : out Z :=
  record ← table_get (parent_list_data p) value; count_parent_entries_v8 record.

(** [Map::get] and [Map::range]. *)
Fixpoint fst_get (m : list (list Z * Z)) (key : list Z) : option Z :=
  match m with
  | [] => None
  | (k, v) :: m => if decide (k = key) then Some v else fst_get m key
  end.
Definition fst_range (m : list (list Z * Z)) (ge lt : list Z) : list (list Z * Z) :=
  List.filter (λ '(k, _), match lex_cmp k ge with Lt => false | _ => match lex_cmp k lt with Lt => true | _ => false end end) m.

(** A node: the pairs below it, with what is left of their keys. *)
Definition find_input (node : list (list Z * Z)) (byte : Z) : option (list (list Z * Z)) :=
  match omap (λ kv : list Z * Z, match kv.1 with b :: k => if b =? byte then Some (k, kv.2) else None | [] => None end) node with
  | [] => None
  | node => Some node
  end.
Definition final_value (node : list (list Z * Z)) : option Z := fst_get node [].

(** ** Candidates *)

Record FstCandidateV3 := {
  c_raw_ordinal : Z;
  c_sti : Z;
  c_own_len : Z;
  c_sep_len : Z;
  c_overlap_len : Z;
  c_overlap : list Z;
  c_is_word_start : bool;
  c_partition : Z;
}.

(** [own_len - sep_len], which wraps. *)
Definition content_len (own_len sep_len : Z) : Z := as_u16 (own_len - sep_len).
Definition is_word_stripped (c : FstCandidateV3) : bool := c_partition c =? SI_STRIPPED_PREFIX.

Definition from_parent (partition : Z) (p : ParentEntryV3) : FstCandidateV3 :=
  {| c_raw_ordinal := raw_ordinal p; c_sti := sti p; c_own_len := own_len p; c_sep_len := sep_len p; c_overlap_len := overlap_len p;
     c_overlap := overlap p; c_is_word_start := is_word_start p; c_partition := partition |}.

(** The exclusive upper bound: the last byte that can grow, grown. *)
Fixpoint bump (rev_key : list Z) : list Z :=
  match rev_key with
  | [] => []
  | b :: k => if b <? 0xFF then (b + 1) :: k else bump k
  end.
Definition range_keys (partition : Z) (query_bytes : list Z) : list Z * list Z :=
  let ge_key := partition :: query_bytes in (ge_key, rev (bump (rev ge_key))).

Definition candidate_partitions (anchor_start strict_separators : bool) : list Z :=
  if anchor_start && strict_separators then [SI0_PREFIX]
  else if anchor_start && negb strict_separators then [SI0_PREFIX; SI_STRIPPED_PREFIX]
  else if strict_separators then [SI0_PREFIX; SI_REST_PREFIX]
  else [SI0_PREFIX; SI_REST_PREFIX; SI_STRIPPED_PREFIX].

Definition anchor_stripped (cands : list FstCandidateV3) : list FstCandidateV3 :=
  List.filter (λ c, negb (is_word_stripped c) || (c_sti c =? 0)) cands.

(** The order of [sort_by_key(|c| (c.raw_ordinal, c.sti))], which is stable. *)
Definition cand_le (a b : FstCandidateV3) : Prop := lex_leb [c_raw_ordinal a; c_sti a] [c_raw_ordinal b; c_sti b] = true.
#[export] Instance cand_le_dec a b : Decision (cand_le a b).
Proof. unfold cand_le. apply _. Defined.

(** ** The cut of a list down to a segment *)

Section Cut.
Context {T : Type} (id_of : T → Z).

(** [lower_bound_from], over the items: the galloping, then the search. *)
Fixpoint gallop (fuel : nat) (items : list T) (target lo hi step : Z) : out (Z * Z) :=
  if #items <=? hi then Ret (lo, #items) else
  it ← index items hi;
  if target <=? id_of it then Ret (lo, hi) else
  match fuel with
  | O => OutOfFuel
  | S fuel => gallop fuel items target (hi + 1) (Z.min (hi + step) (2 ^ 64 - 1)) (Z.min (step * 2) (2 ^ 64 - 1))
  end.
(** [hi] grows at every turn, up to the number of items. *)
Definition lower_bound_from (items : list T) (from target : Z) : out Z :=
  if #items <=? from then Ret #items else
  '(lo, hi) ← gallop (length items) items target from from 1;
  bisect (λ mid, it ← index items mid; Ret (id_of it <? target)) lo hi.

(** Few items: each is looked up in the map, from [j] on. *)
Fixpoint cut_items (g : gmap.GmapReader) (items : list T) (j : Z) : out (list T) :=
  match items with
  | [] => Ret []
  | it :: items =>
      let a := id_of it in
      j ← gmap.lower_bound_from g j a;
      if gmap.gm_n g <=? j then Ret [] else
      b ← gmap.global g j;
      rest ← cut_items g items j;
      Ret (if b =? a then it :: rest else rest)
  end.

(** Few ids: each is looked up in the items, from [i] on, and every item of
    that id is taken. *)
Fixpoint run_of (items : list T) (b : Z) : list T :=
  match items with
  | [] => []
  | it :: items => if id_of it =? b then it :: run_of items b else []
  end.
Fixpoint cut_ids (g : gmap.GmapReader) (items : list T) (js : list Z) (i : Z) : out (list T) :=
  match js with
  | [] => Ret []
  | j :: js =>
      b ← gmap.global g j;
      i ← lower_bound_from items i b;
      if #items <=? i then Ret [] else
      let run := run_of (drop (Z.to_nat i) items) b in
      rest ← cut_ids g items js (i + #run);
      Ret (run ++ rest)
  end.

(** The plain merge. *)
Fixpoint cut_merge (fuel : nat) (g : gmap.GmapReader) (items : list T) (j : Z) : out (list T) :=
  match items with
  | [] => Ret []
  | it :: items' =>
      if gmap.gm_n g <=? j then Ret [] else
      match fuel with
      | O => OutOfFuel
      | S fuel =>
          let a := id_of it in
          b ← gmap.global g j;
          if a <? b then cut_merge fuel g items' j
          else if b <? a then cut_merge fuel g items (j + 1)
          else rest ← cut_merge fuel g items' j; Ret (it :: rest)
      end
  end.

Definition keep_in_segment (items : list T) (g : gmap.GmapReader) : out (list T) :=
  let n := gmap.gm_n g in
  let m := #items in
  if negb ((0 <? m) && (0 <? n)) then Ret []
  else if as_u64 (m * 8) <? n then cut_items g items 0
  else if n * 8 <? m then cut_ids g items (range 0 n) 0
  else cut_merge (length items + Z.to_nat n) g items 0.
End Cut.

(** ** Splits *)

Record SplitCandidateV3 := {
  query_consumed : Z;
  parent : ParentEntryV3;
  remainder_start : Z;
  overlap_validated : Z;
}.

Definition split_at_boundary (p : ParentEntryV3) (prefix_len split_byte : Z) (query_bytes : list Z) : out (option SplitCandidateV3) :=
  if negb (prefix_len =? split_byte) then Ret None else
  let need := Z.min (overlap_len p) MAX_OVERLAP_BYTES in
  remainder ← slice_from query_bytes split_byte;
  if #remainder <=? need then Ret None else
  a ← slice remainder 0 need;
  b ← slice (overlap p) 0 need;
  if negb (bytes_eqb a b) then Ret None
  else Ret (Some {| query_consumed := split_byte; parent := p; remainder_start := split_byte; overlap_validated := need |}).

(** The tests of the two walks, on files whose keys are cut at the boundary. *)
Definition chunk_split (query_bytes : list Z) (p : ParentEntryV3) (prefix_len : Z) : out (option SplitCandidateV3) :=
  if own_len p <=? sti p then Ret None
  else if #query_bytes <=? prefix_len then Ret None
  else split_at_boundary p prefix_len (own_len p - sti p) query_bytes.
Definition word_split (query_bytes : list Z) (p : ParentEntryV3) (prefix_len : Z) : out (option SplitCandidateV3) :=
  if sep_len p =? 0 then Ret None
  else if #query_bytes <=? prefix_len then Ret None
  else
    let split_byte := as_u64 (content_len (own_len p) (sep_len p) - sti p) in
    if split_byte =? 0 then Ret None else split_at_boundary p prefix_len split_byte query_bytes.

Definition overlap_agrees (query_bytes ov : list Z) (d : Z) : bool :=
  (d + #ov <? #query_bytes) && bytes_eqb (take (length ov) (drop (Z.to_nat d) query_bytes)) ov.

Section Walk.
Context (check_split : ParentEntryV3 → Z → out (option SplitCandidateV3)).

(** From the node reached after [i] bytes, over the bytes that are left. *)
Fixpoint walk_bytes (part : Part) (query_bytes query_key : list Z) (node : list (list Z * Z)) (i : Z) (rest : list Z) : out (list SplitCandidateV3) :=
  match rest with
  | [] => Ret []
  | byte :: rest =>
      match find_input node byte with
      | None => Ret []
      | Some node =>
          let prefix_len := i + 1 in
          found ← match final_value node with
                  | None => Ret []
                  | Some val =>
                      key ← slice query_key 0 (prefix_len + 1);
                      parents ← decode_parents_where part val key (λ ov, overlap_agrees query_bytes ov prefix_len);
                      omap id <$> mapM_out (λ p, check_split p prefix_len) parents
                  end;
          more ← walk_bytes part query_bytes query_key node prefix_len rest;
          Ret (found ++ more)
      end
  end.

Definition walk_partition (part : Part) (query_bytes : list Z) (partition : Z) : out (list SplitCandidateV3) :=
  match find_input (fst_ part) partition with
  | None => Ret []
  | Some node => walk_bytes part query_bytes (partition :: query_bytes) node 0 query_bytes
  end.
End Walk.

(** Both descending; the sort is stable. *)
Definition split_le (a b : SplitCandidateV3) : Prop :=
  lex_leb [query_consumed b; overlap_validated b] [query_consumed a; overlap_validated a] = true.
#[export] Instance split_le_dec a b : Decision (split_le a b).
Proof. unfold split_le. apply _. Defined.
Definition same_split (a b : SplitCandidateV3) : bool :=
  (raw_ordinal (parent a) =? raw_ordinal (parent b)) && (sti (parent a) =? sti (parent b)) && (query_consumed a =? query_consumed b).
Definition sort_and_dedup_splits (l : list SplitCandidateV3) : list SplitCandidateV3 := dedup_by same_split (merge_sort split_le l).

(** [sort_by_key(|s| (s.parent.raw_ordinal, s.parent.sti, s.query_consumed))]. *)
Definition split_id_le (a b : SplitCandidateV3) : Prop :=
  lex_leb [raw_ordinal (parent a); sti (parent a); query_consumed a] [raw_ordinal (parent b); sti (parent b); query_consumed b] = true.
#[export] Instance split_id_le_dec a b : Decision (split_id_le a b).
Proof. unfold split_id_le. apply _. Defined.

(** Splits from candidates that run past their content. *)
Definition split_of_candidate (query_len : Z) (c : FstCandidateV3) : option SplitCandidateV3 :=
  let split_byte := saturating_sub (content_len (c_own_len c) (c_sep_len c)) (c_sti c) in
  if (split_byte =? 0) || (query_len <=? split_byte) then None
  else Some {| query_consumed := split_byte;
               parent := {| raw_ordinal := c_raw_ordinal c; sti := c_sti c; own_len := c_own_len c; sep_len := c_sep_len c;
                            overlap_len := c_overlap_len c; overlap := c_overlap c; is_word_start := c_is_word_start c |};
               remainder_start := split_byte; overlap_validated := query_len - split_byte |}.
Definition splits_from_fst_candidates (candidates : list FstCandidateV3) (query_len : Z) : list SplitCandidateV3 :=
  omap (split_of_candidate query_len) candidates.

Section Lowercase.
Context (to_lowercase : list Z → list Z).

(** ** [fst_candidates_v3] *)

Definition probe (part : Part) (partition : Z) (query_bytes : list Z) (k : Z) : out (list ParentEntryV3) :=
  tail ← slice_from query_bytes k;
  head ← slice query_bytes 0 k;
  match fst_get (fst_ part) (partition :: head) with
  | None => Ret []
  | Some val => decode_parents_where part val (partition :: head) (λ ov, (#tail <=? #ov) && bytes_eqb (take (length tail) ov) tail)
  end.
Definition shortest_probe (len : Z) : Z := Z.max (saturating_sub len MAX_OVERLAP_BYTES) 1.

Definition candidates_in_part (query_bytes : list Z) (partition : Z) (part : Part) : out (list FstCandidateV3) :=
  let '(ge_key, lt_key) := range_keys partition query_bytes in
  inside ← mapM_out (λ kv : list Z * Z, decode_parents part kv.2 kv.1) (fst_range (fst_ part) ge_key lt_key);
  across ← mapM_out (probe part partition query_bytes) (range (shortest_probe #query_bytes) #query_bytes);
  Ret (map (from_parent partition) (concat inside ++ concat across)).

Definition fst_candidates_in_partition (r : SfxFileReaderV3) (query : list Z) (partition : Z) : out (list FstCandidateV3) :=
  (λ l, concat l) <$> mapM_out (candidates_in_part (to_lowercase query) partition) (part_views r).

Definition memo_candidates_in_partition (r : SfxFileReaderV3) (query : list Z) (partition : Z) : out (list FstCandidateV3) :=
  merge_sort cand_le <$> fst_candidates_in_partition r query partition.

Definition fst_candidates_v3 (r : SfxFileReaderV3) (query : list Z) (anchor_start strict_separators : bool) : out (list FstCandidateV3) :=
  cands ← mapM_out (λ partition,
    if memo r then
      shared ← memo_candidates_in_partition r query partition;
      match segment_gmap r with Some g => keep_in_segment (λ c, as_u32 (c_raw_ordinal c)) shared g | None => Ret shared end
    else fst_candidates_in_partition r query partition) (candidate_partitions anchor_start strict_separators);
  Ret (if anchor_start then anchor_stripped (concat cands) else concat cands).

(** ** [fst_candidates_count_v3] *)

Definition count_in_part (query_bytes : list Z) (partition : Z) (part : Part) : out Z :=
  let '(ge_key, lt_key) := range_keys partition query_bytes in
  inside ← mapM_out (λ kv : list Z * Z, count_parents part kv.2) (fst_range (fst_ part) ge_key lt_key);
  across ← mapM_out (probe part partition query_bytes) (range (shortest_probe #query_bytes) #query_bytes);
  Ret (foldr Z.add 0 inside + foldr Z.add 0 (map len across)).
Definition fst_candidates_count_in_partition (r : SfxFileReaderV3) (query : list Z) (partition : Z) : out Z :=
  foldr Z.add 0 <$> mapM_out (count_in_part (to_lowercase query) partition) (part_views r).

Definition fst_candidates_count_v3 (r : SfxFileReaderV3) (query : list Z) (anchor_start strict_separators : bool) : out Z :=
  if memo r then
    foldr Z.add 0 <$> mapM_out (fst_candidates_count_in_partition r query) (candidate_partitions anchor_start strict_separators)
  else
    cands ← fst_candidates_v3 r query anchor_start strict_separators; Ret #cands.

(** ** The falling walks *)

Definition falling_walk_uncached (check_split : list Z → ParentEntryV3 → Z → out (option SplitCandidateV3)) (partitions : list Z)
    (r : SfxFileReaderV3) (query : list Z) : out (list SplitCandidateV3) :=
  let query_bytes := to_lowercase query in
  cands ← mapM_out (λ part, (λ l, concat l) <$> mapM_out (walk_partition (check_split query_bytes) part query_bytes) partitions) (part_views r);
  Ret (sort_and_dedup_splits (concat cands)).

Definition falling_walk (check_split : list Z → ParentEntryV3 → Z → out (option SplitCandidateV3)) (partitions : list Z)
    (r : SfxFileReaderV3) (query : list Z) : out (list SplitCandidateV3) :=
  v ← falling_walk_uncached check_split partitions r query;
  if memo r then
    let shared := merge_sort split_id_le v in
    v ← match segment_gmap r with Some g => keep_in_segment (λ s, as_u32 (raw_ordinal (parent s))) shared g | None => Ret shared end;
    Ret (sort_and_dedup_splits v)
  else Ret v.

Definition falling_walk_chunks : SfxFileReaderV3 → list Z → out (list SplitCandidateV3) := falling_walk chunk_split [SI0_PREFIX; SI_REST_PREFIX].
Definition falling_walk_words : SfxFileReaderV3 → list Z → out (list SplitCandidateV3) := falling_walk word_split [SI_STRIPPED_PREFIX].
Definition falling_walk_v3 (r : SfxFileReaderV3) (query : list Z) (strict_separators : bool) : out (list SplitCandidateV3) :=
  candidates ← falling_walk_chunks r query;
  if strict_separators then Ret candidates
  else words ← falling_walk_words r query; Ret (sort_and_dedup_splits (candidates ++ words)).
End Lowercase.

End walk.
