(* ===== verification/SegmentCut.v ===== *)
(** * A shard-wide list cut down to a segment

    [keep_in_segment] chooses among three ways to intersect a sorted list with
    the ids of a segment.  All three keep the items whose id the segment has,
    every item of a repeated id included, in their order. *)
From S2P Require Import Prelude Gmap FstWalk.
Import gmap.
Import walk.

Section Items.
Context {T : Type} (id_of : T → Z) (items : list T).
Context (Hsorted : StronglySorted (λ a b, id_of a ≤ id_of b) items).
Local Abbreviation keys := (map id_of items).

Lemma key_at i it : items !! i = Some it → id_at keys (Z.of_nat i) = id_of it.
Proof using. intros H. unfold id_at. by rewrite Nat2Z.id, list_lookup_fmap, H. Qed.

Lemma index_item i : 0 ≤ i < #items → ∃ it, items !! Z.to_nat i = Some it ∧ index items i = Ret it ∧ id_at keys i = id_of it.
Proof using.
  intros Hi. destruct (lookup_lt_is_Some_2 items (Z.to_nat i)) as [it Hit]; [unfold len in Hi; lia|]. exists it.
  split; [done|]. split; [apply index_lookup; [lia|done]|]. rewrite <- (key_at _ _ Hit). by rewrite Z2Nat.id by lia.
Qed.

Lemma sorted_lookup {A} (R : A → A → Prop) (l : list A) i j a b : StronglySorted R l → (i < j)%nat → l !! i = Some a → l !! j = Some b → R a b.
Proof using.
  intros Hs. revert i j. induction Hs as [|x l Hs IH Hx]; intros i j Hij Ha Hb; [done|].
  destruct i as [|i], j as [|j]; try lia; simpl in *.
  - injection Ha as ->. rewrite List.Forall_forall in Hx. apply Hx. apply list_elem_of_In. by eapply list_elem_of_lookup_2.
  - eapply (IH i j); [lia|done..].
Qed.

Lemma keys_mono i j : 0 ≤ i → i ≤ j → j < #items → id_at keys i ≤ id_at keys j.
Proof using Hsorted.
  intros Hi Hij Hj. destruct (index_item i ltac:(lia)) as (a & Ha & _ & ->), (index_item j ltac:(lia)) as (b & Hb & _ & ->).
  destruct (decide (i = j)) as [->|]; [rewrite Ha in Hb; injection Hb as ->; lia|].
  apply (sorted_lookup (λ a b, id_of a ≤ id_of b) items (Z.to_nat i) (Z.to_nat j)); [exact Hsorted|lia|done..].
Qed.

Lemma item_gallop_spec fuel from target lo hi step :
  0 ≤ from ≤ lo → lo ≤ hi → 1 ≤ step → (Z.to_nat (#items - hi) ≤ fuel)%nat → lo ≤ #items → #items < 2 ^ 64 →
  (∀ i, from ≤ i < lo → id_at keys i < target) →
  ∃ lo' hi', walk.gallop id_of fuel items target lo hi step = Ret (lo', hi') ∧ from ≤ lo' ≤ hi' ∧ hi' ≤ #items ∧
    (∀ i, from ≤ i < lo' → id_at keys i < target) ∧ (hi' < #items → target ≤ id_at keys hi').
Proof using Hsorted.
  revert lo hi step. induction fuel as [|fuel IH]; intros lo hi step Hf Hlh Hs Hfuel Hl Hn Hlo.
  all: cbn [walk.gallop]; destruct (#items <=? hi) eqn:E; [exists lo, #items; repeat split; try done; lia|].
  { lia. }
  destruct (index_item hi ltac:(lia)) as (it & _ & -> & Ek). rewrite bind_ret. destruct (target <=? id_of it) eqn:Et.
  { exists lo, hi. repeat split; try done; lia. }
  apply IH; try lia. intros i Hi. pose proof (keys_mono i hi). lia.
Qed.

Lemma item_lower_bound from target : 0 ≤ from ≤ #items → #items < 2 ^ 64 →
  ∃ r, walk.lower_bound_from id_of items from target = Ret r ∧ is_lower_bound keys from target r.
Proof using Hsorted.
  intros Hf Hn. unfold walk.lower_bound_from. destruct (#items <=? from) eqn:E.
  { exists #items. split; [done|]. split; rewrite ?len_map; intros; lia. }
  destruct (item_gallop_spec (length items) from target from from 1) as (lo & hi & -> & Hr & Hh & Hlo & Hhi); try lia; [unfold len in *; lia|].
  rewrite bind_ret. destruct (bisect_spec (λ mid, it ← index items mid; Ret (id_of it <? target)) (λ i, id_at keys i <? target) lo hi) as (r & -> & Hrr & Ht & Hff).
  - split.
    + intros i Hi. destruct (index_item i ltac:(lia)) as (it & _ & -> & ->). done.
    + intros i j Hi Hij Hj Hq. pose proof (keys_mono i j). lia.
  - lia.
  - exists r. split; [done|]. split; rewrite ?len_map; [lia| |].
    + intros i Hi. destruct (decide (i < lo)); [apply Hlo; lia|]. specialize (Ht i). lia.
    + intros Hrn. destruct (decide (r = hi)) as [->|]; [by apply Hhi|]. specialize (Hff r). lia.
Qed.
End Items.

(** ** The three cuts *)

Section Cuts.
Context {T : Type} (id_of : T → Z) (g : GmapReader) (ids : list Z).
Hypothesis (over : gmap_over g ids) (ok : ids_ok ids).

(** The items whose id is among those from the [j]-th on. *)
Definition kept_from (j : Z) (items : list T) : list T := List.filter (λ it, bool_decide (id_of it ∈ drop (Z.to_nat j) ids)) items.
Local Abbreviation sorted := (StronglySorted (λ a b, id_of a ≤ id_of b)).

Lemma elem_from_id j v : 0 ≤ j → v ∈ drop (Z.to_nat j) ids ↔ ∃ i, j ≤ i < #ids ∧ id_at ids i = v.
Proof using.
  intros Hj. rewrite list_elem_of_lookup. setoid_rewrite lookup_drop. split.
  - intros [i Hi]. exists (j + Z.of_nat i). pose proof (lookup_lt_Some _ _ _ Hi). split; [unfold len; lia|].
    unfold id_at. replace (Z.to_nat (j + Z.of_nat i)) with (Z.to_nat j + i)%nat by lia. by rewrite Hi.
  - intros (i & Hi & <-). exists (Z.to_nat (i - j)). replace (Z.to_nat j + Z.to_nat (i - j))%nat with (Z.to_nat i) by lia. apply id_at_lookup. lia.
Qed.

Lemma kept_none j items : 0 ≤ j → (∀ it i, it ∈ items → j ≤ i < #ids → id_at ids i ≠ id_of it) → kept_from j items = [].
Proof using.
  intros Hj H. unfold kept_from. induction items as [|it items IH]; [done|]. cbn. rewrite bool_decide_eq_false_2.
  - apply IH. intros it' i Hin. apply H. by right.
  - intros (i & Hi & E)%elem_from_id; [|done]. by apply (H it i); [left|..].
Qed.

(** Ids that no item can have do not matter. *)
Lemma kept_later j j' items : 0 ≤ j ≤ j' → (∀ it i, it ∈ items → j ≤ i < j' → id_at ids i ≠ id_of it) → kept_from j items = kept_from j' items.
Proof using.
  intros Hj H. unfold kept_from. apply filter_ext_in. intros it Hit%list_elem_of_In. apply bool_decide_ext. rewrite !elem_from_id by lia. split.
  - intros (i & Hi & E). exists i. split; [|done]. destruct (decide (j' ≤ i)); [lia|]. by destruct (H it i Hit ltac:(lia)).
  - intros (i & Hi & E). exists i. split; [lia|done].
Qed.

Lemma kept_hit j it items : 0 ≤ j < #ids → id_at ids j = id_of it → kept_from j (it :: items) = it :: kept_from j items.
Proof using. intros Hj E. unfold kept_from. cbn. rewrite bool_decide_eq_true_2; [done|]. apply elem_from_id; [lia|]. exists j. split; [lia|done]. Qed.

Lemma kept_miss j it items : 0 ≤ j → (∀ i, j ≤ i < #ids → id_at ids i ≠ id_of it) → kept_from j (it :: items) = kept_from j items.
Proof using. intros Hj H. unfold kept_from. cbn. rewrite bool_decide_eq_false_2; [done|]. intros (i & Hi & E)%elem_from_id; [|done]. by apply (H i). Qed.

Lemma cut_items_spec items : ∀ j, sorted items → 0 ≤ j ≤ #ids → (∀ it i, it ∈ items → 0 ≤ i < j → id_at ids i < id_of it) →
  cut_items id_of g items j = Ret (kept_from 0 items).
Proof using over ok.
  induction items as [|it items IH]; intros j Hs Hj Hbelow; [done|]. cbn [cut_items]. apply StronglySorted_cons in Hs as [Hit Hs].
  destruct (lower_bound_from_spec g ids over ok j (id_of it)) as (r & -> & Hlb & _); [lia|]. rewrite bind_ret.
  destruct (Hlb ltac:(lia)) as [Hr Hb Ha]. rewrite (go_n _ _ over). rewrite Forall_forall in Hit.
  assert (∀ x i, x ∈ it :: items → 0 ≤ i < r → id_at ids i < id_of x) as Hr'.
  { intros x i Hx Hi. assert (id_of it ≤ id_of x) by (apply elem_of_cons in Hx as [->|Hx]; [lia|by apply Hit]).
    destruct (decide (i < j)); [by apply Hbelow; [|lia]|]. pose proof (Hb i). lia. }
  destruct (Z.leb_spec #ids r).
  { rewrite kept_none; [done|lia|]. intros x i Hx Hi. pose proof (Hr' x i Hx). lia. }
  rewrite (global_id_at g ids) by (done || lia). rewrite bind_ret, (IH r) by (try done; try lia; intros x i Hx; apply Hr'; by right). rewrite bind_ret.
  destruct (Z.eqb_spec (id_at ids r) (id_of it)) as [E|E]; f_equal.
  - unfold kept_from. cbn [List.filter]. rewrite bool_decide_eq_true_2; [done|]. apply elem_from_id; [lia|]. exists r. split; [lia|done].
  - symmetry. apply kept_miss; [lia|]. intros i Hi Hii. pose proof (Hr' it i ltac:(by left)). pose proof (Ha ltac:(lia)).
    destruct (decide (i = r)) as [->|]; [done|]. pose proof (id_at_mono ids r i (ids_sorted _ ok)). lia.
Qed.

Lemma run_of_spec items b : sorted items → (∀ it, it ∈ items → b ≤ id_of it) →
  ∃ rest, items = run_of id_of items b ++ rest ∧ (∀ it, it ∈ run_of id_of items b → id_of it = b) ∧ ∀ it, it ∈ rest → b < id_of it.
Proof using.
  induction items as [|it items IH]; intros Hs Hb; [exists []; split; [done|]; split; intros ? []%elem_of_nil|]. cbn.
  apply StronglySorted_cons in Hs as [Hit Hs]. rewrite Forall_forall in Hit. destruct (Z.eqb_spec (id_of it) b) as [E|E].
  - destruct IH as (rest & Hr & Hrun & Hgt); [done|intros x Hx; apply Hb; by right|]. exists rest. split; [by rewrite Hr at 1|]. split; [|done].
    intros x [->|Hx]%elem_of_cons; [done|by apply Hrun].
  - exists (it :: items). split; [done|]. split; [intros ? []%elem_of_nil|]. pose proof (Hb it ltac:(by left)).
    intros x [->|Hx]%elem_of_cons; [lia|]. pose proof (Hit x Hx). lia.
Qed.

Lemma kept_app j l l' : kept_from j (l ++ l') = kept_from j l ++ kept_from j l'.
Proof using. apply List.filter_app. Qed.

Lemma kept_all j l : 0 ≤ j < #ids → (∀ it, it ∈ l → id_of it = id_at ids j) → kept_from j l = l.
Proof using.
  intros Hj. induction l as [|it l IH]; intros H; [done|]. rewrite kept_hit by (try done; symmetry; apply H; by left). f_equal. apply IH. intros x Hx. apply H. by right.
Qed.

Lemma sorted_drop n items : sorted items → sorted (drop n items).
Proof using. intros H. rewrite <- (take_drop n items) in H. by apply StronglySorted_app in H as (_ & _ & ?). Qed.

Lemma cut_ids_spec items : sorted items → #items < 2 ^ 64 → ∀ n j i, #ids - j = Z.of_nat n → 0 ≤ j → 0 ≤ i ≤ #items →
  cut_ids id_of g items (range j #ids) i = Ret (kept_from j (drop (Z.to_nat i) items)).
Proof using over ok.
  intros Hs Hm. induction n as [|n IH]; intros j i Hn Hj Hi.
  { rewrite range_nil by lia. cbn. rewrite kept_none; [done|lia|]. lia. }
  rewrite range_cons by lia. cbn [cut_ids]. rewrite (global_id_at g ids) by (done || lia). rewrite bind_ret.
  destruct (item_lower_bound id_of items Hs i (id_at ids j)) as (r & -> & [Hr Hb Ha]); [lia|done|]. rewrite bind_ret. rewrite len_map in *.
  assert (drop (Z.to_nat i) items = take (Z.to_nat (r - i)) (drop (Z.to_nat i) items) ++ drop (Z.to_nat r) items) as Esplit.
  { rewrite <- (take_drop (Z.to_nat (r - i)) (drop (Z.to_nat i) items)) at 1. f_equal. rewrite drop_drop. f_equal. lia. }
  assert (kept_from j (take (Z.to_nat (r - i)) (drop (Z.to_nat i) items)) = []) as Hskip.
  { apply kept_none; [done|]. intros it k [p Hp]%list_elem_of_lookup Hk. apply lookup_take_Some in Hp as [Hp Hlt]. rewrite lookup_drop in Hp.
    pose proof (key_at id_of items _ _ Hp) as E. pose proof (Hb (Z.of_nat (Z.to_nat i + p))). pose proof (id_at_mono_le ids j k (ids_sorted _ ok)). lia. }
  rewrite Esplit, kept_app, Hskip. cbn [app]. destruct (Z.leb_spec #items r).
  { by rewrite drop_ge by (unfold len in *; lia). }
  destruct (run_of_spec (drop (Z.to_nat r) items) (id_at ids j)) as (rest & Erun & Hrun & Hrest).
  { by apply sorted_drop. }
  { intros it [p Hp]%list_elem_of_lookup. rewrite lookup_drop in Hp. pose proof (key_at id_of items _ _ Hp) as <-.
    pose proof (lookup_lt_Some _ _ _ Hp). pose proof (keys_mono id_of items Hs r (Z.of_nat (Z.to_nat r + p))). pose proof (Ha ltac:(lia)). unfold len in *. lia. }
  set (run := run_of id_of (drop (Z.to_nat r) items) (id_at ids j)) in *.
  assert (drop (Z.to_nat (r + #run)) items = rest) as Er.
  { replace (Z.to_nat (r + #run)) with (Z.to_nat r + length run)%nat by (unfold len; lia). by rewrite <- drop_drop, Erun, drop_app_length. }
  assert (#run ≤ #items - r) as Hlr. { pose proof (f_equal len Erun) as E. rewrite len_app, len_drop in E. pose proof (len_nonneg rest). lia. }
  rewrite (IH (j + 1) (r + #run)) by (pose proof (len_nonneg run); lia). rewrite bind_ret. f_equal. rewrite Er, Erun, kept_app.
  rewrite (kept_all j run) by (done || lia). f_equal. symmetry. apply kept_later; [lia|].
  intros it k Hit Hk. assert (k = j) as -> by lia. pose proof (Hrest it Hit). lia.
Qed.

Lemma cut_merge_spec : ∀ fuel items j, sorted items → 0 ≤ j ≤ #ids → (length items + Z.to_nat (#ids - j) ≤ fuel)%nat →
  cut_merge id_of fuel g items j = Ret (kept_from j items).
Proof using over ok.
  induction fuel as [|fuel IH]; intros items j Hs Hj Hfuel; destruct items as [|it items]; try done; [cbn in Hfuel; lia|]. cbn [cut_merge]. rewrite (go_n _ _ over).
  destruct (Z.leb_spec #ids j). { rewrite kept_none; [done|lia|]. lia. }
  rewrite (global_id_at g ids) by (done || lia). rewrite bind_ret. pose proof Hs as [Hit Hs']%StronglySorted_cons. rewrite Forall_forall in Hit. cbn [length] in Hfuel.
  destruct (Z.ltb_spec (id_of it) (id_at ids j)).
  { rewrite IH by (done || lia). f_equal. symmetry. apply kept_miss; [lia|]. intros i Hi. pose proof (id_at_mono_le ids j i (ids_sorted _ ok)). lia. }
  destruct (Z.ltb_spec (id_at ids j) (id_of it)).
  { rewrite IH by (done || cbn [length]; lia). f_equal. symmetry. apply kept_later; [lia|]. intros x i Hx Hi. assert (i = j) as -> by lia.
    apply elem_of_cons in Hx as [->|Hx]; [lia|]. pose proof (Hit x Hx). lia. }
  rewrite IH by (done || lia). rewrite bind_ret. f_equal. symmetry. apply kept_hit; lia.
Qed.

Lemma keep_in_segment_spec items : sorted items → #items < 2 ^ 64 →
  keep_in_segment id_of items g = Ret (List.filter (λ it, bool_decide (id_of it ∈ ids)) items).
Proof using over ok.
  intros Hs Hm. change (List.filter _ items) with (kept_from 0 items). unfold keep_in_segment. rewrite (go_n _ _ over).
  pose proof (len_nonneg items). pose proof (len_nonneg ids). destruct (Z.ltb_spec 0 #items); cbn [andb negb].
  2: { destruct items as [|it items]; [done|]. rewrite len_cons in *. pose proof (len_nonneg items). lia. }
  destruct (Z.ltb_spec 0 #ids); cbn [negb]; [|rewrite kept_none; [done|lia..]].
  destruct (as_u64 (#items * 8) <? #ids); [apply cut_items_spec; [done|lia|lia]|].
  destruct (#ids * 8 <? #items).
  - rewrite (cut_ids_spec items Hs Hm (Z.to_nat #ids)) by lia. done.
  - apply cut_merge_spec; [done|lia|]. rewrite Z.sub_0_r. lia.
Qed.
End Cuts.

(** ** Properties *)

(** C8. Cutting a list down to a segment is filtering it.  For any list of
    items sorted by id, with repeated ids, and any map of a segment's ids in
    either layout, [keep_in_segment] keeps exactly the items whose id the map
    has, all of them and in their order: whether it gallops each item into the
    map, each id into the items, or merges the two, which it chooses by their
    sizes. *)
Theorem cut_is_filter {T} (id_of : T → Z) (items : list T) (g : GmapReader) (ids : list Z) :
  gmap_over g ids → ids_ok ids → StronglySorted (λ a b, id_of a ≤ id_of b) items → #items < 2 ^ 64 →
  keep_in_segment id_of items g = Ret (List.filter (λ it, bool_decide (id_of it ∈ ids)) items).
Proof. intros over ok Hs Hm. by apply keep_in_segment_spec. Qed.

(** Seventy ids, and lists of five, a hundred and six hundred items, two of
    each id. *)
Definition sample_items (n : Z) : list (Z * Z) := (λ i, (i / 2, i)) <$> range 0 n.

Lemma sample_items_sorted n : StronglySorted (λ a b : Z * Z, a.1 ≤ b.1) (sample_items n).
Proof.
  assert (∀ k a b, b - a = Z.of_nat k → StronglySorted (λ a b : Z * Z, a.1 ≤ b.1) ((λ i, (i / 2, i)) <$> range a b)) as H.
  { induction k as [|k IH]; intros a b E; [rewrite range_nil by lia; constructor|]. rewrite range_cons by lia. cbn. constructor; [apply IH; lia|].
    apply List.Forall_forall. intros x (i & <- & Hi%list_elem_of_In%elem_of_range)%in_map_iff. cbn. apply Z.div_le_mono; lia. }
  destruct (decide (0 ≤ n)); [apply (H (Z.to_nat n)); lia|]. unfold sample_items. rewrite range_nil by lia. constructor.
Qed.

Lemma cut_is_filter_witness :
  ∃ g, open (encode sample_ids None) = Ret g ∧
    keep_in_segment fst (sample_items 5) g = Ret [(1, 2); (1, 3)] ∧
    (length <$> keep_in_segment fst (sample_items 100) g) = Ret 34%nat ∧
    (length <$> keep_in_segment fst (sample_items 600) g) = Ret 140%nat.
Proof.
  destruct (open_encode sample_ids None [] sample_ids_ok ltac:(done)) as (g & Hg & over & _). rewrite app_nil_r in Hg. exists g. split; [done|].
  assert (∀ n, #(sample_items n) < 2 ^ 64 → keep_in_segment fst (sample_items n) g = Ret (List.filter (λ it, bool_decide (it.1 ∈ sample_ids)) (sample_items n))) as H
    by (intros n Hn; exact (cut_is_filter fst (sample_items n) g sample_ids over sample_ids_ok (sample_items_sorted n) Hn)).
  rewrite !H by by vm_compute. split; [vm_compute; reflexivity|]. split; vm_compute; reflexivity.
Defined.
