(* ===== verification/WalkProofs.v ===== *)
(** * What the walks find

    The candidates of a literal are the entries whose key and overlap bytes
    start with it; the splits of a query are the entries whose key and overlap
    bytes it starts with, and goes past. *)
From S2P Require Import Prelude Ordering Gmap ParentRecord ParentCodec SuffixBuilder SuffixBuildProofs FstWalk SegmentCut.
Import parents builder.
Import walk.

(** ** Byte order *)

(** The upper bound of the keys with a prefix, from the front. *)
Fixpoint next_key (k : list Z) : option (list Z) :=
  match k with
  | [] => None
  | b :: k => match next_key k with Some k => Some (b :: k) | None => if b <? 0xFF then Some [b + 1] else None end
  end.

Lemma bump_app a b : bump (a ++ b) = match bump a with [] => bump b | k => k ++ b end.
Proof. induction a as [|x a IH]; [done|]. cbn. destruct (x <? 255); done. Qed.

Lemma bump_rev k : rev (bump (rev k)) = default [] (next_key k).
Proof.
  induction k as [|b k IH]; [done|]. cbn [rev next_key]. rewrite bump_app. destruct (bump (rev k)) as [|x r] eqn:E.
  - destruct (next_key k) as [k'|] eqn:Ek; cbn in IH; subst.
    + destruct k as [|y k]; [done|]. cbn in Ek. by repeat case_match.
    + cbn. by destruct (b <? 255).
  - destruct (next_key k) as [k'|]; cbn in IH; [|by apply (f_equal (@length Z)) in IH; rewrite length_app in IH; cbn in IH; lia].
    rewrite rev_app_distr. cbn. by rewrite <- IH.
Qed.

Lemma lex_ge_cons x y a b : lex_cmp (x :: a) (y :: b) ≠ Lt ↔ y < x ∨ x = y ∧ lex_cmp a b ≠ Lt.
Proof. cbn. destruct (Z.compare_spec x y) as [->|?|?]; split; try (intros [?|[? ?]]; lia || done); try done; auto; try lia. Qed.
Lemma lex_lt_cons x y a b : lex_cmp (x :: a) (y :: b) = Lt ↔ x < y ∨ x = y ∧ lex_cmp a b = Lt.
Proof. cbn. destruct (Z.compare_spec x y) as [->|?|?]; split; try (intros [?|[? ?]]; lia || done); try done; auto; try lia. Qed.

Lemma lex_ge_nil k : lex_cmp k [] ≠ Lt.
Proof. by destruct k. Qed.

Lemma prefix_cons_iff (x y : Z) a b : x :: a `prefix_of` y :: b ↔ x = y ∧ a `prefix_of` b.
Proof. split; [intros H; split; [by eapply prefix_cons_inv_1|by eapply prefix_cons_inv_2]|]. intros [-> H]. by apply prefix_cons. Qed.

(** The keys between a prefix and its upper bound are those that have it. *)
Lemma range_prefix ge : ∀ k, bytes_ok ge → bytes_ok k →
  ge `prefix_of` k ↔ lex_cmp k ge ≠ Lt ∧ match next_key ge with Some lt => lex_cmp k lt = Lt | None => True end.
Proof.
  induction ge as [|b ge IH]; intros k Hge Hk.
  { split; [|intros; apply prefix_nil]. intros _. split; [apply lex_ge_nil|done]. }
  destruct k as [|x k]; [split; [intros []%prefix_nil_not|by intros []]|]. apply Forall_cons in Hge as [Hb Hge], Hk as [Hx Hk].
  rewrite prefix_cons_iff, (IH k Hge Hk), lex_ge_cons. cbn [next_key]. unfold fits in *. change (2 ^ 8) with 256 in *.
  destruct (next_key ge) as [lt|].
  - rewrite lex_lt_cons. split; [intros (-> & H1 & H2); auto|]. intros [[?|[-> ?]] [?|[? ?]]]; try lia. done.
  - destruct (Z.ltb_spec b 255).
    + rewrite lex_lt_cons. split; [intros (-> & H1 & _); split; [auto|left; lia]|]. intros [[?|[-> ?]] [?|[? H2]]]; try lia; try done; by destruct k.
    + split; [intros (-> & H1 & _); auto|]. intros [[?|[-> ?]] _]; [lia|done].
Qed.

Lemma lex_cmp_same k : lex_cmp k k = Eq.
Proof. induction k as [|x k IH]; [done|]. cbn. by rewrite Z.compare_refl. Qed.

(** ** The map *)

Definition keys_sorted (m : list (list Z * Z)) : Prop := StronglySorted (λ a b, lex_cmp a b = Lt) (map fst m).

Lemma fst_get_some m key v : fst_get m key = Some v → (key, v) ∈ m.
Proof.
  induction m as [|[k w] m IH]; [done|]. cbn. destruct (decide (k = key)) as [->|]; [intros [= ->]; by left|]. intros H. right. by apply IH.
Qed.

Lemma fst_get_in m key v : keys_sorted m → (key, v) ∈ m → fst_get m key = Some v.
Proof.
  unfold keys_sorted. induction m as [|[k w] m IH]; cbn; [intros _ []%elem_of_nil|]. intros [Hall Hs]%StronglySorted_cons [[= -> ->]|Hin]%elem_of_cons.
  - by rewrite decide_True.
  - destruct (decide (k = key)) as [->|]; [|by apply IH]. rewrite Forall_forall in Hall.
    assert (lex_cmp key key = Lt) as H by (apply Hall, list_elem_of_In, in_map_iff; exists (key, v); split; [done|by apply list_elem_of_In]).
    by rewrite lex_cmp_same in H.
Qed.

Lemma fst_get_none m key : fst_get m key = None ↔ key ∉ map fst m.
Proof.
  induction m as [|[k w] m IH]; cbn; [split; [intros _; apply not_elem_of_nil|done]|]. rewrite not_elem_of_cons.
  destruct (decide (k = key)) as [->|]; [split; [done|by intros []]|]. rewrite IH. naive_solver.
Qed.

Lemma elem_fst_range m partition q kv : bytes_ok (partition :: q) → bytes_ok kv.1 → partition < 255 →
  kv ∈ fst_range m (range_keys partition q).1 (range_keys partition q).2 ↔ kv ∈ m ∧ partition :: q `prefix_of` kv.1.
Proof.
  intros Hq Hk Hp. unfold fst_range, range_keys. cbn [fst snd]. rewrite bump_rev. destruct kv as [k v]. cbn [fst] in *.
  rewrite list_elem_of_In, filter_In, <- list_elem_of_In. rewrite (range_prefix _ k Hq Hk). apply and_iff_compat_l. cbn [next_key].
  destruct (next_key q) as [lt|]; cbn [default].
  - destruct (lex_cmp k _), (lex_cmp k _); naive_solver.
  - replace (partition <? 255) with true by lia. cbn [default]. destruct (lex_cmp k _), (lex_cmp k _); naive_solver.
Qed.

(** ** Nodes *)

(** The pairs below the node that a prefix leads to. *)
Definition below (m : list (list Z * Z)) (pre : list Z) : list (list Z * Z) :=
  omap (λ kv : list Z * Z, if decide (pre `prefix_of` kv.1) then Some (drop (length pre) kv.1, kv.2) else None) m.

Lemma below_nil m : below m [] = m.
Proof. unfold below. induction m as [|[k v] m IH]; [done|]. cbn [omap list_omap]. rewrite decide_True by apply prefix_nil. by rewrite IH. Qed.

Lemma below_step m pre b :
  omap (λ kv : list Z * Z, match kv.1 with x :: k => if x =? b then Some (k, kv.2) else None | [] => None end) (below m pre) = below m (pre ++ [b]).
Proof.
  unfold below. induction m as [|[k v] m IH]; [done|]. cbn [omap list_omap fst snd]. destruct (decide (pre `prefix_of` k)) as [[k' ->]|Hn].
  - cbn [omap list_omap fst snd]. rewrite drop_app_length. destruct k' as [|x k'].
    + rewrite decide_False; [done|]. rewrite app_nil_r. intros H%prefix_length. rewrite length_app in H. cbn in H. lia.
    + destruct (Z.eqb_spec x b) as [->|Hne].
      * rewrite decide_True by (exists k'; by rewrite <- app_assoc). rewrite IH.
        replace (drop (length (pre ++ [b])) (pre ++ b :: k')) with k'; [done|]. by rewrite length_app, <- drop_drop, drop_app_length.
      * rewrite decide_False; [done|]. intros [k2 E]. rewrite <- app_assoc in E. apply app_inv_head in E. cbn in E. congruence.
  - rewrite decide_False; [done|]. intros [k2 ->]. apply Hn. exists ([b] ++ k2). by rewrite app_assoc.
Qed.

Lemma find_input_below m pre b : find_input (below m pre) b = match below m (pre ++ [b]) with [] => None | n => Some n end.
Proof. unfold find_input. by rewrite below_step. Qed.

Lemma final_below m pre : final_value (below m pre) = fst_get m pre.
Proof.
  unfold final_value, below. induction m as [|[k v] m IH]; [done|]. cbn [omap list_omap fst snd fst_get]. destruct (decide (pre `prefix_of` k)) as [[k' ->]|Hn].
  - rewrite drop_app_length. cbn [fst_get]. destruct (decide (pre ++ k' = pre)) as [E|E].
    + rewrite decide_True; [done|]. rewrite <- (app_nil_r pre) in E at 2. by apply app_inv_head in E.
    + rewrite decide_False; [done|]. intros ->. apply E. by rewrite app_nil_r.
  - rewrite IH. rewrite decide_False; [done|]. intros ->. by apply Hn.
Qed.

Lemma below_empty m pre key : below m pre = [] → pre `prefix_of` key → fst_get m key = None.
Proof.
  intros H Hp. apply fst_get_none. intros ([k v] & Ek & Hin%list_elem_of_In)%list_elem_of_In%in_map_iff. cbn in Ek. subst k.
  assert ((drop (length pre) key, v) ∈ below m pre) as Hb; [|rewrite H in Hb; by apply elem_of_nil in Hb].
  unfold below. apply list_elem_of_omap. exists (key, v). split; [done|]. cbn. by rewrite decide_True.
Qed.

(** A prefix of a concatenation ends in the first list, or in the second. *)
Lemma prefix_split {A} (q k t : list A) : q `prefix_of` k ++ t → q `prefix_of` k ∨ ∃ t', q = k ++ t' ∧ t' ≠ [] ∧ t' `prefix_of` t.
Proof.
  intros H. destruct (prefix_weak_total q k (k ++ t) H) as [Hk|[t' ->]]; [by apply prefix_app_r|by left|].
  destruct t' as [|x t']; [left; by rewrite app_nil_r|]. right. exists (x :: t'). split; [done|]. split; [done|]. by eapply prefix_app_inv.
Qed.

(** ** One file *)

(** What a file holds: its keys in order, and under each the parents of it. *)
Record part_holds (part : Part) (E : list (list Z * ParentEntryV3)) : Prop := {
  ph_sorted : keys_sorted (fst_ part);
  ph_bytes : Forall (λ kv, bytes_ok kv.1) (fst_ part);
  ph_keys : ∀ key, key ∈ map fst E → key ∈ map fst (fst_ part);
  ph_record : ∀ key val, (key, val) ∈ fst_ part → ∃ record ps, table_get (parent_list_data part) val = Ret record ∧
    (∀ keep, decode_parent_entries_v8_where record key keep = Ret (List.filter (λ p, keep (overlap_of p)) ps)) ∧
    count_parent_entries_v8 record = Ret #ps ∧ ∀ p, p ∈ ps ↔ (key, p) ∈ E;
  ph_parents : ∀ kq, kq ∈ E → parent_ok kq.2;
}.

(** A loop that collects lists. *)
Lemma mapM_concat {A B} (f : A → out (list B)) (Q : A → B → Prop) l :
  (∀ a, a ∈ l → ∃ bs, f a = Ret bs ∧ ∀ x, x ∈ bs ↔ Q a x) → ∃ bss, mapM_out f l = Ret bss ∧ ∀ x, x ∈ concat bss ↔ ∃ a, a ∈ l ∧ Q a x.
Proof.
  induction l as [|a l IH]; intros H.
  { exists []. split; [done|]. intros x. split; [intros []%elem_of_nil|]. by intros (a & []%elem_of_nil & _). }
  destruct (H a ltac:(by left)) as (bs & E & Hbs). destruct IH as (bss & El & Hbss); [intros b Hb; apply H; by right|].
  exists (bs :: bss). split; [cbn; by rewrite E, bind_ret, El|]. intros x. cbn [concat]. rewrite elem_of_app, Hbs, Hbss. split.
  - intros [Hx|(b & Hb & Hx)]; [exists a; split; [by left|done]|exists b; split; [by right|done]].
  - intros (b & [->|Hb]%elem_of_cons & Hx); [by left|right; by exists b].
Qed.

Section Part.
Context (part : Part) (E : list (list Z * ParentEntryV3)) (Hpart : part_holds part E).

Lemma decoded_at key val : (key, val) ∈ fst_ part → ∃ ps, decode_parents part val key = Ret ps ∧ ∀ p, p ∈ ps ↔ (key, p) ∈ E.
Proof using Hpart.
  intros Hin. destruct (ph_record _ _ Hpart key val Hin) as (record & ps & Hg & Hw & _ & Hps). exists ps. split; [|done].
  unfold decode_parents, decode_parent_entries_v8. rewrite Hg, bind_ret, Hw. f_equal. induction ps as [|p ps' IH]; [done|]. cbn. f_equal.
  clear - ps'. induction ps' as [|p ps' IH]; [done|]. cbn. by rewrite IH.
Qed.

(** A lookup of a key, with a test of the overlap bytes. *)
Lemma lookup_where key keep : ∃ ps, match fst_get (fst_ part) key with None => Ret [] | Some val => decode_parents_where part val key keep end = Ret ps ∧
  ∀ p, p ∈ ps ↔ (key, p) ∈ E ∧ keep (overlap_of p) = true.
Proof using Hpart.
  destruct (fst_get (fst_ part) key) as [val|] eqn:Eg.
  - destruct (ph_record _ _ Hpart key val (fst_get_some _ _ _ Eg)) as (record & ps & Hg & Hw & _ & Hps). unfold decode_parents_where. rewrite Hg, bind_ret, Hw.
    eexists. split; [done|]. intros p. rewrite list_elem_of_In, filter_In, <- list_elem_of_In. by rewrite Hps.
  - exists []. split; [done|]. intros p. split; [intros []%elem_of_nil|]. intros [Hin _]. apply fst_get_none in Eg. destruct Eg.
    apply (ph_keys _ _ Hpart), list_elem_of_In, in_map_iff. exists (key, p). split; [done|by apply list_elem_of_In].
Qed.

Lemma entry_bytes key p : (key, p) ∈ E → ∃ val, (key, val) ∈ fst_ part ∧ bytes_ok key.
Proof using Hpart.
  intros Hin. assert (key ∈ map fst (fst_ part)) as ([k v] & Ek & Hk%list_elem_of_In)%list_elem_of_In%in_map_iff.
  { apply (ph_keys _ _ Hpart), list_elem_of_In, in_map_iff. exists (key, p). split; [done|by apply list_elem_of_In]. }
  cbn in Ek. subst k. exists v. split; [done|]. pose proof (ph_bytes _ _ Hpart) as Hb. rewrite Forall_forall in Hb. by apply (Hb (key, v)).
Qed.

Context (q : list Z) (partition : Z) (Hq : bytes_ok q) (Hp : 0 ≤ partition < 255).

Lemma probe_spec k : 0 ≤ k < #q → ∃ ps, probe part partition q k = Ret ps ∧
  ∀ p, p ∈ ps ↔ (partition :: take (Z.to_nat k) q, p) ∈ E ∧ drop (Z.to_nat k) q `prefix_of` overlap_of p.
Proof using Hpart.
  intros Hk. unfold probe, slice_from. rewrite !slice_ret, !bind_ret by lia. rewrite Z.sub_0_r, drop_0.
  rewrite (take_ge (drop (Z.to_nat k) q)) by (rewrite length_drop; unfold len; lia).
  destruct (lookup_where (partition :: take (Z.to_nat k) q) (λ ov, (#(drop (Z.to_nat k) q) <=? #ov) && bytes_eqb (take (length (drop (Z.to_nat k) q)) ov) (drop (Z.to_nat k) q)))
    as (ps & Eps & Hps). exists ps. split; [exact Eps|]. intros p. rewrite Hps. apply and_iff_compat_l.
  rewrite andb_true_iff. unfold bytes_eqb. rewrite bool_decide_eq_true, Z.leb_le. set (t := drop (Z.to_nat k) q). split.
  - intros [_ Ht]. rewrite <- Ht. apply prefix_take.
  - intros [u Hu]. rewrite Hu, take_app_length, len_app. pose proof (len_nonneg u). split; [lia|done].
Qed.

Lemma candidates_in_part_spec : ∃ l, candidates_in_part q partition part = Ret l ∧
  ∀ c, c ∈ l ↔ ∃ k p, (partition :: k, p) ∈ E ∧ c = from_parent partition p ∧ (k ≠ [] ∨ q = []) ∧ q `prefix_of` k ++ overlap_of p.
Proof using Hpart Hq Hp.
  unfold candidates_in_part. change (range_keys partition q) with ((range_keys partition q).1, (range_keys partition q).2). cbv iota.
  assert (bytes_ok (partition :: q)) as Hpq by (constructor; [widths; lia|done]).
  pose proof (ph_bytes _ _ Hpart) as Hbytes. rewrite Forall_forall in Hbytes.
  assert (∀ kv, kv ∈ fst_range (fst_ part) (range_keys partition q).1 (range_keys partition q).2 ↔ kv ∈ fst_ part ∧ partition :: q `prefix_of` kv.1) as Hrange.
  { intros kv. split.
    - intros Hin. assert (kv ∈ fst_ part) as Hin' by (apply list_elem_of_In in Hin; apply filter_In in Hin as [? _]; by apply list_elem_of_In).
      apply elem_fst_range in Hin; [done|done|by apply Hbytes|lia].
    - intros [Hin Hpre]. apply elem_fst_range; [done|by apply Hbytes|lia|done]. }
  destruct (mapM_concat (λ kv : list Z * Z, decode_parents part kv.2 kv.1) (λ kv p, (kv.1, p) ∈ E)
    (fst_range (fst_ part) (range_keys partition q).1 (range_keys partition q).2)) as (ins & -> & Hins).
  { intros [k v] [Hin _]%Hrange. by apply decoded_at. }
  destruct (mapM_concat (probe part partition q) (λ k p, (partition :: take (Z.to_nat k) q, p) ∈ E ∧ drop (Z.to_nat k) q `prefix_of` overlap_of p)
    (range (shortest_probe #q) #q)) as (acr & -> & Hacr).
  { intros k Hk%elem_of_range. apply probe_spec. unfold shortest_probe, saturating_sub in Hk. lia. }
  rewrite !bind_ret. eexists. split; [done|]. intros c. rewrite list_elem_of_In, in_map_iff. setoid_rewrite <- list_elem_of_In. setoid_rewrite elem_of_app.
  setoid_rewrite Hins. setoid_rewrite Hacr. split.
  - intros (p & <- & [([key v] & [Hin Hpre]%Hrange & HE)|(k & Hk%elem_of_range & HE & Hov)]); cbn [fst] in *.
    + destruct Hpre as [k' ->]. exists (q ++ k'), p. split; [exact HE|]. split; [done|]. split; [|rewrite <- app_assoc; apply prefix_app_r; done].
      destruct q; [by right|by left].
    + unfold shortest_probe, saturating_sub in Hk. exists (take (Z.to_nat k) q), p. split; [done|]. split; [done|]. split.
      * left. intros Ht%(f_equal len). rewrite len_take, len_nil in Ht. lia.
      * rewrite <- (take_drop (Z.to_nat k) q) at 1. by apply prefix_app.
  - intros (k & p & HE & -> & Hk & Hpre). exists p. split; [done|]. pose proof (len_overlap_of p (ph_parents _ _ Hpart _ HE)) as [_ Hov].
    destruct (prefix_split _ _ _ Hpre) as [Hqk|(t & Et & Hne & Ht)].
    + left. destruct (entry_bytes _ _ HE) as (v & Hv & _). exists (partition :: k, v). split; [|done]. apply Hrange. split; [done|]. by apply prefix_cons.
    + right. destruct Hk as [Hk|Hk]; [|rewrite Hk in Et; symmetry in Et; by apply app_eq_nil in Et as [_ ->]].
      assert (#t ≤ 4) as Ht4. { destruct Ht as [x Hx]. rewrite Hx, len_app in Hov. pose proof (len_nonneg x). lia. }
      assert (0 < #k). { destruct k as [|z k]; [done|]. rewrite len_cons. pose proof (len_nonneg k). lia. }
      exists #k. rewrite len_to_nat. split.
      * apply elem_of_range. unfold shortest_probe, saturating_sub, MAX_OVERLAP_BYTES. rewrite Et, len_app. destruct t as [|z t]; [done|]. rewrite len_cons in *. pose proof (len_nonneg t). lia.
      * rewrite Et, take_app_length, drop_app_length. done.
Qed.

(** ** The walk *)

Context (check_split : ParentEntryV3 → Z → out (option SplitCandidateV3)).
Context (Hcheck : ∀ k p, (partition :: k, p) ∈ E → k `prefix_of` q → k ≠ [] → ∃ o, check_split p #k = Ret o).

(** The splits at the end of a prefix of the query. *)
Definition splits_at (k : list Z) (s : SplitCandidateV3) : Prop :=
  ∃ p, (partition :: k, p) ∈ E ∧ overlap_agrees q (overlap_of p) #k = true ∧ check_split p #k = Ret (Some s).

Lemma mapM_omap {A B} (f : A → out (option B)) l : (∀ a, a ∈ l → ∃ o, f a = Ret o) →
  ∃ bs : list B, (omap id : list (option B) → list B) <$> mapM_out f l = Ret bs ∧ ∀ x, x ∈ bs ↔ ∃ a, a ∈ l ∧ f a = Ret (Some x).
Proof using.
  induction l as [|a l IH]; intros H.
  { exists []. split; [done|]. intros x. split; [intros []%elem_of_nil|]. by intros (a & []%elem_of_nil & _). }
  destruct (H a ltac:(by left)) as [o Eo]. destruct IH as (bs & El & Hbs); [intros b Hb; apply H; by right|]. cbn [mapM_out]. rewrite Eo, bind_ret.
  destruct (mapM_out f l) as [os| | |]; cbn in El; try done. injection El as El. exists (omap id (o :: os)). split; [done|]. cbn [omap list_omap id].
  intros x. destruct o as [y|].
  - change (x ∈ y :: omap id os ↔ ∃ a0, a0 ∈ a :: l ∧ f a0 = Ret (Some x)). rewrite elem_of_cons, El, Hbs. split.
    + intros [->|(b & Hb & Hx)]; [exists a; split; [by left|done]|exists b; split; [by right|done]].
    + intros (b & [->|Hb]%elem_of_cons & Hx); [left; congruence|right; by exists b].
  - change (x ∈ omap id os ↔ ∃ a0, a0 ∈ a :: l ∧ f a0 = Ret (Some x)). rewrite El, Hbs. split.
    + intros (b & Hb & Hx). exists b. split; [by right|done].
    + intros (b & [->|Hb]%elem_of_cons & Hx); [congruence|by exists b].
Qed.

Lemma walk_bytes_spec rest : ∀ done_, q = done_ ++ rest →
  ∃ l, walk_bytes check_split part q (partition :: q) (below (fst_ part) (partition :: done_)) #done_ rest = Ret l ∧
    ∀ s, s ∈ l ↔ ∃ k, done_ ++ k `prefix_of` q ∧ k ≠ [] ∧ splits_at (done_ ++ k) s.
Proof using Hpart Hcheck.
  induction rest as [|b rest IH]; intros done_ Eq.
  { exists []. split; [done|]. intros s. split; [intros []%elem_of_nil|]. intros (k & Hpre & Hk & _). rewrite app_nil_r in Eq. rewrite Eq in Hpre.
    apply prefix_length in Hpre. rewrite length_app in Hpre. destruct k; [done|cbn in Hpre; lia]. }
  assert (q = (done_ ++ [b]) ++ rest) as Eq' by by rewrite <- app_assoc.
  cbn [walk_bytes]. rewrite find_input_below. change ((partition :: done_) ++ [b]) with (partition :: (done_ ++ [b])).
  assert (∀ k, done_ ++ k `prefix_of` q → k ≠ [] → ∃ k', k = b :: k' ∧ done_ ++ k = (done_ ++ [b]) ++ k') as Hfirst.
  { intros k [x Hx] Hk. rewrite Eq, <- app_assoc in Hx. apply app_inv_head in Hx. destruct k as [|y k]; [done|]. injection Hx as <- _. exists k. split; [done|]. by rewrite <- app_assoc. }
  destruct (below (fst_ part) (partition :: done_ ++ [b])) as [|n0 node] eqn:En.
  { exists []. split; [done|]. intros s. split; [intros []%elem_of_nil|]. intros (k & Hpre & Hk & p & HE & _). exfalso.
    destruct (Hfirst k Hpre Hk) as (k' & -> & Ek). destruct (entry_bytes _ _ HE) as (v & Hv & _).
    rewrite Ek in Hv. pose proof (below_empty _ _ (partition :: (done_ ++ [b]) ++ k') En) as Hnone.
    rewrite (fst_get_in _ _ v) in Hnone; [by discriminate Hnone; apply prefix_cons, prefix_app_r|exact (ph_sorted _ _ Hpart)|done]. }
  rewrite <- En. rewrite final_below. destruct (IH (done_ ++ [b]) Eq') as (more & Emore & Hmore).
  assert (#(done_ ++ [b]) = #done_ + 1) as El by (rewrite len_app, len_cons, len_nil; lia). rewrite El in Emore.
  assert (slice (partition :: q) 0 (#done_ + 1 + 1) = Ret (partition :: done_ ++ [b])) as ->.
  { rewrite Eq'. change (partition :: (done_ ++ [b]) ++ rest) with ((partition :: done_ ++ [b]) ++ rest). apply slice_prefix. rewrite len_cons, El. lia. }
  destruct (lookup_where (partition :: done_ ++ [b]) (λ ov, overlap_agrees q ov (#done_ + 1))) as (ps & Eps & Hps).
  destruct (mapM_omap (λ p, check_split p (#done_ + 1)) ps) as (bs & Ebs & Hbs).
  { intros p [HE _]%Hps. rewrite <- El. apply (Hcheck (done_ ++ [b])); [done|by exists rest|by destruct done_]. }
  assert (match fst_get (fst_ part) (partition :: done_ ++ [b]) with
          | None => Ret ([] : list SplitCandidateV3)
          | Some val => key ← Ret (partition :: done_ ++ [b]); parents ← decode_parents_where part val key (λ ov, overlap_agrees q ov (#done_ + 1));
                        (omap id : list (option SplitCandidateV3) → list SplitCandidateV3) <$> mapM_out (λ p, check_split p (#done_ + 1)) parents end = Ret bs) as Efound.
  { destruct (fst_get (fst_ part) (partition :: done_ ++ [b])); [by rewrite bind_ret, Eps, bind_ret|]. injection Eps as <-. exact Ebs. }
  rewrite Efound, bind_ret, Emore, bind_ret. eexists. split; [done|]. intros s. rewrite elem_of_app, Hbs, Hmore. split.
  - intros [(p & [HE Hov]%Hps & Hs)|(k & Hpre & Hk & Hs)].
    + exists [b]. split; [by exists rest|]. split; [done|]. exists p. rewrite El. done.
    + exists (b :: k). rewrite <- app_assoc in Hpre, Hs. done.
  - intros (k & Hpre & Hk & Hs). destruct (Hfirst k Hpre Hk) as (k' & -> & Ek). destruct k' as [|y k'].
    + left. destruct Hs as (p & HE & Hov & Hs). rewrite El in Hov, Hs. exists p. split; [|done]. by apply Hps.
    + right. exists (y :: k'). by rewrite <- Ek.
Qed.

Lemma walk_partition_spec : ∃ l, walk_partition check_split part q partition = Ret l ∧ ∀ s, s ∈ l ↔ ∃ k, k `prefix_of` q ∧ k ≠ [] ∧ splits_at k s.
Proof using Hpart Hcheck.
  unfold walk_partition. pose proof (find_input_below (fst_ part) [] partition) as Ef. rewrite below_nil in Ef. rewrite Ef. cbn [app].
  destruct (walk_bytes_spec q [] eq_refl) as (l & El & Hl). cbn [app] in Hl. change (len []) with 0 in El.
  destruct (below (fst_ part) [partition]) as [|n0 node] eqn:En; [|by exists l].
  exists []. split; [done|]. intros s. split; [intros []%elem_of_nil|]. intros (k & _ & _ & p & HE & _). exfalso.
  destruct (entry_bytes _ _ HE) as (v & Hv & _). pose proof (below_empty _ _ (partition :: k) En) as Hnone.
  rewrite (fst_get_in _ _ v) in Hnone; [by discriminate Hnone; exists k|exact (ph_sorted _ _ Hpart)|done].
Qed.
End Part.

(** ** Splits *)

(** [a] is a prefix of [b], which goes on after it. *)
Definition runs_past (a b : list Z) : Prop := a `prefix_of` b ∧ #a < #b.

Lemma runs_past_app k t q : runs_past (k ++ t) q ↔ ∃ rest, q = k ++ rest ∧ runs_past t rest.
Proof.
  unfold runs_past. split.
  - intros [[x ->] Hlt]. exists (t ++ x). rewrite <- app_assoc. split; [done|]. split; [by apply prefix_app_r|]. rewrite !len_app in *. lia.
  - intros (rest & -> & [[x ->] Hlt]). split; [exists x; by rewrite <- app_assoc|]. rewrite !len_app in *. lia.
Qed.

Definition split_of (k : list Z) (p : ParentEntryV3) : SplitCandidateV3 :=
  {| query_consumed := #k; parent := p; remainder_start := #k; overlap_validated := #(overlap_of p) |}.

Lemma overlap_agrees_spec q k rest ov : q = k ++ rest → overlap_agrees q ov #k = true ↔ runs_past ov rest.
Proof.
  intros ->. unfold overlap_agrees, bytes_eqb, runs_past. rewrite len_to_nat, drop_app_length, len_app, andb_true_iff, bool_decide_eq_true, Z.ltb_lt. split.
  - intros [Hlt Hov]. split; [rewrite <- Hov; apply prefix_take|lia].
  - intros [[x ->] Hlt]. rewrite take_app_length. split; [lia|done].
Qed.

Lemma split_at_boundary_spec q k rest p split_byte : parent_ok p → q = k ++ rest → 0 ≤ split_byte →
  split_at_boundary p #k split_byte q =
    Ret (if decide (#k = split_byte ∧ runs_past (overlap_of p) rest) then Some (split_of k p) else None).
Proof.
  intros Hok -> Hs. pose proof (len_overlap_of p Hok) as [Hn Hov]. unfold split_at_boundary. destruct (Z.eqb_spec #k split_byte) as [<-|Hne]; cbn [negb].
  2: { rewrite decide_False by naive_solver. done. }
  destruct Hok as (_ & _ & _ & _ & Hol & Hlen & _). unfold MAX_OVERLAP_BYTES in *. rewrite <- Hn. rewrite (slice_from_app k rest #k eq_refl), bind_ret.
  destruct (Z.leb_spec #rest #(overlap_of p)).
  { rewrite decide_False; [done|]. intros [_ [_ ?]]. lia. }
  rewrite !slice_ret by (unfold len in *; lia). rewrite !bind_ret, Z.sub_0_r, !drop_0, len_to_nat.
  assert (take (length (overlap_of p)) (overlap p) = overlap_of p) as ->.
  { unfold overlap_of at 2. f_equal. unfold MAX_OVERLAP_BYTES. rewrite <- Hn. by rewrite len_to_nat. }
  unfold bytes_eqb. case_bool_decide as Hb; cbn [negb].
  - rewrite decide_True; [done|]. split; [done|]. split; [|lia]. rewrite <- Hb. apply prefix_take.
  - rewrite decide_False; [done|]. intros [_ [[x ->] _]]. apply Hb. by rewrite take_app_length.
Qed.

Lemma chunk_split_spec q k rest p : parent_ok p → q = k ++ rest → k ≠ [] →
  chunk_split q p #k = Ret (if decide (#k = own_len p - sti p ∧ runs_past (overlap_of p) rest) then Some (split_of k p) else None).
Proof.
  intros Hok Hq Hk. assert (0 < #k). { destruct k as [|x k]; [done|]. rewrite len_cons. pose proof (len_nonneg k). lia. }
  unfold chunk_split. destruct (Z.leb_spec (own_len p) (sti p)).
  { rewrite decide_False; [done|]. intros [? _]. lia. }
  destruct (Z.leb_spec #q #k) as [Hle|].
  { rewrite decide_False; [done|]. intros [_ [_ Hlt]]. rewrite Hq, len_app in Hle. pose proof (len_nonneg (overlap_of p)). lia. }
  apply split_at_boundary_spec; [done..|lia].
Qed.

(** ** Sorting and duplicates *)

Lemma dedup_by_sub {A} (same : A → A → bool) l x : x ∈ dedup_by same l → x ∈ l.
Proof.
  destruct l as [|a l]; [done|]. cbn. rewrite !elem_of_cons. intros [->|Hx]; [by left|]. right. revert a Hx.
  induction l as [|b l IH]; intros a Hx; [done|]. cbn in Hx. destruct (same b a); [right; by eapply IH|].
  apply elem_of_cons in Hx as [->|Hx]; [by left|]. right. by eapply IH.
Qed.

Lemma dedup_by_rep {A} (same : A → A → bool) l x : (∀ a, same a a = true) → x ∈ l → ∃ y, y ∈ dedup_by same l ∧ same x y = true.
Proof.
  intros Hr. destruct l as [|a l]; [intros []%elem_of_nil|]. cbn. intros [->|Hx]%elem_of_cons; [exists a; split; [by left|done]|]. revert a Hx.
  induction l as [|b l IH]; intros a Hx; [by apply elem_of_nil in Hx|]. cbn. apply elem_of_cons in Hx as [->|Hx].
  - destruct (same b a) eqn:E; [exists a; split; [by left|done]|]. exists b. split; [by right; left|done].
  - destruct (same b a) eqn:E.
    + destruct (IH a Hx) as (y & Hy & Hs). exists y. split; [|done]. apply elem_of_cons in Hy as [->|Hy]; [by left|by right].
    + destruct (IH b Hx) as (y & Hy & Hs). exists y. split; [by right|done].
Qed.

Lemma same_split_spec a b : same_split a b = true ↔
  raw_ordinal (parent a) = raw_ordinal (parent b) ∧ sti (parent a) = sti (parent b) ∧ query_consumed a = query_consumed b.
Proof. unfold same_split. rewrite !andb_true_iff, !Z.eqb_eq. tauto. Qed.

Lemma sort_and_dedup_sub l s : s ∈ sort_and_dedup_splits l → s ∈ l.
Proof. intros H%dedup_by_sub. by rewrite merge_sort_Permutation in H. Qed.

Lemma sort_and_dedup_rep l s : s ∈ l → ∃ s', s' ∈ sort_and_dedup_splits l ∧ same_split s s' = true.
Proof. intros H. apply dedup_by_rep; [intros a; by apply same_split_spec|]. by rewrite merge_sort_Permutation. Qed.

Lemma sorted_first {A} (f : A → Z) (g : A → list Z) (R : A → A → Prop) l :
  (∀ a b, R a b → lex_leb (f a :: g a) (f b :: g b) = true) → (∀ a, a ∈ l → fits 32 (f a)) → StronglySorted R l → StronglySorted (λ a b, as_u32 (f a) ≤ as_u32 (f b)) l.
Proof.
  intros HR Hf. induction 1 as [|a l Hs IH Ha]; constructor.
  - apply IH. intros b Hb. apply Hf. by right.
  - rewrite List.Forall_forall in *. intros b Hb. specialize (HR a b (Ha b Hb)). pose proof (Hf a ltac:(by left)). pose proof (Hf b ltac:(right; by apply list_elem_of_In)).
    unfold as_u32, fits in *. rewrite !Z.mod_small by done. cbn in HR. lia.
Qed.

#[export] Instance cand_le_trans : Transitive cand_le.
Proof. intros a b c. apply lex_leb_trans. Qed.
#[export] Instance cand_le_total : Total cand_le.
Proof. intros a b. apply lex_leb_total. Qed.
#[export] Instance split_id_le_trans : Transitive split_id_le.
Proof. intros a b c. apply lex_leb_trans. Qed.
#[export] Instance split_id_le_total : Total split_id_le.
Proof. intros a b. apply lex_leb_total. Qed.

(** ** Readers *)

(** The ids a reader is cut down to. *)
Definition segment_ids (r : SfxFileReaderV3) (seg : option (list Z)) : Prop :=
  match (if memo r then segment_gmap r else None) with
  | Some g => ∃ ids, seg = Some ids ∧ gmap_over g ids ∧ ids_ok ids
  | None => seg = None
  end.

(** The entries of the files behind a reader, and those it serves. *)
Record reader_of (r : SfxFileReaderV3) (Es : list (list (list Z * ParentEntryV3))) (seg : option (list Z)) : Prop := {
  ro_parts : Forall2 part_holds (part_views r) Es;
  ro_ordinals : ∀ kq, kq ∈ concat Es → fits 32 (raw_ordinal kq.2);
  ro_segment : segment_ids r seg;
}.
Definition served (Es : list (list (list Z * ParentEntryV3))) (seg : option (list Z)) (key : list Z) (p : ParentEntryV3) : Prop :=
  (key, p) ∈ concat Es ∧ match seg with Some ids => raw_ordinal p ∈ ids | None => True end.

Section Reader.
Context (to_lowercase : list Z → list Z) (r : SfxFileReaderV3) (Es : list (list (list Z * ParentEntryV3))) (seg : option (list Z)).
Context (Hr : reader_of r Es seg).

(** A shared list is a [Vec]: its length is a [usize]. *)
Definition vec_lengths : Prop :=
  memo r = true → (∀ query partition l, fst_candidates_in_partition to_lowercase r query partition = Ret l → #l < 2 ^ 64) ∧
    (∀ query l, falling_walk_uncached to_lowercase chunk_split [SI0_PREFIX; SI_REST_PREFIX] r query = Ret l → #l < 2 ^ 64).
Context (Hvec : vec_lengths).

Lemma parts_union {B} (f : Part → out (list B)) (Q : list (list Z * ParentEntryV3) → B → Prop) :
  (∀ part E, part_holds part E → ∃ l, f part = Ret l ∧ ∀ x, x ∈ l ↔ Q E x) →
  ∃ ls, mapM_out f (part_views r) = Ret ls ∧ ∀ x, x ∈ concat ls ↔ ∃ E, E ∈ Es ∧ Q E x.
Proof using Hr.
  intros Hf. pose proof (ro_parts _ _ _ Hr) as HP. clear Hr Hvec. induction HP as [|part E parts Es Hp _ IH].
  { exists []. split; [done|]. intros x. split; [intros []%elem_of_nil|]. by intros (a & []%elem_of_nil & _). }
  destruct (Hf part E Hp) as (l & El & Hl), IH as (ls & Els & Hls). exists (l :: ls). split; [cbn; by rewrite El, bind_ret, Els|].
  intros x. cbn [concat]. rewrite elem_of_app, Hl, Hls. split.
  - intros [H|(E' & H & Hx)]; [exists E; split; [by left|done]|exists E'; split; [by right|done]].
  - intros (E' & [->|H]%elem_of_cons & Hx); [by left|right; by exists E'].
Qed.

Lemma elem_concat {A} (x : A) (l : list (list A)) : x ∈ concat l ↔ ∃ y, y ∈ l ∧ x ∈ y.
Proof using. rewrite list_elem_of_In, in_concat. setoid_rewrite <- list_elem_of_In. done. Qed.

(** The cut of a list sorted by ordinal. *)
Lemma cut_sorted {T} (ord : T → Z) (shared : list T) : StronglySorted (λ a b, as_u32 (ord a) ≤ as_u32 (ord b)) shared → (∀ a, a ∈ shared → fits 32 (ord a)) →
  (memo r = true → #shared < 2 ^ 64) → memo r = true →
  ∃ l, match segment_gmap r with Some g => keep_in_segment (λ a, as_u32 (ord a)) shared g | None => Ret shared end = Ret l ∧
    ∀ x, x ∈ l ↔ x ∈ shared ∧ match seg with Some ids => ord x ∈ ids | None => True end.
Proof using Hr.
  intros Hs Hf Hlen Hm. pose proof (ro_segment _ _ _ Hr) as Hseg. unfold segment_ids in Hseg. rewrite Hm in Hseg. destruct (segment_gmap r) as [g|].
  - destruct Hseg as (ids & -> & over & ok). rewrite (keep_in_segment_spec _ g ids over ok) by auto. eexists. split; [done|]. intros x.
    rewrite list_elem_of_In, filter_In, bool_decide_eq_true, <- list_elem_of_In.
    assert (x ∈ shared → as_u32 (ord x) = ord x) as Hid by (intros Hx; apply Z.mod_small, (Hf x Hx)).
    split; intros [Hx H]; (split; [done|]); [by rewrite <- Hid|by rewrite Hid].
  - rewrite Hseg. exists shared. split; [done|]. intros x. tauto.
Qed.

Lemma unshared : memo r = false → seg = None.
Proof using Hr. intros Hm. pose proof (ro_segment _ _ _ Hr) as Hseg. unfold segment_ids in Hseg. by rewrite Hm in Hseg. Qed.

(** A candidate of a query among the entries: its key and overlap bytes start
    with the query. *)
Definition candidate (q : list Z) (partition : Z) (p : ParentEntryV3) : Prop :=
  ∃ k, served Es seg (partition :: k) p ∧ (k ≠ [] ∨ q = []) ∧ q `prefix_of` k ++ overlap_of p.

Lemma partition_candidates query partition : bytes_ok (to_lowercase query) → 0 ≤ partition < 255 →
  ∃ l, (if memo r then
          shared ← memo_candidates_in_partition to_lowercase r query partition;
          match segment_gmap r with Some g => keep_in_segment (λ c, as_u32 (c_raw_ordinal c)) shared g | None => Ret shared end
        else fst_candidates_in_partition to_lowercase r query partition) = Ret l ∧
    ∀ c, c ∈ l ↔ ∃ p, c = from_parent partition p ∧ candidate (to_lowercase query) partition p.
Proof using Hr Hvec.
  intros Hq Hp. set (q := to_lowercase query) in *.
  destruct (parts_union (candidates_in_part q partition) (λ E c, ∃ k p, (partition :: k, p) ∈ E ∧ c = from_parent partition p ∧ (k ≠ [] ∨ q = []) ∧ q `prefix_of` k ++ overlap_of p))
    as (ls & Els & Hls). { intros part E HP. by apply candidates_in_part_spec. }
  assert (fst_candidates_in_partition to_lowercase r query partition = Ret (concat ls)) as Ein by (unfold fst_candidates_in_partition; fold q; by rewrite Els).
  assert (∀ c, c ∈ concat ls ↔ ∃ k p, (partition :: k, p) ∈ concat Es ∧ c = from_parent partition p ∧ (k ≠ [] ∨ q = []) ∧ q `prefix_of` k ++ overlap_of p) as Hall.
  { intros c. rewrite Hls. setoid_rewrite elem_concat. naive_solver. }
  unfold memo_candidates_in_partition. rewrite Ein, fmap_ret, bind_ret. destruct (memo r) eqn:Hm.
  - assert (∀ c, c ∈ merge_sort cand_le (concat ls) → fits 32 (c_raw_ordinal c)) as Hf.
    { intros c Hc. rewrite merge_sort_Permutation in Hc. apply Hall in Hc as (k & p & HE & -> & _). exact (ro_ordinals _ _ _ Hr _ HE). }
    destruct (cut_sorted c_raw_ordinal (merge_sort cand_le (concat ls))) as (l & El & Hl); [|done| |done|].
    { apply (sorted_first c_raw_ordinal (λ c, [c_sti c]) cand_le); [done|done|]. apply StronglySorted_merge_sort; apply _. }
    { intros _. unfold len. rewrite merge_sort_Permutation. destruct (Hvec Hm) as [Hv _]. by apply (Hv query partition). }
    exists l. split; [done|]. intros c. rewrite Hl, merge_sort_Permutation, Hall. unfold candidate, served. cbn. split.
    + intros [(k & p & HE & -> & Hk & Hpre) Hid]. exists p. split; [done|]. by exists k.
    + intros (p & -> & k & [HE Hid] & Hk & Hpre). split; [|done]. by exists k, p.
  - exists (concat ls). split; [done|]. intros c. rewrite Hall. unfold candidate, served. rewrite (unshared Hm). naive_solver.
Qed.

Lemma candidate_partitions_range a s p : p ∈ candidate_partitions a s → 0 ≤ p < 255.
Proof using. destruct a, s; cbn; rewrite ?elem_of_cons; unfold SI0_PREFIX, SI_REST_PREFIX, SI_STRIPPED_PREFIX; intros H; repeat destruct H as [->|H]; try lia; by apply elem_of_nil in H. Qed.

(** What [fst_candidates_v3] returns. *)
Lemma candidates_spec query anchor_start strict_separators : bytes_ok (to_lowercase query) →
  ∃ l, fst_candidates_v3 to_lowercase r query anchor_start strict_separators = Ret l ∧
    ∀ c, c ∈ l ↔ ∃ partition p, partition ∈ candidate_partitions anchor_start strict_separators ∧ c = from_parent partition p ∧
      candidate (to_lowercase query) partition p ∧ (anchor_start = true → partition = SI_STRIPPED_PREFIX → sti p = 0).
Proof using Hr Hvec.
  intros Hq. unfold fst_candidates_v3.
  destruct (mapM_concat (λ partition,
    if memo r then
      shared ← memo_candidates_in_partition to_lowercase r query partition;
      match segment_gmap r with Some g => keep_in_segment (λ c, as_u32 (c_raw_ordinal c)) shared g | None => Ret shared end
    else fst_candidates_in_partition to_lowercase r query partition)
    (λ partition c, ∃ p, c = from_parent partition p ∧ candidate (to_lowercase query) partition p) (candidate_partitions anchor_start strict_separators)) as (ls & -> & Hls).
  { intros partition Hp%candidate_partitions_range. by apply partition_candidates. }
  rewrite bind_ret. eexists. split; [done|]. intros c. destruct anchor_start.
  - unfold anchor_stripped. rewrite list_elem_of_In, filter_In, <- list_elem_of_In, Hls, orb_true_iff, negb_true_iff, Z.eqb_eq. unfold is_word_stripped. rewrite Z.eqb_neq. split.
    + intros [(partition & Hp & p & -> & Hc) Hs]. exists partition, p. split; [done|]. split; [done|]. split; [done|]. intros _ ->. cbn in Hs. by destruct Hs.
    + intros (partition & p & Hp & -> & Hc & Hs). split; [by exists partition; split; [|exists p]|]. cbn. destruct (decide (partition = SI_STRIPPED_PREFIX)); [right; auto|by left].
  - rewrite Hls. naive_solver.
Qed.

(** ** Splits of a query *)

(** The entries the query runs past. *)
Definition split_entry (q k : list Z) (p : ParentEntryV3) : Prop :=
  (served Es seg (SI0_PREFIX :: k) p ∨ served Es seg (SI_REST_PREFIX :: k) p) ∧ k ≠ [] ∧ #k = own_len p - sti p ∧ runs_past (k ++ overlap_of p) q.

Lemma chunk_walk_spec part E q partition : part_holds part E → partition = SI0_PREFIX ∨ partition = SI_REST_PREFIX →
  ∃ l, walk_partition (chunk_split q) part q partition = Ret l ∧
    ∀ s, s ∈ l ↔ ∃ k p, (partition :: k, p) ∈ E ∧ k ≠ [] ∧ #k = own_len p - sti p ∧ runs_past (k ++ overlap_of p) q ∧ s = split_of k p.
Proof using.
  intros HP Hpar. destruct (walk_partition_spec part E HP q partition (chunk_split q)) as (l & El & Hl).
  { intros k p HE [rest Hq] Hk. rewrite (chunk_split_spec q k rest p (ph_parents _ _ HP _ HE) Hq Hk). eauto. }
  exists l. split; [done|]. intros s. rewrite Hl. unfold splits_at. setoid_rewrite runs_past_app. split.
  - intros (k & [rest Hq] & Hk & p & HE & Hov & Hs). rewrite (overlap_agrees_spec q k rest _ Hq) in Hov.
    rewrite (chunk_split_spec q k rest p (ph_parents _ _ HP _ HE) Hq Hk) in Hs. case_decide as Hd; [|done]. injection Hs as <-. destruct Hd as [Hlen _].
    exists k, p. split; [done|]. split; [done|]. split; [done|]. split; [by exists rest|done].
  - intros (k & p & HE & Hk & Hlen & (rest & Hq & Hov) & ->). exists k. split; [by exists rest|]. split; [done|]. exists p. split; [done|].
    rewrite (overlap_agrees_spec q k rest _ Hq). split; [done|]. rewrite (chunk_split_spec q k rest p (ph_parents _ _ HP _ HE) Hq Hk). by rewrite decide_True.
Qed.

(** What [falling_walk_chunks] returns: splits of the entries the query runs
    past, one at least for each ordinal, index and length among them. *)
Lemma falling_walk_chunks_spec query :
  ∃ l, falling_walk_chunks to_lowercase r query = Ret l ∧
    (∀ s, s ∈ l → ∃ k p, split_entry (to_lowercase query) k p ∧ s = split_of k p) ∧
    (∀ k p, split_entry (to_lowercase query) k p → ∃ k' p', split_entry (to_lowercase query) k' p' ∧ split_of k' p' ∈ l ∧
       raw_ordinal p' = raw_ordinal p ∧ sti p' = sti p ∧ #k' = #k).
Proof using Hr Hvec.
  set (q := to_lowercase query).
  destruct (parts_union (λ part, (λ l, concat l) <$> mapM_out (walk_partition (chunk_split q) part q) [SI0_PREFIX; SI_REST_PREFIX])
    (λ E s, ∃ k p, ((SI0_PREFIX :: k, p) ∈ E ∨ (SI_REST_PREFIX :: k, p) ∈ E) ∧ k ≠ [] ∧ #k = own_len p - sti p ∧ runs_past (k ++ overlap_of p) q ∧ s = split_of k p)) as (ls & Els & Hls).
  { intros part E HP. cbn [mapM_out]. destruct (chunk_walk_spec part E q SI0_PREFIX HP) as (l0 & -> & H0); [by left|].
    destruct (chunk_walk_spec part E q SI_REST_PREFIX HP) as (l1 & -> & H1); [by right|]. rewrite !bind_ret, fmap_ret. eexists. split; [done|].
    intros s. cbn [concat]. rewrite app_nil_r, elem_of_app, H0, H1. naive_solver. }
  assert (falling_walk_uncached to_lowercase chunk_split [SI0_PREFIX; SI_REST_PREFIX] r query = Ret (sort_and_dedup_splits (concat ls))) as Eu.
  { unfold falling_walk_uncached. fold q. by rewrite Els, bind_ret. }
  assert (∀ s, s ∈ concat ls ↔ ∃ k p, ((SI0_PREFIX :: k, p) ∈ concat Es ∨ (SI_REST_PREFIX :: k, p) ∈ concat Es) ∧ k ≠ [] ∧ #k = own_len p - sti p ∧ runs_past (k ++ overlap_of p) q ∧ s = split_of k p) as Hall.
  { intros s. rewrite Hls. setoid_rewrite elem_concat. naive_solver. }
  unfold falling_walk_chunks, falling_walk. rewrite Eu, bind_ret. destruct (memo r) eqn:Hm.
  - set (v := sort_and_dedup_splits (concat ls)) in *.
    assert (∀ s, s ∈ merge_sort split_id_le v → s ∈ concat ls) as Hv. { intros s Hs. rewrite merge_sort_Permutation in Hs. by apply sort_and_dedup_sub. }
    destruct (cut_sorted (λ s, raw_ordinal (parent s)) (merge_sort split_id_le v)) as (l & El & Hl); [| | |done|].
    { apply (sorted_first (λ s, raw_ordinal (parent s)) (λ s, [sti (parent s); query_consumed s]) split_id_le); [done| |apply StronglySorted_merge_sort; apply _].
      intros s (k & p & [HE|HE] & _ & _ & _ & ->)%Hv%Hall; exact (ro_ordinals _ _ _ Hr _ HE). }
    { intros s (k & p & [HE|HE] & _ & _ & _ & ->)%Hv%Hall; exact (ro_ordinals _ _ _ Hr _ HE). }
    { intros _. unfold len. rewrite merge_sort_Permutation. destruct (Hvec Hm) as [_ Hv']. by apply (Hv' query). }
    rewrite El, bind_ret. eexists. split; [done|]. split.
    + intros s [Hs Hid]%sort_and_dedup_sub%Hl. apply Hv, Hall in Hs as (k & p & HE & Hk & Hlen & Hpast & ->). exists k, p. split; [|done].
      split; [|done]. destruct HE; [left|right]; by split.
    + intros k p (HE & Hk & Hlen & Hpast). assert (split_of k p ∈ concat ls) as Hin. { apply Hall. exists k, p. destruct HE as [[HE _]|[HE _]]; naive_solver. }
      destruct (sort_and_dedup_rep _ _ Hin) as (s1 & Hs1 & (E1 & E2 & E3)%same_split_spec). cbn in E1, E2, E3.
      assert (s1 ∈ l) as Hl1. { apply Hl. rewrite merge_sort_Permutation. split; [done|]. destruct seg; [|done]. rewrite <- E1. by destruct HE as [[_ H]|[_ H]]. }
      destruct (sort_and_dedup_rep _ _ Hl1) as (s2 & Hs2 & (F1 & F2 & F3)%same_split_spec). pose proof Hs2 as Hs2'.
      apply sort_and_dedup_sub, Hl in Hs2' as [Hs2' Hid]. apply Hv, Hall in Hs2' as (k2 & p2 & HE2 & Hk2 & Hlen2 & Hpast2 & ->). cbn in *.
      exists k2, p2. split; [split; [destruct HE2; [left|right]; by split|done]|]. split; [done|]. split; [congruence|]. split; congruence.
  - eexists. split; [done|]. pose proof (unshared Hm) as Hseg. split.
    + intros s (k & p & HE & Hk & Hlen & Hpast & ->)%sort_and_dedup_sub%Hall. exists k, p. split; [|done]. split; [|done]. unfold served. rewrite Hseg. naive_solver.
    + intros k p (HE & Hk & Hlen & Hpast). assert (split_of k p ∈ concat ls) as Hin. { apply Hall. exists k, p. destruct HE as [[HE _]|[HE _]]; naive_solver. }
      destruct (sort_and_dedup_rep _ _ Hin) as (s1 & Hs1 & (E1 & E2 & E3)%same_split_spec). cbn in E1, E2, E3.
      pose proof Hs1 as (k2 & p2 & HE2 & Hk2 & Hlen2 & Hpast2 & ->)%sort_and_dedup_sub%Hall. cbn in *.
      exists k2, p2. split; [split; [unfold served; rewrite Hseg; naive_solver|done]|]. split; [done|]. split; [congruence|]. split; congruence.
Qed.
End Reader.
