(* ===== verification/Utf8.v ===== *)
(** * Strings as their bytes

    A byte list is a string when it encodes characters.  Strings can be cut
    where a character starts, and only there. *)
From S2P Require Import Prelude Text SuffixBuilder SuffixBuild SuffixBuildProofs FstWalk.
Import text walk.

Definition valid (s : list Z) : Prop := ∃ cs, Forall is_char cs ∧ s = flat_map utf8 cs.

Definition continuation (b : Z) : bool := Z.land b 0xC0 =? 0x80.

(** The length of a character, by its first byte. *)
Definition width (h : Z) : nat := if h <? 0x80 then 1 else if h <? 0xE0 then 2 else if h <? 0xF0 then 3 else 4.

Lemma continuation_byte x : 0 ≤ x < 64 → continuation (0x80 + x) = true.
Proof.
  intros Hx. assert (implb ((128 <=? 0x80 + x) && (0x80 + x <? 192)) (continuation (0x80 + x)) = true) as H.
  { apply (all_bytes_spec (λ b, implb ((128 <=? b) && (b <? 192)) (continuation b))); [by vm_compute|widths; lia]. }
  by replace ((128 <=? 0x80 + x) && (0x80 + x <? 192)) with true in H by lia.
Qed.

Lemma utf8_shape c : is_char c → ∃ h t, utf8 c = h :: t ∧ continuation h = false ∧ Forall (λ b, continuation b = true) t ∧ length (utf8 c) = width h.
Proof.
  intros Hc. destruct (utf8_head c Hc) as (h & t & E & Hh). exists h, t. split; [done|]. split; [done|].
  unfold is_char in Hc. pose proof (Z.mod_pos_bound c 64 ltac:(lia)). pose proof (Z.mod_pos_bound (c / 64) 64 ltac:(lia)).
  pose proof (Z.mod_pos_bound (c / 4096) 64 ltac:(lia)). pose proof (Z.div_pos c 64). pose proof (Z.div_pos c 4096). pose proof (Z.div_pos c 262144).
  unfold utf8 in *. repeat case_match; rewrite ?Z.ltb_lt, ?Z.ltb_ge in *; injection E as <- <-; unfold width.
  - replace (c <? 128) with true by lia. done.
  - pose proof (Z.div_lt_upper_bound c 64 32). split; [repeat constructor; apply continuation_byte; lia|]. by repeat case_lia; try lia.
  - pose proof (Z.div_lt_upper_bound c 4096 16). split; [repeat constructor; apply continuation_byte; lia|]. by repeat case_lia; try lia.
  - pose proof (Z.div_lt_upper_bound c 262144 5). split; [repeat constructor; apply continuation_byte; lia|]. by repeat case_lia; try lia.
Qed.

Lemma valid_nil : valid [].
Proof. by exists []. Qed.

Lemma valid_app a b : valid a → valid b → valid (a ++ b).
Proof. intros (ca & Ha & ->) (cb & Hb & ->). exists (ca ++ cb). split; [by apply Forall_app|]. by rewrite flat_map_app. Qed.

Lemma valid_bytes s : valid s → bytes_ok s.
Proof. intros (cs & Hc & ->). by apply flat_utf8_ok. Qed.

(** What follows a string in a string is a string. *)
Lemma valid_cancel a b : valid a → valid (a ++ b) → valid b.
Proof.
  intros (ca & Ha & ->). induction Ha as [|c ca Hc _ IH]; [done|]. cbn [flat_map]. intros (cs & Hs & E).
  destruct (utf8_shape c Hc) as (h & t & Eu & _ & _ & Hw). rewrite Eu in E. destruct Hs as [|c' cs Hc' Hs]; [done|]. cbn [flat_map] in E.
  destruct (utf8_shape c' Hc') as (h' & t' & Eu' & _ & _ & Hw'). rewrite Eu' in E. injection E as <- E.
  assert (length t = length t') as Hl by (rewrite Eu in Hw; rewrite Eu' in Hw'; cbn in *; lia).
  rewrite <- !app_assoc in E. apply app_inj_1 in E as [_ E]; [|done]. apply IH. exists cs. split; [done|exact E].
Qed.

(** A cut where a character starts. *)
Lemma valid_cut s i : valid s → 0 ≤ i ≤ #s → is_char_boundary s i = true → valid (take (Z.to_nat i) s) ∧ valid (drop (Z.to_nat i) s).
Proof.
  intros (cs & Hs & ->). revert i. induction Hs as [|c cs Hc Hs IH]; intros i Hi Hb.
  { cbn. rewrite take_nil, drop_nil. split; apply valid_nil. }
  cbn [flat_map] in *. destruct (utf8_shape c Hc) as (h & t & Eu & _ & Ht & _). rewrite len_app in Hi.
  assert (valid (utf8 c)) as Hv by (exists [c]; cbn; rewrite app_nil_r; split; [by constructor|done]).
  destruct (decide (i = 0)) as [->|]; [split; [apply valid_nil|]; exists (c :: cs); split; [by constructor|done]|].
  destruct (decide (i < #(utf8 c))) as [Hlt|Hge].
  - exfalso. unfold is_char_boundary in Hb. replace (i =? 0) with false in Hb by lia. pose proof (len_nonneg (flat_map utf8 cs)). rewrite len_app in Hb.
    destruct (Z.leb_spec (#(utf8 c) + #(flat_map utf8 cs)) i); [lia|]. rewrite lookup_app_l in Hb by (unfold len in Hlt; lia). rewrite Eu in Hb, Hlt.
    destruct (Z.to_nat i) as [|j] eqn:Ej; [lia|]. cbn in Hb. destruct (t !! j) as [b|] eqn:Et; [|done]. rewrite Forall_forall in Ht.
    pose proof (Ht b ltac:(by eapply list_elem_of_lookup_2)) as Hcb. unfold continuation in Hcb. by rewrite Hcb in Hb.
  - destruct (IH (i - #(utf8 c))) as [H1 H2]; [lia| |].
    { unfold is_char_boundary in *. replace (i =? 0) with false in Hb by lia. rewrite len_app in Hb. destruct (Z.eqb_spec (i - #(utf8 c)) 0); [done|].
      destruct (Z.leb_spec (#(utf8 c) + #(flat_map utf8 cs)) i), (Z.leb_spec #(flat_map utf8 cs) (i - #(utf8 c))); try lia.
      rewrite lookup_app_r in Hb by (unfold len in *; lia). replace (Z.to_nat i - length (utf8 c))%nat with (Z.to_nat (i - #(utf8 c))) in Hb by (unfold len; lia). done. }
    replace (Z.to_nat i) with (length (utf8 c) + Z.to_nat (i - #(utf8 c)))%nat by (unfold len in *; lia).
    rewrite take_app_add, drop_app_add. split; [by apply valid_app|done].
Qed.

Lemma valid_head s b t : valid s → s = b :: t → continuation b = false.
Proof.
  intros (cs & Hs & ->) E. destruct Hs as [|c cs Hc _]; [done|]. cbn in E. destruct (utf8_shape c Hc) as (h & t' & Eu & Hh & _). rewrite Eu in E. by injection E as -> _.
Qed.

(** A string starts on a boundary of the string it is found in. *)
Lemma boundary_valid s i : 0 ≤ i ≤ #s → valid (drop (Z.to_nat i) s) → is_char_boundary s i = true.
Proof.
  intros Hi Hv. unfold is_char_boundary. destruct (Z.eqb_spec i 0); [done|]. destruct (Z.leb_spec #s i); [lia|].
  destruct (lookup_lt_is_Some_2 s (Z.to_nat i)) as [b Hb]; [unfold len in *; lia|]. rewrite Hb.
  assert (continuation b = false) as Hc; [|unfold continuation in Hc; by rewrite Hc].
  rewrite (drop_S _ _ _ Hb) in Hv. by eapply valid_head.
Qed.

Lemma boundary_prefix s i q : 0 ≤ i → valid q → q ≠ [] → q `prefix_of` drop (Z.to_nat i) s → is_char_boundary s i = true.
Proof.
  intros Hi Hv Hq [x Hx]. unfold is_char_boundary. destruct (Z.eqb_spec i 0); [done|]. destruct q as [|b q]; [done|].
  assert (s !! Z.to_nat i = Some b) as Hb. { rewrite <- (Nat.add_0_r (Z.to_nat i)), <- lookup_drop, Hx. done. }
  pose proof (lookup_lt_Some _ _ _ Hb). destruct (Z.leb_spec #s i); [unfold len in *; lia|]. rewrite Hb. pose proof (valid_head _ _ _ Hv eq_refl) as Hc. unfold continuation in Hc. by rewrite Hc.
Qed.

Lemma boundary_after a b : valid b → is_char_boundary (a ++ b) #a = true.
Proof. intros Hb. apply boundary_valid; [rewrite len_app; pose proof (len_nonneg a); pose proof (len_nonneg b); lia|]. by rewrite len_to_nat, drop_app_length. Qed.

Lemma snap_boundary s i : 0 ≤ i ≤ #s → is_char_boundary s i = true → snap_to_char_boundary s i = i.
Proof.
  intros Hi Hb. unfold snap_to_char_boundary. rewrite Z.min_l by lia. destruct (length s) as [|n]; [done|]. cbn. by rewrite Hb, andb_false_r.
Qed.
