(* ===== verification/Chains.v ===== *)
(** * Chains of tokens ([src/suffix_fst/briques/fst_walk.rs])

    A query that runs past a token goes on in the next one.  This file models
    the two searches for the ways it can: through the dictionary, which
    matches the rest of the query from the start of a token, and through the
    table of the tokens that follow each token.

    Both loops take their work from a stack; the fuel is the number of turns,
    and both end because a branch is given up at depth eight.  The caches of
    [build_chains_from_splits], keyed by the offset of the rest, hold what a
    call computes and are left out. *)
From stdpp Require Import gmap.
From S2P Require Import Prelude Ordering ParentRecord FstWalk Resolve SiblingTable TermTexts.
Import resolve walk.
Import parents.
Open Scope Z_scope.

Module chains.

Definition MAX_CHAIN_DEPTH : Z := 8.
Definition PREFIX_ASSUMED_MAX_BYTES : Z := 2.

(** [&s[a..]]: panics inside a character. *)
Definition str_from (s : list Z) (a : Z) : out (list Z) := if is_char_boundary s a then slice_from s a else Panic.

(** [sort_unstable] and [dedup]. *)
Definition unique_ords (ords : list Z) : list Z := dedup (merge_sort Z.le ords).

(** The alternatives after a rest, how much of it they consume, and where the
    rest after them starts. *)
Definition Group : Type := Alts * Z * Z.

Fixpoint run_ords (consumed : Z) (l : list SplitCandidateV3) : list Z * list SplitCandidateV3 :=
  match l with
  | [] => ([], [])
  | s :: l' => if query_consumed s =? consumed then let '(ords, rest) := run_ords consumed l' in (raw_ordinal (parent s) :: ords, rest) else ([], l)
  end.
(** One group per run of equal lengths; each takes a split at least. *)
Fixpoint group_splits (fuel : nat) (l : list SplitCandidateV3) : list Group :=
  match fuel, l with
  | S fuel, s :: _ =>
      let '(ords, rest) := run_ords (query_consumed s) l in
      (Ids (unique_ords ords), query_consumed s, remainder_start s) :: group_splits fuel rest
  | _, _ => []
  end.
Definition groups_of (filter_best_consumed : bool) (l : list SplitCandidateV3) : list Group :=
  if filter_best_consumed then group_splits (length l) l
  else match l with
       | [] => []
       | best :: _ => [(Ids (unique_ords (map (λ s, raw_ordinal (parent s)) l)), query_consumed best, remainder_start best)]
       end.

(** Positions so far, offset of the rest, depth, consumed by the last one. *)
Definition State : Type := list Alts * Z * Z * Z.

Section Build.
Context (to_lowercase : list Z → list Z) (reader : SfxFileReaderV3).
Context (walk_fn : SfxFileReaderV3 → list Z → out (list SplitCandidateV3)).
Context (strict_sep_for_candidates filter_best_consumed prefix_alts : bool).

(** The alternatives of a position that takes the whole rest. *)
Definition swallow (rem : list Z) : out (option Alts) :=
  if prefix_alts then
    if #rem <=? PREFIX_ASSUMED_MAX_BYTES then Ret (Some (Prefix rem))
    else
      n ← fst_candidates_count_v3 to_lowercase reader rem true strict_sep_for_candidates;
      Ret (if 0 <? n then Some (Prefix rem) else None)
  else
    cands ← fst_candidates_v3 to_lowercase reader rem true strict_sep_for_candidates;
    Ret (match unique_ords (map c_raw_ordinal cands) with [] => None | ids => Some (Ids ids) end).

Definition next_groups (rem : list Z) : out (list Group) :=
  sub_splits ← walk_fn reader rem;
  Ret (groups_of filter_best_consumed (List.filter (λ s, sti (parent s) =? 0) sub_splits)).

(** One turn of the loop: the chains it adds, what it pushes. *)
Definition chain_step (query query_lower : list Z) (split : SplitCandidateV3) (st : State) : out (list TokenChainV3 * list State) :=
  let '(positions, rem_off, depth, last_consumed_) := st in
  if #query_lower <=? rem_off then
    Ret ([{| ordinals := positions; first_sti := sti (parent split); total_query_consumed := #query; last_consumed := last_consumed_ |}], [])
  else if MAX_CHAIN_DEPTH <=? depth then Ret ([], [])
  else
    rem ← str_from query_lower rem_off;
    hit ← swallow rem;
    groups ← next_groups rem;
    Ret (match hit with
         | Some alts => [{| ordinals := positions ++ [alts]; first_sti := sti (parent split); total_query_consumed := #query; last_consumed := #rem |}]
         | None => []
         end,
         map (λ g : Group, let '(ords, consumed, rem_start) := g in (positions ++ [ords], rem_off + snap_to_char_boundary rem rem_start, depth + 1, consumed)) groups).

(** The top of the stack is its head; what is pushed last is popped first. *)
Fixpoint chain_loop (fuel : nat) (query query_lower : list Z) (split : SplitCandidateV3) (chains : list TokenChainV3) (stack : list State) : out (list TokenChainV3) :=
  match stack with
  | [] => Ret chains
  | st :: stack =>
      match fuel with
      | O => OutOfFuel
      | S fuel =>
          '(cs, pushed) ← chain_step query query_lower split st;
          chain_loop fuel query query_lower split (chains ++ cs) (rev pushed ++ stack)
      end
  end.

Definition chains_of_split (fuel : nat) (query query_lower : list Z) (chains : list TokenChainV3) (split : SplitCandidateV3) : out (list TokenChainV3) :=
  let safe_start := snap_to_char_boundary query_lower (remainder_start split) in
  if #query_lower <=? safe_start then
    Ret (chains ++ [{| ordinals := [single (raw_ordinal (parent split))]; first_sti := sti (parent split);
                       total_query_consumed := query_consumed split; last_consumed := query_consumed split |}])
  else chain_loop fuel query query_lower split chains [([single (raw_ordinal (parent split))], safe_start, 0, query_consumed split)].

Definition build_chains_from_splits (fuel : nat) (splits : list SplitCandidateV3) (query : list Z) : out (list TokenChainV3) :=
  foldM (chains_of_split fuel query (to_lowercase query)) [] splits.
End Build.

Section Cross.
Context (to_lowercase : list Z → list Z) (reader : SfxFileReaderV3) (fuel : nat).

Definition cross_chunk_chain_from_splits (splits : list SplitCandidateV3) (query : list Z) (prefix_alts : bool) : out (list TokenChainV3) :=
  build_chains_from_splits to_lowercase reader (falling_walk_chunks to_lowercase) true true prefix_alts fuel splits query.
Definition cross_chunk_chain_v3 (query : list Z) (prefix_alts : bool) : out (list TokenChainV3) :=
  splits ← falling_walk_chunks to_lowercase reader query;
  build_chains_from_splits to_lowercase reader (falling_walk_chunks to_lowercase) true true prefix_alts fuel splits query.
Definition cross_word_chain_from_splits (splits : list SplitCandidateV3) (query : list Z) (prefix_alts : bool) : out (list TokenChainV3) :=
  build_chains_from_splits to_lowercase reader (falling_walk_words to_lowercase) false false prefix_alts fuel splits query.
Definition cross_word_chain_v3 (query : list Z) (prefix_alts : bool) : out (list TokenChainV3) :=
  splits ← falling_walk_words to_lowercase reader query;
  build_chains_from_splits to_lowercase reader (falling_walk_words to_lowercase) false false prefix_alts fuel splits query.
Definition cross_token_chain_v3 (query : list Z) (strict_separators : bool) : out (list TokenChainV3) :=
  chunks ← cross_chunk_chain_v3 query false;
  if strict_separators then Ret chunks else words ← cross_word_chain_v3 query false; Ret (chunks ++ words).
End Cross.

(** ** Through the sibling table *)

(** The current ordinal, the rest, the chain so far and its depth. *)
Definition SibState : Type := Z * list Z * list Alts * Z.

Section Siblings.
Context (to_lowercase : list Z → list Z).
(** [SiblingTableReader::siblings], [TermTextsReaderV3::text] and [meta]. *)
Context (siblings : Z → list sibling_table.SiblingEntry) (text : Z → option (list Z)) (meta : Z → option termtexts.TermMetaV3).
Context (strict_separators : bool).

(** How much of the next token the query must cover to step onto it. *)
Definition step_len (sib : sibling_table.SiblingEntry) : Z :=
  match meta (sibling_table.next_ordinal sib) with
  | Some m => if strict_separators then termtexts.own_len m else saturating_sub (termtexts.own_len m) (termtexts.sep_len m)
  | None => sibling_table.gap_len sib
  end.
Definition next_content (sib : sibling_table.SiblingEntry) (next_text : list Z) : list Z :=
  let next_lower := to_lowercase next_text in
  let n := step_len sib in
  if (0 <? n) && (n <? #next_lower) then take (Z.to_nat (snap_to_char_boundary next_lower n)) next_lower else next_lower.

(** One sibling: a chain that ends in it, or a state to go on from. *)
Definition sibling_step (query_lower : list Z) (split : SplitCandidateV3) (st : SibState) (sib : sibling_table.SiblingEntry) : list TokenChainV3 * list SibState :=
  let '(_, rem, chain, depth) := st in
  let next_ord := sibling_table.next_ordinal sib in
  match text next_ord with
  | None => ([], [])
  | Some next_text =>
      let content := next_content sib next_text in
      if bool_decide (rem `prefix_of` content) then
        ([{| ordinals := chain ++ [single next_ord]; first_sti := sti (parent split); total_query_consumed := #query_lower; last_consumed := #rem |}], [])
      else if bool_decide (content `prefix_of` rem) then ([], [(next_ord, drop (length content) rem, chain ++ [single next_ord], depth + 1)])
      else ([], [])
  end.

Fixpoint sibling_loop (fuel : nat) (query_lower : list Z) (split : SplitCandidateV3) (chains : list TokenChainV3) (stack : list SibState) : out (list TokenChainV3) :=
  match stack with
  | [] => Ret chains
  | st :: stack =>
      match fuel with
      | O => OutOfFuel
      | S fuel =>
          if MAX_CHAIN_DEPTH <=? st.2 then sibling_loop fuel query_lower split chains stack
          else
            let found := map (sibling_step query_lower split st) (siblings (as_u32 st.1.1.1)) in
            sibling_loop fuel query_lower split (chains ++ concat (map fst found)) (rev (concat (map snd found)) ++ stack)
      end
  end.

Definition siblings_of_split (fuel : nat) (query_lower : list Z) (chains : list TokenChainV3) (split : SplitCandidateV3) : out (list TokenChainV3) :=
  let safe_start := snap_to_char_boundary query_lower (remainder_start split) in
  remainder ← str_from query_lower safe_start;
  match remainder with
  | [] => Ret (chains ++ [{| ordinals := [single (raw_ordinal (parent split))]; first_sti := sti (parent split);
                             total_query_consumed := query_consumed split; last_consumed := query_consumed split |}])
  | _ => sibling_loop fuel query_lower split chains [(raw_ordinal (parent split), remainder, [single (raw_ordinal (parent split))], 0)]
  end.

Definition sibling_chain_dfs (fuel : nat) (splits : list SplitCandidateV3) (query : list Z) : out (list TokenChainV3) :=
  foldM (siblings_of_split fuel (to_lowercase query)) [] splits.
End Siblings.

End chains.
