(* ===== verification/FindLiteral.v ===== *)
(** * Finding a literal ([src/suffix_fst/briques/composite.rs])

    [find_literal_v3] with strict separators: the tokens that hold the whole
    query, the chains of tokens it runs through from a head that takes more
    than half of it, and those with a shorter head, which are found from their
    second token and checked one position backwards.  Without the position map
    or the texts, all heads are walked forwards.

    The readers are records of their accessors.  With strict separators the
    candidates lie in the chunk partitions, of which the resolution of
    stripped words keeps nothing; that step, the traces and the counters are
    left out. *)
From stdpp Require Import gmap.
From S2P Require Import Prelude Ordering DocFilter ParentRecord FstWalk Resolve SiblingTable TermTexts Chains.
Import resolve walk chains.
Import parents.
Open Scope Z_scope.

Module composite.

(** The accessors of [TermTextsReaderV3] that are called. *)
Record Texts := {
  text : Z → option (list Z);
  meta : Z → option termtexts.TermMetaV3;
}.

Record BriquesContext := {
  reader : SfxFileReaderV3;
  resolver : PostingResolver;
  posmap : option (Z → Z → option Z);
  texts : option Texts;
  sibling_v3 : option (Z → list sibling_table.SiblingEntry);
}.

Definition is_some {A} (o : option A) : bool := match o with Some _ => true | None => false end.
Definition ordinal_at (ctx : BriquesContext) : Z → Z → option Z := default (λ _ _, None) (posmap ctx).
Definition text_of (ctx : BriquesContext) (o : Z) : option (list Z) := match texts ctx with Some t => text t o | None => None end.

(** [(0..=n).rev().find(|&b| s.is_char_boundary(b)).unwrap_or(0)]. *)
Fixpoint floor_boundary (s : list Z) (n : nat) : nat :=
  if is_char_boundary s (Z.of_nat n) then n else match n with O => O | S n => floor_boundary s n end.

Definition ends_with (s suffix : list Z) : bool := bool_decide (suffix `suffix_of` s).

(** The stable sort by document and position. *)
Definition match_le (a b : MatchV3) : Prop := lex_leb [doc_id a; position a] [doc_id b; position b] = true.
#[export] Instance match_le_dec a b : Decision (match_le a b).
Proof. unfold match_le. apply _. Defined.

Section Search.
Context (cap : Z) (to_lowercase : list Z → list Z) (iter : gmap (list Z) (list nat) → list (list Z * list nat)) (fuel : nat).
Context {F : Type} `{DocFilter F} (filter_docs : option F) (ctx : BriquesContext).

Definition resolve_posmap (chains : list TokenChainV3) (with_texts : bool) : out (list MatchV3) :=
  resolve_chains_v3_posmap cap to_lowercase iter (resolver ctx) (ordinal_at ctx) (text_of ctx) (λ _, true) filter_docs chains with_texts.
Definition resolve_postings (chains : list TokenChainV3) : out (list MatchV3) :=
  resolve_chains_v3 cap to_lowercase iter (resolver ctx) (ordinal_at ctx) (text_of ctx) (λ _, true) filter_docs chains.

(** ** Short heads *)

(** The head of a match of the rest: the token before it must end with it. *)
Definition check_head (h : Z) (head : list Z) (m : MatchV3) : option MatchV3 :=
  if position m =? 0 then None else
  let prev_pos := position m - 1 in
  match ordinal_at ctx (doc_id m) prev_pos, texts ctx with
  | Some ord, Some tr =>
      match text tr ord, meta tr ord with
      | Some text, Some meta =>
          let own := Z.of_nat (floor_boundary text (Z.to_nat (Z.min (termtexts.own_len meta) #text))) in
          let own_text := to_lowercase (take (Z.to_nat own) text) in
          if (#own_text <? h) || negb (ends_with own_text head) then None
          else
            let sti := as_u16 (own - h) in
            if negb (has_position (resolver ctx) ord (doc_id m) prev_pos) then None
            else Some (unplaced (doc_id m) prev_pos (add32 (span m) 1) sti ord (last_ordinal m) sti (last_start_pos m) (last_off m) (m_last_consumed m))
      | _, _ => None
      end
  | _, _ => None
  end.

Definition anchored_at (h : Z) (head rest : list Z) : out (list MatchV3) :=
  cands ← fst_candidates_v3 to_lowercase (reader ctx) rest true true;
  let single_ords := unique_ords (map c_raw_ordinal (List.filter (λ c, negb (c_partition c =? 2) && (c_sti c =? 0)) cands)) in
  let lone := match single_ords with
              | [] => []
              | _ => [{| ordinals := [Ids single_ords]; first_sti := 0; total_query_consumed := #rest; last_consumed := #rest |}]
              end in
  splits ← falling_walk_chunks to_lowercase (reader ctx) rest;
  more ← cross_chunk_chain_from_splits to_lowercase (reader ctx) fuel (List.filter (λ s, parents.sti (parent s) =? 0) splits) rest (memo (reader ctx));
  match lone ++ more with
  | [] => Ret []
  | chains => tail_matches ← resolve_posmap chains true; Ret (omap (check_head h head) tail_matches)
  end.

Fixpoint anchored_loop (query_lower : list Z) (hs : list Z) : out (list MatchV3) :=
  match hs with
  | [] => Ret []
  | h :: hs =>
      if negb (is_char_boundary query_lower h) then anchored_loop query_lower hs
      else
        let head := take (Z.to_nat h) query_lower in
        match drop (Z.to_nat h) query_lower with
        | [] => Ret []
        | rest => found ← anchored_at h head rest; more ← anchored_loop query_lower hs; Ret (found ++ more)
        end
  end.
Definition second_token_anchored_v3 (query : list Z) (half : Z) : out (list MatchV3) :=
  if is_some (posmap ctx) && is_some (texts ctx) then anchored_loop (to_lowercase query) (range 1 (half + 1)) else Ret [].

(** ** [find_literal_v3] *)

Definition half_of (query : list Z) : Z := if is_some (posmap ctx) && is_some (texts ctx) then #query / 2 else 0.

Definition long_heads (half : Z) (splits : list SplitCandidateV3) : list SplitCandidateV3 :=
  if 0 <? half then List.filter (λ s, half <? query_consumed s) splits else splits.

Definition chunk_chains (query : list Z) (half : Z) : out (list TokenChainV3) :=
  splits ← falling_walk_chunks to_lowercase (reader ctx) query;
  cross_chunk_chain_from_splits to_lowercase (reader ctx) fuel (long_heads half splits) query
    (memo (reader ctx) && is_some (posmap ctx) && is_some (texts ctx)).

Definition sibling_chains (query : list Z) (half : Z) (candidates : list FstCandidateV3) : out (list TokenChainV3) :=
  match sibling_v3 ctx, texts ctx with
  | Some siblings, Some tr =>
      splits ← falling_walk_chunks to_lowercase (reader ctx) query;
      let extra := splits_from_fst_candidates (List.filter (λ c, negb (c_partition c =? 2)) candidates) #(to_lowercase query) in
      let extra := List.filter (λ s, is_word_start (parent s) && negb (parents.sep_len (parent s) =? 0)) extra in
      sibling_chain_dfs to_lowercase siblings (text tr) (meta tr) true fuel (long_heads half splits ++ long_heads half extra) query
  | _, _ => Ret []
  end.

Definition find_literal_strict (query : list Z) (anchor_start : bool) : out (list MatchV3) :=
  candidates ← fst_candidates_v3 to_lowercase (reader ctx) query anchor_start true;
  let single := resolve_single_v3 cap (resolver ctx) filter_docs (map (λ c, (c_partition c, c_raw_ordinal c, c_sti c)) candidates) (as_u32 #query) in
  let half := half_of query in
  walked ← chunk_chains query half;
  linked ← sibling_chains query half candidates;
  let chains := if anchor_start then List.filter (λ c, first_sti c =? 0) (walked ++ linked) else walked ++ linked in
  cross ← (if is_some (posmap ctx) then resolve_posmap chains (is_some (texts ctx)) else resolve_postings chains);
  found ← (if 0 <? half then second_token_anchored_v3 query half else Ret []);
  Ret (merge_sort match_le (single ++ cross ++ found)).
End Search.

End composite.
