(* ===== verification/ChainProofs.v ===== *)
(** * Chains and the text they spell

    The dictionary of a set of tokens, each with its own text and the overlap
    bytes behind it: what the walks and the chain builder find in it, in terms
    of these texts. *)
From stdpp Require Import gmap.
From S2P Require Import Prelude Ordering ParentRecord ParentCodec SuffixBuilder FstWalk WalkProofs Utf8 Resolve Chains.
Import resolve walk chains.
Import parents.
Open Scope Z_scope.

(** The chunk partitions hold every suffix of every token that starts a
    character, and nothing else. *)
Record tokens_indexed (Es : list (list (list Z * ParentEntryV3))) (seg : option (list Z)) (tok : Z → Prop) (own ov : Z → list Z) : Prop := {
  ti_valid : ∀ o, tok o → valid (own o) ∧ own o ≠ [];
  ti_sound : ∀ partition k p, partition = SI0_PREFIX ∨ partition = SI_REST_PREFIX → served Es seg (partition :: k) p →
    tok (raw_ordinal p) ∧ 0 ≤ sti p < #(own (raw_ordinal p)) ∧ is_char_boundary (own (raw_ordinal p)) (sti p) = true ∧
    k = drop (Z.to_nat (sti p)) (own (raw_ordinal p)) ∧ own_len p = #(own (raw_ordinal p)) ∧ overlap_of p = ov (raw_ordinal p) ∧
    (partition = SI0_PREFIX ↔ sti p = 0);
  ti_complete : ∀ o si, tok o → 0 ≤ si < #(own o) → is_char_boundary (own o) si = true →
    ∃ p, served Es seg ((if si =? 0 then SI0_PREFIX else SI_REST_PREFIX) :: drop (Z.to_nat si) (own o)) p ∧ raw_ordinal p = o ∧ sti p = si;
}.

Section Tokens.
Context (to_lowercase : list Z → list Z) (r : SfxFileReaderV3) (Es : list (list (list Z * ParentEntryV3))) (seg : option (list Z)).
Context (Hr : reader_of r Es seg) (Hvec : vec_lengths to_lowercase r).
Context (tok : Z → Prop) (own ov : Z → list Z) (Hti : tokens_indexed Es seg tok own ov).

(** The suffix of a token at an index, where a character starts. *)
Definition suffix_at (o si : Z) : Prop := tok o ∧ 0 ≤ si < #(own o) ∧ is_char_boundary (own o) si = true.
Definition suffix (o si : Z) : list Z := drop (Z.to_nat si) (own o).

Lemma suffix_valid o si : suffix_at o si → valid (suffix o si) ∧ suffix o si ≠ [].
Proof using Hti.
  intros (Ht & Hsi & Hb). destruct (ti_valid _ _ _ _ _ Hti o Ht) as [Hv _]. split; [apply valid_cut; [done|lia|done]|].
  intros E%(f_equal length). unfold suffix in E. rewrite length_drop in E. cbn in E. unfold len in *. lia.
Qed.

Lemma suffix_start o : tok o → suffix_at o 0 ∧ suffix o 0 = own o.
Proof using Hti.
  intros Ht. destruct (ti_valid _ _ _ _ _ Hti o Ht) as [_ Hne]. split; [|done]. split; [done|]. split; [|done].
  destruct (own o); [done|]. rewrite len_cons. pose proof (len_nonneg l). lia.
Qed.

(** The candidates are the suffixes that start with the query, overlap bytes
    included; anchored, those of whole tokens. *)
Lemma token_candidates query anchor : valid (to_lowercase query) →
  ∃ l, fst_candidates_v3 to_lowercase r query anchor true = Ret l ∧
    (∀ c, c ∈ l → suffix_at (c_raw_ordinal c) (c_sti c) ∧ to_lowercase query `prefix_of` suffix (c_raw_ordinal c) (c_sti c) ++ ov (c_raw_ordinal c) ∧
       c_partition c ≠ SI_STRIPPED_PREFIX ∧ (anchor = true → c_sti c = 0)) ∧
    (∀ o si, suffix_at o si → to_lowercase query `prefix_of` suffix o si ++ ov o → (anchor = true → si = 0) → ∃ c, c ∈ l ∧ c_raw_ordinal c = o ∧ c_sti c = si).
Proof using Hr Hvec Hti.
  intros Hq. destruct (candidates_spec to_lowercase r Es seg Hr Hvec query anchor true (valid_bytes _ Hq)) as (l & El & Hl). exists l. split; [done|]. split.
  - intros c (partition & p & Hpar & -> & (k & Hs & _ & Hpre) & _)%Hl. cbn.
    assert (partition = SI0_PREFIX ∨ (partition = SI_REST_PREFIX ∧ anchor = false)) as Hcase.
    { destruct anchor; cbn in Hpar; rewrite ?elem_of_cons in Hpar; [left|]; repeat destruct Hpar as [->|Hpar]; auto; by apply elem_of_nil in Hpar. }
    assert (partition = SI0_PREFIX ∨ partition = SI_REST_PREFIX) as Hcase' by tauto.
    destruct (ti_sound _ _ _ _ _ Hti partition k p Hcase' Hs) as (Ht & Hsti & Hb & -> & _ & Eov & H0). rewrite Eov in Hpre.
    split; [done|]. split; [done|]. split; [destruct Hcase as [->|[-> _]]; done|]. intros ->. apply H0. by destruct Hcase as [|[_ ?]].
  - intros o si Hs Hpre Ha. destruct (suffix_valid o si Hs) as [_ Hne]. destruct Hs as (Ht & Hsi & Hb).
    destruct (ti_complete _ _ _ _ _ Hti o si Ht Hsi Hb) as (p & Hs & <- & <-). exists (from_parent (if sti p =? 0 then SI0_PREFIX else SI_REST_PREFIX) p). split; [|done].
    apply Hl. eexists _, p. split; [|split; [done|]]. { destruct anchor; [rewrite Ha by done; by left|]. destruct (sti p =? 0); [by left|by right; left]. }
    split; [|by destruct (sti p =? 0)]. exists (suffix (raw_ordinal p) (sti p)). split; [done|]. split; [by left|].
    assert (overlap_of p = ov (raw_ordinal p)) as -> by (eapply ti_sound; [exact Hti| |exact Hs]; destruct (sti p =? 0); [by left|by right]). done.
Qed.

(** A split of the query: a suffix it starts with and runs past, with the
    overlap bytes behind it, and what is left. *)
Definition split_is (q : list Z) (s : SplitCandidateV3) (o si : Z) (rest : list Z) : Prop :=
  suffix_at o si ∧ q = suffix o si ++ rest ∧ runs_past (ov o) rest ∧ raw_ordinal (parent s) = o ∧ sti (parent s) = si ∧
  query_consumed s = #(suffix o si) ∧ remainder_start s = #(suffix o si).

Lemma token_splits query : ∃ l, falling_walk_chunks to_lowercase r query = Ret l ∧
  (∀ s, s ∈ l → ∃ o si rest, split_is (to_lowercase query) s o si rest) ∧
  (∀ o si rest, suffix_at o si → to_lowercase query = suffix o si ++ rest → runs_past (ov o) rest → ∃ s, s ∈ l ∧ split_is (to_lowercase query) s o si rest).
Proof using Hr Hvec Hti.
  destruct (falling_walk_chunks_spec to_lowercase r Es seg Hr Hvec query) as (l & El & Hs & Hc). exists l. split; [done|].
  assert (∀ k p, split_entry Es seg (to_lowercase query) k p → ∃ rest, split_is (to_lowercase query) (split_of k p) (raw_ordinal p) (sti p) rest) as Hent.
  { intros k p (Hserved & Hk & Hlen & Hpast). apply runs_past_app in Hpast as (rest & Eq & Hpast).
    assert (∃ partition, (partition = SI0_PREFIX ∨ partition = SI_REST_PREFIX) ∧ served Es seg (partition :: k) p) as (partition & Hpar & Hs1) by (destruct Hserved; eauto).
    destruct (ti_sound _ _ _ _ _ Hti partition k p Hpar Hs1) as (Ht & Hsti & Hb & -> & _ & Eov & _). rewrite Eov in Hpast. exists rest. by split. }
  split.
  - intros s (k & p & He & ->)%Hs. destruct (Hent k p He) as [rest H]. by exists (raw_ordinal p), (sti p), rest.
  - intros o si rest Hsuf Eq Hpast. destruct (suffix_valid o si Hsuf) as [_ Hne]. pose proof Hsuf as (Ht & Hsi & Hb).
    destruct (ti_complete _ _ _ _ _ Hti o si Ht Hsi Hb) as (p & Hserved & Eo & Esti).
    assert ((if si =? 0 then SI0_PREFIX else SI_REST_PREFIX) = SI0_PREFIX ∨ (if si =? 0 then SI0_PREFIX else SI_REST_PREFIX) = SI_REST_PREFIX) as Hpar by (destruct (si =? 0); auto).
    destruct (ti_sound _ _ _ _ _ Hti _ _ p Hpar Hserved) as (_ & _ & _ & _ & Eown & Eov & _).
    destruct (Hc (suffix o si) p) as (k' & p' & He' & Hin & Eo' & Esti' & _).
    { split; [destruct (si =? 0); [by left|by right]|]. split; [done|]. split; [rewrite Eown, Eo, Esti; unfold suffix; rewrite len_drop; lia|].
      apply runs_past_app. exists rest. split; [done|]. by rewrite Eov, Eo. }
    exists (split_of k' p'). split; [done|]. destruct (Hent k' p' He') as (rest' & H). rewrite Eo', Esti', Eo, Esti in H.
    assert (rest' = rest) as <-; [|done]. destruct H as (_ & Eq' & _). rewrite Eq in Eq'. by apply app_inv_head in Eq'.
Qed.

(** ** Counting *)

Lemma foldr_lens {A} (ls : list (list A)) : foldr Z.add 0 (map len ls) = #(concat ls).
Proof using. induction ls as [|l ls IH]; [done|]. cbn. by rewrite len_app, IH. Qed.

Lemma mapM_lens {A B} (f : A → out (list B)) (g : A → out Z) l bss : (∀ a, a ∈ l → g a = len <$> f a) → mapM_out f l = Ret bss → mapM_out g l = Ret (map len bss).
Proof using.
  revert bss. induction l as [|a l IH]; intros bss Hg E; cbn in *; [by injection E as <-|]. rewrite Hg by by left. destruct (f a); try done. rewrite bind_ret in E.
  destruct (mapM_out f l) as [bs| | |]; try done. injection E as <-. cbn. by rewrite (IH bs) by (done || intros b Hb; apply Hg; by right).
Qed.

Lemma count_in_part_spec part E q partition l : part_holds part E → bytes_ok q → 0 ≤ partition < 255 → candidates_in_part q partition part = Ret l → count_in_part q partition part = Ret #l.
Proof using.
  intros HP Hq Hp. unfold candidates_in_part, count_in_part. change (range_keys partition q) with ((range_keys partition q).1, (range_keys partition q).2). cbv iota.
  destruct (mapM_out (λ kv, decode_parents part kv.2 kv.1) _) as [ins| | |] eqn:Ei; try done. rewrite bind_ret.
  destruct (mapM_out (probe part partition q) _) as [acr| | |] eqn:Ea; try done. rewrite bind_ret. intros [= <-].
  rewrite (mapM_lens _ (λ kv, count_parents part kv.2) _ _) with (2 := Ei); cycle 1.
  { intros [k v] Hin. assert ((k, v) ∈ fst_ part) as Hin' by (apply list_elem_of_In in Hin; apply filter_In in Hin as [? _]; by apply list_elem_of_In). cbn.
    destruct (ph_record _ _ HP k v Hin') as (record & ps & Hg & Hw & Hc & _). unfold count_parents, decode_parents, decode_parent_entries_v8. rewrite Hg, !bind_ret, Hc, Hw, fmap_ret.
    f_equal. clear. f_equal. induction ps as [|p ps IH]; [done|]. cbn. by rewrite <- IH. }
  rewrite !bind_ret. f_equal. rewrite !foldr_lens, len_map, len_app. done.
Qed.

(** The count is positive when a token of the segment starts with the query. *)
Lemma token_count query : valid (to_lowercase query) →
  ∃ n, fst_candidates_count_v3 to_lowercase r query true true = Ret n ∧
    ∀ o, tok o → to_lowercase query `prefix_of` own o ++ ov o → 0 < n.
Proof using Hr Hvec Hti.
  intros Hq. unfold fst_candidates_count_v3. destruct (memo r) eqn:Hm.
  - cbn [candidate_partitions andb mapM_out]. unfold fst_candidates_count_in_partition. set (q := to_lowercase query) in *. pose proof (valid_bytes _ Hq) as Hqb.
    destruct (parts_union r Es seg Hr (candidates_in_part q SI0_PREFIX) (λ E c, ∃ k p, (SI0_PREFIX :: k, p) ∈ E ∧ c = from_parent SI0_PREFIX p ∧ (k ≠ [] ∨ q = []) ∧ q `prefix_of` k ++ overlap_of p))
      as (ls & Els & Hls). { intros part E HP. by apply candidates_in_part_spec. }
    assert (mapM_out (count_in_part q SI0_PREFIX) (part_views r) = Ret (map len ls)) as ->.
    { apply (mapM_lens (candidates_in_part q SI0_PREFIX)); [|done]. intros part Hpart. apply list_elem_of_lookup in Hpart as [i Hi].
      destruct (Forall2_lookup_l _ _ _ _ _ (ro_parts _ _ _ Hr) Hi) as (E & _ & HP). destruct (candidates_in_part_spec part E HP q SI0_PREFIX Hqb ltac:(unfold SI0_PREFIX; lia)) as (l & El & _).
      rewrite El, fmap_ret. by eapply count_in_part_spec. }
    rewrite fmap_ret, bind_ret, bind_ret, fmap_ret. eexists. split; [done|]. intros o Ht Hpre. cbn [foldr]. rewrite foldr_lens, Z.add_0_r.
    destruct (suffix_start o Ht) as [(_ & Hsi & Hb) _]. destruct (ti_complete _ _ _ _ _ Hti o 0 Ht Hsi Hb) as (p & Hserved & Eo & Esti). cbn in Hserved.
    pose proof (ti_sound _ _ _ _ _ Hti SI0_PREFIX _ p ltac:(by left) Hserved) as (_ & _ & _ & _ & _ & Eov & _). destruct Hserved as [Hin _].
    assert (from_parent SI0_PREFIX p ∈ concat ls) as Hc.
    { apply Hls. apply elem_concat in Hin as (E & HE & Hin). exists E. split; [done|]. exists (own o), p. split; [done|]. split; [done|]. rewrite Eov, Eo. split; [|done].
      left. by apply (ti_valid _ _ _ _ _ Hti). }
    destruct (concat ls); [by apply elem_of_nil in Hc|]. rewrite len_cons. pose proof (len_nonneg l). lia.
  - destruct (token_candidates query true Hq) as (l & -> & _ & Hc). rewrite bind_ret. eexists. split; [done|]. intros o Ht Hpre. destruct (suffix_start o Ht) as [Hs E0].
    destruct (Hc o 0 Hs) as (c & Hin & _); [by rewrite E0|done|]. destruct l; [by apply elem_of_nil in Hin|]. rewrite len_cons. pose proof (len_nonneg l). lia.
Qed.
End Tokens.

(** ** The chain builder is sound and complete

    Every chain built for a query spells it, whatever tokens are taken at its
    positions; and every way to spell the query through at most nine tokens is
    taken by a chain. *)
Import resolve walk chains.
Import parents.
Open Scope Z_scope.

(** ** Loops over a stack *)

(** The loop takes the states [sts] off the stack and adds [cs] to the chains. *)
Definition stack_runs {S C R} (loop : nat → list C → list S → out R) (sts : list S) (cs : list C) : Prop :=
  ∃ k, ∀ fuel chains stack, loop (k + fuel)%nat chains (sts ++ stack) = loop fuel (chains ++ cs) stack.

Lemma stack_runs_all {S C R} (loop : nat → list C → list S → out R) (Q : S → list C → Prop) sts :
  Forall (λ st, ∃ cs, stack_runs loop [st] cs ∧ Q st cs) sts → ∃ css, stack_runs loop sts (concat css) ∧ Forall2 Q sts css.
Proof.
  induction 1 as [|st sts (cs & [k Hk] & HQ) _ (css & [k' Hk'] & HQs)].
  { exists []. split; [|constructor]. exists 0%nat. intros. cbn. by rewrite app_nil_r. }
  exists (cs :: css). split; [|by constructor]. exists (k + k')%nat. intros fuel chains stack. rewrite <- Nat.add_assoc. cbn [app concat].
  change (st :: sts ++ stack) with ([st] ++ (sts ++ stack)). by rewrite Hk, Hk', app_assoc.
Qed.

(** ** Groups *)

Lemma elem_unique_ords o l : o ∈ unique_ords l ↔ o ∈ l.
Proof. unfold unique_ords. by rewrite elem_of_dedup, merge_sort_Permutation. Qed.

Lemma run_ords_spec consumed l : let '(ords, rest) := run_ords consumed l in
  ∃ run, l = run ++ rest ∧ ords = map (λ s, raw_ordinal (parent s)) run ∧ Forall (λ s, query_consumed s = consumed) run ∧ (length rest ≤ length l)%nat.
Proof.
  induction l as [|s l IH]; cbn; [by exists []|]. destruct (Z.eqb_spec (query_consumed s) consumed) as [E|E].
  - destruct (run_ords consumed l) as [ords rest]. destruct IH as (run & -> & -> & Hall & Hl). exists (s :: run). split; [done|]. split; [done|]. split; [by constructor|lia].
  - exists []. split; [done|]. split; [done|]. split; [constructor|done].
Qed.

Lemma group_splits_spec fuel : ∀ l, (length l ≤ fuel)%nat →
  (∀ g, g ∈ group_splits fuel l → ∃ s ords, s ∈ l ∧ g = (Ids (unique_ords ords), query_consumed s, remainder_start s) ∧ raw_ordinal (parent s) ∈ ords ∧
     ∀ o, o ∈ ords → ∃ s', s' ∈ l ∧ raw_ordinal (parent s') = o ∧ query_consumed s' = query_consumed s) ∧
  (∀ s, s ∈ l → ∃ s' ords, s' ∈ l ∧ (Ids (unique_ords ords), query_consumed s', remainder_start s') ∈ group_splits fuel l ∧ query_consumed s' = query_consumed s ∧ raw_ordinal (parent s) ∈ ords).
Proof.
  induction fuel as [|fuel IH]; intros l Hl.
  { destruct l; [|cbn in Hl; lia]. split; [intros g []%elem_of_nil|intros s []%elem_of_nil]. }
  destruct l as [|s0 l]; [split; [intros g []%elem_of_nil|intros s []%elem_of_nil]|]. cbn [group_splits].
  pose proof (run_ords_spec (query_consumed s0) (s0 :: l)) as H. cbn [run_ords] in *. rewrite Z.eqb_refl in *.
  destruct (run_ords (query_consumed s0) l) as [ords rest]. destruct H as (run & Erun & Eords & Hall & _). rewrite Forall_forall in Hall.
  assert (length rest ≤ fuel)%nat as Hr.
  { apply (f_equal length) in Eords. rewrite length_map in Eords. cbn in Eords. apply (f_equal length) in Erun. rewrite length_app in Erun. cbn in Erun, Hl. lia. }
  destruct (IH rest Hr) as [Hs Hc]. split.
  - intros g [->|Hg]%elem_of_cons.
    + exists s0, (raw_ordinal (parent s0) :: ords). split; [by left|]. split; [done|]. split; [by left|]. intros o Ho. rewrite Eords in Ho.
      apply list_elem_of_In, in_map_iff in Ho as (s' & <- & Hs'%list_elem_of_In). exists s'. split; [rewrite Erun; apply elem_of_app; by left|]. split; [done|by apply Hall].
    + destruct (Hs g Hg) as (s & os & Hin & -> & Ho & H). exists s, os. split; [rewrite Erun; apply elem_of_app; by right|]. split; [done|]. split; [done|].
      intros o Ho'. destruct (H o Ho') as (s' & Hs' & ? & ?). exists s'. split; [rewrite Erun; apply elem_of_app; by right|done].
  - intros s Hin. rewrite Erun in Hin. apply elem_of_app in Hin as [Hin|Hin].
    + exists s0, (raw_ordinal (parent s0) :: ords). split; [by left|]. split; [by left|]. split; [symmetry; by apply Hall|]. rewrite Eords. apply list_elem_of_In, in_map_iff. exists s. split; [done|by apply list_elem_of_In].
    + destruct (Hc s Hin) as (s' & os & Hs' & Hg & ? & ?). exists s', os. split; [rewrite Erun; apply elem_of_app; by right|]. split; [by right|done].
Qed.

(** ** How long a chain gets *)

(** Nine positions: eight after the first one. *)
Definition short_chain (c : TokenChainV3) : Prop := (length (ordinals c) ≤ 9)%nat.
Definition short_state (positions : list Alts) (depth : Z) : Prop := Z.of_nat (length positions) = depth + 1 ∧ depth ≤ MAX_CHAIN_DEPTH.

Section Short.
Context (to_lowercase : list Z → list Z) (r : SfxFileReaderV3) (walk_fn : SfxFileReaderV3 → list Z → out (list SplitCandidateV3)) (strict best prefix_alts : bool).
Local Abbreviation step := (chain_step to_lowercase r walk_fn strict best prefix_alts).
Local Abbreviation loop := (chain_loop to_lowercase r walk_fn strict best prefix_alts).

Lemma chain_step_short query ql split st cs sts : step query ql split st = Ret (cs, sts) → short_state st.1.1.1 st.1.2 →
  Forall short_chain cs ∧ Forall (λ st, short_state st.1.1.1 st.1.2) sts.
Proof using.
  destruct st as [[[positions off] depth] lc]. cbn [fst snd]. intros H [Hl Hd]. unfold short_chain, short_state, MAX_CHAIN_DEPTH in *. unfold chain_step in H.
  destruct (#ql <=? off); [injection H as <- <-; split; [|constructor]; apply Forall_singleton; cbn; lia|].
  destruct (Z.leb_spec MAX_CHAIN_DEPTH depth) as [|Hlt]; [injection H as <- <-; by split|]. unfold MAX_CHAIN_DEPTH in Hlt.
  apply bind_ret_inv in H as (rem & _ & H). apply bind_ret_inv in H as (hit & _ & H). apply bind_ret_inv in H as (gs & _ & H). injection H as <- <-. split.
  - destruct hit; [|constructor]. apply Forall_singleton. cbn. rewrite length_app. cbn. lia.
  - apply Forall_map, Forall_forall. intros [[ords consumed] start] _. cbn. rewrite length_app. cbn. lia.
Qed.

Lemma chain_loop_short query ql split fuel : ∀ chains stack cs, loop fuel query ql split chains stack = Ret cs → Forall short_chain chains →
  Forall (λ st, short_state st.1.1.1 st.1.2) stack → Forall short_chain cs.
Proof using.
  induction fuel as [|fuel IH]; intros chains [|st stack] cs H Hc Hs; cbn [chain_loop] in H; try done; try (by injection H as <-).
  apply bind_ret_inv in H as ([cs1 sts] & E & H). apply Forall_cons in Hs as [Hst Hs]. destruct (chain_step_short _ _ _ _ _ _ E Hst) as [H1 H2].
  eapply IH; [exact H|by apply Forall_app|]. apply Forall_app. split; [|done]. by apply Forall_rev.
Qed.

Lemma built_short fuel splits query cs : build_chains_from_splits to_lowercase r walk_fn strict best prefix_alts fuel splits query = Ret cs → Forall short_chain cs.
Proof using.
  unfold build_chains_from_splits. assert (Forall short_chain ([] : list TokenChainV3)) as H0 by constructor. revert H0. generalize ([] : list TokenChainV3). induction splits as [|s splits IH]; intros chains Hc H; cbn [foldM] in H; [by injection H as <-|].
  apply bind_ret_inv in H as (chains1 & E & H). eapply IH; [|exact H]. unfold chains_of_split in E. destruct (_ <=? _).
  - injection E as <-. apply Forall_app. split; [done|]. apply Forall_singleton. unfold short_chain. cbn. lia.
  - eapply chain_loop_short; [exact E|done|]. apply Forall_singleton. by split.
Qed.
End Short.

Section ShortSiblings.
Context (to_lowercase : list Z → list Z) (siblings : Z → list SiblingTable.sibling_table.SiblingEntry) (text : Z → option (list Z)) (meta : Z → option TermTexts.termtexts.TermMetaV3) (strict : bool).

Lemma sibling_step_short ql split cur rem chain depth sib : Z.of_nat (length chain) = depth + 1 → depth < MAX_CHAIN_DEPTH → let '(cs, sts) := sibling_step to_lowercase text meta strict ql split (cur, rem, chain, depth) sib in
  Forall short_chain cs ∧ Forall (λ st : SibState, short_state st.1.2 st.2) sts.
Proof using.
  unfold MAX_CHAIN_DEPTH. intros Hl Hd. cbn. destruct (text _); [|by split]. case_bool_decide; [|case_bool_decide]; split; try apply List.Forall_nil; apply Forall_singleton;
    unfold short_chain, short_state, MAX_CHAIN_DEPTH; cbn; rewrite length_app; cbn; lia.
Qed.

Lemma sibling_loop_short ql split fuel : ∀ chains stack cs, sibling_loop to_lowercase siblings text meta strict fuel ql split chains stack = Ret cs → Forall short_chain chains →
  Forall (λ st : SibState, short_state st.1.2 st.2) stack → Forall short_chain cs.
Proof using.
  induction fuel as [|fuel IH]; intros chains [|st stack] cs H Hc Hs; cbn [sibling_loop] in H; try done; try (by injection H as <-). apply Forall_cons in Hs as [Hst Hs].
  destruct (Z.leb_spec MAX_CHAIN_DEPTH st.2) as [|Hlt]; [by eapply IH|]. destruct st as [[[cur rem] chain] depth]. destruct Hst as [Hl _]. cbn [fst snd] in *.
  eapply IH; [exact H|apply Forall_app; split; [done|]|apply Forall_app; split; [apply Forall_rev|done]]; apply Forall_concat, Forall_map, Forall_map, Forall_forall; intros sib _;
    pose proof (sibling_step_short ql split cur rem chain depth sib Hl Hlt) as Hstep; by destruct (sibling_step _ _ _ _ _ _ _ _), Hstep.
Qed.

Lemma siblings_short fuel splits query cs : sibling_chain_dfs to_lowercase siblings text meta strict fuel splits query = Ret cs → Forall short_chain cs.
Proof using.
  unfold sibling_chain_dfs. assert (Forall short_chain ([] : list TokenChainV3)) as H0 by constructor. revert H0. generalize ([] : list TokenChainV3). induction splits as [|s splits IH]; intros chains Hc H; cbn [foldM] in H; [by injection H as <-|].
  apply bind_ret_inv in H as (chains1 & E & H). eapply IH; [|exact H]. unfold siblings_of_split in E. apply bind_ret_inv in E as ([|x rem] & _ & E).
  - injection E as <-. apply Forall_app. split; [done|]. apply Forall_singleton. unfold short_chain. cbn. lia.
  - eapply sibling_loop_short; [exact E|done|]. apply Forall_singleton. by split.
Qed.
End ShortSiblings.

Section Chains.
Context (to_lowercase : list Z → list Z) (r : SfxFileReaderV3) (Es : list (list (list Z * ParentEntryV3))) (seg : option (list Z)).
Context (Hr : reader_of r Es seg) (Hvec : vec_lengths to_lowercase r).
Context (tok : Z → Prop) (own ov : Z → list Z) (Hti : tokens_indexed Es seg tok own ov).
(** The text that follows a token, as far as its entry in the texts has it. *)
Context (ext : Z → list Z) (Hext : ∀ o, tok o → ov o `prefix_of` ext o) (Hord : ∀ o, tok o → fits 32 o).
Context (prefix_alts : bool) (query : list Z).
Local Abbreviation ql := (to_lowercase query).
Context (Hq : valid ql) (Hlow : ∀ a b, ql = a ++ b → valid b → to_lowercase b = b).

Abbreviation split_is := (ChainProofs.split_is tok own ov).

(** An alternative takes a token. *)
Definition takes (a : Alts) (o : Z) : Prop := match a with Ids v => o ∈ v | Prefix p => p `prefix_of` own o ++ ext o end.

(** A prefix alternative is only built when asked for, in lower case; a list
    is of ordinals of 32 bits. *)
Definition alt_ok (a : Alts) : Prop := match a with Ids v => Forall (fits 32) v | Prefix p => prefix_alts = true ∧ to_lowercase p = p end.

(** The tokens [os] spell [rem] from the start of the first, the last one with
    the text [e] behind it. *)
Fixpoint spelled (e : Z → list Z) (rem : list Z) (os : list Z) : Prop :=
  match os with
  | [] => False
  | o :: os => tok o ∧ match os with
                       | [] => rem `prefix_of` own o ++ e o
                       | _ => ∃ rest, rem = own o ++ rest ∧ runs_past (ov o) rest ∧ spelled e rest os
                       end
  end.

Lemma prefix_ext rem o : tok o → rem `prefix_of` own o ++ ov o → rem `prefix_of` own o ++ ext o.
Proof using Hext. intros Ht Hp. etrans; [exact Hp|]. apply prefix_app. by apply Hext. Qed.

(** The position that takes the whole rest. *)
Lemma swallow_spec pre rem : ql = pre ++ rem → valid rem →
  ∃ hit, swallow to_lowercase r true prefix_alts rem = Ret hit ∧
    (∀ a, hit = Some a → ∀ o, tok o → takes a o → rem `prefix_of` own o ++ ext o) ∧
    (∀ o, tok o → rem `prefix_of` own o ++ ov o → ∃ a, hit = Some a ∧ takes a o) ∧
    (∀ a, hit = Some a → alt_ok a).
Proof using Hr Hvec Hti Hext Hord Hlow.
  intros Eq Hv. pose proof (Hlow pre rem Eq Hv) as El. unfold swallow, alt_ok. destruct prefix_alts.
  - assert (∀ hit : option Alts, hit = Some (Prefix rem) ∨ hit = None ∧ (∀ o, tok o → ¬ rem `prefix_of` own o ++ ov o) →
      (∀ a, hit = Some a → ∀ o, tok o → takes a o → rem `prefix_of` own o ++ ext o) ∧
      (∀ o, tok o → rem `prefix_of` own o ++ ov o → ∃ a, hit = Some a ∧ takes a o) ∧ (∀ a, hit = Some a → match a with Ids v => Forall (fits 32) v | Prefix p => true = true ∧ to_lowercase p = p end)) as Hgen.
    { intros hit [->|[-> Hno]]; (split; [|split]).
      - by intros a [= <-] o Ht.
      - intros o Ht Hp. exists (Prefix rem). split; [done|]. by apply prefix_ext.
      - by intros a [= <-].
      - done.
      - intros o Ht Hp. by destruct (Hno o Ht).
      - done. }
    destruct (#rem <=? PREFIX_ASSUMED_MAX_BYTES); [eexists; split; [done|]; apply Hgen; by left|].
    destruct (token_count to_lowercase r Es seg Hr Hvec tok own ov Hti rem) as (n & -> & Hn); [by rewrite El|]. rewrite bind_ret. eexists. split; [done|]. apply Hgen.
    destruct (Z.ltb_spec 0 n); [by left|]. right. split; [done|]. intros o Ht Hp. rewrite El in Hn. specialize (Hn o Ht Hp). lia.
  - destruct (token_candidates to_lowercase r Es seg Hr Hvec tok own ov Hti rem true) as (l & -> & Hs & Hc); [by rewrite El|]. rewrite bind_ret. rewrite El in Hs, Hc.
    assert (∀ o, o ∈ unique_ords (map c_raw_ordinal l) ↔ tok o ∧ rem `prefix_of` own o ++ ov o) as Hids.
    { intros o. rewrite elem_unique_ords, list_elem_of_In, in_map_iff. setoid_rewrite <- list_elem_of_In. split.
      - intros (c & <- & Hin). destruct (Hs c Hin) as ((Ht & _) & Hp & _ & H0). rewrite H0 in Hp by done. by split.
      - intros [Ht Hp]. destruct (suffix_start Es seg tok own ov Hti o Ht) as [Hs0 E0]. destruct (Hc o 0 Hs0) as (c & Hin & Ec & _); [by rewrite E0|done|]. by exists c. }
    eexists. split; [done|]. split; [|split].
    + intros a Ha o Ht Hta. destruct (unique_ords _) as [|i ids] eqn:Ei; [done|]. injection Ha as <-. apply prefix_ext; [done|]. rewrite <- Ei in *. by apply Hids.
    + intros o Ht Hp. assert (o ∈ unique_ords (map c_raw_ordinal l)) as Ho by by apply Hids. destruct (unique_ords _) as [|i ids]; [by apply elem_of_nil in Ho|]. by eexists.
    + intros a Ha. destruct (unique_ords _) as [|i ids] eqn:Ei; [done|]. injection Ha as <-. apply Forall_forall. intros o Ho. apply Hids in Ho as [Ht _]. by apply Hord.
Qed.

(** The tokens the rest can go on through. *)
Lemma next_groups_spec pre rem : ql = pre ++ rem → valid rem →
  ∃ gs, next_groups r (falling_walk_chunks to_lowercase) true rem = Ret gs ∧
    (∀ g, g ∈ gs → ∃ v n, g = (Ids v, n, n) ∧ v ≠ [] ∧ ∀ o, o ∈ v → tok o ∧ #(own o) = n ∧ ∃ rest, rem = own o ++ rest ∧ runs_past (ov o) rest) ∧
    (∀ o rest, tok o → rem = own o ++ rest → runs_past (ov o) rest → ∃ v, o ∈ v ∧ (Ids v, #(own o), #(own o)) ∈ gs).
Proof using Hr Hvec Hti Hlow.
  intros Eq Hv. pose proof (Hlow pre rem Eq Hv) as El. unfold next_groups.
  destruct (token_splits to_lowercase r Es seg Hr Hvec tok own ov Hti rem) as (l & -> & Hs & Hc). rewrite bind_ret. rewrite El in Hs, Hc. cbn [groups_of].
  set (l0 := List.filter (λ s, sti (parent s) =? 0) l).
  assert (∀ s, s ∈ l0 → ∃ rest, tok (raw_ordinal (parent s)) ∧ rem = own (raw_ordinal (parent s)) ++ rest ∧ runs_past (ov (raw_ordinal (parent s))) rest ∧
    query_consumed s = #(own (raw_ordinal (parent s))) ∧ remainder_start s = query_consumed s) as Hs0.
  { intros s [Hin%list_elem_of_In E0%Z.eqb_eq]%list_elem_of_In%filter_In. destruct (Hs s Hin) as (o & si & rest & (Ht & _) & Erem & Hp & Eo & Esti & Ec & Est).
    rewrite E0 in Esti. subst si. subst o. exists rest. split; [done|]. split; [done|]. split; [done|]. split; [done|]. by rewrite Est, Ec. }
  destruct (group_splits_spec (length l0) l0 (Nat.le_refl _)) as [Gs Gc]. eexists. split; [done|]. split.
  - intros g (s & ords & Hin & -> & Ho & Hall)%Gs. destruct (Hs0 s Hin) as (rest0 & _ & _ & _ & _ & Est). rewrite Est. exists (unique_ords ords), (query_consumed s). split; [done|]. split.
    + assert (raw_ordinal (parent s) ∈ unique_ords ords) as H by by apply elem_unique_ords. by destruct (unique_ords ords); [apply elem_of_nil in H|].
    + intros o Ho'. rewrite elem_unique_ords in Ho'. destruct (Hall o Ho') as (s' & Hs' & <- & E'). destruct (Hs0 s' Hs') as (rest & Ht & Erem & Hp & Ec & _).
      split; [done|]. split; [by rewrite <- Ec, E'|]. by exists rest.
  - intros o rest Ht Erem Hp. destruct (suffix_start Es seg tok own ov Hti o Ht) as [Hs1 E0]. destruct (Hc o 0 rest Hs1) as (s & Hin & _ & _ & _ & Eo & Esti & Ec & _); [by rewrite E0|done|].
    rewrite E0 in Ec. assert (s ∈ l0) as Hin0 by (apply list_elem_of_In, filter_In; rewrite <- list_elem_of_In; split; [done|by rewrite Esti]).
    destruct (Gc s Hin0) as (s' & ords & Hs' & Hg & E' & Ho). destruct (Hs0 s' Hs') as (_ & _ & _ & _ & _ & Est). rewrite Est, E', Ec in Hg.
    exists (unique_ords ords). split; [|done]. apply elem_unique_ords. by rewrite <- Eo.
Qed.

(** ** The loop *)

(** A chain that goes on from [positions] over [rem]: what it takes there
    spells [rem]. *)
Definition continues (sti_ : Z) (positions : list Alts) (rem : list Z) (c : TokenChainV3) : Prop :=
  ∃ alts, ordinals c = positions ++ alts ∧ alts ≠ [] ∧ first_sti c = sti_ ∧ Forall alt_ok alts ∧
    ∀ os, Forall tok os → Forall2 takes alts os → spelled ext rem os ∧ #rem = #(concat (map own (removelast os))) + last_consumed c.

(** Every way to spell [rem] with [n] tokens or less is taken. *)
Definition reaches (positions : list Alts) (rem : list Z) (n : nat) (cs : list TokenChainV3) : Prop :=
  ∀ os, spelled ov rem os → (length os ≤ n)%nat → ∃ c alts, c ∈ cs ∧ ordinals c = positions ++ alts ∧ Forall2 takes alts os.

Section Loop.
Context (split : SplitCandidateV3).
Local Abbreviation loop := (λ fuel, chain_loop to_lowercase r (falling_walk_chunks to_lowercase) true true prefix_alts fuel query ql split).

Abbreviation loop_runs := (stack_runs loop).

(** The state that a group leads to. *)
Definition state_after (positions : list Alts) (off depth : Z) (v : list Z) (n : Z) : State := (positions ++ [Ids v], off + n, depth + 1, n).

Lemma group_state pre rem positions depth (g : Group) (gs : list Group) : ql = pre ++ rem → valid rem →
  (∀ g, g ∈ gs → ∃ v n, g = (Ids v, n, n) ∧ v ≠ [] ∧ ∀ o, o ∈ v → tok o ∧ #(own o) = n ∧ ∃ rest, rem = own o ++ rest ∧ runs_past (ov o) rest) →
  g ∈ gs →
  ∃ v n, g = (Ids v, n, n) ∧ 0 ≤ n ∧
    (let '(ords, consumed, rem_start) := g in (positions ++ [ords], #pre + snap_to_char_boundary rem rem_start, depth + 1, consumed)) = state_after positions #pre depth v n ∧
    ql = (pre ++ take (Z.to_nat n) rem) ++ drop (Z.to_nat n) rem ∧ #(pre ++ take (Z.to_nat n) rem) = #pre + n ∧ valid (drop (Z.to_nat n) rem) ∧ drop (Z.to_nat n) rem ≠ [] ∧
    ∀ o, o ∈ v → tok o ∧ rem = own o ++ drop (Z.to_nat n) rem ∧ runs_past (ov o) (drop (Z.to_nat n) rem).
Proof using Hti.
  intros Eq Hv Hgs Hg. destruct (Hgs g Hg) as (v & n & -> & Hne & Hall). exists v, n. split; [done|].
  assert (∀ o, o ∈ v → tok o ∧ rem = own o ++ drop (Z.to_nat n) rem ∧ runs_past (ov o) (drop (Z.to_nat n) rem) ∧ n = #(own o)) as Hv'.
  { intros o Ho. destruct (Hall o Ho) as (Ht & <- & rest & Erem & Hp). rewrite len_to_nat. assert (drop (length (own o)) rem = rest) as -> by (by rewrite Erem, drop_app_length). done. }
  destruct v as [|o v]; [done|]. destruct (Hv' o ltac:(by left)) as (Ht & Erem & Hp & ->). destruct (ti_valid _ _ _ _ _ Hti o Ht) as [Hvo _].
  assert (valid (drop (Z.to_nat #(own o)) rem)) as Hvr by (apply (valid_cancel (own o)); [done|by rewrite <- Erem]).
  pose proof (len_nonneg (own o)). split; [done|]. split; [|split; [|split; [|split; [done|split]]]].
  - unfold state_after. f_equal. f_equal. f_equal. f_equal. rewrite Erem at 1. rewrite snap_boundary; [done|rewrite len_app; pose proof (len_nonneg (drop (Z.to_nat #(own o)) rem)); lia|by apply boundary_after].
  - by rewrite <- app_assoc, take_drop.
  - rewrite len_app. rewrite Erem at 1. by rewrite len_to_nat, take_app_length.
  - destruct Hp as [_ Hlt]. intros E. rewrite E in Hlt. unfold len in Hlt. cbn in Hlt. lia.
  - intros o' Ho'. destruct (Hv' o' Ho') as (? & ? & ? & _). done.
Qed.

Lemma explore n : ∀ positions pre rem depth lc, MAX_CHAIN_DEPTH - depth = Z.of_nat n → ql = pre ++ rem → valid rem → rem ≠ [] →
  ∃ cs, loop_runs [(positions, #pre, depth, lc)] cs ∧ Forall (continues (sti (parent split)) positions rem) cs ∧ reaches positions rem n cs.
Proof using Hr Hvec Hti Hext Hord Hlow.
  induction n as [|n IH]; intros positions pre rem depth lc Hn Eq Hv Hne.
  all: assert ((#ql <=? #pre) = false) as Hoff by (rewrite Eq, len_app; destruct rem as [|x rem]; [done|]; rewrite len_cons; pose proof (len_nonneg rem); lia).
  { exists []. split; [|split; [constructor|]].
    - exists 1%nat. intros fuel chains stack. cbn [app chain_loop Nat.add chain_step]. rewrite Hoff. replace (MAX_CHAIN_DEPTH <=? depth) with true by lia.
      rewrite bind_ret. cbn [rev app]. by rewrite app_nil_r.
    - intros [|o os] Hs Hl; [done|cbn in Hl; lia]. }
  destruct (swallow_spec pre rem Eq Hv) as (hit & Ehit & Hhs & Hhc & Hhe). destruct (next_groups_spec pre rem Eq Hv) as (gs & Egs & Hgs & Hgc).
  set (pushed := map (λ g : Group, let '(ords, consumed, rem_start) := g in (positions ++ [ords], #pre + snap_to_char_boundary rem rem_start, depth + 1, consumed)) gs).
  set (Q := λ (st : State) cs, ∃ v m, 0 ≤ m ∧ (Ids v, m, m) ∈ gs ∧ st = state_after positions #pre depth v m ∧
    Forall (continues (sti (parent split)) (positions ++ [Ids v]) (drop (Z.to_nat m) rem)) cs ∧ reaches (positions ++ [Ids v]) (drop (Z.to_nat m) rem) n cs).
  assert (Forall (λ st, ∃ cs, loop_runs [st] cs ∧ Q st cs) (rev pushed)) as Hall.
  { apply Forall_forall. intros st Hst. apply list_elem_of_In, in_rev, in_map_iff in Hst as (g & <- & Hg%list_elem_of_In).
    destruct (group_state pre rem positions depth g gs Eq Hv Hgs Hg) as (v & m & Eg & Hm & -> & Eq' & Elen & Hv' & Hne' & Ho). subst g.
    destruct (IH (positions ++ [Ids v]) (pre ++ take (Z.to_nat m) rem) (drop (Z.to_nat m) rem) (depth + 1) m) as (cs & Hrun & Hs & Hc); [lia|done..|].
    rewrite Elen in Hrun. exists cs. split; [exact Hrun|]. by exists v, m. }
  destruct (stack_runs_all _ Q (rev pushed) Hall) as (css & [k Hk] & HQ).
  set (hits := match hit with Some alts => [{| ordinals := positions ++ [alts]; first_sti := sti (parent split); total_query_consumed := #query; last_consumed := #rem |}] | None => [] end).
  exists (hits ++ concat css). split; [|split].
  - exists (S k). intros fuel chains stack. change (S k + fuel)%nat with (S (k + fuel)). cbn [app chain_loop chain_step]. rewrite Hoff. replace (MAX_CHAIN_DEPTH <=? depth) with false by lia.
    assert (str_from ql #pre = Ret rem) as ->. { unfold str_from. rewrite Eq, boundary_after by done. by apply slice_from_app. }
    rewrite bind_ret, Ehit, bind_ret, Egs, bind_ret, bind_ret. fold pushed hits. by rewrite Hk, app_assoc.
  - apply Forall_app. split.
    + unfold hits. destruct hit as [a|]; [|constructor]. constructor; [|constructor]. exists [a]. split; [done|]. split; [done|]. split; [done|]. split.
      * constructor; [by apply Hhe|constructor].
      * intros os Htok Hos. apply Forall2_cons_inv_l in Hos as (o & os' & Hta & Hos' & ->). apply Forall2_nil_inv_l in Hos' as ->. apply Forall_cons in Htok as [Ht _].
        split; [split; [done|]; by eapply Hhs|]. cbn [removelast map concat last_consumed]. by rewrite len_nil.
    + apply Forall_concat. apply Forall_forall. intros cs [i Hi]%list_elem_of_lookup. destruct (Forall2_lookup_r _ _ _ _ _ HQ Hi) as (st & _ & v & m & Hm & Hg & _ & Hs & _).
      destruct (group_state pre rem positions depth _ gs Eq Hv Hgs Hg) as (v' & m' & [= <- <-] & _ & _ & _ & _ & _ & _ & Ho).
      eapply Forall_impl; [exact Hs|]. intros c (alts & Eo & Hane & Efs & Hex & Hsp). exists (Ids v :: alts). split; [by rewrite Eo, <- app_assoc|]. split; [done|]. split; [done|]. split.
      * constructor; [|done]. apply Forall_forall. intros o Hin. apply Hord. by destruct (Ho o Hin).
      * intros os Htok Hos. apply Forall2_cons_inv_l in Hos as (o & os' & Hta & Hos' & ->). apply Forall_cons in Htok as [Ht Htok']. destruct (Hsp os' Htok' Hos') as [Hsp' Hlen].
        destruct (Ho o Hta) as (_ & Erem & Hp). assert (os' ≠ []) as Hne' by (destruct os'; [by apply Forall2_nil_inv_r in Hos'|done]).
        destruct os' as [|o' os']; [done|]. split; [split; [done|]; by eexists|]. rewrite Erem at 1. rewrite len_app, Hlen. cbn [removelast map concat]. rewrite len_app. lia.
  - intros os Hsp Hlen. destruct os as [|o os]; [done|]. destruct Hsp as [Ht Hsp]. destruct os as [|o' os].
    + destruct (Hhc o Ht Hsp) as (a & -> & Hta). eexists _, [a]. split; [apply elem_of_app; left; by left|]. split; [done|]. by constructor.
    + destruct Hsp as (rest & Erem & Hp & Hsp). destruct (Hgc o rest Ht Erem Hp) as (v & Hv' & Hg).
      assert (state_after positions #pre depth v #(own o) ∈ rev pushed) as Hst.
      { apply list_elem_of_In, in_rev. rewrite rev_involutive. apply in_map_iff. exists (Ids v, #(own o), #(own o)). split; [|by apply list_elem_of_In].
        destruct (group_state pre rem positions depth _ gs Eq Hv Hgs Hg) as (v' & m' & [= <- <-] & _ & E & _). exact E. }
      apply list_elem_of_lookup in Hst as [i Hi]. destruct (Forall2_lookup_l _ _ _ _ _ HQ Hi) as (cs & Hcs & v' & m' & Hm' & Hg' & Est & _ & Hreach).
      unfold state_after in Est. injection Est as Ev _ Em. apply app_inj_2 in Ev as [_ Ev]; [|done]. injection Ev as <-. subst m'.
      assert (drop (Z.to_nat #(own o)) rem = rest) as Er by (by rewrite Erem, len_to_nat, drop_app_length). rewrite Er in Hreach.
      destruct (Hreach (o' :: os) Hsp) as (c & alts & Hc & Eo & Hta); [cbn in *; lia|]. exists c, (Ids v :: alts). split; [|split].
      * apply elem_of_app. right. apply elem_concat. exists cs. split; [by eapply list_elem_of_lookup_2|done].
      * by rewrite Eo, <- app_assoc.
      * by constructor.
Qed.
End Loop.

(** ** The chains of the splits *)

Lemma split_rest q s o si rest : valid q → split_is q s o si rest → valid rest ∧ rest ≠ [].
Proof using Hti.
  intros Hvq (Hs & Eq & [_ Hlt] & _). destruct (suffix_valid Es seg tok own ov Hti o si Hs) as [Hvs _]. split; [apply (valid_cancel (suffix own o si)); [done|by rewrite <- Eq]|].
  intros ->. unfold len in Hlt. cbn in Hlt. lia.
Qed.

Definition split_chains (s : SplitCandidateV3) (o si : Z) (rest : list Z) (cs : list TokenChainV3) : Prop :=
  Forall (continues si [Ids [o]] rest) cs ∧ reaches [Ids [o]] rest 8 cs.

Lemma chains_of_split_spec s o si rest : split_is ql s o si rest → ∃ n cs, split_chains s o si rest cs ∧
  ∀ fuel chains, (n ≤ fuel)%nat →
    chains_of_split to_lowercase r (falling_walk_chunks to_lowercase) true true prefix_alts fuel query ql chains s = Ret (chains ++ cs).
Proof using Hr Hvec Hti Hext Hord Hlow Hq.
  intros Hs. destruct (split_rest _ _ _ _ _ Hq Hs) as [Hv Hne]. destruct Hs as (Hsuf & Eq & _ & Eo & Esti & _ & Est).
  destruct (explore s 8 [Ids [o]] (suffix own o si) rest 0 (query_consumed s)) as (cs & [k Hk] & Hs & Hc); [done..|]. rewrite Esti in Hs. exists k, cs. split; [by split|].
  intros fuel chains Hf. unfold chains_of_split. rewrite Est, Eo.
  assert (snap_to_char_boundary ql #(suffix own o si) = #(suffix own o si)) as ->.
  { rewrite Eq. apply snap_boundary; [rewrite len_app; pose proof (len_nonneg (suffix own o si)); pose proof (len_nonneg rest); lia|by apply boundary_after]. }
  assert ((#ql <=? #(suffix own o si)) = false) as ->.
  { rewrite Eq, len_app. destruct rest as [|x rest]; [done|]. rewrite len_cons. pose proof (len_nonneg rest). lia. }
  assert (∃ m, fuel = (k + m)%nat) as [m ->] by (exists (fuel - k)%nat; lia). specialize (Hk m chains []). cbn [app] in Hk. unfold single. etrans; [exact Hk|]. by destruct m.
Qed.

Lemma chains_built splits : Forall (λ s, ∃ o si rest, split_is ql s o si rest) splits → ∃ n cs,
  (∀ fuel, (n ≤ fuel)%nat → build_chains_from_splits to_lowercase r (falling_walk_chunks to_lowercase) true true prefix_alts fuel splits query = Ret cs) ∧
  (∀ c, c ∈ cs → ∃ s o si rest, s ∈ splits ∧ split_is ql s o si rest ∧ continues si [Ids [o]] rest c) ∧
  (∀ s o si rest os, s ∈ splits → split_is ql s o si rest → spelled ov rest os → (length os ≤ 8)%nat →
     ∃ c alts, c ∈ cs ∧ first_sti c = si ∧ ordinals c = Ids [o] :: alts ∧ Forall2 takes alts os).
Proof using Hr Hvec Hti Hext Hord Hlow Hq.
  intros Hsplits. assert (∃ n cs, (∀ fuel chains, (n ≤ fuel)%nat → foldM (chains_of_split to_lowercase r (falling_walk_chunks to_lowercase) true true prefix_alts fuel query ql) chains splits = Ret (chains ++ cs)) ∧
    (∀ c, c ∈ cs → ∃ s o si rest, s ∈ splits ∧ split_is ql s o si rest ∧ continues si [Ids [o]] rest c) ∧
    (∀ s, s ∈ splits → ∃ o si rest cs', split_is ql s o si rest ∧ split_chains s o si rest cs' ∧ ∀ c, c ∈ cs' → c ∈ cs)) as (n & cs & Hrun & Hs & Hc).
  { induction Hsplits as [|s splits (o & si & rest & Hs) _ (n & cs & Hrun & Hs' & Hc')].
    { exists 0%nat, []. split; [intros; cbn; by rewrite app_nil_r|]. split; [intros c []%elem_of_nil|intros s []%elem_of_nil]. }
    destruct (chains_of_split_spec s o si rest Hs) as (n1 & cs1 & Hcs1 & Hrun1). exists (n1 + n)%nat, (cs1 ++ cs). split; [|split].
    - intros fuel chains Hf. cbn [foldM]. rewrite Hrun1, bind_ret, Hrun, app_assoc by lia. done.
    - intros c [Hin|Hin]%elem_of_app.
      + destruct Hcs1 as [Hcs1 _]. rewrite Forall_forall in Hcs1. exists s, o, si, rest. split; [by left|]. split; [done|by apply Hcs1].
      + destruct (Hs' c Hin) as (s' & o' & si' & rest' & Hin' & ?). exists s', o', si', rest'. split; [by right|done].
    - intros s' [->|Hin]%elem_of_cons.
      + exists o, si, rest, cs1. split; [done|]. split; [done|]. intros c Hc1. apply elem_of_app. by left.
      + destruct (Hc' s' Hin) as (o' & si' & rest' & cs' & ? & ? & Hsub). exists o', si', rest', cs'. split; [done|]. split; [done|]. intros c Hc1. apply elem_of_app. right. by apply Hsub. }
  exists n, cs. split; [intros fuel Hf; unfold build_chains_from_splits; by rewrite Hrun|]. split; [done|].
  intros s o si rest os Hin Hs1 Hsp Hlen. destruct (Hc s Hin) as (o' & si' & rest' & cs' & Hs2 & [Hcont Hreach] & Hsub).
  assert (o' = o) as -> by (by destruct Hs1 as (_ & _ & _ & <- & _), Hs2 as (_ & _ & _ & <- & _)).
  assert (si' = si) as -> by (by destruct Hs1 as (_ & _ & _ & _ & <- & _), Hs2 as (_ & _ & _ & _ & <- & _)).
  assert (rest' = rest) as ->. { destruct Hs1 as (_ & E1 & _), Hs2 as (_ & E2 & _). rewrite E1 in E2. by apply app_inv_head in E2. }
  destruct (Hreach os Hsp Hlen) as (c & alts & Hc1 & Eo & Hta). rewrite Forall_forall in Hcont. destruct (Hcont c Hc1) as (_ & _ & _ & Efs & _).
  exists c, alts. split; [by apply Hsub|]. by split.
Qed.
End Chains.
