(* ===== verification/Occurrences.v ===== *)
(** * Occurrences in a corpus

    A corpus is its documents, each the list of its token ordinals; a text is
    the concatenation of the tokens' own texts.  This file relates the tokens
    a chain runs through to the text at a position, and the matches of a chain
    to the places where its tokens follow each other. *)
From stdpp Require Import gmap.
From S2P Require Import Prelude Ordering DocFilter ParentRecord SuffixBuilder FstWalk WalkProofs Utf8 Resolve PostingSource ResolveProofs Chains ChainProofs.
Import source walk chains.
Import parents.
Import resolve.
Open Scope Z_scope.

Section Corpus.
Context (docs : list (list Z)) (tok : Z → Prop) (own ov ext : Z → list Z).

Definition doc_tokens (d : Z) : list Z := if 0 <=? d then default [] (docs !! Z.to_nat d) else [].

Lemma corpus_at_tokens d p : 0 ≤ p → corpus_at docs d p = doc_tokens d !! Z.to_nat p.
Proof using.
  intros Hp. unfold corpus_at, doc_tokens. replace (0 <=? p) with true by lia. rewrite andb_true_r. destruct (0 <=? d); [|done].
  destruct (docs !! Z.to_nat d) as [toks|]; done.
Qed.

Lemma corpus_at_range d p o : corpus_at docs d p = Some o → 0 ≤ p < #(doc_tokens d) ∧ doc_tokens d !! Z.to_nat p = Some o.
Proof using.
  intros H. assert (0 ≤ p) as Hp by (unfold corpus_at in H; destruct (Z.leb_spec 0 p); [done|]; by rewrite andb_false_r in H).
  rewrite corpus_at_tokens in H by done. pose proof (lookup_lt_Some _ _ _ H). unfold len. split; [lia|done].
Qed.

(** The text of a document from the start of a position on. *)
Definition text_from (d p : Z) : list Z := concat (map own (drop (Z.to_nat p) (doc_tokens d))).

Lemma text_from_at d p o : corpus_at docs d p = Some o → text_from d p = own o ++ text_from d (p + 1).
Proof using.
  intros (Hp & Ho)%corpus_at_range. unfold text_from. rewrite (drop_S _ _ _ Ho). cbn. replace (Z.to_nat (p + 1)) with (S (Z.to_nat p)) by lia. done.
Qed.

(** Position [p] of document [d] starts the tokens [os]. *)
Definition path (d p : Z) (os : list Z) : Prop := 0 ≤ p ∧ os `prefix_of` drop (Z.to_nat p) (doc_tokens d).

Lemma path_nil d p : 0 ≤ p → path d p [].
Proof using. intros Hp. split; [done|]. apply prefix_nil. Qed.

Lemma path_cons d p o os : path d p (o :: os) ↔ corpus_at docs d p = Some o ∧ path d (p + 1) os.
Proof using.
  split.
  - intros [Hp [x Hx]]. assert (doc_tokens d !! Z.to_nat p = Some o) as Ho by (rewrite <- (Nat.add_0_r (Z.to_nat p)), <- lookup_drop, Hx; done).
    rewrite corpus_at_tokens by done. split; [done|]. split; [lia|]. rewrite (drop_S _ _ _ Ho) in Hx. injection Hx as Hx.
    replace (Z.to_nat (p + 1)) with (S (Z.to_nat p)) by lia. by exists x.
  - intros [Ho [_ [x Hx]]]. apply corpus_at_range in Ho as [Hp Ho]. split; [lia|]. rewrite (drop_S _ _ _ Ho). replace (Z.to_nat (p + 1)) with (S (Z.to_nat p)) in Hx by lia. rewrite Hx. by exists x.
Qed.

(** What holds of the documents of an index. *)
Record corpus_ok : Prop := {
  co_tokens : ∀ d p o, corpus_at docs d p = Some o → tok o ∧ fits 32 o;
  co_lengths : ∀ d, #(doc_tokens d) < 2 ^ 32;
  co_follows : ∀ d p o, corpus_at docs d p = Some o → ov o `prefix_of` ext o ∧ ext o `prefix_of` text_from d (p + 1);
}.
Context (Hok : corpus_ok).

Lemma path_tokens d p os : path d p os → Forall tok os.
Proof using Hok.
  revert p. induction os as [|o os IH]; intros p H; [constructor|]. apply path_cons in H as [Ho Hp]. constructor; [by apply (co_tokens Hok d p)|by apply (IH (p + 1))].
Qed.

(** Tokens that spell a string are where it occurs. *)
Lemma spelled_text os : ∀ d p rem, path d p os → spelled tok own ov ext rem os → rem `prefix_of` text_from d p.
Proof using Hok.
  induction os as [|o os IH]; intros d p rem Hpath Hsp; [done|]. apply path_cons in Hpath as [Ho Hpath]. rewrite (text_from_at _ _ _ Ho).
  destruct Hsp as [Ht Hsp]. destruct os as [|o' os].
  - etrans; [exact Hsp|]. apply prefix_app. by apply (co_follows Hok d p).
  - destruct Hsp as (rest & -> & _ & Hsp). apply prefix_app. by apply IH.
Qed.

(** What goes on after a token and is not within its overlap runs past it. *)
Lemma past_overlap (a t x : list Z) : t `prefix_of` x → a `prefix_of` x → ¬ t `prefix_of` a → runs_past a t.
Proof using.
  intros Ht Ha Hno. destruct (prefix_weak_total t a x Ht Ha) as [H|H]; [done|]. split; [done|]. destruct H as [y ->]. rewrite len_app.
  destruct y; [destruct Hno; by rewrite app_nil_r|]. rewrite len_cons. pose proof (len_nonneg y). lia.
Qed.

(** A string that occurs is spelled by the tokens there. *)
Lemma text_spelled n : ∀ d p rem, 0 ≤ p → rem `prefix_of` text_from d p → rem ≠ [] → #rem ≤ #(concat (map own (take n (drop (Z.to_nat p) (doc_tokens d))))) →
  ∃ os, path d p os ∧ spelled tok own ov ov rem os ∧ (length os ≤ n)%nat.
Proof using Hok.
  induction n as [|n IH]; intros d p rem Hp Hpre Hne Hlen.
  { rewrite take_0 in Hlen. cbn in Hlen. destruct rem as [|x rem]; [done|]. rewrite len_cons in Hlen. pose proof (len_nonneg rem). unfold len in *. cbn in Hlen. lia. }
  destruct (doc_tokens d !! Z.to_nat p) as [o|] eqn:Ed.
  2: { exfalso. apply lookup_ge_None in Ed. unfold text_from in Hpre. rewrite drop_ge in Hpre by done. cbn in Hpre. by apply prefix_nil_inv in Hpre. }
  assert (corpus_at docs d p = Some o) as Ho by by rewrite corpus_at_tokens.
  destruct (co_tokens Hok d p o Ho) as [Ht _]. destruct (co_follows Hok d p o Ho) as [Hov Hex].
  destruct (decide (rem `prefix_of` own o ++ ov o)) as [Hin|Hout].
  { exists [o]. split; [apply path_cons; split; [done|apply path_nil; lia]|]. split; [done|cbn; lia]. }
  rewrite (text_from_at _ _ _ Ho) in Hpre. destruct (prefix_split _ _ _ Hpre) as [Hc|(t & -> & Htne & Ht')]; [destruct Hout; by apply prefix_app_r|].
  assert (runs_past (ov o) t) as Hpast by (eapply past_overlap; [exact Ht'|by etrans|]; intros H; apply Hout; by apply prefix_app).
  destruct (IH d (p + 1) t) as (os & Hpath & Hsp & Hl); [lia|done|done| |].
  { rewrite (drop_S _ _ _ Ed) in Hlen. cbn [take map concat] in Hlen. rewrite !len_app in Hlen. replace (Z.to_nat (p + 1)) with (S (Z.to_nat p)) by lia. lia. }
  exists (o :: os). split; [by apply path_cons|]. split; [|cbn; lia]. split; [done|]. destruct os as [|o' os]; [done|]. by exists t.
Qed.

(** ** Following a chain *)

Section Follow.
Context (to_lowercase : list Z → list Z) (ordinal_at : Z → Z → option Z) (text : Z → option (list Z)) (with_texts : bool).
Context (Hat : ∀ d p, ordinal_at d p = corpus_at docs d p).
Local Abbreviation follow := (ResolveProofs.follow to_lowercase ordinal_at text with_texts).
Local Abbreviation contains a o := (contains_alt to_lowercase text with_texts a o = true).

Lemma follow_path alts : ∀ d p o0 f a, 0 ≤ p < #(doc_tokens d) → follow alts (d, p, o0, f) = Some a →
  ∃ os, path d (p + 1) os ∧ Forall2 (λ a o, contains a o) alts os ∧ a = (d, p + #os, default o0 (last os), f).
Proof using Hok Hat.
  induction alts as [|w alts IH]; intros d p o0 f a Hp Hf; cbn in Hf.
  { injection Hf as <-. exists []. split; [apply path_nil; lia|]. split; [constructor|]. by rewrite len_nil, Z.add_0_r. }
  pose proof (co_lengths Hok d) as Hlen. assert (add32 p 1 = p + 1) as Ea by (apply Z.mod_small; lia). rewrite Hat, Ea in Hf.
  destruct (corpus_at docs d (p + 1)) as [o|] eqn:Eo; [|done]. destruct (contains_alt _ _ _ _ _) eqn:Ec; [|done].
  pose proof (corpus_at_range _ _ _ Eo) as [Hp1 _]. destruct (IH d (p + 1) o f a) as (os & Hpath & Hall & ->); [lia|done|].
  exists (o :: os). split; [by apply path_cons|]. split; [by constructor|]. rewrite len_cons. f_equal. f_equal; [f_equal; lia|]. destruct os; [done|]. cbn [last]. by destruct (last (z :: os)) eqn:El; [|by apply last_None in El].
Qed.

Lemma path_follow alts : ∀ d p o0 f os, 0 ≤ p < #(doc_tokens d) → path d (p + 1) os → Forall2 (λ a o, contains a o) alts os →
  follow alts (d, p, o0, f) = Some (d, p + #os, default o0 (last os), f).
Proof using Hok Hat.
  induction alts as [|w alts IH]; intros d p o0 f os Hp Hpath Hall.
  { apply Forall2_nil_inv_l in Hall as ->. cbn. by rewrite len_nil, Z.add_0_r. }
  apply Forall2_cons_inv_l in Hall as (o & os' & Hc & Hall & ->). apply path_cons in Hpath as [Ho Hpath].
  pose proof (co_lengths Hok d) as Hlen. assert (add32 p 1 = p + 1) as Ea by (apply Z.mod_small; lia). pose proof (corpus_at_range _ _ _ Ho) as [Hp1 _].
  cbn. rewrite Hat, Ea, Ho, Hc. rewrite (IH d (p + 1) o f os'); [|lia|done..]. rewrite len_cons. f_equal. f_equal. f_equal; [f_equal; lia|]. destruct os'; [done|]. cbn [last]. by destruct (last (z :: os')) eqn:El; [|apply last_None in El].
Qed.
End Follow.
End Corpus.

(** ** The matches of a chain *)

Section Hits.
Context (docs : list (list Z)) (tok : Z → Prop) (own ov ext : Z → list Z) (Hok : corpus_ok docs tok own ov ext).
Context (to_lowercase : list Z → list Z) (resolver : PostingResolver) (ordinal_at : Z → Z → option Z) (text : Z → option (list Z)) (with_texts : bool).
Context {F : Type} `{!DocFilter F} `{!DocFilterLaws F} (filter_docs : option F) {Hlaws : ResolverLaws resolver}.
Context (Hpos : ∀ o d p, fits 32 o → (d, p) ∈ positions resolver o ↔ corpus_at docs d p = Some o) (Hat : ∀ d p, ordinal_at d p = corpus_at docs d p).
Local Abbreviation contains a o := (contains_alt to_lowercase text with_texts a o = true).
Local Abbreviation hits := (chain_hits to_lowercase resolver ordinal_at text filter_docs with_texts).

(** The filter lets a document through. *)
Definition keeps (d : Z) : Prop := match filter_docs with Some f => DocFilter.contains f d = true | None => True end.

Lemma elem_resolve_ordinal o e : fits 32 o → e ∈ resolve_ordinal resolver filter_docs o ↔ corpus_at docs e.1 e.2 = Some o ∧ keeps e.1.
Proof using Hpos Hlaws DocFilterLaws0.
  intros Ho. unfold resolve_ordinal, keeps. destruct e as [d p]. cbn. destruct filter_docs as [f|].
  - rewrite (positions_filtered_spec F o f), list_elem_of_In, filter_In, <- list_elem_of_In, Hpos by done. done.
  - rewrite Hpos by done. split; [by intros ?; split|by intros []].
Qed.

Lemma elem_alternatives ids e : Forall (fits 32) ids → e ∈ resolve_alternatives resolver filter_docs ids ↔ ∃ o, o ∈ ids ∧ corpus_at docs e.1 e.2 = Some o ∧ keeps e.1.
Proof using Hpos Hlaws DocFilterLaws0.
  rewrite Forall_forall. intros Hids. unfold resolve_alternatives. rewrite list_elem_of_In, in_flat_map. setoid_rewrite <- list_elem_of_In.
  split; intros (o & Ho & H); exists o; (split; [done|]); by apply elem_resolve_ordinal; [apply Hids|].
Qed.

(** A match of a chain: its first token at [(d, p)], the others behind it.  A
    match of one token names the first of the chain's alternatives. *)
Definition hit_at (c : TokenChainV3) (alts : list Alts) (d p : Z) (os : list Z) (m : MatchV3) : Prop :=
  doc_id m = d ∧ position m = p ∧ first_off m = first_sti c ∧ last_start_pos m = p + #os ∧ last_off m = 0 ∧
  m_last_consumed m = match alts with [] => add32 (first_sti c) (as_u32 (total_query_consumed c)) | _ => as_u32 (last_consumed c) end ∧
  span m = #os + 1 ∧ last_ordinal m = default (match ordinals c with Ids (h :: _) :: _ => h | _ => 0 end) (last os).

Lemma path_bound d p os : path docs d p os → p + #os ≤ Z.max p #(doc_tokens docs d).
Proof using.
  intros [Hp [x Hx]]. apply (f_equal len) in Hx. rewrite len_drop, len_app in Hx. pose proof (len_nonneg x). lia.
Qed.

Lemma span_of d p os : 0 ≤ p < #(doc_tokens docs d) → path docs d (p + 1) os → add32 (saturating_sub (p + #os) p) 1 = #os + 1.
Proof using Hok.
  intros Hp Hpath. pose proof (path_bound d (p + 1) os Hpath). pose proof (co_lengths _ _ _ _ _ Hok d). pose proof (len_nonneg os). unfold add32, as_u32, saturating_sub. rewrite Z.mod_small; lia.
Qed.

Lemma hits_sound c h ids alts m : ordinals c = Ids (h :: ids) :: alts → Forall (fits 32) (h :: ids) → m ∈ hits c →
  ∃ d p o os, o ∈ h :: ids ∧ corpus_at docs d p = Some o ∧ keeps d ∧ path docs d (p + 1) os ∧ Forall2 (λ a o, contains a o) alts os ∧ hit_at c alts d p os m.
Proof using Hok Hpos Hlaws Hat DocFilterLaws0.
  intros Eo Hids Hm. unfold chain_hits in Hm. rewrite Eo in Hm. destruct alts as [|w alts].
  - apply list_elem_of_In, in_map_iff in Hm as ([d p] & <- & He%list_elem_of_In). apply elem_alternatives in He as (o & Ho & Hc & Hk); [|done]. cbn [fst snd] in *.
    pose proof (corpus_at_range _ _ _ _ Hc) as [? _]. exists d, p, o, []. split; [done|]. split; [done|]. split; [done|]. split; [apply path_nil; lia|]. split; [constructor|].
    unfold hit_at, one_token, unplaced. cbn. rewrite len_nil, Z.add_0_r, Eo. done.
  - apply list_elem_of_In, in_map_iff in Hm as (a & <- & Ha%list_elem_of_In). apply list_elem_of_omap in Ha as (a0 & Ha0 & Hf).
    apply list_elem_of_In, in_map_iff in Ha0 as ([d p] & <- & He%list_elem_of_In). apply elem_alternatives in He as (o & Ho & Hc & Hk); [|done]. cbn [fst snd] in *.
    pose proof (corpus_at_range _ _ _ _ Hc) as [? _]. unfold init_active in Hf. cbn [fst snd] in Hf.
    destruct (follow_path docs tok own ov ext Hok to_lowercase ordinal_at text with_texts Hat (w :: alts) d p 0 p a) as (os & Hpath & Hall & ->); [done..|].
    exists d, p, o, os. split_and!; try done. unfold hit_at, emitted, unplaced; cbn; split_and!; try done; [by apply (span_of d)|]. rewrite Eo. destruct os as [|o1 os]; [by apply Forall2_nil_inv_r in Hall|]. by destruct (last (o1 :: os)) eqn:El; [|apply last_None in El].
Qed.

Lemma hits_complete c h ids alts d p o os : ordinals c = Ids (h :: ids) :: alts → Forall (fits 32) (h :: ids) → o ∈ h :: ids → corpus_at docs d p = Some o → keeps d →
  path docs d (p + 1) os → Forall2 (λ a o, contains a o) alts os → ∃ m, m ∈ hits c ∧ hit_at c alts d p os m.
Proof using Hok Hpos Hlaws Hat DocFilterLaws0.
  intros Eo Hids Ho Hc Hk Hpath Hall. pose proof (corpus_at_range _ _ _ _ Hc) as [? _]. unfold chain_hits. rewrite Eo.
  assert ((d, p) ∈ resolve_alternatives resolver filter_docs (h :: ids)) as He by (apply elem_alternatives; [done|]; by exists o). destruct alts as [|w alts].
  - apply Forall2_nil_inv_l in Hall as ->. exists (one_token c h (d, p)). split; [apply list_elem_of_In, in_map; by apply list_elem_of_In|].
    unfold hit_at, one_token, unplaced. cbn. rewrite len_nil, Z.add_0_r, Eo. done.
  - pose proof (path_follow docs tok own ov ext Hok to_lowercase ordinal_at text with_texts Hat (w :: alts) d p 0 p os H Hpath Hall) as Hf.
    exists (emitted c h (d, p + #os, default 0 (last os), p)). split; [|unfold hit_at, emitted, unplaced; cbn; split_and!; try done; [by apply (span_of d)|]].
    2: { rewrite Eo. destruct os as [|o1 os]; [by apply Forall2_nil_inv_r in Hall|]. by destruct (last (o1 :: os)) eqn:El; [|apply last_None in El]. }
    apply list_elem_of_In, in_map, list_elem_of_In, list_elem_of_omap. exists (d, p, 0, p). split; [|exact Hf].
    apply list_elem_of_In, in_map_iff. exists (d, p). split; [done|by apply list_elem_of_In].
Qed.
End Hits.

(** ** Prefix alternatives *)

Section Prefixes.
Context (to_lowercase : list Z → list Z) (Hascii : ∀ s, is_ascii s = true → to_lowercase s = map ascii_lower s).

Lemma starts_with_ci_spec t p : to_lowercase p = p → starts_with_ci to_lowercase t p = bool_decide (p `prefix_of` to_lowercase t).
Proof using Hascii.
  intros Hp. unfold starts_with_ci. destruct (is_ascii t) eqn:Et; cbn [andb]; [|done]. destruct (is_ascii p) eqn:Ep; [|done].
  rewrite (Hascii t Et). rewrite (Hascii p Ep) in Hp. rewrite Hp. apply eq_bool_prop_intro. rewrite andb_True, !bool_decide_spec, Is_true_true, Z.leb_le. split.
  - intros [_ Ht]. rewrite <- Ht, <- firstn_map. apply prefix_take.
  - intros [x Hx]. split.
    + apply (f_equal length) in Hx. rewrite length_map, length_app in Hx. unfold len. lia.
    + rewrite <- firstn_map, Hx. apply take_app_length.
Qed.
End Prefixes.
