(* ===== verification/SiblingChains.v ===== *)
(** * The chains of the sibling table

    The search through the siblings ends; its chains take one token at each
    position, and the tokens after the first spell what is left of the query
    after the split it started from. *)
From stdpp Require Import gmap.
From S2P Require Import Prelude Ordering ParentRecord SuffixBuilder FstWalk WalkProofs Utf8 Resolve SiblingTable TermTexts Chains FindLiteral ChainProofs.
Import composite walk chains.
Import parents.
Import resolve.
Open Scope Z_scope.

(** What the texts of the tokens are: the token's own text and what follows it
    in the document, of which the first [own_len] bytes are its own. *)
Record texts_ok (to_lowercase : list Z → list Z) (tok : Z → Prop) (own ext : Z → list Z) (t : Texts) : Prop := {
  tx_token : ∀ o, tok o → ∃ s m, text t o = Some s ∧ meta t o = Some m ∧ termtexts.own_len m = #(own o) ∧ #(own o) ≤ #s ∧ is_char_boundary s #(own o) = true ∧
    to_lowercase (take (length (own o)) s) = own o ∧ to_lowercase s = own o ++ ext o ∧ valid (to_lowercase s);
}.

Lemma snap_loop_spec s fuel : ∀ p, 0 ≤ p ≤ #s → (Z.to_nat (#s - p) ≤ fuel)%nat → is_char_boundary s (snap_loop fuel s p) = true ∧ p ≤ snap_loop fuel s p ≤ #s.
Proof.
  assert (is_char_boundary s #s = true) as Hend. { unfold is_char_boundary. destruct (#s =? 0); [done|]. rewrite Z.leb_refl. apply Z.eqb_refl. }
  induction fuel as [|fuel IH]; intros p Hp Hf; cbn.
  { replace p with #s by lia. split; [done|lia]. }
  destruct (Z.ltb_spec p #s); cbn [andb]; [|replace p with #s by lia; split; [done|lia]].
  destruct (is_char_boundary s p) eqn:E; cbn [negb]; [split; [done|lia]|]. destruct (IH (p + 1)) as [H1 H2]; [lia|lia|]. split; [done|lia].
Qed.

Lemma snap_spec s i : 0 ≤ i → is_char_boundary s (snap_to_char_boundary s i) = true ∧ 0 ≤ snap_to_char_boundary s i ≤ #s.
Proof.
  intros Hi. unfold snap_to_char_boundary. pose proof (len_nonneg s). destruct (snap_loop_spec s (length s) (Z.min i #s)) as [H1 H2]; [lia|unfold len in *; lia|]. split; [done|lia].
Qed.

Section Siblings.
Context (to_lowercase : list Z → list Z) (tok : Z → Prop) (own ext : Z → list Z) (tx : Texts) (Htx : texts_ok to_lowercase tok own ext tx).
Context (Hown : ∀ o, tok o → valid (own o) ∧ own o ≠ []).
Context (siblings : Z → list sibling_table.SiblingEntry) (Hsib : ∀ o e, fits 32 o → e ∈ siblings o → fits 32 (sibling_table.next_ordinal e)).
Local Abbreviation plain := (spelled tok own (λ _, []) (λ _, [])).

(** Stepping onto a token takes its own text. *)
Lemma next_content_own sib s : tok (sibling_table.next_ordinal sib) → text tx (sibling_table.next_ordinal sib) = Some s →
  next_content to_lowercase (meta tx) true sib s = own (sibling_table.next_ordinal sib).
Proof using Htx Hown.
  intros Ht Es. set (o := sibling_table.next_ordinal sib) in *. destruct (tx_token _ _ _ _ _ Htx o Ht) as (s' & m & Es' & Em & Eown & _ & _ & _ & Elow & Hv).
  rewrite Es in Es'. injection Es' as <-. destruct (Hown o Ht) as [Hvo Hne]. assert (0 < #(own o)) by (destruct (own o); [done|]; rewrite len_cons; pose proof (len_nonneg l); lia).
  unfold next_content, step_len. fold o. rewrite Em, Eown, Elow. replace (0 <? #(own o)) with true by lia. cbn [andb]. rewrite len_app.
  assert (valid (ext o)) as Hve by (apply (valid_cancel (own o)); [done|by rewrite <- Elow]). destruct (Z.ltb_spec #(own o) (#(own o) + #(ext o))).
  - rewrite snap_boundary; [by rewrite len_to_nat, take_app_length|rewrite len_app; lia|by apply boundary_after].
  - destruct (ext o) as [|x e]; [by rewrite app_nil_r|]. rewrite len_cons in *. pose proof (len_nonneg e). lia.
Qed.

(** A chain that goes on from [chain] over [rem], one token at a time, and what
    it takes of the last one. *)
Definition links (sti_ : Z) (chain : list Alts) (rem : list Z) (c : TokenChainV3) : Prop :=
  ∃ os, ordinals c = chain ++ map single os ∧ os ≠ [] ∧ first_sti c = sti_ ∧ Forall (fits 32) os ∧ (Forall tok os → plain rem os ∧ #rem = #(concat (map own (removelast os))) + last_consumed c).

Section Loop.
Context (ql : list Z) (split : SplitCandidateV3).
Local Abbreviation loop := (λ fuel, sibling_loop to_lowercase siblings (text tx) (meta tx) true fuel ql split).

Lemma sibling_step_spec cur rem chain depth sib : rem ≠ [] →
  let '(cs, sts) := sibling_step to_lowercase (text tx) (meta tx) true ql split (cur, rem, chain, depth) sib in
  let o := sibling_table.next_ordinal sib in
  Forall (λ c, ordinals c = chain ++ [single o] ∧ first_sti c = parents.sti (parent split) ∧ last_consumed c = #rem ∧ (tok o → rem `prefix_of` own o)) cs ∧
  Forall (λ st : SibState, ∃ rem', st = (o, rem', chain ++ [single o], depth + 1) ∧ rem' ≠ [] ∧ (tok o → rem = own o ++ rem')) sts.
Proof using Htx Hown.
  intros Hne. cbn. destruct (text tx (sibling_table.next_ordinal sib)) as [s|] eqn:Es; [|by split; constructor].
  case_bool_decide as H1; [|case_bool_decide as H2].
  - split; [|constructor]. constructor; [|constructor]. split; [done|]. split; [done|]. split; [done|]. intros Ht. by rewrite (next_content_own sib s Ht Es) in H1.
  - split; [constructor|]. constructor; [|constructor]. destruct H2 as [x Hx]. eexists. split; [done|]. rewrite Hx, drop_app_length. split.
    + intros ->. apply H1. by rewrite Hx, app_nil_r.
    + intros Ht. by rewrite (next_content_own sib s Ht Es).
  - by split; constructor.
Qed.

Lemma sibling_explore n : ∀ cur rem chain depth, MAX_CHAIN_DEPTH - depth = Z.of_nat n → rem ≠ [] →
  ∃ cs, stack_runs loop [(cur, rem, chain, depth)] cs ∧ Forall (links (parents.sti (parent split)) chain rem) cs.
Proof using Htx Hown Hsib.
  induction n as [|n IH]; intros cur rem chain depth Hn Hne.
  { exists []. split; [|constructor]. exists 1%nat. intros fuel chains stack. cbn [app Nat.add sibling_loop snd]. replace (MAX_CHAIN_DEPTH <=? depth) with true by lia. by rewrite app_nil_r. }
  set (found := map (sibling_step to_lowercase (text tx) (meta tx) true ql split (cur, rem, chain, depth)) (siblings (as_u32 cur))).
  assert (∀ f, f ∈ found → ∃ o, fits 32 o ∧ Forall (λ c, ordinals c = chain ++ [single o] ∧ first_sti c = parents.sti (parent split) ∧ last_consumed c = #rem ∧ (tok o → rem `prefix_of` own o)) f.1 ∧
    Forall (λ st : SibState, ∃ rem', st = (o, rem', chain ++ [single o], depth + 1) ∧ rem' ≠ [] ∧ (tok o → rem = own o ++ rem')) f.2) as Hfound.
  { intros f (sib & <- & Hin%list_elem_of_In)%list_elem_of_In%in_map_iff. pose proof (sibling_step_spec cur rem chain depth sib Hne) as H.
    destruct (sibling_step to_lowercase (text tx) (meta tx) true ql split (cur, rem, chain, depth) sib) as [cs sts]. exists (sibling_table.next_ordinal sib). split; [eapply (Hsib (as_u32 cur)); [apply Z.mod_pos_bound; lia|done]|done]. }
  set (Q := λ (st : SibState) (cs : list TokenChainV3), Forall (links (parents.sti (parent split)) chain rem) cs).
  assert (Forall (λ st, ∃ cs, stack_runs loop [st] cs ∧ Q st cs) (rev (concat (map snd found)))) as Hall.
  { apply Forall_forall. intros st Hst. apply list_elem_of_In, in_rev, list_elem_of_In in Hst. apply elem_concat in Hst as (sts & Hsts & Hst).
    apply list_elem_of_In, in_map_iff in Hsts as (f & <- & Hf%list_elem_of_In). destruct (Hfound f Hf) as (o & Hof & _ & H2). rewrite Forall_forall in H2.
    destruct (H2 st Hst) as (rem' & -> & Hne' & Hrem). destruct (IH o rem' (chain ++ [single o]) (depth + 1)) as (cs & Hrun & Hcs); [lia|done|].
    exists cs. split; [done|]. eapply Forall_impl; [exact Hcs|]. intros c (os & Eo & Hos & Efs & Hfit & Hsp). exists (o :: os). split; [by rewrite Eo, <- app_assoc|]. split; [done|]. split; [done|]. split; [by constructor|].
    intros [Ht Htok]%Forall_cons. destruct (Hsp Htok) as [Hpl Hlast]. destruct os as [|o' os]; [done|]. split.
    - split; [done|]. exists rem'. split; [by apply Hrem|]. split; [|done]. split; [apply prefix_nil|]. destruct rem'; [done|]. rewrite len_nil, len_cons. pose proof (len_nonneg rem'). lia.
    - change (removelast (o :: o' :: os)) with (o :: removelast (o' :: os)). cbn [map concat]. rewrite (Hrem Ht), !len_app. lia. }
  destruct (stack_runs_all _ Q _ Hall) as (css & [k Hk] & HQ). exists (concat (map fst found) ++ concat css). split.
  - exists (S k). intros fuel chains stack. change (S k + fuel)%nat with (S (k + fuel)). cbn [app sibling_loop fst snd]. replace (MAX_CHAIN_DEPTH <=? depth) with false by lia.
    fold found. by rewrite Hk, app_assoc.
  - apply Forall_app. split.
    + apply Forall_forall. intros c Hc. apply elem_concat in Hc as (cs & Hcs & Hc). apply list_elem_of_In, in_map_iff in Hcs as (f & <- & Hf%list_elem_of_In).
      destruct (Hfound f Hf) as (o & Hof & H1 & _). rewrite Forall_forall in H1. destruct (H1 c Hc) as (Eo & Efs & El & Hp). exists [o]. split; [done|]. split; [done|]. split; [done|]. split; [by constructor|].
      intros [Ht _]%Forall_cons. split; [split; [done|]; rewrite app_nil_r; by apply Hp|]. cbn. by rewrite len_nil, El.
    + apply Forall_concat, Forall_forall. intros cs [i Hi]%list_elem_of_lookup. destruct (Forall2_lookup_r _ _ _ _ _ HQ Hi) as (st & _ & H). exact H.
Qed.
End Loop.

(** The chains of the splits start with their tokens. *)
Lemma sibling_chain_spec query splits : valid (to_lowercase query) → Forall (λ s, 0 ≤ remainder_start s) splits → ∃ n cs,
  (∀ fuel, (n ≤ fuel)%nat → sibling_chain_dfs to_lowercase siblings (text tx) (meta tx) true fuel splits query = Ret cs) ∧
  ∀ c, c ∈ cs → ∃ s, s ∈ splits ∧ first_sti c = parents.sti (parent s) ∧ ∃ os, ordinals c = single (raw_ordinal (parent s)) :: map single os ∧ Forall (fits 32) os ∧
    let rest := drop (Z.to_nat (snap_to_char_boundary (to_lowercase query) (remainder_start s))) (to_lowercase query) in (os = [] → rest = []) ∧ (os ≠ [] → Forall tok os → plain rest os ∧ #rest = #(concat (map own (removelast os))) + last_consumed c).
Proof using Htx Hown Hsib.
  intros Hv Hsplits. set (ql := to_lowercase query) in *.
  assert (∃ n cs, (∀ fuel chains, (n ≤ fuel)%nat → foldM (siblings_of_split to_lowercase siblings (text tx) (meta tx) true fuel ql) chains splits = Ret (chains ++ cs)) ∧
    ∀ c, c ∈ cs → ∃ s, s ∈ splits ∧ first_sti c = parents.sti (parent s) ∧ ∃ os, ordinals c = single (raw_ordinal (parent s)) :: map single os ∧ Forall (fits 32) os ∧
      let rest := drop (Z.to_nat (snap_to_char_boundary ql (remainder_start s))) ql in (os = [] → rest = []) ∧ (os ≠ [] → Forall tok os → plain rest os ∧ #rest = #(concat (map own (removelast os))) + last_consumed c)) as (n & cs & Hrun & Hs).
  { induction Hsplits as [|s splits Hst _ (n & cs & Hrun & Hs)].
    { exists 0%nat, []. split; [intros; cbn; by rewrite app_nil_r|]. intros c []%elem_of_nil. }
    assert (∃ n1 cs1, (∀ fuel chains, (n1 ≤ fuel)%nat → siblings_of_split to_lowercase siblings (text tx) (meta tx) true fuel ql chains s = Ret (chains ++ cs1)) ∧
      ∀ c, c ∈ cs1 → first_sti c = parents.sti (parent s) ∧ ∃ os, ordinals c = single (raw_ordinal (parent s)) :: map single os ∧ Forall (fits 32) os ∧
        let rest := drop (Z.to_nat (snap_to_char_boundary ql (remainder_start s))) ql in (os = [] → rest = []) ∧ (os ≠ [] → Forall tok os → plain rest os ∧ #rest = #(concat (map own (removelast os))) + last_consumed c)) as (n1 & cs1 & Hrun1 & Hs1).
    { unfold siblings_of_split. destruct (snap_spec ql (remainder_start s) Hst) as [Hb Hr]. set (i := snap_to_char_boundary ql (remainder_start s)) in *.
      assert (str_from ql i = Ret (drop (Z.to_nat i) ql)) as ->.
      { unfold str_from. rewrite Hb. unfold slice_from. rewrite slice_ret by lia. f_equal. apply take_ge. rewrite length_drop. unfold len. lia. }
      destruct (drop (Z.to_nat i) ql) as [|x rest] eqn:Er.
      - eexists 0%nat, [_]. split; [intros; by rewrite bind_ret|]. intros c ->%list_elem_of_singleton. split; [done|]. exists []. split; [done|]. split; [constructor|done].
      - destruct (sibling_explore ql s 8 (raw_ordinal (parent s)) (x :: rest) [single (raw_ordinal (parent s))] 0) as (cs1 & [k Hk] & Hcs1); [done..|]. exists k, cs1. split.
        + intros fuel chains Hf. rewrite bind_ret. assert (∃ m, fuel = (k + m)%nat) as [m ->] by (exists (fuel - k)%nat; lia). specialize (Hk m chains []). cbn [app] in Hk.
          etrans; [exact Hk|]. by destruct m.
        + intros c Hc. rewrite Forall_forall in Hcs1. destruct (Hcs1 c Hc) as (os & Eo & Hos & Efs & Hfit & Hsp). split; [done|]. exists os. split; [done|]. split; [done|]. split; [by intros ->|]. intros _. exact Hsp. }
    exists (n1 + n)%nat, (cs1 ++ cs). split.
    - intros fuel chains Hf. cbn [foldM]. rewrite Hrun1, bind_ret, Hrun, app_assoc by lia. done.
    - intros c [Hc|Hc]%elem_of_app.
      + destruct (Hs1 c Hc) as (H1 & H2). exists s. split; [by left|]. by split.
      + destruct (Hs c Hc) as (s' & Hin & H). exists s'. split; [by right|done]. }
  exists n, cs. split; [|done]. intros fuel Hf. unfold sibling_chain_dfs. fold ql. by rewrite Hrun.
Qed.
End Siblings.
