(* ===== verification/LiteralSearch.v ===== *)
(** * Finding a literal: properties

    Over an index of a corpus, [find_literal_v3] with strict separators returns
    places where the query occurs, and every such place that spans at most
    nine tokens, as long as no list is cut at the cap. *)
From stdpp Require Import gmap.
From S2P Require Import Prelude Ordering DocFilter SiblingTable TermTexts ParentRecord SuffixBuilder FstWalk WalkProofs Utf8 Resolve PostingSource ResolveProofs Chains FindLiteral ChainProofs Occurrences SiblingChains.
Import source composite walk chains.
Import parents.
Import resolve.
Open Scope Z_scope.

(** ** The strict resolution does not read the position map *)

Section Independent.
Context (cap : Z) (to_lowercase : list Z → list Z) (resolver : PostingResolver) (text : Z → option (list Z)) (has_content : Z → bool) (oa oa' : Z → Z → option Z).
Context {F : Type} `{!DocFilter F} (filter_docs : option F).

Lemma first_valid_any d p entries idxs : first_valid oa has_content Strict d p entries idxs = first_valid oa' has_content Strict d p entries idxs.
Proof using. induction idxs as [|i idxs IH]; [done|]. cbn. destruct (entries !! i) as [[e o]|]; [|done]. by destruct (_ =? _). Qed.

Lemma steps_any rest : ∀ active, steps to_lowercase resolver oa text has_content Strict active rest = steps to_lowercase resolver oa' text has_content Strict active rest.
Proof using.
  induction rest as [|w rest IH]; intros active; [done|]. cbn [steps]. destruct active as [|a active]; [done|]. cbn [step]. destruct (explicit w) as [ids| | |]; try done. rewrite !bind_ret, IH. f_equal.
  apply omap_ext_in. intros [[[d p] o] f] _. unfold posting_next. destruct (_ !! d); [|done]. by rewrite first_valid_any.
Qed.

Lemma resolve_lone_any chains : ∀ st, resolve_lone cap to_lowercase resolver oa text has_content filter_docs Strict st chains = resolve_lone cap to_lowercase resolver oa' text has_content filter_docs Strict st chains.
Proof using.
  induction chains as [|c chains IH]; intros st; [done|]. cbn [resolve_lone].
  assert (resolve_chain cap to_lowercase resolver oa text has_content filter_docs Strict st c = resolve_chain cap to_lowercase resolver oa' text has_content filter_docs Strict st c) as ->.
  { unfold resolve_chain. destruct st as [results memo]. destruct (ordinals c) as [|x rest]; [done|]. destruct (first_ids c); try done. rewrite !bind_ret.
    destruct (first_entries resolver filter_docs memo a) as [entries memo']. destruct rest as [|w rest]; [done|]. by rewrite steps_any. }
  destruct (resolve_chain _ _ _ _ _ _ _ _ _ _) as [[]| | |]; try done. rewrite !bind_ret. apply IH.
Qed.
End Independent.

(** ** What is assumed of the index and of the query *)

(** The files behind a context are those of the documents [docs]: the
    dictionary holds the suffixes of the tokens, the postings and the position
    map their places, the texts their texts with what follows them. *)
Record context_ok (to_lowercase : list Z → list Z) (ctx : BriquesContext) (docs : list (list Z)) (tok : Z → Prop) (own ov ext : Z → list Z) : Prop := {
  cx_reader : ∃ Es seg, reader_of (reader ctx) Es seg ∧ tokens_indexed Es seg tok own ov;
  cx_vec : vec_lengths to_lowercase (reader ctx);
  cx_corpus : corpus_ok docs tok own ov ext;
  cx_overlap : ∀ o, tok o → ov o `prefix_of` ext o;
  cx_laws : ResolverLaws (resolver ctx);
  cx_ordinals : ∀ o, tok o → fits 32 o;
  cx_positions : ∀ o d p, fits 32 o → (d, p) ∈ positions (resolver ctx) o ↔ corpus_at docs d p = Some o;
  cx_posmap : ∀ pm, posmap ctx = Some pm → ∀ d p, pm d p = corpus_at docs d p;
  cx_texts : ∀ t, texts ctx = Some t → texts_ok to_lowercase tok own ext t;
  cx_widths : ∀ o, tok o → #(own o) < 2 ^ 16;
  cx_siblings : ∀ f, sibling_v3 ctx = Some f → ∀ o e, fits 32 o → e ∈ f o → fits 32 (sibling_table.next_ordinal e);
}.

(** Lower case is what it is on ASCII; the query in lower case is a string,
    and lower case all along. *)
Record lower_ok (to_lowercase : list Z → list Z) (query : list Z) : Prop := {
  lo_ascii : ∀ s, is_ascii s = true → to_lowercase s = map ascii_lower s;
  lo_valid : valid (to_lowercase query);
  lo_suffix : ∀ a b, to_lowercase query = a ++ b → valid b → to_lowercase b = b;
}.

(** The string occurs in document [d] from byte [si] of position [p]. *)
Definition occurs (docs : list (list Z)) (own : Z → list Z) (q : list Z) (d p si : Z) : Prop :=
  ∃ o, corpus_at docs d p = Some o ∧ 0 ≤ si < #(own o) ∧ q `prefix_of` drop (Z.to_nat si) (text_from docs own d p).

Section Literal.
Context (to_lowercase : list Z → list Z) (iter : gmap (list Z) (list nat) → list (list Z * list nat)).
Context {F : Type} `{!DocFilter F} `{!DocFilterLaws F} (filter_docs : option F) (ctx : BriquesContext).
Context (docs : list (list Z)) (tok : Z → Prop) (own ov ext : Z → list Z).
Context (Hiter : ∀ g, iter g ≡ₚ map_to_list g) (Hctx : context_ok to_lowercase ctx docs tok own ov ext).
Context (Hascii : ∀ s, is_ascii s = true → to_lowercase s = map ascii_lower s).
Local Abbreviation path := (path docs).
Local Abbreviation at_ := (corpus_at docs).
Local Abbreviation keeps := (keeps filter_docs).

Lemma text_after d p o si : at_ d p = Some o → 0 ≤ si < #(own o) → drop (Z.to_nat si) (text_from docs own d p) = suffix own o si ++ text_from docs own d (p + 1).
Proof using. intros Ho Hsi. rewrite (text_from_at _ _ _ _ _ Ho). unfold suffix. rewrite drop_app_le; [done|]. unfold len in Hsi. lia. Qed.

Lemma occurs_from q d p o si rest : at_ d p = Some o → 0 ≤ si < #(own o) → q = suffix own o si ++ rest → rest `prefix_of` text_from docs own d (p + 1) → occurs docs own q d p si.
Proof using. intros Ho Hsi -> Hr. exists o. split; [done|]. split; [done|]. rewrite (text_after d p o si Ho Hsi). by apply prefix_app. Qed.

Lemma occurs_single q d p o si : at_ d p = Some o → 0 ≤ si < #(own o) → q `prefix_of` suffix own o si ++ ov o → occurs docs own q d p si.
Proof using Hctx.
  intros Ho Hsi Hq. exists o. split; [done|]. split; [done|]. rewrite (text_after d p o si Ho Hsi). etrans; [exact Hq|]. apply prefix_app.
  destruct (co_follows _ _ _ _ _ (cx_corpus _ _ _ _ _ _ _ Hctx) d p o Ho) as [H1 H2]. by etrans.
Qed.

(** ** Resolving chains *)

(** Prefix alternatives are built only with the position map and the texts. *)
Definition prefixes_allowed (pa : bool) : Prop := pa = true → is_some (posmap ctx) = true ∧ is_some (texts ctx) = true.

Lemma contains_takes pa a o d p : prefixes_allowed pa → alt_ok to_lowercase pa a → at_ d p = Some o →
  contains_alt to_lowercase (text_of ctx) (is_some (texts ctx)) a o = true ↔ takes own ext a o.
Proof using Hctx Hascii.
  intros Hpa Ha Ho. destruct a as [v|pre]; cbn; [apply bool_decide_eq_true|]. destruct Ha as [-> Hl]. destruct (Hpa eq_refl) as [_ Ht]. unfold text_of.
  destruct (texts ctx) as [t|] eqn:Et; [|done]. destruct (co_tokens _ _ _ _ _ (cx_corpus _ _ _ _ _ _ _ Hctx) d p o Ho) as [Htok Hfit].
  assert (as_u32 o = o) as -> by by apply Z.mod_small. destruct (tx_token _ _ _ _ _ (cx_texts _ _ _ _ _ _ _ Hctx t Et) o Htok) as (s & m & -> & _ & _ & _ & _ & _ & Elow & _).
  rewrite (starts_with_ci_spec to_lowercase Hascii) by done. rewrite Elow. apply bool_decide_eq_true.
Qed.

Lemma contains_takes_all pa alts os d p : prefixes_allowed pa → Forall (alt_ok to_lowercase pa) alts → path d p os →
  Forall2 (λ a o, contains_alt to_lowercase (text_of ctx) (is_some (texts ctx)) a o = true) alts os ↔ Forall2 (takes own ext) alts os.
Proof using Hctx Hascii.
  intros Hpa Halts. revert p os. induction Halts as [|a alts Ha _ IH]; intros p os Hpath.
  { split; intros H; apply Forall2_nil_inv_l in H as ->; constructor. }
  split; intros H; apply Forall2_cons_inv_l in H as (o & os' & H1 & H2 & ->); apply path_cons in Hpath as [Ho Hp]; constructor.
  - by eapply contains_takes.
  - by apply (IH (p + 1)).
  - by eapply contains_takes.
  - by apply (IH (p + 1)).
Qed.

(** A chain whose first list is not empty, with the alternatives of [pa],
    ordinals of 32 bits, and at most nine positions. *)
Definition chain_ok (pa : bool) (c : TokenChainV3) : Prop := ∃ h ids alts, ordinals c = Ids (h :: ids) :: alts ∧ Forall (alt_ok to_lowercase pa) alts ∧ Forall (fits 32) (h :: ids) ∧ (length alts ≤ 8)%nat.

(** The matches of a list of chains; all of them when [full]. *)
Definition resolved (full : Prop) (chains : list TokenChainV3) (res : list MatchV3) : Prop :=
  (∀ m, m ∈ res → ∃ c v alts d p o os, c ∈ chains ∧ ordinals c = Ids v :: alts ∧ o ∈ v ∧ at_ d p = Some o ∧ keeps d ∧ path d (p + 1) os ∧
     Forall2 (takes own ext) alts os ∧ hit_at c alts d p os m ∧ (length os ≤ 8)%nat) ∧
  (full → ∀ c v alts d p o os, c ∈ chains → ordinals c = Ids v :: alts → o ∈ v → at_ d p = Some o → keeps d → path d (p + 1) os →
     Forall2 (takes own ext) alts os → ∃ m, m ∈ res ∧ hit_at c alts d p os m).

Lemma elem_take {A} (x : A) n l : x ∈ take n l → x ∈ l.
Proof using. intros H. rewrite <- (take_drop n l). apply elem_of_app. by left. Qed.

Lemma resolved_hits cap oa pa chains l : prefixes_allowed pa → (∀ d p, oa d p = at_ d p) → Forall (chain_ok pa) chains →
  l ≡ₚ flat_map (chain_hits to_lowercase (resolver ctx) oa (text_of ctx) filter_docs (is_some (texts ctx))) chains → resolved (#l ≤ cap) chains (take (Z.to_nat cap) l).
Proof using Hctx Hascii DocFilterLaws0.
  intros Hpa Hat Hchains Hl. pose proof (cx_corpus _ _ _ _ _ _ _ Hctx) as Hco. pose proof (cx_laws _ _ _ _ _ _ _ Hctx) as Hlaws. pose proof (cx_positions _ _ _ _ _ _ _ Hctx) as Hpos.
  rewrite Forall_forall in Hchains. split.
  - intros m Hm%elem_take. rewrite Hl in Hm. apply list_elem_of_In, in_flat_map in Hm as (c & Hc%list_elem_of_In & Hm%list_elem_of_In). destruct (Hchains c Hc) as (h & ids & alts & Eo & Halts & Hn & Hlen).
    destruct (hits_sound docs tok own ov ext Hco to_lowercase (resolver ctx) oa (text_of ctx) (is_some (texts ctx)) filter_docs Hpos Hat c h ids alts m Eo Hn Hm) as (d & p & o & os & Ho & Hat' & Hk & Hpath & Hall & Hhit).
    exists c, (h :: ids), alts, d, p, o, os. assert (Forall2 (takes own ext) alts os) as Hta by by eapply (contains_takes_all pa alts os d (p + 1)). pose proof (Forall2_length _ _ _ Hta). split_and!; try done. lia.
  - intros Hlen c v alts d p o os Hc Eo Ho Hat' Hk Hpath Hall. rewrite take_ge by (unfold len in Hlen; lia). destruct (Hchains c Hc) as (h & ids & alts' & Eo' & Halts & Hn & _). rewrite Eo in Eo'. injection Eo' as -> <-.
    destruct (hits_complete docs tok own ov ext Hco to_lowercase (resolver ctx) oa (text_of ctx) (is_some (texts ctx)) filter_docs Hpos Hat c h ids alts d p o os Eo Hn Ho Hat' Hk Hpath) as (m & Hm & Hhit).
    { by eapply (contains_takes_all pa alts os d (p + 1)). }
    exists m. split; [|done]. rewrite Hl. apply list_elem_of_In, in_flat_map. exists c. split; by apply list_elem_of_In.
Qed.

Lemma posmap_resolved pa chains pm : posmap ctx = Some pm → prefixes_allowed pa → Forall (chain_ok pa) chains →
  ∃ K, ∀ cap, 0 ≤ cap → ∃ res, resolve_posmap cap to_lowercase iter filter_docs ctx chains (is_some (texts ctx)) = Ret res ∧ resolved (K ≤ cap) chains res.
Proof using Hctx Hascii Hiter DocFilterLaws0.
  intros Epm Hpa Hchains. pose proof (cx_posmap _ _ _ _ _ _ _ Hctx pm Epm) as Hat. pose proof (cx_laws _ _ _ _ _ _ _ Hctx) as Hlaws. unfold resolve_posmap.
  assert (ordinal_at ctx = pm) as -> by (unfold ordinal_at; by rewrite Epm).
  exists #(flat_map (chain_hits to_lowercase (resolver ctx) pm (text_of ctx) filter_docs (is_some (texts ctx))) chains). intros cap Hcap.
  destruct (resolve_posmap_spec cap to_lowercase iter (resolver ctx) pm (text_of ctx) (λ _, true) filter_docs) with (with_texts := is_some (texts ctx)) (chains := chains) as (l & El & Hl).
  - intros d p o Ho. rewrite Hat. symmetry. by apply (cx_positions _ _ _ _ _ _ _ Hctx).
  - intros d p o. rewrite Hat. intros Ho. by apply (co_tokens _ _ _ _ _ (cx_corpus _ _ _ _ _ _ _ Hctx) d p o Ho).
  - done.
  - done.
  - eapply Forall_impl; [exact Hchains|]. intros c (h & ids & alts & Eo & _). by exists h, ids, alts.
  - eexists. split; [exact El|]. assert (#l = #(flat_map (chain_hits to_lowercase (resolver ctx) pm (text_of ctx) filter_docs (is_some (texts ctx))) chains)) as <- by (unfold len; by rewrite Hl).
    by eapply resolved_hits.
Qed.

Lemma cross_resolved pa chains : prefixes_allowed pa → Forall (chain_ok pa) chains →
  ∃ K, ∀ cap, 0 ≤ cap → ∃ res, (if is_some (posmap ctx) then resolve_posmap cap to_lowercase iter filter_docs ctx chains (is_some (texts ctx)) else resolve_postings cap to_lowercase iter filter_docs ctx chains) = Ret res ∧
    resolved (K ≤ cap) chains res.
Proof using Hctx Hascii Hiter DocFilterLaws0.
  intros Hpa Hchains. destruct (posmap ctx) as [pm|] eqn:Epm; cbn [is_some]; [by apply (posmap_resolved pa chains pm)|].
  pose proof (cx_laws _ _ _ _ _ _ _ Hctx) as Hlaws. unfold resolve_postings, resolve_chains_v3, resolve_chains_impl.
  assert (Forall (steps_ok Strict (is_some (texts ctx))) chains) as Hsteps.
  { eapply Forall_impl; [exact Hchains|]. intros c (h & ids & alts & Eo & Halts & _). split; [by exists h, ids, alts|]. rewrite Eo. intros w Hw. rewrite Forall_forall in Halts. specialize (Halts w Hw).
    destruct w as [v|pre]; [by eexists|]. destruct Halts as [-> _]. destruct (Hpa eq_refl) as [H _]. by rewrite Epm in H. }
  exists #(flat_map (chain_hits to_lowercase (resolver ctx) at_ (text_of ctx) filter_docs (is_some (texts ctx))) chains). intros cap Hcap. rewrite (resolve_lone_any _ _ _ _ _ _ at_).
  rewrite (resolve_lone_spec cap to_lowercase (resolver ctx) at_ (text_of ctx) (λ _, true) filter_docs) with (with_texts := is_some (texts ctx)).
  - rewrite capped_take by done. eexists. split; [done|]. by apply (resolved_hits cap at_ pa).
  - intros d p o Ho. symmetry. by apply (cx_positions _ _ _ _ _ _ _ Hctx).
  - intros d p o Ho. by apply (co_tokens _ _ _ _ _ (cx_corpus _ _ _ _ _ _ _ Hctx) d p o Ho).
  - done.
  - done.
  - by rewrite len_nil.
  - intros ? ?. by rewrite lookup_empty.
Qed.
End Literal.

(** ** Finding a literal: the search

    What each step of [find_literal_v3] with strict separators contributes:
    the tokens that hold the query, the chains from long heads, the chains of
    the sibling table, and the short heads found from their second token. *)
Import source composite walk chains.
Import parents.
Import resolve.
Open Scope Z_scope.

Lemma lower_ok_rest to_lowercase query head rest : lower_ok to_lowercase query → to_lowercase query = head ++ rest → valid rest →
  to_lowercase rest = rest ∧ lower_ok to_lowercase rest.
Proof.
  intros [Ha Hv Hs] E Hr. pose proof (Hs head rest E Hr) as El. split; [done|]. split; [done|by rewrite El|].
  intros a b Eab. rewrite El in Eab. apply (Hs (head ++ a)). by rewrite E, Eab, app_assoc.
Qed.

Section Search.
Context (to_lowercase : list Z → list Z) (iter : gmap (list Z) (list nat) → list (list Z * list nat)).
Context {F : Type} `{!DocFilter F} `{!DocFilterLaws F} (filter_docs : option F) (ctx : BriquesContext).
Context (docs : list (list Z)) (tok : Z → Prop) (own ov ext : Z → list Z).
Context (Hiter : ∀ g, iter g ≡ₚ map_to_list g) (Hctx : context_ok to_lowercase ctx docs tok own ov ext).
Local Abbreviation path := (path docs).
Local Abbreviation at_ := (corpus_at docs).
Local Abbreviation keeps := (keeps filter_docs).
Local Abbreviation occurs := (occurs docs own).
Local Abbreviation suffix := (suffix own).
Local Abbreviation resolved := (resolved filter_docs docs own ext).

(** ** Where a match ends *)

(** The bytes from the start of the first token to the end of the match: the
    tokens before the last one, and what it takes of the last one, which is
    within its text and what the texts hold behind it. *)
Definition ends_at (q : list Z) (m : MatchV3) : Prop :=
  let before := Z.to_nat (last_start_pos m - position m) in
  position m ≤ last_start_pos m ∧
  first_off m + #q = #(concat (map own (take before (drop (Z.to_nat (position m)) (doc_tokens docs (doc_id m)))))) + m_last_consumed m ∧
  ∃ l, at_ (doc_id m) (last_start_pos m) = Some l ∧ m_last_consumed m ≤ #(own l) + #(ext l).

Lemma path_take d p os : path d p os → take (length os) (drop (Z.to_nat p) (doc_tokens docs d)) = os.
Proof using. intros [_ [x ->]]. by rewrite take_app_length. Qed.

Lemma path_front d p os o : path d p (os ++ [o]) → path d p os.
Proof using. intros [Hp Hx]. split; [done|]. etrans; [|exact Hx]. by apply prefix_app_r. Qed.

Lemma suffix_len o si : 0 ≤ si < #(own o) → #(suffix o si) = #(own o) - si.
Proof using. intros Hsi. unfold ChainProofs.suffix. rewrite len_drop. lia. Qed.

(** What the placing of a match in bytes relies on. *)
Definition placeable (m : MatchV3) : Prop :=
  tok (last_ordinal m) ∧ last_off m = 0 ∧ span m = last_start_pos m - position m + 1 ∧ position m ≤ last_start_pos m < #(doc_tokens docs (doc_id m)).

Lemma hit_placeable c v alts d p o os m : ordinals c = Ids v :: alts → Forall tok v → o ∈ v → at_ d p = Some o → path d (p + 1) os → hit_at c alts d p os m → placeable m.
Proof using Hctx.
  intros Ev Hv Ho Hat Hpath (Ed & Ep & _ & Elast & Eoff & _ & Esp & Eord). pose proof (path_bound _ _ _ _ Hpath). apply corpus_at_range in Hat as [Hp _]. pose proof (len_nonneg os).
  unfold placeable. rewrite Eord, Ev, Eoff, Esp, Elast, Ep, Ed. split; [|split; [done|split; lia]].
  destruct (last os) as [o'|] eqn:El; cbn.
  - pose proof (path_tokens _ _ _ _ _ (cx_corpus _ _ _ _ _ _ _ Hctx) _ _ _ Hpath) as Htok. rewrite Forall_forall in Htok. apply Htok. by apply last_Some_elem_of.
  - destruct v as [|h v]; [by apply elem_of_nil in Ho|]. by apply Forall_cons in Hv as [? _].
Qed.

(** A match within one token. *)
Lemma ends_single q m o : at_ (doc_id m) (position m) = Some o → last_start_pos m = position m → m_last_consumed m = first_off m + #q →
  first_off m + #q ≤ #(own o) + #(ext o) → ends_at q m.
Proof using.
  intros Ho El Ec Hle. unfold ends_at. rewrite El, Ec, Z.sub_diag, Z2Nat.inj_0. split; [lia|]. rewrite take_0. cbn [map concat]. rewrite len_nil. split; [lia|]. by exists o.
Qed.

Lemma spelled_front e o1 os : ∀ rem, spelled tok own ov e rem (os ++ [o1]) → #(concat (map own os)) ≤ #rem.
Proof using.
  induction os as [|o os IH]; intros rem H; [apply len_nonneg|]. cbn in *. destruct H as [_ H]. destruct (os ++ [o1]) as [|o2 os'] eqn:E; [by destruct os|].
  destruct H as (rest & -> & _ & H). rewrite !len_app. specialize (IH rest H). lia.
Qed.

Lemma spelled_last e o1 os : ∀ rem, spelled tok own ov e rem (os ++ [o1]) → #rem ≤ #(concat (map own os)) + #(own o1) + #(e o1).
Proof using.
  induction os as [|o os IH]; intros rem H; cbn in *; destruct H as [_ H].
  { apply prefix_length in H. rewrite length_app in H. unfold len. cbn. lia. }
  destruct (os ++ [o1]) as [|o2 os'] eqn:E; [by destruct os|]. destruct H as (rest & -> & _ & H). rewrite !len_app. specialize (IH rest H). lia.
Qed.

Lemma path_last d p os o : path d p (os ++ [o]) → at_ d (p + #os) = Some o.
Proof using.
  revert p. induction os as [|o' os IH]; intros p H; apply path_cons in H as [Ho H]; [by rewrite len_nil, Z.add_0_r|]. rewrite len_cons. replace (p + (1 + #os)) with (p + 1 + #os) by lia. by apply IH.
Qed.

(** A match of a chain that continues a split. *)
Lemma chain_match pa q s o si rest c alts d p o' os m v : #q < 2 ^ 31 →
  split_is tok own ov q s o si rest → continues to_lowercase tok own ov ext pa si [Ids [o]] rest c → ordinals c = Ids v :: alts → o' ∈ v →
  at_ d p = Some o' → path d (p + 1) os → Forall2 (takes own ext) alts os → hit_at c alts d p os m →
  occurs q (doc_id m) (position m) (first_off m) ∧ ends_at q m ∧ placeable m.
Proof using Hctx.
  intros Hsize (Hs & Eq & Hpast & _) (alts' & Eo & Hane & Efs & _ & Hsp) Ev Ho' Hat Hpath Hta Hhit. pose proof Hhit as (Ed & Ep & Eoff & Elast & _ & Ec & _).
  assert (placeable m) as Hpl by (eapply hit_placeable; [exact Ev| |exact Ho'|exact Hat|exact Hpath|exact Hhit]; rewrite Eo in Ev; injection Ev as <- _; constructor; [apply Hs|constructor]).
  rewrite Eo in Ev. injection Ev as <- <-. apply list_elem_of_singleton in Ho' as ->. pose proof (cx_corpus _ _ _ _ _ _ _ Hctx) as Hco.
  destruct (Hsp os (path_tokens _ _ _ _ _ Hco _ _ _ Hpath) Hta) as [Hspell Hlen]. destruct Hs as (Ht & Hsi & Hb). rewrite Ed, Ep, Eoff, Efs. split; [|split; [|done]].
  - apply (occurs_from docs own q d p o si rest Hat Hsi Eq). by eapply spelled_text.
  - destruct alts' as [|a alts']; [done|]. destruct os as [|o1 os] using rev_ind; [by apply Forall2_nil_inv_r in Hta|]. clear IHos. rewrite removelast_last in Hlen.
    assert (path d p (o :: os)) as Hp1 by (apply path_cons; split; [done|by eapply path_front]). unfold ends_at. rewrite Ed, Ep, Eoff, Efs, Elast, len_app, len_cons, len_nil, Ec.
    pose proof (len_nonneg os). split; [lia|]. replace (Z.to_nat (p + (#os + (1 + 0)) - p)) with (length (o :: os)) by (unfold len; cbn; lia). rewrite (path_take _ _ _ Hp1). cbn [map concat]. rewrite len_app.
    assert (0 ≤ last_consumed c < 2 ^ 32).
    { pose proof (spelled_front _ _ _ _ Hspell). rewrite Eq, len_app in Hsize. pose proof (len_nonneg (suffix o si)). pose proof (len_nonneg (concat (map own os))). lia. }
    assert (as_u32 (last_consumed c) = last_consumed c) as -> by by apply Z.mod_small.
    rewrite Eq, len_app, suffix_len, Hlen by done. split; [lia|]. exists o1. split; [replace (p + (#os + (1 + 0))) with (p + 1 + #os) by lia; by apply path_last|].
    pose proof (spelled_last _ _ _ _ Hspell). lia.
Qed.

(** ** Within one token *)

(** The query ends within the first token of the match and what the texts hold
    behind it. *)
Definition in_first (q : list Z) (m : MatchV3) : Prop := ∃ o, at_ (doc_id m) (position m) = Some o ∧ first_off m + #q ≤ #(own o) + #(ext o).

(** A list of matches that is right, each with the end of the occurrence when
    [ends], and complete for [P] when [full], with that end when [exact]. *)
Definition found (q : list Z) (ends exact full : Prop) (P : Z → Z → Z → Prop) (res : list MatchV3) : Prop :=
  (∀ m, m ∈ res → occurs q (doc_id m) (position m) (first_off m) ∧ keeps (doc_id m) ∧ placeable m ∧ (ends_at q m ∨ in_first q m) ∧ (ends → ends_at q m) ∧ span m ≤ 10) ∧
  (full → ∀ d p si, P d p si → keeps d → ∃ m, m ∈ res ∧ doc_id m = d ∧ position m = p ∧ first_off m = si ∧ (exact → ends_at q m)).

Lemma found_app q ends exact full1 full2 P1 P2 r1 r2 : found q ends exact full1 P1 r1 → found q ends exact full2 P2 r2 → found q ends exact (full1 ∧ full2) (λ d p si, P1 d p si ∨ P2 d p si) (r1 ++ r2).
Proof using.
  intros [S1 C1] [S2 C2]. split.
  - intros m [Hm|Hm]%elem_of_app; [by apply S1|by apply S2].
  - intros [H1 H2] d p si [HP|HP] Hk; [destruct (C1 H1 d p si HP Hk) as (m & Hm & ?)|destruct (C2 H2 d p si HP Hk) as (m & Hm & ?)]; exists m; (split; [|done]); apply elem_of_app; [by left|by right].
Qed.

Lemma found_mono q (ends exact full ends' exact' full' : Prop) (P P' : Z → Z → Z → Prop) res : found q ends exact full P res → (ends' → ends) → (exact' → exact) → (full' → full) → (∀ d p si, P' d p si → P d p si) →
  found q ends' exact' full' P' res.
Proof using.
  intros [S C] He Hx Hf HP. split; [intros m Hm; destruct (S m Hm) as (? & ? & ? & ? & ? & ?); split_and!; auto|]. intros Hf' d p si HP' Hk.
  destruct (C (Hf Hf') d p si (HP _ _ _ HP') Hk) as (m & ? & ? & ? & ? & ?). exists m. split_and!; auto.
Qed.

(** The query is held by the token at a place, with the overlap behind it. *)
Definition held (q : list Z) (d p si : Z) : Prop := ∃ o, at_ d p = Some o ∧ suffix_at tok own o si ∧ q `prefix_of` suffix o si ++ ov o.

Lemma held_bound q o si : tok o → 0 ≤ si < #(own o) → q `prefix_of` suffix o si ++ ov o → si + #q ≤ #(own o) + #(ext o).
Proof using Hctx.
  intros Ht Hsi Hpre%prefix_length. pose proof (prefix_length _ _ (cx_overlap _ _ _ _ _ _ _ Hctx _ Ht)). rewrite length_app in Hpre. pose proof (suffix_len _ _ Hsi). unfold len in *. lia.
Qed.

Lemma singles_found query : lower_ok to_lowercase query → #query < 2 ^ 31 → let ql := to_lowercase query in
  ∃ l K, fst_candidates_v3 to_lowercase (reader ctx) query false true = Ret l ∧
    (∀ c, c ∈ l → suffix_at tok own (c_raw_ordinal c) (c_sti c) ∧ ql `prefix_of` suffix (c_raw_ordinal c) (c_sti c) ++ ov (c_raw_ordinal c)) ∧
    ∀ cap, 0 ≤ cap → found ql (#query = #ql) (#query = #ql) (K ≤ cap) (held ql)
      (resolve_single_v3 cap (resolver ctx) filter_docs (map (λ c, (c_partition c, c_raw_ordinal c, c_sti c)) l) (as_u32 #query)).
Proof using Hctx DocFilterLaws0.
  intros [Ha Hv Hsuf] Hsize ql. destruct (cx_reader _ _ _ _ _ _ _ Hctx) as (Es & seg & Hr & Hti). pose proof (cx_laws _ _ _ _ _ _ _ Hctx) as Hlaws.
  pose proof (cx_positions _ _ _ _ _ _ _ Hctx) as Hpos.
  destruct (token_candidates to_lowercase (reader ctx) Es seg Hr (cx_vec _ _ _ _ _ _ _ Hctx) tok own ov Hti query false Hv) as (l & El & Hs & Hc).
  set (ms := flat_map (single_matches (resolver ctx) filter_docs (as_u32 #query)) (map (λ c, (c_partition c, c_raw_ordinal c, c_sti c)) l)).
  exists l, #ms. split; [done|]. split; [by intros c (H1 & H2 & _)%Hs|]. intros cap Hcap.
  unfold resolve_single_v3. fold ms. rewrite push_all_capped by by rewrite len_nil. rewrite capped_take by done.
  assert (∀ d p o si, at_ d p = Some o → suffix_at tok own o si → ql `prefix_of` suffix o si ++ ov o → #query = #ql → ends_at ql (unplaced d p 1 si o o si p 0 (add32 si (as_u32 #query)))) as Hends.
  { intros d p o si Hat (Htok & Hsti & _) Hpre Elen. pose proof (cx_widths _ _ _ _ _ _ _ Hctx _ Htok). eapply ends_single; [exact Hat|done| |]; cbn.
    - rewrite <- Elen. pose proof (len_nonneg query). unfold add32, as_u32. rewrite (Z.mod_small #query), Z.mod_small by lia. done.
    - by apply held_bound. }
  split.
  - intros m Hm%elem_take. apply list_elem_of_In, in_flat_map in Hm as (t & Ht & Hm). apply in_map_iff in Ht as (c & <- & Hin%list_elem_of_In).
    destruct (Hs c Hin) as ((Htok & Hsti & Hb) & Hpre & Hpar & _). cbn in Hm. destruct (Z.eqb_spec (c_partition c) 2); [done|].
    apply in_map_iff in Hm as ([d p] & <- & He%list_elem_of_In). apply (elem_resolve_ordinal docs (resolver ctx) filter_docs Hpos) in He as [Hat Hk]; [|by apply (cx_ordinals _ _ _ _ _ _ _ Hctx)]. cbn [fst snd] in *.
    pose proof (corpus_at_range _ _ _ _ Hat) as [Hp _]. split; [|split; [|split; [|split; [|split]]]].
    + cbn. by eapply occurs_single.
    + done.
    + unfold placeable. cbn. split; [done|]. split; [done|]. split; lia.
    + right. exists (c_raw_ordinal c). split; [done|]. cbn. by apply held_bound.
    + by apply Hends.
    + cbn. lia.
  - intros Hfull d p si (o & Hat & Hsa & Hpre) Hk. rewrite take_ge by (unfold len in Hfull; lia).
    destruct (Hc o si Hsa Hpre) as (c & Hin & <- & <-); [done|]. destruct (Hs c Hin) as (_ & _ & Hpar & _).
    eexists (unplaced d p 1 (c_sti c) (c_raw_ordinal c) (c_raw_ordinal c) (c_sti c) p 0 _). split; [|split; [done|]; split; [done|]; split; [done|]; by apply Hends].
    apply list_elem_of_In, in_flat_map. exists (c_partition c, c_raw_ordinal c, c_sti c). split; [by apply in_map_iff; exists c; split; [|apply list_elem_of_In]|].
    cbn. destruct (Z.eqb_spec (c_partition c) 2) as [E|]; [done|]. apply in_map_iff. exists (d, p). split; [done|]. apply list_elem_of_In. apply (elem_resolve_ordinal docs (resolver ctx) filter_docs Hpos); [|done]. apply (cx_ordinals _ _ _ _ _ _ _ Hctx), Hsa.
Qed.

(** ** Through the dictionary *)

Lemma walked_chains pa query f : lower_ok to_lowercase query → let ql := to_lowercase query in
  ∃ splits n cs, falling_walk_chunks to_lowercase (reader ctx) query = Ret splits ∧
    (∀ s, s ∈ splits → ∃ o si rest, split_is tok own ov ql s o si rest) ∧
    (∀ fuel, (n ≤ fuel)%nat → cross_chunk_chain_from_splits to_lowercase (reader ctx) fuel (List.filter f splits) query pa = Ret cs) ∧
    Forall (chain_ok to_lowercase pa) cs ∧
    (∀ c, c ∈ cs → ∃ s o si rest, f s = true ∧ split_is tok own ov ql s o si rest ∧ continues to_lowercase tok own ov ext pa si [Ids [o]] rest c) ∧
    (∀ o si rest os, suffix_at tok own o si → ql = suffix o si ++ rest → runs_past (ov o) rest → (∀ s, split_is tok own ov ql s o si rest → f s = true) →
       spelled tok own ov ov rest os → (length os ≤ 8)%nat → ∃ c alts, c ∈ cs ∧ first_sti c = si ∧ ordinals c = Ids [o] :: alts ∧ Forall2 (takes own ext) alts os).
Proof using Hctx.
  intros Hl ql. destruct (cx_reader _ _ _ _ _ _ _ Hctx) as (Es & seg & Hr & Hti). pose proof (cx_vec _ _ _ _ _ _ _ Hctx) as Hvec. pose proof (cx_overlap _ _ _ _ _ _ _ Hctx) as Hext.
  destruct (token_splits to_lowercase (reader ctx) Es seg Hr Hvec tok own ov Hti query) as (splits & Ew & Hs & Hc).
  assert (Forall (λ s, ∃ o si rest, split_is tok own ov ql s o si rest) (List.filter f splits)) as Hf by (apply Forall_forall; intros s [Hin _]%list_elem_of_In%filter_In; apply Hs; by apply list_elem_of_In).
  destruct (chains_built to_lowercase (reader ctx) Es seg Hr Hvec tok own ov Hti ext Hext (cx_ordinals _ _ _ _ _ _ _ Hctx) pa query (lo_valid _ _ Hl) (lo_suffix _ _ Hl) _ Hf) as (n & cs & Hrun & Hsound & Hcomp).
  assert (∀ c, c ∈ cs → ∃ s o si rest, f s = true ∧ split_is tok own ov ql s o si rest ∧ continues to_lowercase tok own ov ext pa si [Ids [o]] rest c) as Hsound'.
  { intros c (s & o & si & rest & [_ Hfs]%list_elem_of_In%filter_In & ?)%Hsound. by exists s, o, si, rest. }
  exists splits, n, cs. split; [done|]. split; [done|]. split; [done|]. split; [|split; [done|]].
  - pose proof (built_short _ _ _ _ _ _ _ _ _ _ (Hrun n (le_n n))) as Hshort. rewrite Forall_forall in Hshort. apply Forall_forall. intros c Hin. specialize (Hshort c Hin). unfold short_chain in Hshort.
    destruct (Hsound' c Hin) as (s & o & si & rest & _ & ((Ht & _) & _) & alts & Eo & _ & _ & Hok & _). exists o, [], alts. split; [done|]. split; [done|]. rewrite Eo in Hshort. cbn in Hshort. split; [|lia]. constructor; [by apply (cx_ordinals _ _ _ _ _ _ _ Hctx)|constructor].
  - intros o si rest os Hsa Eq Hpast Hfs Hsp Hlen. destruct (Hc o si rest Hsa Eq Hpast) as (s & Hin & Hsplit).
    apply (Hcomp s o si rest os); [|done..]. apply list_elem_of_In, filter_In. split; [by apply list_elem_of_In|by apply Hfs].
Qed.

Lemma long_heads_filter half splits : long_heads half splits = List.filter (λ s, negb (0 <? half) || (half <? query_consumed s)) splits.
Proof using. unfold long_heads. destruct (0 <? half); [done|]. cbn. by rewrite List.filter_true. Qed.

(** ** Through the siblings *)

Lemma corpus_plain : corpus_ok docs tok own (λ _, []) (λ _, []).
Proof using Hctx. destruct (cx_corpus _ _ _ _ _ _ _ Hctx) as [H1 H2 _]. split; [done|done|]. intros. split; apply prefix_nil. Qed.

Lemma takes_singles os' os : Forall2 (takes own ext) (map single os') os → os = os'.
Proof using.
  revert os. induction os' as [|o os' IH]; intros os H; cbn in H; [by apply Forall2_nil_inv_l in H|]. apply Forall2_cons_inv_l in H as (x & l & Hx & Hl & ->).
  cbn in Hx. apply list_elem_of_singleton in Hx as ->. by rewrite (IH l Hl).
Qed.

Lemma splits_from_spec q_len cands s : s ∈ splits_from_fst_candidates cands q_len →
  ∃ c, c ∈ cands ∧ raw_ordinal (parent s) = c_raw_ordinal c ∧ parents.sti (parent s) = c_sti c ∧ 0 ≤ remainder_start s.
Proof using.
  intros (c & Hc & E)%list_elem_of_omap. exists c. split; [done|]. unfold split_of_candidate in E. destruct (_ || _); [done|]. injection E as <-. cbn. split; [done|]. split; [done|].
  unfold saturating_sub. lia.
Qed.

Lemma plain_front rem os o : spelled tok own (λ _, []) (λ _, []) rem (os ++ [o]) → #(concat (map own os)) ≤ #rem.
Proof using.
  revert rem. induction os as [|o' os IH]; intros rem H; [apply len_nonneg|]. cbn in *. destruct H as [_ H]. destruct (os ++ [o]) as [|o2 os'] eqn:E; [by destruct os|].
  destruct H as (rest & -> & _ & H). rewrite !len_app. specialize (IH rest H). lia.
Qed.

Lemma plain_last rem os o : spelled tok own (λ _, []) (λ _, []) rem (os ++ [o]) → #rem ≤ #(concat (map own os)) + #(own o).
Proof using.
  revert rem. induction os as [|o' os IH]; intros rem H; cbn in *; destruct H as [_ H].
  { rewrite app_nil_r in H. apply prefix_length in H. unfold len. cbn. lia. }
  destruct (os ++ [o]) as [|o2 os'] eqn:E; [by destruct os|]. destruct H as (rest & -> & _ & H). rewrite !len_app. specialize (IH rest H). lia.
Qed.

Lemma linked_chains query half candidates : lower_ok to_lowercase query → let ql := to_lowercase query in
  (∀ c, c ∈ candidates → suffix_at tok own (c_raw_ordinal c) (c_sti c) ∧ ql `prefix_of` suffix (c_raw_ordinal c) (c_sti c) ++ ov (c_raw_ordinal c)) →
  ∃ n cs, (∀ fuel, (n ≤ fuel)%nat → sibling_chains to_lowercase fuel ctx query half candidates = Ret cs) ∧ (sibling_v3 ctx = None → cs = []) ∧ Forall (chain_ok to_lowercase false) cs ∧
    ∀ c v alts d p o os, c ∈ cs → ordinals c = Ids v :: alts → o ∈ v → at_ d p = Some o → path d (p + 1) os → Forall2 (takes own ext) alts os →
      occurs ql d p (first_sti c) ∧ v = [o] ∧ (first_sti c + #ql ≤ #(own o) + #(ext o) ∨ os ≠ [] ∧ first_sti c + #ql = #(own o) + #(concat (map own (removelast os))) + last_consumed c ∧ last_consumed c ≤ #(own (default 0 (last os))) ∧ 0 ≤ last_consumed c).
Proof using Hctx.
  intros Hl ql Hcands. unfold sibling_chains. destruct (sibling_v3 ctx) as [siblings|] eqn:Esib; [|exists 0%nat, []; split; [done|]; split; [done|]; split; [constructor|]; by intros c ? ? ? ? ? ? []%elem_of_nil].
  destruct (texts ctx) as [tr|] eqn:Etr; [|exists 0%nat, []; split; [done|]; split; [done|]; split; [constructor|]; by intros c ? ? ? ? ? ? []%elem_of_nil].
  destruct (cx_reader _ _ _ _ _ _ _ Hctx) as (Es & seg & Hr & Hti). pose proof (cx_texts _ _ _ _ _ _ _ Hctx tr Etr) as Htx.
  destruct (walked_chains false query (λ _, true) Hl) as (splits & _ & _ & Ew & Hs & _). rewrite Ew.
  set (extra := List.filter _ (splits_from_fst_candidates _ _)).
  assert (∀ s, s ∈ long_heads half splits ++ long_heads half extra → 0 ≤ remainder_start s ∧ ((∃ o si rest, split_is tok own ov ql s o si rest) ∨
    suffix_at tok own (raw_ordinal (parent s)) (parents.sti (parent s)) ∧ ql `prefix_of` suffix (raw_ordinal (parent s)) (parents.sti (parent s)) ++ ov (raw_ordinal (parent s)))) as Hall.
  { intros s. rewrite !long_heads_filter. intros [[Hin _]%list_elem_of_In%filter_In|[Hin _]%list_elem_of_In%filter_In]%elem_of_app; apply list_elem_of_In in Hin.
    - destruct (Hs s Hin) as (o & si & rest & H). split; [|left; by exists o, si, rest]. destruct H as (_ & _ & _ & _ & _ & _ & ->). apply len_nonneg.
    - apply list_elem_of_In, filter_In in Hin as [Hin%list_elem_of_In _]. destruct (splits_from_spec _ _ _ Hin) as (c & Hc & -> & -> & H0). split; [done|]. right.
      apply list_elem_of_In, filter_In in Hc as [Hc%list_elem_of_In _]. by apply Hcands. }
  destruct (sibling_chain_spec to_lowercase tok own ext tr Htx (ti_valid _ _ _ _ _ Hti) siblings (cx_siblings _ _ _ _ _ _ _ Hctx siblings Esib) query (long_heads half splits ++ long_heads half extra) (lo_valid _ _ Hl)) as (n & cs & Hrun & Hcs).
  { apply Forall_forall. intros s Hin. by apply Hall. }
  exists n, cs. split; [intros fuel Hf; by rewrite bind_ret, Hrun|]. split; [done|]. split.
  { pose proof (siblings_short _ _ _ _ _ _ _ _ _ (Hrun n (le_n n))) as Hshort. rewrite Forall_forall in Hshort. apply Forall_forall. intros c Hc. specialize (Hshort c Hc). unfold short_chain in Hshort.
    destruct (Hcs c Hc) as (s & Hin & _ & os & Eo & Hfit & _). rewrite Eo in Hshort. cbn in Hshort. exists (raw_ordinal (parent s)), [], (map single os). split; [done|]. split; [|split; [|lia]].
    - apply Forall_map. eapply Forall_impl; [exact Hfit|]. intros o Ho. by constructor.
    - constructor; [|constructor]. apply (cx_ordinals _ _ _ _ _ _ _ Hctx). destruct (Hall s Hin) as (_ & [(o & si & rest & (Ht & _) & _ & _ & -> & _)|[[Ht _] _]]); done. }
  intros c v alts d p o os Hc Ev Ho Hat Hpath Hta. destruct (Hcs c Hc) as (s & Hin & -> & os' & Eo & _ & H0 & H1). rewrite Eo in Ev. injection Ev as <- <-.
  apply takes_singles in Hta as <-. apply list_elem_of_singleton in Ho as ->. pose proof (path_tokens _ _ _ _ _ corpus_plain _ _ _ Hpath) as Htoks. destruct (Hall s Hin) as (_ & [(o & si & rest & Hsplit)|[Hsa Hpre]]).
  - destruct (split_rest Es seg tok own ov Hti ql s o si rest (lo_valid _ _ Hl) Hsplit) as [Hvr Hne]. destruct Hsplit as (Hsa & Eq & Hpast & Eraw & Esti & _ & Est).
    fold ql in H0, H1. rewrite Est in H0, H1.
    assert (snap_to_char_boundary ql #(suffix o si) = #(suffix o si)) as Esnap by (rewrite Eq; apply snap_boundary; [rewrite len_app; pose proof (len_nonneg rest); pose proof (len_nonneg (suffix o si)); lia|by apply boundary_after]).
    rewrite Esnap, len_to_nat in H0, H1. rewrite Eq, drop_app_length in H0, H1. rewrite Eraw in Hat. rewrite Esti, Eraw. assert (os ≠ []) as Hos by (by intros ->; apply Hne, H0). destruct (H1 Hos Htoks) as [Hpl Hlast].
    split; [eapply occurs_from; [exact Hat|apply Hsa|exact Eq|]; by eapply (spelled_text docs tok own _ _ corpus_plain)|]. split; [done|]. right. destruct Hsa as (_ & Hsi & _). split; [done|].
    destruct os as [|o1 os] using rev_ind; [done|]. clear IHos. rewrite removelast_last, last_snoc in *. pose proof (plain_front _ _ _ Hpl). pose proof (plain_last _ _ _ Hpl). change (default 0 (Some o1)) with o1. rewrite Eq, len_app, suffix_len by done. lia.
  - split; [eapply occurs_single; [done|done|apply Hsa|done]|]. split; [done|]. left. destruct Hsa as (Ht & Hsi & _). by apply held_bound.
Qed.

(** ** The chains from the head on *)

(** The query runs past the token at a place, through at most eight others. *)
Definition run_through (q : list Z) (d p si : Z) (o : Z) (rest os : list Z) : Prop :=
  at_ d p = Some o ∧ suffix_at tok own o si ∧ q = suffix o si ++ rest ∧ runs_past (ov o) rest ∧ path d (p + 1) os ∧ spelled tok own ov ov rest os ∧ (length os ≤ 8)%nat.
Definition long_run (half : Z) (q : list Z) (d p si : Z) : Prop := ∃ o rest os, run_through q d p si o rest os ∧ (0 < half → half < #(suffix o si)).

Lemma chain_ok_false pa c : chain_ok to_lowercase false c → chain_ok to_lowercase pa c.
Proof using. intros (h & ids & alts & Eo & H & Hf & Hl). exists h, ids, alts. split; [done|]. split; [|done]. eapply Forall_impl; [exact H|]. by intros [v|pre]; [|intros []]. Qed.

(** Where a match of the sibling table ends. *)
Lemma linked_end q c alts d p o os m : #q < 2 ^ 31 → at_ d p = Some o → path d (p + 1) os → Forall2 (takes own ext) alts os → hit_at c alts d p os m →
  (first_sti c + #q ≤ #(own o) + #(ext o) ∨ os ≠ [] ∧ first_sti c + #q = #(own o) + #(concat (map own (removelast os))) + last_consumed c ∧ last_consumed c ≤ #(own (default 0 (last os))) ∧ 0 ≤ last_consumed c) →
  ends_at q m ∨ in_first q m.
Proof using Hctx.
  intros Hsize Hat Hpath Hta (Ed & Ep & Eoff & Elast & _ & Ec & _) [Hin|(Hos & He & Hle & H0)]; [right; exists o; by rewrite Ed, Ep, Eoff|left].
  destruct os as [|o1 os] using rev_ind; [done|]. clear IHos. rewrite removelast_last, last_snoc in *. change (default 0 (Some o1)) with o1 in Hle. destruct alts as [|a alts]; [by apply Forall2_nil_inv_l in Hta; destruct os|].
  assert (path d p (o :: os)) as Hp1 by (apply path_cons; split; [done|by eapply path_front]). apply path_last in Hpath as Hl. destruct (co_tokens _ _ _ _ _ (cx_corpus _ _ _ _ _ _ _ Hctx) _ _ _ Hl) as [Ht _]. pose proof (cx_widths _ _ _ _ _ _ _ Hctx _ Ht).
  unfold ends_at. rewrite Ed, Ep, Eoff, Elast, len_app, len_cons, len_nil, Ec. pose proof (len_nonneg os). split; [lia|].
  replace (Z.to_nat (p + (#os + (1 + 0)) - p)) with (length (o :: os)) by (unfold len; cbn; lia). rewrite (path_take _ _ _ Hp1). cbn [map concat]. rewrite len_app.
  assert (as_u32 (last_consumed c) = last_consumed c) as -> by (apply Z.mod_small; lia). split; [lia|]. exists o1. split; [by replace (p + (#os + (1 + 0))) with (p + 1 + #os) by lia|]. pose proof (len_nonneg (ext o1)). lia.
Qed.

Lemma cross_found query candidates : lower_ok to_lowercase query → let ql := to_lowercase query in let half := half_of ctx query in #ql < 2 ^ 31 →
  (∀ c, c ∈ candidates → suffix_at tok own (c_raw_ordinal c) (c_sti c) ∧ ql `prefix_of` suffix (c_raw_ordinal c) (c_sti c) ++ ov (c_raw_ordinal c)) →
  ∃ n K walked linked, (∀ fuel, (n ≤ fuel)%nat → chunk_chains to_lowercase fuel ctx query half = Ret walked ∧ sibling_chains to_lowercase fuel ctx query half candidates = Ret linked) ∧
    ∀ cap, 0 ≤ cap → ∃ res, (if is_some (posmap ctx) then resolve_posmap cap to_lowercase iter filter_docs ctx (walked ++ linked) (is_some (texts ctx))
                             else resolve_postings cap to_lowercase iter filter_docs ctx (walked ++ linked)) = Ret res ∧
      found ql (sibling_v3 ctx = None) True (K ≤ cap) (long_run half ql) res.
Proof using Hctx Hiter DocFilterLaws0.
  intros Hl ql half Hsize Hcands. set (pa := memo (reader ctx) && is_some (posmap ctx) && is_some (texts ctx)).
  assert (prefixes_allowed ctx pa) as Hpa. { intros E. unfold pa in E. apply andb_true_iff in E as [[_ E1]%andb_true_iff E2]. done. }
  destruct (walked_chains pa query (λ s, negb (0 <? half) || (half <? query_consumed s)) Hl) as (splits & n1 & walked & Ew & _ & Hrun1 & Hok1 & Hs1 & Hc1).
  destruct (linked_chains query half candidates Hl Hcands) as (n2 & linked & Hrun2 & Hnone & Hok2 & Hs2).
  assert (Forall (chain_ok to_lowercase pa) (walked ++ linked)) as Hok by (apply Forall_app; split; [done|]; eapply Forall_impl; [exact Hok2|]; apply chain_ok_false).
  destruct (cross_resolved to_lowercase iter filter_docs ctx docs tok own ov ext Hiter Hctx (lo_ascii _ _ Hl) pa (walked ++ linked) Hpa Hok) as (K & HK).
  exists (n1 + n2)%nat, K, walked, linked. split.
  { intros fuel Hf. split; [|apply Hrun2; lia]. unfold chunk_chains. rewrite Ew, bind_ret, long_heads_filter. apply Hrun1. lia. }
  intros cap Hcap. destruct (HK cap Hcap) as (res & Eres & Hsound & Hcomp). exists res. split; [done|]. split.
  - intros m Hm. destruct (Hsound m Hm) as (c & v & alts & d & p & o & os & Hc & Ev & Ho & Hat & Hk & Hpath & Hta & Hhit & Hos).
    pose proof Hhit as (Ed & Ep & Eoff & _ & _ & _ & Esp & _). assert (span m ≤ 10) by (rewrite Esp; unfold len; lia). apply elem_of_app in Hc as [Hc|Hc].
    + destruct (Hs1 c Hc) as (s & o1 & si & rest & _ & Hsplit & Hcont). destruct (chain_match pa ql s o1 si rest c alts d p o os m v Hsize Hsplit Hcont Ev Ho Hat Hpath Hta Hhit) as (H1 & H2 & H3).
      split; [done|]. split; [by rewrite Ed|]. split; [done|]. split; [by left|]. by split.
    + destruct (Hs2 c v alts d p o os Hc Ev Ho Hat Hpath Hta) as (Hocc & -> & Hend). destruct (co_tokens _ _ _ _ _ (cx_corpus _ _ _ _ _ _ _ Hctx) _ _ _ Hat) as [Ht _].
      split; [by rewrite Ed, Ep, Eoff|]. split; [by rewrite Ed|]. split; [eapply hit_placeable; [exact Ev| |exact Ho|exact Hat|exact Hpath|exact Hhit]; by constructor|]. split; [by eapply linked_end|]. split; [|done]. intros Hno. rewrite (Hnone Hno) in Hc. by apply elem_of_nil in Hc.
  - intros Hfull d p si (o & rest & os & (Hat & Hsa & Eq & Hpast & Hpath & Hsp & Hlen) & Hhalf) Hk.
    destruct (Hc1 o si rest os Hsa Eq Hpast) as (c & alts & Hc & Efs & Eo & Hta); [|done|done|].
    { intros s (_ & _ & _ & _ & _ & -> & _). destruct (Z.ltb_spec 0 half); cbn; [|done]. apply Z.ltb_lt. by apply Hhalf. }
    destruct (Hcomp Hfull c [o] alts d p o os) as (m & Hm & Hhit); [apply elem_of_app; by left|done|by left|done..|]. destruct (Hs1 c Hc) as (s1 & o1 & si1 & rest1 & _ & Hsplit & Hcont).
    destruct (chain_match pa ql s1 o1 si1 rest1 c alts d p o os m [o] Hsize Hsplit Hcont Eo ltac:(by left) Hat Hpath Hta Hhit) as (_ & H2 & _). destruct Hhit as (Ed & Ep & Eoff & _).
    exists m. split; [done|]. rewrite Ed, Ep, Eoff, Efs. split_and!; done.
Qed.

(** ** From the second token *)

Lemma floor_boundary_at s n : is_char_boundary s (Z.of_nat n) = true → floor_boundary s n = n.
Proof using. intros H. destruct n; cbn; by rewrite H. Qed.

Section Anchored.
Context (pm : Z → Z → option Z) (tr : Texts) (Epm : posmap ctx = Some pm) (Etr : texts ctx = Some tr).

(** The token before a match of the rest is looked up and must end with the
    head. *)
Lemma check_head_spec head m : check_head to_lowercase ctx #head head m =
  if position m =? 0 then None else
  match at_ (doc_id m) (position m - 1) with
  | Some o => if decide (head `suffix_of` own o) then
      Some (unplaced (doc_id m) (position m - 1) (add32 (span m) 1) (#(own o) - #head) o (last_ordinal m) (#(own o) - #head) (last_start_pos m) (last_off m) (m_last_consumed m)) else None
  | None => None
  end.
Proof using Hctx Epm Etr.
  unfold check_head, ordinal_at. rewrite Epm, Etr. cbn [default]. destruct (position m =? 0); [done|]. rewrite (cx_posmap _ _ _ _ _ _ _ Hctx pm Epm).
  destruct (at_ (doc_id m) (position m - 1)) as [o|] eqn:Ho; [|done]. destruct (co_tokens _ _ _ _ _ (cx_corpus _ _ _ _ _ _ _ Hctx) _ _ _ Ho) as [Ht Hof].
  destruct (tx_token _ _ _ _ _ (cx_texts _ _ _ _ _ _ _ Hctx tr Etr) o Ht) as (s & mt & -> & -> & -> & Hlen & Hb & Eown & _). rewrite Z.min_l by done.
  rewrite len_to_nat, floor_boundary_at by done. rewrite Nat2Z.id, Eown. unfold ends_with.
  pose proof (cx_laws _ _ _ _ _ _ _ Hctx) as Hlaws. assert (has_position (resolver ctx) o (doc_id m) (position m - 1) = true) as -> by (rewrite has_position_spec; apply bool_decide_eq_true; by apply (cx_positions _ _ _ _ _ _ _ Hctx)).
  pose proof (cx_widths _ _ _ _ _ _ _ Hctx o Ht). destruct (decide (head `suffix_of` own o)) as [Hs|Hs].
  - rewrite bool_decide_true by done. destruct Hs as [x Hx]. rewrite Hx, len_app in *. pose proof (len_nonneg x). pose proof (len_nonneg head).
    replace (#x + #head <? #head) with false by lia. cbn [negb orb]. change (Z.of_nat (length (x ++ head))) with #(x ++ head). rewrite len_app.
    assert (as_u16 (#x + #head - #head) = #x + #head - #head) as -> by (apply Z.mod_small; lia). done.
  - rewrite bool_decide_false by done. cbn. by rewrite orb_true_r.
Qed.

(** The chains of the rest, anchored on the start of a token: what they match
    and which occurrences they reach. *)
Lemma tail_chains query head rest : lower_ok to_lowercase query → to_lowercase query = head ++ rest → valid rest → #(to_lowercase query) < 2 ^ 31 →
  ∃ n chains, (∀ fuel cap, (n ≤ fuel)%nat → anchored_at cap to_lowercase iter fuel filter_docs ctx #head head rest =
      match chains with [] => Ret [] | _ => tail_matches ← resolve_posmap cap to_lowercase iter filter_docs ctx chains true; Ret (omap (check_head to_lowercase ctx #head head) tail_matches : list MatchV3) end) ∧
    Forall (chain_ok to_lowercase (memo (reader ctx))) chains ∧
    (∀ c v alts d p o os m, c ∈ chains → ordinals c = Ids v :: alts → o ∈ v → at_ d p = Some o → path d (p + 1) os → Forall2 (takes own ext) alts os → hit_at c alts d p os m →
       rest `prefix_of` text_from docs own d p ∧ first_off m = 0 ∧ ends_at rest m ∧ placeable m) ∧
    (∀ d p os, path d p os → spelled tok own ov ov rest os → (length os ≤ 8)%nat →
       ∃ c v alts o os', c ∈ chains ∧ ordinals c = Ids v :: alts ∧ o ∈ v ∧ os = o :: os' ∧ Forall2 (takes own ext) alts os').
Proof using Hctx.
  intros Hl Eq Hvr Hsize. destruct (lower_ok_rest _ _ _ _ Hl Eq Hvr) as [El Hlr]. destruct (cx_reader _ _ _ _ _ _ _ Hctx) as (Es & seg & Hr & Hti).
  assert (#rest < 2 ^ 31) as Hsr by (rewrite Eq, len_app in Hsize; pose proof (len_nonneg head); lia).
  destruct (token_candidates to_lowercase (reader ctx) Es seg Hr (cx_vec _ _ _ _ _ _ _ Hctx) tok own ov Hti rest true) as (l & Ec & Hs & Hc); [by rewrite El|]. rewrite El in Hs, Hc.
  set (ids := unique_ords (map c_raw_ordinal (List.filter (λ c, negb (c_partition c =? 2) && (c_sti c =? 0)) l))).
  assert (∀ o, o ∈ ids ↔ tok o ∧ rest `prefix_of` own o ++ ov o) as Hids.
  { intros o. unfold ids. rewrite elem_unique_ords, list_elem_of_In, in_map_iff. split.
    - intros (c & <- & [Hin%list_elem_of_In _]%filter_In). destruct (Hs c Hin) as ((Ht & _) & Hp & _ & H0). rewrite H0 in Hp by done. by split.
    - intros [Ht Hp]. destruct (suffix_start Es seg tok own ov Hti o Ht) as [Hs0 E0]. destruct (Hc o 0 Hs0) as (c & Hin & <- & Esti); [by rewrite E0|done|]. destruct (Hs c Hin) as (_ & _ & Hpar & _).
      exists c. split; [done|]. apply filter_In. split; [by apply list_elem_of_In|]. rewrite Esti. destruct (Z.eqb_spec (c_partition c) 2); [done|by cbn]. }
  destruct (walked_chains (memo (reader ctx)) rest (λ s, parents.sti (parent s) =? 0) Hlr) as (splits & n & more & Ew & _ & Hrun & Hok & Hsound & Hcomp). rewrite El in Hsound, Hcomp.
  set (lone := match ids with [] => [] | _ => [{| ordinals := [Ids ids]; first_sti := 0; total_query_consumed := #rest; last_consumed := #rest |}] end).
  assert (∀ c, c ∈ lone → c = {| ordinals := [Ids ids]; first_sti := 0; total_query_consumed := #rest; last_consumed := #rest |} ∧ ids ≠ []) as Hlone.
  { intros c Hin. unfold lone in Hin. destruct ids as [|i ids0]; [by apply elem_of_nil in Hin|]. by apply list_elem_of_singleton in Hin as ->. }
  exists n, (lone ++ more). split; [|split; [|split]].
  - intros fuel cap Hf. unfold anchored_at. rewrite Ec, bind_ret. fold ids lone. rewrite Ew, bind_ret, Hrun, bind_ret by done. by destruct (lone ++ more).
  - apply Forall_app. split; [|done]. apply Forall_forall. intros c Hin. destruct (Hlone c Hin) as [-> Hne]. destruct ids as [|i ids0]; [done|]. exists i, ids0, []. split; [done|]. split; [constructor|]. split; [|cbn; lia]. apply Forall_forall. intros o [Ht _]%Hids. by apply (cx_ordinals _ _ _ _ _ _ _ Hctx).
  - intros c v alts d p o os m [Hin|Hin]%elem_of_app Ev Ho Hat Hpath Hta Hhit.
    + destruct (Hlone c Hin) as [-> _]. cbn in Ev. injection Ev as <- <-. apply Hids in Ho as [Ht Hp]. apply Forall2_nil_inv_l in Hta as ->.
      assert (placeable m) as Hpl by (refine (hit_placeable {| ordinals := [Ids ids]; first_sti := 0; total_query_consumed := #rest; last_consumed := #rest |} ids [] d p o [] m eq_refl _ _ Hat Hpath Hhit); [apply Forall_forall; by intros x [? _]%Hids|by apply Hids]).
      destruct Hhit as (Ed & Ep & Eoff & Elast & _ & Econs & _). cbn in Eoff, Econs.
      destruct (suffix_start Es seg tok own ov Hti o Ht) as [(_ & Hsi & _) E0].
      assert (rest `prefix_of` text_from docs own d p) as Hpre. { destruct (occurs_single to_lowercase ctx docs tok own ov ext Hctx rest d p o 0 Hat Hsi) as (_ & _ & _ & H); [by rewrite E0|exact H]. }
      split; [done|]. split; [done|]. split; [|done]. eapply ends_single; [by rewrite Ed, Ep|by rewrite Elast, Ep, len_nil, Z.add_0_r| |].
      2: { rewrite Eoff. apply prefix_length in Hp. pose proof (prefix_length _ _ (cx_overlap _ _ _ _ _ _ _ Hctx _ Ht)). rewrite length_app in Hp. unfold len. lia. }
      rewrite Eoff, Econs. pose proof (len_nonneg rest).
      unfold add32, as_u32. rewrite !Z.add_0_l. rewrite !Z.mod_small; [done|lia|rewrite Z.mod_small; lia].
    + destruct (Hsound c Hin) as (s & o1 & si & rest' & E0%Z.eqb_eq & Hsplit & Hcont).
      destruct (chain_match (memo (reader ctx)) rest s o1 si rest' c alts d p o os m v Hsr Hsplit Hcont Ev Ho Hat Hpath Hta Hhit) as (H1 & H2 & H3).
      destruct Hsplit as (_ & _ & _ & _ & Esti & _). rewrite E0 in Esti. subst si. destruct Hcont as (_ & _ & _ & Efs & _). destruct Hhit as (Ed & Ep & Eoff & _). rewrite Efs in Eoff.
      rewrite Ed, Ep, Eoff in H1. destruct H1 as (_ & _ & _ & H1). by split_and!.
  - intros d p os Hpath Hsp Hlen. destruct os as [|o os]; [done|]. destruct Hsp as [Ht Hsp]. destruct os as [|o1 os].
    + assert (o ∈ ids) as Ho by by apply Hids. exists {| ordinals := [Ids ids]; first_sti := 0; total_query_consumed := #rest; last_consumed := #rest |}, ids, [], o, [].
      split; [|split; [done|split; [done|split; [done|constructor]]]]. apply elem_of_app. left. unfold lone. destruct ids; [by apply elem_of_nil in Ho|by left].
    + destruct Hsp as (rest' & Er & Hpast & Hsp). destruct (suffix_start Es seg tok own ov Hti o Ht) as [Hs0 E0].
      destruct (Hcomp o 0 rest' (o1 :: os) Hs0) as (c & alts & Hin & _ & Eo & Hta); [by rewrite E0|done| |done|cbn in *; lia|].
      { intros s (_ & _ & _ & _ & -> & _). done. }
      exists c, [o], alts, o, (o1 :: os). split; [apply elem_of_app; by right|]. split; [done|]. split; [by left|]. by split.
Qed.

Definition short_run (h : Z) (q : list Z) (d p si : Z) : Prop := ∃ o rest os, run_through q d p si o rest os ∧ #(suffix o si) = h.

Lemma ends_before head rest m m' o x : at_ (doc_id m) (position m - 1) = Some o → own o = x ++ head → first_off m = 0 → ends_at rest m →
  doc_id m' = doc_id m → position m' = position m - 1 → first_off m' = #(own o) - #head → last_start_pos m' = last_start_pos m → m_last_consumed m' = m_last_consumed m → ends_at (head ++ rest) m'.
Proof using.
  intros Ho Ex E0 (Hle & He & Hl) Ed Ep Ef El Ec. apply corpus_at_range in Ho as [Hp Ho]. unfold ends_at. rewrite Ed, Ep, Ef, El, Ec. split; [lia|].
  replace (Z.to_nat (last_start_pos m - (position m - 1))) with (S (Z.to_nat (last_start_pos m - position m))) by lia. rewrite (drop_S _ _ _ Ho). cbn [take map concat].
  replace (S (Z.to_nat (position m - 1))) with (Z.to_nat (position m)) by lia. rewrite !len_app. split; [lia|done].
Qed.

Lemma anchored_at_found query head rest : lower_ok to_lowercase query → let ql := to_lowercase query in ql = head ++ rest → head ≠ [] → valid rest → #ql < 2 ^ 31 →
  ∃ n K, ∀ fuel cap, (n ≤ fuel)%nat → 0 ≤ cap → ∃ res, anchored_at cap to_lowercase iter fuel filter_docs ctx #head head rest = Ret res ∧ found ql True True (K ≤ cap) (short_run #head ql) res.
Proof using Hctx Hiter DocFilterLaws0 Epm Etr.
  intros Hl ql Eq Hne Hvr Hsize. destruct (tail_chains query head rest Hl Eq Hvr Hsize) as (n & chains & Hrun & Hok & Hsound & Hcomp).
  assert (prefixes_allowed ctx (memo (reader ctx))) as Hpa by (intros _; by rewrite Epm, Etr).
  destruct (posmap_resolved to_lowercase iter filter_docs ctx docs tok own ov ext Hiter Hctx (lo_ascii _ _ Hl) (memo (reader ctx)) chains pm Epm Hpa Hok) as (K & HK). rewrite Etr in HK.
  exists n, K. intros fuel cap Hf Hcap. rewrite Hrun by done. destruct (HK cap Hcap) as (ms & Ems & Hms & Hmc). cbn [is_some] in Ems.
  assert (match chains with [] => Ret [] | _ => tail_matches ← resolve_posmap cap to_lowercase iter filter_docs ctx chains true; Ret (omap (check_head to_lowercase ctx #head head) tail_matches : list MatchV3) end =
    Ret (omap (check_head to_lowercase ctx #head head) ms)) as ->.
  { destruct chains as [|c chains]; [|by rewrite Ems, bind_ret]. destruct ms as [|m ms]; [done|]. destruct (Hms m) as (c & _ & _ & _ & _ & _ & _ & []%elem_of_nil & _). by left. }
  eexists. split; [done|]. split.
  - intros m' (m & Hm & E)%list_elem_of_omap. destruct (Hms m Hm) as (c & v & alts & d & p & o & os & Hc & Ev & Ho & Hat & Hk & Hpath & Hta & Hhit & Hos).
    destruct (Hsound c v alts d p o os m Hc Ev Ho Hat Hpath Hta Hhit) as (Hpre & E0 & Hends & Hpl). destruct Hhit as (Ed & Ep & _ & _ & _ & _ & Esp9 & _).
    rewrite check_head_spec in E. destruct (Z.eqb_spec (position m) 0); [done|]. destruct (at_ (doc_id m) (position m - 1)) as [o1|] eqn:Ho1; [|done].
    destruct (decide (head `suffix_of` own o1)) as [[x Hx]|]; [|done]. injection E as <-. cbn [doc_id position first_off unplaced].
    assert (0 < #head) by (clear -Hne; destruct head as [|b t]; [done|]; rewrite len_cons; pose proof (len_nonneg t); lia). pose proof (len_nonneg x).
    assert (ends_at (head ++ rest) (unplaced (doc_id m) (position m - 1) (add32 (span m) 1) (#(own o1) - #head) o1 (last_ordinal m) (#(own o1) - #head) (last_start_pos m) (last_off m) (m_last_consumed m))) as He by by eapply ends_before.
    split; [|split; [|split; [|split; [|split]]]].
    + eapply occurs_from; [exact Ho1|rewrite Hx, len_app; lia| |by rewrite Z.sub_add, Ed, Ep].
      rewrite Eq. f_equal. unfold ChainProofs.suffix. rewrite Hx, len_app. replace (Z.to_nat (#x + #head - #head)) with (length x) by (unfold len; lia). by rewrite drop_app_length.
    + by rewrite Ed.
    + destruct Hpl as (Ht & Eo & Esp & Hlast). unfold placeable. cbn. rewrite Eo, Esp. pose proof (co_lengths _ _ _ _ _ (cx_corpus _ _ _ _ _ _ _ Hctx) (doc_id m)). split; [done|]. split; [done|].
      apply corpus_at_range in Ho1 as [? _]. split; [|lia]. unfold add32, as_u32. rewrite Z.mod_small; lia.
    + left. by rewrite Eq.
    + intros _. by rewrite Eq.
    + cbn. rewrite Esp9. unfold len, add32, as_u32. rewrite Z.mod_small; lia.
  - intros Hfull d p si (o & rest' & os & (Hat & (Ht & Hsi & Hb) & Eq' & Hpast & Hpath & Hsp & Hlen) & Eh) Hk. rewrite Eq in Eq'. apply app_inj_1 in Eq' as [Ehead <-]; [|unfold len in Eh; lia].
    destruct (Hcomp d (p + 1) os Hpath Hsp Hlen) as (c & v & alts & o1 & os' & Hc & Ev & Ho1 & -> & Hta). apply path_cons in Hpath as [Hat1 Hpath].
    destruct (Hmc Hfull c v alts d (p + 1) o1 os' Hc Ev Ho1 Hat1 Hk Hpath Hta) as (m & Hm & Hhit). apply corpus_at_range in Hat as Hr. destruct Hr as [Hp0 _].
    destruct (Hsound c v alts d (p + 1) o1 os' m Hc Ev Ho1 Hat1 Hpath Hta Hhit) as (_ & E0 & Hends & _). destruct Hhit as (Ed & Ep & _).
    eexists. split; [apply list_elem_of_omap; exists m; split; [exact Hm|]|].
    { rewrite check_head_spec, Ep, Ed. replace (p + 1 =? 0) with false by lia. rewrite Z.add_simpl_r, Hat. rewrite decide_True; [done|]. rewrite Ehead. exists (take (Z.to_nat si) (own o)). symmetry. apply take_drop. }
    cbn [doc_id position first_off unplaced]. split; [done|]. split; [lia|]. split; [rewrite Ehead, suffix_len by done; lia|]. intros _. rewrite Eq. eapply (ends_before head rest m _ o (take (Z.to_nat si) (own o))); cbn; try done.
    + by rewrite Ed, Ep, Z.add_simpl_r.
    + rewrite Ehead. symmetry. apply take_drop.
    + lia.
Qed.

Lemma anchored_loop_found query b k : lower_ok to_lowercase query → let ql := to_lowercase query in #ql < 2 ^ 31 → ∀ a, 1 ≤ a → Z.to_nat (b - a) = k →
  ∃ n K, ∀ fuel cap, (n ≤ fuel)%nat → 0 ≤ cap → ∃ res, anchored_loop cap to_lowercase iter fuel filter_docs ctx ql (range a b) = Ret res ∧
    found ql True True (K ≤ cap) (λ d p si, ∃ h, a ≤ h < b ∧ short_run h ql d p si) res.
Proof using Hctx Hiter DocFilterLaws0 Epm Etr.
  intros Hl ql Hsize. destruct (cx_reader _ _ _ _ _ _ _ Hctx) as (Es & seg & Hr & Hti).
  assert (∀ h d p si, short_run h ql d p si → is_char_boundary ql h = true ∧ h < #ql) as Hshort.
  { intros h d p si (o & rest & os & (_ & Hsa & Eq & [_ Hpast] & _) & <-). destruct (suffix_valid Es seg tok own ov Hti o si Hsa) as [Hvs _].
    assert (valid rest) as Hv by (apply (valid_cancel (suffix o si)); [done|rewrite <- Eq; apply Hl]). split; [rewrite Eq; by apply boundary_after|]. rewrite Eq, len_app. pose proof (len_nonneg (ov o)). lia. }
  induction k as [|k IH]; intros a Ha Hk.
  { exists 0%nat, 0. intros fuel cap _ _. rewrite range_nil by lia. exists []. split; [done|]. split; [intros m []%elem_of_nil|]. intros _ d p si (h & Hh & _). lia. }
  destruct (IH (a + 1)) as (n1 & K1 & H1); [lia|lia|]. rewrite range_cons by lia. cbn [anchored_loop].
  destruct (is_char_boundary ql a) eqn:Eb; cbn [negb]; cycle 1.
  { exists n1, K1. intros fuel cap Hf Hcap. destruct (H1 fuel cap Hf Hcap) as (res & E & H). exists res. split; [done|]. eapply found_mono; [exact H|done|done|done|]. intros d p si (h & Hh & Hs).
    destruct (decide (h = a)) as [->|]; [|exists h; split; [lia|done]]. destruct (Hshort _ _ _ _ Hs) as [E' _]. by rewrite Eb in E'. }
  destruct (drop (Z.to_nat a) ql) as [|x rest] eqn:Ed.
  { exists 0%nat, 0. intros fuel cap _ _. exists []. split; [done|]. split; [intros m []%elem_of_nil|]. intros _ d p si (h & Hh & Hs). destruct (Hshort _ _ _ _ Hs) as [_ Hlt].
    apply (f_equal length) in Ed. rewrite length_drop in Ed. cbn in Ed. unfold len in Hlt. lia. }
  assert (a ≤ #ql) as Hle. { destruct (Z.le_gt_cases a #ql); [done|]. rewrite drop_ge in Ed by (unfold len in *; lia). done. }
  destruct (valid_cut ql a (lo_valid _ _ Hl)) as [Hv1 Hv2]; [lia|done|]. rewrite Ed in Hv2.
  assert (#(take (Z.to_nat a) ql) = a) as Elen by (rewrite len_take; lia).
  destruct (anchored_at_found query (take (Z.to_nat a) ql) (x :: rest) Hl) as (n2 & K2 & H2); [by rewrite <- Ed, take_drop| |done|done|].
  { intros E. rewrite E, len_nil in Elen. lia. }
  rewrite Elen in H2. exists (n1 + n2)%nat, (Z.max K1 K2). intros fuel cap Hf Hcap. destruct (H1 fuel cap) as (r1 & E1 & F1); [lia|done|]. destruct (H2 fuel cap) as (r2 & E2 & F2); [lia|done|].
  exists (r2 ++ r1). rewrite E2, bind_ret, E1, bind_ret. split; [done|]. eapply found_mono; [apply (found_app _ _ _ _ _ _ _ _ _ F2 F1)|done|done|lia|].
  intros d p si (h & Hh & Hs). destruct (decide (h = a)) as [->|]; [by left|]. right. exists h. split; [lia|done].
Qed.
End Anchored.
End Search.
