(* ===== verification/BuiltIndex.v ===== *)
(** * A built dictionary answers the walks

    The files of the builder and the walks over them, composed: a dictionary
    built from the tokens of a corpus is one the search can rely on. *)
From stdpp Require Import gmap.
From S2P Require Import Prelude Ordering Text ParentRecord ParentCodec SuffixBuilder SuffixBuild SuffixBuildProofs FstWalk WalkProofs Utf8 ChainProofs.
Import text parents builder walk.
Open Scope Z_scope.

(** The file of a build. *)
Definition part_of (b : Built) : Part := {| fst_ := bt_fst b; parent_list_data := bt_table b |}.

(** The entries a file holds: the parents of each key's record. *)
Definition parents_at (b : Built) (kv : list Z * Z) : list ParentEntryV3 := match decode_parents (part_of b) kv.2 kv.1 with Ret ps => ps | _ => [] end.
Definition entries_held (b : Built) : list (list Z * ParentEntryV3) := flat_map (λ kv, map (λ p, (kv.1, p)) (parents_at b kv)) (bt_fst b).

Section Built.
Context (kqs : list (list Z * ParentEntryV3)) (b : Built) (Hb : dictionary_of kqs b) (Hok : Forall (λ kq, bytes_ok (fst kq) ∧ parent_ok (snd kq)) kqs).

Lemma elem_held k p : (k, p) ∈ entries_held b ↔ ∃ off, (k, off) ∈ bt_fst b ∧ p ∈ parents_at b (k, off).
Proof using.
  unfold entries_held. rewrite list_elem_of_In, in_flat_map. split.
  - intros ([k' off] & Hin & Hp). apply in_map_iff in Hp as (p' & [= -> ->] & Hp). exists off. split; by apply list_elem_of_In.
  - intros (off & Hin & Hp). exists (k, off). split; [by apply list_elem_of_In|]. apply in_map_iff. exists p. split; [done|by apply list_elem_of_In].
Qed.

Lemma held_record k off : (k, off) ∈ bt_fst b → ∃ record, table_get (bt_table b) off = Ret record ∧
  (∀ keep, decode_parent_entries_v8_where record k keep = Ret (List.filter (λ p, keep (overlap_of p)) (parents_at b (k, off)))) ∧
  count_parent_entries_v8 record = Ret #(parents_at b (k, off)) ∧ (∀ p, p ∈ parents_at b (k, off) → (k, p) ∈ kqs) ∧
  ∀ q, (k, q) ∈ kqs → ∃ p, p ∈ parents_at b (k, off) ∧ raw_ordinal p = raw_ordinal q ∧ sti p = sti q.
Proof using Hb.
  intros Hin. destruct Hb as (_ & _ & _ & Hrec). destruct (Hrec k off Hin) as (record & ps & Hget & Hdec & Hw & Hc & _ & Hs & Ha). exists record.
  assert (parents_at b (k, off) = ps) as -> by (unfold parents_at, decode_parents; cbn [fst snd part_of parent_list_data]; by rewrite Hget, bind_ret, Hdec). done.
Qed.

Lemma held_sound k p : (k, p) ∈ entries_held b → (k, p) ∈ kqs.
Proof using Hb. intros (off & Hin & Hp)%elem_held. destruct (held_record k off Hin) as (_ & _ & _ & _ & Hs & _). by apply Hs. Qed.

Lemma held_complete k q : (k, q) ∈ kqs → ∃ p, (k, p) ∈ entries_held b ∧ raw_ordinal p = raw_ordinal q ∧ sti p = sti q.
Proof using Hb.
  intros Hq. destruct Hb as (_ & Hkeys & _). assert (k ∈ map fst (bt_fst b)) as Hk.
  { apply Hkeys, list_elem_of_In, in_map_iff. exists (k, q). split; [done|by apply list_elem_of_In]. }
  apply list_elem_of_In, in_map_iff in Hk as ([k' off] & Ek & Hin%list_elem_of_In). cbn in Ek. subst k'.
  destruct (held_record k off Hin) as (_ & _ & _ & _ & _ & Ha). destruct (Ha q Hq) as (p & Hp & ?). exists p. split; [apply elem_held; by exists off|done].
Qed.

Lemma built_part : part_holds (part_of b) (entries_held b).
Proof using Hb Hok.
  rewrite Forall_forall in Hok. split.
  - apply Hb.
  - apply Forall_forall. intros [k off] Hin. destruct Hb as (_ & Hkeys & _). cbn. assert (k ∈ map fst (bt_fst b)) as Hk by (apply list_elem_of_In, in_map_iff; exists (k, off); split; [done|by apply list_elem_of_In]).
    apply Hkeys, list_elem_of_In, in_map_iff in Hk as ([k' q] & <- & Hq%list_elem_of_In). apply (Hok (k', q) Hq).
  - intros key Hk. apply list_elem_of_In, in_map_iff in Hk as ([k p] & <- & Hp%list_elem_of_In). apply elem_held in Hp as (off & Hin & _).
    apply list_elem_of_In, in_map_iff. exists (k, off). split; [done|by apply list_elem_of_In].
  - intros key val Hin. destruct (held_record key val Hin) as (record & Hget & Hw & Hc & _). exists record, (parents_at b (key, val)). split; [done|]. split; [done|]. split; [done|].
    intros p. rewrite elem_held. split; [intros Hp; by exists val|]. intros (off & Hin' & Hp). cbn [part_of fst_] in Hin.
    pose proof (fst_get_in _ _ _ (proj1 Hb) Hin) as E1.
    rewrite (fst_get_in _ _ _ (proj1 Hb) Hin') in E1. by injection E1 as ->.
  - intros [k p] Hp%held_sound. apply (Hok (k, p) Hp).
Qed.
End Built.

(** ** The tokens of the calls *)

Section Calls.
Context (to_lowercase : list Z → list Z) (lower_chars : ∀ s, Forall is_char s → Forall is_char (to_lowercase s)).
Context (min : Z) (cs : list call) (Hmin : min ≤ 1) (Hcs : Forall call_ok cs) (own ov : Z → list Z).

(** The ordinals the calls give to tokens, and their texts: each call with an
    ordinal indexes the same text, of at most 256 bytes. *)
Definition tok_of (o : Z) : Prop := ∃ t w s v ws, Token t o w s v ws ∈ cs.
Definition texts_of : Prop := ∀ t o w s v ws, Token t o w s v ws ∈ cs →
  own o = flat_map utf8 (to_lowercase (fst (cut_token t v))) ∧ ov o = overlap_bytes_of to_lowercase (snd (cut_token t v)) ∧ w = #(own o) ∧ 0 < #(own o) ≤ MAX_CHUNK_BYTES.
Context (Htexts : texts_of).

Lemma boundary_at_same bytes i : 0 ≤ i → i < #bytes → (i =? 0) || boundary_at bytes i = is_char_boundary bytes i.
Proof using.
  intros H0 Hi. unfold boundary_at, is_utf8_char_boundary, is_char_boundary. destruct (i =? 0); [done|]. cbn [orb]. replace (#bytes <=? i) with false by lia.
  destruct (lookup_lt_is_Some_2 bytes (Z.to_nat i)) as [x Hx]; [unfold len in *; lia|]. by rewrite (index_lookup _ _ _ H0 Hx), bind_ret, Hx.
Qed.

(** The entries of a token are those of its suffixes. *)
Lemma token_entries t o w s v ws k p : Token t o w s v ws ∈ cs → (k, p) ∈ call_entries to_lowercase min (Token t o w s v ws) ↔
  ∃ si, 0 ≤ si < #(own o) ∧ is_char_boundary (own o) si = true ∧ k = (if si =? 0 then SI0_PREFIX else SI_REST_PREFIX) :: drop (Z.to_nat si) (own o) ∧
    p = with_overlap {| raw_ordinal := o; sti := si; own_len := w; sep_len := s; overlap_len := #(ov o); overlap := replicate 4 0; is_word_start := ws |} (ov o).
Proof using Htexts Hmin Hcs lower_chars.
  intros Hc. destruct (Htexts t o w s v ws Hc) as (Eown & Eov & Ew & Hlen). cbn [call_entries]. rewrite <- Eown, <- Eov. rewrite Z.min_l by lia. unfold suffix_entries.
  pose proof (len_overlap_bytes to_lowercase (snd (cut_token t v))) as Hov. rewrite <- Eov in Hov. pose proof (len_nonneg (ov o)).
  assert (∀ si, 0 ≤ si < #(own o) → kept min (own o) (ov o) si = is_char_boundary (own o) si) as Hkept.
  { intros si Hsi. rewrite <- boundary_at_same by lia.
    unfold kept. replace (min <=? #(own o) - si + #(ov o)) with true by lia. by rewrite andb_true_r. }
  assert (as_u8 #(ov o) = #(ov o)) as -> by (apply as_u8_id; widths; lia).
  rewrite list_elem_of_In, in_map_iff. split.
  - intros (si & [= <- <-] & [Hin%list_elem_of_In%elem_of_range Hk]%filter_In). rewrite Hkept in Hk by lia. exists si. split; [lia|]. split; [done|]. split; [done|].
    rewrite as_u16_id by (unfold fits, MAX_CHUNK_BYTES in *; lia). done.
  - intros (si & Hsi & Hb & -> & ->). exists si. rewrite as_u16_id by (unfold fits, MAX_CHUNK_BYTES in *; lia). split; [done|]. apply filter_In. split; [apply list_elem_of_In, elem_of_range; lia|by rewrite Hkept].
Qed.

Lemma word_entries t v o s ws k p : (k, p) ∈ call_entries to_lowercase min (Word t v o s ws) → ∃ k', k = SI_STRIPPED_PREFIX :: k'.
Proof using. cbn [call_entries]. unfold suffix_entries. intros Hin%list_elem_of_In%in_map_iff. destruct Hin as (si & [= <- _] & _). eauto. Qed.

Lemma overlap_of_with p x : overlap_len p = #x → #x ≤ 4 → overlap_of (with_overlap p x) = x.
Proof using. intros E Hx. unfold overlap_of, MAX_OVERLAP_BYTES. cbn. rewrite E, Z.min_l by done. by rewrite len_to_nat, take_app_length. Qed.

Section Reader.
Context (b : Built) (Hb : dictionary_of (flat_map (call_entries to_lowercase min) cs) b).

Lemma entry_token k p : (k, p) ∈ flat_map (call_entries to_lowercase min) cs ↔ ∃ c, c ∈ cs ∧ (k, p) ∈ call_entries to_lowercase min c.
Proof using. rewrite list_elem_of_In, in_flat_map. setoid_rewrite <- list_elem_of_In. done. Qed.

Lemma built_tokens : tokens_indexed [entries_held b] None tok_of own ov.
Proof using Htexts Hmin Hcs Hb lower_chars.
  assert (∀ key p, served [entries_held b] None key p ↔ (key, p) ∈ entries_held b) as Hserved by (intros; unfold served; cbn; rewrite app_nil_r; tauto).
  split.
  - intros o (t & w & s & v & ws & Hc). destruct (Htexts t o w s v ws Hc) as (Eown & _ & _ & Hlen). split; [|intros E; clear Eown; rewrite E in Hlen; unfold len in Hlen; cbn in Hlen; lia].
    exists (to_lowercase (fst (cut_token t v))). split; [|done]. apply lower_chars. rewrite Forall_forall in Hcs. destruct (Hcs _ Hc) as [Ht _]. destruct (cut_token_spec t v) as [E _]. rewrite E in Ht. by apply Forall_app in Ht as [? _].
  - intros partition k p Hpar Hin%Hserved. apply (held_sound _ b Hb), entry_token in Hin as (c & Hc & Hin).
    destruct c as [t o w s v ws|t v o s ws]; [|apply word_entries in Hin as (k' & [= -> _]); by destruct Hpar].
    apply (token_entries t o w s v ws _ _ Hc) in Hin as (si & Hsi & Hbd & [= -> ->] & ->). destruct (Htexts t o w s v ws Hc) as (_ & Eov & Ew & _). cbn [raw_ordinal sti own_len with_overlap].
    split; [by exists t, w, s, v, ws|]. split; [done|]. split; [done|]. split; [done|]. split; [done|]. split.
    + apply overlap_of_with; [done|]. rewrite Eov. apply len_overlap_bytes.
    + destruct (Z.eqb_spec si 0); split; done.
  - intros o si (t & w & s & v & ws & Hc) Hsi Hbd.
    destruct (held_complete _ b Hb ((if si =? 0 then SI0_PREFIX else SI_REST_PREFIX) :: drop (Z.to_nat si) (own o))
      (with_overlap {| raw_ordinal := o; sti := si; own_len := w; sep_len := s; overlap_len := #(ov o); overlap := replicate 4 0; is_word_start := ws |} (ov o))) as (p & Hp & E1 & E2).
    { apply entry_token. exists (Token t o w s v ws). split; [done|]. apply token_entries; [done|]. by exists si. }
    exists p. by rewrite Hserved.
Qed.

Lemma built_reader r : part_views r = [part_of b] → segment_ids r None → Forall (λ kq, raw_ordinal (snd kq) ≤ MAX_ORDINAL) (flat_map (call_entries to_lowercase min) cs) →
  reader_of r [entries_held b] None.
Proof using Hcs Hb lower_chars.
  intros Ep Hseg Hord. assert (Forall (λ kq, bytes_ok (fst kq) ∧ parent_ok (snd kq)) (flat_map (call_entries to_lowercase min) cs)) as Hok.
  { apply Forall_flat_map. eapply Forall_impl; [exact Hcs|]. by apply call_entries_ok. }
  split; [rewrite Ep; constructor; [|constructor]; by eapply built_part| |done]. intros [k p] Hin. cbn [concat] in Hin. rewrite app_nil_r in Hin. apply (held_sound _ b Hb) in Hin.
  rewrite Forall_forall in Hok, Hord. destruct (Hok _ Hin) as (_ & Ho & _). specialize (Hord _ Hin). unfold fits, MAX_ORDINAL in *. change (Z.shiftl 1 28) with (2 ^ 28) in Hord. cbn [snd] in *. lia.
Qed.
End Reader.
End Calls.

(** ** The result *)

(** The reader of one file, neither shared nor cut to a segment. *)
Definition plain_reader (b : Built) : SfxFileReaderV3 := {| part_views := [part_of b]; memo := false; segment_gmap := None |}.

(** C4. What is indexed is found.  After calls of [add_token] and
    [add_word_stripped] with a minimum suffix length of at most 1, in which
    each ordinal is given to one text, of 1 to 256 bytes in lower case, and
    [own_len] is the byte length of that lower case (so that a token whose
    lower case has another length is left out), [build] gives a file on which
    the walks with strict separators return exactly what the texts say, for
    any query whose lower case is a string: [fst_candidates_v3] the tokens and suffix indices from which the
    lower-case query is a prefix of what is left of the text and its overlap
    bytes, anchored only at index zero; [falling_walk_chunks] those from which
    the query runs past both, with the rest of it. *)
Theorem built_candidates (to_lowercase lower_bytes : list Z → list Z) (min : Z) (cs : list call) (own ov : Z → list Z) (b : SuffixFstBuilderV3) (query : list Z) :
  (∀ s, Forall is_char s → Forall is_char (to_lowercase s)) → min ≤ 1 → Forall call_ok cs → texts_of to_lowercase cs own ov →
  foldM (apply_call to_lowercase) (with_min_suffix_len min) cs = Ret b → #(key_buf b) < 2 ^ 32 →
  Forall (λ kq, check_parent MAX_ORDINAL (snd kq) = None) (flat_map (call_entries to_lowercase min) cs) →
  let q := lower_bytes query in valid q →
  ∃ built, build b = Ret (Ok built) ∧
    (∀ anchor, ∃ l, fst_candidates_v3 lower_bytes (plain_reader built) query anchor true = Ret l ∧
       ∀ o si, (∃ c, c ∈ l ∧ c_raw_ordinal c = o ∧ c_sti c = si) ↔
         suffix_at (tok_of cs) own o si ∧ q `prefix_of` suffix own o si ++ ov o ∧ (anchor = true → si = 0)) ∧
    ∃ l, falling_walk_chunks lower_bytes (plain_reader built) query = Ret l ∧
       ∀ o si n, (∃ s, s ∈ l ∧ raw_ordinal (parent s) = o ∧ sti (parent s) = si ∧ remainder_start s = n) ↔
         suffix_at (tok_of cs) own o si ∧ runs_past (suffix own o si ++ ov o) q ∧ n = #(suffix own o si).
Proof.
  intros Hlow Hmin Hcs Htexts Eb Hlt Hlim q Hq. destruct (calls_dictionary to_lowercase Hlow min cs b Hcs Eb Hlt Hlim) as (built & Ebuilt & Hd). exists built. split; [done|].
  pose proof (built_tokens to_lowercase Hlow min cs Hmin Hcs own ov Htexts built Hd) as Hti.
  assert (reader_of (plain_reader built) [entries_held built] None) as Hr.
  { apply (built_reader to_lowercase Hlow min cs Hcs built Hd); [done|done|]. eapply Forall_impl; [exact Hlim|]. intros kq Hk. unfold check_parent in Hk. by destruct (Z.ltb_spec MAX_ORDINAL (raw_ordinal kq.2)). }
  split.
  - intros anchor. destruct (token_candidates lower_bytes (plain_reader built) _ None Hr ltac:(done) (tok_of cs) own ov Hti query anchor Hq) as (l & El & Hs & Hc). exists l. split; [done|].
    intros o si. split; [|intros (H1 & H2 & H3); by apply Hc]. intros (c & Hin & <- & <-). destruct (Hs c Hin) as (? & ? & _ & ?). done.
  - destruct (token_splits lower_bytes (plain_reader built) _ None Hr ltac:(done) (tok_of cs) own ov Hti query) as (l & El & Hs & Hc). exists l. split; [done|]. fold q in Hs, Hc.
    intros o si n. split.
    + intros (s & Hin & <- & <- & <-). destruct (Hs s Hin) as (o & si & rest & H1 & Eq & Hp & <- & <- & _ & En). split; [done|]. split; [|done]. apply runs_past_app. by exists rest.
    + intros (H1 & (rest & Eq & Hp)%runs_past_app & ->). destruct (Hc o si rest H1 Eq Hp) as (s & Hin & _ & _ & _ & Eo & Esi & _ & En). by exists s.
Qed.

(** ** A small dictionary *)

(** "Foo bar Bazz" and "bar Bazz", in tokens of four bytes with the next token
    behind them. *)
Definition small_calls : list call :=
  [Token [70; 111; 111; 32; 98; 97; 114; 32] 0 4 1 4 true; Token [98; 97; 114; 32; 66; 97; 122; 122] 1 4 1 4 true; Token [66; 97; 122; 122] 2 4 0 0 true].

Definition small_builder : SuffixFstBuilderV3 :=
  Eval vm_compute in value_of (with_min_suffix_len 1) (foldM (apply_call ascii_lower) (with_min_suffix_len 1) small_calls).
Definition small_built : Built :=
  Eval vm_compute in match build small_builder with Ret (Ok b) => b | _ => {| bt_fst := []; bt_table := []; bt_num_terms := 0; bt_max_parents := 0 |} end.

Definition small_own (o : Z) : list Z := if o =? 0 then [102; 111; 111; 32] else if o =? 1 then [98; 97; 114; 32] else [98; 97; 122; 122].
Definition small_ov (o : Z) : list Z := if o =? 0 then [98; 97; 114; 32] else if o =? 1 then [98; 97; 122; 122] else [].

Lemma small_tok o : tok_of small_calls o → o = 0 ∨ o = 1 ∨ o = 2.
Proof. intros (t & w & s & v & ws & H). repeat (apply elem_of_cons in H as [[= ? ? ? ? ? ?]|H]; [lia|]). by apply elem_of_nil in H. Qed.

Lemma small_tok_in o : o = 0 ∨ o = 1 ∨ o = 2 → tok_of small_calls o.
Proof. intros [->|[->| ->]]; eexists _, _, _, _, _; [left|right; left|right; right; left]. Qed.

Lemma small_dictionary : dictionary_of (flat_map (call_entries ascii_lower 1) small_calls) small_built.
Proof.
  destruct (calls_dictionary ascii_lower ascii_lower_chars 1 small_calls small_builder) as (built & Eb & Hd).
  - by apply (bool_decide_unpack _).
  - by vm_compute.
  - by vm_compute.
  - by apply (bool_decide_unpack _).
  - assert (built = small_built) as <-; [|done]. vm_compute in Eb. by injection Eb as <-.
Qed.

Lemma small_texts_of : texts_of ascii_lower small_calls small_own small_ov.
Proof. intros t o w s v ws H. repeat (apply elem_of_cons in H as [[= -> -> -> -> -> ->]|H]; [by vm_compute|]). by apply elem_of_nil in H. Qed.

Lemma ascii_valid s : Forall (λ c, 0 ≤ c < 128) s → valid s.
Proof.
  intros H. exists s. split; [eapply Forall_impl; [exact H|]; intros c Hc; cbn in Hc; unfold is_char; lia|]. induction H as [|c s Hc _ IH]; [done|]. cbn [flat_map]. rewrite <- IH. unfold utf8. by replace (c <? 128) with true by lia.
Qed.

Lemma built_candidates_witness :
  let query := [111; 32; 66; 97; 114; 32; 98] in
  ∃ l, falling_walk_chunks ascii_lower (plain_reader small_built) query = Ret l ∧ ∃ s, s ∈ l ∧ raw_ordinal (parent s) = 0 ∧ sti (parent s) = 2 ∧ remainder_start s = 2.
Proof.
  intros query. destruct (built_candidates ascii_lower ascii_lower 1 small_calls small_own small_ov small_builder query) as (built & Eb & _ & l & El & Hl).
  - exact ascii_lower_chars.
  - done.
  - by apply (bool_decide_unpack _).
  - exact small_texts_of.
  - by vm_compute.
  - by vm_compute.
  - by apply (bool_decide_unpack _).
  - apply ascii_valid. by apply (bool_decide_unpack _).
  - assert (built = small_built) as -> by (vm_compute in Eb; by injection Eb as <-). exists l. split; [exact El|]. apply Hl. split; [|split; [|vm_compute; reflexivity]].
    + clear. split; [apply small_tok_in; lia|]. split; [split; [lia|]|]; vm_compute; reflexivity.
    + clear. split; [by exists [98]|vm_compute; reflexivity].
Defined.
