(* ===== verification/Literal.v ===== *)
(** * Finding a literal: the result

    Over the files of a corpus, [find_literal_v3] with strict separators
    returns only places where the query occurs, and all of them that lie
    within nine tokens, unless a list is cut at the cap. *)
From stdpp Require Import gmap.
From S2P Require Import Prelude Ordering DocFilter SiblingTable TermTexts ParentRecord Text SuffixBuilder SuffixBuild SuffixBuildProofs FstWalk WalkProofs Utf8 Resolve PostingSource ResolveProofs Chains FindLiteral ChainProofs Occurrences SiblingChains LiteralSearch BuiltIndex.
Import source composite walk chains.
Import parents.
Import resolve.
Open Scope Z_scope.

(** The text of the nine tokens from a position on. *)
Definition nine_tokens (docs : list (list Z)) (own : Z → list Z) (d p : Z) : list Z := concat (map own (take 9 (drop (Z.to_nat p) (doc_tokens docs d)))).

Section Search.
Context (to_lowercase : list Z → list Z) (iter : gmap (list Z) (list nat) → list (list Z * list nat)).
Context {F : Type} `{!DocFilter F} `{!DocFilterLaws F} (filter_docs : option F) (ctx : BriquesContext).
Context (docs : list (list Z)) (tok : Z → Prop) (own ov ext : Z → list Z).
Context (Hiter : ∀ g, iter g ≡ₚ map_to_list g) (Hctx : context_ok to_lowercase ctx docs tok own ov ext).

Lemma boundary_in_front (a b : list Z) i : 0 ≤ i < #a → is_char_boundary (a ++ b) i = is_char_boundary a i.
Proof using.
  intros Hi. unfold is_char_boundary. destruct (i =? 0); [done|]. rewrite len_app. pose proof (len_nonneg b). replace (#a + #b <=? i) with false by lia. replace (#a <=? i) with false by lia.
  rewrite lookup_app_l by (unfold len in *; lia). done.
Qed.

(** An occurrence is held by its first token or runs through some others. *)
Lemma occurrence_cases q d p si : valid q → q ≠ [] → occurs docs own q d p si → si + #q ≤ #(nine_tokens docs own d p) →
  held docs tok own ov q d p si ∨ ∃ o rest os, run_through docs tok own ov q d p si o rest os.
Proof using Hctx.
  intros Hv Hne (o & Hat & Hsi & Hpre) Hlen. pose proof (cx_corpus _ _ _ _ _ _ _ Hctx) as Hco. destruct (co_tokens _ _ _ _ _ Hco d p o Hat) as [Ht _].
  destruct (co_follows _ _ _ _ _ Hco d p o Hat) as [Hov Hex]. destruct (corpus_at_range _ _ _ _ Hat) as [Hp Hlook].
  assert (suffix_at tok own o si) as Hsa.
  { split; [done|]. split; [done|]. rewrite <- (boundary_in_front _ (text_from docs own d (p + 1))), <- (text_from_at _ _ _ _ _ Hat) by done. apply (boundary_prefix _ _ q); [lia|done..]. }
  rewrite (text_after docs own d p o si Hat Hsi) in Hpre. destruct (decide (q `prefix_of` suffix own o si ++ ov o)) as [Hin|Hout]; [left; by exists o|]. right.
  destruct (prefix_split _ _ _ Hpre) as [Hc|(rest & Eq & Hrne & Hrest)]; [destruct Hout; by apply prefix_app_r|].
  assert (runs_past (ov o) rest) as Hpast.
  { eapply past_overlap; [exact Hrest|by etrans|]. intros H. apply Hout. rewrite Eq. by apply prefix_app. }
  destruct (text_spelled docs tok own ov ext Hco 8 d (p + 1) rest) as (os & Hpath & Hsp & Hl); [lia|done|done| |].
  - unfold nine_tokens in Hlen. rewrite (drop_S _ _ _ Hlook) in Hlen. cbn [take map concat] in Hlen. rewrite Eq, !len_app, suffix_len in Hlen by done.
    replace (Z.to_nat (p + 1)) with (S (Z.to_nat p)) by lia. unfold len in *. cbn [take] in *. lia.
  - exists o, rest, os. done.
Qed.

(** What [find_literal_v3] returns. *)
Lemma literal_search query : lower_ok to_lowercase query → let ql := to_lowercase query in ql ≠ [] → #query < 2 ^ 31 → #ql < 2 ^ 31 →
  ∃ n K, ∀ fuel cap, (n ≤ fuel)%nat → 0 ≤ cap → ∃ ms, find_literal_strict cap to_lowercase iter fuel filter_docs ctx query false = Ret ms ∧
    found filter_docs docs tok own ext ql (#query = #ql ∧ sibling_v3 ctx = None) (#query = #ql) (K ≤ cap) (λ d p si, occurs docs own ql d p si ∧ si + #ql ≤ #(nine_tokens docs own d p)) ms.
Proof using Hctx Hiter DocFilterLaws0.
  intros Hl ql Hne Hsize Hsize'. unfold find_literal_strict.
  destruct (singles_found to_lowercase filter_docs ctx docs tok own ov ext Hctx query Hl Hsize) as (cands & K1 & -> & Hcands & F1).
  destruct (cross_found to_lowercase iter filter_docs ctx docs tok own ov ext Hiter Hctx query cands Hl Hsize' Hcands) as (n2 & K2 & walked & linked & Hrun2 & F2).
  set (half := half_of ctx query) in *.
  assert (∃ n3 K3, ∀ fuel cap, (n3 ≤ fuel)%nat → 0 ≤ cap → ∃ res, (if 0 <? half then second_token_anchored_v3 cap to_lowercase iter fuel filter_docs ctx query half else Ret []) = Ret res ∧
    found filter_docs docs tok own ext ql True True (K3 ≤ cap) (λ d p si, ∃ h, 1 ≤ h < half + 1 ∧ short_run docs tok own ov h ql d p si) res) as (n3 & K3 & F3).
  { destruct (Z.ltb_spec 0 half) as [Hhalf|Hhalf].
    - unfold second_token_anchored_v3. assert (∃ pm tr, posmap ctx = Some pm ∧ texts ctx = Some tr) as (pm & tr & Epm & Etr).
      { clear -Hhalf. unfold half, half_of in Hhalf. destruct (posmap ctx); [|done]. destruct (texts ctx); [|done]. eauto. }
      rewrite Epm, Etr. cbn [is_some andb].
      apply (anchored_loop_found to_lowercase iter filter_docs ctx docs tok own ov ext Hiter Hctx pm tr Epm Etr query (half + 1) (Z.to_nat (half + 1 - 1)) Hl Hsize' 1); done.
    - exists 0%nat, 0. intros fuel cap _ _. exists []. split; [done|]. split; [intros m []%elem_of_nil|]. intros _ d p si (h & Hh & _). lia. }
  exists (n2 + n3)%nat, (Z.max K1 (Z.max K2 K3)). intros fuel cap Hf Hcap. rewrite bind_ret. destruct (Hrun2 fuel) as [-> E2]; [lia|]. rewrite bind_ret, E2, bind_ret.
  destruct (F2 cap Hcap) as (r2 & -> & F2'). rewrite bind_ret. destruct (F3 fuel cap) as (r3 & -> & F3'); [lia|done|]. rewrite bind_ret.
  eexists. split; [done|]. assert (∀ r r' q e x f P, r' ≡ₚ r → found filter_docs docs tok own ext q e x f P r → found filter_docs docs tok own ext q e x f P r') as Hperm.
  { intros r r' q e x f P Hp [S C]. split; [intros m; rewrite Hp; apply S|]. setoid_rewrite Hp. exact C. }
  set (E := #query = #ql ∧ sibling_v3 ctx = None).
  pose proof (found_mono _ _ _ _ _ _ _ _ _ E (#query = #ql) (K1 ≤ cap) _ _ _ (F1 cap Hcap) (@proj1 _ _) (λ H, H) (λ H, H) (λ _ _ _ H, H)) as G1.
  pose proof (found_mono _ _ _ _ _ _ _ _ _ E (#query = #ql) (K2 ≤ cap) _ _ _ F2' (@proj2 _ _) (λ _, I) (λ H, H) (λ _ _ _ H, H)) as G2.
  pose proof (found_mono _ _ _ _ _ _ _ _ _ E (#query = #ql) (K3 ≤ cap) _ _ _ F3' (λ _, I) (λ _, I) (λ H, H) (λ _ _ _ H, H)) as G3.
  eapply Hperm; [apply merge_sort_Permutation|]. eapply found_mono.
  - apply found_app; [exact G1|]. apply found_app; [exact G2|exact G3].
  - done.
  - done.
  - lia.
  - intros d p si [Hocc Hlen]. destruct (occurrence_cases ql d p si (lo_valid _ _ Hl) Hne Hocc Hlen) as [Hh|(o & rest & os & Hrun)]; [by left|]. right.
    destruct (Z.lt_ge_cases half #(suffix own o si)) as [Hlong|Hsh]; [left; by exists o, rest, os|]. destruct (Z.le_gt_cases half 0) as [H0|H0]; [left; exists o, rest, os; split; [done|lia]|].
    right. exists #(suffix own o si). split; [|by exists o, rest, os]. destruct Hrun as (_ & (_ & Hsi & _) & _). pose proof (suffix_len own o si Hsi). lia.
Qed.
End Search.

(** C3. A literal is found.  Over an index of a corpus, whose files are those
    the code writes for tokens that have as many bytes as their lower case,
    with or without a sibling table, and for any query
    of less than 2^31 bytes that is not empty and whose lower case is lower
    case from every character on, there is a number of turns and a cap from
    which on [find_literal_v3] with strict separators returns, below the cap
    too.  Every match is in a document the filter keeps and starts, at its
    position and byte of it, where the lower-case query occurs in the text.
    It ends where the occurrence ends, or the occurrence lies in one token and
    what its text holds behind it; it always ends there when the query is as
    long as its lower case and there is no sibling table.  Every occurrence
    that lies within nine tokens is among the matches and, when the query is
    as long as its lower case, one of them has its end. *)
Theorem literal_found (to_lowercase : list Z → list Z) (iter : gmap (list Z) (list nat) → list (list Z * list nat))
    {F : Type} `{!DocFilter F} `{!DocFilterLaws F} (filter_docs : option F) (ctx : BriquesContext)
    (docs : list (list Z)) (tok : Z → Prop) (own ov ext : Z → list Z) (query : list Z) :
  (∀ g, iter g ≡ₚ map_to_list g) → context_ok to_lowercase ctx docs tok own ov ext → lower_ok to_lowercase query →
  let ql := to_lowercase query in ql ≠ [] → #query < 2 ^ 31 → #ql < 2 ^ 31 →
  ∃ n K, ∀ fuel cap, (n ≤ fuel)%nat → 0 ≤ cap → ∃ ms, find_literal_strict cap to_lowercase iter fuel filter_docs ctx query false = Ret ms ∧
    (∀ m, m ∈ ms → occurs docs own ql (doc_id m) (position m) (first_off m) ∧ keeps filter_docs (doc_id m) ∧
       (ends_at docs own ext ql m ∨ in_first docs own ext ql m) ∧ (#query = #ql ∧ sibling_v3 ctx = None → ends_at docs own ext ql m)) ∧
    (K ≤ cap → ∀ d p si, occurs docs own ql d p si ∧ si + #ql ≤ #(nine_tokens docs own d p) → keeps filter_docs d →
       ∃ m, m ∈ ms ∧ doc_id m = d ∧ position m = p ∧ first_off m = si ∧ (#query = #ql → ends_at docs own ext ql m)).
Proof.
  intros Hiter Hctx Hl ql Hne Hs Hs'. destruct (literal_search to_lowercase iter filter_docs ctx docs tok own ov ext Hiter Hctx query Hl Hne Hs Hs') as (n & K & H).
  exists n, K. intros fuel cap Hf Hcap. destruct (H fuel cap Hf Hcap) as (ms & E & Hsound & Hcomp). exists ms. split; [done|]. split; [|done]. by intros m (H1 & H2 & _ & H3 & H4 & _)%Hsound.
Qed.

(** ** A small index *)

(** Two documents of these tokens. *)
Definition small_docs : list (list Z) := [[0; 1; 2]; [1; 2]].
Definition small_texts : Texts := {|
  text o := match o with 0 => Some [70; 111; 111; 32; 98; 97; 114; 32] | 1 => Some [98; 97; 114; 32; 66; 97; 122; 122] | 2 => Some [66; 97; 122; 122] | _ => None end;
  meta o := if (0 <=? o) && (o <=? 2) then Some {| termtexts.own_len := 4; termtexts.sep_len := 1; termtexts.overlap_len := 4; termtexts.is_word_start := true; termtexts.is_word_stripped := false |} else None;
|}.
Definition small_ctx (siblings : option (Z → list sibling_table.SiblingEntry)) : BriquesContext := {|
  reader := plain_reader small_built;
  resolver := corpus_resolver small_docs; posmap := Some (corpus_at small_docs); texts := Some small_texts; sibling_v3 := siblings;
|}.
Abbreviation lower := SuffixBuildProofs.ascii_lower.

Lemma lower_idem s : lower (lower s) = lower s.
Proof. unfold SuffixBuildProofs.ascii_lower. rewrite map_map. apply map_ext. intros c. repeat case_match; rewrite ?andb_true_iff in *; lia. Qed.

Lemma lower_lower_ok query : valid (lower query) → lower_ok lower query.
Proof.
  intros Hv. split; [done|done|]. intros a b E _. pose proof (lower_idem query) as H. rewrite E in H. unfold SuffixBuildProofs.ascii_lower in H. rewrite map_app in H.
  by apply app_inj_1 in H as [_ H]; [|by rewrite length_map].
Qed.

Example small_search :
  (ms ← find_literal_strict (F := HashSet) 1000 lower map_to_list 20 None (small_ctx None) [111; 32; 66; 97; 114; 32; 98; 97; 122] false;
   Ret (map (λ m, (doc_id m, position m, first_off m, last_start_pos m, m_last_consumed m)) ms)) = Ret [(0, 0, 2, 1, 7)].
Proof. vm_compute. reflexivity. Qed.

Lemma small_at d p o : corpus_at small_docs d p = Some o → (d, p, o) ∈ [(0, 0, 0); (0, 1, 1); (0, 2, 2); (1, 0, 1); (1, 1, 2)].
Proof.
  intros H. destruct (corpus_at_range _ _ _ _ H) as [Hp _]. unfold doc_tokens in Hp. unfold corpus_at in H. destruct (Z.leb_spec 0 d) as [Hd|]; [|done].
  assert (d = Z.of_nat (Z.to_nat d)) as Ed by lia. assert (p = Z.of_nat (Z.to_nat p)) as Ep by lia. rewrite (proj2 (Z.leb_le 0 p)) in H by lia. cbn [andb] in H. revert Ed Ep H.
  generalize (Z.to_nat d) as i, (Z.to_nat p) as j. intros i j -> ->. do 2 (destruct i as [|i]; [do 3 (destruct j as [|j]; [intros [= <-]; set_solver|]); done|]). done.
Qed.

Lemma small_corpus : corpus_ok small_docs (tok_of small_calls) small_own small_ov small_ov.
Proof.
  split.
  - intros d p o H%small_at. repeat (apply elem_of_cons in H as [[= -> -> ->]|H]; [split; [apply small_tok_in; lia|by vm_compute]|]). by apply elem_of_nil in H.
  - intros d. unfold doc_tokens. destruct (0 <=? d); [|done]. generalize (Z.to_nat d) as i. intros i. do 2 (destruct i as [|i]; [done|]). done.
  - intros d p o H%small_at. split; [done|]. repeat (apply elem_of_cons in H as [[= -> -> ->]|H]; [by apply (bool_decide_unpack _); vm_compute|]). by apply elem_of_nil in H.
Qed.

Lemma small_ctx_ok siblings : (∀ f, siblings = Some f → ∀ o e, fits 32 o → e ∈ f o → fits 32 (sibling_table.next_ordinal e)) →
  context_ok lower (small_ctx siblings) small_docs (tok_of small_calls) small_own small_ov small_ov.
Proof.
  intros Hsib. split; cbn [reader resolver posmap texts small_ctx].
  - exists [entries_held small_built], None. split.
    + apply (built_reader SuffixBuildProofs.ascii_lower ascii_lower_chars 1 small_calls); [by apply (bool_decide_unpack _)|exact small_dictionary|done|done|by apply (bool_decide_unpack _)].
    + apply (built_tokens SuffixBuildProofs.ascii_lower ascii_lower_chars 1 small_calls); [done|by apply (bool_decide_unpack _)|exact small_texts_of|exact small_dictionary].
  - done.
  - exact small_corpus.
  - done.
  - apply _.
  - by intros o [->|[->| ->]]%small_tok.
  - intros o d p _. symmetry. apply corpus_posmap.
  - by intros pm [= <-].
  - intros t [= <-]. split. intros o [->|[->| ->]]%small_tok; (eexists _, _; split; [done|]; split; [done|]; split; [done|]; split; [by vm_compute|]; split; [done|]; split; [done|]; split; [done|]).
    all: apply ascii_valid; by apply (bool_decide_unpack _).
  - by intros o [->|[->| ->]]%small_tok.
  - exact Hsib.
Qed.

(** The tokens that follow each other. *)
Definition small_siblings (o : Z) : list sibling_table.SiblingEntry := if (o =? 0) || (o =? 1) then [{| sibling_table.next_ordinal := o + 1; sibling_table.gap_len := 0 |}] else [].

Lemma small_siblings_fit f : Some small_siblings = Some f → ∀ o e, fits 32 o → e ∈ f o → fits 32 (sibling_table.next_ordinal e).
Proof. intros [= <-] o e Ho. unfold small_siblings. destruct ((o =? 0) || (o =? 1)) eqn:E; [|by intros []%elem_of_nil]. intros ->%list_elem_of_singleton. cbn. apply orb_true_iff in E as [->%Z.eqb_eq| ->%Z.eqb_eq]; by vm_compute. Qed.

Lemma literal_found_witness :
  let query := [111; 32; 66; 97; 114; 32; 98; 97; 122] in
  ∃ n K, ∀ fuel cap, (n ≤ fuel)%nat → 0 ≤ cap → ∃ ms, find_literal_strict (F := HashSet) cap lower map_to_list fuel None (small_ctx (Some small_siblings)) query false = Ret ms ∧
    (∀ m, m ∈ ms → occurs small_docs small_own (lower query) (doc_id m) (position m) (first_off m)) ∧
    (K ≤ cap → ∃ m, m ∈ ms ∧ doc_id m = 0 ∧ position m = 0 ∧ first_off m = 2 ∧ ends_at small_docs small_own small_ov (lower query) m).
Proof.
  intros query. destruct (literal_found (F := HashSet) lower map_to_list None (small_ctx (Some small_siblings)) small_docs (tok_of small_calls) small_own small_ov small_ov query) as (n & K & H).
  - done.
  - apply small_ctx_ok, small_siblings_fit.
  - apply lower_lower_ok, ascii_valid. by apply (bool_decide_unpack _).
  - done.
  - done.
  - done.
  - exists n, K. intros fuel cap Hf Hcap. destruct (H fuel cap Hf Hcap) as (ms & E & Hs & Hc). exists ms. split; [done|]. split.
    + intros m Hm. by destruct (Hs m Hm) as (H1 & _).
    + intros HK. destruct (Hc HK 0 0 2) as (m & Hm & Ed & Ep & Ef & He); [|done|exists m; split_and!; try done; by apply He]. split; [|by vm_compute]. exists 0. split; [done|]. split; [by vm_compute|]. by apply (bool_decide_unpack _); vm_compute.
Defined.
