(* ===== verification/LiteralLimits.v ===== *)
(** * Finding a literal: limits

    Two things [find_literal_v3] does that its comments do not say: a literal
    longer than ten chunks and what the texts hold behind the last is never
    found, and with a sibling table a match can be reported a second time with
    an end past the occurrence. *)
From stdpp Require Import gmap.
From S2P Require Import Prelude Ordering DocFilter SiblingTable TermTexts ParentRecord Text EqualChunk SuffixBuilder SuffixBuild SuffixBuildProofs FstWalk WalkProofs Utf8 Resolve PostingSource ResolveProofs Chains FindLiteral ChainProofs Occurrences SiblingChains LiteralSearch BuiltIndex Literal.
Import source composite walk chains.
Import parents.
Import resolve.
Open Scope Z_scope.

(** ** Ten tokens *)

Section Long.
Context (docs : list (list Z)) (tok : Z → Prop) (own ext : Z → list Z) (w v : Z) (Hw : ∀ o, tok o → #(own o) ≤ w ∧ #(ext o) ≤ v) (Htok : ∀ d p o, corpus_at docs d p = Some o → tok o).

Lemma tokens_width n d p : #(concat (map own (take n (drop (Z.to_nat p) (doc_tokens docs d))))) ≤ Z.of_nat n * Z.max 0 w.
Proof using Hw Htok.
  assert (∀ o, o ∈ take n (drop (Z.to_nat p) (doc_tokens docs d)) → #(own o) ≤ Z.max 0 w) as Hall.
  { intros o [j Hj]%list_elem_of_lookup. apply lookup_take_Some in Hj as [Hj _]. rewrite lookup_drop in Hj. assert (corpus_at docs d (Z.of_nat (Z.to_nat p + j)) = Some o) as Hc by (by rewrite corpus_at_tokens, Nat2Z.id by lia).
    destruct (Hw o (Htok _ _ _ Hc)). lia. }
  revert Hall. assert (∀ l, (∀ o, o ∈ l → #(own o) ≤ Z.max 0 w) → #(concat (map own l)) ≤ Z.of_nat (length l) * Z.max 0 w) as Hsum.
  { induction l as [|o l IH]; intros H; [done|]. cbn [map concat length]. rewrite len_app. pose proof (H o ltac:(by left)). pose proof (IH ltac:(intros x Hx; apply H; by right)). lia. }
  intros Hall%Hsum. assert (length (take n (drop (Z.to_nat p) (doc_tokens docs d))) ≤ n)%nat by (rewrite length_take; lia). nia.
Qed.

(** A match of ten tokens is no longer than they are. *)
Lemma match_length q m : placeable docs tok m → ends_at docs own ext q m ∨ in_first docs own ext q m → 0 ≤ first_off m → span m ≤ 10 → #q ≤ 10 * w + v.
Proof using Hw Htok.
  intros (_ & _ & Esp & Hlast) Hend Hoff Hten. destruct Hend as [(Hle & He & l & Hl & Hc)|(o & Ho & Hle)].
  - destruct (Hw l (Htok _ _ _ Hl)). pose proof (len_nonneg (own l)). pose proof (tokens_width (Z.to_nat (last_start_pos m - position m)) (doc_id m) (position m)). nia.
  - destruct (Hw o (Htok _ _ _ Ho)). pose proof (len_nonneg (own o)). lia.
Qed.
End Long.

(** C9. A long literal is never found.  Over an index of a corpus whose
    tokens have at most [w] bytes, and at most [v] behind them in the texts,
    for any query whose lower case has more than [10 w + v] bytes,
    [find_literal_v3] with strict separators returns no match, whatever the
    documents hold, from some number of turns on and at any cap: a chain gives
    up after eight tokens behind the first, and one more token in front of it
    is looked at. *)
Theorem long_literal_lost (to_lowercase : list Z → list Z) (iter : gmap (list Z) (list nat) → list (list Z * list nat))
    {F : Type} `{!DocFilter F} `{!DocFilterLaws F} (filter_docs : option F) (ctx : BriquesContext)
    (docs : list (list Z)) (tok : Z → Prop) (own ov ext : Z → list Z) (w v : Z) (query : list Z) :
  (∀ g, iter g ≡ₚ map_to_list g) → context_ok to_lowercase ctx docs tok own ov ext → lower_ok to_lowercase query → (∀ o, tok o → #(own o) ≤ w ∧ #(ext o) ≤ v) →
  let ql := to_lowercase query in ql ≠ [] → #query < 2 ^ 31 → #ql < 2 ^ 31 → 10 * w + v < #ql →
  ∃ n, ∀ fuel cap, (n ≤ fuel)%nat → 0 ≤ cap → find_literal_strict cap to_lowercase iter fuel filter_docs ctx query false = Ret [].
Proof.
  intros Hiter Hctx Hl Hw ql Hne Hs Hs' Hlong. destruct (literal_search to_lowercase iter filter_docs ctx docs tok own ov ext Hiter Hctx query Hl Hne Hs Hs') as (n & K & H).
  exists n. intros fuel cap Hf Hcap. destruct (H fuel cap Hf Hcap) as (ms & -> & Hsound & _). destruct ms as [|m ms]; [done|]. exfalso.
  destruct (Hsound m ltac:(by left)) as ((o & _ & Hoff & _) & _ & Hpl & Hend & _ & Hten).
  pose proof (match_length docs tok own ext w v Hw (λ d p o H, proj1 (co_tokens _ _ _ _ _ (cx_corpus _ _ _ _ _ _ _ Hctx) d p o H)) ql m Hpl Hend ltac:(lia) Hten). lia.
Qed.

(** A document of thirteen tokens of four letters, with two behind each but the
    last. *)
Definition letters_calls : list call := [Token (replicate 6 97) 0 4 0 2 true; Token (replicate 4 97) 1 4 0 0 false].
Definition letters_docs : list (list Z) := [replicate 12 0 ++ [1]].
Definition letters_own (_ : Z) : list Z := replicate 4 97.
Definition letters_ov (o : Z) : list Z := if o =? 0 then replicate 2 97 else [].
Definition letters_builder : builder.SuffixFstBuilderV3 :=
  Eval vm_compute in value_of (builder.with_min_suffix_len 1) (foldM (apply_call lower) (builder.with_min_suffix_len 1) letters_calls).
Definition letters_built : builder.Built :=
  Eval vm_compute in match builder.build letters_builder with Ret (builder.Ok b) => b | _ => small_built end.
Definition letters_texts : Texts := {|
  text o := if o =? 0 then Some (replicate 6 97) else if o =? 1 then Some (replicate 4 97) else None;
  meta o := if (o =? 0) || (o =? 1) then Some {| termtexts.own_len := 4; termtexts.sep_len := 0; termtexts.overlap_len := if o =? 0 then 2 else 0; termtexts.is_word_start := o =? 0; termtexts.is_word_stripped := false |} else None;
|}.
Definition letters_ctx : BriquesContext := {|
  reader := plain_reader letters_built; resolver := corpus_resolver letters_docs; posmap := Some (corpus_at letters_docs); texts := Some letters_texts; sibling_v3 := None;
|}.

Lemma letters_tok o : tok_of letters_calls o ↔ o = 0 ∨ o = 1.
Proof.
  split; [|intros [->| ->]; eexists _, _, _, _, _; [left|right; left]]. intros (t & w & s & v & ws & H). repeat (apply elem_of_cons in H as [[= ? ? ? ? ? ?]|H]; [lia|]). by apply elem_of_nil in H.
Qed.

Lemma letters_at d p o : corpus_at letters_docs d p = Some o → d = 0 ∧ (p, o) ∈ imap (λ i o, (Z.of_nat i, o)) (replicate 12 0 ++ [1]).
Proof.
  unfold corpus_at. destruct ((0 <=? d) && (0 <=? p)) eqn:E; [|done]. apply andb_true_iff in E as [Hd%Z.leb_le Hp%Z.leb_le]. intros H. destruct (Z.to_nat d) as [|i] eqn:Ed; [|done]. split; [lia|].
  rewrite <- (Z2Nat.id p Hp). apply list_elem_of_lookup. exists (Z.to_nat p). rewrite list_lookup_imap. change ((replicate 12 0 ++ [1]) !! Z.to_nat p = Some o) in H. by rewrite H.
Qed.

Lemma letters_corpus : corpus_ok letters_docs (tok_of letters_calls) letters_own letters_ov letters_ov.
Proof.
  split.
  - intros d p o [_ H]%letters_at. cbn in H. repeat (apply elem_of_cons in H as [[= -> ->]|H]; [split; [apply letters_tok; lia|by vm_compute]|]). by apply elem_of_nil in H.
  - intros d. unfold doc_tokens. destruct (0 <=? d); [|done]. by destruct (Z.to_nat d).
  - intros d p o [-> H]%letters_at. split; [done|]. cbn in H. repeat (apply elem_of_cons in H as [[= -> ->]|H]; [by apply (bool_decide_unpack _); vm_compute|]). by apply elem_of_nil in H.
Qed.

Lemma letters_dictionary : dictionary_of (flat_map (call_entries lower 1) letters_calls) letters_built.
Proof.
  destruct (calls_dictionary lower ascii_lower_chars 1 letters_calls letters_builder) as (built & Eb & Hd).
  - by apply (bool_decide_unpack _).
  - by vm_compute.
  - by vm_compute.
  - by apply (bool_decide_unpack _).
  - assert (built = letters_built) as <-; [|done]. vm_compute in Eb. by injection Eb as <-.
Qed.

Lemma letters_ctx_ok : context_ok lower letters_ctx letters_docs (tok_of letters_calls) letters_own letters_ov letters_ov.
Proof.
  assert (texts_of lower letters_calls letters_own letters_ov) as Htexts.
  { intros t o w s v ws H. repeat (apply elem_of_cons in H as [[= -> -> -> -> -> ->]|H]; [by vm_compute|]). by apply elem_of_nil in H. }
  split; cbn [reader resolver posmap texts letters_ctx].
  - exists [entries_held letters_built], None. split.
    + apply (built_reader lower ascii_lower_chars 1 letters_calls); [by apply (bool_decide_unpack _)|exact letters_dictionary|done|done|by apply (bool_decide_unpack _)].
    + apply (built_tokens lower ascii_lower_chars 1 letters_calls); [done|by apply (bool_decide_unpack _)|exact Htexts|exact letters_dictionary].
  - done.
  - exact letters_corpus.
  - done.
  - apply _.
  - by intros o [->| ->]%letters_tok.
  - intros o d p _. symmetry. apply corpus_posmap.
  - by intros pm [= <-].
  - intros t [= <-]. split. intros o [->| ->]%letters_tok; (eexists _, _; split; [done|]; split; [done|]; split; [done|]; split; [by vm_compute|]; split; [done|]; split; [done|]; split; [done|]).
    all: apply ascii_valid; by apply (bool_decide_unpack _).
  - by intros o [->| ->]%letters_tok.
  - done.
Qed.

Lemma long_literal_lost_witness :
  let query := replicate 45 97 in
  occurs letters_docs letters_own (lower query) 0 0 0 ∧
  ∃ n, ∀ fuel cap, (n ≤ fuel)%nat → 0 ≤ cap → find_literal_strict (F := HashSet) cap lower map_to_list fuel None letters_ctx query false = Ret [].
Proof.
  intros query. split; [exists 0; split; [done|]; split; [by vm_compute|]; by apply (bool_decide_unpack _); vm_compute|].
  apply (long_literal_lost (F := HashSet) lower map_to_list None letters_ctx letters_docs (tok_of letters_calls) letters_own letters_ov letters_ov 4 2 query).
  - done.
  - exact letters_ctx_ok.
  - apply lower_lower_ok, ascii_valid. by apply (bool_decide_unpack _).
  - by intros o [->| ->]%letters_tok.
  - done.
  - done.
  - done.
  - done.
Defined.

(** ** An index of one document

    The chunks of an ASCII text in lower case, each with the first two bytes
    of the next one, as tokens in the order of the text. *)
Section One.
Context (chunks : list (list Z)) (sep : Z → Z) (siblings : option (Z → list sibling_table.SiblingEntry)).

Definition chunk (i : Z) : list Z := default [] (chunks !! Z.to_nat i).
Definition follow (i : Z) : list Z := take 2 (chunk (i + 1)).
Definition chunk_calls : list call := map (λ i, Token (chunk i ++ follow i) i #(chunk i) (sep i) #(follow i) (i =? 0)) (range 0 #chunks).
Definition one_doc : list (list Z) := [range 0 #chunks].
Definition one_built : out builder.Built :=
  b ← foldM (apply_call lower) (builder.with_min_suffix_len 1) chunk_calls;
  r ← builder.build b;
  match r with builder.Ok built => Ret built | builder.Err _ => Panic end.
Definition one_texts : Texts := {|
  text o := if (0 <=? o) && (o <? #chunks) then Some (chunk o ++ follow o) else None;
  meta o := if (0 <=? o) && (o <? #chunks) then Some {| termtexts.own_len := #(chunk o); termtexts.sep_len := sep o; termtexts.overlap_len := #(follow o); termtexts.is_word_start := o =? 0; termtexts.is_word_stripped := false |} else None;
|}.
Definition one_ctx (built : builder.Built) : BriquesContext := {|
  reader := plain_reader built; resolver := corpus_resolver one_doc; posmap := Some (corpus_at one_doc); texts := Some one_texts; sibling_v3 := siblings;
|}.

(** Where the matches of a query are: position and byte of the start, start of
    the last token and bytes of it. *)
Definition search_one (query : list Z) : out (list (Z * Z * Z * Z)) :=
  built ← one_built;
  ms ← find_literal_strict (F := HashSet) 10000 lower map_to_list 1000 None (one_ctx built) query false;
  Ret (map (λ m, (position m, first_off m, last_start_pos m, m_last_consumed m)) ms).
End One.

(** A word of ninety-six letters, eight of each, and its chunks. *)
Definition long_word : list Z := concat (map (λ i, replicate 8 (97 + i)) (range 0 12)).
Definition long_chunks : list (list Z) := map (λ i, replicate 8 (97 + i)) (range 0 12).

Definition chunks_of (t : list Z) : out (list (list Z)) := map fst <$> equal_chunk.segment_and_chunk t equal_chunk.DEFAULT_MAX_TOKEN.

(** "foo" and thirteen spaces, in two chunks. *)
Definition spaces_text : list Z := [102; 111; 111] ++ replicate 13 32.
Definition spaces_chunks : list (list Z) := [[102; 111; 111] ++ replicate 5 32; replicate 8 32].
Definition spaces_siblings : Z → list sibling_table.SiblingEntry := λ o, if o =? 0 then [{| sibling_table.next_ordinal := 1; sibling_table.gap_len := 0 |}] else [].

(** A word of 96 letters is cut into twelve
    chunks of eight; a strict search for the whole word, which is there, returns
    nothing, although it returns: a chain gives up after eight tokens behind
    the second one.  The first 82 letters, ten chunks and the overlap of the
    tenth, are found, the first 83 are not. *)
Example long_literal_not_found :
  chunks_of long_word = Ret long_chunks ∧ occurs (one_doc long_chunks) (chunk long_chunks) (lower long_word) 0 0 0 ∧
  search_one long_chunks (λ _, 0) None long_word = Ret [] ∧
  search_one long_chunks (λ _, 0) None (take 82 long_word) = Ret [(0, 0, 9, 10)] ∧
  search_one long_chunks (λ _, 0) None (take 83 long_word) = Ret [].
Proof.
  split; [vm_compute; reflexivity|]. split; [|split; [|split]; vm_compute; reflexivity].
  exists 0. split; [reflexivity|]. split; [vm_compute; by split|]. exists []. vm_compute. reflexivity.
Qed.

(** A match with the wrong end.  In "foo" and thirteen spaces, cut into
    "foo     " and eight spaces, the literal "foo " occurs once.  With a sibling
    table it is reported twice: over its four bytes, and over nine.  The head
    of the second is cut at the end of the token's letters, and the space left
    of the query is looked for in the next token and not behind the letters.
    Without a sibling table only the first is reported. *)
Example sibling_match_too_long :
  chunks_of spaces_text = Ret spaces_chunks ∧
  search_one spaces_chunks (λ o, if o =? 0 then 5 else 8) (Some spaces_siblings) [102; 111; 111; 32] = Ret [(0, 0, 0, 4); (0, 0, 1, 1)] ∧
  #(concat (map (chunk spaces_chunks) (range 0 1))) + 1 = 9 ∧
  search_one spaces_chunks (λ o, if o =? 0 then 5 else 8) None [102; 111; 111; 32] = Ret [(0, 0, 0, 4)].
Proof. split_and!; vm_compute; reflexivity. Qed.
