(* ===== verification/Contains.v ===== *)
(** * Exact substring search ([src/suffix_fst/briques/orchestrator.rs])

    [contains_v3] with strict separators: the matches of [find_literal_v3] are
    given their byte spans, reduced to one per occurrence, checked on the text
    rebuilt around them ([rebuild_window_src] and [rebuild_window_opts] of
    [composite.rs]), and, when asked for, on what stands before and after.

    A string is its bytes; [char::to_lowercase] is a parameter, as is the
    lower case of a string.  What places a position in bytes, the checkpoints
    of the position map or the postings of older segments, is a record of the
    accessors called.  The traces and the counters are left out. *)
From stdpp Require Import gmap.
From S2P Require Import Prelude Ordering DocFilter ParentRecord Text EqualChunk SuffixBuilder FstWalk Resolve SiblingTable TermTexts Chains FindLiteral.
Import text builder walk resolve composite.
Open Scope Z_scope.

Module orchestrator.
Abbreviation is_content_char := equal_chunk.is_content_char.

(** ** Strings *)

(** [str::chars]. *)
Fixpoint chars (s : list Z) : list Z :=
  match s with
  | [] => []
  | a :: s1 =>
      if a <? 0x80 then a :: chars s1 else
      match s1 with
      | [] => []
      | b :: s2 =>
          if a <? 0xE0 then ((a - 0xC0) * 64 + (b - 0x80)) :: chars s2 else
          match s2 with
          | [] => []
          | c :: s3 =>
              if a <? 0xF0 then ((a - 0xE0) * 4096 + (b - 0x80) * 64 + (c - 0x80)) :: chars s3 else
              match s3 with
              | [] => []
              | d :: s4 => ((a - 0xF0) * 262144 + (b - 0x80) * 4096 + (c - 0x80) * 64 + (d - 0x80)) :: chars s4
              end
          end
      end
  end.

(** [&s[..i]] and [&s[i..]]. *)
Definition str_to (s : list Z) (i : Z) : out (list Z) := if is_char_boundary s i then Ret (take (Z.to_nat i) s) else Panic.
Definition str_from (s : list Z) (i : Z) : out (list Z) := if is_char_boundary s i then Ret (drop (Z.to_nat i) s) else Panic.

(** [str::find]. *)
Fixpoint find (needle s : list Z) : option Z :=
  if bool_decide (needle `prefix_of` s) then Some 0 else
  match s with [] => None | _ :: s => Z.add 1 <$> find needle s end.

Record Tok := { t_text : list Z; t_own : Z; t_content : Z }.

(** What [BriquesContext::byte_at] reads: [PosMapReader::byte_at] when the
    position map has checkpoints, [resolve_doc_at] otherwise. *)
Record Offsets := {
  checkpoints : option (Z → Z → (Z → option Z) → option Z);
  posting_byte : Z → Z → Z → option Z;
}.

Definition set_span (m : MatchV3) (from to token_end overflow : Z) : MatchV3 :=
  {| doc_id := doc_id m; position := position m; span := span m; resolve.sti := resolve.sti m; ordinal := ordinal m; last_ordinal := last_ordinal m;
     first_off := first_off m; last_start_pos := last_start_pos m; last_off := last_off m; m_last_consumed := m_last_consumed m;
     byte_from := from; overlap_overflow := overflow; byte_to := to; token_end := token_end |}.

(** [TermTextsReaderV3::has_content]: unknown counts as content. *)
Definition has_content (t : Texts) (ord : Z) : bool :=
  match meta t ord with Some m => termtexts.sep_len m <? termtexts.own_len m | None => true end.

(** ** One match per occurrence *)

(** The occurrence of a match: its bytes, or its position when it has none. *)
Definition key (m : MatchV3) : list Z :=
  [doc_id m; byte_from m; byte_to m; if byte_from m <? byte_to m then 0 else position m + 1].
Definition dedup_occurrences (ms : list MatchV3) : list MatchV3 :=
  let ms := merge_sort (key_le (λ m, key m ++ [position m])) ms in
  let ms := dedup_by (λ a b, bool_decide (key a = key b)) ms in
  merge_sort (key_le (λ m, [doc_id m; position m; byte_from m])) ms.

(** The source bytes of the characters behind a window. *)
Fixpoint src_len (last_src acc : Z) (back : list (Z * Z)) : Z :=
  match back with
  | [] => acc
  | (src, n) :: back => if src =? last_src then src_len last_src acc back else src_len src (acc + n) back
  end.

(** The occurrence that starts closest to [byte_from], by source offsets. *)
Fixpoint closest (fuel : nat) (needle window : list Z) (back : list (Z * Z)) (byte_from from : Z) (best : option (Z * Z)) : out (option (Z * Z)) :=
  match fuel with
  | O => OutOfFuel
  | S fuel =>
      rest ← str_from window from;
      match find needle rest with
      | None => Ret best
      | Some rel =>
          let at_ := from + rel in
          '(s_from, _) ← index back at_;
          '(s_last, n) ← index back (at_ + #needle - 1);
          let cand := (s_from, add32 s_last n) in
          let best := match best with
                      | None => Some cand
                      | Some b => if Z.abs (s_from - byte_from) <? Z.abs (fst b - byte_from) then Some cand else Some b
                      end in
          closest fuel needle window back byte_from (snap_to_char_boundary window (at_ + 1)) best
      end
  end.

(** The occurrence a match reports, by source offset, else the first. *)
Fixpoint reported (fuel : nat) (needle view : list Z) (vmap : list Z) (back : list (Z * Z)) (byte_from from : Z) (occ : option Z) : out (option Z) :=
  match fuel with
  | O => OutOfFuel
  | S fuel =>
      rest ← str_from view from;
      match find needle rest with
      | None => Ret occ
      | Some rel =>
          let at_ := from + rel in
          w ← index vmap at_;
          if bool_decide (fst <$> back !! Z.to_nat w = Some byte_from) then Ret (Some at_) else
          let occ := match occ with None => Some at_ | Some _ => occ end in
          reported fuel needle view vmap back byte_from (snap_to_char_boundary view (at_ + 1)) occ
      end
  end.

Definition MAX_QUERY_LEN : Z := 2048.

Definition effective_query (query : list Z) (strict_separators : bool) : option (list Z) :=
  if (#query =? 0) || (MAX_QUERY_LEN <? #query) then None
  else if strict_separators then Some query
  else match flat_map utf8 (List.filter is_content_char (chars query)) with [] => None | stripped => Some stripped end.

Section Orchestrator.
Context (char_lower : Z → list Z) (ctx : BriquesContext) (offsets : Offsets).

Definition byte_at (doc_id position : Z) : option Z :=
  match posmap ctx with
  | None => None
  | Some pm =>
      match checkpoints offsets with
      | Some byte_at => match texts ctx with None => None | Some tr => byte_at doc_id position (λ ord, termtexts.own_len <$> meta tr ord) end
      | None => match pm doc_id position with None => None | Some ord => posting_byte offsets ord doc_id position end
      end
  end.

(** ** Spans *)

(** The place of a position, kept for the matches that share it. *)
Definition at_cached (last : option (Z * Z * Z)) (doc pos : Z) : option Z * option (Z * Z * Z) :=
  let look := match byte_at doc pos with None => (None, last) | Some b => (Some b, Some (doc, pos, b)) end in
  match last with
  | Some (d, p, b) => if (d =? doc) && (p =? pos) then (Some b, last) else look
  | None => look
  end.

Definition placed (tr : Texts) (m : MatchV3) (first last_chunk : Z) : MatchV3 :=
  match meta tr (as_u32 (last_ordinal m)) with
  | None => m
  | Some meta =>
      let content := saturating_sub (termtexts.own_len meta) (termtexts.sep_len meta) in
      let from := add32 first (first_off m) in
      let last_start := add32 last_chunk (last_off m) in
      let token_end := add32 last_start content in
      let end_ := add32 last_start (m_last_consumed m) in
      if termtexts.is_word_stripped meta
      then set_span m from (Z.max (Z.min end_ token_end) from) token_end (Z.min (saturating_sub end_ token_end) 255)
      else set_span m from (Z.max end_ from) token_end 0
  end.

Definition place_one (tr : Texts) (last : option (Z * Z * Z)) (m : MatchV3) : MatchV3 * option (Z * Z * Z) :=
  match at_cached last (doc_id m) (position m) with
  | (None, last) => (m, last)
  | (Some first, last) =>
      if last_start_pos m =? position m then (placed tr m first first, last)
      else match at_cached last (doc_id m) (last_start_pos m) with
           | (None, last) => (m, last)
           | (Some b, last) => (placed tr m first b, last)
           end
  end.

Fixpoint place_all (tr : Texts) (last : option (Z * Z * Z)) (ms : list MatchV3) : list MatchV3 :=
  match ms with
  | [] => []
  | m :: ms => let '(m, last) := place_one tr last m in m :: place_all tr last ms
  end.

Definition place_spans (ms : list MatchV3) : list MatchV3 :=
  match texts ctx, posmap ctx with
  | Some tr, Some _ => place_all tr None (merge_sort match_le ms)
  | _, _ => ms
  end.

(** The first position with content from [p] on. *)
Fixpoint next_content (fuel : nat) (pm : Z → Z → option Z) (tr : Texts) (doc p : Z) : out (option Z) :=
  match fuel with
  | O => OutOfFuel
  | S fuel =>
      match pm doc p with
      | None => Ret None
      | Some ord => if has_content tr ord then Ret (Some p) else next_content fuel pm tr doc (add32 p 1)
      end
  end.

Definition place_overflow (fuel : nat) (pm : Z → Z → option Z) (tr : Texts) (m : MatchV3) : out MatchV3 :=
  if overlap_overflow m =? 0 then Ret m else
  next ← next_content fuel pm tr (doc_id m) (add32 (position m) (span m));
  match next with
  | None => Ret m
  | Some p => match byte_at (doc_id m) p with
              | None => Ret m
              | Some bf => Ret (set_span m (byte_from m) (add32 bf (overlap_overflow m)) (token_end m) 0)
              end
  end.
Definition place_overlap_overflow (fuel : nat) (ms : list MatchV3) : out (list MatchV3) :=
  match posmap ctx, texts ctx with
  | Some pm, Some tr => mapM_out (place_overflow fuel pm tr) ms
  | _, _ => Ret ms
  end.

(** ** The text around a match *)

(** The characters, without separators when they are stripped, folded. *)
Definition kept (strip : bool) (c : Z) : bool := negb strip || is_content_char c.
Definition folded (strip : bool) (s : list Z) : list Z := flat_map (λ c, flat_map utf8 (char_lower c)) (List.filter (kept strip) (chars s)).

Definition own_of (tr : Texts) (ord : Z) (text : list Z) : Z := Z.min (match meta tr ord with Some m => termtexts.own_len m | None => #text end) #text.

Fixpoint window_src (pm : Z → Z → option Z) (tr : Texts) (doc : Z) (strip : bool) (window : list Z) (ascii : bool) (positions : list Z) : out (list Z * bool) :=
  match positions with
  | [] => Ret (window, ascii)
  | pos :: positions =>
      match pm doc pos with
      | None => Ret (window, ascii)
      | Some ord =>
          match text tr ord with
          | None => Ret (window, ascii)
          | Some text =>
              src ← str_to text (own_of tr ord text);
              window_src pm tr doc strip (window ++ folded strip src) (ascii && is_ascii src) positions
          end
      end
  end.
Definition rebuild_window_src (doc first_pos last_pos margin : Z) (strip : bool) : out (option (list Z * bool)) :=
  match posmap ctx, texts ctx with
  | Some pm, Some tr =>
      '(window, ascii) ← window_src pm tr doc strip [] true (range (saturating_sub first_pos margin) (Z.min (last_pos + margin) (2 ^ 32 - 1) + 1));
      Ret (match window with [] => None | _ => Some (window, ascii) end)
  | _, _ => Ret None
  end.

Section Window.
Context (pm : Z → Z → option Z) (tr : Texts) (doc : Z) (strip lowercase : bool) (margin max_extra_positions : Z).

Definition tok (pos : Z) : out (option Tok) :=
  match pm doc pos with
  | None => Ret None
  | Some ord =>
      match text tr ord with
      | None => Ret None
      | Some text =>
          let own := own_of tr ord text in
          content ← (if strip then src ← str_to text own; Ret (str_len (List.filter is_content_char (chars src))) else Ret own);
          Ret (Some {| t_text := text; t_own := own; t_content := content |})
      end
  end.

Fixpoint toks_of (positions : list Z) : out (list (Z * Tok)) :=
  match positions with
  | [] => Ret []
  | pos :: positions => t ← tok pos; match t with None => Ret [] | Some t => ts ← toks_of positions; Ret ((pos, t) :: ts) end
  end.

(** At most [max_extra_positions] turns. *)
Fixpoint margin_before (fuel : nat) (first_pos from have : Z) (toks : list (Z * Tok)) : out (Z * list (Z * Tok)) :=
  match fuel with
  | O => Ret (from, toks)
  | S fuel =>
      if (0 <? from) && (have <? margin) && (first_pos - from <? max_extra_positions) then
        t ← tok (from - 1);
        match t with
        | None => Ret (from, toks)
        | Some t => margin_before fuel first_pos (from - 1) (have + t_content t) ((from - 1, t) :: toks)
        end
      else Ret (from, toks)
  end.
Fixpoint margin_after (fuel : nat) (last_pos to have : Z) (toks : list (Z * Tok)) : out (Z * list (Z * Tok)) :=
  match fuel with
  | O => Ret (to, toks)
  | S fuel =>
      if (have <? margin) && (to - last_pos <? max_extra_positions) then
        t ← tok (add32 to 1);
        match t with
        | None => Ret (to, toks)
        | Some t => margin_after fuel last_pos (add32 to 1) (have + t_content t) (toks ++ [(add32 to 1, t)])
        end
      else Ret (to, toks)
  end.

(** The bytes of a character in the window, each with the place it comes
    from. *)
Definition push_char (bf : Z) (oc : Z * Z) : list (Z * (Z * Z)) :=
  let '(off, c) := oc in
  if negb (kept strip c) then [] else
  map (λ b, (b, (add32 bf off, as_u8 (len_utf8 c)))) (if lowercase then flat_map utf8 (char_lower c) else utf8 c).
Fixpoint push_toks (acc : Z) (toks : list (Z * Tok)) : out (list (Z * (Z * Z))) :=
  match toks with
  | [] => Ret []
  | (_, t) :: toks =>
      src ← str_to (t_text t) (t_own t);
      more ← push_toks (add32 acc (t_own t)) toks;
      Ret (flat_map (push_char acc) (char_indices (chars src)) ++ more)
  end.
End Window.

(** The window, for each of its bytes the source offset and length of its
    character, and whether the document goes on before and after it. *)
Definition rebuild_window_opts (doc first_pos last_pos margin : Z) (strip lowercase : bool) (max_extra_positions : Z) : out (option (list Z * list (Z * Z) * (bool * bool))) :=
  match posmap ctx, texts ctx with
  | Some pm, Some tr =>
      toks ← toks_of pm tr doc strip (range first_pos (last_pos + 1));
      match last toks with
      | None => Ret None
      | Some (last_pos, _) =>
          '(from, toks) ← margin_before pm tr doc strip margin max_extra_positions (Z.to_nat max_extra_positions) first_pos first_pos 0 toks;
          '(to, toks) ← margin_after pm tr doc strip margin max_extra_positions (Z.to_nat max_extra_positions) last_pos last_pos 0 toks;
          match byte_at doc from with
          | None => Ret None
          | Some base =>
              bytes ← push_toks strip lowercase base toks;
              Ret (match bytes with [] => None | _ => Some (map fst bytes, map snd bytes, (0 <? from, is_some (pm doc (add32 to 1)))) end)
          end
      end
  | _, _ => Ret None
  end.

(** ** [verify_literal] *)

(** The match if it is kept, and whether its span changed. *)
Definition verify_one (needle : list Z) (strip : bool) (m : MatchV3) : out (option (MatchV3 * bool)) :=
  let last_pos := add32 (position m) (saturating_sub (span m) 1) in
  w ← rebuild_window_src (doc_id m) (position m) last_pos 1 strip;
  match w : option (list Z * bool) with
  | None => Ret (Some (m, false))
  | Some (window, src_ascii) =>
      match find needle window with
      | None => Ret None
      | Some _ =>
          if src_ascii then Ret (Some (m, false)) else
          w ← rebuild_window_opts (doc_id m) (position m) last_pos 1 strip true 64;
          match w : option (list Z * list (Z * Z) * (bool * bool)) with
          | None => Ret (Some (m, false))
          | Some (window, back, _) =>
              if src_len (2 ^ 32 - 1) 0 back =? #window then Ret (Some (m, false)) else
              best ← closest (S (length window)) needle window back (byte_from m) 0 None;
              Ret (Some (match best with
                         | Some (bf, bt) => if negb (bf =? byte_from m) || negb (bt =? byte_to m) then (set_span m bf bt (token_end m) (overlap_overflow m), true) else (m, false)
                         | None => (m, false)
                         end))
          end
      end
  end.
Fixpoint verify_each (needle : list Z) (strip : bool) (ms : list MatchV3) : out (list MatchV3 * bool) :=
  match ms with
  | [] => Ret ([], false)
  | m :: ms =>
      r ← verify_one needle strip m;
      '(l, refolded) ← verify_each needle strip ms;
      Ret (match r with None => (l, refolded) | Some (m, changed) => (m :: l, changed || refolded) end)
  end.
Definition verify_literal (query : list Z) (strict_separators : bool) (ms : list MatchV3) : out (list MatchV3) :=
  if bool_decide (ms = []) || negb (is_some (posmap ctx)) || negb (is_some (texts ctx)) then Ret ms else
  match folded (negb strict_separators) query with
  | [] => Ret ms
  | needle =>
      '(ms, refolded) ← verify_each needle (negb strict_separators) ms;
      Ret (if refolded : bool then dedup_occurrences ms else ms)
  end.

(** ** [verify_boundaries] *)

Definition view_of (strip : bool) (win : list Z) : list (Z * Z) :=
  flat_map (λ ic : Z * Z, if kept strip ic.2 then map (λ b, (b, ic.1)) (utf8 ic.2) else []) (char_indices (chars win)).

Definition on_boundaries (needle : list Z) (strip anchor_start exact_match : bool) (m : MatchV3) : out bool :=
  w ← rebuild_window_opts (doc_id m) (position m) (add32 (position m) (saturating_sub (span m) 1)) 1 false true 64;
  match w : option (list Z * list (Z * Z) * (bool * bool)) with
  | None => Ret true
  | Some (win, back, (cut_start, cut_end)) =>
      let view := map fst (view_of strip win) in
      let vmap := map snd (view_of strip win) in
      occ ← reported (S (length view)) needle view vmap back (byte_from m) 0 None;
      match occ with
      | None => Ret false
      | Some at_ =>
          start_w ← index vmap at_;
          e ← index vmap (at_ + #needle - 1);
          let end_w := snap_to_char_boundary win (e + 1) in
          front ← str_to win start_w;
          rest ← str_from win end_w;
          let starts_word := match last (chars front) with Some c => negb (is_content_char c) | None => negb cut_start end in
          let ends_word := match chars rest with c :: _ => negb (is_content_char c) | [] => negb cut_end end in
          Ret ((negb anchor_start || starts_word) && (negb exact_match || (starts_word && ends_word)))
      end
  end.

Fixpoint retain (f : MatchV3 → out bool) (ms : list MatchV3) : out (list MatchV3) :=
  match ms with [] => Ret [] | m :: ms => b ← f m; l ← retain f ms; Ret (if b : bool then m :: l else l) end.

Definition verify_boundaries (query : list Z) (strict_separators anchor_start exact_match : bool) (ms : list MatchV3) : out (list MatchV3) :=
  match folded (negb strict_separators) query with
  | [] => Ret ms
  | needle => retain (on_boundaries needle (negb strict_separators) anchor_start exact_match) ms
  end.

(** ** [contains_v3] *)

Context (cap : Z) (to_lowercase : list Z → list Z) (iter : gmap (list Z) (list nat) → list (list Z * list nat)) (fuel : nat).
Context {F : Type} `{DocFilter F} (filter_docs : option F).

Definition contains_strict (query : list Z) (anchor_start exact_match : bool) : out (list MatchV3) :=
  match effective_query query true with
  | None => Ret []
  | Some query =>
      ms ← find_literal_strict cap to_lowercase iter fuel filter_docs ctx query anchor_start;
      ms ← place_overlap_overflow fuel (place_spans ms);
      let query_content_len := str_len (List.filter is_content_char (chars query)) in
      let ms := dedup_occurrences ms in
      let can_verify := is_some (posmap ctx) && is_some (texts ctx) in
      let ms := if exact_match && negb can_verify then List.filter (λ m, saturating_sub (token_end m) (byte_from m) =? query_content_len) ms else ms in
      ms ← verify_literal query true ms;
      if (anchor_start || exact_match) && can_verify then verify_boundaries query true anchor_start exact_match ms else Ret ms
  end.
End Orchestrator.

End orchestrator.
