(* ===== verification/ContainsSearch.v ===== *)
(** * Exact substring search: its steps

    Decoding, the cache of places, one match per occurrence, and the text
    rebuilt around a match. *)
From stdpp Require Import gmap.
From S2P Require Import Prelude Ordering DocFilter ParentRecord Text EqualChunk SuffixBuilder SuffixBuild SuffixBuildProofs FstWalk WalkProofs Utf8 Resolve PostingSource SiblingTable TermTexts Chains FindLiteral ChainProofs Occurrences Contains ResolveProofs SiblingChains LiteralSearch BuiltIndex Literal.
Import text builder source walk resolve composite orchestrator.
Open Scope Z_scope.

(** ** Strings *)

Lemma chars_cons c s : is_char c → chars (utf8 c ++ s) = c :: chars s.
Proof.
  intros Hc. unfold is_char in Hc. pose proof (Z.div_mod c 64 ltac:(lia)). pose proof (Z.div_mod (c / 64) 64 ltac:(lia)) as H2. pose proof (Z.div_mod (c / 64 / 64) 64 ltac:(lia)) as H3.
  rewrite !Z.div_div in H2, H3 by lia. change (64 * 64) with 4096 in *. rewrite !Z.div_div in H3 by lia. change (4096 * 64) with 262144 in *.
  pose proof (Z.mod_pos_bound c 64 ltac:(lia)). pose proof (Z.mod_pos_bound (c / 64) 64 ltac:(lia)). pose proof (Z.mod_pos_bound (c / 4096) 64 ltac:(lia)).
  unfold utf8. destruct (Z.ltb_spec c 0x80) as [|]; [|destruct (Z.ltb_spec c 0x800) as [|]; [|destruct (Z.ltb_spec c 0x10000) as [|]]]; cbn [app chars].
  - replace (c <? 128) with true by lia. done.
  - assert (0 ≤ c / 64 < 32) by (split; [apply Z.div_pos; lia|apply Z.div_lt_upper_bound; lia]).
    replace (192 + c / 64 <? 128) with false by lia. replace (192 + c / 64 <? 224) with true by lia. f_equal. lia.
  - assert (0 ≤ c / 4096 < 16) by (split; [apply Z.div_pos; lia|apply Z.div_lt_upper_bound; lia]).
    replace (224 + c / 4096 <? 128) with false by lia. replace (224 + c / 4096 <? 224) with false by lia. replace (224 + c / 4096 <? 240) with true by lia. f_equal. lia.
  - assert (0 ≤ c / 262144 < 5) by (split; [apply Z.div_pos; lia|apply Z.div_lt_upper_bound; lia]).
    replace (240 + c / 262144 <? 128) with false by lia. replace (240 + c / 262144 <? 224) with false by lia. replace (240 + c / 262144 <? 240) with false by lia. f_equal. lia.
Qed.

Lemma chars_utf8 cs : Forall is_char cs → chars (flat_map utf8 cs) = cs.
Proof. induction 1 as [|c cs Hc _ IH]; [done|]. cbn [flat_map]. by rewrite chars_cons, IH. Qed.

Lemma chars_valid s : valid s → Forall is_char (chars s) ∧ s = flat_map utf8 (chars s).
Proof. intros (cs & Hc & ->). by rewrite chars_utf8. Qed.

Lemma find_some needle a b : find needle (a ++ needle ++ b) ≠ None.
Proof.
  induction a as [|x a IH]; cbn [app].
  - assert (needle `prefix_of` needle ++ b) as H by by exists b. destruct (needle ++ b) eqn:E; cbn; rewrite bool_decide_true; done.
  - cbn. case_bool_decide; [done|]. by destruct (find needle (a ++ needle ++ b)).
Qed.

(** ** Places *)

Section Places.
Context (ctx : BriquesContext) (offsets : Offsets).
Local Abbreviation byte_at := (byte_at ctx offsets).

Definition cache_ok (last : option (Z * Z * Z)) : Prop := match last with Some (d, p, b) => byte_at d p = Some b | None => True end.

Lemma at_cached_spec last d p : cache_ok last → fst (at_cached ctx offsets last d p) = byte_at d p ∧ cache_ok (snd (at_cached ctx offsets last d p)).
Proof.
  intros Hc. unfold at_cached. set (look := match byte_at d p with Some b => (Some b, Some (d, p, b)) | None => (None, last) end).
  assert (fst look = byte_at d p ∧ cache_ok (snd look)) as Hlook by (subst look; by destruct (byte_at d p) eqn:E).
  destruct last as [[[d' p'] b]|]; [|exact Hlook]. destruct ((d' =? d) && (p' =? p)) eqn:E; [|exact Hlook].
  apply andb_true_iff in E as [->%Z.eqb_eq ->%Z.eqb_eq]. done.
Qed.

(** A match given its bytes, without the cache. *)
Definition place (tr : Texts) (m : MatchV3) : MatchV3 :=
  match byte_at (doc_id m) (position m), byte_at (doc_id m) (last_start_pos m) with
  | Some first, Some b => placed tr m first b
  | _, _ => m
  end.

(** The cache of places changes nothing. *)
Lemma place_all_map tr ms : ∀ last, cache_ok last → place_all ctx offsets tr last ms = map (place tr) ms.
Proof.
  induction ms as [|m ms IH]; intros last Hc; [done|]. cbn [place_all map]. unfold place_one, place.
  destruct (at_cached_spec last (doc_id m) (position m) Hc) as [E1 Hc1]. destruct (at_cached _ _ last _ _) as [r1 last1]. cbn [fst snd] in *. rewrite <- E1.
  destruct r1 as [first|]; [|by rewrite IH]. destruct (Z.eqb_spec (last_start_pos m) (position m)) as [El|]; [rewrite El, <- E1; by rewrite IH|].
  destruct (at_cached_spec last1 (doc_id m) (last_start_pos m) Hc1) as [E2 Hc2]. destruct (at_cached _ _ last1 _ _) as [r2 last2]. cbn [fst snd] in *. rewrite <- E2. destruct r2; by rewrite IH.
Qed.
End Places.

(** ** One match per occurrence *)

Section Dedup.
Context {A : Type} (key : A → list Z).
Local Abbreviation same := (λ a b, bool_decide (key a = key b)).
Local Abbreviation le := (λ a b, lex_leb (key a) (key b) = true).

Lemma dedup_from_keys l : ∀ a, Forall (le a) l → StronglySorted le l → (∀ x, x ∈ dedup_from same a l → key x ≠ key a) ∧ NoDup (map key (dedup_from same a l)).
Proof using.
  induction l as [|b l IH]; intros a Ha Hs; cbn; [split; [by intros x []%elem_of_nil|constructor]|]. apply Forall_cons in Ha as [Hab Ha]. apply StronglySorted_cons in Hs as [Hb Hs].
  case_bool_decide as E.
  - by apply IH.
  - destruct (IH b Hb Hs) as [H1 H2]. split.
    + intros x [->|Hx]%elem_of_cons; [done|]. intros Ex. apply E, lex_leb_antisym; [|done]. rewrite <- Ex.
      assert (x ∈ b :: l) as [->|Hx']%elem_of_cons by (apply (dedup_by_sub same); by right); [apply lex_leb_refl|]. rewrite Forall_forall in Hb. by apply Hb.
    + cbn. apply NoDup_cons. split; [|done]. intros (x & Ex & Hx)%list_elem_of_In%in_map_iff. by apply (H1 x); [apply list_elem_of_In|].
Qed.

Lemma dedup_by_keys l : StronglySorted le l → NoDup (map key (dedup_by same l)).
Proof using.
  destruct l as [|a l]; [constructor|]. intros [Ha Hl]%StronglySorted_cons. destruct (dedup_from_keys l a Ha Hl) as [H1 H2]. cbn. apply NoDup_cons. split; [|done].
  intros (x & Ex & Hx)%list_elem_of_In%in_map_iff. by apply (H1 x); [apply list_elem_of_In|].
Qed.
End Dedup.

Lemma lex_leb_app a b x y : length a = length b → lex_leb (a ++ x) (b ++ y) = true → lex_leb a b = true.
Proof.
  revert b. induction a as [|i a IH]; intros [|j b] Hl H; [done..|]. cbn in *. apply orb_true_iff in H as [->|[-> H]%andb_true_iff]; [done|]. rewrite (IH b) by (done || lia). by rewrite orb_true_r.
Qed.

Lemma sorted_mono {A} (R R' : A → A → Prop) l : (∀ a b, R a b → R' a b) → StronglySorted R l → StronglySorted R' l.
Proof. intros HR. induction 1 as [|a l _ IH Ha]; constructor; [done|]. eapply Forall_impl; [exact Ha|]. intros b. apply HR. Qed.

(** The matches left are some of those given, one for each occurrence. *)
Lemma dedup_occurrences_spec ms : (∀ m, m ∈ dedup_occurrences ms → m ∈ ms) ∧ (∀ m, m ∈ ms → ∃ m', m' ∈ dedup_occurrences ms ∧ key m' = key m) ∧ NoDup (map key (dedup_occurrences ms)).
Proof.
  unfold dedup_occurrences. set (sorted := merge_sort (key_le (λ m, key m ++ [position m])) ms). assert (sorted ≡ₚ ms) as Hp by apply merge_sort_Permutation. split; [|split].
  - intros m Hm. rewrite merge_sort_Permutation in Hm. apply dedup_by_sub in Hm. by rewrite Hp in Hm.
  - intros m Hm. rewrite <- Hp in Hm. destruct (dedup_by_rep (λ a b, bool_decide (key a = key b)) sorted m) as (m' & Hm' & E%bool_decide_eq_true); [intros; by apply bool_decide_eq_true|done|].
    exists m'. split; [by rewrite merge_sort_Permutation|done].
  - rewrite merge_sort_Permutation. apply dedup_by_keys. eapply sorted_mono; [|apply sort_by_sorted]. intros a b. by apply lex_leb_app.
Qed.

(** ** The text around a match *)

Section Windows.
Context (char_lower : Z → list Z) (Hlower : ∀ c, is_char c → char_lower c ≠ []).

(** The characters of a token in a window: what they say of their source. *)
Lemma src_len_repeat src n (bs : list Z) : ∀ last acc back, bs ≠ [] → last ≠ src → src_len last acc (map (λ _, (src, n)) bs ++ back) = src_len src (acc + n) back.
Proof using.
  intros last acc back Hne Hl. destruct bs as [|b bs]; [done|]. cbn. destruct (Z.eqb_spec src last); [done|]. clear Hne Hl b. induction bs as [|b bs IH]; cbn; [done|]. by rewrite Z.eqb_refl.
Qed.

Lemma lowered_ne c : is_char c → flat_map utf8 (char_lower c) ≠ [].
Proof using Hlower.
  intros Hc E. destruct (char_lower c) as [|x l] eqn:El; [by apply Hlower in El|]. cbn in E. apply app_eq_nil in E as [E _]. unfold utf8 in E. by repeat case_match.
Qed.

Definition fresh (last cur : Z) : Prop := last < cur ∨ last = 2 ^ 32 - 1.

Lemma src_len_chars bf cs : Forall is_char cs → ∀ off last acc back, 0 ≤ bf + off → bf + off + str_len cs < 2 ^ 32 - 1 → fresh last (bf + off) →
  ∃ last', fresh last' (bf + off + str_len cs) ∧
    src_len last acc (map snd (flat_map (push_char char_lower false true bf) (char_indices_from off cs)) ++ back) = src_len last' (acc + str_len cs) back.
Proof using Hlower.
  induction 1 as [|c cs Hc _ IH]; intros off last acc back H0 Hend Hf; cbn [str_len char_indices_from flat_map] in *.
  { exists last. rewrite !Z.add_0_r. by split. }
  pose proof (len_utf8_range c). pose proof (str_len_nonneg cs). rewrite map_app, <- app_assoc. unfold push_char at 1. cbn [kept negb orb]. rewrite map_map. cbn [snd].
  assert (add32 bf off = bf + off) as -> by (apply Z.mod_small; lia). assert (as_u8 (len_utf8 c) = len_utf8 c) as -> by (apply Z.mod_small; lia).
  rewrite src_len_repeat; [|by apply lowered_ne|destruct Hf; lia].
  destruct (IH (off + len_utf8 c) (bf + off) (acc + len_utf8 c) back) as (last' & Hf' & E); [lia|lia|left; lia|]. exists last'. rewrite E. split; [destruct Hf'; [left; lia|by right]|f_equal; lia].
Qed.

Lemma pushed_chars bf cs : ∀ off, map fst (flat_map (push_char char_lower false true bf) (char_indices_from off cs)) = flat_map (λ c, flat_map utf8 (char_lower c)) cs.
Proof using.
  induction cs as [|c cs IH]; intros off; [done|]. cbn [char_indices_from flat_map]. rewrite map_app, IH. f_equal. unfold push_char. cbn [kept negb orb]. rewrite map_map. apply map_id.
Qed.

Lemma folded_all s : folded char_lower false s = flat_map (λ c, flat_map utf8 (char_lower c)) (chars s).
Proof using. unfold folded. change (kept false) with (λ _ : Z, true). by rewrite List.filter_true. Qed.

(** ** Over a corpus *)

Context (docs : list (list Z)) (tokp : Z → Prop) (own : Z → list Z) (pm : Z → Z → option Z) (tr : Texts).
Context (Htok : ∀ d p o, corpus_at docs d p = Some o → tokp o) (Hpm : ∀ d p, pm d p = corpus_at docs d p).

(** The text of a token folds to its text in the dictionary. *)
Definition folds_to (o : Z) : Prop := ∃ s m, text tr o = Some s ∧ meta tr o = Some m ∧ valid s ∧ termtexts.own_len m = #(own o) ∧ #(own o) ≤ #s ∧
  is_char_boundary s #(own o) = true ∧ termtexts.is_word_stripped m = false ∧ folded char_lower false (take (length (own o)) s) = own o.
Context (Htexts : ∀ o, tokp o → folds_to o).

Lemma own_slice o s m : meta tr o = Some m → termtexts.own_len m = #(own o) → #(own o) ≤ #s → is_char_boundary s #(own o) = true →
  own_of tr o s = #(own o) ∧ str_to s (own_of tr o s) = Ret (take (length (own o)) s).
Proof using. intros Em Eo Hle Hb. assert (own_of tr o s = #(own o)) as E by (unfold own_of; rewrite Em, Eo; lia). rewrite E. split; [done|]. unfold str_to. by rewrite Hb, len_to_nat. Qed.

Definition tokens_from (d a : Z) (n : nat) : list Z := concat (map own (take n (drop (Z.to_nat a) (doc_tokens docs d)))).

Lemma tokens_from_S d a n o : corpus_at docs d a = Some o → tokens_from d a (S n) = own o ++ tokens_from d (a + 1) n.
Proof using. intros (Ha & Hl)%corpus_at_range. unfold tokens_from. rewrite (drop_S _ _ _ Hl). cbn. by replace (Z.to_nat (a + 1)) with (S (Z.to_nat a)) by lia. Qed.

Lemma tokens_from_none d a n : 0 ≤ a → corpus_at docs d a = None → tokens_from d a n = [].
Proof using. intros Ha H. rewrite corpus_at_tokens in H by done. apply lookup_ge_None in H. unfold tokens_from. rewrite drop_ge by done. by rewrite take_nil. Qed.

Lemma window_src_spec d n : ∀ a w asc, 0 ≤ a → ∃ asc', window_src char_lower pm tr d false w asc (seqZ a (Z.of_nat n)) = Ret (w ++ tokens_from d a n, asc').
Proof using Htok Hpm Htexts.
  induction n as [|n IH]; intros a w asc Ha. { exists asc. cbn. unfold tokens_from. rewrite take_0. cbn. by rewrite app_nil_r. }
  rewrite seqZ_cons by lia. cbn [window_src]. rewrite Hpm. destruct (corpus_at docs d a) as [o|] eqn:Eo; [|exists asc; by rewrite tokens_from_none, app_nil_r by done].
  destruct (Htexts o (Htok _ _ _ Eo)) as (s & m & -> & Em & _ & Eown & Hle & Hb & _ & Ef). destruct (own_slice o s m Em Eown Hle Hb) as [_ ->]. rewrite bind_ret, Ef.
  replace (Z.succ a) with (a + 1) by lia. replace (Z.pred (Z.of_nat (S n))) with (Z.of_nat n) by lia.
  destruct (IH (a + 1) (w ++ own o) (asc && is_ascii (take (length (own o)) s))) as [asc' E]; [lia|]. exists asc'. rewrite E, (tokens_from_S _ _ _ _ Eo). by rewrite app_assoc.
Qed.

(** Tokens at consecutive positions. *)
Fixpoint run (d a : Z) (ts : list (Z * Tok)) : Prop :=
  match ts with
  | [] => True
  | (p, t) :: ts => p = a ∧ (∃ o s, corpus_at docs d a = Some o ∧ text tr o = Some s ∧ t = {| t_text := s; t_own := #(own o); t_content := #(own o) |}) ∧ run d (a + 1) ts
  end.

Lemma run_app d ts1 : ∀ a ts2, run d a (ts1 ++ ts2) ↔ run d a ts1 ∧ run d (a + #ts1) ts2.
Proof using.
  induction ts1 as [|[p t] ts1 IH]; intros a ts2; cbn [run app]; [rewrite len_nil, Z.add_0_r; tauto|]. rewrite IH, len_cons. replace (a + 1 + #ts1) with (a + (1 + #ts1)) by lia. tauto.
Qed.

Lemma tok_spec d p : tok pm tr d false p = Ret None ∨ ∃ t, tok pm tr d false p = Ret (Some t) ∧ run d p [(p, t)].
Proof using Htok Hpm Htexts.
  unfold tok. rewrite Hpm. destruct (corpus_at docs d p) as [o|] eqn:Eo; [|by left]. right. destruct (Htexts o (Htok _ _ _ Eo)) as (s & m & Es & Em & _ & Eown & Hle & Hb & _).
  rewrite Es. cbn. destruct (own_slice o s m Em Eown Hle Hb) as [-> _]. eexists. split; [done|]. cbn. split; [done|]. split; [by exists o, s|done].
Qed.

Lemma toks_of_spec d n : ∀ a, 0 ≤ a → a + Z.of_nat n ≤ #(doc_tokens docs d) → ∃ ts, toks_of pm tr d false (seqZ a (Z.of_nat n)) = Ret ts ∧ run d a ts ∧ length ts = n.
Proof using Htok Hpm Htexts.
  induction n as [|n IH]; intros a Ha Hn; [by exists []|]. rewrite seqZ_cons by lia. cbn [toks_of].
  destruct (tok_spec d a) as [E|(t & E & Hr)].
  { exfalso. unfold tok in E. rewrite Hpm, corpus_at_tokens in E by done. destruct (lookup_lt_is_Some_2 (doc_tokens docs d) (Z.to_nat a)) as [o Ho]; [unfold len in Hn; lia|]. rewrite Ho in E.
    assert (corpus_at docs d a = Some o) as Eo by by rewrite corpus_at_tokens. destruct (Htexts o (Htok _ _ _ Eo)) as (s & m & Es & _). by rewrite Es in E. }
  rewrite E, bind_ret. replace (Z.succ a) with (a + 1) by lia. replace (Z.pred (Z.of_nat (S n))) with (Z.of_nat n) by lia.
  destruct (IH (a + 1)) as (ts & Ets & Hts & Hl); [lia|lia|]. exists ((a, t) :: ts). rewrite Ets, bind_ret. split; [done|]. split; [|cbn; lia]. destruct Hr as (_ & Hr & _). by split.
Qed.

Lemma margin_before_spec d margin mx first fuel : ∀ from have ts, 0 ≤ from → run d from ts →
  ∃ from' ts', margin_before pm tr d false margin mx fuel first from have ts = Ret (from', ts') ∧ 0 ≤ from' ≤ from ∧ run d from' ts' ∧ from' + #ts' = from + #ts.
Proof using Htok Hpm Htexts.
  induction fuel as [|fuel IH]; intros from have ts Hf Hr; cbn [margin_before]; [exists from, ts; split_and!; done || lia|].
  destruct (_ && _ && _) eqn:Ec; [|exists from, ts; split_and!; done || lia]. apply andb_true_iff in Ec as [[Hpos%Z.ltb_lt _]%andb_true_iff _].
  destruct (tok_spec d (from - 1)) as [->|(t & -> & Ht)]; rewrite bind_ret; [exists from, ts; split_and!; done || lia|].
  destruct (IH (from - 1) (have + t_content t) ((from - 1, t) :: ts)) as (from' & ts' & E & H1 & H2 & H3); [lia| |].
  - destruct Ht as (_ & Ht & _). split; [done|]. split; [done|]. by replace (from - 1 + 1) with from by lia.
  - exists from', ts'. rewrite len_cons in H3. split_and!; done || lia.
Qed.

Lemma margin_after_spec d margin mx last from fuel : ∀ to have ts, #(doc_tokens docs d) < 2 ^ 32 → 0 ≤ to < #(doc_tokens docs d) → run d from ts → from + #ts = to + 1 →
  ∃ to' ts', margin_after pm tr d false margin mx fuel last to have ts = Ret (to', ts') ∧ run d from ts' ∧ #ts ≤ #ts'.
Proof using Htok Hpm Htexts.
  induction fuel as [|fuel IH]; intros to have ts Hsize Hto Hr Hend; cbn [margin_after]; [exists to, ts; split_and!; done || lia|].
  destruct (_ && _); [|exists to, ts; split_and!; done || lia]. assert (add32 to 1 = to + 1) as -> by (apply Z.mod_small; lia).
  destruct (tok_spec d (to + 1)) as [->|(t & -> & Ht)]; rewrite bind_ret; [exists to, ts; split_and!; done || lia|].
  destruct (IH (to + 1) (have + t_content t) (ts ++ [(to + 1, t)])) as (to' & ts' & E & H1 & H2); [done| | |rewrite len_app, len_cons, len_nil; lia|].
  - destruct Ht as (_ & (o & _ & Ho & _) & _). apply corpus_at_range in Ho as [? _]. lia.
  - apply run_app. split; [done|]. by rewrite Hend.
  - exists to', ts'. rewrite len_app in H2. pose proof (len_nonneg [(to + 1, t)]). split_and!; done || lia.
Qed.

(** The bytes of the source are those of the window, when each token folds to
    as many. *)
Lemma push_toks_spec d ts : ∀ a acc, run d a ts → 0 ≤ acc → acc + #(tokens_from d a (length ts)) < 2 ^ 32 - 1 →
  ∃ bytes, push_toks char_lower false true acc ts = Ret bytes ∧ map fst bytes = tokens_from d a (length ts) ∧
    ∀ last n, fresh last acc → src_len last n (map snd bytes) = n + #bytes.
Proof using Htok Hpm Htexts Hlower.
  induction ts as [|[p t] ts IH]; intros a acc Hr Hacc Hend; cbn [push_toks length] in *.
  { exists []. unfold tokens_from. rewrite take_0. split; [done|]. split; [done|]. intros last n _. cbn. rewrite len_nil. lia. }
  destruct Hr as (-> & (o & s & Eo & Es & ->) & Hr). rewrite (tokens_from_S _ _ _ _ Eo) in *. rewrite len_app in Hend. cbn [t_text t_own].
  destruct (Htexts o (Htok _ _ _ Eo)) as (s' & m & Es' & Em & Hv & Eown & Hle & Hb & _ & Ef). rewrite Es in Es'. injection Es' as <-.
  unfold str_to. rewrite Hb, len_to_nat, bind_ret. set (src := take (length (own o)) s) in *. pose proof (len_nonneg (own o)). pose proof (len_nonneg (tokens_from d (a + 1) (length ts))).
  assert (add32 acc #(own o) = acc + #(own o)) as -> by (apply Z.mod_small; lia). destruct (IH (a + 1) (acc + #(own o)) Hr) as (more & -> & Ef' & Hsrc); [lia|lia|]. rewrite bind_ret.
  assert (valid src) as Hvs by (destruct (valid_cut s #(own o) Hv) as [H1 _]; [lia|done|]; by rewrite len_to_nat in H1).
  destruct (chars_valid src Hvs) as [Hc Esrc].
  assert (str_len (chars src) = #(own o)) as Elen by (rewrite <- str_len_bytes, <- Esrc; subst src; rewrite len_take; unfold len in *; lia).
  eexists. split; [done|]. rewrite map_app. unfold char_indices. rewrite (pushed_chars acc (chars src) 0), <- folded_all, Ef. split; [by rewrite Ef'|].
  intros last n Hf. rewrite map_app. destruct (src_len_chars acc (chars src) Hc 0 last n (map snd more)) as (last' & Hf' & ->); [lia|lia|by rewrite Z.add_0_r|].
  rewrite Z.add_0_r, Elen in Hf'. rewrite (Hsrc _ _ Hf'), Elen, len_app. rewrite <- (len_map fst (flat_map _ _)), pushed_chars, <- folded_all, Ef. lia.
Qed.
End Windows.

(** ** Exact substring search: the result

    Over the files of a corpus, [contains_v3] with strict separators returns
    the byte spans of the occurrences of the query, each once. *)
Import source composite walk chains.
Import parents.
Import resolve orchestrator.
Open Scope Z_scope.

(** The text of a document, and what of it lies before a position. *)
Definition doc_text (docs : list (list Z)) (own : Z → list Z) (d : Z) : list Z := text_from docs own d 0.
Definition before (docs : list (list Z)) (own : Z → list Z) (d p : Z) : list Z := concat (map own (take (Z.to_nat p) (doc_tokens docs d))).

(** The string occurs in document [d] from byte [i] on. *)
Definition in_text (docs : list (list Z)) (own : Z → list Z) (q : list Z) (d i : Z) : Prop := 0 ≤ i ∧ q `prefix_of` drop (Z.to_nat i) (doc_text docs own d).
(** Bytes [i] to [j] lie within nine consecutive tokens. *)
Definition within_nine (docs : list (list Z)) (own : Z → list Z) (d i j : Z) : Prop := ∃ p, 0 ≤ p ∧ #(before docs own d p) ≤ i ∧ j ≤ #(before docs own d (p + 9)).

Section Places.
Context (docs : list (list Z)) (own : Z → list Z).
Local Abbreviation before := (before docs own).
Local Abbreviation tokens_from := (tokens_from docs own).

Lemma before_split d a b : 0 ≤ a ≤ b → before d b = before d a ++ tokens_from d a (Z.to_nat (b - a)).
Proof using.
  intros H. unfold ContainsSearch.before, ContainsSearch.tokens_from. rewrite <- concat_app, <- map_app. f_equal. f_equal.
  replace (Z.to_nat b) with (Z.to_nat a + Z.to_nat (b - a))%nat by lia. symmetry. apply take_take_drop.
Qed.

Lemma before_text d p : doc_text docs own d = before d p ++ text_from docs own d p.
Proof using. unfold doc_text, text_from, ContainsSearch.before. rewrite <- concat_app, <- map_app, drop_0. by rewrite take_drop. Qed.

Lemma before_le d a b : 0 ≤ a ≤ b → #(before d a) ≤ #(before d b).
Proof using. intros H. rewrite (before_split d a b H), len_app. pose proof (len_nonneg (tokens_from d a (Z.to_nat (b - a)))). lia. Qed.

Lemma before_size d p : #(before d p) ≤ #(doc_text docs own d).
Proof using. rewrite (before_text d p), len_app. pose proof (len_nonneg (text_from docs own d p)). lia. Qed.

Lemma before_at d p o : corpus_at docs d p = Some o → #(before d (p + 1)) = #(before d p) + #(own o).
Proof using.
  intros Ho. pose proof (corpus_at_range _ _ _ _ Ho) as [Hp _]. rewrite (before_split d p (p + 1)) by lia. replace (p + 1 - p) with 1 by lia. rewrite len_app. f_equal.
  change (Z.to_nat 1) with 1%nat. rewrite (tokens_from_S docs own d p 0 o Ho), len_app. unfold ContainsSearch.tokens_from. rewrite take_0. cbn [map concat]. rewrite len_nil. lia.
Qed.

(** The token a byte of the text lies in. *)
Lemma byte_token d i : 0 ≤ i < #(doc_text docs own d) → ∃ p o, corpus_at docs d p = Some o ∧ #(before d p) ≤ i < #(before d p) + #(own o).
Proof using.
  unfold doc_text, text_from, ContainsSearch.before. rewrite drop_0.
  intros Hi. assert (∀ toks i, 0 ≤ i < #(concat (map own toks)) → ∃ k o, toks !! k = Some o ∧ #(concat (map own (take k toks))) ≤ i < #(concat (map own (take k toks))) + #(own o)) as H.
  { induction toks as [|o toks IH]; intros j Hj; cbn [map concat] in Hj; [unfold len in Hj; cbn in Hj; lia|]. rewrite len_app in Hj. destruct (decide (j < #(own o))) as [Hlt|Hge].
    - exists 0%nat, o. split; [done|]. cbn [take map concat]. rewrite len_nil. lia.
    - destruct (IH (j - #(own o))) as (k & o' & Hk & H); [lia|]. exists (S k), o'. split; [done|]. cbn [take map concat]. rewrite len_app. lia. }
  destruct (H _ _ Hi) as (k & o & Hk & Hr). exists (Z.of_nat k), o. rewrite corpus_at_tokens, Nat2Z.id by lia. done.
Qed.

(** An occurrence in the text is one in a token. *)
Lemma in_text_occurs q d i : q ≠ [] → in_text docs own q d i → ∃ p si, i = #(before d p) + si ∧ occurs docs own q d p si.
Proof using.
  intros Hne [Hi Hpre]. destruct (byte_token d i) as (p & o & Ho & Hr).
  { split; [done|]. destruct (Z.lt_ge_cases i #(doc_text docs own d)); [done|]. rewrite drop_ge in Hpre by (unfold len in *; lia). by apply prefix_nil_inv in Hpre. }
  exists p, (i - #(before d p)). split; [lia|]. exists o. split; [done|]. split; [lia|]. rewrite (before_text d p), drop_app_ge in Hpre by (unfold len in *; lia).
  by replace (Z.to_nat (i - #(before d p))) with (Z.to_nat i - length (before d p))%nat by (unfold len in *; lia).
Qed.

Lemma occurs_in_text q d p si : occurs docs own q d p si → in_text docs own q d (#(before d p) + si).
Proof using.
  intros (o & Ho & Hsi & Hpre). pose proof (len_nonneg (before d p)). split; [lia|]. rewrite (before_text d p), drop_app_ge by (unfold len in *; lia).
  by replace (Z.to_nat (#(before d p) + si) - length (before d p))%nat with (Z.to_nat si) by (unfold len; lia).
Qed.
End Places.

(** ** What the files hold *)

(** The source texts of the tokens fold, character by character, to the texts
    of the dictionary; a position is placed at the bytes before it; the texts
    are within 32 bits; what the texts hold behind a token is within the next
    one. *)
Record spans_ok (char_lower : Z → list Z) (ctx : BriquesContext) (offsets : Offsets) (docs : list (list Z)) (tok : Z → Prop) (own ext : Z → list Z) (tr : Texts) : Prop := {
  sp_posmap : is_some (posmap ctx) = true;
  sp_texts : texts ctx = Some tr;
  sp_lower : ∀ c, is_char c → char_lower c ≠ [];
  sp_folds : ∀ o, tok o → folds_to char_lower own tr o ∧ fits 32 o;
  sp_places : ∀ d p o, corpus_at docs d p = Some o → byte_at ctx offsets d p = Some #(before docs own d p);
  sp_sizes : ∀ d, #(doc_text docs own d) < 2 ^ 32 - 1;
  sp_next : ∀ d p o o', corpus_at docs d p = Some o → corpus_at docs d (p + 1) = Some o' → #(ext o) ≤ #(own o');
}.

Section Spans.
Context (to_lowercase : list Z → list Z) (char_lower : Z → list Z) (ctx : BriquesContext) (offsets : Offsets).
Context (docs : list (list Z)) (tok : Z → Prop) (own ov ext : Z → list Z) (tr : Texts).
Context (Hctx : context_ok to_lowercase ctx docs tok own ov ext) (Hsp : spans_ok char_lower ctx offsets docs tok own ext tr).
Local Abbreviation before := (before docs own).
Local Abbreviation tokens_from := (tokens_from docs own).

(** A match that is right and can be placed. *)
Definition good (q : list Z) (m : MatchV3) : Prop :=
  occurs docs own q (doc_id m) (position m) (first_off m) ∧ placeable docs tok m ∧ (ends_at docs own ext q m ∨ in_first docs own ext q m).

Lemma in_text_bound q d i : in_text docs own q d i → i + #q ≤ Z.max i #(doc_text docs own d).
Proof using. intros [Hi H%prefix_length]. rewrite length_drop in H. unfold len. lia. Qed.

Lemma place_spec q m : good q m → let from := #(before (doc_id m) (position m)) + first_off m in
  ∃ to te, place ctx offsets tr m = set_span m from to te 0 ∧ from ≤ to ∧ (ends_at docs own ext q m → to = from + #q).
Proof using Hctx Hsp.
  intros (Hocc & (Ht & Eoff & _ & Hlast) & _) from. destruct Hocc as (o & Ho & Hsi & Hpre). pose proof (corpus_at_range _ _ _ _ Ho) as [Hp _].
  assert (∃ l, corpus_at docs (doc_id m) (last_start_pos m) = Some l) as [l Hl] by (rewrite corpus_at_tokens by lia; apply lookup_lt_is_Some_2; unfold len in Hlast; lia).
  assert (in_text docs own q (doc_id m) from) as Hin by (apply occurs_in_text; by exists o).
  apply in_text_bound in Hin. pose proof (sp_sizes _ _ _ _ _ _ _ _ Hsp (doc_id m)) as Hsz. pose proof (before_at docs own _ _ _ Ho). pose proof (before_size docs own (doc_id m) (position m + 1)).
  pose proof (len_nonneg (before (doc_id m) (position m))). pose proof (len_nonneg q). pose proof (before_size docs own (doc_id m) (last_start_pos m)). pose proof (len_nonneg (before (doc_id m) (last_start_pos m))).
  unfold place. rewrite (sp_places _ _ _ _ _ _ _ _ Hsp _ _ _ Ho), (sp_places _ _ _ _ _ _ _ _ Hsp _ _ _ Hl). unfold placed.
  destruct (sp_folds _ _ _ _ _ _ _ _ Hsp _ Ht) as [(s & mt & _ & Em & _ & _ & _ & _ & Es & _) Hf]. assert (as_u32 (last_ordinal m) = last_ordinal m) as -> by by apply Z.mod_small.
  rewrite Em, Es, Eoff. set (content := saturating_sub _ _).
  assert (∀ x y, 0 ≤ x + y < 2 ^ 32 → add32 x y = x + y) as Hadd by (intros; by apply Z.mod_small).
  assert (add32 #(before (doc_id m) (position m)) (first_off m) = from) as -> by (apply Hadd; lia). rewrite (Hadd #(before (doc_id m) (last_start_pos m)) 0), Z.add_0_r by lia.
  eexists _, _. split; [done|]. split; [lia|]. intros (Hle & He & _).
  assert (#(before (doc_id m) (last_start_pos m)) + m_last_consumed m = from + #q) as Eend.
  { rewrite (before_split docs own _ (position m) (last_start_pos m)), len_app by lia. unfold ContainsSearch.tokens_from, from. lia. }
  rewrite (Hadd _ (m_last_consumed m)), Eend by lia. lia.
Qed.

(** The byte a match starts at gives its position. *)
Lemma start_position d p p' o o' si si' : corpus_at docs d p = Some o → corpus_at docs d p' = Some o' → 0 ≤ si < #(own o) → 0 ≤ si' < #(own o') →
  #(before d p) + si = #(before d p') + si' → p = p'.
Proof using.
  intros Ho Ho' Hsi Hsi' E. pose proof (corpus_at_range _ _ _ _ Ho) as [Hp _]. pose proof (corpus_at_range _ _ _ _ Ho') as [Hp' _]. pose proof (before_at docs own _ _ _ Ho). pose proof (before_at docs own _ _ _ Ho').
  destruct (Z.lt_trichotomy p p') as [Hlt|[|Hlt]]; [|done|].
  - pose proof (before_le docs own d (p + 1) p' ltac:(lia)). lia.
  - pose proof (before_le docs own d (p' + 1) p ltac:(lia)). lia.
Qed.

(** ** The window of a match *)

Lemma tokens_text d p k : text_from docs own d p = tokens_from d p k ++ concat (map own (drop k (drop (Z.to_nat p) (doc_tokens docs d)))).
Proof using. unfold text_from, ContainsSearch.tokens_from. rewrite <- concat_app, <- map_app. by rewrite take_drop. Qed.

Lemma prefix_front (q x y : list Z) i : q `prefix_of` drop i (x ++ y) → (i + length q ≤ length x)%nat → q `prefix_of` drop i x.
Proof using.
  intros Hq Hle. rewrite drop_app_le in Hq by lia. destruct (prefix_split _ _ _ Hq) as [H|(t & E & Hne & _)]; [done|].
  apply (f_equal length) in E. rewrite length_app, length_drop in E. destruct t; [done|]. cbn in E. lia.
Qed.

(** What the texts hold of a token is within it and the next one. *)
Lemma two_tokens d p o : corpus_at docs d p = Some o → #(own o) + #(ext o) ≤ #(tokens_from d p 2).
Proof using Hctx Hsp.
  intros Ho. pose proof (corpus_at_range _ _ _ _ Ho) as [Hp _]. rewrite (tokens_from_S docs own _ _ _ _ Ho), len_app. destruct (corpus_at docs d (p + 1)) as [o'|] eqn:En.
  - rewrite (tokens_from_S docs own _ _ _ _ En), len_app. pose proof (sp_next _ _ _ _ _ _ _ _ Hsp _ _ _ _ Ho En). pose proof (len_nonneg (tokens_from d (p + 1 + 1) 0)). lia.
  - destruct (co_follows _ _ _ _ _ (cx_corpus _ _ _ _ _ _ _ Hctx) _ _ _ Ho) as [_ Hex]. rewrite corpus_at_tokens in En by lia. apply lookup_ge_None in En.
    unfold text_from in Hex. rewrite drop_ge in Hex by done. cbn in Hex. apply prefix_nil_inv in Hex. rewrite Hex, len_nil. pose proof (len_nonneg (tokens_from d (p + 1) 1)). lia.
Qed.

(** The query lies within the tokens of the match and the next one. *)
Lemma match_within q m : good q m →
  first_off m + #q ≤ #(tokens_from (doc_id m) (position m) (Z.to_nat (last_start_pos m + 2 - position m))).
Proof using Hctx Hsp.
  intros ((o & Ho & _) & (_ & _ & _ & Hlast) & Hends). pose proof (corpus_at_range _ _ _ _ Ho) as [Hpos _].
  assert (∀ n k, #(tokens_from (doc_id m) (position m) (n + k)) = #(concat (map own (take n (drop (Z.to_nat (position m)) (doc_tokens docs (doc_id m)))))) + #(tokens_from (doc_id m) (position m + Z.of_nat n) k)) as Hsplit.
  { intros n k. unfold ContainsSearch.tokens_from. rewrite <- take_take_drop, map_app, concat_app, len_app, drop_drop. by replace (Z.to_nat (position m) + n)%nat with (Z.to_nat (position m + Z.of_nat n)) by lia. }
  destruct Hends as [(Hle & He & l & Hl & Hcons)|(o' & Ho' & Hle)].
  - rewrite He. replace (Z.to_nat (last_start_pos m + 2 - position m)) with (Z.to_nat (last_start_pos m - position m) + 2)%nat by lia. rewrite Hsplit.
    replace (position m + Z.of_nat (Z.to_nat (last_start_pos m - position m))) with (last_start_pos m) by lia. pose proof (two_tokens _ _ _ Hl). lia.
  - pose proof (two_tokens _ _ _ Ho'). replace (Z.to_nat (last_start_pos m + 2 - position m)) with (2 + Z.to_nat (last_start_pos m - position m))%nat by lia. rewrite Hsplit.
    change (concat (map own (take 2 (drop (Z.to_nat (position m)) (doc_tokens docs (doc_id m)))))) with (tokens_from (doc_id m) (position m) 2).
    pose proof (len_nonneg (tokens_from (doc_id m) (position m + Z.of_nat 2) (Z.to_nat (last_start_pos m - position m)))). lia.
Qed.

Lemma window_holds q m a n : good q m → 0 ≤ a ≤ position m → Z.of_nat n = last_start_pos m + 2 - a → find q (tokens_from (doc_id m) a n) ≠ None.
Proof using Hctx Hsp.
  intros Hg Ha Hn. pose proof (match_within q m Hg) as Hw. destruct Hg as ((o & Ho & Hsi & Hpre) & (_ & _ & _ & Hle) & _). pose proof (corpus_at_range _ _ _ _ Ho) as [Hp _].
  set (k := Z.to_nat (last_start_pos m + 2 - position m)) in *. rewrite (tokens_text _ _ k) in Hpre. apply prefix_front in Hpre as [y Hy]; [|unfold len in Hw; lia].
  assert (tokens_from (doc_id m) a n = tokens_from (doc_id m) a (Z.to_nat (position m - a)) ++ take (Z.to_nat (first_off m)) (tokens_from (doc_id m) (position m) k) ++ q ++ y) as ->; [|rewrite app_assoc; apply find_some].
  rewrite <- Hy, take_drop. unfold ContainsSearch.tokens_from. rewrite <- concat_app, <- map_app. f_equal. f_equal.
  replace n with (Z.to_nat (position m - a) + k)%nat by lia. rewrite <- take_take_drop, drop_drop. by replace (Z.to_nat a + Z.to_nat (position m - a))%nat with (Z.to_nat (position m)) by lia.
Qed.

Lemma run_last d ts : ∀ a p t, run docs own tr d a ts → last ts = Some (p, t) → p = a + #ts - 1.
Proof using.
  induction ts as [|[p' t'] ts IH]; intros a p t Hr El; [done|]. destruct Hr as (-> & _ & Hr). destruct ts as [|x ts]; [cbn in El; injection El as <- _; rewrite len_cons, len_nil; lia|].
  cbn [last] in El. rewrite (IH (a + 1) p t Hr El), (len_cons (a, t')). lia.
Qed.

Lemma window_refolded q m : good q m → ∃ r, rebuild_window_opts char_lower ctx offsets (doc_id m) (position m) (last_start_pos m) 1 false true 64 = Ret r ∧
  ∀ window back cuts, r = Some (window, back, cuts) → src_len (2 ^ 32 - 1) 0 back = #window.
Proof using Hctx Hsp.
  intros ((o & Ho & _) & (_ & _ & _ & Hlast) & _). pose proof (corpus_at_range _ _ _ _ Ho) as [Hp _].
  pose proof (cx_corpus _ _ _ _ _ _ _ Hctx) as Hco. assert (∀ d p o, corpus_at docs d p = Some o → tok o) as Htok by (intros d p o' H'; by apply (co_tokens _ _ _ _ _ Hco d p)).
  assert (∀ o, tok o → folds_to char_lower own tr o) as Hfold by (intros; by apply (sp_folds _ _ _ _ _ _ _ _ Hsp)).
  pose proof (sp_posmap _ _ _ _ _ _ _ _ Hsp) as Epm. destruct (posmap ctx) as [pm|] eqn:E; [|done]. clear Epm. pose proof (cx_posmap _ _ _ _ _ _ _ Hctx pm E) as Hpm.
  unfold rebuild_window_opts. rewrite E, (sp_texts _ _ _ _ _ _ _ _ Hsp). set (n := Z.to_nat (last_start_pos m + 1 - position m)).
  destruct (toks_of_spec char_lower docs tok own pm tr Htok Hpm Hfold (doc_id m) n (position m)) as (ts & Ets & Hrun & Hlen); [lia|lia|].
  unfold range. replace (last_start_pos m + 1 - position m) with (Z.of_nat n) by lia. rewrite Ets, bind_ret. destruct (last ts) as [[lp t]|] eqn:El; [|by exists None].
  rewrite (run_last _ _ _ _ _ Hrun El). replace (position m + #ts - 1) with (last_start_pos m) by (unfold len; lia).
  destruct (margin_before_spec char_lower docs tok own pm tr Htok Hpm Hfold (doc_id m) 1 64 (position m) (Z.to_nat 64) (position m) 0 ts) as (from & ts1 & -> & Hf & Hr1 & He1); [lia|done|]. rewrite bind_ret.
  destruct (margin_after_spec char_lower docs tok own pm tr Htok Hpm Hfold (doc_id m) 1 64 (last_start_pos m) from (Z.to_nat 64) (last_start_pos m) 0 ts1) as (to & ts2 & -> & Hr2 & He2); [apply Hco|lia|done|unfold len in *; lia|]. rewrite bind_ret.
  assert (corpus_at docs (doc_id m) from ≠ None) as Hfrom by (rewrite corpus_at_tokens by lia; intros Hn%lookup_ge_None; unfold len in *; lia).
  destruct (corpus_at docs (doc_id m) from) as [o1|] eqn:Eo1; [|done]. rewrite (sp_places _ _ _ _ _ _ _ _ Hsp _ _ _ Eo1).
  destruct (push_toks_spec char_lower (sp_lower _ _ _ _ _ _ _ _ Hsp) docs tok own pm tr Htok Hpm Hfold (doc_id m) ts2 from #(before (doc_id m) from)) as (bytes & -> & Ef & Hsrc); [done|apply len_nonneg| |].
  { pose proof (before_split docs own (doc_id m) from (from + Z.of_nat (length ts2)) ltac:(lia)) as Hb. replace (Z.to_nat (from + Z.of_nat (length ts2) - from)) with (length ts2) in Hb by lia.
    apply (f_equal len) in Hb. rewrite len_app in Hb. pose proof (before_size docs own (doc_id m) (from + Z.of_nat (length ts2))). pose proof (sp_sizes _ _ _ _ _ _ _ _ Hsp (doc_id m)). lia. }
  rewrite bind_ret. eexists. split; [done|]. intros window back cuts Ew. destruct bytes as [|b bytes]; [done|]. injection Ew as <- <- _.
  rewrite (Hsrc _ _ (or_intror eq_refl)). cbn [map]. rewrite !len_cons, len_map. lia.
Qed.

Lemma verify_one_spec q m : q ≠ [] → good q m → verify_one char_lower ctx offsets q false m = Ret (Some (m, false)).
Proof using Hctx Hsp.
  intros Hne Hg. pose proof Hg as ((o & Ho & _) & (_ & _ & Esp & Hlast) & _). pose proof (corpus_at_range _ _ _ _ Ho) as [Hp _]. pose proof (cx_corpus _ _ _ _ _ _ _ Hctx) as Hco.
  pose proof (co_lengths _ _ _ _ _ Hco (doc_id m)) as Hsize. unfold verify_one.
  assert (add32 (position m) (saturating_sub (span m) 1) = last_start_pos m) as -> by (rewrite Esp; unfold saturating_sub, add32, as_u32; rewrite Z.mod_small; lia).
  destruct (window_refolded q m Hg) as (r & Er & Hr).
  pose proof (sp_posmap _ _ _ _ _ _ _ _ Hsp) as Epm. destruct (posmap ctx) as [pm|] eqn:E; [|done]. clear Epm.
  unfold rebuild_window_src. rewrite E, (sp_texts _ _ _ _ _ _ _ _ Hsp). set (a := saturating_sub (position m) 1). assert (0 ≤ a ≤ position m) as Ha by (subst a; unfold saturating_sub; lia).
  replace (Z.min (last_start_pos m + 1) (2 ^ 32 - 1) + 1) with (last_start_pos m + 2) by lia. unfold range. set (n := Z.to_nat (last_start_pos m + 2 - a)). replace (last_start_pos m + 2 - a) with (Z.of_nat n) by lia.
  destruct (window_src_spec char_lower docs tok own pm tr (λ d p o H, proj1 (co_tokens _ _ _ _ _ Hco d p o H)) (cx_posmap _ _ _ _ _ _ _ Hctx pm E) (λ o H, proj1 (sp_folds _ _ _ _ _ _ _ _ Hsp o H)) (doc_id m) n a [] true) as [asc ->]; [lia|].
  rewrite bind_ret, app_nil_l. pose proof (window_holds q m a n Hg Ha ltac:(lia)) as Hfind. destruct (tokens_from (doc_id m) a n) as [|b w]; [done|]. rewrite bind_ret.
  destruct (find q (b :: w)); [|done]. destruct asc; [done|]. rewrite Er, bind_ret. destruct r as [[[window back] cuts]|]; [|done]. rewrite (Hr _ _ _ eq_refl). by rewrite Z.eqb_refl.
Qed.

Lemma verify_each_spec q ms : q ≠ [] → Forall (good q) ms → verify_each char_lower ctx offsets q false ms = Ret (ms, false).
Proof using Hctx Hsp.
  intros Hne. induction 1 as [|m ms Hm _ IH]; [done|]. cbn [verify_each]. by rewrite (verify_one_spec q m Hne Hm), bind_ret, IH.
Qed.
End Spans.

(** ** [contains_v3] *)

Lemma NoDup_map_weaker {A B C} (f : A → B) (g : A → C) l : (∀ x y, x ∈ l → y ∈ l → g x = g y → f x = f y) → NoDup (map f l) → NoDup (map g l).
Proof.
  induction l as [|a l IH]; intros Hfg Hn; [constructor|]. cbn in *. apply NoDup_cons in Hn as [Ha Hn]. apply NoDup_cons. split.
  - intros (x & Ex & Hx%list_elem_of_In)%list_elem_of_In%in_map_iff. apply Ha. apply list_elem_of_In, in_map_iff. exists x. split; [|by apply list_elem_of_In]. apply Hfg; [by right|by left|done].
  - apply IH; [|done]. intros x y Hx Hy. apply Hfg; by right.
Qed.

Lemma mapM_out_id {A} (f : A → out A) l : Forall (λ a, f a = Ret a) l → mapM_out f l = Ret l.
Proof. induction 1 as [|a l Ha _ IH]; [done|]. cbn [mapM_out]. by rewrite Ha, bind_ret, IH. Qed.

(** What is left of the search once the literal is found and its matches are
    placed: the verification of one match per span. *)
Lemma contains_verifies (to_lowercase : list Z → list Z) (char_lower : Z → list Z) (iter : gmap (list Z) (list nat) → list (list Z * list nat))
    {F : Type} `{!DocFilter F} (filter_docs : option F) (ctx : BriquesContext) (offsets : Offsets)
    (docs : list (list Z)) (tok : Z → Prop) (own ov ext : Z → list Z) (tr : Texts) (query q : list Z) fuel cap ms :
  context_ok to_lowercase ctx docs tok own ov ext → spans_ok char_lower ctx offsets docs tok own ext tr → 0 < #query ≤ 2048 →
  find_literal_strict cap to_lowercase iter fuel filter_docs ctx query false = Ret ms → (∀ m, m ∈ ms → good docs tok own ext q m) →
  contains_strict char_lower ctx offsets cap to_lowercase iter fuel filter_docs query false false =
    verify_literal char_lower ctx offsets query true (dedup_occurrences (map (place ctx offsets tr) (merge_sort match_le ms))).
Proof.
  intros Hctx Hsp Hq E0 Hgood. pose proof (sp_posmap _ _ _ _ _ _ _ _ Hsp) as Epm. destruct (posmap ctx) as [pm|] eqn:E; [|done]. clear Epm. pose proof (sp_texts _ _ _ _ _ _ _ _ Hsp) as Etr.
  assert (place_spans ctx offsets ms = map (place ctx offsets tr) (merge_sort match_le ms)) as E1 by (unfold place_spans; rewrite Etr, E; by apply place_all_map).
  unfold contains_strict, effective_query, MAX_QUERY_LEN. replace ((#query =? 0) || (2048 <? #query)) with false by lia. rewrite E0, bind_ret, E1.
  assert (place_overlap_overflow ctx offsets fuel (map (place ctx offsets tr) (merge_sort match_le ms)) = Ret (map (place ctx offsets tr) (merge_sort match_le ms))) as ->.
  { unfold place_overlap_overflow. rewrite E, Etr. apply mapM_out_id, Forall_forall. intros m (m0 & <- & Hm%list_elem_of_In)%list_elem_of_In%in_map_iff. rewrite merge_sort_Permutation in Hm.
    destruct (place_spec to_lowercase char_lower ctx offsets docs tok own ov ext tr Hctx Hsp q m0 (Hgood m0 Hm)) as (to & te & -> & _). done. }
  rewrite bind_ret. cbn [orb andb]. destruct (verify_literal _ _ _ _ _ _) as [l| | |]; done.
Qed.

(** An occurrence within a token and what the texts hold behind it is within
    two tokens. *)
Lemma first_within (to_lowercase : list Z → list Z) (char_lower : Z → list Z) (ctx : BriquesContext) (offsets : Offsets) (docs : list (list Z)) (tok : Z → Prop) (own ov ext : Z → list Z) (tr : Texts) (q : list Z) (m : MatchV3) :
  context_ok to_lowercase ctx docs tok own ov ext → spans_ok char_lower ctx offsets docs tok own ext tr →
  occurs docs own q (doc_id m) (position m) (first_off m) → in_first docs own ext q m → first_off m + #q ≤ #(nine_tokens docs own (doc_id m) (position m)).
Proof.
  intros Hctx Hsp (o & Ho & Hsi & Hpre) (o' & Ho' & Hle). rewrite Ho in Ho'. injection Ho' as <-. pose proof (corpus_at_range _ _ _ _ Ho) as [Hp Hlook]. unfold nine_tokens. rewrite (drop_S _ _ _ Hlook). cbn [take map concat]. rewrite len_app.
  replace (S (Z.to_nat (position m))) with (Z.to_nat (position m + 1)) by lia. destruct (corpus_at docs (doc_id m) (position m + 1)) as [o1|] eqn:E1.
  - pose proof (sp_next _ _ _ _ _ _ _ _ Hsp _ _ _ _ Ho E1). apply corpus_at_range in E1 as [_ Hl1]. rewrite (drop_S _ _ _ Hl1). cbn [take map concat]. rewrite len_app. pose proof (len_nonneg (concat (map own (take 7 (drop (S (Z.to_nat (position m + 1))) (doc_tokens docs (doc_id m))))))). lia.
  - rewrite corpus_at_tokens in E1 by lia. apply lookup_ge_None in E1. rewrite drop_ge by done. cbn [take map concat].
    rewrite (text_from_at _ _ _ _ _ Ho) in Hpre. unfold text_from in Hpre. rewrite (drop_ge (doc_tokens docs (doc_id m))) in Hpre by done. cbn [map concat] in Hpre. rewrite app_nil_r in Hpre.
    apply prefix_length in Hpre. rewrite length_drop in Hpre. unfold len in *. cbn. lia.
Qed.

(** The search, for the theorem and for those who build the files. *)
Lemma contains_search (to_lowercase : list Z → list Z) (char_lower : Z → list Z) (iter : gmap (list Z) (list nat) → list (list Z * list nat))
    {F : Type} `{!DocFilter F} `{!DocFilterLaws F} (filter_docs : option F) (ctx : BriquesContext) (offsets : Offsets)
    (docs : list (list Z)) (tok : Z → Prop) (own ov ext : Z → list Z) (tr : Texts) (query : list Z) :
  (∀ g, iter g ≡ₚ map_to_list g) → context_ok to_lowercase ctx docs tok own ov ext → spans_ok char_lower ctx offsets docs tok own ext tr →
  lower_ok to_lowercase query → folded char_lower false query = to_lowercase query → #query = #(to_lowercase query) → 0 < #query ≤ 2048 →
  let ql := to_lowercase query in
  ∃ n K, ∀ fuel cap, (n ≤ fuel)%nat → 0 ≤ cap → ∃ ms, contains_strict char_lower ctx offsets cap to_lowercase iter fuel filter_docs query false false = Ret ms ∧
    NoDup (map (λ m, (doc_id m, byte_from m, byte_to m)) ms) ∧
    (∀ m, m ∈ ms → keeps filter_docs (doc_id m) ∧ in_text docs own ql (doc_id m) (byte_from m) ∧ byte_from m ≤ byte_to m ∧ (sibling_v3 ctx = None → byte_to m = byte_from m + #ql) ∧
       (K ≤ cap → ∃ m', m' ∈ ms ∧ doc_id m' = doc_id m ∧ byte_from m' = byte_from m ∧ byte_to m' = byte_from m + #ql)) ∧
    (K ≤ cap → ∀ d i, in_text docs own ql d i → within_nine docs own d i (i + #ql) → keeps filter_docs d → ∃ m, m ∈ ms ∧ doc_id m = d ∧ byte_from m = i ∧ byte_to m = i + #ql).
Proof.
  intros Hiter Hctx Hsp Hl Efold Elen Hq ql. assert (ql ≠ []) as Hne by (intros E; unfold ql in E; rewrite E, len_nil in Elen; lia).
  destruct (literal_search to_lowercase iter filter_docs ctx docs tok own ov ext Hiter Hctx query Hl Hne) as (n & K & H); [lia|lia|].
  assert (0 < #ql ≤ 2048) as Hql by (unfold ql; lia).
  exists n, K. intros fuel cap Hf Hcap. destruct (H fuel cap Hf Hcap) as (ms0 & E0 & Hsound & Hcomp). clear H. fold ql in Hsound, Hcomp.
  pose proof (sp_posmap _ _ _ _ _ _ _ _ Hsp) as Epm. destruct (posmap ctx) as [pm|] eqn:E; [|done]. clear Epm. pose proof (sp_texts _ _ _ _ _ _ _ _ Hsp) as Etr.
  assert (∀ m, m ∈ ms0 → good docs tok own ext ql m) as Hgood by (intros m (H1 & _ & H2 & H3 & _)%Hsound; done).
  pose proof (contains_verifies to_lowercase char_lower iter filter_docs ctx offsets docs tok own ov ext tr query ql fuel cap ms0 Hctx Hsp Hq E0 Hgood) as Ever.
  set (ms1 := map (place ctx offsets tr) (merge_sort match_le ms0)) in *.
  assert (∀ m, m ∈ ms1 → good docs tok own ext ql m ∧ keeps filter_docs (doc_id m) ∧ byte_from m = #(before docs own (doc_id m) (position m)) + first_off m ∧ byte_from m ≤ byte_to m ∧
    (sibling_v3 ctx = None → byte_to m = byte_from m + #ql) ∧ (ends_at docs own ext ql m → byte_to m = byte_from m + #ql)) as Hms1.
  { intros m (m0 & <- & Hm%list_elem_of_In)%list_elem_of_In%in_map_iff. rewrite merge_sort_Permutation in Hm. pose proof (Hgood m0 Hm) as Hg. destruct (Hsound m0 Hm) as (_ & Hk & _ & _ & He & _).
    destruct (place_spec to_lowercase char_lower ctx offsets docs tok own ov ext tr Hctx Hsp ql m0 Hg) as (to & te & -> & Hle & Hto). split_and!; try done. intros Hno. apply Hto, He. done. }
  destruct (dedup_occurrences_spec ms1) as (Hsub & Hrep & Hnodup). set (ms := dedup_occurrences ms1) in *.
  assert (∀ d p si, K ≤ cap → occurs docs own ql d p si → si + #ql ≤ #(nine_tokens docs own d p) → keeps filter_docs d → ∃ m, m ∈ ms ∧ doc_id m = d ∧ byte_from m = #(before docs own d p) + si ∧ byte_to m = #(before docs own d p) + si + #ql) as Hex.
  { intros d p si HK Hocc Hnine Hk. destruct (Hcomp HK d p si) as (m & Hm & Ed & Ep & Eoff & He); [done..|].
    destruct (place_spec to_lowercase char_lower ctx offsets docs tok own ov ext tr Hctx Hsp ql m (Hgood m Hm)) as (to & te & Ete & _ & Hto). rewrite Hto in Ete by by apply He. clear Hto.
    assert (place ctx offsets tr m ∈ ms1) as Hm1 by (apply list_elem_of_In, in_map, list_elem_of_In; by rewrite merge_sort_Permutation).
    destruct (Hrep _ Hm1) as (m' & Hm' & Ek). exists m'. split; [done|]. rewrite Ete in Ek. unfold key in Ek. cbn in Ek. rewrite Ed, Ep, Eoff in Ek. by injection Ek as -> -> ->. }
  exists ms. split; [|split; [|split]].
  - rewrite Ever. unfold verify_literal. rewrite E, Etr. cbn [is_some negb]. rewrite !orb_false_r. case_bool_decide as Enil; [rewrite Enil; done|].
    rewrite Efold. fold ql. clearbody ql. destruct ql as [|b q']; [done|].
    rewrite (verify_each_spec to_lowercase char_lower ctx offsets docs tok own ov ext tr Hctx Hsp); [done|done|]. apply Forall_forall. by intros m (Hg & _)%Hsub%Hms1.
  - eapply NoDup_map_weaker; [|exact Hnodup]. cbn. intros x y Hx%Hsub%Hms1 Hy%Hsub%Hms1 [= Ed Ef Et]. destruct Hx as (((o & Ho & Hsi & _) & _) & _ & Ex & _), Hy as (((o' & Ho' & Hsi' & _) & _) & _ & Ey & _).
    unfold key. rewrite Ed, Ef, Et. rewrite Ed in Ho, Ex. by rewrite (start_position docs own (doc_id y) (position x) (position y) o o' (first_off x) (first_off y)) by (done || lia).
  - intros m Hin. pose proof (Hms1 _ (Hsub _ Hin)) as (Hg & H2 & H3 & H4 & H5 & H6). pose proof Hg as (Hocc & _ & Hend). split_and!; try done; [rewrite H3; apply occurs_in_text, Hocc|]. intros HK. destruct Hend as [He|Hfirst]; [exists m; split_and!; try done; by apply H6|].
    rewrite H3. apply Hex; try done. by eapply first_within.
  - intros HK d i Hin (p0 & Hp0 & Hi & Hj) Hk. destruct (in_text_occurs docs own ql d i Hne Hin) as (p & si & -> & Hocc). pose proof Hocc as (o & Ho & Hsi & _). pose proof (corpus_at_range _ _ _ _ Ho) as [Hp _].
    assert (p0 ≤ p). { destruct (Z.le_gt_cases p0 p); [done|]. pose proof (before_le docs own d (p + 1) p0 ltac:(lia)). pose proof (before_at docs own d p o Ho). lia. }
    apply Hex; try done. pose proof (before_le docs own d (p0 + 9) (p + 9) ltac:(lia)) as Hb. rewrite (before_split docs own d p (p + 9)), len_app in Hb by lia.
    replace (Z.to_nat (p + 9 - p)) with 9%nat in Hb by lia. unfold nine_tokens. change (concat (map own (take 9 (drop (Z.to_nat p) (doc_tokens docs d))))) with (tokens_from docs own d p 9). lia.
Qed.

(** C2. Exact substring search returns the occurrences.  Over an index of a
    corpus, with or without a sibling table, whose texts fold character by
    character to those of the dictionary and to as many bytes, and for a query
    of 1 to 2048 bytes of the same kind, there is a number of turns and a cap
    from which on [contains_v3] with strict separators returns, below the cap
    too: its matches start at occurrences of the query in documents the filter
    keeps, and no byte span is there twice; every occurrence that lies within
    nine tokens has a match with exactly its bytes, and so has every
    occurrence that a match starts at; and without a sibling table every match
    has exactly the bytes of an occurrence. *)
Theorem contains_spans (to_lowercase : list Z → list Z) (char_lower : Z → list Z) (iter : gmap (list Z) (list nat) → list (list Z * list nat))
    {F : Type} `{!DocFilter F} `{!DocFilterLaws F} (filter_docs : option F) (ctx : BriquesContext) (offsets : Offsets)
    (docs : list (list Z)) (tok : Z → Prop) (own ov ext : Z → list Z) (tr : Texts) (query : list Z) :
  (∀ g, iter g ≡ₚ map_to_list g) → context_ok to_lowercase ctx docs tok own ov ext → spans_ok char_lower ctx offsets docs tok own ext tr →
  lower_ok to_lowercase query → folded char_lower false query = to_lowercase query → #query = #(to_lowercase query) → 0 < #query ≤ 2048 →
  let ql := to_lowercase query in
  ∃ n K, ∀ fuel cap, (n ≤ fuel)%nat → 0 ≤ cap → ∃ ms, contains_strict char_lower ctx offsets cap to_lowercase iter fuel filter_docs query false false = Ret ms ∧
    NoDup (map (λ m, (doc_id m, byte_from m, byte_to m)) ms) ∧
    (∀ m, m ∈ ms → keeps filter_docs (doc_id m) ∧ in_text docs own ql (doc_id m) (byte_from m) ∧ byte_from m ≤ byte_to m ∧ (sibling_v3 ctx = None → byte_to m = byte_from m + #ql) ∧
       (K ≤ cap → ∃ m', m' ∈ ms ∧ doc_id m' = doc_id m ∧ byte_from m' = byte_from m ∧ byte_to m' = byte_from m + #ql)) ∧
    (K ≤ cap → ∀ d i, in_text docs own ql d i → within_nine docs own d i (i + #ql) → keeps filter_docs d → ∃ m, m ∈ ms ∧ doc_id m = d ∧ byte_from m = i ∧ byte_to m = i + #ql).
Proof. intros. by eapply contains_search. Qed.

(** ** A query folded in two ways *)

Lemma find_in (q s : list Z) i : find q s = Some i → 0 ≤ i ∧ q `prefix_of` drop (Z.to_nat i) s.
Proof.
  revert i. induction s as [|b s IH]; intros i; cbn [find]; case_bool_decide as Hp; intros E; try done.
  - by injection E as <-.
  - by injection E as <-.
  - destruct (find q s) as [j|]; [|done]. cbn in E. injection E as E. destruct (IH j eq_refl) as [Hj Hd]. split; [lia|]. by replace (Z.to_nat i) with (S (Z.to_nat j)) by lia.
Qed.

Section Lost.
Context (to_lowercase : list Z → list Z) (char_lower : Z → list Z) (ctx : BriquesContext) (offsets : Offsets).
Context (docs : list (list Z)) (tok : Z → Prop) (own ov ext : Z → list Z) (tr : Texts).
Context (Hctx : context_ok to_lowercase ctx docs tok own ov ext) (Hsp : spans_ok char_lower ctx offsets docs tok own ext tr).

(** A match whose window does not have the needle is dropped. *)
Lemma verify_one_drops needle q m : (∀ d i, ¬ in_text docs own needle d i) → good docs tok own ext q m → verify_one char_lower ctx offsets needle false m = Ret None.
Proof using Hctx Hsp.
  intros Hno ((o & Ho & Hsi & _) & (_ & _ & Esp & Hlast) & _). pose proof (corpus_at_range _ _ _ _ Ho) as [Hp _]. pose proof (cx_corpus _ _ _ _ _ _ _ Hctx) as Hco. pose proof (co_lengths _ _ _ _ _ Hco (doc_id m)) as Hsize. unfold verify_one.
  assert (add32 (position m) (saturating_sub (span m) 1) = last_start_pos m) as -> by (rewrite Esp; unfold saturating_sub, add32, as_u32; rewrite Z.mod_small; lia).
  pose proof (sp_posmap _ _ _ _ _ _ _ _ Hsp) as Epm. destruct (posmap ctx) as [pm|] eqn:E; [|done]. clear Epm.
  unfold rebuild_window_src. rewrite E, (sp_texts _ _ _ _ _ _ _ _ Hsp). set (a := saturating_sub (position m) 1). assert (0 ≤ a ≤ position m) as Ha by (subst a; unfold saturating_sub; lia).
  replace (Z.min (last_start_pos m + 1) (2 ^ 32 - 1) + 1) with (last_start_pos m + 2) by lia. unfold range. set (n := Z.to_nat (last_start_pos m + 2 - a)). replace (last_start_pos m + 2 - a) with (Z.of_nat n) by lia.
  destruct (window_src_spec char_lower docs tok own pm tr (λ d p o H, proj1 (co_tokens _ _ _ _ _ Hco d p o H)) (cx_posmap _ _ _ _ _ _ _ Hctx pm E) (λ o H, proj1 (sp_folds _ _ _ _ _ _ _ _ Hsp o H)) (doc_id m) n a [] true) as [asc ->]; [lia|].
  rewrite bind_ret, app_nil_l. assert (tokens_from docs own (doc_id m) a n ≠ []) as Hw.
  { assert (#(before docs own (doc_id m) (position m)) < #(before docs own (doc_id m) (a + Z.of_nat n))) as Hlt by (pose proof (before_at docs own _ _ _ Ho); pose proof (before_le docs own (doc_id m) (position m + 1) (a + Z.of_nat n) ltac:(lia)); lia).
    pose proof (before_le docs own (doc_id m) a (position m) Ha). rewrite (before_split docs own (doc_id m) a (a + Z.of_nat n)), len_app in Hlt by lia. replace (Z.to_nat (a + Z.of_nat n - a)) with n in Hlt by lia. intros En. rewrite En, len_nil in Hlt. lia. }
  destruct (tokens_from docs own (doc_id m) a n) as [|b w] eqn:Ew; [done|]. rewrite bind_ret. destruct (find needle (b :: w)) as [i|] eqn:Ef; [|done]. exfalso. rewrite <- Ew in Ef. apply find_in in Ef as [Hi Hd].
  destruct (decide (needle = [])) as [->|Hne]; [by apply (Hno 0 0); split; [|apply prefix_nil]|].
  apply (Hno (doc_id m) (#(before docs own (doc_id m) a) + i)). pose proof (len_nonneg (before docs own (doc_id m) a)). split; [lia|]. rewrite (before_text docs own (doc_id m) a), drop_app_ge by (unfold len in *; lia).
  replace (Z.to_nat (#(before docs own (doc_id m) a) + i) - length (before docs own (doc_id m) a))%nat with (Z.to_nat i) by (unfold len; lia). rewrite (tokens_text docs own (doc_id m) a n).
  destruct (decide (Z.to_nat i ≤ length (tokens_from docs own (doc_id m) a n))%nat) as [Hle|Hgt]; [rewrite drop_app_le by done; by apply prefix_app_r|]. rewrite drop_ge in Hd by lia. by apply prefix_nil_inv in Hd.
Qed.

Lemma verify_each_drops needle q ms : (∀ d i, ¬ in_text docs own needle d i) → Forall (good docs tok own ext q) ms → verify_each char_lower ctx offsets needle false ms = Ret ([], false).
Proof using Hctx Hsp. intros Hno. induction 1 as [|m ms Hm _ IH]; [done|]. cbn [verify_each]. by rewrite (verify_one_drops needle q m Hno Hm), bind_ret, IH. Qed.
End Lost.

(** C10. What is found is lost when a query folds in two ways.  The dictionary
    and [find_literal_v3] lower the case of strings, [verify_literal] that of
    characters.  Over an index whose texts fold alike in both ways, for any
    query whose lower case by characters is in no document, from some number
    of turns and some cap on: [find_literal_v3] has a match for every
    occurrence, within nine tokens, of the query's lower case as a string, and
    [contains_v3] returns nothing.  So for a query in capitals that ends in a
    capital sigma, and a document with the word in lower case. *)
Theorem folded_in_two_ways (to_lowercase : list Z → list Z) (char_lower : Z → list Z) (iter : gmap (list Z) (list nat) → list (list Z * list nat))
    {F : Type} `{!DocFilter F} `{!DocFilterLaws F} (filter_docs : option F) (ctx : BriquesContext) (offsets : Offsets)
    (docs : list (list Z)) (tok : Z → Prop) (own ov ext : Z → list Z) (tr : Texts) (query : list Z) :
  (∀ g, iter g ≡ₚ map_to_list g) → context_ok to_lowercase ctx docs tok own ov ext → spans_ok char_lower ctx offsets docs tok own ext tr →
  lower_ok to_lowercase query → to_lowercase query ≠ [] → 0 < #query ≤ 2048 → #(to_lowercase query) < 2 ^ 31 →
  (∀ d i, ¬ in_text docs own (folded char_lower false query) d i) →
  ∃ n K, ∀ fuel cap, (n ≤ fuel)%nat → 0 ≤ cap → ∃ ms, find_literal_strict cap to_lowercase iter fuel filter_docs ctx query false = Ret ms ∧
    (K ≤ cap → ∀ d p si, occurs docs own (to_lowercase query) d p si ∧ si + #(to_lowercase query) ≤ #(nine_tokens docs own d p) → keeps filter_docs d → ∃ m, m ∈ ms ∧ doc_id m = d ∧ position m = p ∧ first_off m = si) ∧
    contains_strict char_lower ctx offsets cap to_lowercase iter fuel filter_docs query false false = Ret [].
Proof.
  intros Hiter Hctx Hsp Hl Hne Hq Hsize Hno. destruct (literal_search to_lowercase iter filter_docs ctx docs tok own ov ext Hiter Hctx query Hl Hne) as (n & K & H); [lia|done|].
  exists n, K. intros fuel cap Hf Hcap. destruct (H fuel cap Hf Hcap) as (ms & E & Hsound & Hcomp). exists ms. split; [done|]. split.
  - intros HK d p si HP Hk. destruct (Hcomp HK d p si HP Hk) as (m & ? & ? & ? & ? & _). by exists m.
  - assert (∀ m, m ∈ ms → good docs tok own ext (to_lowercase query) m) as Hgood by (intros m (H1 & _ & H2 & H3 & _)%Hsound; done).
    rewrite (contains_verifies to_lowercase char_lower iter filter_docs ctx offsets docs tok own ov ext tr query _ fuel cap ms Hctx Hsp Hq E Hgood). set (ms1 := map _ _).
    assert (Forall (good docs tok own ext (to_lowercase query)) (dedup_occurrences ms1)) as Hall.
    { apply Forall_forall. intros m Hm. destruct (dedup_occurrences_spec ms1) as (Hsub & _). apply Hsub in Hm. subst ms1. apply list_elem_of_In, in_map_iff in Hm as (m0 & <- & Hm%list_elem_of_In). rewrite merge_sort_Permutation in Hm.
      destruct (place_spec to_lowercase char_lower ctx offsets docs tok own ov ext tr Hctx Hsp _ m0 (Hgood m0 Hm)) as (to & te & -> & _). exact (Hgood m0 Hm). }
    generalize dependent (dedup_occurrences ms1). intros ms2 Hall. unfold verify_literal. case_bool_decide as Enil; [by rewrite Enil|].
    pose proof (sp_posmap _ _ _ _ _ _ _ _ Hsp) as Epm. rewrite (sp_texts _ _ _ _ _ _ _ _ Hsp), Epm. cbn [is_some negb orb].
    destruct (folded char_lower false query) as [|b w] eqn:Efold; [exfalso; apply (Hno 0 0); split; [done|apply prefix_nil]|]. cbn [negb].
    by rewrite (verify_each_drops to_lowercase char_lower ctx offsets docs tok own ov ext tr Hctx Hsp _ _ _ Hno Hall).
Qed.
