(* ===== verification/ContainsFiles.v ===== *)
(** * Exact substring search over a position map file

    The position map the writer serializes, opened, answers the ordinals and
    the byte offsets the search relies on; a small index searched through
    it. *)
From stdpp Require Import gmap.
From S2P Require Import Prelude Ordering PosMap DocFilter SiblingTable TermTexts ParentRecord Text EqualChunk SuffixBuilder SuffixBuild SuffixBuildProofs FstWalk WalkProofs Utf8 Resolve PostingSource ResolveProofs Chains FindLiteral ChainProofs Occurrences SiblingChains LiteralSearch BuiltIndex Literal Contains ContainsSearch.
Import source composite walk chains.
Import parents.
Import resolve orchestrator.
Open Scope Z_scope.

Definition to_option {A} (m : out A) : option A := match m with Ret a => Some a | _ => None end.

(** The accessors of an open file; documents and positions are unsigned. *)
Definition file_ordinal_at (r : PosMap.posmap.PosMapReader) (d p : Z) : option Z := if (0 <=? d) && (0 <=? p) then to_option (PosMap.posmap.ordinal_at r d p) else None.
Definition file_offsets (r : PosMap.posmap.PosMapReader) : Offsets := {|
  checkpoints := Some (λ d p own_len, if (0 <=? d) && (0 <=? p) then to_option (PosMap.posmap.byte_at r d p own_len) else None);
  posting_byte _ _ _ := None;
|}.

Section File.
Context (docs : list (list Z)) (own : Z → list Z) (own_len : Z → option Z).
Context (Hok : docs_ok docs) (Hnarrow : PosMap.posmap.narrow docs = true).
Context (Hlens : ∀ d p o, corpus_at docs d p = Some o → o ≠ PosMap.posmap.EMPTY ∧ own_len o = Some #(own o)).
Local Abbreviation r := (PosMap.reader_of docs (Some own_len) None).

Lemma corpus_ordinal_in d p : ordinal_in docs (Z.to_nat d) (Z.to_nat p) = if (0 <=? d) && (0 <=? p) then corpus_at docs d p else ordinal_in docs (Z.to_nat d) (Z.to_nat p).
Proof using Hlens.
  destruct (_ && _) eqn:E; [|done]. assert (corpus_at docs d p = (toks ← docs !! Z.to_nat d; toks !! Z.to_nat p)) as Ec by (unfold corpus_at; by rewrite E). specialize (Hlens d p). rewrite Ec in *. unfold ordinal_in.
  destruct (docs !! Z.to_nat d) as [doc|]; [|done]. cbn in *. destruct (doc !! Z.to_nat p) as [o|]; [|done]. cbn. destruct (Hlens o eq_refl) as [Hne _]. unfold slot_value. by rewrite (proj2 (Z.eqb_neq _ _) Hne).
Qed.

Lemma file_posmap d p : file_ordinal_at r d p = corpus_at docs d p.
Proof using Hok Hlens.
  unfold file_ordinal_at. pose proof (corpus_ordinal_in d p) as Ei. destruct ((0 <=? d) && (0 <=? p)) eqn:E; [|unfold corpus_at; by rewrite E]. rewrite <- Ei.
  pose proof (ordinal_at_reader docs (Some own_len) None Hok (λ o, o) (λ d p o _, eq_refl) (Z.to_nat d) (Z.to_nat p)) as H. rewrite !Z2Nat.id in H by lia. rewrite H. by destruct (ordinal_in _ _ _).
Qed.

(** The bytes before a position, summed over its slots. *)
Lemma byte_offset_before d k : #(before docs own d (Z.of_nat k)) < 2 ^ 32 → (k ≤ length (doc_tokens docs d))%nat → byte_offset own_len (doc_tokens docs d) k = #(before docs own d (Z.of_nat k)).
Proof using Hlens.
  induction k as [|k IH]; intros Hs Hk; [done|]. destruct (lookup_lt_is_Some_2 (doc_tokens docs d) k) as [o Ho]; [lia|].
  assert (corpus_at docs d (Z.of_nat k) = Some o) as Hc by (rewrite corpus_at_tokens, Nat2Z.id by lia; done). replace (Z.of_nat (S k)) with (Z.of_nat k + 1) in * by lia. rewrite (before_at docs own _ _ _ Hc) in *.
  pose proof (len_nonneg (own o)). rewrite (byte_offset_S _ _ _ _ Ho), IH by lia. destruct (Hlens _ _ _ Hc) as [Hne El]. unfold byte_step. rewrite (proj2 (Z.eqb_neq _ _) Hne), El. cbn.
  apply Z.mod_small. pose proof (len_nonneg (before docs own d (Z.of_nat k))). lia.
Qed.

Lemma file_places d p o lens : corpus_at docs d p = Some o → #(doc_text docs own d) < 2 ^ 32 → (∀ d p o, corpus_at docs d p = Some o → lens o = own_len o) →
  to_option (PosMap.posmap.byte_at r d p lens) = Some #(before docs own d p).
Proof using Hok Hnarrow Hlens.
  intros Ho Hsize Hl. pose proof (corpus_at_range _ _ _ _ Ho) as [Hp Hlook]. assert (0 ≤ d) as Hd by (unfold corpus_at in Ho; destruct (Z.leb_spec 0 d); done).
  destruct (docs !! Z.to_nat d) as [doc|] eqn:Ed; [|exfalso; unfold doc_tokens in Hlook; rewrite Ed in Hlook; by destruct (0 <=? d)].
  assert (doc_tokens docs d = doc) as Edoc by (unfold doc_tokens; rewrite Ed; by replace (0 <=? d) with true by lia).
  pose proof (byte_at_reader docs None own_len lens Hok Hnarrow (λ o, o)) as H. rewrite Edoc in Hlook.
  assert (∀ d p o, ordinal_in docs d p = Some o → named None o = Ret o ∧ lens o = own_len o ∧ is_Some (own_len o)) as Hnames.
  { intros d' p' o' Ho'. pose proof (corpus_ordinal_in (Z.of_nat d') (Z.of_nat p')) as E. rewrite !Nat2Z.id in E. rewrite Ho' in E. rewrite (proj2 (Z.leb_le 0 (Z.of_nat d')) (Zle_0_nat d')), (proj2 (Z.leb_le 0 (Z.of_nat p')) (Zle_0_nat p')) in E. cbn [andb] in E.
    symmetry in E. destruct (Hlens _ _ _ E) as [_ El]. split; [done|]. split; [by apply (Hl _ _ _ E)|by rewrite El]. }
  specialize (H Hnames (Z.to_nat d) (Z.to_nat p) doc o Ed Hlook). rewrite !Z2Nat.id in H by lia. rewrite H. destruct (Hlens _ _ _ Ho) as [Hne _]. rewrite (proj2 (Z.eqb_neq _ _) Hne). cbn. f_equal.
  pose proof (byte_offset_before d (Z.to_nat p)) as Hb. rewrite Z2Nat.id, Edoc in Hb by lia. apply Hb; [pose proof (before_size docs own d p); lia|rewrite Edoc in Hp; unfold len in Hp; lia].
Qed.
End File.

(** ** A small index *)

Definition small_lens (o : Z) : option Z := termtexts.own_len <$> meta small_texts o.
Definition small_posmap : PosMap.posmap.PosMapReader :=
  Eval vm_compute in match PosMap.posmap.open (PosMap.posmap.serialize_with_lens small_docs (Some small_lens)) with Ret r => r | _ => PosMap.reader_of [] None None end.
(** The position map is read from its file; there is a sibling table. *)
Definition file_ctx : BriquesContext := {|
  reader := plain_reader small_built; resolver := corpus_resolver small_docs; posmap := Some (file_ordinal_at small_posmap); texts := Some small_texts; sibling_v3 := Some small_siblings;
|}.
Definition small_char_lower (c : Z) : list Z := [ascii_lower c].

Lemma small_posmap_reader : small_posmap = PosMap.reader_of small_docs (Some small_lens) None.
Proof. vm_compute. reflexivity. Qed.

Lemma small_docs_ok : docs_ok small_docs.
Proof. by split; [repeat constructor; by vm_compute|by vm_compute|repeat constructor; by vm_compute|by vm_compute]. Qed.

Lemma small_lens_at d p o : corpus_at small_docs d p = Some o → o ≠ PosMap.posmap.EMPTY ∧ small_lens o = Some #(small_own o).
Proof. intros H%small_at. repeat (apply elem_of_cons in H as [[= -> -> ->]|H]; [done|]). by apply elem_of_nil in H. Qed.

Lemma file_ctx_ok : context_ok lower file_ctx small_docs (tok_of small_calls) small_own small_ov small_ov.
Proof.
  destruct (small_ctx_ok (Some small_siblings) small_siblings_fit) as [H1 H2 H3 H4 H5 H6 H7 H8 H9 H10 H11]. split; try done. intros pm [= <-] d p. rewrite small_posmap_reader. apply (file_posmap small_docs small_own small_lens small_docs_ok small_lens_at).
Qed.

Lemma small_sizes d : #(doc_text small_docs small_own d) < 2 ^ 32 - 1.
Proof. unfold doc_text, text_from, doc_tokens. rewrite drop_0. destruct (0 <=? d); [|done]. generalize (Z.to_nat d) as i. intros i. do 2 (destruct i as [|i]; [done|]). done. Qed.

Lemma small_spans_ok : spans_ok small_char_lower file_ctx (file_offsets small_posmap) small_docs (tok_of small_calls) small_own small_ov small_texts.
Proof.
  split; try done.
  - intros o Ho%small_tok. split; [|by destruct Ho as [->|[->| ->]]]. destruct Ho as [->|[->| ->]]; (eexists _, _; split; [done|]; split; [done|]; split; [apply ascii_valid; by apply (bool_decide_unpack _)|]; by vm_compute).
  - intros d p o Ho. unfold byte_at. cbn [posmap texts file_ctx file_offsets checkpoints]. pose proof (corpus_at_range _ _ _ _ Ho) as [Hp _].
    assert ((0 <=? d) && (0 <=? p) = true) as -> by (unfold corpus_at in Ho; by destruct (_ && _)). rewrite small_posmap_reader.
    apply (file_places small_docs small_own small_lens small_docs_ok eq_refl small_lens_at d p o); [done|pose proof (small_sizes d); lia|done].
  - exact small_sizes.
  - intros d p o o' H1%small_at H2. repeat (apply elem_of_cons in H1 as [[= -> -> ->]|H1]; [vm_compute in H2; (done || injection H2 as <-; by vm_compute)|]). by apply elem_of_nil in H1.
Qed.

Example small_contains :
  (ms ← contains_strict (F := HashSet) small_char_lower file_ctx (file_offsets small_posmap) 1000 lower map_to_list 20 None [66; 65] false false;
   Ret (map (λ m, (doc_id m, byte_from m, byte_to m)) ms)) = Ret [(0, 4, 6); (0, 8, 10); (1, 0, 2); (1, 4, 6)].
Proof. vm_compute. reflexivity. Qed.

Lemma contains_spans_witness :
  let query := [111; 32; 66; 97; 114; 32; 98; 97; 122] in
  ∃ n K, ∀ fuel cap, (n ≤ fuel)%nat → 0 ≤ cap → ∃ ms, contains_strict (F := HashSet) small_char_lower file_ctx (file_offsets small_posmap) cap lower map_to_list fuel None query false false = Ret ms ∧
    (∀ m, m ∈ ms → in_text small_docs small_own (lower query) (doc_id m) (byte_from m) ∧ byte_from m ≤ byte_to m) ∧
    (K ≤ cap → ∃ m, m ∈ ms ∧ doc_id m = 0 ∧ byte_from m = 2 ∧ byte_to m = 11).
Proof.
  intros query. destruct (contains_spans (F := HashSet) lower small_char_lower map_to_list None file_ctx (file_offsets small_posmap) small_docs (tok_of small_calls) small_own small_ov small_ov small_texts query) as (n & K & H).
  - done.
  - exact file_ctx_ok.
  - exact small_spans_ok.
  - apply lower_lower_ok, ascii_valid. by apply (bool_decide_unpack _).
  - by vm_compute.
  - done.
  - done.
  - exists n, K. intros fuel cap Hf Hcap. destruct (H fuel cap Hf Hcap) as (ms & E & _ & Hs & Hc). exists ms. split; [done|]. split.
    + intros m Hm. by destruct (Hs m Hm) as (_ & H1 & H2 & _).
    + intros HK. apply (Hc HK 0 2); [|exists 0; split; [done|]; by vm_compute|done]. split; [done|]. by apply (bool_decide_unpack _); vm_compute.
Defined.

(** ** The final sigma *)

(** An index of one document with a Greek word of two letters, in lower
    case; the lower case of a string, whose last sigma is a final one, and of
    a character, on ASCII and on the letters of this word. *)
Definition sigma_word : list Z := [206; 191; 207; 130].
Definition sigma_capitals : list Z := [206; 159; 206; 163].
Definition sigma_lower (s : list Z) : list Z := if bool_decide (s = sigma_capitals) then sigma_word else lower s.
Definition sigma_char (c : Z) : list Z := [if c =? 927 then 959 else if c =? 931 then 963 else ascii_lower c].

Definition sigma_calls : list call := [Token [959; 962] 0 4 0 0 true].
Definition sigma_builder : builder.SuffixFstBuilderV3 :=
  Eval vm_compute in value_of (builder.with_min_suffix_len 1) (foldM (apply_call lower) (builder.with_min_suffix_len 1) sigma_calls).
Definition sigma_built : builder.Built :=
  Eval vm_compute in match builder.build sigma_builder with Ret (builder.Ok b) => b | _ => small_built end.
Definition sigma_texts : Texts := {|
  text o := if o =? 0 then Some sigma_word else None;
  meta o := if o =? 0 then Some {| termtexts.own_len := 4; termtexts.sep_len := 0; termtexts.overlap_len := 0; termtexts.is_word_start := true; termtexts.is_word_stripped := false |} else None;
|}.
Definition sigma_ctx : BriquesContext := {|
  reader := plain_reader sigma_built; resolver := corpus_resolver [[0]]; posmap := Some (corpus_at [[0]]); texts := Some sigma_texts; sibling_v3 := None;
|}.
Definition sigma_offsets : Offsets := {| checkpoints := Some (λ _ _ _, Some 0); posting_byte _ _ _ := None |}.
Definition sigma_own (_ : Z) : list Z := sigma_word.
Definition sigma_ov (_ : Z) : list Z := [].

Example sigma_contains :
  contains_strict (F := HashSet) sigma_char sigma_ctx sigma_offsets 1000 sigma_lower map_to_list 20 None sigma_capitals false false = Ret [] ∧
  (ms ← contains_strict (F := HashSet) sigma_char sigma_ctx sigma_offsets 1000 sigma_lower map_to_list 20 None sigma_word false false;
   Ret (map (λ m, (doc_id m, byte_from m, byte_to m)) ms)) = Ret [(0, 0, 4)].
Proof. vm_compute. split; reflexivity. Qed.

Lemma sigma_valid : valid sigma_word.
Proof. exists [959; 962]. split; [by apply (bool_decide_unpack _)|done]. Qed.

Lemma sigma_tok o : tok_of sigma_calls o ↔ o = 0.
Proof.
  split; [|intros ->; eexists _, _, _, _, _; left]. intros (t & w & s & v & ws & H). apply elem_of_cons in H as [[= ? ? ? ? ? ?]|H]; [done|]. by apply elem_of_nil in H.
Qed.

Lemma sigma_at d p o : corpus_at [[0]] d p = Some o → d = 0 ∧ p = 0 ∧ o = 0.
Proof.
  unfold corpus_at. destruct ((0 <=? d) && (0 <=? p)) eqn:E; [|done]. apply andb_true_iff in E as [Hd%Z.leb_le Hp%Z.leb_le]. intros H.
  assert (d = Z.of_nat (Z.to_nat d)) as Ed by lia. assert (p = Z.of_nat (Z.to_nat p)) as Ep by lia. revert Ed Ep H. generalize (Z.to_nat d) as i, (Z.to_nat p) as j.
  intros [|i] [|j] -> ->; [|done..]. by intros [= <-].
Qed.

Lemma sigma_dictionary : dictionary_of (flat_map (call_entries lower 1) sigma_calls) sigma_built.
Proof.
  destruct (calls_dictionary lower ascii_lower_chars 1 sigma_calls sigma_builder) as (built & Eb & Hd).
  - by apply (bool_decide_unpack _).
  - by vm_compute.
  - by vm_compute.
  - by apply (bool_decide_unpack _).
  - assert (built = sigma_built) as <-; [|done]. vm_compute in Eb. by injection Eb as <-.
Qed.

Lemma sigma_ctx_ok : context_ok sigma_lower sigma_ctx [[0]] (tok_of sigma_calls) sigma_own sigma_ov sigma_ov.
Proof.
  assert (texts_of lower sigma_calls sigma_own sigma_ov) as Htexts.
  { intros t o w s v ws H. apply elem_of_cons in H as [[= -> -> -> -> -> ->]|H]; [by vm_compute|]. by apply elem_of_nil in H. }
  split; cbn [reader resolver posmap texts sigma_ctx].
  - exists [entries_held sigma_built], None. split.
    + apply (built_reader lower ascii_lower_chars 1 sigma_calls); [by apply (bool_decide_unpack _)|exact sigma_dictionary|done|done|by apply (bool_decide_unpack _)].
    + apply (built_tokens lower ascii_lower_chars 1 sigma_calls); [done|by apply (bool_decide_unpack _)|exact Htexts|exact sigma_dictionary].
  - done.
  - split.
    + intros d p o (_ & _ & ->)%sigma_at. split; [by apply sigma_tok|by vm_compute].
    + intros d. unfold doc_tokens. destruct (0 <=? d); [|done]. by destruct (Z.to_nat d).
    + intros d p o (-> & -> & ->)%sigma_at. split; by apply (bool_decide_unpack _); vm_compute.
  - done.
  - apply _.
  - by intros o ->%sigma_tok.
  - intros o d p _. symmetry. apply corpus_posmap.
  - by intros pm [= <-].
  - intros t [= <-]. split. intros o ->%sigma_tok. eexists _, _. split; [done|]. split; [done|]. split; [done|]. split; [by vm_compute|]. split; [done|]. split; [done|]. split; [done|]. apply sigma_valid.
  - by intros o ->%sigma_tok.
  - done.
Qed.

Lemma sigma_spans_ok : spans_ok sigma_char sigma_ctx sigma_offsets [[0]] (tok_of sigma_calls) sigma_own sigma_ov sigma_texts.
Proof.
  split; try done.
  - intros o ->%sigma_tok. split; [|done]. eexists _, _. split; [done|]. split; [done|]. split; [exact sigma_valid|]. by vm_compute.
  - by intros d p o (-> & -> & ->)%sigma_at.
  - intros d. unfold doc_text, text_from, doc_tokens. rewrite drop_0. destruct (0 <=? d); [|done]. by destruct (Z.to_nat d).
Qed.

Lemma sigma_lower_ok : lower_ok sigma_lower sigma_capitals.
Proof.
  split.
  - intros s Hs. unfold sigma_lower. case_bool_decide as E; [by rewrite E in Hs|done].
  - exact sigma_valid.
  - intros a b E _. change (sigma_lower sigma_capitals) with sigma_word in E. assert (b = drop (length a) sigma_word) as -> by (by rewrite E, drop_app_length).
    assert (length a ≤ 4)%nat as Ha by (apply (f_equal length) in E; rewrite length_app in E; cbn in E; lia). destruct a as [|? [|? [|? [|? [|? a]]]]]; [by vm_compute..|cbn in Ha; lia].
Qed.

Lemma folded_in_two_ways_witness :
  ∃ n K, ∀ fuel cap, (n ≤ fuel)%nat → K ≤ cap → 0 ≤ cap →
    (∃ ms m, find_literal_strict (F := HashSet) cap sigma_lower map_to_list fuel None sigma_ctx sigma_capitals false = Ret ms ∧ m ∈ ms ∧ doc_id m = 0 ∧ position m = 0 ∧ first_off m = 0) ∧
    contains_strict (F := HashSet) sigma_char sigma_ctx sigma_offsets cap sigma_lower map_to_list fuel None sigma_capitals false false = Ret [].
Proof.
  destruct (folded_in_two_ways (F := HashSet) sigma_lower sigma_char map_to_list None sigma_ctx sigma_offsets [[0]] (tok_of sigma_calls) sigma_own sigma_ov sigma_ov sigma_texts sigma_capitals) as (n & K & H).
  - done.
  - exact sigma_ctx_ok.
  - exact sigma_spans_ok.
  - exact sigma_lower_ok.
  - done.
  - by vm_compute.
  - by vm_compute.
  - intros d i [Hi Hp]. change (folded sigma_char false sigma_capitals) with [206; 191; 207; 131] in Hp. unfold doc_text, text_from, doc_tokens in Hp. rewrite drop_0 in Hp.
    assert (¬ [206; 191; 207; 131] `prefix_of` drop (Z.to_nat i) []) as Hnil by (rewrite drop_nil; by intros ?%prefix_nil_inv).
    destruct (0 <=? d); [|done]. destruct (Z.to_nat d) as [|k]; [|done].
    destruct (Z.to_nat i) as [|[|[|[|j]]]]; [by apply (bool_decide_pack _) in Hp; vm_compute in Hp..|]. by rewrite drop_ge in Hp by (cbn; lia); apply prefix_nil_inv in Hp.
  - exists n, K. intros fuel cap Hf HK Hcap. destruct (H fuel cap Hf Hcap) as (ms & E & Hc & Hnone). split; [|exact Hnone].
    destruct (Hc HK 0 0 0) as (m & Hm & Hd & Hp & Ho); [|done|by exists ms, m]. split; [|by vm_compute]. exists 0. split; [done|]. split; [by vm_compute|]. by apply (bool_decide_unpack _); vm_compute.
Defined.
