(* ===== verification/Collector.v ===== *)
(** * The collector ([src/suffix_fst/collector_v3.rs])

    Takes the values of the documents one by one: cuts each into chunks,
    appends to a chunk the first bytes of the next one, numbers the extended
    texts by text and shape, and keeps the postings of the chunks, the entries
    and postings of the words without separators, and the pairs of consecutive
    tokens.  [into_data] gives the final ordinals and what the files are
    written from; [sfx_dag_v3.rs] hands it to the writers.

    The intern table holds the ordinals by the hash of text and shape, and is
    a search over them.  This is the collector of a segment with its own
    dictionary; the traces are left out. *)
From S2P Require Import Prelude Ordering Text EqualChunk SuffixBuilder SiblingTable TermTexts WordSfxPost WordPosMap SfxPost PosMap.
Import text.

Module collector.

Definition DEFAULT_OVERLAP : Z := 2.
Definition CHUNK_POSTING_BYTES : Z := 16 + 8.
Definition WORD_POSTING_BYTES : Z := 20 + 8.
Definition SIBLING_PAIR_BYTES : Z := 12.
Definition INTERNED_TOKEN_OVERHEAD : Z := 24 + 24 + 24 + 16.
Definition WORD_STRIPPED_OVERHEAD : Z := 24 + 24 + 32.
Definition MAX_SUFFIX_INDEX : Z := 256.

Record TokenMetaV3 := {
  own_len : Z;
  sep_len : Z;
  overlap_len : Z;
  is_word_start : bool;
  word_id : Z;
  is_word_stripped : bool;
}.

Record WordStrippedEntry := {
  word_content : list Z;
  content_overlap : list Z;
  first_intern_ord : Z;
  first_chunk_intern_ord : Z;
  last_chunk_intern_ord : Z;
  first_own_len : Z;
  last_sep_len : Z;
  ws_is_word_start : bool;
  num_chunks : Z;
}.

(** [(doc_id, token_index, byte_from, byte_to)], and for a word
    [(doc_id, first, last, byte_from, content end, tail_off)]. *)
Abbreviation ChunkPosting := (Z * Z * Z * Z)%type.
Abbreviation WordPosting := (Z * Z * Z * Z * Z * Z)%type.
Abbreviation Chunk := (list Z * equal_chunk.ChunkMeta)%type.

Record SfxCollectorV3 := {
  token_texts : list (list Z);
  token_postings : list (list ChunkPosting);
  token_meta : list TokenMetaV3;
  word_stripped_entries : list WordStrippedEntry;
  ws_entry_pushed : list bool;
  word_postings : list (list WordPosting);
  sibling_pairs : list (Z * Z);
  positions : bool;
  doc_active : bool;
  current_doc_id : Z;
  current_value_ti_start : Z;
  mem_estimate : Z;
  max_token : Z;
  overlap : Z;
  min_suffix_len : Z;
}.

(** [with_config] and [without_positions]. *)
Definition with_config (max_token overlap min_suffix_len : Z) : SfxCollectorV3 := {|
  token_texts := []; token_postings := []; token_meta := []; word_stripped_entries := []; ws_entry_pushed := []; word_postings := []; sibling_pairs := [];
  positions := true; doc_active := false; current_doc_id := 0; current_value_ti_start := 0; mem_estimate := 0;
  max_token := max_token; overlap := overlap; min_suffix_len := min_suffix_len;
|}.

(** The fields [add_value] and [intern_extended] change. *)
Definition with_tokens (c : SfxCollectorV3) (texts : list (list Z)) (postings : list (list ChunkPosting)) (metas : list TokenMetaV3) (bytes : Z) : SfxCollectorV3 := {|
  token_texts := texts; token_postings := postings; token_meta := metas; word_stripped_entries := word_stripped_entries c; ws_entry_pushed := ws_entry_pushed c;
  word_postings := word_postings c; sibling_pairs := sibling_pairs c; positions := positions c; doc_active := doc_active c; current_doc_id := current_doc_id c;
  current_value_ti_start := current_value_ti_start c; mem_estimate := mem_estimate c + bytes; max_token := max_token c; overlap := overlap c; min_suffix_len := min_suffix_len c;
|}.
Definition with_words (c : SfxCollectorV3) (entries : list WordStrippedEntry) (pushed : list bool) (postings : list (list WordPosting)) (pairs : list (Z * Z)) (bytes : Z) : SfxCollectorV3 := {|
  token_texts := token_texts c; token_postings := token_postings c; token_meta := token_meta c; word_stripped_entries := entries; ws_entry_pushed := pushed;
  word_postings := postings; sibling_pairs := pairs; positions := positions c; doc_active := doc_active c; current_doc_id := current_doc_id c;
  current_value_ti_start := current_value_ti_start c; mem_estimate := mem_estimate c + bytes; max_token := max_token c; overlap := overlap c; min_suffix_len := min_suffix_len c;
|}.
Definition with_doc (c : SfxCollectorV3) (active : bool) (doc_id ti_start : Z) : SfxCollectorV3 := {|
  token_texts := token_texts c; token_postings := token_postings c; token_meta := token_meta c; word_stripped_entries := word_stripped_entries c; ws_entry_pushed := ws_entry_pushed c;
  word_postings := word_postings c; sibling_pairs := sibling_pairs c; positions := positions c; doc_active := active; current_doc_id := doc_id;
  current_value_ti_start := ti_start; mem_estimate := mem_estimate c; max_token := max_token c; overlap := overlap c; min_suffix_len := min_suffix_len c;
|}.

Definition begin_doc (c : SfxCollectorV3) : SfxCollectorV3 := with_doc c true (current_doc_id c) 0.
Definition end_doc (c : SfxCollectorV3) : SfxCollectorV3 := with_doc c false (add32 (current_doc_id c) 1) (current_value_ti_start c).
(** [end_doc_empty] does the same. *)

(** ** Interning *)

Definition intern_shape (m : TokenMetaV3) : bool * Z * Z * bool :=
  if is_word_stripped m then (true, as_u16 (own_len m - sep_len m), 0, false)
  else (false, own_len m, sep_len m, is_word_start m).

Definition find_intern (c : SfxCollectorV3) (text : list Z) (meta : TokenMetaV3) : option Z :=
  Z.of_nat ∘ fst <$> list_find (λ tm : list Z * TokenMetaV3, intern_shape tm.2 = intern_shape meta ∧ tm.1 = text) (zip (token_texts c) (token_meta c)).

Definition intern_extended (c : SfxCollectorV3) (text : list Z) (meta : TokenMetaV3) : Z * SfxCollectorV3 :=
  match find_intern c text meta with
  | Some ord => (ord, c)
  | None => (as_u32 #(token_texts c), with_tokens c (token_texts c ++ [text]) (token_postings c ++ [[]]) (token_meta c ++ [meta]) (str_len text + INTERNED_TOKEN_OVERHEAD))
  end.

(** [v[i].push(x)]. *)
Definition push_at {A} (l : list (list A)) (i : Z) (x : A) : out (list (list A)) :=
  v ← index l i; Ret (set_at i (v ++ [x]) l).

(** ** The chunks of a value *)

(** The first [n] bytes of a text, or fewer, up to a boundary. *)
Definition head_bytes (text : list Z) (n : Z) : out (list Z) :=
  str_slice text 0 (Z.of_nat (builder.floor_boundary text (Z.to_nat (Z.min n (str_len text))))).

Definition overlap_of (c : SfxCollectorV3) (rest : list Chunk) : out (list Z) :=
  match rest with
  | (next_text, _) :: _ => head_bytes next_text (overlap c)
  | [] => Ret []
  end.

(** One turn for a chunk: its posting information and its ordinal. *)
Definition add_chunk (c : SfxCollectorV3) (i offset : Z) (chunk : Chunk) (rest : list Chunk) : out (ChunkPosting * Z * SfxCollectorV3) :=
  let '(chunk_text, meta) := chunk in
  overlap_bytes ← overlap_of c rest;
  let ti := add32 (current_value_ti_start c) i in
  let '(intern_id, c) := intern_extended c (chunk_text ++ overlap_bytes)
    {| own_len := as_u16 (str_len chunk_text); sep_len := as_u8 (equal_chunk.sep_len meta); overlap_len := as_u8 (str_len overlap_bytes);
       is_word_start := equal_chunk.is_word_start meta; word_id := equal_chunk.word_id meta; is_word_stripped := false |} in
  let posting := (current_doc_id c, ti, as_u32 offset, as_u32 (offset + equal_chunk.content_len meta + equal_chunk.sep_len meta)) in
  postings ← push_at (token_postings c) intern_id posting;
  Ret (posting, intern_id, with_tokens c (token_texts c) postings (token_meta c) CHUNK_POSTING_BYTES).

Fixpoint add_chunks (c : SfxCollectorV3) (i offset : Z) (chunks : list Chunk) : out (list ChunkPosting * list Z * SfxCollectorV3) :=
  match chunks with
  | [] => Ret ([], [], c)
  | chunk :: rest =>
      '(info, id, c) ← add_chunk c i offset chunk rest;
      '(infos, ids, c) ← add_chunks c (i + 1) (offset + str_len chunk.1) rest;
      Ret (info :: infos, id :: ids, c)
  end.

(** [v.windows(2)]. *)
Fixpoint windows2 {A} (l : list A) : list (A * A) :=
  match l with a :: (b :: _) as t => (a, b) :: windows2 t | _ => [] end.

Definition add_pairs (c : SfxCollectorV3) (ids : list Z) : SfxCollectorV3 :=
  if positions c
  then with_words c (word_stripped_entries c) (ws_entry_pushed c) (word_postings c) (sibling_pairs c ++ windows2 ids) (SIBLING_PAIR_BYTES * #(windows2 ids))
  else c.

(** ** The words of a value *)

(** The words, as ranges of chunks. *)
Definition push_range (ranges : list (Z * Z * Z)) (i : Z) (meta : equal_chunk.ChunkMeta) : list (Z * Z * Z) :=
  match last ranges with
  | Some (wid, first, _) =>
      if wid =? equal_chunk.word_id meta then removelast ranges ++ [(wid, first, i + 1)]
      else ranges ++ [(equal_chunk.word_id meta, i, i + 1)]
  | None => ranges ++ [(equal_chunk.word_id meta, i, i + 1)]
  end.
Fixpoint word_ranges_loop (ranges : list (Z * Z * Z)) (i : Z) (chunks : list Chunk) : list (Z * Z * Z) :=
  match chunks with
  | [] => ranges
  | (_, meta) :: chunks => word_ranges_loop (push_range ranges i meta) (i + 1) chunks
  end.
Definition word_ranges_of (chunks : list Chunk) : list (Z * Z * Z) := word_ranges_loop [] 0 chunks.

Definition content_of (chunks : list Chunk) (first_ci end_ci : Z) : out (list Z) :=
  foldM (λ acc ci, '(ct, cm) ← index chunks ci; part ← str_slice ct 0 (Z.min (equal_chunk.content_len cm) (str_len ct)); Ret (acc ++ part)) [] (range first_ci end_ci).

(** The first bytes of the next chunk with content, over the chunks of the
    words that follow. *)
Fixpoint next_overlap (overlap : Z) (chunks : list Chunk) (cis : list Z) : out (list Z) :=
  match cis with
  | [] => Ret []
  | ci :: cis =>
      '(ct, cm) ← index chunks ci;
      if 0 <? equal_chunk.content_len cm then head_bytes ct (Z.min overlap (equal_chunk.content_len cm))
      else next_overlap overlap chunks cis
  end.

Definition mark_ws_entry (c : SfxCollectorV3) (intern : Z) : bool * list bool :=
  let pushed := if #(ws_entry_pushed c) <=? intern then resize (intern + 1) false (ws_entry_pushed c) else ws_entry_pushed c in
  match pushed !! Z.to_nat intern with
  | Some true => (false, pushed)
  | _ => (true, set_at intern true pushed)
  end.

(** An entry and its posting, the entry once per ordinal. *)
Definition record_word (c : SfxCollectorV3) (entry : WordStrippedEntry) (posting : WordPosting) : out SfxCollectorV3 :=
  let intern := first_intern_ord entry in
  let '(is_new, pushed) := mark_ws_entry c intern in
  let entries := if is_new then word_stripped_entries c ++ [entry] else word_stripped_entries c in
  let grown := if #(word_postings c) <=? intern then resize (intern + 1) [] (word_postings c) else word_postings c in
  postings ← push_at grown intern posting;
  Ret (with_words c entries pushed postings (sibling_pairs c) (WORD_STRIPPED_OVERHEAD + WORD_POSTING_BYTES)).

(** [while ts < s.len() && !s.is_char_boundary(ts) { ts += 1 }]. *)
Definition ceil_boundary (s : list Z) (i : Z) : out Z := equal_chunk.snap (Z.to_nat (str_len s)) s (str_len s) i.

(** The entry of the last bytes of a word too long for its suffixes. *)
Definition add_tail (c : SfxCollectorV3) (chunks : list Chunk) (infos : list ChunkPosting) (ids : list Z) (first_ci end_ci : Z) (word_content content_overlap : list Z) (first_from : Z) : out SfxCollectorV3 :=
  let max_token := equal_chunk.DEFAULT_MAX_TOKEN in
  let last_ci := end_ci - 1 in
  if str_len word_content <=? MAX_SUFFIX_INDEX + max_token then Ret c else
  ts ← ceil_boundary word_content (saturating_sub (str_len word_content) max_token);
  tail_content ← str_from word_content ts;
  '(_, last_meta) ← index chunks last_ci;
  let tail_own_len := as_u16 (str_len tail_content + equal_chunk.sep_len last_meta) in
  let '(tail_intern, c) := intern_extended c (tail_content ++ content_overlap)
    {| own_len := tail_own_len; sep_len := as_u8 (equal_chunk.sep_len last_meta); overlap_len := as_u8 (str_len content_overlap);
       is_word_start := false; word_id := equal_chunk.word_id last_meta; is_word_stripped := true |} in
  let tail_from := add32 first_from ts in
  let tail_first_ci := default last_ci (List.find (λ ci, match infos !! Z.to_nat ci with Some (_, _, bf, bt) => (bf <=? tail_from) && (tail_from <? bt) | None => false end) (range first_ci end_ci)) in
  first_chunk ← index ids tail_first_ci;
  last_chunk ← index ids last_ci;
  '(_, tail_ti, chunk_from, _) ← index infos tail_first_ci;
  '(_, last_ti, _, _) ← index infos last_ci;
  record_word c
    {| word_content := tail_content; content_overlap := content_overlap; first_intern_ord := tail_intern; first_chunk_intern_ord := first_chunk;
       last_chunk_intern_ord := last_chunk; first_own_len := tail_own_len; last_sep_len := as_u8 (equal_chunk.sep_len last_meta); ws_is_word_start := false;
       num_chunks := as_u32 (last_ci - tail_first_ci + 1) |}
    (current_doc_id c, tail_ti, last_ti, tail_from, add32 tail_from (as_u32 (str_len tail_content)), as_u16 (tail_from - chunk_from)).

(** One turn for a word: its ordinal, none for a word without content. *)
Definition add_word (c : SfxCollectorV3) (chunks : list Chunk) (infos : list ChunkPosting) (ids : list Z) (range_ : Z * Z * Z) (after : list (Z * Z * Z)) : out (list Z * SfxCollectorV3) :=
  let '(_, first_ci, end_ci) := range_ in
  let last_ci := end_ci - 1 in
  word_content ← content_of chunks first_ci end_ci;
  match word_content with
  | [] => Ret ([], c)
  | _ =>
      content_overlap ← next_overlap (overlap c) chunks (flat_map (λ r : Z * Z * Z, range r.1.2 r.2) after);
      '(_, first_meta) ← index chunks first_ci;
      '(_, last_meta) ← index chunks last_ci;
      let ws_own_len := Z.min (str_len word_content + equal_chunk.sep_len last_meta) (2 ^ 16 - 1) in
      let '(ws_intern, c) := intern_extended c (word_content ++ content_overlap)
        {| own_len := ws_own_len; sep_len := as_u8 (equal_chunk.sep_len last_meta); overlap_len := as_u8 (str_len content_overlap);
           is_word_start := equal_chunk.is_word_start first_meta; word_id := equal_chunk.word_id first_meta; is_word_stripped := true |} in
      first_chunk ← index ids first_ci;
      last_chunk ← index ids last_ci;
      '(_, first_ti, first_from, _) ← index infos first_ci;
      '(_, last_ti, _, _) ← index infos last_ci;
      c ← record_word c
        {| word_content := word_content; content_overlap := content_overlap; first_intern_ord := ws_intern; first_chunk_intern_ord := first_chunk;
           last_chunk_intern_ord := last_chunk; first_own_len := ws_own_len; last_sep_len := as_u8 (equal_chunk.sep_len last_meta);
           ws_is_word_start := equal_chunk.is_word_start first_meta; num_chunks := as_u32 (end_ci - first_ci) |}
        (current_doc_id c, first_ti, last_ti, first_from, add32 first_from (as_u32 (str_len word_content)), 0);
      c ← add_tail c chunks infos ids first_ci end_ci word_content content_overlap first_from;
      Ret ([ws_intern], c)
  end.
Fixpoint add_words (c : SfxCollectorV3) (chunks : list Chunk) (infos : list ChunkPosting) (ids : list Z) (ranges : list (Z * Z * Z)) : out (list Z * SfxCollectorV3) :=
  match ranges with
  | [] => Ret ([], c)
  | r :: after =>
      '(w, c) ← add_word c chunks infos ids r after;
      '(ws, c) ← add_words c chunks infos ids after;
      Ret (w ++ ws, c)
  end.

Definition add_value (c : SfxCollectorV3) (text : list Z) : out SfxCollectorV3 :=
  chunks ← equal_chunk.segment_and_chunk text (max_token c);
  match chunks with
  | [] => Ret (with_doc c (doc_active c) (current_doc_id c) (add32 (current_value_ti_start c) 1))
  | _ =>
      '(infos, ids, c) ← add_chunks c 0 0 chunks;
      let c := add_pairs c ids in
      '(words, c) ← add_words c chunks infos ids (word_ranges_of chunks);
      let c := add_pairs c words in
      Ret (with_doc c (doc_active c) (current_doc_id c) (add32 (current_value_ti_start c) (as_u32 #chunks + 1)))
  end.

(** ** [into_data] *)

Record SfxCollectorDataV3 := {
  sorted_indices : list Z;
  intern_to_final : list Z;
  dt_token_texts : list (list Z);
  dt_token_meta : list TokenMetaV3;
  tokens : list (list Z);
  content_postings : list (list (Z * Z));
  own_lens : list Z;
  num_content_ords : Z;
  num_docs : Z;
  dt_min_suffix_len : Z;
  word_stripped : list WordStrippedEntry;
  word_sfxpost : list Z;
  word_pos_map : list Z;
  sibling_v3 : list Z;
  max_word_content_len : option Z;
  dt_positions : bool;
}.

Definition no_meta : TokenMetaV3 := {| own_len := 0; sep_len := 0; overlap_len := 0; is_word_start := false; word_id := 0; is_word_stripped := false |}.
Definition text_at (c : SfxCollectorV3) (io : Z) : list Z := default [] (token_texts c !! Z.to_nat io).
Definition meta_at (c : SfxCollectorV3) (io : Z) : TokenMetaV3 := default no_meta (token_meta c !! Z.to_nat io).

(** [str] compares by bytes; a tuple by its fields in turn. *)
Definition str_leb (a b : list Z) : bool := lex_leb (flat_map utf8 a) (flat_map utf8 b).
Definition bool_Z (b : bool) : Z := if b then 1 else 0.
Definition shape_key (m : TokenMetaV3) : list Z := let '(ws, own, sep, start) := intern_shape m in [bool_Z ws; own; sep; bool_Z start].
Definition order_leb (c : SfxCollectorV3) (a b : Z) : bool :=
  let ma := meta_at c a in
  let mb := meta_at c b in
  if bool_Z (is_word_stripped ma) =? bool_Z (is_word_stripped mb)
  then if bool_decide (flat_map utf8 (text_at c a) = flat_map utf8 (text_at c b)) then lex_leb (shape_key ma) (shape_key mb) else str_leb (text_at c a) (text_at c b)
  else bool_Z (is_word_stripped ma) <? bool_Z (is_word_stripped mb).
Definition order_le (c : SfxCollectorV3) (a b : Z) : Prop := order_leb c a b = true.
#[export] Instance order_le_dec c a b : Decision (order_le c a b).
Proof. unfold order_le. apply _. Defined.
Definition text_le (c : SfxCollectorV3) (a b : Z) : Prop := str_leb (text_at c a) (text_at c b) = true.
#[export] Instance text_le_dec c a b : Decision (text_le c a b).
Proof. unfold text_le. apply _. Defined.

(** The ordinals a word entry names. *)
Definition is_ws_entry (c : SfxCollectorV3) (io : Z) : bool := existsb (λ ws, first_intern_ord ws =? io) (word_stripped_entries c).
Definition order_of (c : SfxCollectorV3) : list Z :=
  merge_sort (order_le c) (List.filter (λ io, if is_word_stripped (meta_at c io) then is_ws_entry c io else true) (range 0 #(token_texts c))).

(** [intern_to_final[io] = final_ord] for each of them in turn. *)
Fixpoint number (order : list Z) (final_ord : Z) (finals : list Z) : list Z :=
  match order with [] => finals | io :: order => number order (final_ord + 1) (set_at io final_ord finals) end.

Definition pair_le (a b : Z * Z) : Prop := lex_leb [a.1; a.2] [b.1; b.2] = true.
#[export] Instance pair_le_dec a b : Decision (pair_le a b).
Proof. unfold pair_le. apply _. Defined.
Definition postings_of (c : SfxCollectorV3) (io : Z) : list (Z * Z) :=
  if is_word_stripped (meta_at c io) then []
  else dedup (merge_sort pair_le (map (λ e : ChunkPosting, (e.1.1.1, e.1.1.2)) (default [] (token_postings c !! Z.to_nat io)))).

Definition word_events (c : SfxCollectorV3) (finals : list Z) (order : list Z) : list (Z * WordPosting) :=
  flat_map (λ io, map (λ e, (default 0 (finals !! Z.to_nat io), e)) (default [] (word_postings c !! Z.to_nat io))) (List.filter (λ io, is_word_stripped (meta_at c io)) order).

Definition into_data (c : SfxCollectorV3) : out SfxCollectorDataV3 :=
  let num_tokens := #(token_texts c) in
  let order := order_of c in
  let finals := number order 0 (replicate (length (token_texts c)) 0) in
  let final_ord := #order in
  let events := word_events c finals order in
  let writer := foldl (λ w '(ord, (doc, first, last, bf, bt, tail_off)),
      word_sfxpost.add w ord {| word_sfxpost.doc_id := doc; word_sfxpost.first_position := first; word_sfxpost.last_position := last;
                                word_sfxpost.byte_from := bf; word_sfxpost.byte_to := bt; word_sfxpost.tail_off := tail_off |})
    (if positions c then word_sfxpost.new final_ord else word_sfxpost.docs_only final_ord) events in
  let wpm := foldl (λ w '(ord, (doc, first, last, _, _, _)), word_pos_map.add_word w doc first last ord) word_pos_map.new (if positions c then events else []) in
  let siblings := foldl (λ w '(a, b), sibling_table.add w (default 0 (finals !! Z.to_nat a)) (default 0 (finals !! Z.to_nat b)) 0) (sibling_table.new final_ord) (sibling_pairs c) in
  word_sfxpost_data ← word_sfxpost.finish writer;
  sibling_data ← (if positions c then '(bytes, _) ← sibling_table.serialize siblings; Ret bytes else Ret []);
  Ret {| sorted_indices := merge_sort (text_le c) (range 0 num_tokens);
         intern_to_final := finals; dt_token_texts := token_texts c; dt_token_meta := token_meta c;
         tokens := map (text_at c) order; content_postings := map (postings_of c) order; own_lens := map (λ io, own_len (meta_at c io)) order;
         num_content_ords := final_ord; num_docs := current_doc_id c; dt_min_suffix_len := min_suffix_len c; word_stripped := word_stripped_entries c;
         word_sfxpost := word_sfxpost_data; word_pos_map := if positions c then word_pos_map.serialize wpm else [];
         sibling_v3 := sibling_data;
         max_word_content_len := Some (foldr Z.max 0 (map (λ m, saturating_sub (own_len m) (sep_len m)) (List.filter is_word_stripped (token_meta c))));
         dt_positions := positions c |}.

(** ** The writers ([sfx_dag_v3.rs], [termtexts_v3.rs]) *)

Section Writers.
Context (to_lowercase : list Z → list Z).

(** [BuildFstV3Node]. *)
Definition add_sorted (d : SfxCollectorDataV3) (b : builder.SuffixFstBuilderV3) (io : Z) : out builder.SuffixFstBuilderV3 :=
  meta ← index (dt_token_meta d) io;
  if is_word_stripped meta then Ret b else
  text ← index (dt_token_texts d) io;
  final_ord ← index (intern_to_final d) io;
  builder.add_token to_lowercase b text final_ord (own_len meta) (sep_len meta) (overlap_len meta) (is_word_start meta).
Definition add_stripped (d : SfxCollectorDataV3) (b : builder.SuffixFstBuilderV3) (ws : WordStrippedEntry) : out builder.SuffixFstBuilderV3 :=
  ws_ord ← index (intern_to_final d) (first_intern_ord ws);
  builder.add_word_stripped to_lowercase b (word_content ws) (content_overlap ws) ws_ord (last_sep_len ws) (ws_is_word_start ws).
Definition fill_fst (d : SfxCollectorDataV3) : out builder.SuffixFstBuilderV3 :=
  b ← foldM (add_sorted d) (builder.with_min_suffix_len (dt_min_suffix_len d)) (sorted_indices d);
  foldM (add_stripped d) b (word_stripped d).

(** [BuildSfxPostV3Node]. *)
Definition fill_sfxpost (d : SfxCollectorDataV3) : sfxpost.SfxPostWriterV2 :=
  let writer := if dt_positions d then sfxpost.positions_only (num_content_ords d) else sfxpost.docs_only (num_content_ords d) in
  foldl (λ w '(ord, (doc, ti)), sfxpost.add_position w ord doc ti) writer
    (concat (imap (λ ord postings, map (λ p, (Z.of_nat ord, p)) postings) (content_postings d))).

(** [TermTextsWriterV3::from_collector_v3]. *)
Definition from_collector_v3 (d : SfxCollectorDataV3) : out termtexts.TermTextsWriterV3 :=
  foldM (λ w io,
    meta ← index (dt_token_meta d) io;
    text ← index (dt_token_texts d) io;
    final_ord ← index (intern_to_final d) io;
    Ret (termtexts.add w final_ord (flat_map utf8 text)
           {| termtexts.own_len := own_len meta; termtexts.sep_len := sep_len meta; termtexts.overlap_len := overlap_len meta;
              termtexts.is_word_start := is_word_start meta; termtexts.is_word_stripped := is_word_stripped meta |})) termtexts.new (sorted_indices d).
End Writers.

End collector.
