(* ===== verification/CollectorProofs.v ===== *)
(** * What the collector keeps

    The chunks of the values, each with its place, its extended text and its
    shape, are the log of a collection.  The collector numbers the texts of the
    log without repetition and keeps for each the places it is logged at; every
    word-stripped ordinal is named by an entry. *)
From S2P Require Import Prelude Ordering Text EqualChunk SuffixBuilder SuffixBuild SuffixBuildProofs Collector.
Import text collector.
Abbreviation content_len := equal_chunk.content_len.
Abbreviation chunk_sep := equal_chunk.sep_len.

(** ** Strings *)

Lemma slice_front m t : str_slice (m ++ t) 0 (str_len m) = Ret m.
Proof. pose proof (str_slice_app [] m t) as H. cbn in H. by rewrite ?Z.add_0_l in H. Qed.

(** The characters of the first [n] bytes. *)
Definition front (text : list Z) (n : Z) : list Z :=
  match split_at (Z.of_nat (builder.floor_boundary text (Z.to_nat (Z.min n (str_len text))))) text with Some (a, _) => a | None => [] end.

Lemma front_spec text n : 0 ≤ n → head_bytes text n = Ret (front text n) ∧ front text n `prefix_of` text ∧ str_len (front text n) ≤ n.
Proof.
  intros Hn. unfold head_bytes, front. pose proof (str_len_nonneg text). destruct (floor_boundary_spec text (Z.to_nat (Z.min n (str_len text)))) as [Hle Hb]. set (k := builder.floor_boundary _ _) in *.
  unfold is_char_boundary in Hb. destruct (split_at (Z.of_nat k) text) as [[a b]|] eqn:E; [|done]. apply split_at_inv in E as [-> Ek]. rewrite Ek. split; [apply slice_front|]. split; [by exists b|lia].
Qed.

(** ** Interning *)

Abbreviation log_entry := (ChunkPosting * list Z * TokenMetaV3)%type.
Abbreviation shape := intern_shape.

(** The tokens against the log. *)
Record chunk_inv (texts : list (list Z)) (metas : list TokenMetaV3) (postings : list (list ChunkPosting)) (log : list log_entry) : Prop := {
  ci_metas : length metas = length texts;
  ci_lists : length postings = length texts;
  ci_unique : ∀ i j t m m', texts !! i = Some t → texts !! j = Some t → metas !! i = Some m → metas !! j = Some m' → shape m = shape m' → i = j;
  ci_plain : ∀ e t m, (e, t, m) ∈ log → is_word_stripped m = false;
  ci_logged : ∀ e t m, (e, t, m) ∈ log → ∃ i m', texts !! i = Some t ∧ metas !! i = Some m' ∧ shape m' = shape m;
  ci_from : ∀ i t m, texts !! i = Some t → metas !! i = Some m → is_word_stripped m = false → ∃ e, (e, t, m) ∈ log;
  ci_posted : ∀ i t m ps, texts !! i = Some t → metas !! i = Some m → postings !! i = Some ps → ∀ e, e ∈ ps ↔ ∃ m', (e, t, m') ∈ log ∧ shape m' = shape m;
}.
Definition tokens_inv (c : SfxCollectorV3) (log : list log_entry) : Prop := chunk_inv (token_texts c) (token_meta c) (token_postings c) log.

Lemma shape_stripped m m' : shape m = shape m' → is_word_stripped m = is_word_stripped m'.
Proof. unfold intern_shape. destruct (is_word_stripped m), (is_word_stripped m'); congruence. Qed.

(** A word-stripped token not yet numbered. *)
Lemma inv_fresh texts metas postings log t m :
  chunk_inv texts metas postings log → (∀ i m', texts !! i = Some t → metas !! i = Some m' → shape m' ≠ shape m) → is_word_stripped m = true →
  chunk_inv (texts ++ [t]) (metas ++ [m]) (postings ++ [[]]) log.
Proof.
  intros [H1 H2 H3 H4 H5 H6 H7] Hnew Hws. split.
  - rewrite !length_app. cbn. lia.
  - rewrite !length_app. cbn. lia.
  - intros i j t' m1 m2 Hi Hj Hm1 Hm2 Es. apply lookup_snoc_Some in Hi as [[Hi Ti]|[-> Et]], Hj as [[Hj Tj]|[-> Et']]; [| | |done]; subst.
    + rewrite lookup_app_l in Hm1, Hm2 by lia. by eapply H3.
    + rewrite lookup_app_l in Hm1 by lia. rewrite <- H1, lookup_app_r, Nat.sub_diag in Hm2 by lia. injection Hm2 as <-. by destruct (Hnew i m1).
    + rewrite lookup_app_l in Hm2 by lia. rewrite <- H1, lookup_app_r, Nat.sub_diag in Hm1 by lia. injection Hm1 as <-. by destruct (Hnew j m2).
  - done.
  - intros e t' m' (i & m1 & Ht & Hm & Es)%H5. exists i, m1. split; [by apply lookup_app_l_Some|]. split; [by apply lookup_app_l_Some|done].
  - intros i t' m' Hi Hm Hp. apply lookup_snoc_Some in Hi as [[Hi Ti]|[-> Et]]; [rewrite lookup_app_l in Hm by lia; by eapply H6|].
    rewrite <- H1, lookup_app_r, Nat.sub_diag in Hm by lia. injection Hm as <-. congruence.
  - intros i t' m' ps Hi Hm Hps e. apply lookup_snoc_Some in Hi as [[Hi Ti]|[-> Et]]; [rewrite lookup_app_l in Hm by lia; rewrite lookup_app_l in Hps by lia; by eapply H7|].
    rewrite <- H1, lookup_app_r, Nat.sub_diag in Hm by lia. injection Hm as <-. rewrite <- H2, lookup_app_r, Nat.sub_diag in Hps by lia. injection Hps as <-.
    split; [intros []%elem_of_nil|]. intros (m1 & Hin & Es). apply shape_stripped in Es. rewrite (H4 _ _ _ Hin) in Es. congruence.
Qed.

(** A chunk not yet numbered, at its first place. *)
Lemma inv_first texts metas postings log t m e :
  chunk_inv texts metas postings log → (∀ i m', texts !! i = Some t → metas !! i = Some m' → shape m' ≠ shape m) → is_word_stripped m = false →
  chunk_inv (texts ++ [t]) (metas ++ [m]) (postings ++ [[e]]) (log ++ [(e, t, m)]).
Proof.
  intros [H1 H2 H3 H4 H5 H6 H7] Hnew Hws. assert ((texts ++ [t]) !! length texts = Some t) as Ht by by rewrite lookup_app_r, Nat.sub_diag by lia.
  assert ((metas ++ [m]) !! length texts = Some m) as Hm by by rewrite <- H1, lookup_app_r, Nat.sub_diag by lia. split.
  - rewrite !length_app. cbn. lia.
  - rewrite !length_app. cbn. lia.
  - intros i j t' m1 m2 Hi Hj Hm1 Hm2 Es. apply lookup_snoc_Some in Hi as [[Hi Ti]|[-> Et]], Hj as [[Hj Tj]|[-> Et']]; [| | |done]; subst.
    + rewrite lookup_app_l in Hm1, Hm2 by lia. by eapply H3.
    + rewrite lookup_app_l in Hm1 by lia. rewrite Hm in Hm2. injection Hm2 as <-. by destruct (Hnew i m1).
    + rewrite lookup_app_l in Hm2 by lia. rewrite Hm in Hm1. injection Hm1 as <-. by destruct (Hnew j m2).
  - intros e' t' m' [Hin|[= -> -> ->]%list_elem_of_singleton]%elem_of_app; [by eapply H4|done].
  - intros e' t' m' [(i & m1 & Hi & Hm' & Es)%H5|[= -> -> ->]%list_elem_of_singleton]%elem_of_app; [|by exists (length texts), m].
    exists i, m1. split; [by apply lookup_app_l_Some|]. split; [by apply lookup_app_l_Some|done].
  - intros i t' m' Hi Hm' Hp. apply lookup_snoc_Some in Hi as [[Hi Ti]|[-> <-]].
    + rewrite lookup_app_l in Hm' by lia. destruct (H6 i t' m' Ti Hm' Hp) as [e' He']. exists e'. apply elem_of_app. by left.
    + rewrite Hm in Hm'. injection Hm' as <-. exists e. apply elem_of_app. right. by left.
  - intros i t' m' ps Hi Hm' Hps e'. apply lookup_snoc_Some in Hi as [[Hi Ti]|[-> <-]].
    + rewrite lookup_app_l in Hm' by lia. rewrite lookup_app_l in Hps by lia. rewrite (H7 i t' m' ps Ti Hm' Hps). split.
      * intros (m1 & Hin & Es). exists m1. split; [apply elem_of_app; by left|done].
      * intros (m1 & [Hin|[= -> -> ->]%list_elem_of_singleton]%elem_of_app & Es); [by exists m1|]. by destruct (Hnew i m').
    + rewrite Hm in Hm'. injection Hm' as <-. rewrite <- H2, lookup_app_r, Nat.sub_diag in Hps by lia. injection Hps as <-. rewrite list_elem_of_singleton. split.
      * intros ->. exists m. split; [apply elem_of_app; right; by left|done].
      * intros (m1 & [Hin|[= -> ->]%list_elem_of_singleton]%elem_of_app & Es); [|done]. destruct (H5 _ _ _ Hin) as (i & m2 & Hi & Hm2 & Es2). destruct (Hnew i m2 Hi Hm2). congruence.
Qed.

(** A place logged for a token that is numbered. *)
Lemma inv_posted texts metas postings log i t m ps e m0 :
  chunk_inv texts metas postings log → texts !! i = Some t → metas !! i = Some m → postings !! i = Some ps → shape m = shape m0 → is_word_stripped m0 = false →
  chunk_inv texts metas (<[i := ps ++ [e]]> postings) (log ++ [(e, t, m0)]).
Proof.
  intros [H1 H2 H3 H4 H5 H6 H7] Ht Hm Hp Es Hws. split; [done|by rewrite length_insert|done|..].
  - intros e' t' m' [Hin|[= -> -> ->]%list_elem_of_singleton]%elem_of_app; [by eapply H4|done].
  - intros e' t' m' [Hin|[= -> -> ->]%list_elem_of_singleton]%elem_of_app; [by eapply H5|]. by exists i, m.
  - intros j t' m' Hj Hm' Hw. destruct (H6 j t' m' Hj Hm' Hw) as [e' He']. exists e'. apply elem_of_app. by left.
  - intros j t' m' ps' Hj Hm' Hp' e'. destruct (decide (j = i)) as [->|Hne].
    + rewrite list_lookup_insert_eq in Hp' by (by eapply lookup_lt_Some). injection Hp' as <-. rewrite Ht in Hj. injection Hj as <-. rewrite Hm in Hm'. injection Hm' as <-.
      rewrite elem_of_app, list_elem_of_singleton, (H7 i t m ps Ht Hm Hp). split.
      * intros [(m' & Hin & E)| ->]; [exists m'; split; [apply elem_of_app; by left|done]|]. exists m0. split; [apply elem_of_app; right; by left|done].
      * intros (m' & [Hin|[= -> ->]%list_elem_of_singleton]%elem_of_app & E); [left; by exists m'|by right].
    + rewrite list_lookup_insert_ne in Hp' by done. rewrite (H7 j t' m' ps' Hj Hm' Hp'). split.
      * intros (m'' & Hin & E). exists m''. split; [apply elem_of_app; by left|done].
      * intros (m'' & [Hin|[= -> -> ->]%list_elem_of_singleton]%elem_of_app & E); [by exists m''|]. destruct Hne. eapply H3; [exact Hj|exact Ht|exact Hm'|exact Hm|]. congruence.
Qed.

Lemma find_intern_spec c text meta : length (token_meta c) = length (token_texts c) →
  match find_intern c text meta with
  | Some o => ∃ i m, o = Z.of_nat i ∧ token_texts c !! i = Some text ∧ token_meta c !! i = Some m ∧ shape m = shape meta
  | None => ∀ i m, token_texts c !! i = Some text → token_meta c !! i = Some m → shape m ≠ shape meta
  end.
Proof.
  intros Hl. unfold find_intern. destruct (list_find _ _) as [[i [t m]]|] eqn:E; cbn.
  - apply list_find_Some in E as (Hz & [Es Et] & _). apply lookup_zip_Some in Hz as [Ht Hm]. cbn in *. subst. by exists i, m.
  - apply list_find_None in E. intros i m Ht Hm Es. rewrite Forall_forall in E. apply (E (text, m)); [|done]. apply list_elem_of_lookup. exists i. by apply lookup_zip_Some.
Qed.

Lemma push_at_spec {A} (l : list (list A)) i v x : l !! i = Some v → push_at l (Z.of_nat i) x = Ret (<[i := v ++ [x]]> l).
Proof. intros Hv. unfold push_at, set_at. rewrite (index_lookup _ _ v) by (rewrite ?Nat2Z.id; done || lia). by rewrite bind_ret, Nat2Z.id. Qed.

(** ** The chunks of a value *)

(** What the other steps do not change. *)
Definition kept (c c' : SfxCollectorV3) : Prop :=
  overlap c' = overlap c ∧ current_doc_id c' = current_doc_id c ∧ current_value_ti_start c' = current_value_ti_start c ∧ max_token c' = max_token c ∧ min_suffix_len c' = min_suffix_len c.

#[export] Instance kept_trans : Transitive kept.
Proof. intros a b c. unfold kept. intuition congruence. Qed.
#[export] Instance kept_refl : Reflexive kept.
Proof. by intros a. Qed.

Definition overlap_text (ov : Z) (rest : list Chunk) : list Z := match rest with (t, _) :: _ => front t ov | [] => [] end.
Definition chunk_meta (t : list Z) (m : equal_chunk.ChunkMeta) (ovt : list Z) : TokenMetaV3 :=
  {| own_len := as_u16 (str_len t); sep_len := as_u8 (chunk_sep m); overlap_len := as_u8 (str_len ovt); is_word_start := equal_chunk.is_word_start m; word_id := equal_chunk.word_id m; is_word_stripped := false |}.

(** The log of a value: its chunks at consecutive positions and bytes. *)
Fixpoint chunk_log (doc start ov i offset : Z) (chunks : list Chunk) : list log_entry :=
  match chunks with
  | [] => []
  | (t, m) :: rest =>
      let ovt := overlap_text ov rest in
      ((doc, start + i, offset, offset + content_len m + chunk_sep m), t ++ ovt, chunk_meta t m ovt) :: chunk_log doc start ov (i + 1) (offset + str_len t) rest
  end.

Lemma chunk_log_length doc start ov chunks : ∀ i offset, length (chunk_log doc start ov i offset chunks) = length chunks.
Proof. induction chunks as [|[t m] chunks IH]; intros i offset; cbn; [done|]. by rewrite IH. Qed.

Definition words_kept (c c' : SfxCollectorV3) : Prop :=
  word_stripped_entries c' = word_stripped_entries c ∧ ws_entry_pushed c' = ws_entry_pushed c ∧ word_postings c' = word_postings c ∧
  ∃ new, token_meta c' = token_meta c ++ new ∧ Forall (λ m, is_word_stripped m = false) new.

Lemma words_kept_refl c : words_kept c c.
Proof. unfold words_kept. split_and!; [done..|]. exists []. by rewrite app_nil_r. Qed.
Lemma words_kept_trans a b c : words_kept a b → words_kept b c → words_kept a c.
Proof.
  intros (H1 & H2 & H3 & n1 & E1 & F1) (K1 & K2 & K3 & n2 & E2 & F2). unfold words_kept. split_and!; [congruence..|]. exists (n1 ++ n2). rewrite E2, E1, app_assoc. split; [done|]. by apply Forall_app.
Qed.

Lemma add_chunk_spec c log i offset t m rest : tokens_inv c log → chunk_ok (max_token c) t (content_len m) (chunk_sep m) → 0 ≤ overlap c →
  #(token_texts c) + 1 < 2 ^ 32 → 0 ≤ current_value_ti_start c + i < 2 ^ 32 → 0 ≤ offset → offset + str_len t < 2 ^ 32 →
  let ovt := overlap_text (overlap c) rest in
  let e := (current_doc_id c, current_value_ti_start c + i, offset, offset + content_len m + chunk_sep m) in
  ∃ id c', add_chunk c i offset (t, m) rest = Ret (e, id, c') ∧ tokens_inv c' (log ++ [(e, t ++ ovt, chunk_meta t m ovt)]) ∧
    #(token_texts c') ≤ #(token_texts c) + 1 ∧ kept c c' ∧ words_kept c c'.
Proof.
  intros Hinv (_ & _ & a & b & Et & _ & _ & Ec & Es) Hov Hsize Hti Hoff Hend ovt e. unfold add_chunk.
  assert (overlap_of c rest = Ret ovt) as -> by (unfold overlap_of, ovt, overlap_text; destruct rest as [|[t' m'] rest]; [done|]; by apply front_spec).
  assert (str_len t = content_len m + chunk_sep m) as Elen by by rewrite Et, str_len_app, Ec, Es. rewrite bind_ret.
  assert (add32 (current_value_ti_start c) i = current_value_ti_start c + i) as -> by by apply Z.mod_small. fold (chunk_meta t m ovt).
  pose proof (str_len_nonneg t). assert (as_u32 offset = offset) as -> by (apply Z.mod_small; lia). assert (as_u32 (offset + content_len m + chunk_sep m) = offset + content_len m + chunk_sep m) as -> by (apply Z.mod_small; lia).
  unfold intern_extended. pose proof (find_intern_spec c (t ++ ovt) (chunk_meta t m ovt) (ci_metas _ _ _ _ Hinv)) as Hf. destruct (find_intern _ _ _) as [o|].
  - destruct Hf as (k & m' & -> & Hk & Hm & Esh). destruct (lookup_lt_is_Some_2 (token_postings c) k) as [ps Hps]; [rewrite (ci_lists _ _ _ _ Hinv); by eapply lookup_lt_Some|].
    rewrite (push_at_spec _ _ _ _ Hps), bind_ret. eexists _, _. split; [done|]. split; [|split; [cbn; lia|split; [done|]]]; [|unfold words_kept; cbn; split_and!; [done..|]; exists []; by rewrite app_nil_r].
    apply (inv_posted _ _ _ _ k _ m'); try done.
  - cbn [token_postings with_tokens current_doc_id token_texts token_meta]. unfold as_u32. rewrite (Z.mod_small #(token_texts c)) by (pose proof (len_nonneg (token_texts c)); lia). unfold len at 1.
    assert ((token_postings c ++ [[]]) !! length (token_texts c) = Some []) as Hps by (rewrite <- (ci_lists _ _ _ _ Hinv), lookup_app_r, Nat.sub_diag by lia; done).
    rewrite (push_at_spec _ _ _ _ Hps), bind_ret. eexists _, _. split; [done|]. split; [|split; [cbn; rewrite len_app, len_cons, len_nil; lia|split; [done|]]].
    + unfold tokens_inv. cbn. rewrite <- (ci_lists _ _ _ _ Hinv), insert_app_r_alt, Nat.sub_diag by lia. cbn. by apply inv_first.
    + unfold words_kept. cbn. split_and!; [done..|]. eexists. split; [done|]. by constructor.
Qed.

Lemma add_chunks_spec chunks : ∀ c log i offset, tokens_inv c log → Forall (λ x : Chunk, chunk_ok (max_token c) x.1 (content_len x.2) (chunk_sep x.2)) chunks → 0 ≤ overlap c →
  #(token_texts c) + #chunks < 2 ^ 32 → 0 ≤ current_value_ti_start c + i → current_value_ti_start c + i + #chunks < 2 ^ 32 → 0 ≤ offset → offset + str_len (flat_map fst chunks) < 2 ^ 32 →
  let clog := chunk_log (current_doc_id c) (current_value_ti_start c) (overlap c) i offset chunks in
  ∃ ids c', add_chunks c i offset chunks = Ret (map (λ x : log_entry, x.1.1) clog, ids, c') ∧ length ids = length chunks ∧ tokens_inv c' (log ++ clog) ∧
    #(token_texts c') ≤ #(token_texts c) + #chunks ∧ kept c c' ∧ words_kept c c'.
Proof.
  induction chunks as [|[t m] rest IH]; intros c log i offset Hinv Hok Hov Hsize Hti Hend Hoff Hbytes; cbn [chunk_log add_chunks].
  { exists [], c. split; [done|]. split; [done|]. rewrite app_nil_r. split; [done|]. split; [rewrite len_nil; lia|]. split; [done|apply words_kept_refl]. }
  apply Forall_cons in Hok as [Hc Hok]. rewrite len_cons in Hsize, Hend. cbn [flat_map fst] in Hbytes. rewrite str_len_app in Hbytes. pose proof (len_nonneg rest). pose proof (str_len_nonneg t). pose proof (str_len_nonneg (flat_map fst rest)).
  destruct (add_chunk_spec c log i offset t m rest Hinv Hc Hov) as (id & c1 & -> & Hinv1 & Hs1 & Hk1 & Hw1); [lia|lia|lia|lia|]. rewrite bind_ret. pose proof Hk1 as (E1 & E2 & E3 & E4 & _). cbn [fst].
  destruct (IH c1 _ (i + 1) (offset + str_len t) Hinv1) as (ids & c2 & -> & Hl & Hinv2 & Hs2 & Hk2 & Hw2); [by rewrite E4|lia..|]. rewrite bind_ret, E1, E2, E3 in *.
  exists (id :: ids), c2. split; [done|]. split; [cbn; lia|]. split; [by rewrite <- app_assoc in Hinv2|]. split; [rewrite len_cons; lia|]. split; [by etrans|by eapply words_kept_trans].
Qed.

(** ** The words of a value *)

Definition entry_ok (ws : WordStrippedEntry) : Prop := Forall is_char (word_content ws) ∧ Forall is_char (content_overlap ws) ∧ fits 8 (last_sep_len ws).

(** The entries name the word-stripped ordinals, all of them but [hole]. *)
Record word_inv (hole : nat → Prop) (metas : list TokenMetaV3) (entries : list WordStrippedEntry) (pushed : list bool) : Prop := {
  wi_pushed : ∀ i, pushed !! i = Some true → ∃ ws, ws ∈ entries ∧ first_intern_ord ws = Z.of_nat i;
  wi_named : ∀ i m, ¬ hole i → metas !! i = Some m → is_word_stripped m = true → ∃ ws, ws ∈ entries ∧ first_intern_ord ws = Z.of_nat i;
  wi_entries : ∀ ws, ws ∈ entries → entry_ok ws ∧ ∃ i m, first_intern_ord ws = Z.of_nat i ∧ metas !! i = Some m ∧ is_word_stripped m = true;
}.
Definition words_inv (hole : nat → Prop) (c : SfxCollectorV3) : Prop := word_inv hole (token_meta c) (word_stripped_entries c) (ws_entry_pushed c).
Definition none (i : nat) : Prop := False.

Lemma words_inv_kept c c' : words_inv none c → words_kept c c' → words_inv none c'.
Proof.
  intros [H1 H2 H3] (E1 & E2 & _ & new & E3 & Hnew). unfold words_inv. rewrite E1, E2, E3. split; [done|..].
  - intros i m _ Hm Hws. destruct (decide (i < length (token_meta c))%nat); [rewrite lookup_app_l in Hm by done; apply (H2 i m); [by intros []|done..]|].
    rewrite lookup_app_r in Hm by lia. rewrite Forall_lookup in Hnew. specialize (Hnew _ _ Hm). cbn in Hnew. congruence.
  - intros ws Hws. destruct (H3 ws Hws) as (Hok & i & m & Ei & Hm & Hw). split; [done|]. exists i, m. split; [done|]. split; [by apply lookup_app_l_Some|done].
Qed.

Lemma intern_word_spec c log text meta : tokens_inv c log → words_inv none c → is_word_stripped meta = true → #(token_texts c) + 1 < 2 ^ 32 →
  ∃ k m c', intern_extended c text meta = (Z.of_nat k, c') ∧ tokens_inv c' log ∧ words_inv (eq k) c' ∧ token_meta c' !! k = Some m ∧ is_word_stripped m = true ∧
    kept c c' ∧ #(token_texts c') ≤ #(token_texts c) + 1.
Proof.
  intros Hinv Hw Hws Hsize. unfold intern_extended. pose proof (find_intern_spec c text meta (ci_metas _ _ _ _ Hinv)) as Hf. destruct (find_intern _ _ _) as [o|].
  - destruct Hf as (k & m & -> & Hk & Hm & Es). exists k, m, c. split; [done|]. split; [done|]. split; [|split; [done|]; split; [by rewrite (shape_stripped _ _ Es)|]; split; [done|lia]].
    destruct Hw as [H1 H2 H3]. split; [done| |done]. intros i m' _. apply H2. by intros [].
  - exists (length (token_texts c)), meta, (with_tokens c (token_texts c ++ [text]) (token_postings c ++ [[]]) (token_meta c ++ [meta]) (str_len text + INTERNED_TOKEN_OVERHEAD)).
    pose proof (len_nonneg (token_texts c)). split; [unfold as_u32; by rewrite Z.mod_small by lia|]. pose proof (ci_metas _ _ _ _ Hinv) as El.
    split; [by apply inv_fresh|]. cbn. split; [|split; [by rewrite <- El, lookup_app_r, Nat.sub_diag by lia|]; split; [done|]; split; [done|rewrite len_app, len_cons, len_nil; lia]].
    destruct Hw as [H1 H2 H3]. split; cbn; [done|..].
    + intros i m Hi Hm Hws'. apply lookup_snoc_Some in Hm as [[Hlt Hm]|[Ei _]]; [apply (H2 i m); [by intros []|done..]|]. destruct Hi. lia.
    + intros ws Hin. destruct (H3 ws Hin) as (Hok & i & m & Ei & Hm & Hw). split; [done|]. exists i, m. split; [done|]. split; [by apply lookup_app_l_Some|done].
Qed.

Lemma resize_lookup_true (l : list bool) n i : resize n false l !! i = Some true → l !! i = Some true.
Proof.
  unfold resize. intros H. apply lookup_take_Some in H as [H _]. apply lookup_app_Some in H as [H|[_ H]]; [done|]. by apply lookup_replicate in H as [? _].
Qed.

Lemma record_word_spec c log entry posting k m : tokens_inv c log → words_inv (eq k) c → first_intern_ord entry = Z.of_nat k → token_meta c !! k = Some m → is_word_stripped m = true → entry_ok entry →
  ∃ c', record_word c entry posting = Ret c' ∧ tokens_inv c' log ∧ words_inv none c' ∧ kept c c' ∧ token_texts c' = token_texts c.
Proof.
  intros Hinv Hw Ek Hm Hws Hok. unfold record_word. rewrite Ek. destruct (mark_ws_entry c (Z.of_nat k)) as [is_new pushed] eqn:Emark.
  set (grown := if #(word_postings c) <=? Z.of_nat k then resize (Z.of_nat k + 1) [] (word_postings c) else word_postings c). assert (∃ v, grown !! k = Some v) as [v Hv].
  { apply lookup_lt_is_Some_2. subst grown. destruct (Z.leb_spec #(word_postings c) (Z.of_nat k)); [|unfold len in *; lia]. unfold resize. rewrite length_take, length_app, length_replicate. unfold len in *. lia. }
  rewrite (push_at_spec _ _ _ _ Hv), bind_ret. eexists. split; [done|]. split; [exact Hinv|]. split; [|done]. unfold words_inv. cbn [token_meta with_words word_stripped_entries ws_entry_pushed].
  destruct Hw as [H1 H2 H3]. unfold mark_ws_entry in Emark. set (p := if #(ws_entry_pushed c) <=? Z.of_nat k then resize (Z.of_nat k + 1) false (ws_entry_pushed c) else ws_entry_pushed c) in *.
  assert (∀ i, p !! i = Some true → ∃ ws, ws ∈ word_stripped_entries c ∧ first_intern_ord ws = Z.of_nat i) as Hp.
  { intros i Hi. apply H1. subst p. destruct (_ <=? _); [by eapply resize_lookup_true|done]. }
  assert (p !! k = Some true ∧ is_new = false ∧ pushed = p ∨ is_new = true ∧ pushed = set_at (Z.of_nat k) true p) as [(Ep & -> & ->)|[-> ->]].
  { rewrite Nat2Z.id in Emark. destruct (p !! k) as [[|]|]; injection Emark as <- <-; [by left|by right..]. }
  { split; [done|..|done]. intros i m' _ Hm' Hw'. destruct (decide (k = i)) as [<-|]; [by apply Hp|by eapply H2]. }
  assert (entry ∈ word_stripped_entries c ++ [entry]) as Hentry by (apply elem_of_app; right; by left).
  assert (∀ i, (∃ ws, ws ∈ word_stripped_entries c ∧ first_intern_ord ws = Z.of_nat i) → ∃ ws, ws ∈ word_stripped_entries c ++ [entry] ∧ first_intern_ord ws = Z.of_nat i) as Hmore.
  { intros i (ws & Hin & E). exists ws. split; [apply elem_of_app; by left|done]. }
  split; [..|intros ws [Hin| ->%list_elem_of_singleton]%elem_of_app; [by apply H3|]; split; [done|]; by exists k, m].
  - intros i Hi. unfold set_at in Hi. rewrite Nat2Z.id in Hi. destruct (decide (k = i)) as [<-|]; [by exists entry|]. rewrite list_lookup_insert_ne in Hi by done. by apply Hmore, Hp.
  - intros i m' _ Hm' Hw'. destruct (decide (k = i)) as [<-|]; [by exists entry|]. apply Hmore. by eapply H2.
Qed.

(** The chunks of a value. *)
Definition chunks_ok (mt : Z) (chunks : list Chunk) : Prop :=
  Forall (λ x : Chunk, chunk_ok mt x.1 (content_len x.2) (chunk_sep x.2) ∧ Forall is_char x.1) chunks.

Lemma chunk_at mt chunks ci : chunks_ok mt chunks → 0 ≤ ci < #chunks → ∃ t m, index chunks ci = Ret (t, m) ∧ chunk_ok mt t (content_len m) (chunk_sep m) ∧ Forall is_char t.
Proof. intros Hok Hci. destruct (index_in chunks ci Hci) as ([t m] & E & Hin). unfold chunks_ok in Hok. rewrite Forall_forall in Hok. destruct (Hok _ Hin). by exists t, m. Qed.

Lemma content_of_spec mt chunks a b : chunks_ok mt chunks → 0 ≤ a ≤ b → b ≤ #chunks → ∃ w, content_of chunks a b = Ret w ∧ Forall is_char w.
Proof.
  intros Hok Ha Hb. unfold content_of. enough (∀ n a acc, Z.to_nat (b - a) = n → 0 ≤ a ≤ b → Forall is_char acc → ∃ w,
    foldM (λ acc ci, '(ct, cm) ← index chunks ci; part ← str_slice ct 0 (Z.min (content_len cm) (str_len ct)); Ret (acc ++ part)) acc (range a b) = Ret w ∧ Forall is_char w) as H by by apply (H (Z.to_nat (b - a)) a []).
  clear a Ha. induction n as [|n IH]; intros a acc Hn Ha Hacc; [rewrite range_nil by lia; by exists acc|]. rewrite range_cons by lia. cbn [foldM].
  destruct (chunk_at mt chunks a Hok) as (t & m & -> & (_ & _ & x & y & -> & _ & _ & Ec & _) & Hch); [lia|]. rewrite !bind_ret. rewrite Forall_app in Hch. destruct Hch as [Hx Hy].
  rewrite Ec, str_len_app, Z.min_l by (pose proof (str_len_nonneg y); lia). rewrite slice_front, !bind_ret. apply IH; [lia|lia|]. by apply Forall_app.
Qed.

Lemma prefix_chars (a b : list Z) : a `prefix_of` b → Forall is_char b → Forall is_char a.
Proof. intros [x ->] H. by apply Forall_app in H as [? _]. Qed.

Lemma next_overlap_spec mt chunks ov cis : chunks_ok mt chunks → 0 ≤ ov → Forall (λ ci, 0 ≤ ci < #chunks) cis → ∃ w, next_overlap ov chunks cis = Ret w ∧ Forall is_char w.
Proof.
  intros Hok Hov. induction 1 as [|ci cis Hci _ IH]; [exists []; by split|]. cbn [next_overlap]. destruct (chunk_at mt chunks ci Hok Hci) as (t & m & -> & (_ & _ & x & y & _ & _ & _ & Ec & _) & Hch). rewrite bind_ret.
  destruct (0 <? content_len m) eqn:E; [|exact IH]. destruct (front_spec t (Z.min ov (content_len m))) as (-> & Hp & _); [lia|]. eexists. split; [done|]. by eapply prefix_chars.
Qed.

(** The words are ranges of chunks. *)
Definition range_in (n : Z) (r : Z * Z * Z) : Prop := 0 ≤ r.1.2 < r.2 ∧ r.2 ≤ n.

Lemma word_ranges_in chunks : Forall (range_in #chunks) (word_ranges_of chunks).
Proof.
  unfold word_ranges_of. enough (∀ cs ranges i n, 0 ≤ i → i + #cs ≤ n → Forall (range_in i) ranges → Forall (range_in n) (word_ranges_loop ranges i cs)) as H by by apply H.
  induction cs as [|[t m] cs IH]; intros ranges i n Hi Hn Hr; cbn [word_ranges_loop].
  - rewrite len_nil in Hn. eapply Forall_impl; [exact Hr|]. intros r [? ?]. split; lia.
  - rewrite len_cons in Hn. apply IH; [lia|lia|]. assert (Forall (range_in (i + 1)) ranges) as Hr' by (eapply Forall_impl; [exact Hr|]; intros r [? ?]; split; lia).
    unfold push_range. destruct (last ranges) as [[[wid first] e]|] eqn:El; [|apply Forall_app; split; [done|]; constructor; [split; cbn; lia|constructor]].
    destruct (wid =? _); [|apply Forall_app; split; [done|]; constructor; [split; cbn; lia|constructor]].
    apply last_Some in El as [l ->]. rewrite removelast_last. apply Forall_app in Hr' as [Hl _]. apply Forall_app in Hr as [_ Hr]. apply Forall_cons in Hr as [[Hf He] _]. cbn in *.
    apply Forall_app. split; [done|]. constructor; [split; cbn; lia|constructor].
Qed.

Lemma lookup_range {A} (l : list A) n ci : length l = n → 0 ≤ ci < Z.of_nat n → ∃ x, index l ci = Ret x.
Proof. intros <- Hci. destruct (index_in l ci) as (x & E & _); [unfold len; lia|]. by exists x. Qed.

Lemma fits_u8 v : fits 8 (as_u8 v).
Proof. unfold fits, as_u8. apply Z.mod_pos_bound. lia. Qed.

Section Words.
Context (mt : Z) (chunks : list Chunk) (infos : list ChunkPosting) (ids : list Z) (Hok : chunks_ok mt chunks) (Hinfos : length infos = length chunks) (Hids : length ids = length chunks).
Context (log : list log_entry).

Lemma add_tail_spec c first_ci end_ci wc ov ff : tokens_inv c log → words_inv none c → #(token_texts c) + 1 < 2 ^ 32 → 0 ≤ first_ci < end_ci → end_ci ≤ #chunks → Forall is_char wc → Forall is_char ov →
  ∃ c', add_tail c chunks infos ids first_ci end_ci wc ov ff = Ret c' ∧ tokens_inv c' log ∧ words_inv none c' ∧ kept c c' ∧ #(token_texts c') ≤ #(token_texts c) + 1.
Proof using Hok Hinfos Hids.
  intros Hinv Hw Hsize Hf He Hwc Hov. unfold add_tail. destruct (_ <=? _) eqn:Elen; [exists c; split_and!; done || lia|]. apply Z.leb_gt in Elen. unfold MAX_SUFFIX_INDEX, equal_chunk.DEFAULT_MAX_TOKEN in *.
  destruct (snap_near 8 (Z.to_nat (str_len wc)) wc (saturating_sub (str_len wc) 8)) as (ts & Ets & Hts & Hb).
  - unfold saturating_sub. lia.
  - replace (saturating_sub (str_len wc) 8 + Z.of_nat 8) with (str_len wc) by (unfold saturating_sub; lia). pose proof (boundary_app wc []) as H. by rewrite app_nil_r in H.
  - lia.
  - unfold ceil_boundary. rewrite Ets, bind_ret. unfold str_from. unfold is_char_boundary in Hb. destruct (split_at ts wc) as [[x tail]|] eqn:Es; [|done]. apply split_at_inv in Es as [-> _]. rewrite bind_ret.
    apply Forall_app in Hwc as [_ Htail]. destruct (chunk_at mt chunks (end_ci - 1) Hok) as (t & m & -> & _ & _); [lia|]. rewrite bind_ret. set (meta := {| is_word_stripped := true |}).
    destruct (intern_word_spec c log (tail ++ ov) meta Hinv Hw eq_refl Hsize) as (k & m' & c1 & -> & Hinv1 & Hw1 & Hm & Hws & Hk1 & Hs1).
    set (tfc := default (end_ci - 1) _). assert (first_ci ≤ tfc < end_ci) as Htfc.
    { subst tfc. destruct (List.find _ _) as [ci|] eqn:Ef; cbn; [|lia]. apply List.find_some in Ef as [Hin%list_elem_of_In _]. apply elem_of_range in Hin. lia. }
    destruct (lookup_range ids _ tfc Hids) as [i1 ->]; [unfold len in He; lia|]. rewrite bind_ret. destruct (lookup_range ids _ (end_ci - 1) Hids) as [i2 ->]; [unfold len in He; lia|]. rewrite bind_ret.
    destruct (lookup_range infos _ tfc Hinfos) as [[[[d1 p1] f1] e1] ->]; [unfold len in He; lia|]. rewrite bind_ret. destruct (lookup_range infos _ (end_ci - 1) Hinfos) as [[[[d2 p2] f2] e2] ->]; [unfold len in He; lia|]. rewrite bind_ret.
    edestruct (record_word_spec c1 log) as (c2 & -> & Hinv2 & Hw2 & Hk2 & Et); [done|done| |exact Hm|done| |]; [reflexivity|split; [done|]; split; [done|apply fits_u8]|].
    exists c2. split; [done|]. split; [done|]. split; [done|]. split; [by etrans|]. by rewrite Et.
Qed.

Lemma add_word_spec c r after : tokens_inv c log → words_inv none c → #(token_texts c) + 2 < 2 ^ 32 → 0 ≤ overlap c → range_in #chunks r → Forall (range_in #chunks) after →
  ∃ w c', add_word c chunks infos ids r after = Ret (w, c') ∧ tokens_inv c' log ∧ words_inv none c' ∧ kept c c' ∧ #(token_texts c') ≤ #(token_texts c) + 2.
Proof using Hok Hinfos Hids.
  intros Hinv Hw Hsize Hov [Hf He] Hafter. destruct r as [[wid first_ci] end_ci]. cbn [fst snd] in *. unfold add_word.
  destruct (content_of_spec mt chunks first_ci end_ci Hok) as (wc & -> & Hwc); [lia|done|]. rewrite bind_ret. destruct wc as [|x wc']; [exists [], c; split_and!; done || lia|]. set (wc := x :: wc') in *.
  destruct (next_overlap_spec mt chunks (overlap c) (flat_map (λ r : Z * Z * Z, range r.1.2 r.2) after) Hok Hov) as (ov & -> & Hovc).
  { apply Forall_flat_map. eapply Forall_impl; [exact Hafter|]. intros r [? ?]. apply Forall_forall. intros ci Hci%elem_of_range. lia. }
  rewrite bind_ret. destruct (chunk_at mt chunks first_ci Hok) as (t1 & m1 & -> & _ & _); [lia|]. rewrite bind_ret. destruct (chunk_at mt chunks (end_ci - 1) Hok) as (t2 & m2 & -> & _ & _); [lia|]. rewrite bind_ret.
  set (meta := {| is_word_stripped := true |}). destruct (intern_word_spec c log (wc ++ ov) meta Hinv Hw eq_refl) as (k & m' & c1 & -> & Hinv1 & Hw1 & Hm & Hws & Hk1 & Hs1); [lia|].
  destruct (lookup_range ids _ first_ci Hids) as [i1 ->]; [unfold len in He; lia|]. rewrite bind_ret. destruct (lookup_range ids _ (end_ci - 1) Hids) as [i2 ->]; [unfold len in He; lia|]. rewrite bind_ret.
  destruct (lookup_range infos _ first_ci Hinfos) as [[[[d1 p1] f1] e1] ->]; [unfold len in He; lia|]. rewrite bind_ret. destruct (lookup_range infos _ (end_ci - 1) Hinfos) as [[[[d2 p2] f2] e2] ->]; [unfold len in He; lia|]. rewrite bind_ret.
  edestruct (record_word_spec c1 log) as (c2 & -> & Hinv2 & Hw2 & Hk2 & Et); [done|done| |exact Hm|done| |]; [reflexivity|split; [done|]; split; [done|apply fits_u8]|]. rewrite bind_ret.
  destruct (add_tail_spec c2 first_ci end_ci wc ov f1 Hinv2 Hw2) as (c3 & -> & Hinv3 & Hw3 & Hk3 & Hs3); [rewrite Et; lia|done..|]. rewrite bind_ret.
  eexists _, c3. split; [done|]. split; [done|]. split; [done|]. split; [by etrans; [|etrans]|]. rewrite Et in Hs3. lia.
Qed.

Lemma add_words_spec ranges : ∀ c, tokens_inv c log → words_inv none c → #(token_texts c) + 2 * #ranges < 2 ^ 32 → 0 ≤ overlap c → Forall (range_in #chunks) ranges →
  ∃ ws c', add_words c chunks infos ids ranges = Ret (ws, c') ∧ tokens_inv c' log ∧ words_inv none c' ∧ kept c c' ∧ #(token_texts c') ≤ #(token_texts c) + 2 * #ranges.
Proof using Hok Hinfos Hids.
  induction ranges as [|r ranges IH]; intros c Hinv Hw Hsize Hov Hr; cbn [add_words]; [exists [], c; pose proof (len_nil (A := Z * Z * Z)); split_and!; done || lia|].
  apply Forall_cons in Hr as [Hr Hrs]. rewrite len_cons in Hsize |- *. pose proof (len_nonneg ranges).
  destruct (add_word_spec c r ranges Hinv Hw) as (w & c1 & -> & Hinv1 & Hw1 & Hk1 & Hs1); [lia|done..|]. rewrite bind_ret.
  destruct (IH c1 Hinv1 Hw1) as (ws & c2 & -> & Hinv2 & Hw2 & Hk2 & Hs2); [lia|destruct Hk1 as [-> _]; done|done|]. rewrite bind_ret.
  eexists _, c2. split; [done|]. split; [done|]. split; [done|]. split; [by etrans|lia].
Qed.
End Words.

(** ** A value, a document, a collection *)

Definition chunks_of (mt : Z) (text : list Z) : list Chunk := match equal_chunk.segment_and_chunk text mt with Ret cs => cs | _ => [] end.

Lemma chunks_of_spec mt text : 1 ≤ mt → Forall is_char text →
  equal_chunk.segment_and_chunk text mt = Ret (chunks_of mt text) ∧ flat_map fst (chunks_of mt text) = text ∧ chunks_ok mt (chunks_of mt text) ∧ #(chunks_of mt text) ≤ str_len text.
Proof.
  intros Hmt Hch. destruct (segment_and_chunk_spec text mt Hmt) as (segs & cs & _ & _ & E & Ht & Hok & _). unfold chunks_of. rewrite E. split; [done|]. split; [done|]. rewrite <- Ht in Hch |- *. clear E Ht. split.
  - induction Hok as [|[t m] cs [Hc _] _ IH]; [constructor|]. cbn in Hch. apply Forall_app in Hch as [H1 H2]. constructor; [by split|by apply IH].
  - clear Hch. induction Hok as [|[t m] cs [(Hne & _) _] _ IH]; [done|]. cbn [flat_map fst] in *. rewrite len_cons, str_len_app. destruct t as [|x t]; [done|]. pose proof (str_len_pos x t). lia.
Qed.

Lemma word_ranges_short chunks : #(word_ranges_of chunks) ≤ #chunks.
Proof.
  unfold word_ranges_of. enough (∀ cs ranges i, #(word_ranges_loop ranges i cs) ≤ #ranges + #cs) as H by (specialize (H chunks [] 0); pose proof (len_nil (A := Z * Z * Z)); lia).
  induction cs as [|[t m] cs IH]; intros ranges i; cbn [word_ranges_loop]; [pose proof (len_nil (A := Chunk)); lia|]. specialize (IH (push_range ranges i m) (i + 1)).
  assert (#(push_range ranges i m) ≤ #ranges + 1) as Hp.
  { unfold push_range. destruct (last ranges) as [[[wid first] e]|] eqn:El; [|rewrite len_app, len_cons, len_nil; lia]. destruct (wid =? _); [|rewrite len_app, len_cons, len_nil; lia].
    apply last_Some in El as [l ->]. rewrite removelast_last, !len_app, !len_cons, !len_nil. lia. }
  rewrite len_cons. lia.
Qed.

Lemma add_pairs_same c ids : token_texts (add_pairs c ids) = token_texts c ∧ token_meta (add_pairs c ids) = token_meta c ∧ token_postings (add_pairs c ids) = token_postings c ∧
  word_stripped_entries (add_pairs c ids) = word_stripped_entries c ∧ ws_entry_pushed (add_pairs c ids) = ws_entry_pushed c ∧ kept c (add_pairs c ids).
Proof. unfold add_pairs, kept. by destruct (positions c). Qed.

Lemma inv_pairs c ids log : tokens_inv c log → words_inv none c → tokens_inv (add_pairs c ids) log ∧ words_inv none (add_pairs c ids).
Proof. intros H1 H2. destruct (add_pairs_same c ids) as (E1 & E2 & E3 & E4 & E5 & _). unfold tokens_inv, words_inv. by rewrite E1, E2, E3, E4, E5. Qed.

(** What the steps keep: the invariants, and the settings. *)
Definition state_inv (c : SfxCollectorV3) (log : list log_entry) : Prop := tokens_inv c log ∧ words_inv none c ∧ 1 ≤ max_token c ∧ 0 ≤ overlap c.
Definition settings (c : SfxCollectorV3) : Z * Z * Z := (max_token c, overlap c, min_suffix_len c).

Lemma add_value_spec c log text : state_inv c log → Forall is_char text → #(token_texts c) + 3 * str_len text < 2 ^ 32 → 0 ≤ current_value_ti_start c → current_value_ti_start c + str_len text + 1 < 2 ^ 32 →
  let cs := chunks_of (max_token c) text in
  ∃ c', add_value c text = Ret c' ∧ state_inv c' (log ++ chunk_log (current_doc_id c) (current_value_ti_start c) (overlap c) 0 0 cs) ∧ settings c' = settings c ∧
    current_doc_id c' = current_doc_id c ∧ current_value_ti_start c' = current_value_ti_start c + #cs + 1 ∧ #(token_texts c') ≤ #(token_texts c) + 3 * str_len text.
Proof.
  intros (Hinv & Hw & Hmt & Hov) Hch Hsize Hti Hend cs. destruct (chunks_of_spec (max_token c) text Hmt Hch) as (E & Ht & Hok & Hshort). unfold add_value. rewrite E, bind_ret. fold cs in E, Ht, Hok, Hshort |- *.
  pose proof (len_nonneg cs). pose proof (str_len_nonneg text). destruct cs as [|x cs'] eqn:Ecs.
  { eexists. split; [done|]. cbn [chunk_log]. rewrite app_nil_r. split; [done|]. split; [done|]. split; [done|]. cbn. split; [|lia]. unfold add32, as_u32. rewrite Z.mod_small by lia. pose proof (len_nil (A := Chunk)). lia. }
  rewrite <- Ecs in *. clear Ecs x cs'.
  assert (Forall (λ x : Chunk, chunk_ok (max_token c) x.1 (content_len x.2) (chunk_sep x.2)) cs) as Hok' by (eapply Forall_impl; [exact Hok|]; by intros x [? _]).
  destruct (add_chunks_spec cs c log 0 0 Hinv Hok' Hov) as (ids & c1 & -> & Hids & Hinv1 & Hs1 & Hk1 & Hw1); [lia|lia|lia|done|rewrite Ht; lia|]. rewrite bind_ret.
  set (clog := chunk_log _ _ _ _ _ _) in *. assert (length (map (λ x : log_entry, x.1.1) clog) = length cs) as Hinfos.
  { rewrite length_map. apply chunk_log_length. }
  destruct (inv_pairs c1 ids _ Hinv1 (words_inv_kept c c1 Hw Hw1)) as [Hinv2 Hw2]. destruct (add_pairs_same c1 ids) as (Et2 & _ & _ & _ & _ & Hk2). pose proof (word_ranges_short cs).
  destruct (add_words_spec (max_token c) cs _ ids Hok Hinfos Hids (log ++ clog) (word_ranges_of cs) (add_pairs c1 ids) Hinv2 Hw2) as (ws & c3 & -> & Hinv3 & Hw3 & Hk3 & Hs3).
  { rewrite Et2. lia. } { destruct Hk2 as [-> _], Hk1 as [-> _]. done. } { apply word_ranges_in. }
  rewrite bind_ret. destruct (inv_pairs c3 ws _ Hinv3 Hw3) as [Hinv4 Hw4]. destruct (add_pairs_same c3 ws) as (Et4 & _ & _ & _ & _ & Hk4).
  assert (kept c (add_pairs c3 ws)) as (K1 & K2 & K3 & K4 & K5) by (etrans; [exact Hk1|]; etrans; [exact Hk2|]; by etrans).
  eexists. split; [done|]. split; [|split; [|split; [|split]]].
  - split; [done|]. split; [done|]. cbn. by rewrite K1, K4.
  - unfold settings. cbn. by rewrite K1, K4, K5.
  - done.
  - cbn. rewrite K3. unfold add32, as_u32. rewrite (Z.mod_small #cs), Z.mod_small by lia. lia.
  - cbn. rewrite Et4. rewrite Et2 in Hs3. lia.
Qed.

(** The calls for the values of a document, and for documents in turn. *)
Definition collect_doc (c : SfxCollectorV3) (values : list (list Z)) : out SfxCollectorV3 := c ← foldM add_value (begin_doc c) values; Ret (end_doc c).
Definition collect (c : SfxCollectorV3) (docs : list (list (list Z))) : out SfxCollectorV3 := foldM collect_doc c docs.

(** Their log: a position is left free after each value. *)
Fixpoint doc_log (mt ov d ti : Z) (values : list (list Z)) : list log_entry :=
  match values with
  | [] => []
  | v :: values => chunk_log d ti ov 0 0 (chunks_of mt v) ++ doc_log mt ov d (ti + #(chunks_of mt v) + 1) values
  end.
Fixpoint docs_log (mt ov d : Z) (docs : list (list (list Z))) : list log_entry :=
  match docs with
  | [] => []
  | values :: docs => doc_log mt ov d 0 values ++ docs_log mt ov (d + 1) docs
  end.

(** Bounds the tokens, the positions and the bytes. *)
Definition doc_weight (values : list (list Z)) : Z := foldr (λ v n, 3 * str_len v + 1 + n) 0 values.
Definition docs_weight (docs : list (list (list Z))) : Z := foldr (λ vs n, doc_weight vs + 1 + n) 0 docs.

Lemma doc_weight_nonneg values : 0 ≤ doc_weight values.
Proof. induction values as [|v values IH]; cbn; [lia|]. pose proof (str_len_nonneg v). unfold doc_weight in IH. lia. Qed.
Lemma docs_weight_nonneg docs : 0 ≤ docs_weight docs.
Proof. induction docs as [|vs docs IH]; cbn; [lia|]. pose proof (doc_weight_nonneg vs). unfold docs_weight in IH. lia. Qed.

Lemma values_spec values : ∀ c log, state_inv c log → Forall (Forall is_char) values → #(token_texts c) + doc_weight values < 2 ^ 32 → 0 ≤ current_value_ti_start c → current_value_ti_start c + doc_weight values < 2 ^ 32 →
  ∃ c', foldM add_value c values = Ret c' ∧ state_inv c' (log ++ doc_log (max_token c) (overlap c) (current_doc_id c) (current_value_ti_start c) values) ∧ settings c' = settings c ∧
    current_doc_id c' = current_doc_id c ∧ #(token_texts c') ≤ #(token_texts c) + doc_weight values.
Proof.
  induction values as [|v values IH]; intros c log Hinv Hch Hsize Hti Hend; cbn [foldM doc_log]. { exists c. rewrite app_nil_r. cbn. split_and!; done || lia. }
  apply Forall_cons in Hch as [Hv Hch]. cbn [doc_weight foldr] in Hsize, Hend |- *. fold (doc_weight values) in *. pose proof (doc_weight_nonneg values). pose proof (str_len_nonneg v).
  destruct (add_value_spec c log v Hinv Hv) as (c1 & -> & Hinv1 & Es & Ed & Et & Hs1); [lia|lia|lia|]. rewrite bind_ret. injection Es as Em Eo Ems.
  destruct Hinv as (_ & _ & Hmt & _). destruct (chunks_of_spec (max_token c) v Hmt Hv) as (_ & _ & _ & Hshort). pose proof (len_nonneg (chunks_of (max_token c) v)).
  destruct (IH c1 _ Hinv1 Hch) as (c2 & -> & Hinv2 & Es2 & Ed2 & Hs2); [lia|lia|lia|]. exists c2. split; [done|]. rewrite Em, Eo, Ed, Et, <- app_assoc in Hinv2. split; [done|]. unfold settings in *. split; [congruence|]. split; [congruence|lia].
Qed.

Lemma collect_docs_spec docs : ∀ c log, state_inv c log → Forall (Forall (Forall is_char)) docs → #(token_texts c) + docs_weight docs < 2 ^ 32 → 0 ≤ current_doc_id c → current_doc_id c + docs_weight docs < 2 ^ 32 →
  ∃ c', collect c docs = Ret c' ∧ state_inv c' (log ++ docs_log (max_token c) (overlap c) (current_doc_id c) docs) ∧ settings c' = settings c ∧ current_doc_id c' = current_doc_id c + #docs ∧
    #(token_texts c') ≤ #(token_texts c) + docs_weight docs.
Proof.
  unfold collect. induction docs as [|vs docs IH]; intros c log Hinv Hch Hsize Hd Hend; cbn [foldM docs_log]. { exists c. rewrite app_nil_r. cbn. pose proof (len_nil (A := list (list Z))). split_and!; done || lia. }
  apply Forall_cons in Hch as [Hv Hch]. cbn [docs_weight foldr] in Hsize, Hend |- *. fold (docs_weight docs) in *. pose proof (docs_weight_nonneg docs). pose proof (doc_weight_nonneg vs).
  destruct (values_spec vs (begin_doc c) log) as (c1 & Ec1 & Hinv1 & Es & Ed & Hs1); [exact Hinv|done|cbn; lia|done|cbn; lia|].
  assert (collect_doc c vs = Ret (end_doc c1)) as -> by (unfold collect_doc; by rewrite Ec1, bind_ret). rewrite bind_ret. cbn in Hinv1, Ed, Hs1. unfold settings in Es. cbn in Es. injection Es as Em Eo Ems.
  assert (state_inv (end_doc c1) (log ++ doc_log (max_token c) (overlap c) (current_doc_id c) 0 vs)) as Hinv1' by exact Hinv1.
  assert (current_doc_id (end_doc c1) = current_doc_id c + 1) as Ed'. { cbn. rewrite Ed. unfold add32, as_u32. apply Z.mod_small. lia. }
  destruct (IH (end_doc c1) _ Hinv1' Hch) as (c2 & -> & Hinv2 & Es2 & Ed2 & Hs2); [cbn; lia|lia|lia|]. exists c2. split; [done|]. rewrite Ed' in Hinv2, Ed2. change (max_token (end_doc c1)) with (max_token c1) in Hinv2. change (overlap (end_doc c1)) with (overlap c1) in Hinv2.
  rewrite Em, Eo, <- app_assoc in Hinv2. split; [done|]. unfold settings in *. cbn in Es2, Hs2. split; [congruence|]. rewrite len_cons. split; lia.
Qed.

Lemma collector_start mt ov min : 1 ≤ mt → 0 ≤ ov → state_inv (with_config mt ov min) [].
Proof.
  intros H1 H2. split; [|split; [|done]]; [unfold tokens_inv|unfold words_inv]; cbn; split; intros; try done;
    repeat match goal with H : _ ∈ [] |- _ => by apply elem_of_nil in H | H : [] !! _ = Some _ |- _ => by rewrite lookup_nil in H end.
Qed.
