(* ===== verification/CollectorData.v ===== *)
(** * What the collector hands over

    [into_data] numbers every token once, in its order; the postings of a
    final ordinal are the places its text and shape are logged at, and the
    term texts hold it under that ordinal. *)
From S2P Require Import Prelude Ordering Text EqualChunk SuffixBuilder SuffixBuild SuffixBuildProofs SiblingTable TermTexts WordSfxPost WordPosMap Collector CollectorProofs.
Import text collector.

(** ** Final ordinals *)

Lemma number_length order : ∀ n finals, length (number order n finals) = length finals.
Proof. induction order as [|io order IH]; intros n finals; cbn; [done|]. rewrite IH. apply length_insert. Qed.

Lemma number_other order : ∀ n finals i, Z.of_nat i ∉ order → Forall (λ io, 0 ≤ io) order → number order n finals !! i = finals !! i.
Proof.
  induction order as [|io order IH]; intros n finals i Hi H0; cbn; [done|]. apply Forall_cons in H0 as [? H0]. rewrite not_elem_of_cons in Hi. destruct Hi as [Hne Hi].
  rewrite IH by done. unfold set_at. apply list_lookup_insert_ne. lia.
Qed.

Lemma number_spec order : NoDup order → ∀ n finals k io, Forall (λ io, 0 ≤ io < #finals) order → order !! k = Some io → number order n finals !! Z.to_nat io = Some (n + Z.of_nat k).
Proof.
  induction 1 as [|io0 order Hni Hnd IH]; intros n finals k io Hr Hk; [done|]. apply Forall_cons in Hr as [H0 Hr]. cbn [number]. destruct k as [|k]; cbn in Hk.
  - injection Hk as ->. rewrite number_other; [|by rewrite Z2Nat.id by lia|eapply Forall_impl; [exact Hr|]; intros x Hx; cbn in Hx; lia]. unfold set_at. rewrite list_lookup_insert_eq by (unfold len in H0; lia). f_equal. lia.
  - rewrite (IH (n + 1) _ k io); [f_equal; lia| |done]. unfold set_at, len. by rewrite length_insert.
Qed.

Section Data.
Context (c : SfxCollectorV3) (log : list log_entry) (Hinv : tokens_inv c log) (Hw : words_inv none c).

Lemma text_meta_at i : (i < length (token_texts c))%nat → token_texts c !! i = Some (text_at c (Z.of_nat i)) ∧ token_meta c !! i = Some (meta_at c (Z.of_nat i)).
Proof using Hinv.
  intros Hi. unfold text_at, meta_at. rewrite Nat2Z.id. pose proof (ci_metas _ _ _ _ Hinv). destruct (lookup_lt_is_Some_2 (token_texts c) i) as [t Ht]; [done|]. destruct (lookup_lt_is_Some_2 (token_meta c) i) as [m Hm]; [lia|]. by rewrite Ht, Hm.
Qed.

(** Every ordinal is numbered. *)
Lemma order_perm : order_of c ≡ₚ range 0 #(token_texts c).
Proof using Hinv Hw.
  unfold order_of. rewrite merge_sort_Permutation. rewrite (forallb_filter_id (λ io, if is_word_stripped (meta_at c io) then is_ws_entry c io else true)); [done|].
  apply forallb_forall. intros io Hio%list_elem_of_In%elem_of_range. destruct (is_word_stripped (meta_at c io)) eqn:Ews; [|done]. unfold is_ws_entry. apply existsb_exists.
  destruct (text_meta_at (Z.to_nat io)) as [_ Hm]; [unfold len in Hio; lia|]. rewrite Z2Nat.id in Hm by lia. destruct (wi_named _ _ _ _ Hw (Z.to_nat io) (meta_at c io)) as (ws & Hin & E); [by intros []|done..|].
  exists ws. split; [by apply list_elem_of_In|]. rewrite E, Z2Nat.id by lia. apply Z.eqb_refl.
Qed.

Lemma order_nodup : NoDup (order_of c).
Proof using Hinv Hw. rewrite order_perm. unfold range. apply NoDup_seqZ. Qed.

Lemma order_elem io : io ∈ order_of c ↔ 0 ≤ io < #(token_texts c).
Proof using Hinv Hw. rewrite order_perm, elem_of_range. lia. Qed.

Lemma order_length : #(order_of c) = #(token_texts c).
Proof using Hinv Hw. unfold len at 1. rewrite (Permutation_length order_perm). change (Z.of_nat (length (range 0 #(token_texts c)))) with #(range 0 #(token_texts c)). rewrite len_range; [lia|]. pose proof (len_nonneg (token_texts c)). lia. Qed.

Definition finals : list Z := number (order_of c) 0 (replicate (length (token_texts c)) 0).

Lemma finals_at k io : order_of c !! k = Some io → finals !! Z.to_nat io = Some (Z.of_nat k).
Proof using Hinv Hw.
  intros Hk. unfold finals. rewrite (number_spec _ order_nodup 0 _ k io); [done| |done]. apply Forall_forall. intros x Hx%order_elem. rewrite len_replicate. unfold len in Hx. lia.
Qed.

(** The final ordinal of a text and shape that are logged. *)
Lemma final_of_logged e t m : (e, t, m) ∈ log → ∃ k io, order_of c !! k = Some io ∧ text_at c io = t ∧ shape (meta_at c io) = shape m.
Proof using Hinv Hw.
  intros (i & m' & Ht & Hm & Es)%(ci_logged _ _ _ _ Hinv). assert (Z.of_nat i ∈ order_of c) as [k Hk]%list_elem_of_lookup by (apply order_elem; apply lookup_lt_Some in Ht; unfold len; lia).
  exists k, (Z.of_nat i). unfold text_at, meta_at. rewrite Nat2Z.id, Ht, Hm. done.
Qed.

Lemma final_unique k k' io io' : order_of c !! k = Some io → order_of c !! k' = Some io' → text_at c io = text_at c io' → shape (meta_at c io) = shape (meta_at c io') → k = k'.
Proof using Hinv Hw.
  intros Hk Hk' Et Es. assert (io = io') as <-; [|by eapply (NoDup_lookup _ _ _ _ order_nodup)].
  pose proof (proj1 (order_elem io) (list_elem_of_lookup_2 _ _ _ Hk)) as H1. pose proof (proj1 (order_elem io') (list_elem_of_lookup_2 _ _ _ Hk')) as H2.
  destruct (text_meta_at (Z.to_nat io)) as [T1 M1]; [unfold len in H1; lia|]. destruct (text_meta_at (Z.to_nat io')) as [T2 M2]; [unfold len in H2; lia|]. rewrite Z2Nat.id in T1, M1, T2, M2 by lia.
  assert (Z.to_nat io = Z.to_nat io'); [|lia]. eapply (ci_unique _ _ _ _ Hinv); [exact T1|by rewrite T2, Et|exact M1|exact M2|done].
Qed.

Lemma elem_map_pair (ps : list ChunkPosting) d p : (d, p) ∈ map (λ e : ChunkPosting, (e.1.1.1, e.1.1.2)) ps ↔ ∃ bf bt, (d, p, bf, bt) ∈ ps.
Proof using.
  rewrite list_elem_of_In, in_map_iff. split.
  - intros ([[[d' p'] bf] bt] & [= -> ->] & Hin%list_elem_of_In). by exists bf, bt.
  - intros (bf & bt & Hin). exists (d, p, bf, bt). split; [done|by apply list_elem_of_In].
Qed.

(** The postings of a final ordinal. *)
Lemma postings_of_spec k io d p : order_of c !! k = Some io → (d, p) ∈ postings_of c io ↔ ∃ bf bt m, ((d, p, bf, bt), text_at c io, m) ∈ log ∧ shape m = shape (meta_at c io).
Proof using Hinv Hw.
  intros Hk. pose proof (proj1 (order_elem io) (list_elem_of_lookup_2 _ _ _ Hk)) as Hio. destruct (text_meta_at (Z.to_nat io)) as [T M]; [unfold len in Hio; lia|]. rewrite Z2Nat.id in T, M by lia.
  destruct (lookup_lt_is_Some_2 (token_postings c) (Z.to_nat io)) as [ps Hps]; [rewrite (ci_lists _ _ _ _ Hinv); unfold len in Hio; lia|]. pose proof (ci_posted _ _ _ _ Hinv _ _ _ _ T M Hps) as Hposted.
  unfold postings_of. destruct (is_word_stripped (meta_at c io)) eqn:Ews.
  - split; [intros []%elem_of_nil|]. intros (bf & bt & m & Hin & Es). pose proof (ci_plain _ _ _ _ Hinv _ _ _ Hin). apply shape_stripped in Es. congruence.
  - rewrite elem_of_dedup, merge_sort_Permutation, Hps. cbn [default]. rewrite elem_map_pair. split.
    + intros (bf & bt & (m & Hin & Es)%Hposted). by exists bf, bt, m.
    + intros (bf & bt & m & Hin & Es). exists bf, bt. apply Hposted. by exists m.
Qed.

(** A chunk's final ordinal carries its own text and shape. *)
Lemma final_from k io : order_of c !! k = Some io → is_word_stripped (meta_at c io) = false → ∃ e, (e, text_at c io, meta_at c io) ∈ log.
Proof using Hinv Hw.
  intros Hk Hws. pose proof (proj1 (order_elem io) (list_elem_of_lookup_2 _ _ _ Hk)) as Hio. destruct (text_meta_at (Z.to_nat io)) as [T M]; [unfold len in Hio; lia|]. rewrite Z2Nat.id in T, M by lia.
  by eapply (ci_from _ _ _ _ Hinv).
Qed.

(** ** The data and the term texts *)

Lemma into_data_spec dt : into_data c = Ret dt →
  sorted_indices dt = merge_sort (text_le c) (range 0 #(token_texts c)) ∧ intern_to_final dt = finals ∧ dt_token_texts dt = token_texts c ∧ dt_token_meta dt = token_meta c ∧
  content_postings dt = map (postings_of c) (order_of c) ∧ dt_min_suffix_len dt = min_suffix_len c ∧ word_stripped dt = word_stripped_entries c.
Proof using.
  unfold into_data. intros H. destruct (word_sfxpost.finish _) as [w| | |]; [|done..]. rewrite bind_ret in H.
  destruct (positions c); [destruct (sibling_table.serialize _) as [[b w']| | |]; [|done..]|]; rewrite !bind_ret in H; by injection H as <-.
Qed.

(** The sibling table of the data is a written one, if there is any. *)
Lemma into_data_siblings dt r ord es : into_data c = Ret dt → sibling_table.open (sibling_v3 dt) = Ret r → sibling_table.siblings r ord = Ret es → Forall (λ e, fits 32 (sibling_table.next_ordinal e)) es.
Proof using.
  unfold into_data. intros H Ho. destruct (word_sfxpost.finish _) as [w| | |]; [|done..]. rewrite bind_ret in H.
  destruct (positions c); [|rewrite bind_ret in H; by injection H as <-]. destruct (sibling_table.serialize _) as [[b w']| | |] eqn:Es; [|done..].
  rewrite !bind_ret in H. injection H as <-. by apply (written_siblings_fit _ _ _ _ _ _ Es).
Qed.

Definition term_meta (m : TokenMetaV3) : termtexts.TermMetaV3 :=
  {| termtexts.own_len := own_len m; termtexts.sep_len := sep_len m; termtexts.overlap_len := overlap_len m; termtexts.is_word_start := is_word_start m; termtexts.is_word_stripped := is_word_stripped m |}.

Lemma finals_inverse io k : 0 ≤ io < #(token_texts c) → finals !! Z.to_nat io = Some k → ∃ n, k = Z.of_nat n ∧ order_of c !! n = Some io.
Proof using Hinv Hw.
  intros Hio Hk. apply order_elem in Hio. apply list_elem_of_lookup in Hio as [n Hn]. rewrite (finals_at n io Hn) in Hk. injection Hk as <-. by exists n.
Qed.

(** The text of an ordinal under its final ordinal. *)
Definition written (w : termtexts.TermTextsWriterV3) (k : nat) (io : Z) : Prop :=
  termtexts.tw_texts w !! k = Some (flat_map utf8 (text_at c io)) ∧ termtexts.tw_metas w !! k = Some (term_meta (meta_at c io)).

Lemma resize_kept {A} (l : list A) n d i x : l !! i = Some x → #l ≤ n → resize n d l !! i = Some x.
Proof using. intros Hi Hn. unfold resize. rewrite lookup_take_lt by (apply lookup_lt_Some in Hi; unfold len in Hn; lia). by apply lookup_app_l_Some. Qed.

Lemma add_written w k io : length (termtexts.tw_metas w) = length (termtexts.tw_texts w) →
  let w' := termtexts.add w (Z.of_nat k) (flat_map utf8 (text_at c io)) (term_meta (meta_at c io)) in
  length (termtexts.tw_metas w') = length (termtexts.tw_texts w') ∧ written w' k io ∧ ∀ k' io', k' ≠ k → written w k' io' → written w' k' io'.
Proof using.
  intros El. set (grow := #(termtexts.tw_texts w) <=? Z.of_nat k). unfold written.
  set (texts := if grow then resize (Z.of_nat k + 1) [] (termtexts.tw_texts w) else termtexts.tw_texts w).
  set (metas := if grow then resize (Z.of_nat k + 1) termtexts.empty_meta (termtexts.tw_metas w) else termtexts.tw_metas w).
  assert (∀ t m, termtexts.add w (Z.of_nat k) t m = {| termtexts.tw_texts := set_at (Z.of_nat k) t texts; termtexts.tw_metas := set_at (Z.of_nat k) m metas; termtexts.tw_ids := termtexts.tw_ids w |}) as ->
    by (intros t m; unfold termtexts.add, texts, metas; fold grow; by destruct grow).
  assert (length texts = length metas ∧ (k < length texts)%nat) as [El' Hk].
  { subst texts metas grow. destruct (Z.leb_spec #(termtexts.tw_texts w) (Z.of_nat k)); [|unfold len in *; lia]. unfold resize. rewrite !length_take, !length_app, !length_replicate. unfold len in *. lia. }
  assert (∀ i x, termtexts.tw_texts w !! i = Some x → texts !! i = Some x) as Ht. { intros i x Hx. subst texts grow. destruct (Z.leb_spec #(termtexts.tw_texts w) (Z.of_nat k)); [|done]. apply resize_kept; [done|lia]. }
  assert (∀ i x, termtexts.tw_metas w !! i = Some x → metas !! i = Some x) as Hm. { intros i x Hx. subst metas grow. destruct (Z.leb_spec #(termtexts.tw_texts w) (Z.of_nat k)); [|done]. apply resize_kept; [done|unfold len in *; lia]. }
  cbn. unfold set_at. rewrite Nat2Z.id, !length_insert. split; [done|]. split.
  - rewrite !list_lookup_insert_eq by lia. done.
  - intros k' io' Hne [H1 H2]. rewrite !list_lookup_insert_ne by done. auto.
Qed.

Lemma from_collector_spec dt : into_data c = Ret dt → ∃ w, from_collector_v3 dt = Ret w ∧ ∀ k io, order_of c !! k = Some io → written w k io.
Proof using Hinv Hw.
  intros (Es & Ef & Et & Em & _)%into_data_spec. unfold from_collector_v3. rewrite Es, Ef, Et, Em. set (l := merge_sort (text_le c) (range 0 #(token_texts c))).
  assert (∀ io, io ∈ l ↔ 0 ≤ io < #(token_texts c)) as Hl by (intros io; unfold l; rewrite merge_sort_Permutation, elem_of_range; lia).
  set (step := λ (w : termtexts.TermTextsWriterV3) (io : Z), _). enough (∀ l' w (P : Z → Prop), (∀ io, io ∈ l' → 0 ≤ io < #(token_texts c)) → length (termtexts.tw_metas w) = length (termtexts.tw_texts w) →
    (∀ k io, order_of c !! k = Some io → P io → written w k io) → ∃ w', foldM step w l' = Ret w' ∧ ∀ k io, order_of c !! k = Some io → P io ∨ io ∈ l' → written w' k io) as H.
  { destruct (H l termtexts.new (λ _, False)) as (w & E & Hres); [by intros io ?%Hl|done|done|]. exists w. split; [done|]. intros k io Hk. apply (Hres k io Hk). right. apply Hl, order_elem. by eapply list_elem_of_lookup_2. }
  clear l Hl Es. induction l' as [|io0 l' IH]; intros w P Hr El HP; cbn [foldM]; [exists w; split; [done|]; intros k io Hk [?|[]%elem_of_nil]; by apply HP|].
  assert (0 ≤ io0 < #(token_texts c)) as H0 by (apply Hr; by left). destruct (text_meta_at (Z.to_nat io0)) as [T M]; [unfold len in H0; lia|]. rewrite Z2Nat.id in T, M by lia.
  assert (io0 ∈ order_of c) as [k0 Hk0]%list_elem_of_lookup by by apply order_elem.
  assert (step w io0 = Ret (termtexts.add w (Z.of_nat k0) (flat_map utf8 (text_at c io0)) (term_meta (meta_at c io0)))) as ->.
  { unfold step. rewrite (index_lookup _ _ _ (proj1 H0) M), bind_ret, (index_lookup _ _ _ (proj1 H0) T), bind_ret, (index_lookup _ _ _ (proj1 H0) (finals_at k0 io0 Hk0)), bind_ret. done. }
  rewrite bind_ret. destruct (add_written w k0 io0 El) as (El' & Hw0 & Hother).
  destruct (IH (termtexts.add w (Z.of_nat k0) (flat_map utf8 (text_at c io0)) (term_meta (meta_at c io0))) (λ io, P io ∨ io = io0)) as (w' & E & Hres); [intros io Hin; apply Hr; by right|done| |].
  - intros k io Hk HPio. destruct (decide (k = k0)) as [->|Hne]; [rewrite Hk0 in Hk; by injection Hk as <-|]. apply Hother; [done|]. destruct HPio as [HPio| ->]; [by apply HP|].
    destruct Hne. by eapply (NoDup_lookup _ _ _ _ order_nodup).
  - exists w'. split; [done|]. intros k io Hk HPio. apply (Hres k io Hk). destruct HPio as [?|[->|?]%elem_of_cons]; [by left; left|by left; right|by right].
Qed.
End Data.
