(* ===== verification/CollectorCalls.v ===== *)
(** * The dictionary of a collection

    The calls the dictionary is built by, one for each chunk and each word
    entry of the collector's data, are within the builder's limits, and the
    places of the log are those of a corpus of final ordinals. *)
From stdpp Require Import gmap.
From S2P Require Import Prelude Ordering Text EqualChunk ParentRecord SuffixBuilder SuffixBuild SuffixBuildProofs SiblingTable TermTexts WordSfxPost WordPosMap PostingSource Collector CollectorProofs CollectorData.
Import text source collector.
Open Scope Z_scope.

Section Calls.
Context (lower : list Z → list Z) (c : SfxCollectorV3) (log : list log_entry) (Hinv : tokens_inv c log) (Hw : words_inv none c).
Local Abbreviation order := (order_of c).
Local Abbreviation finals := (finals c).

Definition call_of (io : Z) : list call :=
  let m := meta_at c io in
  if is_word_stripped m then [] else [Token (text_at c io) (default 0 (finals !! Z.to_nat io)) (own_len m) (sep_len m) (overlap_len m) (is_word_start m)].
Definition word_call (ws : WordStrippedEntry) : call :=
  Word (word_content ws) (content_overlap ws) (default 0 (finals !! Z.to_nat (first_intern_ord ws))) (last_sep_len ws) (ws_is_word_start ws).
Definition calls : list call := flat_map call_of (merge_sort (text_le c) (range 0 #(token_texts c))) ++ map word_call (word_stripped_entries c).

Lemma final_at io : 0 ≤ io < #(token_texts c) → ∃ k, order !! k = Some io ∧ finals !! Z.to_nat io = Some (Z.of_nat k).
Proof using Hinv Hw. intros Hio%(order_elem c log Hinv Hw). apply list_elem_of_lookup in Hio as [k Hk]. exists k. split; [done|]. by apply (finals_at c log Hinv Hw). Qed.

Lemma fill_fst_calls dt : into_data c = Ret dt → fill_fst lower dt = foldM (apply_call lower) (builder.with_min_suffix_len (min_suffix_len c)) calls.
Proof using Hinv Hw.
  intros (Es & Ef & Et & Em & _ & Emin & Ew)%into_data_spec. unfold fill_fst. rewrite Es, Emin, Ew. unfold calls. rewrite foldM_app.
  set (l := merge_sort (text_le c) (range 0 #(token_texts c))). assert (∀ io, io ∈ l → 0 ≤ io < #(token_texts c)) as Hl by (intros io; unfold l; rewrite merge_sort_Permutation, elem_of_range; lia).
  assert (∀ b, foldM (add_sorted lower dt) b l = foldM (apply_call lower) b (flat_map call_of l)) as ->.
  { clear Es. induction l as [|io l IH]; intros b; [done|]. cbn [foldM flat_map]. rewrite foldM_app. assert (0 ≤ io < #(token_texts c)) as Hio by (apply Hl; by left).
    destruct (text_meta_at c log Hinv (Z.to_nat io)) as [T M]; [unfold len in Hio; lia|]. rewrite Z2Nat.id in T, M by lia. destruct (final_at io Hio) as (k & _ & Ek).
    assert (add_sorted lower dt b io = foldM (apply_call lower) b (call_of io)) as ->.
    { unfold add_sorted, call_of. rewrite Em, Et, Ef. rewrite (index_lookup _ _ _ (proj1 Hio) M), bind_ret. destruct (is_word_stripped (meta_at c io)); [done|].
      rewrite (index_lookup _ _ _ (proj1 Hio) T), bind_ret, (index_lookup _ _ _ (proj1 Hio) Ek), bind_ret, Ek. cbn. by destruct (builder.add_token _ _ _ _ _ _ _ _). }
    destruct (foldM (apply_call lower) b (call_of io)); [|done..]. rewrite !bind_ret. apply IH. intros io' Hin. apply Hl. by right. }
  destruct (foldM _ _ (flat_map call_of l)) as [b| | |]; [|done..]. rewrite !bind_ret. pose proof (wi_entries _ _ _ _ Hw) as He. clear Ew. revert b. induction (word_stripped_entries c) as [|ws l' IH]; intros b; [done|]. cbn [foldM map].
  assert (add_stripped lower dt b ws = apply_call lower b (word_call ws)) as ->.
  { unfold add_stripped, word_call. rewrite Ef. destruct (He ws) as (_ & i & m & -> & Hm & _); [by left|]. rewrite Nat2Z.id. destruct (final_at (Z.of_nat i)) as (k & _ & Ek); [apply lookup_lt_Some in Hm; rewrite (ci_metas _ _ _ _ Hinv) in Hm; unfold len; lia|].
    rewrite Nat2Z.id in Ek. rewrite (index_lookup _ _ (Z.of_nat k)) by (rewrite ?Nat2Z.id; done || lia). by rewrite bind_ret, Ek. }
  destruct (apply_call lower b (word_call ws)); [|done..]. rewrite !bind_ret. apply IH. intros ws' Hin. apply He. by right.
Qed.

(** The token calls are those of the chunks. *)
Lemma token_call t o w s v ws : Token t o w s v ws ∈ calls ↔
  ∃ k io, o = Z.of_nat k ∧ order !! k = Some io ∧ is_word_stripped (meta_at c io) = false ∧ t = text_at c io ∧ w = own_len (meta_at c io) ∧ s = sep_len (meta_at c io) ∧ v = overlap_len (meta_at c io) ∧ ws = is_word_start (meta_at c io).
Proof using Hinv Hw.
  unfold calls. rewrite elem_of_app. split.
  - intros [Hin|Hin].
    + apply list_elem_of_In, in_flat_map in Hin as (io & Hio%list_elem_of_In & Hin%list_elem_of_In). rewrite merge_sort_Permutation in Hio. apply elem_of_range in Hio. destruct (final_at io) as (k & Hk & Ek); [lia|].
      unfold call_of in Hin. destruct (is_word_stripped (meta_at c io)) eqn:Ews; [by apply elem_of_nil in Hin|]. apply list_elem_of_singleton in Hin as [= -> -> -> -> -> ->]. rewrite Ek. by exists k, io.
    + apply list_elem_of_In, in_map_iff in Hin as (? & ? & _). done.
  - intros (k & io & -> & Hk & Hws & -> & -> & -> & -> & ->). left. apply list_elem_of_In, in_flat_map. exists io. split.
    + apply list_elem_of_In. rewrite merge_sort_Permutation, elem_of_range. pose proof (proj1 (order_elem c log Hinv Hw io) (list_elem_of_lookup_2 _ _ _ Hk)). lia.
    + apply list_elem_of_In. unfold call_of. rewrite Hws, (finals_at c log Hinv Hw k io Hk). by left.
Qed.

(** What a chunk is made of. *)
Definition plain_chunk (t : list Z) (m : TokenMetaV3) : Prop := ∃ x cm ovt, t = x ++ ovt ∧ m = chunk_meta x cm ovt ∧ Forall is_char t ∧ x ≠ [] ∧ str_len x < 256 ∧ str_len ovt ≤ 4.
Context (Hplain : ∀ e t m, (e, t, m) ∈ log → plain_chunk t m) (Hcount : #(token_texts c) < 2 ^ 28).

Lemma order_bound k io : order !! k = Some io → Z.of_nat k < 2 ^ 28.
Proof using Hinv Hw Hcount. intros Hk%lookup_lt_Some. pose proof (order_length c log Hinv Hw). unfold len in *. lia. Qed.

Lemma chunk_fields x cm ovt : str_len x < 256 → str_len ovt ≤ 4 → own_len (chunk_meta x cm ovt) = str_len x ∧ overlap_len (chunk_meta x cm ovt) = str_len ovt.
Proof using. intros Hx Ho. pose proof (str_len_nonneg x). pose proof (str_len_nonneg ovt). cbn. unfold as_u16, as_u8. rewrite !Z.mod_small by lia. done. Qed.

Lemma calls_ok : Forall call_ok calls.
Proof using Hinv Hw Hplain Hcount.
  apply Forall_forall. intros [t o w s v ws|t v o s ws] Hin.
  - apply token_call in Hin as (k & io & -> & Hk & Hws & -> & -> & -> & -> & ->). destruct (final_from c log Hinv Hw k io Hk Hws) as [e (x & cm & ovt & Et & Em & Hch & _ & Hx & Ho)%Hplain].
    pose proof (order_bound k io Hk). rewrite Em. split; [done|]. split; [unfold fits; lia|]. split; [|apply fits_u8]. destruct (chunk_fields x cm ovt Hx Ho) as [-> _]. pose proof (str_len_nonneg x). unfold fits. lia.
  - unfold calls in Hin. apply elem_of_app in Hin as [Hin|Hin].
    + apply list_elem_of_In, in_flat_map in Hin as (io & _ & Hin%list_elem_of_In). unfold call_of in Hin. destruct (is_word_stripped _); [by apply elem_of_nil in Hin|]. apply list_elem_of_singleton in Hin. done.
    + apply list_elem_of_In, in_map_iff in Hin as (e & [= <- <- <- <- <-] & Hin%list_elem_of_In). destruct (wi_entries _ _ _ _ Hw e Hin) as ((H1 & H2 & H3) & i & m & Ei & Hm & _).
      split; [done|]. split; [done|]. split; [|done]. destruct (final_at (first_intern_ord e)) as (k & Hk & Ek); [rewrite Ei; apply lookup_lt_Some in Hm; rewrite (ci_metas _ _ _ _ Hinv) in Hm; unfold len; lia|].
      rewrite Ek. cbn. pose proof (order_bound k _ Hk). unfold fits. lia.
Qed.

(** The parents of the entries are within the limits. *)
Lemma calls_limits min : Forall (λ kq, builder.check_parent builder.MAX_ORDINAL (snd kq) = None) (flat_map (call_entries lower min) calls).
Proof using Hinv Hw Hplain Hcount.
  apply Forall_flat_map, Forall_forall. intros cl Hin. pose proof calls_ok as Hok. rewrite Forall_forall in Hok. specialize (Hok cl Hin).
  assert (∀ m bytes ov pre par, m ≤ 256 → #ov ≤ 4 → (∀ si, 0 ≤ si < 256 → parents.raw_ordinal (par si) ≤ builder.MAX_ORDINAL ∧ parents.sti (par si) = as_u16 si ∧ parents.own_len (par si) ≤ parents.OWN_LEN_MASK ∧ parents.overlap_len (par si) = as_u8 #ov) →
    Forall (λ kq, builder.check_parent builder.MAX_ORDINAL (snd kq) = None) (suffix_entries min m bytes ov pre par)) as Hse.
  { intros m bytes ov pre par Hm Hov Hpar. apply Forall_forall. intros kq Hkq. unfold suffix_entries in Hkq. apply list_elem_of_In, in_map_iff in Hkq as (si & <- & Hsi). apply filter_In in Hsi as [Hsi%list_elem_of_In%elem_of_range _].
    destruct (Hpar si) as (H1 & H2 & H3 & H4); [lia|]. unfold builder.check_parent. cbn. rewrite H2, H4. pose proof (len_nonneg ov). unfold as_u16, as_u8. rewrite !Z.mod_small by lia. unfold parents.STI_MASK, parents.MAX_OVERLAP_BYTES in *.
    change (Z.shiftl 1 12 - 1) with 4095. replace (builder.MAX_ORDINAL <? parents.raw_ordinal (par si)) with false by lia. replace (4 <? #ov) with false by lia. replace (parents.OWN_LEN_MASK <? parents.own_len (par si)) with false by lia. by replace (4095 <? si) with false by lia. }
  destruct cl as [t o w s v ws|t v o s ws]; cbn [call_entries]; (apply Hse; [unfold builder.MAX_CHUNK_BYTES; lia|apply len_overlap_bytes|]); intros si Hsi; cbn.
  - apply token_call in Hin as (k & io & -> & Hk & Hws & _ & -> & _). destruct (final_from c log Hinv Hw k io Hk Hws) as [e (x & cm & ovt & _ & -> & _ & _ & Hx & Ho)%Hplain]. pose proof (order_bound k io Hk).
    destruct (chunk_fields x cm ovt Hx Ho) as [-> _]. unfold builder.MAX_ORDINAL, parents.OWN_LEN_MASK. change (Z.shiftl 1 28 - 1) with (2 ^ 28 - 1). change (Z.shiftl 1 14 - 1) with 16383. split_and!; done || lia.
  - destruct Hok as (_ & _ & Ho & Hs).
    assert (o < 2 ^ 28) as Hlt.
    { unfold calls in Hin. apply elem_of_app in Hin as [Hin|Hin].
      - apply list_elem_of_In, in_flat_map in Hin as (io & _ & Hin%list_elem_of_In). unfold call_of in Hin. destruct (is_word_stripped _); [by apply elem_of_nil in Hin|]. by apply list_elem_of_singleton in Hin.
      - apply list_elem_of_In, in_map_iff in Hin as (e & [= <- <- <- <- <-] & Hin%list_elem_of_In). destruct (wi_entries _ _ _ _ Hw e Hin) as (_ & i & m & Ei & Hm & _).
        destruct (final_at (first_intern_ord e)) as (k & Hk & Ek); [rewrite Ei; apply lookup_lt_Some in Hm; rewrite (ci_metas _ _ _ _ Hinv) in Hm; unfold len; lia|]. rewrite Ek. by eapply order_bound. }
    unfold fits in Hs. set (bytes := take _ _). assert (#bytes ≤ 16383 - s) as Hb by (subst bytes; rewrite len_take; unfold parents.OWN_LEN_MASK; change (Z.shiftl 1 14 - 1) with 16383; lia). pose proof (len_nonneg bytes).
    unfold builder.MAX_ORDINAL, parents.OWN_LEN_MASK. change (Z.shiftl 1 28 - 1) with (2 ^ 28 - 1). change (Z.shiftl 1 14 - 1) with 16383. split_and!; [lia|done| |done]. unfold as_u16. rewrite Z.mod_small by lia. lia.
Qed.
End Calls.
