(* ===== verification/CollectorIndex.v ===== *)
(** * An index of documents

    The files written from the collector's data for documents of one value
    each are those of a corpus, as the search expects them; with the search,
    what is indexed is found. *)
From stdpp Require Import gmap.
From S2P Require Import Prelude Ordering DocFilter SiblingTable TermTexts WordSfxPost WordPosMap ParentRecord Text EqualChunk SuffixBuilder SuffixBuild SuffixBuildProofs FstWalk WalkProofs Utf8 Resolve PostingSource ResolveProofs Chains FindLiteral ChainProofs Occurrences SiblingChains LiteralSearch BuiltIndex Literal Contains ContainsSearch Collector CollectorProofs CollectorData CollectorCalls.
Import text source collector.
Open Scope Z_scope.
Abbreviation chars := orchestrator.chars.
Abbreviation folded := orchestrator.folded.

(** ** The log of documents of one value *)

Definition entry_at (doc start ov i offset : Z) (cs : list Chunk) (k : nat) (x : Chunk) : log_entry :=
  let from := offset + str_len (flat_map fst (take k cs)) in
  let ovt := overlap_text ov (drop (S k) cs) in
  ((doc, start + i + Z.of_nat k, from, from + content_len x.2 + chunk_sep x.2), x.1 ++ ovt, chunk_meta x.1 x.2 ovt).

Lemma chunk_log_at doc start ov cs : ∀ i offset k, chunk_log doc start ov i offset cs !! k = entry_at doc start ov i offset cs k <$> cs !! k.
Proof.
  induction cs as [|[t m] cs IH]; intros i offset k; [done|]. cbn [chunk_log]. destruct k as [|k]; cbn [lookup list_lookup].
  - unfold entry_at. cbn. rewrite !Z.add_0_r. done.
  - change (list_lookup k (chunk_log doc start ov (i + 1) (offset + str_len t) cs)) with (chunk_log doc start ov (i + 1) (offset + str_len t) cs !! k). rewrite IH. change (list_lookup k cs) with (cs !! k).
    destruct (cs !! k) as [x|]; [|done]. cbn. unfold entry_at. cbn. rewrite str_len_app. do 4 f_equal; [f_equal; [f_equal|]|]; lia.
Qed.

(** ** Lower case *)

(** On the plain characters lower case is taken character by character and
    keeps their width; other characters may do otherwise. *)
Record char_wise (lower : list Z → list Z) (char_lower : Z → list Z) (plain : Z → Prop) : Prop := {
  cw_chars : ∀ s, Forall is_char s → Forall is_char (lower s);
  cw_ascii : ∀ s, resolve.is_ascii s = true → lower s = map resolve.ascii_lower s;
  cw_some : ∀ c, is_char c → char_lower c ≠ [];
  cw_plain : ∀ c, plain c → is_char c ∧ str_len (char_lower c) = len_utf8 c ∧ Forall (λ x, plain x ∧ char_lower x = [x]) (char_lower c);
  cw_string : ∀ s, Forall plain s → lower s = flat_map char_lower s;
}.

(** [str::to_lowercase] on the bytes of a string. *)
Definition lower_bytes (lower : list Z → list Z) (s : list Z) : list Z := flat_map utf8 (lower (chars s)).

Section Lower.
Context (lower : list Z → list Z) (char_lower : Z → list Z) (plain : Z → Prop) (Hcw : char_wise lower char_lower plain).

Lemma plain_chars s : Forall plain s → Forall is_char s.
Proof using Hcw. intros H. eapply Forall_impl; [exact H|]. intros x Hx. by apply (cw_plain _ _ _ Hcw). Qed.

Lemma lower_app a b : Forall plain a → Forall plain b → lower (a ++ b) = lower a ++ lower b.
Proof using Hcw. intros Ha Hb. rewrite !(cw_string _ _ _ Hcw) by (done || by apply Forall_app). apply flat_map_app. Qed.

Lemma lower_len s : Forall plain s → str_len (lower s) = str_len s.
Proof using Hcw.
  intros H. rewrite (cw_string _ _ _ Hcw) by done. induction H as [|x s Hx _ IH]; [done|]. cbn. rewrite str_len_app, IH. f_equal. by apply (cw_plain _ _ _ Hcw).
Qed.

Lemma lower_bytes_utf8 s : Forall is_char s → lower_bytes lower (flat_map utf8 s) = flat_map utf8 (lower s).
Proof using. intros H. unfold lower_bytes. by rewrite chars_utf8. Qed.

Lemma lower_bytes_len s : Forall plain s → #(flat_map utf8 (lower s)) = str_len s.
Proof using Hcw. intros H. by rewrite str_len_bytes, lower_len. Qed.

Lemma folded_plain s : Forall plain s → folded char_lower false (flat_map utf8 s) = flat_map utf8 (lower s).
Proof using Hcw.
  intros H. rewrite folded_all, chars_utf8 by by apply plain_chars. rewrite (cw_string _ _ _ Hcw) by done. clear H. induction s as [|x s IH]; [done|]. cbn. by rewrite IH, flat_map_app.
Qed.

Lemma valid_utf8 s : Forall is_char s → valid (flat_map utf8 s).
Proof using. intros H. by exists s. Qed.

Lemma lower_lowered s : Forall plain s → Forall (λ x, plain x ∧ char_lower x = [x]) (lower s).
Proof using Hcw.
  intros H. rewrite (cw_string _ _ _ Hcw) by done. apply Forall_flat_map. eapply Forall_impl; [exact H|]. intros x Hx. by apply (cw_plain _ _ _ Hcw).
Qed.

Lemma lower_fixed s : Forall (λ x, plain x ∧ char_lower x = [x]) s → lower s = s.
Proof using Hcw.
  intros H. rewrite (cw_string _ _ _ Hcw) by (eapply Forall_impl; [exact H|]; by intros x [? _]). induction H as [|x s [_ Hx] _ IH]; [done|]. cbn. by rewrite Hx, IH.
Qed.

Lemma plain_lower_ok s : Forall plain s → lower_ok (lower_bytes lower) (flat_map utf8 s).
Proof using Hcw.
  intros H. pose proof (plain_chars s H) as Hch. pose proof (cw_chars _ _ _ Hcw s Hch) as Hlc. split.
  - intros t Ht. unfold lower_bytes. assert (Forall (λ x, x < 128) t) as Ht' by (unfold resolve.is_ascii in Ht; apply Forall_forall; intros x Hx%list_elem_of_In; rewrite forallb_forall in Ht; specialize (Ht x Hx); lia).
    assert (chars t = t) as ->. { clear Ht. induction Ht' as [|x t Hx _ IH]; [done|]. cbn. replace (x <? 128) with true by lia. by rewrite IH. }
    rewrite (cw_ascii _ _ _ Hcw) by done. clear Ht. induction Ht' as [|x t Hx _ IH]; [done|]. cbn. rewrite IH. unfold utf8, resolve.ascii_lower. destruct ((65 <=? x) && (x <=? 90)) eqn:E.
    + apply andb_true_iff in E as [? ?]. replace (x + 32 <? 128) with true by lia. done.
    + replace (x <? 128) with true by lia. done.
  - rewrite lower_bytes_utf8 by done. by apply valid_utf8.
  - intros a b E Hb. rewrite lower_bytes_utf8 in E by done.
    assert (valid a) as Ha. { destruct (valid_cut (flat_map utf8 (lower s)) #a (valid_utf8 _ Hlc)) as [H1 _]; rewrite ?E; [rewrite len_app; pose proof (len_nonneg a); pose proof (len_nonneg b); lia|by apply boundary_after|]. rewrite E, len_to_nat, take_app_length in H1. done. }
    destruct Ha as (ca & Hca & ->), Hb as (cb & Hcb & ->). rewrite <- flat_map_app in E. apply (f_equal chars) in E. rewrite !chars_utf8 in E by (done || by apply Forall_app).
    pose proof (lower_lowered s H) as Hl. rewrite E in Hl. apply Forall_app in Hl as [_ Hl]. rewrite lower_bytes_utf8 by done. by rewrite lower_fixed.
Qed.
End Lower.

(** ** The files of the data *)

(** A search context over files of the collector's data: the dictionary that
    was built, the postings of the content, a position map of the same, the
    texts that were written, the byte offsets of the positions by the lengths
    of the tokens before them, and the data's sibling table, if one is
    loaded. *)
Record serves (dt : SfxCollectorDataV3) (w : termtexts.TermTextsWriterV3) (built : builder.Built) (ctx : composite.BriquesContext) (offsets : orchestrator.Offsets) : Prop := {
  sv_reader : composite.reader ctx = plain_reader built;
  sv_laws : resolve.ResolverLaws (composite.resolver ctx);
  sv_postings : ∀ o d p, fits 32 o → (d, p) ∈ resolve.positions (composite.resolver ctx) o ↔ ∃ ps, content_postings dt !! Z.to_nat o = Some ps ∧ (d, p) ∈ ps;
  sv_posmap : ∃ pm, composite.posmap ctx = Some pm ∧ ∀ d p o, pm d p = Some o ↔ fits 32 o ∧ (d, p) ∈ resolve.positions (composite.resolver ctx) o;
  sv_texts : ∃ tr, composite.texts ctx = Some tr ∧ ∀ o, fits 32 o → composite.text tr o = termtexts.tw_texts w !! Z.to_nat o ∧ composite.meta tr o = termtexts.tw_metas w !! Z.to_nat o;
  sv_offsets : ∃ byte_at, orchestrator.checkpoints offsets = Some byte_at ∧ ∀ d os o lens,
    (∀ o', fits 32 o' → lens o' = termtexts.own_len <$> termtexts.tw_metas w !! Z.to_nat o') →
    (∀ j o', (os ++ [o]) !! j = Some o' → fits 32 o' ∧ (d, Z.of_nat j) ∈ resolve.positions (composite.resolver ctx) o' ∧ is_Some (lens o')) →
    byte_at d #os lens = Some (as_u32 (foldr (λ o n, default 0 (lens o) + n) 0 os));
  sv_siblings : ∀ f, composite.sibling_v3 ctx = Some f → ∃ r, sibling_table.open (sibling_v3 dt) = Ret r ∧ ∀ o, fits 32 o → sibling_table.siblings r o = Ret (f o);
}.

Section Index.
Context (mt ov min : Z) (texts : list (list Z)) (Hmt : 1 ≤ mt ≤ 252) (Hov : 0 ≤ ov ≤ 4).
Context (Htexts : Forall (Forall is_char) texts).
Definition one_value : list (list (list Z)) := map (λ t, [t]) texts.
Local Abbreviation log := (docs_log mt ov 0 one_value).
Local Abbreviation chunks := (chunks_of mt).

Lemma log_elem x : x ∈ log ↔ ∃ (d k : nat) text y, texts !! d = Some text ∧ chunks text !! k = Some y ∧ x = entry_at (Z.of_nat d) 0 ov 0 0 (chunks text) k y.
Proof using.
  unfold one_value. enough (∀ d0 ts, x ∈ docs_log mt ov d0 (map (λ t, [t]) ts) ↔ ∃ (d k : nat) text y, ts !! d = Some text ∧ chunks text !! k = Some y ∧ x = entry_at (d0 + Z.of_nat d) 0 ov 0 0 (chunks text) k y) as H by apply (H 0).
  intros d0 ts. revert d0. induction ts as [|t ts IH]; intros d0; cbn [map docs_log doc_log].
  - split; [intros []%elem_of_nil|]. by intros (d & k & text & y & H & _).
  - rewrite app_nil_r, elem_of_app, IH, list_elem_of_lookup. setoid_rewrite chunk_log_at. split.
    + intros [(k & Hk)|(d & k & text & y & Hd & Hy & ->)].
      * destruct (chunks t !! k) as [y|] eqn:Ey; [|done]. injection Hk as <-. exists 0%nat, k, t, y. rewrite Z.add_0_r. done.
      * exists (S d), k, text, y. split; [done|]. split; [done|]. f_equal. lia.
    + intros ([|d] & k & text & y & Hd & Hy & ->); cbn in Hd.
      * injection Hd as ->. left. exists k. rewrite Hy. cbn. by rewrite Z.add_0_r.
      * right. exists d, k, text, y. split; [done|]. split; [done|]. f_equal. lia.
Qed.

Lemma text_chunks d text : texts !! d = Some text → flat_map fst (chunks text) = text ∧ chunks_ok mt (chunks text) ∧ Forall is_char text.
Proof using Hmt Htexts.
  intros Hd. rewrite Forall_lookup in Htexts. pose proof (Htexts d text Hd) as Hch. destruct (chunks_of_spec mt text) as (_ & H1 & H2 & _); [lia|done|]. done.
Qed.

Lemma overlap_short d text k : texts !! d = Some text → str_len (overlap_text ov (drop k (chunks text))) ≤ 4 ∧
  match chunks text !! k with Some y => overlap_text ov (drop k (chunks text)) `prefix_of` y.1 | None => overlap_text ov (drop k (chunks text)) = [] end.
Proof using Hov.
  intros Hd. destruct (chunks text !! k) as [[t m]|] eqn:Ek.
  - rewrite (drop_S _ _ _ Ek). cbn. destruct (front_spec t ov) as (_ & H1 & H2); [lia|]. split; [lia|done].
  - apply lookup_ge_None in Ek. rewrite drop_ge by done. cbn. done.
Qed.

Lemma log_plain e t m : (e, t, m) ∈ log → plain_chunk t m.
Proof using Hmt Hov Htexts.
  intros (d & k & text & [x cm] & Hd & Hk & [= -> -> ->])%log_elem. cbn [fst snd]. destruct (text_chunks d text Hd) as (Et & Hok & _). unfold chunks_ok in Hok. rewrite Forall_lookup in Hok. destruct (Hok k _ Hk) as [(Hne & Hlen & _) Hch].
  destruct (overlap_short d text (S k) Hd) as [Ho Hp]. cbn [fst snd] in *. exists x, cm, (overlap_text ov (drop (S k) (chunks text))). split; [done|]. split; [done|]. split; [|split; [done|split; [lia|done]]].
  apply Forall_app. split; [done|]. destruct (chunks text !! S k) as [y|] eqn:Ey; [|rewrite Hp; constructor]. destruct (Hok _ _ Ey) as [_ Hy]. by eapply prefix_chars.
Qed.

(** ** The corpus of final ordinals *)

Context (c : SfxCollectorV3) (Hinv : tokens_inv c log) (Hw : words_inv none c) (Hcount : #(token_texts c) < 2 ^ 28).
Local Abbreviation order := (order_of c).

Definition final_of (t : list Z) (m : TokenMetaV3) : Z :=
  default 0 (Z.of_nat ∘ fst <$> list_find (λ io, text_at c io = t ∧ shape (meta_at c io) = shape m) order).

Lemma final_of_spec e t m : (e, t, m) ∈ log → ∃ k io, final_of t m = Z.of_nat k ∧ order !! k = Some io ∧ text_at c io = t ∧ shape (meta_at c io) = shape m.
Proof using Hinv Hw.
  intros (k & io & Hk & Et & Es)%(final_of_logged c log Hinv Hw). unfold final_of. destruct (list_find _ _) as [[k' io']|] eqn:Ef; cbn.
  - apply list_find_Some in Ef as (Hk' & [Et' Es'] & _). by exists k', io'.
  - apply list_find_None in Ef. rewrite Forall_forall in Ef. destruct (Ef io); [by eapply list_elem_of_lookup_2|done].
Qed.

Definition corpus : list (list Z) := map (λ text, map (λ x : log_entry, final_of x.1.2 x.2) (chunk_log 0 0 ov 0 0 (chunks text))) texts.

Lemma corpus_at_spec d p k : corpus_at corpus d p = Some k ↔
  ∃ (i j : nat) text y, d = Z.of_nat i ∧ p = Z.of_nat j ∧ texts !! i = Some text ∧ chunks text !! j = Some y ∧
    k = final_of (y.1 ++ overlap_text ov (drop (S j) (chunks text))) (chunk_meta y.1 y.2 (overlap_text ov (drop (S j) (chunks text)))).
Proof using.
  unfold corpus_at, corpus. split.
  - intros H. destruct (Z.leb_spec 0 d); [|done]. destruct (Z.leb_spec 0 p); [|done]. cbn [andb] in H. rewrite list_lookup_fmap in H. destruct (texts !! Z.to_nat d) as [text|] eqn:Et; [|done]. cbn in H.
    rewrite list_lookup_fmap, chunk_log_at in H. destruct (chunks text !! Z.to_nat p) as [y|] eqn:Ey; [|done]. cbn in H. injection H as <-. exists (Z.to_nat d), (Z.to_nat p), text, y. rewrite !Z2Nat.id by done. done.
  - intros (i & j & text & y & -> & -> & Ht & Hy & ->). rewrite (proj2 (Z.leb_le 0 _) (Zle_0_nat i)), (proj2 (Z.leb_le 0 _) (Zle_0_nat j)), !Nat2Z.id. cbn [andb].
    rewrite list_lookup_fmap, Ht. cbn. rewrite list_lookup_fmap, chunk_log_at, Hy. done.
Qed.

(** The postings of the data are the places of the corpus. *)
Lemma corpus_postings_spec dt k d p : into_data c = Ret dt → 0 ≤ k → (∃ ps, content_postings dt !! Z.to_nat k = Some ps ∧ (d, p) ∈ ps) ↔ corpus_at corpus d p = Some k.
Proof using Hinv Hw.
  intros (_ & _ & _ & _ & -> & _)%into_data_spec Hk. rewrite list_lookup_fmap, corpus_at_spec. split.
  - intros (ps & Hps & Hin). destruct (order !! Z.to_nat k) as [io|] eqn:Eo; [|done]. injection Hps as <-. apply (postings_of_spec c log Hinv Hw _ _ _ _ Eo) in Hin as (bf & bt & m & Hin & Es).
    pose proof Hin as (i & j & text & y & Ht & Hy & E)%log_elem. injection E as -> -> -> -> Etext ->. exists i, j, text, y. split; [done|]. split; [lia|]. split; [done|]. split; [done|].
    destruct (final_of_spec _ _ _ Hin) as (k' & io' & Ef & Hk' & Et' & Es'). rewrite <- Etext, Ef. enough (Z.to_nat k = k') by lia. eapply (final_unique c log Hinv Hw); [exact Eo|exact Hk'|congruence|congruence].
  - intros (i & j & text & y & -> & -> & Ht & Hy & ->). assert (entry_at (Z.of_nat i) 0 ov 0 0 (chunks text) j y ∈ log) as Hin by (apply log_elem; by exists i, j, text, y).
    unfold entry_at in Hin. set (ovt := overlap_text ov (drop (S j) (chunks text))) in *. destruct (final_of_spec _ _ _ Hin) as (k & io & Ef & Ho & Et & Es). rewrite Ef, Nat2Z.id, Ho. eexists. split; [done|].
    apply (postings_of_spec c log Hinv Hw _ _ _ _ Ho). rewrite Z.add_0_l in Hin. eexists _, _, _. split; [rewrite Et; exact Hin|done].
Qed.

(** ** The texts of the final ordinals *)

Context (lower : list Z → list Z) (char_lower : Z → list Z) (plain : Z → Prop) (Hcw : char_wise lower char_lower plain).
Context (Hplain : Forall (Forall plain) texts).

Definition tok_text (k : Z) : list Z := text_at c (default 0 (order !! Z.to_nat k)).
Definition tok_meta (k : Z) : TokenMetaV3 := meta_at c (default 0 (order !! Z.to_nat k)).
Definition tok_cut (k : Z) : list Z * list Z := cut_token (tok_text k) (overlap_len (tok_meta k)).
Definition own (k : Z) : list Z := flat_map utf8 (lower (fst (tok_cut k))).
Definition behind (k : Z) : list Z := builder.overlap_bytes_of lower (snd (tok_cut k)).

Lemma floor_at s n : text.is_char_boundary s (Z.of_nat n) = true → builder.floor_boundary s n = n.
Proof using. destruct n as [|n]; [done|]. cbn [builder.floor_boundary]. by intros ->. Qed.

Lemma cut_parts x o : cut_token (x ++ o) (str_len o) = (x, o).
Proof using.
  unfold cut_token. pose proof (str_len_nonneg x). assert (saturating_sub (str_len (x ++ o)) (str_len o) = str_len x) as -> by (rewrite str_len_app; unfold saturating_sub; lia).
  rewrite floor_at by (rewrite Z2Nat.id by lia; apply boundary_app). rewrite Z2Nat.id by lia. by rewrite split_at_app.
Qed.

Lemma overlap_whole o : Forall plain o → str_len o ≤ 4 → builder.overlap_bytes_of lower o = flat_map utf8 (lower o).
Proof using Hcw.
  intros Ho Hl. unfold builder.overlap_bytes_of. rewrite (lower_len lower char_lower plain Hcw o Ho). pose proof (str_len_nonneg o). unfold parents.MAX_OVERLAP_BYTES. rewrite Z.min_l by lia.
  assert (text.is_char_boundary (lower o) (str_len o) = true) as Hb. { rewrite <- (lower_len lower char_lower plain Hcw o Ho). pose proof (boundary_app (lower o) []) as H'. by rewrite app_nil_r in H'. }
  rewrite floor_at by by rewrite Z2Nat.id by lia. apply take_ge. pose proof (lower_bytes_len lower char_lower plain Hcw o Ho) as H'. unfold len in H'. lia.
Qed.

(** A chunk of the log with all its parts plain. *)
Lemma log_parts e t m : (e, t, m) ∈ log → ∃ x cm o, t = x ++ o ∧ m = chunk_meta x cm o ∧ Forall plain x ∧ Forall plain o ∧ x ≠ [] ∧ str_len x < 256 ∧ str_len o ≤ 4.
Proof using Hmt Hov Htexts Hplain.
  intros Hin. pose proof (log_plain _ _ _ Hin) as Hp. apply log_elem in Hin as (d & k & text & [x cm] & Hd & Hk & [= -> -> ->]). cbn [fst snd] in *. destruct (text_chunks d text Hd) as (Et & Hok & _).
  destruct (overlap_short d text (S k) Hd) as [Ho Hpre]. set (o := overlap_text ov (drop (S k) (chunks text))) in *. exists x, cm, o. split; [done|]. split; [done|].
  assert (∀ j y, chunks text !! j = Some y → Forall plain y.1) as Hall.
  { intros j y Hy. rewrite Forall_lookup in Hplain. specialize (Hplain d text Hd). rewrite <- Et in Hplain. rewrite Forall_forall in Hplain |- *. intros z Hz. apply Hplain, list_elem_of_In, in_flat_map. exists y. split; apply list_elem_of_In; [by eapply list_elem_of_lookup_2|done]. }
  split; [by apply (Hall k (x, cm))|]. split; [destruct (chunks text !! S k) as [y|] eqn:Ey; [|rewrite Hpre; constructor]; destruct Hpre as [z Hz]; specialize (Hall _ _ Ey); rewrite Hz in Hall; by apply Forall_app in Hall as [? _]|].
  unfold chunks_ok in Hok. rewrite Forall_lookup in Hok. destruct (Hok k _ Hk) as [(Hne & Hlen & _) _]. cbn in *. split; [done|]. split; [lia|done].
Qed.

(** The texts of a final ordinal that is a chunk's. *)
Lemma chunk_ordinal k io : order !! k = Some io → is_word_stripped (meta_at c io) = false →
  ∃ x cm o, text_at c io = x ++ o ∧ meta_at c io = chunk_meta x cm o ∧ Forall plain x ∧ Forall plain o ∧ x ≠ [] ∧ str_len x < 256 ∧ str_len o ≤ 4 ∧ own (Z.of_nat k) = flat_map utf8 (lower x) ∧ behind (Z.of_nat k) = flat_map utf8 (lower o).
Proof using Hmt Hov Htexts Hplain Hinv Hw Hcw.
  intros Hk Hws. destruct (final_from c log Hinv Hw k io Hk Hws) as [e (x & cm & o & Et & Em & Hx & Ho & Hne & Hlx & Hlo)%log_parts]. exists x, cm, o. do 7 (split; [done|]).
  unfold own, behind, tok_cut, tok_text, tok_meta. rewrite !Nat2Z.id, !Hk. change (default 0 (Some io)) with io. rewrite Et, Em. destruct (chunk_fields x cm o Hlx Hlo) as [_ ->]. rewrite cut_parts. cbn. split; [done|]. by apply overlap_whole.
Qed.

Lemma app_same_len (x y a b : list Z) : x ++ a = y ++ b → str_len x = str_len y → x = y ∧ a = b.
Proof using. intros E El. pose proof (split_at_app x a) as H1. rewrite E, El, split_at_app in H1. injection H1 as <- <-. done. Qed.

(** The texts of the ordinal at a place. *)
Lemma corpus_texts (i j : nat) text y k : texts !! i = Some text → chunks text !! j = Some y → corpus_at corpus (Z.of_nat i) (Z.of_nat j) = Some k →
  ∃ n io, k = Z.of_nat n ∧ order !! n = Some io ∧ is_word_stripped (meta_at c io) = false ∧ own k = flat_map utf8 (lower y.1) ∧ behind k = flat_map utf8 (lower (overlap_text ov (drop (S j) (chunks text)))).
Proof using Hmt Hov Htexts Hplain Hinv Hw Hcw.
  intros Ht Hy Hc. apply corpus_at_spec in Hc as (i' & j' & text' & y' & Ei & Ej & Ht' & Hy' & ->). assert (i' = i) as -> by lia. assert (j' = j) as -> by lia. rewrite Ht in Ht'. injection Ht' as <-. rewrite Hy in Hy'. injection Hy' as <-.
  set (o := overlap_text ov (drop (S j) (chunks text))). assert (entry_at (Z.of_nat i) 0 ov 0 0 (chunks text) j y ∈ log) as Hin by (apply log_elem; by exists i, j, text, y). unfold entry_at in Hin. fold o in Hin.
  destruct (final_of_spec _ _ _ Hin) as (n & io & -> & Hn & Et & Es). exists n, io. split; [done|]. split; [done|]. assert (is_word_stripped (meta_at c io) = false) as Hws by by rewrite (shape_stripped _ _ Es). split; [done|].
  destruct (chunk_ordinal n io Hn Hws) as (x & cm & o' & Etx & Emx & Hx & Ho & Hne & Hlx & Hlo & -> & ->). rewrite Et in Etx.
  destruct (log_parts _ _ _ Hin) as (x2 & cm2 & o2 & E1 & E2 & _ & _ & _ & Hl2 & Hlo2). destruct y as [yt ym]. cbn [fst snd] in *.
  assert (str_len yt < 256) as Hyt. { destruct (text_chunks i text Ht) as (_ & Hok & _). unfold chunks_ok in Hok. rewrite Forall_lookup in Hok. destruct (Hok j _ Hy) as [(_ & Hl & _) _]. cbn in Hl. lia. }
  rewrite Emx in Es. injection Es as Elen _ _. unfold as_u16 in Elen. rewrite !Z.mod_small in Elen by (pose proof (str_len_nonneg x); pose proof (str_len_nonneg yt); lia).
  destruct (app_same_len yt x o o' Etx) as [-> ->]; [done|]. done.
Qed.

(** The text of the corpus is that of the documents, in lower case. *)
Lemma corpus_text_from (i j : nat) text : texts !! i = Some text → text_from corpus own (Z.of_nat i) (Z.of_nat j) = flat_map utf8 (lower (flat_map fst (drop j (chunks text)))).
Proof using Hmt Hov Htexts Hplain Hinv Hw Hcw.
  intros Ht. destruct (text_chunks i text Ht) as (Etext & _ & _). assert (Forall plain (flat_map fst (chunks text))) as Hp by (rewrite Etext; rewrite Forall_lookup in Hplain; by apply (Hplain i)).
  assert (∀ n j, (length (chunks text) - j)%nat = n → text_from corpus own (Z.of_nat i) (Z.of_nat j) = flat_map utf8 (lower (flat_map fst (drop j (chunks text))))) as H; [|by eapply H].
  clear j. induction n as [|n IH]; intros j Hn.
  - assert (corpus_at corpus (Z.of_nat i) (Z.of_nat j) = None) as Hc. { destruct (corpus_at corpus (Z.of_nat i) (Z.of_nat j)) as [k|] eqn:E; [|done]. apply corpus_at_spec in E as (i' & j' & text' & y & Ei & Ej & Ht' & Hy & _).
      assert (i' = i) as -> by lia. assert (j' = j) as -> by lia. rewrite Ht in Ht'. injection Ht' as <-. apply lookup_lt_Some in Hy. lia. }
    rewrite corpus_at_tokens in Hc by lia. apply lookup_ge_None in Hc. unfold text_from. rewrite drop_ge by done. rewrite drop_ge by lia. cbn. by rewrite (cw_string _ _ _ Hcw).
  - destruct (lookup_lt_is_Some_2 (chunks text) j) as [y Hy]; [lia|].
    assert (corpus_at corpus (Z.of_nat i) (Z.of_nat j) = Some (final_of (y.1 ++ overlap_text ov (drop (S j) (chunks text))) (chunk_meta y.1 y.2 (overlap_text ov (drop (S j) (chunks text)))))) as Hc by (apply corpus_at_spec; by exists i, j, text, y).
    rewrite (text_from_at _ _ _ _ _ Hc). destruct (corpus_texts i j text y _ Ht Hy Hc) as (_ & _ & _ & _ & _ & -> & _). replace (Z.of_nat j + 1) with (Z.of_nat (S j)) by lia. rewrite IH by lia.
    rewrite (drop_S _ _ _ Hy). cbn [flat_map]. assert (Forall plain y.1 ∧ Forall plain (flat_map fst (drop (S j) (chunks text)))) as [H1 H2].
    { rewrite <- (take_drop j (chunks text)), flat_map_app, (drop_S _ _ _ Hy) in Hp. cbn in Hp. rewrite !Forall_app in Hp. tauto. }
    by rewrite (lower_app lower char_lower plain Hcw _ _ H1 H2), flat_map_app.
Qed.

(** The overlap of a chunk is the front of the next one. *)
Lemma behind_next (i j : nat) text y k : texts !! i = Some text → chunks text !! j = Some y → corpus_at corpus (Z.of_nat i) (Z.of_nat j) = Some k →
  match chunks text !! S j with Some z => behind k `prefix_of` flat_map utf8 (lower z.1) | None => behind k = [] end.
Proof using Hmt Hov Htexts Hplain Hinv Hw Hcw.
  intros Ht Hy Hc. destruct (corpus_texts i j text y k Ht Hy Hc) as (_ & _ & _ & _ & _ & _ & ->). destruct (overlap_short i text (S j) Ht) as [_ Hp]. destruct (chunks text !! S j) as [z|] eqn:Ez.
  - assert (Forall plain z.1) as Hz. { destruct (text_chunks i text Ht) as (Et & _). rewrite Forall_lookup in Hplain. specialize (Hplain i text Ht). rewrite <- Et, <- (take_drop (S j) (chunks text)), flat_map_app, (drop_S _ _ _ Ez) in Hplain. cbn in Hplain. rewrite !Forall_app in Hplain. tauto. }
    destruct Hp as [r Er]. rewrite Er in Hz |- *. apply Forall_app in Hz as [H1 H2]. rewrite (lower_app lower char_lower plain Hcw _ _ H1 H2), flat_map_app. by apply prefix_app_r.
  - rewrite Hp, (cw_string _ _ _ Hcw) by constructor. done.
Qed.

Lemma corpus_inv d p k : corpus_at corpus d p = Some k → ∃ (i j : nat) text y, d = Z.of_nat i ∧ p = Z.of_nat j ∧ texts !! i = Some text ∧ chunks text !! j = Some y.
Proof using. intros (i & j & text & y & -> & -> & Ht & Hy & _)%corpus_at_spec. by exists i, j, text, y. Qed.

Lemma corpus_next (i j : nat) text z : texts !! i = Some text → chunks text !! j = Some z → ∃ k, corpus_at corpus (Z.of_nat i) (Z.of_nat j) = Some k.
Proof using. intros Ht Hz. eexists. apply corpus_at_spec. by exists i, j, text, z. Qed.

Context (Hsmall : Forall (λ t, str_len t < 2 ^ 28) texts).

Lemma chunk_log_len doc start cs : ∀ i offset, length (chunk_log doc start ov i offset cs) = length cs.
Proof using. induction cs as [|[x m] cs IH]; intros i offset; [done|]. cbn. by rewrite IH. Qed.

Lemma tokens_count d : #(doc_tokens corpus d) < 2 ^ 28.
Proof using Hmt Htexts Hsmall.
  unfold doc_tokens. destruct (0 <=? d); [|done]. unfold corpus. rewrite list_lookup_fmap. destruct (texts !! Z.to_nat d) as [t|] eqn:Et; [|done]. cbn.
  rewrite len_map. unfold len. rewrite chunk_log_len. rewrite Forall_lookup in Htexts, Hsmall. specialize (Htexts _ _ Et). specialize (Hsmall _ _ Et). cbn in Hsmall. destruct (chunks_of_spec mt t) as (_ & _ & _ & Hle); [lia|done|]. unfold len in Hle. lia.
Qed.

(** ** The search over the files *)

Local Abbreviation tok := (tok_of (calls c)).

Lemma tok_chunk o : tok o ↔ ∃ k io, o = Z.of_nat k ∧ order !! k = Some io ∧ is_word_stripped (meta_at c io) = false.
Proof using Hinv Hw.
  unfold tok_of. setoid_rewrite (token_call c log Hinv Hw). split; [intros (t & w & s & v & ws & k & io & -> & Hk & Hws & _); by exists k, io|].
  intros (k & io & -> & Hk & Hws). by exists (text_at c io), (own_len (meta_at c io)), (sep_len (meta_at c io)), (overlap_len (meta_at c io)), (is_word_start (meta_at c io)), k, io.
Qed.

Lemma own_size x : Forall plain x → x ≠ [] → str_len x < 256 → 0 < #(flat_map utf8 (lower x)) ≤ 255.
Proof using Hcw.
  intros Hx Hne Hl. rewrite (lower_bytes_len lower char_lower plain Hcw) by done. split; [|lia]. destruct x as [|a x]; [done|]. cbn. pose proof (str_len_nonneg x). pose proof (len_utf8_range a). lia.
Qed.

Lemma calls_texts : texts_of lower (calls c) own behind.
Proof using Hmt Hov Htexts Hplain Hinv Hw Hcw.
  intros t o w s v ws (k & io & -> & Hk & Hws & -> & -> & -> & -> & ->)%(token_call c log Hinv Hw). destruct (chunk_ordinal k io Hk Hws) as (x & cm & ovt & Et & Em & Hx & Ho & Hne & Hlx & Hlo & Eown & _).
  unfold own, behind, tok_cut, tok_text, tok_meta in *. rewrite !Nat2Z.id, !Hk in *. change (default 0 (Some io)) with io in *. split; [done|]. split; [done|]. rewrite Eown. pose proof (own_size x Hx Hne Hlx) as Hs. split; [|unfold builder.MAX_CHUNK_BYTES; lia].
  rewrite Em. destruct (chunk_fields x cm ovt Hlx Hlo) as [-> _]. by rewrite (lower_bytes_len lower char_lower plain Hcw).
Qed.

Lemma corpus_tok d p o : corpus_at corpus d p = Some o → tok o ∧ fits 32 o.
Proof using Hmt Hov Htexts Hplain Hinv Hw Hcw Hcount.
  intros Hc. pose proof (corpus_inv _ _ _ Hc) as (i & j & text & y & -> & -> & Ht & Hy). destruct (corpus_texts i j text y o Ht Hy Hc) as (n & io & -> & Hn & Hws & _). split; [apply tok_chunk; by exists n, io|].
  pose proof (order_bound c log Hinv Hw Hcount n io Hn). unfold fits. lia.
Qed.

Lemma corpus_is_ok : corpus_ok corpus tok own behind behind.
Proof using Hmt Hov Htexts Hplain Hinv Hw Hcw Hcount Hsmall.
  split; [exact corpus_tok|intros d; pose proof (tokens_count d); lia|]. intros d p o Hc. split; [done|]. pose proof (corpus_inv _ _ _ Hc) as (i & j & text & y & -> & -> & Ht & Hy). pose proof (behind_next i j text y o Ht Hy Hc) as Hb.
  replace (Z.of_nat j + 1) with (Z.of_nat (S j)) by lia. destruct (chunks text !! S j) as [z|] eqn:Ez; [|rewrite Hb; apply prefix_nil]. destruct (corpus_next i (S j) text z Ht Ez) as [k Hk].
  rewrite (text_from_at _ _ _ _ _ Hk). destruct (corpus_texts i (S j) text z k Ht Ez Hk) as (_ & _ & _ & _ & _ & -> & _). by apply prefix_app_r.
Qed.

(** The text written under a chunk's ordinal. *)
Lemma written_chunk w o : (∀ k io, order !! k = Some io → written c w k io) → tok o →
  ∃ x cm ovt, termtexts.tw_texts w !! Z.to_nat o = Some (flat_map utf8 (x ++ ovt)) ∧ termtexts.tw_metas w !! Z.to_nat o = Some (term_meta (chunk_meta x cm ovt)) ∧
    fits 32 o ∧ Forall plain x ∧ Forall plain ovt ∧ str_len x < 256 ∧ str_len ovt ≤ 4 ∧ 0 < #(own o) ≤ 255 ∧ own o = flat_map utf8 (lower x) ∧ behind o = flat_map utf8 (lower ovt).
Proof using Hmt Hov Htexts Hplain Hinv Hw Hcw Hcount.
  intros Hwr (k & io & -> & Hk & Hws)%tok_chunk. destruct (Hwr k io Hk) as [W1 W2]. destruct (chunk_ordinal k io Hk Hws) as (x & cm & ovt & Et & Em & Hx & Ho & Hne & Hlx & Hlo & Eown & Eb).
  exists x, cm, ovt. pose proof (order_bound c log Hinv Hw Hcount k io Hk). rewrite Nat2Z.id, W1, W2, Et, Em, Eown. split; [done|]. split; [done|]. split; [unfold fits; lia|]. do 4 (split; [done|]). split; [by apply own_size|done].
Qed.

Lemma text_front x ovt o : own o = flat_map utf8 (lower x) → Forall plain x → Forall plain ovt → let s := flat_map utf8 (x ++ ovt) in
  #(own o) = str_len x ∧ #(own o) ≤ #s ∧ take (length (own o)) s = flat_map utf8 x ∧ walk.is_char_boundary s #(own o) = true.
Proof using Hcw.
  intros Eo Hx Ho s. assert (#(own o) = str_len x) as E by by rewrite Eo, (lower_bytes_len lower char_lower plain Hcw). split; [done|]. unfold s. rewrite flat_map_app, len_app. assert (#(own o) = #(flat_map utf8 x)) as E2 by by rewrite E, str_len_bytes.
  pose proof (len_nonneg (flat_map utf8 ovt)). split; [lia|]. split; [|rewrite E2; apply boundary_after, valid_utf8; by eapply plain_chars].
  rewrite take_app_length' by (unfold len in E2; lia). done.
Qed.

Section Served.
Context (dt : SfxCollectorDataV3) (w : termtexts.TermTextsWriterV3) (built : builder.Built) (ctx : composite.BriquesContext) (offsets : orchestrator.Offsets) (tr : composite.Texts).
Context (Hdt : into_data c = Ret dt) (Hwr : ∀ k io, order !! k = Some io → written c w k io).
Context (Hd : dictionary_of (flat_map (call_entries lower (min_suffix_len c)) (calls c)) built) (Hmin : min_suffix_len c ≤ 1).
Context (Hsv : serves dt w built ctx offsets) (Htr : composite.texts ctx = Some tr).

Lemma tr_at o : fits 32 o → composite.text tr o = termtexts.tw_texts w !! Z.to_nat o ∧ composite.meta tr o = termtexts.tw_metas w !! Z.to_nat o.
Proof using Hsv Htr. destruct (sv_texts _ _ _ _ _ Hsv) as (tr' & E & H). rewrite Htr in E. injection E as <-. apply H. Qed.

Lemma served_texts : texts_ok (lower_bytes lower) tok own behind tr.
Proof using Hmt Hov Htexts Hplain Hinv Hw Hcw Hwr Hsv Htr Hcount.
  split. intros o Ht. destruct (written_chunk w o Hwr Ht) as (x & cm & ovt & W1 & W2 & H0 & Hx & Ho & Hlx & Hlo & Hs & Eo & Eb). destruct (tr_at o H0) as [-> ->]. rewrite W1, W2. do 2 eexists. split; [done|]. split; [done|].
  destruct (text_front x ovt o Eo Hx Ho) as (E1 & E2 & E3 & E4). destruct (chunk_fields x cm ovt Hlx Hlo) as [Eown _]. cbn [termtexts.own_len term_meta]. rewrite Eown, E3. split; [done|]. split; [done|]. split; [done|].
  pose proof (plain_chars lower char_lower plain Hcw _ Hx). pose proof (plain_chars lower char_lower plain Hcw _ Ho). rewrite !lower_bytes_utf8 by (done || by apply Forall_app). rewrite Eo, Eb, (lower_app lower char_lower plain Hcw), flat_map_app by done. split; [done|]. split; [done|].
  apply valid_app; apply valid_utf8; by apply (cw_chars _ _ _ Hcw).
Qed.

Lemma served_folds o : tok o → folds_to char_lower own tr o ∧ fits 32 o.
Proof using Hmt Hov Htexts Hplain Hinv Hw Hcw Hwr Hsv Htr Hcount.
  intros Ht. split; [|apply tok_chunk in Ht as (k & io & -> & Hk & _); pose proof (order_bound c log Hinv Hw Hcount k io Hk); unfold fits; lia].
  destruct (written_chunk w o Hwr Ht) as (x & cm & ovt & W1 & W2 & H0 & Hx & Ho & Hlx & Hlo & Hs & Eo & Eb). destruct (tr_at o H0) as [E1 E2]. unfold folds_to. rewrite E1, E2, W1, W2. do 2 eexists. split; [done|]. split; [done|].
  destruct (text_front x ovt o Eo Hx Ho) as (F1 & F2 & F3 & F4). destruct (chunk_fields x cm ovt Hlx Hlo) as [Eown _]. cbn [termtexts.own_len term_meta]. rewrite Eown, F3. split; [apply valid_utf8, Forall_app; split; by eapply plain_chars|].
  do 3 (split; [done|]). split; [done|]. rewrite Eo. by apply (folded_plain lower char_lower plain Hcw).
Qed.

Lemma tok_narrow o : tok o → fits 32 o.
Proof using Hinv Hw Hcount. intros (k & io & -> & Hk & _)%tok_chunk. pose proof (order_bound c log Hinv Hw Hcount k io Hk). unfold fits. lia. Qed.

Lemma served_positions o d p : fits 32 o → (d, p) ∈ resolve.positions (composite.resolver ctx) o ↔ corpus_at corpus d p = Some o.
Proof using Hinv Hw Hdt Hsv. intros Ho. rewrite (sv_postings _ _ _ _ _ Hsv) by done. apply (corpus_postings_spec dt o d p Hdt), Ho. Qed.

Lemma served_context : context_ok (lower_bytes lower) ctx corpus tok own behind behind.
Proof using Hmt Hov Htexts Hplain Hinv Hw Hcw Hwr Hsv Htr Hcount Hdt Hd Hmin Hsmall.
  pose proof (calls_ok c log Hinv Hw log_plain Hcount) as Hok. pose proof (cw_chars _ _ _ Hcw) as Hlc. split.
  - rewrite (sv_reader _ _ _ _ _ Hsv). exists [entries_held built], None. split.
    + apply (built_reader lower Hlc (min_suffix_len c) (calls c) Hok built Hd); [done|done|]. eapply Forall_impl; [exact (calls_limits lower c log Hinv Hw log_plain Hcount (min_suffix_len c))|].
      intros kq Hk. unfold builder.check_parent in Hk. by destruct (Z.ltb_spec builder.MAX_ORDINAL (parents.raw_ordinal kq.2)).
    + apply (built_tokens lower Hlc (min_suffix_len c) (calls c) Hmin Hok own behind calls_texts built Hd).
  - rewrite (sv_reader _ _ _ _ _ Hsv). by intros ?.
  - exact corpus_is_ok.
  - done.
  - apply (sv_laws _ _ _ _ _ Hsv).
  - exact tok_narrow.
  - exact served_positions.
  - intros pm Epm d p. destruct (sv_posmap _ _ _ _ _ Hsv) as (pm' & E & Hpm). rewrite Epm in E. injection E as <-. apply option_eq. intros o. rewrite Hpm. split; [intros [Ho Hin]; by apply served_positions|]. intros Hc. destruct (corpus_tok _ _ _ Hc) as [_ Hof]. split; [done|]. by apply served_positions.
  - intros t Et. rewrite Htr in Et. injection Et as <-. exact served_texts.
  - intros o Ht. destruct (written_chunk w o Hwr Ht) as (x & cm & ovt & _ & _ & _ & _ & _ & _ & _ & Hs & _). lia.
  - intros f Ef o e Ho He. destruct (sv_siblings _ _ _ _ _ Hsv f Ef) as (r & Er & Hf). pose proof (into_data_siblings c dt r o (f o) Hdt Er (Hf o Ho)) as Hall.
    rewrite Forall_forall in Hall. by apply Hall.
Qed.

Lemma served_len o : tok o → termtexts.own_len <$> composite.meta tr o = Some #(own o).
Proof using Hmt Hov Htexts Hplain Hinv Hw Hcw Hwr Hsv Htr Hcount. intros Ht. destruct (served_folds o Ht) as [(s & m & _ & -> & _ & E & _) _]. cbn. by rewrite E. Qed.

Lemma doc_text_of (i : nat) text : texts !! i = Some text → doc_text corpus own (Z.of_nat i) = flat_map utf8 (lower text).
Proof using Hmt Hov Htexts Hplain Hinv Hw Hcw. intros Ht. unfold doc_text. change 0 with (Z.of_nat 0). rewrite (corpus_text_from i 0 text Ht). destruct (text_chunks i text Ht) as (E & _). by rewrite drop_0, E. Qed.

Lemma doc_text_none d : d < 0 ∨ #texts ≤ d → doc_text corpus own d = [].
Proof using.
  intros Hr. unfold doc_text, text_from, doc_tokens. destruct (Z.leb_spec 0 d); [|done]. unfold corpus. rewrite list_lookup_fmap, lookup_ge_None_2 by (unfold len in Hr; lia). done.
Qed.

Lemma doc_text_size d : #(doc_text corpus own d) < 2 ^ 28.
Proof using Hmt Hov Htexts Hplain Hinv Hw Hcw Hsmall.
  destruct (decide (0 ≤ d < #texts)) as [Hr|Hr]; [|rewrite doc_text_none by lia; done]. destruct (lookup_lt_is_Some_2 texts (Z.to_nat d)) as [t Ht]; [unfold len in Hr; lia|].
  pose proof (doc_text_of _ _ Ht) as E. rewrite Z2Nat.id in E by lia. rewrite E. rewrite Forall_lookup in Hplain, Hsmall. rewrite (lower_bytes_len lower char_lower plain Hcw) by by eapply Hplain. by eapply Hsmall.
Qed.

Lemma served_places d p o : corpus_at corpus d p = Some o → orchestrator.byte_at ctx offsets d p = Some #(before corpus own d p).
Proof using Hmt Hov Htexts Hplain Hinv Hw Hcw Hwr Hsv Htr Hcount Hdt Hsmall.
  intros Hc. unfold orchestrator.byte_at. destruct (sv_posmap _ _ _ _ _ Hsv) as (pm & -> & _). destruct (sv_offsets _ _ _ _ _ Hsv) as (f & -> & Hf). rewrite Htr. pose proof (corpus_at_range _ _ _ _ Hc) as [Hp Ho].
  set (os := take (Z.to_nat p) (doc_tokens corpus d)). assert (p = #os) as Ep by (unfold os; rewrite len_take; lia). assert (∀ j o', (os ++ [o]) !! j = Some o' → corpus_at corpus d (Z.of_nat j) = Some o') as Hall.
  { intros j o' Hj. rewrite corpus_at_tokens, Nat2Z.id by lia. apply lookup_app_Some in Hj as [Hj|[Hle Hj]]; [by apply lookup_take_Some in Hj as [? _]|].
    apply list_lookup_singleton_Some in Hj as [Hz <-]. unfold len in Ep. by replace j with (Z.to_nat p) by lia. }
  rewrite Ep at 1. rewrite (Hf d os o). 2:{ intros o' Ho'. by destruct (tr_at o' Ho') as [_ ->]. } 2:{ intros j o' Hj%Hall. destruct (corpus_tok _ _ _ Hj) as [Ht Hof]. split; [done|]. split; [by apply served_positions|]. rewrite (served_len o' Ht). done. }
  assert (foldr (λ o n, default 0 (termtexts.own_len <$> composite.meta tr o) + n) 0 os = #(concat (map own os))) as ->.
  { assert (Forall tok os) as Htok by (apply Forall_lookup; intros j o' Hj; eapply corpus_tok, (Hall j); by apply lookup_app_l_Some). clear Ep Hall. induction Htok as [|o' os' Ht _ IH]; [done|]. cbn [foldr map concat]. rewrite len_app, <- IH, (served_len o' Ht). done. }
  f_equal. apply Z.mod_small. change (concat (map own os)) with (before corpus own d p). pose proof (before_size corpus own d p). pose proof (doc_text_size d). pose proof (len_nonneg (before corpus own d p)). lia.
Qed.

Lemma served_spans : spans_ok char_lower ctx offsets corpus tok own behind tr.
Proof using Hmt Hov Htexts Hplain Hinv Hw Hcw Hwr Hsv Htr Hcount Hdt Hsmall.
  split.
  - by destruct (sv_posmap _ _ _ _ _ Hsv) as (pm & -> & _).
  - done.
  - apply (cw_some _ _ _ Hcw).
  - exact served_folds.
  - exact served_places.
  - intros d. pose proof (doc_text_size d). lia.
  - intros d p o o' H1 H2. pose proof (corpus_inv _ _ _ H1) as (i & j & text & y & -> & -> & Ht & Hy). pose proof (behind_next i j text y o Ht Hy H1) as Hb. replace (Z.of_nat j + 1) with (Z.of_nat (S j)) in H2 by lia.
    destruct (chunks text !! S j) as [z|] eqn:Ez; [|rewrite Hb, len_nil; apply len_nonneg]. destruct (corpus_texts i (S j) text z o' Ht Ez H2) as (_ & _ & _ & _ & _ & -> & _). apply prefix_length in Hb. unfold len. lia.
Qed.
End Served.
End Index.
