(* ===== verification/CollectorSearch.v ===== *)
(** * What is indexed is found

    The collector, the dictionary builder and the search, composed: the files
    written from the documents a collector was given, searched by
    [contains_v3], answer where a query occurs in the documents. *)
From stdpp Require Import gmap.
From S2P Require Import Prelude Ordering DocFilter SiblingTable TermTexts WordSfxPost WordPosMap ParentRecord Text EqualChunk SuffixBuilder SuffixBuild SuffixBuildProofs FstWalk WalkProofs Utf8 Resolve PostingSource ResolveProofs Chains FindLiteral ChainProofs Occurrences SiblingChains LiteralSearch BuiltIndex Literal Contains ContainsSearch Collector CollectorProofs CollectorData CollectorCalls CollectorIndex.
Import text source collector.
Open Scope Z_scope.
#[local] Existing Instance word_sfxpost.WordPostingEntry_eq_dec.

(** ** The assertions of [into_data] *)

(** The writers [into_data] fills, and the bytes they assert to be addressed
    by a [u32]. *)
Definition word_writer (c : SfxCollectorV3) : word_sfxpost.WordSfxPostWriter :=
  foldl (λ w '(ord, (doc, first, last, bf, bt, tail_off)),
      word_sfxpost.add w ord {| word_sfxpost.doc_id := doc; word_sfxpost.first_position := first; word_sfxpost.last_position := last;
                                word_sfxpost.byte_from := bf; word_sfxpost.byte_to := bt; word_sfxpost.tail_off := tail_off |})
    (if positions c then word_sfxpost.new #(order_of c) else word_sfxpost.docs_only #(order_of c)) (word_events c (finals c) (order_of c)).
Definition sibling_writer (c : SfxCollectorV3) : sibling_table.SiblingTableWriter :=
  foldl (λ w '(a, b), sibling_table.add w (default 0 (finals c !! Z.to_nat a)) (default 0 (finals c !! Z.to_nat b)) 0) (sibling_table.new #(order_of c)) (sibling_pairs c).
Definition word_bytes (w : word_sfxpost.WordSfxPostWriter) : list Z :=
  snd (fold_left (λ st es,
      let '(offsets, entries_data) := st in
      (offsets ++ [as_u32 #entries_data],
       if word_sfxpost.ww_docs_only w then word_sfxpost.encode_docs_block_into entries_data es
       else word_sfxpost.encode_block_into entries_data es (word_sfxpost.ww_spans w)))
    (map (λ es, dedup (sort_by word_sfxpost.word_key es)) (word_sfxpost.ww_entries w)) ([], [])).
Definition sibling_bytes (w : sibling_table.SiblingTableWriter) : list Z :=
  let pairs := dedup (sort_by sibling_table.pair_key (sibling_table.sw_pairs w)) in
  snd (fst (fold_left (sibling_table.write_ordinal (existsb (λ p, negb (snd p =? 0)) pairs)) (range 0 (sibling_table.sw_num_ordinals w)) ([], [], pairs))).
Definition files_fit (c : SfxCollectorV3) : bool := (#(word_bytes (word_writer c)) <=? u32_max) && (#(sibling_bytes (sibling_writer c)) <=? u32_max).

Lemma finish_returns w : #(word_bytes w) ≤ u32_max → ∃ bytes, word_sfxpost.finish w = Ret bytes.
Proof.
  unfold word_bytes, word_sfxpost.finish. destruct (fold_left _ _ _) as [offs data]. cbn. intros H. unfold assert_. replace (_ <=? _) with true by lia. by eexists.
Qed.

Lemma serialize_returns w : #(sibling_bytes w) ≤ u32_max → ∃ bw, sibling_table.serialize w = Ret bw.
Proof.
  unfold sibling_bytes, sibling_table.serialize. destruct (fold_left _ _ _) as [[offs data] rest]. cbn. intros H. unfold assert_. replace (_ <=? _) with true by lia. by eexists.
Qed.

Lemma into_data_returns c : files_fit c = true → ∃ dt, into_data c = Ret dt.
Proof.
  intros [H1%Z.leb_le H2%Z.leb_le]%andb_true_iff. destruct (finish_returns _ H1) as [bytes E1], (serialize_returns _ H2) as [[b w'] E2]. unfold into_data. cbv zeta.
  fold (finals c). fold (word_writer c). fold (sibling_writer c). rewrite E1, bind_ret. destruct (positions c); [rewrite E2|]; rewrite !bind_ret; by eexists.
Qed.

(** ** The documents *)

(** The string occurs in the text from byte [i] on. *)
Definition occurs_in (q text : list Z) (i : Z) : Prop := 0 ≤ i ∧ q `prefix_of` drop (Z.to_nat i) text.
(** Bytes [i] to [j] of the text lie within nine consecutive chunks of it. *)
Definition within_nine_chunks (mt : Z) (text : list Z) (i j : Z) : Prop :=
  ∃ p : nat, str_len (flat_map fst (take p (chunks_of mt text))) ≤ i ∧ j ≤ str_len (flat_map fst (take (p + 9) (chunks_of mt text))).

Lemma texts_small texts : docs_weight (one_value texts) < 2 ^ 28 → Forall (λ t, str_len t < 2 ^ 28) texts.
Proof.
  induction texts as [|t ts IH]; intros H; [constructor|]. assert (docs_weight (one_value (t :: ts)) = doc_weight [t] + 1 + docs_weight (one_value ts)) as E by done. pose proof (docs_weight_nonneg (one_value ts)). pose proof (str_len_nonneg t). unfold doc_weight in E. cbn [foldr] in E. constructor; [lia|apply IH; lia].
Qed.

Section Found.
Context (mt ov : Z) (texts : list (list Z)) (Hmt : 1 ≤ mt ≤ 252) (Hov : 0 ≤ ov ≤ 4) (Htexts : Forall (Forall is_char) texts).
Context (c : SfxCollectorV3) (Hinv : tokens_inv c (docs_log mt ov 0 (one_value texts))) (Hw : words_inv none c).
Context (lower : list Z → list Z) (char_lower : Z → list Z) (plain : Z → Prop) (Hcw : char_wise lower char_lower plain) (Hplain : Forall (Forall plain) texts).
Local Abbreviation corpus := (corpus mt ov texts c).
Local Abbreviation own := (own c lower).

Lemma before_chunks (i p : nat) text : texts !! i = Some text → #(before corpus own (Z.of_nat i) (Z.of_nat p)) = str_len (flat_map fst (take p (chunks_of mt text))).
Proof using Hmt Hov Htexts Hinv Hw Hcw Hplain.
  intros Ht. pose proof (before_text corpus own (Z.of_nat i) (Z.of_nat p)) as E. rewrite (doc_text_of mt ov texts Hmt Hov Htexts c Hinv Hw lower char_lower plain Hcw Hplain i text Ht) in E.
  rewrite (corpus_text_from mt ov texts Hmt Hov Htexts c Hinv Hw lower char_lower plain Hcw Hplain i p text Ht) in E. destruct (text_chunks mt texts Hmt Htexts i text Ht) as (Et & _).
  rewrite Forall_lookup in Hplain. specialize (Hplain i text Ht). apply (f_equal len) in E. rewrite len_app, (lower_bytes_len lower char_lower plain Hcw) in E by done.
  rewrite <- Et, <- (take_drop p (chunks_of mt text)), flat_map_app in Hplain. apply Forall_app in Hplain as [_ Hd]. rewrite (lower_bytes_len lower char_lower plain Hcw) in E by done.
  rewrite <- Et in E at 1. rewrite <- (take_drop p (chunks_of mt text)) in E at 1. rewrite flat_map_app, str_len_app in E. lia.
Qed.

Lemma in_text_found q d i : q ≠ [] → in_text corpus own q d i → ∃ text, 0 ≤ d ∧ texts !! Z.to_nat d = Some text ∧ occurs_in q (flat_map utf8 (lower text)) i.
Proof using Hmt Hov Htexts Hinv Hw Hcw Hplain.
  intros Hne [Hi Hpre]. destruct (decide (0 ≤ d < #texts)) as [Hr|Hr].
  - destruct (lookup_lt_is_Some_2 texts (Z.to_nat d)) as [t Ht]; [unfold len in Hr; lia|]. exists t. split; [lia|]. split; [done|]. split; [done|].
    pose proof (doc_text_of mt ov texts Hmt Hov Htexts c Hinv Hw lower char_lower plain Hcw Hplain _ t Ht) as E. rewrite Z2Nat.id in E by lia. by rewrite E in Hpre.
  - rewrite doc_text_none in Hpre by lia. rewrite drop_nil in Hpre. by apply prefix_nil_inv in Hpre.
Qed.

Lemma found_in_text q (i : nat) text at_ : texts !! i = Some text → occurs_in q (flat_map utf8 (lower text)) at_ → in_text corpus own q (Z.of_nat i) at_.
Proof using Hmt Hov Htexts Hinv Hw Hcw Hplain.
  intros Ht [H0 Hp]. split; [done|]. by rewrite (doc_text_of mt ov texts Hmt Hov Htexts c Hinv Hw lower char_lower plain Hcw Hplain i text Ht).
Qed.

Lemma nine_within (i : nat) text a b : texts !! i = Some text → within_nine_chunks mt text a b → within_nine corpus own (Z.of_nat i) a b.
Proof using Hmt Hov Htexts Hinv Hw Hcw Hplain.
  intros Ht (p & Ha & Hb). exists (Z.of_nat p). split; [lia|]. replace (Z.of_nat p + 9) with (Z.of_nat (p + 9)) by lia. by rewrite !(before_chunks _ _ _ Ht).
Qed.
End Found.

(** C1. What is indexed is found.  A collector with chunks of at most [mt]
    bytes takes documents of characters whose lower case keeps their width,
    up to a total size.  Unless one of the two assertions on file sizes fails,
    its data is handed over, the texts and the dictionary are written from it
    and, when the keys take less than 2^32 bytes, the dictionary is built.
    Over any files that answer for this data, with its sibling table or
    without, and for a query of such characters, of 1 to 2048 bytes,
    [contains_v3] with strict separators returns, from some number of turns
    on and at any cap.  Each of its matches is in a document the filter keeps
    and starts where the lower case of the query occurs in that of the
    document, no span is there twice, and without a sibling table every span
    is that of an occurrence.  From some cap on, every occurrence within nine
    consecutive chunks is among the spans, with exactly its bytes, and so is
    the occurrence a match starts at: a match with another end, which a
    sibling table can give, is always a second one. *)
Theorem indexed_then_found (lower : list Z → list Z) (char_lower : Z → list Z) (plain : Z → Prop) (iter : gmap (list Z) (list nat) → list (list Z * list nat))
    {F : Type} `{!DocFilter F} `{!DocFilterLaws F} (filter_docs : option F) (mt ov min : Z) (texts : list (list Z)) (query : list Z) :
  char_wise lower char_lower plain → (∀ g, iter g ≡ₚ map_to_list g) → 1 ≤ mt ≤ 252 → 0 ≤ ov ≤ 4 → min ≤ 1 →
  Forall (Forall plain) texts → docs_weight (one_value texts) < 2 ^ 28 → Forall plain query → 0 < str_len query ≤ 2048 →
  ∃ c, collect (with_config mt ov min) (one_value texts) = Ret c ∧
    (files_fit c = true → ∃ dt w b, into_data c = Ret dt ∧ from_collector_v3 dt = Ret w ∧ fill_fst lower dt = Ret b ∧
      (#(builder.key_buf b) < 2 ^ 32 → ∃ built, builder.build b = Ret (builder.Ok built) ∧
        ∀ ctx offsets, serves dt w built ctx offsets →
        let q := flat_map utf8 (lower query) in
        ∃ n K, ∀ fuel cap, (n ≤ fuel)%nat → 0 ≤ cap →
        ∃ ms, orchestrator.contains_strict char_lower ctx offsets cap (lower_bytes lower) iter fuel filter_docs (flat_map utf8 query) false false = Ret ms ∧
          NoDup (map (λ m, (resolve.doc_id m, resolve.byte_from m, resolve.byte_to m)) ms) ∧
          (∀ m, m ∈ ms → keeps filter_docs (resolve.doc_id m) ∧ resolve.byte_from m ≤ resolve.byte_to m ∧ (composite.sibling_v3 ctx = None → resolve.byte_to m = resolve.byte_from m + #q) ∧
             (K ≤ cap → ∃ m', m' ∈ ms ∧ resolve.doc_id m' = resolve.doc_id m ∧ resolve.byte_from m' = resolve.byte_from m ∧ resolve.byte_to m' = resolve.byte_from m + #q) ∧
             ∃ text, 0 ≤ resolve.doc_id m ∧ texts !! Z.to_nat (resolve.doc_id m) = Some text ∧ occurs_in q (flat_map utf8 (lower text)) (resolve.byte_from m)) ∧
          (K ≤ cap → ∀ (d : nat) text i, texts !! d = Some text → occurs_in q (flat_map utf8 (lower text)) i → within_nine_chunks mt text i (i + #q) → keeps filter_docs (Z.of_nat d) →
             ∃ m, m ∈ ms ∧ resolve.doc_id m = Z.of_nat d ∧ resolve.byte_from m = i ∧ resolve.byte_to m = i + #q))).
Proof.
  intros Hcw Hiter Hmt Hov Hmin Hplain Hweight Hquery Hq.
  assert (Forall (Forall is_char) texts) as Htexts by (eapply Forall_impl; [exact Hplain|]; by apply (plain_chars lower char_lower plain Hcw)). pose proof (docs_weight_nonneg (one_value texts)) as H0.
  destruct (collect_docs_spec (one_value texts) (with_config mt ov min) []) as (c & Ec & (Hinv & Hw & _) & Es & _ & Hsize); [apply collector_start; lia|apply Forall_map; eapply Forall_impl; [exact Htexts|]; intros t Ht; apply Forall_singleton; exact Ht|change (0 + docs_weight (one_value texts) < 2 ^ 32); lia|done|change (0 + docs_weight (one_value texts) < 2 ^ 32); lia|].
  change (#(token_texts c) ≤ 0 + docs_weight (one_value texts)) in Hsize. change (tokens_inv c (docs_log mt ov 0 (one_value texts))) in Hinv. unfold settings in Es. injection Es as _ _ Emin. cbn in Emin. assert (#(token_texts c) < 2 ^ 28) as Hcount by lia. exists c. split; [done|].
  intros Hfit. destruct (into_data_returns c Hfit) as [dt Edt]. destruct (from_collector_spec c _ Hinv Hw dt Edt) as (w & Ew & Hwr). pose proof (log_plain mt ov texts Hmt Hov Htexts) as Hlp.
  pose proof (calls_ok c _ Hinv Hw Hlp Hcount) as Hok. destruct (calls_builder lower (cw_chars _ _ _ Hcw) (min_suffix_len c) (calls c) Hok) as (b & Eb & _). exists dt, w, b.
  rewrite (fill_fst_calls lower c _ Hinv Hw dt Edt). do 3 (split; [done|]). intros Hlt.
  destruct (calls_dictionary lower (cw_chars _ _ _ Hcw) (min_suffix_len c) (calls c) b Hok Eb Hlt (calls_limits lower c _ Hinv Hw Hlp Hcount _)) as (built & Ebuilt & Hd). exists built. split; [done|].
  intros ctx offsets Hsv q. pose proof (texts_small texts Hweight) as Hsmall. destruct (sv_texts _ _ _ _ _ Hsv) as (tr & Htr & _).
  assert (min_suffix_len c ≤ 1) as Hmin' by lia. set (docs := corpus mt ov texts c).
  pose proof (served_context mt ov texts Hmt Hov Htexts c Hinv Hw Hcount lower char_lower plain Hcw Hplain Hsmall dt w built ctx offsets tr Edt Hwr Hd Hmin' Hsv Htr) as Hctx.
  pose proof (served_spans mt ov texts Hmt Hov Htexts c Hinv Hw Hcount lower char_lower plain Hcw Hplain Hsmall dt w built ctx offsets tr Edt Hwr Hsv Htr) as Hsp.
  assert (lower_bytes lower (flat_map utf8 query) = q) as Eq by (apply lower_bytes_utf8; by eapply plain_chars). assert (#q = str_len query) as Elen by by apply (lower_bytes_len lower char_lower plain Hcw).
  destruct (contains_search (lower_bytes lower) char_lower iter filter_docs ctx offsets docs (tok_of (calls c)) (own c lower) (behind c lower) (behind c lower) tr (flat_map utf8 query)) as (n & K & H);
    [done|exact Hctx|exact Hsp|by apply (plain_lower_ok lower char_lower plain Hcw)|rewrite Eq; by apply (folded_plain lower char_lower plain Hcw)|rewrite Eq, str_len_bytes; done|rewrite str_len_bytes; done|].
  rewrite Eq in H. exists n, K. intros fuel cap Hf Hcap. destruct (H fuel cap Hf Hcap) as (ms & Ems & Hnd & Hsound & Hcomp). exists ms. split; [done|]. split; [done|]. split.
  - intros m (Hk & Hin & Hle & Et & Hex)%Hsound. do 4 (split; [done|]). eapply in_text_found; try done. intros Enil. rewrite Enil, len_nil in Elen. lia.
  - intros HK d text i Ht Hocc Hnine Hk. apply (Hcomp HK); [|by eapply nine_within|done]. by eapply found_in_text.
Qed.
