(* ===== verification/CollectorFiles.v ===== *)
(** * The files of an index of documents

    The posting file and the position map written from the collector's data,
    opened, are files the search can be served from; a small index of them. *)
From stdpp Require Import gmap.
From S2P Require Import Prelude Ordering DocFilter SfxPost SfxPostBlock SfxPostFile PosMap SiblingTable TermTexts WordSfxPost WordPosMap ParentRecord Text EqualChunk SuffixBuilder SuffixBuild SuffixBuildProofs FstWalk WalkProofs Utf8 Resolve PostingSource ResolveProofs Chains FindLiteral ChainProofs Occurrences SiblingChains LiteralSearch BuiltIndex Literal Contains ContainsSearch ContainsFiles Collector CollectorProofs CollectorData CollectorCalls CollectorIndex CollectorSearch.
Import text source collector.
Open Scope Z_scope.

(** ** The posting file *)

(** What [BuildSfxPostV3Node] adds. *)
Definition postings_added (dt : SfxCollectorDataV3) : list (Z * sfxpost.entry) :=
  map (λ '(ord, (d, ti)), (ord, (d, ti, 0, 0))) (concat (imap (λ ord postings, map (λ p, (Z.of_nat ord, p)) postings) (content_postings dt))).

Lemma fill_sfxpost_added dt : dt_positions dt = true → fill_sfxpost dt = add_all (sfxpost.positions_only (num_content_ords dt)) (postings_added dt).
Proof.
  intros Hp. unfold fill_sfxpost, postings_added. rewrite Hp. generalize (sfxpost.positions_only (num_content_ords dt)). generalize (concat (imap (λ ord postings, map (λ p, (Z.of_nat ord, p)) postings) (content_postings dt))).
  induction l as [|[ord [d ti]] l IH]; intros w; [done|]. cbn. by rewrite IH.
Qed.

Lemma postings_added_elem dt o d ti : (o, (d, ti, 0, 0)) ∈ postings_added dt ↔ 0 ≤ o ∧ ∃ ps, content_postings dt !! Z.to_nat o = Some ps ∧ (d, ti) ∈ ps.
Proof.
  unfold postings_added. rewrite list_elem_of_In, in_map_iff. split.
  - intros ([ord [d' ti']] & [= -> -> ->] & Hin%list_elem_of_In). apply elem_concat_imap in Hin as (i & ps & Hi & Hin). apply list_elem_of_In, in_map_iff in Hin as (p & [= <- ->] & Hin%list_elem_of_In). split; [lia|]. exists ps. by rewrite Nat2Z.id.
  - intros (Ho & ps & Hps & Hin). exists (o, (d, ti)). split; [done|]. apply list_elem_of_In, elem_concat_imap. exists (Z.to_nat o), ps. split; [done|]. apply list_elem_of_In, in_map_iff. exists (d, ti). rewrite Z2Nat.id by done. split; [done|by apply list_elem_of_In].
Qed.

(** The posting file of the data, opened, answers with its postings. *)
Lemma posting_file_serves dt : dt_positions dt = true → num_content_ords dt = #(content_postings dt) → posts_ok (fill_sfxpost dt) →
  ∃ bytes r, sfxpost.finish (fill_sfxpost dt) = Ret bytes ∧ sfxpost.open bytes = Ret r ∧ resolve.ResolverLaws (resolver_of r) ∧
    ∀ o d p, fits 32 o → (d, p) ∈ resolve.positions (resolver_of r) o ↔ ∃ ps, content_postings dt !! Z.to_nat o = Some ps ∧ (d, p) ∈ ps.
Proof.
  intros Hp Hn Hok. pose proof (fill_sfxpost_added dt Hp) as E. destruct (written_resolver (fill_sfxpost dt) Hok) as (bytes & r & Ef & Eo & Hlaws & Hsome & Hnone); [rewrite E; by destruct (add_all_flags (sfxpost.positions_only (num_content_ords dt)) (postings_added dt)) as (_ & -> & _)|].
  exists bytes, r. split; [done|]. split; [done|]. split; [done|]. intros o d p Ho.
  assert (∀ a, a ∈ postings_added dt → 0 ≤ a.1 ∧ ∃ d ti, a.2 = (d, ti, 0, 0)) as Hadds.
  { intros a Ha. unfold postings_added in Ha. apply list_elem_of_In, in_map_iff in Ha as ([ord [d' ti']] & <- & Hin%list_elem_of_In). split; [|by eexists _, _].
    apply elem_concat_imap in Hin as (i & ps & _ & Hin). apply list_elem_of_In, in_map_iff in Hin as (q & [= <- _] & _). cbn. lia. }
  destruct (decide (Z.to_nat o < length (content_postings dt))%nat) as [Hlt|Hge].
  - assert (pw_lookup : sfxpost.pw_ordinals (fill_sfxpost dt) !! Z.to_nat o = Some (added false o (postings_added dt))).
    { rewrite E, (add_all_lookup _ _ _ []); [rewrite Z2Nat.id by apply Ho; done| |cbn; apply lookup_replicate; unfold len in Hn; split; [done|lia]]. apply Forall_forall. intros a Ha. by apply Hadds. }
    rewrite (Hsome o _ Ho pw_lookup), list_elem_of_In, in_map_iff. setoid_rewrite <- list_elem_of_In. setoid_rewrite elem_of_sort_by. unfold added. split.
    + intros (e & [= <- <-] & He). apply list_elem_of_In, in_map_iff in He as (a & <- & [Ha Hao%Z.eqb_eq]%filter_In). apply list_elem_of_In in Ha. destruct (Hadds a Ha) as (_ & d & ti & Ea). destruct a as [o' e]. cbn in *. subst o' e. cbn. by apply postings_added_elem in Ha as [_ ?].
    + intros Hps. exists (d, p, 0, 0). split; [done|]. apply list_elem_of_In, in_map_iff. exists (o, (d, p, 0, 0)). split; [done|]. apply filter_In. split; [|by apply Z.eqb_eq]. apply list_elem_of_In, postings_added_elem. split; [apply Ho|done].
  - rewrite (Hnone o Ho). 2:{ apply lookup_ge_None. rewrite E. destruct (add_all_flags (sfxpost.positions_only (num_content_ords dt)) (postings_added dt)) as (_ & _ & ->). cbn. rewrite length_replicate. unfold len in Hn. lia. }
    split; [intros []%elem_of_nil|]. intros (ps & Hps & _). apply lookup_lt_Some in Hps. lia.
Qed.

(** ** The context of the files *)

Definition texts_from (w : termtexts.TermTextsWriterV3) : composite.Texts := {| composite.text o := termtexts.tw_texts w !! Z.to_nat o; composite.meta o := termtexts.tw_metas w !! Z.to_nat o |}.
Definition lens_of (w : termtexts.TermTextsWriterV3) (o : Z) : option Z := termtexts.own_len <$> termtexts.tw_metas w !! Z.to_nat o.
Definition value_or {A} (d : A) (m : out A) : A := match m with Ret a => a | _ => d end.
Definition files_ctx (w : termtexts.TermTextsWriterV3) (built : builder.Built) (r : sfxpost.SfxPostReaderV2) (pm : posmap.PosMapReader) (sib : sibling_table.SiblingTableReader) : composite.BriquesContext := {|
  composite.reader := plain_reader built; composite.resolver := resolver_of r; composite.posmap := Some (file_ordinal_at pm); composite.texts := Some (texts_from w);
  composite.sibling_v3 := Some (λ o, value_or [] (sibling_table.siblings sib o));
|}.

Section Files.
Context (dt : SfxCollectorDataV3) (w : termtexts.TermTextsWriterV3) (built : builder.Built) (r : sfxpost.SfxPostReaderV2) (docs : list (list Z)).
Context (sib : sibling_table.SiblingTableReader) (Hsib : sibling_table.open (sibling_v3 dt) = Ret sib) (Hsibs : ∀ o, fits 32 o → ∃ es, sibling_table.siblings sib o = Ret es).
Context (Hlaws : resolve.ResolverLaws (resolver_of r)).
Context (Hpost : ∀ o d p, fits 32 o → (d, p) ∈ resolve.positions (resolver_of r) o ↔ ∃ ps, content_postings dt !! Z.to_nat o = Some ps ∧ (d, p) ∈ ps).
(** The position map was written with the same postings and the lengths of the
    texts. *)
Context (Hdocs : ∀ o d p, corpus_at docs d p = Some o ↔ fits 32 o ∧ ∃ ps, content_postings dt !! Z.to_nat o = Some ps ∧ (d, p) ∈ ps).
Context (Hok : docs_ok docs) (Hnarrow : posmap.narrow docs = true).
Context (Hlens : ∀ d p o, corpus_at docs d p = Some o → o ≠ posmap.EMPTY ∧ ∃ n, lens_of w o = Some n ∧ 0 ≤ n).
Local Abbreviation pm := (PosMap.reader_of docs (Some (lens_of w)) None).

(** As many bytes as the token has. *)
Definition blank (o : Z) : list Z := replicate (Z.to_nat (default 0 (lens_of w o))) 0.
Context (Hsizes : ∀ d, #(doc_text docs blank d) < 2 ^ 32).

Lemma blank_lens d p o : corpus_at docs d p = Some o → o ≠ posmap.EMPTY ∧ lens_of w o = Some #(blank o).
Proof using Hlens. intros (He & n & E & Hn)%Hlens. split; [done|]. unfold blank. rewrite E. cbn. unfold len. rewrite length_replicate. f_equal. lia. Qed.

Lemma files_serve : serves dt w built (files_ctx w built r pm sib) (file_offsets pm).
Proof using Hsib Hsibs Hlaws Hpost Hdocs Hok Hnarrow Hlens Hsizes.
  split; cbn [composite.reader composite.resolver composite.posmap composite.texts composite.sibling_v3 files_ctx].
  - done.
  - exact Hlaws.
  - exact Hpost.
  - eexists. split; [done|]. intros d p o. rewrite (file_posmap docs blank (lens_of w) Hok blank_lens), Hdocs. split; intros [Ho H]; (split; [done|]); by apply Hpost.
  - eexists. split; [done|]. done.
  - eexists. split; [done|]. intros d os o lens Hl Hall.
    assert (∀ j o', (os ++ [o]) !! j = Some o' → corpus_at docs d (Z.of_nat j) = Some o') as Hat by (intros j o' (Hf & Hin & _)%Hall; apply Hdocs; split; [done|by apply Hpost]).
    assert (corpus_at docs d #os = Some o) as Ho by (apply (Hat (length os)); by apply list_lookup_middle).
    cbn beta. assert ((0 <=? d) && (0 <=? #os) = true) as -> by (unfold corpus_at in Ho; by destruct (_ && _)).
    rewrite (file_places docs blank (lens_of w) Hok Hnarrow blank_lens d #os o lens Ho (Hsizes d)) by (intros d' p' o' Hc; apply Hdocs in Hc as [Hf _]; by apply Hl). f_equal.
    assert (os = take (Z.to_nat #os) (doc_tokens docs d)) as Eos.
    { apply list_eq. intros j. rewrite len_to_nat. destruct (decide (j < length os)%nat) as [Hj|Hj]; [|by rewrite lookup_take_ge, lookup_ge_None_2 by lia].
      destruct (lookup_lt_is_Some_2 os j Hj) as [o' Ho']. assert (corpus_at docs d (Z.of_nat j) = Some o') as Hc by (apply Hat; by apply lookup_app_l_Some). rewrite corpus_at_tokens, Nat2Z.id in Hc by lia. by rewrite lookup_take_lt, Ho', Hc. }
    assert (foldr (λ o n, default 0 (lens o) + n) 0 os = #(before docs blank d #os)) as ->.
    { unfold before. rewrite <- Eos. assert (∀ o', o' ∈ os → lens o' = Some #(blank o')) as Hb. { intros o' [j Hj]%list_elem_of_lookup. assert (corpus_at docs d (Z.of_nat j) = Some o') as Hc by (apply Hat; by apply lookup_app_l_Some). destruct (blank_lens _ _ _ Hc) as [_ <-]. apply Hdocs in Hc as [Hf _]. by apply Hl. }
      clear -Hb. induction os as [|o' os IH]; [done|]. cbn [foldr map concat]. rewrite len_app, IH by (intros x Hx; apply Hb; by right). by rewrite (Hb o') by by left. }
    symmetry. apply Z.mod_small. pose proof (before_size docs blank d #os). pose proof (Hsizes d). pose proof (len_nonneg (before docs blank d #os)). lia.
  - intros f [= <-]. exists sib. split; [done|]. intros o Ho. by destruct (Hsibs o Ho) as [es ->].
Qed.
End Files.

(** ** A small index *)

Definition ascii (c : Z) : Prop := 0 ≤ c < 128.
Definition lower_char (c : Z) : list Z := [resolve.ascii_lower c].
Definition lower_ascii (s : list Z) : list Z := map resolve.ascii_lower s.

Lemma ascii_char_wise : char_wise lower_ascii lower_char ascii.
Proof.
  assert (∀ c, is_char c → is_char (resolve.ascii_lower c)) as Hc by (intros c Hc; unfold resolve.ascii_lower; destruct ((65 <=? c) && (c <=? 90)) eqn:E; [apply andb_true_iff in E as [? ?]; unfold is_char in *; lia|done]).
  split.
  - intros s Hs. apply Forall_map. eapply Forall_impl; [exact Hs|]. exact Hc.
  - done.
  - done.
  - intros c Hr. unfold ascii in Hr. split; [unfold is_char; lia|]. unfold lower_char, resolve.ascii_lower. destruct ((65 <=? c) && (c <=? 90)) eqn:E.
    + apply andb_true_iff in E as [? ?]. split; [cbn; unfold len_utf8; by rewrite !(proj2 (Z.ltb_lt _ 128)) by lia|]. apply Forall_singleton. split; [unfold ascii; lia|]. by replace ((65 <=? c + 32) && (c + 32 <=? 90)) with false by lia.
    + split; [cbn; lia|]. apply Forall_singleton. split; [done|]. by rewrite E.
  - intros s _. induction s as [|x s IH]; [done|]. cbn. by rewrite <- IH.
Qed.

(** "Foo bar Bazz" and "bar Bazz", in chunks of four bytes. *)
Definition small_values : list (list Z) := [[70; 111; 111; 32; 98; 97; 114; 32; 66; 97; 122; 122]; [98; 97; 114; 32; 66; 97; 122; 122]].
Definition small_collector : SfxCollectorV3 := Eval vm_compute in value_or (with_config 4 2 1) (collect (with_config 4 2 1) (one_value small_values)).
Definition small_tokens : list (list Z) := [[1; 2; 0]; [2; 0]].

Definition small_data : SfxCollectorDataV3 :=
  Eval vm_compute in value_or {| sorted_indices := []; intern_to_final := []; dt_token_texts := []; dt_token_meta := []; tokens := []; content_postings := []; own_lens := []; num_content_ords := 0; num_docs := 0;
    dt_min_suffix_len := 0; word_stripped := []; word_sfxpost := []; word_pos_map := []; collector.sibling_v3 := []; max_word_content_len := None; dt_positions := false |} (into_data small_collector).
Definition small_writer : termtexts.TermTextsWriterV3 := Eval vm_compute in value_or termtexts.new (from_collector_v3 small_data).
(** The position map, read from its file. *)
Definition small_map : posmap.PosMapReader :=
  Eval vm_compute in value_or (PosMap.reader_of [] None None) (posmap.open (posmap.serialize_with_lens small_tokens (Some (lens_of small_writer)))).

(** The sibling table, read from its file. *)
Definition small_table : sibling_table.SiblingTableReader :=
  Eval vm_compute in value_or (SiblingTable.reader_of (sibling_table.new 0) None) (sibling_table.open (sibling_v3 small_data)).

Lemma small_table_open : sibling_table.open (sibling_v3 small_data) = Ret small_table.
Proof. vm_compute. reflexivity. Qed.

Lemma small_table_returns o : fits 32 o → ∃ es, sibling_table.siblings small_table o = Ret es.
Proof.
  intros [Ho _]. destruct (sibling_roundtrip (sibling_writer small_collector)) as (buf & w' & r & Es & Er & _ & H).
  - split; [by apply (bool_decide_unpack _); vm_compute|by vm_compute..].
  - assert (buf = sibling_v3 small_data) as -> by (vm_compute in Es; by injection Es as <-). rewrite small_table_open in Er. injection Er as <-. destruct (H o Ho) as (es & E & _). by exists es.
Qed.

Lemma small_map_reader : small_map = PosMap.reader_of small_tokens (Some (lens_of small_writer)) None.
Proof. vm_compute. reflexivity. Qed.

Lemma small_tokens_at d p o : corpus_at small_tokens d p = Some o → (d, p, o) ∈ [(0, 0, 1); (0, 1, 2); (0, 2, 0); (1, 0, 2); (1, 1, 0)].
Proof.
  intros H. destruct (corpus_at_range _ _ _ _ H) as [Hp _]. unfold doc_tokens in Hp. unfold corpus_at in H. destruct (Z.leb_spec 0 d) as [Hd|]; [|done].
  assert (d = Z.of_nat (Z.to_nat d)) as Ed by lia. assert (p = Z.of_nat (Z.to_nat p)) as Ep by lia. rewrite (proj2 (Z.leb_le 0 p)) in H by lia. cbn [andb] in H. revert Ed Ep H.
  generalize (Z.to_nat d) as i, (Z.to_nat p) as j. intros i j -> ->. do 2 (destruct i as [|i]; [do 3 (destruct j as [|j]; [intros [= <-]; set_solver|]); done|]). done.
Qed.

Lemma small_postings o d p : corpus_at small_tokens d p = Some o ↔ fits 32 o ∧ ∃ ps, content_postings small_data !! Z.to_nat o = Some ps ∧ (d, p) ∈ ps.
Proof.
  change (content_postings small_data) with [[(0, 2); (1, 1)]; [(0, 0)]; [(0, 1); (1, 0)]; []; []; []]. split.
  - intros H%small_tokens_at. repeat (apply elem_of_cons in H as [[= -> -> ->]|H]; [split; [by vm_compute|]; eexists; split; [done|]; set_solver|]). by apply elem_of_nil in H.
  - intros ([Ho _] & ps & Hps & Hin). rewrite <- (Z2Nat.id o Ho). revert Hps. generalize (Z.to_nat o) as n. intros n Hn.
    do 6 (destruct n as [|n]; [injection Hn as <-; repeat (apply elem_of_cons in Hin as [[= -> ->]|Hin]; [done|]); by apply elem_of_nil in Hin|]). done.
Qed.

Lemma small_posts_ok : posts_ok (fill_sfxpost small_data).
Proof. split; [by vm_compute|by apply (bool_decide_unpack _); vm_compute|by apply (bool_decide_unpack _); vm_compute| |by vm_compute|by vm_compute]. intros _. vm_compute. repeat constructor. Qed.

Lemma small_tokens_ok : docs_ok small_tokens.
Proof. by split; [repeat constructor; by vm_compute|by vm_compute|repeat constructor; by vm_compute|by vm_compute]. Qed.

Lemma small_tokens_lens d p o : corpus_at small_tokens d p = Some o → o ≠ posmap.EMPTY ∧ ∃ n, lens_of small_writer o = Some n ∧ 0 ≤ n.
Proof. intros H%small_tokens_at. repeat (apply elem_of_cons in H as [[= -> -> ->]|H]; [split; [done|]; by eexists|]). by apply elem_of_nil in H. Qed.

Lemma small_text_sizes d : #(doc_text small_tokens (blank small_writer) d) < 2 ^ 32.
Proof. unfold doc_text, text_from, doc_tokens. rewrite drop_0. destruct (0 <=? d); [|done]. generalize (Z.to_nat d) as i. intros i. do 2 (destruct i as [|i]; [done|]). done. Qed.

(** The files of the small index serve it. *)
Lemma small_files built : ∃ bytes r, sfxpost.finish (fill_sfxpost small_data) = Ret bytes ∧ sfxpost.open bytes = Ret r ∧ serves small_data small_writer built (files_ctx small_writer built r small_map small_table) (file_offsets small_map).
Proof.
  destruct (posting_file_serves small_data eq_refl eq_refl small_posts_ok) as (bytes & r & Ef & Eo & Hlaws & Hpost). exists bytes, r. split; [done|]. split; [done|]. rewrite small_map_reader.
  apply (files_serve small_data small_writer built r small_tokens small_table small_table_open small_table_returns Hlaws Hpost small_postings small_tokens_ok eq_refl small_tokens_lens small_text_sizes).
Qed.

Lemma indexed_then_found_witness :
  let query := [79; 32; 98; 65; 114; 32; 98] in
  ∃ b built bytes r, into_data small_collector = Ret small_data ∧ from_collector_v3 small_data = Ret small_writer ∧ fill_fst lower_ascii small_data = Ret b ∧ builder.build b = Ret (builder.Ok built) ∧
  sfxpost.finish (fill_sfxpost small_data) = Ret bytes ∧ sfxpost.open bytes = Ret r ∧
  ∃ n K, ∀ fuel cap, (n ≤ fuel)%nat → K ≤ cap → 0 ≤ cap →
  ∃ ms, orchestrator.contains_strict (F := HashSet) lower_char (files_ctx small_writer built r small_map small_table) (file_offsets small_map) cap (lower_bytes lower_ascii) map_to_list fuel None query false false = Ret ms ∧
    ∃ m, m ∈ ms ∧ resolve.doc_id m = 0 ∧ resolve.byte_from m = 2 ∧ resolve.byte_to m = 9.
Proof.
  intros query. destruct (indexed_then_found lower_ascii lower_char ascii map_to_list (F := HashSet) None 4 2 1 small_values query) as (c & Ec & H).
  - exact ascii_char_wise.
  - done.
  - lia.
  - lia.
  - lia.
  - by apply (bool_decide_unpack _); vm_compute.
  - by vm_compute.
  - by apply (bool_decide_unpack _); vm_compute.
  - by vm_compute.
  - assert (c = small_collector) as -> by (vm_compute in Ec; injection Ec as <-; reflexivity). destruct H as (dt & w & b & Edt & Ew & Eb & H); [by vm_compute|].
    assert (dt = small_data) as -> by (vm_compute in Edt; injection Edt as <-; reflexivity). assert (w = small_writer) as -> by (vm_compute in Ew; injection Ew as <-; reflexivity). destruct H as (built & Ebuilt & H).
    { assert (Eb' := Eb). vm_compute in Eb'. injection Eb' as <-. by vm_compute. }
    destruct (small_files built) as (bytes & r & Ef & Eo & Hsv). exists b, built, bytes, r. split; [exact Edt|]. split; [exact Ew|]. split; [exact Eb|]. split; [exact Ebuilt|]. split; [exact Ef|]. split; [exact Eo|].
    destruct (H _ _ Hsv) as (n & K & Hn). clear H.
    exists n, K. intros fuel cap Hf HK Hcap. destruct (Hn fuel cap Hf Hcap) as (ms & Ems & _ & Hs & Hc). exists ms. split; [exact Ems|].
    destruct (Hc HK 0%nat [70; 111; 111; 32; 98; 97; 114; 32; 66; 97; 122; 122] 2) as (m & Hm & Ed & Ef' & Et); [reflexivity| | |exact I|].
    + clear. split; [lia|]. by apply (bool_decide_unpack _); vm_compute.
    + clear. exists 0%nat. split; vm_compute; discriminate.
    + exists m. split; [exact Hm|]. split; [exact Ed|]. split; [exact Ef'|]. rewrite Et. clear. vm_compute. reflexivity.
Defined.

(** The same, run. *)
Example small_indexed :
  (c ← collect (with_config 4 2 1) (one_value small_values); dt ← into_data c; w ← from_collector_v3 dt; b ← fill_fst lower_ascii dt; built ← builder.build b;
   bytes ← sfxpost.finish (fill_sfxpost dt); r ← sfxpost.open bytes; sib ← sibling_table.open (sibling_v3 dt);
   match built with
   | builder.Ok built =>
       ms ← orchestrator.contains_strict (F := HashSet) lower_char (files_ctx w built r small_map sib) (file_offsets small_map) 1000 (lower_bytes lower_ascii) map_to_list 20 None [66; 65] false false;
       Ret (map (λ m, (resolve.doc_id m, resolve.byte_from m, resolve.byte_to m)) ms)
   | builder.Err _ => Panic
   end) = Ret [(0, 4, 6); (0, 8, 10); (1, 0, 2); (1, 4, 6)].
Proof. vm_compute. reflexivity. Qed.
