(* ===== verification/Binary.v ===== *)
(** * Bundles in bytes ([lucistore/src/binary.rs])

    The length-prefixed strings and blocks that the snapshot (LUCE) and delta
    (LUCID, LUCIDS) formats are made of.  A decoder walks the buffer with a
    position and fails with a message: it is a [reader].  Four judgements on
    readers are compositional, and the formats are verified through them:
    what a reader gives on bytes a writer produced ([reads]), that it never
    panics and stays in the buffer ([safe]), that bytes after what it read do
    not matter ([local]), and that two readers walk alike ([alike]). *)
From S2P Require Import Prelude TermTexts.

Module binary.

(** The messages the decoders format, as constructors. *)
Inductive Error :=
  | TruncatedAt (pos : Z)
  | TruncatedString (len pos : Z)
  | InvalidUtf8
  | TooSmall
  | BadMagic
  | UnsupportedVersion (version : Z)
  | MissingFlag
  | TruncatedBlock (what : list (list Z)) (len : Z).

(** A decoder: the buffer, the position, and what it comes to. *)
Definition reader (A : Type) : Type := list Z → Z → out (A * Z + Error).

#[export] Instance reader_ret : MRet reader := λ A a data pos, Ret (inl (a, pos)).
#[export] Instance reader_bind : MBind reader := λ A B f r data pos,
  match r data pos with
  | Ret (inl (a, p)) => f a data p
  | Ret (inr e) => Ret (inr e)
  | Nothing => Nothing
  | Panic => Panic
  | OutOfFuel => OutOfFuel
  end.

(** [return Err(...)]. *)
Definition fail {A} (e : Error) : reader A := λ data pos, Ret (inr e).

(** [for _ in 0..n { v.push(...) }]. *)
Fixpoint times {A} (n : nat) (r : reader A) : reader (list A) :=
  match n with
  | O => mret []
  | S n => a ← r; l ← times n r; mret (a :: l)
  end.

Definition write_string (buf s : list Z) : list Z :=
  buf ++ to_le_bytes 4 (as_u32 #s) ++ s.

Definition read_u32 : reader Z := λ data pos,
  if #data <? pos + 4 then Ret (inr (TruncatedAt pos)) else
  v ← u32_at data pos; Ret (inl (v, pos + 4)).

(** [if pos + n > data.len() { return Err }], then [data[pos..pos + n]]. *)
Definition take_bytes (n : Z) (e : Z → Error) : reader (list Z) := λ data pos,
  if #data <? pos + n then Ret (inr (e pos)) else
  s ← slice data pos (pos + n); Ret (inl (s, pos + n)).

Definition read_string : reader (list Z) :=
  len ← read_u32;
  s ← take_bytes len (TruncatedString len);
  match from_utf8 s with
  | Ret s => mret s
  | _ => fail InvalidUtf8
  end.

(** [if pos >= data.len() { return Err }; let flag = data[pos]; pos += 1]. *)
Definition read_flag : reader Z := λ data pos,
  if #data <=? pos then Ret (inr MissingFlag) else
  b ← index data pos; Ret (inl (b, pos + 1)).

(** [read_u32], then that many bytes, checked against the end: what every
    file, manifest and configuration is read with.  [what] names it in the
    message. *)
Definition read_block (what : list (list Z)) : reader (list Z) :=
  n ← read_u32; take_bytes n (λ _, TruncatedBlock what n).

(** A block on the writer's side: its length, then its bytes. *)
Definition write_block (buf s : list Z) : list Z :=
  buf ++ to_le_bytes 4 (as_u32 #s) ++ s.

(** [write_string(name)], the length and the bytes, for each file. *)
Definition write_file (buf : list Z) (f : list Z * list Z) : list Z :=
  write_block (write_string buf (fst f)) (snd f).

(** A count, then each item. *)
Definition write_all {A} (put : list Z → A → list Z) (buf : list Z) (l : list A) : list Z :=
  fold_left put l (buf ++ to_le_bytes 4 (as_u32 #l)).

(** One file: its name, then its bytes.  [owner] completes the message. *)
Definition read_file (owner : list (list Z)) : reader (list Z * list Z) :=
  name ← read_string;
  bytes ← read_block (name :: owner);
  mret (name, bytes).

(** A count, then that many items. *)
Definition read_all {A} (item : reader A) : reader (list A) :=
  n ← read_u32; times (Z.to_nat n) item.

(** The current position. *)
Definition tell : reader Z := λ data pos, Ret (inl (pos, pos)).

(** A whole buffer: at least [min] bytes, the magic, then [body]. *)
Definition decode {A} (min : Z) (magic : list Z) (body : reader A) (data : list Z) : out (A + Error) :=
  if #data <? min then Ret (inr TooSmall) else
  m ← slice data 0 #magic;
  if bytes_eqb m magic then
    r ← body data #magic;
    Ret (match r with inl (a, _) => inl a | inr e => inr e end)
  else Ret (inr BadMagic).

End binary.
Import binary.

(** ** Judgements *)

(** The reader turns [bytes], whatever surrounds them, into [a]. *)
Definition reads {A} (r : reader A) (bytes : list Z) (a : A) : Prop :=
  ∀ data pos rest, At data pos (bytes ++ rest) → r data pos = Ret (inl (a, pos + #bytes)).

(** On any buffer the reader returns, and ends between where it started and
    the end. *)
Definition safe {A} (r : reader A) : Prop :=
  ∀ data pos, bytes_ok data → 0 ≤ pos ≤ #data →
  match r data pos with
  | Ret (inl (_, p)) => pos ≤ p ≤ #data
  | Ret (inr _) => True
  | _ => False
  end.

(** A reader that succeeds stays in the buffer, and gives the same when the
    buffer goes on. *)
Definition local {A} (r : reader A) : Prop :=
  ∀ data more pos a p, 0 ≤ pos ≤ #data → r data pos = Ret (inl (a, p)) →
  pos ≤ p ≤ #data ∧ r (data ++ more) pos = Ret (inl (a, p)).

(** Two readers fail together, or end at the same place with values related
    through the buffer. *)
Definition alike {A B} (R : list Z → A → B → Prop) (r1 : reader A) (r2 : reader B) : Prop :=
  ∀ data pos, bytes_ok data → 0 ≤ pos ≤ #data →
  match r1 data pos, r2 data pos with
  | Ret (inl (a, p)), Ret (inl (b, q)) => p = q ∧ pos ≤ p ≤ #data ∧ R data a b
  | Ret (inr _), Ret (inr _) => True
  | _, _ => False
  end.

Create HintDb readers.

Section Rules.
Context {A B : Type}.
Implicit Types (r : reader A) (f : A → reader B).

Lemma bind_unfold r f data pos : (r ≫= f) data pos =
  match r data pos with
  | Ret (inl (a, p)) => f a data p | Ret (inr e) => Ret (inr e) | Nothing => Nothing | Panic => Panic | OutOfFuel => OutOfFuel end.
Proof. reflexivity. Qed.

Lemma reader_inv r f data pos b q : (r ≫= f) data pos = Ret (inl (b, q)) → ∃ a p, r data pos = Ret (inl (a, p)) ∧ f a data p = Ret (inl (b, q)).
Proof. rewrite bind_unfold. destruct (r data pos) as [[[a p]|e]| | |]; try done. eauto. Qed.

Lemma reads_ret (a : A) : reads (mret a) [] a.
Proof. intros data pos rest _. cbn. by rewrite Z.add_0_r. Qed.

Lemma reads_bind r f x y a b : reads r x a → reads (f a) y b → reads (r ≫= f) (x ++ y) b.
Proof.
  intros Hr Hf data pos rest Hat. rewrite <- app_assoc in Hat. rewrite bind_unfold, (Hr _ _ _ Hat).
  rewrite (Hf _ _ _ (At_skip _ _ _ _ Hat)). by rewrite len_app, Z.add_assoc.
Qed.

Lemma safe_ret (a : A) : safe (mret a).
Proof. intros data pos _ Hp. cbn. lia. Qed.

Lemma safe_fail e : safe (A := A) (fail e).
Proof. by intros data pos _ _. Qed.

Lemma safe_bind r f : safe r → (∀ a, safe (f a)) → safe (r ≫= f).
Proof.
  intros Hr Hf data pos Hb Hp. rewrite bind_unfold. specialize (Hr data pos Hb Hp).
  destruct (r data pos) as [[[a p]|e]| | |]; try done. specialize (Hf a data p Hb ltac:(lia)).
  destruct (f a data p) as [[[b q]|e]| | |]; try done. lia.
Qed.

Lemma local_ret (a : A) : local (mret a).
Proof. intros data more pos x p Hp [= <- <-]. split; [lia|done]. Qed.

Lemma local_fail e : local (A := A) (fail e).
Proof. done. Qed.

Lemma local_bind r f : local r → (∀ a, local (f a)) → local (r ≫= f).
Proof.
  intros Hr Hf data more pos b q Hp. rewrite !bind_unfold. destruct (r data pos) as [[[a p]|e]| | |] eqn:E; try done. intros Eb.
  destruct (Hr data more pos a p Hp E) as [Ha ->]. destruct (Hf a data more p b q ltac:(lia) Eb) as [Hb ->]. split; [lia|done].
Qed.

Lemma alike_ret (R : list Z → A → B → Prop) a b : (∀ data, R data a b) → alike R (mret a) (mret b).
Proof. intros HR data pos _ Hp. cbn. split_and!; [done|lia|lia|done]. Qed.

Lemma alike_fail (R : list Z → A → B → Prop) e e' : alike R (fail e) (fail e').
Proof. by intros data pos _ _. Qed.
End Rules.


Lemma alike_bind {A A' B B'} (R : list Z → A → A' → Prop) (S : list Z → B → B' → Prop) (r : reader A) (r' : reader A') (f : A → reader B) (f' : A' → reader B') :
  alike R r r' → (∀ a a', (∃ data, R data a a') → alike (λ data b b', R data a a' → S data b b') (f a) (f' a')) → alike S (r ≫= f) (r' ≫= f').
Proof.
  intros Hr Hf data pos Hb Hp. rewrite !bind_unfold. specialize (Hr data pos Hb Hp).
  destruct (r data pos) as [[[a p]|e]| | |]; destruct (r' data pos) as [[[a' p']|e']| | |]; try done. destruct Hr as (<- & Hpos & HR).
  specialize (Hf a a' (ex_intro _ data HR) data p Hb ltac:(lia)). destruct (f a data p) as [[[b q]|e]| | |]; destruct (f' a' data p) as [[[b' q']|e']| | |]; try done.
  destruct Hf as (<- & Hq & HS). split_and!; [done|lia|lia|by apply HS].
Qed.

Lemma alike_weaken {A A'} (R S : list Z → A → A' → Prop) r r' : alike R r r' → (∀ data a a', R data a a' → S data a a') → alike S r r'.
Proof.
  intros Hr HS data pos Hb Hp. specialize (Hr data pos Hb Hp). destruct (r data pos) as [[[a p]|e]| | |]; destruct (r' data pos) as [[[a' p']|e']| | |]; try done.
  destruct Hr as (? & ? & ?). eauto.
Qed.

Lemma alike_refl {A} (r : reader A) : safe r → alike (λ _, eq) r r.
Proof. intros Hr data pos Hb Hp. specialize (Hr data pos Hb Hp). destruct (r data pos) as [[[a p]|e]| | |]; done. Qed.

(** The same reader on both sides, then readers that depend on its value. *)
Lemma alike_same {A B B'} (S : list Z → B → B' → Prop) (r : reader A) f f' : safe r → (∀ a, alike S (f a) (f' a)) → alike S (r ≫= f) (r ≫= f').
Proof. intros Hr Hf. eapply alike_bind; [by apply alike_refl|]. intros a a' [_ <-]. eapply alike_weaken; [apply Hf|done]. Qed.

#[export] Hint Resolve safe_ret safe_fail safe_bind local_ret local_fail local_bind : readers.

(** ** Loops *)

Lemma reads_times {A B} (r : reader B) (enc : A → list Z) (f : A → B) l : (∀ a, a ∈ l → reads r (enc a) (f a)) → reads (times (length l) r) (flat_map enc l) (map f l).
Proof.
  induction l as [|a l IH]; intros Hr; cbn [length times flat_map map]; [apply reads_ret|].
  apply (reads_bind r _ _ _ (f a)); [apply Hr; left|]. rewrite <- (app_nil_r (flat_map enc l)). eapply reads_bind; [apply IH; intros b Hb; apply Hr; by right|apply reads_ret].
Qed.

Section Times.
Context {A : Type}.
Implicit Types r : reader A.

Lemma safe_times r n : safe r → safe (times n r).
Proof. intros Hr. induction n; cbn [times]; eauto with readers. Qed.

Lemma local_times r n : local r → local (times n r).
Proof. intros Hr. induction n; cbn [times]; eauto with readers. Qed.
End Times.

Lemma alike_times {A A'} (R : list Z → A → A' → Prop) r r' n : alike R r r' → alike (λ data, Forall2 (R data)) (times n r) (times n r').
Proof.
  intros Hr. induction n as [|n IH]; cbn [times]; [apply alike_ret; constructor|].
  eapply alike_bind; [exact Hr|]. intros a a' _. eapply alike_bind; [exact IH|]. intros l l' _. apply alike_ret. intros data Hl Ha. by constructor.
Qed.

(** ** The parts *)

(** A block, and a string, as the writers lay it out. *)
Definition block (s : list Z) : list Z := to_le_bytes 4 (as_u32 #s) ++ s.
Definition file_bytes (f : list Z * list Z) : list Z := block (fst f) ++ block (snd f).
Definition all_bytes_of {A} (enc : A → list Z) (l : list A) : list Z := to_le_bytes 4 (as_u32 #l) ++ flat_map enc l.

Lemma write_string_eq buf s : write_string buf s = buf ++ block s.
Proof. reflexivity. Qed.

Lemma write_block_eq buf s : write_block buf s = buf ++ block s.
Proof. reflexivity. Qed.

Lemma write_file_eq buf f : write_file buf f = buf ++ file_bytes f.
Proof. unfold write_file. rewrite write_block_eq, write_string_eq. by rewrite <- app_assoc. Qed.

Lemma write_all_eq {A} (put : list Z → A → list Z) enc buf l : (∀ b a, put b a = b ++ enc a) → write_all put buf l = buf ++ all_bytes_of enc l.
Proof.
  intros Hput. unfold write_all, all_bytes_of. rewrite app_assoc. generalize (buf ++ to_le_bytes 4 (as_u32 #l)). induction l as [|a l IH]; intros b; cbn; [by rewrite app_nil_r|].
  by rewrite IH, Hput, app_assoc.
Qed.

(** The widths of a file: a name that is text, lengths of 32 bits. *)
Definition name_ok (s : list Z) : Prop := fits 32 #s ∧ utf8_valid s = true.
Definition file_ok (f : list Z * list Z) : Prop := name_ok (fst f) ∧ fits 32 #(snd f).

Lemma u32_bytes v : fits 32 v → reads read_u32 (to_le_bytes 4 (as_u32 v)) v.
Proof.
  intros Hv data pos rest Hat. unfold as_u32 in *. rewrite Z.mod_small in * by (widths; lia). pose proof (At_len _ _ _ Hat) as Hl. rewrite len_app, len_to_le_bytes in Hl.
  destruct (At_u32 _ _ _ _ Hat Hv) as [E _]. unfold read_u32. pose proof (len_nonneg rest). case_lia. by rewrite E, len_to_le_bytes.
Qed.

Lemma reads_bytes s e : reads (take_bytes #s e) s s.
Proof.
  intros data pos rest Hat. pose proof (At_len _ _ _ Hat) as Hl. rewrite len_app in Hl. unfold take_bytes. pose proof (len_nonneg rest). case_lia.
  by rewrite (At_slice _ _ _ _ _ Hat eq_refl).
Qed.

Lemma reads_string s : name_ok s → reads read_string (block s) s.
Proof.
  intros [Hn Hu]. eapply reads_bind; [by apply u32_bytes|]. rewrite <- (app_nil_r s) at 3. eapply reads_bind; [apply reads_bytes|].
  unfold from_utf8. rewrite Hu. apply reads_ret.
Qed.

Lemma reads_block what s : fits 32 #s → reads (read_block what) (block s) s.
Proof. intros Hn. eapply reads_bind; [by apply u32_bytes|]. apply reads_bytes. Qed.

Lemma reads_file owner f : file_ok f → reads (read_file owner) (file_bytes f) f.
Proof.
  destruct f as [n d]. intros [Hn Hd]. eapply reads_bind; [by apply reads_string|]. rewrite <- (app_nil_r (block _)). eapply reads_bind; [by apply reads_block|]. apply reads_ret.
Qed.

Lemma reads_all_as {A B} (item : reader B) (enc : A → list Z) (f : A → B) l : fits 32 #l → (∀ a, a ∈ l → reads item (enc a) (f a)) → reads (read_all item) (all_bytes_of enc l) (map f l).
Proof. intros Hl Hi. eapply reads_bind; [by apply u32_bytes|]. rewrite len_to_nat. by apply reads_times. Qed.

Lemma reads_all {A} (item : reader A) enc l : fits 32 #l → (∀ a, a ∈ l → reads item (enc a) a) → reads (read_all item) (all_bytes_of enc l) l.
Proof. intros Hl Hi. rewrite <- (map_id l) at 2. by apply reads_all_as. Qed.

Lemma reads_flag b : reads read_flag [b] b.
Proof.
  intros data pos rest Hat. pose proof (At_len _ _ _ Hat) as Hl. pose proof (At_get _ _ _ _ Hat) as E. cbn [app] in Hl. rewrite len_cons in Hl. pose proof (len_nonneg rest).
  unfold read_flag, index. case_lia. by rewrite E.
Qed.

Lemma safe_u32 : safe read_u32.
Proof. intros data pos Hb Hp. unfold read_u32. destruct (Z.ltb_spec #data (pos + 4)); [done|]. destruct (u32_at_ok data pos) as (v & -> & Hv); [done|lia|lia|]. cbn. lia. Qed.

Lemma local_u32 : local read_u32.
Proof.
  intros data more pos a p Hp. unfold read_u32. destruct (Z.ltb_spec #data (pos + 4)); [done|]. unfold u32_at. rewrite (le_at_app_l 4) by lia. rewrite len_app. pose proof (len_nonneg more).
  case_lia. destruct (le_at 4 data pos); try done. cbn. intros [= -> <-]. split; [lia|done].
Qed.

(** A count read from bytes is not negative, which keeps the slices after it in order. *)
Lemma safe_counted {A} (f : Z → reader A) : (∀ n, 0 ≤ n → safe (f n)) → safe (read_u32 ≫= f).
Proof.
  intros Hf data pos Hb Hp. rewrite bind_unfold. unfold read_u32. destruct (Z.ltb_spec #data (pos + 4)); [done|]. destruct (u32_at_ok data pos) as (v & -> & Hv); [done|lia|lia|].
  rewrite bind_ret. specialize (Hf v (proj1 Hv) data (pos + 4) Hb ltac:(lia)). destruct (f v data (pos + 4)) as [[[a p]|]| | |]; try done. lia.
Qed.

Lemma safe_bytes n e : 0 ≤ n → safe (take_bytes n e).
Proof. intros Hn data pos Hb Hp. unfold take_bytes. destruct (Z.ltb_spec #data (pos + n)); [done|]. destruct (slice_returns data pos (pos + n)) as [x ->]; [lia..|]. cbn. lia. Qed.

Lemma local_bytes n e : local (take_bytes n e).
Proof.
  intros data more pos a p Hp. unfold take_bytes. rewrite len_app. pose proof (len_nonneg more). destruct (Z.ltb_spec #data (pos + n)); [done|]. case_lia. rewrite slice_app_l by lia.
  destruct (slice data pos (pos + n)) eqn:E; try done. apply slice_inv in E. rewrite bind_ret. intros [= -> <-]. split; [lia|done].
Qed.

Lemma safe_string : safe read_string.
Proof. apply safe_counted. intros n Hn. apply safe_bind; [by apply safe_bytes|]. intros s. unfold from_utf8. destruct (utf8_valid s); auto with readers. Qed.

Lemma local_string : local read_string.
Proof. apply local_bind; [apply local_u32|]. intros n. apply local_bind; [apply local_bytes|]. intros s. unfold from_utf8. destruct (utf8_valid s); auto with readers. Qed.

Lemma safe_flag : safe read_flag.
Proof. intros data pos Hb Hp. unfold read_flag. destruct (Z.leb_spec #data pos); [done|]. destruct (index_in data pos) as (b & -> & _); [lia|]. cbn. lia. Qed.

Lemma local_flag : local read_flag.
Proof.
  intros data more pos a p Hp. unfold read_flag, index, get. rewrite len_app. pose proof (len_nonneg more). destruct (Z.leb_spec #data pos); [done|]. repeat case_lia; try lia.
  rewrite lookup_app_l by (unfold len in *; lia). destruct (data !! Z.to_nat pos); [|done]. cbn. intros [= -> <-]. split; [lia|done].
Qed.

Lemma safe_block what : safe (read_block what).
Proof. apply safe_counted. intros n Hn. by apply safe_bytes. Qed.

Lemma local_block what : local (read_block what).
Proof. apply local_bind; [apply local_u32|]. intros n. apply local_bytes. Qed.

#[export] Hint Resolve safe_u32 local_u32 safe_string local_string safe_flag local_flag safe_block local_block safe_times local_times : readers.

Lemma safe_file owner : safe (read_file owner).
Proof. unfold read_file. eauto 10 with readers. Qed.

Lemma local_file owner : local (read_file owner).
Proof. unfold read_file. eauto 10 with readers. Qed.

Lemma safe_all {A} (item : reader A) : safe item → safe (read_all item).
Proof. unfold read_all. eauto with readers. Qed.

Lemma local_all {A} (item : reader A) : local item → local (read_all item).
Proof. unfold read_all. eauto with readers. Qed.

#[export] Hint Resolve safe_file local_file safe_all local_all : readers.

Lemma safe_tell : safe tell.
Proof. intros data pos _ Hp. cbn. lia. Qed.

Lemma local_tell : local tell.
Proof. intros data more pos a p Hp [= <- <-]. split; [lia|done]. Qed.

#[export] Hint Resolve safe_tell local_tell : readers.

(** ** Whole buffers *)

Section Decode.
Context {A : Type} (min : Z) (magic : list Z) (body : reader A).

Lemma decode_from rest a p : min ≤ #(magic ++ rest) → body (magic ++ rest) #magic = Ret (inl (a, p)) → decode min magic body (magic ++ rest) = Ret (inl a).
Proof using.
  intros Hm Hr. unfold decode. case_lia. rewrite (slice_prefix magic) by done. rewrite bind_ret. unfold bytes_eqb. rewrite bool_decide_eq_true_2 by done. by rewrite Hr.
Qed.

Lemma decode_reads bytes a rest : reads body bytes a → min ≤ #(magic ++ bytes) → decode min magic body (magic ++ bytes ++ rest) = Ret (inl a).
Proof using.
  intros Hr Hm. pose proof (len_nonneg rest). eapply decode_from; [rewrite !len_app in *; lia|]. apply (Hr _ _ rest), At_app.
Qed.

Lemma decode_returns data : safe body → #magic ≤ min → bytes_ok data → ∃ r, decode min magic body data = Ret r.
Proof using.
  intros Hs Hm Hb. unfold decode. destruct (Z.ltb_spec #data min); [by eexists|]. pose proof (len_nonneg magic). destruct (slice_returns data 0 #magic) as [m ->]; [lia..|].
  rewrite bind_ret. destruct (bytes_eqb m magic); [|by eexists]. specialize (Hs data #magic Hb ltac:(lia)). destruct (body data #magic) as [r| | |]; try done. by eexists.
Qed.

Lemma decode_inv data a : decode min magic body data = Ret (inl a) → ∃ p, #magic ≤ #data ∧ body data #magic = Ret (inl (a, p)) ∧
  (∀ more, body (data ++ more) #magic = Ret (inl (a, p)) → decode min magic body (data ++ more) = Ret (inl a)).
Proof using.
  unfold decode. destruct (Z.ltb_spec #data min); [done|]. destruct (slice data 0 #magic) as [m| | |] eqn:Em; try done. rewrite bind_ret. destruct (bytes_eqb m magic) eqn:E; [|done].
  destruct (body data #magic) as [[[b p]|]| | |]; try done. intros [= ->]. apply slice_inv in Em as Hs. exists p. split_and!; [lia|done|]. intros more Hb. rewrite len_app. pose proof (len_nonneg more).
  case_lia. rewrite slice_app_l by lia. by rewrite Em, bind_ret, E, Hb.
Qed.
End Decode.

Lemma decode_alike {A B} (R : list Z → A → B → Prop) min magic r r' data : alike R r r' → #magic ≤ min → bytes_ok data →
  match decode min magic r data, decode min magic r' data with
  | Ret (inl a), Ret (inl b) => R data a b
  | Ret (inr _), Ret (inr _) => True
  | _, _ => False
  end.
Proof.
  intros Hr Hm Hb. unfold decode. destruct (Z.ltb_spec #data min); [done|]. pose proof (len_nonneg magic). destruct (slice_returns data 0 #magic) as [m ->]; [lia..|]. rewrite !bind_ret.
  destruct (bytes_eqb m magic); [|done]. specialize (Hr data #magic Hb ltac:(lia)). destruct (r data #magic) as [[[a p]|]| | |]; destruct (r' data #magic) as [[[b q]|]| | |]; try done. by destruct Hr as (_ & _ & ?).
Qed.

(** What a buffer cut short comes to. *)
Lemma decode_truncated {A} min magic (body : reader A) bytes a n : reads body bytes a → local body → safe body → #magic ≤ min → bytes_ok (magic ++ bytes) →
  (n < length (magic ++ bytes))%nat → ∃ e, decode min magic body (take n (magic ++ bytes)) = Ret (inr e).
Proof.
  intros Hr Hl Hs Hm Hb Hn. set (data := magic ++ bytes) in *. destruct (decode_returns min magic body (take n data) Hs Hm (Forall_take _ _ _ Hb)) as [[b|e] E]; [|by exists e]. exfalso.
  apply decode_inv in E as (p & Hlen & E & _). pose proof (len_nonneg magic). destruct (Hl (take n data) (drop n data) #magic b p ltac:(lia) E) as [Hp Hd]. rewrite take_drop in Hd.
  assert (body data #magic = Ret (inl (a, #data))) as Hd'. { rewrite (Hr data #magic []); [subst data; by rewrite len_app|]. rewrite app_nil_r. apply At_app. }
  rewrite Hd' in Hd. injection Hd as _ <-. rewrite len_take in Hp. unfold len in Hp. lia.
Qed.
