(* ===== verification/Snapshot.v ===== *)
(** * Snapshots ([lucistore/src/snapshot.rs])

    LUCE: a bundle of index directories in one blob, with the root files of a
    sharded index before them.  [import_snapshot] copies every file out of the
    blob; [read_manifest] walks the same bytes and records where each file
    is.  What is exported imports back, and on any bytes at all the two
    readers refuse together or describe the same files. *)
From S2P Require Import Prelude TermTexts Binary.
Import binary.

Module snapshot.

Definition MAGIC : list Z := [0x4C; 0x55; 0x43; 0x45].
Definition CURRENT_VERSION : Z := 2.

Record SnapshotIndex := { path : list Z; files : list (list Z * list Z) }.

Record ImportedIndex := { i_path : list Z; i_files : list (list Z * list Z) }.

Record ImportedSnapshot := { root_files : list (list Z * list Z); indexes : list ImportedIndex; is_sharded : bool }.

(** One index: its path, then its files. *)
Definition write_index (buf : list Z) (index : SnapshotIndex) : list Z :=
  write_all write_file (write_string buf (path index)) (files index).

Definition export_snapshot_sharded (idxs : list SnapshotIndex) (roots : list (list Z * list Z)) : list Z :=
  let sharded := match roots with [] => false | _ => true end in
  let buf := MAGIC ++ to_le_bytes 4 CURRENT_VERSION ++ [if sharded then 1 else 0] in
  let buf := if sharded then write_all write_file buf roots else buf in
  write_all write_index buf idxs.

Definition export_snapshot (idxs : list SnapshotIndex) : list Z := export_snapshot_sharded idxs [].

Record SnapshotEntry := { name : list Z; offset : Z; length_ : Z }.

Record SnapshotManifest := {
  m_sharded : bool;
  m_root_files : list SnapshotEntry;
  m_indexes : list (list Z * list SnapshotEntry);
  m_end : Z;
}.

(** The closure [entry]: one file, its bytes skipped. *)
Definition entry : reader SnapshotEntry :=
  name ← read_string;
  len ← read_u32;
  offset ← tell;
  _ ← take_bytes len (λ _, TruncatedBlock [name] len);
  mret {| name := name; offset := offset; length_ := len |}.

(** The root files: none in version 1, and in version 2 when the flag is set. *)
Definition read_roots {A} (item : reader A) (version : Z) : reader (bool * list A) :=
  if version =? 1 then mret (false, [])
  else if version =? 2 then
    flag ← read_flag;
    if flag =? 1 then (files ← read_all item; mret (true, files)) else mret (false, [])
  else fail (UnsupportedVersion version).

Definition manifest_index : reader (list Z * list SnapshotEntry) :=
  path ← read_string;
  files ← read_all entry;
  mret (path, files).

Definition manifest_body : reader SnapshotManifest :=
  version ← read_u32;
  sr ← read_roots entry version;
  indexes ← read_all manifest_index;
  pos ← tell;
  mret {| m_sharded := fst sr; m_root_files := snd sr; m_indexes := indexes; m_end := pos |}.

Definition read_manifest (data : list Z) : out (SnapshotManifest + Error) := decode 12 MAGIC manifest_body data.

Definition import_index : reader ImportedIndex :=
  path ← read_string;
  files ← read_all (read_file [path]);
  mret {| i_path := path; i_files := files |}.

Definition import_body : reader ImportedSnapshot :=
  version ← read_u32;
  sr ← read_roots (read_file []) version;
  indexes ← read_all import_index;
  mret {| root_files := snd sr; indexes := indexes; is_sharded := fst sr |}.

Definition import_snapshot (data : list Z) : out (ImportedSnapshot + Error) := decode 12 MAGIC import_body data.

End snapshot.
Import snapshot.

(** ** What can be exported *)

Record index_ok (x : SnapshotIndex) : Prop := {
  xo_path : name_ok (path x);
  xo_count : fits 32 #(files x);
  xo_files : Forall file_ok (files x);
}.

(** The widths of the format: counts and lengths of 32 bits, names that are
    text (a Rust [String] is). *)
Record snapshot_ok (idxs : list SnapshotIndex) (roots : list (list Z * list Z)) : Prop := {
  so_count : fits 32 #idxs;
  so_indexes : Forall index_ok idxs;
  so_roots : fits 32 #roots;
  so_root_files : Forall file_ok roots;
}.

Definition index_bytes (x : SnapshotIndex) : list Z := block (path x) ++ all_bytes_of file_bytes (files x).

Definition imported (x : SnapshotIndex) : ImportedIndex := {| i_path := path x; i_files := files x |}.

(** What follows the magic. *)
Definition body_bytes (idxs : list SnapshotIndex) (roots : list (list Z * list Z)) : list Z :=
  to_le_bytes 4 CURRENT_VERSION ++ (match roots with [] => [0] | _ => 1 :: all_bytes_of file_bytes roots end) ++ all_bytes_of index_bytes idxs.

Lemma write_index_eq buf x : write_index buf x = buf ++ index_bytes x.
Proof. unfold write_index. rewrite (write_all_eq _ file_bytes) by apply write_file_eq. rewrite write_string_eq. by rewrite <- app_assoc. Qed.

Lemma export_eq idxs roots : export_snapshot_sharded idxs roots = MAGIC ++ body_bytes idxs roots.
Proof.
  unfold export_snapshot_sharded, body_bytes. rewrite (write_all_eq _ index_bytes) by apply write_index_eq. destruct roots as [|f roots]; [by rewrite <- !app_assoc|].
  rewrite (write_all_eq _ file_bytes) by apply write_file_eq. rewrite <- !app_assoc. reflexivity.
Qed.

(** ** Importing what was exported *)

Lemma reads_roots {A} (item : reader A) (enc : A → list Z) roots : fits 32 #roots → (∀ a, a ∈ roots → reads item (enc a) a) →
  reads (read_roots item 2) (match roots with [] => [0] | _ => 1 :: all_bytes_of enc roots end) (match roots with [] => false | _ => true end, roots).
Proof.
  intros Hn Hi. unfold read_roots. cbn [Z.eqb Pos.eqb]. destruct roots as [|a roots]; [apply (reads_bind read_flag _ [0] [] 0); [apply reads_flag|apply reads_ret]|].
  apply (reads_bind read_flag _ [1] _ 1); [apply reads_flag|]. cbn [Z.eqb Pos.eqb]. rewrite <- (app_nil_r (all_bytes_of _ _)). eapply reads_bind; [by apply reads_all|apply reads_ret].
Qed.

Lemma reads_imported x : index_ok x → reads import_index (index_bytes x) (imported x).
Proof.
  intros [Hp Hc Hf]. rewrite Forall_forall in Hf. eapply reads_bind; [by apply reads_string|]. rewrite <- (app_nil_r (all_bytes_of _ _)). eapply reads_bind; [|apply reads_ret].
  apply reads_all; [done|]. intros f Hin. apply reads_file. by apply Hf.
Qed.

Definition restored (idxs : list SnapshotIndex) (roots : list (list Z * list Z)) : ImportedSnapshot :=
  {| root_files := roots; indexes := map imported idxs; is_sharded := match roots with [] => false | _ => true end |}.

Lemma reads_body idxs roots : snapshot_ok idxs roots → reads import_body (body_bytes idxs roots) (restored idxs roots).
Proof.
  intros [Hc Hi Hr Hf]. rewrite Forall_forall in Hi. rewrite Forall_forall in Hf. unfold import_body, body_bytes. eapply reads_bind; [apply (u32_bytes 2); widths; lia|].
  eapply reads_bind; [apply (reads_roots _ file_bytes); [done|]; intros f Hin; apply reads_file; by apply Hf|].
  rewrite <- (app_nil_r (all_bytes_of index_bytes _)). eapply reads_bind; [|apply reads_ret]. apply reads_all_as; [done|]. intros x Hin. apply reads_imported. by apply Hi.
Qed.

(** ** The table of contents *)

(** An entry points at the bytes of the file. *)
Definition points (data : list Z) (e : SnapshotEntry) (f : list Z * list Z) : Prop :=
  name e = fst f ∧ slice data (offset e) (offset e + length_ e) = Ret (snd f).

Record describes (data : list Z) (m : SnapshotManifest) (s : ImportedSnapshot) : Prop := {
  ds_sharded : m_sharded m = is_sharded s;
  ds_roots : Forall2 (points data) (m_root_files m) (root_files s);
  ds_indexes : Forall2 (λ mi i, fst mi = i_path i ∧ Forall2 (points data) (snd mi) (i_files i)) (m_indexes m) (indexes s);
}.

Lemma alike_entry owner : alike points entry (read_file owner).
Proof.
  unfold entry, read_file. apply alike_same; [apply safe_string|]. intros n data pos Hb Hp. unfold read_block, mret, reader_ret, mbind, reader_bind, out_mbind, tell, read_u32, take_bytes.
  destruct (Z.ltb_spec #data (pos + 4)); [done|]. destruct (u32_at_ok data pos) as (v & -> & [Hv _]); [done|lia|lia|].
  rewrite !bind_ret. destruct (Z.ltb_spec #data (pos + 4 + v)); [done|]. destruct (slice_returns data (pos + 4) (pos + 4 + v)) as [x E]; [lia..|]. rewrite E, !bind_ret. split_and!; [done|lia|lia|done].
Qed.

Lemma alike_all {A A'} (R : list Z → A → A' → Prop) r r' : alike R r r' → alike (λ data, Forall2 (R data)) (read_all r) (read_all r').
Proof. intros Hr. apply alike_same; [apply safe_u32|]. intros n. by apply alike_times. Qed.

Lemma alike_roots {A A'} (R : list Z → A → A' → Prop) r r' v : alike R r r' →
  alike (λ data a b, fst a = fst b ∧ Forall2 (R data) (snd a) (snd b)) (read_roots r v) (read_roots r' v).
Proof.
  intros Hr. unfold read_roots. destruct (v =? 1); [by apply alike_ret|]. destruct (v =? 2); [|apply alike_fail]. apply alike_same; [apply safe_flag|]. intros b.
  destruct (b =? 1); [|by apply alike_ret]. eapply alike_bind; [by apply alike_all|]. intros l l' _. by apply alike_ret.
Qed.

Lemma alike_index : alike (λ data mi i, fst mi = i_path i ∧ Forall2 (points data) (snd mi) (i_files i)) manifest_index import_index.
Proof.
  apply alike_same; [apply safe_string|]. intros p. eapply alike_bind; [apply alike_all, alike_entry|]. intros l l' _. by apply alike_ret.
Qed.

Lemma alike_bodies : alike describes manifest_body import_body.
Proof.
  apply alike_same; [apply safe_u32|]. intros v. eapply alike_bind; [apply alike_roots, alike_entry|]. intros [s r] [s' r'] _.
  eapply alike_bind; [apply alike_all, alike_index|]. intros l l' _ data pos _ Hp. cbn. split_and!; [done|lia|lia|]. intros Hl [Hs Hr]. by constructor.
Qed.

Lemma manifest_end data pos m p : manifest_body data pos = Ret (inl (m, p)) → m_end m = p.
Proof.
  intros (v & p1 & _ & H)%reader_inv. apply reader_inv in H as (sr & p2 & _ & H). apply reader_inv in H as (ix & p3 & _ & H). cbn in H. by injection H as <- <-.
Qed.

Lemma local_manifest : local manifest_body.
Proof. 
  assert (local entry) as He. { unfold entry. repeat (apply local_bind; [auto using local_bytes with readers|intros ?]). auto with readers. }
  assert (local manifest_index) as Hi by (unfold manifest_index; eauto 10 with readers).
  unfold manifest_body. apply local_bind; [auto with readers|]. intros v. apply local_bind; [|eauto 10 with readers].
  unfold read_roots. repeat case_match; auto with readers. apply local_bind; [auto with readers|]. intros b. case_match; eauto 10 with readers.
Qed.

(** ** Exported blobs *)

Lemma body_size idxs roots : 9 ≤ #(body_bytes idxs roots).
Proof.
  unfold body_bytes, all_bytes_of. pose proof (len_nonneg (flat_map index_bytes idxs)). pose proof (len_nonneg (flat_map file_bytes roots)).
  destruct roots; rewrite ?len_app, ?len_cons, ?len_app, ?len_nil, ?len_to_le_bytes; lia.
Qed.

(** The table of contents of an exported blob accounts for every byte. *)
Lemma exported_read idxs roots : snapshot_ok idxs roots → bytes_ok (export_snapshot_sharded idxs roots) →
  ∃ m, read_manifest (export_snapshot_sharded idxs roots) = Ret (inl m) ∧ m_end m = #(export_snapshot_sharded idxs roots) ∧
    describes (export_snapshot_sharded idxs roots) m (restored idxs roots).
Proof.
  intros Hok Hb. rewrite export_eq in *. pose proof (body_size idxs roots) as Hs. assert (#(MAGIC ++ body_bytes idxs roots) = 4 + #(body_bytes idxs roots)) as Hl by by rewrite len_app.
  pose proof (alike_bodies _ 4 Hb ltac:(lia)) as Ha. rewrite (reads_body _ _ Hok _ 4 []) in Ha by (rewrite app_nil_r; apply (At_app MAGIC)).
  destruct (manifest_body (MAGIC ++ _) 4) as [[[m p]|]| | |] eqn:Em; try done. destruct Ha as (-> & _ & Hd). apply manifest_end in Em as He. exists m. split_and!; [|lia|done].
  eapply decode_from; [lia|exact Em].
Qed.

Lemma manifest_prefix data n m : read_manifest (take n data) = Ret (inl m) → read_manifest data = Ret (inl m) ∧ m_end m ≤ #(take n data).
Proof.
  intros (p & Hm & Hb & Hgo)%decode_inv. pose proof (len_nonneg MAGIC). destruct (local_manifest (take n data) (drop n data) #MAGIC m p ltac:(lia) Hb) as [Hp Hb']. rewrite (manifest_end _ _ _ _ Hb).
  apply Hgo in Hb'. rewrite take_drop in Hb'. split; [done|lia].
Qed.

Lemma import_total data : bytes_ok data → ∃ r, import_snapshot data = Ret r.
Proof.
  intros Hb. pose proof (decode_alike _ 12 MAGIC _ _ data alike_bodies ltac:(done) Hb) as H. unfold import_snapshot. destruct (decode 12 MAGIC manifest_body data) as [[|]| | |], (decode 12 MAGIC import_body data) as [[|]| | |]; try done; eauto.
Qed.

(** Every proper prefix of an exported blob is refused. *)
Lemma truncated_snapshot idxs roots n : snapshot_ok idxs roots → bytes_ok (export_snapshot_sharded idxs roots) →
  (n < length (export_snapshot_sharded idxs roots))%nat →
  (∃ e, read_manifest (take n (export_snapshot_sharded idxs roots)) = Ret (inr e)) ∧
  (∃ e, import_snapshot (take n (export_snapshot_sharded idxs roots)) = Ret (inr e)).
Proof.
  intros Hok Hb Hn. destruct (exported_read _ _ Hok Hb) as (m & Hm & He & _). set (blob := export_snapshot_sharded idxs roots) in *.
  pose proof (decode_alike _ 12 MAGIC _ _ (take n blob) alike_bodies ltac:(done) (Forall_take _ _ _ Hb)) as H. fold (read_manifest (take n blob)) (import_snapshot (take n blob)) in H.
  destruct (read_manifest (take n blob)) as [[m'|e]| | |] eqn:E, (import_snapshot (take n blob)) as [[s|e']| | |]; try done; [|eauto].
  apply manifest_prefix in E as [E Hle]. rewrite Hm in E. injection E as <-. rewrite len_take in Hle. unfold len in *. lia.
Qed.

(** ** Results *)

(** C16. A snapshot imports back, or not at all: the index paths, the files of
    each index in their order with their bytes, the root files, and whether it
    was sharded (it is when it has root files), whatever bytes follow the
    blob; and every proper prefix of the blob makes both readers return an
    error. *)
Theorem snapshot_roundtrip idxs roots rest n : snapshot_ok idxs roots → bytes_ok (export_snapshot_sharded idxs roots) →
  (n < length (export_snapshot_sharded idxs roots))%nat →
  import_snapshot (export_snapshot_sharded idxs roots ++ rest) = Ret (inl (restored idxs roots)) ∧
  (∃ e, read_manifest (take n (export_snapshot_sharded idxs roots)) = Ret (inr e)) ∧
  (∃ e, import_snapshot (take n (export_snapshot_sharded idxs roots)) = Ret (inr e)).
Proof.
  intros Hok Hb Hn. split; [|by apply truncated_snapshot].
  rewrite export_eq, <- app_assoc. apply decode_reads; [by apply reads_body|]. rewrite len_app. pose proof (body_size idxs roots). change #MAGIC with 4. lia.
Qed.

(** C15. On any bytes, [read_manifest] and [import_snapshot] return, refuse
    together, and when they accept describe the same snapshot: the same
    sharded flag, the same paths, and entry by entry the same file name, the
    slice the entry points at being the file's bytes. *)
Theorem manifest_agrees_with_import data : bytes_ok data →
  match read_manifest data, import_snapshot data with
  | Ret (inl m), Ret (inl s) => describes data m s
  | Ret (inr _), Ret (inr _) => True
  | _, _ => False
  end.
Proof. intros Hb. exact (decode_alike _ 12 MAGIC _ _ data alike_bodies ltac:(done) Hb). Qed.

(** ** A worked snapshot: two shards and a root file *)

Definition sample_roots : list (list Z * list Z) := [([0x63; 0x66; 0x67], [123; 125])].
Definition sample_indexes : list SnapshotIndex :=
  [{| path := [0x73; 0x30]; files := [([0x6D], [7; 7; 7]); ([0x65], [])] |}; {| path := [0x73; 0x31]; files := [] |}].
Definition sample_blob : list Z := export_snapshot_sharded sample_indexes sample_roots.

Lemma sample_snapshot_ok : snapshot_ok sample_indexes sample_roots.
Proof.
  assert (∀ s, utf8_valid s = true → bool_decide (fits 32 #s) = true → name_ok s) as Hn by (intros s Hu Hf; split; [by apply bool_decide_eq_true in Hf|done]).
  split; [by vm_compute| |by vm_compute|].
  - repeat constructor; cbn; try (by apply Hn); by vm_compute.
  - repeat constructor; cbn; try (by apply Hn); by vm_compute.
Qed.

Lemma sample_blob_ok : bytes_ok sample_blob.
Proof. apply (bool_decide_eq_true_1 (Forall (fits 8) sample_blob)). by vm_compute. Qed.

Lemma snapshot_roundtrip_witness : import_snapshot (sample_blob ++ [9]) = Ret (inl (restored sample_indexes sample_roots)) ∧
  (∃ e, read_manifest (take 50 sample_blob) = Ret (inr e)) ∧ (∃ e, import_snapshot (take 50 sample_blob) = Ret (inr e)).
Proof. apply (snapshot_roundtrip sample_indexes sample_roots [9] 50 sample_snapshot_ok sample_blob_ok). vm_compute. lia. Defined.

Lemma manifest_agrees_with_import_witness : ∃ m s, read_manifest sample_blob = Ret (inl m) ∧ import_snapshot sample_blob = Ret (inl s) ∧ describes sample_blob m s.
Proof.
  pose proof (manifest_agrees_with_import sample_blob sample_blob_ok) as H. eexists _, _. split; [vm_compute; reflexivity|]. split; [vm_compute; reflexivity|]. exact H.
Defined.

(** A blob of the first version has no flag. *)
Example first_version_imports :
  import_snapshot (MAGIC ++ [1; 0; 0; 0; 1; 0; 0; 0; 2; 0; 0; 0; 0x2F; 0x61; 0; 0; 0; 0]) =
  Ret (inl {| root_files := []; indexes := [{| i_path := [0x2F; 0x61]; i_files := [] |}]; is_sharded := false |}).
Proof. by vm_compute. Qed.
