(* ===== verification/Delta.v ===== *)
(** * Deltas ([lucistore/src/delta.rs], [lucistore/src/delta_sharded.rs])

    LUCID: what a client must add and remove to go from one version of an
    index to another, in bytes; LUCIDS: one such delta per shard that
    changed.  Both formats are read back exactly, on any bytes the readers
    return, and a delta cut short is refused. *)
From S2P Require Import Prelude TermTexts Binary.
Import binary.

Module delta.

Definition MAGIC : list Z := [0x4C; 0x55; 0x43; 0x49; 0x44].
Definition VERSION : Z := 1.

Record SegmentBundle := { segment_id : list Z; files : list (list Z * list Z) }.

Record IndexDelta := {
  from_version : list Z;
  to_version : list Z;
  added_segments : list SegmentBundle;
  removed_segment_ids : list (list Z);
  meta : list Z;
  config : option (list Z);
}.

(** [Some(config)]: a byte 1 and the block; [None]: a byte 0. *)
Definition write_config (buf : list Z) (c : option (list Z)) : list Z :=
  match c with
  | Some config => write_block (buf ++ [1]) config
  | None => buf ++ [0]
  end.

Definition write_bundle (buf : list Z) (b : SegmentBundle) : list Z :=
  write_all write_file (write_string buf (segment_id b)) (files b).

Definition serialize_delta (d : IndexDelta) : list Z :=
  let buf := MAGIC ++ to_le_bytes 4 VERSION in
  let buf := write_string buf (from_version d) in
  let buf := write_string buf (to_version d) in
  let buf := write_all write_bundle buf (added_segments d) in
  let buf := write_all write_string buf (removed_segment_ids d) in
  let buf := write_block buf (meta d) in
  write_config buf (config d).

(** The labels of the messages, "meta" and "config". *)
Definition META : list Z := [0x6D; 0x65; 0x74; 0x61].
Definition CONFIG : list Z := [0x63; 0x6F; 0x6E; 0x66; 0x69; 0x67].

(** The configuration.  [deserialize_delta], which ends with it, does not move
    the position past its bytes; [deserialize_sharded_delta] does. *)
Definition read_config : reader (option (list Z)) :=
  has_config ← read_flag;
  if has_config =? 1 then (c ← read_block [CONFIG]; mret (Some c)) else mret None.

Definition read_bundle : reader SegmentBundle :=
  segment_id ← read_string;
  files ← read_all (read_file [segment_id]);
  mret {| segment_id := segment_id; files := files |}.

Definition delta_body : reader IndexDelta :=
  version ← read_u32;
  if negb (version =? VERSION) then fail (UnsupportedVersion version) else
  from_version ← read_string;
  to_version ← read_string;
  added ← read_all read_bundle;
  removed ← read_all read_string;
  meta ← read_block [META];
  config ← read_config;
  mret {| from_version := from_version; to_version := to_version; added_segments := added; removed_segment_ids := removed; meta := meta; config := config |}.

Definition deserialize_delta (data : list Z) : out (IndexDelta + Error) := decode 9 MAGIC delta_body data.

End delta.

Module sharded.
Import delta.

Definition MAGIC : list Z := [0x4C; 0x55; 0x43; 0x49; 0x44; 0x53].

Record ShardedDelta := {
  shard_deltas : list (Z * IndexDelta);
  shard_config : option (list Z);
  num_shards : Z;
}.

Definition write_shard (buf : list Z) (s : Z * IndexDelta) : list Z :=
  write_block (buf ++ to_le_bytes 4 (as_u32 (fst s))) (serialize_delta (snd s)).

Definition serialize_sharded_delta (d : ShardedDelta) : list Z :=
  let buf := MAGIC ++ to_le_bytes 4 1 ++ to_le_bytes 4 (as_u32 (num_shards d)) in
  let buf := write_config buf (shard_config d) in
  write_all write_shard buf (shard_deltas d).

(** [f(..)?] in a reader. *)
Definition lift {A} (o : out (A + Error)) : reader A := λ data pos,
  r ← o; Ret (match r with inl a => inl (a, pos) | inr e => inr e end).

Definition read_shard : reader (Z * IndexDelta) :=
  shard_id ← read_u32;
  blob ← read_block [[shard_id]];
  shard_delta ← lift (deserialize_delta blob);
  mret (shard_id, shard_delta).

Definition sharded_body : reader ShardedDelta :=
  version ← read_u32;
  if negb (version =? 1) then fail (UnsupportedVersion version) else
  num_shards ← read_u32;
  shard_config ← read_config;
  shard_deltas ← read_all read_shard;
  mret {| shard_deltas := shard_deltas; shard_config := shard_config; num_shards := num_shards |}.

Definition deserialize_sharded_delta (data : list Z) : out (ShardedDelta + Error) := decode 14 MAGIC sharded_body data.

End sharded.
Import delta sharded.

(** ** What can be written *)

Definition config_ok (c : option (list Z)) : Prop := match c with Some c => fits 32 #c | None => True end.

Record bundle_ok (b : SegmentBundle) : Prop := {
  bo_id : name_ok (segment_id b);
  bo_count : fits 32 #(files b);
  bo_files : Forall file_ok (files b);
}.

Record delta_ok (d : IndexDelta) : Prop := {
  do_from : name_ok (from_version d);
  do_to : name_ok (to_version d);
  do_count : fits 32 #(added_segments d);
  do_added : Forall bundle_ok (added_segments d);
  do_removed : fits 32 #(removed_segment_ids d);
  do_ids : Forall name_ok (removed_segment_ids d);
  do_meta : fits 32 #(meta d);
  do_config : config_ok (config d);
}.

Record sharded_ok (d : ShardedDelta) : Prop := {
  sho_num : fits 32 (num_shards d);
  sho_config : config_ok (shard_config d);
  sho_count : fits 32 #(shard_deltas d);
  sho_ids : Forall (λ s, fits 32 (fst s)) (shard_deltas d);
  sho_deltas : Forall (λ s, delta_ok (snd s)) (shard_deltas d);
  sho_sizes : Forall (λ s, fits 32 #(serialize_delta (snd s))) (shard_deltas d);
}.

(** ** Layouts *)

Definition config_bytes (c : option (list Z)) : list Z := match c with Some c => 1 :: block c | None => [0] end.
Definition bundle_bytes (b : SegmentBundle) : list Z := block (segment_id b) ++ all_bytes_of file_bytes (files b).
Definition delta_bytes (d : IndexDelta) : list Z :=
  to_le_bytes 4 VERSION ++ block (from_version d) ++ block (to_version d) ++ all_bytes_of bundle_bytes (added_segments d) ++
  all_bytes_of block (removed_segment_ids d) ++ block (meta d) ++ config_bytes (config d).
Definition shard_bytes (s : Z * IndexDelta) : list Z := to_le_bytes 4 (as_u32 (fst s)) ++ block (serialize_delta (snd s)).
Definition sharded_bytes (d : ShardedDelta) : list Z :=
  to_le_bytes 4 1 ++ to_le_bytes 4 (as_u32 (num_shards d)) ++ config_bytes (shard_config d) ++ all_bytes_of shard_bytes (shard_deltas d).

Lemma write_config_eq buf c : write_config buf c = buf ++ config_bytes c.
Proof. destruct c; [|done]. unfold write_config. rewrite write_block_eq. by rewrite <- app_assoc. Qed.

Lemma write_bundle_eq buf b : write_bundle buf b = buf ++ bundle_bytes b.
Proof. unfold write_bundle. rewrite (write_all_eq _ file_bytes) by apply write_file_eq. rewrite write_string_eq. by rewrite <- app_assoc. Qed.

Lemma serialize_delta_eq d : serialize_delta d = delta.MAGIC ++ delta_bytes d.
Proof.
  unfold serialize_delta, delta_bytes. rewrite write_config_eq, write_block_eq, (write_all_eq _ block) by apply write_string_eq. rewrite (write_all_eq _ bundle_bytes) by apply write_bundle_eq.
  rewrite !write_string_eq. by rewrite <- !app_assoc.
Qed.

Lemma write_shard_eq buf s : write_shard buf s = buf ++ shard_bytes s.
Proof. unfold write_shard. rewrite write_block_eq. by rewrite <- app_assoc. Qed.

Lemma serialize_sharded_eq d : serialize_sharded_delta d = sharded.MAGIC ++ sharded_bytes d.
Proof. unfold serialize_sharded_delta, sharded_bytes. rewrite (write_all_eq _ shard_bytes) by apply write_shard_eq. rewrite write_config_eq. by rewrite <- !app_assoc. Qed.

(** ** Reading back *)

Lemma reads_config c : config_ok c → reads read_config (config_bytes c) c.
Proof.
  destruct c as [c|]; intros Hc; [|apply (reads_bind read_flag _ [0] [] 0); [apply reads_flag|apply reads_ret]].
  apply (reads_bind read_flag _ [1] (block c) 1); [apply reads_flag|]. cbn [Z.eqb Pos.eqb]. rewrite <- (app_nil_r (block c)). eapply reads_bind; [by apply reads_block|apply reads_ret].
Qed.

Lemma reads_bundle b : bundle_ok b → reads read_bundle (bundle_bytes b) b.
Proof.
  destruct b as [i fs]. intros [Hi Hc Hf]. rewrite Forall_forall in Hf. eapply reads_bind; [by apply reads_string|]. rewrite <- (app_nil_r (all_bytes_of _ _)).
  eapply reads_bind; [|apply reads_ret]. apply reads_all; [done|]. intros f Hin. apply reads_file. by apply Hf.
Qed.

Lemma reads_delta d : delta_ok d → reads delta_body (delta_bytes d) d.
Proof.
  destruct d as [f t a r m c]. intros [Hf Ht Hc Ha Hr Hi Hm Hg]. rewrite Forall_forall in Ha. rewrite Forall_forall in Hi. unfold delta_bytes. cbn [from_version to_version added_segments removed_segment_ids meta config] in *.
  eapply reads_bind; [apply (u32_bytes 1); widths; lia|]. cbn [VERSION Z.eqb Pos.eqb negb]. eapply reads_bind; [by apply reads_string|]. eapply reads_bind; [by apply reads_string|].
  eapply reads_bind; [apply reads_all; [done|]; intros b Hb; apply reads_bundle; by apply Ha|]. eapply reads_bind; [apply reads_all; [done|]; intros b Hb; apply reads_string; by apply Hi|].
  eapply reads_bind; [by apply reads_block|]. rewrite <- (app_nil_r (config_bytes _)). eapply reads_bind; [by apply reads_config|apply reads_ret].
Qed.

Lemma delta_size d : 4 ≤ #(delta_bytes d).
Proof. unfold delta_bytes. rewrite len_app, len_to_le_bytes. match goal with |- _ ≤ _ + #?l => pose proof (len_nonneg l) end. lia. Qed.

Lemma delta_read d rest : delta_ok d → deserialize_delta (serialize_delta d ++ rest) = Ret (inl d).
Proof. intros Hd. rewrite serialize_delta_eq, <- app_assoc. apply decode_reads; [by apply reads_delta|]. rewrite len_app. pose proof (delta_size d). change #delta.MAGIC with 5. lia. Qed.

Lemma reads_shard s : fits 32 (fst s) → delta_ok (snd s) → fits 32 #(serialize_delta (snd s)) → reads read_shard (shard_bytes s) s.
Proof.
  destruct s as [i d]. cbn [fst snd]. intros Hi Hd Hs. eapply reads_bind; [by apply u32_bytes|]. rewrite <- (app_nil_r (block _)). eapply reads_bind; [by apply reads_block|].
  pose proof (delta_read d [] Hd) as E. rewrite app_nil_r in E. cbn [fst snd]. rewrite E. intros data pos rest _. cbn. by rewrite Z.add_0_r.
Qed.

Lemma reads_sharded d : sharded_ok d → reads sharded_body (sharded_bytes d) d.
Proof.
  destruct d as [ds c n]. intros [Hn Hc Hd Hi Ho Hz]. rewrite Forall_forall in Hi. rewrite Forall_forall in Ho. rewrite Forall_forall in Hz. unfold sharded_bytes. cbn [num_shards shard_config shard_deltas] in *.
  eapply reads_bind; [apply (u32_bytes 1); widths; lia|]. cbn [Z.eqb Pos.eqb negb]. eapply reads_bind; [by apply u32_bytes|]. eapply reads_bind; [by apply reads_config|].
  rewrite <- (app_nil_r (all_bytes_of _ _)). eapply reads_bind; [|apply reads_ret]. apply reads_all; [done|]. intros s Hs. apply reads_shard; [by apply Hi|by apply Ho|by apply Hz].
Qed.

(** ** Any bytes *)

Lemma safe_config : safe read_config.
Proof. apply safe_bind; [auto with readers|]. intros b. case_match; eauto with readers. Qed.

Lemma local_config : local read_config.
Proof. apply local_bind; [auto with readers|]. intros b. case_match; eauto with readers. Qed.

Lemma safe_bundle : safe read_bundle.
Proof. unfold read_bundle. eauto 10 with readers. Qed.

Lemma local_bundle : local read_bundle.
Proof. unfold read_bundle. eauto 10 with readers. Qed.

#[export] Hint Resolve safe_config local_config safe_bundle local_bundle : readers.

Lemma safe_delta : safe delta_body.
Proof. apply safe_bind; [auto with readers|]. intros v. case_match; [auto with readers|]. repeat (apply safe_bind; [auto with readers|intros ?]). auto with readers. Qed.

Lemma local_delta : local delta_body.
Proof. apply local_bind; [auto with readers|]. intros v. case_match; [auto with readers|]. repeat (apply local_bind; [auto with readers|intros ?]). auto with readers. Qed.

Lemma delta_total data : bytes_ok data → ∃ r, deserialize_delta data = Ret r.
Proof. intros Hb. apply decode_returns; [apply safe_delta|done|done]. Qed.

(** A block read from bytes is bytes. *)
Lemma safe_after_block {A} what (f : list Z → reader A) : (∀ s, bytes_ok s → safe (f s)) → safe (read_block what ≫= f).
Proof.
  intros Hf data pos Hb Hp. rewrite bind_unfold. pose proof (safe_block what data pos Hb Hp) as Hs. destruct (read_block what data pos) as [[[s p]|]| | |] eqn:E; try done.
  assert (bytes_ok s) as Hbs.
  { apply reader_inv in E as (n & q & _ & E). unfold take_bytes in E. destruct (#data <? q + n); [done|]. destruct (slice data q (q + n)) eqn:Es; try done. rewrite bind_ret in E. injection E as <- _. by eapply slice_ok. }
  specialize (Hf s Hbs data p Hb ltac:(lia)). destruct (f s data p) as [[[a r]|]| | |]; try done. lia.
Qed.

Lemma safe_shard : safe read_shard.
Proof.
  apply safe_bind; [auto with readers|]. intros i. apply safe_after_block. intros s Hs. apply safe_bind; [|auto with readers]. destruct (delta_total s Hs) as [r ->]. intros data pos _ Hp. destruct r; cbn; [lia|done].
Qed.

Lemma local_shard : local read_shard.
Proof.
  apply local_bind; [auto with readers|]. intros i. apply local_bind; [auto with readers|]. intros s. apply local_bind; [|auto with readers]. intros data more pos a p Hp. unfold lift.
  destruct (deserialize_delta s) as [[d|e]| | |]; try done. cbn. intros [= <- <-]. split; [lia|done].
Qed.

#[export] Hint Resolve safe_shard local_shard : readers.

Lemma safe_sharded : safe sharded_body.
Proof. apply safe_bind; [auto with readers|]. intros v. case_match; [auto with readers|]. repeat (apply safe_bind; [auto with readers|intros ?]). auto with readers. Qed.

Lemma local_sharded : local sharded_body.
Proof. apply local_bind; [auto with readers|]. intros v. case_match; [auto with readers|]. repeat (apply local_bind; [auto with readers|intros ?]). auto with readers. Qed.

Lemma sharded_delta_read d rest : sharded_ok d → deserialize_sharded_delta (serialize_sharded_delta d ++ rest) = Ret (inl d).
Proof.
  intros Hd. rewrite serialize_sharded_eq, <- app_assoc. apply decode_reads; [by apply reads_sharded|]. unfold sharded_bytes. rewrite !len_app, !len_to_le_bytes. change #sharded.MAGIC with 6.
  pose proof (len_nonneg (config_bytes (shard_config d))). pose proof (len_nonneg (all_bytes_of shard_bytes (shard_deltas d))). lia.
Qed.

(** ** Results *)

(** A sharded delta is read back exactly (every shard's delta with its
    versions, its bundles and their files, the ids to remove, the manifest and
    the optional configuration), whatever follows it, and every proper prefix
    of it is refused with an error. *)
Theorem sharded_delta_roundtrip d rest n : sharded_ok d → bytes_ok (serialize_sharded_delta d) → (n < length (serialize_sharded_delta d))%nat →
  deserialize_sharded_delta (serialize_sharded_delta d ++ rest) = Ret (inl d) ∧ ∃ e, deserialize_sharded_delta (take n (serialize_sharded_delta d)) = Ret (inr e).
Proof.
  intros Hd Hs Hn. split; [by apply sharded_delta_read|]. rewrite serialize_sharded_eq in *.
  eapply decode_truncated; [by apply reads_sharded|apply local_sharded|apply safe_sharded|done|done|done].
Qed.

Lemma sharded_delta_total data : bytes_ok data → ∃ r, deserialize_sharded_delta data = Ret r.
Proof. intros Hb. apply decode_returns; [apply safe_sharded|done|done]. Qed.

(** ** A worked delta *)

Definition sample_delta : ShardedDelta :=
  {| shard_deltas := [(2, {| from_version := [0x61]; to_version := [0x62]; added_segments := [{| segment_id := [0x73]; files := [([0x73; 0x2E], [1; 2])] |}];
       removed_segment_ids := [[0x6F]]; meta := [123; 125]; config := None |})];
     shard_config := Some [7]; num_shards := 4 |}.

Lemma sample_delta_ok : sharded_ok sample_delta.
Proof.
  assert (∀ s, utf8_valid s && bool_decide (fits 32 #s) = true → name_ok s) as Hn by (intros s [Hu Hf]%andb_true_iff; split; [by apply bool_decide_eq_true in Hf|done]).
  split; repeat constructor; cbn; try (by apply Hn); by vm_compute.
Qed.

Lemma sharded_delta_roundtrip_witness :
  deserialize_sharded_delta (serialize_sharded_delta sample_delta ++ [0]) = Ret (inl sample_delta) ∧ ∃ e, deserialize_sharded_delta (take 70 (serialize_sharded_delta sample_delta)) = Ret (inr e).
Proof.
  apply (sharded_delta_roundtrip sample_delta [0] 70 sample_delta_ok); [|vm_compute; lia].
  apply (bool_decide_eq_true_1 (Forall (fits 8) (serialize_sharded_delta sample_delta))). vm_compute. reflexivity.
Defined.
