(* ===== verification/Sync.v ===== *)
(** * Incremental synchronisation
      ([lucistore/src/version.rs], [sync_server.rs], [delta.rs], [fs_utils.rs] and [lucivy_core/src/sync.rs])

    A server keeps the last versions of each shard and the ids of the bundles
    (segments, dictionary generations) each version had.  A client says which
    bundles it holds; the server sends the new ones and the new manifest as a
    delta, and the client applies it to its directory.  The file system is a
    parameter: what it does with each operation, and whether it succeeds. *)
From stdpp Require Import gmap.
From S2P Require Import Prelude TermTexts Binary Delta.
Import binary delta sharded.
Open Scope Z_scope.

(** Strings and file names are their bytes. *)
Abbreviation str := (list Z).

Module version.

Definition fnv1a_64 (data : list Z) (offset_basis : Z) : Z :=
  fold_left (λ hash byte, as_u64 (Z.lxor hash byte * 0x100000001b3)) data offset_basis.

(** [{:016x}]. *)
Definition hex_digit (d : Z) : Z := if d <? 10 then 0x30 + d else 0x57 + d.
Definition hex16 (h : Z) : str := map (λ k, hex_digit (Z.land (Z.shiftr h (4 * (15 - k))) 15)) (seqZ 0 16).

Definition compute_version_from_bytes (data : list Z) : str :=
  hex16 (fnv1a_64 data 0xcbf29ce484222325) ++ hex16 (fnv1a_64 data 0x6c62272e07bb0142).

End version.
Import version.

Module server.

Record VersionEntry := { version : str; segment_ids : gset str }.

Inductive SyncResponse :=
  | ClientSegments (version : str) (segment_ids : gset str)
  | FullSnapshot
  | UpToDate.

Record SyncServer := {
  shard_histories : list (list VersionEntry);
  max_history : Z;
  srv_shards : Z;
}.

(** "shard_id >= num_shards". *)
Inductive RangeError := ShardOutOfRange (shard_id num_shards : Z).

Definition new (max : Z) : SyncServer := {| shard_histories := [[]]; max_history := max; srv_shards := 1 |}.

Definition new_sharded (n max : Z) : SyncServer :=
  {| shard_histories := replicate (Z.to_nat n) []; max_history := max; srv_shards := n |}.

Definition set_history (s : SyncServer) (i : Z) (h : list VersionEntry) : SyncServer :=
  {| shard_histories := set_at i h (shard_histories s); max_history := max_history s; srv_shards := srv_shards s |}.

Definition record_version (s : SyncServer) (shard_id : Z) (v : str) (ids : gset str) : out (SyncServer + RangeError) :=
  if srv_shards s <=? shard_id then Ret (inr (ShardOutOfRange shard_id (srv_shards s))) else
  history ← index (shard_histories s) shard_id;
  if bool_decide (version <$> last history = Some v) then Ret (inl s) else
  let history := if max_history s <=? #history then drop 1 history else history in
  Ret (inl (set_history s shard_id (history ++ [{| version := v; segment_ids := ids |}]))).

Definition record (s : SyncServer) (v : str) (ids : gset str) : out (SyncServer + RangeError) := record_version s 0 v ids.

Definition current_version (s : SyncServer) (shard_id : Z) : out str :=
  h ← get (shard_histories s) shard_id;
  e ← of_option (last h);
  Ret (version e).

Definition lookup_version (s : SyncServer) (shard_id : Z) (client : str) : out (SyncResponse + RangeError) :=
  if srv_shards s <=? shard_id then Ret (inr (ShardOutOfRange shard_id (srv_shards s))) else
  history ← index (shard_histories s) shard_id;
  if bool_decide (version <$> last history = Some client) then Ret (inl UpToDate) else
  match List.find (λ e, bool_decide (version e = client)) history with
  | Some e => Ret (inl (ClientSegments (version e) (segment_ids e)))
  | None => Ret (inl FullSnapshot)
  end.

Definition lookup_single (s : SyncServer) (client : str) : out (SyncResponse + RangeError) := lookup_version s 0 client.

End server.
Import server.

Module export.

(** The messages of an export. *)
Inductive Failure := Uncommitted | Exporter (message : str).

Definition result (A : Type) : Type := A + Failure.
#[export] Instance result_ret : MRet result := λ A a, inl a.
#[export] Instance result_bind : MBind result := λ A B f r, match r with inl a => f a | inr e => inr e end.

(** [for x in l { ... ? }]. *)
Fixpoint each {A B} (f : A → result B) (l : list A) : result (list B) :=
  match l with
  | [] => inl []
  | a :: l => b ← f a; bs ← each f l; mret (b :: bs)
  end.

(** The trait an engine implements. *)
Record DeltaExporter := {
  current_bundle_ids : result (gset str);
  read_manifest : result (list Z);
  read_bundle_files : str → result (list (str * list Z));
  read_config : option (list Z);
  has_uncommitted : bool;
}.

(** ".del" *)
Definition DEL : str := [0x2E; 0x64; 0x65; 0x6C].
Definition ends_with (n suffix : str) : bool := bool_decide (suffix `suffix_of` n).
Definition starts_with (n p : str) : bool := bool_decide (p `prefix_of` n).

Section Export.
(** The order in which a [HashSet] is iterated. *)
Variable iter : gset str → list str.

(** [a.difference(&b)], and [a.intersection(&b)], which walks the smaller. *)
Definition difference (a b : gset str) : list str := filter (.∉ b) (iter a).
Definition intersection (a b : gset str) : list str :=
  if (size a <=? size b)%nat then filter (.∈ b) (iter a) else filter (.∈ a) (iter b).

Definition read_bundle_of (e : DeltaExporter) (id : str) : result SegmentBundle :=
  files ← read_bundle_files e id; mret {| delta.segment_id := id; delta.files := files |}.

(** The delete files of a bundle both sides hold, if it has any. *)
Definition read_deletes (e : DeltaExporter) (id : str) : result (list SegmentBundle) :=
  fs ← read_bundle_files e id;
  let files := filter (λ f, ends_with (fst f) DEL) fs in
  mret (match files with [] => [] | _ => [{| delta.segment_id := id; delta.files := files |}] end).

Definition export_delta_from (e : DeltaExporter) (client_ids : gset str) (client_version : str) : result IndexDelta :=
  if has_uncommitted e then inr Uncommitted else
  manifest ← read_manifest e;
  current ← current_bundle_ids e;
  let added := difference current client_ids in
  let removed := difference client_ids current in
  added_segments ← each (read_bundle_of e) added;
  deletes ← each (read_deletes e) (intersection current client_ids);
  mret {| from_version := client_version; to_version := compute_version_from_bytes manifest;
          added_segments := added_segments ++ concat deletes; removed_segment_ids := removed;
          meta := manifest; config := read_config e |}.

(** Per-shard version info sent by the client. *)
Record ShardVersion := { sv_shard_id : Z; sv_version : str; sv_segment_ids : gset str }.

(** A shard's handle: what reading [meta.json] gives, and the exporter made for
    it, which reads [meta.json] again, once, for all its answers. *)
Record ShardHandle := { read_meta_bytes : result (list Z); exporter : DeltaExporter }.

Definition compute_version (h : ShardHandle) : result str :=
  meta_bytes ← read_meta_bytes h;
  mret (compute_version_from_bytes meta_bytes).

(** One shard of [export_sharded_delta]: its delta, or nothing when it was not
    asked for or has not changed. *)
Definition export_shard (client_versions : list ShardVersion) (requested : option (gset Z)) (s : Z * ShardHandle) : result (list (Z * IndexDelta)) :=
  if match requested with Some r => bool_decide (fst s ∉ r) | None => false end then mret [] else
  match List.find (λ sv, sv_shard_id sv =? fst s) client_versions with
  | Some sv =>
      current_version ← compute_version (snd s);
      if bool_decide (current_version = sv_version sv) then mret [] else
      d ← export_delta_from (exporter (snd s)) (sv_segment_ids sv) (sv_version sv);
      mret [(fst s, d)]
  | None => d ← export_delta_from (exporter (snd s)) ∅ []; mret [(fst s, d)]
  end.

Definition export_sharded_delta (shards : list (Z * ShardHandle)) (client_versions : list ShardVersion) (requested : option (gset Z)) (config : option (list Z)) : result ShardedDelta :=
  deltas ← each (export_shard client_versions requested) shards;
  mret {| shard_deltas := concat deltas; shard_config := config; num_shards := #shards |}.

End Export.
End export.
Import export.

Module fs_utils.

(** A directory of files, and what is asked of the file system there. *)
Abbreviation Dir := (gmap str (list Z)).
Inductive fs_op :=
  | Write (name : str) (data : list Z)
  | ListDir
  | Remove (name : str)
  | Rename (from to : str)
  | CreateDir.

(** What an operation that succeeds does. *)
Definition run_op (dir : Dir) (op : fs_op) : Dir :=
  match op with
  | Write n d => <[n := d]> dir
  | ListDir | CreateDir => dir
  | Remove n => delete n dir
  | Rename a b => match dir !! a with Some d => <[b := d]> (delete a dir) | None => dir end
  end.

(** "meta.json", "meta.json.tmp", "_config.json", "_shard_config.json". *)
Definition META_JSON : str := [0x6D; 0x65; 0x74; 0x61; 0x2E; 0x6A; 0x73; 0x6F; 0x6E].
Definition META_TMP : str := META_JSON ++ [0x2E; 0x74; 0x6D; 0x70].
Definition CONFIG_JSON : str := [0x5F; 0x63; 0x6F; 0x6E; 0x66; 0x69; 0x67; 0x2E; 0x6A; 0x73; 0x6F; 0x6E].
Definition SHARD_CONFIG : str := [0x5F; 0x73; 0x68; 0x61; 0x72; 0x64] ++ CONFIG_JSON.

Section Apply.
(** The file system: the directory after the operation, and whether it
    succeeded. *)
Variable exec : Dir → fs_op → Dir * bool.

(** A state that stops at the first failure: [?] after an operation. *)
Definition applied : Type := Dir * (() + fs_op).
Definition step (st : applied) (op : fs_op) : applied :=
  match st with
  | (dir, inl ()) => let '(dir', ok) := exec dir op in (dir', if ok : bool then inl () else inr op)
  | _ => st
  end.

(** [let _ = std::fs::remove_file(..)]. *)
Definition remove_file (dir : Dir) (n : str) : Dir := fst (exec dir (Remove n)).

(** 1. Every file of every added bundle. *)
Definition write_added (st : applied) (bundles : list SegmentBundle) : applied :=
  fold_left (λ st b, fold_left (λ st f, step st (Write (fst f) (snd f))) (delta.files b) st) bundles st.

(** 2. Every file named after a removed bundle. *)
Definition remove_retired (st : applied) (removed : list str) : applied :=
  match removed with
  | [] => st
  | _ =>
      match step st ListDir with
      | (dir, inl ()) =>
          (fold_left (λ dir name, fold_left (λ dir id, if starts_with name id then remove_file dir name else dir) removed dir) (map_to_list dir).*1 dir, inl ())
      | st => st
      end
  end.

Definition apply_delta (dir : Dir) (d : IndexDelta) : applied :=
  let st := write_added (dir, inl ()) (added_segments d) in
  let st := remove_retired st (removed_segment_ids d) in
  let st := step st (Write META_TMP (meta d)) in
  let st := step st (Rename META_TMP META_JSON) in
  match config d with
  | Some c => step st (Write CONFIG_JSON c)
  | None => st
  end.

(** A base directory: its own files, and the directory of each shard. *)
Record Base := { root : Dir; shards : gmap Z Dir }.

(** [create_dir_all] of the shard's directory, then its delta. *)
Definition apply_shard (st : Base * (() + fs_op)) (s : Z * IndexDelta) : Base * (() + fs_op) :=
  match st with
  | (b, inl ()) =>
      match step (default ∅ (shards b !! fst s), inl ()) CreateDir with
      | (dir, inl ()) =>
          let '(dir, r) := apply_delta dir (snd s) in
          ({| root := root b; shards := <[fst s := dir]> (shards b) |}, r)
      | (_, inr op) => (b, inr op)
      end
  | _ => st
  end.

Definition apply_sharded_delta (b : Base) (d : ShardedDelta) : Base * (() + fs_op) :=
  let st :=
    match shard_config d with
    | Some c => let '(dir, r) := step (step (root b, inl ()) CreateDir) (Write SHARD_CONFIG c) in ({| root := dir; shards := shards b |}, r)
    | None => (b, inl ())
    end in
  fold_left apply_shard (shard_deltas d) st.

End Apply.
End fs_utils.
Import fs_utils.

(** ** Incremental synchronisation: the proofs

    The history a server keeps, what a delta holds, and the directory it
    makes of the client's. *)
Import binary delta sharded version server export fs_utils.
Open Scope Z_scope.

(** ** The history *)

(** Everything recorded for a shard, a version recorded twice in a row once. *)
Definition log_step (log : list VersionEntry) (v : str) (ids : gset str) : list VersionEntry :=
  if bool_decide (server.version <$> last log = Some v) then log else log ++ [{| server.version := v; segment_ids := ids |}].
Definition shard_log (i : Z) (rs : list (Z * str * gset str)) : list VersionEntry :=
  fold_left (λ log r, if fst (fst r) =? i then log_step log (snd (fst r)) (snd r) else log) rs [].

(** The last [cap] entries; at least one is kept. *)
Definition recent (cap : nat) (log : list VersionEntry) : list VersionEntry := drop (length log - cap) log.
Definition capacity (max : Z) : nat := Z.to_nat (Z.max 1 max).

Definition answer (max : Z) (log : list VersionEntry) (client : str) : SyncResponse :=
  if bool_decide (server.version <$> last log = Some client) then UpToDate else
  match List.find (λ e, bool_decide (server.version e = client)) (recent (capacity max) log) with
  | Some e => ClientSegments (server.version e) (segment_ids e)
  | None => FullSnapshot
  end.

Fixpoint record_all (s : SyncServer) (rs : list (Z * str * gset str)) : out (SyncServer + RangeError) :=
  match rs with
  | [] => Ret (inl s)
  | (i, v, ids) :: rs => r ← record_version s i v ids; match r with inl s => record_all s rs | inr e => Ret (inr e) end
  end.

Lemma last_recent cap log : (0 < cap)%nat → last (recent cap log) = last log.
Proof.
  intros Hc. unfold recent. destruct (decide (length log ≤ cap)%nat); [by replace (length log - cap)%nat with 0%nat by lia|].
  rewrite <- (take_drop (length log - cap) log) at 3. rewrite last_app. destruct (last (drop _ log)) eqn:E; [done|]. apply last_None in E. apply (f_equal length) in E. rewrite length_drop in E. cbn in E. lia.
Qed.

Lemma recent_snoc max log e : let h := recent (capacity max) log in
  (if max <=? #h then drop 1 h else h) ++ [e] = recent (capacity max) (log ++ [e]).
Proof.
  cbn. unfold recent, capacity. set (cap := Z.to_nat (Z.max 1 max)). assert (#(drop (length log - cap) log) = Z.min #log (Z.max 1 max)) as -> by (unfold len; rewrite length_drop; lia).
  rewrite length_app. cbn [length]. destruct (decide (length log < cap)%nat).
  - replace (length log - cap)%nat with 0%nat by lia. replace (length log + 1 - cap)%nat with 0%nat by lia. cbn [drop]. destruct (Z.leb_spec max (Z.min #log (Z.max 1 max))); [|done].
    assert (log = []) as -> by (apply length_zero_iff_nil; unfold len in *; lia). done.
  - replace (max <=? Z.min #log (Z.max 1 max)) with true by (unfold len; lia). rewrite drop_drop. replace (length log - cap + 1)%nat with (length log + 1 - cap)%nat by lia.
    rewrite (drop_app_le log) by lia. done.
Qed.

(** The state after some records: each history is the recent part of the log. *)
Definition server_inv (n max : Z) (log : Z → list VersionEntry) (s : SyncServer) : Prop :=
  srv_shards s = n ∧ max_history s = max ∧ #(shard_histories s) = n ∧ ∀ i, 0 ≤ i < n → shard_histories s !! Z.to_nat i = Some (recent (capacity max) (log i)).

Lemma record_inv n max log s i v ids : server_inv n max log s → 0 ≤ i < n →
  ∃ s', record_version s i v ids = Ret (inl s') ∧ server_inv n max (λ j, if i =? j then log_step (log j) v ids else log j) s'.
Proof.
  intros (Hn & Hm & Hl & Hh) Hi. unfold record_version. rewrite Hn. case_lia. rewrite (index_lookup _ i _ (proj1 Hi) (Hh i Hi)), bind_ret. unfold log_step.
  rewrite last_recent by (unfold capacity; lia). case_bool_decide as E.
  - exists s. split; [done|]. split_and!; try done. intros j Hj. rewrite Hh by done. destruct (Z.eqb_spec i j) as [<-|]; [|done]. by rewrite bool_decide_eq_true_2.
  - rewrite Hm, recent_snoc. eexists. split; [done|]. split_and!; cbn; try done; [unfold set_at; by rewrite len_insert|]. intros j Hj. unfold set_at. destruct (Z.eqb_spec i j) as [<-|Hne].
    + rewrite list_lookup_insert_eq by (unfold len in *; lia). by rewrite bool_decide_eq_false_2.
    + rewrite list_lookup_insert_ne by lia. by apply Hh.
Qed.

Lemma record_all_inv n max rs : ∀ log s, server_inv n max log s → Forall (λ r, 0 ≤ fst (fst r) < n) rs →
  ∃ s', record_all s rs = Ret (inl s') ∧ server_inv n max (λ j, fold_left (λ log r, if fst (fst r) =? j then log_step log (snd (fst r)) (snd r) else log) rs (log j)) s'.
Proof.
  induction rs as [|[[i v] ids] rs IH]; intros log s Hs Hr; [by exists s|]. inversion Hr as [|? ? Hi Hr']; subst. destruct (record_inv _ _ _ _ i v ids Hs Hi) as (s1 & E & H1).
  destruct (IH _ s1 H1 Hr') as (s' & E' & H'). exists s'. cbn [record_all]. by rewrite E, bind_ret.
Qed.

Lemma server_start n max : 0 ≤ n → server_inv n max (λ _, []) (new_sharded n max).
Proof. intros Hn. split_and!; cbn; try done; [rewrite len_replicate; lia|]. intros i Hi. by rewrite lookup_replicate_2 by lia. Qed.

Lemma lookup_answer n max log s i client : server_inv n max log s → 0 ≤ i < n → lookup_version s i client = Ret (inl (answer max (log i) client)).
Proof.
  intros (Hn & Hm & Hl & Hh) Hi. unfold lookup_version, answer. rewrite Hn. case_lia. rewrite (index_lookup _ i _ (proj1 Hi) (Hh i Hi)), bind_ret. rewrite last_recent by (unfold capacity; lia).
  case_bool_decide; [done|]. by destruct (List.find _ _).
Qed.

(** ** What a delta holds *)

Lemma each_map {A B} (f : A → result B) g l : (∀ a, a ∈ l → f a = inl (g a)) → each f l = inl (map g l).
Proof. induction l as [|a l IH]; intros Hf; [done|]. cbn. rewrite Hf by left. cbn. rewrite IH by (intros b Hb; apply Hf; by right). done. Qed.

Lemma elem_joined {A} (x : A) ls : x ∈ concat ls ↔ ∃ l, x ∈ l ∧ l ∈ ls.
Proof. rewrite list_elem_of_In, in_concat. setoid_rewrite list_elem_of_In. naive_solver. Qed.

(** A server at rest: the bundles of its manifest and the files of each. *)
Record server_state (e : DeltaExporter) (cur : gset str) (F : str → list (str * list Z)) (M : list Z) : Prop := {
  st_committed : has_uncommitted e = false;
  st_manifest : read_manifest e = inl M;
  st_ids : current_bundle_ids e = inl cur;
  st_files : ∀ b, b ∈ cur → read_bundle_files e b = inl (F b);
}.

Section Exported.
Variable iter : gset str → list str.
Hypothesis iter_elements : ∀ s, iter s ≡ₚ elements s.

Lemma elem_difference a b x : x ∈ difference iter a b ↔ x ∈ a ∧ x ∉ b.
Proof using iter_elements. unfold difference. rewrite list_elem_of_filter, iter_elements, elem_of_elements. naive_solver. Qed.

Lemma elem_intersection a b x : x ∈ intersection iter a b ↔ x ∈ a ∧ x ∈ b.
Proof using iter_elements. unfold intersection. case_match; rewrite list_elem_of_filter, iter_elements, elem_of_elements; naive_solver. Qed.

(** The files a delta carries: all of the new bundles, the delete files of the
    common ones. *)
Definition sent (cur K : gset str) (F : str → list (str * list Z)) (f : str * list Z) : Prop :=
  ∃ b, b ∈ cur ∧ f ∈ F b ∧ (b ∉ K ∨ ends_with (fst f) DEL = true).

Definition files_of (bs : list SegmentBundle) : list (str * list Z) := concat (map delta.files bs).

Lemma export_spec e cur F M K v : server_state e cur F M → ∃ d, export_delta_from iter e K v = inl d ∧ meta d = M ∧ config d = export.read_config e ∧
  from_version d = v ∧ to_version d = compute_version_from_bytes M ∧ (∀ x, x ∈ removed_segment_ids d ↔ x ∈ K ∧ x ∉ cur) ∧ (∀ f, f ∈ files_of (added_segments d) ↔ sent cur K F f).
Proof using iter_elements.
  intros [Hu Hm Hi Hf]. unfold export_delta_from. rewrite Hu, Hm, Hi. cbn.
  rewrite (each_map _ (λ id, {| delta.segment_id := id; delta.files := F id |})) by (intros b [Hb _]%elem_difference; unfold read_bundle_of; by rewrite Hf). cbn.
  rewrite (each_map _ (λ id, match filter (λ f, ends_with f.1 DEL) (F id) with [] => [] | fs => [{| delta.segment_id := id; delta.files := fs |}] end))
    by (intros b [Hb _]%elem_intersection; unfold read_deletes; rewrite Hf by done; cbn; by destruct (filter _ _)).
  cbn. eexists. split_and!; [done..|apply elem_difference|]. cbn [added_segments]. intros f. unfold files_of, sent. rewrite map_app, concat_app, elem_of_app. split.
  - intros [(fs & Hin & Hb)%elem_joined|(fs & Hin & Hb)%elem_joined].
    + apply list_elem_of_fmap in Hb as (s & -> & (b & -> & [Hb Hk]%elem_difference)%list_elem_of_fmap). naive_solver.
    + apply list_elem_of_fmap in Hb as (s & -> & (l & Hl & (b & -> & [Hb Hk]%elem_intersection)%list_elem_of_fmap)%elem_joined).
      exists b. destruct (filter (λ f, ends_with f.1 DEL) (F b)) as [|g gs] eqn:E; [by apply elem_of_nil in Hl|]. apply list_elem_of_singleton in Hl as ->. cbn [delta.files] in Hin. rewrite <- E in Hin.
      apply list_elem_of_filter in Hin as [H1 H2]. split_and!; [done|done|right; by apply Is_true_true].
  - intros (b & Hb & Hin & Hor). destruct (decide (b ∈ K)) as [Hk|Hk].
    + right. destruct Hor as [|Hd]; [done|]. assert (f ∈ filter (λ f, ends_with f.1 DEL) (F b)) as Hg by (apply list_elem_of_filter; split; [by apply Is_true_true|done]).
      apply elem_joined. exists (filter (λ f, ends_with f.1 DEL) (F b)). split; [done|]. apply list_elem_of_fmap. exists {| delta.segment_id := b; delta.files := filter (λ f, ends_with f.1 DEL) (F b) |}.
      split; [done|]. apply elem_joined. eexists. split; [|apply list_elem_of_fmap; exists b; split; [done|by apply elem_intersection]]. destruct (filter _ (F b)); [by apply elem_of_nil in Hg|left].
    + left. apply elem_joined. exists (F b). split; [done|]. apply list_elem_of_fmap. exists {| delta.segment_id := b; delta.files := F b |}. split; [done|]. apply list_elem_of_fmap. exists b. split; [done|by apply elem_difference].
Qed.
End Exported.

(** ** A directory *)

Definition written (dir : Dir) (fs : list (str * list Z)) : Dir := fold_left (λ d f, <[fst f := snd f]> d) fs dir.

Lemma written_cons dir f fs : written dir (f :: fs) = written (<[fst f := snd f]> dir) fs.
Proof. reflexivity. Qed.

Lemma written_other dir fs n : n ∉ fs.*1 → written dir fs !! n = dir !! n.
Proof. revert dir. induction fs as [|[m d] fs IH]; intros dir Hn; [done|]. apply not_elem_of_cons in Hn as [H1 H2]. rewrite written_cons, IH by done. by rewrite lookup_insert_ne. Qed.

(** A name written with one content only ends with it. *)
Lemma written_file dir fs n d : (n, d) ∈ fs → (∀ d', (n, d') ∈ fs → d' = d) → written dir fs !! n = Some d.
Proof.
  revert dir. induction fs as [|[m x] fs IH]; intros dir Hin Hu; [by apply elem_of_nil in Hin|]. rewrite written_cons. destruct (decide (n ∈ fs.*1)) as [Hlater|Hlast].
  - apply IH; [|intros d' Hd'; apply Hu; by right]. apply list_elem_of_fmap in Hlater as ([n' d'] & Hn & Hd'). cbn in Hn. subst n'. by rewrite (Hu d') in Hd' by by right.
  - rewrite written_other by done. apply elem_of_cons in Hin as [[= -> ->]|Hin]; [by rewrite lookup_insert_eq|]. exfalso. apply Hlast. apply list_elem_of_fmap. by exists (n, d).
Qed.

(** A file system that can fail: an operation that succeeds does what it says,
    one that fails leaves every other file alone, and a rename that fails
    leaves every file alone. *)
Definition touches (op : fs_op) (n : str) : Prop := match op with Write m _ | Remove m => n = m | _ => False end.
Record fs_laws (exec : Dir → fs_op → Dir * bool) : Prop := {
  fs_done : ∀ dir op dir', exec dir op = (dir', true) → dir' = run_op dir op;
  fs_frame : ∀ dir op dir' n, exec dir op = (dir', false) → ¬ touches op n → dir' !! n = dir !! n;
}.

(** Everything succeeds; a file can be removed. *)
Definition reliable (exec : Dir → fs_op → Dir * bool) : Prop := ∀ dir op, snd (exec dir op) = true.
Definition removable (exec : Dir → fs_op → Dir * bool) (n : str) : Prop := ∀ dir, snd (exec dir (Remove n)) = true.

Definition retired (removed : list str) (n : str) : bool := existsb (starts_with n) removed.

Lemma retired_spec removed n : retired removed n = true ↔ (∃ r, r ∈ removed ∧ r `prefix_of` n).
Proof. unfold retired. rewrite existsb_exists. setoid_rewrite <- list_elem_of_In. unfold starts_with. setoid_rewrite bool_decide_eq_true. done. Qed.

Section Done.
Variable exec : Dir → fs_op → Dir * bool.
Hypothesis laws : fs_laws exec.

Lemma exec_frame dir op n : ¬ touches op n → (∀ a b, op = Rename a b → False) → fst (exec dir op) !! n = dir !! n.
Proof using laws.
  intros Ht Hr. destruct (exec dir op) as [dir' []] eqn:E; cbn.
  - apply (fs_done _ laws) in E as ->. destruct op as [m d| |m|a b|]; cbn in *; [by rewrite lookup_insert_ne|done|by rewrite lookup_delete_ne|by destruct (Hr a b)|done].
  - by eapply (fs_frame _ laws).
Qed.

Lemma step_done st op dir' : step exec st op = (dir', inl ()) → ∃ dir, st = (dir, inl ()) ∧ dir' = run_op dir op.
Proof using laws.
  destruct st as [dir [[]|e]]; [|done]. cbn. destruct (exec dir op) as [dir1 []] eqn:E; [|done]. intros [= <-]. exists dir. split; [done|]. by apply (fs_done _ laws).
Qed.

Lemma write_files_done fs : ∀ st dir', fold_left (λ st f, step exec st (Write (fst f) (snd f))) fs st = (dir', inl ()) → ∃ dir, st = (dir, inl ()) ∧ dir' = written dir fs.
Proof using laws.
  induction fs as [|f fs IH]; intros st dir'; cbn [fold_left]; [intros ->; by exists dir'|]. intros (dir1 & (dir & -> & ->)%step_done & ->)%IH. by exists dir.
Qed.

Lemma write_added_done bs : ∀ st dir', write_added exec st bs = (dir', inl ()) → ∃ dir, st = (dir, inl ()) ∧ dir' = written dir (files_of bs).
Proof using laws.
  induction bs as [|b bs IH]; intros st dir'; [intros E; exists dir'; by split|]. unfold write_added in *. cbn [fold_left]. intros (dir1 & (dir & -> & ->)%write_files_done & ->)%IH. exists dir. split; [done|].
  unfold files_of. cbn. unfold written. by rewrite fold_left_app.
Qed.

(** One name: it is gone when it can be removed, and no other is touched. *)
Lemma remove_matches removed name : ∀ dir : Dir, let dir' := fold_left (λ dir id, if starts_with name id then remove_file exec dir name else dir) removed dir in
  (∀ n, n ≠ name ∨ retired removed n = false → dir' !! n = dir !! n) ∧ (removable exec name → retired removed name = true ∨ dir !! name = None → dir' !! name = None).
Proof using laws.
  induction removed as [|id removed IH]; intros dir; cbn zeta; [split; [done|]; by intros _ [|]|]. cbn [fold_left]. unfold retired in *. cbn [existsb]. destruct (starts_with name id) eqn:Es; cbn [orb].
  - destruct (IH (remove_file exec dir name)) as [H1 H2]. split.
    + intros n Hn. rewrite H1; [|destruct Hn as [|Hn]; [by left|right; by apply orb_false_iff in Hn as [_ ?]]]. unfold remove_file. apply exec_frame; [|by intros ? ? [=]]. cbn. destruct Hn as [|Hn]; [done|]. intros ->. by rewrite Es in Hn.
    + intros Hr _. apply H2; [done|]. right. unfold remove_file. specialize (Hr dir). destruct (exec dir (Remove name)) as [dir1 ok] eqn:E. cbn in Hr. subst ok. apply (fs_done _ laws) in E as ->. apply lookup_delete_eq.
  - destruct (IH dir) as [H1 H2]. split; [|done]. intros n Hn. apply H1. destruct Hn as [|Hn]; [by left|right; by apply orb_false_iff in Hn as [_ ?]].
Qed.

Lemma remove_names removed names : ∀ dir : Dir, let dir' := fold_left (λ dir name, fold_left (λ dir id, if starts_with name id then remove_file exec dir name else dir) removed dir) names dir in
  (∀ n, n ∉ names ∨ retired removed n = false → dir' !! n = dir !! n) ∧ (∀ n, removable exec n → retired removed n = true → n ∈ names ∨ dir !! n = None → dir' !! n = None).
Proof using laws.
  induction names as [|m names IH]; intros dir; cbn zeta; [split; [done|]; intros n _ _ [[]%elem_of_nil|]; done|]. cbn [fold_left]. destruct (remove_matches removed m dir) as [H1 H2]. destruct (IH (fold_left (λ dir id, if starts_with m id then remove_file exec dir m else dir) removed dir)) as [H3 H4]. split.
  - intros n Hn. rewrite H3, H1; [done| |]; destruct Hn as [[? ?]%not_elem_of_cons|?]; auto.
  - intros n Hr Ht Hn. apply H4; [done..|]. destruct (decide (n ∈ names)); [by left|]. right. destruct (decide (n = m)) as [->|Hne]; [apply H2; auto|]. rewrite H1 by auto. destruct Hn as [[|]%elem_of_cons|]; done.
Qed.

Lemma remove_retired_done st removed dir' : remove_retired exec st removed = (dir', inl ()) → ∃ dir, st = (dir, inl ()) ∧
  ∀ n, if retired removed n then removable exec n → dir' !! n = None else dir' !! n = dir !! n.
Proof using laws.
  destruct removed as [|id removed]; [intros E; exists dir'; by split|]. unfold remove_retired. destruct (step exec st ListDir) as [dir1 [[]|e]] eqn:E; [|done]. apply step_done in E as (dir & -> & ->). cbn [run_op]. intros [= <-]. exists dir. split; [done|]. intros n.
  destruct (remove_names (id :: removed) (map_to_list dir).*1 dir) as [H1 H2]. destruct (retired _ n) eqn:Er; [|apply H1; by right]. intros Hr. apply H2; [done..|]. destruct (dir !! n) as [d|] eqn:Ed; [left|by right]. apply list_elem_of_fmap. exists (n, d). split; [done|]. by apply elem_of_map_to_list.
Qed.

Lemma apply_done dir d dir' : apply_delta exec dir d = (dir', inl ()) →
  dir' !! META_JSON = Some (meta d) ∧ (∀ c, config d = Some c → dir' !! CONFIG_JSON = Some c) ∧
  ∀ n, n ≠ META_JSON → n ≠ META_TMP → (n = CONFIG_JSON → config d = None) →
    if retired (removed_segment_ids d) n then removable exec n → dir' !! n = None else dir' !! n = written dir (files_of (added_segments d)) !! n.
Proof using laws.
  unfold apply_delta. set (st := step exec (step exec _ _) _). assert (∀ dir2, st = (dir2, inl ()) → dir2 !! META_JSON = Some (meta d) ∧ ∀ n, n ≠ META_JSON → n ≠ META_TMP →
    if retired (removed_segment_ids d) n then removable exec n → dir2 !! n = None else dir2 !! n = written dir (files_of (added_segments d)) !! n) as H.
  { intros dir2 (dir3 & (dir4 & (dir5 & (dir6 & E & ->)%write_added_done & H)%remove_retired_done & ->)%step_done & ->)%step_done. injection E as <-. cbn [run_op]. rewrite lookup_insert_eq, delete_insert_eq, lookup_insert_eq. split; [done|].
    intros n H1 H2. rewrite lookup_insert_ne, lookup_delete_ne by done. apply H. }
  destruct (config d) as [c|].
  - intros (dir2 & [H1 H2]%H & ->)%step_done. cbn [run_op]. split_and!; [by rewrite lookup_insert_ne|intros ? [= <-]; apply lookup_insert_eq|]. intros n Hn1 Hn2 Hn3. rewrite lookup_insert_ne by (intros <-; by specialize (Hn3 eq_refl)). by apply H2.
  - intros [H1 H2]%H. split_and!; [done|done|]. intros n Hn1 Hn2 _. by apply H2.
Qed.
End Done.

Section Succeeding.
Variable exec : Dir → fs_op → Dir * bool.

(** The operation always succeeds. *)
Definition succeeds (op : fs_op) : Prop := ∀ dir, snd (exec dir op) = true.

Lemma step_ok st op : succeeds op → snd st = inl () → snd (step exec st op) = inl ().
Proof using. intros Hok. destruct st as [dir [[]|e]]; [|done]. intros _. cbn. pose proof (Hok dir) as H. destruct (exec dir op) as [dir' []]; done. Qed.

Lemma write_added_ok bs : (∀ f, f ∈ files_of bs → succeeds (Write (fst f) (snd f))) → ∀ st, snd st = inl () → snd (write_added exec st bs) = inl ().
Proof using.
  induction bs as [|[i fs] bs IH]; intros Hok st Hst; [done|]. unfold write_added in *. unfold files_of in *. cbn [fold_left delta.files map concat] in *. apply IH; [intros f Hf; apply Hok, elem_of_app; by right|].
  assert (∀ f, f ∈ fs → succeeds (Write (fst f) (snd f))) as Hfs by (intros f Hf; apply Hok, elem_of_app; by left). clear IH Hok. revert st Hst. induction fs as [|f fs IH]; intros st Hst; [done|]. cbn [fold_left].
  apply IH; [intros g Hg; apply Hfs; by right|]. apply step_ok; [apply Hfs; left|done].
Qed.

Lemma remove_retired_ok st removed : succeeds ListDir → snd st = inl () → snd (remove_retired exec st removed) = inl ().
Proof using. intros Hok Hst. destruct removed; [done|]. unfold remove_retired. pose proof (step_ok st ListDir Hok Hst) as H. by destruct (step exec st ListDir) as [dir [[]|e]]. Qed.

Hypothesis ok : reliable exec.

Lemma reliable_succeeds op : succeeds op.
Proof using ok. intros dir. apply ok. Qed.
#[local] Hint Resolve reliable_succeeds : core.

Lemma apply_ok dir d : snd (apply_delta exec dir d) = inl ().
Proof using ok. unfold apply_delta. destruct (config d); repeat apply step_ok; auto using remove_retired_ok, write_added_ok. Qed.

Lemma apply_shard_ok st s : snd st = inl () → snd (apply_shard exec st s) = inl ().
Proof using ok.
  destruct st as [b [[]|e]]; [|done]. intros _. unfold apply_shard. pose proof (step_ok (default ∅ (shards b !! s.1), inl ()) CreateDir (reliable_succeeds _) eq_refl) as H. destruct (step exec _ CreateDir) as [dir [[]|e]]; [|done].
  pose proof (apply_ok dir s.2) as H1. by destruct (apply_delta exec dir s.2).
Qed.

Lemma apply_sharded_ok b d : snd (apply_sharded_delta exec b d) = inl ().
Proof using ok.
  unfold apply_sharded_delta. set (st := match shard_config d with Some c => _ | None => _ end). assert (snd st = inl ()) as Hst.
  { subst st. destruct (shard_config d) as [c|]; [|done]. pose proof (step_ok (step exec (root b, inl ()) CreateDir) (Write SHARD_CONFIG c) (reliable_succeeds _) (step_ok (root b, inl ()) CreateDir (reliable_succeeds _) eq_refl)) as H. by destruct (step exec _ (Write _ _)). }
  clearbody st. revert st Hst. induction (shard_deltas d) as [|s ss IH]; intros st Hst; [done|]. cbn [fold_left]. by apply IH, apply_shard_ok.
Qed.
End Succeeding.

(** ** Incremental synchronisation: the results

    A client that applies the delta of its server holds what the server
    holds, shard by shard; a delta whose application fails half-way leaves
    the old manifest in place, but not always the files it names. *)
Import binary delta sharded version server export fs_utils.
Open Scope Z_scope.

(** ** One directory *)

(** What a client's directory is to a server whose bundles are [cur], when the
    client says it holds [K]: bundles are written once, so the files of a
    common bundle other than delete files are there already; a file name has
    one content; and no bundle holds the manifest or the configuration. *)
Record client_ok (dir : Dir) (K cur : gset str) (F : str → list (str * list Z)) : Prop := {
  cl_kept : ∀ b n d, b ∈ cur → b ∈ K → (n, d) ∈ F b → ends_with n DEL = false → dir !! n = Some d;
  cl_names : ∀ b b' n d d', b ∈ cur → b' ∈ cur → (n, d) ∈ F b → (n, d') ∈ F b' → d' = d;
  cl_reserved : ∀ b n d, b ∈ cur → (n, d) ∈ F b → n ≠ META_JSON ∧ n ≠ META_TMP ∧ n ≠ CONFIG_JSON;
}.

(** The name starts with the id of a bundle the server no longer has. *)
Definition of_retired (K cur : gset str) (n : str) : Prop := ∃ r, r ∈ K ∧ (r ∉ cur) ∧ r `prefix_of` n.

(** The directory after synchronisation. *)
Record up_to_date (exec : Dir → fs_op → Dir * bool) (dir dir' : Dir) (K cur : gset str) (F : str → list (str * list Z)) (M : list Z) (cfg : option (list Z)) : Prop := {
  ud_manifest : dir' !! META_JSON = Some M;
  ud_config : ∀ c, cfg = Some c → dir' !! CONFIG_JSON = Some c;
  ud_files : ∀ b n d, b ∈ cur → (n, d) ∈ F b → ¬ of_retired K cur n → dir' !! n = Some d;
  ud_retired : ∀ n, of_retired K cur n → removable exec n → n ≠ META_JSON → n ≠ META_TMP → n ≠ CONFIG_JSON → dir' !! n = None;
  ud_others : ∀ n, (∀ b d, b ∈ cur → (n, d) ∉ F b) → ¬ of_retired K cur n → n ≠ META_JSON → n ≠ META_TMP → n ≠ CONFIG_JSON → dir' !! n = dir !! n;
}.

Section Synchronised.
Variable iter : gset str → list str.
Hypothesis iter_elements : ∀ s, iter s ≡ₚ elements s.
Variable exec : Dir → fs_op → Dir * bool.
Hypothesis laws : fs_laws exec.

(** What a delta of the server makes of a name starting with a retired id. *)
Lemma retired_of (removed : list str) (K cur : gset str) n : (∀ x, x ∈ removed ↔ x ∈ K ∧ (x ∉ cur)) → retired removed n = true ↔ of_retired K cur n.
Proof using. intros Hrem. rewrite retired_spec. unfold of_retired. setoid_rewrite Hrem. naive_solver. Qed.

Lemma retired_removed e cur F M K v dir d dir' n : server_state e cur F M → export_delta_from iter e K v = inl d → apply_delta exec dir d = (dir', inl ()) →
  of_retired K cur n → removable exec n → n ≠ META_JSON → n ≠ META_TMP → n ≠ CONFIG_JSON → dir' !! n = None.
Proof using laws iter_elements.
  intros He Ed Ea Ho Hr H1 H2 H3. destruct (export_spec iter iter_elements e cur F M K v He) as (d' & Ed' & _ & _ & _ & _ & Hrem & _). rewrite Ed in Ed'. injection Ed' as <-.
  destruct (apply_done exec laws dir d dir' Ea) as (_ & _ & Hl). specialize (Hl n H1 H2 ltac:(done)). by rewrite (proj2 (retired_of _ K cur n Hrem) Ho) in Hl; apply Hl.
Qed.

Lemma delta_applied e cur F M K v dir : server_state e cur F M → client_ok dir K cur F →
  ∃ d, export_delta_from iter e K v = inl d ∧ ∀ dir', apply_delta exec dir d = (dir', inl ()) → up_to_date exec dir dir' K cur F M (export.read_config e).
Proof using laws iter_elements.
  intros He [Hkept Hnames Hres]. destruct (export_spec iter iter_elements e cur F M K v He) as (d & Ed & Hm & Hc & _ & _ & Hrem & Hsent). exists d. split; [done|]. intros dir' Ea.
  pose proof (λ n, retired_removed e cur F M K v dir d dir' n He Ed Ea) as Hgone. destruct (apply_done exec laws dir d dir' Ea) as (Hl1 & Hl2 & Hl). rewrite Hm, Hc in *.
  assert (∀ n, ¬ of_retired K cur n → n ≠ META_JSON → n ≠ META_TMP → n ≠ CONFIG_JSON → dir' !! n = written dir (files_of (added_segments d)) !! n) as Hkeep.
  { intros n Ho H1 H2 H3. specialize (Hl n H1 H2 ltac:(done)). destruct (retired _ n) eqn:Er; [|done]. by apply (retired_of _ K cur n Hrem) in Er. }
  constructor; [done|done| |done|].
  - intros b n x Hb Hin Ho. destruct (Hres b n x Hb Hin) as (H1 & H2 & H3). rewrite Hkeep by done.
    assert (∀ x', (n, x') ∈ files_of (added_segments d) → x' = x) as Hu by (intros x' (b' & Hb' & Hin' & _)%Hsent; exact (Hnames b b' n x x' Hb Hb' Hin Hin')).
    destruct (decide (n ∈ (files_of (added_segments d)).*1)) as [Hw|Hw].
    + apply list_elem_of_fmap in Hw as ([n' x'] & -> & Hw). rewrite (Hu x') in Hw by done. by apply written_file.
    + rewrite written_other by done. assert ((n, x) ∉ files_of (added_segments d)) as Hns by (intros ?; apply Hw, list_elem_of_fmap; by exists (n, x)).
      rewrite Hsent in Hns. apply (Hkept b); [done| |done|].
      * destruct (decide (b ∈ K)); [done|]. exfalso. apply Hns. exists b. auto.
      * destruct (ends_with n DEL) eqn:E; [|done]. exfalso. apply Hns. exists b. auto.
  - intros n Hf Ho H1 H2 H3. rewrite Hkeep by done. apply written_other. intros ([n' x] & -> & (b & Hb & Hin & _)%Hsent)%list_elem_of_fmap. by eapply Hf.
Qed.

(** ** Every shard *)

(** The bundles the client said it holds of a shard. *)
Definition held (cvs : list ShardVersion) (i : Z) : gset str :=
  match List.find (λ sv, sv_shard_id sv =? i) cvs with Some sv => sv_segment_ids sv | None => ∅ end.

(** A shard left out of the delta: not asked for, or the client's version of it
    is that of the manifest read first. *)
Definition skipped (cvs : list ShardVersion) (requested : option (gset Z)) (i : Z) (V : list Z) : bool :=
  match requested with Some r => bool_decide (i ∉ r) | None => false end ||
  match List.find (λ sv, sv_shard_id sv =? i) cvs with Some sv => bool_decide (compute_version_from_bytes V = sv_version sv) | None => false end.

Section Shards.
(** Per shard: the manifest read for its version; the bundles, their files and
    the manifest the exporter then works from. *)
Variables (V : Z → list Z) (cur : Z → gset str) (F : Z → str → list (str * list Z)) (M : Z → list Z) (cvs : list ShardVersion) (requested : option (gset Z)).

(** What becomes of one shard. *)
Definition untouched (b b' : Base) (s : Z * ShardHandle) : Prop := shards b' !! fst s = shards b !! fst s.
Definition shard_synced (b b' : Base) (s : Z * ShardHandle) : Prop :=
  if skipped cvs requested (fst s) (V (fst s)) then untouched b b' s
  else ∃ dir', shards b' !! fst s = Some dir' ∧
    up_to_date exec (default ∅ (shards b !! fst s)) dir' (held cvs (fst s)) (cur (fst s)) (F (fst s)) (M (fst s)) (export.read_config (exporter (snd s))).

Definition shard_good (b : Base) (s : Z * ShardHandle) : Prop :=
  read_meta_bytes (snd s) = inl (V (fst s)) ∧ server_state (exporter (snd s)) (cur (fst s)) (F (fst s)) (M (fst s)) ∧
  (skipped cvs requested (fst s) (V (fst s)) = false → client_ok (default ∅ (shards b !! fst s)) (held cvs (fst s)) (cur (fst s)) (F (fst s))).

Lemma shard_exported b s : shard_good b s → ∃ l, export_shard iter cvs requested s = inl l ∧
  if skipped cvs requested (fst s) (V (fst s)) then l = [] else ∃ d, l = [(fst s, d)] ∧ ∀ dir', apply_delta exec (default ∅ (shards b !! fst s)) d = (dir', inl ()) →
    up_to_date exec (default ∅ (shards b !! fst s)) dir' (held cvs (fst s)) (cur (fst s)) (F (fst s)) (M (fst s)) (export.read_config (exporter (snd s))).
Proof using laws iter_elements.
  intros (Hv & Hs & Hc). unfold export_shard, skipped, held, compute_version in *. destruct (match requested with Some r => _ | None => _ end); [by exists []|]. cbn [orb] in *.
  destruct (List.find _ cvs) as [sv|].
  - rewrite Hv. cbn. case_bool_decide; [by exists []|]. destruct (delta_applied _ _ _ _ _ (sv_version sv) _ Hs (Hc eq_refl)) as (d & E & Hu). rewrite E. cbn. eauto 10.
  - destruct (delta_applied _ _ _ _ _ [] _ Hs (Hc eq_refl)) as (d & E & Hu). rewrite E. cbn. eauto 10.
Qed.

(** One shard applied: no other is touched, and it is synchronised unless an
    operation failed. *)
Lemma shard_applied b s l b' r : shard_good b s → export_shard iter cvs requested s = inl l → fold_left (apply_shard exec) l (b, inl ()) = (b', r) →
  root b' = root b ∧ (∀ i, i ≠ fst s → shards b' !! i = shards b !! i) ∧ (r = inl () → shard_synced b b' s).
Proof using laws iter_elements.
  intros Hg El Ef. destruct (shard_exported b s Hg) as (l' & El' & Hl). rewrite El in El'. injection El' as <-. unfold shard_synced. destruct (skipped _ _ _ _); [subst l; by injection Ef as <- <-|].
  destruct Hl as (d & -> & Hu). cbn [fold_left apply_shard fst snd] in Ef. destruct (step exec _ CreateDir) as [dir [[]|e]] eqn:Es; [|by injection Ef as <- <-]. apply (step_done exec laws) in Es as (dir0 & [= <-] & ->). cbn [run_op] in Ef.
  destruct (apply_delta exec _ d) as [dir' r'] eqn:Ea. injection Ef as <- <-. split_and!; [done|intros i Hi; cbn; by rewrite lookup_insert_ne|]. intros ->. exists dir'. cbn. rewrite lookup_insert_eq. split; [done|by apply Hu].
Qed.

Lemma apply_shard_stops l : ∀ b op, fold_left (apply_shard exec) l (b, inr op) = (b, inr op).
Proof using. by induction l. Qed.

Definition some_synced (b b' : Base) (ss : list (Z * ShardHandle)) : Prop :=
  ∃ done rest, ss = done ++ rest ∧ Forall (shard_synced b b') done ∧ Forall (untouched b b') (drop 1 rest).

Lemma synced_other b b1 b' s : shards b1 !! fst s = shards b' !! fst s → shard_synced b b1 s → shard_synced b b' s.
Proof using. unfold shard_synced, untouched. intros ->. done. Qed.

Lemma synced_from b b1 b' s : shards b1 !! fst s = shards b !! fst s → shard_synced b1 b' s → shard_synced b b' s.
Proof using. unfold shard_synced, untouched. intros ->. done. Qed.

Lemma apply_shards ss : ∀ b, NoDup ss.*1 → Forall (shard_good b) ss → ∃ ls, each (export_shard iter cvs requested) ss = inl ls ∧ ∀ b' r, fold_left (apply_shard exec) (concat ls) (b, inl ()) = (b', r) →
  root b' = root b ∧ (∀ i, i ∉ ss.*1 → shards b' !! i = shards b !! i) ∧ match r with inl () => Forall (shard_synced b b') ss | inr _ => some_synced b b' ss end.
Proof using laws iter_elements.
  induction ss as [|s ss IH]; intros b Hnd Hg; [exists []; split; [done|]; by intros b' r [= <- <-]|]. cbn in Hnd. apply NoDup_cons in Hnd as [Hs Hnd]. inversion Hg as [|? ? H1 H2]; subst. rewrite Forall_forall in H2.
  assert (∀ t, t ∈ ss → fst t ≠ fst s) as Hne by (intros t Ht E; apply Hs; rewrite <- E; apply list_elem_of_fmap; by exists t).
  destruct (shard_exported b s H1) as (l & El & _). pose proof (λ b1 r, shard_applied b s l b1 r H1 El) as Hone. destruct (fold_left (apply_shard exec) l (b, inl ())) as [b1 r1] eqn:E1. destruct (Hone b1 r1 eq_refl) as (Hr1 & Ho1 & Hs1).
  assert (Forall (shard_good b1) ss) as Hg1 by (apply Forall_forall; intros t Ht; unfold shard_good; rewrite Ho1 by (by apply Hne); by apply H2).
  destruct (IH b1 Hnd Hg1) as (ls & Els & Hall). exists (l :: ls). cbn [each]. rewrite El, Els. split; [done|]. intros b' r. cbn [concat]. rewrite fold_left_app, E1. destruct r1 as [[]|op].
  - intros (Hr & Ho & Hm)%Hall. split_and!; [by rewrite Hr|intros i [Hi Hi']%not_elem_of_cons; by rewrite Ho, Ho1|]. assert (shard_synced b b' s) as Hs' by (apply (synced_other b b1); [by rewrite Ho|by apply Hs1]).
    destruct r as [[]|op].
    + constructor; [done|]. apply Forall_forall. intros t Ht. rewrite Forall_forall in Hm. apply (synced_from b b1); [by apply Ho1, Hne|by apply Hm].
    + destruct Hm as (dn & rest & -> & Hd & Hrest). exists (s :: dn), rest. rewrite Forall_forall in Hd. rewrite Forall_forall in Hrest. split_and!; [done| |].
      * constructor; [done|]. apply Forall_forall. intros t Ht. apply (synced_from b b1); [apply Ho1, Hne, elem_of_app; by left|by apply Hd].
      * apply Forall_forall. intros t Ht. unfold untouched. rewrite <- Ho1; [by apply Hrest|]. apply Hne, elem_of_app. right. destruct rest; [done|]. by right.
  - rewrite apply_shard_stops. intros [= <- <-]. split_and!; [done|intros i [Hi Hi']%not_elem_of_cons; by apply Ho1|]. exists [], (s :: ss). split_and!; [done|constructor|]. cbn. apply Forall_forall. intros t Ht. by apply Ho1, Hne.
Qed.
End Shards.
End Synchronised.

(** C11. Synchronisation, over the wire.  For exporters that answer from one
    manifest each, whatever manifest was read before for the version, and
    client directories whose bundles were written once, the sharded delta is
    exported and is the one the client decodes from its bytes when it fits the
    widths of the format.  Applied on a file system where any operation may
    fail, an operation that fails touching at most its own file: when it
    returns Ok, every shard that was asked for and had changed has the
    exporter's manifest and configuration, every file of every current bundle
    whose name does not start with the id of a retired one, none of the files
    whose name does, where they can be removed, and every other file as before,
    and the other shards are untouched; when it returns an error, this holds of the
    shards up to some shard, and those after that one are untouched.  It
    returns Ok when every operation succeeds.  The order in which hash sets
    are walked does not matter. *)
Theorem synchronised_shards iter exec V cur F M cvs requested cfg ss (b : Base) : (∀ s, iter s ≡ₚ elements s) → fs_laws exec → NoDup ss.*1 →
  Forall (shard_good V cur F M cvs requested b) ss →
  ∃ d, export_sharded_delta iter ss cvs requested cfg = inl d ∧
    (sharded_ok d → deserialize_sharded_delta (serialize_sharded_delta d) = Ret (inl d)) ∧
    (reliable exec → snd (apply_sharded_delta exec b d) = inl ()) ∧
    ∀ b' r, apply_sharded_delta exec b d = (b', r) → (∀ i, i ∉ ss.*1 → shards b' !! i = shards b !! i) ∧
      match r with
      | inl () => (∀ c, cfg = Some c → root b' !! SHARD_CONFIG = Some c) ∧ Forall (shard_synced exec V cur F M cvs requested b b') ss
      | inr _ => some_synced exec V cur F M cvs requested b b' ss
      end.
Proof.
  intros Hiter Hl Hnd Hg. destruct (apply_shards iter Hiter exec Hl V cur F M cvs requested ss b Hnd Hg) as (ls & El & Hall). unfold export_sharded_delta. rewrite El. cbn.
  eexists. split_and!; [done|intros Hd; by pose proof (sharded_delta_read _ [] Hd) as E; rewrite app_nil_r in E|intros Hok; by apply apply_sharded_ok|]. intros b' r. unfold apply_sharded_delta. cbn [shard_config shard_deltas].
  set (st := match cfg with Some c => _ | None => _ end). assert (∃ dir r0, st = ({| root := dir; shards := shards b |}, r0) ∧ ∀ c, cfg = Some c → r0 = inl () → dir !! SHARD_CONFIG = Some c) as (dir & r0 & Est & Hcfg).
  { subst st. destruct cfg as [c|]; [|exists (root b), (inl ()); split; [by destruct b|done]]. destruct (step exec _ (Write SHARD_CONFIG c)) as [dir r0] eqn:Es. exists dir, r0. split; [done|]. intros ? [= <-] ->. apply (step_done exec Hl) in Es as (? & _ & ->). apply lookup_insert_eq. }
  rewrite Est. destruct r0 as [[]|op].
  - destruct (apply_shards iter Hiter exec Hl V cur F M cvs requested ss {| root := dir; shards := shards b |} Hnd Hg) as (ls' & El' & Hall'). rewrite El in El'. injection El' as <-. intros (Hr & Ho & Hm)%Hall'. split; [done|]. destruct r as [[]|op]; [|exact Hm]. split; [|exact Hm].
    intros c Ec. rewrite Hr. by apply Hcfg.
  - rewrite apply_shard_stops. intros [= <- <-]. split; [done|]. exists [], ss. split_and!; [done|constructor|]. by apply Forall_forall.
Qed.

(** C14. A bundle whose name starts with the id of a retired one is lost: the
    server's manifest has the bundle, which was sent or was there already, but
    [apply_delta] removes every file whose name starts with the retired id.
    So for the dictionary pair of a segment that was merged away before its
    pair was folded, [<uuid>.<field>.minted.]: after a delta applied without
    an error the client does not have it. *)
Theorem retired_prefix_loses_current iter exec e cur F M K v dir d dir' r b n x : (∀ s, iter s ≡ₚ elements s) → fs_laws exec → server_state e cur F M →
  r ∈ K → r ∉ cur → b ∈ cur → (n, x) ∈ F b → r `prefix_of` n → n ≠ META_JSON → n ≠ META_TMP → n ≠ CONFIG_JSON → removable exec n →
  export_delta_from iter e K v = inl d → apply_delta exec dir d = (dir', inl ()) → meta d = M ∧ dir' !! META_JSON = Some M ∧ dir' !! n = None.
Proof.
  intros Hiter Hl He Hr Hr' Hb Hin Hp H1 H2 H3 Hrm Ed Ea. destruct (export_spec iter Hiter e cur F M K v He) as (d' & Ed' & Hm & _). rewrite Ed in Ed'. injection Ed' as <-.
  destruct (apply_done exec Hl dir d dir' Ea) as (Hmeta & _). rewrite Hm in Hmeta. split_and!; [done|done|]. eapply (retired_removed iter Hiter exec Hl e cur F M K v dir d); try done. by exists r.
Qed.

(** ** Failures *)

Section Failing.
Variable exec : Dir → fs_op → Dir * bool.
Hypothesis laws : fs_laws exec.
Variable old : option (list Z).

(** The manifest is the one before. *)
Definition unswitched (st : applied) : Prop := fst st !! META_JSON = old.

Lemma step_unswitched st op : unswitched st → ¬ touches op META_JSON → (∀ a b, op = Rename a b → False) → unswitched (step exec st op).
Proof using laws.
  unfold unswitched. destruct st as [dir [[]|e]]; [|done]. cbn. intros Hd Ht Hr. pose proof (exec_frame exec laws dir op META_JSON Ht Hr) as H. destruct (exec dir op) as [dir' o]. cbn in *. by rewrite H.
Qed.

Lemma write_unswitched bs : ∀ st, unswitched st → (∀ f, f ∈ files_of bs → fst f ≠ META_JSON) → unswitched (write_added exec st bs).
Proof using laws.
  induction bs as [|[i fs] bs IH]; intros st Hst Hf; [done|]. unfold write_added in *. cbn [fold_left]. apply IH.
  - assert (∀ f, f ∈ fs → fst f ≠ META_JSON) as Hfs by (intros f Hin; apply Hf; unfold files_of; cbn; apply elem_of_app; by left). clear Hf IH. cbn [delta.files].
    revert st Hst. induction fs as [|f fs IH]; intros st Hst; [done|]. cbn [fold_left]. apply IH; [intros g Hg; apply Hfs; by right|]. apply step_unswitched; [done| |done]. cbn. intros E. by destruct (Hfs f ltac:(left)).
  - intros f Hin. apply Hf. unfold files_of in *. cbn. apply elem_of_app. by right.
Qed.

Lemma remove_unswitched st removed : unswitched st → (∀ r, r ∈ removed → ¬ r `prefix_of` META_JSON) → unswitched (remove_retired exec st removed).
Proof using laws.
  intros Hst Hr. destruct removed as [|r0 rs]; [done|]. unfold remove_retired. apply (step_unswitched st ListDir) in Hst; [|by intros []|by intros ? ? [=]]. destruct (step exec st ListDir) as [dir [[]|e]]; [|done].
  unfold unswitched in *. cbn [fst] in *. set (removed := r0 :: rs) in *. generalize ((map_to_list dir).*1). intros names. revert dir Hst. induction names as [|m names IH]; intros dir Hd; [done|]. cbn [fold_left]. apply IH. clear IH.
  clearbody removed. revert dir Hd. induction removed as [|r removed IH]; intros dir Hd; [done|]. cbn [fold_left]. apply IH; [intros x Hx; apply Hr; by right|].
  unfold starts_with. case_bool_decide as Hp; [|done]. unfold remove_file. rewrite (exec_frame exec laws); [done| |done]. cbn. intros <-. by destruct (Hr r ltac:(left)).
Qed.

Lemma apply_failed d dir dir' op : dir !! META_JSON = old → (∀ f, f ∈ files_of (added_segments d) → fst f ≠ META_JSON) → (∀ r, r ∈ removed_segment_ids d → ¬ r `prefix_of` META_JSON) →
  apply_delta exec dir d = (dir', inr op) → dir' !! META_JSON = old ∨ (∃ c, op = Write CONFIG_JSON c ∧ dir' !! META_JSON = Some (meta d)).
Proof using laws.
  intros Hold Hf Hr. unfold apply_delta. pose proof (write_unswitched (added_segments d) (dir, inl ()) Hold Hf) as H1. pose proof (remove_unswitched _ _ H1 Hr) as H2. revert H2. clear H1.
  generalize (remove_retired exec (write_added exec (dir, inl ()) (added_segments d)) (removed_segment_ids d)). intros [dir2 [[]|e]] H2; [|by destruct (config d); cbn; intros [= <- <-]; left].
  unfold unswitched in H2. cbn [fst] in H2. cbn [step]. destruct (exec dir2 (Write META_TMP (meta d))) as [dir3 []] eqn:E3.
  2:{ assert (dir3 !! META_JSON = old) by (rewrite <- H2; eapply (fs_frame _ laws); [exact E3|cbn; discriminate]). destruct (config d); cbn; intros [= <- <-]; by left. }
  apply (fs_done _ laws) in E3 as ->. cbn [step run_op]. destruct (exec _ (Rename META_TMP META_JSON)) as [dir4 []] eqn:E4.
  2:{ assert (dir4 !! META_JSON = old) by (rewrite (fs_frame _ laws _ _ _ META_JSON E4) by (cbn; tauto); cbn; by rewrite lookup_insert_ne by discriminate). destruct (config d); cbn; intros [= <- <-]; by left. }
  apply (fs_done _ laws) in E4 as ->. destruct (config d) as [c|]; [|done]. cbn [step run_op]. rewrite lookup_insert_eq. destruct (exec _ (Write CONFIG_JSON c)) as [dir5 []] eqn:E5; intros [= <- <-]. right. exists c. split; [done|].
  rewrite (fs_frame _ laws _ _ _ META_JSON E5) by (cbn; discriminate). by rewrite lookup_insert_eq.
Qed.
End Failing.

(** C12. The manifest is switched at once: when [apply_delta] fails, on any file
    system whose failed operations leave the other files alone, [meta.json] is
    still exactly what it was, or it is the new manifest and only the write of
    the configuration failed. *)
Theorem failed_apply_manifest exec dir d dir' op : fs_laws exec → (∀ f, f ∈ files_of (added_segments d) → fst f ≠ META_JSON) →
  (∀ r, r ∈ removed_segment_ids d → ¬ r `prefix_of` META_JSON) → apply_delta exec dir d = (dir', inr op) →
  dir' !! META_JSON = dir !! META_JSON ∨ (∃ c, op = Write CONFIG_JSON c ∧ dir' !! META_JSON = Some (meta d)).
Proof. intros Hl Hf Hr. by apply apply_failed. Qed.

(** A disk with no room left for the manifest. *)
Definition full_disk (dir : Dir) (op : fs_op) : Dir * bool :=
  match op with
  | Write n _ => if bool_decide (n = META_TMP) then (dir, false) else (run_op dir op, true)
  | _ => (run_op dir op, true)
  end.

Lemma full_disk_laws : fs_laws full_disk.
Proof. split; intros dir [m x| |m|a b|] dir' *; cbn; try case_bool_decide; by intros [= <-]. Qed.

(** A client with one segment, and a delta that retires it. *)
Definition old_segment : str := [0x61; 0x2E; 0x74].
Definition old_dir : Dir := {[ old_segment := [1]; META_JSON := [0x61] ]}.
Definition retiring : IndexDelta :=
  {| from_version := []; to_version := []; added_segments := [{| delta.segment_id := [0x62]; delta.files := [([0x62; 0x2E; 0x74], [2])] |}];
     removed_segment_ids := [[0x61]]; meta := [0x62]; config := None |}.

(** Only the new manifest cannot be written. *)
Definition no_room (exec : Dir → fs_op → Dir * bool) : Prop :=
  ∀ dir op, snd (exec dir op) = match op with Write n _ => negb (bool_decide (n = META_TMP)) | _ => true end.

(** C13. The files of the retired bundles are removed before the manifest is
    switched: for every directory and delta, when everything succeeds but the
    write of the new manifest, [apply_delta] returns that error, [meta.json]
    is the old one, and every file of a bundle the delta retires, which the
    old manifest names, is gone. *)
Theorem failed_apply_loses_segment exec dir d : fs_laws exec → no_room exec → (∀ f, f ∈ files_of (added_segments d) → fst f ≠ META_JSON ∧ fst f ≠ META_TMP) →
  (∀ r, r ∈ removed_segment_ids d → ¬ r `prefix_of` META_JSON) →
  ∃ dir', apply_delta exec dir d = (dir', inr (Write META_TMP (meta d))) ∧ dir' !! META_JSON = dir !! META_JSON ∧
    ∀ r n, r ∈ removed_segment_ids d → r `prefix_of` n → n ≠ META_TMP → dir' !! n = None.
Proof.
  intros Hl Hok Hf Hr. assert (∀ op, (∀ x, op ≠ Write META_TMP x) → succeeds exec op) as Hs.
  { intros op Hop dir0. rewrite Hok. destruct op as [m x| |m|a b|]; try done. rewrite bool_decide_eq_false_2; [done|]. intros ->. by destruct (Hop x). }
  assert (snd (remove_retired exec (write_added exec (dir, inl ()) (added_segments d)) (removed_segment_ids d)) = inl ()) as H2.
  { apply remove_retired_ok; [by apply Hs|]. apply write_added_ok; [|done]. intros f Hin. apply Hs. intros x [= E _]. by destruct (Hf f Hin). }
  destruct (exec (fst (remove_retired exec (write_added exec (dir, inl ()) (added_segments d)) (removed_segment_ids d))) (Write META_TMP (meta d))) as [dir3 ok] eqn:E3.
  pose proof (Hok (fst (remove_retired exec (write_added exec (dir, inl ()) (added_segments d)) (removed_segment_ids d))) (Write META_TMP (meta d))) as H3. rewrite E3, bool_decide_eq_true_2 in H3 by done. cbn in H3. subst ok.
  assert (apply_delta exec dir d = (dir3, inr (Write META_TMP (meta d)))) as Ea.
  { unfold apply_delta. destruct (remove_retired _ _ _) as [dir2 r2]. cbn [snd] in H2. cbn [fst] in E3. subst r2. cbn [step]. rewrite E3. by destruct (config d). }
  exists dir3. split_and!; [done| |].
  - destruct (apply_failed exec Hl (dir !! META_JSON) d dir dir3 _ eq_refl (λ f Hin, proj1 (Hf f Hin)) Hr Ea) as [|(c & Ec & _)]; [done|]. by injection Ec.
  - intros r n Hin Hp Hn. rewrite (fs_frame _ Hl _ _ _ n E3) by (by cbn). destruct (remove_retired exec _ _) as [dir2 r2] eqn:E2. cbn in H2. subst r2. cbn [fst].
    apply (remove_retired_done exec Hl) in E2 as (dir1 & _ & Hd). specialize (Hd n). rewrite (proj2 (retired_spec _ _)) in Hd by eauto. apply Hd. intros dir0. by apply Hs.
Qed.

(** ** The server's memory *)

(** The server answers from its recent history: whatever was recorded, in
    any interleaving of the shards, a client at the last version recorded for
    the shard is up to date; one at a version among the last [max_history] of
    them gets the bundles recorded with it; any other is sent a full
    snapshot.  A version recorded twice in a row counts once, at least one is
    always remembered, and a shard out of range is an error. *)
Theorem server_history n max rs : 0 ≤ n → Forall (λ r, 0 ≤ fst (fst r) < n) rs → ∃ s, record_all (new_sharded n max) rs = Ret (inl s) ∧
  (∀ i client, 0 ≤ i < n → lookup_version s i client = Ret (inl (answer max (shard_log i rs) client))) ∧
  (∀ i client, n ≤ i → lookup_version s i client = Ret (inr (ShardOutOfRange i n))).
Proof.
  intros Hn Hr. destruct (record_all_inv n max rs _ _ (server_start n max Hn) Hr) as (s & E & Hs). exists s. split_and!; [done| |].
  - intros i client Hi. by rewrite (lookup_answer _ _ _ _ _ _ Hs Hi).
  - intros i client Hi. destruct Hs as (Hsn & _). unfold lookup_version. rewrite Hsn. by case_lia.
Qed.

(** ** A worked synchronisation *)

Definition bA : str := [0x41].
Definition bB : str := [0x42].
Definition bC : str := [0x43].
Definition named (b ext : str) : str := b ++ 0x2E :: ext.

Definition demo_files (b : str) : list (str * list Z) :=
  if bool_decide (b = bB) then [(named bB [0x74], [1]); (named bB DEL, [2])] else if bool_decide (b = bC) then [(named bC [0x74], [3])] else [].
Definition demo_server : DeltaExporter :=
  {| current_bundle_ids := inl {[ bB; bC ]}; export.read_manifest := inl [0x7B; 0x7D]; read_bundle_files := λ b, inl (demo_files b);
     export.read_config := Some [5]; has_uncommitted := false |}.
Definition demo_handle : ShardHandle := {| read_meta_bytes := inl [0x7B; 0x7D]; exporter := demo_server |}.
Definition demo_client : Dir := {[ named bA [0x74] := [9]; named bB [0x74] := [1]; META_JSON := [0x7B] ]}.
Definition demo_base : Base := {| root := ∅; shards := {[ 0 := demo_client ]} |}.
Definition demo_versions : list ShardVersion := [{| sv_shard_id := 0; sv_version := [0x61]; sv_segment_ids := {[ bA; bB ]} |}].

(** The file system that never fails. *)
Definition sound_disk (dir : Dir) (op : fs_op) : Dir * bool := (run_op dir op, true).

Lemma demo_file b n d : b ∈ ({[ bB; bC ]} : gset str) → (n, d) ∈ demo_files b →
  b = bB ∧ (n = named bB [0x74] ∧ d = [1] ∨ n = named bB DEL ∧ d = [2]) ∨ b = bC ∧ n = named bC [0x74] ∧ d = [3].
Proof.
  intros [->%elem_of_singleton| ->%elem_of_singleton]%elem_of_union; cbn.
  - intros [[= -> ->]|[[= -> ->]|[]%elem_of_nil]%elem_of_cons]%elem_of_cons; naive_solver.
  - intros [[= -> ->]|[]%elem_of_nil]%elem_of_cons. naive_solver.
Qed.

Lemma demo_good : shard_good (λ _, [0x7B; 0x7D]) (λ _, {[ bB; bC ]}) (λ _, demo_files) (λ _, [0x7B; 0x7D]) demo_versions None demo_base (0, demo_handle).
Proof.
  split; [done|]. split; [by split|]. intros _. split; cbn [fst].
  - intros b n d Hb Hk Hin Hdel. destruct (demo_file b n d Hb Hin) as [(-> & [[-> ->]|[-> ->]])|(-> & -> & ->)]; [by vm_compute|by vm_compute in Hdel|]. exfalso. revert Hk. by vm_compute.
  - intros b b' n d d' Hb Hb' H1 H2. apply demo_file in H1; [|done]. apply demo_file in H2; [|done]. destruct H1 as [(-> & [[-> ->]|[-> ->]])|(-> & -> & ->)], H2 as [(-> & [[E ->]|[E ->]])|(-> & E & ->)]; by try (vm_compute in E).
  - intros b n d Hb Hin. destruct (demo_file b n d Hb Hin) as [(-> & [[-> ->]|[-> ->]])|(-> & -> & ->)]; by split_and!.
Qed.

Lemma sound_disk_laws : fs_laws sound_disk.
Proof. split; intros dir op dir' *; cbn; by intros [= <-]. Qed.

Lemma synchronised_shards_witness : ∃ d b', export_sharded_delta elements [(0, demo_handle)] demo_versions None None = inl d ∧ apply_sharded_delta sound_disk demo_base d = (b', inl ()) ∧
  shard_synced sound_disk (λ _, [0x7B; 0x7D]) (λ _, {[ bB; bC ]}) (λ _, demo_files) (λ _, [0x7B; 0x7D]) demo_versions None demo_base b' (0, demo_handle).
Proof.
  destruct (synchronised_shards elements sound_disk (λ _, [0x7B; 0x7D]) (λ _, {[ bB; bC ]}) (λ _, demo_files) (λ _, [0x7B; 0x7D]) demo_versions None None [(0, demo_handle)] demo_base) as (d & Ed & _ & Hok & Ha).
  - intros s. reflexivity.
  - exact sound_disk_laws.
  - apply NoDup_singleton.
  - constructor; [exact demo_good|constructor].
  - destruct (apply_sharded_delta sound_disk demo_base d) as [b' r] eqn:Ea. assert (r = inl ()) as Er by (apply Hok; intros dir op; reflexivity). exists d, b'. split; [exact Ed|]. split; [rewrite Ea, Er; reflexivity|].
    destruct (Ha b' r eq_refl) as [_ Hm]. rewrite Er in Hm. destruct Hm as [_ Hs]. inversion Hs; assumption.
Defined.

(** The pair of segment A, which was merged away: the bundle "A.0.minted." *)
Definition pair_bundle : str := [0x41; 0x2E; 0x30; 0x2E; 0x6D; 0x69; 0x6E; 0x74; 0x65; 0x64; 0x2E].
Definition pair_file : str := pair_bundle ++ [0x73; 0x66; 0x78].
Definition pair_server : DeltaExporter :=
  {| current_bundle_ids := inl {[ bB; pair_bundle ]}; export.read_manifest := inl [0x7B; 0x7D];
     read_bundle_files := λ b, inl (if bool_decide (b = pair_bundle) then [(pair_file, [7])] else []); export.read_config := None; has_uncommitted := false |}.

Lemma retired_prefix_loses_current_witness : ∃ d dir', export_delta_from elements pair_server {[ bA; pair_bundle ]} [0x61] = inl d ∧ apply_delta sound_disk {[ pair_file := [7] ]} d = (dir', inl ()) ∧
  meta d = [0x7B; 0x7D] ∧ dir' !! META_JSON = Some [0x7B; 0x7D] ∧ dir' !! pair_file = None.
Proof.
  destruct (export_delta_from elements pair_server {[ bA; pair_bundle ]} [0x61]) as [d|] eqn:Ed; [|vm_compute in Ed; discriminate]. exists d. destruct (apply_delta sound_disk {[ pair_file := [7] ]} d) as [dir' r] eqn:Ea.
  assert (r = inl ()) as Er by (pose proof (apply_ok sound_disk (λ _ _, eq_refl) {[ pair_file := [7] ]} d) as H; rewrite Ea in H; exact H). rewrite Er in Ea. exists dir'. split; [reflexivity|]. split; [rewrite Er; reflexivity|].
  apply (retired_prefix_loses_current elements sound_disk pair_server {[ bB; pair_bundle ]} (λ b, if bool_decide (b = pair_bundle) then [(pair_file, [7])] else []) [0x7B; 0x7D] {[ bA; pair_bundle ]} [0x61] {[ pair_file := [7] ]} d dir' bA pair_bundle pair_file [7]);
    [reflexivity|exact sound_disk_laws|split; reflexivity|vm_compute; reflexivity| |vm_compute; reflexivity|rewrite bool_decide_eq_true_2 by reflexivity; left|exists (drop 1 pair_file); reflexivity|discriminate|discriminate|discriminate|intros dir; reflexivity|exact Ed|exact Ea].
  vm_compute. discriminate.
Defined.

(** The same, evaluated: the retired file is gone, the new ones and the delete file are there. *)
Example demo_synced :
  match export_sharded_delta elements [(0, demo_handle)] demo_versions None None with
  | inl d =>
      match deserialize_sharded_delta (serialize_sharded_delta d) with
      | Ret (inl d) => map (λ n, shards (fst (apply_sharded_delta sound_disk demo_base d)) !! 0 ≫= (λ dir : Dir, dir !! n))
          [named bA [0x74]; named bB [0x74]; named bB DEL; named bC [0x74]; META_JSON; META_TMP; CONFIG_JSON]
      | _ => []
      end
  | _ => []
  end = [None; Some [1]; Some [2]; Some [3]; Some [0x7B; 0x7D]; None; Some [5]].
Proof. by vm_compute. Qed.

Lemma failed_apply_manifest_witness : ∃ dir' op, apply_delta full_disk old_dir retiring = (dir', inr op) ∧
  (dir' !! META_JSON = old_dir !! META_JSON ∨ (∃ c, op = Write CONFIG_JSON c ∧ dir' !! META_JSON = Some (meta retiring))).
Proof.
  destruct (apply_delta full_disk old_dir retiring) as [dir' [|op]] eqn:E; [vm_compute in E; discriminate|]. exists dir', op. split; [reflexivity|].
  apply (failed_apply_manifest full_disk old_dir retiring dir' op full_disk_laws); [| |exact E].
  - intros f Hf. change (files_of (added_segments retiring)) with [([0x62; 0x2E; 0x74], [2])] in Hf. apply list_elem_of_singleton in Hf as ->. discriminate.
  - intros r Hr. apply list_elem_of_singleton in Hr as ->. intros [k Ek]. discriminate.
Defined.

Lemma failed_apply_loses_segment_witness : ∃ dir', apply_delta full_disk old_dir retiring = (dir', inr (Write META_TMP (meta retiring))) ∧
  old_dir !! old_segment = Some [1] ∧ dir' !! META_JSON = old_dir !! META_JSON ∧ dir' !! old_segment = None.
Proof.
  destruct (failed_apply_loses_segment full_disk old_dir retiring full_disk_laws) as (dir' & E & Hm & Hg).
  - intros dir [m x| |m|a b|]; try reflexivity. unfold full_disk. destruct (bool_decide (m = META_TMP)); reflexivity.
  - intros f Hf. change (files_of (added_segments retiring)) with [([0x62; 0x2E; 0x74], [2])] in Hf. apply list_elem_of_singleton in Hf as ->. split; discriminate.
  - intros r Hr. apply list_elem_of_singleton in Hr as ->. intros [k Ek]. discriminate.
  - exists dir'. split; [exact E|]. split; [reflexivity|]. split; [exact Hm|]. apply (Hg [0x61]); [left|exists [0x2E; 0x74]; reflexivity|discriminate].
Defined.

Lemma server_history_witness : ∃ s, record_all (new_sharded 2 2) [(0, [1], ∅); (0, [2], {[ bA ]}); (1, [1], ∅); (0, [2], ∅); (0, [3], ∅)] = Ret (inl s) ∧
  lookup_version s 0 [1] = Ret (inl FullSnapshot) ∧ lookup_version s 0 [2] = Ret (inl (ClientSegments [2] {[ bA ]})) ∧ lookup_version s 0 [3] = Ret (inl UpToDate) ∧ lookup_version s 1 [1] = Ret (inl UpToDate).
Proof.
  destruct (server_history 2 2 [(0, [1], ∅); (0, [2], {[ bA ]}); (1, [1], ∅); (0, [2], ∅); (0, [3], ∅)]) as (s & E & Hl & _); [lia|repeat constructor; cbn; lia|].
  exists s. split; [exact E|]. rewrite !Hl by lia. split_and!; reflexivity.
Defined.
