(* ===== verification/BlobCache.v ===== *)
(** * Blob stores and their local cache
      ([lucistore/src/blob_store.rs], [lucistore/src/blob_cache.rs])

    An index can live in a database or an object store: [BlobStore] is what
    the engine asks of one, [BlobCache] the local directory it serves the
    files from, written through.  Every operation of the store and every write
    or removal in the local directory can fail; reading a local file does not.
    The cache is verified against the laws of the trait and of the file
    system, and the in-memory store, its poisoned lock included, meets the
    former. *)
From stdpp Require Import gmap.
From S2P Require Import Prelude Sync.
Import export fs_utils.
Open Scope Z_scope.

Module blob_store.

(** What is not found, another message, or a local operation that failed. *)
Inductive IoError := NotFound (index_name file_name : str) | Other (message : str) | Local (op : fs_op).
Definition io (A : Type) : Type := A + IoError.
#[export] Instance io_ret : MRet io := λ A a, inl a.
#[export] Instance io_bind : MBind io := λ A B f r, match r with inl a => f a | inr e => inr e end.

(** The trait; the store is changed behind a shared reference, so an
    operation that writes gives the store after it. *)
Class BlobStore (S : Type) := {
  load : S → str → str → io (list Z);
  save : S → str → str → list Z → S * io ();
  delete_blob : S → str → str → S * io ();
  blob_exists : S → str → str → io bool;
  list_blobs : S → str → io (list str);
  blob_len : S → str → str → out (io (option Z));
  load_range : S → str → str → Z → Z → out (io (option (list Z)));
}.

(** [index_name -> file_name -> data], behind a lock that is poisoned once a
    writer has panicked. *)
Record MemBlobStore := { mem_data : gmap str (gmap str (list Z)); poisoned : bool }.

Definition mem_new : MemBlobStore := {| mem_data := ∅; poisoned := false |}.

(** "lock poisoned" *)
Definition POISONED : IoError := Other [0x6C; 0x6F; 0x63; 0x6B; 0x20; 0x70; 0x6F; 0x69; 0x73; 0x6F; 0x6E; 0x65; 0x64].
Definition lock (s : MemBlobStore) : io (gmap str (gmap str (list Z))) := if poisoned s then inr POISONED else inl (mem_data s).

Definition mem_file (data : gmap str (gmap str (list Z))) (i f : str) : option (list Z) := data !! i ≫= (λ files, files !! f).

Definition mem_load (s : MemBlobStore) (i f : str) : io (list Z) :=
  data ← lock s;
  match mem_file data i f with Some d => inl d | None => inr (NotFound i f) end.

Definition mem_save (s : MemBlobStore) (i f : str) (d : list Z) : MemBlobStore * io () :=
  match lock s with
  | inl data => ({| mem_data := <[i := <[f := d]> (default ∅ (data !! i))]> data; poisoned := false |}, inl ())
  | inr e => (s, inr e)
  end.

Definition mem_delete (s : MemBlobStore) (i f : str) : MemBlobStore * io () :=
  match lock s with
  | inl data => ({| mem_data := match data !! i with Some files => <[i := delete f files]> data | None => data end; poisoned := false |}, inl ())
  | inr e => (s, inr e)
  end.

Definition mem_exists (s : MemBlobStore) (i f : str) : io bool :=
  data ← lock s;
  mret (match data !! i with Some files => bool_decide (is_Some (files !! f)) | None => false end).

Definition mem_list (s : MemBlobStore) (i : str) : io (list str) :=
  data ← lock s;
  mret (match data !! i with Some files => (map_to_list files).*1 | None => [] end).

(** [self.data.read().unwrap()] *)
Definition mem_blob_len (s : MemBlobStore) (i f : str) : out (io (option Z)) :=
  if poisoned s then Panic else Ret (inl (len <$> mem_file (mem_data s) i f)).

(** [b[start..end.min(b.len())]]: panics when the range starts past the end. *)
Definition mem_load_range (s : MemBlobStore) (i f : str) (start end_ : Z) : out (io (option (list Z))) :=
  if poisoned s then Panic else
  match mem_file (mem_data s) i f with
  | Some b => r ← slice b start (Z.min end_ #b); Ret (inl (Some r))
  | None => Ret (inl None)
  end.

#[export] Instance mem_store : BlobStore MemBlobStore := {|
  load := mem_load; save := mem_save; delete_blob := mem_delete; blob_exists := mem_exists;
  list_blobs := mem_list; blob_len := mem_blob_len; load_range := mem_load_range;
|}.

End blob_store.
Import blob_store.

Module blob_cache.
Section Cache.
Context {S : Type} `{BlobStore S}.
(** The local file system: the directory after an operation, and whether it
    succeeded. *)
Variable exec : Dir → fs_op → Dir * bool.

Record BlobCache := { store : S; prefixed_name : str; cache_dir : Dir }.

(** ".lock", and [str::contains]. *)
Definition LOCK : str := [0x2E; 0x6C; 0x6F; 0x63; 0x6B].
Fixpoint contains (n pat : str) : bool :=
  starts_with n pat || match n with [] => false | _ :: n => contains n pat end.

(** [std::fs::write]: the directory after it, and the error. *)
Definition fs_write (dir : Dir) (f : str) (data : list Z) : Dir * io () :=
  let '(dir, ok) := exec dir (Write f data) in (dir, if ok : bool then inl () else inr (Local (Write f data))).

(** The loop of [materialize]: what it has written into the directory is lost
    with the cache when it fails. *)
Fixpoint fetch_all (s : S) (name : str) (dir : Dir) (fs : list str) : io Dir :=
  match fs with
  | [] => mret dir
  | f :: fs =>
      if contains f LOCK then fetch_all s name dir fs else
      data ← load s name f;
      let '(dir, r) := fs_write dir f data in
      _ ← r;
      fetch_all s name dir fs
  end.

Definition materialize (c : BlobCache) : io BlobCache :=
  fs ← list_blobs (store c) (prefixed_name c);
  dir ← fetch_all (store c) (prefixed_name c) (cache_dir c) fs;
  mret {| store := store c; prefixed_name := prefixed_name c; cache_dir := dir |}.

(** The directory the clean-up left and whether it could be created, then
    every blob. *)
Definition new (left_over : Dir) (created : io ()) (s : S) (prefix name : str) : io BlobCache :=
  _ ← created;
  materialize {| store := s; prefixed_name := prefix ++ name; cache_dir := left_over |}.

Definition write_through (c : BlobCache) (f : str) (data : list Z) : BlobCache * io () :=
  let '(dir, r) := fs_write (cache_dir c) f data in
  match r with
  | inr e => ({| store := store c; prefixed_name := prefixed_name c; cache_dir := dir |}, inr e)
  | inl () =>
      let '(s, r) := save (store c) (prefixed_name c) f data in
      ({| store := s; prefixed_name := prefixed_name c; cache_dir := dir |}, r)
  end.

(** The result of the local removal is dropped. *)
Definition delete_through (c : BlobCache) (f : str) : BlobCache * io () :=
  let dir := remove_file exec (cache_dir c) f in
  let '(s, r) := delete_blob (store c) (prefixed_name c) f in
  ({| store := s; prefixed_name := prefixed_name c; cache_dir := dir |}, r).

Definition read_cached (c : BlobCache) (f : str) : io (list Z) :=
  match cache_dir c !! f with Some d => inl d | None => inr (NotFound (prefixed_name c) f) end.

Definition exists_cached (c : BlobCache) (f : str) : bool := bool_decide (is_Some (cache_dir c !! f)).

Definition list_cached (c : BlobCache) : list str := (map_to_list (cache_dir c)).*1.

End Cache.
Arguments BlobCache : clear implicits.
End blob_cache.
Import blob_cache.

(** ** The contract of a store *)

(** What a store holds; an operation that returns Ok reads or changes that,
    and one that fails leaves every other blob alone. *)
Definition only_at (i f : str) (h h' : str → gmap str (list Z)) : Prop := ∀ j g, j ≠ i ∨ g ≠ f → h' j !! g = h j !! g.
Class StoreLaws (S : Type) `{BlobStore S} := {
  holds : S → str → gmap str (list Z);
  load_holds : ∀ s i f d, load s i f = inl d → holds s i !! f = Some d;
  list_holds : ∀ s i fs, list_blobs s i = inl fs → ∀ f, f ∈ fs ↔ is_Some (holds s i !! f);
  save_frame : ∀ s i f d, only_at i f (holds s) (holds (fst (save s i f d)));
  save_holds : ∀ s i f d, snd (save s i f d) = inl () → holds (fst (save s i f d)) i !! f = Some d;
  delete_frame : ∀ s i f, only_at i f (holds s) (holds (fst (delete_blob s i f)));
  delete_holds : ∀ s i f, snd (delete_blob s i f) = inl () → holds (fst (delete_blob s i f)) i !! f = None;
}.

#[export] Instance mem_laws : StoreLaws MemBlobStore.
Proof.
  refine {| holds := λ s i, default ∅ (mem_data s !! i) |}; intros [data []] i f; cbn; unfold mem_load, mem_save, mem_delete, mem_list, mem_file, lock; cbn; try done.
  - intros d. destruct (data !! i); cbn; [by destruct (_ !! f) eqn:E; intros [= <-]|done].
  - intros [= <-] g. destruct (data !! i) as [m|]; cbn; [|by rewrite lookup_empty, elem_of_nil; split; [|intros [? ?]]]. rewrite list_elem_of_fmap. split; [intros ([x d] & -> & Hx%elem_of_map_to_list); by exists d|].
    intros [d Hd]. exists (g, d). split; [done|]. by apply elem_of_map_to_list.
  - intros d j g Hne. destruct (decide (i = j)) as [<-|Hj]; [|by rewrite lookup_insert_ne]. rewrite lookup_insert_eq. cbn. rewrite lookup_insert_ne by naive_solver. done.
  - intros d _. by rewrite lookup_insert_eq; cbn; rewrite lookup_insert_eq.
  - intros j g Hne. destruct (data !! i) as [m|] eqn:Ei; [|done]. destruct (decide (i = j)) as [<-|Hj]; [|by rewrite lookup_insert_ne]. rewrite lookup_insert_eq, Ei. cbn. rewrite lookup_delete_ne by naive_solver. done.
  - intros _. destruct (data !! i) as [m|] eqn:Ei; [by rewrite lookup_insert_eq; cbn; rewrite lookup_delete_eq|]. by rewrite Ei.
Defined.

(** ** The cache *)

Section Cached.
Context {S : Type} `{StoreLaws S} (exec : Dir → fs_op → Dir * bool) (laws : fs_laws exec).
Implicit Types (c : BlobCache S) (s : S).

(** The cache shows what the store holds of a file. *)
Definition mirrors c (f : str) : Prop := cache_dir c !! f = holds (store c) (prefixed_name c) !! f.

Lemma fs_write_spec dir f data : (∀ g, g ≠ f → fst (fs_write exec dir f data) !! g = dir !! g) ∧ (snd (fs_write exec dir f data) = inl () → fst (fs_write exec dir f data) !! f = Some data).
Proof using laws.
  unfold fs_write. pose proof (exec_frame exec laws dir (Write f data)) as Hf. destruct (exec dir (Write f data)) as [dir' ok] eqn:E. cbn in *. split; [intros g Hg; apply Hf; [done|by intros ? ? [=]]|].
  destruct ok; [|done]. apply (fs_done _ laws) in E as ->. intros _. apply lookup_insert_eq.
Qed.

(** Why a cache cannot be opened. *)
Inductive cannot_open s (i : str) : IoError → Prop :=
  | no_list e : list_blobs s i = inr e → cannot_open s i e
  | no_blob fs f e : list_blobs s i = inl fs → f ∈ fs → contains f LOCK = false → load s i f = inr e → cannot_open s i e
  | no_room dir f d : snd (exec dir (Write f d)) = false → cannot_open s i (Local (Write f d)).

Lemma fetch_all_ok s i fs : ∀ dir,
  match fetch_all exec s i dir fs with
  | inl dir' => ∀ f, contains f LOCK = false → dir' !! f = if bool_decide (f ∈ fs) then holds s i !! f else dir !! f
  | inr e => (∃ f, f ∈ fs ∧ contains f LOCK = false ∧ load s i f = inr e) ∨ ∃ dir f d, snd (exec dir (Write f d)) = false ∧ e = Local (Write f d)
  end.
Proof using laws.
  induction fs as [|g fs IH]; intros dir; cbn [fetch_all]; [done|]. destruct (contains g LOCK) eqn:El; [|destruct (load s i g) as [data|e] eqn:Eg; cbn [mbind io_bind]].
  - specialize (IH dir). destruct (fetch_all _ _ _ _ _) as [dir'|e]; [|destruct IH as [(f & ? & ?)|?]; [left; exists f; split; [by right|done]|by right]]. intros f Hf. rewrite (IH f Hf).
    rewrite (bool_decide_ext (f ∈ g :: fs) (f ∈ fs)); [done|]. rewrite elem_of_cons. split; [intros [->|?]; [congruence|done]|by right].
  - destruct (fs_write_spec dir g data) as [Ho Hw]. assert (∀ e, snd (fs_write exec dir g data) = inr e → snd (exec dir (Write g data)) = false ∧ e = Local (Write g data)) as He by (unfold fs_write; destruct (exec _ _) as [? []]; cbn; naive_solver).
    destruct (fs_write exec dir g data) as [dir1 [[]|e]]; cbn in *; [|right; exists dir, g, data; by apply He]. specialize (IH dir1). destruct (fetch_all _ _ _ dir1 _) as [dir'|e]; [|destruct IH as [(f & ? & ?)|?]; [left; exists f; split; [by right|done]|by right]].
    intros f Hf. rewrite (IH f Hf). destruct (decide (f = g)) as [->|Hne].
    + rewrite (bool_decide_eq_true_2 (g ∈ g :: fs)) by left. case_bool_decide; [done|]. rewrite Hw by done. symmetry. by apply load_holds.
    + rewrite (bool_decide_ext (f ∈ g :: fs) (f ∈ fs)) by (rewrite elem_of_cons; naive_solver). by rewrite (Ho f Hne).
  - left. exists g. split; [left|done].
Qed.

Lemma new_ok s prefix name :
  match new exec ∅ (inl ()) s prefix name with
  | inl c => store c = s ∧ prefixed_name c = prefix ++ name ∧ ∀ f, contains f LOCK = false → mirrors c f
  | inr e => cannot_open s (prefix ++ name) e
  end.
Proof using laws.
  unfold new, materialize. cbn [mbind io_bind store prefixed_name cache_dir]. destruct (list_blobs s (prefix ++ name)) as [fs|e] eqn:El; cbn [mbind io_bind]; [|by apply no_list].
  pose proof (fetch_all_ok s (prefix ++ name) fs ∅) as H1. destruct (fetch_all _ _ _ _ _) as [dir|e]; cbn.
  - split_and!; [done|done|]. intros f Hf. unfold mirrors. cbn. rewrite (H1 f Hf). pose proof (list_holds _ _ _ El f) as Hin. case_bool_decide as Hb; [done|]. rewrite lookup_empty.
    destruct (holds s (prefix ++ name) !! f) eqn:Ef; [|done]. exfalso. apply Hb, Hin. by eexists.
  - destruct H1 as [(f & Hf & Hl & He)|(dir & f & d & Hw & ->)]; [by eapply no_blob|by eapply no_room].
Qed.

(** The calls of a client of the cache, and whether one did both of its
    parts: it returned Ok and, for a deletion, the local removal succeeded or
    the local file is gone. *)
Inductive call := WriteThrough (f : str) (data : list Z) | DeleteThrough (f : str).
Definition named_by (op : call) : str := match op with WriteThrough f _ | DeleteThrough f => f end.
Definition perform c (op : call) : BlobCache S * io () :=
  match op with WriteThrough f d => write_through exec c f d | DeleteThrough f => delete_through exec c f end.
Definition performed c (ops : list call) : BlobCache S := fold_left (λ c op, fst (perform c op)) ops c.
Definition settled c (op : call) : bool :=
  match snd (perform c op) with
  | inr _ => false
  | inl () => match op with WriteThrough _ _ => true | DeleteThrough f => snd (exec (cache_dir c) (Remove f)) || bool_decide (cache_dir (fst (perform c op)) !! f = None) end
  end.
(** The files whose last call did not. *)
Fixpoint doubtful c (ops : list call) (fs : gset str) : gset str :=
  match ops with
  | [] => fs
  | op :: ops => doubtful (fst (perform c op)) ops (if settled c op then fs ∖ {[ named_by op ]} else fs ∪ {[ named_by op ]})
  end.

Lemma perform_ok c op : prefixed_name (fst (perform c op)) = prefixed_name c ∧ (∀ f, f ≠ named_by op → mirrors c f → mirrors (fst (perform c op)) f) ∧
  (settled c op = true → mirrors (fst (perform c op)) (named_by op)) ∧ ∀ j, j ≠ prefixed_name c → holds (store (fst (perform c op))) j = holds (store c) j.
Proof using laws.
  unfold settled, mirrors. destruct op as [f d|f]; cbn [perform named_by].
  - unfold write_through. destruct (fs_write_spec (cache_dir c) f d) as [Ho Hw]. destruct (fs_write exec (cache_dir c) f d) as [dir [[]|e]]; cbn in *; [|split_and!; [done|intros g Hg Hm; by rewrite (Ho g Hg)|done|done]].
    pose proof (save_frame (store c) (prefixed_name c) f d) as Hf. pose proof (save_holds (store c) (prefixed_name c) f d) as Hs. destruct (save _ _ _ _) as [s r]. cbn in *. split_and!; [done| | |].
    + intros g Hg Hm. rewrite (Ho g Hg), (Hf (prefixed_name c) g) by auto. done.
    + destruct r as [[]|]; [|done]. intros _. by rewrite Hw, Hs.
    + intros j Hj. apply map_eq. intros g. apply Hf. by left.
  - unfold delete_through. assert (∀ g, g ≠ f → remove_file exec (cache_dir c) f !! g = cache_dir c !! g) as Ho by (intros g Hg; unfold remove_file; apply (exec_frame exec laws); [done|by intros ? ? [=]]).
    pose proof (delete_frame (store c) (prefixed_name c) f) as Hf. pose proof (delete_holds (store c) (prefixed_name c) f) as Hs. destruct (delete_blob _ _ _) as [s r]. cbn in *. split_and!; [done| | |].
    + intros g Hg Hm. rewrite (Ho g Hg), (Hf (prefixed_name c) g) by auto. done.
    + destruct r as [[]|]; [|done]. intros E. rewrite Hs by done. revert E. unfold remove_file. destruct (exec (cache_dir c) (Remove f)) as [dir []] eqn:Ex; cbn; [|by intros E%bool_decide_eq_true_1].
      intros _. apply (fs_done _ laws) in Ex as ->. apply lookup_delete_eq.
    + intros j Hj. apply map_eq. intros g. apply Hf. by left.
Qed.

Lemma performed_ok ops : ∀ c fs, (∀ f, contains f LOCK = false → f ∉ fs → mirrors c f) →
  (∀ f, contains f LOCK = false → f ∉ doubtful c ops fs → mirrors (performed c ops) f) ∧ prefixed_name (performed c ops) = prefixed_name c ∧
  ∀ j, j ≠ prefixed_name c → holds (store (performed c ops)) j = holds (store c) j.
Proof using laws.
  induction ops as [|op ops IH]; intros c fs Hm; [done|]. destruct (perform_ok c op) as (H1 & H2 & H3 & H4). unfold performed in *. cbn [fold_left doubtful].
  destruct (IH (fst (perform c op)) (if settled c op then fs ∖ {[ named_by op ]} else fs ∪ {[ named_by op ]})) as (H5 & H6 & H7).
  - intros f Hf Hin. destruct (decide (f = named_by op)) as [->|Hne]; [apply H3; destruct (settled c op); [done|]; exfalso; apply Hin; set_solver|]. apply H2; [done|]. apply Hm; [done|]. destruct (settled c op); set_solver.
  - split_and!; [done|by rewrite H6|]. intros j Hj. rewrite H7 by by rewrite H1. by apply H4.
Qed.

(** What reading a file of the store gives. *)
Definition as_held s (i f : str) : io (list Z) := match holds s i !! f with Some d => inl d | None => inr (NotFound i f) end.

Lemma mirrors_read c f : mirrors c f → read_cached c f = as_held (store c) (prefixed_name c) f.
Proof using. unfold mirrors, read_cached, as_held. by intros ->. Qed.

(** C17. The cache is stale for no file but those whose last call failed.  On
    any store that meets the contract and any local file system, where every
    operation may fail: opening a cache in a fresh directory fails only when
    the list, a blob or a local write does.  Once it is open, whatever writes
    and deletions go through it and whichever of their parts fail, reading a
    file from the local directory gives what the store holds under the same
    name, lock files aside, unless the last call on that file returned an
    error or was a deletion whose local removal failed; the other indexes of the
    store are untouched; and a cache that can be opened afterwards on the same
    store reads what the store holds. *)
Theorem cache_consistent s prefix name :
  match new exec ∅ (inl ()) s prefix name with
  | inr e => cannot_open s (prefix ++ name) e
  | inl c => ∀ ops,
      (∀ f, contains f LOCK = false → f ∉ doubtful c ops ∅ → read_cached (performed c ops) f = as_held (store (performed c ops)) (prefix ++ name) f) ∧
      (∀ j, j ≠ prefix ++ name → holds (store (performed c ops)) j = holds s j) ∧
      (∀ c', new exec ∅ (inl ()) (store (performed c ops)) prefix name = inl c' →
         ∀ f, contains f LOCK = false → read_cached c' f = as_held (store (performed c ops)) (prefix ++ name) f)
  end.
Proof using laws.
  pose proof (new_ok s prefix name) as Hn. destruct (new exec ∅ (inl ()) s prefix name) as [c|e]; [|done]. destruct Hn as (Hs & Hp & Hm). intros ops. destruct (performed_ok ops c ∅) as (H1 & H2 & H3); [intros f Hf _; by apply Hm|]. split_and!.
  - intros f Hf Hd. rewrite mirrors_read by by apply H1. by rewrite H2, Hp.
  - intros j Hj. rewrite H3 by by rewrite Hp. by rewrite Hs.
  - intros c' E f Hf. pose proof (new_ok (store (performed c ops)) prefix name) as Hn. rewrite E in Hn. destruct Hn as (Es & Ep & Hm'). rewrite mirrors_read by by apply Hm'. by rewrite Es, Ep.
Qed.
End Cached.

(** ** The in-memory store *)

(** A file system that cannot write one file. *)
Definition stuck_disk (dir : Dir) (op : fs_op) : Dir * bool :=
  match op with Write n _ => if bool_decide (n = [0x68]) then (dir, false) else (run_op dir op, true) | _ => (run_op dir op, true) end.

Lemma stuck_disk_laws : fs_laws stuck_disk.
Proof. split; intros dir [m x| |m|a b|] dir' *; cbn; try case_bool_decide; by intros [= <-]. Qed.

Definition demo_store : MemBlobStore := fst (mem_save mem_new [0x61; 0x62] [0x66] [1]).
Definition demo_ops : list call := [WriteThrough [0x67] [2]; WriteThrough [0x68] [3]; DeleteThrough [0x66]].

Lemma cache_consistent_witness : ∃ c, new stuck_disk ∅ (inl ()) demo_store [0x61] [0x62] = inl c ∧ doubtful stuck_disk c demo_ops ∅ = {[ [0x68] ]} ∧
  ∀ f, contains f LOCK = false → f ≠ [0x68] → read_cached (performed stuck_disk c demo_ops) f = as_held (store (performed stuck_disk c demo_ops)) [0x61; 0x62] f.
Proof.
  pose proof (cache_consistent stuck_disk stuck_disk_laws demo_store [0x61] [0x62]) as Hc. destruct (new stuck_disk ∅ (inl ()) demo_store [0x61] [0x62]) as [c|e] eqn:E; [|vm_compute in E; discriminate].
  exists c. split; [reflexivity|]. assert (doubtful stuck_disk c demo_ops ∅ = {[ [0x68] ]}) as Ed by (vm_compute in E; injection E as <-; vm_compute; reflexivity). split; [exact Ed|].
  destruct (Hc demo_ops) as (H1 & _). intros f Hf Hne. apply H1; [exact Hf|]. rewrite Ed. intros Hin. apply Hne. apply elem_of_singleton in Hin. exact Hin.
Defined.

(** The same, evaluated; and a store whose lock is poisoned: the write is
    only local, and a cache cannot be opened. *)
Example cache_demo :
  match new stuck_disk ∅ (inl ()) demo_store [0x61] [0x62] with
  | inl c => let c := performed stuck_disk c demo_ops in (read_cached c [0x67], read_cached c [0x66], mem_exists (store c) [0x61; 0x62] [0x66])
  | inr e => (inr e, inr e, inr e)
  end = (inl [2], inr (NotFound [0x61; 0x62] [0x66]), inl false).
Proof. by vm_compute. Qed.

Example poisoned_demo :
  let s := {| mem_data := {[ [0x61] := {[ [0x66] := [1] ]} ]}; poisoned := true |} in
  let c := {| store := s; prefixed_name := [0x61]; cache_dir := {[ [0x66] := [1] ]} |} in
  let '(c', r) := write_through stuck_disk c [0x66] [2] in
  (r, read_cached c' [0x66], mem_data (store c') !! [0x61] ≫= (λ m, m !! [0x66]), settled stuck_disk c (WriteThrough [0x66] [2])) = (inr POISONED, inl [2], Some [1], false) ∧
  new stuck_disk ∅ (inl ()) s [] [0x61] = inr POISONED ∧ mem_blob_len s [0x61] [0x66] = Panic.
Proof. by vm_compute. Qed.
