(* ===== verification/ShardRouter.v ===== *)
(** * The shard router ([lucistore/src/shard_router.rs])

    Routes documents to shards by the balance of their rare tokens and of the
    document counts, and keeps its counters in a file.  Scores are IEEE
    binary64 numbers, computed with the executable specification of the
    standard library; a stored [f64] is its 64 bits. *)
From stdpp Require Import gmap.
From Stdlib Require Import SpecFloat.
From S2P Require Import Prelude Binary.
Import binary.
Open Scope Z_scope.

(** ** Binary64 *)

Module f64.
Definition prec : Z := 53.
Definition emax : Z := 1024.
Definition add := SFadd prec emax.
Definition sub := SFsub prec emax.
Definition mul := SFmul prec emax.
Definition div := SFdiv prec emax.
Definition sqrt := SFsqrt prec emax.
Definition ltb := SFltb.
Definition leb := SFleb.
Definition MAX : spec_float := SFmax_float prec emax.
Definition one : spec_float := SFone prec emax.

(** [n as f64]. *)
Definition of_Z (n : Z) : spec_float := binary_normalize prec emax n 0 false.

(** [f64::from_bits]. *)
Definition of_bits (b : Z) : spec_float :=
  let s := Z.testbit b 63 in
  let e := Z.land (Z.shiftr b 52) 0x7FF in
  let m := Z.land b 0xFFFFFFFFFFFFF in
  if e =? 0x7FF then (if m =? 0 then S754_infinity s else S754_nan)
  else if e =? 0 then (if m =? 0 then S754_zero s else S754_finite s (Z.to_pos m) (-1074))
  else S754_finite s (Z.to_pos (m + 2 ^ 52)) (e - 1075).

(** The bits of [0.0] and [1.0], and [x.clamp(0.0, 1.0)]. *)
Definition ZERO_BITS : Z := 0.
Definition ONE_BITS : Z := 0x3FF0000000000000.
Definition clamp01 (b : Z) : Z :=
  if ltb (of_bits b) (of_bits ZERO_BITS) then ZERO_BITS
  else if ltb (of_bits ONE_BITS) (of_bits b) then ONE_BITS else b.
End f64.

Module router.

Definition DEFAULT_DF_THRESHOLD : Z := 5000.
Definition DEFAULT_BALANCE_WEIGHT : Z := f64.ONE_BITS.

Abbreviation counters := (gmap Z Z).

Record ShardRouter := {
  num_shards : Z;
  shard_token_counts : list counters;
  global_token_counts : counters;
  shard_doc_counts : list Z;
  df_threshold : Z;
  balance_weight : Z;
  node_id_to_shard : gmap Z Z;
}.

Definition with_options (n threshold weight : Z) : ShardRouter :=
  {| num_shards := n; shard_token_counts := replicate (Z.to_nat n) ∅; global_token_counts := ∅; shard_doc_counts := replicate (Z.to_nat n) 0;
     df_threshold := threshold; balance_weight := f64.clamp01 weight; node_id_to_shard := ∅ |}.
Definition new (n : Z) : ShardRouter := with_options n DEFAULT_DF_THRESHOLD DEFAULT_BALANCE_WEIGHT.
Definition with_threshold (n threshold : Z) : ShardRouter := with_options n threshold DEFAULT_BALANCE_WEIGHT.

Definition set_tokens (r : ShardRouter) (t : list counters) (g : counters) : ShardRouter :=
  {| num_shards := num_shards r; shard_token_counts := t; global_token_counts := g; shard_doc_counts := shard_doc_counts r;
     df_threshold := df_threshold r; balance_weight := balance_weight r; node_id_to_shard := node_id_to_shard r |}.
Definition set_docs (r : ShardRouter) (d : list Z) : ShardRouter :=
  {| num_shards := num_shards r; shard_token_counts := shard_token_counts r; global_token_counts := global_token_counts r; shard_doc_counts := d;
     df_threshold := df_threshold r; balance_weight := balance_weight r; node_id_to_shard := node_id_to_shard r |}.
Definition set_nodes (r : ShardRouter) (m : gmap Z Z) : ShardRouter :=
  {| num_shards := num_shards r; shard_token_counts := shard_token_counts r; global_token_counts := global_token_counts r; shard_doc_counts := shard_doc_counts r;
     df_threshold := df_threshold r; balance_weight := balance_weight r; node_id_to_shard := m |}.

(** [*counts.entry(h).or_default() += n]. *)
Definition bump (n : Z) (h : Z) (m : counters) : counters := <[h := add32 (default 0 (m !! h)) n]> m.

Definition update_counters_for_token (r : ShardRouter) (shard_id h : Z) : out ShardRouter :=
  let g := bump 1 h (global_token_counts r) in
  if default 0 (g !! h) <? df_threshold r then
    m ← index (shard_token_counts r) shard_id;
    Ret (set_tokens r (set_at shard_id (bump 1 h m) (shard_token_counts r)) g)
  else Ret (set_tokens r (shard_token_counts r) g).

Definition apply_route (r : ShardRouter) (shard_id : Z) (doc_tokens : list Z) : out ShardRouter :=
  c ← index (shard_doc_counts r) shard_id;
  let r := set_docs r (set_at shard_id (as_u64 (c + 1)) (shard_doc_counts r)) in
  foldM (λ r h, update_counters_for_token r shard_id h) r doc_tokens.

(** The terms of the sum in [score_shard]. *)
Definition token_terms (r : ShardRouter) (m : counters) (doc_tokens : list Z) : list spec_float :=
  omap (λ h, global ← global_token_counts r !! h;
             if df_threshold r <=? global then None
             else Some (f64.div (f64.of_Z (default 0 (m !! h))) (f64.sqrt (f64.of_Z global)))) doc_tokens.

(** [.sum()] of floats starts from [-0.0]. *)
Definition score_shard (r : ShardRouter) (shard_id : Z) (doc_tokens : list Z) (total_docs : spec_float) : out spec_float :=
  m ← index (shard_token_counts r) shard_id;
  c ← index (shard_doc_counts r) shard_id;
  let token_score := fold_left f64.add (token_terms r m doc_tokens) (S754_zero true) in
  let shard_ratio := f64.div (f64.of_Z c) total_docs in
  let w := f64.of_bits (balance_weight r) in
  Ret (f64.add (f64.mul (f64.sub f64.one w) token_score) (f64.mul w shard_ratio)).

Definition total_docs (r : ShardRouter) : Z := fold_left (λ a c, as_u64 (a + c)) (shard_doc_counts r) 0.

(** [for shard_id in 0..n { if score < best_score { .. } }]. *)
Definition best_shard (r : ShardRouter) (doc_tokens : list Z) (total : spec_float) : out (Z * spec_float) :=
  foldM (λ best shard_id,
           score ← score_shard r shard_id doc_tokens total;
           Ret (if f64.ltb score (snd best) then (shard_id, score) else best))
    (0, f64.MAX) (range 0 (num_shards r)).

Definition route (r : ShardRouter) (doc_tokens : list Z) : out (ShardRouter * Z) :=
  if num_shards r =? 1 then r ← apply_route r 0 doc_tokens; Ret (r, 0) else
  let total := f64.of_Z (Z.max (total_docs r) 1) in
  best ← best_shard r doc_tokens total;
  r ← apply_route r (fst best) doc_tokens;
  Ret (r, fst best).

Definition route_p2c (r : ShardRouter) (doc_tokens : list Z) (doc_id : Z) : out (ShardRouter * Z) :=
  if num_shards r <=? 2 then route r doc_tokens else
  let a := Z.shiftr (as_u64 (doc_id * 0x9E3779B97F4A7C15)) 32 mod num_shards r in
  let b := Z.shiftr (as_u64 (doc_id * 0x517CC1B727220A95)) 32 mod num_shards r in
  let b := if a =? b then (b + 1) mod num_shards r else b in
  let total := f64.of_Z (Z.max (total_docs r) 1) in
  score_a ← score_shard r a doc_tokens total;
  score_b ← score_shard r b doc_tokens total;
  let best := if f64.leb score_a score_b then a else b in
  r ← apply_route r best doc_tokens;
  Ret (r, best).

Definition record_node_id (r : ShardRouter) (node_id shard_id : Z) : ShardRouter := set_nodes r (<[node_id := shard_id]> (node_id_to_shard r)).
Definition shard_for_node_id (r : ShardRouter) (node_id : Z) : option Z := node_id_to_shard r !! node_id.
Definition remove_node_id (r : ShardRouter) (node_id : Z) : ShardRouter * option Z :=
  (set_nodes r (delete node_id (node_id_to_shard r)), node_id_to_shard r !! node_id).

(** [FxHasher::write], from the hash so far. *)
Definition fx_write (hash : Z) (bytes : list Z) : Z := fold_left (λ hash b, as_u64 (hash * 0x100000001b3 + b)) bytes hash.

Definition hash_bytes (bytes : list Z) : Z := fx_write 0 bytes.

(** [token.hash(&mut hasher)]: [str] writes its bytes, then the byte 0xff. *)
Definition hash_token (token : list Z) : Z := fx_write (fx_write 0 token) [0xFF].

(** One term of a shard in [resync]. *)
Definition visit_term (r : ShardRouter) (shard_id : Z) (t : list Z * Z) : out ShardRouter :=
  if snd t =? 0 then Ret r else
  let h := hash_bytes (fst t) in
  let g := bump (snd t) h (global_token_counts r) in
  m ← index (shard_token_counts r) shard_id;
  Ret (set_tokens r (set_at shard_id (bump (snd t) h m) (shard_token_counts r)) g).

(** The visits of the closures are the list of shards with their terms. *)
Definition resync (r : ShardRouter) (shards : list (Z * list (list Z * Z))) : out ShardRouter :=
  let r := set_tokens r (map (λ _, ∅) (shard_token_counts r)) ∅ in
  r ← foldM (λ r s, foldM (λ r t, visit_term r (fst s) t) r (snd s)) r shards;
  let above := (filter (λ kv, df_threshold r <= snd kv) (map_to_list (global_token_counts r))).*1 in
  Ret (fold_left (λ r h, set_tokens r (map (delete h) (shard_token_counts r)) (delete h (global_token_counts r))) above r).

(** ** The file *)

Section Bytes.
(** The order in which a [HashMap] is iterated. *)
Variable iter : gmap Z Z → list (Z * Z).

Definition write_pair (buf : list Z) (p : Z * Z) : list Z := buf ++ to_le_bytes 8 (fst p) ++ to_le_bytes 4 (as_u32 (snd p)).
Definition write_map (buf : list Z) (m : gmap Z Z) : list Z := write_all write_pair buf (iter m).

Definition to_bytes (r : ShardRouter) : list Z :=
  let buf := [0x53; 0x48; 0x52; 0x44] ++ [3] ++ to_le_bytes 4 (as_u32 (num_shards r)) ++ to_le_bytes 4 (df_threshold r) ++ to_le_bytes 8 (balance_weight r) in
  let buf := fold_left (λ buf c, buf ++ to_le_bytes 8 c) (shard_doc_counts r) buf in
  let buf := write_map buf (global_token_counts r) in
  let buf := fold_left write_map (shard_token_counts r) buf in
  write_map buf (node_id_to_shard r).
End Bytes.

(** The closures [read_u64] and [read_f64] (the bits). *)
Definition read_u64 : reader Z := λ data pos,
  if #data <? pos + 8 then Ret (inr (TruncatedAt pos)) else
  v ← u64_at data pos; Ret (inl (v, pos + 8)).

Definition read_pair : reader (Z * Z) := hash ← read_u64; count ← read_u32; mret (hash, count).

(** A count, then that many insertions. *)
Definition read_map : reader (gmap Z Z) :=
  ps ← read_all read_pair;
  mret (fold_left (λ m p, <[fst p := snd p]> m) ps ∅).

(** [if pos < data.len()]. *)
Definition at_end : reader bool := λ data pos, Ret (inl (#data <=? pos, pos)).

Definition stats_body (version : Z) : reader ShardRouter :=
  n ← read_u32;
  threshold ← read_u32;
  weight ← (if 3 <=? version then read_u64 else mret DEFAULT_BALANCE_WEIGHT);
  docs ← times (Z.to_nat n) read_u64;
  global ← read_map;
  shards ← times (Z.to_nat n) read_map;
  done ← at_end;
  nodes ← (if (2 <=? version) && negb done then read_map else mret ∅);
  mret {| num_shards := n; shard_token_counts := shards; global_token_counts := global; shard_doc_counts := docs;
          df_threshold := threshold; balance_weight := weight; node_id_to_shard := nodes |}.

Definition from_bytes (data : list Z) : out (ShardRouter + Error) :=
  decode 5 [0x53; 0x48; 0x52; 0x44]
    (version ← read_flag;
     if (1 <=? version) && (version <=? 3) then stats_body version else fail (UnsupportedVersion version)) data.

End router.
Import router.

(** The hashes of the fourth document of three go to the first shard again. *)
Example routed_round_robin :
  (r ← foldM (λ rs (_ : Z), '(r, i) ← route (fst rs) [7; 8]; Ret (r, snd rs ++ [i])) (new 3, []) (range 0 9); Ret (snd r, shard_doc_counts (fst r))) = Ret ([0; 1; 2; 0; 1; 2; 0; 1; 2], [3; 3; 3]).
Proof. by vm_compute. Qed.

(** ** The shard router: the proofs

    The file reads back; the counters of the shards add up to the global
    ones; the shard chosen is one of the best; and the counters rebuilt by
    [resync] are not the ones [route] reads. *)
Import binary router.
Open Scope Z_scope.

(** ** The file *)

Definition map_ok (m : gmap Z Z) : Prop := fits 32 (Z.of_nat (size m)) ∧ map_Forall (λ k v, fits 64 k ∧ fits 32 v) m.

(** The widths of the fields, and one entry per shard. *)
Record router_ok (r : ShardRouter) : Prop := {
  ro_num : fits 32 (num_shards r);
  ro_threshold : fits 32 (df_threshold r);
  ro_weight : fits 64 (balance_weight r);
  ro_docs : #(shard_doc_counts r) = num_shards r;
  ro_doc_counts : Forall (fits 64) (shard_doc_counts r);
  ro_global : map_ok (global_token_counts r);
  ro_shards : #(shard_token_counts r) = num_shards r;
  ro_shard_counts : Forall map_ok (shard_token_counts r);
  ro_nodes : map_ok (node_id_to_shard r);
}.

Lemma u64_bytes v : fits 64 v → reads read_u64 (to_le_bytes 8 v) v.
Proof.
  intros Hv data pos rest Hat. pose proof (At_len _ _ _ Hat) as Hl. rewrite len_app, len_to_le_bytes in Hl. destruct (At_u64 _ _ _ _ Hat Hv) as [E _].
  unfold read_u64. pose proof (len_nonneg rest). case_lia. by rewrite E, len_to_le_bytes.
Qed.

Definition pair_bytes (p : Z * Z) : list Z := to_le_bytes 8 (fst p) ++ to_le_bytes 4 (as_u32 (snd p)).

Lemma reads_pair p : fits 64 (fst p) → fits 32 (snd p) → reads read_pair (pair_bytes p) p.
Proof.
  destruct p as [k v]. cbn. intros Hk Hv. eapply reads_bind; [by apply u64_bytes|]. cbn [snd]. rewrite <- (app_nil_r (to_le_bytes 4 _)). eapply reads_bind; [by apply u32_bytes|apply reads_ret].
Qed.

Lemma inserted_all (ps : list (Z * Z)) (m : gmap Z Z) : ps ≡ₚ map_to_list m → fold_left (λ m p, <[fst p := snd p]> m) ps ∅ = m.
Proof.
  intros Hp. assert (NoDup ps.*1) as Hnd by (rewrite Hp; apply NoDup_fst_map_to_list). rewrite <- (list_to_map_to_list m). erewrite <- (list_to_map_proper ps) by done. clear m Hp.
  assert (∀ m : gmap Z Z, (∀ k, k ∈ ps.*1 → m !! k = None) → fold_left (λ m p, <[fst p := snd p]> m) ps m = list_to_map ps ∪ m) as H.
  { induction ps as [|[k v] ps IH]; intros m Hm; cbn; [by rewrite map_empty_union|]. cbn in Hnd. apply NoDup_cons in Hnd as [Hk Hnd]. rewrite IH; [|done|].
    - rewrite <- insert_union_l, insert_union_r; [done|]. by apply not_elem_of_list_to_map_1.
    - intros k' Hk'. rewrite lookup_insert_ne by (intros ->; done). apply Hm. by right. }
  rewrite H by (intros; apply lookup_empty). by rewrite map_union_empty.
Qed.

Lemma at_end_more {A} (f : bool → reader A) bytes a : bytes ≠ [] → reads (f false) bytes a → reads (at_end ≫= f) bytes a.
Proof.
  intros Hne Hf data pos rest Hat. rewrite bind_unfold. pose proof (At_len _ _ _ Hat) as Hl. rewrite len_app in Hl. pose proof (len_nonneg rest). assert (0 < #bytes) by (destruct bytes; [done|]; rewrite len_cons; pose proof (len_nonneg bytes); lia).
  unfold at_end. replace (#data <=? pos) with false by lia. by apply (Hf _ _ rest).
Qed.

Lemma fold_put {A} (put : list Z → A → list Z) enc l : (∀ b a, put b a = b ++ enc a) → ∀ buf, fold_left put l buf = buf ++ flat_map enc l.
Proof. intros Hput. induction l as [|a l IH]; intros buf; cbn; [by rewrite app_nil_r|]. by rewrite IH, Hput, app_assoc. Qed.

Section Stats.
Variable iter : gmap Z Z → list (Z * Z).
Hypothesis iter_all : ∀ m, iter m ≡ₚ map_to_list m.

Definition map_bytes (m : gmap Z Z) : list Z := all_bytes_of pair_bytes (iter m).

Lemma write_map_eq buf m : write_map iter buf m = buf ++ map_bytes m.
Proof using. unfold write_map. by rewrite (write_all_eq _ pair_bytes). Qed.

Lemma reads_map m : map_ok m → reads read_map (map_bytes m) m.
Proof using iter_all.
  intros [Hs Hm]. rewrite <- (app_nil_r (map_bytes m)). eapply reads_bind.
  - apply reads_all.
    + unfold len. rewrite iter_all, length_map_to_list. done.
    + intros [k v] Hin. rewrite iter_all in Hin. apply elem_of_map_to_list in Hin. destruct (Hm k v Hin). by apply reads_pair.
  - cbn beta. rewrite (inserted_all _ m) by apply iter_all. apply reads_ret.
Qed.

Definition stats_bytes (r : ShardRouter) : list Z :=
  to_le_bytes 4 (as_u32 (num_shards r)) ++ to_le_bytes 4 (as_u32 (df_threshold r)) ++ to_le_bytes 8 (balance_weight r) ++ flat_map (to_le_bytes 8) (shard_doc_counts r) ++
  map_bytes (global_token_counts r) ++ flat_map map_bytes (shard_token_counts r) ++ map_bytes (node_id_to_shard r).

Lemma to_bytes_eq r : router_ok r → to_bytes iter r = [0x53; 0x48; 0x52; 0x44] ++ [3] ++ stats_bytes r.
Proof using.
  intros Hr. unfold to_bytes, stats_bytes. rewrite write_map_eq, (fold_put _ map_bytes) by apply write_map_eq. rewrite write_map_eq, (fold_put _ (to_le_bytes 8)) by done.
  unfold as_u32 at 3. rewrite (Z.mod_small (df_threshold r)) by apply (ro_threshold _ Hr). by rewrite <- !app_assoc.
Qed.

Lemma reads_stats r : router_ok r → reads (stats_body 3) (stats_bytes r) r.
Proof using iter_all.
  intros [Hn Ht Hw Hd Hdc Hg Hs Hsc Hno]. rewrite Forall_forall in Hdc. rewrite Forall_forall in Hsc. destruct r as [n ts g ds t w m]. cbn [num_shards shard_token_counts global_token_counts shard_doc_counts df_threshold balance_weight node_id_to_shard] in *.
  unfold stats_body, stats_bytes. cbn [num_shards shard_token_counts global_token_counts shard_doc_counts df_threshold balance_weight node_id_to_shard].
  eapply reads_bind; [by apply u32_bytes|]. eapply reads_bind; [by apply u32_bytes|]. cbn [Z.leb Z.compare Pos.compare Pos.compare_cont]. eapply reads_bind; [by apply u64_bytes|].
  assert (Z.to_nat n = length ds) as -> by (rewrite <- Hd; unfold len; lia). eapply reads_bind.
  { apply (reads_times _ _ (λ x, x)). intros c Hc. apply u64_bytes. by apply Hdc. }
  eapply reads_bind; [by apply reads_map|]. assert (length ds = length ts) as -> by (unfold len in *; lia). eapply reads_bind.
  { apply (reads_times _ _ (λ x, x)). intros c Hc. apply reads_map. by apply Hsc. }
  apply at_end_more; [unfold map_bytes, all_bytes_of; intros E; apply app_nil in E as [E _]; by apply (f_equal length) in E|]. cbn [andb negb]. rewrite <- (app_nil_r (map_bytes m)).
  eapply reads_bind; [by apply reads_map|]. rewrite !map_id. apply reads_ret.
Qed.

(** The statistics file reads back: the router restored from
    [_shard_stats.bin] is the one written, with its threshold, weight,
    document counts, token counts and node assignments, whatever the order in
    which the hash maps were walked. *)
Theorem router_roundtrip r rest : router_ok r → from_bytes (to_bytes iter r ++ rest) = Ret (inl r).
Proof using iter_all.
  intros Hr. rewrite (to_bytes_eq r Hr). rewrite <- !app_assoc, (app_assoc [3]). apply decode_reads.
  - apply (reads_bind read_flag _ [3] (stats_bytes r) 3); [apply reads_flag|]. by apply reads_stats.
  - rewrite !len_app. pose proof (len_nonneg (stats_bytes r)). change (len [83; 72; 82; 68]) with 4. change (len [3]) with 1. lia.
Qed.
End Stats.

(** ** The two hashes *)

Lemma fx_write_fits bytes : ∀ h, fits 64 h → fits 64 (fx_write h bytes).
Proof. induction bytes as [|b bytes IH]; intros h Hh; [done|]. apply IH. unfold as_u64, fits. apply Z.mod_pos_bound. lia. Qed.

(** C19. The counters that [resync] rebuilds are keyed by [hash_bytes] of a term,
    those [route] reads by [hash_token] of a token: for no text are the two
    the same, so a term counted by [resync] is never found under its token. *)
Theorem resync_hash_differs text : hash_token text ≠ hash_bytes text.
Proof.
  unfold hash_token, hash_bytes. assert (fits 64 (fx_write 0 text)) as Hh by (apply fx_write_fits; widths; lia). generalize dependent (fx_write 0 text). intros h Hh E. cbn in E. unfold as_u64 in E.
  pose proof (Z.div_mod (h * 0x100000001b3 + 255) (2 ^ 64) ltac:(lia)) as Hd. rewrite E in Hd. clear E Hh. generalize dependent ((h * 0x100000001b3 + 255) / 2 ^ 64). intros q Hd. change (2 ^ 64) with 18446744073709551616 in Hd. lia.
Qed.

(** ** The order of scores *)

Lemma ltb_positive m1 e1 m2 e2 : SFltb (S754_finite false m1 e1) (S754_finite false m2 e2) = true ↔ e1 < e2 ∨ e1 = e2 ∧ Z.pos m1 < Z.pos m2.
Proof.
  unfold SFltb, SFcompare. change (Pos.compare_cont Eq m1 m2) with (Z.pos m1 ?= Z.pos m2). destruct (Z.compare_spec e1 e2); [|split; [lia|done]|split; [done|lia]].
  destruct (Z.compare_spec (Z.pos m1) (Z.pos m2)); split; (done || lia).
Qed.

Lemma ltb_negative m1 e1 m2 e2 : SFltb (S754_finite true m1 e1) (S754_finite true m2 e2) = true ↔ e2 < e1 ∨ e1 = e2 ∧ Z.pos m2 < Z.pos m1.
Proof.
  unfold SFltb, SFcompare. change (Pos.compare_cont Eq m1 m2) with (Z.pos m1 ?= Z.pos m2). destruct (Z.compare_spec e1 e2); [|split; [done|lia]|split; [lia|done]].
  destruct (Z.compare_spec (Z.pos m1) (Z.pos m2)); split; (done || lia).
Qed.

Lemma ltb_trans a b c : SFltb a b = true → SFltb b c = true → SFltb a c = true.
Proof.
  destruct a as [[]|[]| |[] m1 e1], b as [[]|[]| |[] m2 e2], c as [[]|[]| |[] m3 e3]; try done; rewrite ?ltb_positive, ?ltb_negative; lia.
Qed.

(** ** The counters *)

Definition count (m : counters) (h : Z) : Z := default 0 (m !! h).
Definition local_sum (ms : list counters) (h : Z) : Z := foldr (λ m n, count m h + n) 0 ms.

Lemma count_empty h : count ∅ h = 0.
Proof. unfold count. by rewrite lookup_empty. Qed.

Lemma count_bump n h m h' : count (bump n h m) h' = if h =? h' then add32 (count m h) n else count m h'.
Proof. unfold count, bump. destruct (Z.eqb_spec h h') as [<-|]; [by rewrite lookup_insert_eq|by rewrite lookup_insert_ne]. Qed.

Lemma local_sum_cons m ms h : local_sum (m :: ms) h = count m h + local_sum ms h.
Proof. reflexivity. Qed.

Lemma local_sum_set ms i m m' h : ms !! i = Some m → local_sum (<[i := m']> ms) h = local_sum ms h - count m h + count m' h.
Proof.
  revert i. induction ms as [|a ms IH]; intros [|i] Hi; [done|done|injection Hi as ->; change (<[0%nat := m']> (m :: ms)) with (m' :: ms); rewrite !local_sum_cons; lia|].
  change (<[S i := m']> (a :: ms)) with (a :: <[i := m']> ms). rewrite !local_sum_cons, (IH i Hi). lia.
Qed.

Lemma local_sum_nonneg ms h : Forall (λ m, 0 ≤ count m h) ms → 0 ≤ local_sum ms h.
Proof. intros Hl. induction Hl; [done|]. rewrite local_sum_cons. lia. Qed.

Lemma local_sum_bound ms i m h : ms !! i = Some m → Forall (λ m, 0 ≤ count m h) ms → 0 ≤ count m h ≤ local_sum ms h.
Proof.
  intros Hi Hf. revert i Hi. induction Hf as [|a ms Ha Hf IH]; intros [|i] Hi; [done|done| |]; rewrite local_sum_cons.
  - injection Hi as ->. pose proof (local_sum_nonneg ms h Hf). lia.
  - specialize (IH i Hi). lia.
Qed.

(** [w] bounds what was counted so far; below the threshold the shards add up
    to the global count, and never exceed it. *)
Record counts_ok (n w : Z) (r : ShardRouter) : Prop := {
  co_num : num_shards r = n;
  co_shards : #(shard_token_counts r) = n;
  co_docs : #(shard_doc_counts r) = n;
  co_nonneg : ∀ h, Forall (λ m, 0 ≤ count m h) (shard_token_counts r);
  co_below : ∀ h, local_sum (shard_token_counts r) h ≤ count (global_token_counts r) h ≤ w;
  co_sum : ∀ h, count (global_token_counts r) h < df_threshold r → local_sum (shard_token_counts r) h = count (global_token_counts r) h;
}.

Lemma counts_weaken n w w' r : counts_ok n w r → w ≤ w' → counts_ok n w' r.
Proof. intros [] Hw. split; try done. intros h. specialize (co_below0 h). lia. Qed.

(** Counting [k] more of a token, in one shard and globally. *)
Lemma counted_shard n w r i h k m : counts_ok n w r → 0 ≤ k → w + k < 2 ^ 32 → shard_token_counts r !! i = Some m →
  counts_ok n (w + k) (set_tokens r (<[i := bump k h m]> (shard_token_counts r)) (bump k h (global_token_counts r))).
Proof.
  intros [Hn Hs Hd Hnn Hb Hsum] Hk Hw Hi. assert (∀ x, 0 ≤ x ≤ w → add32 x k = x + k) as Hadd by (intros x Hx; unfold add32, as_u32; apply Z.mod_small; lia).
  pose proof (local_sum_bound _ _ _ h Hi (Hnn h)) as Hm. specialize (Hb h) as Hbh. assert (∀ h', count (bump k h m) h' = count m h' + if h =? h' then k else 0) as Hcm.
  { intros h'. rewrite count_bump. destruct (Z.eqb_spec h h') as [<-|]; [|lia]. rewrite Hadd; lia. }
  assert (∀ h', count (bump k h (global_token_counts r)) h' = count (global_token_counts r) h' + if h =? h' then k else 0) as Hcg.
  { intros h'. rewrite count_bump. destruct (Z.eqb_spec h h') as [<-|]; [|lia]. rewrite Hadd; lia. }
  split; cbn [set_tokens num_shards shard_token_counts global_token_counts shard_doc_counts df_threshold]; [done|by rewrite len_insert|done| | |].
  - intros h'. apply Forall_insert; [apply Hnn|]. rewrite Hcm. pose proof (local_sum_bound _ _ _ h' Hi (Hnn h')). destruct (h =? h'); lia.
  - intros h'. rewrite (local_sum_set _ _ m), Hcm, Hcg by done. specialize (Hb h'). destruct (h =? h'); lia.
  - intros h'. rewrite (local_sum_set _ _ m), Hcm, Hcg by done. specialize (Hsum h'). destruct (h =? h'); lia.
Qed.

(** Counting it globally only, at or past the threshold. *)
Lemma counted_global n w r h : counts_ok n w r → w + 1 < 2 ^ 32 → df_threshold r ≤ count (global_token_counts r) h + 1 →
  counts_ok n (w + 1) (set_tokens r (shard_token_counts r) (bump 1 h (global_token_counts r))).
Proof.
  intros [Hn Hs Hd Hnn Hb Hsum] Hw Ht. assert (∀ h', count (bump 1 h (global_token_counts r)) h' = count (global_token_counts r) h' + if h =? h' then 1 else 0) as Hcg.
  { intros h'. rewrite count_bump. destruct (Z.eqb_spec h h') as [<-|]; [|lia]. specialize (Hb h). pose proof (local_sum_nonneg _ h (Hnn h)). unfold add32, as_u32. apply Z.mod_small. lia. }
  split; cbn [set_tokens num_shards shard_token_counts global_token_counts shard_doc_counts df_threshold]; try done; intros h'; rewrite Hcg; specialize (Hb h'); specialize (Hsum h'); destruct (Z.eqb_spec h h') as [<-|]; lia.
Qed.

Lemma shard_at n w r i : counts_ok n w r → 0 ≤ i < n → ∃ m, shard_token_counts r !! Z.to_nat i = Some m.
Proof. intros [_ Hs _ _ _ _] Hi. apply lookup_lt_is_Some. unfold len in Hs. lia. Qed.

Lemma docs_at n w r i : counts_ok n w r → 0 ≤ i < n → ∃ c, shard_doc_counts r !! Z.to_nat i = Some c.
Proof. intros [_ _ Hs _ _ _] Hi. apply lookup_lt_is_Some. unfold len in Hs. lia. Qed.

Lemma update_ok n w r i h : counts_ok n w r → 0 ≤ i < n → w + 1 < 2 ^ 32 → ∃ r', update_counters_for_token r i h = Ret r' ∧ counts_ok n (w + 1) r' ∧ shard_doc_counts r' = shard_doc_counts r ∧ df_threshold r' = df_threshold r.
Proof.
  intros Hr Hi Hw. unfold update_counters_for_token. change (default 0 (bump 1 h (global_token_counts r) !! h)) with (count (bump 1 h (global_token_counts r)) h). rewrite count_bump, Z.eqb_refl.
  assert (add32 (count (global_token_counts r) h) 1 = count (global_token_counts r) h + 1) as ->.
  { pose proof (co_below _ _ _ Hr h). pose proof (local_sum_nonneg _ h (co_nonneg _ _ _ Hr h)). unfold add32, as_u32. apply Z.mod_small. lia. }
  destruct (Z.ltb_spec (count (global_token_counts r) h + 1) (df_threshold r)).
  - destruct (shard_at _ _ _ i Hr Hi) as [m Hm]. rewrite (index_lookup _ i m) by (lia || done). rewrite bind_ret. eexists. split; [done|]. split_and!; [|done|done]. unfold set_at. apply counted_shard; (done || lia).
  - eexists. split; [done|]. split_and!; [|done|done]. by apply counted_global.
Qed.

(** ** Routing *)

Lemma updates_ok n i tokens : ∀ w r, counts_ok n w r → 0 ≤ i < n → w + #tokens < 2 ^ 32 →
  ∃ r', foldM (λ r h, update_counters_for_token r i h) r tokens = Ret r' ∧ counts_ok n (w + #tokens) r' ∧ shard_doc_counts r' = shard_doc_counts r ∧ df_threshold r' = df_threshold r.
Proof.
  induction tokens as [|h tokens IH]; intros w r Hr Hi Hw; [exists r; rewrite len_nil, Z.add_0_r; done|]. rewrite len_cons in *. pose proof (len_nonneg tokens).
  destruct (update_ok n w r i h Hr Hi ltac:(lia)) as (r1 & E1 & H1 & Hd1 & Ht1). destruct (IH (w + 1) r1 H1 Hi ltac:(lia)) as (r2 & E2 & H2 & Hd2 & Ht2). exists r2. cbn [foldM]. rewrite E1, bind_ret, E2.
  split_and!; [done| |by rewrite Hd2|by rewrite Ht2]. by replace (w + (1 + #tokens)) with (w + 1 + #tokens) by lia.
Qed.

Lemma set_docs_ok n w r d : counts_ok n w r → #d = n → counts_ok n w (set_docs r d).
Proof. intros [] Hd. by split. Qed.

Lemma apply_route_ok n w r i tokens : counts_ok n w r → 0 ≤ i < n → w + #tokens < 2 ^ 32 → ∃ c r', apply_route r i tokens = Ret r' ∧ counts_ok n (w + #tokens) r' ∧
  shard_doc_counts r !! Z.to_nat i = Some c ∧ shard_doc_counts r' = <[Z.to_nat i := as_u64 (c + 1)]> (shard_doc_counts r).
Proof.
  intros Hr Hi Hw. destruct (docs_at _ _ _ i Hr Hi) as [c Hc]. unfold apply_route. rewrite (index_lookup _ i c) by (lia || done). rewrite bind_ret. unfold set_at.
  destruct (updates_ok n i tokens w (set_docs r (<[Z.to_nat i := as_u64 (c + 1)]> (shard_doc_counts r)))) as (r' & E & H' & Hd & _); [apply set_docs_ok; [done|rewrite len_insert; apply Hr]|done|done|].
  exists c, r'. split_and!; [done|done|done|]. by rewrite Hd.
Qed.

Lemma score_ok n w r i tokens total : counts_ok n w r → 0 ≤ i < n → ∃ s, score_shard r i tokens total = Ret s.
Proof.
  intros Hr Hi. destruct (shard_at _ _ _ i Hr Hi) as [m Hm]. destruct (docs_at _ _ _ i Hr Hi) as [c Hc]. unfold score_shard. rewrite (index_lookup _ i m) by (lia || done). rewrite bind_ret.
  rewrite (index_lookup _ i c) by (lia || done). rewrite bind_ret. eauto.
Qed.

(** No shard scores below the one chosen; or none scores below [f64::MAX],
    and the first is taken. *)
Definition best_of (score : Z → out spec_float) (is_ : list Z) (best : Z * spec_float) : Prop :=
  (best = (0, f64.MAX) ∨ fst best ∈ is_ ∧ score (fst best) = Ret (snd best) ∧ f64.ltb (snd best) f64.MAX = true) ∧
  ∀ j s, j ∈ is_ → score j = Ret s → f64.ltb s (snd best) = false.

Lemma best_step score is_ best i s : best_of score is_ best → score i = Ret s → best_of score (is_ ++ [i]) (if f64.ltb s (snd best) then (i, s) else best).
Proof.
  intros [Hb Hall] Hi. destruct (f64.ltb s (snd best)) eqn:E; split; cbn [fst snd].
  - right. split_and!; [apply elem_of_app; right; by apply list_elem_of_singleton|done|]. destruct Hb as [->|(_ & _ & Hlt)]; [done|]. by eapply ltb_trans.
  - intros j s' [Hj|Hj%list_elem_of_singleton]%elem_of_app Hs'.
    + destruct (f64.ltb s' s) eqn:E'; [|done]. pose proof (Hall j s' Hj Hs') as Hn. unfold f64.ltb in *. by rewrite (ltb_trans _ _ _ E' E) in Hn.
    + subst j. rewrite Hi in Hs'. injection Hs' as <-. destruct (f64.ltb s s) eqn:E'; [|done]. unfold f64.ltb in *. destruct s as [[]|[]| |[] m e]; try done; [apply ltb_negative in E'|apply ltb_positive in E']; lia.
  - destruct Hb as [->|(H1 & H2 & H3)]; [by left|]. right. split_and!; [apply elem_of_app; by left|done|done].
  - intros j s' [Hj|Hj%list_elem_of_singleton]%elem_of_app Hs'; [by eapply Hall|]. subst j. rewrite Hi in Hs'. by injection Hs' as <-.
Qed.

Lemma best_fold score is_ : ∀ seen best, best_of score seen best → (∀ i, i ∈ is_ → ∃ s, score i = Ret s) →
  ∃ best', foldM (λ best i, s ← score i; Ret (if f64.ltb s (snd best) then (i, s) else best)) best is_ = Ret best' ∧ best_of score (seen ++ is_) best'.
Proof.
  induction is_ as [|i is_ IH]; intros seen best Hb Hs; [exists best; by rewrite app_nil_r|]. destruct (Hs i ltac:(left)) as [s Ei]. cbn [foldM]. rewrite Ei, !bind_ret.
  destruct (IH (seen ++ [i]) _ (best_step _ _ _ _ _ Hb Ei)) as (b' & E & H'); [intros j Hj; apply Hs; by right|]. exists b'. split; [exact E|]. by rewrite <- app_assoc in H'.
Qed.

Lemma best_shard_ok n w r tokens total : counts_ok n w r → 0 < n →
  ∃ best, best_shard r tokens total = Ret best ∧ 0 ≤ fst best < n ∧ best_of (λ i, score_shard r i tokens total) (range 0 n) best.
Proof.
  intros Hr Hn. unfold best_shard. rewrite (co_num _ _ _ Hr). destruct (best_fold (λ i, score_shard r i tokens total) (range 0 n) [] (0, f64.MAX)) as (b & E & Hb).
  - split; [by left|]. intros j s Hj. by apply elem_of_nil in Hj.
  - intros i Hi. apply elem_of_range in Hi. eapply score_ok; [done|lia].
  - exists b. split_and!; [done| | |done]; destruct Hb as [[->|(Hin & _)] _]; cbn; try lia; apply elem_of_range in Hin; lia.
Qed.

(** The total the scores are relative to. *)
Definition total_of (r : ShardRouter) : spec_float := f64.of_Z (Z.max (total_docs r) 1).

(** What routing a document comes to: shard [i], one more document there, the
    tokens counted. *)
Record routed (n w : Z) (r r' : ShardRouter) (tokens : list Z) (i : Z) : Prop := {
  rt_range : 0 ≤ i < n;
  rt_counts : counts_ok n (w + #tokens) r';
  rt_docs : ∃ c, shard_doc_counts r !! Z.to_nat i = Some c ∧ shard_doc_counts r' = <[Z.to_nat i := as_u64 (c + 1)]> (shard_doc_counts r);
}.

Lemma route_ok n w r tokens : counts_ok n w r → 0 < n → w + #tokens < 2 ^ 32 → ∃ r' i, route r tokens = Ret (r', i) ∧ routed n w r r' tokens i ∧
  (n = 1 ∨ ∃ s, best_of (λ i, score_shard r i tokens (total_of r)) (range 0 n) (i, s)).
Proof.
  intros Hr Hn Hw. unfold route. rewrite (co_num _ _ _ Hr). destruct (Z.eqb_spec n 1) as [->|Hne].
  - destruct (apply_route_ok 1 w r 0 tokens Hr ltac:(lia) Hw) as (c & r' & -> & H1 & H2 & H3). rewrite bind_ret. exists r', 0. split; [done|]. split; [|by left]. split; [lia|done|by exists c].
  - fold (total_of r). destruct (best_shard_ok n w r tokens (total_of r) Hr Hn) as ([i s] & -> & Hi & Hb). cbn [fst] in *. rewrite bind_ret. cbn [fst]. destruct (apply_route_ok n w r i tokens Hr Hi Hw) as (c & r' & -> & H1 & H2 & H3). rewrite bind_ret.
    exists r', i. split; [done|]. split; [split; [done|done|by exists c]|]. right. by exists s.
Qed.

Lemma route_p2c_ok n w r tokens id : counts_ok n w r → 0 < n → w + #tokens < 2 ^ 32 → ∃ r' i, route_p2c r tokens id = Ret (r', i) ∧ routed n w r r' tokens i.
Proof.
  intros Hr Hn Hw. unfold route_p2c. rewrite (co_num _ _ _ Hr). destruct (Z.leb_spec n 2); [destruct (route_ok n w r tokens Hr Hn Hw) as (r' & i & E & Hrt & _); eauto|].
  set (a := _ mod n). set (b0 := _ mod n). set (b := if a =? b0 then _ else b0). assert (0 ≤ a < n) as Ha by (apply Z.mod_pos_bound; lia). assert (0 ≤ b < n) as Hb by (unfold b; destruct (a =? b0); apply Z.mod_pos_bound; lia).
  destruct (score_ok n w r a tokens (f64.of_Z (Z.max (total_docs r) 1)) Hr Ha) as [sa ->]. destruct (score_ok n w r b tokens (f64.of_Z (Z.max (total_docs r) 1)) Hr Hb) as [sb ->]. rewrite !bind_ret.
  set (i := if f64.leb sa sb then a else b). assert (0 ≤ i < n) as Hi by (unfold i; by destruct (f64.leb sa sb)). destruct (apply_route_ok n w r i tokens Hr Hi Hw) as (c & r' & -> & H1 & H2 & H3). rewrite bind_ret.
  exists r', i. split; [done|]. split; [done|done|by exists c].
Qed.

(** ** Resynchronisation *)

Definition terms_weight (ts : list (list Z * Z)) : Z := foldr (λ t n, snd t + n) 0 ts.
Definition visits_weight (vs : list (Z * list (list Z * Z))) : Z := foldr (λ s n, terms_weight (snd s) + n) 0 vs.
Definition terms_ok (ts : list (list Z * Z)) : Prop := Forall (λ t, 0 ≤ snd t) ts.

Lemma terms_weight_nonneg ts : terms_ok ts → 0 ≤ terms_weight ts.
Proof. intros H. induction H as [|t ts Ht _ IH]; [done|]. change (0 ≤ snd t + terms_weight ts). lia. Qed.

Lemma visit_ok n w r i t : counts_ok n w r → 0 ≤ i < n → 0 ≤ snd t → w + snd t < 2 ^ 32 → ∃ r', visit_term r i t = Ret r' ∧ counts_ok n (w + snd t) r'.
Proof.
  intros Hr Hi Ht Hw. unfold visit_term. destruct (Z.eqb_spec (snd t) 0) as [->|]; [exists r; by rewrite Z.add_0_r|]. destruct (shard_at _ _ _ i Hr Hi) as [m Hm].
  rewrite (index_lookup _ i m) by (lia || done). rewrite bind_ret. eexists. split; [done|]. unfold set_at. by apply counted_shard.
Qed.

Lemma visit_terms_ok n i ts : ∀ w r, counts_ok n w r → 0 ≤ i < n → terms_ok ts → w + terms_weight ts < 2 ^ 32 → ∃ r', foldM (λ r t, visit_term r i t) r ts = Ret r' ∧ counts_ok n (w + terms_weight ts) r'.
Proof.
  induction ts as [|t ts IH]; intros w r Hr Hi Hts Hw; [exists r; cbn; by rewrite Z.add_0_r|]. inversion Hts as [|? ? Ht Hts']; subst. cbn [terms_weight foldr] in *. fold (terms_weight ts) in *. pose proof (terms_weight_nonneg ts Hts').
  destruct (visit_ok n w r i t Hr Hi Ht ltac:(lia)) as (r1 & E1 & H1). destruct (IH (w + snd t) r1 H1 Hi Hts' ltac:(lia)) as (r2 & E2 & H2). exists r2. cbn [foldM]. rewrite E1, bind_ret. split; [done|]. by rewrite Z.add_assoc.
Qed.

Definition visits_ok (n : Z) (vs : list (Z * list (list Z * Z))) : Prop := Forall (λ s, 0 ≤ fst s < n ∧ terms_ok (snd s)) vs.

Lemma visits_weight_nonneg n vs : visits_ok n vs → 0 ≤ visits_weight vs.
Proof. intros H. induction H as [|s vs [_ Hs] _ IH]; [done|]. pose proof (terms_weight_nonneg _ Hs). change (0 ≤ terms_weight (snd s) + visits_weight vs). lia. Qed.

Lemma visits_done n vs : ∀ w r, counts_ok n w r → visits_ok n vs → w + visits_weight vs < 2 ^ 32 →
  ∃ r', foldM (λ r s, foldM (λ r t, visit_term r (fst s) t) r (snd s)) r vs = Ret r' ∧ counts_ok n (w + visits_weight vs) r'.
Proof.
  induction vs as [|s vs IH]; intros w r Hr Hvs Hw; [exists r; cbn; by rewrite Z.add_0_r|]. inversion Hvs as [|? ? [Hs Hts] Hvs']; subst. cbn [visits_weight foldr] in *. fold (visits_weight vs) in *.
  pose proof (visits_weight_nonneg n vs Hvs'). pose proof (terms_weight_nonneg _ Hts). destruct (visit_terms_ok n (fst s) (snd s) w r Hr Hs Hts ltac:(lia)) as (r1 & E1 & H1).
  destruct (IH _ r1 H1 Hvs' ltac:(lia)) as (r2 & E2 & H2). exists r2. cbn [foldM]. rewrite E1, bind_ret. split; [done|]. by rewrite Z.add_assoc.
Qed.

Lemma count_delete h (m : counters) h' : count (delete h m) h' = if h =? h' then 0 else count m h'.
Proof. unfold count. destruct (Z.eqb_spec h h') as [<-|]; [by rewrite lookup_delete_eq|by rewrite lookup_delete_ne]. Qed.

Lemma local_sum_delete h ms h' : local_sum (map (delete h) ms) h' = if h =? h' then 0 else local_sum ms h'.
Proof. induction ms as [|m ms IH]; [by destruct (h =? h')|]. cbn [map]. rewrite !local_sum_cons, IH, count_delete. destruct (h =? h'); lia. Qed.

Lemma pruned_ok n w hs : ∀ r, 0 ≤ w → counts_ok n w r → counts_ok n w (fold_left (λ r h, set_tokens r (map (delete h) (shard_token_counts r)) (delete h (global_token_counts r))) hs r).
Proof.
  induction hs as [|h hs IH]; intros r Hw [Hn Hs Hd Hnn Hb Hsum]; [by split|]. cbn [fold_left]. apply IH; [done|]. split; cbn [set_tokens num_shards shard_token_counts global_token_counts shard_doc_counts df_threshold]; [done|by rewrite len_map|done| | |].
  - intros h'. apply Forall_map. eapply Forall_impl; [apply (Hnn h')|]. intros m Hm. cbn. rewrite count_delete. by destruct (h =? h').
  - intros h'. rewrite local_sum_delete, count_delete. specialize (Hb h'). destruct (h =? h'); lia.
  - intros h'. rewrite local_sum_delete, count_delete. specialize (Hsum h'). destruct (h =? h'); [lia|done].
Qed.

Lemma cleared_ok n w r : counts_ok n w r → counts_ok n 0 (set_tokens r (map (λ _, ∅) (shard_token_counts r)) ∅).
Proof.
  intros [Hn Hs Hd _ _ _]. assert (∀ h (ms : list counters), local_sum (map (λ _, ∅) ms) h = 0) as Hz by (intros h ms; induction ms as [|m ms IH]; [done|]; cbn [map]; rewrite local_sum_cons, IH, count_empty; done).
  split; cbn [set_tokens num_shards shard_token_counts global_token_counts shard_doc_counts df_threshold]; [done|by rewrite len_map|done| | |]; intros h; rewrite ?Hz, ?count_empty; [|lia|done]. apply Forall_map, Forall_true. intros m. cbn. by rewrite count_empty.
Qed.

Lemma resync_ok n w r vs : counts_ok n w r → visits_ok n vs → visits_weight vs < 2 ^ 32 → ∃ r', resync r vs = Ret r' ∧ counts_ok n (visits_weight vs) r'.
Proof.
  intros Hr Hvs Hw. unfold resync. destruct (visits_done n vs 0 _ (cleared_ok n w r Hr) Hvs Hw) as (r1 & -> & H1). rewrite bind_ret. eexists. split; [done|]. apply pruned_ok; [by eapply visits_weight_nonneg|exact H1].
Qed.

(** ** The life of a router *)

Inductive event :=
  | Route (tokens : list Z)
  | RouteP2c (tokens : list Z) (doc_id : Z)
  | RecordNode (node_id shard_id : Z)
  | RemoveNode (node_id : Z)
  | Resync (shards : list (Z * list (list Z * Z))).

Definition handle (r : ShardRouter) (e : event) : out ShardRouter :=
  match e with
  | Route ts => '(r, _) ← route r ts; Ret r
  | RouteP2c ts id => '(r, _) ← route_p2c r ts id; Ret r
  | RecordNode n s => Ret (record_node_id r n s)
  | RemoveNode n => Ret (fst (remove_node_id r n))
  | Resync vs => resync r vs
  end.

(** What an event counts, and when it is one the router can be given. *)
Definition event_weight (e : event) : Z := match e with Route ts | RouteP2c ts _ => #ts | Resync vs => visits_weight vs | _ => 0 end.
Definition events_weight (es : list event) : Z := foldr (λ e n, event_weight e + n) 0 es.
Definition event_ok (n : Z) (e : event) : Prop := match e with Resync vs => visits_ok n vs | _ => True end.

Lemma event_weight_nonneg n e : event_ok n e → 0 ≤ event_weight e.
Proof. destruct e; cbn; intros He; try apply len_nonneg; try lia. by eapply visits_weight_nonneg. Qed.

Lemma events_weight_nonneg n es : Forall (event_ok n) es → 0 ≤ events_weight es.
Proof. intros H. induction H as [|e es He _ IH]; [done|]. pose proof (event_weight_nonneg n e He). change (0 ≤ event_weight e + events_weight es). lia. Qed.

Lemma handle_ok n w r e : counts_ok n w r → 0 < n → 0 ≤ w → event_ok n e → w + event_weight e < 2 ^ 32 → ∃ r', handle r e = Ret r' ∧ counts_ok n (w + event_weight e) r'.
Proof.
  intros Hr Hn Hw He Hlt. destruct e as [ts|ts id|k s|k|vs]; cbn [handle event_weight] in *.
  - destruct (route_ok n w r ts Hr Hn Hlt) as (r' & i & -> & [_ H _] & _). by exists r'.
  - destruct (route_p2c_ok n w r ts id Hr Hn Hlt) as (r' & i & -> & [_ H _]). by exists r'.
  - eexists. split; [done|]. rewrite Z.add_0_r. destruct Hr. by split.
  - eexists. split; [done|]. rewrite Z.add_0_r. destruct Hr. by split.
  - pose proof (visits_weight_nonneg n vs He). destruct (resync_ok n w r vs Hr He ltac:(lia)) as (r' & -> & H'). exists r'. split; [done|]. eapply counts_weaken; [exact H'|lia].
Qed.

Lemma handle_all n es : ∀ w r, counts_ok n w r → 0 < n → 0 ≤ w → Forall (event_ok n) es → w + events_weight es < 2 ^ 32 → ∃ r', foldM handle r es = Ret r' ∧ counts_ok n (w + events_weight es) r'.
Proof.
  induction es as [|e es IH]; intros w r Hr Hn Hw He Hlt; [exists r; cbn; by rewrite Z.add_0_r|]. inversion He as [|? ? He1 He2]; subst. cbn [events_weight foldr] in *. fold (events_weight es) in *.
  pose proof (events_weight_nonneg n es He2). pose proof (event_weight_nonneg n e He1). destruct (handle_ok n w r e Hr Hn Hw He1 ltac:(lia)) as (r1 & E1 & H1).
  destruct (IH _ r1 H1 Hn ltac:(lia) He2 ltac:(lia)) as (r2 & E2 & H2). exists r2. cbn [foldM]. rewrite E1, bind_ret. split; [done|]. by rewrite Z.add_assoc.
Qed.

Lemma start_ok n thr weight : 0 ≤ n → counts_ok n 0 (with_options n thr weight).
Proof.
  intros Hn. assert (∀ k h, local_sum (replicate k ∅) h = 0) as Hz by (intros k h; induction k as [|k IH]; [done|]; cbn [replicate]; rewrite local_sum_cons, IH, count_empty; done).
  split; cbn [with_options num_shards shard_token_counts global_token_counts shard_doc_counts df_threshold]; [done|rewrite len_replicate; lia|rewrite len_replicate; lia| | |]; intros h; rewrite ?Hz, ?count_empty; [|lia|done]. apply Forall_replicate. by rewrite count_empty.
Qed.

(** C18. A router lives: whatever sequence of documents routed (by a full scan
    or by two choices), nodes recorded and removed, and resynchronisations,
    nothing panics, and the counters stay true: a token counted fewer times
    than the threshold has shard counts that add up to its global count, and
    no token's shard counts exceed it.  The next document then goes to an
    existing shard that no other scores below, whose document count is the
    only one that grows. *)
Theorem router_counters n thr weight es tokens : 0 < n → Forall (event_ok n) es → events_weight es + #tokens < 2 ^ 32 →
  ∃ r, foldM handle (with_options n thr weight) es = Ret r ∧ counts_ok n (events_weight es) r ∧
    ∃ r' i, route r tokens = Ret (r', i) ∧ routed n (events_weight es) r r' tokens i ∧
      (n = 1 ∨ ∃ s, best_of (λ i, score_shard r i tokens (total_of r)) (range 0 n) (i, s)).
Proof.
  intros Hn He Hw. pose proof (len_nonneg tokens). destruct (handle_all n es 0 _ (start_ok n thr weight ltac:(lia)) Hn ltac:(lia) He ltac:(lia)) as (r & E & Hr). exists r. split_and!; [done|done|].
  by apply route_ok.
Qed.

(** ** Worked routers *)

Definition demo_events : list event := [Route [7; 8]; Route [7]; RecordNode 4 1; RouteP2c [9] 12; Resync [(0, [([0x61], 2)]); (1, [([0x61], 3); ([0x62], 0)])]; Route [7]].

Lemma router_counters_witness : ∃ r, foldM handle (with_options 3 4 f64.ONE_BITS) demo_events = Ret r ∧ counts_ok 3 (events_weight demo_events) r.
Proof.
  destruct (router_counters 3 4 f64.ONE_BITS demo_events [7; 9]) as (r & E & Hr & _); [lia|repeat constructor; cbn; lia|vm_compute; reflexivity|]. exists r. split; [exact E|exact Hr].
Defined.

Definition demo_router : ShardRouter :=
  {| num_shards := 2; shard_token_counts := [{[ 7 := 2 ]}; ∅]; global_token_counts := {[ 7 := 2 ]}; shard_doc_counts := [3; 4]; df_threshold := 10; balance_weight := f64.ONE_BITS; node_id_to_shard := {[ 5 := 1 ]} |}.

Lemma router_roundtrip_witness : from_bytes (to_bytes map_to_list demo_router ++ [1; 2]) = Ret (inl demo_router).
Proof.
  apply (router_roundtrip map_to_list (λ m, Permutation_refl _) demo_router [1; 2]). assert (map_ok ∅ ∧ map_ok {[ 7 := 2 ]} ∧ map_ok {[ 5 := 1 ]}) as (H1 & H2 & H3).
  { split_and!; (split; [rewrite ?map_size_empty, ?map_size_singleton; widths; lia|]); [apply map_Forall_empty|apply map_Forall_singleton; widths; lia..]. }
  split; cbn [demo_router num_shards shard_token_counts global_token_counts shard_doc_counts df_threshold balance_weight node_id_to_shard]; try assumption; try (unfold f64.ONE_BITS; widths; lia); [reflexivity|apply (bool_decide_eq_true_1 (Forall (fits 64) [3; 4])); vm_compute; reflexivity|reflexivity|].
  apply Forall_cons_2; [exact H2|]. apply Forall_cons_2; [exact H1|apply Forall_nil_2].
Defined.
